(* ===== verification/_CoqProject ===== *)
-Q . S2P
Prelude.v
Machine.v
Memory.v
CString.v
Ctype.v
Compare.v
Numeric.v
Double.v
Math.v
Process.v
TestKernel.v
HeapAlloc.v
Format.v
FormatCorrect.v
Stdio.v
Files.v
Time.v
SortSearch.v
Sscanf.v
Keyboard.v
Framebuffer.v
Initfs.v
Wad.v
Ring.v
LineInput.v
Ps2.v
Handlers.v
HandlersCorrect.v
EndToEnd.v
AddressSpace.v
AddressSpaceCorrect.v
AddressSpaceProtect.v
Mapping.v
PageTable.v
PageTableCorrect.v
Paging.v
PageFault.v
PageFaultCorrect.v
VirtualMemory.v
FaultHandled.v
Reclaim.v
ProcessMemory.v
FlatMemory.v
Buddy.v
BuddyCorrect.v
PhysicalMemory.v
MemorySystem.v
Bootstrap.v
Compress.v
CompressCorrect.v
Tasks.v
SpinLock.v
MutexLock.v
RwLock.v
Parker.v
Futex.v
Capabilities.v
CapabilitiesCorrect.v
Ipc.v
Headers.v
CMemory.v
