(* ===== verification/Prelude.v ===== *)
(** * A verification of the Innigkeit C runtime and the kernel paths below it

    Innigkeit is an operating system written in Zig; its C part is the runtime
    that lets the game DOOM run on it as a user process, [src/apps/doom].  This
    development models that runtime and the parts of the kernel its system calls
    reach, and proves them correct, each for itself and put together.

    ** The program

    - [innigkeit_libc.c] is a small C library: a bump allocator, the string and
      character functions, number parsing, formatted and plain console output,
      in-memory files, time, sorting, a pseudo-random generator and stubs.
    - [libc.zig] adds the string comparisons and [vsnprintf].
    - [doomgeneric_innigkeit.c] is the platform layer of the game: display,
      keyboard and clock.
    - [syscalls.zig] wraps the system calls the C files make.
    - In the kernel, [src/src/innigkeit], the handlers of [user/handlers] serve
      them, with the checks of [user/validate.zig]; [filesystem/initfs.zig] looks
      files up in an archive that [tools/initfs_builder] wrote at build time;
      [drivers/virtio/blk.zig] reads sectors; [drivers/input/ps2.zig] takes the
      interrupts of the keyboard and feeds a ring for games and the line
      discipline of the console, [init/input/KeyboardInputBuffer.zig].
    - The memory of a process is made of an address space
      ([memory/address_space/AddressSpace.zig]), which records what is mapped,
      anonymous maps ([AnonMap.zig], [AnonPage.zig]), which hold the pages a
      process has touched, a page table ([architecture/x64/paging/PageTable.zig]),
      which is filled by page faults ([FaultInfo.zig]), and the physical pages,
      which a buddy allocator hands out ([memory/page]); before there is one, a
      bootstrap allocator takes pages from the memory map.  [memory/compress.zig]
      compresses pages.
    - The kernel's tasks synchronise through the locks of [sync]: a ticket lock, a
      mutex, a read-write lock, a parker and futexes.  Processes reach kernel
      objects through the capability tables of [capabilities], and talk to each
      other through endpoints, reply objects and notifications.

    The library calls the wrappers ([malloc] calls [innigkeit_mmap], [fopen]
    [innigkeit_initfs_read] and [innigkeit_blk_read], output [innigkeit_write]);
    the platform layer calls the wrappers and [printf].  The kernel is on the
    other side of the wrappers and the game above both.

    ** The model

    A C function is a Rocq function in the state and error monad [ST] of
    [Machine]: it returns a value and a state, leaves the process, faults, or
    uses up the loop bound.  Integers are [Z] at their width: unsigned types
    wrap ([u8], [u32], [u64] below), a signed overflow faults, conversions are
    written out, and floating-point operations round to nearest even.  Pointers
    are addresses in one flat byte memory; an access to an unmapped address
    faults, an access to a mapped one does what the hardware does, also outside
    of the object the programmer meant.  Zig's checked operations fault where
    they trap.  Variable arguments are a list of 64-bit
    slots.  Local and static arrays whose address is taken have an address given
    by [Layout]; scalars and structures whose address stays inside the function
    are values.

    Loops run through [while], which allows 2^65 iterations; a loop that visits
    a new address in every iteration ends sooner because there are 2^64
    addresses.  Every theorem that says what a function returns also says that
    it returns: [NoFuel] is not a result.

    The runtime is verified against an interface, [Kernel] of [Process]: a state
    and one function for each system call.  [KernelLaws], [KernelData],
    [write_progress] and [KernelClock] state what the calls promise.  The
    interface has two instances: [TestKernel], a small kernel on which the
    theorems are applied to concrete inputs, and [serve] of [HandlersCorrect],
    made of the handlers of the real one.  The handlers are functions in an error
    and state monad over the memory of the caller and the state of the kernel;
    below them the devices and the memory of the process are the
    parameter [Hardware] with [HardwareLaws].  The address space has a model of
    its own, on which the law about fresh memory is proved: a sorted list of
    entries that refer to counted anonymous maps; operations return [Done],
    [Failed] with the error or [Panic].

    The memory of a process, [VM] of [PageFault], is that address space with the
    anonymous pages, a page table of four levels whose leaves are 64-bit words, the
    bytes of the physical memory, the locks the task holds and a page allocator.
    The allocator is an interface, the class [PageAllocator] with
    [PageAllocatorLaws]; [Physical] of [PhysicalMemory], the buddy allocator with
    its invariant, is an instance, a set of page numbers is another one on which
    examples are evaluated.  Page faults are functions in a state and error monad,
    [F]; taking a lock that is held and letting go of one that is not are [Trap],
    as are panics, and every allocation of the kernel may fail ([Resources]).  The
    allocator has its own view of the bytes of the pages it holds ([ram]); the
    users of a page fill it themselves, so nothing depends on what is left in it.
    An invariant, [vm_ok], ties the parts together: the page table only has pages
    the anonymous maps hold, with the flags of the entry, and tables, pages in use
    and free pages are different pages.  What runs concurrently in the
    kernel (the interrupt handler against a drain, key presses against a reader
    that waits) is a step relation, with theorems about every reachable state.
    Loops of the kernel carry fuel that bounds their iterations by the bytes that
    are left, the cells of a ring, the orders of the buddy allocator or the pages of
    a region, and the lemmas about them show it is enough; the loop of a page fault
    ends within three attempts.

    The locks and the objects tasks wait on are step functions [next]: a state has the
    shared words and, for every task, where it is; a step is one atomic access of one
    task (what is done under a spin lock is one step where the lock itself is a
    component of its own).  Sums over the tasks ([total] of [Tasks]) state the
    invariants, since a step changes a sum at one place.  The capability tables are
    a state with all tables and objects in it, and operations in the monad [CM], in
    which using an object that is gone has no outcome.

    The key
    codes and the frame size of the game ([DoomKeys], [DoomFrame]) and the
    comparison functions passed to [qsort] and [bsearch] are parameters too.

    ** The files

    - [Prelude]: machine integers, list lemmas, tactics.
    - [Machine]: the monad, [while] and its reasoning principle [while_loops].
    - [Memory]: mapped ranges and bytes, loads and stores, the compiler's
      block operations, strings in memory ([cstr]).
    - [CString]: [strcpy] to [strtok], [bzero], [bcopy], [bcmp].  The theorems
      give the memory and result of each function in terms of lists of bytes;
      [strtok] is a refinement of a tokenizer on lists; the scanning functions
      end on every string.
    - [Ctype]: the character classes, characterised on every [int].
    - [Compare]: [strcmp], [strncmp] and the versions without case, which
      return the sign of the lexicographic order.
    - [Numeric]: [strtol] against a parser on lists, [rand] against its
      recurrence, [abs], [labs].
    - [Double]: IEEE 754 binary64 arithmetic on the Standard Library's
      [SpecFloat]: exactness of sums and products of integers that fit the
      significand, symmetry in the sign, equality up to the sign of zero.
    - [Math]: [floor], [ceil], [sqrt], [sin], [cos], [atan2], [pow] and the
      others, and [atof].  [floor], [ceil] and integral powers are exact where
      they can be, the series keep the symmetries of their functions, [sqrt]
      converges up to [4^35], [atof] is a parser on lists.
    - [Process]: the state of the process, the system calls and their wrappers.
    - [HeapAlloc]: [malloc], [free], [calloc], [realloc], [strdup], [strndup].
      The invariant [heap_ok] is kept, blocks are fresh, disjoint and aligned,
      [calloc] zeroes, [realloc] keeps the contents; growing a block that has a
      mapping of its own faults, and a size near 2^64 wraps around.
    - [Format], [FormatCorrect]: [vsnprintf].  An abstract syntax of formats
      with a reference semantics; the byte-level interpreter implements it, cut
      to the buffer; printed numbers are read back by [strtol]; a format that
      ends in a percent sign is read past its end.
    - [Stdio]: [printf], [puts] and the others put their text on the console;
      [exit], [abort] and [__assert_fail] leave the process.
    - [Files]: [fopen], [fread], [fseek], [ftell], [fgets] and the others are
      refinements of operations on an abstract file with contents and position;
      [fopen] finds the files of the initfs archive; the chunked disk read
      delivers the bytes of the disk.
    - [Time]: the clock functions and waits, which end; the stubs.
    - [SortSearch]: [qsort] sorts stably, [bsearch] finds.
    - [Sscanf]: [sscanf] on the formats the game uses.
    - [Keyboard]: the ring buffer is a queue of 31 events that a 32nd one
      empties; decoding inverts the keyboard's encoding.
    - [Framebuffer]: [DG_Init] and [DG_DrawFrame]; the display shows the frame
      at twice its size and nothing else is written.
    - [Initfs]: the archive builder and the lookup; a packed file is found again
      with its contents, and the lookup is safe on every sequence of bytes.
    - [Wad]: [fopen] of the WAD, with the header, the chunked read of the disk
      and the report of the directory on the console.
    - [Ring]: arrays with a read and a write position as queues.
    - [LineInput]: the line discipline.  It refines a line being edited and a
      bounded queue; a waiting reader is woken; and a run after which a reader is
      never woken again.
    - [Ps2]: the interrupt handler.  Its ring is a queue under every interleaving
      of push and drain; typed text is read back line by line.
    - [Handlers], [HandlersCorrect]: the system-call handlers, which implement
      the kernel interface, and the wrappers, which do what the handlers do.
    - [EndToEnd]: the parts put together: from the interrupt to [DG_GetKey], from
      the archive builder to [fread], and from the disk to [fread].
    - [AddressSpace]: the entries of an address space, [map], [unmap] and
      [changeProtection], and what an address space means: the attributes of each
      address and where its anonymous memory is.
    - [AddressSpaceCorrect]: [map] and [unmap] against that meaning; merging keeps
      it, [unmap] is carving the range out of every entry.
    - [AddressSpaceProtect]: [changeProtection], which splits and merges.
    - [Mapping]: the theorems about a process: well-formed in every reachable
      state, a map and its unmap cancel out, nothing is left at the end, the law
      of the handlers; and three sequences of calls that go wrong.
    - [PageTable], [PageTableCorrect]: [map4KiB], [unmap] and [changeProtection] of
      the page table of x64, and what they do to the translation of every address,
      to the pages the tables are made of and to the ranges that are flushed.  One
      walk with an action at the leaves covers [unmap] and [changeProtection]; its
      theorem is for ranges that touch at most 512 regions of 2 MiB, and for a
      larger one there is a page that stays mapped.
    - [Paging]: the batches of ranges the address space hands to the page table.
    - [PageFault]: anonymous maps and pages, and the handling of a fault;
      [PageFaultCorrect] has the rules to reason about it.
    - [VirtualMemory]: the invariant of the memory of a process and the byte it has
      at each address.  [FaultHandled]: a fault keeps both, and enters the page.
    - [Reclaim]: what [unmap] gives back.  [ProcessMemory]: the operations of a
      process on all parts, and its loads and stores.
    - [FlatMemory]: the memory a process is promised, which maps addresses to
      attributes and bytes, and the proof that every operation refines it.
    - [Buddy], [BuddyCorrect], [PhysicalMemory]: the buddy allocator.  Linked lists,
      flags and counts agree, a block that is handed out is free and aligned, a
      block that is given back is merged with its buddies, the regions of the memory
      map are handed to it; the laws of the interface hold.
    - [MemorySystem]: all of it together: a machine starts, a process is created,
      and its memory is the one it is promised; what [munmap] gives back; a fault
      ends; a second fault at the same page ends the thread.
    - [CMemory]: the flat memory of the C model is the memory the kernel provides.
    - [Bootstrap]: the pages taken at start-up are distinct, and the buddy allocator
      begins with exactly the others.
    - [Compress], [CompressCorrect]: the page compressor.  Decompression inverts it,
      is safe on every input, and the pool gives back what it stored.
    - [Tasks]: sums over tasks, invariants of runs.
    - [SpinLock]: the ticket lock is a queue under every interleaving; with an
      interrupt at the wrong place it hangs.
    - [MutexLock]: the mutex excludes, does not panic and loses no wake-up.
    - [RwLock]: the read-write lock excludes and leaks no count; two runs after which
      a writer is never woken.
    - [Parker]: an unpark is never lost.
    - [Futex]: waiters are woken by address in the order they came, or at their
      deadline; two processes with the same address share a futex.
    - [Capabilities], [CapabilitiesCorrect]: counts are exact, so no object is used
      after it is freed; rights never grow; revocation is permanent, but for a clone
      that runs at the same time; a handle 0 that is lost.
    - [Ipc]: with one receiver an endpoint delivers every message once; with more, or
      with a second call before the reply, it does not.  A notification wakes its
      waiters when they have the same mask.
    - [Headers]: the macros of the C headers against the code that uses them: the
      [PRI] macros print their types, kernel error codes are [errno] numbers; the
      entry point of the game.

    ** What is not modelled

    The contents of uninitialised memory that is not mapped by the process itself;
    [errno], which the library never sets; the game; the devices; the kernel's half
    of the page tables and its heap, caches and arenas; the TLB, of which only the
    requests to flush it are there; the scheduler (a task is switched away from and
    woken in one step) and the memory order of the processor (steps interleave, and a
    store is visible to the next step); faults that are handled at the same time;
    what happens when an endpoint is destroyed with tasks in its queues; the
    operations of secure vaults, GPU buffers and sockets; the drivers, the network
    stack and the file systems, which are mostly hardware access; the handlers for
    them; and the other libraries, applications and tools, which the runtime does
    not use. *)

From stdpp Require Export base tactics list numbers gmap.
From Stdlib Require Export ZArith Lia.
From stdpp Require Export strings.

#[global] Open Scope Z_scope.

(** ** Fixed-width integers

    A C integer of width [w] is kept as a [Z] in its range.  The unsigned
    types wrap around; the signed conversions reinterpret the low bits in two's
    complement. *)

Definition u8 (x : Z) : Z := x mod 2 ^ 8.
Definition u16 (x : Z) : Z := x mod 2 ^ 16.
Definition u32 (x : Z) : Z := x mod 2 ^ 32.
Definition u64 (x : Z) : Z := x mod 2 ^ 64.

Definition s8 (x : Z) : Z := (x + 2 ^ 7) mod 2 ^ 8 - 2 ^ 7.
Definition s32 (x : Z) : Z := (x + 2 ^ 31) mod 2 ^ 32 - 2 ^ 31.
Definition s64 (x : Z) : Z := (x + 2 ^ 63) mod 2 ^ 64 - 2 ^ 63.

Definition INT_MIN : Z := - 2 ^ 31.
Definition INT_MAX : Z := 2 ^ 31 - 1.
Definition LONG_MIN : Z := - 2 ^ 63.
Definition LONG_MAX : Z := 2 ^ 63 - 1.
Definition SIZE_MAX : Z := 2 ^ 64 - 1.

Definition byte_ok (x : Z) : Prop := 0 <= x < 256.

#[export] Instance byte_ok_dec x : Decision (byte_ok x).
Proof. unfold byte_ok. apply _. Defined.

(** [Zlen] is the length of a list as a machine size. *)
Definition Zlen {A} (l : list A) : Z := Z.of_nat (length l).

(** The bytes of a string literal, without its terminator. *)
Fixpoint bytes_of (s : string) : list Z :=
  match s with
  | EmptyString => []
  | String a s' => Z.of_N (Ascii.N_of_ascii a) :: bytes_of s'
  end.

(** ** The development's hint databases *)

Create HintDb cmem discriminated.
Create Rewrite HintDb zlen.

(** ** Generic lemmas on integers *)

Lemma u64_id x : 0 <= x < 2 ^ 64 -> u64 x = x.
Proof. intros. unfold u64. now apply Z.mod_small. Qed.

Lemma u32_id x : 0 <= x < 2 ^ 32 -> u32 x = x.
Proof. intros. unfold u32. now apply Z.mod_small. Qed.

Lemma u8_id x : 0 <= x < 256 -> u8 x = x.
Proof. intros. unfold u8. now apply Z.mod_small. Qed.

Lemma u64_range x : 0 <= u64 x < 2 ^ 64.
Proof. unfold u64. now apply Z.mod_pos_bound. Qed.

Lemma u32_range x : 0 <= u32 x < 2 ^ 32.
Proof. unfold u32. now apply Z.mod_pos_bound. Qed.

Lemma u8_range x : 0 <= u8 x < 256.
Proof. unfold u8. now apply Z.mod_pos_bound. Qed.

Lemma s64_id x : LONG_MIN <= x <= LONG_MAX -> s64 x = x.
Proof. unfold s64, LONG_MIN, LONG_MAX. intros. rewrite Z.mod_small; lia. Qed.

Lemma s32_id x : INT_MIN <= x <= INT_MAX -> s32 x = x.
Proof. unfold s32, INT_MIN, INT_MAX. intros. rewrite Z.mod_small; lia. Qed.

Lemma u8_u8 x : u8 (u8 x) = u8 x.
Proof. apply u8_id, u8_range. Qed.

(** Comparing a byte with an [int] through [char] compares it with the low byte
    of the [int]. *)
Lemma s8_eqb b c : 0 <= b < 256 -> (s8 b =? s8 c) = (b =? u8 c).
Proof.
  intros Hb. unfold s8, u8.
  assert (H : forall x, (x + 2 ^ 7) mod 2 ^ 8 = (x mod 2 ^ 8 + 2 ^ 7) mod 2 ^ 8).
  { intros x. now rewrite Zplus_mod_idemp_l. }
  rewrite (H c). set (d := c mod 2 ^ 8).
  assert (0 <= d < 256) by (apply Z.mod_pos_bound; lia).
  destruct (Z.eqb_spec b d) as [->|]; [apply Z.eqb_refl|].
  apply Z.eqb_neq. intros E.
  assert (E' : (b + 2 ^ 7) mod 2 ^ 8 = (d + 2 ^ 7) mod 2 ^ 8) by lia.
  change (2 ^ 7) with 128 in E'. change (2 ^ 8) with 256 in E'.
  destruct (Z_lt_le_dec b 128), (Z_lt_le_dec d 128).
  - rewrite !Z.mod_small in E' by lia. lia.
  - rewrite Z.mod_small in E' by lia.
    replace (d + 128) with (d - 128 + 1 * 256) in E' by lia.
    rewrite Z.mod_add, Z.mod_small in E' by lia. lia.
  - rewrite (Z.mod_small (d + 128)) in E' by lia.
    replace (b + 128) with (b - 128 + 1 * 256) in E' by lia.
    rewrite Z.mod_add, Z.mod_small in E' by lia. lia.
  - replace (b + 128) with (b - 128 + 1 * 256) in E' by lia.
    replace (d + 128) with (d - 128 + 1 * 256) in E' by lia.
    rewrite !Z.mod_add, !Z.mod_small in E' by lia. lia.
Qed.

Lemma u8_s8 x : u8 (s8 x) = u8 x.
Proof.
  unfold u8, s8. rewrite Zminus_mod_idemp_l. f_equal. lia.
Qed.

(** Masking off the low bits rounds down to a power of two. *)
Lemma land_mask_down x k :
  0 <= k <= 64 -> 0 <= x < 2 ^ 64 ->
  Z.land x (u64 (- 2 ^ k)) = x - x mod 2 ^ k.
Proof.
  intros Hk Hx.
  assert (Hm : Z.land x (u64 (- 2 ^ k)) = Z.ldiff x (Z.ones k)).
  { unfold u64. rewrite <- (Z.land_ones (- 2 ^ k) 64) by lia.
    apply Z.bits_inj'. intros n Hn.
    rewrite Z.land_spec, Z.land_spec, Z.ldiff_spec.
    rewrite !Z.testbit_ones by lia.
    replace (- 2 ^ k) with (Z.lnot (Z.ones k)) by (rewrite Z.ones_equiv; unfold Z.lnot; lia).
    rewrite Z.lnot_spec by lia. rewrite Z.testbit_ones by lia.
    destruct (Z.ltb_spec n 64).
    - repeat match goal with |- context [?a <=? ?b] => destruct (Z.leb_spec a b) end;
      repeat match goal with |- context [?a <? ?b] => destruct (Z.ltb_spec a b) end;
      destruct (Z.testbit x n); simpl; try reflexivity; lia.
    - rewrite (Z.bits_above_log2 x n); [reflexivity | lia |].
      destruct (Z.eq_dec x 0) as [->|]; [simpl; lia |].
      apply Z.lt_le_trans with 64; [apply Z.log2_lt_pow2; lia | lia]. }
  rewrite Hm, Z.ldiff_ones_r by lia.
  rewrite Z.shiftr_div_pow2, Z.shiftl_mul_pow2 by lia.
  pose proof (Z.div_mod x (2 ^ k) ltac:(lia)). lia.
Qed.

(** ** Generic lemmas on lists *)

Lemma Zlen_nonneg {A} (l : list A) : 0 <= Zlen l.
Proof. unfold Zlen. lia. Qed.

Lemma Zlen_nil {A} : Zlen (@nil A) = 0.
Proof. reflexivity. Qed.

Lemma Zlen_cons {A} (x : A) l : Zlen (x :: l) = Zlen l + 1.
Proof. unfold Zlen. simpl. lia. Qed.

Lemma Zlen_app {A} (l1 l2 : list A) : Zlen (l1 ++ l2) = Zlen l1 + Zlen l2.
Proof. unfold Zlen. rewrite length_app. lia. Qed.

Lemma Zlen_replicate {A} n (x : A) : Zlen (replicate n x) = Z.of_nat n.
Proof. unfold Zlen. now rewrite length_replicate. Qed.

#[export] Hint Rewrite @Zlen_nil @Zlen_cons @Zlen_app @Zlen_replicate : zlen.

(** ** Tactics *)

(** [case_bool] splits on the first integer comparison of the goal. *)
Ltac case_bool :=
  match goal with
  | |- context [?a =? ?b] => destruct (Z.eqb_spec a b)
  | |- context [?a <? ?b] => destruct (Z.ltb_spec a b)
  | |- context [?a <=? ?b] => destruct (Z.leb_spec a b)
  | |- context [?a >? ?b] => rewrite (Z.gtb_ltb a b); destruct (Z.ltb_spec b a)
  | |- context [?a >=? ?b] => rewrite (Z.geb_leb a b); destruct (Z.leb_spec b a)
  end.

Ltac zlen := autorewrite with zlen in *.
