(* ===== verification/Machine.v ===== *)
(** * The C abstract machine

    The state and error monad the C functions are translated to, the loop
    combinator that stands for [for] and [while].

    A computation either returns a value and a state, leaves the process through
    [innigkeit_exit], faults (an access to an unmapped address, a signed
    overflow or another operation the language leaves undefined), or uses up
    the loop bound.  The loop bound [loop_bound] is 2^65 iterations, more than
    the number of addresses of the machine; it is binary, so a loop that stops
    early evaluates quickly. *)

From S2P Require Import Prelude.

(** ** Outcomes and computations *)

Inductive outcome (S A : Type) : Type :=
  | Ret (a : A) (s : S)
  | Exited (code : Z) (s : S)
  | Fault
  | NoFuel.
Arguments Ret {S A} a s.
Arguments Exited {S A} code s.
Arguments Fault {S A}.
Arguments NoFuel {S A}.

Definition ST (S A : Type) : Type := S -> outcome S A.

#[export] Instance ST_ret {S} : MRet (ST S) := fun A a s => Ret a s.

#[export] Instance ST_bind {S} : MBind (ST S) := fun A B k c s =>
  match c s with
  | Ret a s' => k a s'
  | Exited n s' => Exited n s'
  | Fault => Fault
  | NoFuel => NoFuel
  end.

(** The kernel is written in Zig: a function returns, fails with an error of its
    error set, or panics (a failed assertion, an overflow, an index out of bounds). *)
Inductive result (E A : Type) := Done (a : A) | Failed (e : E) | Panic.
Arguments Done {E A} a.
Arguments Failed {E A} e.
Arguments Panic {E A}.

#[export] Instance result_ret {E} : MRet (result E) := fun A a => Done a.
#[export] Instance result_bind {E} : MBind (result E) := fun A B f r =>
  match r with Done a => f a | Failed e => Failed e | Panic => Panic end.

Definition fault {S A} : ST S A := fun _ => Fault.
Definition no_fuel {S A} : ST S A := fun _ => NoFuel.
Definition exit_with {S A} (code : Z) : ST S A := fun s => Exited code s.
Definition get_st {S} : ST S S := fun s => Ret s s.
Definition put_st {S} (s : S) : ST S unit := fun _ => Ret tt s.

(** [guard_c b] continues when [b] holds and faults otherwise: the defined-ness
    condition of a C operation. *)
Definition guard_c {S} (b : bool) : ST S unit := if b then mret tt else fault.

(** Run a computation on a part of the state. *)
Definition zoom {S T A} (get : S -> T) (put : T -> S -> S) (c : ST T A) : ST S A :=
  fun s => match c (get s) with
           | Ret a t => Ret a (put t s)
           | Exited n t => Exited n (put t s)
           | Fault => Fault
           | NoFuel => NoFuel
           end.

(** Signed arithmetic is undefined when the result does not fit. *)
Definition signed_long {S} (x : Z) : ST S Z :=
  if (LONG_MIN <=? x) && (x <=? LONG_MAX) then mret x else fault.
Definition signed_int {S} (x : Z) : ST S Z :=
  if (INT_MIN <=? x) && (x <=? INT_MAX) then mret x else fault.

(** ** Equations of the monad *)

Ltac unst := unfold mbind, ST_bind, mret, ST_ret, guard_c, fault, no_fuel, exit_with in *.

Lemma bind_ret {S A B} (c : ST S A) (k : A -> ST S B) s a s' :
  c s = Ret a s' -> (c ≫= k) s = k a s'.
Proof. intros H. unst. now rewrite H. Qed.

Lemma bind_mret {S A B} (a : A) (k : A -> ST S B) s : (mret a ≫= k) s = k a s.
Proof. reflexivity. Qed.

Lemma bind_mret_r {S A} (c : ST S A) s : (c ≫= fun a => mret a) s = c s.
Proof. unst. now destruct (c s). Qed.

Lemma bind_fault {S A B} (c : ST S A) (k : A -> ST S B) s :
  c s = Fault -> (c ≫= k) s = Fault.
Proof. intros H. unst. now rewrite H. Qed.

Lemma bind_assoc {S A B C} (c : ST S A) (k : A -> ST S B) (h : B -> ST S C) s :
  ((c ≫= k) ≫= h) s = (c ≫= fun a => k a ≫= h) s.
Proof. unst. now destruct (c s). Qed.

Lemma signed_long_ret {S} x (s : S) : LONG_MIN <= x <= LONG_MAX -> signed_long x s = Ret x s.
Proof. intros H. unfold signed_long. destruct (_ && _) eqn:E; [done|lia]. Qed.

Lemma signed_long_fault {S} x (s : S) : LONG_MAX < x -> signed_long x s = Fault.
Proof. intros H. unfold signed_long. destruct (_ && _) eqn:E; [lia|done]. Qed.

Lemma signed_int_ret {S} x (s : S) : INT_MIN <= x <= INT_MAX -> signed_int x s = Ret x s.
Proof. intros H. unfold signed_int. destruct (_ && _) eqn:E; [done|lia]. Qed.

(** ** Loops *)

Section while.
Context {S A B : Type} (body : A -> ST S (A + B)).

(** At most [p] iterations; [inl] is the loop state after them. *)
Fixpoint while_pos (p : positive) (a : A) : ST S (A + B) :=
  match p with
  | xH => body a
  | xO q =>
      r ← while_pos q a;
      match r with inl a' => while_pos q a' | inr b => mret (inr b) end
  | xI q =>
      r ← body a;
      match r with
      | inl a' =>
          r' ← while_pos q a';
          match r' with inl a'' => while_pos q a'' | inr b => mret (inr b) end
      | inr b => mret (inr b)
      end
  end.

Fixpoint while_nat (n : nat) (a : A) : ST S (A + B) :=
  match n with
  | O => mret (inl a)
  | Datatypes.S m =>
      r ← body a;
      match r with inl a' => while_nat m a' | inr b => mret (inr b) end
  end.

Definition loop_bound : positive := 36893488147419103232.

Definition while (a : A) : ST S B :=
  r ← while_pos loop_bound a;
  match r with inl _ => no_fuel | inr b => mret b end.

(** [loops n a s o]: the loop entered with [a] in state [s] makes [n] complete
    iterations and the next one ends it with outcome [o]. *)
Inductive loops : nat -> A -> S -> outcome S B -> Prop :=
  | loops_stop a s b s' :
      body a s = Ret (inr b) s' -> loops 0 a s (Ret b s')
  | loops_fault a s :
      body a s = Fault -> loops 0 a s Fault
  | loops_step n a s a' s' o :
      body a s = Ret (inl a') s' -> loops n a' s' o -> loops (Datatypes.S n) a s o.

Lemma while_nat_add n m a s :
  while_nat (n + m) a s =
  (r ← while_nat n a;
   match r with inl a' => while_nat m a' | inr b => mret (inr b) end) s.
Proof.
  revert a s. induction n as [|n IH]; intros a s; [reflexivity|].
  simpl. unfold mbind, ST_bind in *.
  destruct (body a s) as [[a'|b] s'| | |]; try reflexivity.
  exact (IH a' s').
Qed.

Lemma while_pos_nat p a s : while_pos p a s = while_nat (Pos.to_nat p) a s.
Proof.
  revert a s. induction p as [p IH|p IH|]; intros a s.
  - rewrite Pos2Nat.inj_xI. simpl while_pos. cbn [while_nat].
    replace (2 * Pos.to_nat p)%nat with (Pos.to_nat p + Pos.to_nat p)%nat by lia.
    unfold mbind, ST_bind. destruct (body a s) as [[a'|b] s'| | |]; try reflexivity.
    rewrite while_nat_add. unfold mbind, ST_bind. rewrite <- IH.
    destruct (while_pos p a' s') as [[a''|b] s''| | |]; try reflexivity. apply IH.
  - rewrite Pos2Nat.inj_xO.
    replace (2 * Pos.to_nat p)%nat with (Pos.to_nat p + Pos.to_nat p)%nat by lia.
    rewrite while_nat_add. simpl while_pos. unfold mbind, ST_bind. rewrite <- IH.
    destruct (while_pos p a s) as [[a'|b] s'| | |]; try reflexivity. apply IH.
  - simpl. unfold mbind, ST_bind. destruct (body a s) as [[a'|b] s'| | |]; reflexivity.
Qed.

Lemma loops_while_nat n a s o :
  loops n a s o -> forall m, (n < m)%nat ->
  while_nat m a s = match o with
                    | Ret b s' => Ret (inr b) s'
                    | Exited c s' => Exited c s'
                    | Fault => Fault
                    | NoFuel => NoFuel
                    end.
Proof.
  induction 1 as [a s b s' H|a s H|n a s a' s' o H _ IH]; intros m Hm;
    (destruct m as [|m]; [lia|]); simpl; unfold mbind, ST_bind; rewrite H;
    [reflexivity..|]. apply IH. lia.
Qed.

(** A loop that ends within the bound is evaluated to its outcome. *)
Lemma while_loops n a s o :
  loops n a s o -> Z.of_nat n < 2 ^ 65 -> while a s = o.
Proof.
  intros H Hn. unfold while, mbind, ST_bind.
  rewrite while_pos_nat.
  rewrite (loops_while_nat _ _ _ _ H).
  - destruct o; reflexivity.
  - apply Nat2Z.inj_lt. rewrite positive_nat_Z. exact Hn.
Qed.

End while.
