(* ===== verification/Memory.v ===== *)
(** * The memory of a process

    The byte-addressed address space the C code runs in, with the compiler
    builtins ([memcpy], [memmove], [memset], [memcmp]) the sources call, and the
    lemmas that say what loads and stores see. *)

From S2P Require Import Prelude Machine.

(** ** Memory

    The address space is a list of mapped ranges [(base, length)] and the bytes
    written so far; a mapped byte that was never written reads as zero, as in
    the zero-filled pages the kernel hands out. *)

Record mem := Mem { regions : list (Z * Z); bytes : gmap Z Z }.

Definition in_region (p : Z) (r : Z * Z) : bool :=
  (fst r <=? p) && (p <? fst r + snd r).

Definition is_mapped (m : mem) (p : Z) : bool := existsb (in_region p) (regions m).

Definition peek (m : mem) (p : Z) : option Z :=
  if is_mapped m p then Some (default 0 (bytes m !! p)) else None.

Definition poke (m : mem) (p v : Z) : mem := Mem (regions m) (<[p := u8 v]> (bytes m)).

Fixpoint poke_list (m : mem) (p : Z) (l : list Z) : mem :=
  match l with
  | [] => m
  | x :: l' => poke_list (poke m p x) (p + 1) l'
  end.

(** Mapping [n] fresh bytes at [a]. *)
Definition map_region (m : mem) (a n : Z) : mem := Mem ((a, n) :: regions m) (bytes m).

Definition load8 (p : Z) : ST mem Z := fun m =>
  match peek m p with Some v => Ret v m | None => Fault end.

Definition store8 (p v : Z) : ST mem unit := fun m =>
  if is_mapped m p then Ret tt (poke m p v) else Fault.

(** [n] consecutive bytes, read from the lowest address up. *)
Definition load_bytes (p n : Z) : ST mem (list Z) :=
  while (fun '(i, acc) =>
           if i <? n then (v ← load8 (p + i); mret (inl (i + 1, v :: acc)))
           else mret (inr (rev acc)))
        (0, []).

Fixpoint store_bytes (p : Z) (l : list Z) : ST mem unit :=
  match l with
  | [] => mret tt
  | x :: l' => store8 p x;; store_bytes (p + 1) l'
  end.

(** Little-endian words. *)
Fixpoint le_encode (n : nat) (x : Z) : list Z :=
  match n with
  | O => []
  | Datatypes.S n' => u8 x :: le_encode n' (x / 256)
  end.

Fixpoint le_decode (l : list Z) : Z :=
  match l with
  | [] => 0
  | x :: l' => x + 256 * le_decode l'
  end.

Definition load32 (p : Z) : ST mem Z := l ← load_bytes p 4; mret (le_decode l).
Definition store32 (p v : Z) : ST mem unit := store_bytes p (le_encode 4 v).
Definition load64 (p : Z) : ST mem Z := l ← load_bytes p 8; mret (le_decode l).
Definition store64 (p v : Z) : ST mem unit := store_bytes p (le_encode 8 v).

(** [__builtin_memcpy]: overlapping operands are undefined. *)
Definition disjoint_ranges (p n q k : Z) : bool :=
  (n <=? 0) || (k <=? 0) || (p + n <=? q) || (q + k <=? p).

Definition memcpy (dst src n : Z) : ST mem unit :=
  guard_c (disjoint_ranges dst n src n);;
  l ← load_bytes src n;
  store_bytes dst l.

(** [__builtin_memmove]: overlap is allowed. *)
Definition memmove (dst src n : Z) : ST mem unit :=
  l ← load_bytes src n;
  store_bytes dst l.

(** [__builtin_memset]. *)
Definition memset (p c n : Z) : ST mem unit :=
  while (fun i =>
           if i <? n then (store8 (p + i) c;; mret (inl (i + 1)))
           else mret (inr tt)) 0.

(** [__builtin_memcmp]: the difference at the first byte where the two ranges
    differ, zero when they agree. *)
Definition memcmp (p q n : Z) : ST mem Z :=
  while (fun i =>
           if i <? n then
             (x ← load8 (p + i); y ← load8 (q + i);
              if x =? y then mret (inl (i + 1)) else mret (inr (x - y)))
           else mret (inr 0)) 0.

(** ** What a memory holds *)

Fixpoint bytes_at (m : mem) (p : Z) (l : list Z) : Prop :=
  match l with
  | [] => True
  | x :: l' => peek m p = Some x /\ bytes_at m (p + 1) l'
  end.

Definition mapped_range (m : mem) (p n : Z) : Prop :=
  forall q, p <= q < p + n -> is_mapped m q = true.

(** A nul-terminated string [s] at [p]. *)
Definition cstr (m : mem) (p : Z) (s : list Z) : Prop :=
  bytes_at m p (s ++ [0]) /\ Forall (fun c => c <> 0) s.

(** Every written byte is a byte of a mapped address, and address 0 and the
    addresses past the machine's width are never mapped. *)
Definition mem_ok (m : mem) : Prop :=
  (forall p v, bytes m !! p = Some v -> byte_ok v /\ is_mapped m p = true) /\
  (forall p, is_mapped m p = true -> 0 < p < 2 ^ 64).


(** ** Loads and stores *)

Lemma load8_ret m p v : peek m p = Some v -> load8 p m = Ret v m.
Proof. intros H. unfold load8. now rewrite H. Qed.

Lemma load8_fault m p : is_mapped m p = false -> load8 p m = Fault.
Proof. intros H. unfold load8, peek. now rewrite H. Qed.

Lemma store8_ret m p v : is_mapped m p = true -> store8 p v m = Ret tt (poke m p v).
Proof. intros H. unfold store8. now rewrite H. Qed.

Lemma store8_fault m p v : is_mapped m p = false -> store8 p v m = Fault.
Proof. intros H. unfold store8. now rewrite H. Qed.

#[export] Hint Resolve load8_ret store8_ret load8_fault store8_fault : cmem.

Lemma peek_mapped m p v : peek m p = Some v -> is_mapped m p = true.
Proof. unfold peek. now destruct (is_mapped m p). Qed.

Lemma mapped_peek m p : is_mapped m p = true -> exists v, peek m p = Some v.
Proof. unfold peek. intros ->. eauto. Qed.

Lemma is_mapped_poke m p v q : is_mapped (poke m p v) q = is_mapped m q.
Proof. reflexivity. Qed.

Lemma is_mapped_poke_list m p l q : is_mapped (poke_list m p l) q = is_mapped m q.
Proof. revert m p. induction l as [|x l IH]; intros m p; [done|]. simpl. now rewrite IH. Qed.

Lemma peek_poke_eq m p v : is_mapped m p = true -> peek (poke m p v) p = Some (u8 v).
Proof.
  intros H. unfold peek. rewrite is_mapped_poke, H. simpl.
  now rewrite lookup_insert_eq.
Qed.

Lemma peek_poke_ne m p v q : p <> q -> peek (poke m p v) q = peek m q.
Proof.
  intros H. unfold peek. rewrite is_mapped_poke. simpl.
  now rewrite lookup_insert_ne.
Qed.

Lemma peek_poke_list_out m p l q :
  q < p \/ p + Zlen l <= q -> peek (poke_list m p l) q = peek m q.
Proof.
  revert m p. induction l as [|x l IH]; intros m p H; [done|].
  simpl. rewrite Zlen_cons in H. pose proof (Zlen_nonneg l).
  rewrite IH by lia. apply peek_poke_ne. lia.
Qed.

Lemma poke_list_app m p l1 l2 :
  poke_list m p (l1 ++ l2) = poke_list (poke_list m p l1) (p + Zlen l1) l2.
Proof.
  revert m p. induction l1 as [|x l IH]; intros m p.
  - simpl. rewrite Zlen_nil. f_equal. lia.
  - simpl. rewrite IH, Zlen_cons. f_equal. lia.
Qed.

Lemma poke_list_snoc m p l x :
  poke_list m p (l ++ [x]) = poke (poke_list m p l) (p + Zlen l) x.
Proof. now rewrite poke_list_app. Qed.

Lemma regions_poke_list m p l : regions (poke_list m p l) = regions m.
Proof. revert m p. induction l as [|x l IH]; intros m p; [done|]. simpl. now rewrite IH. Qed.

(** ** [bytes_at] *)

Lemma bytes_at_app m p l1 l2 :
  bytes_at m p (l1 ++ l2) <-> bytes_at m p l1 /\ bytes_at m (p + Zlen l1) l2.
Proof.
  revert p. induction l1 as [|x l IH]; intros p.
  - simpl. rewrite Zlen_nil. replace (p + 0) with p by lia. tauto.
  - simpl. rewrite IH, Zlen_cons. replace (p + 1 + Zlen l) with (p + (Zlen l + 1)) by lia.
    tauto.
Qed.

Lemma bytes_at_ext m m' p l :
  (forall q, p <= q < p + Zlen l -> peek m' q = peek m q) ->
  bytes_at m p l -> bytes_at m' p l.
Proof.
  revert p. induction l as [|x l IH]; intros p Hq; [done|].
  rewrite Zlen_cons in Hq. pose proof (Zlen_nonneg l).
  intros [H1 H2]. split; [rewrite Hq by lia; done|].
  apply IH; [intros q ?; apply Hq; lia | done].
Qed.

Lemma bytes_at_poke_out m p v q l :
  p < q \/ q + Zlen l <= p -> bytes_at m q l -> bytes_at (poke m p v) q l.
Proof.
  intros H. apply bytes_at_ext. intros r Hr. apply peek_poke_ne. lia.
Qed.

Lemma bytes_at_poke_list_out m p k q l :
  p + Zlen k <= q \/ q + Zlen l <= p -> bytes_at m q l -> bytes_at (poke_list m p k) q l.
Proof.
  intros H. apply bytes_at_ext. intros r Hr. apply peek_poke_list_out. lia.
Qed.

Lemma bytes_at_poke_list m p l :
  mapped_range m p (Zlen l) -> Forall byte_ok l -> bytes_at (poke_list m p l) p l.
Proof.
  revert m p. induction l as [|x l IH]; intros m p Hm Hb; [done|].
  rewrite Zlen_cons in Hm. pose proof (Zlen_nonneg l).
  inversion_clear Hb as [|? ? Hx Hl]. simpl. split.
  - rewrite peek_poke_list_out by lia. rewrite peek_poke_eq by (apply Hm; lia).
    f_equal. now apply u8_id.
  - apply IH; [|done]. intros q Hq. rewrite is_mapped_poke. apply Hm. lia.
Qed.

Lemma bytes_at_mapped m p l : bytes_at m p l -> mapped_range m p (Zlen l).
Proof.
  revert p. induction l as [|x l IH]; intros p; simpl; intros H q Hq.
  - rewrite Zlen_nil in Hq. lia.
  - rewrite Zlen_cons in Hq. destruct H as [H1 H2].
    destruct (Z.eq_dec q p) as [->|]; [now apply peek_mapped in H1|].
    apply (IH _ H2). lia.
Qed.

Lemma bytes_at_peek m p l i x :
  bytes_at m p l -> l !! i = Some x -> peek m (p + Z.of_nat i) = Some x.
Proof.
  revert p i. induction l as [|y l IH]; intros p [|i] H Hi; try done.
  - injection Hi as ->. replace (p + Z.of_nat 0) with p by lia. apply H.
  - simpl in *. destruct H as [_ H].
    replace (p + Z.of_nat (Datatypes.S i)) with (p + 1 + Z.of_nat i) by lia.
    now apply IH.
Qed.

Lemma bytes_at_inj m p l1 l2 :
  length l1 = length l2 -> bytes_at m p l1 -> bytes_at m p l2 -> l1 = l2.
Proof.
  revert p l2. induction l1 as [|x l IH]; intros p [|y l2] Hlen; try done.
  simpl. intros [H1 H2] [H3 H4]. f_equal; [congruence|]. eapply IH; eauto.
Qed.

Lemma mapped_bytes_at m p n :
  mapped_range m p (Z.of_nat n) -> exists l, length l = n /\ bytes_at m p l.
Proof.
  revert p. induction n as [|n IH]; intros p H; [now exists []|].
  destruct (mapped_peek m p) as [v Hv]; [apply H; lia|].
  destruct (IH (p + 1)) as [l [Hl Hb]]; [intros q Hq; apply H; lia|].
  exists (v :: l). simpl. auto.
Qed.

Lemma mapped_range_sub m p n q k :
  mapped_range m p n -> p <= q -> q + k <= p + n -> mapped_range m q k.
Proof. intros H ? ? r Hr. apply H. lia. Qed.

Lemma mapped_range_poke m p n q v : mapped_range m p n -> mapped_range (poke m q v) p n.
Proof. intros H r Hr. rewrite is_mapped_poke. auto. Qed.

Lemma mapped_range_poke_list m p n q l :
  mapped_range m p n -> mapped_range (poke_list m q l) p n.
Proof. intros H r Hr. rewrite is_mapped_poke_list. auto. Qed.

#[export] Hint Resolve peek_mapped mapped_range_poke mapped_range_poke_list : cmem.

(** ** Block operations *)

Lemma store_bytes_ret m p l :
  mapped_range m p (Zlen l) -> store_bytes p l m = Ret tt (poke_list m p l).
Proof.
  revert m p. induction l as [|x l IH]; intros m p H; [done|].
  rewrite Zlen_cons in H. pose proof (Zlen_nonneg l). simpl.
  rewrite (bind_ret _ _ _ tt (poke m p x)) by (apply store8_ret, H; lia).
  apply IH. intros q Hq. rewrite is_mapped_poke. apply H. lia.
Qed.

Lemma load_bytes_loops m p n l acc i :
  bytes_at m (p + i) l -> n = i + Zlen l ->
  loops (fun '(i, acc) =>
           if i <? n then (v ← load8 (p + i); mret (inl (i + 1, v :: acc)))
           else mret (inr (rev acc)))
        (length l) (i, acc) m (Ret (rev acc ++ l) m).
Proof.
  revert i acc. induction l as [|x l IH]; intros i acc Hb Hn.
  - rewrite Zlen_nil in Hn. apply loops_stop. rewrite app_nil_r.
    destruct (Z.ltb_spec i n); [lia|done].
  - destruct Hb as [Hx Hb]. rewrite Zlen_cons in Hn. pose proof (Zlen_nonneg l).
    eapply loops_step.
    + destruct (Z.ltb_spec i n); [|lia]. erewrite bind_ret by (eauto with cmem). done.
    + replace (rev acc ++ x :: l) with (rev (x :: acc) ++ l) by (simpl; now rewrite <- app_assoc).
      apply IH; [|lia]. now replace (p + (i + 1)) with (p + i + 1) by lia.
Qed.

Lemma load_bytes_ret m p l :
  bytes_at m p l -> Zlen l < 2 ^ 65 -> load_bytes p (Zlen l) m = Ret l m.
Proof.
  intros Hb Hl. unfold load_bytes. eapply while_loops.
  - apply (load_bytes_loops m p (Zlen l) l [] 0); [|lia].
    now replace (p + 0) with p by lia.
  - exact Hl.
Qed.

Lemma load_bytes_ret' m p n l :
  bytes_at m p l -> n = Zlen l -> n < 2 ^ 65 -> load_bytes p n m = Ret l m.
Proof. intros H -> Hn. now apply load_bytes_ret. Qed.

Lemma memcpy_ret m dst src n l :
  bytes_at m src l -> n = Zlen l -> n < 2 ^ 65 ->
  disjoint_ranges dst n src n = true -> mapped_range m dst n ->
  memcpy dst src n m = Ret tt (poke_list m dst l).
Proof.
  intros Hb -> Hn Hd Hm. unfold memcpy. rewrite Hd. simpl.
  erewrite bind_ret by reflexivity.
  rewrite (bind_ret _ _ _ l m) by (now apply load_bytes_ret).
  now apply store_bytes_ret.
Qed.

Lemma memmove_ret m dst src n l :
  bytes_at m src l -> n = Zlen l -> n < 2 ^ 65 -> mapped_range m dst n ->
  memmove dst src n m = Ret tt (poke_list m dst l).
Proof.
  intros Hb -> Hn Hm. unfold memmove.
  rewrite (bind_ret _ _ _ l m) by (now apply load_bytes_ret).
  now apply store_bytes_ret.
Qed.

Lemma memset_loops m p c n i k :
  n = i + Z.of_nat k -> 0 <= i -> mapped_range m p n ->
  loops (fun i => if i <? n then (store8 (p + i) c;; mret (inl (i + 1))) else mret (inr tt))
        k i m (Ret tt (poke_list m (p + i) (replicate k c))).
Proof.
  revert m i. induction k as [|k IH]; intros m i Hn Hi Hm.
  - apply loops_stop. destruct (Z.ltb_spec i n); [lia|done].
  - eapply loops_step.
    + destruct (Z.ltb_spec i n); [|lia].
      erewrite bind_ret by (apply store8_ret, Hm; lia). done.
    + simpl. replace (p + i + 1) with (p + (i + 1)) by lia.
      apply IH; [lia|lia|]. auto with cmem.
Qed.

Lemma memset_ret m p c n :
  0 <= n < 2 ^ 65 -> mapped_range m p n ->
  memset p c n m = Ret tt (poke_list m p (replicate (Z.to_nat n) c)).
Proof.
  intros Hn Hm. unfold memset. eapply while_loops.
  - pose proof (memset_loops m p c n 0 (Z.to_nat n) ltac:(lia) ltac:(lia) Hm) as H.
    replace (p + 0) with p in H by lia. exact H.
  - lia.
Qed.

(** The loop of [memcmp] from index [i], over a common prefix [l]. *)
Lemma memcmp_loops m p q n i l (o : outcome mem Z) :
  bytes_at m (p + i) l -> bytes_at m (q + i) l -> i + Zlen l <= n ->
  loops (fun i => if i <? n then
             (x ← load8 (p + i); y ← load8 (q + i);
              if x =? y then mret (inl (i + 1)) else mret (inr (x - y)))
           else mret (inr 0)) 0 (i + Zlen l) m o ->
  loops (fun i => if i <? n then
             (x ← load8 (p + i); y ← load8 (q + i);
              if x =? y then mret (inl (i + 1)) else mret (inr (x - y)))
           else mret (inr 0)) (length l) i m o.
Proof.
  revert i. induction l as [|x l IH]; intros i Hp Hq Hn Ho.
  - replace (i + Zlen []) with i in Ho by (unfold Zlen; simpl; lia). exact Ho.
  - rewrite Zlen_cons in Hn, Ho. pose proof (Zlen_nonneg l).
    destruct Hp as [Hx Hp], Hq as [Hy Hq]. eapply loops_step.
    + destruct (Z.ltb_spec i n); [|lia].
      do 2 erewrite bind_ret by (eauto with cmem). now rewrite Z.eqb_refl.
    + apply IH.
      * now replace (p + (i + 1)) with (p + i + 1) by lia.
      * now replace (q + (i + 1)) with (q + i + 1) by lia.
      * lia.
      * now replace (i + 1 + Zlen l) with (i + (Zlen l + 1)) by lia.
Qed.

Lemma memcmp_eq m p q l :
  bytes_at m p l -> bytes_at m q l -> Zlen l < 2 ^ 65 -> memcmp p q (Zlen l) m = Ret 0 m.
Proof.
  intros Hp Hq Hl. unfold memcmp. eapply while_loops.
  - apply (memcmp_loops m p q (Zlen l) 0 l); rewrite ?Z.add_0_r; try done.
    apply loops_stop. destruct (Z.ltb_spec (0 + Zlen l) (Zlen l)); [lia|done].
  - exact Hl.
Qed.

Lemma memcmp_ne m p q n l x y :
  bytes_at m p (l ++ [x]) -> bytes_at m q (l ++ [y]) -> x <> y ->
  Zlen l < n -> n < 2 ^ 65 -> memcmp p q n m = Ret (x - y) m.
Proof.
  intros Hp Hq Hxy Hl Hn.
  apply bytes_at_app in Hp as [Hp [Hx _]]. apply bytes_at_app in Hq as [Hq [Hy _]].
  unfold memcmp. eapply while_loops.
  - apply (memcmp_loops m p q n 0 l); rewrite ?Z.add_0_r; try done; [lia|].
    apply loops_stop. destruct (Z.ltb_spec (0 + Zlen l) n); [|lia].
    do 2 erewrite bind_ret by (eauto with cmem).
    destruct (Z.eqb_spec x y); [congruence|reflexivity].
  - exact (Z.lt_trans _ _ _ Hl Hn).
Qed.

(** ** Little-endian words *)

Lemma le_encode_length n x : length (le_encode n x) = n.
Proof. revert x. induction n; intros x; simpl; auto. Qed.

Lemma le_encode_bytes n x : Forall byte_ok (le_encode n x).
Proof.
  revert x. induction n; intros x; simpl; constructor; auto. apply u8_range.
Qed.

Lemma le_decode_encode n x :
  0 <= x < 256 ^ Z.of_nat n -> le_decode (le_encode n x) = x.
Proof.
  revert x. induction n as [|n IH]; intros x Hx.
  - simpl in *. lia.
  - rewrite Nat2Z.inj_succ, Z.pow_succ_r in Hx by lia. cbn [le_encode le_decode].
    rewrite IH.
    + unfold u8. pose proof (Z.div_mod x 256 ltac:(lia)). change (2 ^ 8) with 256. lia.
    + split; [apply Z.div_pos; lia|apply Z.div_lt_upper_bound; lia].
Qed.

Lemma le_decode_range l :
  Forall byte_ok l -> 0 <= le_decode l < 256 ^ Zlen l.
Proof.
  induction 1 as [|x l Hx _ IH].
  - unfold Zlen. simpl. lia.
  - rewrite Zlen_cons, Z.pow_add_r, Z.pow_1_r by (apply Zlen_nonneg || lia).
    simpl. unfold byte_ok in Hx. lia.
Qed.

Lemma store64_ret m p v :
  mapped_range m p 8 -> store64 p v m = Ret tt (poke_list m p (le_encode 8 v)).
Proof. intros H. apply store_bytes_ret. unfold Zlen. now rewrite le_encode_length. Qed.

(** A word that was stored reads back. *)
Definition word64_at (m : mem) (p v : Z) : Prop := bytes_at m p (le_encode 8 v).

Lemma load64_ret m p v :
  word64_at m p v -> 0 <= v < 2 ^ 64 -> load64 p m = Ret v m.
Proof.
  intros H Hv. unfold load64.
  rewrite (bind_ret _ _ _ (le_encode 8 v) m).
  - unst. rewrite le_decode_encode; [done|]. change (256 ^ Z.of_nat 8) with (2 ^ 64). lia.
  - apply load_bytes_ret'; [done| |lia]. unfold Zlen. now rewrite le_encode_length.
Qed.

Lemma word64_at_store m p v :
  mapped_range m p 8 -> word64_at (poke_list m p (le_encode 8 v)) p v.
Proof.
  intros H. apply bytes_at_poke_list; [|apply le_encode_bytes].
  unfold Zlen. now rewrite le_encode_length.
Qed.

#[global] Arguments le_encode : simpl never.
#[global] Arguments le_decode : simpl never.

(** ** Strings in memory *)

Lemma cstr_nil m p : peek m p = Some 0 -> cstr m p [].
Proof. intros H. split; [split; done|constructor]. Qed.

Lemma cstr_cons m p c s :
  cstr m p (c :: s) <-> peek m p = Some c /\ c <> 0 /\ cstr m (p + 1) s.
Proof.
  unfold cstr. simpl. split.
  - intros [[H1 H2] H3]. inversion_clear H3. auto.
  - intros (H1 & H2 & H3 & H4). auto.
Qed.

Lemma cstr_nul m p s : cstr m p s -> peek m (p + Zlen s) = Some 0.
Proof. intros [H _]. apply bytes_at_app in H as [_ [H _]]. exact H. Qed.

Lemma cstr_mapped m p s : cstr m p s -> mapped_range m p (Zlen s + 1).
Proof.
  intros [H _]. apply bytes_at_mapped in H. now rewrite Zlen_app in H.
Qed.

Lemma cstr_app m p s t :
  cstr m p (s ++ t) ->
  bytes_at m p s /\ cstr m (p + Zlen s) t /\ Forall (fun c => c <> 0) s.
Proof.
  intros [H1 H2]. rewrite <- app_assoc in H1. apply bytes_at_app in H1 as [H1 H3].
  apply Forall_app in H2 as [H2 H4]. repeat split; done.
Qed.

Lemma load8_hd m p t : cstr m p t -> load8 p m = Ret (hd 0 t) m.
Proof.
  intros H. apply load8_ret. destruct t as [|c t].
  - apply cstr_nul in H. now rewrite Zlen_nil, Z.add_0_r in H.
  - now apply cstr_cons in H as (H & _).
Qed.

Lemma cstr_drop m p l t : cstr m p (l ++ t) -> cstr m (p + Zlen l) t.
Proof. intros H. now apply cstr_app in H as (_ & H & _). Qed.

(** Two strings at the same address are the same. *)
Lemma cstr_inj m p s t : cstr m p s -> cstr m p t -> s = t.
Proof.
  revert p t. induction s as [|x s IH]; intros p [|y t] Hs Ht; try done.
  - apply cstr_cons in Ht as (H & Hy & _). apply cstr_nul in Hs.
    rewrite Zlen_nil, Z.add_0_r in Hs. congruence.
  - apply cstr_cons in Hs as (H & Hy & _). apply cstr_nul in Ht.
    rewrite Zlen_nil, Z.add_0_r in Ht. congruence.
  - apply cstr_cons in Hs as (H1 & _ & Hs). apply cstr_cons in Ht as (H2 & _ & Ht).
    f_equal; [congruence|]. eauto.
Qed.

Lemma cstr_poke_list_out m p l q s :
  p + Zlen l <= q \/ q + Zlen s + 1 <= p -> cstr m q s -> cstr (poke_list m p l) q s.
Proof.
  intros H [H1 H2]. split; [|done]. apply bytes_at_poke_list_out; [|done].
  rewrite Zlen_app. unfold Zlen in *. simpl. lia.
Qed.

(** A byte sequence of a well-formed memory is made of bytes, and lies within
    the address space. *)
Lemma peek_byte m p v : mem_ok m -> peek m p = Some v -> byte_ok v.
Proof.
  intros [H _]. unfold peek. destruct (is_mapped m p); [|done].
  intros [= <-]. destruct (bytes m !! p) as [w|] eqn:E; simpl.
  - now apply H in E as [E _].
  - unfold byte_ok. lia.
Qed.

Lemma bytes_at_bytes m p l : mem_ok m -> bytes_at m p l -> Forall byte_ok l.
Proof.
  intros Hm. revert p. induction l as [|x l IH]; intros p; [constructor|].
  intros [H1 H2]. constructor; [eapply peek_byte; eauto|eauto].
Qed.

Lemma mapped_range_bound m p n :
  mem_ok m -> 0 < n -> mapped_range m p n -> 0 < p /\ p + n <= 2 ^ 64.
Proof.
  intros [_ H] Hn Hr. pose proof (H p (Hr p ltac:(lia))).
  pose proof (H (p + n - 1) (Hr (p + n - 1) ltac:(lia))). lia.
Qed.

Lemma bytes_at_bound m p l :
  mem_ok m -> l <> [] -> bytes_at m p l -> 0 < p /\ p + Zlen l <= 2 ^ 64.
Proof.
  intros Hm Hl Hb. apply (mapped_range_bound m); [done| |now apply bytes_at_mapped].
  destruct l; [done|]. rewrite Zlen_cons. pose proof (Zlen_nonneg l). lia.
Qed.

Lemma cstr_bound m p s : mem_ok m -> cstr m p s -> 0 < p /\ p + Zlen s + 1 <= 2 ^ 64.
Proof.
  intros Hm Hs. apply cstr_mapped in Hs. pose proof (Zlen_nonneg s).
  destruct (mapped_range_bound m p (Zlen s + 1)); lia || done.
Qed.

Lemma mem_ok_poke m p v : mem_ok m -> is_mapped m p = true -> mem_ok (poke m p v).
Proof.
  intros [H1 H2] Hp. split.
  - intros q w. simpl. rewrite lookup_insert. case_decide as Hd.
    + intros [= <-]. subst q. split; [apply u8_range|done].
    + apply H1.
  - intros q. rewrite is_mapped_poke. apply H2.
Qed.

Lemma mem_ok_poke_list m p l :
  mem_ok m -> mapped_range m p (Zlen l) -> mem_ok (poke_list m p l).
Proof.
  revert m p. induction l as [|x l IH]; intros m p Hm Hr; [done|].
  rewrite Zlen_cons in Hr. pose proof (Zlen_nonneg l). simpl. apply IH.
  - apply mem_ok_poke; [done|]. apply Hr. lia.
  - intros q Hq. rewrite is_mapped_poke. apply Hr. lia.
Qed.

#[export] Hint Resolve mem_ok_poke mem_ok_poke_list : cmem.

(** ** Fresh mappings *)

Lemma is_mapped_map_region m a n q :
  is_mapped (map_region m a n) q = in_region q (a, n) || is_mapped m q.
Proof. reflexivity. Qed.

Section map_region.
Context (m : mem) (Hm : mem_ok m) (a n : Z).
Context (Ha : 0 < a) (Hn : a + n <= 2 ^ 64).
Context (Hfresh : forall q, a <= q < a + n -> is_mapped m q = false).

Lemma mem_ok_map_region : mem_ok (map_region m a n).
Proof.
  destruct Hm as [H1 H2]. split.
  - intros p v Hv. destruct (H1 p v Hv) as [Hb Hp]. split; [done|].
    rewrite is_mapped_map_region, Hp. apply orb_true_r.
  - intros p. rewrite is_mapped_map_region. intros Hp. apply orb_prop in Hp as [Hp|Hp].
    + unfold in_region in Hp. simpl in Hp. lia.
    + auto.
Qed.

Lemma peek_map_region_old q : is_mapped m q = true -> peek (map_region m a n) q = peek m q.
Proof.
  intros H. unfold peek. now rewrite is_mapped_map_region, H, orb_true_r.
Qed.

Lemma peek_map_region_new q : a <= q < a + n -> peek (map_region m a n) q = Some 0.
Proof.
  intros Hq. unfold peek. rewrite is_mapped_map_region. unfold in_region. simpl.
  destruct (Z.leb_spec a q), (Z.ltb_spec q (a + n)); try lia. simpl.
  destruct (bytes m !! q) as [v|] eqn:E; [|done].
  apply Hm in E as [_ E]. rewrite Hfresh in E by lia. done.
Qed.

Lemma mapped_map_region : mapped_range (map_region m a n) a n.
Proof.
  intros q Hq. rewrite is_mapped_map_region. unfold in_region. simpl.
  destruct (Z.leb_spec a q), (Z.ltb_spec q (a + n)); lia || done.
Qed.

End map_region.

(** ** Loops that walk through memory

    A loop whose every completed iteration touched the mapped address [addr a]
    and moved on to the next one ends within the bound, whatever it reads. *)
Lemma while_walks {A B} (body : A -> ST mem (A + B)) (addr : A -> Z) :
  (forall a m, mem_ok m ->
     match body a m with
     | Ret (inl a') m' => is_mapped m (addr a) = true /\ addr a' = addr a + 1 /\ mem_ok m'
     | Ret (inr _) m' => mem_ok m'
     | NoFuel => False
     | _ => True
     end) ->
  forall a m, mem_ok m ->
  match while body a m with Ret _ m' => mem_ok m' | NoFuel => False | _ => True end.
Proof.
  intros Hbody.
  assert (H : forall n a m, mem_ok m -> 2 ^ 64 - addr a < Z.of_nat n \/ addr a <= 0 ->
    match while_nat body n a m with
    | Ret (inl a') m' => n = O \/ addr a <= 0 /\ is_mapped m (addr a) = true
    | Ret (inr _) m' => mem_ok m'
    | NoFuel => False
    | _ => True
    end).
  { induction n as [|n IH]; intros a m Hm Hn; [now left|]. simpl. unst.
    specialize (Hbody a m Hm). destruct (body a m) as [[a'|b] m'| | |]; try done.
    destruct Hbody as (Hmap & Hnext & Hm').
    pose proof (proj2 Hm _ Hmap) as Hr.
    assert (Hn' : 2 ^ 64 - addr a' < Z.of_nat n \/ addr a' <= 0) by lia.
    specialize (IH a' m' Hm' Hn').
    destruct (while_nat body n a' m') as [[a''|b] m''| | |]; try done. lia. }
  intros a m Hm. unfold while. unst. rewrite while_pos_nat.
  assert (Hb : Z.of_nat (Pos.to_nat loop_bound) = 2 ^ 65) by (rewrite positive_nat_Z; done).
  revert Hb. generalize (Pos.to_nat loop_bound). intros n Hb.
  assert (Hn : 2 ^ 64 - addr a < Z.of_nat n \/ addr a <= 0) by lia.
  specialize (H n a m Hm Hn).
  destruct (while_nat body n a m) as [[a'|b] m'| | |]; try done.
  destruct H as [H|[Hle H]]; [lia|]. apply Hm in H. lia.
Qed.

(** ** Executable checks of the memory predicates *)

Definition mem_okb (m : mem) : bool :=
  forallb (fun pv => (0 <=? pv.2) && (pv.2 <? 256) && is_mapped m pv.1)
          (map_to_list (bytes m)) &&
  forallb (fun r => (r.2 <=? 0) || ((0 <? r.1) && (r.1 + r.2 <=? 2 ^ 64))) (regions m).

Lemma mem_okb_ok m : mem_okb m = true -> mem_ok m.
Proof.
  unfold mem_okb. intros H. apply andb_prop in H as [H1 H2].
  rewrite forallb_forall in H1, H2. split.
  - intros p v Hv. apply elem_of_map_to_list, list_elem_of_In, H1 in Hv.
    simpl in Hv. apply andb_prop in Hv as [Hv ?]. unfold byte_ok. split; [lia|done].
  - intros p Hp. unfold is_mapped in Hp. apply existsb_exists in Hp as (r & Hr & Hp).
    apply H2 in Hr. unfold in_region, fst, snd in *. destruct r. simpl in *. lia.
Qed.

#[export] Instance bytes_at_dec m p l : Decision (bytes_at m p l).
Proof. revert p. induction l as [|x l IH]; intros p; simpl; apply _. Defined.

#[export] Instance cstr_dec m p s : Decision (cstr m p s).
Proof. unfold cstr. apply _. Defined.

(** A sufficient condition for a range to be mapped: one region holds it. *)
Definition mapped_rangeb (m : mem) (p n : Z) : bool :=
  existsb (fun r => (r.1 <=? p) && (p + n <=? r.1 + r.2)) (regions m).

Lemma mapped_rangeb_ok m p n : mapped_rangeb m p n = true -> mapped_range m p n.
Proof.
  unfold mapped_rangeb. rewrite existsb_exists. intros (r & Hr & H) q Hq.
  unfold is_mapped. apply existsb_exists. exists r. split; [done|].
  unfold in_region, fst, snd. destruct r. simpl in *. lia.
Qed.

(** [by_eval] closes the side conditions of an example by evaluation. *)
Ltac by_eval :=
  solve [ apply mem_okb_ok; vm_compute; reflexivity
        | apply mapped_rangeb_ok; vm_compute; reflexivity
        | apply (bool_decide_unpack _); vm_compute; exact I
        | vm_compute; reflexivity
        | vm_compute; intuition discriminate ].

(** A page at 4096 holding the given byte sequences, used by the examples. *)
Definition page_with (l : list (Z * list Z)) : mem :=
  fold_left (fun m pl => poke_list m pl.1 pl.2) l (Mem [(4096, 4096)] ∅).
