(* ===== verification/CString.v ===== *)
(** * String functions

    [apps/doom/innigkeit_libc.c]: the string functions from [strcpy] to [strtok],
    and [bzero], [bcopy] and [bcmp], over the process memory.  [char] is signed on the target, so a byte read
    through a [char *] is compared through [s8].  Each function is total: it
    returns, or faults on the first access to an unmapped address. *)

From S2P Require Import Prelude Machine Memory.

(** ** Operations *)

(** The loop that advances [p] while the byte there is not nul and [cond] holds of it. *)
Definition scan_while (cond : Z -> ST mem bool) (p : Z) : ST mem Z :=
  while (fun p =>
           c ← load8 p;
           if c =? 0 then mret (inr p)
           else (b ← cond c; if (b : bool) then mret (inl (p + 1)) else mret (inr p))) p.

(** The copying loop of [strcpy]: the terminating nul is copied too. *)
Definition copy_through_nul (d s : Z) : ST mem unit :=
  while (fun '(d, s) =>
           c ← load8 s;
           store8 d c;;
           if c =? 0 then mret (inr tt) else mret (inl (d + 1, s + 1))) (d, s).

Definition strcpy (dst src : Z) : ST mem Z :=
  copy_through_nul dst src;;
  mret dst.

Definition strncpy (dst src n : Z) : ST mem Z :=
  i ← while (fun i =>
               if i <? n then
                 (c ← load8 (src + i);
                  if c =? 0 then mret (inr i)
                  else (store8 (dst + i) c;; mret (inl (i + 1))))
               else mret (inr i)) 0;
  while (fun i =>
           if i <? n then (store8 (dst + i) 0;; mret (inl (i + 1)))
           else mret (inr tt)) i;;
  mret dst.

Definition strcat (dst src : Z) : ST mem Z :=
  d ← scan_while (fun _ => mret true) dst;
  copy_through_nul d src;;
  mret dst.

Definition strncat (dst src n : Z) : ST mem Z :=
  d ← scan_while (fun _ => mret true) dst;
  d' ← while (fun '(n, d, s) =>
                if n =? 0 then mret (inr d)
                else
                  (c ← load8 s;
                   store8 d c;;
                   if c =? 0 then mret (inr (d + 1))
                   else mret (inl (n - 1, d + 1, s + 1)))) (n, d, src);
  store8 d' 0;;
  mret dst.

Definition strlen (s : Z) : ST mem Z :=
  p ← scan_while (fun _ => mret true) s;
  mret (p - s).

Definition strchr (s c : Z) : ST mem Z :=
  while (fun s =>
           b ← load8 s;
           if b =? 0 then mret (inr (if c =? 0 then s else 0))
           else if s8 b =? s8 c then mret (inr s)
           else mret (inl (s + 1))) s.

Definition strrchr (s c : Z) : ST mem Z :=
  while (fun '(s, last) =>
           b ← load8 s;
           if b =? 0 then mret (inr last)
           else mret (inl (s + 1, if s8 b =? s8 c then s else last))) (s, 0).

Definition strstr (haystack needle : Z) : ST mem Z :=
  n0 ← load8 needle;
  if n0 =? 0 then mret haystack
  else
    nl ← strlen needle;
    while (fun h =>
             b ← load8 h;
             if b =? 0 then mret (inr 0)
             else
               (r ← memcmp h needle nl;
                if r =? 0 then mret (inr h) else mret (inl (h + 1)))) haystack.

(** [strtok]; the static [saved] is an argument and a result. *)
Definition strtok (str delim saved : Z) : ST mem (Z * Z) :=
  let saved := if str =? 0 then saved else str in
  if saved =? 0 then mret (0, saved)
  else
    saved ← scan_while (fun c => r ← strchr delim (s8 c); mret (negb (r =? 0))) saved;
    c ← load8 saved;
    if c =? 0 then mret (0, saved)
    else
      let tok := saved in
      saved ← scan_while (fun c => r ← strchr delim (s8 c); mret (r =? 0)) saved;
      c ← load8 saved;
      if c =? 0 then mret (tok, saved)
      else (store8 saved 0;; mret (tok, saved + 1)).

Definition bzero (s n : Z) : ST mem unit := memset s 0 n.
Definition bcopy (src dst n : Z) : ST mem unit := memmove dst src n.
Definition bcmp (s1 s2 n : Z) : ST mem Z := memcmp s1 s2 n.

(** ** Reference functions on byte lists *)

(** Index of the first byte equal to [c]. *)
Fixpoint index_of (c : Z) (s : list Z) : option Z :=
  match s with
  | [] => None
  | x :: s' => if x =? c then Some 0 else option_map Z.succ (index_of c s')
  end.

(** Index of the last byte equal to [c]. *)
Fixpoint last_index_of (c : Z) (s : list Z) : option Z :=
  match s with
  | [] => None
  | x :: s' =>
      match last_index_of c s' with
      | Some i => Some (i + 1)
      | None => if x =? c then Some 0 else None
      end
  end.

Fixpoint is_prefix (n s : list Z) : bool :=
  match n, s with
  | [], _ => true
  | _, [] => false
  | x :: n', y :: s' => (x =? y) && is_prefix n' s'
  end.

(** Index of the first occurrence of [n] in [s]. *)
Fixpoint find_sub (n s : list Z) : option Z :=
  match s with
  | [] => None
  | _ :: s' => if is_prefix n s then Some 0 else option_map Z.succ (find_sub n s')
  end.

Definition is_delim (ds : list Z) (c : Z) : bool := existsb (Z.eqb c) ds.

Fixpoint drop_while {A} (f : A -> bool) (l : list A) : list A :=
  match l with
  | [] => []
  | x :: l' => if f x then drop_while f l' else l
  end.

Fixpoint take_while {A} (f : A -> bool) (l : list A) : list A :=
  match l with
  | [] => []
  | x :: l' => if f x then x :: take_while f l' else []
  end.

(** The next token of [s] and what is left after it and its delimiter. *)
Definition next_token (ds s : list Z) : option (list Z * list Z) :=
  match drop_while (is_delim ds) s with
  | [] => None
  | t => Some (take_while (fun c => negb (is_delim ds c)) t,
               drop 1 (drop_while (fun c => negb (is_delim ds c)) t))
  end.

(** ** Scanning and copying loops *)

Section scanning.
Context (m : mem) (Hm : mem_ok m).

Lemma scan_loops cond p s :
  bytes_at m p s -> Forall (fun c => c <> 0 /\ cond c m = Ret true m) s ->
  forall o, loops (fun p => c ← load8 p;
                    if c =? 0 then mret (inr p)
                    else (b ← cond c; if (b : bool) then mret (inl (p + 1)) else mret (inr p)))
                  0 (p + Zlen s) m o ->
  loops (fun p => c ← load8 p;
           if c =? 0 then mret (inr p)
           else (b ← cond c; if (b : bool) then mret (inl (p + 1)) else mret (inr p)))
        (length s) p m o.
Proof.
  revert p. induction s as [|x s IH]; intros p Hb Hs o Ho.
  - replace (p + Zlen []) with p in Ho by (unfold Zlen; simpl; lia). exact Ho.
  - destruct Hb as [Hx Hb]. inversion_clear Hs as [|? ? [Hx0 Hc] Hs'].
    eapply loops_step.
    + erewrite bind_ret by (eauto with cmem).
      destruct (Z.eqb_spec x 0); [done|]. erewrite bind_ret by exact Hc. reflexivity.
    + apply IH; [done..|]. rewrite Zlen_cons in Ho.
      now replace (p + 1 + Zlen s) with (p + (Zlen s + 1)) by lia.
Qed.

(** The scan stops at the terminating nul when every byte satisfies [cond]. *)
Lemma scan_while_nul cond p s :
  cstr m p s -> Forall (fun c => cond c m = Ret true m) s ->
  scan_while cond p m = Ret (p + Zlen s) m.
Proof.
  intros Hs Hc. pose proof (cstr_bound m p s Hm Hs) as Hbd.
  pose proof (cstr_nul _ _ _ Hs) as H0. destruct Hs as [Hs Hn].
  apply bytes_at_app in Hs as [Hs _]. unfold scan_while. eapply while_loops.
  - apply (scan_loops cond p s Hs); [now apply Forall_and|].
    apply loops_stop. erewrite bind_ret by (eauto with cmem). reflexivity.
  - fold (Zlen s). lia.
Qed.

(** The scan stops at the first byte that does not satisfy [cond]. *)
Lemma scan_while_stop cond p s x t :
  cstr m p (s ++ x :: t) -> Forall (fun c => cond c m = Ret true m) s ->
  cond x m = Ret false m -> scan_while cond p m = Ret (p + Zlen s) m.
Proof.
  intros Hs Hc Hx. pose proof (cstr_bound m _ _ Hm Hs) as Hbd.
  apply cstr_app in Hs as (Hs & Ht & Hn). apply cstr_cons in Ht as (H1 & H2 & _).
  unfold scan_while. eapply while_loops.
  - apply (scan_loops cond p s Hs); [now apply Forall_and|].
    apply loops_stop. erewrite bind_ret by (eauto with cmem).
    destruct (Z.eqb_spec x 0); [done|]. erewrite bind_ret by exact Hx. reflexivity.
  - fold (Zlen s). rewrite Zlen_app, Zlen_cons in Hbd. pose proof (Zlen_nonneg t). lia.
Qed.

Lemma scan_to_nul p s : cstr m p s -> scan_while (fun _ => mret true) p m = Ret (p + Zlen s) m.
Proof.
  intros Hs. apply scan_while_nul; [done|]. apply Forall_true. done.
Qed.

End scanning.

(** The copying loop writes the string and its terminator. *)
Lemma copy_loops m d p s :
  cstr m p s -> mapped_range m d (Zlen s + 1) ->
  disjoint_ranges d (Zlen s + 1) p (Zlen s + 1) = true ->
  loops (fun '(d, s) => c ← load8 s; store8 d c;;
           if c =? 0 then mret (inr tt) else mret (inl (d + 1, s + 1)))
        (length s) (d, p) m (Ret tt (poke_list m d (s ++ [0]))).
Proof.
  revert m d p. induction s as [|x s IH]; intros m d p Hs Hd Hj.
  - apply cstr_nul in Hs. rewrite Zlen_nil, Z.add_0_r in Hs. apply loops_stop.
    erewrite bind_ret by (eauto with cmem).
    erewrite bind_ret by (apply store8_ret, Hd; unfold Zlen; simpl; lia). reflexivity.
  - apply cstr_cons in Hs as (Hx & Hx0 & Hs). rewrite Zlen_cons in Hd, Hj.
    pose proof (Zlen_nonneg s).
    assert (Hj' : d + Zlen s + 2 <= p \/ p + Zlen s + 2 <= d)
      by (unfold disjoint_ranges in Hj; lia).
    eapply loops_step.
    + erewrite bind_ret by (eauto with cmem).
      erewrite bind_ret by (apply store8_ret, Hd; lia).
      destruct (Z.eqb_spec x 0); [done|reflexivity].
    + apply IH.
      * apply (cstr_poke_list_out m d [x]); [|done]. unfold Zlen at 1. simpl. lia.
      * apply mapped_range_poke. eapply mapped_range_sub; [exact Hd|lia|lia].
      * unfold disjoint_ranges. lia.
Qed.

Lemma copy_through_nul_ret m d p s :
  mem_ok m -> cstr m p s -> mapped_range m d (Zlen s + 1) ->
  disjoint_ranges d (Zlen s + 1) p (Zlen s + 1) = true ->
  copy_through_nul d p m = Ret tt (poke_list m d (s ++ [0])).
Proof.
  intros Hm Hs Hd Hj. unfold copy_through_nul. eapply while_loops; [now apply copy_loops|].
  pose proof (cstr_bound m p s Hm Hs). fold (Zlen s). lia.
Qed.

Lemma cstr_poke_list m d s :
  mapped_range m d (Zlen s + 1) -> Forall byte_ok s -> Forall (fun c => c <> 0) s ->
  cstr (poke_list m d (s ++ [0])) d s.
Proof.
  intros Hd Hb Hn. split; [|done]. apply bytes_at_poke_list.
  - rewrite Zlen_app. exact Hd.
  - apply Forall_app. split; [done|]. repeat constructor; lia.
Qed.

Lemma cstr_bytes m p s : mem_ok m -> cstr m p s -> Forall byte_ok s.
Proof.
  intros Hm [H _]. apply bytes_at_bytes in H; [|done]. now apply Forall_app in H as [H _].
Qed.

(** ** [strncpy] *)

Lemma strncpy_copy_loops m dst src n i s :
  bytes_at m (src + i) s -> Forall (fun c => c <> 0) s -> 0 <= i -> i + Zlen s <= n ->
  mapped_range m dst n -> disjoint_ranges dst n (src + i) (Zlen s + 1) = true ->
  (i + Zlen s = n \/ peek m (src + i + Zlen s) = Some 0) ->
  loops (fun i => if i <? n then
                    (c ← load8 (src + i);
                     if c =? 0 then mret (inr i)
                     else (store8 (dst + i) c;; mret (inl (i + 1))))
                  else mret (inr i))
        (length s) i m (Ret (i + Zlen s) (poke_list m (dst + i) s)).
Proof.
  revert m i. induction s as [|x s IH]; intros m i Hb Hn Hi Hin Hd Hj Hend.
  - replace (i + Zlen []) with i in * by (unfold Zlen; simpl; lia). apply loops_stop.
    destruct (Z.ltb_spec i n); [|reflexivity].
    destruct Hend as [|H0]; [lia|]. rewrite Zlen_nil, Z.add_0_r in H0.
    erewrite bind_ret by (eauto with cmem). reflexivity.
  - destruct Hb as [Hx Hb]. inversion_clear Hn as [|? ? Hx0 Hn'].
    rewrite Zlen_cons in *. pose proof (Zlen_nonneg s).
    assert (Hj' : dst + n <= src + i \/ src + i + Zlen s + 2 <= dst)
      by (unfold disjoint_ranges in Hj; lia).
    eapply loops_step.
    + destruct (Z.ltb_spec i n); [|lia]. erewrite bind_ret by (eauto with cmem).
      destruct (Z.eqb_spec x 0); [done|].
      erewrite bind_ret by (apply store8_ret, Hd; lia). reflexivity.
    + simpl. replace (dst + i + 1) with (dst + (i + 1)) by lia.
      replace (i + (Zlen s + 1)) with (i + 1 + Zlen s) by lia.
      apply IH; auto with cmem; try lia.
      * replace (src + (i + 1)) with (src + i + 1) by lia.
        apply bytes_at_poke_out; [lia|done].
      * unfold disjoint_ranges. lia.
      * destruct Hend as [|H0]; [left; lia|right].
        rewrite peek_poke_ne by lia. rewrite <- H0. f_equal. lia.
Qed.

Lemma strncpy_pad_loops m dst n i k :
  n = i + Z.of_nat k -> 0 <= i -> mapped_range m dst n ->
  loops (fun i => if i <? n then (store8 (dst + i) 0;; mret (inl (i + 1))) else mret (inr tt))
        k i m (Ret tt (poke_list m (dst + i) (replicate k 0))).
Proof. apply memset_loops. Qed.

(** [strncpy] of a string no longer than [n] pads with nuls; of a longer one it
    writes the first [n] bytes and no terminator. *)
Lemma strncpy_ret m dst src n s :
  mem_ok m -> cstr m src s -> 0 <= n < 2 ^ 64 -> mapped_range m dst n ->
  disjoint_ranges dst n src (Zlen s + 1) = true ->
  strncpy dst src n m =
  Ret dst (poke_list m dst (take (Z.to_nat n) s ++ replicate (Z.to_nat n - length s) 0)).
Proof.
  intros Hm Hs Hn Hd Hj.
  set (t := take (Z.to_nat n) s).
  assert (Ht : Zlen t = Z.min n (Zlen s)) by (unfold t, Zlen; rewrite length_take; lia).
  assert (Hst : s = t ++ drop (Z.to_nat n) s) by (symmetry; apply take_drop).
  pose proof (Zlen_nonneg s). pose proof (Zlen_nonneg t).
  assert (Hbt : bytes_at m src t /\ Forall (fun c => c <> 0) t).
  { rewrite Hst in Hs. apply cstr_app in Hs. tauto. }
  unfold strncpy.
  rewrite (bind_ret _ _ _ (Zlen t) (poke_list m dst t)).
  - rewrite (bind_ret _ _ _ tt
       (poke_list (poke_list m dst t) (dst + Zlen t) (replicate (Z.to_nat n - length s) 0))).
    + now rewrite poke_list_app.
    + eapply while_loops.
      * apply strncpy_pad_loops; [unfold Zlen in *; lia|lia|]. auto with cmem.
      * lia.
  - eapply while_loops.
    + pose proof (strncpy_copy_loops m dst src n 0 t) as H'.
      rewrite !Z.add_0_r, !Z.add_0_l in H'. apply H'; try tauto; try lia.
      * unfold disjoint_ranges in *. lia.
      * destruct (Z_lt_le_dec (Zlen s) n); [right|left; lia].
        replace (Zlen t) with (Zlen s) by lia. now apply cstr_nul.
    + fold (Zlen t). lia.
Qed.

(** ** [strcat] and [strncat] *)

Lemma strcat_ret m dst src d s :
  mem_ok m -> cstr m dst d -> cstr m src s ->
  mapped_range m dst (Zlen d + Zlen s + 1) ->
  disjoint_ranges dst (Zlen d + Zlen s + 1) src (Zlen s + 1) = true ->
  strcat dst src m = Ret dst (poke_list m (dst + Zlen d) (s ++ [0])).
Proof.
  intros Hm Hd Hs Hr Hj. pose proof (Zlen_nonneg d). pose proof (Zlen_nonneg s).
  unfold strcat. erewrite bind_ret by (apply scan_to_nul; eassumption).
  erewrite bind_ret.
  - reflexivity.
  - apply copy_through_nul_ret; [done..| |].
    + eapply mapped_range_sub; [exact Hr|lia|lia].
    + unfold disjoint_ranges in *. lia.
Qed.

Lemma strncat_loops m d p n s stop :
  bytes_at m p s -> Forall (fun c => c <> 0) s ->
  (stop = [] /\ n = Zlen s \/ stop = [0] /\ Zlen s < n /\ peek m (p + Zlen s) = Some 0) ->
  mapped_range m d (Zlen s + Zlen stop) ->
  disjoint_ranges d (Zlen s + Zlen stop) p (Zlen s + 1) = true ->
  loops (fun '(n, d, s) =>
           if n =? 0 then mret (inr d)
           else (c ← load8 s; store8 d c;;
                 if c =? 0 then mret (inr (d + 1)) else mret (inl (n - 1, d + 1, s + 1))))
        (length s) (n, d, p) m
        (Ret (d + Zlen s + Zlen stop) (poke_list m d (s ++ stop))).
Proof.
  revert m d p n. induction s as [|x s IH]; intros m d p n Hb Hn Hst Hd Hj.
  - rewrite Zlen_nil, ?Z.add_0_r, ?Z.add_0_l in *. apply loops_stop.
    destruct Hst as [[-> ->]|(-> & Hlt & H0)].
    + rewrite Z.eqb_refl, Zlen_nil, Z.add_0_r. reflexivity.
    + destruct (Z.eqb_spec n 0); [lia|].
      erewrite bind_ret by (eauto with cmem).
      erewrite bind_ret by (apply store8_ret, Hd; unfold Zlen; simpl; lia). reflexivity.
  - destruct Hb as [Hx Hb]. inversion_clear Hn as [|? ? Hx0 Hn'].
    rewrite Zlen_cons in *. pose proof (Zlen_nonneg s). pose proof (Zlen_nonneg stop).
    assert (Hj' : d + Zlen s + 1 + Zlen stop <= p \/ p + Zlen s + 2 <= d)
      by (unfold disjoint_ranges in Hj; lia).
    eapply loops_step.
    + destruct (Z.eqb_spec n 0); [lia|].
      erewrite bind_ret by (eauto with cmem).
      erewrite bind_ret by (apply store8_ret, Hd; lia).
      destruct (Z.eqb_spec x 0); [done|reflexivity].
    + replace (d + (Zlen s + 1) + Zlen stop) with (d + 1 + Zlen s + Zlen stop) by lia.
      apply IH; [apply bytes_at_poke_out; [lia|done] | done | | |].
      * destruct Hst as [[-> ->]|(-> & Hlt & Hnul)]; [left; split; [done|lia]|right].
        split; [done|]. split; [lia|]. rewrite peek_poke_ne by lia.
        rewrite <- Hnul. f_equal. lia.
      * apply mapped_range_poke. eapply mapped_range_sub; [exact Hd|lia|lia].
      * unfold disjoint_ranges. lia.
Qed.

(** What [strncat] writes after the old string: when the source is shorter than
    [n], its terminator is copied and a second nul is written after it. *)
Definition strncat_tail (n : Z) (s : list Z) : list Z :=
  if Zlen s <? n then s ++ [0; 0] else take (Z.to_nat n) s ++ [0].

Lemma strncat_ret m dst src n d s :
  mem_ok m -> cstr m dst d -> cstr m src s -> 0 <= n < 2 ^ 64 ->
  mapped_range m dst (Zlen d + Zlen (strncat_tail n s)) ->
  disjoint_ranges dst (Zlen d + Zlen (strncat_tail n s)) src (Zlen s + 1) = true ->
  strncat dst src n m = Ret dst (poke_list m (dst + Zlen d) (strncat_tail n s)).
Proof.
  intros Hm Hd Hs Hn Hr Hj. unfold strncat_tail in *.
  pose proof (cstr_bound m src s Hm Hs) as Hbd.
  pose proof (Zlen_nonneg d). pose proof (Zlen_nonneg s).
  unfold strncat. erewrite bind_ret by (apply scan_to_nul; eassumption).
  destruct (Z.ltb_spec (Zlen s) n) as [Hlt|Hge].
  - rewrite Zlen_app in *. change (Zlen [0; 0]) with 2 in *.
    rewrite (bind_ret _ _ _ (dst + Zlen d + Zlen s + 1)
               (poke_list m (dst + Zlen d) (s ++ [0]))).
    + erewrite bind_ret; [|apply store8_ret].
      * unst. change [0; 0] with ([0] ++ [0]).
        rewrite app_assoc, (poke_list_snoc _ _ (s ++ [0])), Zlen_app.
        change (Zlen [0]) with 1. do 2 f_equal. lia.
      * rewrite is_mapped_poke_list. apply Hr. lia.
    + eapply while_loops.
      * apply (strncat_loops m (dst + Zlen d) src n s [0]); try apply Hs.
        -- destruct Hs as [Hs _]. now apply bytes_at_app in Hs as [Hs _].
        -- right. split; [done|]. split; [done|]. now apply cstr_nul.
        -- change (Zlen [0]) with 1. eapply mapped_range_sub; [exact Hr|lia|lia].
        -- change (Zlen [0]) with 1. unfold disjoint_ranges in *. lia.
      * fold (Zlen s). lia.
  - set (t := take (Z.to_nat n) s) in *.
    assert (Ht : Zlen t = n) by (unfold t, Zlen in *; rewrite length_take; lia).
    assert (Hst : s = t ++ drop (Z.to_nat n) s) by (symmetry; apply take_drop).
    rewrite Zlen_app, Ht in *. change (Zlen [0]) with 1 in *.
    rewrite (bind_ret _ _ _ (dst + Zlen d + Zlen t + 0) (poke_list m (dst + Zlen d) (t ++ []))).
    + erewrite bind_ret; [|apply store8_ret].
      * unst. rewrite app_nil_r, poke_list_snoc. do 2 f_equal. lia.
      * rewrite is_mapped_poke_list. apply Hr. lia.
    + rewrite Hst in Hs. apply cstr_app in Hs as (Hs & _ & Hnz). eapply while_loops.
      * apply (strncat_loops m (dst + Zlen d) src n t []); try done.
        -- left. split; [done|lia].
        -- rewrite Zlen_nil. eapply mapped_range_sub; [exact Hr|lia|lia].
        -- rewrite Zlen_nil. unfold disjoint_ranges in *. lia.
      * fold (Zlen t). lia.
Qed.

(** ** [strchr] and [strrchr] *)

Section search.
Context (m : mem) (Hm : mem_ok m).

Lemma index_of_range c s i : index_of c s = Some i -> 0 <= i < Zlen s.
Proof.
  revert i. induction s as [|x s IH]; intros i; simpl; [done|].
  rewrite Zlen_cons. pose proof (Zlen_nonneg s). destruct (x =? c).
  - intros [= <-]. lia.
  - destruct (index_of c s) as [j|]; [|done]. intros [= <-].
    specialize (IH j eq_refl). lia.
Qed.

Lemma strchr_loops p c s :
  cstr m p s ->
  exists n, Z.of_nat n <= Zlen s /\
  loops (fun s => b ← load8 s;
           if b =? 0 then mret (inr (if c =? 0 then s else 0))
           else if s8 b =? s8 c then mret (inr s)
           else mret (inl (s + 1)))
        n p m
        (Ret (match index_of (u8 c) s with
              | Some i => p + i
              | None => if c =? 0 then p + Zlen s else 0
              end) m).
Proof.
  revert p. induction s as [|x s IH]; intros p Hs.
  - exists O. split; [unfold Zlen; simpl; lia|]. apply cstr_nul in Hs.
    rewrite Zlen_nil, Z.add_0_r in *. apply loops_stop.
    erewrite bind_ret by (eauto with cmem). reflexivity.
  - apply cstr_cons in Hs as (Hx & Hx0 & Hs). simpl.
    pose proof (peek_byte m p x Hm Hx) as Hxb.
    destruct (Z.eqb_spec x (u8 c)) as [Heq|Hne].
    + exists O. split; [pose proof (Zlen_nonneg (x :: s)); lia|]. apply loops_stop.
      erewrite bind_ret by (eauto with cmem). destruct (Z.eqb_spec x 0); [done|].
      rewrite s8_eqb, Heq, Z.eqb_refl by done. rewrite Z.add_0_r. reflexivity.
    + destruct (IH _ Hs) as (n & Hn & Hl). exists (Datatypes.S n).
      rewrite Zlen_cons. split; [lia|]. eapply loops_step.
      * erewrite bind_ret by (eauto with cmem). destruct (Z.eqb_spec x 0); [done|].
        rewrite s8_eqb by done. destruct (Z.eqb_spec x (u8 c)); [done|]. reflexivity.
      * replace (p + (Zlen s + 1)) with (p + 1 + Zlen s) by lia.
        destruct (index_of (u8 c) s) as [i|]; simpl; [|exact Hl].
        now replace (p + Z.succ i) with (p + 1 + i) by lia.
Qed.

Lemma strchr_ret p c s :
  cstr m p s ->
  strchr p c m = Ret (match index_of (u8 c) s with
                      | Some i => p + i
                      | None => if c =? 0 then p + Zlen s else 0
                      end) m.
Proof.
  intros Hs. pose proof (cstr_bound m p s Hm Hs).
  destruct (strchr_loops p c s Hs) as (n & Hn & Hl).
  unfold strchr. eapply while_loops; [exact Hl|]. lia.
Qed.

Lemma index_of_None c s : index_of c s = None <-> is_delim s c = false.
Proof.
  unfold is_delim. induction s as [|x s IH]; [done|]. simpl.
  rewrite (Z.eqb_sym c x). destruct (x =? c); [done|]. rewrite <- IH.
  destruct (index_of c s); done.
Qed.

(** Membership of a nonzero character in a delimiter string. *)
Lemma strchr_delim p ds c :
  cstr m p ds -> byte_ok c -> c <> 0 ->
  exists r, strchr p (s8 c) m = Ret r m /\ (r =? 0) = negb (is_delim ds c).
Proof.
  intros Hs Hc Hc0. pose proof (cstr_bound m p ds Hm Hs).
  rewrite (strchr_ret _ _ _ Hs), u8_s8, (u8_id c Hc).
  eexists. split; [reflexivity|].
  destruct (index_of c ds) as [i|] eqn:E.
  - pose proof (index_of_range _ _ _ E).
    destruct (is_delim ds c) eqn:D; [apply Z.eqb_neq; lia|].
    apply index_of_None in D. congruence.
  - apply index_of_None in E. rewrite E.
    assert (s8 c <> 0).
    { intros H0. apply Hc0. rewrite <- (u8_id c Hc), <- u8_s8, H0. reflexivity. }
    destruct (Z.eqb_spec (s8 c) 0); done.
Qed.

Lemma strrchr_loops p c s last :
  cstr m p s ->
  loops (fun '(s, last) => b ← load8 s;
           if b =? 0 then mret (inr last)
           else mret (inl (s + 1, if s8 b =? s8 c then s else last)))
        (length s) (p, last) m
        (Ret (match last_index_of (u8 c) s with Some i => p + i | None => last end) m).
Proof.
  revert p last. induction s as [|x s IH]; intros p last Hs.
  - apply cstr_nul in Hs. rewrite Zlen_nil, Z.add_0_r in *. apply loops_stop.
    erewrite bind_ret by (eauto with cmem). reflexivity.
  - apply cstr_cons in Hs as (Hx & Hx0 & Hs). eapply loops_step.
    + erewrite bind_ret by (eauto with cmem). destruct (Z.eqb_spec x 0); [done|]. reflexivity.
    + rewrite s8_eqb by (eapply peek_byte; eauto).
      specialize (IH _ (if x =? u8 c then p else last) Hs). simpl.
      destruct (last_index_of (u8 c) s) as [i|].
      * now replace (p + (i + 1)) with (p + 1 + i) by lia.
      * destruct (x =? u8 c); [now rewrite Z.add_0_r|exact IH].
Qed.

Lemma strrchr_ret p c s :
  cstr m p s ->
  strrchr p c m = Ret (match last_index_of (u8 c) s with Some i => p + i | None => 0 end) m.
Proof.
  intros Hs. pose proof (cstr_bound m p s Hm Hs).
  unfold strrchr. eapply while_loops; [now apply strrchr_loops|]. fold (Zlen s). lia.
Qed.

End search.

(** ** [strlen] and [strstr] *)

Lemma strlen_ret m p s : mem_ok m -> cstr m p s -> strlen p m = Ret (Zlen s) m.
Proof.
  intros Hm Hs. unfold strlen. erewrite bind_ret by (apply scan_to_nul; eassumption).
  unst. f_equal. lia.
Qed.

Lemma is_prefix_app n s : is_prefix n s = true -> exists r, s = n ++ r.
Proof.
  revert s. induction n as [|x n IH]; intros s; [now exists s|].
  destruct s as [|y s]; [done|]. simpl. intros H. apply andb_prop in H as [H1 H2].
  apply Z.eqb_eq in H1 as ->. destruct (IH _ H2) as [r ->]. now exists r.
Qed.

(** A string that does not start with [n] differs from it at some byte, its
    terminator included. *)
Lemma is_prefix_mismatch n s :
  is_prefix n s = false -> Forall (fun c => c <> 0) n ->
  exists l x y r r', s ++ [0] = l ++ x :: r /\ n = l ++ y :: r' /\ x <> y.
Proof.
  revert s. induction n as [|y n IH]; intros s; [done|].
  intros H Hn. inversion_clear Hn as [|? ? Hy Hn']. destruct s as [|x s].
  - exists [], 0, y, [], n. repeat split. congruence.
  - simpl in H. destruct (Z.eqb_spec y x) as [->|Hne].
    + destruct (IH _ H Hn') as (l & a & b & r & r' & E1 & E2 & E3).
      exists (x :: l), a, b, r, r'. simpl. rewrite E1, E2. done.
    + exists [], x, y, (s ++ [0]), n. repeat split. congruence.
Qed.

Section strstr.
Context (m : mem) (Hm : mem_ok m) (needle : Z) (nd : list Z) (Hnd : cstr m needle nd).

Lemma memcmp_prefix h t :
  cstr m h t ->
  exists r, memcmp h needle (Zlen nd) m = Ret r m /\ (r =? 0) = is_prefix nd t.
Proof.
  intros Ht. pose proof (cstr_bound m _ _ Hm Hnd) as Hb. destruct Hnd as [Hn Hnz].
  destruct (is_prefix nd t) eqn:E.
  - exists 0. split; [|done]. apply is_prefix_app in E as [r ->].
    apply cstr_app in Ht as (Ht & _). apply bytes_at_app in Hn as [Hn _].
    apply memcmp_eq; [done..|lia].
  - destruct (is_prefix_mismatch _ _ E Hnz) as (l & x & y & r & r' & E1 & E2 & E3).
    exists (x - y). split; [|apply Z.eqb_neq; lia].
    destruct Ht as [Ht _]. rewrite E1 in Ht. rewrite E2, <- app_assoc in Hn.
    apply (memcmp_ne m h needle (Zlen nd) l x y); [| |done| |lia].
    + apply bytes_at_app in Ht as [? [? _]]. apply bytes_at_app. simpl. auto.
    + apply bytes_at_app in Hn as [? [? _]]. apply bytes_at_app. simpl. auto.
    + rewrite E2, Zlen_app, Zlen_cons. pose proof (Zlen_nonneg r'). lia.
Qed.

Lemma strstr_loops h t :
  cstr m h t ->
  exists n, Z.of_nat n <= Zlen t /\
  loops (fun h => b ← load8 h;
           if b =? 0 then mret (inr 0)
           else (r ← memcmp h needle (Zlen nd);
                 if r =? 0 then mret (inr h) else mret (inl (h + 1))))
        n h m (Ret (match find_sub nd t with Some i => h + i | None => 0 end) m).
Proof.
  revert h. induction t as [|x t IH]; intros h Ht.
  - exists O. split; [unfold Zlen; simpl; lia|]. apply cstr_nul in Ht.
    rewrite Zlen_nil, Z.add_0_r in Ht. apply loops_stop.
    erewrite bind_ret by (eauto with cmem). reflexivity.
  - destruct (memcmp_prefix h _ Ht) as (r & Hr & Hr0). cbn [find_sub].
    apply cstr_cons in Ht as (Hx & Hx0 & Ht).
    destruct (is_prefix nd (x :: t)).
    + exists O. split; [pose proof (Zlen_nonneg (x :: t)); lia|]. apply loops_stop.
      erewrite bind_ret by (eauto with cmem). destruct (Z.eqb_spec x 0); [done|].
      erewrite bind_ret by exact Hr. rewrite Hr0, Z.add_0_r. reflexivity.
    + destruct (IH _ Ht) as (n & Hn & Hl). exists (Datatypes.S n).
      rewrite Zlen_cons. split; [lia|]. eapply loops_step.
      * erewrite bind_ret by (eauto with cmem). destruct (Z.eqb_spec x 0); [done|].
        erewrite bind_ret by exact Hr. rewrite Hr0. reflexivity.
      * destruct (find_sub nd t) as [i|]; simpl; [|exact Hl].
        now replace (h + Z.succ i) with (h + 1 + i) by lia.
Qed.

Lemma strstr_ret h t :
  cstr m h t ->
  strstr h needle m =
  Ret (match nd with
       | [] => h
       | _ => match find_sub nd t with Some i => h + i | None => 0 end
       end) m.
Proof.
  intros Ht. pose proof (cstr_bound m _ _ Hm Ht) as Hb. unfold strstr.
  pose proof (strlen_ret m needle nd Hm Hnd) as Hlen.
  destruct (strstr_loops h t Ht) as (n & Hn & Hl). pose proof Hnd as Hnd'.
  destruct nd as [|y nd'].
  - apply cstr_nul in Hnd'. rewrite Zlen_nil, Z.add_0_r in Hnd'.
    erewrite bind_ret by (eauto with cmem). reflexivity.
  - apply cstr_cons in Hnd' as (Hy & Hy0 & _).
    erewrite bind_ret by (eauto with cmem). destruct (Z.eqb_spec y 0); [done|].
    erewrite bind_ret by exact Hlen. eapply while_loops; [exact Hl|]. lia.
Qed.

End strstr.

(** ** [strtok] *)

Lemma take_drop_while {A} (f : A -> bool) l : take_while f l ++ drop_while f l = l.
Proof. induction l as [|x l IH]; [done|]. simpl. destruct (f x); simpl; congruence. Qed.

Lemma take_while_Forall {A} (f : A -> bool) l : Forall (fun x => f x = true) (take_while f l).
Proof.
  induction l as [|x l IH]; [constructor|]. simpl. destruct (f x) eqn:E; auto.
Qed.

Lemma drop_while_head {A} (f : A -> bool) l x t : drop_while f l = x :: t -> f x = false.
Proof.
  induction l as [|y l IH]; [done|]. simpl. destruct (f y) eqn:E; [done|].
  intros [= -> _]. done.
Qed.

Section strtok.
Context (m : mem) (Hm : mem_ok m) (delim : Z) (ds : list Z) (Hds : cstr m delim ds).

(** Either scanning loop of [strtok]: it advances over the bytes whose
    membership in the delimiters is [want]. *)
Lemma strtok_scan (want : bool) p s :
  cstr m p s ->
  scan_while (fun c => r ← strchr delim (s8 c); mret (xorb want (r =? 0))) p m =
  Ret (p + Zlen (take_while (fun c => Bool.eqb (is_delim ds c) want) s)) m.
Proof.
  intros Hs. set (f := fun c => Bool.eqb (is_delim ds c) want).
  assert (Hcond : forall c, c ∈ s ->
      (r ← strchr delim (s8 c); mret (xorb want (r =? 0))) m = Ret (f c) m).
  { intros c Hc. pose proof (cstr_bytes _ _ _ Hm Hs) as Hb. destruct Hs as [_ Hnz].
    rewrite Forall_forall in Hb, Hnz.
    destruct (strchr_delim m Hm delim ds c Hds (Hb c Hc) (Hnz c Hc)) as (r & Hr & Hr0).
    erewrite bind_ret by exact Hr. unst. rewrite Hr0. f_equal. unfold f.
    now destruct (is_delim ds c), want. }
  pose proof (take_drop_while f s) as Hsplit.
  assert (Htake : Forall (fun c => (r ← strchr delim (s8 c); mret (xorb want (r =? 0))) m
                                   = Ret true m) (take_while f s)).
  { apply Forall_forall. intros c Hc.
    pose proof (take_while_Forall f s) as Ht. rewrite Forall_forall in Ht.
    rewrite Hcond; [now rewrite (Ht c Hc)|]. rewrite <- Hsplit. apply elem_of_app. auto. }
  destruct (drop_while f s) as [|x t] eqn:E.
  - rewrite app_nil_r in Hsplit. rewrite Hsplit in *.
    now apply (scan_while_nul m Hm).
  - apply (scan_while_stop m Hm _ _ _ x t); [now rewrite Hsplit|done|].
    rewrite Hcond; [now rewrite (drop_while_head _ _ _ _ E)|].
    rewrite <- Hsplit. apply elem_of_app. right. left.
Qed.

Lemma take_while_ext {A} (f g : A -> bool) l :
  (forall x, f x = g x) -> take_while f l = take_while g l.
Proof. intros H. induction l as [|x l IH]; [done|]. simpl. now rewrite H, IH. Qed.

Lemma strtok_skip p s :
  cstr m p s ->
  scan_while (fun c => r ← strchr delim (s8 c); mret (negb (r =? 0))) p m =
  Ret (p + Zlen (take_while (is_delim ds) s)) m.
Proof.
  intros Hs. etrans; [exact (strtok_scan true p s Hs)|].
  rewrite (take_while_ext _ (is_delim ds)); [done|].
  intros c. now destruct (is_delim ds c).
Qed.

Lemma strtok_run p s :
  cstr m p s ->
  scan_while (fun c => r ← strchr delim (s8 c); mret (r =? 0)) p m =
  Ret (p + Zlen (take_while (fun c => negb (is_delim ds c)) s)) m.
Proof.
  intros Hs. etrans; [exact (strtok_scan false p s Hs)|].
  rewrite (take_while_ext _ (fun c => negb (is_delim ds c))); [done|].
  intros c. now destruct (is_delim ds c).
Qed.

(** The memory after a token of length [n] at [tok] was cut off the string. *)
Lemma strtok_ret str saved p s :
  p = (if str =? 0 then saved else str) -> cstr m p s ->
  let t := drop_while (is_delim ds) s in
  let tok := p + Zlen (take_while (is_delim ds) s) in
  let n := Zlen (take_while (fun c => negb (is_delim ds c)) t) in
  strtok str delim saved m =
  match t, drop_while (fun c => negb (is_delim ds c)) t with
  | [], _ => Ret (0, tok) m
  | _, [] => Ret (tok, tok + n) m
  | _, _ => Ret (tok, tok + n + 1) (poke m (tok + n) 0)
  end.
Proof.
  intros Hp Hs t tok n. pose proof (cstr_bound m p s Hm Hs) as Hb.
  unfold strtok. rewrite <- Hp. destruct (Z.eqb_spec p 0); [lia|].
  erewrite bind_ret by (exact (strtok_skip p s Hs)). fold tok.
  pose proof Hs as Hs'. rewrite <- (take_drop_while (is_delim ds) s) in Hs'.
  apply cstr_app in Hs' as (_ & Ht & _). fold t tok in Ht.
  destruct t as [|x t'] eqn:Et.
  - apply cstr_nul in Ht. rewrite Zlen_nil, Z.add_0_r in Ht.
    erewrite bind_ret by (eauto with cmem). reflexivity.
  - rewrite <- Et in *. pose proof Ht as Hx. rewrite Et in Hx.
    apply cstr_cons in Hx as (Hx & Hx0 & _).
    erewrite bind_ret by (eauto with cmem). destruct (Z.eqb_spec x 0); [done|].
    erewrite bind_ret by (exact (strtok_run tok t Ht)). fold n.
    pose proof Ht as Hr. rewrite <- (take_drop_while (fun c => negb (is_delim ds c)) t) in Hr.
    apply cstr_app in Hr as (_ & Hr & _). fold n in Hr.
    destruct (drop_while (fun c => negb (is_delim ds c)) t) as [|y r] eqn:Er.
    + apply cstr_nul in Hr. rewrite Zlen_nil, Z.add_0_r in Hr.
      erewrite bind_ret by (eauto with cmem). now rewrite Et.
    + apply cstr_cons in Hr as (Hy & Hy0 & _).
      erewrite bind_ret by (eauto with cmem). destruct (Z.eqb_spec y 0); [done|].
      erewrite bind_ret by (eauto with cmem). now rewrite Et.
Qed.

(** A token and the rest of the string are strings of the memory in which the
    delimiter after the token was overwritten by a nul. *)
Lemma cstr_cut p t y r :
  cstr m p (t ++ y :: r) ->
  cstr (poke m (p + Zlen t) 0) p t /\ cstr (poke m (p + Zlen t) 0) (p + Zlen t + 1) r.
Proof.
  intros Hs. apply cstr_app in Hs as (Ht & Hr & Hn).
  apply cstr_cons in Hr as (Hy & Hy0 & Hr). split.
  - split; [|done]. apply bytes_at_app. split.
    + apply bytes_at_poke_out; [lia|done].
    + split; [|done]. apply peek_poke_eq. eauto with cmem.
  - apply (cstr_poke_list_out m (p + Zlen t) [0]); [|done].
    change (Zlen [0]) with 1. lia.
Qed.

End strtok.

(** ** Correctness of the string functions *)

(** The bytes outside [[p, p+n)] are the same in both memories. *)
Definition same_outside (m m' : mem) (p n : Z) : Prop :=
  forall a, a < p \/ p + n <= a -> peek m' a = peek m a.

Lemma same_outside_poke_list m p l n :
  Zlen l <= n -> same_outside m (poke_list m p l) p n.
Proof. intros H a Ha. apply peek_poke_list_out. lia. Qed.

(** [strcpy] returns its destination, which then holds the source string
    and its terminator; no other byte of memory changes. *)
Lemma strcpy_spec m dst src s :
  mem_ok m -> cstr m src s -> mapped_range m dst (Zlen s + 1) ->
  disjoint_ranges dst (Zlen s + 1) src (Zlen s + 1) = true ->
  exists m', strcpy dst src m = Ret dst m' /\ cstr m' dst s /\ cstr m' src s /\
             same_outside m m' dst (Zlen s + 1) /\ mem_ok m'.
Proof.
  intros Hm Hs Hd Hj. exists (poke_list m dst (s ++ [0])).
  pose proof (cstr_bytes m src s Hm Hs). pose proof (Zlen_nonneg s).
  split; [unfold strcpy; erewrite bind_ret by (eapply copy_through_nul_ret; eassumption); done|].
  split; [apply cstr_poke_list; [done|done|apply Hs]|].
  split; [apply cstr_poke_list_out; [|done]; rewrite Zlen_app; change (Zlen [0]) with 1;
          unfold disjoint_ranges in Hj; lia|].
  split; [apply same_outside_poke_list; now rewrite Zlen_app|].
  apply mem_ok_poke_list; [done|]. now rewrite Zlen_app.
Qed.

(** [strncpy] writes exactly [n] bytes: the first [n] bytes of the source,
    padded with nuls when the source is shorter; no other byte changes.  The
    destination is a string exactly when the source is shorter than [n]. *)
Lemma strncpy_spec m dst src n s :
  mem_ok m -> cstr m src s -> 0 <= n < 2 ^ 64 -> mapped_range m dst n ->
  disjoint_ranges dst n src (Zlen s + 1) = true ->
  exists m', strncpy dst src n m = Ret dst m' /\
             bytes_at m' dst (take (Z.to_nat n) s ++ replicate (Z.to_nat n - length s) 0) /\
             same_outside m m' dst n /\
             (Zlen s < n -> cstr m' dst s).
Proof.
  intros Hm Hs Hn Hd Hj.
  set (l := take (Z.to_nat n) s ++ replicate (Z.to_nat n - length s) 0).
  assert (Hl : Zlen l = n).
  { unfold l, Zlen. rewrite length_app, length_take, length_replicate. lia. }
  pose proof (cstr_bytes m src s Hm Hs) as Hb.
  assert (Hlb : Forall byte_ok l).
  { apply Forall_app. split; [now apply Forall_take|].
    apply Forall_replicate. unfold byte_ok. lia. }
  exists (poke_list m dst l). split; [now apply strncpy_ret|].
  assert (Hat : bytes_at (poke_list m dst l) dst l)
    by (apply bytes_at_poke_list; [now rewrite Hl|done]).
  split; [done|]. split; [apply same_outside_poke_list; lia|]. intros Hlt.
  split; [|apply Hs].
  assert (El : exists r, l = s ++ 0 :: r).
  { unfold l. rewrite take_ge by (unfold Zlen in Hlt; lia).
    destruct (Z.to_nat n - length s)%nat as [|k] eqn:E; [unfold Zlen in Hlt; lia|].
    now exists (replicate k 0). }
  destruct El as [r El]. rewrite El in Hat at 2.
  apply bytes_at_app in Hat as [H1 [H2 _]]. apply bytes_at_app. exact (conj H1 (conj H2 I)).
Qed.

(** [strcat] appends the source string: the destination then holds the
    concatenation, and only the bytes from the old terminator on are written. *)
Lemma strcat_spec m dst src d s :
  mem_ok m -> cstr m dst d -> cstr m src s ->
  mapped_range m dst (Zlen d + Zlen s + 1) ->
  disjoint_ranges dst (Zlen d + Zlen s + 1) src (Zlen s + 1) = true ->
  exists m', strcat dst src m = Ret dst m' /\ cstr m' dst (d ++ s) /\
             same_outside m m' (dst + Zlen d) (Zlen s + 1).
Proof.
  intros Hm Hd Hs Hr Hj. exists (poke_list m (dst + Zlen d) (s ++ [0])).
  pose proof (Zlen_nonneg d). pose proof (Zlen_nonneg s).
  split; [now apply strcat_ret|]. split.
  - split; [|apply Forall_app; split; [apply Hd|apply Hs]].
    rewrite <- app_assoc. apply bytes_at_app. split.
    + destruct Hd as [Hd _]. apply bytes_at_app in Hd as [Hd _].
      apply bytes_at_poke_list_out; [lia|done].
    + apply cstr_poke_list; [|now apply (cstr_bytes m src)|apply Hs].
      eapply mapped_range_sub; [exact Hr|lia|lia].
  - apply same_outside_poke_list. now rewrite Zlen_app.
Qed.

(** [strncat] leaves the destination holding the old string followed by at
    most [n] bytes of the source.  When the source is shorter than [n] it
    also writes a nul one byte past the new terminator, so the destination
    must have room for one byte more than the result string. *)
Lemma strncat_spec m dst src n d s :
  mem_ok m -> cstr m dst d -> cstr m src s -> 0 <= n < 2 ^ 64 ->
  mapped_range m dst (Zlen d + Zlen (strncat_tail n s)) ->
  disjoint_ranges dst (Zlen d + Zlen (strncat_tail n s)) src (Zlen s + 1) = true ->
  exists m', strncat dst src n m = Ret dst m' /\
             cstr m' dst (d ++ take (Z.to_nat n) s) /\
             (Zlen s < n -> peek m' (dst + Zlen d + Zlen s + 1) = Some 0).
Proof.
  intros Hm Hd Hs Hn Hr Hj. exists (poke_list m (dst + Zlen d) (strncat_tail n s)).
  split; [now apply strncat_ret|].
  pose proof (Zlen_nonneg d). pose proof (Zlen_nonneg s).
  pose proof (cstr_bytes m src s Hm Hs) as Hb. destruct Hs as [_ Hsz].
  assert (Htb : Forall byte_ok (strncat_tail n s)).
  { unfold strncat_tail. destruct (Zlen s <? n); apply Forall_app; split;
      try apply Forall_take; try done; repeat constructor; lia. }
  assert (Hat : bytes_at (poke_list m (dst + Zlen d) (strncat_tail n s))
                         (dst + Zlen d) (strncat_tail n s)).
  { apply bytes_at_poke_list; [|done]. eapply mapped_range_sub; [exact Hr|lia|lia]. }
  assert (Hold : bytes_at (poke_list m (dst + Zlen d) (strncat_tail n s)) dst d).
  { destruct Hd as [Hd0 _]. apply bytes_at_app in Hd0 as [Hd0 _].
    apply bytes_at_poke_list_out; [lia|done]. }
  destruct Hd as [_ Hdz]. unfold strncat_tail in *.
  destruct (Z.ltb_spec (Zlen s) n) as [Hlt|Hge].
  - apply bytes_at_app in Hat as [H1 [H2 [H3 _]]].
    rewrite take_ge by (unfold Zlen in Hlt; lia). split; [|done].
    split; [|now apply Forall_app]. rewrite <- app_assoc.
    apply bytes_at_app. split; [done|]. apply bytes_at_app. exact (conj H1 (conj H2 I)).
  - split; [|lia]. split; [|apply Forall_app; split; [done|now apply Forall_take]].
    rewrite <- app_assoc. now apply bytes_at_app.
Qed.

(** Copying: [strcpy] leaves the source string and its terminator at the
    destination; [strncpy] writes exactly [n] bytes, the first [n] of the source
    padded with nuls when it is shorter, so that the destination is a string
    only then.  Both return the destination and change no other byte. *)
Theorem string_copies_correct m dst src n s :
  mem_ok m -> cstr m src s -> 0 <= n < 2 ^ 64 ->
  let room := Z.max n (Zlen s + 1) in
  mapped_range m dst room -> disjoint_ranges dst room src (Zlen s + 1) = true ->
  (exists m', strcpy dst src m = Ret dst m' /\ cstr m' dst s /\ cstr m' src s /\
     same_outside m m' dst (Zlen s + 1) /\ mem_ok m') /\
  (exists m', strncpy dst src n m = Ret dst m' /\
     bytes_at m' dst (take (Z.to_nat n) s ++ replicate (Z.to_nat n - length s) 0) /\
     same_outside m m' dst n /\ (Zlen s < n -> cstr m' dst s)).
Proof.
  intros Hm Hs Hn room Hd Hj. pose proof (Zlen_nonneg s). unfold disjoint_ranges, room in *.
  split; [apply strcpy_spec|apply strncpy_spec]; try done;
    (eapply mapped_range_sub; [exact Hd|lia..]) || (unfold disjoint_ranges; lia).
Qed.

Lemma string_copies_correct_witness :
  let m := page_with [(4100, [72; 105; 0])] in
  (exists m', strcpy 4200 4100 m = Ret 4200 m' /\ cstr m' 4200 [72; 105] /\
     cstr m' 4100 [72; 105] /\ same_outside m m' 4200 3 /\ mem_ok m') /\
  (exists m', strncpy 4200 4100 4 m = Ret 4200 m' /\ bytes_at m' 4200 [72; 105; 0; 0] /\
     same_outside m m' 4200 4 /\ (2 < 4 -> cstr m' 4200 [72; 105])).
Proof. apply (string_copies_correct _ 4200 4100 4 [72; 105]); by_eval. Defined.

(** Appending: [strcat] leaves the concatenation of the two strings at the
    destination and writes only from the old terminator on; [strncat] appends
    at most [n] bytes of the source.  When the source is shorter than [n] it
    also writes a nul one byte past the new terminator, a byte the destination
    must have room for. *)
Theorem string_appends_correct m dst src n d s :
  mem_ok m -> cstr m dst d -> cstr m src s -> 0 <= n < 2 ^ 64 ->
  let room := Zlen d + Zlen s + 2 in
  mapped_range m dst room -> disjoint_ranges dst room src (Zlen s + 1) = true ->
  (exists m', strcat dst src m = Ret dst m' /\ cstr m' dst (d ++ s) /\
     same_outside m m' (dst + Zlen d) (Zlen s + 1)) /\
  (exists m', strncat dst src n m = Ret dst m' /\ cstr m' dst (d ++ take (Z.to_nat n) s) /\
     (Zlen s < n -> peek m' (dst + Zlen d + Zlen s + 1) = Some 0)).
Proof.
  intros Hm Hd Hs Hn room Hr Hj. pose proof (Zlen_nonneg s). pose proof (Zlen_nonneg d).
  assert (Ht : Zlen (strncat_tail n s) <= Zlen s + 2).
  { unfold strncat_tail, Zlen. case_bool; rewrite length_app, ?length_take; simpl; lia. }
  unfold disjoint_ranges, room in *. split; [apply strcat_spec|apply strncat_spec]; try done;
    (eapply mapped_range_sub; [exact Hr|lia..]) || (unfold disjoint_ranges; lia).
Qed.

Lemma string_appends_correct_witness :
  let m := page_with [(4100, [72; 105; 0]); (4200, [65; 0])] in
  (exists m', strcat 4200 4100 m = Ret 4200 m' /\ cstr m' 4200 [65; 72; 105] /\
     same_outside m m' 4201 3) /\
  (exists m', strncat 4200 4100 1 m = Ret 4200 m' /\ cstr m' 4200 [65; 72] /\
     (2 < 1 -> peek m' 4204 = Some 0)).
Proof. apply (string_appends_correct _ 4200 4100 1 [65] [72; 105]); by_eval. Defined.

(** *** Searching *)

Lemma index_of_Some c s i :
  index_of c s = Some i ->
  exists a b, s = a ++ c :: b /\ i = Zlen a /\ c ∉ a.
Proof.
  revert i. induction s as [|x s IH]; intros i; simpl; [done|].
  destruct (Z.eqb_spec x c) as [->|Hne].
  - intros [= <-]. exists [], s. repeat split. apply not_elem_of_nil.
  - destruct (index_of c s) as [j|]; [|done]. intros [= <-].
    destruct (IH j eq_refl) as (a & b & -> & -> & Hn).
    exists (x :: a), b. rewrite Zlen_cons. split; [done|]. split; [lia|]. set_solver.
Qed.

Lemma last_index_of_Some c s i :
  last_index_of c s = Some i ->
  exists a b, s = a ++ c :: b /\ i = Zlen a /\ c ∉ b.
Proof.
  revert i. induction s as [|x s IH]; intros i; simpl; [done|].
  destruct (last_index_of c s) as [j|] eqn:E.
  - intros [= <-]. destruct (IH j eq_refl) as (a & b & -> & -> & Hn).
    exists (x :: a), b. rewrite Zlen_cons. done.
  - destruct (Z.eqb_spec x c) as [->|]; [|done]. intros [= <-].
    exists [], s. repeat split. clear IH. induction s as [|y s IH]; [apply not_elem_of_nil|].
    simpl in E. destruct (last_index_of c s); [done|].
    destruct (Z.eqb_spec y c); [done|]. set_solver.
Qed.

Lemma last_index_of_None c s : last_index_of c s = None -> c ∉ s.
Proof.
  induction s as [|x s IH]; intros H; [apply not_elem_of_nil|]. simpl in H.
  destruct (last_index_of c s); [done|]. destruct (Z.eqb_spec x c); [done|]. set_solver.
Qed.

Lemma index_of_not_in c s : index_of c s = None -> c ∉ s.
Proof.
  induction s as [|x s IH]; intros H; [apply not_elem_of_nil|]. simpl in H.
  destruct (Z.eqb_spec x c); [done|]. destruct (index_of c s); [done|]. set_solver.
Qed.

(** For a character other than nul, [strchr] returns the address of its
    first occurrence and [strrchr] of its last one, and both return the null
    pointer when the string does not contain it; memory is unchanged. *)
Lemma strchr_strrchr_spec m p s c :
  mem_ok m -> cstr m p s -> c <> 0 ->
  exists r q, strchr p c m = Ret r m /\ strrchr p c m = Ret q m /\
  (r = 0 /\ q = 0 /\ (u8 c ∉ s) \/
   exists a b a' b', s = a ++ u8 c :: b /\ (u8 c ∉ a) /\ r = p + Zlen a /\
                     s = a' ++ u8 c :: b' /\ (u8 c ∉ b') /\ q = p + Zlen a').
Proof.
  intros Hm Hs Hc. rewrite (strchr_ret m Hm p c s Hs), (strrchr_ret m Hm p c s Hs).
  do 2 eexists. split; [reflexivity|]. split; [reflexivity|].
  destruct (Z.eqb_spec c 0); [done|].
  destruct (index_of (u8 c) s) as [i|] eqn:E1.
  - right. destruct (index_of_Some _ _ _ E1) as (a & b & Ea & -> & Hn).
    destruct (last_index_of (u8 c) s) as [j|] eqn:E2.
    + destruct (last_index_of_Some _ _ _ E2) as (a' & b' & Ea' & -> & Hn').
      exists a, b, a', b'. done.
    + apply last_index_of_None in E2. subst s. set_solver.
  - left. apply index_of_not_in in E1.
    destruct (last_index_of (u8 c) s) as [j|] eqn:E2; [|done].
    destruct (last_index_of_Some _ _ _ E2) as (a' & b' & -> & _). set_solver.
Qed.

Lemma is_prefix_iff n s : is_prefix n s = true <-> exists r, s = n ++ r.
Proof.
  split; [apply is_prefix_app|]. intros [r ->]. induction n as [|x n IH]; [done|].
  simpl. now rewrite Z.eqb_refl.
Qed.

(** Where [find_sub] finds a nonempty [n], it is the first occurrence. *)
Lemma find_sub_spec n s :
  n <> [] ->
  match find_sub n s with
  | Some i => exists a b, s = a ++ n ++ b /\ i = Zlen a /\
                          forall a' b', s = a' ++ n ++ b' -> Zlen a <= Zlen a'
  | None => forall a b, s <> a ++ n ++ b
  end.
Proof.
  intros Hn. induction s as [|x s IH]; cbn [find_sub].
  - intros a b E. symmetry in E. apply app_eq_nil in E as [_ E].
    apply app_eq_nil in E as [E _]. done.
  - destruct (is_prefix n (x :: s)) eqn:Hp.
    + apply is_prefix_iff in Hp as [r Hr]. exists [], r. split; [done|].
      split; [done|]. intros. apply Zlen_nonneg.
    + assert (Hhd : forall a b, x :: s = a ++ n ++ b -> exists a0, a = x :: a0).
      { intros [|y a] b E.
        - simpl in E. exfalso. assert (is_prefix n (x :: s) = true); [|congruence].
          apply is_prefix_iff. eauto.
        - injection E as -> _. eauto. }
      destruct (find_sub n s) as [i|]; simpl.
      * destruct IH as (a & b & -> & -> & Hmin). exists (x :: a), b.
        split; [done|]. split; [rewrite Zlen_cons; lia|]. intros a' b' E.
        destruct (Hhd _ _ E) as [a0 ->]. injection E as E. rewrite !Zlen_cons.
        specialize (Hmin _ _ E). lia.
      * intros a b E. destruct (Hhd _ _ E) as [a0 ->]. injection E as E. now apply IH in E.
Qed.

(** [strstr] with a nonempty needle returns the address of its first
    occurrence in the haystack, and the null pointer when there is none. *)
Lemma strstr_spec m h t needle nd :
  mem_ok m -> cstr m h t -> cstr m needle nd -> nd <> [] ->
  exists r, strstr h needle m = Ret r m /\
  (r = 0 /\ (forall a b, t <> a ++ nd ++ b) \/
   exists a b, t = a ++ nd ++ b /\ r = h + Zlen a /\
               forall a' b', t = a' ++ nd ++ b' -> Zlen a <= Zlen a').
Proof.
  intros Hm Ht Hn Hne. rewrite (strstr_ret m Hm needle nd Hn h t Ht).
  eexists. split; [reflexivity|]. pose proof (find_sub_spec nd t Hne) as Hf.
  destruct nd as [|y nd']; [done|]. destruct (find_sub (y :: nd') t) as [i|].
  - right. destruct Hf as (a & b & E & -> & Hmin). exists a, b. done.
  - left. done.
Qed.

(** Searching: for a character other than nul, [strchr] returns the address
    of its first occurrence and [strrchr] of its last one; [strstr] returns the
    address of the first occurrence of a nonempty needle.  They return the null
    pointer when there is none, and leave memory as it is. *)
Theorem string_search_correct m h t c needle nd :
  mem_ok m -> cstr m h t -> c <> 0 -> cstr m needle nd -> nd <> [] ->
  (exists r q, strchr h c m = Ret r m /\ strrchr h c m = Ret q m /\
   (r = 0 /\ q = 0 /\ (u8 c ∉ t) \/
    exists a b a' b', t = a ++ u8 c :: b /\ (u8 c ∉ a) /\ r = h + Zlen a /\
                      t = a' ++ u8 c :: b' /\ (u8 c ∉ b') /\ q = h + Zlen a')) /\
  (exists r, strstr h needle m = Ret r m /\
   (r = 0 /\ (forall a b, t <> a ++ nd ++ b) \/
    exists a b, t = a ++ nd ++ b /\ r = h + Zlen a /\
                forall a' b', t = a' ++ nd ++ b' -> Zlen a <= Zlen a')).
Proof. intros. split; [now apply strchr_strrchr_spec|now apply strstr_spec]. Qed.

Lemma string_search_correct_witness :
  let m := page_with [(4100, [65; 66; 65; 66; 67; 0]); (4200, [66; 67; 0])] in
  exists r, strstr 4100 4200 m = Ret r m /\
  (r = 0 /\ (forall a b, [65; 66; 65; 66; 67] <> a ++ [66; 67] ++ b) \/
   exists a b, [65; 66; 65; 66; 67] = a ++ [66; 67] ++ b /\ r = 4100 + Zlen a /\
               forall a' b', [65; 66; 65; 66; 67] = a' ++ [66; 67] ++ b' -> Zlen a <= Zlen a').
Proof.
  apply (string_search_correct _ 4100 [65; 66; 65; 66; 67] 66 4200 [66; 67]);
    [by_eval..|lia|by_eval|discriminate].
Defined.

(** C34. One call of [strtok] implements [next_token] on the rest of the string:
    with no token left it returns the null pointer; otherwise the returned
    pointer is the token as a string of its own, the saved pointer is the rest
    of the string, and only bytes of the tokenised string were written, so the
    delimiter string is intact for the next call. *)
Theorem strtok_refines_next_token m str delim saved p s ds :
  mem_ok m -> cstr m delim ds -> p = (if str =? 0 then saved else str) -> cstr m p s ->
  disjoint_ranges p (Zlen s + 1) delim (Zlen ds + 1) = true ->
  exists tok saved' m', strtok str delim saved m = Ret (tok, saved') m' /\
    same_outside m m' p (Zlen s) /\ mem_ok m' /\ cstr m' delim ds /\
    match next_token ds s with
    | None => tok = 0 /\ cstr m' saved' []
    | Some (t, rest) => p <= tok /\ t <> [] /\ cstr m' tok t /\ cstr m' saved' rest /\
                        saved' + Zlen rest = p + Zlen s
    end.
Proof.
  intros Hm Hd Hp Hs Hj.
  rewrite (strtok_ret m Hm delim ds Hd str saved p s Hp Hs). unfold next_token.
  pose proof (take_drop_while (is_delim ds) s) as Hsp.
  pose proof Hs as Hs'. rewrite <- Hsp in Hs'. apply cstr_app in Hs' as (_ & Ht & _).
  pose proof (Zlen_nonneg (take_while (is_delim ds) s)) as Hk.
  assert (Hlen : Zlen s = Zlen (take_while (is_delim ds) s) + Zlen (drop_while (is_delim ds) s))
    by (rewrite <- Zlen_app; now rewrite Hsp).
  remember (p + Zlen (take_while (is_delim ds) s)) as tok eqn:Htok.
  destruct (drop_while (is_delim ds) s) as [|x t'] eqn:Et.
  { exists 0, tok, m. done. }
  pose proof (drop_while_head _ _ _ _ Et) as Hx. clear Et.
  set (nd := fun c => negb (is_delim ds c)) in *.
  assert (Hne : take_while nd (x :: t') <> []).
  { simpl. unfold nd at 1. now rewrite Hx. }
  pose proof (take_drop_while nd (x :: t')) as Hsp2.
  pose proof (Zlen_nonneg (take_while nd (x :: t'))).
  assert (Hlen2 : Zlen (x :: t') = Zlen (take_while nd (x :: t')) + Zlen (drop_while nd (x :: t')))
    by (rewrite <- Zlen_app; now rewrite Hsp2).
  rewrite <- Hsp2 in Ht.
  destruct (drop_while nd (x :: t')) as [|y r] eqn:Er.
  - exists tok, (tok + Zlen (take_while nd (x :: t'))), m.
    rewrite app_nil_r in Ht. rewrite Zlen_nil in Hlen2.
    do 4 (split; [done|]). split; [lia|]. split; [done|]. split; [exact Ht|].
    split; [apply cstr_nil; now apply cstr_nul|]. simpl drop. rewrite Zlen_nil. lia.
  - rewrite (Zlen_cons y r) in Hlen2. pose proof (Zlen_nonneg r).
    exists tok, (tok + Zlen (take_while nd (x :: t')) + 1),
      (poke m (tok + Zlen (take_while nd (x :: t'))) 0).
    destruct (cstr_cut m tok _ _ _ Ht) as [Hc1 Hc2].
    split; [done|]. split; [|split; [|split]].
    + intros a Ha. apply peek_poke_ne. lia.
    + apply mem_ok_poke; [done|]. apply cstr_app in Ht as (_ & Ht & _).
      apply cstr_cons in Ht as (Hy & _). eauto with cmem.
    + apply (cstr_poke_list_out m _ [0]); [|done]. change (Zlen [0]) with 1.
      unfold disjoint_ranges in Hj. pose proof (Zlen_nonneg ds). lia.
    + replace (drop 1 (y :: r)) with r by done.
      split; [lia|]. do 3 (split; [done|]). lia.
Qed.

Lemma strtok_refines_next_token_witness :
  exists tok saved' m',
    strtok 4100 4200 0 (page_with [(4100, [44; 72; 105; 44; 33; 0]); (4200, [44; 0])])
    = Ret (tok, saved') m' /\
    same_outside (page_with [(4100, [44; 72; 105; 44; 33; 0]); (4200, [44; 0])]) m' 4100 5 /\
    mem_ok m' /\ cstr m' 4200 [44] /\
    4100 <= tok /\ [72; 105] <> [] /\ cstr m' tok [72; 105] /\ cstr m' saved' [33] /\
    saved' + Zlen [33] = 4100 + Zlen [44; 72; 105; 44; 33].
Proof.
  apply (strtok_refines_next_token _ 4100 4200 0 4100 [44; 72; 105; 44; 33] [44]); by_eval.
Defined.

(** *** Termination *)

Section termination.
Context (m : mem) (Hm : mem_ok m).

Lemma scan_terminates p :
  match scan_while (fun _ => mret true) p m with
  | Ret _ m' => mem_ok m' | NoFuel => False | _ => True end.
Proof.
  unfold scan_while. apply (while_walks _ id); [|done]. clear. intros a m Hm. unfold load8, peek. unst.
  destruct (is_mapped m a) eqn:E; [|done]. by case_bool.
Qed.

Lemma copy_terminates d p :
  match copy_through_nul d p m with
  | Ret _ m' => mem_ok m' | NoFuel => False | _ => True end.
Proof.
  unfold copy_through_nul. apply (while_walks _ snd); [|done]. clear. intros [d s] m Hm.
  unfold load8, store8, peek. unst.
  destruct (is_mapped m s) eqn:E; [|done]. destruct (is_mapped m d) eqn:E2; [|done].
  case_bool; auto with cmem.
Qed.

Lemma strchr_terminates p c :
  match strchr p c m with Ret _ m' => mem_ok m' | NoFuel => False | _ => True end.
Proof.
  unfold strchr. apply (while_walks _ id); [|done]. clear. intros a m Hm. unfold load8, peek. unst.
  destruct (is_mapped m a) eqn:E; [|done]. repeat case_bool; done.
Qed.

Lemma strrchr_terminates p c :
  match strrchr p c m with Ret _ m' => mem_ok m' | NoFuel => False | _ => True end.
Proof.
  unfold strrchr. apply (while_walks _ fst); [|done]. clear. intros [a l] m Hm. unfold load8, peek. unst.
  destruct (is_mapped m a) eqn:E; [|done]. repeat case_bool; done.
Qed.

End termination.

(** On every memory, with no assumption on what the pointers point to,
    [strlen], [strcpy], [strcat], [strchr] and [strrchr] terminate: they return
    or fault at an unmapped address. *)
Theorem string_functions_terminate m p q c :
  mem_ok m ->
  strlen p m <> NoFuel /\ strcpy p q m <> NoFuel /\ strcat p q m <> NoFuel /\
  strchr p c m <> NoFuel /\ strrchr p c m <> NoFuel.
Proof.
  intros Hm. pose proof (scan_terminates m Hm p) as Hscan.
  repeat split.
  - unfold strlen. unst. now destruct (scan_while _ p m).
  - pose proof (copy_terminates m Hm p q). unfold strcpy. unst.
    now destruct (copy_through_nul p q m).
  - unfold strcat. unst. destruct (scan_while _ p m) as [d m'| | |]; try done.
    pose proof (copy_terminates m' Hscan d q). now destruct (copy_through_nul d q m').
  - pose proof (strchr_terminates m Hm p c). now destruct (strchr p c m).
  - pose proof (strrchr_terminates m Hm p c). now destruct (strrchr p c m).
Qed.

Lemma string_functions_terminate_witness :
  strlen 9000 (page_with []) <> NoFuel /\ strcpy 4096 4100 (page_with []) <> NoFuel /\
  strcat 4096 4100 (page_with []) <> NoFuel /\ strchr 4096 7 (page_with []) <> NoFuel /\
  strrchr 4096 7 (page_with []) <> NoFuel.
Proof.
  destruct (string_functions_terminate (page_with []) 9000 0 0 ltac:(by_eval)) as [H _].
  destruct (string_functions_terminate (page_with []) 4096 4100 7 ltac:(by_eval)) as [_ H'].
  exact (conj H H').
Defined.
