(* ===== verification/Ctype.v ===== *)
(** * Character classes

    [apps/doom/innigkeit_libc.c], from [isdigit] to [tolower], declared in
    [apps/doom/include/ctype.h].  The predicates return the C values 0 and 1,
    kept as booleans. *)

From S2P Require Import Prelude.

Definition isdigit (c : Z) : bool := (48 <=? c) && (c <=? 57).
Definition isspace (c : Z) : bool :=
  (c =? 32) || (c =? 9) || (c =? 10) || (c =? 13) || (c =? 12) || (c =? 11).
Definition isupper (c : Z) : bool := (65 <=? c) && (c <=? 90).
Definition islower (c : Z) : bool := (97 <=? c) && (c <=? 122).
Definition isalpha (c : Z) : bool := isupper c || islower c.
Definition isalnum (c : Z) : bool := isalpha c || isdigit c.
Definition ispunct (c : Z) : bool :=
  ((33 <=? c) && (c <=? 47)) || ((58 <=? c) && (c <=? 64)) ||
  ((91 <=? c) && (c <=? 96)) || ((123 <=? c) && (c <=? 126)).
Definition isprint (c : Z) : bool := (32 <=? c) && (c <? 127).
Definition toupper (c : Z) : Z := if islower c then c - 32 else c.
Definition tolower (c : Z) : Z := if isupper c then c + 32 else c.

Ltac ctype :=
  unfold isprint, isalnum, isalpha, ispunct, isupper, islower, isdigit, isspace, toupper,
    tolower, isupper, islower in *.

(** The classes fit together as in the C locale, for every [int] argument:
    a printing character is a space or exactly one of letter, digit and
    punctuation; no letter is both upper and lower case; and the case
    conversions only move letters, between the two cases, and undo each other. *)
Theorem ctype_classes c :
  isprint c = (c =? 32) || isalnum c || ispunct c /\
  (isalnum c && ispunct c = false) /\ (isalpha c && isdigit c = false) /\
  (isupper c && islower c = false) /\ (isspace c && isalnum c = false) /\
  (islower (toupper c) = false) /\ (isupper (tolower c) = false) /\
  (islower c = true -> isupper (toupper c) = true /\ tolower (toupper c) = c) /\
  (isupper c = true -> islower (tolower c) = true /\ toupper (tolower c) = c) /\
  (isalpha c = false -> toupper c = c /\ tolower c = c).
Proof.
  ctype.
  destruct ((97 <=? c) && (c <=? 122)) eqn:Hl; destruct ((65 <=? c) && (c <=? 90)) eqn:Hu;
    rewrite ?Hl, ?Hu; split_and?; intros; try lia;
    repeat match goal with |- context [if ?b then _ else _] => destruct b eqn:? end;
    split_and?; lia.
Qed.
