(* ===== verification/Compare.v ===== *)
(** * String comparison

    [apps/doom/libc.zig]: [strncmp], [strcmp], [strncasecmp] and [strcasecmp],
    which [fopen] and the game compare names with. *)

From S2P Require Import Prelude Machine Memory CString Ctype.

(** ** Operations *)

(** [std.ascii.toLower]: bit 5 is set in an upper-case letter. *)
Definition toLower (c : Z) : Z := Z.lor c (if isupper c then 32 else 0).

(** The comparison loop the four functions share: [f] is applied to both bytes. *)
Definition compare_loop (f : Z -> Z) (lhs rhs num : Z) : ST mem Z :=
  while (fun i =>
           if i <? num then
             (l ← load8 (lhs + i);
              r ← load8 (rhs + i);
              let l := f l in
              let r := f r in
              if (l =? 0) && (r =? 0) then mret (inr 0)
              else if negb (l =? r) || (l =? 0) || (r =? 0) then mret (inr (l - r))
              else mret (inl (i + 1)))
           else mret (inr 0)) 0.

Definition strncmp (lhs rhs num : Z) : ST mem Z := compare_loop (fun c => c) lhs rhs num.
Definition strcmp (lhs rhs : Z) : ST mem Z := strncmp lhs rhs SIZE_MAX.
Definition strncasecmp (lhs rhs num : Z) : ST mem Z := compare_loop toLower lhs rhs num.
Definition strcasecmp (lhs rhs : Z) : ST mem Z := strncasecmp lhs rhs SIZE_MAX.

(** ** Reference: the lexicographic order of byte strings *)

Fixpoint lex_compare (a b : list Z) : comparison :=
  match a, b with
  | [], [] => Eq
  | [], _ :: _ => Lt
  | _ :: _, [] => Gt
  | x :: a', y :: b' => match x ?= y with Eq => lex_compare a' b' | c => c end
  end.

Lemma lex_compare_eq a b : lex_compare a b = Eq <-> a = b.
Proof.
  revert b. induction a as [|x a IH]; intros [|y b]; simpl; try done.
  destruct (Z.compare_spec x y) as [->|H|H].
  - rewrite IH. split; [now intros ->|now intros [= ->]].
  - split; [done|intros [= -> _]; lia].
  - split; [done|intros [= -> _]; lia].
Qed.

(** ** The loop *)

Lemma toLower_range c : 0 <= c -> 0 <= toLower c.
Proof. intros H. unfold toLower. apply Z.lor_nonneg. destruct (isupper c); lia. Qed.

Lemma toLower_nul c : 0 <= c -> toLower c = 0 <-> c = 0.
Proof. intros H. unfold toLower. rewrite Z.lor_eq_0_iff. destruct (isupper c) eqn:E; split; try lia.
  - intros ->. done.
Qed.

(** What the loop needs of the function applied to the bytes. *)
Definition keeps_nul (f : Z -> Z) : Prop := forall c, 0 <= c -> 0 <= f c /\ (f c = 0 <-> c = 0).

(** One round of the loop on the bytes [x] and [y]. *)
Definition compare_step (f : Z -> Z) (i x y : Z) : Z + Z :=
  if (f x =? 0) && (f y =? 0) then inr 0
  else if negb (f x =? f y) || (f x =? 0) || (f y =? 0) then inr (f x - f y)
  else inl (i + 1).

Section loop.
Context (m : mem) (Hm : mem_ok m) (f : Z -> Z) (Hf : keeps_nul f) (lhs rhs num : Z).

Definition compare_body (i : Z) : ST mem (Z + Z) :=
  if i <? num then
    (l ← load8 (lhs + i);
     r ← load8 (rhs + i);
     let l := f l in
     let r := f r in
     if (l =? 0) && (r =? 0) then mret (inr 0)
     else if negb (l =? r) || (l =? 0) || (r =? 0) then mret (inr (l - r))
     else mret (inl (i + 1)))
  else mret (inr 0).

Lemma compare_body_ret i a b :
  i < num -> cstr m (lhs + i) a -> cstr m (rhs + i) b ->
  compare_body i m = Ret (compare_step f i (hd 0 a) (hd 0 b)) m.
Proof.
  intros Hi Ha Hb. unfold compare_body. destruct (Z.ltb_spec i num); [|lia].
  do 2 erewrite bind_ret by (eapply load8_hd; eassumption). cbv zeta. unfold compare_step.
  destruct (_ && _); [done|]. now destruct (_ || _).
Qed.

(** The first bytes of two strings decide the round. *)
Lemma compare_step_lex i p q a b n :
  cstr m p a -> cstr m q b ->
  match compare_step f i (hd 0 a) (hd 0 b) with
  | inl i' => i' = i + 1 /\ exists x y, head a = Some x /\ head b = Some y /\ f x = f y
  | inr r => (r ?= 0) = lex_compare (f <$> take (Datatypes.S n) a) (f <$> take (Datatypes.S n) b)
  end.
Proof.
  intros Ha Hb. assert (H0 : f 0 = 0) by (now apply Hf). unfold compare_step.
  assert (Hc : forall p c t, cstr m p (c :: t) -> 0 < f c).
  { intros p' c t H. apply cstr_cons in H as (H & Hnz & _).
    pose proof (peek_byte m _ _ Hm H) as Hr. unfold byte_ok in Hr.
    destruct (Hf c ltac:(lia)) as [H1 H2]. assert (f c <> 0) by tauto. lia. }
  destruct a as [|x a], b as [|y b]; simpl; rewrite ?H0;
    try (pose proof (Hc _ _ _ Ha)); try (pose proof (Hc _ _ _ Hb)).
  - done.
  - destruct (Z.eqb_spec (f y) 0); [lia|]. simpl. rewrite orb_true_r. apply Z.compare_lt_iff. lia.
  - destruct (Z.eqb_spec (f x) 0); [lia|]. simpl. rewrite Z.sub_0_r. apply Z.compare_gt_iff. lia.
  - destruct (Z.eqb_spec (f x) 0); [lia|]. destruct (Z.eqb_spec (f y) 0); [lia|]. simpl.
    destruct (Z.eqb_spec (f x) (f y)) as [E|]; simpl; [eauto 10|].
    destruct (Z.compare_spec (f x) (f y)) as [E|E|E];
      [done|apply Z.compare_lt_iff; lia|apply Z.compare_gt_iff; lia].
Qed.

Lemma compare_loops i a b :
  cstr m (lhs + i) a -> cstr m (rhs + i) b -> 0 <= i <= num ->
  exists n r, Z.of_nat n <= Zlen a /\
  (r ?= 0) = lex_compare (f <$> take (Z.to_nat (num - i)) a) (f <$> take (Z.to_nat (num - i)) b) /\
  loops compare_body n i m (Ret r m).
Proof.
  revert i b. induction a as [|x a IH]; intros i b Ha Hb Hi.
  all: destruct (Z.eq_dec i num) as [->|Hn].
  1, 3: exists O, 0; rewrite Z.sub_diag; split; [apply Zlen_nonneg|]; split; [done|];
    apply loops_stop; unfold compare_body; destruct (Z.ltb_spec num num); [lia|done].
  all: pose proof (compare_step_lex i _ _ _ _ (Z.to_nat (num - (i + 1))) Ha Hb) as Hst;
    pose proof (compare_body_ret i _ _ ltac:(lia) Ha Hb) as Hbd;
    replace (Z.to_nat (num - i)) with (Datatypes.S (Z.to_nat (num - (i + 1)))) by lia;
    destruct (compare_step _ _ _ _) as [i'|r];
    try (exists O, r; split; [apply Zlen_nonneg|]; split; [done|]; now apply loops_stop);
    destruct Hst as (-> & x' & y & Hx & Hy & E); try done.
  injection Hx as <-. destruct b as [|y' b]; [done|]. injection Hy as ->.
  apply cstr_cons in Ha as (_ & _ & Ha). apply cstr_cons in Hb as (_ & _ & Hb).
  rewrite <- Z.add_assoc in Ha, Hb.
  destruct (IH (i + 1) b Ha Hb ltac:(lia)) as (n & r & Hn' & Hr & Hl).
  exists (Datatypes.S n), r. rewrite Zlen_cons. split; [lia|]. split.
  - cbn [take fmap list_fmap lex_compare]. now rewrite E, Z.compare_refl.
  - eapply loops_step; [exact Hbd|exact Hl].
Qed.

Lemma compare_loop_ret a b :
  cstr m lhs a -> cstr m rhs b -> 0 <= num < 2 ^ 64 ->
  exists r, compare_loop f lhs rhs num m = Ret r m /\
  (r ?= 0) = lex_compare (f <$> take (Z.to_nat num) a) (f <$> take (Z.to_nat num) b).
Proof.
  intros Ha Hb Hn. pose proof (cstr_bound m _ _ Hm Ha).
  destruct (compare_loops 0 a b) as (n & r & Hn' & Hr & Hl); [now rewrite Z.add_0_r..|lia|].
  rewrite Z.sub_0_r in Hr. exists r. split; [|done].
  unfold compare_loop. eapply while_loops; [exact Hl|lia].
Qed.

End loop.

Lemma take_all_str m p s : mem_ok m -> cstr m p s -> take (Z.to_nat SIZE_MAX) s = s.
Proof.
  intros Hm Hs. pose proof (cstr_bound m p s Hm Hs). apply take_ge.
  unfold SIZE_MAX, Zlen in *. lia.
Qed.

Lemma keeps_nul_id : keeps_nul (fun c => c).
Proof. intros c Hc. lia. Qed.

Lemma strcmp_ret m p q a b :
  mem_ok m -> cstr m p a -> cstr m q b ->
  exists r, strcmp p q m = Ret r m /\ (r ?= 0) = lex_compare a b /\ (r = 0 <-> a = b).
Proof.
  intros Hm Ha Hb.
  destruct (compare_loop_ret m Hm _ keeps_nul_id p q SIZE_MAX a b Ha Hb) as (r & E & H).
  { unfold SIZE_MAX. lia. }
  rewrite (take_all_str m p a Hm Ha), (take_all_str m q b Hm Hb), !list_fmap_id in H.
  exists r. split; [exact E|]. split; [done|]. rewrite <- lex_compare_eq, <- H.
  now rewrite Z.compare_eq_iff.
Qed.

(** The comparison functions terminate on every pair of strings, leave memory
    as it is, and return a number whose sign is the lexicographic order of the
    strings as unsigned bytes (of their first [n] bytes for the bounded
    versions, of their lower-case images for the case-insensitive ones); in
    particular [strcmp] is zero exactly on equal strings. *)
Theorem comparisons_correct m p q a b n :
  mem_ok m -> cstr m p a -> cstr m q b -> 0 <= n < 2 ^ 64 ->
  (exists r, strncmp p q n m = Ret r m /\
     (r ?= 0) = lex_compare (take (Z.to_nat n) a) (take (Z.to_nat n) b)) /\
  (exists r, strcmp p q m = Ret r m /\ (r ?= 0) = lex_compare a b /\ (r = 0 <-> a = b)) /\
  (exists r, strncasecmp p q n m = Ret r m /\
     (r ?= 0) = lex_compare (toLower <$> take (Z.to_nat n) a) (toLower <$> take (Z.to_nat n) b)) /\
  (exists r, strcasecmp p q m = Ret r m /\
     (r ?= 0) = lex_compare (toLower <$> a) (toLower <$> b)).
Proof.
  intros Hm Ha Hb Hn.
  assert (Hlo : keeps_nul toLower).
  { intros c Hc. split; [now apply toLower_range|now apply toLower_nul]. }
  assert (Hmax : 0 <= SIZE_MAX < 2 ^ 64) by (unfold SIZE_MAX; lia).
  pose proof (compare_loop_ret m Hm _ keeps_nul_id p q n a b Ha Hb Hn) as H1.
  pose proof (compare_loop_ret m Hm _ Hlo p q n a b Ha Hb Hn) as H3.
  pose proof (compare_loop_ret m Hm _ Hlo p q _ a b Ha Hb Hmax) as H4.
  rewrite (take_all_str m p a Hm Ha), (take_all_str m q b Hm Hb) in H4.
  rewrite !list_fmap_id in H1. split; [done|]. split; [now apply strcmp_ret|done].
Qed.

(** "Doom" and "doOr". *)
Lemma comparisons_correct_witness :
  let m := page_with [(4100, [68; 111; 111; 109; 0]); (4200, [100; 111; 79; 114; 0])] in
  (exists r, strncmp 4100 4200 3 m = Ret r m /\
     (r ?= 0) = lex_compare [68; 111; 111] [100; 111; 79]) /\
  (exists r, strcmp 4100 4200 m = Ret r m /\
     (r ?= 0) = lex_compare [68; 111; 111; 109] [100; 111; 79; 114] /\
     (r = 0 <-> [68; 111; 111; 109] = [100; 111; 79; 114])) /\
  (exists r, strncasecmp 4100 4200 3 m = Ret r m /\
     (r ?= 0) = lex_compare [100; 111; 111] [100; 111; 111]) /\
  (exists r, strcasecmp 4100 4200 m = Ret r m /\
     (r ?= 0) = lex_compare [100; 111; 111; 109] [100; 111; 111; 114]).
Proof.
  apply (comparisons_correct _ 4100 4200 [68; 111; 111; 109] [100; 111; 79; 114] 3);
    [by_eval..|lia].
Defined.
