(* ===== verification/Numeric.v ===== *)
(** * Number parsing, absolute values and the pseudo-random generator

    [apps/doom/innigkeit_libc.c]: [strtol], [atoi], [rand], [srand],
    [abs] and [labs].  [long] is 64 bits wide and its
    overflow is undefined, so an overflowing accumulation faults. *)

From S2P Require Import Prelude Machine Memory CString.

(** ** Operations *)

(** The digit value of a [char], as the three range tests of [strtol] compute
    it: [None] when none of them holds. *)
Definition digit_of (c : Z) : option Z :=
  if (48 <=? s8 c) && (s8 c <=? 57) then Some (s8 c - 48)
  else if (97 <=? s8 c) && (s8 c <=? 122) then Some (s8 c - 97 + 10)
  else if (65 <=? s8 c) && (s8 c <=? 90) then Some (s8 c - 65 + 10)
  else None.

(** The accumulation loop: the value and the address of the first byte that is
    not a digit of the base. *)
Definition strtol_digits (base s : Z) : ST mem (Z * Z) :=
  while (fun '(v, s) =>
           c ← load8 s;
           match digit_of c with
           | None => mret (inr (v, s))
           | Some d =>
               if base <=? d then mret (inr (v, s))
               else
                 (vb ← signed_long (v * base);
                  v' ← signed_long (vb + d);
                  mret (inl (v', s + 1)))
           end) (0, s).

Definition skip_blanks (s : Z) : ST mem Z :=
  while (fun s =>
           c ← load8 s;
           if (s8 c =? 32) || (s8 c =? 9) then mret (inl (s + 1)) else mret (inr s)) s.

(** [strtol]: the value and the end pointer the caller may ask for. *)
Definition strtol (s base : Z) : ST mem (Z * Z) :=
  s ← skip_blanks s;
  c ← load8 s;
  let neg := c =? 45 in
  let s := if (c =? 45) || (c =? 43) then s + 1 else s in
  '(base, s) ←
    (if base =? 0 then
       (c ← load8 s;
        if c =? 48 then
          (c ← load8 (s + 1);
           if (c =? 120) || (c =? 88) then mret (16, s + 2) else mret (8, s + 1))
        else mret (10, s))
     else mret (base, s) : ST mem (Z * Z));
  '(v, s) ← strtol_digits base s;
  r ← (if (neg : bool) then signed_long (- v) else mret v);
  mret (r, s).

Definition atoi (s : Z) : ST mem Z := '(v, _) ← strtol s 10; mret (s32 v).

Definition abs {S} (x : Z) : ST S Z := if x <? 0 then signed_int (- x) else mret x.
Definition labs {S} (x : Z) : ST S Z := if x <? 0 then signed_long (- x) else mret x.

(** [rand]: the result and the new [rand_state], an [unsigned long]. *)
Definition rand (rand_state : Z) : Z * Z :=
  let rand_state := u64 (rand_state * 1103515245 + 12345) in
  (Z.land (Z.shiftr rand_state 16) 32767, rand_state).

Definition srand (seed : Z) : Z := u32 seed.

Definition RAND_MAX : Z := 32767.

(** ** Reference parser on byte lists *)

Definition is_blank (c : Z) : bool := (c =? 32) || (c =? 9).

Definition is_digit_in (base c : Z) : bool :=
  match digit_of c with Some d => d <? base | None => false end.

Definition digits_value (base : Z) (ds : list Z) : Z :=
  fold_left (fun v c => v * base + default 0 (digit_of c)) ds 0.

(** The sign, base, digits and the rest of a number in [s]. *)
Definition split_sign (s : list Z) : bool * list Z :=
  match s with
  | c :: t => if c =? 45 then (true, t) else if c =? 43 then (false, t) else (false, s)
  | [] => (false, [])
  end.

Definition split_base (base : Z) (s : list Z) : Z * list Z :=
  if base =? 0 then
    match s with
    | c :: t =>
        if c =? 48 then
          match t with
          | d :: u => if (d =? 120) || (d =? 88) then (16, u) else (8, t)
          | [] => (8, t)
          end
        else (10, s)
    | [] => (10, [])
    end
  else (base, s).

Record number := Number { num_neg : bool; num_base : Z; num_digits : list Z; num_rest : list Z }.

Definition parse_number (base : Z) (s : list Z) : number :=
  let '(neg, t) := split_sign (drop_while is_blank s) in
  let '(b, u) := split_base base t in
  Number neg b (take_while (is_digit_in b) u) (drop_while (is_digit_in b) u).

(** The value of a parsed number, when it fits a [long]. *)
Definition number_value (n : number) : option Z :=
  let v := digits_value (num_base n) (num_digits n) in
  if v <=? LONG_MAX then Some (if num_neg n then - v else v) else None.

(** ** [strtol] *)

Lemma digit_of_range c d : digit_of c = Some d -> 0 <= d < 36.
Proof.
  unfold digit_of. intros H.
  repeat match type of H with context [if ?b then _ else _] => destruct b eqn:? end;
    try done; injection H as <-; lia.
Qed.

Lemma digit_of_nul : digit_of 0 = None.
Proof. reflexivity. Qed.

Lemma digits_value_snoc base ds c :
  digits_value base (ds ++ [c]) = digits_value base ds * base + default 0 (digit_of c).
Proof. unfold digits_value. now rewrite fold_left_app. Qed.

(** Appending digits never makes the value smaller. *)
Lemma digits_fold_ge base ds v :
  0 <= v -> Forall (fun c => is_digit_in base c = true) ds ->
  v <= fold_left (fun v c => v * base + default 0 (digit_of c)) ds v.
Proof.
  revert v. induction ds as [|c ds IH]; intros v Hv Hd; [simpl; lia|].
  inversion_clear Hd as [|? ? Hc Hd']. simpl. unfold is_digit_in in Hc.
  destruct (digit_of c) as [d|] eqn:E; [|done]. apply digit_of_range in E. simpl.
  specialize (IH (v * base + d) ltac:(nia) Hd'). nia.
Qed.

Section strtol.
Context (m : mem) (Hm : mem_ok m).

(** [v * base + d] in [long] arithmetic. *)
Lemma accumulate_ret v base d (k : Z -> ST mem (Z * Z + Z * Z)) :
  0 <= v <= LONG_MAX -> 0 <= d -> 0 <= base ->
  (vb ← signed_long (v * base); v' ← signed_long (vb + d); k v') m =
  if v * base + d <=? LONG_MAX then k (v * base + d) m else Fault.
Proof.
  intros Hv Hd Hb. assert (0 <= v * base) by nia. destruct (Z.leb_spec (v * base + d) LONG_MAX).
  - do 2 erewrite bind_ret by (apply signed_long_ret; unfold LONG_MIN; lia). done.
  - destruct (Z_le_gt_dec (v * base) LONG_MAX).
    + erewrite bind_ret by (apply signed_long_ret; unfold LONG_MIN; lia).
      apply bind_fault, signed_long_fault. lia.
    + apply bind_fault, signed_long_fault. lia.
Qed.

Lemma strtol_digits_loops base p u v :
  cstr m p u -> 0 <= v <= LONG_MAX ->
  let ds := take_while (is_digit_in base) u in
  let total := fold_left (fun v c => v * base + default 0 (digit_of c)) ds v in
  exists n, Z.of_nat n <= Zlen u /\
  loops (fun '(v, s) =>
           c ← load8 s;
           match digit_of c with
           | None => mret (inr (v, s))
           | Some d =>
               if base <=? d then mret (inr (v, s))
               else (vb ← signed_long (v * base);
                     v' ← signed_long (vb + d);
                     mret (inl (v', s + 1)))
           end) n (v, p) m
        (if total <=? LONG_MAX then Ret (total, p + Zlen ds) m else Fault).
Proof.
  revert p v. induction u as [|c u IH]; intros p v Hu Hv ds total.
  - exists O. split; [unfold Zlen; simpl; lia|]. apply cstr_nul in Hu.
    rewrite Zlen_nil, Z.add_0_r in Hu. unfold total, ds. cbn [take_while fold_left].
    destruct (Z.leb_spec v LONG_MAX); [|lia]. rewrite Zlen_nil, Z.add_0_r.
    apply loops_stop. erewrite bind_ret by (eauto with cmem). reflexivity.
  - apply cstr_cons in Hu as (Hc & Hc0 & Hu). pose proof (Zlen_nonneg u).
    assert (Hstop : is_digit_in base c = false ->
        (c ← load8 p;
         match digit_of c with
         | None => mret (inr (v, p))
         | Some d => if base <=? d then mret (inr (v, p))
                     else (vb ← signed_long (v * base); v' ← signed_long (vb + d);
                           mret (inl (v', p + 1)))
         end) m = Ret (inr (v, p)) m).
    { intros Hd. erewrite bind_ret by (eauto with cmem). unfold is_digit_in in Hd.
      destruct (digit_of c) as [d|]; [|done]. destruct (Z.leb_spec base d); [done|lia]. }
    unfold total, ds. cbn [take_while]. destruct (is_digit_in base c) eqn:Hd.
    2: { exists O. split; [pose proof (Zlen_nonneg (c :: u)); lia|]. simpl.
         destruct (Z.leb_spec v LONG_MAX); [|lia]. rewrite Zlen_nil, Z.add_0_r.
         apply loops_stop. now apply Hstop. }
    clear Hstop. cbn [fold_left]. pose proof Hd as Hd'. unfold is_digit_in in Hd'.
    destruct (digit_of c) as [d|] eqn:Ed; [|done]. pose proof (digit_of_range _ _ Ed).
    change (default 0 (Some d)) with d. set (w := v * base + d).
    pose proof (fun k => accumulate_ret v base d k ltac:(lia) ltac:(lia) ltac:(lia)) as Hbody. fold w in Hbody.
    destruct (Z.leb_spec w LONG_MAX) as [Hw|Hw].
    + destruct (IH (p + 1) w Hu ltac:(unfold w in *; nia)) as (n & Hn & Hl).
      exists (Datatypes.S n). rewrite !Zlen_cons. split; [lia|]. eapply loops_step.
      * erewrite bind_ret by (eauto with cmem). rewrite Ed.
        destruct (Z.leb_spec base d); [lia|]. rewrite Hbody. reflexivity.
      * now replace (p + (Zlen (take_while (is_digit_in base) u) + 1))
          with (p + 1 + Zlen (take_while (is_digit_in base) u)) by lia.
    + exists O. split; [pose proof (Zlen_nonneg (c :: u)); lia|].
      pose proof (digits_fold_ge base (take_while (is_digit_in base) u) w
                    ltac:(unfold w; nia) (take_while_Forall _ _)).
      destruct (Z.leb_spec (fold_left (fun v c => v * base + default 0 (digit_of c))
                              (take_while (is_digit_in base) u) w) LONG_MAX); [lia|].
      apply loops_fault. erewrite bind_ret by (eauto with cmem). rewrite Ed.
      destruct (Z.leb_spec base d); [lia|]. rewrite Hbody. reflexivity.
Qed.

Lemma strtol_digits_ret base p u :
  cstr m p u ->
  let ds := take_while (is_digit_in base) u in
  strtol_digits base p m =
  if digits_value base ds <=? LONG_MAX then Ret (digits_value base ds, p + Zlen ds) m
  else Fault.
Proof.
  intros Hu ds. pose proof (cstr_bound m p u Hm Hu).
  destruct (strtol_digits_loops base p u 0 Hu ltac:(unfold LONG_MAX; lia)) as (n & Hn & Hl).
  unfold strtol_digits. eapply while_loops; [exact Hl|]. lia.
Qed.

Lemma skip_blanks_ret p s :
  cstr m p s -> skip_blanks p m = Ret (p + Zlen (take_while is_blank s)) m.
Proof.
  intros Hs. pose proof (cstr_bound m p s Hm Hs).
  assert (exists n, Z.of_nat n <= Zlen s /\
    loops (fun s => c ← load8 s;
             if (s8 c =? 32) || (s8 c =? 9) then mret (inl (s + 1)) else mret (inr s))
          n p m (Ret (p + Zlen (take_while is_blank s)) m)) as (n & Hn & Hl).
  { clear H. revert p Hs. induction s as [|c s IH]; intros p Hs.
    - exists O. split; [unfold Zlen; simpl; lia|]. apply cstr_nul in Hs.
      rewrite Zlen_nil, Z.add_0_r in *. apply loops_stop.
      erewrite bind_ret by (eauto with cmem). reflexivity.
    - apply cstr_cons in Hs as (Hc & Hc0 & Hs). pose proof (peek_byte m p c Hm Hc) as Hb.
      assert (Hbl : (s8 c =? 32) || (s8 c =? 9) = is_blank c).
      { change 32 with (s8 32) at 1. change 9 with (s8 9) at 1.
        now rewrite !s8_eqb by done. }
      cbn [take_while]. destruct (is_blank c).
      + destruct (IH _ Hs) as (n & Hn & Hl). exists (Datatypes.S n).
        rewrite !Zlen_cons. split; [lia|]. eapply loops_step.
        * erewrite bind_ret by (eauto with cmem). rewrite Hbl. reflexivity.
        * now replace (p + (Zlen (take_while is_blank s) + 1))
            with (p + 1 + Zlen (take_while is_blank s)) by lia.
      + exists O. split; [pose proof (Zlen_nonneg (c :: s)); lia|]. apply loops_stop.
        erewrite bind_ret by (eauto with cmem). rewrite Hbl, Zlen_nil, Z.add_0_r. reflexivity. }
  unfold skip_blanks. eapply while_loops; [exact Hl|]. lia.
Qed.

(** The string helpers of the proof keep every pointer as the distance from the
    address [e] of the terminator. *)
Definition cstr_to (e : Z) (t : list Z) : Prop := cstr m (e - Zlen t) t.

Lemma cstr_to_load e t : cstr_to e t -> load8 (e - Zlen t) m = Ret (hd 0 t) m.
Proof.
  unfold cstr_to. destruct t as [|c t]; intros H; apply load8_ret.
  - apply cstr_nul in H. rewrite Zlen_nil in *. simpl.
    now replace (e - 0) with (e - 0 + 0) by lia.
  - now apply cstr_cons in H as (H & _).
Qed.

Lemma cstr_to_tail e c t : cstr_to e (c :: t) -> cstr_to e t /\ e - Zlen (c :: t) + 1 = e - Zlen t.
Proof.
  unfold cstr_to. rewrite Zlen_cons. intros H. apply cstr_cons in H as (_ & _ & H).
  assert (E : e - (Zlen t + 1) + 1 = e - Zlen t) by lia. rewrite E in H. auto.
Qed.

Lemma cstr_to_app e a t : cstr_to e (a ++ t) -> cstr_to e t /\ e - Zlen (a ++ t) + Zlen a = e - Zlen t.
Proof.
  unfold cstr_to. rewrite Zlen_app. intros H. apply cstr_app in H as (_ & H & _).
  assert (E : e - (Zlen a + Zlen t) + Zlen a = e - Zlen t) by lia. rewrite E in H. auto.
Qed.

Lemma split_sign_to e t :
  cstr_to e t ->
  cstr_to e (split_sign t).2 /\ (split_sign t).1 = (hd 0 t =? 45) /\
  (if (hd 0 t =? 45) || (hd 0 t =? 43) then e - Zlen t + 1 else e - Zlen t)
  = e - Zlen (split_sign t).2.
Proof.
  destruct t as [|c t]; intros H; [done|]. destruct (cstr_to_tail _ _ _ H) as [H' E].
  cbn [split_sign hd]. destruct (c =? 45); [done|]. destruct (c =? 43); done.
Qed.

Lemma split_base_to e base t :
  cstr_to e t ->
  cstr_to e (split_base base t).2 /\
  (if base =? 0 then
     (c ← load8 (e - Zlen t);
      if c =? 48 then
        (c ← load8 (e - Zlen t + 1);
         if (c =? 120) || (c =? 88) then mret (16, e - Zlen t + 2)
         else mret (8, e - Zlen t + 1))
      else mret (10, e - Zlen t))
   else mret (base, e - Zlen t) : ST mem (Z * Z)) m
  = Ret ((split_base base t).1, e - Zlen (split_base base t).2) m.
Proof.
  intros H. unfold split_base. destruct (base =? 0); [|done].
  erewrite bind_ret by (now apply cstr_to_load).
  destruct t as [|c t]; [done|]. cbn [hd].
  destruct (cstr_to_tail _ _ _ H) as [H' E]. destruct (c =? 48); [|done].
  rewrite E. erewrite bind_ret by (now apply cstr_to_load).
  destruct t as [|d t]; [done|]. cbn [hd].
  destruct (cstr_to_tail _ _ _ H') as [H'' E'].
  replace (e - Zlen (c :: d :: t) + 2) with (e - Zlen t) by lia.
  destruct ((d =? 120) || (d =? 88)); done.
Qed.

Lemma strtol_ret base p s :
  cstr m p s ->
  let n := parse_number base s in
  strtol p base m =
  match number_value n with
  | Some v => Ret (v, p + Zlen s - Zlen (num_rest n)) m
  | None => Fault
  end.
Proof.
  intros Hs. set (e := p + Zlen s).
  assert (He : cstr_to e s) by (unfold cstr_to, e; now replace (p + Zlen s - Zlen s) with p by lia).
  unfold strtol. erewrite bind_ret by (exact (skip_blanks_ret p s Hs)).
  pose proof (take_drop_while is_blank s) as Hb.
  assert (H1 : cstr_to e (drop_while is_blank s) /\
               p + Zlen (take_while is_blank s) = e - Zlen (drop_while is_blank s)).
  { rewrite <- Hb in He. apply cstr_to_app in He as [He E]. split; [done|].
    rewrite <- E, Hb. unfold e. lia. }
  destruct H1 as [H1 ->]. unfold parse_number. set (t1 := drop_while is_blank s) in *.
  erewrite bind_ret by (now apply cstr_to_load).
  destruct (split_sign_to e t1 H1) as (H2 & Hneg & ->).
  destruct (split_sign t1) as [neg t2]. simpl fst in *. simpl snd in *. rewrite <- Hneg.
  destruct (split_base_to e base t2 H2) as [H3 E3].
  erewrite bind_ret by exact E3. destruct (split_base base t2) as [b u]. simpl in *.
  pose proof (strtol_digits_ret b (e - Zlen u) u H3) as Hd. simpl in Hd.
  unfold number_value. simpl.
  pose proof (take_drop_while (is_digit_in b) u) as Hu. rewrite <- Hu in H3.
  apply cstr_to_app in H3 as [_ E]. rewrite Hu in E. rewrite E in Hd.
  set (v := digits_value b (take_while (is_digit_in b) u)) in *.
  assert (0 <= v) by (apply digits_fold_ge, take_while_Forall; lia).
  destruct (Z.leb_spec v LONG_MAX).
  - erewrite bind_ret by exact Hd. destruct neg; [|reflexivity].
    erewrite bind_ret by (apply signed_long_ret; unfold LONG_MIN, LONG_MAX in *; lia).
    reflexivity.
  - now apply bind_fault.
Qed.

End strtol.

(** ** Correctness *)

(** [strtol] agrees with the reference parser on every string and base: after
    blanks, an optional sign and, for base 0, the [0] or [0x] prefix, it
    returns the signed value of the longest run of digits of the base and
    the address after it; a value above [LONG_MAX] overflows the accumulator,
    which is undefined.  Memory is unchanged. *)
Theorem strtol_correct m p s base :
  mem_ok m -> cstr m p s ->
  strtol p base m =
  match number_value (parse_number base s) with
  | Some v => Ret (v, p + Zlen s - Zlen (num_rest (parse_number base s))) m
  | None => Fault
  end.
Proof. intros Hm Hs. exact (strtol_ret m Hm base p s Hs). Qed.

(** The string " -0x1Fg" in base 0 is -31, and the parse stops at 'g'. *)
Lemma strtol_correct_witness :
  strtol 4100 0 (page_with [(4100, [32; 45; 48; 120; 49; 70; 103; 0])])
  = Ret (-31, 4106) (page_with [(4100, [32; 45; 48; 120; 49; 70; 103; 0])]).
Proof.
  rewrite (strtol_correct _ 4100 [32; 45; 48; 120; 49; 70; 103] 0); by_eval.
Defined.

(** The decimal digits of a natural number, least significant first. *)
Definition dec_digit (d : Z) : Z := 48 + d.

Lemma digit_of_dec d : 0 <= d < 10 -> digit_of (dec_digit d) = Some d.
Proof.
  intros H. assert (Hd : d = 0 \/ d = 1 \/ d = 2 \/ d = 3 \/ d = 4 \/ d = 5 \/ d = 6 \/
                        d = 7 \/ d = 8 \/ d = 9) by lia.
  repeat destruct Hd as [->|Hd]; try reflexivity. now rewrite Hd.
Qed.

(** One step of the generator keeps only the bits below the state's width. *)
Lemma rand_low_bits s k :
  0 <= k <= 64 -> (rand s).2 mod 2 ^ k = (s * 1103515245 + 12345) mod 2 ^ k.
Proof.
  intros Hk. unfold rand, u64. simpl.
  apply Z.mod_mod_divide.
  exists (2 ^ (64 - k)). rewrite <- Z.pow_add_r by lia. f_equal. lia.
Qed.

Lemma rand_output s : (rand s).1 = ((rand s).2 / 65536) mod 32768.
Proof.
  unfold rand. simpl. change 32767 with (Z.ones 15).
  rewrite Z.land_ones, Z.shiftr_div_pow2 by lia. reflexivity.
Qed.

(** The portable generator of the C standard, on a 32-bit state. *)
Definition reference_rand (next : Z) : Z * Z :=
  let next := u32 (next * 1103515245 + 12345) in ((next / 65536) mod 32768, next).

Fixpoint draw (gen : Z -> Z * Z) (n : nat) (s : Z) : list Z :=
  match n with
  | O => []
  | Datatypes.S n' => let '(r, s') := gen s in r :: draw gen n' s'
  end.

Lemma div_mod_low x : (x mod 2 ^ 32) / 65536 mod 32768 = x / 65536 mod 32768.
Proof.
  change 32768 with (2 ^ 15). change 65536 with (2 ^ 16).
  rewrite <- !Z.shiftr_div_pow2, <- !Z.land_ones by lia.
  apply Z.bits_inj'. intros n Hn. rewrite !Z.land_spec, !Z.shiftr_spec, Z.land_spec by lia.
  rewrite !Z.testbit_ones by lia.
  destruct (Z.ltb_spec n 15); [|now rewrite !andb_false_r].
  destruct (Z.leb_spec 0 (n + 16)), (Z.ltb_spec (n + 16) 32); try lia.
  now rewrite andb_true_r.
Qed.

(** Although [rand_state] is 64 bits wide, the sequence [rand] produces from
    a seed set by [srand] is that of the portable 32-bit generator, and every
    value lies between 0 and [RAND_MAX]. *)
Theorem rand_sequence seed n :
  draw rand n (srand seed) = draw reference_rand n (srand seed) /\
  Forall (fun r => 0 <= r <= RAND_MAX) (draw rand n (srand seed)).
Proof.
  enough (H : forall s s', s mod 2 ^ 32 = s' mod 2 ^ 32 ->
    draw rand n s = draw reference_rand n s' /\
    Forall (fun r => 0 <= r <= RAND_MAX) (draw rand n s)) by (now apply H).
  induction n as [|n IH]; intros s s' E; [split; constructor|].
  cbn [draw].
  assert (E' : (rand s).2 mod 2 ^ 32 = (reference_rand s').2 mod 2 ^ 32).
  { rewrite rand_low_bits by lia. unfold reference_rand, u32. simpl.
    rewrite Zmod_mod, (Zplus_mod (s * _)), (Zmult_mod s), E.
    now rewrite <- Zmult_mod, <- Zplus_mod. }
  assert (Eo : (rand s).1 = (reference_rand s').1).
  { rewrite rand_output, <- div_mod_low, E'. unfold reference_rand, u32. simpl.
    now rewrite Zmod_mod. }
  destruct (IH _ _ E') as [IH1 IH2].
  pose proof (rand_output s) as Hr. pose proof (Z.mod_pos_bound ((rand s).2 / 65536) 32768 ltac:(lia)).
  destruct (rand s) as [r t], (reference_rand s') as [r' t']. simpl in *. subst r'.
  split; [now rewrite IH1|]. constructor; [unfold RAND_MAX; lia|done].
Qed.
