(* ===== verification/Double.v ===== *)
(** * Double precision arithmetic

    The [double] and [float] of the target: IEEE 754 binary64 and binary32 with
    rounding to nearest even, as the Standard Library specifies them
    ([SpecFloat]).  The lemmas say when an operation is exact (its result is a
    double), how comparison orders doubles, and that every operation commutes
    with a change of sign, up to the sign of a zero. *)

From Stdlib Require Export SpecFloat.
From Stdlib Require Import Morphisms.
From S2P Require Import Prelude Machine.

(** ** Operations *)

Definition double : Type := spec_float.

#[export] Instance double_eq_decision : EqDecision double.
Proof. solve_decision. Defined.

Definition fadd : double -> double -> double := SFadd 53 1024.
Definition fsub : double -> double -> double := SFsub 53 1024.
Definition fmul : double -> double -> double := SFmul 53 1024.
Definition fdiv : double -> double -> double := SFdiv 53 1024.
Definition fopp : double -> double := SFopp.
Definition flt (x y : double) : bool := SFltb x y.
Definition fle (x y : double) : bool := SFleb x y.
Definition feqb (x y : double) : bool := SFeqb x y.

(** The conversion of an integer, and the literal [num/den]. *)
Definition of_Z (n : Z) : double := binary_normalize 53 1024 n 0 false.
Definition dec (num den : Z) : double := fdiv (of_Z num) (of_Z den).

(** The integer part of a finite double. *)
Definition trunc (x : double) : option Z :=
  match x with
  | S754_zero _ => Some 0
  | S754_finite s m e =>
      Some (cond_Zopp s (if 0 <=? e then Zpos m * 2 ^ e else Zpos m / 2 ^ (- e)))
  | _ => None
  end.

(** [(long long)x], undefined when the integer part does not fit. *)
Definition to_llong {S} (x : double) : ST S Z :=
  match trunc x with
  | Some n => signed_long n
  | None => fault
  end.

(** [(float)x] of a double and [(double)x] of a float. *)
Definition to_float (x : double) : double :=
  match x with S754_finite s m e => binary_round 24 128 s m e | _ => x end.
Definition of_float (x : double) : double :=
  match x with S754_finite s m e => binary_round 53 1024 s m e | _ => x end.

(** ** Dyadic numbers

    [same_value m e m' e']: the numbers [m * 2^e] and [m' * 2^e'] are equal. *)

Definition same_value (m e m' e' : Z) : Prop :=
  m * 2 ^ (e - Z.min e e') = m' * 2 ^ (e' - Z.min e e').

Lemma scale_eq m e m' e' k k' :
  k <= e -> k <= e' -> k' <= e -> k' <= e' ->
  m * 2 ^ (e - k) = m' * 2 ^ (e' - k) -> m * 2 ^ (e - k') = m' * 2 ^ (e' - k').
Proof.
  intros H1 H2 H3 H4 E. destruct (Z_le_gt_dec k k') as [Hk|Hk].
  - apply (Z.mul_reg_r _ _ (2 ^ (k' - k))); [apply Z.pow_nonzero; lia|].
    rewrite <- !Z.mul_assoc, <- !Z.pow_add_r by lia.
    now replace (e - k' + (k' - k)) with (e - k) by lia;
      replace (e' - k' + (k' - k)) with (e' - k) by lia.
  - replace (e - k') with (e - k + (k - k')) by lia. replace (e' - k') with (e' - k + (k - k')) by lia.
    rewrite !Z.pow_add_r, !Z.mul_assoc by lia. now rewrite E.
Qed.

Lemma same_value_at k m e m' e' :
  k <= e -> k <= e' -> same_value m e m' e' <-> m * 2 ^ (e - k) = m' * 2 ^ (e' - k).
Proof. intros H1 H2. unfold same_value. split; apply scale_eq; lia. Qed.

Lemma same_value_sym m e m' e' : same_value m e m' e' -> same_value m' e' m e.
Proof. unfold same_value. now rewrite Z.min_comm. Qed.

Lemma same_value_trans m1 e1 m2 e2 m3 e3 :
  same_value m1 e1 m2 e2 -> same_value m2 e2 m3 e3 -> same_value m1 e1 m3 e3.
Proof.
  set (k := Z.min e1 (Z.min e2 e3)).
  rewrite !(same_value_at k) by lia. congruence.
Qed.

Lemma same_value_shift m e t : 0 <= t -> same_value (m * 2 ^ t) e m (e + t).
Proof.
  intros. apply (same_value_at e); [lia|lia|]. rewrite Z.sub_diag, Z.mul_1_r. do 2 f_equal. lia.
Qed.

(** ** Digits *)

Lemma digits2_pos_log2 m : Zpos (digits2_pos m) = Z.log2 (Zpos m) + 1.
Proof.
  induction m as [m IH|m IH|]; simpl digits2_pos; rewrite ?Pos2Z.inj_succ, ?IH; [..|done].
  - rewrite Pos2Z.inj_xI, Z.log2_succ_double; lia.
  - rewrite Pos2Z.inj_xO, Z.log2_double; lia.
Qed.

Lemma digits_bounds m : 2 ^ (Zpos (digits2_pos m) - 1) <= Zpos m < 2 ^ Zpos (digits2_pos m).
Proof.
  rewrite digits2_pos_log2. replace (Z.log2 (Zpos m) + 1 - 1) with (Z.log2 (Zpos m)) by lia.
  apply Z.log2_spec. lia.
Qed.

Lemma digits_unique m d : 2 ^ (d - 1) <= Zpos m < 2 ^ d -> Zpos (digits2_pos m) = d.
Proof.
  intros [H1 H2]. rewrite digits2_pos_log2.
  destruct (Z_lt_le_dec d 1) as [Hd|Hd].
  { assert (2 ^ d <= 1) by (destruct (Z_lt_le_dec d 0); [rewrite Z.pow_neg_r by lia; lia|
      replace d with 0 by lia; done]). lia. }
  rewrite (Z.log2_unique (Zpos m) (d - 1)); [lia|lia|]. now replace (Z.succ (d - 1)) with d by lia.
Qed.

Lemma digits_shift m m' t :
  0 <= t -> Zpos m' = Zpos m * 2 ^ t -> Zpos (digits2_pos m') = Zpos (digits2_pos m) + t.
Proof.
  intros Ht E. apply digits_unique. rewrite E. pose proof (digits_bounds m) as [H1 H2].
  set (d := Zpos (digits2_pos m)) in *.
  replace (d + t - 1) with (d - 1 + t) by lia. rewrite !Z.pow_add_r by lia.
  assert (0 < 2 ^ t) by (apply Z.pow_pos_nonneg; lia). nia.
Qed.

(** Numbers of the same value have the same leading position. *)
Lemma digits_same_value m e m' e' :
  same_value (Zpos m) e (Zpos m') e' ->
  Zpos (digits2_pos m) + e = Zpos (digits2_pos m') + e'.
Proof.
  unfold same_value. intros E. set (k := Z.min e e') in *.
  assert (P : forall t, 0 <= t -> 0 < 2 ^ t) by (intros; apply Z.pow_pos_nonneg; lia).
  pose proof (P (e - k) ltac:(lia)). pose proof (P (e' - k) ltac:(lia)).
  pose proof (digits_shift m (Z.to_pos (Zpos m * 2 ^ (e - k))) (e - k) ltac:(lia)
    ltac:(rewrite Z2Pos.id; nia)) as D1.
  pose proof (digits_shift m' (Z.to_pos (Zpos m' * 2 ^ (e' - k))) (e' - k) ltac:(lia)
    ltac:(rewrite Z2Pos.id; nia)) as D2.
  rewrite E in D1. lia.
Qed.

(** ** Rounding is exact on representable numbers *)

Section rounding.
Context (prec emax : Z).

Lemma fexp_mono d d' : d <= d' -> fexp prec emax d <= fexp prec emax d'.
Proof. unfold fexp. lia. Qed.

Lemma iter_xO m d : Zpos (Pos.iter xO m d) = Zpos m * 2 ^ Zpos d.
Proof.
  revert m. induction d as [|d IH] using Pos.peano_ind; intros m; [simpl; lia|].
  rewrite Pos.iter_succ, Pos2Z.inj_succ, Z.pow_succ_r by lia. specialize (IH m). lia.
Qed.

Definition exact_record (m : Z) : shr_record := Build_shr_record m false false.

Lemma shr_1_double m : 0 < m -> shr_1 (exact_record (2 * m)) = exact_record m.
Proof. destruct m; [lia|reflexivity|lia]. Qed.

Lemma iter_pos_iter {A} (f : A -> A) p x : @SpecFloat.iter_pos A f p x = Pos.iter f x p.
Proof.
  revert x. induction p as [p IH|p IH|]; intros x; simpl; [..|done]; rewrite !IH; [|done].
  now rewrite Pos.iter_swap, Pos.iter_swap.
Qed.

(** Shifting out zeros loses nothing. *)
Lemma shr_exact m t e :
  0 < m -> 0 <= t -> shr (exact_record (m * 2 ^ t)) e t = (exact_record m, e + t).
Proof.
  intros Hm Ht. unfold shr. destruct t as [|p|p]; [now rewrite Z.mul_1_r, Z.add_0_r| |lia].
  f_equal. rewrite iter_pos_iter. clear Ht. induction p as [|p IH] using Pos.peano_ind.
  - change (Pos.iter ?f ?x 1) with (f x). replace (m * 2 ^ 1) with (2 * m) by lia. now apply shr_1_double.
  - rewrite Pos.iter_succ_r, Pos2Z.inj_succ, Z.pow_succ_r by lia.
    replace (m * (2 * 2 ^ Zpos p)) with (2 * (m * 2 ^ Zpos p)) by lia.
    rewrite shr_1_double; [exact IH|]. assert (0 < 2 ^ Zpos p) by (apply Z.pow_pos_nonneg; lia). nia.
Qed.

(** The second half of rounding, on a mantissa that is not too short. *)
Lemma round_aux_exact s mx ex m e :
  bounded prec emax m e = true -> same_value (Zpos mx) ex (Zpos m) e -> ex <= e ->
  binary_round_aux prec emax s (Zpos mx) ex loc_Exact = S754_finite s m e.
Proof.
  intros Hb Hv Hle. pose proof (digits_same_value _ _ _ _ Hv) as Hd.
  apply andb_prop in Hb as [Hc He]. unfold canonical_mantissa in Hc. apply Z.eqb_eq in Hc.
  assert (Hm : Zpos mx = Zpos m * 2 ^ (e - ex)).
  { apply (same_value_at ex) in Hv; [|lia|lia]. rewrite Z.sub_diag, Z.mul_1_r in Hv. exact Hv. }
  unfold binary_round_aux, shr_fexp at 1. simpl Zdigits2. rewrite Hd, Hc, Hm.
  change (shr_record_of_loc ?x loc_Exact) with (exact_record x). rewrite shr_exact by lia.
  replace (ex + (e - ex)) with e by lia. simpl round_nearest_even.
  unfold shr_fexp. simpl Zdigits2. rewrite Hc, Z.sub_diag. simpl. now rewrite He.
Qed.

Lemma round_exact s mx ex m e :
  bounded prec emax m e = true -> same_value (Zpos mx) ex (Zpos m) e ->
  binary_round prec emax s mx ex = S754_finite s m e.
Proof.
  intros Hb Hv. unfold binary_round, shl_align. pose proof (digits_same_value _ _ _ _ Hv) as Hd.
  pose proof Hb as Hb'. apply andb_prop in Hb' as [Hc _]. unfold canonical_mantissa in Hc.
  apply Z.eqb_eq in Hc. rewrite Hd, Hc. destruct (e - ex) as [|p|p] eqn:E.
  - now apply round_aux_exact; [..|lia].
  - now apply round_aux_exact; [..|lia].
  - apply round_aux_exact; [done| |lia]. rewrite iter_xO.
    eapply same_value_trans; [apply same_value_shift; lia|].
    now replace (e + Zpos p) with ex by lia.
Qed.

End rounding.

(** ** Doubles that are integers *)

(** [x] is a double whose value is [n]. *)
Definition is_int (x : double) (n : Z) : Prop :=
  match x with
  | S754_zero _ => n = 0
  | S754_finite s m e => bounded 53 1024 m e = true /\ same_value (cond_Zopp s (Zpos m)) e n 0
  | _ => False
  end.

(** [n] is the value of some double. *)
Definition rep (n : Z) : Prop :=
  n = 0 \/ exists m e, bounded 53 1024 m e = true /\ same_value (Zpos m) e (Z.abs n) 0.

Lemma pow2_pos t : 0 <= t -> 0 < 2 ^ t.
Proof. intros. now apply Z.pow_pos_nonneg. Qed.

Lemma same_value_opp m e m' e' : same_value m e m' e' -> same_value (- m) e (- m') e'.
Proof. unfold same_value. intros E. rewrite !Z.mul_opp_l. now f_equal. Qed.

Lemma same_value_abs m e n : same_value m e n 0 -> same_value (Z.abs m) e (Z.abs n) 0.
Proof.
  unfold same_value. intros E. pose proof (pow2_pos (e - Z.min e 0) ltac:(lia)).
  pose proof (pow2_pos (0 - Z.min e 0) ltac:(lia)). apply (f_equal Z.abs) in E.
  rewrite !Z.abs_mul in E. rewrite (Z.abs_eq (2 ^ (e - _))), (Z.abs_eq (2 ^ (0 - _))) in E by lia. exact E.
Qed.

Lemma same_value_sgn m e n : same_value m e n 0 -> Z.sgn m = Z.sgn n.
Proof.
  unfold same_value. intros E. pose proof (pow2_pos (e - Z.min e 0) ltac:(lia)).
  pose proof (pow2_pos (0 - Z.min e 0) ltac:(lia)). apply (f_equal Z.sgn) in E.
  rewrite !Z.sgn_mul in E. rewrite (Z.sgn_pos (2 ^ (e - _))), (Z.sgn_pos (2 ^ (0 - _))) in E by lia. lia.
Qed.

Lemma is_int_rep x n : is_int x n -> rep n.
Proof.
  destruct x as [s|s| |s m e]; simpl; [now left|done|done|]. intros [Hb Hv]. right.
  exists m, e. split; [done|]. apply same_value_abs in Hv. now destruct s.
Qed.

(** Rounding a number whose value is a representable integer gives it. *)
Lemma normalize_int m e n z :
  same_value m e n 0 -> rep n -> is_int (binary_normalize 53 1024 m e z) n.
Proof.
  intros Hv Hr. pose proof (same_value_sgn _ _ _ Hv) as Hs. pose proof (same_value_abs _ _ _ Hv) as Ha.
  destruct Hr as [->|(p & ep & Hb & Hp)]; [destruct m; done|].
  destruct m as [|m|m]; simpl; [simpl in Hs; lia|..];
    rewrite (round_exact 53 1024 _ m e p ep) by
      (done || (eapply same_value_trans; [exact Ha|now apply same_value_sym])); (split; [done|]).
  - simpl. now replace (Z.abs n) with n in Hp by (simpl in Hs; lia).
  - simpl. apply same_value_opp in Hp. now replace (- Z.abs n) with n in Hp by (simpl in Hs; lia).
Qed.

Lemma of_Z_int n : rep n -> is_int (of_Z n) n.
Proof. apply normalize_int. reflexivity. Qed.

(** A nonzero integer is the value of one double only. *)
Lemma is_int_unique x n : is_int x n -> n <> 0 -> x = of_Z n.
Proof.
  destruct x as [s|s| |s m e]; simpl; [done|done|done|]. intros [Hb Hv] Hn.
  pose proof (same_value_sgn _ _ _ Hv) as Hs. pose proof (same_value_abs _ _ _ Hv) as Ha.
  apply same_value_sym in Ha. unfold of_Z, binary_normalize.
  destruct n as [|n|n]; [done|..]; (destruct s; simpl in Hs; [|]); try done; symmetry;
    (apply round_exact; [done|exact Ha]).
Qed.

Lemma shl_align_fst m e e' :
  e' <= e -> Zpos (fst (shl_align m e e')) = Zpos m * 2 ^ (e - e').
Proof.
  intros H. unfold shl_align. destruct (e' - e) as [|p|p] eqn:E; simpl fst.
  - replace (e - e') with 0 by lia. simpl. lia.
  - lia.
  - rewrite iter_xO. do 2 f_equal. lia.
Qed.

Lemma same_value_plus m1 m2 e a b :
  same_value m1 e a 0 -> same_value m2 e b 0 -> same_value (m1 + m2) e (a + b) 0.
Proof. unfold same_value. intros H1 H2. rewrite !Z.mul_add_distr_r. congruence. Qed.

Lemma same_value_times m1 e1 m2 e2 a b :
  same_value m1 e1 a 0 -> same_value m2 e2 b 0 -> same_value (m1 * m2) (e1 + e2) (a * b) 0.
Proof.
  set (k := Z.min (Z.min e1 0) (Z.min e2 0)).
  rewrite (same_value_at k m1 e1), (same_value_at k m2 e2), (same_value_at (k + k)) by lia.
  intros H1 H2. replace (e1 + e2 - (k + k)) with ((e1 - k) + (e2 - k)) by lia.
  replace (0 - (k + k)) with ((0 - k) + (0 - k)) by lia. rewrite !Z.pow_add_r by lia.
  transitivity ((m1 * 2 ^ (e1 - k)) * (m2 * 2 ^ (e2 - k))); [lia|]. rewrite H1, H2. lia.
Qed.

Lemma fadd_int x y a b : is_int x a -> is_int y b -> rep (a + b) -> is_int (fadd x y) (a + b).
Proof.
  destruct x as [s|s| |s m e], y as [s'|s'| |s' m' e']; simpl; try done; intros Hx Hy Hr.
  - subst. now destruct s, s'.
  - subst. exact Hy.
  - subst. rewrite Z.add_0_r. exact Hx.
  - destruct Hx as [_ Hx], Hy as [_ Hy]. apply normalize_int; [|done].
    apply same_value_plus; [eapply same_value_trans; [|exact Hx]|eapply same_value_trans; [|exact Hy]];
      rewrite shl_align_fst by lia.
    + destruct s; simpl; [rewrite <- Z.mul_opp_l|]; set (t := e - Z.min e e');
        replace e with (Z.min e e' + t) at 2 by lia; apply same_value_shift; lia.
    + destruct s'; simpl; [rewrite <- Z.mul_opp_l|]; set (t := e' - Z.min e e');
        replace e' with (Z.min e e' + t) at 2 by lia; apply same_value_shift; lia.
Qed.

Lemma fsub_fadd x y : fsub x y = fadd x (fopp y).
Proof.
  destruct x as [s|s| |s m e], y as [s'|s'| |s' m' e']; try reflexivity; now destruct s, s'.
Qed.

Lemma fopp_int x a : is_int x a -> is_int (fopp x) (- a).
Proof.
  destruct x as [s|s| |s m e]; simpl; try done; [intros ->; lia|]. intros [Hb Hv]. split; [done|].
  apply same_value_opp in Hv. now destruct s.
Qed.

Lemma fsub_int x y a b : is_int x a -> is_int y b -> rep (a - b) -> is_int (fsub x y) (a - b).
Proof. intros Hx Hy Hr. rewrite fsub_fadd. apply fadd_int; [done|now apply fopp_int|done]. Qed.

Lemma bounded_exp m e : bounded 53 1024 m e = true -> e = Z.max (Zpos (digits2_pos m) + e - 53) (-1074).
Proof.
  intros H. apply andb_prop in H as [H _]. unfold canonical_mantissa, fexp in H.
  apply Z.eqb_eq in H. change (emin 53 1024) with (-1074) in H. lia.
Qed.

Lemma digits_ge m m' : (m <= m')%positive -> Zpos (digits2_pos m) <= Zpos (digits2_pos m').
Proof.
  intros H. rewrite !digits2_pos_log2. pose proof (Z.log2_le_mono (Zpos m) (Zpos m') ltac:(lia)). lia.
Qed.

(** The mantissa of a nonzero integer has full length. *)
Lemma int_digits m e n :
  bounded 53 1024 m e = true -> same_value (Zpos m) e n 0 -> Zpos (digits2_pos m) = 53.
Proof.
  intros Hb Hv. pose proof (same_value_sgn _ _ _ Hv) as Hs. destruct n as [|n|n]; [done| |done].
  apply digits_same_value in Hv. apply bounded_exp in Hb. lia.
Qed.

Lemma mul_int_finite s m e n :
  rep n -> same_value (cond_Zopp s (Zpos m)) e n 0 -> 53 <= Zpos (digits2_pos m) ->
  is_int (binary_round_aux 53 1024 s (Zpos m) e loc_Exact) n.
Proof.
  intros Hr Hv Hd. pose proof (same_value_sgn _ _ _ Hv) as Hs. pose proof (same_value_abs _ _ _ Hv) as Ha.
  replace (Z.abs (cond_Zopp s (Zpos m))) with (Zpos m) in Ha by (destruct s; done).
  destruct Hr as [->|(p & ep & Hb & Hp)]; [destruct s; done|].
  assert (Hmp : same_value (Zpos m) e (Zpos p) ep) by
    (eapply same_value_trans; [exact Ha|now apply same_value_sym]).
  pose proof (digits_same_value _ _ _ _ Hmp). pose proof (bounded_exp _ _ Hb).
  rewrite (round_aux_exact _ _ s m e p ep Hb Hmp) by lia. split; [done|].
  destruct s; simpl in *; [apply same_value_opp in Hp|];
    [now replace (- Z.abs n) with n in Hp by lia|now replace (Z.abs n) with n in Hp by lia].
Qed.

Lemma fmul_int x y a b : is_int x a -> is_int y b -> rep (a * b) -> is_int (fmul x y) (a * b).
Proof.
  destruct x as [s|s| |s m e], y as [s'|s'| |s' m' e']; simpl; try done; intros Hx Hy Hr;
    [subst; lia|subst; lia|subst; lia|].
  destruct Hx as [Hb Hx], Hy as [Hb' Hy]. unfold fmul, SFmul. apply mul_int_finite; [done|..].
  - pose proof (same_value_times _ _ _ _ _ _ Hx Hy) as H. rewrite Pos2Z.inj_mul. now destruct s, s'; simpl in *;
      replace (- (Zpos m * Zpos m')) with (Zpos m * - Zpos m') by lia.
  - apply same_value_abs in Hx. replace (Z.abs (cond_Zopp s (Zpos m))) with (Zpos m) in Hx by (now destruct s).
    rewrite <- (int_digits m e _ Hb Hx). apply digits_ge. nia.
Qed.

Lemma fdigits_rep n : n <> 0 -> Zpos (digits2_pos (Z.to_pos (Z.abs n))) <= 53 -> rep n.
Proof.
  intros Hn Hd. right. set (p := Z.to_pos (Z.abs n)) in *. set (d := Zpos (digits2_pos p)) in *.
  assert (Hp : Zpos p = Z.abs n) by (unfold p; apply Z2Pos.id; lia).
  pose proof (pow2_pos (53 - d) ltac:(lia)).
  set (m := Z.to_pos (Z.abs n * 2 ^ (53 - d))).
  assert (Hm : Zpos m = Zpos p * 2 ^ (53 - d)) by (unfold m; rewrite Z2Pos.id by nia; congruence).
  exists m, (d - 53). split.
  - unfold bounded, canonical_mantissa. rewrite (digits_shift p m (53 - d) ltac:(lia) Hm). fold d.
    unfold fexp. change (emin 53 1024) with (-1074).
    apply andb_true_intro. split; [apply Z.eqb_eq; lia|apply Z.leb_le; lia].
  - rewrite Hm, Hp. replace 0 with (d - 53 + (53 - d)) at 1 by lia. apply same_value_shift. lia.
Qed.

Lemma rep_double n : rep n -> Z.abs n < 2 ^ 970 -> rep (2 * n).
Proof.
  intros [->|(m & e & Hb & Hv)] Hn; [now left|right]. exists m, (e + 1). split; [|].
  - pose proof (bounded_exp _ _ Hb) as He. pose proof (digits_same_value m e (Z.to_pos (Z.abs n)) 0) as Hd.
    destruct (Z.eq_dec n 0) as [->|Hn0].
    { apply same_value_sgn in Hv. done. }
    rewrite Z2Pos.id in Hd by lia. specialize (Hd Hv).
    pose proof (digits_bounds (Z.to_pos (Z.abs n))) as [D _]. rewrite Z2Pos.id in D by lia.
    assert (Zpos (digits2_pos (Z.to_pos (Z.abs n))) - 1 < 970).
    { apply (Z.pow_lt_mono_r_iff 2); lia. }
    unfold bounded, canonical_mantissa, fexp. change (emin 53 1024) with (-1074).
    apply andb_true_intro. split; [apply Z.eqb_eq; lia|apply Z.leb_le; lia].
  - replace (Z.abs (2 * n)) with (Z.abs n * 2) by lia.
    rewrite (same_value_at (Z.min e 0)) in Hv by lia.
    apply (same_value_at (Z.min e 0)); [lia|lia|].
    replace (e + 1 - Z.min e 0) with (e - Z.min e 0 + 1) by lia. rewrite Z.pow_add_r by lia. change (2 ^ 1) with 2. lia.
Qed.

Lemma small_rep n : Z.abs n <= 2 ^ 53 -> rep n.
Proof.
  intros H. destruct (Z.eq_dec n 0) as [->|Hn]; [now left|].
  destruct (Z.eq_dec (Z.abs n) (2 ^ 53)) as [E|E].
  - assert (n = 2 * 2 ^ 52 \/ n = 2 * - 2 ^ 52) as [-> | ->] by lia; apply rep_double;
      first [lia | apply fdigits_rep; done].
  - apply fdigits_rep; [done|]. pose proof (digits_bounds (Z.to_pos (Z.abs n))) as [D _].
    rewrite Z2Pos.id in D by lia.
    enough (Zpos (digits2_pos (Z.to_pos (Z.abs n))) - 1 < 53) by lia.
    apply (Z.pow_lt_mono_r_iff 2); lia.
Qed.

(** ** Comparison *)

(** Zeros and valid finite doubles, and their value in units of [2^k]. *)
Definition proper (k : Z) (x : double) : Prop :=
  match x with
  | S754_zero _ => True
  | S754_finite _ m e => bounded 53 1024 m e = true /\ k <= e
  | _ => False
  end.

Definition units (k : Z) (x : double) : Z :=
  match x with S754_finite s m e => cond_Zopp s (Zpos m * 2 ^ (e - k)) | _ => 0 end.

Lemma canonical_lt m1 e1 m2 e2 k :
  bounded 53 1024 m1 e1 = true -> bounded 53 1024 m2 e2 = true -> k <= e1 -> e1 < e2 ->
  Zpos m1 * 2 ^ (e1 - k) < Zpos m2 * 2 ^ (e2 - k).
Proof.
  intros H1 H2 Hk Hlt. apply bounded_exp in H1, H2.
  pose proof (digits_bounds m1) as [_ D1]. pose proof (digits_bounds m2) as [D2 _].
  set (d1 := Zpos (digits2_pos m1)) in *. set (d2 := Zpos (digits2_pos m2)) in *.
  pose proof (pow2_pos (e1 - k) ltac:(lia)). pose proof (pow2_pos (e2 - k) ltac:(lia)).
  assert (2 ^ (d1 + (e1 - k)) <= 2 ^ (d2 - 1 + (e2 - k))) as Hp by (apply Z.pow_le_mono_r; lia).
  rewrite !Z.pow_add_r in Hp by lia. nia.
Qed.

Lemma compare_pos m1 e1 m2 e2 k :
  bounded 53 1024 m1 e1 = true -> bounded 53 1024 m2 e2 = true -> k <= e1 -> k <= e2 ->
  match Z.compare e1 e2 with Lt => Lt | Gt => Gt | Eq => Pos.compare_cont Eq m1 m2 end =
  (Zpos m1 * 2 ^ (e1 - k) ?= Zpos m2 * 2 ^ (e2 - k)).
Proof.
  intros H1 H2 Hk1 Hk2. destruct (Z.compare_spec e1 e2) as [->|Hlt|Hlt].
  - change (Pos.compare_cont Eq m1 m2) with (Zpos m1 ?= Zpos m2).
    apply Zmult_compare_compat_r. pose proof (pow2_pos (e2 - k) ltac:(lia)). lia.
  - symmetry. apply Z.compare_lt_iff. now apply canonical_lt.
  - symmetry. apply Z.compare_gt_iff. now apply canonical_lt.
Qed.

Lemma compare_spec x y k :
  proper k x -> proper k y -> SFcompare x y = Some (units k x ?= units k y).
Proof.
  destruct x as [s|s| |s m e], y as [s'|s'| |s' m' e']; cbn [proper units SFcompare]; try done.
  - intros _ [_ Hk]. pose proof (pow2_pos (e' - k) ltac:(lia)).
    f_equal. symmetry. destruct s'; cbn [cond_Zopp]; [apply Z.compare_gt_iff|apply Z.compare_lt_iff]; nia.
  - intros [_ Hk] _. pose proof (pow2_pos (e - k) ltac:(lia)).
    f_equal. symmetry. destruct s; cbn [cond_Zopp]; [apply Z.compare_lt_iff|apply Z.compare_gt_iff]; nia.
  - intros [H1 K1] [H2 K2]. f_equal. pose proof (compare_pos _ _ _ _ k H1 H2 K1 K2) as C.
    pose proof (pow2_pos (e - k) ltac:(lia)). pose proof (pow2_pos (e' - k) ltac:(lia)).
    destruct s, s'; cbn [cond_Zopp].
    + rewrite Z.compare_opp, (Z.compare_antisym (Zpos m * 2 ^ (e - k))), <- C. now destruct (e ?= e').
    + symmetry. apply Z.compare_lt_iff. nia.
    + symmetry. apply Z.compare_gt_iff. nia.
    + exact C.
Qed.

Lemma is_int_proper x n : is_int x n -> exists k, k <= 0 /\ forall k', k' <= k -> proper k' x /\ units k' x = n * 2 ^ (- k').
Proof.
  destruct x as [s|s| |s m e]; simpl; try done.
  - intros ->. exists 0. now split.
  - intros [Hb Hv]. exists (Z.min e 0). split; [lia|]. intros k Hk. split; [split; [done|lia]|].
    rewrite (same_value_at k) in Hv by lia. replace (0 - k) with (- k) in Hv by lia.
    rewrite <- Hv. destruct s; simpl; lia.
Qed.

(** ** Change of sign *)

(** Equality up to the sign of a zero. *)
Definition norm0 (x : double) : double := match x with S754_zero _ => S754_zero false | _ => x end.
Definition feq (x y : double) : Prop := norm0 x = norm0 y.

#[export] Instance feq_equivalence : Equivalence feq.
Proof. split; unfold feq; [now intros x|now intros x y|intros x y z; congruence]. Qed.

Lemma feq_cases x y : feq x y -> x = y \/ exists s s', x = S754_zero s /\ y = S754_zero s'.
Proof.
  destruct x as [s|s| |s m e], y as [s'|s'| |s' m' e']; unfold feq; simpl; intros H;
    try (left; congruence); try discriminate. right. eauto.
Qed.

#[local] Ltac feq_solve :=
  intros x x' [->|(s & s' & -> & ->)]%feq_cases;
  try (intros y y' [->|(t & t' & -> & ->)]%feq_cases); try reflexivity.

#[export] Instance fadd_proper : Proper (feq ==> feq ==> feq) fadd.
Proof.
  feq_solve.
  - now destruct x' as [[]| | |], t, t'.
  - now destruct y' as [[]| | |], s, s'.
  - now destruct s, s', t, t'.
Qed.

#[export] Instance fmul_proper : Proper (feq ==> feq ==> feq) fmul.
Proof. feq_solve; [now destruct x'|now destruct y']. Qed.

#[export] Instance fopp_proper : Proper (feq ==> feq) fopp.
Proof. feq_solve. Qed.

Lemma round_aux_opp s m e l :
  binary_round_aux 53 1024 (negb s) m e l = fopp (binary_round_aux 53 1024 s m e l).
Proof.
  unfold binary_round_aux. destruct (shr_fexp _ _ m e l) as [r1 e1].
  destruct (shr_fexp _ _ _ e1 _) as [r2 e2]. destruct (shr_m r2) as [|p|p]; try done.
  now destruct (e2 <=? 1024 - 53).
Qed.

Lemma fmul_opp_l x y : fmul (fopp x) y = fopp (fmul x y).
Proof.
  destruct x as [s|s| |s m e], y as [s'|s'| |s' m' e']; unfold fmul, fopp; simpl; try done;
    try (now rewrite negb_xorb_l). rewrite <- negb_xorb_l. apply round_aux_opp.
Qed.

Lemma fmul_comm x y : fmul x y = fmul y x.
Proof.
  destruct x as [s|s| |s m e], y as [s'|s'| |s' m' e']; unfold fmul; simpl; try done;
    try (now rewrite xorb_comm). now rewrite xorb_comm, Pos.mul_comm, Z.add_comm.
Qed.

Lemma fmul_opp_r x y : fmul x (fopp y) = fopp (fmul x y).
Proof. now rewrite fmul_comm, fmul_opp_l, fmul_comm. Qed.

Lemma fdiv_opp_l x y : fdiv (fopp x) y = fopp (fdiv x y).
Proof.
  destruct x as [s|s| |s m e], y as [s'|s'| |s' m' e']; unfold fdiv, fopp; simpl; try done;
    try (now rewrite negb_xorb_l).
  destruct (SFdiv_core_binary _ _ _ _ _ _) as [[q eq] l]. rewrite <- negb_xorb_l. apply round_aux_opp.
Qed.

Lemma fopp_opp x : fopp (fopp x) = x.
Proof. destruct x; simpl; now rewrite ?negb_involutive. Qed.

Lemma normalize_opp m e : feq (binary_normalize 53 1024 (- m) e false) (fopp (binary_normalize 53 1024 m e false)).
Proof.
  destruct m as [|m|m]; simpl; [done|..]; unfold binary_round;
    destruct (shl_align _ _ _); now rewrite <- round_aux_opp.
Qed.

Lemma fadd_opp x y : feq (fadd (fopp x) (fopp y)) (fopp (fadd x y)).
Proof.
  destruct x as [s|s| |s m e], y as [s'|s'| |s' m' e']; try (now destruct s, s'); try done.
  unfold fadd, fopp at 1 2, SFadd, SFopp. rewrite <- normalize_opp.
  match goal with |- feq (binary_normalize _ _ ?a _ _) (binary_normalize _ _ ?b _ _) =>
    replace a with b by (destruct s, s'; simpl; lia) end. reflexivity.
Qed.

(** Negation turns the order around. *)
Lemma compare_opp x y : SFcompare (fopp x) (fopp y) = SFcompare y x.
Proof.
  destruct x as [s|s| |s m e], y as [s'|s'| |s' m' e']; try done; try (now destruct s);
    try (now destruct s'); try (now destruct s, s').
  simpl. rewrite (Z.compare_antisym e e').
  change (Pos.compare_cont Eq m m') with (m ?= m')%positive.
  change (Pos.compare_cont Eq m' m) with (m' ?= m)%positive. rewrite (Pos.compare_antisym m m').
  destruct s, s'; simpl; try done; destruct (e ?= e'), (m ?= m')%positive; done.
Qed.
