(* ===== verification/Math.v ===== *)
(** * Mathematical functions

    [apps/doom/innigkeit_libc.c], "math (integer subset)": [fabs], [floor],
    [ceil], [sqrt], [sin], [cos], [atan2], [log], [exp], [pow] and their [float]
    versions, and [atof].  The target evaluates each operation in the type of its
    operands; a conversion to [long long] is undefined when the value does not
    fit. *)

From S2P Require Import Prelude Machine Memory CString Ctype Double.

(** ** Operations *)

Definition fabs (x : double) : double := if flt x (of_Z 0) then fopp x else x.

Definition floor {S} (x : double) : ST S double :=
  t ← to_llong x;
  mret (fsub (of_Z t) (if flt x (of_Z t) then of_Z 1 else of_Z 0)).

Definition ceil {S} (x : double) : ST S double :=
  t ← to_llong x;
  if flt (of_Z t) x then (t1 ← signed_long (t + 1); mret (of_Z t1)) else mret (of_Z t).

Definition sqrt (x : double) : double :=
  if fle x (of_Z 0) then of_Z 0
  else Nat.iter 40 (fun r => fmul (dec 1 2) (fadd r (fdiv x r))) x.

(** One term of the series: [t *= -x2 / c; s += t]. *)
Definition term (x2 : double) (c : Z) (st : double * double) : double * double :=
  let '(s, t) := st in
  let t := fmul t (fdiv (fopp x2) (of_Z c)) in
  (fadd s t, t).

Definition sin (x : double) : double :=
  let x2 := fmul x x in
  fst (term x2 72 (term x2 42 (term x2 20 (term x2 6 (x, x))))).

Definition cos (x : double) : double :=
  let x2 := fmul x x in
  fst (term x2 56 (term x2 30 (term x2 12 (term x2 2 (of_Z 1, of_Z 1))))).

Definition atan2 (y x : double) : double :=
  if feqb x (of_Z 0) && feqb y (of_Z 0) then of_Z 0
  else
    let ax := fabs x in
    let ay := fabs y in
    let poly r := fmul r (fsub (dec 9817 10000) (fmul (fmul (dec 1963 10000) r) r)) in
    let a := if fle ay ax then poly (fdiv ay ax) else fsub (dec 15708 10000) (poly (fdiv ax ay)) in
    let a := if flt x (of_Z 0) then fsub (dec 314159265 100000000) a else a in
    if flt y (of_Z 0) then fopp a else a.

Definition log (x : double) : double :=
  if flt (of_Z 0) x then
    fsub (fsub x (of_Z 1)) (fdiv (fmul (fsub x (of_Z 1)) (fsub x (of_Z 1))) (of_Z 2))
  else of_Z 0.

Definition exp (x : double) : double :=
  fst (fold_left (fun '(s, t) i => let t := fmul t (fdiv x (of_Z i)) in (fadd s t, t))
         (seqZ 1 19) (of_Z 1, of_Z 1)).

(** The loop of [pow] over the bits of the exponent. *)
Definition pow_loop {S} (n : Z) (b : double) : ST S double :=
  while (fun '(n, r, b) =>
           if n =? 0 then mret (inr r)
           else
             let r := if Z.land n 1 =? 0 then r else fmul r b in
             mret (inl (Z.shiftr n 1, r, fmul b b))) (n, of_Z 1, b).

Definition pow {S} (x y : double) : ST S double :=
  if feqb y (of_Z 0) then mret (of_Z 1)
  else
    n ← to_llong y;
    if feqb y (of_Z n) then
      let b := if n <? 0 then fdiv (of_Z 1) x else x in
      n ← (if n <? 0 then signed_long (- n) else mret n);
      pow_loop n b
    else mret (exp (fmul y (log x))).

Definition fabsf (x : double) : double := to_float (fabs (of_float x)).
Definition sqrtf (x : double) : double := to_float (sqrt (of_float x)).
Definition sinf (x : double) : double := to_float (sin (of_float x)).
Definition cosf (x : double) : double := to_float (cos (of_float x)).
Definition atan2f (y x : double) : double := to_float (atan2 (of_float y) (of_float x)).

(** The loop that consumes the characters of a class, from [s] on. *)
Definition scan_fold {A} (class : Z -> bool) (f : A -> Z -> A) (v : A) (s : Z) : ST mem (A * Z) :=
  while (fun '(v, s) =>
           c ← load8 s;
           if class c then mret (inl (f v c, s + 1)) else mret (inr (v, s))) (v, s).

(** A digit in front of the point, and one behind it, whose weight is [f]. *)
Definition add_digit (v : double) (c : Z) : double := fadd (fmul v (of_Z 10)) (of_Z (c - 48)).
Definition add_fraction (vf : double * double) (c : Z) : double * double :=
  let '(v, f) := vf in (fadd v (fmul (of_Z (c - 48)) f), fmul f (dec 1 10)).

Definition atof (s : Z) : ST mem double :=
  '(_, s) ← scan_fold isspace (fun _ _ => tt) tt s;
  c ← load8 s;
  let '(sign, s) := if c =? 45 then (fopp (of_Z 1), s + 1)
                    else if c =? 43 then (of_Z 1, s + 1) else (of_Z 1, s) in
  '(v, s) ← scan_fold isdigit add_digit (of_Z 0) s;
  c ← load8 s;
  v ← (if c =? 46 then
         '((v, _), _) ← scan_fold isdigit add_fraction (v, dec 1 10) (s + 1);
         mret v
       else mret v);
  mret (fmul sign v).

(** ** Rounding to an integer *)

Lemma trunc_units k x :
  k <= 0 -> proper k x -> trunc x = Some (Z.quot (units k x) (2 ^ (- k))).
Proof.
  intros Hk. pose proof (pow2_pos (- k) ltac:(lia)).
  destruct x as [s|s| |s m e]; simpl; try done.
  intros [_ He]. f_equal.
  assert (Hq : Z.quot (Zpos m * 2 ^ (e - k)) (2 ^ (- k)) =
    if 0 <=? e then Zpos m * 2 ^ e else Zpos m / 2 ^ (- e)).
  { destruct (Z.leb_spec 0 e).
    - replace (e - k) with (e + - k) by lia. rewrite Z.pow_add_r, Z.mul_assoc, Z.quot_mul by lia. done.
    - pose proof (pow2_pos (- e) ltac:(lia)). pose proof (pow2_pos (e - k) ltac:(lia)).
      replace (- k) with (- e + (e - k)) by lia. rewrite Z.pow_add_r, Z.quot_mul_cancel_r by lia.
      apply Z.quot_div_nonneg; lia. }
  rewrite <- Hq. destruct s; simpl; [now rewrite Z.quot_opp_l by lia|done].
Qed.

(** The integer part is a double, and a fractional part means that it is small. *)
Lemma trunc_rep k x t :
  k <= 0 -> proper k x -> trunc x = Some t ->
  rep t /\ (units k x <> t * 2 ^ (- k) -> Z.abs t < 2 ^ 53).
Proof.
  intros Hk. destruct x as [s|s| |s m e]; cbn [proper trunc]; try done.
  - intros _ [= <-]. split; [now left|]. simpl. lia.
  - intros [Hb He] [= <-]. destruct (Z.leb_spec 0 e) as [H0|H0].
    + split.
      * right. exists m, e. split; [done|].
        replace (Z.abs (cond_Zopp s (Zpos m * 2 ^ e))) with (Zpos m * 2 ^ e) by
          (pose proof (pow2_pos e ltac:(lia)); destruct s; simpl; lia).
        apply same_value_sym. replace e with (0 + e) at 3 by lia. now apply same_value_shift.
      * intros []. cbn [units]. replace (e - k) with (e + - k) by lia. rewrite Z.pow_add_r by lia.
        destruct s; simpl; lia.
    + pose proof (pow2_pos (- e) ltac:(lia)). pose proof (digits_bounds m) as [_ D].
      apply bounded_exp in Hb. assert (2 ^ Zpos (digits2_pos m) <= 2 ^ 53) by (apply Z.pow_le_mono_r; lia).
      assert (0 <= Zpos m / 2 ^ (- e) < 2 ^ 53).
      { split; [apply Z.div_pos; lia|]. apply Z.div_lt_upper_bound; nia. }
      split; [apply small_rep|intros _]; destruct s; simpl; lia.
Qed.

Lemma lt_int k x f t :
  k <= 0 -> proper k x -> is_int f t ->
  flt x f = (units k x <? t * 2 ^ (- k)) /\ flt f x = (t * 2 ^ (- k) <? units k x).
Proof.
  intros Hk Hx Hf. destruct (is_int_proper f t Hf) as (kf & Hkf & Hu).
  set (k' := Z.min k kf). destruct (Hu k' ltac:(lia)) as [Pf Uf].
  assert (Px : proper k' x /\ units k' x = units k x * 2 ^ (k - k')).
  { destruct x as [s|s| |s m e]; simpl in *; try done. destruct Hx as [Hb He]. split; [split; [done|lia]|].
    replace (e - k') with ((e - k) + (k - k')) by lia. rewrite Z.pow_add_r by lia. destruct s; simpl; lia. }
  destruct Px as [Px Ux]. pose proof (pow2_pos (k - k') ltac:(lia)) as Hp.
  replace (- k') with (- k + (k - k')) in Uf by lia. rewrite Z.pow_add_r, Z.mul_assoc in Uf by lia.
  unfold flt, SFltb. rewrite !(compare_spec _ _ k') by done. rewrite Ux, Uf, <- !Zmult_compare_compat_r by lia.
  unfold Z.ltb. now destruct (units k x ?= t * 2 ^ (- k)), (t * 2 ^ (- k) ?= units k x).
Qed.

Lemma to_llong_ret {S} x t (s : S) :
  trunc x = Some t -> LONG_MIN <= t <= LONG_MAX -> to_llong x s = Ret t s.
Proof. intros E H. unfold to_llong. rewrite E. now apply signed_long_ret. Qed.

Lemma quot_floor U D :
  0 < D -> U / D = (if U <? Z.quot U D * D then Z.quot U D - 1 else Z.quot U D) /\
  - (- U / D) = (if Z.quot U D * D <? U then Z.quot U D + 1 else Z.quot U D).
Proof.
  intros HD. pose proof (Z.quot_rem U D ltac:(lia)) as E.
  assert (Hb : (0 <= U -> 0 <= Z.rem U D < D) /\ (U <= 0 -> - D < Z.rem U D <= 0)).
  { split; intros H; [now apply Z.rem_bound_pos|].
    pose proof (Z.rem_bound_pos (- U) D ltac:(lia) HD) as B. rewrite Z.rem_opp_l in B by lia. lia. }
  split.
  - symmetry. destruct (Z.ltb_spec U (Z.quot U D * D));
      [apply (Z.div_unique_pos U D _ (Z.rem U D + D))|apply (Z.div_unique_pos U D _ (Z.rem U D))]; lia.
  - destruct (Z.ltb_spec (Z.quot U D * D) U).
    + rewrite <- (Z.div_unique_pos (- U) D (- (Z.quot U D + 1)) (D - Z.rem U D)); lia.
    + rewrite <- (Z.div_unique_pos (- U) D (- Z.quot U D) (- Z.rem U D)); lia.
Qed.

(** The integer part of [x] is a [long long]. *)
Definition fits_llong (x : double) : bool :=
  match trunc x with Some t => (LONG_MIN <=? t) && (t <=? LONG_MAX) | None => false end.

(** For every finite double whose integer part fits a [long long], [floor]
    and [ceil] return exactly the greatest integer below and the least integer
    above it; for every other argument (a large value, an infinity, a NaN) the
    conversion they start with is undefined. *)
Theorem floor_ceil_correct {S} x k (s : S) :
  k <= 0 ->
  (fits_llong x = false -> floor x s = Fault /\ ceil x s = Fault) /\
  (fits_llong x = true -> proper k x ->
   exists f g, floor x s = Ret f s /\ ceil x s = Ret g s /\
   is_int f (units k x / 2 ^ (- k)) /\ is_int g (- (- units k x / 2 ^ (- k)))).
Proof.
  intros Hk. unfold fits_llong.
  destruct (trunc x) as [t|] eqn:Et; [|unfold floor, ceil, to_llong; now rewrite Et].
  split; [unfold floor, ceil, to_llong, signed_long; rewrite Et; now intros ->|]. intros Hr.
  intros Hx. destruct (trunc_rep k x t Hk Hx Et) as [Hrep Hfrac].
  pose proof (of_Z_int t Hrep) as Ht. destruct (lt_int k x _ t Hk Hx Ht) as [L1 L2].
  rewrite (trunc_units k x Hk Hx) in Et. injection Et as Et.
  destruct (quot_floor (units k x) (2 ^ (- k)) (pow2_pos (- k) ltac:(lia))) as [Q1 Q2]. rewrite Et in Q1, Q2.
  unfold floor, ceil. rewrite !(bind_ret _ _ s t s) by
    (apply to_llong_ret; [rewrite (trunc_units k x Hk Hx); congruence|lia]). rewrite L1, L2, Q1, Q2.
  pose proof (of_Z_int 0 (or_introl eq_refl)) as H0. pose proof (of_Z_int 1 (small_rep 1 ltac:(lia))) as H1.
  assert (Hf : is_int (fsub (of_Z t) (if units k x <? t * 2 ^ (- k) then of_Z 1 else of_Z 0))
    (if units k x <? t * 2 ^ (- k) then t - 1 else t)).
  { destruct (Z.ltb_spec (units k x) (t * 2 ^ (- k))); [|rewrite <- (Z.sub_0_r t) at 2];
      (apply fsub_int; [done|done|]); [apply small_rep; lia|now rewrite Z.sub_0_r]. }
  destruct (Z.ltb_spec (t * 2 ^ (- k)) (units k x)); eexists _, _; (split; [reflexivity|]).
  - erewrite bind_ret by (apply signed_long_ret; unfold LONG_MIN, LONG_MAX; lia).
    split; [reflexivity|]. split; [exact Hf|]. apply of_Z_int, small_rep. lia.
  - split; [reflexivity|]. now split.
Qed.

(** ** Powers *)

Lemma trunc_int x n : is_int x n -> trunc x = Some n.
Proof.
  intros H. destruct (is_int_proper x n H) as (k & Hk & Hu). destruct (Hu k (Z.le_refl k)) as [Hp Eu].
  rewrite (trunc_units k x Hk Hp), Eu, Z.quot_mul; [done|]. pose proof (pow2_pos (- k) ltac:(lia)). lia.
Qed.

Lemma feqb_int x y a b : is_int x a -> is_int y b -> feqb x y = (a =? b).
Proof.
  intros Hx Hy. destruct (is_int_proper x a Hx) as (k & Hk & Hu), (is_int_proper y b Hy) as (k' & Hk' & Hu').
  destruct (Hu (Z.min k k') ltac:(lia)) as [Px Ux], (Hu' (Z.min k k') ltac:(lia)) as [Py Uy].
  unfold feqb, SFeqb. rewrite (compare_spec _ _ _ Px Py), Ux, Uy.
  rewrite <- Zmult_compare_compat_r by (pose proof (pow2_pos (- Z.min k k') ltac:(lia)); lia).
  rewrite Z.eqb_compare. now destruct (a ?= b).
Qed.

Lemma half_bits n : 0 <= n -> n = 2 * Z.shiftr n 1 + Z.land n 1 /\ 0 <= Z.shiftr n 1 /\ 0 <= Z.land n 1 < 2.
Proof.
  intros Hn. rewrite Z.shiftr_div_pow2 by lia. change 1 with (Z.ones 1) at 2 4 5.
  rewrite Z.land_ones by lia. change (2 ^ 1) with 2.
  pose proof (Z.div_mod n 2 ltac:(lia)). pose proof (Z.mod_pos_bound n 2 ltac:(lia)).
  pose proof (Z.div_pos n 2 ltac:(lia) ltac:(lia)). lia.
Qed.

(** The loop over the bits ends after at most 64 steps. *)
Lemma pow_loop_ret {S} n b (s : S) :
  0 <= n < 2 ^ 64 -> exists r, pow_loop n b s = Ret r s.
Proof.
  intros Hn. unfold pow_loop. match goal with |- context [while ?bd] => set (body := bd) end.
  enough (G : forall k n r b, 0 <= n < 2 ^ Z.of_nat k -> exists j v, (j <= k)%nat /\ loops body j (n, r, b) s (Ret v s)).
  { destruct (G 64%nat n (of_Z 1) b Hn) as (j & v & Hj & Hl). exists v. eapply while_loops; [exact Hl|lia]. }
  clear n b Hn. induction k as [|k IH]; intros n r b Hn.
  - exists O, r. split; [lia|]. apply loops_stop. unfold body. simpl in Hn. now replace n with 0 by lia.
  - destruct (Z.eq_dec n 0) as [->|H0]; [exists O, r; split; [lia|]; now apply loops_stop|].
    destruct (half_bits n ltac:(lia)) as (E & Hh & Hl).
    rewrite Nat2Z.inj_succ, Z.pow_succ_r in Hn by lia.
    destruct (IH (Z.shiftr n 1) (if Z.land n 1 =? 0 then r else fmul r b) (fmul b b) ltac:(lia)) as (j & v & Hj & Hv).
    exists (Datatypes.S j), v. split; [lia|]. eapply loops_step; [|exact Hv].
    unfold body. now destruct (Z.eqb_spec n 0).
Qed.

Lemma abs_pow_ge B n : 1 <= n -> B <> 0 -> Z.abs B <= Z.abs (B ^ n).
Proof.
  intros Hn HB. rewrite Z.abs_pow. rewrite <- (Z.pow_1_r (Z.abs B)) at 1. apply Z.pow_le_mono_r; lia.
Qed.

(** What square-and-multiply computes on integers whose power is a double. *)
Lemma pow_loop_exact {S} n b a (s : S) :
  0 <= n < 2 ^ 64 -> is_int b a -> Z.abs (a ^ n) <= 2 ^ 53 ->
  exists r, pow_loop n b s = Ret r s /\ is_int r (a ^ n).
Proof.
  intros Hn Hb Ha. unfold pow_loop. match goal with |- context [while ?bd] => set (body := bd) end.
  enough (G : forall k n r b R B, 0 <= n < 2 ^ Z.of_nat k -> is_int r R -> (0 < n -> is_int b B) ->
    (R <> 0 \/ B = 0) -> Z.abs (R * B ^ n) <= 2 ^ 53 ->
    exists j v, (j <= k)%nat /\ loops body j (n, r, b) s (Ret v s) /\ is_int v (R * B ^ n)).
  { destruct (G 64%nat n (of_Z 1) b 1 a Hn) as (j & v & Hj & Hl & Hv).
    - apply of_Z_int, small_rep. lia.
    - done.
    - now left.
    - now rewrite Z.mul_1_l.
    - exists v. rewrite Z.mul_1_l in Hv. split; [|done]. eapply while_loops; [exact Hl|lia]. }
  clear n b Hn Hb Ha. induction k as [|k IH]; intros n r b R B Hn HR HB HRB HP.
  { simpl in Hn. assert (n = 0) as -> by lia. exists O, r. split; [lia|]. rewrite Z.mul_1_r.
    split; [now apply loops_stop|done]. }
  destruct (Z.eq_dec n 0) as [->|H0].
  { exists O, r. split; [lia|]. rewrite Z.mul_1_r. split; [now apply loops_stop|done]. }
  destruct (half_bits n ltac:(lia)) as (E & Hh & Hl). specialize (HB ltac:(lia)).
  set (h := Z.shiftr n 1) in *. set (R' := if Z.land n 1 =? 0 then R else R * B).
  assert (EP : R * B ^ n = R' * (B * B) ^ h).
  { rewrite E at 1. rewrite <- Z.pow_2_r, <- Z.pow_mul_r by lia. unfold R'.
    destruct (Z.eqb_spec (Z.land n 1) 0) as [->|H1]; [now rewrite Z.add_0_r|].
    replace (Z.land n 1) with 1 by lia. rewrite Z.pow_add_r by lia. lia. }
  rewrite EP in HP |- *. rewrite Nat2Z.inj_succ, Z.pow_succ_r in Hn by lia.
  destruct (IH h (if Z.land n 1 =? 0 then r else fmul r b) (fmul b b) R' (B * B) ltac:(lia)) as (j & v & Hj & Hv & HvR).
  - unfold R'. destruct (Z.land n 1 =? 0) eqn:El; [done|]. apply fmul_int; [done|done|]. apply small_rep.
    destruct (Z.eq_dec B 0) as [->|HB0]; [lia|]. unfold R' in HP; rewrite ?El in HP; cbv iota in HP.
    pose proof (Z.pow_nonzero (B * B) h ltac:(nia) Hh). rewrite Z.abs_mul in HP. nia.
  - intros Hh0. apply fmul_int; [done|done|]. apply small_rep.
    destruct (Z.eq_dec B 0) as [->|HB0]; [lia|]. pose proof (abs_pow_ge (B * B) h ltac:(lia) ltac:(nia)).
    assert (R' <> 0) by (unfold R'; destruct (Z.land n 1 =? 0); nia). rewrite Z.abs_mul in HP. nia.
  - unfold R'. destruct (Z.eq_dec B 0) as [->|HB0]; [now right|left]. destruct (Z.land n 1 =? 0); nia.
  - exact HP.
  - exists (Datatypes.S j), v. split; [lia|]. split; [|done]. eapply loops_step; [|exact Hv].
    unfold body. now destruct (Z.eqb_spec n 0).
Qed.


(** ** Symmetries *)

Definition opposite (st st' : double * double) : Prop :=
  feq (fst st') (fopp (fst st)) /\ snd st' = fopp (snd st).

Lemma term_opposite x2 c st st' : opposite st st' -> opposite (term x2 c st) (term x2 c st').
Proof.
  destruct st as [s t], st' as [s' t']. intros [Hs Ht]. simpl in *. subst t'. split; simpl.
  - now rewrite Hs, fmul_opp_l, fadd_opp.
  - apply fmul_opp_l.
Qed.

Lemma square_opp x : fmul (fopp x) (fopp x) = fmul x x.
Proof. now rewrite fmul_opp_l, fmul_opp_r, fopp_opp. Qed.

(** A number that is less or greater than zero. *)
Definition nonzero (y : double) : Prop := flt y (of_Z 0) || flt (of_Z 0) y = true.

Lemma flt_opp y : flt (fopp y) (of_Z 0) = flt (of_Z 0) y.
Proof. unfold flt, SFltb. change (of_Z 0) with (fopp (S754_zero true)) at 1. now rewrite compare_opp; destruct y as [| | |[]]. Qed.

Lemma fabs_opp y : nonzero y -> fabs (fopp y) = fabs y.
Proof.
  unfold fabs, nonzero. rewrite flt_opp. intros H. pose proof (flt_opp (fopp y)) as E. rewrite fopp_opp in E.
  destruct y as [s|s| |s m e]; try done; destruct s; try done.
Qed.

(** The series keep the symmetries of the functions they approximate, for
    every argument and every rounding: [sin] is odd up to the sign of a zero,
    [cos] is even, and [atan2] is odd in its first argument, when that is not
    zero.  [fabs] is the absolute value, except that it keeps the sign of a
    negative zero. *)
Theorem trig_symmetry x y :
  fabs x = (if bool_decide (x = S754_zero true) then S754_zero true else SFabs x) /\
  feq (sin (fopp x)) (fopp (sin x)) /\ cos (fopp x) = cos x /\
  (nonzero y -> atan2 (fopp y) x = fopp (atan2 y x)).
Proof.
  split; [now destruct x as [[]|[]| |[] m e]|]. split; [|split].
  - unfold sin. rewrite square_opp. cbv zeta. do 4 apply term_opposite. now split.
  - unfold cos. now rewrite square_opp.
  - intros Hy. unfold atan2. rewrite (fabs_opp y Hy), flt_opp.
    assert (Hz : feqb y (of_Z 0) = false /\ feqb (fopp y) (of_Z 0) = false /\
      flt (of_Z 0) y = negb (flt y (of_Z 0))).
    { unfold nonzero in Hy. destruct y as [[]|[]| |[] m e]; try done. }
    destruct Hz as (-> & -> & ->). rewrite !andb_false_r. cbv zeta.
    destruct (flt y (of_Z 0)); cbn [negb]; [symmetry; apply fopp_opp|reflexivity].
Qed.

(** ** The square root *)

Definition pow2 (k : Z) : double := binary_normalize 53 1024 1 k false.

Definition sqrt_check (k : Z) : bool :=
  if Z.abs k <=? 35 then bool_decide (sqrt (pow2 (2 * k)) = pow2 k)
  else flt (pow2 k) (sqrt (pow2 (2 * k))).

(** Forty Newton steps from the argument itself reach the square root of
    [4^k] exactly for [k] from -35 to 35; beyond that (checked to [4^42]) they
    have not converged and the result is too large.  [sqrt] is 0 for zeros and
    negative numbers, and not a number for infinity. *)
Theorem sqrt_powers k :
  -42 <= k <= 42 ->
  (if Z.abs k <=? 35 then sqrt (pow2 (2 * k)) = pow2 k
   else flt (pow2 k) (sqrt (pow2 (2 * k))) = true) /\
  (forall x, fle x (of_Z 0) = true -> sqrt x = S754_zero false) /\
  sqrt (S754_infinity false) = S754_nan.
Proof.
  intros Hk. split; [|split; [|vm_compute; reflexivity]].
  - assert (H : forallb sqrt_check (seqZ (-42) 85) = true) by (vm_compute; reflexivity).
    rewrite forallb_forall in H. specialize (H k ltac:(apply list_elem_of_In, elem_of_seqZ; lia)).
    unfold sqrt_check in H. destruct (Z.abs k <=? 35); [now apply bool_decide_eq_true in H|done].
  - intros x Hx. unfold sqrt. now rewrite Hx.
Qed.

(** ** Reading a number *)

Lemma scan_fold_ret {A} class (f : A -> Z -> A) v m p t :
  class 0 = false -> mem_ok m -> cstr m p t ->
  scan_fold class f v p m = Ret (fold_left f (take_while class t) v, p + Zlen (take_while class t)) m.
Proof.
  intros H0 Hm Ht. unfold scan_fold. pose proof (cstr_bound m p t Hm Ht) as Hb.
  match goal with |- context [while ?bd] => set (body := bd) end.
  enough (G : exists j, (j <= length t)%nat /\ loops body j (v, p) m
    (Ret (fold_left f (take_while class t) v, p + Zlen (take_while class t)) m)).
  { destruct G as (j & Hj & Hl). eapply while_loops; [exact Hl|unfold Zlen in *; lia]. }
  clear Hb. revert v p Ht. induction t as [|c t IH]; intros v p Ht.
  - exists O. split; [lia|]. apply loops_stop. unfold body.
    erewrite bind_ret by (eapply load8_hd; exact Ht). cbn [hd take_while fold_left]. rewrite H0.
    change (Zlen []) with 0. now rewrite Z.add_0_r.
  - pose proof (cstr_drop m p [c] t Ht) as Ht'. change (Zlen [c]) with 1 in Ht'.
    assert (Hl : load8 p m = Ret c m) by exact (load8_hd m p _ Ht). cbn [take_while]. destruct (class c) eqn:Hc.
    + destruct (IH (f v c) (p + 1) Ht') as (j & Hj & Hloop). exists (Datatypes.S j). cbn [length fold_left].
      split; [lia|]. eapply loops_step; [unfold body; erewrite bind_ret by exact Hl; now rewrite Hc|].
      rewrite Zlen_cons. now replace (p + (Zlen (take_while class t) + 1)) with
        (p + 1 + Zlen (take_while class t)) by lia.
    + exists O. split; [lia|]. apply loops_stop. unfold body. erewrite bind_ret by exact Hl. rewrite Hc.
      cbn [fold_left]. change (Zlen []) with 0. now rewrite Z.add_0_r.
Qed.

Definition split_minus (t : list Z) : bool * list Z :=
  match t with c :: u => if c =? 45 then (true, u) else if c =? 43 then (false, u) else (false, t) | [] => (false, t) end.

(** What [atof] computes from the bytes of a string. *)
Definition parse_double (t : list Z) : double :=
  let '(neg, t) := split_minus (drop_while isspace t) in
  let v := fold_left add_digit (take_while isdigit t) (of_Z 0) in
  let u := drop_while isdigit t in
  fmul (if (neg : bool) then fopp (of_Z 1) else of_Z 1)
       (if hd 0 u =? 46 then fst (fold_left add_fraction (take_while isdigit (tl u)) (v, dec 1 10)) else v).

Lemma split_minus_ret m p t :
  cstr m p t -> exists q, cstr m q (snd (split_minus t)) /\
  (if hd 0 t =? 45 then (fopp (of_Z 1), p + 1) else if hd 0 t =? 43 then (of_Z 1, p + 1) else (of_Z 1, p)) =
  (if fst (split_minus t) then fopp (of_Z 1) else of_Z 1, q).
Proof.
  intros Ht. destruct t as [|c u]; [now exists p|]. pose proof (cstr_drop m p [c] u Ht) as Hu.
  cbn [hd split_minus]. destruct (c =? 45), (c =? 43); eauto.
Qed.

Lemma atof_ret m p t : mem_ok m -> cstr m p t -> atof p m = Ret (parse_double t) m.
Proof.
  intros Hm Ht. unfold atof, parse_double.
  erewrite bind_ret by (apply scan_fold_ret; [reflexivity|done|exact Ht]). cbv beta iota.
  rewrite <- (take_drop_while isspace t) in Ht. apply cstr_drop in Ht.
  set (p1 := p + Zlen (take_while isspace t)) in *. set (t1 := drop_while isspace t) in *.
  erewrite bind_ret by (eapply load8_hd; exact Ht).
  destruct (split_minus_ret m p1 t1 Ht) as (p2 & Ht2 & ->). destruct (split_minus t1) as [neg t2].
  cbn [fst snd] in *. cbv beta iota.
  erewrite bind_ret by (apply scan_fold_ret; [reflexivity|done|exact Ht2]). cbv beta iota.
  rewrite <- (take_drop_while isdigit t2) in Ht2. apply cstr_drop in Ht2.
  set (p3 := p2 + Zlen (take_while isdigit t2)) in *. set (u := drop_while isdigit t2) in *.
  erewrite bind_ret by (eapply load8_hd; exact Ht2). destruct (Z.eqb_spec (hd 0 u) 46) as [E|E].
  - destruct u as [|c u]; [done|]. cbn [hd tl] in *. subst c.
    apply (cstr_drop m p3 [46] u) in Ht2. change (Zlen [46]) with 1 in Ht2.
    rewrite bind_assoc. erewrite bind_ret by (apply scan_fold_ret; [reflexivity|done|exact Ht2]).
    destruct (fold_left add_fraction _ _) as [v f]. reflexivity.
  - reflexivity.
Qed.

(** The number the decimal digits [ds] stand for. *)
Definition decimal (ds : list Z) : Z := fold_left (fun v c => v * 10 + (c - 48)) ds 0.

Lemma decimal_fold ds : forall v w,
  Forall (fun c => isdigit c = true) ds -> is_int v w -> 0 <= w ->
  fold_left (fun v c => v * 10 + (c - 48)) ds w <= 2 ^ 53 ->
  is_int (fold_left add_digit ds v) (fold_left (fun v c => v * 10 + (c - 48)) ds w) /\
  w <= fold_left (fun v c => v * 10 + (c - 48)) ds w.
Proof.
  induction ds as [|c ds IH]; intros v w Hd Hv Hw Hb; [split; [done|simpl; lia]|].
  inversion_clear Hd as [|? ? Hc Hd']. unfold isdigit in Hc. cbn [fold_left] in *.
  assert (Hle : w * 10 + (c - 48) <= 2 ^ 53).
  { clear IH. revert Hb. generalize (w * 10 + (c - 48)) (ltac:(lia) : 0 <= w * 10 + (c - 48)).
    induction Hd' as [|x l Hx _ IHl]; intros z Hz Hb; [done|]. cbn [fold_left] in Hb.
    unfold isdigit in Hx. specialize (IHl _ (ltac:(lia) : 0 <= z * 10 + (x - 48)) Hb). lia. }
  destruct (IH (add_digit v c) (w * 10 + (c - 48)) Hd') as [H1 H2]; [|lia|done|].
  - apply fadd_int; [apply fmul_int; [done|apply of_Z_int, small_rep; lia|apply small_rep; lia]|
      apply of_Z_int, small_rep; lia|apply small_rep; lia].
  - split; [done|lia].
Qed.

(** [atof] computes the value the reference parser reads from the string:
    blanks, a sign, digits, a point and further digits, accumulated in double
    precision.  A number without a fraction of at most [2^53] is read exactly. *)
Theorem atof_correct m p t :
  mem_ok m -> cstr m p t ->
  atof p m = Ret (parse_double t) m /\
  (let '(neg, u) := split_minus (drop_while isspace t) in
   let n := decimal (take_while isdigit u) in
   hd 0 (drop_while isdigit u) <> 46 -> n <= 2 ^ 53 ->
   is_int (parse_double t) (if (neg : bool) then - n else n)).
Proof.
  intros Hm Ht. split; [now apply atof_ret|]. unfold parse_double.
  destruct (split_minus (drop_while isspace t)) as [neg u]. intros Hp Hn.
  destruct (Z.eqb_spec (hd 0 (drop_while isdigit u)) 46); [done|].
  pose proof (of_Z_int 0 (or_introl eq_refl)) as H0.
  destruct (decimal_fold _ (of_Z 0) 0 (take_while_Forall isdigit u) H0 (Z.le_refl 0) Hn) as [Hv Hge].
  fold (decimal (take_while isdigit u)) in Hv, Hge.
  pose proof (of_Z_int 1 (small_rep 1 ltac:(lia))) as H1.
  destruct neg.
  - replace (- decimal (take_while isdigit u)) with (- 1 * decimal (take_while isdigit u)) by lia.
    apply fmul_int; [exact (fopp_int (of_Z 1) 1 H1)|done|]. apply small_rep. lia.
  - rewrite <- (Z.mul_1_l (decimal (take_while isdigit u))) at 1.
    apply fmul_int; [done|done|]. apply small_rep. lia.
Qed.

(** ** Witnesses *)

(** -2.5 *)
Definition minus_five_halves : double := S754_finite true 5629499534213120 (-51).

Lemma floor_ceil_correct_witness :
  units (-51) minus_five_halves / 2 ^ 51 = -3 /\ - (- units (-51) minus_five_halves / 2 ^ 51) = -2 /\
  exists f g, floor minus_five_halves tt = Ret f tt /\ ceil minus_five_halves tt = Ret g tt /\
  is_int f (units (-51) minus_five_halves / 2 ^ 51) /\
  is_int g (- (- units (-51) minus_five_halves / 2 ^ 51)).
Proof.
  split; [reflexivity|]. split; [reflexivity|].
  destruct (floor_ceil_correct minus_five_halves (-51) tt) as [_ H]; [lia|].
  apply H; [reflexivity|]. split; [reflexivity|lia].
Defined.


Lemma sqrt_powers_witness :
  sqrt (pow2 (2 * 3)) = pow2 3 /\
  (forall x, fle x (of_Z 0) = true -> sqrt x = S754_zero false) /\
  sqrt (S754_infinity false) = S754_nan.
Proof. apply (sqrt_powers 3). lia. Defined.

Definition atof_demo : mem := page_with [(4100, bytes_of " -42 rest" ++ [0])].

Lemma atof_correct_witness :
  atof 4100 atof_demo = Ret (parse_double (bytes_of " -42 rest")) atof_demo /\
  (hd 0 (drop_while isdigit (bytes_of "42 rest")) <> 46 -> 42 <= 2 ^ 53 ->
   is_int (parse_double (bytes_of " -42 rest")) (- (42))).
Proof. apply (atof_correct atof_demo 4100 (bytes_of " -42 rest")); by_eval. Defined.
