(* ===== verification/Process.v ===== *)
(** * The process and its system calls

    The static state of [apps/doom/innigkeit_libc.c] and the wrappers of
    [apps/doom/syscalls.zig] that the C code calls.  The kernel is a parameter:
    [Kernel] gives, for each system call, its raw [isize] result and what it
    delivers to user memory; [KernelLaws] states what the kernel documents of
    the calls ([library/innigkeit/syscall.zig], [innigkeit_syscalls.h]). *)

From S2P Require Import Prelude Machine Memory.

(** ** The system-call interface *)

Record fb_info := FbInfo { fb_width : Z; fb_height : Z; fb_pitch : Z; fb_bpp : Z }.

Class Kernel := {
  kst : Type;
  (** [write] on fd 1 of the given bytes. *)
  sys_write : list Z -> kst -> Z * kst;
  (** [mmap] of a size with protection bits, in an address space with the given
      mapped ranges. *)
  sys_mmap : list (Z * Z) -> Z -> Z -> kst -> Z * kst;
  (** [framebuffer_map]: the description of the display and what its memory shows. *)
  sys_framebuffer_map : list (Z * Z) -> kst -> (Z * fb_info * list Z) * kst;
  sys_uptime_ms : kst -> Z * kst;
  (** [blk_read]: byte offset and buffer length; the bytes copied out. *)
  sys_blk_read : Z -> Z -> kst -> (Z * list Z) * kst;
  (** [initfs_read]: file name and buffer length; the bytes copied out. *)
  sys_initfs_read : list Z -> Z -> kst -> (Z * list Z) * kst;
  sys_kbd_read : Z -> kst -> (Z * list Z) * kst
}.

(** [mmap] rounds its size up to whole pages. *)
Definition page_round (n : Z) : Z := (n + 4095) / 4096 * 4096.

Class KernelLaws (K : Kernel) : Prop := {
  (** A successful [mmap] returns a page-aligned range of user addresses that
      no earlier mapping contains. *)
  mmap_fresh : forall rs n prot k a k',
    sys_mmap rs n prot k = (a, k') -> 0 < a ->
    0 < n /\ a mod 4096 = 0 /\ a + page_round n <= 2 ^ 47 /\
    (forall q, a <= q < a + page_round n -> existsb (in_region q) rs = false);
  (** A successful [framebuffer_map] returns such a range too, of the size of
      the display's memory, and 32-bit dimensions. *)
  framebuffer_fresh : forall rs k a i px k',
    sys_framebuffer_map rs k = ((a, i, px), k') -> 0 <= a ->
    0 < a /\ a + page_round (fb_pitch i * fb_height i) <= 2 ^ 47 /\
    (forall q, a <= q < a + page_round (fb_pitch i * fb_height i) -> existsb (in_region q) rs = false) /\
    Zlen px <= page_round (fb_pitch i * fb_height i) /\
    0 <= fb_width i < 2 ^ 32 /\ 0 <= fb_height i < 2 ^ 32 /\ 0 <= fb_pitch i < 2 ^ 32;
  (** A successful read delivers as many bytes as it reports, at most the
      buffer's length. *)
  blk_read_bytes : forall off n k r l k',
    sys_blk_read off n k = ((r, l), k') -> 0 <= r ->
    r = Zlen l /\ r <= n /\ Forall byte_ok l;
  initfs_read_bytes : forall name n k r l k',
    sys_initfs_read name n k = ((r, l), k') -> 0 <= r -> 0 < n ->
    r = Zlen l /\ r <= n /\ Forall byte_ok l;
  (** With a buffer length of zero only the size of the file is reported. *)
  initfs_stat : forall name k r l k',
    sys_initfs_read name 0 k = ((r, l), k') -> l = [];
  kbd_read_bytes : forall n k r l k',
    sys_kbd_read n k = ((r, l), k') -> 0 <= r ->
    r = Zlen l /\ r <= n /\ Forall byte_ok l
}.

(** What the kernel's devices hold, and how the calls relate to it: the text on
    the console, the data disk and the files of the initfs archive. *)
Class KernelData (K : Kernel) := {
  console : kst -> list Z;
  disk : kst -> list Z;
  initfs : kst -> list Z -> option (list Z);
  same_media (k k' : kst) : Prop :=
    disk k' = disk k /\ forall name, initfs k' name = initfs k name;
  (** [write] appends the bytes it takes, or nothing. *)
  write_console : forall l k r k',
    sys_write l k = (r, k') -> same_media k k' /\ r <= Zlen l /\
    console k' = console k ++ (if 0 <? r then take (Z.to_nat r) l else []);
  mmap_media : forall rs n prot k r k',
    sys_mmap rs n prot k = (r, k') -> same_media k k';
  (** [blk_read] delivers bytes of the disk at the offset. *)
  blk_read_disk : forall off n k r l k',
    sys_blk_read off n k = ((r, l), k') -> same_media k k' /\
    (0 <= r -> l = take (Z.to_nat r) (drop (Z.to_nat off) (disk k)));
  (** [initfs_read] fails on an unknown name; it reports the size when the
      buffer is empty and delivers the beginning of the file otherwise. *)
  initfs_read_file : forall name n k r l k',
    0 <= n -> sys_initfs_read name n k = ((r, l), k') -> same_media k k' /\
    match initfs k name with
    | None => r < 0
    | Some data => if n =? 0 then r = Zlen data
                   else l = take (Z.to_nat n) data /\ r = Zlen l
    end;
  (** Only [write] shows on the console. *)
  mmap_quiet : forall rs n prot k, console (sys_mmap rs n prot k).2 = console k;
  blk_quiet : forall off n k, console (sys_blk_read off n k).2 = console k
}.

(** [k'] differs from [k] neither in its media nor in its console. *)
Definition calm {K : Kernel} {D : KernelData K} (k k' : kst) : Prop := same_media k k' /\ console k' = console k.

(** ** The layout of the program image

    The addresses the linker and the compiler gave the static and local arrays
    of the C files, and their string literals. *)

Class Layout := {
  printf_buf : Z;
  errno_val : Z;
  lit : list Z -> Z;
  loc_ch : Z;
  loc_assert_buf : Z;
  loc_header : Z;
  loc_hdr12 : Z;
  loc_name : Z;
  loc_raw : Z
}.

(** ** The state of the process *)

Record heap := Heap { heap_base : Z; heap_used : Z; heap_cap : Z }.

Record MemFile := mkMemFile {
  f_data : Z;
  f_size : Z;
  f_pos : Z;
  f_in_use : bool;
  f_eof : bool
}.

Section proc.
Context {K : Kernel}.

Record proc := Proc {
  p_mem : mem;
  p_heap : heap;
  p_files : list MemFile;
  p_kst : kst
}.

Definition set_mem (m : mem) (s : proc) : proc := Proc m (p_heap s) (p_files s) (p_kst s).
Definition set_heap (h : heap) (s : proc) : proc := Proc (p_mem s) h (p_files s) (p_kst s).
Definition set_files (f : list MemFile) (s : proc) : proc := Proc (p_mem s) (p_heap s) f (p_kst s).
Definition set_kst (k : kst) (s : proc) : proc := Proc (p_mem s) (p_heap s) (p_files s) k.

Definition in_mem {A} (c : ST mem A) : ST proc A := zoom p_mem set_mem c.
Definition in_kernel {A} (c : ST kst A) : ST proc A := zoom p_kst set_kst c.

Definition get_heap : ST proc heap := fun s => Ret (p_heap s) s.
Definition put_heap (h : heap) : ST proc unit := fun s => Ret tt (set_heap h s).
Definition get_files : ST proc (list MemFile) := fun s => Ret (p_files s) s.
Definition put_files (f : list MemFile) : ST proc unit := fun s => Ret tt (set_files f s).

(** ** The wrappers of syscalls.zig *)

(** [Syscall.decode]: a negative result is an error. *)
Definition decode (r : Z) : option Z := if 0 <=? r then Some r else None.

(** [rawWrite]: repeat [write] until every byte is taken; [false] on an error
    or on a write of no byte. *)
Definition raw_write (l : list Z) : ST kst bool :=
  while (fun rest =>
           match rest with
           | [] => mret (inr true)
           | _ =>
               fun k =>
                 let '(r, k') := sys_write rest k in
                 match decode r with
                 | None => Ret (inr false) k'
                 | Some w =>
                     if w =? 0 then Ret (inr false) k'
                     else if w <=? Zlen rest then Ret (inl (drop (Z.to_nat w) rest)) k'
                     else Fault
                 end
           end) l.

(** [innigkeit_write] of the bytes [l]: [Writer.print] formats through a buffer
    of 4096 bytes and fails when the text does not fit. *)
Definition write_out (l : list Z) : ST proc Z :=
  if Zlen l =? 0 then mret 0
  else if 4096 <? Zlen l then mret (-5)
  else
    ok ← in_kernel (raw_write l);
    if (ok : bool) then mret (Zlen l) else mret (-5).

Definition innigkeit_write (buf len : Z) : ST proc Z :=
  if (buf =? 0) || (len =? 0) then mret 0
  else
    l ← in_mem (load_bytes buf len);
    write_out l.

Definition innigkeit_exit {A} (code : Z) : ST proc A := exit_with (u64 code).

Definition innigkeit_mmap (size : Z) : ST proc Z := fun s =>
  let '(r, k') := sys_mmap (regions (p_mem s)) size 3 (p_kst s) in
  match decode r with
  | None => Ret 0 (set_kst k' s)
  | Some addr =>
      if addr =? 0 then Ret 0 (set_kst k' s)
      else Ret addr (set_kst k' (set_mem (map_region (p_mem s) addr (page_round size)) s))
  end.

(** [innigkeit_framebuffer_map]: the pixel pointer and the [info] it fills, or
    [None] for a null pointer. *)
Definition innigkeit_framebuffer_map : ST proc (option (Z * fb_info)) := fun s =>
  let '((r, i, px), k') := sys_framebuffer_map (regions (p_mem s)) (p_kst s) in
  match decode r with
  | None => Ret None (set_kst k' s)
  | Some va =>
      if va =? 0 then Fault
      else
        let m := map_region (p_mem s) va (page_round (fb_pitch i * fb_height i)) in
        Ret (Some (va, i)) (set_kst k' (set_mem (poke_list m va px) s))
  end.

Definition innigkeit_uptime_ms : ST proc Z := fun s =>
  let '(r, k') := sys_uptime_ms (p_kst s) in Ret (u64 r) (set_kst k' s).

(** The result of a read whose bytes were copied to [buf]. *)
Definition deliver (buf : Z) (r : Z) (l : list Z) (err : Z) : ST proc Z :=
  match decode r with
  | None => mret err
  | Some got => in_mem (store_bytes buf l);; mret got
  end.

Definition innigkeit_blk_read (byte_offset buf len : Z) : ST proc Z := fun s =>
  let '((r, l), k') := sys_blk_read byte_offset len (p_kst s) in
  deliver buf r l (-1) (set_kst k' s).

(** The name's length must fit the 32-bit field of the request; the kernel
    copies the name from user memory. *)
Definition initfs_call (name : list Z) (buf buf_len : Z) : ST proc Z := fun s =>
  let '((r, l), k') := sys_initfs_read name buf_len (p_kst s) in
  deliver buf r l (-2) (set_kst k' s).

Definition innigkeit_initfs_read (name name_len buf buf_len : Z) : ST proc Z :=
  guard_c (name_len <? 2 ^ 32);;
  nm ← in_mem (load_bytes name name_len);
  initfs_call nm buf buf_len.

Definition innigkeit_kbd_read (buf len : Z) : ST proc Z := fun s =>
  let '((r, l), k') := sys_kbd_read len (p_kst s) in
  deliver buf r l 0 (set_kst k' s).

End proc.

(** ** Equations *)

Section equations.
Context {K : Kernel}.

Lemma in_mem_ret {A} (c : ST mem A) s a m' :
  c (p_mem s) = Ret a m' -> in_mem c s = Ret a (set_mem m' s).
Proof. intros H. unfold in_mem, zoom. now rewrite H. Qed.

Lemma in_mem_fault {A} (c : ST mem A) s : c (p_mem s) = Fault -> in_mem c s = Fault.
Proof. intros H. unfold in_mem, zoom. now rewrite H. Qed.

(** A computation that leaves memory as it is leaves the process as it is. *)
Lemma in_mem_read {A} (c : ST mem A) s a :
  c (p_mem s) = Ret a (p_mem s) -> in_mem c s = Ret a s.
Proof. intros H. erewrite in_mem_ret by exact H. now destruct s. Qed.

Lemma set_mem_id s : set_mem (p_mem s) s = s.
Proof. now destruct s. Qed.

End equations.
