(* ===== verification/TestKernel.v ===== *)
(** * A small kernel

    A concrete [Kernel] that meets [KernelLaws]: it maps memory after the last
    mapping, appends what is written to a console, advances its clock at every
    reading, and serves reads from a disk image, an initfs and a keyboard
    buffer.  The examples of the development run on it. *)

From S2P Require Import Prelude Machine Memory Process.

Record tk_state := TK {
  tk_console : list Z;
  tk_clock : Z;
  tk_disk : list Z;
  tk_initfs : list (list Z * list Z);
  tk_keys : list Z;
  tk_fb : option fb_info
}.

(** The first page after every mapping. *)
Definition first_free (rs : list (Z * Z)) : Z :=
  page_round (fold_right (fun r acc => Z.max (r.1 + r.2) acc) 65536 rs).

Definition tk_place (rs : list (Z * Z)) (n : Z) : Z :=
  if (0 <? n) && (first_free rs + page_round n <=? 2 ^ 47) then first_free rs else -12.

Fixpoint tk_find (name : list Z) (fs : list (list Z * list Z)) : option (list Z) :=
  match fs with
  | [] => None
  | (f, data) :: fs' => if bool_decide (f = name) then Some data else tk_find name fs'
  end.

(** The bytes of [l] from [off] on, at most [n], each reduced to a byte. *)
Definition tk_slice (l : list Z) (off n : Z) : list Z :=
  take (Z.to_nat n) (drop (Z.to_nat off) (u8 <$> l)).

(** The clock as it is read: from 0 up to 2^62, where it stops. *)
Definition tk_now (k : tk_state) : Z := Z.min (2 ^ 62) (Z.max 0 (tk_clock k)).

Definition tk_fb_ok (i : fb_info) : bool :=
  (0 <=? fb_width i) && (fb_width i <? 2 ^ 32) && (0 <=? fb_height i) && (fb_height i <? 2 ^ 32) &&
  (0 <=? fb_pitch i) && (fb_pitch i <? 2 ^ 32).

Definition tk_kernel : Kernel := {|
  kst := tk_state;
  sys_write l k := (Zlen l, TK (tk_console k ++ l) (tk_clock k) (tk_disk k) (tk_initfs k)
                              (tk_keys k) (tk_fb k));
  sys_mmap rs n _ k := (tk_place rs n, k);
  sys_framebuffer_map rs k :=
    match tk_fb k with
    | None => ((-19, FbInfo 0 0 0 0, []), k)
    | Some i => ((if tk_fb_ok i then tk_place rs (fb_pitch i * fb_height i) else -19, i, []), k)
    end;
  sys_uptime_ms k := (tk_now k, TK (tk_console k) (Z.max 0 (tk_clock k) + 1) (tk_disk k)
                                   (tk_initfs k) (tk_keys k) (tk_fb k));
  sys_blk_read off n k :=
    match tk_disk k with
    | [] => ((-19, []), k)
    | d => if n <? 0 then ((-22, []), k)
           else let l := tk_slice d off n in ((Zlen l, l), k)
    end;
  sys_initfs_read name n k :=
    match tk_find name (tk_initfs k) with
    | None => ((-2, []), k)
    | Some data => if n <=? 0 then ((Zlen data, []), k)
                   else let l := tk_slice data 0 n in ((Zlen l, l), k)
    end;
  sys_kbd_read n k :=
    if n <? 0 then ((-22, []), k)
    else let l := tk_slice (tk_keys k) 0 n in
      ((Zlen l, l), TK (tk_console k) (tk_clock k) (tk_disk k) (tk_initfs k)
                       (drop (Z.to_nat n) (tk_keys k)) (tk_fb k))
|}.

Lemma page_round_ge n : n <= page_round n.
Proof.
  unfold page_round. pose proof (Z.div_mod (n + 4095) 4096 ltac:(lia)).
  pose proof (Z.mod_pos_bound (n + 4095) 4096 ltac:(lia)). lia.
Qed.

Lemma first_free_above rs r : In r rs -> r.1 + r.2 <= first_free rs.
Proof.
  intros H. unfold first_free. etrans; [|apply page_round_ge].
  induction rs as [|r' rs IH]; [done|]. simpl in *. destruct H as [->|H]; [lia|].
  specialize (IH H). lia.
Qed.

Lemma tk_slice_bytes l off n :
  0 <= n -> Zlen (tk_slice l off n) <= n /\ Forall byte_ok (tk_slice l off n).
Proof.
  intros Hn. unfold tk_slice, Zlen. rewrite length_take. split; [lia|].
  apply Forall_take, Forall_drop, Forall_fmap, Forall_true. intros x. apply u8_range.
Qed.

Lemma tk_place_fresh rs n :
  0 <= tk_place rs n ->
  0 < n /\ 0 < tk_place rs n /\ tk_place rs n mod 4096 = 0 /\ tk_place rs n + page_round n <= 2 ^ 47 /\
  (forall q, tk_place rs n <= q < tk_place rs n + page_round n -> existsb (in_region q) rs = false).
Proof.
  unfold tk_place. intros Ha.
  destruct ((0 <? n) && (first_free rs + page_round n <=? 2 ^ 47)) eqn:E; [|lia].
  apply andb_prop in E as [E1 E2]. split; [lia|].
  assert (H0 : 65536 <= first_free rs).
  { unfold first_free. etrans; [|apply page_round_ge]. clear. induction rs; simpl; lia. }
  split; [lia|]. split; [|split; [lia|]].
  - unfold first_free, page_round. apply Z.mod_mul. lia.
  - intros q Hq. apply not_true_is_false. rewrite existsb_exists.
    intros (r & Hr & Hin). apply first_free_above in Hr.
    unfold in_region, fst, snd in *. destruct r. simpl in *. lia.
Qed.

#[export] Instance tk_laws : KernelLaws tk_kernel.
Proof.
  split.
  - intros rs n prot k a k' [= <- _] Ha. destruct (tk_place_fresh rs n) as (? & ? & ? & ? & ?); [lia|done].
  - intros rs k a i px k' E Ha. simpl in E. destruct (tk_fb k) as [j|]; [|injection E; lia].
    destruct (tk_fb_ok j) eqn:Ej; [|injection E; lia]. injection E as <- <- <- <-.
    destruct (tk_place_fresh _ _ Ha) as (? & ? & ? & ? & ?). unfold tk_fb_ok in Ej.
    repeat apply andb_prop in Ej as [Ej ?]. pose proof (page_round_ge (fb_pitch j * fb_height j)).
    change (Zlen (@nil Z)) with 0. repeat split; first [done|lia].
  - intros off n k r l k' E Hr. simpl in E. destruct (tk_disk k) as [|d ds]; [injection E; lia|].
    destruct (Z.ltb_spec n 0); [injection E; lia|]. injection E as <- <- <-.
    split; [done|]. now apply tk_slice_bytes.
  - intros name n k r l k' E Hr Hn. simpl in E. destruct (tk_find _ _); [|injection E; lia].
    destruct (Z.leb_spec n 0); [lia|]. injection E as <- <- <-.
    split; [done|]. apply tk_slice_bytes. lia.
  - intros name k r l k' E. simpl in E. now destruct (tk_find _ _); injection E as _ <- _.
  - intros n k r l k' E Hr. simpl in E.
    destruct (Z.ltb_spec n 0); [injection E; lia|]. injection E as <- <- <-.
    split; [done|]. now apply tk_slice_bytes.
Qed.

#[export] Instance tk_data : KernelData tk_kernel.
Proof.
  refine {| console := tk_console : @kst tk_kernel -> _;
            disk := fun k : @kst tk_kernel => u8 <$> tk_disk k;
            initfs := fun (k : @kst tk_kernel) name => option_map (fmap u8) (tk_find name (tk_initfs k)) |}.
  - intros l k r k' [= <- <-]. split; [now split|]. split; [lia|]. simpl.
    destruct (Z.ltb_spec 0 (Zlen l)).
    + now rewrite take_ge by (unfold Zlen; lia).
    + destruct l; [done|]. rewrite Zlen_cons in *. pose proof (Zlen_nonneg l). lia.
  - now intros rs n prot k r k' [= _ <-].
  - intros off n k r l k' E. simpl in E. destruct (tk_disk k) as [|x xs] eqn:Ed.
    { injection E as <- <- <-. split; [split; [now rewrite ?Ed|done]|]. lia. }
    destruct (Z.ltb_spec n 0); injection E as <- <- <-; (split; [split; [now rewrite ?Ed|done]|]); [lia|].
    intros _. unfold tk_slice. set (d := drop _ _).
    unfold Zlen. rewrite Nat2Z.id, length_take.
    destruct (Nat.le_ge_cases (Z.to_nat n) (length d)).
    + now rewrite Nat.min_l by lia.
    + now rewrite Nat.min_r, !take_ge by lia.
  - intros name n k r l k' Hn E. simpl in E. destruct (tk_find name (tk_initfs k)) as [d|]; simpl.
    2: { injection E as <- <- <-. split; [now split|]. lia. }
    destruct (Z.leb_spec n 0).
    + injection E as <- <- <-. split; [now split|]. case_bool; [|lia].
      unfold Zlen. now rewrite length_fmap.
    + injection E as <- <- <-. split; [now split|]. case_bool; [lia|]. unfold tk_slice. now rewrite drop_0.
  - done.
  - intros off n k. simpl. destruct (tk_disk k); [done|]. now destruct (n <? 0).
Defined.

(** ** A program image

    The string literals of the C files lie 128 bytes apart from 8192 on, the
    static and local arrays behind them. *)

Definition nl (s : string) : list Z := bytes_of s ++ [10].

Definition tk_literals : list (list Z) :=
  [[10]; nl "abort()"; nl "assert failed: %s at %s:%u (%s)";
   nl "doom: loaded WAD from disk: %zu bytes (%u lumps)";
   bytes_of "doom: WAD magic=[%.4s] first lumps:"; bytes_of " [%.8s]";
   bytes_of "TEXTURE1"; bytes_of "TEXTURE2"; bytes_of "YES"; bytes_of "NO";
   nl "doom: TEXTURE1 in raw WAD: %s  TEXTURE2: %s";
   bytes_of "/doom1.wad"; bytes_of "doom1.wad";
   nl "DG_Init: no framebuffer"; nl "DG_Init: framebuffer %ux%u stride=%u"].

Fixpoint tk_lit_from (a : Z) (ls : list (list Z)) (t : list Z) : Z :=
  match ls with
  | [] => 0
  | l :: ls' => if bool_decide (l = t) then a else tk_lit_from (a + 128) ls' t
  end.

#[export] Instance tk_layout : Layout := {|
  printf_buf := 16384;
  errno_val := 20480;
  lit := tk_lit_from 8192 tk_literals;
  loc_ch := 20496;
  loc_assert_buf := 20736;
  loc_header := 21008;
  loc_hdr12 := 21040;
  loc_name := 21072;
  loc_raw := 21104
|}.

(** The image with further bytes at the given addresses. *)
Definition tk_image (extra : list (Z * list Z)) : mem :=
  fold_left (fun m pl => poke_list m pl.1 pl.2)
    (((fun t => (lit t, t ++ [0])) <$> tk_literals) ++ extra) (Mem [(4096, 49152)] ∅).

(** A process with the given memory, an unmapped heap and no open file. *)
Definition tk_proc (m : mem) (k : tk_state) : @proc tk_kernel :=
  @Proc tk_kernel m (Heap 0 0 0) (replicate 16 (mkMemFile 0 0 0 false false)) k.

Definition tk_idle : tk_state := TK [] 0 [] [] [] None.
