(* ===== verification/HeapAlloc.v ===== *)
(** * The heap

    [malloc], [free], [calloc] and [realloc] of [apps/doom/innigkeit_libc.c],
    and [strdup] and [strndup], which allocate.
    A bump allocator over one 64 MiB mapping; a request that does not fit gets
    a mapping of its own.  Every block starts with an 8-byte header that holds
    its size, and [free] does nothing, so blocks are never reused. *)

From S2P Require Import Prelude Machine Memory CString Process TestKernel.

#[local] Arguments poke_list : simpl never.

(** ** Operations *)

Definition HEAP_SIZE : Z := 64 * 1024 * 1024.
Definition PAGE_SIZE : Z := 4096.
Definition ALIGN_UP (x a : Z) : Z := Z.land (u64 (x + a - 1)) (u64 (Z.lnot (a - 1))).

Section heap.
Context {K : Kernel}.

Definition heap_init : ST proc unit :=
  h ← get_heap;
  if negb (heap_base h =? 0) then mret tt
  else
    base ← innigkeit_mmap HEAP_SIZE;
    put_heap (Heap base 0 (if base =? 0 then 0 else HEAP_SIZE)).

Definition malloc (size : Z) : ST proc Z :=
  heap_init;;
  let size := ALIGN_UP (u64 (size + 8)) 16 in
  h ← get_heap;
  if heap_cap h <? u64 (heap_used h + size) then
    let pages := ALIGN_UP (u64 (size + 8)) PAGE_SIZE in
    p ← innigkeit_mmap pages;
    if p =? 0 then mret 0
    else (in_mem (store64 p pages);; mret (p + 8))
  else
    let p := heap_base h + heap_used h in
    in_mem (store64 p size);;
    put_heap (Heap (heap_base h) (u64 (heap_used h + size)) (heap_cap h));;
    mret (p + 8).

Definition free (ptr : Z) : ST proc unit := mret tt.

Definition calloc (nmemb size : Z) : ST proc Z := malloc (u64 (nmemb * size)).

Definition realloc (old_ptr new_size : Z) : ST proc Z :=
  p ← malloc new_size;
  if negb (old_ptr =? 0) && negb (p =? 0) then
    old_size ← in_mem (load64 (old_ptr - 8));
    let copy := if old_size <? new_size then old_size else new_size in
    in_mem (memcpy p old_ptr copy);;
    mret p
  else mret p.

Definition strdup (s : Z) : ST proc Z :=
  len ← in_mem (strlen s);
  let n := u64 (len + 1) in
  p ← malloc n;
  if negb (p =? 0) then (in_mem (memcpy p s n);; mret p) else mret p.

Definition strndup (s n : Z) : ST proc Z :=
  len ← in_mem (strlen s);
  let len := if n <? len then n else len in
  p ← malloc (u64 (len + 1));
  if negb (p =? 0) then
    (in_mem (memcpy p s len);; in_mem (store8 (p + len) 0);; mret p)
  else mret p.

End heap.

(** ** Alignment *)

Lemma ALIGN_UP_pow2 x k :
  0 <= k <= 32 -> 0 <= x -> x + 2 ^ k <= 2 ^ 64 ->
  ALIGN_UP x (2 ^ k) = (x + 2 ^ k - 1) / 2 ^ k * 2 ^ k.
Proof.
  intros Hk Hx Hb. assert (0 < 2 ^ k) by (apply Z.pow_pos_nonneg; lia).
  unfold ALIGN_UP. rewrite (u64_id (x + 2 ^ k - 1)) by lia.
  replace (Z.lnot (2 ^ k - 1)) with (- 2 ^ k) by (unfold Z.lnot; lia).
  rewrite land_mask_down by lia.
  pose proof (Z.div_mod (x + 2 ^ k - 1) (2 ^ k) ltac:(lia)). lia.
Qed.

Lemma align_16 x :
  0 <= x -> x + 16 <= 2 ^ 64 ->
  x <= ALIGN_UP x 16 < x + 16 /\ ALIGN_UP x 16 mod 16 = 0.
Proof.
  intros. pose proof (ALIGN_UP_pow2 x 4 ltac:(lia) ltac:(lia) ltac:(lia)) as E.
  change (2 ^ 4) with 16 in E. rewrite E.
  pose proof (Z.div_mod (x + 16 - 1) 16 ltac:(lia)).
  pose proof (Z.mod_pos_bound (x + 16 - 1) 16 ltac:(lia)).
  rewrite Z.mod_mul by lia. lia.
Qed.

Lemma align_page x :
  0 <= x -> x + 4096 <= 2 ^ 64 -> ALIGN_UP x PAGE_SIZE = page_round x.
Proof.
  intros. pose proof (ALIGN_UP_pow2 x 12 ltac:(lia) ltac:(lia) ltac:(lia)) as E.
  change (2 ^ 12) with 4096 in E. unfold PAGE_SIZE, page_round. rewrite E. do 2 f_equal. lia.
Qed.

Lemma page_round_range n : 0 <= n -> n <= page_round n < n + 4096.
Proof.
  intros. unfold page_round. pose proof (Z.div_mod (n + 4095) 4096 ltac:(lia)).
  pose proof (Z.mod_pos_bound (n + 4095) 4096 ltac:(lia)). lia.
Qed.

Lemma page_round_idem n : page_round (page_round n) = page_round n.
Proof.
  unfold page_round at 1. unfold page_round.
  rewrite Z.div_add_l by lia. change (4095 / 4096) with 0. now rewrite Z.add_0_r.
Qed.

(** ** The heap invariant *)

Section correctness.
Context {K : Kernel} {KL : KernelLaws K}.

(** The part of the arena that no block has been carved from. *)
Definition in_free_arena (s : proc) (a : Z) : Prop :=
  heap_base (p_heap s) + heap_used (p_heap s) <= a < heap_base (p_heap s) + heap_cap (p_heap s).

(** An address the program may be using: mapped and not in the free arena. *)
Definition in_use (s : proc) (a : Z) : Prop :=
  is_mapped (p_mem s) a = true /\ ~ in_free_arena s a.

(** Either the arena has not been mapped yet, or it is a page-aligned mapping of
    [HEAP_SIZE] bytes, carved in multiples of 16, whose free part is zero. *)
Definition arena_ok (m : mem) (h : heap) : Prop :=
  heap_base h = 0 /\ heap_used h = 0 /\ heap_cap h = 0 \/
  0 < heap_base h /\ heap_base h mod 4096 = 0 /\ heap_cap h = HEAP_SIZE /\
  0 <= heap_used h <= HEAP_SIZE /\ heap_used h mod 16 = 0 /\
  mapped_range m (heap_base h) HEAP_SIZE /\
  (forall a, heap_base h + heap_used h <= a < heap_base h + HEAP_SIZE -> peek m a = Some 0).

Definition heap_ok (s : proc) : Prop := mem_ok (p_mem s) /\ arena_ok (p_mem s) (p_heap s).

(** What an allocator step may do to the addresses in use. *)
Definition preserves_in_use (s s' : proc) : Prop :=
  forall a, in_use s a -> in_use s' a /\ peek (p_mem s') a = peek (p_mem s) a.

Lemma preserves_in_use_refl s : preserves_in_use s s.
Proof. intros a H. auto. Qed.

Lemma preserves_in_use_trans s1 s2 s3 :
  preserves_in_use s1 s2 -> preserves_in_use s2 s3 -> preserves_in_use s1 s3.
Proof.
  intros H12 H23 a Ha. destruct (H12 a Ha) as [H2 E2]. destruct (H23 a H2) as [H3 E3].
  split; [done|congruence].
Qed.

(** A mapping the kernel returned: fresh, page-aligned and zero. *)
Lemma mmap_ret s n :
  mem_ok (p_mem s) ->
  exists a k', innigkeit_mmap n s =
    Ret a (set_kst k' (if a =? 0 then s
                       else set_mem (map_region (p_mem s) a (page_round n)) s)) /\
  (a = 0 \/
   0 < a /\ 0 < n /\ a mod 4096 = 0 /\ a + page_round n <= 2 ^ 47 /\
   (forall q, a <= q < a + page_round n -> is_mapped (p_mem s) q = false)).
Proof.
  intros Hm. unfold innigkeit_mmap.
  destruct (sys_mmap (regions (p_mem s)) n 3 (p_kst s)) as [r k'] eqn:E.
  unfold decode. destruct (Z.leb_spec 0 r).
  - exists r, k'. destruct (Z.eqb_spec r 0) as [->|]; [auto|]. split; [done|]. right.
    destruct (mmap_fresh _ _ _ _ _ _ E ltac:(lia)) as (H1 & H2 & H3 & H4).
    repeat split; try done; lia.
  - exists 0, k'. auto.
Qed.

(** Adding a fresh mapping keeps the invariant and what is in use. *)
Lemma heap_ok_map s k' a n :
  heap_ok s -> 0 < a -> a + n <= 2 ^ 47 ->
  (forall q, a <= q < a + n -> is_mapped (p_mem s) q = false) ->
  let s' := set_kst k' (set_mem (map_region (p_mem s) a n) s) in
  heap_ok s' /\ preserves_in_use s s'.
Proof.
  intros [Hm Ha] Ha0 Hn Hf s'. split; [split|].
  - apply mem_ok_map_region; [done|done|lia].
  - destruct Ha as [Ha|(B1 & B2 & B3 & B4 & B5 & B6 & B7)]; [now left|right].
    repeat (split; [done|]). split.
    + intros q Hq. simpl. rewrite is_mapped_map_region, B6 by done. apply orb_true_r.
    + intros q Hq. simpl. rewrite peek_map_region_old; auto. apply B6. simpl in Hq. lia.
  - intros q [Hq Hnf]. split; [split; [|exact Hnf]|].
    + simpl. rewrite is_mapped_map_region, Hq. apply orb_true_r.
    + now apply peek_map_region_old.
Qed.

Lemma heap_init_ret s :
  heap_ok s ->
  exists s', heap_init s = Ret tt s' /\ heap_ok s' /\ preserves_in_use s s' /\
             p_files s' = p_files s /\
             (heap_base (p_heap s) <> 0 -> s' = s).
Proof.
  intros Hs. unfold heap_init, get_heap. erewrite bind_ret by reflexivity.
  destruct (Z.eqb_spec (heap_base (p_heap s)) 0) as [Hb|Hb]; simpl.
  2: { exists s. split; [done|]. split; [done|].
       split; [apply preserves_in_use_refl|done]. }
  destruct (mmap_ret s HEAP_SIZE (proj1 Hs)) as (a & k' & Hmap & Ha).
  erewrite bind_ret by exact Hmap. unfold put_heap.
  eexists. split; [reflexivity|]. split; [|split; [|split; [|done]]].
  - destruct Ha as [->|(Ha & _ & Hal & Hhi & Hf)].
    + split; [apply Hs|]. now left.
    + destruct (Z.eqb_spec a 0); [lia|].
      change (page_round HEAP_SIZE) with HEAP_SIZE in *. split; simpl.
      * apply mem_ok_map_region; [apply Hs|done|lia].
      * right. simpl. split; [done|]. split; [done|]. split; [done|].
        split; [unfold HEAP_SIZE; lia|]. split; [done|]. split.
        -- apply mapped_map_region.
        -- intros q Hq. apply peek_map_region_new; [apply Hs|done|lia].
  - intros q Hq. destruct Ha as [->|(Ha & _ & Hal & Hhi & Hf)].
    + split; [|done]. destruct Hq as [Hq1 Hq2]. split; [done|].
      unfold in_free_arena. simpl. lia.
    + destruct (Z.eqb_spec a 0); [lia|].
      change (page_round HEAP_SIZE) with HEAP_SIZE in *. destruct Hq as [Hq1 Hq2].
      split; [split|]; simpl.
      * rewrite is_mapped_map_region, Hq1. apply orb_true_r.
      * unfold in_free_arena. simpl. intros Hin. rewrite Hf in Hq1 by lia. done.
      * now apply peek_map_region_old.
  - now destruct (a =? 0).
Qed.

(** ** Allocation *)

(** The payload [[r, r+size)] and the header before it were not in use, are
    now, read as zero, and the header holds the size of the block. *)
Definition fresh_block (s s' : proc) (r size : Z) : Prop :=
  (forall a, r - 8 <= a < r + size -> ~ in_use s a /\ in_use s' a) /\
  (forall a, r <= a < r + size -> peek (p_mem s') a = Some 0) /\
  8 < r /\ r mod 16 = 8 /\
  exists bs, word64_at (p_mem s') (r - 8) bs /\ size + 8 <= bs < 2 ^ 64.

Lemma fresh_block_weaken s0 s s' r size :
  preserves_in_use s0 s -> fresh_block s s' r size -> fresh_block s0 s' r size.
Proof.
  intros Hp (H1 & H2). split; [|done]. intros a Ha. destruct (H1 a Ha) as [Hn Hu].
  split; [|done]. intros H. apply Hn, (Hp a H).
Qed.

Lemma le_encode_Zlen v : Zlen (le_encode 8 v) = 8.
Proof. unfold Zlen. now rewrite le_encode_length. Qed.

(** Writing outside the free arena. *)
Lemma heap_ok_store s p l :
  heap_ok s -> mapped_range (p_mem s) p (Zlen l) ->
  (forall a, p <= a < p + Zlen l -> ~ in_free_arena s a) ->
  heap_ok (set_mem (poke_list (p_mem s) p l) s).
Proof.
  intros [Hm Ha] Hr Hout. split; simpl.
  - now apply mem_ok_poke_list.
  - destruct Ha as [Ha|(B1 & B2 & B3 & B4 & B5 & B6 & B7)]; [now left|right].
    do 5 (split; [done|]). split; [auto with cmem|]. intros a Ha.
    rewrite peek_poke_list_out; [auto|].
    destruct (Z_lt_le_dec a p); [lia|]. destruct (Z_lt_le_dec a (p + Zlen l)); [|lia].
    exfalso. apply (Hout a); [lia|]. unfold in_free_arena. rewrite B3. exact Ha.
Qed.

(** A store into a block that was not in use before keeps what was. *)
Lemma preserves_in_use_store s0 s p l :
  preserves_in_use s0 s -> (forall a, p <= a < p + Zlen l -> ~ in_use s0 a) ->
  preserves_in_use s0 (set_mem (poke_list (p_mem s) p l) s).
Proof.
  intros Hp Hn a Ha. destruct (Hp a Ha) as [[Hu Hf] E]. split; [split|].
  - simpl. now rewrite is_mapped_poke_list.
  - exact Hf.
  - simpl. rewrite peek_poke_list_out; [done|]. destruct (Z_lt_le_dec a p); [lia|].
    destruct (Z_lt_le_dec a (p + Zlen l)); [|lia]. exfalso. apply (Hn a); [lia|done].
Qed.

(** The path that carves a block from the arena. *)
Lemma malloc_arena s h sz size :
  heap_ok s -> h = p_heap s -> heap_base h <> 0 ->
  0 <= size -> size + 8 <= sz -> sz mod 16 = 0 -> heap_used h + sz <= HEAP_SIZE ->
  let p := heap_base h + heap_used h in
  let s' := set_heap (Heap (heap_base h) (heap_used h + sz) (heap_cap h))
              (set_mem (poke_list (p_mem s) p (le_encode 8 sz)) s) in
  mapped_range (p_mem s) p 8 /\ heap_ok s' /\ preserves_in_use s s' /\
  fresh_block s s' (p + 8) size.
Proof.
  intros [Hm Ha] -> Hb Hsz Hs8 Hal Hfit p s'.
  assert (Ep : p = heap_base (p_heap s) + heap_used (p_heap s)) by done. clearbody p.
  destruct Ha as [Ha|(B1 & B2 & B3 & B4 & B5 & B6 & B7)]; [tauto|].
  assert (Hr : mapped_range (p_mem s) p 8).
  { intros q Hq. apply B6. lia. }
  assert (Hout : forall a, a < p \/ p + 8 <= a ->
            peek (p_mem s') a = peek (p_mem s) a).
  { intros a Ha. apply peek_poke_list_out. rewrite le_encode_Zlen. lia. }
  unfold HEAP_SIZE in *. split; [done|]. split; [split; simpl|split].
  - apply mem_ok_poke_list; [done|]. now rewrite le_encode_Zlen.
  - right. unfold HEAP_SIZE. simpl. split; [done|]. split; [done|]. split; [done|]. split; [lia|].
    split; [rewrite Z.add_mod, B5, Hal by lia; done|].
    split; [auto with cmem|]. intros a Hq. rewrite Hout by lia. apply B7. lia.
  - intros a [Hu Hnf]. unfold in_free_arena in Hnf. rewrite B3 in Hnf.
    split; [split|].
    + simpl. now rewrite is_mapped_poke_list.
    + unfold in_free_arena. simpl. lia.
    + apply Hout. lia.
  - split; [|split; [|split; [|split]]].
    + intros a Hq. split.
      * intros [_ Hnf]. apply Hnf. unfold in_free_arena. rewrite B3. lia.
      * split; [simpl; rewrite is_mapped_poke_list; apply B6; lia|].
        unfold in_free_arena. simpl. lia.
    + intros a Hq. rewrite Hout by lia. apply B7. lia.
    + lia.
    + rewrite Ep, <- Z.add_assoc, Z.add_mod, (Z.add_mod (heap_used _)) by lia.
      rewrite B5. replace (heap_base (p_heap s) mod 16) with 0; [done|].
      rewrite <- (Z.mod_mod_divide _ 4096 16) by (now exists 256). now rewrite B2.
    + exists sz. replace (p + 8 - 8) with p by lia. split; [now apply word64_at_store|].
      simpl. lia.
Qed.

(** The path that maps a region for the block alone. *)
Lemma malloc_mapped s k' p n size v :
  heap_ok s -> 0 <= size -> size + 16 <= n -> 0 < p -> p mod 4096 = 0 ->
  p + n <= 2 ^ 47 -> size + 8 <= v < 2 ^ 64 ->
  (forall q, p <= q < p + n -> is_mapped (p_mem s) q = false) ->
  let s1 := set_kst k' (set_mem (map_region (p_mem s) p n) s) in
  let s' := set_mem (poke_list (p_mem s1) p (le_encode 8 v)) s1 in
  mapped_range (p_mem s1) p 8 /\ heap_ok s' /\ preserves_in_use s s' /\
  fresh_block s s' (p + 8) size.
Proof.
  intros Hs Hsz Hn Hp Hal Hhi Hv Hf s1 s'.
  destruct (heap_ok_map s k' p n Hs Hp Hhi Hf) as [Hs1 Hp1]. fold s1 in Hs1, Hp1.
  assert (Hr : mapped_range (p_mem s1) p n) by apply mapped_map_region.
  assert (Hnf : forall a, p <= a < p + n -> ~ in_free_arena s1 a).
  { intros a Ha Hin. destruct (proj2 Hs) as [(E1 & E2 & E3)|(B1 & B2 & B3 & B4 & _ & B6 & _)];
      unfold in_free_arena in Hin; simpl in Hin; [lia|].
    specialize (B6 a ltac:(unfold HEAP_SIZE in *; lia)). rewrite Hf in B6 by lia. done. }
  assert (Hr8 : mapped_range (p_mem s1) p 8) by (eapply mapped_range_sub; [exact Hr|lia|lia]).
  assert (Hout : forall a, a < p \/ p + 8 <= a -> peek (p_mem s') a = peek (p_mem s1) a).
  { intros a Ha. apply peek_poke_list_out. rewrite le_encode_Zlen. lia. }
  split; [done|]. split; [apply heap_ok_store; rewrite ?le_encode_Zlen; [done|done|intros; apply Hnf; lia]|].
  assert (Hnew : forall a, p <= a < p + n -> ~ in_use s a).
  { intros a Ha [Hu _]. rewrite Hf in Hu by lia. done. }
  split.
  - intros a Ha. destruct (Hp1 a Ha) as [[Hu Hnf1] E]. split; [split|].
    + simpl. now rewrite is_mapped_poke_list.
    + exact Hnf1.
    + rewrite Hout; [done|]. destruct (Z_lt_le_dec a p); [lia|].
      destruct (Z_lt_le_dec a (p + 8)); [|lia]. exfalso. apply (Hnew a); [lia|done].
  - split; [|split; [|split; [|split]]].
    + intros a Ha. split; [apply Hnew; lia|]. split; [|apply Hnf; lia].
      simpl. rewrite is_mapped_poke_list. apply Hr. lia.
    + intros a Ha. rewrite Hout by lia. apply peek_map_region_new; [apply Hs|done|lia].
    + lia.
    + rewrite Z.add_mod by lia. replace (p mod 16) with 0; [done|].
      rewrite <- (Z.mod_mod_divide _ 4096 16) by (now exists 256). now rewrite Hal.
    + exists v. replace (p + 8 - 8) with p by lia. split; [now apply word64_at_store|done].
Qed.

Lemma malloc_ret s size :
  heap_ok s -> 0 <= size < 2 ^ 63 ->
  exists r s', malloc size s = Ret r s' /\ heap_ok s' /\ preserves_in_use s s' /\
               p_files s' = p_files s /\ (r = 0 \/ fresh_block s s' r size).
Proof.
  intros Hs Hsize. unfold malloc.
  destruct (heap_init_ret s Hs) as (s1 & Hi & Hs1 & Hp1 & Hf1 & _).
  erewrite bind_ret by exact Hi. unfold get_heap. erewrite bind_ret by reflexivity.
  rewrite (u64_id (size + 8)) by lia.
  destruct (align_16 (size + 8) ltac:(lia) ltac:(lia)) as [Hsz Hal].
  set (sz := ALIGN_UP (size + 8) 16) in *.
  assert (Hused : 0 <= heap_used (p_heap s1) <= HEAP_SIZE /\ heap_cap (p_heap s1) <= HEAP_SIZE).
  { destruct (proj2 Hs1) as [(E1 & E2 & E3)|(B1 & B2 & B3 & B4 & _)]; unfold HEAP_SIZE in *; lia. }
  unfold HEAP_SIZE in Hused. rewrite (u64_id (heap_used (p_heap s1) + sz)) by lia.
  destruct (Z.ltb_spec (heap_cap (p_heap s1)) (heap_used (p_heap s1) + sz)) as [Hbig|Hfits].
  - rewrite (u64_id (sz + 8)), align_page by lia.
    pose proof (page_round_range (sz + 8) ltac:(lia)).
    destruct (mmap_ret s1 (page_round (sz + 8)) (proj1 Hs1)) as (a & k' & Hmap & Ha).
    erewrite bind_ret by exact Hmap.
    destruct Ha as [->|(Ha & _ & Hal' & Hhi & Hf)]; simpl.
    + exists 0. eexists. split; [reflexivity|]. split; [exact Hs1|].
      split; [exact Hp1|]. split; [done|]. now left.
    + destruct (Z.eqb_spec a 0); [lia|]. rewrite page_round_idem in *.
      destruct (malloc_mapped s1 k' a (page_round (sz + 8)) size (page_round (sz + 8))
                  Hs1 ltac:(lia) ltac:(lia) Ha Hal' Hhi ltac:(lia) Hf) as (Hr & Hok & Hpr & Hfb).
      exists (a + 8). eexists. split.
      { erewrite bind_ret by (apply in_mem_ret, store64_ret, Hr). reflexivity. }
      split; [exact Hok|]. split; [eapply preserves_in_use_trans; eassumption|].
      split; [done|]. right. eapply fresh_block_weaken; eassumption.
  - assert (Hb : heap_base (p_heap s1) <> 0).
    { destruct (proj2 Hs1) as [(E1 & E2 & E3)|(B1 & _)]; lia. }
    assert (Hcap : heap_cap (p_heap s1) = HEAP_SIZE).
    { destruct (proj2 Hs1) as [(E1 & E2 & E3)|(B1 & B2 & B3 & _)]; [lia|done]. }
    rewrite Hcap in Hfits.
    destruct (malloc_arena s1 (p_heap s1) sz size Hs1 eq_refl Hb ltac:(lia) ltac:(lia)
                Hal Hfits) as (Hr & Hok & Hpr & Hfb).
    exists (heap_base (p_heap s1) + heap_used (p_heap s1) + 8). eexists. split.
    { erewrite bind_ret by (apply in_mem_ret, store64_ret, Hr).
      unfold put_heap. erewrite bind_ret by reflexivity. reflexivity. }
    split; [exact Hok|]. split; [eapply preserves_in_use_trans; eassumption|].
    split; [done|]. right. eapply fresh_block_weaken; eassumption.
Qed.

(** The kernel turned down a request for memory. *)
Definition mmap_refused : Prop := exists rs n k, (sys_mmap rs n 3 k).1 <= 0.

Lemma malloc_null s size s' :
  heap_ok s -> 0 <= size < 2 ^ 63 -> malloc size s = Ret 0 s' -> mmap_refused.
Proof.
  intros Hs Hsize. unfold malloc.
  destruct (heap_init_ret s Hs) as (s1 & Hi & Hs1 & _).
  erewrite bind_ret by exact Hi. unfold get_heap. erewrite bind_ret by reflexivity.
  assert (Hp : 0 <= heap_base (p_heap s1) + heap_used (p_heap s1)).
  { destruct (proj2 Hs1) as [(E1 & E2 & E3)|(B1 & B2 & B3 & B4 & _)]; lia. }
  destruct (heap_cap (p_heap s1) <? _).
  - unfold innigkeit_mmap, mbind, ST_bind.
    destruct (sys_mmap _ _ _ _) as [a k'] eqn:E. unfold decode.
    assert (Hr : a <= 0 -> mmap_refused) by (intros Ha; do 3 eexists; now rewrite E).
    destruct (Z.leb_spec 0 a); [|intros _; apply Hr; lia].
    destruct (Z.eqb_spec a 0); [intros _; apply Hr; lia|]. destruct (Z.eqb_spec a 0); [done|].
    destruct (in_mem _ _); [|done..]. intros [= Ez _]. lia.
  - unfold mbind, ST_bind. destruct (in_mem _ _); [|done..]. intros [= Ez _]. lia.
Qed.

(** ** Reading past a mapping *)

Lemma load_bytes_fault m p n l :
  bytes_at m p l -> Zlen l < n -> Zlen l < 2 ^ 65 -> is_mapped m (p + Zlen l) = false ->
  load_bytes p n m = Fault.
Proof.
  intros Hb Hn Hl Hu. unfold load_bytes. eapply while_loops; [|exact Hl].
  enough (H : forall l i acc, bytes_at m (p + i) l -> i + Zlen l < n ->
     is_mapped m (p + i + Zlen l) = false ->
     loops (fun '(i, acc) => if i <? n then (v ← load8 (p + i); mret (inl (i + 1, v :: acc)))
                             else mret (inr (rev acc))) (length l) (i, acc) m Fault).
  { apply H; rewrite ?Z.add_0_r; [done|lia|done]. }
  clear. intros l. induction l as [|x l IH]; intros i acc Hb Hn Hu.
  - rewrite Zlen_nil, Z.add_0_r in *. apply loops_fault.
    destruct (Z.ltb_spec i n); [|lia]. apply bind_fault. auto with cmem.
  - destruct Hb as [Hx Hb]. rewrite Zlen_cons in *. pose proof (Zlen_nonneg l).
    eapply loops_step.
    + destruct (Z.ltb_spec i n); [|lia]. erewrite bind_ret by (eauto with cmem). reflexivity.
    + apply IH; [now replace (p + (i + 1)) with (p + i + 1) by lia|lia|].
      now replace (p + (i + 1) + Zlen l) with (p + i + (Zlen l + 1)) by lia.
Qed.

(** ** Duplicating a block *)

(** The bytes of a range in use are the same after an allocator step. *)
Lemma bytes_at_preserved s s' p l :
  preserves_in_use s s' -> (forall a, p <= a < p + Zlen l -> in_use s a) ->
  bytes_at (p_mem s) p l -> bytes_at (p_mem s') p l.
Proof. intros Hp Hu. apply bytes_at_ext. intros q Hq. now apply Hp, Hu. Qed.

Lemma mapped_preserved s s' p n :
  preserves_in_use s s' -> (forall a, p <= a < p + n -> in_use s a) ->
  mapped_range (p_mem s') p n.
Proof. intros Hp Hu q Hq. now apply Hp, Hu. Qed.

(** Filling a fresh block with bytes. *)
Lemma fill_fresh_block s s1 r size l :
  heap_ok s1 -> preserves_in_use s s1 -> fresh_block s s1 r size -> Zlen l <= size ->
  let s' := set_mem (poke_list (p_mem s1) r l) s1 in
  mapped_range (p_mem s1) r size /\ heap_ok s' /\ preserves_in_use s s' /\
  (forall a, r - 8 <= a < r + size -> ~ in_use s a /\ in_use s' a).
Proof.
  intros Hs1 Hp (Hf & _) Hl s'.
  assert (Hr : mapped_range (p_mem s1) r size) by (intros a Ha; apply Hf; lia).
  split; [done|]. split; [|split].
  - apply heap_ok_store; [done|eapply mapped_range_sub; [exact Hr|lia|lia]|].
    intros a Ha. apply Hf. lia.
  - apply preserves_in_use_store; [done|]. intros a Ha. apply Hf. lia.
  - intros a Ha. destruct (Hf a Ha) as [Hn [Hu Hnf]]. split; [done|]. split; [|done].
    simpl. now rewrite is_mapped_poke_list.
Qed.

End correctness.

(** ** Correctness of the allocator *)

Section properties.
Context {K : Kernel} {KL : KernelLaws K}.


(** A client that makes one request after the other. *)
Fixpoint mallocs (sizes : list Z) : ST proc (list Z) :=
  match sizes with
  | [] => mret []
  | n :: sizes' => r ← malloc n; rs ← mallocs sizes'; mret (r :: rs)
  end.

Lemma mallocs_ret s sizes :
  heap_ok s -> Forall (fun n => 0 <= n < 2 ^ 63) sizes ->
  exists rs s', mallocs sizes s = Ret rs s' /\ heap_ok s' /\ preserves_in_use s s' /\
  length rs = length sizes /\
  (forall i a n, rs !! i = Some a -> sizes !! i = Some n -> a <> 0 ->
     forall q, a - 8 <= q < a + n -> ~ in_use s q /\ in_use s' q) /\
  (forall i j a b n k, (i < j)%nat -> rs !! i = Some a -> rs !! j = Some b ->
     sizes !! i = Some n -> sizes !! j = Some k -> a <> 0 -> b <> 0 ->
     forall q, a - 8 <= q < a + n -> ~ (b - 8 <= q < b + k)).
Proof.
  revert s. induction sizes as [|n sizes IH]; intros s Hs Hsz.
  - exists [], s. split; [done|]. split; [done|]. split; [apply preserves_in_use_refl|]. done.
  - inversion_clear Hsz as [|? ? Hn Hsz'].
    destruct (malloc_ret s n Hs Hn) as (r & s1 & Hr & Hs1 & Hp1 & _ & Hb1).
    destruct (IH s1 Hs1 Hsz') as (rs & s2 & Hrs & Hs2 & Hp2 & Hlen & Hb2 & Hd2).
    exists (r :: rs), s2. simpl. erewrite bind_ret by exact Hr.
    erewrite bind_ret by exact Hrs. split; [done|]. split; [done|].
    split; [eapply preserves_in_use_trans; eassumption|]. split; [simpl; lia|].
    assert (Hfirst : r <> 0 -> forall q, r - 8 <= q < r + n -> ~ in_use s q /\ in_use s1 q).
    { intros Hr0. destruct Hb1 as [|(H & _)]; done. }
    split.
    + intros [|i] a k Ha Hk Ha0 q Hq; simpl in *.
      * injection Ha as <-. injection Hk as <-. destruct (Hfirst Ha0 q Hq) as [H1 H2].
        split; [done|]. now apply Hp2.
      * destruct (Hb2 i a k Ha Hk Ha0 q Hq) as [H1 H2]. split; [|done].
        intros H. apply H1, Hp1, H.
    + intros [|i] [|j] a b k k' Hij Ha Hb Hk Hk' Ha0 Hb0 q Hq Hq'; simpl in *; try lia.
      * injection Ha as <-. injection Hk as <-. destruct (Hfirst Ha0 q Hq) as [_ H2].
        destruct (Hb2 j b k' Hb Hk' Hb0 q Hq') as [H3 _]. done.
      * eapply (Hd2 i j a b k k'); eauto. lia.
Qed.

(** Successive [malloc] calls never hand out overlapping blocks: the
    header-and-payload ranges of any two nonnull results are disjoint. *)
Theorem malloc_blocks_disjoint s sizes :
  heap_ok s -> Forall (fun n => 0 <= n < 2 ^ 63) sizes ->
  exists rs s', mallocs sizes s = Ret rs s' /\ heap_ok s' /\ length rs = length sizes /\
  (forall i j a b n k, i <> j -> rs !! i = Some a -> rs !! j = Some b ->
     sizes !! i = Some n -> sizes !! j = Some k -> a <> 0 -> b <> 0 ->
     a + n <= b - 8 \/ b + k <= a - 8).
Proof.
  intros Hs Hsz. destruct (mallocs_ret s sizes Hs Hsz) as (rs & s' & H1 & H2 & _ & H3 & _ & Hd).
  exists rs, s'. do 3 (split; [done|]). intros i j a b n k Hij Ha Hb Hn Hk Ha0 Hb0.
  pose proof (Forall_lookup_1 _ _ _ _ Hsz Hn). pose proof (Forall_lookup_1 _ _ _ _ Hsz Hk).
  cbv beta in *.
  destruct (Z_le_gt_dec (a + n) (b - 8)); [now left|].
  destruct (Z_le_gt_dec (b + k) (a - 8)); [now right|]. exfalso.
  destruct (decide (i < j)%nat).
  - apply (Hd i j a b n k l Ha Hb Hn Hk Ha0 Hb0 (Z.max (a - 8) (b - 8))); lia.
  - apply (Hd j i b a k n ltac:(lia) Hb Ha Hk Hn Hb0 Ha0 (Z.max (a - 8) (b - 8))); lia.
Qed.

(** When [nmemb * size] does not overflow, [calloc] returns the null pointer,
    if the kernel refused memory, or a fresh block of that many bytes, all of
    them zero. *)
Theorem calloc_zeroed s nmemb size :
  heap_ok s -> 0 <= nmemb -> 0 <= size -> nmemb * size < 2 ^ 63 ->
  exists r s', calloc nmemb size s = Ret r s' /\ heap_ok s' /\ preserves_in_use s s' /\
    (r = 0 /\ mmap_refused \/ forall a, r <= a < r + nmemb * size ->
       ~ in_use s a /\ in_use s' a /\ peek (p_mem s') a = Some 0).
Proof.
  intros Hs Hn Hz Hb. unfold calloc. rewrite u64_id by nia.
  destruct (malloc_ret s (nmemb * size) Hs ltac:(nia)) as (r & s' & H1 & H2 & H3 & _ & H4).
  exists r, s'. do 3 (split; [done|]). destruct H4 as [->|(F1 & F2 & _)]; [left|right].
  { split; [done|]. exact (malloc_null s (nmemb * size) s' Hs ltac:(nia) H1). }
  intros a Ha. destruct (F1 a ltac:(lia)). auto.
Qed.

(** A fresh block lies apart from a block in use. *)
Lemma fresh_apart s s1 r size old bs :
  fresh_block s s1 r size -> 0 <= size -> 16 <= bs ->
  (forall a, old - 8 <= a < old - 8 + bs -> in_use s a) ->
  r + size <= old - 8 \/ old - 8 + bs <= r - 8.
Proof.
  intros (Hf & _) Hsz Hbs Hu.
  destruct (Z_le_gt_dec (r + size) (old - 8)); [now left|].
  destruct (Z_le_gt_dec (old - 8 + bs) (r - 8)); [now right|]. exfalso.
  destruct (Hf (Z.max (r - 8) (old - 8)) ltac:(lia)) as [Hno _]. apply Hno, Hu. lia.
Qed.

(** [realloc] of a live block returns the null pointer or a fresh block that
    starts with the old payload, cut to the new size, and leaves everything
    in use as it was.  The header counts itself, so up to 8 bytes past the old
    block are read too: they have to be mapped. *)
Theorem realloc_correct s old bs l new_size :
  heap_ok s -> 0 <= new_size < 2 ^ 63 -> 16 <= bs < 2 ^ 63 ->
  word64_at (p_mem s) (old - 8) bs ->
  (forall a, old - 8 <= a < old - 8 + bs -> in_use s a) ->
  bytes_at (p_mem s) old l -> Zlen l = Z.min (bs - 8) new_size ->
  forall r s1, malloc new_size s = Ret r s1 ->
  mapped_range (p_mem s1) old (Z.min bs new_size) ->
  exists s', realloc old new_size s = Ret r s' /\ heap_ok s' /\ preserves_in_use s s' /\
  (r = 0 \/ (forall a, r <= a < r + new_size -> ~ in_use s a /\ in_use s' a) /\
             bytes_at (p_mem s') r l).
Proof.
  intros Hs Hn Hbs Hw Hu Hl Hlen r s1 Hmal Hmap.
  destruct (malloc_ret s new_size Hs Hn) as (r' & s1' & Hm' & Hs1 & Hp1 & _ & Hfb).
  rewrite Hmal in Hm'. injection Hm' as <- <-.
  assert (Hold : 0 < old - 8) by (apply (proj1 Hs), (Hu (old - 8)); lia).
  unfold realloc. erewrite bind_ret by exact Hmal.
  destruct (Z.eqb_spec old 0); [lia|]. destruct (Z.eqb_spec r 0) as [->|Hr0]; simpl.
  { exists s1. split; [done|]. split; [done|]. split; [done|]. now left. }
  destruct Hfb as [|Hfb]; [done|]. pose proof Hfb as (Hf & _ & Hr8 & _).
  assert (Hw1 : word64_at (p_mem s1) (old - 8) bs).
  { eapply bytes_at_preserved; [exact Hp1| |exact Hw].
    intros a Ha. rewrite le_encode_Zlen in Ha. apply Hu. lia. }
  erewrite bind_ret by (apply in_mem_read, load64_ret; [exact Hw1|lia]).
  set (copy := if bs <? new_size then bs else new_size).
  assert (Hc : copy = Z.min bs new_size) by (unfold copy; case_bool; lia).
  destruct (mapped_bytes_at (p_mem s1) old (Z.to_nat copy)) as (l' & Hl' & Hb').
  { rewrite Z2Nat.id by lia. now rewrite Hc. }
  assert (Hzl : Zlen l' = copy) by (unfold Zlen; lia).
  destruct (fill_fresh_block s s1 r new_size l' Hs1 Hp1 Hfb ltac:(lia)) as (Hr & Hok & Hpr & Hfr).
  pose proof (fresh_apart s s1 r new_size old bs Hfb ltac:(lia) ltac:(lia) Hu) as Hdis.
  eexists. split.
  { erewrite bind_ret.
    2: { apply in_mem_ret, (memcpy_ret _ _ _ _ l');
         [exact Hb'|lia|lia|unfold disjoint_ranges; lia|].
         eapply mapped_range_sub; [exact Hr|lia|lia]. }
    reflexivity. }
  split; [exact Hok|]. split; [exact Hpr|]. right. split; [intros; apply Hfr; lia|].
  assert (Hpre : l = take (length l) l').
  { apply (bytes_at_inj (p_mem s1) old).
    - rewrite length_take. unfold Zlen in *. lia.
    - eapply bytes_at_preserved; [exact Hp1| |exact Hl]. intros a Ha. apply Hu. lia.
    - rewrite <- (take_drop (length l) l') in Hb'. now apply bytes_at_app in Hb'. }
  assert (Hat : bytes_at (poke_list (p_mem s1) r l') r l').
  { apply bytes_at_poke_list; [eapply mapped_range_sub; [exact Hr|lia|lia]|].
    apply (bytes_at_bytes (p_mem s1) old); [apply Hs1|done]. }
  rewrite <- (take_drop (length l) l') in Hat at 2. apply bytes_at_app in Hat as [Hat _].
  rewrite Hpre. exact Hat.
Qed.

(** When the block was mapped on its own and the address just past it is
    not mapped, growing it with [realloc] to at least its recorded size faults:
    the copy length includes the header, so the copy runs past the mapping. *)
Theorem realloc_grow_faults s old bs l new_size r s1 :
  heap_ok s -> bs <= new_size < 2 ^ 63 -> 16 <= bs ->
  word64_at (p_mem s) (old - 8) bs ->
  (forall a, old - 8 <= a < old - 8 + bs -> in_use s a) ->
  bytes_at (p_mem s) old l -> Zlen l = bs - 8 ->
  malloc new_size s = Ret r s1 -> r <> 0 ->
  is_mapped (p_mem s1) (old - 8 + bs) = false ->
  r + new_size <= old \/ old + new_size <= r ->
  realloc old new_size s = Fault.
Proof.
  intros Hs Hn Hbs Hw Hu Hl Hlen Hmal Hr0 Hun Hfar.
  destruct (malloc_ret s new_size Hs ltac:(lia)) as (r' & s1' & Hm' & Hs1 & Hp1 & _ & _).
  rewrite Hmal in Hm'. injection Hm' as <- <-.
  assert (Hold : 0 < old - 8) by (apply (proj1 Hs), (Hu (old - 8)); lia).
  unfold realloc. erewrite bind_ret by exact Hmal.
  destruct (Z.eqb_spec old 0); [lia|]. destruct (Z.eqb_spec r 0); [done|]. simpl.
  erewrite bind_ret.
  2: { apply in_mem_read, (load64_ret _ _ bs); [|lia]. eapply bytes_at_preserved; [exact Hp1| |exact Hw].
       intros a Ha. rewrite le_encode_Zlen in Ha. apply Hu. lia. }
  set (copy := if bs <? new_size then bs else new_size).
  assert (Hc : copy = bs) by (unfold copy; case_bool; lia). rewrite Hc.
  apply bind_fault, in_mem_fault. unfold memcpy, guard_c.
  destruct (disjoint_ranges r bs old bs) eqn:E; [|unfold disjoint_ranges in E; lia].
  erewrite bind_ret by reflexivity. apply bind_fault.
  apply (load_bytes_fault _ _ _ l); [|lia|lia|].
  - eapply bytes_at_preserved; [exact Hp1| |exact Hl]. intros a Ha. apply Hu. lia.
  - rewrite Hlen. now replace (old + (bs - 8)) with (old - 8 + bs) by lia.
Qed.

(** C39. The size computation of [malloc] wraps: a request for [2^64 - 8] bytes
    succeeds without taking any memory, and the next request is given the
    same address. *)
Theorem malloc_size_wraps s :
  heap_ok s -> heap_base (p_heap s) <> 0 -> heap_used (p_heap s) + 32 <= HEAP_SIZE ->
  exists r s1 s2, malloc (2 ^ 64 - 8) s = Ret r s1 /\ r <> 0 /\ malloc 16 s1 = Ret r s2.
Proof.
  intros Hs Hb Hu. pose proof (proj2 Hs) as [(E & _)|(B1 & B2 & B3 & B4 & B5 & B6 & B7)]; [done|].
  set (p := heap_base (p_heap s) + heap_used (p_heap s)).
  assert (Hm : forall m, regions m = regions (p_mem s) -> mapped_range m p 8).
  { intros m E q Hq. unfold is_mapped. rewrite E. apply B6. unfold p, HEAP_SIZE in *. lia. }
  assert (Hi : forall s', p_heap s' = p_heap s -> heap_init s' = Ret tt s').
  { intros s' E. unfold heap_init, get_heap. erewrite bind_ret by reflexivity.
    rewrite E. destruct (Z.eqb_spec (heap_base (p_heap s)) 0); [done|reflexivity]. }
  assert (Hfit : forall s' n, p_heap s' = p_heap s ->
    regions (p_mem s') = regions (p_mem s) ->
    0 <= ALIGN_UP (u64 (n + 8)) 16 <= 32 ->
    malloc n s' = Ret (p + 8)
      (set_heap (Heap (heap_base (p_heap s)) (heap_used (p_heap s) + ALIGN_UP (u64 (n + 8)) 16)
                      (heap_cap (p_heap s)))
         (set_mem (poke_list (p_mem s') p (le_encode 8 (ALIGN_UP (u64 (n + 8)) 16))) s'))).
  { intros s' n E Er Hsz. unfold malloc. erewrite bind_ret by (now apply Hi).
    unfold get_heap. erewrite bind_ret by reflexivity. rewrite E, B3.
    unfold HEAP_SIZE in *. rewrite (u64_id (heap_used _ + _)) by lia.
    destruct (Z.ltb_spec (64 * 1024 * 1024) (heap_used (p_heap s) + ALIGN_UP (u64 (n + 8)) 16));
      [lia|].
    erewrite bind_ret by (apply in_mem_ret, store64_ret, Hm, Er). reflexivity. }
  exists (p + 8). do 2 eexists. split; [apply Hfit; [done|done|vm_compute; split; discriminate]|].
  split; [unfold p; lia|].
  apply Hfit; [|apply regions_poke_list|vm_compute; split; discriminate].
  simpl. change (ALIGN_UP (u64 (2 ^ 64 - 8 + 8)) 16) with 0.
  rewrite Z.add_0_r. now destruct (p_heap s).
Qed.

(** Copying a range in use into a fresh block of at least its length. *)
Lemma dup_range s s1 r size src l :
  heap_ok s1 -> preserves_in_use s s1 -> fresh_block s s1 r size -> Zlen l <= size ->
  Zlen l < 2 ^ 65 -> mem_ok (p_mem s) -> bytes_at (p_mem s) src l ->
  (forall a, src <= a < src + Zlen l -> in_use s a) ->
  in_mem (memcpy r src (Zlen l)) s1 = Ret tt (set_mem (poke_list (p_mem s1) r l) s1).
Proof.
  intros Hs1 Hp Hfb Hl Hl65 Hm Hb Hu.
  destruct (fill_fresh_block s s1 r size l Hs1 Hp Hfb Hl) as (Hr & _).
  pose proof (Zlen_nonneg l). destruct Hfb as (Hf & _).
  apply in_mem_ret, memcpy_ret; [|done|done| |eapply mapped_range_sub; [exact Hr|lia|lia]].
  - eapply bytes_at_preserved; eassumption.
  - unfold disjoint_ranges. destruct (Z.leb_spec (Zlen l) 0); [done|].
    destruct (Z.leb_spec (r + Zlen l) src); [done|].
    destruct (Z.leb_spec (src + Zlen l) r); [done|]. exfalso.
    destruct (Hf (Z.max r src) ltac:(lia)) as [Hno _]. apply Hno, Hu. lia.
Qed.

(** A copy of [t] in fresh memory, or none for want of memory. *)
Definition dup_result (s s' : proc) (r : Z) (t : list Z) : Prop :=
  r = 0 /\ mmap_refused \/
  cstr (p_mem s') r t /\ forall a, r <= a < r + Zlen t + 1 -> ~ in_use s a /\ in_use s' a.

Section duplicates.
Context (s : proc) (p : Z) (t : list Z).
Context (Hs : heap_ok s) (Ht : cstr (p_mem s) p t) (Hlt : Zlen t < 2 ^ 62).
Context (Hu : forall a, p <= a < p + Zlen t + 1 -> in_use s a).

Lemma strlen_in_use : in_mem (strlen p) s = Ret (Zlen t) s.
Proof. apply in_mem_read, strlen_ret; [apply Hs|done]. Qed.

(** The block for a copy of [u], and what it holds once the copy is written. *)
Lemma dup_block u :
  Zlen u <= Zlen t -> Forall byte_ok u -> Forall (fun c => c <> 0) u ->
  exists r s1, malloc (Zlen u + 1) s = Ret r s1 /\ heap_ok s1 /\ preserves_in_use s s1 /\
  (r = 0 /\ mmap_refused \/ r <> 0 /\ fresh_block s s1 r (Zlen u + 1) /\
   let s' := set_mem (poke_list (p_mem s1) r (u ++ [0])) s1 in
   is_mapped (p_mem s1) (r + Zlen u) = true /\ heap_ok s' /\ preserves_in_use s s' /\ dup_result s s' r u).
Proof.
  intros Hle Hb Hnz. pose proof (Zlen_nonneg u).
  destruct (malloc_ret s (Zlen u + 1) Hs ltac:(lia)) as (r & s1 & Hmal & Hs1 & Hp1 & _ & Hfb).
  exists r, s1. do 3 (split; [done|]). destruct Hfb as [->|Hfb]; [left|right].
  { split; [done|]. exact (malloc_null s (Zlen u + 1) s1 Hs ltac:(lia) Hmal). }
  split; [destruct Hfb as (_ & _ & Hr & _); lia|]. split; [done|].
  assert (Hz : Zlen (u ++ [0]) = Zlen u + 1) by (now rewrite Zlen_app).
  destruct (fill_fresh_block s s1 r _ (u ++ [0]) Hs1 Hp1 Hfb ltac:(lia)) as (Hr & Hok & Hpr & Hfr).
  split; [apply Hr; lia|]. split; [exact Hok|]. split; [exact Hpr|]. right.
  split; [now apply cstr_poke_list|]. intros a Ha. apply Hfr. lia.
Qed.

Lemma strdup_ret :
  exists r s', strdup p s = Ret r s' /\ heap_ok s' /\ preserves_in_use s s' /\ dup_result s s' r t.
Proof.
  pose proof (Zlen_nonneg t). unfold strdup. erewrite bind_ret by exact strlen_in_use. rewrite u64_id by lia.
  destruct (dup_block t (Z.le_refl _) (cstr_bytes _ _ _ (proj1 Hs) Ht) (proj2 Ht))
    as (r & s1 & Hmal & Hs1 & Hp1 & Hr).
  erewrite bind_ret by exact Hmal. destruct Hr as [[-> Hno]|(Hr0 & Hfb & _ & Hok & Hpr & Hd)].
  - exists 0, s1. do 3 (split; [done|]). now left.
  - destruct (Z.eqb_spec r 0); [done|]. exists r. eexists. split; [|done].
    assert (Hz : Zlen (t ++ [0]) = Zlen t + 1) by (now rewrite Zlen_app).
    cbn [negb]. cbv iota. erewrite bind_ret; [reflexivity|]. rewrite <- Hz.
    apply (dup_range s s1 r (Zlen t + 1)); try done; try lia; [apply Hs|apply Ht|].
    intros a Ha. apply Hu. lia.
Qed.

Lemma strndup_ret n :
  0 <= n < 2 ^ 64 ->
  exists r s', strndup p n s = Ret r s' /\ heap_ok s' /\ preserves_in_use s s' /\
  dup_result s s' r (take (Z.to_nat n) t).
Proof.
  intros Hn. pose proof (Zlen_nonneg t). unfold strndup. erewrite bind_ret by exact strlen_in_use.
  pose proof (cstr_bytes _ _ _ (proj1 Hs) Ht) as Htb. destruct Ht as [Hbt Hnz].
  rewrite <- (take_drop (Z.to_nat n) t) in Hbt, Htb, Hnz. set (u := take (Z.to_nat n) t) in *.
  apply Forall_app in Htb as [Htb _]. apply Forall_app in Hnz as [Hnz _].
  rewrite <- app_assoc in Hbt. apply bytes_at_app in Hbt as [Hbt _].
  assert (Hk : Zlen u = (if n <? Zlen t then n else Zlen t)).
  { unfold u, Zlen. rewrite length_take. case_bool; unfold Zlen in *; lia. }
  rewrite <- Hk. pose proof (Zlen_nonneg u).
  assert (Hule : Zlen u <= Zlen t) by (rewrite Hk; case_bool; lia). rewrite (u64_id (Zlen u + 1)) by lia.
  destruct (dup_block u Hule Htb Hnz) as (r & s1 & Hmal & Hs1 & Hp1 & Hr).
  erewrite bind_ret by exact Hmal. destruct Hr as [[-> Hno]|(Hr0 & Hfb & Hend & Hok & Hpr & Hd)].
  - exists 0, s1. do 3 (split; [done|]). now left.
  - destruct (Z.eqb_spec r 0); [done|]. exists r. eexists. split; [|exact (conj Hok (conj Hpr Hd))].
    cbn [negb]. cbv iota. erewrite bind_ret.
    2: { apply (dup_range s s1 r (Zlen u + 1)); try done; try lia; [apply Hs|].
         intros a Ha. apply Hu. lia. }
    erewrite bind_ret by (apply in_mem_ret, store8_ret; simpl; now rewrite is_mapped_poke_list).
    rewrite poke_list_snoc. reflexivity.
Qed.

(** [strdup] and [strndup] of a string in use return the null pointer, if
    the kernel refused memory, or a fresh block that holds a copy of the string,
    cut to at most [n] bytes for [strndup]; everything in use stays as it was. *)
Theorem strdup_correct n :
  0 <= n < 2 ^ 64 ->
  (exists r s', strdup p s = Ret r s' /\ heap_ok s' /\ preserves_in_use s s' /\ dup_result s s' r t) /\
  (exists r s', strndup p n s = Ret r s' /\ heap_ok s' /\ preserves_in_use s s' /\
     dup_result s s' r (take (Z.to_nat n) t)).
Proof. split; [apply strdup_ret|now apply strndup_ret]. Qed.

End duplicates.

End properties.

(** ** Examples on the small kernel *)

Lemma tk_heap_ok m k : mem_ok m -> heap_ok (tk_proc m k).
Proof. intros H. split; [done|]. now left. Qed.


Lemma malloc_blocks_disjoint_witness :
  exists rs s', mallocs [10; 20] (tk_proc (page_with []) tk_idle) = Ret rs s' /\ heap_ok s' /\
  length rs = length [10; 20] /\
  (forall i j a b n k, i <> j -> rs !! i = Some a -> rs !! j = Some b ->
     [10; 20] !! i = Some n -> [10; 20] !! j = Some k -> a <> 0 -> b <> 0 ->
     a + n <= b - 8 \/ b + k <= a - 8).
Proof.
  apply malloc_blocks_disjoint; [apply tk_heap_ok; by_eval|repeat constructor; lia].
Defined.

Lemma calloc_zeroed_witness :
  exists r s', calloc 3 7 (tk_proc (page_with []) tk_idle) = Ret r s' /\ heap_ok s' /\
    preserves_in_use (tk_proc (page_with []) tk_idle) s' /\
    (r = 0 /\ @mmap_refused tk_kernel \/ forall a, r <= a < r + 3 * 7 ->
       ~ in_use (tk_proc (page_with []) tk_idle) a /\ in_use s' a /\ peek (p_mem s') a = Some 0).
Proof. apply calloc_zeroed; [apply tk_heap_ok; by_eval|lia..]. Defined.

(** The state a computation ends in, or the given one when it does not return. *)
Definition final_state {S A} (d : S) (o : outcome S A) : S :=
  match o with Ret _ s => s | Exited _ s => s | _ => d end.

Definition returns {S} (r : Z) (o : outcome S Z) : bool :=
  match o with Ret r' _ => r' =? r | _ => false end.

Lemma returns_ret {S} (d : S) r o : returns r o = true -> o = Ret r (final_state d o).
Proof. destruct o; simpl; try discriminate. intros H%Z.eqb_eq. now subst. Qed.

Lemma tk_in_use m k p n :
  mapped_rangeb m p n = true -> forall a, p <= a < p + n -> in_use (tk_proc m k) a.
Proof.
  intros H a Ha. split; [now apply (mapped_rangeb_ok m p n H)|].
  unfold in_free_arena. simpl. lia.
Qed.

(** A block of 32 bytes at 4200 whose payload starts with 1 2 3 4 5. *)
Definition block_demo : proc :=
  tk_proc (page_with [(4200, le_encode 8 32 ++ [1; 2; 3; 4; 5])]) tk_idle.

Lemma realloc_correct_witness :
  exists s', realloc 4208 5 block_demo = Ret 65544 s' /\ heap_ok s' /\
  preserves_in_use block_demo s' /\
  (65544 = 0 \/ (forall a, 65544 <= a < 65544 + 5 -> ~ in_use block_demo a /\ in_use s' a) /\
                bytes_at (p_mem s') 65544 [1; 2; 3; 4; 5]).
Proof.
  apply (realloc_correct block_demo 4208 32 [1; 2; 3; 4; 5] 5)
    with (s1 := final_state block_demo (malloc 5 block_demo)).
  - apply tk_heap_ok. by_eval.
  - lia.
  - lia.
  - unfold word64_at. by_eval.
  - apply tk_in_use. by_eval.
  - by_eval.
  - reflexivity.
  - apply returns_ret. vm_compute. reflexivity.
  - apply mapped_rangeb_ok. vm_compute. reflexivity.
Defined.

(** The same block at the very end of the mapped memory. *)
Definition last_block_demo : proc :=
  tk_proc (poke_list (Mem [(8192, 32)] ∅) 8192 (le_encode 8 32)) tk_idle.

Lemma realloc_grow_faults_witness : realloc 8200 40 last_block_demo = Fault.
Proof.
  apply (realloc_grow_faults last_block_demo 8200 32 (replicate 24 0) 40 65544
           (final_state last_block_demo (malloc 40 last_block_demo))).
  - apply tk_heap_ok. by_eval.
  - lia.
  - lia.
  - unfold word64_at. by_eval.
  - apply tk_in_use. by_eval.
  - by_eval.
  - reflexivity.
  - apply returns_ret. vm_compute. reflexivity.
  - lia.
  - vm_compute. reflexivity.
  - lia.
Defined.

(** A process whose arena is mapped and empty. *)
Definition arena_demo : proc :=
  @Proc tk_kernel (Mem [(65536, HEAP_SIZE)] ∅) (Heap 65536 0 HEAP_SIZE) [] tk_idle.

Lemma arena_demo_ok : heap_ok arena_demo.
Proof.
  split; [by_eval|]. right. simpl. unfold HEAP_SIZE.
  repeat split; try lia. intros q Hq. unfold is_mapped, in_region. simpl. lia.
  intros a Ha. unfold peek, is_mapped, in_region. simpl.
  destruct (Z.leb_spec 65536 a), (Z.ltb_spec a (65536 + 64 * 1024 * 1024)); try lia; done.
Qed.

Lemma malloc_size_wraps_witness :
  exists r s1 s2, malloc (2 ^ 64 - 8) arena_demo = Ret r s1 /\ r <> 0 /\ malloc 16 s1 = Ret r s2.
Proof. apply malloc_size_wraps; [apply arena_demo_ok|by_eval|by_eval]. Defined.

Definition dup_demo : proc := tk_proc (page_with [(4100, [72; 105; 0])]) tk_idle.

Lemma strdup_correct_witness :
  (exists r s', strdup 4100 dup_demo = Ret r s' /\ heap_ok s' /\ preserves_in_use dup_demo s' /\
     dup_result dup_demo s' r [72; 105]) /\
  (exists r s', strndup 4100 1 dup_demo = Ret r s' /\ heap_ok s' /\ preserves_in_use dup_demo s' /\
     dup_result dup_demo s' r [72]).
Proof.
  apply (strdup_correct dup_demo 4100 [72; 105]).
  - apply tk_heap_ok. by_eval.
  - by_eval.
  - by_eval.
  - apply (tk_in_use _ _ 4100 3). by_eval.
  - lia.
Defined.
