(* ===== verification/Format.v ===== *)
(** * Formatted output

    [apps/doom/libc.zig]: [vsnprintf], the [Writer] it fills, the format
    interpreter [formatV] and its number and string printers.  The variable
    arguments are a list of 64-bit slots; reading past the last one is
    undefined.  An operation Zig traps on (an overflowing [usize] or [-v], an
    [@intCast] that does not fit, an index past the end of [tmp]) faults.

    The reference semantics is on the abstract syntax of formats
    ([directive], [item]); [show_format] prints a format as the byte string a
    caller passes, [eval_format] says what it stands for. *)

From S2P Require Import Prelude Machine Memory CString Numeric.

(** ** The writer *)

(** [usize] arithmetic that must not overflow. *)
Definition usize {S} (x : Z) : ST S Z := if (0 <=? x) && (x <? 2 ^ 64) then mret x else fault.

Record Writer := mkWriter { w_buf : Z; w_cap : Z; w_len : Z }.

Definition putByte (w : Writer) (c : Z) : ST mem Writer :=
  (if w_len w <? w_cap w then store8 (w_buf w + w_len w) c else mret tt);;
  len ← usize (w_len w + 1);
  mret (mkWriter (w_buf w) (w_cap w) len).

(** A slice is a constant or a range of memory, read byte by byte. *)
Inductive slice :=
  | Const (l : list Z)
  | At (p n : Z).

Definition slice_len (s : slice) : Z :=
  match s with Const l => Zlen l | At _ n => n end.

Definition slice_get (s : slice) (i : Z) : ST mem Z :=
  match s with
  | Const l => match l !! Z.to_nat i with Some c => mret c | None => fault end
  | At p n => load8 (p + i)
  end.

Definition putStr (w : Writer) (s : slice) : ST mem Writer :=
  while (fun '(w, i) =>
           if i <? slice_len s then
             (c ← slice_get s i;
              w ← putByte w c;
              mret (inl (w, i + 1)))
           else mret (inr w)) (w, 0).

(** The loops [while (j < n) : (j += 1) w.putByte(c)]. *)
Definition put_pad (c j n : Z) (w : Writer) : ST mem Writer :=
  while (fun '(w, j) =>
           if j <? n then (w ← putByte w c; mret (inl (w, j + 1)))
           else mret (inr w)) (w, j).

Definition fmtStr (w : Writer) (s : slice) (width : Z) (ljust : bool) : ST mem Writer :=
  w ← (if ljust then mret w else put_pad 32 (slice_len s) width w);
  w ← putStr w s;
  (if ljust then put_pad 32 (slice_len s) width w else mret w).

(** [tmp[n] = c; n += 1] on the 64-byte array of digits. *)
Definition tmp_push {S} (tmp : list Z) (c : Z) : ST S (list Z) :=
  guard_c (Zlen tmp <? 64);; mret (tmp ++ [c]).

Definition digit_char (upper : bool) (d : Z) : Z :=
  if d <? 10 then 48 + d else (if upper then 65 else 97) + d - 10.

(** The digits of [v], least significant first. *)
Definition gen_digits (v base : Z) (upper : bool) : ST mem (list Z) :=
  while (fun '(val, tmp) =>
           if val =? 0 then mret (inr tmp)
           else
             (tmp ← tmp_push tmp (digit_char upper (val mod base));
              mret (inl (val / base, tmp)))) (v, []).

Definition pad_digits (min_d : Z) (tmp : list Z) : ST mem (list Z) :=
  while (fun tmp =>
           if Zlen tmp <? min_d then (tmp ← tmp_push tmp 48; mret (inl tmp))
           else mret (inr tmp)) tmp.

(** Digits are in [tmp] least significant first; emit them in reverse. *)
Definition put_reversed (tmp : list Z) (w : Writer) : ST mem Writer :=
  while (fun '(w, k) =>
           if 0 <? k then
             match tmp !! Z.to_nat (k - 1) with
             | Some c => w ← putByte w c; mret (inl (w, k - 1))
             | None => fault
             end
           else mret (inr w)) (w, Zlen tmp).

Definition fmtUint (w : Writer) (v base : Z) (upper negative : bool) (width : Z)
    (prec : option Z) (zero_pad ljust : bool) : ST mem Writer :=
  tmp ← (if v =? 0 then
           (if bool_decide (prec = Some 0) then mret [] else mret [48] : ST mem (list Z))
         else gen_digits v base upper);
  tmp ← pad_digits (default 0 prec) tmp;
  let do_zero_pad := zero_pad && bool_decide (prec = None) in
  let sign_w := if negative then 1 else 0 in
  let content_w := Zlen tmp + sign_w in
  let pad_n := if content_w <? width then width - content_w else 0 in
  let put_sign w := if negative then putByte w 45 else mret w in
  w ← (if ljust then put_sign w
       else if do_zero_pad then (w ← put_sign w; put_pad 48 0 pad_n w)
       else (w ← put_pad 32 0 pad_n w; put_sign w));
  w ← put_reversed tmp w;
  (if ljust then put_pad 32 0 pad_n w else mret w).

(** ** The format interpreter *)

Definition va_list := list Z.

Definition va_arg (as_type : Z -> Z) (args : va_list) : ST mem (Z * va_list) :=
  match args with
  | a :: args' => mret (as_type a, args')
  | [] => fault
  end.

Definition parse_flags (fmt i : Z) : ST mem (bool * bool * Z) :=
  while (fun '(ljust, zero, i) =>
           c ← load8 (fmt + i);
           if c =? 45 then mret (inl (true, zero, i + 1))
           else if c =? 48 then mret (inl (ljust, true, i + 1))
           else if (c =? 43) || (c =? 32) || (c =? 35) then mret (inl (ljust, zero, i + 1))
           else mret (inr (ljust, zero, i))) (false, false, i).

(** The digits of a width or of a precision. *)
Definition parse_amount (fmt i : Z) : ST mem (Z * Z) :=
  while (fun '(v, i) =>
           c ← load8 (fmt + i);
           if (48 <=? c) && (c <=? 57) then
             (v10 ← usize (v * 10);
              v ← usize (v10 + (c - 48));
              mret (inl (v, i + 1)))
           else mret (inr (v, i))) (0, i).

Definition parse_width (fmt i : Z) (ljust : bool) (args : va_list) :
    ST mem (Z * bool * Z * va_list) :=
  '(width, i) ← parse_amount fmt i;
  c ← load8 (fmt + i);
  if c =? 42 then
    '(wv, args) ← va_arg s32 args;
    if wv <? 0 then
      (width ← signed_int (- wv); mret (width, true, i + 1, args))
    else mret (wv, ljust, i + 1, args)
  else mret (width, ljust, i, args).

Definition parse_precision (fmt i : Z) (args : va_list) : ST mem (option Z * Z * va_list) :=
  c ← load8 (fmt + i);
  if c =? 46 then
    '(p, i) ← parse_amount fmt (i + 1);
    c ← load8 (fmt + i);
    if c =? 42 then
      '(pv, args) ← va_arg s32 args;
      mret (if 0 <=? pv then Some pv else None, i + 1, args)
    else mret (Some p, i, args)
  else mret (None, i, args).

Definition parse_length (fmt i : Z) : ST mem (Z * Z) :=
  c ← load8 (fmt + i);
  if c =? 108 then
    c ← load8 (fmt + (i + 1));
    if c =? 108 then mret (2, i + 2) else mret (1, i + 1)
  else if c =? 104 then
    c ← load8 (fmt + (i + 1));
    if c =? 104 then mret (0, i + 2) else mret (0, i + 1)
  else if (c =? 122) || (c =? 106) || (c =? 116) then mret (1, i + 1)
  else mret (0, i).

Definition signed_arg (longness : Z) : va_list -> ST mem (Z * va_list) :=
  va_arg (if longness =? 0 then s32 else s64).
Definition unsigned_arg (longness : Z) : va_list -> ST mem (Z * va_list) :=
  va_arg (if longness =? 0 then u32 else u64).

(** [std.mem.span] of a string argument, or the constant of a null pointer. *)
Definition span_or_null (sp : Z) : ST mem slice :=
  if sp =? 0 then mret (Const [40; 110; 117; 108; 108; 41])
  else (n ← strlen sp; mret (At sp n)).

Definition shorten (s : slice) (n : Z) : slice :=
  match s with
  | Const l => Const (take (Z.to_nat n) l)
  | At p k => At p (Z.min n k)
  end.

(** The conversion specifier [c]. *)
Definition convert (c : Z) (w : Writer) (ljust zero : bool) (width : Z) (prec : option Z)
    (longness : Z) (args : va_list) : ST mem (Writer * va_list) :=
  let uint base upper :=
    '(v, args) ← unsigned_arg longness args;
    w ← fmtUint w v base upper false width prec zero ljust;
    mret (w, args) in
  if (c =? 100) || (c =? 105) then
    '(v, args) ← signed_arg longness args;
    abs_v ← (if v <? 0 then signed_long (- v) else mret v);
    w ← fmtUint w abs_v 10 false (v <? 0) width prec zero ljust;
    mret (w, args)
  else if c =? 117 then uint 10 false
  else if c =? 120 then uint 16 false
  else if c =? 88 then uint 16 true
  else if c =? 111 then uint 8 false
  else if c =? 112 then
    '(v, args) ← va_arg u64 args;
    w ← putByte w 48;
    w ← putByte w 120;
    w ← fmtUint w v 16 false false 0 (Some 1) false false;
    mret (w, args)
  else if c =? 115 then
    '(sp, args) ← va_arg u64 args;
    full ← span_or_null sp;
    let s := match prec with Some pr => shorten full pr | None => full end in
    w ← fmtStr w s width ljust;
    mret (w, args)
  else if c =? 99 then
    '(v, args) ← va_arg s32 args;
    guard_c (0 <=? v);;
    w ← fmtStr w (Const [u8 v]) width ljust;
    mret (w, args)
  else if c =? 37 then
    w ← putByte w 37;
    mret (w, args)
  else mret (w, args).

(** One round of the loop of [formatV] after a ['%'] at [i - 1]. *)
Definition format_directive (fmt : Z) (w : Writer) (i : Z) (args : va_list) :
    ST mem (Writer * Z * va_list) :=
  '(ljust, zero, i) ← parse_flags fmt i;
  '(width, ljust, i, args) ← parse_width fmt i ljust args;
  '(prec, i, args) ← parse_precision fmt i args;
  '(longness, i) ← parse_length fmt i;
  c ← load8 (fmt + i);
  '(w, args) ← convert c w ljust zero width prec longness args;
  mret (w, i + 1, args).

Definition formatV (w : Writer) (fmt : Z) (args : va_list) : ST mem Writer :=
  while (fun '(w, i, args) =>
           c ← load8 (fmt + i);
           if c =? 0 then mret (inr w)
           else if c =? 37 then
             (r ← format_directive fmt w (i + 1) args; mret (inl r))
           else (w ← putByte w c; mret (inl (w, i + 1, args)))) (w, 0, args).

Definition vsnprintf (s n format : Z) (args : va_list) : ST mem Z :=
  if n =? 0 then mret 0
  else
    w ← formatV (mkWriter s (n - 1) 0) format args;
    store8 (s + (if w_len w <? n then w_len w else n - 1)) 0;;
    guard_c (w_len w <=? INT_MAX);;
    mret (w_len w).

(** [snprintf(s, n, format, ...)]. *)
Definition snprintf := vsnprintf.

(** ** Reference semantics *)

Inductive conversion :=
  | Conv_d | Conv_i | Conv_u | Conv_x | Conv_X | Conv_o | Conv_p | Conv_s | Conv_c
  | Conv_percent
  | Conv_other (c : Z).

Inductive amount :=
  | Digits (ds : list Z)
  | Star.

Inductive modifier := No_mod | Mod_l | Mod_ll | Mod_h | Mod_hh | Mod_z | Mod_j | Mod_t.

Record directive := Directive {
  d_flags : list Z;
  d_width : amount;
  d_prec : option amount;
  d_mod : modifier;
  d_conv : conversion
}.

Inductive item :=
  | Lit (c : Z)
  | Dir (d : directive).

(** *** Concrete syntax *)

Definition show_conv (k : conversion) : Z :=
  match k with
  | Conv_d => 100 | Conv_i => 105 | Conv_u => 117 | Conv_x => 120 | Conv_X => 88
  | Conv_o => 111 | Conv_p => 112 | Conv_s => 115 | Conv_c => 99 | Conv_percent => 37
  | Conv_other c => c
  end.

Definition show_amount (a : amount) : list Z :=
  match a with Digits ds => ds | Star => [42] end.

Definition show_prec (p : option amount) : list Z :=
  match p with None => [] | Some a => 46 :: show_amount a end.

Definition show_mod (m : modifier) : list Z :=
  match m with
  | No_mod => [] | Mod_l => [108] | Mod_ll => [108; 108] | Mod_h => [104]
  | Mod_hh => [104; 104] | Mod_z => [122] | Mod_j => [106] | Mod_t => [116]
  end.

Definition show_directive (d : directive) : list Z :=
  d_flags d ++ show_amount (d_width d) ++ show_prec (d_prec d) ++ show_mod (d_mod d) ++
  [show_conv (d_conv d)].

Definition show_item (it : item) : list Z :=
  match it with Lit c => [c] | Dir d => 37 :: show_directive d end.

Definition show_format (f : list item) : list Z := concat (show_item <$> f).

Definition is_flag (c : Z) : bool :=
  (c =? 45) || (c =? 48) || (c =? 43) || (c =? 32) || (c =? 35).
Definition is_dec (c : Z) : bool := (48 <=? c) && (c <=? 57).

Definition dec_value (ds : list Z) : Z := fold_left (fun v c => v * 10 + (c - 48)) ds 0.

(** An amount that is read back as written: decimal digits that fit a [usize]. *)
Definition amount_okb (a : amount) : bool :=
  match a with
  | Digits ds => forallb is_dec ds && (dec_value ds <? 2 ^ 64)
  | Star => true
  end.

(** A character that no step of the interpreter before the conversion takes. *)
Definition conv_char_okb (c : Z) : bool :=
  negb (is_flag c || is_dec c || (c =? 0) || (c =? 42) || (c =? 46) || (c =? 108) ||
        (c =? 104) || (c =? 122) || (c =? 106) || (c =? 116)).

Definition known_conv (c : Z) : bool :=
  existsb (Z.eqb c) [100; 105; 117; 120; 88; 111; 112; 115; 99; 37].

Definition conv_okb (k : conversion) : bool :=
  match k with Conv_other c => conv_char_okb c && negb (known_conv c) | _ => true end.

Definition directive_okb (d : directive) : bool :=
  forallb is_flag (d_flags d) && amount_okb (d_width d) &&
  match d_width d with Digits (c :: _) => negb (c =? 48) | _ => true end &&
  match d_prec d with Some a => amount_okb a | None => true end &&
  conv_okb (d_conv d).

Definition item_okb (it : item) : bool :=
  match it with Lit c => negb (c =? 0) && negb (c =? 37) | Dir d => directive_okb d end.

(** *** Meaning *)

Definition spaces (n : Z) : list Z := replicate (Z.to_nat n) 32.
Definition zeros (n : Z) : list Z := replicate (Z.to_nat n) 48.

(** The digits of [v] in [base], most significant first; [fuel] digits at most. *)
Fixpoint digits_fuel (fuel : nat) (base : Z) (upper : bool) (v : Z) : list Z :=
  match fuel with
  | O => []
  | Datatypes.S fuel' =>
      if v =? 0 then []
      else digits_fuel fuel' base upper (v / base) ++ [digit_char upper (v mod base)]
  end.

Definition digits_of : Z -> bool -> Z -> list Z := digits_fuel 64.

(** The digit string of a number with a precision. *)
Definition number_digits (base : Z) (upper : bool) (prec : option Z) (v : Z) : list Z :=
  let ds := if v =? 0 then (if bool_decide (prec = Some 0) then [] else [48])
            else digits_of base upper v in
  zeros (default 0 prec - Zlen ds) ++ ds.

(** A number with its sign, padded to the width. *)
Definition number_text (base : Z) (upper neg : bool) (width : Z) (prec : option Z)
    (zero ljust : bool) (v : Z) : list Z :=
  let ds := number_digits base upper prec v in
  let sign := if neg then [45] else [] in
  let pad := width - (Zlen ds + Zlen sign) in
  if ljust then sign ++ ds ++ spaces pad
  else if zero && bool_decide (prec = None) then sign ++ zeros pad ++ ds
  else spaces pad ++ sign ++ ds.

Definition string_text (width : Z) (ljust : bool) (s : list Z) : list Z :=
  if ljust then s ++ spaces (width - Zlen s) else spaces (width - Zlen s) ++ s.

Definition pop (args : va_list) : option (Z * va_list) :=
  match args with a :: args' => Some (a, args') | [] => None end.

(** The field width: its value, whether it asks for left justification. *)
Definition eval_width (a : amount) (args : va_list) : option (Z * bool * va_list) :=
  match a with
  | Digits ds => Some (dec_value ds, false, args)
  | Star =>
      '(x, args') ← pop args;
      if s32 x =? INT_MIN then None else Some (Z.abs (s32 x), s32 x <? 0, args')
  end.

Definition eval_prec (p : option amount) (args : va_list) : option (option Z * va_list) :=
  match p with
  | None => Some (None, args)
  | Some (Digits ds) => Some (Some (dec_value ds), args)
  | Some Star =>
      '(x, args') ← pop args;
      Some (if 0 <=? s32 x then Some (s32 x) else None, args')
  end.

Definition wide (m : modifier) : bool :=
  match m with Mod_l | Mod_ll | Mod_z | Mod_j | Mod_t => true | _ => false end.

(** A string argument: what [strs] says is in memory at the pointer. *)
Definition string_arg (strs : gmap Z (list Z)) (p : Z) : option (list Z) :=
  if p =? 0 then Some [40; 110; 117; 108; 108; 41] else strs !! p.

Definition cut (prec : option Z) (s : list Z) : list Z :=
  match prec with Some n => take (Z.to_nat n) s | None => s end.

(** A number whose digit string fits the 64-byte scratch array. *)
Definition checked_number (base : Z) (upper neg : bool) (width : Z) (prec : option Z)
    (zero ljust : bool) (v : Z) : option (list Z) :=
  if default 0 prec <=? 64 then Some (number_text base upper neg width prec zero ljust v)
  else None.

Definition eval_conv (strs : gmap Z (list Z)) (k : conversion) (long zero ljust : bool)
    (width : Z) (prec : option Z) (args : va_list) : option (list Z * va_list) :=
  let unsigned base upper :=
    '(x, args') ← pop args;
    out ← checked_number base upper false width prec zero ljust
            (if long then u64 x else u32 x);
    Some (out, args') in
  match k with
  | Conv_d | Conv_i =>
      '(x, args') ← pop args;
      let v := if long then s64 x else s32 x in
      if v =? LONG_MIN then None
      else
        out ← checked_number 10 false (v <? 0) width prec zero ljust (Z.abs v);
        Some (out, args')
  | Conv_u => unsigned 10 false
  | Conv_x => unsigned 16 false
  | Conv_X => unsigned 16 true
  | Conv_o => unsigned 8 false
  | Conv_p =>
      '(x, args') ← pop args;
      Some ([48; 120] ++ number_digits 16 false (Some 1) (u64 x), args')
  | Conv_s =>
      '(x, args') ← pop args;
      s ← string_arg strs (u64 x);
      Some (string_text width ljust (cut prec s), args')
  | Conv_c =>
      '(x, args') ← pop args;
      if 0 <=? s32 x then Some (string_text width ljust [u8 (s32 x)], args') else None
  | Conv_percent => Some ([37], args)
  | Conv_other _ => Some ([], args)
  end.

Definition eval_directive (strs : gmap Z (list Z)) (d : directive) (args : va_list) :
    option (list Z * va_list) :=
  '(width, neg_w, args) ← eval_width (d_width d) args;
  '(prec, args) ← eval_prec (d_prec d) args;
  eval_conv strs (d_conv d) (wide (d_mod d)) (existsb (Z.eqb 48) (d_flags d))
    (existsb (Z.eqb 45) (d_flags d) || neg_w) width prec args.

Fixpoint eval_format (strs : gmap Z (list Z)) (f : list item) (args : va_list) :
    option (list Z) :=
  match f with
  | [] => Some []
  | Lit c :: f' => out ← eval_format strs f' args; Some (c :: out)
  | Dir d :: f' =>
      '(o, args') ← eval_directive strs d args;
      out ← eval_format strs f' args';
      Some (o ++ out)
  end.
