(* ===== verification/FormatCorrect.v ===== *)
(** * Formatted output: correctness

    [vsnprintf] writes exactly the text [eval_format] gives, cut to the buffer
    and terminated, and returns its full length; the digits [%d] prints are
    read back by [strtol]. *)

From S2P Require Import Prelude Machine Memory CString Numeric Format.

(** ** Digits *)

Lemma tmp_push_ret (m : mem) tmp c : Zlen tmp < 64 -> tmp_push tmp c m = Ret (tmp ++ [c]) m.
Proof. intros H. unfold tmp_push. unst. destruct (Z.ltb_spec (Zlen tmp) 64); [done|lia]. Qed.

Lemma gen_digits_loops (m : mem) base upper k val tmp :
  2 <= base -> 0 <= val < 2 ^ Z.of_nat k -> Zlen tmp + Z.of_nat k <= 64 ->
  exists n : nat, Z.of_nat n <= Z.of_nat k /\
  loops (fun '(val, tmp) =>
           if val =? 0 then mret (inr tmp)
           else
             (tmp ← tmp_push tmp (digit_char upper (val mod base));
              mret (inl (val / base, tmp))))
        n (val, tmp) m (Ret (tmp ++ reverse (digits_fuel k base upper val)) m).
Proof.
  intros Hb. revert val tmp. induction k as [|k IH]; intros val tmp Hv Hl.
  - exists O. split; [lia|]. simpl in Hv. assert (val = 0) as -> by lia.
    apply loops_stop. now rewrite app_nil_r.
  - cbn [digits_fuel]. destruct (Z.eqb_spec val 0) as [->|Hv0].
    { exists O. split; [lia|]. apply loops_stop. now rewrite app_nil_r. }
    destruct (IH (val / base) (tmp ++ [digit_char upper (val mod base)])) as (n & Hn & Hlp).
    + split; [apply Z.div_pos; lia|]. apply Z.div_lt_upper_bound; [lia|].
      rewrite Nat2Z.inj_succ, Z.pow_succ_r in Hv by lia. nia.
    + rewrite Zlen_app, Zlen_cons, Zlen_nil. lia.
    + exists (Datatypes.S n). split; [lia|]. eapply loops_step.
      * destruct (Z.eqb_spec val 0); [done|].
        erewrite bind_ret by (apply tmp_push_ret; lia). reflexivity.
      * rewrite reverse_snoc. rewrite <- app_assoc in Hlp. exact Hlp.
Qed.

Lemma gen_digits_ret m v base upper :
  2 <= base -> 0 <= v < 2 ^ 64 ->
  gen_digits v base upper m = Ret (reverse (digits_of base upper v)) m.
Proof.
  intros Hb Hv. destruct (gen_digits_loops m base upper 64 v [] Hb Hv ltac:(done)) as (n & Hn & Hl).
  unfold gen_digits. eapply while_loops; [exact Hl|lia].
Qed.

Lemma digits_fuel_length k base upper v : (length (digits_fuel k base upper v) <= k)%nat.
Proof.
  revert v. induction k as [|k IH]; intros v; simpl; [lia|].
  case_bool; simpl; [lia|]. rewrite length_app. simpl. specialize (IH (v / base)). lia.
Qed.

Lemma pad_digits_ret m n tmp :
  n <= 64 -> pad_digits n tmp m = Ret (tmp ++ zeros (n - Zlen tmp)) m.
Proof.
  intros Hn. unfold pad_digits, zeros.
  eapply (while_loops _ (Z.to_nat (n - Zlen tmp))); [|pose proof (Zlen_nonneg tmp); lia].
  remember (Z.to_nat (n - Zlen tmp)) as k eqn:Hk. revert tmp Hk.
  induction k as [|k IH]; intros tmp Hk.
  - rewrite app_nil_r. apply loops_stop. destruct (Z.ltb_spec (Zlen tmp) n); [lia|done].
  - eapply loops_step.
    + destruct (Z.ltb_spec (Zlen tmp) n); [|lia].
      erewrite bind_ret by (apply tmp_push_ret; lia). reflexivity.
    + specialize (IH (tmp ++ [48])). rewrite <- app_assoc in IH. apply IH.
      rewrite Zlen_app, Zlen_cons, Zlen_nil. lia.
Qed.

Lemma reverse_zeros n : reverse (zeros n) = zeros n.
Proof. apply reverse_replicate. Qed.

Lemma Zlen_reverse {A} (l : list A) : Zlen (reverse l) = Zlen l.
Proof. unfold Zlen. now rewrite length_reverse. Qed.

#[local] Hint Rewrite @Zlen_reverse : zlen.

(** ** What a step of the writer emits *)

Section writer.
Context (m : mem) (s cap lim : Z) (Hcap : 0 <= cap) (Hlim : mapped_range m s lim).

(** The writer and the memory after [out] was emitted. *)
Definition wr (out : list Z) : Writer := mkWriter s cap (Zlen out).
Definition written (out : list Z) : mem := poke_list m s (take (Z.to_nat cap) out).

(** The part of [out] that is stored lies in the [lim] bytes at [s]. *)
Definition room (out : list Z) : Prop := Z.min cap (Zlen out) <= lim /\ Zlen out < 2 ^ 64.

Definition emits (c : Writer -> ST mem Writer) (l : list Z) : Prop :=
  forall out, room (out ++ l) -> c (wr out) (written out) = Ret (wr (out ++ l)) (written (out ++ l)).

Lemma room_prefix out l : room (out ++ l) -> room out.
Proof. unfold room. rewrite Zlen_app. pose proof (Zlen_nonneg l). lia. Qed.

Lemma emits_ext c c' l : (forall w m, c w m = c' w m) -> emits c l -> emits c' l.
Proof. intros E H out Hr. rewrite <- E. now apply H. Qed.

Lemma emits_nil : emits (fun w => mret w) [].
Proof. intros out _. now rewrite app_nil_r. Qed.

Lemma emits_bind c k l1 l2 :
  emits c l1 -> emits k l2 -> emits (fun w => c w ≫= k) (l1 ++ l2).
Proof.
  intros H1 H2 out Hr. rewrite app_assoc in *.
  erewrite bind_ret by (apply H1; eapply room_prefix; exact Hr). now apply H2.
Qed.

Lemma emits_if (b : bool) c1 c2 l1 l2 :
  emits c1 l1 -> emits c2 l2 ->
  emits (fun w => if b then c1 w else c2 w) (if b then l1 else l2).
Proof. now destruct b. Qed.

Lemma emits_putByte c : emits (fun w => putByte w c) [c].
Proof.
  intros out [Hr Hlen]. rewrite Zlen_app, Zlen_cons, Zlen_nil in *.
  pose proof (Zlen_nonneg out). unfold putByte, wr. simpl w_len. simpl w_cap. simpl w_buf.
  erewrite bind_ret.
  - erewrite bind_ret; [now rewrite Zlen_app, Zlen_cons, Zlen_nil|].
    unfold usize. destruct (_ && _) eqn:E; [done|lia].
  - unfold written. destruct (Z.ltb_spec (Zlen out) cap).
    + rewrite !take_ge by (rewrite ?length_app; unfold Zlen in *; simpl; lia).
      rewrite poke_list_snoc. apply store8_ret.
      rewrite is_mapped_poke_list. apply Hlim. lia.
    + rewrite take_app_le by (unfold Zlen in *; lia). done.
Qed.

(** A counted loop that emits one byte per round. *)
Lemma emits_loop {A} (body : Writer * A -> ST mem (Writer * A + Writer)) (next : A -> A)
    (l : list Z) (I : nat -> A -> Prop) a :
  Zlen l < 2 ^ 65 -> I O a ->
  (forall i a c, I i a -> l !! i = Some c -> I (Datatypes.S i) (next a) /\
     forall out, room (out ++ [c]) ->
     body (wr out, a) (written out) = Ret (inl (wr (out ++ [c]), next a)) (written (out ++ [c]))) ->
  (forall a out, I (length l) a -> room out ->
     body (wr out, a) (written out) = Ret (inr (wr out)) (written out)) ->
  emits (fun w => while body (w, a)) l.
Proof.
  intros Hlen H0 Hstep Hstop out Hr.
  eapply (while_loops body (length l)); [|unfold Zlen in *; lia].
  clear Hlen.
  assert (G : forall k l0 i a out, l = l0 ++ k -> i = length l0 -> I i a -> room (out ++ k) ->
    loops body (length k) (wr out, a) (written out) (Ret (wr (out ++ k)) (written (out ++ k)))).
  { clear a H0 out Hr. induction k as [|c k IH]; intros l0 i a out -> -> HI Hr.
    - rewrite app_nil_r in *. apply loops_stop. now apply Hstop.
    - replace (out ++ c :: k) with ((out ++ [c]) ++ k) in * by now rewrite <- app_assoc.
      destruct (Hstep (length l0) a c HI) as [HI' Hb].
      { rewrite lookup_app_r, Nat.sub_diag by lia. done. }
      eapply loops_step; [apply Hb; eapply room_prefix; exact Hr|].
      apply (IH (l0 ++ [c]) (Datatypes.S (length l0))); try done.
      + now rewrite <- app_assoc.
      + rewrite length_app. simpl. lia. }
  now apply (G l [] O).
Qed.

Lemma emits_put_pad c j n :
  0 <= j -> n < 2 ^ 64 -> emits (put_pad c j n) (replicate (Z.to_nat (n - j)) c).
Proof.
  intros Hj Hn. unfold put_pad.
  apply (emits_loop _ (Z.add 1) _ (fun i a => a = j + Z.of_nat i /\ Z.of_nat i <= Z.max 0 (n - j))).
  - rewrite Zlen_replicate. lia.
  - lia.
  - intros i a x [-> Hi] Hx. apply lookup_replicate in Hx as [-> Hi'].
    split; [lia|]. intros out Hr. destruct (Z.ltb_spec (j + Z.of_nat i) n); [|lia].
    erewrite bind_ret by (now apply emits_putByte).
    now replace (1 + (j + Z.of_nat i)) with (j + Z.of_nat i + 1) by lia.
  - intros a out [-> Hi] Hr. rewrite length_replicate in *.
    destruct (Z.ltb_spec (j + Z.of_nat (Z.to_nat (n - j))) n); [lia|done].
Qed.

Lemma emits_put_reversed tmp :
  Zlen tmp < 2 ^ 65 -> emits (put_reversed tmp) (reverse tmp).
Proof.
  intros Hlen. unfold put_reversed.
  apply (emits_loop _ (fun k => k - 1) _
           (fun i k => k = Zlen tmp - Z.of_nat i /\ Z.of_nat i <= Zlen tmp)).
  - unfold Zlen in *. now rewrite length_reverse.
  - unfold Zlen. lia.
  - intros i k c [-> Hi] Hc. pose proof (lookup_lt_Some _ _ _ Hc) as Hlt.
    rewrite length_reverse in Hlt. split; [unfold Zlen in *; lia|]. intros out Hr.
    destruct (Z.ltb_spec 0 (Zlen tmp - Z.of_nat i)); [|unfold Zlen in *; lia].
    rewrite reverse_lookup in Hc by done.
    replace (Z.to_nat (Zlen tmp - Z.of_nat i - 1)) with (length tmp - Datatypes.S i)%nat
      by (unfold Zlen; lia).
    rewrite Hc. erewrite bind_ret by (now apply emits_putByte). done.
  - intros k out [-> Hi] Hr. rewrite length_reverse in *.
    destruct (Z.ltb_spec 0 (Zlen tmp - Z.of_nat (length tmp))); [unfold Zlen in *; lia|done].
Qed.

(** Memory outside the buffer is as it was. *)
Lemma peek_written out q : room out -> q < s \/ s + lim <= q -> peek (written out) q = peek m q.
Proof.
  intros [Hr _] Hq. unfold written. apply peek_poke_list_out.
  unfold Zlen in *. rewrite length_take. lia.
Qed.

(** The bytes a slice stands for, in memory outside the buffer. *)
Definition slice_is (sl : slice) (l : list Z) : Prop :=
  match sl with
  | Const k => k = l
  | At p n => n = Zlen l /\ bytes_at m p l /\ (p + n <= s \/ s + lim <= p)
  end.

Lemma slice_is_len sl l : slice_is sl l -> slice_len sl = Zlen l.
Proof. destruct sl; simpl; [now intros ->|now intros (-> & _)]. Qed.

Lemma slice_get_ret sl l i c out :
  slice_is sl l -> l !! i = Some c -> room out ->
  slice_get sl (Z.of_nat i) (written out) = Ret c (written out).
Proof.
  intros Hs Hc Hr. destruct sl as [k|p n]; simpl in *.
  - subst k. now rewrite Nat2Z.id, Hc.
  - destruct Hs as (-> & Hb & Hd). apply load8_ret.
    pose proof (lookup_lt_Some _ _ _ Hc). rewrite peek_written by (unfold Zlen in *; done || lia).
    eapply bytes_at_peek; eassumption.
Qed.

Lemma emits_putStr sl l :
  slice_is sl l -> Zlen l < 2 ^ 65 -> emits (fun w => putStr w sl) l.
Proof.
  intros Hs Hlen. unfold putStr.
  apply (emits_loop _ (Z.add 1) _ (fun i a => a = Z.of_nat i /\ Z.of_nat i <= Zlen l)); [done| | |].
  - unfold Zlen. lia.
  - intros i a c [-> Hi] Hc. pose proof (lookup_lt_Some _ _ _ Hc).
    split; [unfold Zlen; lia|]. intros out Hr. rewrite (slice_is_len sl l) by done.
    destruct (Z.ltb_spec (Z.of_nat i) (Zlen l)); [|unfold Zlen in *; lia].
    erewrite bind_ret by (apply (slice_get_ret sl l); [done|exact Hc|eapply room_prefix; exact Hr]).
    erewrite bind_ret by (now apply emits_putByte).
    now replace (1 + Z.of_nat i) with (Z.of_nat i + 1) by lia.
  - intros a out [-> Hi] Hr. rewrite (slice_is_len sl l) by done.
    destruct (Z.ltb_spec (Z.of_nat (length l)) (Zlen l)); [unfold Zlen in *; lia|done].
Qed.

Lemma emits_fmtStr sl l width ljust :
  slice_is sl l -> Zlen l < 2 ^ 64 -> width < 2 ^ 64 ->
  emits (fun w => fmtStr w sl width ljust) (string_text width ljust l).
Proof.
  intros Hs Hlen Hw. pose proof (Zlen_nonneg l). unfold fmtStr, string_text, spaces.
  rewrite (slice_is_len sl l) by done. destruct ljust.
  - apply (emits_ext (fun w => putStr w sl ≫= put_pad 32 (Zlen l) width)).
    { intros w m'. now rewrite bind_mret. }
    apply emits_bind; [apply emits_putStr; [done|lia]|]. now apply emits_put_pad.
  - apply (emits_ext (fun w => put_pad 32 (Zlen l) width w ≫= fun w => putStr w sl)).
    { intros w m'. unst. destruct (put_pad _ _ _ _ _); [|done..]. now destruct (putStr _ _ _). }
    apply emits_bind; [now apply emits_put_pad|]. apply emits_putStr; [done|lia].
Qed.

(** A computation that reads memory comes before what is emitted. *)
Lemma emits_pre {A} (c : ST mem A) (k : A -> Writer -> ST mem Writer) a l :
  (forall m', c m' = Ret a m') -> emits (k a) l -> emits (fun w => c ≫= fun x => k x w) l.
Proof. intros Hc Hk out Hr. erewrite bind_ret by apply Hc. now apply Hk. Qed.

Lemma emits_sign (neg : bool) :
  emits (fun w => if neg then putByte w 45 else mret w) (if neg then [45] else []).
Proof. destruct neg; [apply emits_putByte|apply emits_nil]. Qed.

Lemma emits_fmtUint v base upper neg width prec zero ljust :
  0 <= v < 2 ^ 64 -> 2 <= base -> default 0 prec <= 64 -> width < 2 ^ 64 ->
  emits (fun w => fmtUint w v base upper neg width prec zero ljust)
        (number_text base upper neg width prec zero ljust v).
Proof.
  intros Hv Hb Hp Hw. unfold fmtUint.
  set (ds := if v =? 0 then if bool_decide (prec = Some 0) then [] else [48]
             else digits_of base upper v).
  apply (emits_pre _ _ (reverse ds)).
  { intros m'. unfold ds. destruct (Z.eqb_spec v 0); [|now apply gen_digits_ret].
    now destruct (bool_decide _). }
  apply (emits_pre _ _ (reverse (number_digits base upper prec v))).
  { intros m'. rewrite pad_digits_ret by done. unfold number_digits. fold ds.
    rewrite Zlen_reverse, reverse_app, reverse_zeros. done. }
  unfold number_text. set (nd := number_digits base upper prec v). rewrite Zlen_reverse.
  set (pad := width - (Zlen nd + Zlen (if neg then [45] else []))).
  assert (Hpad : forall c, emits (put_pad c 0 (if Zlen nd + (if neg then 1 else 0) <? width
                   then width - (Zlen nd + (if neg then 1 else 0)) else 0))
                 (replicate (Z.to_nat pad) c)).
  { intros c. pose proof (Zlen_nonneg nd).
    replace (Z.to_nat pad) with (Z.to_nat ((if Zlen nd + (if neg then 1 else 0) <? width
                   then width - (Zlen nd + (if neg then 1 else 0)) else 0) - 0)).
    - apply emits_put_pad; [done..|]. case_bool; destruct neg; lia.
    - unfold pad. destruct neg; unfold Zlen; simpl length; case_bool; lia. }
  assert (Hnd : emits (put_reversed (reverse nd)) nd).
  { rewrite <- (reverse_involutive nd) at 2. apply emits_put_reversed.
    unfold nd, number_digits. fold ds. zlen.
    assert (Zlen ds <= 64).
    { unfold ds. pose proof (digits_fuel_length 64 base upper v). unfold digits_of, Zlen in *.
      case_bool; [destruct (bool_decide _); simpl; lia|lia]. }
    pose proof (Zlen_nonneg ds). unfold zeros. zlen. lia. }
  cbv zeta. destruct ljust; [|destruct (zero && _)].
  - apply emits_bind; [apply emits_sign|]. apply emits_bind; [done|]. apply Hpad.
  - rewrite app_assoc. apply emits_bind.
    + apply emits_bind; [apply emits_sign|apply Hpad].
    + rewrite <- (app_nil_r nd) at 1. apply emits_bind; [done|]. apply emits_nil.
  - rewrite app_assoc. apply emits_bind.
    + apply emits_bind; [apply Hpad|apply emits_sign].
    + rewrite <- (app_nil_r nd) at 1. apply emits_bind; [done|]. apply emits_nil.
Qed.

End writer.

(** ** Parsing a directive *)

Section parse.
Context (M : mem) (fmt : Z).

Lemma parse_flags_ret i fl rest :
  forallb is_flag fl = true -> is_flag (hd 0 rest) = false -> Zlen fl < 2 ^ 64 ->
  cstr M (fmt + i) (fl ++ rest) ->
  parse_flags fmt i M = Ret (existsb (Z.eqb 45) fl, existsb (Z.eqb 48) fl, i + Zlen fl) M.
Proof.
  intros Hfl Hrest Hlen Hs. unfold parse_flags.
  eapply (while_loops _ (length fl)); [|unfold Zlen in *; lia]. clear Hlen.
  enough (G : forall lj zr, loops (fun '(ljust, zero, i) =>
      c ← load8 (fmt + i);
      if c =? 45 then mret (inl (true, zero, i + 1))
      else if c =? 48 then mret (inl (ljust, true, i + 1))
      else if (c =? 43) || (c =? 32) || (c =? 35) then mret (inl (ljust, zero, i + 1))
      else mret (inr (ljust, zero, i))) (length fl) (lj, zr, i) M
      (Ret (lj || existsb (Z.eqb 45) fl, zr || existsb (Z.eqb 48) fl, i + Zlen fl) M))
    by apply (G false false).
  revert i Hs. induction fl as [|c fl IH]; intros i Hs lj zr.
  - simpl. rewrite Zlen_nil, Z.add_0_r, !orb_false_r. apply loops_stop.
    erewrite bind_ret by (eapply load8_hd; eassumption). cbn [app]. unfold is_flag in Hrest.
    rewrite !orb_false_iff in Hrest. destruct Hrest as [[[[H1 H2] H3] H4] H5].
    now rewrite H1, H2, H3, H4, H5.
  - simpl in Hfl. apply andb_prop in Hfl as [Hc Hfl].
    pose proof (cstr_drop _ _ [c] _ Hs) as Hs'. rewrite Zlen_cons, Zlen_nil, <- Z.add_assoc in Hs'.
    specialize (IH Hfl _ Hs'). eapply loops_step.
    + erewrite bind_ret by (eapply load8_hd; eassumption). cbn [hd app]. unfold is_flag in Hc.
      instantiate (1 := M). instantiate (1 := (lj || (45 =? c), zr || (48 =? c), i + 1)).
      rewrite (Z.eqb_sym 45), (Z.eqb_sym 48).
      destruct (Z.eqb_spec c 45) as [->|]; [now rewrite orb_true_r, orb_false_r|].
      destruct (Z.eqb_spec c 48) as [->|]; [now rewrite orb_true_r, orb_false_r|].
      rewrite !orb_false_r. simpl in Hc. now rewrite Hc.
    + rewrite Zlen_cons. cbn [existsb]. rewrite !orb_assoc.
      replace (i + (Zlen fl + 1)) with (i + 1 + Zlen fl) by lia. apply IH.
Qed.

Lemma dec_fold_ge ds v :
  0 <= v -> forallb is_dec ds = true -> v <= fold_left (fun v c => v * 10 + (c - 48)) ds v.
Proof.
  revert v. induction ds as [|c ds IH]; intros v Hv Hd; simpl in *; [lia|].
  apply andb_prop in Hd as [Hc Hd]. unfold is_dec in Hc.
  specialize (IH (v * 10 + (c - 48)) ltac:(lia) Hd). lia.
Qed.

Lemma usize_ret {S} x (st : S) : 0 <= x < 2 ^ 64 -> usize x st = Ret x st.
Proof. intros H. unfold usize. destruct (_ && _) eqn:E; [done|lia]. Qed.

Lemma parse_amount_ret i ds rest :
  forallb is_dec ds = true -> dec_value ds < 2 ^ 64 -> is_dec (hd 0 rest) = false ->
  Zlen ds < 2 ^ 64 -> cstr M (fmt + i) (ds ++ rest) ->
  parse_amount fmt i M = Ret (dec_value ds, i + Zlen ds) M.
Proof.
  intros Hds Hv Hrest Hlen Hs. unfold parse_amount.
  eapply (while_loops _ (length ds)); [|unfold Zlen in *; lia]. clear Hlen.
  unfold dec_value in *. assert (H0 : 0 <= 0) by lia. revert H0 i Hs Hv.
  generalize 0 at 2 3 4 5. induction ds as [|c ds IH]; intros v Hv0 i Hs Hv.
  - simpl. rewrite Zlen_nil, Z.add_0_r. apply loops_stop.
    erewrite bind_ret by (eapply load8_hd; eassumption). cbn [app]. unfold is_dec in Hrest.
    now rewrite Hrest.
  - cbn [forallb fold_left] in *. apply andb_prop in Hds as [Hc Hds].
    pose proof (cstr_drop _ _ [c] _ Hs) as Hs'. rewrite Zlen_cons, Zlen_nil, <- Z.add_assoc in Hs'.
    unfold is_dec in Hc. pose proof (dec_fold_ge ds (v * 10 + (c - 48)) ltac:(lia) Hds).
    eapply loops_step.
    + erewrite bind_ret by (eapply load8_hd; eassumption). cbn [hd app]. rewrite Hc.
      do 2 erewrite bind_ret by (apply usize_ret; lia). reflexivity.
    + rewrite Zlen_cons. replace (i + (Zlen ds + 1)) with (i + 1 + Zlen ds) by lia.
      apply IH; [done|lia|done|done].
Qed.

Lemma parse_width_ret i a lj args w neg args' rest :
  amount_okb a = true -> Zlen (show_amount a) < 2 ^ 64 ->
  is_dec (hd 0 rest) = false -> hd 0 rest <> 42 ->
  cstr M (fmt + i) (show_amount a ++ rest) -> eval_width a args = Some (w, neg, args') ->
  parse_width fmt i lj args M = Ret (w, lj || neg, i + Zlen (show_amount a), args') M.
Proof.
  intros Ha Hl Hd H42 Hs He. unfold parse_width. destruct a as [ds|]; simpl in *.
  - apply andb_prop in Ha as [Hds Hv]. injection He as <- <- <-.
    erewrite bind_ret by (eapply (parse_amount_ret _ ds rest); [done|lia|done|lia|eassumption]). cbv beta iota.
    rewrite Z.add_assoc. erewrite bind_ret by (eapply load8_hd, cstr_drop; eassumption).
    destruct (Z.eqb_spec (hd 0 rest) 42); [done|]. now rewrite orb_false_r.
  - erewrite bind_ret by (eapply (parse_amount_ret i [] (42 :: rest)); [done..|exact Hs]).
    cbv beta iota. change (Zlen []) with 0. rewrite Z.add_0_r.
    erewrite bind_ret by (eapply load8_hd; eassumption).
    cbn [hd Z.eqb Pos.eqb]. destruct args as [|x args]; [done|]. simpl in He.
    destruct (Z.eqb_spec (s32 x) INT_MIN) as [|Hx]; [done|]. injection He as <- <- <-.
    cbn [va_arg]. unfold mbind at 1, ST_bind at 1, mret at 1, ST_ret at 1.
    assert (INT_MIN <= s32 x <= INT_MAX).
    { unfold s32, INT_MIN, INT_MAX. pose proof (Z.mod_pos_bound (x + 2 ^ 31) (2 ^ 32)). lia. }
    destruct (Z.ltb_spec (s32 x) 0).
    + erewrite bind_ret by (apply signed_int_ret; unfold INT_MIN, INT_MAX in *; lia).
      rewrite orb_true_r. unst. repeat f_equal. lia.
    + rewrite orb_false_r. unst. repeat f_equal. lia.
Qed.

Lemma parse_precision_ret i p args pr args' rest :
  match p with Some a => amount_okb a | None => true end = true ->
  Zlen (show_prec p) < 2 ^ 64 ->
  is_dec (hd 0 rest) = false -> hd 0 rest <> 42 -> hd 0 rest <> 46 ->
  cstr M (fmt + i) (show_prec p ++ rest) -> eval_prec p args = Some (pr, args') ->
  parse_precision fmt i args M = Ret (pr, i + Zlen (show_prec p), args') M.
Proof.
  intros Hp Hl Hd H42 H46 Hs He. unfold parse_precision.
  erewrite bind_ret by (eapply load8_hd; eassumption). destruct p as [a|]; simpl in *.
  2: { injection He as <- <-. destruct (Z.eqb_spec (hd 0 rest) 46); [done|].
       now rewrite Zlen_nil, Z.add_0_r. }
  rewrite Zlen_cons in *. pose proof (Zlen_nonneg (show_amount a)).
  pose proof (cstr_drop _ _ [46] _ Hs) as Hs'. rewrite Zlen_cons, Zlen_nil, <- Z.add_assoc in Hs'.
  change (0 + 1) with 1 in Hs'. destruct a as [ds|]; simpl in *.
  - apply andb_prop in Hp as [Hds Hv]. injection He as <- <-.
    erewrite bind_ret by (eapply (parse_amount_ret _ ds rest); [done|lia|done|lia|eassumption]). cbv beta iota.
    rewrite Z.add_assoc. erewrite bind_ret by (eapply load8_hd, cstr_drop; eassumption).
    destruct (Z.eqb_spec (hd 0 rest) 42); [done|]. 
    now replace (i + 1 + Zlen ds) with (i + (Zlen ds + 1)) by lia.
  - erewrite bind_ret by (eapply (parse_amount_ret (i + 1) [] (42 :: rest)); [done..|exact Hs']).
    cbv beta iota. change (Zlen []) with 0. rewrite Z.add_0_r. erewrite bind_ret by (eapply load8_hd; eassumption).
    destruct args as [|x args]; [done|]. injection He as <- <-.
    unst. cbn. now replace (i + 1 + 1) with (i + 2) by lia.
Qed.

Definition longness_of (md : modifier) : Z :=
  match md with Mod_ll => 2 | Mod_l | Mod_z | Mod_j | Mod_t => 1 | _ => 0 end.

Lemma parse_length_ret i md rest :
  conv_char_okb (hd 0 rest) = true -> cstr M (fmt + i) (show_mod md ++ rest) ->
  parse_length fmt i M = Ret (longness_of md, i + Zlen (show_mod md)) M.
Proof.
  intros Hc Hs. unfold conv_char_okb in Hc. rewrite negb_true_iff in Hc.
  repeat (apply orb_false_elim in Hc as [Hc ?]).
  unfold parse_length. erewrite bind_ret by (eapply load8_hd; eassumption).
  assert (Hs' : forall x l, show_mod md = x :: l -> cstr M (fmt + (i + 1)) (l ++ rest)).
  { intros x l E. rewrite E in Hs. rewrite Z.add_assoc. now apply (cstr_drop _ _ [x]). }
  assert (Hz : forall k, Zlen (A := Z) k = Z.of_nat (length k)) by done.
  destruct md; rewrite ?Hz; simpl in *;
    try (erewrite bind_ret by (eapply load8_hd, Hs'; reflexivity)); simpl;
    repeat match goal with H : (hd 0 rest =? _) = false |- _ => rewrite H; clear H end;
    simpl; unst; repeat f_equal; lia.
Qed.

End parse.

(** ** The interpreter *)

Section format.
Context (m : mem) (Hm : mem_ok m) (s cap lim : Z) (Hcap : 0 <= cap)
        (Hlim : mapped_range m s lim).
Context (strs : gmap Z (list Z)).
Context (Hstrs : forall p t, strs !! p = Some t ->
           cstr m p t /\ (p + Zlen t + 1 <= s \/ s + lim <= p)).

Abbreviation wr := (wr s cap).
Abbreviation written := (written m s cap).
Abbreviation room := (room cap lim).
Abbreviation emits := (emits m s cap lim).

Lemma mem_ok_written out : room out -> mem_ok (written out).
Proof.
  intros [Hr _]. apply mem_ok_poke_list; [done|]. intros q Hq. apply Hlim.
  unfold Zlen in *. rewrite length_take in Hq. lia.
Qed.

Lemma cstr_written out p t :
  room out -> cstr m p t -> p + Zlen t + 1 <= s \/ s + lim <= p -> cstr (written out) p t.
Proof.
  intros Hr [Hb Hnz] Hd. split; [|done]. eapply bytes_at_ext; [|exact Hb].
  intros q Hq. rewrite Zlen_app, Zlen_cons, Zlen_nil in Hq.
  apply (peek_written m s cap lim); [done..|lia].
Qed.

Definition prec_ok (prec : option Z) : Prop := match prec with Some n => 0 <= n | None => True end.

(** A piece of the output that depends on the arguments read so far. *)
Lemma emits_ret {B} (c : Writer -> ST mem Writer) l (b : B) out :
  emits c l -> room (out ++ l) ->
  (w ← c (wr out); mret (w, b)) (written out) = Ret (wr (out ++ l), b) (written (out ++ l)).
Proof. intros Hc Hr. now erewrite bind_ret by (now apply Hc). Qed.

Lemma span_or_null_ret x t out :
  string_arg strs x = Some t -> room out ->
  exists sl, span_or_null x (written out) = Ret sl (written out) /\ Zlen t < 2 ^ 64 /\
  forall prec, prec_ok prec ->
    slice_is m s lim (match prec with Some pr => shorten sl pr | None => sl end) (cut prec t).
Proof.
  unfold string_arg, span_or_null. intros Ht Hr. destruct (Z.eqb_spec x 0) as [|Hx0].
  - injection Ht as <-. eexists. split; [reflexivity|]. split; [reflexivity|].
    intros [n|] Hn; reflexivity.
  - destruct (Hstrs x t Ht) as [Hc Hd]. pose proof (cstr_bound m x t Hm Hc).
    erewrite bind_ret by (apply (strlen_ret _ x t); [now apply mem_ok_written|now apply cstr_written]).
    eexists. split; [reflexivity|]. split; [lia|]. destruct Hc as [Hb _].
    apply bytes_at_app in Hb as [Hb _]. pose proof (Zlen_nonneg t).
    intros [n|] Hn; simpl; [|split; [done|]; split; [done|lia]].
    rewrite <- (take_drop (Z.to_nat n) t), bytes_at_app in Hb. simpl in Hn.
    assert (Z.min n (Zlen t) = Zlen (take (Z.to_nat n) t)) as ->.
    { unfold Zlen. rewrite length_take. lia. }
    split; [done|]. split; [easy|]. unfold Zlen in *. rewrite length_take. lia.
Qed.

Lemma number_ret base upper neg width prec zero lj v o out :
  checked_number base upper neg width prec zero lj v = Some o ->
  0 <= v < 2 ^ 64 -> 2 <= base -> width < 2 ^ 64 -> room (out ++ o) ->
  fmtUint (wr out) v base upper neg width prec zero lj (written out) =
  Ret (wr (out ++ o)) (written (out ++ o)).
Proof.
  unfold checked_number. case_bool; [|done]. intros [= <-] Hv Hb Hw Hr.
  now apply (emits_fmtUint m s cap lim).
Qed.

Lemma arg_range (long : bool) x : 0 <= (if long then u64 x else u32 x) < 2 ^ 64.
Proof. destruct long; [apply u64_range|]. pose proof (u32_range x). lia. Qed.

Lemma signed_arg_range (long : bool) x :
  LONG_MIN <= (if long then s64 x else s32 x) <= LONG_MAX.
Proof.
  unfold s64, s32, LONG_MIN, LONG_MAX.
  pose proof (Z.mod_pos_bound (x + 2 ^ 63) (2 ^ 64)). 
  pose proof (Z.mod_pos_bound (x + 2 ^ 31) (2 ^ 32)). destruct long; lia.
Qed.

Lemma longness_wide md : (longness_of md =? 0) = negb (wide md).
Proof. now destruct md. Qed.

(** The unsigned conversions share this step. *)
Lemma unsigned_ret md base upper width prec zero lj args o args' out :
  2 <= base -> width < 2 ^ 64 -> room (out ++ o) ->
  ('(x, args') ← pop args;
   o ← checked_number base upper false width prec zero lj
         (if wide md then u64 x else u32 x);
   Some (o, args')) = Some (o, args') ->
  ('(v, args) ← unsigned_arg (longness_of md) args;
   w ← fmtUint (wr out) v base upper false width prec zero lj;
   mret (w, args)) (written out) = Ret (wr (out ++ o), args') (written (out ++ o)).
Proof.
  intros Hb Hw Hr He. destruct args as [|x args]; [done|].
  cbn [pop mbind option_bind] in He.
  destruct (checked_number _ _ _ _ _ _ _ _) as [o'|] eqn:Eo; [|done]. injection He as -> ->.
  unfold unsigned_arg. rewrite longness_wide. cbn [va_arg]. rewrite bind_mret.
  erewrite bind_ret; [reflexivity|]. apply number_ret; try done.
  - destruct (wide md); exact Eo.
  - destruct (wide md); [apply (arg_range true)|apply (arg_range false)].
Qed.

Lemma signed_ret md width prec zero lj args o args' out :
  width < 2 ^ 64 -> room (out ++ o) ->
  ('(x, args') ← pop args;
   let v := if wide md then s64 x else s32 x in
   if v =? LONG_MIN then None
   else o ← checked_number 10 false (v <? 0) width prec zero lj (Z.abs v); Some (o, args')) =
  Some (o, args') ->
  ('(v, args) ← signed_arg (longness_of md) args;
   abs_v ← (if v <? 0 then signed_long (- v) else mret v);
   w ← fmtUint (wr out) abs_v 10 false (v <? 0) width prec zero lj;
   mret (w, args)) (written out) = Ret (wr (out ++ o), args') (written (out ++ o)).
Proof.
  intros Hw Hr He. destruct args as [|x args]; [done|]. cbn [pop mbind option_bind] in He.
  unfold signed_arg. rewrite longness_wide. cbn [va_arg]. rewrite bind_mret.
  pose proof (signed_arg_range (wide md) x) as Hx.
  replace ((if negb (wide md) then s32 else s64) x)
    with (if wide md then s64 x else s32 x) by (now destruct (wide md)).
  cbv zeta in He. revert Hx He. generalize (if wide md then s64 x else s32 x). intros v Hx He.
  destruct (Z.eqb_spec v LONG_MIN) as [|Hv]; [done|].
  destruct (checked_number _ _ _ _ _ _ _ _) as [o'|] eqn:Eo; [|done]. injection He as -> ->.
  unfold LONG_MIN, LONG_MAX in *. erewrite bind_ret; [erewrite bind_ret; [reflexivity|]|].
  - apply (number_ret 10 false (v <? 0) width prec zero lj (Z.abs v)); try done. lia.
  - case_bool; [rewrite Z.abs_neq by lia; apply signed_long_ret;
                unfold LONG_MIN, LONG_MAX; lia|now rewrite Z.abs_eq by lia].
Qed.

Lemma pointer_ret x out (b : va_list) :
  let o := [48; 120] ++ number_digits 16 false (Some 1) (u64 x) in
  room (out ++ o) ->
  (w ← putByte (wr out) 48;
   w ← putByte w 120;
   w ← fmtUint w (u64 x) 16 false false 0 (Some 1) false false;
   mret (w, b)) (written out) = Ret (wr (out ++ o), b) (written (out ++ o)).
Proof.
  intros o Hr. unfold o in *. clear o.
  assert (Hn : number_digits 16 false (Some 1) (u64 x) =
               number_text 16 false false 0 (Some 1) false false (u64 x)).
  { unfold number_text, spaces. simpl. rewrite Z2Nat.nonpos; [done|].
    pose proof (Zlen_nonneg (number_digits 16 false (Some 1) (u64 x))). change (Zlen []) with 0. lia. }
  pose proof Hr as Hr'. rewrite app_assoc in Hr'. apply room_prefix in Hr' as Hr2.
  change ([48; 120]) with ([48] ++ [120]) in *. rewrite !app_assoc in *.
  apply room_prefix in Hr2 as Hr1.
  erewrite bind_ret by (apply (emits_putByte m s cap lim); done).
  erewrite bind_ret by (apply (emits_putByte m s cap lim); done).
  apply (emits_ret (fun w => fmtUint w (u64 x) 16 false false 0 (Some 1) false false)); [|done].
  rewrite Hn. apply emits_fmtUint; try done. apply u64_range.
Qed.

Lemma convert_ret k md zero lj width prec args o args' out :
  conv_okb k = true -> width < 2 ^ 64 -> prec_ok prec -> room (out ++ o) ->
  eval_conv strs k (wide md) zero lj width prec args = Some (o, args') ->
  convert (show_conv k) (wr out) lj zero width prec (longness_of md) args (written out) =
  Ret (wr (out ++ o), args') (written (out ++ o)).
Proof.
  intros Hk Hw Hp Hr He. unfold convert.
  pose proof (room_prefix _ _ _ _ Hr) as Hr0.
  destruct k; cbn [show_conv Z.eqb Pos.eqb orb]; unfold eval_conv in He;
    try (apply unsigned_ret; [lia|done..]); try (now apply signed_ret).
  - destruct args as [|x args]; [done|]. cbn [pop mbind option_bind] in He. injection He as <- <-.
    cbn [va_arg]. rewrite bind_mret. now apply pointer_ret.
  - destruct args as [|x args]; [done|]. cbn [pop mbind option_bind] in He.
    destruct (string_arg strs (u64 x)) as [t|] eqn:Et; [|done]. injection He as <- <-.
    destruct (span_or_null_ret (u64 x) t out Et Hr0) as (sl & Hsl & Ht & Hcut).
    cbn [va_arg]. rewrite bind_mret. erewrite bind_ret by exact Hsl. cbv zeta.
    apply (emits_ret (fun w => fmtStr w _ width lj)); [|done].
    apply emits_fmtStr; try done; [now apply Hcut|].
    unfold cut. destruct prec; [|done]. unfold Zlen in *. rewrite length_take. lia.
  - destruct args as [|x args]; [done|]. cbn [pop mbind option_bind] in He.
    destruct (Z.leb_spec 0 (s32 x)); [|done]. injection He as <- <-.
    cbn [va_arg]. rewrite bind_mret. erewrite bind_ret; [|unfold guard_c; case_bool; [done|lia]].
    apply (emits_ret (fun w => fmtStr w _ width lj)); [|done]. now apply emits_fmtStr.
  - injection He as <- <-. apply (emits_ret (fun w => putByte w 37)); [|done].
    now apply emits_putByte.
  - injection He as <- <-. rewrite app_nil_r. simpl in Hk. apply andb_prop in Hk as [_ Hk].
    unfold known_conv in Hk. rewrite negb_true_iff in Hk. cbn [existsb] in Hk.
    rewrite !orb_false_iff in Hk.
    destruct Hk as (H1 & H2 & H3 & H4 & H5 & H6 & H7 & H8 & H9 & H10 & _).
    now rewrite H1, H2, H3, H4, H5, H6, H7, H8, H9, H10.
Qed.

Lemma conv_char k : conv_okb k = true -> conv_char_okb (show_conv k) = true.
Proof. destruct k; try done. simpl. now intros [? _]%andb_prop. Qed.

(** What follows a width cannot be taken for a part of it. *)
Lemma head_mod md k rest :
  conv_okb k = true ->
  let h := hd 0 (show_mod md ++ show_conv k :: rest) in
  is_flag h = false /\ is_dec h = false /\ h <> 42 /\ h <> 46.
Proof.
  intros Hk%conv_char. destruct md; simpl; try (now repeat split).
  unfold conv_char_okb in Hk. rewrite negb_true_iff, !orb_false_iff in Hk.
  destruct Hk as (((((((((H1 & H2) & H3) & H4) & H5) & _) & _) & _) & _) & _).
  repeat split; try done; intros E; rewrite E in *; done.
Qed.

Lemma head_prec p rest :
  is_flag (hd 0 rest) = false -> is_dec (hd 0 rest) = false -> hd 0 rest <> 42 ->
  let h := hd 0 (show_prec p ++ rest) in is_flag h = false /\ is_dec h = false /\ h <> 42.
Proof. destruct p; simpl; [now repeat split|auto]. Qed.

Lemma head_width a rest :
  amount_okb a = true -> match a with Digits (c :: _) => negb (c =? 48) | _ => true end = true ->
  is_flag (hd 0 rest) = false -> is_flag (hd 0 (show_amount a ++ rest)) = false.
Proof.
  destruct a as [[|c ds]|]; [done| |done]. simpl. intros Ha Hc _. unfold is_dec, is_flag in *. lia.
Qed.

Lemma dec_value_nonneg ds : forallb is_dec ds = true -> 0 <= dec_value ds.
Proof. intros H. unfold dec_value. now apply dec_fold_ge. Qed.

Lemma eval_width_bound a args w neg args' :
  amount_okb a = true -> eval_width a args = Some (w, neg, args') -> w < 2 ^ 64.
Proof.
  destruct a as [ds|]; simpl.
  - intros [_ H]%andb_prop [= <- _ _]. lia.
  - destruct args as [|x args]; [done|]. simpl. case_bool; [done|]. intros _ [= <- _ _].
    unfold s32. pose proof (Z.mod_pos_bound (x + 2 ^ 31) (2 ^ 32)). lia.
Qed.

Lemma eval_prec_ok p args pr args' :
  match p with Some a => amount_okb a | None => true end = true ->
  eval_prec p args = Some (pr, args') -> prec_ok pr.
Proof.
  destruct p as [[ds|]|]; simpl.
  - intros [H _]%andb_prop [= <- _]. now apply dec_value_nonneg.
  - destruct args as [|x args]; [done|]. simpl. intros _ [= <- _]. now case_bool.
  - now intros _ [= <- _].
Qed.

Lemma format_directive_ret fmt i d rest args o args' out :
  directive_okb d = true -> room (out ++ o) ->
  cstr m (fmt + i) (show_directive d ++ rest) ->
  (fmt + i + Zlen (show_directive d ++ rest) + 1 <= s \/ s + lim <= fmt + i) ->
  eval_directive strs d args = Some (o, args') ->
  format_directive fmt (wr out) i args (written out) =
  Ret (wr (out ++ o), i + Zlen (show_directive d), args') (written (out ++ o)).
Proof.
  intros Hd Hr Hs Hdis He. pose proof (room_prefix _ _ _ _ Hr) as Hr0.
  pose proof (cstr_bound m _ _ Hm Hs) as Hbd.
  apply (cstr_written out) in Hs; [|done..]. clear Hdis.
  unfold directive_okb in Hd. rewrite !andb_true_iff in Hd.
  destruct Hd as ((((Hf & Hw) & Hw0) & Hp) & Hk). unfold show_directive in *.
  destruct d as [fl wd pr md k]. cbn [d_flags d_width d_prec d_mod d_conv] in *.
  unfold eval_directive in He. cbn [d_flags d_width d_prec d_mod d_conv] in He.
  rewrite <- !app_assoc in *. cbn [app] in *.
  destruct (eval_width wd args) as [[[w neg] args1]|] eqn:Ew; [|done]. cbn [mbind option_bind] in He.
  destruct (eval_prec pr args1) as [[pv args2]|] eqn:Ep; [|done]. cbn [mbind option_bind] in He.
  destruct (head_mod md k rest Hk) as (M1 & M2 & M3 & M4).
  destruct (head_prec pr _ M1 M2 M3) as (P1 & P2 & P3).
  pose proof (head_width wd _ Hw Hw0 P1) as W1.
  assert (HL : forall A (l1 l2 : list A), Zlen (l1 ++ l2) = Zlen l1 + Zlen l2) by (intros; apply Zlen_app).
  rewrite !HL, Zlen_cons in Hbd.
  pose proof (Zlen_nonneg fl). pose proof (Zlen_nonneg (show_amount wd)).
  pose proof (Zlen_nonneg (show_prec pr)). pose proof (Zlen_nonneg (show_mod md)).
  pose proof (Zlen_nonneg rest).
  unfold format_directive.
  erewrite bind_ret by (eapply parse_flags_ret; [exact Hf|exact W1|lia|exact Hs]).
  cbv beta iota. apply cstr_drop in Hs. rewrite <- Z.add_assoc in Hs.
  erewrite bind_ret by (eapply parse_width_ret; [exact Hw|lia|exact P2|exact P3|exact Hs|exact Ew]).
  cbv beta iota. apply cstr_drop in Hs. rewrite <- Z.add_assoc in Hs.
  erewrite bind_ret by (eapply parse_precision_ret; [exact Hp|lia|exact M2|exact M3|exact M4|exact Hs|exact Ep]).
  cbv beta iota. apply cstr_drop in Hs. rewrite <- Z.add_assoc in Hs.
  erewrite bind_ret by (eapply parse_length_ret; [|exact Hs]; now apply conv_char).
  cbv beta iota. apply cstr_drop in Hs. rewrite <- Z.add_assoc in Hs.
  erewrite bind_ret by (eapply load8_hd; exact Hs). cbn [hd].
  erewrite bind_ret by (eapply convert_ret; [exact Hk|eapply eval_width_bound; eassumption|
    eapply eval_prec_ok; eassumption|exact Hr|exact He]).
  cbv beta iota. unst. rewrite !HL, Zlen_cons, Zlen_nil. do 3 f_equal. lia.
Qed.

Lemma show_format_length f : Z.of_nat (length f) <= Zlen (show_format f).
Proof.
  induction f as [|it f IH]; [done|]. change (show_format (it :: f)) with (show_item it ++ show_format f).
  rewrite Zlen_app. assert (1 <= Zlen (show_item it)) by (unfold Zlen; destruct it; simpl; lia).
  cbn [length]. lia.
Qed.

Lemma formatV_ret fmt f args o :
  forallb item_okb f = true -> room o -> cstr m fmt (show_format f) ->
  (fmt + Zlen (show_format f) + 1 <= s \/ s + lim <= fmt) ->
  eval_format strs f args = Some o ->
  formatV (wr []) fmt args m = Ret (wr o) (written o).
Proof.
  intros Hf Hr Hs Hd He.
  assert (Hn : Z.of_nat (length f) < 2 ^ 65).
  { pose proof (cstr_bound m _ _ Hm Hs). pose proof (show_format_length f). lia. }
  unfold formatV. eapply (while_loops _ (length f)); [clear Hn|exact Hn].
  match goal with |- loops ?bd _ _ _ _ => set (body := bd) end.
  enough (G : forall out args o i, eval_format strs f args = Some o -> room (out ++ o) ->
    cstr m (fmt + i) (show_format f) ->
    fmt + i + Zlen (show_format f) + 1 <= s \/ s + lim <= fmt + i ->
    loops body (length f) (wr out, i, args) (written out) (Ret (wr (out ++ o)) (written (out ++ o)))).
  { specialize (G [] args o 0 He Hr). rewrite Z.add_0_r in G. specialize (G Hs Hd).
    unfold FormatCorrect.written in G at 1. now rewrite take_nil in G. }
  clear Hr Hs Hd He args o. induction f as [|[c|d] f IH]; intros out args o i He Hr Hs Hd;
    pose proof (cstr_written out _ _ (room_prefix _ _ _ _ Hr) Hs Hd) as Hs'.
  - injection He as <-. rewrite app_nil_r. apply loops_stop. unfold body.
    now erewrite bind_ret by (eapply load8_hd; exact Hs').
  - simpl in He, Hf. destruct (eval_format strs f args) as [o'|] eqn:Eo; [|done].
    injection He as <-. apply andb_prop in Hf as [Hc Hf].
    replace (out ++ c :: o') with ((out ++ [c]) ++ o') in * by now rewrite <- app_assoc.
    unfold show_format in *. cbn [fmap list_fmap concat show_item app] in *.
    rewrite Zlen_cons in Hd. eapply loops_step.
    + unfold body. erewrite bind_ret by (eapply load8_hd; exact Hs'). cbn [hd].
      destruct (Z.eqb_spec c 0); [lia|]. destruct (Z.eqb_spec c 37); [lia|].
      erewrite bind_ret by (apply (emits_putByte m s cap lim); [done..|]; eapply room_prefix; exact Hr).
      reflexivity.
    + apply (IH Hf _ _ _ _ Eo Hr); [|lia]. rewrite Z.add_assoc. now apply (cstr_drop _ _ [c]).
  - simpl in He, Hf. destruct (eval_directive strs d args) as [[od args1]|] eqn:Ed; [|done].
    cbn [mbind option_bind] in He. destruct (eval_format strs f args1) as [o'|] eqn:Eo; [|done].
    injection He as <-. apply andb_prop in Hf as [Hc Hf]. rewrite app_assoc in *.
    unfold show_format in *. cbn [fmap list_fmap concat show_item app] in *.
    rewrite Zlen_cons in Hd. pose proof (cstr_drop _ _ [37] _ Hs) as Hs1.
    change (Zlen [37]) with 1 in Hs1. rewrite <- Z.add_assoc in Hs1. eapply loops_step.
    + unfold body. erewrite bind_ret by (eapply load8_hd; exact Hs'). cbn [hd Z.eqb Pos.eqb].
      erewrite bind_ret by (eapply format_directive_ret; [exact Hc|eapply room_prefix; exact Hr|
        exact Hs1|lia|exact Ed]). reflexivity.
    + apply (IH Hf _ _ _ _ Eo Hr).
      * apply cstr_drop in Hs1. now rewrite <- Z.add_assoc in Hs1.
      * rewrite Zlen_app in Hd. pose proof (Zlen_nonneg (show_directive d)). lia.
Qed.

End format.

Lemma vsnprintf_ret m s n fmt f args strs out :
  mem_ok m -> 0 < n < 2 ^ 64 -> forallb item_okb f = true -> cstr m fmt (show_format f) ->
  eval_format strs f args = Some out -> Zlen out <= INT_MAX ->
  mapped_range m s (Z.min n (Zlen out + 1)) ->
  fmt + Zlen (show_format f) + 1 <= s \/ s + Z.min n (Zlen out + 1) <= fmt ->
  map_Forall (fun p t => cstr m p t /\
                (p + Zlen t + 1 <= s \/ s + Z.min n (Zlen out + 1) <= p)) strs ->
  vsnprintf s n fmt args m =
  Ret (Zlen out) (poke_list m s (take (Z.to_nat (n - 1)) out ++ [0])).
Proof.
  intros Hm Hn Hf Hs He Hmax Hmap Hd Hstrs. unfold vsnprintf, INT_MAX in *.
  destruct (Z.eqb_spec n 0); [lia|]. pose proof (Zlen_nonneg out).
  assert (Hr : room (n - 1) (Z.min n (Zlen out + 1)) out) by (unfold room; lia).
  erewrite bind_ret by (eapply (formatV_ret m Hm s (n - 1)); [lia|exact Hmap|exact Hstrs|
    exact Hf|exact Hr|exact Hs|exact Hd|exact He]).
  cbn [wr w_len]. rewrite poke_list_app. unfold written. simpl (poke_list _ _ [0]).
  assert (Ht : Zlen (take (Z.to_nat (n - 1)) out) =
               if Zlen out <? n then Zlen out else n - 1).
  { unfold Zlen in *. rewrite length_take. case_bool; lia. }
  rewrite Ht. erewrite bind_ret.
  - unst. cbn [w_len]. unfold INT_MAX. destruct (Z.leb_spec (Zlen out) (2 ^ 31 - 1)); [done|lia].
  - apply store8_ret. rewrite is_mapped_poke_list. apply Hmap. case_bool; lia.
Qed.

(** C1. [vsnprintf] of a well-formed format terminates, returns the length of the
    full text, and changes memory exactly by storing that text, cut to [n - 1]
    bytes, and a terminating nul: nothing past the buffer or past the text is
    written, whatever the widths, precisions and arguments. *)
Theorem vsnprintf_correct m s n fmt f args strs out :
  mem_ok m -> 0 < n < 2 ^ 64 -> forallb item_okb f = true -> cstr m fmt (show_format f) ->
  eval_format strs f args = Some out -> Zlen out <= INT_MAX ->
  mapped_range m s (Z.min n (Zlen out + 1)) ->
  fmt + Zlen (show_format f) + 1 <= s \/ s + Z.min n (Zlen out + 1) <= fmt ->
  map_Forall (fun p t => cstr m p t /\
                (p + Zlen t + 1 <= s \/ s + Z.min n (Zlen out + 1) <= p)) strs ->
  vsnprintf s n fmt args m =
  Ret (Zlen out) (poke_list m s (take (Z.to_nat (n - 1)) out ++ [0])).
Proof. exact (vsnprintf_ret m s n fmt f args strs out). Qed.

(** ["[%-6s|%+4.2d|%#x]"] of a string at 4200, -7 and 255, into a buffer of 12 bytes. *)
Definition demo_format : list item :=
  [Lit 91; Dir (Directive [45] (Digits [54]) None No_mod Conv_s); Lit 124;
   Dir (Directive [43] (Digits [52]) (Some (Digits [50])) No_mod Conv_d); Lit 124;
   Dir (Directive [35] (Digits []) None No_mod Conv_x); Lit 93].

Definition demo_page : mem :=
  page_with [(4100, show_format demo_format ++ [0]); (4200, [119; 97; 100; 0])].

Lemma vsnprintf_correct_witness :
  vsnprintf 4300 12 4100 [4200; -7; 255] demo_page =
  Ret 16 (poke_list demo_page 4300 [91; 119; 97; 100; 32; 32; 32; 124; 32; 45; 48; 0]).
Proof.
  apply (vsnprintf_correct demo_page 4300 12 4100 demo_format [4200; -7; 255]
           {[4200 := [119; 97; 100]]}
           [91; 119; 97; 100; 32; 32; 32; 124; 32; 45; 48; 55; 124; 102; 102; 93]).
  - by_eval.
  - lia.
  - reflexivity.
  - by_eval.
  - vm_compute. reflexivity.
  - vm_compute. discriminate.
  - apply mapped_rangeb_ok. vm_compute. reflexivity.
  - left. vm_compute. discriminate.
  - apply (bool_decide_unpack _). vm_compute. exact I.
Defined.

(** ** Printed numbers are read back *)

Lemma digit_of_char d : 0 <= d < 10 -> digit_of (digit_char false d) = Some d.
Proof.
  intros H. unfold digit_char. destruct (Z.ltb_spec d 10); [|lia]. now apply digit_of_dec.
Qed.

Lemma digits_fuel_dec k v :
  0 <= v -> Forall (fun c => is_dec c = true) (digits_fuel k 10 false v).
Proof.
  revert v. induction k as [|k IH]; intros v Hv; simpl; [done|]. case_bool; [done|].
  apply Forall_app. split; [apply IH, Z.div_pos; lia|]. constructor; [|done].
  pose proof (Z.mod_pos_bound v 10 ltac:(lia)). unfold digit_char, is_dec.
  destruct (Z.ltb_spec (v mod 10) 10); lia.
Qed.

Lemma digits_fuel_value k v :
  0 <= v < 2 ^ Z.of_nat k -> digits_value 10 (digits_fuel k 10 false v) = v.
Proof.
  revert v. induction k as [|k IH]; intros v Hv; simpl digits_fuel.
  - simpl in Hv. unfold digits_value. simpl. lia.
  - case_bool; [now subst|]. rewrite digits_value_snoc, IH.
    + pose proof (Z.mod_pos_bound v 10 ltac:(lia)). rewrite digit_of_char by done.
      change (default 0 (Some (v mod 10))) with (v mod 10).
      pose proof (Z.div_mod v 10 ltac:(lia)). lia.
    + split; [apply Z.div_pos; lia|]. apply Z.div_lt_upper_bound; [lia|].
      rewrite Nat2Z.inj_succ, Z.pow_succ_r in Hv by lia. lia.
Qed.

Lemma dec_is_digit c : is_dec c = true -> is_digit_in 10 c = true /\ is_blank c = false.
Proof.
  intros H. unfold is_dec in H. split; [|unfold is_blank; lia].
  unfold is_digit_in. replace c with (digit_char false (c - 48)).
  - rewrite digit_of_char by lia. lia.
  - unfold digit_char. destruct (Z.ltb_spec (c - 48) 10); lia.
Qed.

Lemma parse_number_dec neg ds :
  Forall (fun c => is_dec c = true) ds -> ds <> [] ->
  parse_number 10 ((if neg : bool then [45] else []) ++ ds) = Number neg 10 ds [].
Proof.
  intros Hd Hne. assert (Hall : take_while (is_digit_in 10) ds = ds /\ drop_while (is_digit_in 10) ds = []).
  { clear Hne. induction Hd as [|c ds Hc _ [IH1 IH2]]; [done|]. simpl.
    destruct (dec_is_digit c Hc) as [-> _]. now rewrite IH1. }
  destruct Hall as [H1 H2].
  destruct ds as [|c ds]; [done|]. inversion_clear Hd as [|? ? Hc _].
  destruct (dec_is_digit c Hc) as [_ Hb]. unfold is_dec in Hc.
  assert (Hs : split_sign (c :: ds) = (false, c :: ds)).
  { unfold split_sign. destruct (Z.eqb_spec c 45), (Z.eqb_spec c 43); try lia. done. }
  unfold parse_number. destruct neg; cbn [app drop_while].
  - change (is_blank 45) with false. cbv iota. cbn [split_sign Z.eqb Pos.eqb].
    cbn [split_base Z.eqb]. now rewrite H1, H2.
  - rewrite Hb, Hs. cbn [split_base Z.eqb]. now rewrite H1, H2.
Qed.

Lemma digits_fuel_short f k v :
  0 <= v < 10 ^ Z.of_nat k -> (length (digits_fuel f 10 false v) <= k)%nat.
Proof.
  revert k v. induction f as [|f IH]; intros k v Hv; simpl; [lia|]. case_bool; simpl; [lia|].
  destruct k as [|k]; [simpl in Hv; lia|].
  rewrite length_app. simpl. enough (length (digits_fuel f 10 false (v / 10)) <= k)%nat by lia.
  apply IH. split; [apply Z.div_pos; lia|]. apply Z.div_lt_upper_bound; [lia|].
  rewrite Nat2Z.inj_succ, Z.pow_succ_r in Hv by lia. lia.
Qed.

Lemma digits_fuel_pos f v :
  v <> 0 -> (0 < length (digits_fuel (Datatypes.S f) 10 false v))%nat.
Proof.
  intros Hv. simpl. destruct (Z.eqb_spec v 0); [done|]. rewrite length_app. simpl. lia.
Qed.

Lemma s64_u64 v : LONG_MIN <= v <= LONG_MAX -> s64 (u64 v) = v.
Proof.
  intros H. unfold s64, u64. rewrite Zplus_mod_idemp_l. now apply s64_id.
Qed.

(** The text of ["%ld"]: a sign and the decimal digits. *)
Lemma long_text v :
  LONG_MIN < v <= LONG_MAX ->
  exists ds, eval_format ∅ [Dir (Directive [] (Digits []) None Mod_l Conv_d)] [u64 v] =
    Some ((if v <? 0 then [45] else []) ++ ds) /\
  Forall (fun c => is_dec c = true) ds /\ digits_value 10 ds = Z.abs v /\ 1 <= Zlen ds <= 19.
Proof.
  intros Hv. exists (number_digits 10 false None (Z.abs v)).
  unfold LONG_MIN, LONG_MAX in *. split; [|split; [|split]].
  - cbn [eval_format eval_directive d_width d_prec d_flags d_mod d_conv eval_width eval_prec
         mbind option_bind eval_conv pop wide].
    rewrite s64_u64 by (unfold LONG_MIN, LONG_MAX; lia). unfold LONG_MIN.
    destruct (Z.eqb_spec v (- 2 ^ 63)); [lia|].
    unfold checked_number. cbn [default Z.leb Z.compare mbind option_bind]. rewrite app_nil_r.
    unfold number_text, spaces. cbn [existsb orb andb dec_value fold_left].
    rewrite Z2Nat.nonpos; [done|].
    pose proof (Zlen_nonneg (number_digits 10 false None (Z.abs v))).
    pose proof (Zlen_nonneg (if v <? 0 then [45] else [])). lia.
  - unfold number_digits. simpl. apply Forall_app. split.
    + unfold zeros. now apply Forall_replicate.
    + case_bool; [now repeat constructor|]. apply digits_fuel_dec. lia.
  - unfold number_digits. simpl. unfold zeros. rewrite Z2Nat.nonpos.
    + simpl. destruct (Z.eqb_spec (Z.abs v) 0) as [E|]; [now rewrite E|]. apply (digits_fuel_value 64). lia.
    + match goal with |- 0 - Zlen ?l <= 0 => pose proof (Zlen_nonneg l) end. lia.
  - unfold number_digits. simpl. unfold zeros. rewrite Z2Nat.nonpos.
    + simpl. case_bool; [split; done|].
      pose proof (digits_fuel_short 64 19 (Z.abs v) ltac:(lia)). unfold digits_of, Zlen in *.
      pose proof (digits_fuel_pos 63 (Z.abs v) ltac:(lia)). lia.
    + match goal with |- 0 - Zlen ?l <= 0 => pose proof (Zlen_nonneg l) end. lia.
Qed.



(** ** A format that ends in a percent sign *)

(** At a percent sign followed by the terminator the interpreter steps over both. *)
Lemma lone_percent_ret m fmt i w args :
  cstr m (fmt + i) [37] ->
  format_directive fmt w (i + 1) args m = Ret (w, i + 2, args) m.
Proof.
  intros Hs. pose proof (cstr_drop _ _ [37] [] Hs) as H0. change (Zlen [37]) with 1 in H0.
  rewrite <- Z.add_assoc in H0. unfold format_directive.
  erewrite bind_ret by (now apply (parse_flags_ret m fmt (i + 1) [] [])).
  change (Zlen []) with 0. rewrite Z.add_0_r. cbn [existsb]. cbv beta iota.
  erewrite bind_ret by (now apply (parse_width_ret m fmt (i + 1) (Digits []) false args 0 false args [])).
  cbn [show_amount]. change (Zlen []) with 0. rewrite Z.add_0_r. cbv beta iota.
  erewrite bind_ret by (now apply (parse_precision_ret m fmt (i + 1) None args None args [])).
  cbn [show_prec]. change (Zlen []) with 0. rewrite Z.add_0_r. cbv beta iota.
  unfold parse_length.
  assert (E : load8 (fmt + (i + 1)) m = Ret 0 m) by (now apply (load8_hd m _ [])).
  do 3 (unfold mbind at 1; unfold ST_bind at 1; rewrite ?E; cbn [Z.eqb orb]).
  unst. rewrite E. unfold convert. cbn [Z.eqb orb]. unst. do 3 f_equal. lia.
Qed.

(** A format that ends in a lone percent sign is read past its terminator:
    when the byte after the terminator is not mapped, [vsnprintf] faults. *)
Theorem trailing_percent_overread m s n fmt t args :
  mem_ok m -> 0 < n < 2 ^ 64 -> Forall (fun c => c <> 37) t -> cstr m fmt (t ++ [37]) ->
  mapped_range m s (Z.min n (Zlen t + 1)) ->
  fmt + Zlen t + 2 <= s \/ s + Z.min n (Zlen t + 1) <= fmt ->
  is_mapped m (fmt + Zlen t + 2) = false ->
  vsnprintf s n fmt args m = Fault.
Proof.
  intros Hm Hn Ht Hs Hmap Hd Hun. unfold vsnprintf. destruct (Z.eqb_spec n 0); [lia|].
  apply bind_fault. unfold formatV. pose proof (Zlen_nonneg t) as Ht0.
  pose proof (cstr_bound m _ _ Hm Hs) as Hb. rewrite Zlen_app in Hb. change (Zlen [37]) with 1 in Hb.
  eapply (while_loops _ (length t + 1)); [|unfold Zlen in *; lia].
  match goal with |- loops ?bd _ _ _ _ => set (body := bd) end.
  set (lim := Z.min n (Zlen t + 1)) in *.
  enough (G : forall t2 t1, t = t1 ++ t2 ->
    loops body (length t2 + 1) (wr s (n - 1) t1, Zlen t1, args) (written m s (n - 1) t1) Fault).
  { specialize (G t [] eq_refl). unfold written in G. rewrite take_nil in G. apply G. }
  assert (Hroom : forall t1 t2, t = t1 ++ t2 -> room (n - 1) lim t1).
  { intros t1 t2 ->. unfold room, lim. rewrite Zlen_app in *.
    pose proof (Zlen_nonneg t1). pose proof (Zlen_nonneg t2). lia. }
  assert (Hcs : forall t1 t2, t = t1 ++ t2 ->
                cstr (written m s (n - 1) t1) (fmt + Zlen t1) (t2 ++ [37])).
  { intros t1 t2 E. apply (cstr_written m s (n - 1) lim); [lia|eapply Hroom; exact E| |].
    - subst t. rewrite <- app_assoc in Hs. now apply cstr_drop in Hs.
    - rewrite Zlen_app. change (Zlen [37]) with 1. subst t. rewrite Zlen_app in *.
      pose proof (Zlen_nonneg t1). pose proof (Zlen_nonneg t2). lia. }
  induction t2 as [|c t2 IH]; intros t1 E; pose proof (Hcs _ _ E) as Hc.
  - rewrite app_nil_r in E. subst t1. simpl. eapply loops_step.
    + unfold body. erewrite bind_ret by (eapply load8_hd; exact Hc). cbn [hd app Z.eqb Pos.eqb].
      erewrite bind_ret by (now apply lone_percent_ret). reflexivity.
    + apply loops_fault. unfold body. apply bind_fault, load8_fault.
      unfold written. rewrite is_mapped_poke_list. now rewrite Z.add_assoc.
  - assert (E' : t = (t1 ++ [c]) ++ t2) by (now rewrite <- app_assoc). cbn [length Nat.add].
    assert (c <> 37 /\ c <> 0) as [H37 H0].
    { pose proof Hc as [_ Hnz]. inversion_clear Hnz. subst t.
      rewrite Forall_app, Forall_cons in Ht. tauto. }
    eapply loops_step.
    + unfold body. erewrite bind_ret by (eapply load8_hd; exact Hc). cbn [hd app].
      destruct (Z.eqb_spec c 0); [done|]. destruct (Z.eqb_spec c 37); [done|].
      erewrite bind_ret by (apply (emits_putByte m s (n - 1) lim); [done|eapply Hroom; exact E']).
      reflexivity.
    + specialize (IH _ E'). rewrite Zlen_app in IH. exact IH.
Qed.

(** ["ab%"] with its terminator in the last byte of the page. *)
Lemma trailing_percent_overread_witness :
  vsnprintf 4200 16 8188 [] (page_with [(8188, [97; 98; 37; 0])]) = Fault.
Proof.
  apply (trailing_percent_overread _ 4200 16 8188 [97; 98] []);
    [by_eval|lia|by_eval|by_eval| |right; vm_compute; discriminate|reflexivity].
  apply mapped_rangeb_ok. vm_compute. reflexivity.
Defined.

(** ** The text is made of bytes *)

Lemma digits_fuel_bytes k base upper v :
  2 <= base <= 16 -> 0 <= v -> Forall byte_ok (digits_fuel k base upper v).
Proof.
  intros Hb. revert v. induction k as [|k IH]; intros v Hv; simpl; [done|]. case_bool; [done|].
  apply Forall_app. split; [apply IH, Z.div_pos; lia|]. constructor; [|done].
  pose proof (Z.mod_pos_bound v base ltac:(lia)). unfold digit_char, byte_ok.
  destruct (Z.ltb_spec (v mod base) 10), upper; lia.
Qed.

Lemma replicate_bytes n c : byte_ok c -> Forall byte_ok (replicate n c).
Proof. intros. now apply Forall_replicate. Qed.

Lemma number_digits_bytes base upper prec v :
  2 <= base <= 16 -> 0 <= v -> Forall byte_ok (number_digits base upper prec v).
Proof.
  intros Hb Hv. unfold number_digits. apply Forall_app. split; [now apply replicate_bytes|].
  case_bool; [destruct (bool_decide _); now repeat constructor|]. now apply digits_fuel_bytes.
Qed.

Lemma checked_number_bytes base upper neg width prec zero lj v o :
  checked_number base upper neg width prec zero lj v = Some o ->
  2 <= base <= 16 -> 0 <= v -> Forall byte_ok o.
Proof.
  unfold checked_number. case_bool; [|done]. intros [= <-] Hb Hv. unfold number_text.
  assert (Forall byte_ok (if neg then [45] else [])) by (destruct neg; now repeat constructor).
  pose proof (number_digits_bytes base upper prec v Hb Hv).
  destruct lj; [|destruct (_ && _)]; rewrite !Forall_app; unfold spaces, zeros;
    auto using replicate_bytes; repeat split; auto; now apply replicate_bytes.
Qed.

Lemma string_text_bytes width lj t : Forall byte_ok t -> Forall byte_ok (string_text width lj t).
Proof.
  intros Ht. unfold string_text, spaces. destruct lj; apply Forall_app; split; auto;
    now apply replicate_bytes.
Qed.

Lemma eval_conv_bytes strs k long zero lj width prec args o args' :
  map_Forall (fun _ t => Forall byte_ok t) strs ->
  eval_conv strs k long zero lj width prec args = Some (o, args') -> Forall byte_ok o.
Proof.
  intros Hs He. unfold eval_conv in He.
  destruct k; try (destruct args as [|x args]; [done|]); cbn [pop mbind option_bind] in He;
    try (destruct (checked_number _ _ _ _ _ _ _ _) as [o'|] eqn:Eo; [|done];
         injection He as -> _; eapply checked_number_bytes; [exact Eo|lia|apply arg_range]).
  1, 2: destruct (_ =? LONG_MIN); [done|];
    destruct (checked_number _ _ _ _ _ _ _ _) as [o'|] eqn:Eo; [|done];
    injection He as -> _; eapply checked_number_bytes; [exact Eo|lia|lia].
  - injection He as <- _. do 2 (constructor; [done|]). apply number_digits_bytes; [lia|].
    apply u64_range.
  - destruct (string_arg strs (u64 x)) as [t|] eqn:Et; [|done]. injection He as <- _.
    apply string_text_bytes. assert (Forall byte_ok t).
    { unfold string_arg in Et. destruct (_ =? 0); [injection Et as <-; now repeat constructor|].
      exact (Hs _ _ Et). }
    unfold cut. destruct prec; [now apply Forall_take|done].
  - destruct (0 <=? s32 x); [|done]. injection He as <- _. apply string_text_bytes.
    constructor; [apply u8_range|done].
  - injection He as <- _. now repeat constructor.
  - now injection He as <- _.
Qed.

Lemma eval_format_bytes strs f args out :
  map_Forall (fun _ t => Forall byte_ok t) strs -> Forall byte_ok (show_format f) ->
  eval_format strs f args = Some out -> Forall byte_ok out.
Proof.
  intros Hs. revert args out. induction f as [|[c|d] f IH]; intros args out Hf He; simpl in He.
  - now injection He as <-.
  - destruct (eval_format strs f args) as [o|] eqn:Eo; [|done]. injection He as <-.
    unfold show_format in Hf. simpl in Hf. inversion_clear Hf. constructor; [done|]. eapply IH; eassumption.
  - unfold eval_directive in He.
    destruct (eval_width _ _) as [[[w neg] a1]|]; [|done]. cbn [mbind option_bind] in He.
    destruct (eval_prec _ _) as [[pv a2]|]; [|done]. cbn [mbind option_bind] in He.
    destruct (eval_conv _ _ _ _ _ _ _ _) as [[o a3]|] eqn:Ec; [|done]. cbn [mbind option_bind] in He.
    destruct (eval_format strs f a3) as [o'|] eqn:Eo; [|done]. injection He as <-.
    unfold show_format in Hf. simpl in Hf. inversion_clear Hf as [|? ? _ Hf'].
    apply Forall_app in Hf' as [_ Hf']. apply Forall_app. split; [eapply eval_conv_bytes; eassumption|].
    eapply IH; eassumption.
Qed.
