(* ===== verification/Stdio.v ===== *)
(** * Standard output

    [apps/doom/innigkeit_libc.c]: [write_stdout], the [printf] family over
    [vsnprintf], [puts], [putchar], [fputs], [fputc], [fwrite], and the ways a
    process ends ([abort], [__assert_fail], [exit]). *)

From S2P Require Import Prelude Machine Memory CString Numeric Process TestKernel Format FormatCorrect.

Definition PRINTF_BUF_SIZE : Z := 4096.

Section stdio.
Context {K : Kernel} {L : Layout}.

Definition write_stdout (buf len : Z) : ST proc Z :=
  r ← innigkeit_write buf len; mret (s32 r).

Definition vsprintf (buf fmt : Z) (ap : va_list) : ST proc Z :=
  in_mem (vsnprintf buf SIZE_MAX fmt ap).

Definition sprintf := vsprintf.

Definition vprintf (fmt : Z) (ap : va_list) : ST proc Z :=
  n ← in_mem (vsnprintf printf_buf PRINTF_BUF_SIZE fmt ap);
  write_stdout printf_buf (u64 (if n <? PRINTF_BUF_SIZE then n else PRINTF_BUF_SIZE - 1));;
  mret n.

Definition printf := vprintf.
Definition vfprintf {A} (stream : A) (fmt : Z) (ap : va_list) : ST proc Z := vprintf fmt ap.
Definition fprintf {A} (stream : A) (fmt : Z) (ap : va_list) : ST proc Z := vprintf fmt ap.

Definition puts (s : Z) : ST proc Z :=
  n ← in_mem (strlen s);
  write_stdout s n;;
  write_stdout (lit [10]) 1;;
  mret 0.

Definition putchar (c : Z) : ST proc Z :=
  in_mem (store8 loc_ch c);;
  write_stdout loc_ch 1;;
  mret c.

Definition fputs {A} (s : Z) (stream : A) : ST proc Z :=
  r ← puts s; mret (if 0 <=? r then 0 else -1).

Definition fputc {A} (c : Z) (stream : A) : ST proc Z := putchar c.

Definition fwrite {A} (ptr size count : Z) (stream : A) : ST proc Z :=
  write_stdout ptr (u64 (size * count));;
  mret count.

Definition __errno_location : ST proc Z := mret errno_val.

Definition abort : ST proc unit :=
  write_stdout (lit (bytes_of "abort()" ++ [10])) 8;;
  innigkeit_exit 1.

Definition __assert_fail (expr file line fn : Z) : ST proc unit :=
  in_mem (snprintf loc_assert_buf 256
            (lit (bytes_of "assert failed: %s at %s:%u (%s)" ++ [10])) [expr; file; line; fn]);;
  n ← in_mem (strlen loc_assert_buf);
  write_stdout loc_assert_buf n;;
  innigkeit_exit 1.

Definition exit (code : Z) : ST proc unit := innigkeit_exit code.

End stdio.

(** ** What reaches the console *)

Section console.
Context {K : Kernel} {D : KernelData K} {L : Layout}.

(** A kernel whose [write] always takes at least one byte. *)
Definition write_progress : Prop := forall l k, l <> [] -> 0 < (sys_write l k).1.
Context (Hprog : write_progress).

Lemma raw_write_ret l k :
  Zlen l < 2 ^ 64 ->
  exists k', raw_write l k = Ret true k' /\ console k' = console k ++ l /\ same_media k k'.
Proof.
  intros Hl. unfold raw_write.
  match goal with |- context [while ?bd] => set (body := bd) end.
  enough (G : forall n l k, (length l <= n)%nat -> exists j k', (j <= n)%nat /\
    loops body j l k (Ret true k') /\ console k' = console k ++ l /\ same_media k k').
  { destruct (G (length l) l k ltac:(lia)) as (j & k' & Hj & Hloop & Hc & Hm).
    exists k'. split; [|done]. eapply while_loops; [exact Hloop|unfold Zlen in *; lia]. }
  clear Hl l k. intros n. induction n as [|n IH]; intros l k Hn.
  - destruct l; [|simpl in Hn; lia]. exists O, k. rewrite app_nil_r.
    split; [lia|]. split; [now apply loops_stop|]. now split.
  - destruct l as [|x l].
    { exists O, k. rewrite app_nil_r. split; [lia|]. split; [now apply loops_stop|]. now split. }
    destruct (sys_write (x :: l) k) as [r k1] eqn:Ew.
    pose proof (Hprog (x :: l) k ltac:(done)) as Hr. rewrite Ew in Hr. simpl in Hr.
    destruct (write_console _ _ _ _ Ew) as (Hm1 & Hle & Hc1).
    destruct (Z.ltb_spec 0 r); [|lia].
    destruct (IH (drop (Z.to_nat r) (x :: l)) k1) as (j & k' & Hj & Hloop & Hc & Hm).
    { rewrite length_drop. simpl length in *. lia. }
    exists (Datatypes.S j), k'. split; [lia|]. split.
    + eapply loops_step; [|exact Hloop]. unfold body. rewrite Ew. unfold decode.
      destruct (Z.leb_spec 0 r); [|lia]. destruct (Z.eqb_spec r 0); [lia|].
      destruct (Z.leb_spec r (Zlen (x :: l))); [done|lia].
    + rewrite Hc, Hc1, <- app_assoc, take_drop. split; [done|].
      destruct Hm1 as [D1 I1], Hm as [D2 I2]. split; [congruence|]. intros nm. now rewrite I2, I1.
Qed.

(** The part of a text that [innigkeit_write] passes on: all of it or, past the
    4096 bytes of its buffer, nothing. *)
Definition printed (l : list Z) : list Z := if Zlen l <=? 4096 then l else [].

(** [s'] is [s] after [out] was printed, and nothing else changed. *)
Definition prints (s s' : proc) (out : list Z) : Prop :=
  exists k', s' = set_kst k' s /\ console k' = console (p_kst s) ++ out /\ same_media (p_kst s) k'.

Lemma prints_trans s1 s2 s3 o1 o2 :
  prints s1 s2 o1 -> prints s2 s3 o2 -> prints s1 s3 (o1 ++ o2).
Proof.
  intros (k2 & -> & H2 & [D2 I2]) (k3 & -> & H3 & [D3 I3]). exists k3. split; [done|].
  simpl in *. rewrite H3, H2, app_assoc. split; [done|].
  split; [congruence|]. intros nm. now rewrite I3, I2.
Qed.

Lemma write_stdout_ret s p n l :
  bytes_at (p_mem s) p l -> p <> 0 -> n = Zlen l -> Zlen l < 2 ^ 64 ->
  exists r s', write_stdout p n s = Ret r s' /\ prints s s' (printed l).
Proof.
  intros Hl Hp -> Hn. unfold write_stdout, innigkeit_write, write_out, printed.
  destruct (Z.eqb_spec p 0); [done|].
  destruct (Z.eqb_spec (Zlen l) 0) as [E|E]; simpl.
  - exists (s32 0), s. split; [done|]. exists (p_kst s).
    destruct l; [|rewrite Zlen_cons in E; pose proof (Zlen_nonneg l); lia]. simpl.
    rewrite app_nil_r. now destruct s.
  - rewrite bind_assoc. erewrite bind_ret by (apply in_mem_read, load_bytes_ret; [done|lia]).
    destruct (Z.eqb_spec (Zlen l) 0); [done|].
    destruct (Z.ltb_spec 4096 (Zlen l)), (Z.leb_spec (Zlen l) 4096); try lia.
    + exists (s32 (-5)), s. split; [done|]. exists (p_kst s). rewrite app_nil_r. now destruct s.
    + destruct (raw_write_ret l (p_kst s) Hn) as (k' & Hw & Hc & Hm).
      exists (s32 (Zlen l)), (set_kst k' s). split; [|now exists k'].
      rewrite bind_assoc. unfold in_kernel. erewrite bind_ret by (unfold zoom; now rewrite Hw).
      done.
Qed.

Lemma prints_mem s s' o : prints s s' o -> p_mem s' = p_mem s.
Proof. now intros (k' & -> & _). Qed.

Lemma puts_ret s p t :
  mem_ok (p_mem s) -> cstr (p_mem s) p t -> bytes_at (p_mem s) (lit [10]) [10] ->
  exists s', puts p s = Ret 0 s' /\ prints s s' (printed t ++ [10]).
Proof.
  intros Hm Ht Hnl. pose proof (cstr_bound _ _ _ Hm Ht) as Hb.
  pose proof (bytes_at_bound _ _ [10] Hm ltac:(done) Hnl) as Hb'. unfold puts.
  erewrite bind_ret by (eapply in_mem_read, strlen_ret; eassumption).
  destruct (write_stdout_ret s p (Zlen t) t) as (r1 & s1 & E1 & P1); [|lia|done|lia|].
  { destruct Ht as [Ht _]. now apply bytes_at_app in Ht as [Ht _]. }
  erewrite bind_ret by exact E1.
  destruct (write_stdout_ret s1 (lit [10]) 1 [10]) as (r2 & s2 & E2 & P2); [|lia|done|done|].
  { now rewrite (prints_mem _ _ _ P1). }
  erewrite bind_ret by exact E2. exists s2. split; [done|]. eapply prints_trans; eassumption.
Qed.

(** [puts] and [fputs] print the string and a newline (so [fputs] adds a
    newline the C standard does not ask for), [putchar] and [fputc] print one
    byte, [fwrite] prints the bytes of its buffer and reports [count] items;
    a text longer than the 4096-byte buffer of the system-call wrapper is
    silently lost although [fwrite] still reports all its items.  Memory is
    unchanged but for the local byte of [putchar]. *)
Theorem console_output s p t c q l size count (stream : option nat) :
  mem_ok (p_mem s) -> cstr (p_mem s) p t -> bytes_at (p_mem s) (lit [10]) [10] ->
  is_mapped (p_mem s) loc_ch = true ->
  bytes_at (p_mem s) q l -> q <> 0 -> Zlen l = size * count -> Zlen l < 2 ^ 64 ->
  (exists s', puts p s = Ret 0 s' /\ prints s s' (printed t ++ [10])) /\
  (exists s', fputs p stream s = Ret 0 s' /\ prints s s' (printed t ++ [10])) /\
  (exists s', putchar c s = Ret c s' /\
     prints (set_mem (poke (p_mem s) loc_ch c) s) s' [u8 c]) /\
  (exists s', fputc c stream s = Ret c s' /\
     prints (set_mem (poke (p_mem s) loc_ch c) s) s' [u8 c]) /\
  (exists s', fwrite q size count stream s = Ret count s' /\
     prints s s' (if Zlen l <=? 4096 then l else [])).
Proof.
  intros Hm Ht Hnl Hch Hl Hq Hsz Hlen.
  destruct (puts_ret s p t Hm Ht Hnl) as (s1 & E1 & P1).
  assert (Hput : exists s', putchar c s = Ret c s' /\
            prints (set_mem (poke (p_mem s) loc_ch c) s) s' [u8 c]).
  { unfold putchar. erewrite bind_ret by (apply in_mem_ret, store8_ret; done).
    pose proof (proj2 Hm _ Hch).
    destruct (write_stdout_ret (set_mem (poke (p_mem s) loc_ch c) s) loc_ch 1 [u8 c])
      as (r & s' & E & P); [|lia|done|done|].
    - split; [now apply peek_poke_eq|done].
    - exists s'. now erewrite bind_ret by exact E. }
  split; [now exists s1|]. split; [exists s1; unfold fputs; now erewrite bind_ret by exact E1|].
  split; [done|]. split; [done|].
  destruct (write_stdout_ret s q (u64 (size * count)) l) as (r & s' & E & P); [done..| |done|].
  - rewrite <- Hsz. apply u64_id. pose proof (Zlen_nonneg l). lia.
  - exists s'. split; [|done]. unfold fwrite. now erewrite bind_ret by exact E.
Qed.

(** The strings a format refers to lie in memory, away from the range at [p]. *)
Definition strings_at (m : mem) (p n : Z) (strs : gmap Z (list Z)) : Prop :=
  map_Forall (fun q t => cstr m q t /\ (q + Zlen t + 1 <= p \/ p + n <= q)) strs.

Lemma strings_at_sub m p n n' strs : strings_at m p n strs -> n' <= n -> strings_at m p n' strs.
Proof. intros H Hn q t Ht. destruct (H q t Ht) as [Hc Hd]. split; [done|]. lia. Qed.

(** [snprintf] into a buffer of the process that is mapped as a whole. *)
Lemma snprintf_ret m buf n fmt f args strs out :
  mem_ok m -> 0 < n < 2 ^ 64 -> forallb item_okb f = true -> cstr m fmt (show_format f) ->
  eval_format strs f args = Some out -> Zlen out <= INT_MAX ->
  mapped_range m buf n -> fmt + Zlen (show_format f) + 1 <= buf \/ buf + n <= fmt ->
  strings_at m buf n strs ->
  let text := take (Z.to_nat (n - 1)) out in
  let m' := poke_list m buf (text ++ [0]) in
  vsnprintf buf n fmt args m = Ret (Zlen out) m' /\ mem_ok m' /\ buf <> 0 /\
  bytes_at m' buf (text ++ [0]) /\ Zlen text = (if Zlen out <? n then Zlen out else n - 1).
Proof.
  intros Hm Hn Hf Hs He Hmax Hmap Hd Hstrs text m'. pose proof (Zlen_nonneg out).
  assert (Ht : Zlen text = if Zlen out <? n then Zlen out else n - 1).
  { unfold text, Zlen in *. rewrite length_take. case_bool; lia. }
  assert (Hlen : Zlen (text ++ [0]) <= n).
  { rewrite Zlen_app, Ht. change (Zlen [0]) with 1. case_bool; lia. }
  assert (Hmap' : mapped_range m buf (Zlen (text ++ [0])))
    by (eapply mapped_range_sub; [exact Hmap|lia..]).
  split; [|split; [now apply mem_ok_poke_list|split]].
  - eapply vsnprintf_ret; try eassumption.
    + eapply mapped_range_sub; [exact Hmap|lia..].
    + lia.
    + eapply strings_at_sub; [exact Hstrs|lia].
  - pose proof (mapped_range_bound m buf n Hm ltac:(lia) Hmap). lia.
  - split; [|done]. apply bytes_at_poke_list; [done|]. apply Forall_app.
    split; [|now repeat constructor]. apply Forall_take.
    eapply eval_format_bytes; [|eapply bytes_at_bytes; [exact Hm|];
      destruct Hs as [Hs _]; apply bytes_at_app in Hs as [Hs _]; exact Hs|exact He].
    intros q t Hq. destruct (Hstrs q t Hq) as [[Hc _] _]. apply bytes_at_app in Hc as [Hc _].
    eapply bytes_at_bytes; eassumption.
Qed.

Section printing.
Context (s : proc) (fmt : Z) (f : list item) (args : list Z) (strs : gmap Z (list Z)) (out : list Z).

(** A format string and its arguments that [printf] can print. *)
Definition printable : Prop :=
  mem_ok (p_mem s) /\ forallb item_okb f = true /\ cstr (p_mem s) fmt (show_format f) /\
  eval_format strs f args = Some out /\ Zlen out <= INT_MAX /\
  mapped_range (p_mem s) printf_buf 4096 /\
  (fmt + Zlen (show_format f) + 1 <= printf_buf \/ printf_buf + 4096 <= fmt) /\
  strings_at (p_mem s) printf_buf 4096 strs.

Lemma vprintf_ret :
  printable -> exists s', vprintf fmt args s = Ret (Zlen out) s' /\
  prints (set_mem (poke_list (p_mem s) printf_buf (take 4095 out ++ [0])) s) s' (take 4095 out).
Proof.
  intros (Hm & Hf & Hs & He & Hmax & Hmap & Hd & Hstrs).
  destruct (snprintf_ret _ printf_buf 4096 fmt f args strs out Hm ltac:(lia) Hf Hs He Hmax Hmap Hd Hstrs)
    as (E & Hm' & Hp & Hb & Hl). change (Z.to_nat (4096 - 1)) with 4095%nat in *.
  set (text := take 4095 out) in *. apply bytes_at_app in Hb as [Hb _].
  set (s1 := set_mem (poke_list (p_mem s) printf_buf (text ++ [0])) s).
  assert (Hlt : Zlen text <= 4095) by (rewrite Hl; case_bool; lia).
  destruct (write_stdout_ret s1 printf_buf (Zlen text) text Hb Hp eq_refl ltac:(lia))
    as (r & s2 & Ew & P).
  exists s2. split.
  - unfold vprintf. erewrite bind_ret by (apply in_mem_ret; exact E). fold s1.
    unfold PRINTF_BUF_SIZE. change (4096 - 1) with 4095 in *. rewrite <- Hl.
    rewrite u64_id by (pose proof (Zlen_nonneg text); lia). now erewrite bind_ret by exact Ew.
  - unfold printed in P. destruct (Z.leb_spec (Zlen text) 4096); [done|lia].
Qed.

(** [printf] (and [fprintf], which prints on the same console) returns the
    length of the formatted text and prints the text, cut to the 4095 bytes
    its static buffer holds; the only memory it changes is that buffer. *)
Theorem printf_correct (stream : option nat) :
  printable ->
  exists s', printf fmt args s = Ret (Zlen out) s' /\ fprintf stream fmt args s = Ret (Zlen out) s' /\
  prints (set_mem (poke_list (p_mem s) printf_buf (take 4095 out ++ [0])) s) s' (take 4095 out).
Proof. intros H. destruct (vprintf_ret H) as (s' & E & P). exists s'. split; [|split]; done. Qed.

End printing.

(** *** Leaving the process *)

Definition lits (l : list Z) : list item := Lit <$> l.
Definition plain (k : conversion) : item := Dir (Directive [] (Digits []) None No_mod k).

Definition assert_format : list item :=
  lits (bytes_of "assert failed: ") ++ [plain Conv_s] ++ lits (bytes_of " at ") ++
  [plain Conv_s] ++ lits (bytes_of ":") ++ [plain Conv_u] ++ lits (bytes_of " (") ++
  [plain Conv_s] ++ lits (bytes_of ")" ++ [10]).

Definition assert_message (expr file : list Z) (line : Z) (fn : list Z) : list Z :=
  bytes_of "assert failed: " ++ expr ++ bytes_of " at " ++ file ++ bytes_of ":" ++
  number_digits 10 false None line ++ bytes_of " (" ++ fn ++ bytes_of ")" ++ [10].

Lemma eval_lits strs l f args o :
  eval_format strs f args = Some o -> eval_format strs (lits l ++ f) args = Some (l ++ o).
Proof.
  intros H. induction l as [|c l IH]; [done|].
  change (lits (c :: l) ++ f) with (Lit c :: (lits l ++ f)). cbn [eval_format]. now rewrite IH.
Qed.

Lemma string_text_0 t : string_text 0 false t = t.
Proof.
  unfold string_text, spaces. rewrite Z2Nat.nonpos; [done|]. pose proof (Zlen_nonneg t). lia.
Qed.

#[local] Ltac eval_step :=
  unfold plain, checked_number;
  cbn [app eval_format eval_directive d_width d_prec d_flags d_mod d_conv eval_width eval_prec
       mbind option_bind eval_conv pop wide existsb orb default Z.leb Z.compare cut].

Lemma eval_plain_s strs p t f args o :
  strs !! p = Some t -> 0 < p < 2 ^ 64 -> eval_format strs f args = Some o ->
  eval_format strs ([plain Conv_s] ++ f) (p :: args) = Some (t ++ o).
Proof.
  intros Ht Hp Ho. eval_step. unfold string_arg. rewrite u64_id by lia.
  destruct (Z.eqb_spec p 0); [lia|]. rewrite Ht. eval_step. rewrite Ho. eval_step.
  now rewrite string_text_0.
Qed.

Lemma eval_plain_u strs x f args o :
  eval_format strs f args = Some o ->
  eval_format strs ([plain Conv_u] ++ f) (x :: args) =
  Some (number_digits 10 false None (u32 x) ++ o).
Proof.
  intros Ho. eval_step. eval_step. rewrite Ho. eval_step. unfold number_text, spaces.
  cbn [andb dec_value fold_left app]. rewrite Z2Nat.nonpos; [done|]. pose proof (Zlen_nonneg (number_digits 10 false None (u32 x))).
  change (Zlen []) with 0. lia.
Qed.

(** Decimal numbers are short. *)
Lemma number_digits_short v : Zlen (number_digits 10 false None v) <= 65.
Proof.
  unfold number_digits. cbn [default]. rewrite Zlen_app. unfold zeros, Zlen. rewrite length_replicate.
  destruct (v =? 0); simpl length; [lia|].
  pose proof (digits_fuel_length 64 10 false v). unfold digits_of. lia.
Qed.

Lemma eval_assert strs e f fn te tf tfn line :
  strs !! e = Some te -> strs !! f = Some tf -> strs !! fn = Some tfn ->
  0 < e < 2 ^ 64 -> 0 < f < 2 ^ 64 -> 0 < fn < 2 ^ 64 ->
  eval_format strs assert_format [e; f; line; fn] = Some (assert_message te tf (u32 line) tfn).
Proof.
  intros He Hf Hfn ? ? ?. unfold assert_format, assert_message.
  apply eval_lits, eval_plain_s; [done..|]. apply eval_lits, eval_plain_s; [done..|].
  apply eval_lits, eval_plain_u, eval_lits, eval_plain_s; [done..|].
  rewrite <- (app_nil_r (lits _)), <- (app_nil_r (_ ++ [10])). now apply eval_lits.
Qed.

Lemma no_nul_cstr m p t : cstr m p t -> Forall (fun c => c <> 0) t.
Proof. now intros [_ H]. Qed.

Lemma assert_message_no_nul te tf line tfn :
  Forall (fun c => c <> 0) te -> Forall (fun c => c <> 0) tf -> Forall (fun c => c <> 0) tfn ->
  0 <= line -> Forall (fun c => c <> 0) (assert_message te tf line tfn).
Proof.
  intros He Hf Hfn Hl. unfold assert_message. rewrite !Forall_app.
  repeat split; try done; try (apply (bool_decide_unpack _); reflexivity).
  unfold number_digits. simpl. apply Forall_app. split; [now apply Forall_replicate|].
  case_bool; [now repeat constructor|].
  eapply Forall_impl; [now apply digits_fuel_dec|]. simpl. unfold is_dec. intros. lia.
Qed.

Lemma cstr_take m p l n :
  bytes_at m p (take n l ++ [0]) -> Forall (fun c => c <> 0) l -> cstr m p (take n l).
Proof. intros H Hl. split; [done|]. now apply Forall_take. Qed.

(** [exit] leaves the process with its code and prints nothing; [abort]
    prints its message and leaves with code 1; a failed assertion prints the
    expression, file, line and function, cut to the 255 bytes of its buffer,
    and leaves with code 1.  None of them returns. *)
Theorem process_exits s code strs e f line fn te tf tfn :
  mem_ok (p_mem s) ->
  bytes_at (p_mem s) (lit (bytes_of "abort()" ++ [10])) (bytes_of "abort()" ++ [10]) ->
  cstr (p_mem s) (lit (show_format assert_format)) (show_format assert_format) ->
  mapped_range (p_mem s) loc_assert_buf 256 ->
  lit (show_format assert_format) + Zlen (show_format assert_format) + 1 <= loc_assert_buf \/
    loc_assert_buf + 256 <= lit (show_format assert_format) ->
  strings_at (p_mem s) loc_assert_buf 256 strs ->
  strs !! e = Some te -> strs !! f = Some tf -> strs !! fn = Some tfn ->
  Zlen (assert_message te tf (u32 line) tfn) <= INT_MAX ->
  exit code s = Exited (u64 code) s /\
  (exists s', abort s = Exited 1 s' /\ prints s s' (bytes_of "abort()" ++ [10])) /\
  (exists m' s', __assert_fail e f line fn s = Exited 1 s' /\
     prints (set_mem m' s) s' (take 255 (assert_message te tf (u32 line) tfn))).
Proof.
  intros Hm Hab Hfmt Hmap Hd Hstrs He Hf Hfn Hmax. split; [done|]. split.
  - assert (0 < lit (bytes_of "abort()" ++ [10])) by (eapply bytes_at_bound; [exact Hm| |exact Hab]; discriminate).
    destruct (write_stdout_ret s _ 8 _ Hab ltac:(lia) eq_refl ltac:(done)) as (r & s' & E & P).
    exists s'. split; [|done]. unfold abort. now erewrite bind_ret by exact E.
  - destruct (Hstrs e te He) as [Ce _], (Hstrs f tf Hf) as [Cf _], (Hstrs fn tfn Hfn) as [Cn _].
    pose proof (cstr_bound _ _ _ Hm Ce) as [? ?]. pose proof (cstr_bound _ _ _ Hm Cf) as [? ?].
    pose proof (cstr_bound _ _ _ Hm Cn) as [? ?].
    pose proof (Zlen_nonneg te). pose proof (Zlen_nonneg tf). pose proof (Zlen_nonneg tfn).
    pose proof (eval_assert strs e f fn te tf tfn line He Hf Hfn
                  ltac:(lia) ltac:(lia) ltac:(lia)) as Hev.
    set (msg := assert_message te tf (u32 line) tfn) in *.
    destruct (snprintf_ret _ loc_assert_buf 256 _ assert_format _ strs msg Hm ltac:(lia)
                eq_refl Hfmt Hev Hmax Hmap Hd Hstrs) as (E & Hm' & Hp & Hb & Hl).
    change (Z.to_nat (256 - 1)) with 255%nat in *. set (m' := poke_list _ _ _) in *.
    assert (Hc : cstr m' loc_assert_buf (take 255 msg)).
    { apply cstr_take; [done|]. apply assert_message_no_nul;
        eauto using no_nul_cstr. apply u32_range. }
    apply bytes_at_app in Hb as [Hb _].
    assert (Hlt : Zlen (take 255 msg) <= 255) by (rewrite Hl; case_bool; lia).
    destruct (write_stdout_ret (set_mem m' s) _ _ _ Hb Hp eq_refl ltac:(lia)) as (r & s' & Ew & P).
    exists m', s'. split.
    + unfold __assert_fail, snprintf. erewrite bind_ret by (apply in_mem_ret; exact E).
      erewrite bind_ret by (eapply in_mem_read, strlen_ret; eassumption).
      now erewrite bind_ret by exact Ew.
    + unfold printed in P. destruct (Z.leb_spec (Zlen (take 255 msg)) 4096); [done|lia].
Qed.

End console.

(** ** Examples on the small kernel *)

Lemma tk_progress : @write_progress tk_kernel.
Proof.
  intros l k Hl. simpl. destruct l; [done|]. rewrite Zlen_cons. pose proof (Zlen_nonneg l). lia.
Qed.

Definition stdio_demo : proc :=
  tk_proc (tk_image [(4100, [72; 105; 0]); (4200, bytes_of "%d%%" ++ [0]); (4300, bytes_of "x > 0" ++ [0]);
                     (4400, bytes_of "m.c" ++ [0]); (4500, bytes_of "main" ++ [0])]) tk_idle.

Lemma console_output_witness :
  (exists s', puts 4100 stdio_demo = Ret 0 s' /\ prints stdio_demo s' (printed [72; 105] ++ [10])) /\
  (exists s', fputs 4100 (@None nat) stdio_demo = Ret 0 s' /\
     prints stdio_demo s' (printed [72; 105] ++ [10])) /\
  (exists s', putchar 65 stdio_demo = Ret 65 s' /\
     prints (set_mem (poke (p_mem stdio_demo) loc_ch 65) stdio_demo) s' [u8 65]) /\
  (exists s', fputc 65 (@None nat) stdio_demo = Ret 65 s' /\
     prints (set_mem (poke (p_mem stdio_demo) loc_ch 65) stdio_demo) s' [u8 65]) /\
  (exists s', fwrite 4300 5 1 (@None nat) stdio_demo = Ret 1 s' /\
     prints stdio_demo s' (if Zlen (bytes_of "x > 0") <=? 4096 then bytes_of "x > 0" else [])).
Proof.
  apply (console_output tk_progress); [by_eval|by_eval|by_eval|reflexivity|by_eval|done|reflexivity|
    reflexivity].
Defined.

Lemma printf_correct_witness :
  exists s', printf 4200 [42] stdio_demo = Ret 3 s' /\
  fprintf (@None nat) 4200 [42] stdio_demo = Ret 3 s' /\
  prints (set_mem (poke_list (p_mem stdio_demo) printf_buf ([52; 50; 37] ++ [0])) stdio_demo) s'
         [52; 50; 37].
Proof.
  apply (printf_correct tk_progress stdio_demo 4200 [plain Conv_d; plain Conv_percent] [42] ∅ [52; 50; 37]).
  split; [by_eval|]. split; [reflexivity|]. split; [by_eval|]. split; [reflexivity|]. split; [done|].
  split; [apply mapped_rangeb_ok; vm_compute; reflexivity|].
  split; [left; vm_compute; discriminate|apply map_Forall_empty].
Defined.

Lemma process_exits_witness :
  exit 3 stdio_demo = Exited 3 stdio_demo /\
  (exists s', abort stdio_demo = Exited 1 s' /\ prints stdio_demo s' (bytes_of "abort()" ++ [10])) /\
  (exists m' s', __assert_fail 4300 4400 7 4500 stdio_demo = Exited 1 s' /\
     prints (set_mem m' stdio_demo) s'
       (take 255 (assert_message (bytes_of "x > 0") (bytes_of "m.c") (u32 7) (bytes_of "main")))).
Proof.
  apply (process_exits tk_progress stdio_demo 3
           {[4300 := bytes_of "x > 0"; 4400 := bytes_of "m.c"; 4500 := bytes_of "main"]}
           4300 4400 7 4500 (bytes_of "x > 0") (bytes_of "m.c") (bytes_of "main")).
  - by_eval.
  - by_eval.
  - by_eval.
  - apply mapped_rangeb_ok. vm_compute. reflexivity.
  - left. vm_compute. discriminate.
  - apply (bool_decide_unpack _). vm_compute. exact I.
  - vm_compute. reflexivity.
  - vm_compute. reflexivity.
  - vm_compute. reflexivity.
  - vm_compute. discriminate.
Defined.
