(* ===== verification/Files.v ===== *)
(** * Files

    [apps/doom/innigkeit_libc.c], "file I/O": the table [s_files] of in-memory
    files, opened from the initfs archive or from the data disk, and the stdio
    functions on them.  A stream is [None] for the null pointer or the index of
    an entry of the table. *)

From S2P Require Import Prelude Machine Memory CString Compare Process TestKernel Format Stdio.
From S2P Require Import HeapAlloc.

Definition MAX_FILES : Z := 16.

Definition stream := option nat.

Section files.
Context {K : Kernel} {L : Layout}.

(** ** The table *)

Definition get_file (i : nat) : ST proc MemFile := fun s =>
  match p_files s !! i with Some f => Ret f s | None => Fault end.

Definition put_file (i : nat) (f : MemFile) : ST proc unit := fun s =>
  Ret tt (set_files (<[i := f]> (p_files s)) s).

Definition set_data (d : Z) (f : MemFile) := mkMemFile d (f_size f) (f_pos f) (f_in_use f) (f_eof f).
Definition set_size (n : Z) (f : MemFile) := mkMemFile (f_data f) n (f_pos f) (f_in_use f) (f_eof f).
Definition set_pos (n : Z) (f : MemFile) := mkMemFile (f_data f) (f_size f) n (f_in_use f) (f_eof f).
Definition set_in_use (b : bool) (f : MemFile) := mkMemFile (f_data f) (f_size f) (f_pos f) b (f_eof f).
Definition set_eof (b : bool) (f : MemFile) := mkMemFile (f_data f) (f_size f) (f_pos f) (f_in_use f) b.

Definition upd_file (i : nat) (g : MemFile -> MemFile) : ST proc unit :=
  f ← get_file i; put_file i (g f).

(** The index of the first entry that is not in use. *)
Fixpoint find_free (fs : list MemFile) : option nat :=
  match fs with
  | [] => None
  | f :: fs' => if f_in_use f then Datatypes.S <$> find_free fs' else Some O
  end.

Definition alloc_file : ST proc stream :=
  fs ← get_files;
  match find_free fs with
  | Some i => put_file i (mkMemFile 0 0 0 true false);; mret (Some i)
  | None => mret None
  end.

(** ** Opening *)

Definition load_from_initfs (i : nat) (path : Z) : ST proc bool :=
  name_len ← in_mem (strlen path);
  c ← in_mem (load8 path);
  let name := if c =? 47 then path + 1 else path in
  nlen ← in_mem (strlen name);
  sz ← innigkeit_initfs_read name nlen 0 0;
  if sz <? 0 then mret false
  else
    data ← innigkeit_mmap (u64 (sz + PAGE_SIZE));
    upd_file i (set_data data);;
    if data =? 0 then mret false
    else
      upd_file i (set_size sz);;
      got ← innigkeit_initfs_read name nlen data sz;
      if got <? 0 then mret false
      else (upd_file i (set_size got);; mret true).

(** The loop that reads [total] bytes of the disk to [data] in chunks of 4096;
    the number of bytes read. *)
Definition read_chunks (data total : Z) : ST proc Z :=
  while (fun done =>
           if done <? total then
             let chunk := if total - done <? 4096 then total - done else 4096 in
             (r ← innigkeit_blk_read done (data + done) chunk;
              if r <=? 0 then mret (inr done) else mret (inl (done + r)))
           else mret (inr done)) 0.

(** The names of the first lumps, for the diagnostic line. *)
Definition show_lumps (data info_ofs shown : Z) : ST proc unit :=
  while (fun i =>
           if i <? shown then
             let entry := data + info_ofs + u32 (i * 16) in
             (in_mem (memcpy loc_name (entry + 8) 8);;
              in_mem (store8 (loc_name + 8) 0);;
              printf (lit (bytes_of " [%.8s]")) [loc_name];;
              mret (inl (i + 1)))
           else mret (inr tt)) 0.

(** Whether the raw directory has the lumps TEXTURE1 and TEXTURE2. *)
Definition scan_directory (data info_ofs lump_count : Z) : ST proc (bool * bool) :=
  while (fun '(i, found_t1, found_t2) =>
           if i <? lump_count then
             let name := data + info_ofs + u32 (i * 16) + 8 in
             (r1 ← in_mem (memcmp name (lit (bytes_of "TEXTURE1")) 8);
              r2 ← in_mem (memcmp name (lit (bytes_of "TEXTURE2")) 8);
              mret (inl (i + 1, found_t1 || (r1 =? 0), found_t2 || (r2 =? 0))))
           else mret (inr (found_t1, found_t2))) (0, false, false).

Definition yes_no (b : bool) : Z := if b then lit (bytes_of "YES") else lit (bytes_of "NO").

(** The diagnostics printed once the WAD is loaded. *)
Definition report_wad (data size info_ofs lump_count : Z) : ST proc unit :=
  printf (lit (bytes_of "doom: loaded WAD from disk: %zu bytes (%u lumps)" ++ [10])) [size; lump_count];;
  printf (lit (bytes_of "doom: WAD magic=[%.4s] first lumps:")) [loc_hdr12];;
  show_lumps data info_ofs (if lump_count <? 5 then lump_count else 5);;
  '(t1, t2) ← scan_directory data info_ofs lump_count;
  printf (lit (bytes_of "doom: TEXTURE1 in raw WAD: %s  TEXTURE2: %s" ++ [10])) [yes_no t1; yes_no t2];;
  printf (lit [10]) [];;
  mret tt.

Definition load_from_disk (i : nat) : ST proc bool :=
  r ← innigkeit_blk_read 0 loc_header 8;
  if r <? 8 then mret false
  else
    _ ← in_mem (load32 (loc_header + 4));
    _ ← in_mem (load32 (loc_header + 8));
    r ← innigkeit_blk_read 0 loc_hdr12 12;
    if r <? 12 then mret false
    else
      lump_count ← in_mem (load32 (loc_hdr12 + 4));
      info_ofs ← in_mem (load32 (loc_hdr12 + 8));
      let total := u64 (info_ofs + u64 (lump_count * 16)) in
      let total := if total <? 12 then 12 else total in
      data ← innigkeit_mmap (u64 (total + PAGE_SIZE));
      upd_file i (set_data data);;
      if data =? 0 then mret false
      else
        upd_file i (set_size total);;
        n ← read_chunks data total;
        upd_file i (set_size n);;
        report_wad data n info_ofs lump_count;;
        mret true.

Definition fopen (path mode : Z) : ST proc stream :=
  f ← alloc_file;
  match f with
  | None => mret None
  | Some i =>
      c1 ← in_mem (strcmp path (lit (bytes_of "/doom1.wad")));
      is_wad ← (if c1 =? 0 then mret true
                else (c2 ← in_mem (strcmp path (lit (bytes_of "doom1.wad"))); mret (c2 =? 0)));
      ok ← (if (is_wad : bool) then load_from_disk i else mret false);
      ok ← (if (ok : bool) then mret true else load_from_initfs i path);
      if (ok : bool) then mret (Some i)
      else (upd_file i (set_in_use false);; mret None)
  end.

(** ** Reading and positioning *)

Definition fread (ptr size count : Z) (st : stream) : ST proc Z :=
  match st with
  | None => mret 0
  | Some i =>
      f ← get_file i;
      if negb (f_in_use f) then mret 0
      else
        let want := u64 (size * count) in
        let avail := if f_pos f <? f_size f then f_size f - f_pos f else 0 in
        let got := if want <? avail then want else avail in
        if got =? 0 then (upd_file i (set_eof true);; mret 0)
        else
          in_mem (memcpy ptr (f_data f + f_pos f) got);;
          upd_file i (set_pos (u64 (f_pos f + got)));;
          mret (got / size)
  end.

Definition fseek (st : stream) (offset whence : Z) : ST proc Z :=
  match st with
  | None => mret (-1)
  | Some i =>
      f ← get_file i;
      if negb (f_in_use f) then mret (-1)
      else
        new_pos ← (if whence =? 0 then mret (Some offset)
                   else if whence =? 1 then
                     (p ← signed_long (s64 (f_pos f) + offset); mret (Some p))
                   else if whence =? 2 then
                     (p ← signed_long (s64 (f_size f) + offset); mret (Some p))
                   else mret None : ST proc (option Z));
        match new_pos with
        | None => mret (-1)
        | Some p =>
            if p <? 0 then mret (-1)
            else (upd_file i (fun f => set_eof false (set_pos (u64 p) f));; mret 0)
        end
  end.

Definition ftell (st : stream) : ST proc Z :=
  match st with
  | None => mret (-1)
  | Some i => f ← get_file i; mret (if f_in_use f then s64 (f_pos f) else -1)
  end.

Definition feof (st : stream) : ST proc Z :=
  match st with
  | None => mret 0
  | Some i => f ← get_file i; mret (if f_eof f then 1 else 0)
  end.

Definition ferror (st : stream) : ST proc Z := mret 0.

Definition fclose (st : stream) : ST proc Z :=
  match st with
  | None => mret 0
  | Some i => upd_file i (set_in_use false);; mret 0
  end.

Definition fflush (st : stream) : ST proc Z := mret 0.

(** The loop of [fgets]: the number of bytes stored. *)
Definition fgets_loop (buf n : Z) (i : nat) : ST proc Z :=
  while (fun k =>
           if k <? n - 1 then
             (f ← get_file i;
              if f_size f <=? f_pos f then (upd_file i (set_eof true);; mret (inr k))
              else
                c ← in_mem (load8 (f_data f + f_pos f));
                upd_file i (set_pos (u64 (f_pos f + 1)));;
                in_mem (store8 (buf + k) c);;
                if c =? 10 then mret (inr (k + 1)) else mret (inl (k + 1)))
           else mret (inr k)) 0.

Definition fgets (buf n : Z) (st : stream) : ST proc Z :=
  match st with
  | None => mret 0
  | Some i =>
      f ← get_file i;
      if (n <=? 1) || f_eof f then mret 0
      else
        k ← fgets_loop buf n i;
        if k =? 0 then mret 0
        else (in_mem (store8 (buf + k) 0);; mret buf)
  end.

End files.

(** ** Abstract files

    What a stream stands for: the contents of the file, the position and the
    end-of-file mark. *)

Record afile := AFile { a_data : list Z; a_pos : Z; a_eof : bool }.

(** [read n a]: the next [n] bytes and the file after them; reading nothing
    sets the mark. *)
Definition next_bytes (n : Z) (a : afile) : list Z :=
  take (Z.to_nat n) (drop (Z.to_nat (a_pos a)) (a_data a)).

Definition afread (n : Z) (a : afile) : list Z * afile :=
  let l := next_bytes n a in
  (l, match l with
      | [] => AFile (a_data a) (a_pos a) true
      | _ => AFile (a_data a) (a_pos a + Zlen l) (a_eof a)
      end).

(** The bytes up to and including the first newline, at most [k] of them. *)
Fixpoint take_line (k : nat) (l : list Z) : list Z :=
  match k, l with
  | Datatypes.S k', c :: l' => if c =? 10 then [c] else c :: take_line k' l'
  | _, _ => []
  end.

(** A line read with room for [k] bytes; the mark is set when the contents end
    before the room does and without a newline. *)
Definition afgets (k : nat) (a : afile) : list Z * afile :=
  let rest := drop (Z.to_nat (a_pos a)) (a_data a) in
  let line := take_line k rest in
  (line, AFile (a_data a) (a_pos a + Zlen line)
           (a_eof a || ((length rest <? k)%nat && negb (existsb (Z.eqb 10) rest)))).

Section refinement.
Context {K : Kernel} {L : Layout}.

Definition mem_file (d : Z) (a : afile) : MemFile :=
  mkMemFile d (Zlen (a_data a)) (a_pos a) true (a_eof a).

(** Entry [i] of the table is the open file [a], whose contents are at [d]. *)
Definition file_at (s : proc) (i : nat) (d : Z) (a : afile) : Prop :=
  p_files s !! i = Some (mem_file d a) /\ bytes_at (p_mem s) d (a_data a) /\
  0 <= a_pos a < 2 ^ 63 /\ Zlen (a_data a) < 2 ^ 63.

(** The process after the memory and the entry [i] were changed. *)
Definition after (s : proc) (m : mem) (i : nat) (d : Z) (a : afile) : proc :=
  set_files (<[i := mem_file d a]> (p_files s)) (set_mem m s).

Lemma get_file_ret s i d a : file_at s i d a -> get_file i s = Ret (mem_file d a) s.
Proof. intros (H & _). unfold get_file. now rewrite H. Qed.

Lemma upd_file_ret s i f g :
  p_files s !! i = Some f -> upd_file i g s = Ret tt (set_files (<[i := g f]> (p_files s)) s).
Proof. intros H. unfold upd_file, get_file, put_file. unst. now rewrite H. Qed.

Lemma file_at_after s i d a m' a' :
  file_at s i d a -> a_data a' = a_data a -> 0 <= a_pos a' < 2 ^ 63 ->
  (forall q, d <= q < d + Zlen (a_data a) -> peek m' q = peek (p_mem s) q) ->
  file_at (after s m' i d a') i d a'.
Proof.
  intros (Hi & Hb & _ & Hl) Hd Hp Hm. unfold file_at, after. simpl.
  rewrite list_lookup_insert_eq by (eapply lookup_lt_Some; exact Hi). rewrite Hd.
  split; [done|]. split; [|done]. eapply bytes_at_ext; [|exact Hb]. done.
Qed.

Lemma next_bytes_len n a :
  0 <= n -> 0 <= a_pos a ->
  Zlen (next_bytes n a) =
  let avail := if a_pos a <? Zlen (a_data a) then Zlen (a_data a) - a_pos a else 0 in
  if n <? avail then n else avail.
Proof.
  intros Hn Hp. unfold next_bytes, Zlen in *. rewrite length_take, length_drop.
  cbv zeta. destruct (Z.ltb_spec (a_pos a) (Z.of_nat (length (a_data a)))); case_bool; lia.
Qed.

Lemma next_bytes_bounds n a :
  0 <= n -> 0 <= a_pos a ->
  Zlen (next_bytes n a) <= n /\
  (Zlen (next_bytes n a) <> 0 -> a_pos a + Zlen (next_bytes n a) <= Zlen (a_data a)).
Proof.
  intros Hn Hp. unfold next_bytes, Zlen in *. rewrite length_take, length_drop. lia.
Qed.

Lemma next_bytes_at m d n a :
  bytes_at m d (a_data a) -> 0 <= a_pos a <= Zlen (a_data a) ->
  bytes_at m (d + a_pos a) (next_bytes n a).
Proof.
  intros Hb Hp. unfold next_bytes.
  rewrite <- (take_drop (Z.to_nat (a_pos a)) (a_data a)), bytes_at_app in Hb.
  destruct Hb as [_ Hb]. rewrite <- (take_drop (Z.to_nat n) (drop _ _)), bytes_at_app in Hb.
  destruct Hb as [Hb _]. unfold Zlen in *. rewrite length_take in Hb.
  now replace (d + Z.of_nat (Nat.min (Z.to_nat (a_pos a)) (length (a_data a))))
    with (d + a_pos a) in Hb by lia.
Qed.

Lemma fread_refines_ret s i d a ptr size count :
  file_at s i d a -> 0 <= size * count < 2 ^ 64 -> 0 <= size ->
  let l := fst (afread (size * count) a) in
  let a' := snd (afread (size * count) a) in
  mapped_range (p_mem s) ptr (Zlen l) ->
  ptr + Zlen l <= d \/ d + Zlen (a_data a) <= ptr ->
  let s' := after s (poke_list (p_mem s) ptr l) i d a' in
  fread ptr size count (Some i) s = Ret (Zlen l / size) s' /\ file_at s' i d a'.
Proof.
  intros Hf Hn Hsz l a' Hmap Hdis s'. pose proof Hf as (Hi & Hb & Hp & Hl).
  pose proof (next_bytes_len (size * count) a ltac:(lia) ltac:(lia)) as Hlen. cbv zeta in Hlen.
  destruct (next_bytes_bounds (size * count) a ltac:(lia) ltac:(lia)) as [Hle Hend].
  assert (Hl' : next_bytes (size * count) a = l) by done. rewrite Hl' in *.
  pose proof (Zlen_nonneg l).
  assert (Ha' : a' = match l with [] => AFile (a_data a) (a_pos a) true
                     | _ => AFile (a_data a) (a_pos a + Zlen l) (a_eof a) end) by done.
  clearbody l a'. split.
  - unfold fread. erewrite bind_ret by (exact (get_file_ret s i d a Hf)).
    cbn [mem_file f_in_use f_pos f_size f_data negb]. rewrite u64_id, <- Hlen by done.
    destruct (Z.eqb_spec (Zlen l) 0) as [E|E].
    + erewrite bind_ret by (apply upd_file_ret; exact Hi).
      destruct l as [|c l]; [|rewrite Zlen_cons in E; pose proof (Zlen_nonneg l); lia].
      unfold s'. rewrite Ha'. unfold after. simpl. now rewrite set_mem_id.
    + specialize (Hend E). erewrite bind_ret.
      2: { apply in_mem_ret, memcpy_ret with (l := l); [|done|lia| |done].
           - rewrite <- Hl'. apply next_bytes_at; [done|lia].
           - unfold disjoint_ranges. rewrite !orb_true_iff, !Z.leb_le. lia. }
      erewrite bind_ret by (apply upd_file_ret; exact Hi).
      unfold s'. rewrite Ha'. destruct l as [|c l0] eqn:El; [done|]. rewrite <- El in *.
      unfold after, mem_file, set_pos. simpl. now rewrite u64_id by lia.
  - apply (file_at_after s i d a); [done| | |].
    + rewrite Ha'. now destruct l.
    + rewrite Ha'. destruct l as [|c l0] eqn:El; [done|]. rewrite <- El in *. simpl.
      assert (Zlen l <> 0) by (rewrite El, Zlen_cons; pose proof (Zlen_nonneg l0); lia). lia.
    + intros q Hq. apply peek_poke_list_out. lia.
Qed.

(** C5. [fread] on an open file delivers the next [size * count] bytes of its
    contents, or what is left of them, moves the position past them and returns
    the number of whole items; at the end of the file it returns 0 and sets the
    end-of-file mark.  It changes no other memory and no other file. *)
Theorem fread_refines s i d a ptr size count :
  file_at s i d a -> 0 <= size * count < 2 ^ 64 -> 0 <= size ->
  let l := fst (afread (size * count) a) in
  let a' := snd (afread (size * count) a) in
  mapped_range (p_mem s) ptr (Zlen l) ->
  ptr + Zlen l <= d \/ d + Zlen (a_data a) <= ptr ->
  let s' := after s (poke_list (p_mem s) ptr l) i d a' in
  fread ptr size count (Some i) s = Ret (Zlen l / size) s' /\ file_at s' i d a'.
Proof. exact (fread_refines_ret s i d a ptr size count). Qed.

(** Where [fseek] goes. *)
Definition seek_target (a : afile) (offset whence : Z) : option Z :=
  if whence =? 0 then Some offset
  else if whence =? 1 then Some (a_pos a + offset)
  else if whence =? 2 then Some (Zlen (a_data a) + offset)
  else None.

Lemma fseek_ftell_ret s i d a offset whence :
  file_at s i d a -> LONG_MIN <= offset <= LONG_MAX ->
  from_option (fun t => t <= LONG_MAX) True (seek_target a offset whence) ->
  match seek_target a offset whence with
  | Some t =>
      if 0 <=? t then
        let a' := AFile (a_data a) t false in
        let s' := after s (p_mem s) i d a' in
        fseek (Some i) offset whence s = Ret 0 s' /\ file_at s' i d a' /\
        ftell (Some i) s' = Ret t s' /\ feof (Some i) s' = Ret 0 s'
      else fseek (Some i) offset whence s = Ret (-1) s
  | None => fseek (Some i) offset whence s = Ret (-1) s
  end /\
  (exists s', fclose (Some i) s = Ret 0 s' /\ ftell (Some i) s' = Ret (-1) s' /\
     forall j, j <> i -> p_files s' !! j = p_files s !! j).
Proof.
  intros Hf Ho Ht. pose proof Hf as (Hi & Hb & Hp & Hl). pose proof (Zlen_nonneg (a_data a)).
  unfold LONG_MIN, LONG_MAX in *. split.
  - assert (Hseek : fseek (Some i) offset whence s =
      match seek_target a offset whence with
      | Some t => if t <? 0 then Ret (-1) s else Ret 0 (after s (p_mem s) i d (AFile (a_data a) t false))
      | None => Ret (-1) s
      end).
    { unfold fseek, seek_target in *. erewrite bind_ret by (exact (get_file_ret s i d a Hf)).
      cbn [mem_file f_in_use f_pos f_size negb]. rewrite !s64_id by (unfold LONG_MIN, LONG_MAX; lia).
      assert (Hput : forall t, 0 <= t <= 2 ^ 63 - 1 ->
        (upd_file i (fun f => set_eof false (set_pos (u64 t) f));; mret 0) s =
        Ret 0 (after s (p_mem s) i d (AFile (a_data a) t false))).
      { intros t Ht'. erewrite bind_ret by (apply upd_file_ret; exact Hi).
        unfold after. rewrite set_mem_id. unfold mem_file, set_eof, set_pos. simpl.
        now rewrite u64_id by lia. }
      destruct (whence =? 0); [|destruct (whence =? 1); [|destruct (whence =? 2); [|done]]];
        simpl in Ht;
        [rewrite bind_mret|
         rewrite bind_assoc; erewrite bind_ret by (apply signed_long_ret; unfold LONG_MIN, LONG_MAX; lia);
         rewrite bind_mret..];
        (case_bool; [done|]; apply Hput; lia). }
    rewrite Hseek. clear Hseek. destruct (seek_target a offset whence) as [t|]; [|done].
    simpl in Ht. destruct (Z.leb_spec 0 t), (Z.ltb_spec t 0); try lia; [|done].
    assert (Hf' : file_at (after s (p_mem s) i d (AFile (a_data a) t false)) i d
                    (AFile (a_data a) t false)) by (apply (file_at_after s i d a); simpl; try done; lia).
    split; [done|]. split; [done|].
    unfold ftell, feof. do 2 erewrite bind_ret by (exact (get_file_ret _ _ _ _ Hf')).
    cbn [mem_file f_in_use f_pos f_eof a_pos a_eof]. split; [|done].
    now rewrite s64_id by (unfold LONG_MIN, LONG_MAX; lia).
  - set (s' := set_files (<[i := set_in_use false (mem_file d a)]> (p_files s)) s).
    assert (Hg : get_file i s' = Ret (set_in_use false (mem_file d a)) s').
    { unfold get_file. simpl. now rewrite list_lookup_insert_eq by (eapply lookup_lt_Some; exact Hi). }
    exists s'. split; [unfold fclose; now erewrite bind_ret by (apply upd_file_ret; exact Hi)|].
    split; [unfold ftell; now erewrite bind_ret by exact Hg|].
    intros j Hj. simpl. now rewrite list_lookup_insert_ne.
Qed.

(** [fseek] to a target that is not negative returns 0, clears the
    end-of-file mark and moves the position there, even past the end of the
    file, and [ftell] then reports that position; a negative target or an
    unknown origin is refused with -1 and changes nothing.  [fclose] only
    frees the entry, after which [ftell] reports -1. *)
Theorem fseek_ftell s i d a offset whence :
  file_at s i d a -> LONG_MIN <= offset <= LONG_MAX ->
  from_option (fun t => t <= LONG_MAX) True (seek_target a offset whence) ->
  match seek_target a offset whence with
  | Some t =>
      if 0 <=? t then
        let a' := AFile (a_data a) t false in
        let s' := after s (p_mem s) i d a' in
        fseek (Some i) offset whence s = Ret 0 s' /\ file_at s' i d a' /\
        ftell (Some i) s' = Ret t s' /\ feof (Some i) s' = Ret 0 s'
      else fseek (Some i) offset whence s = Ret (-1) s
  | None => fseek (Some i) offset whence s = Ret (-1) s
  end /\
  (exists s', fclose (Some i) s = Ret 0 s' /\ ftell (Some i) s' = Ret (-1) s' /\
     forall j, j <> i -> p_files s' !! j = p_files s !! j).
Proof. exact (fseek_ftell_ret s i d a offset whence). Qed.

(** *** Lines *)

Lemma take_line_length k l : (length (take_line k l) <= k)%nat.
Proof.
  revert l. induction k as [|k IH]; intros [|c l]; simpl; try lia.
  case_bool; simpl; [lia|]. specialize (IH l). lia.
Qed.

Definition hits_end (k : nat) (rest : list Z) : bool :=
  (length rest <? k)%nat && negb (existsb (Z.eqb 10) rest).

Section fgets.
Context (s : proc) (i : nat) (d : Z) (data : list Z) (pos : Z) (eof : bool).
Context (Hf : file_at s i d (AFile data pos eof)) (buf n : Z).

(** The process once the bytes [l] were read and stored. *)
Definition fgets_state (l : list Z) (e : bool) : proc :=
  after s (poke_list (p_mem s) buf l) i d (AFile data (pos + Zlen l) e).

Lemma fgets_state_file l e :
  p_files (fgets_state l e) !! i = Some (mem_file d (AFile data (pos + Zlen l) e)).
Proof. simpl. apply list_lookup_insert_eq. eapply lookup_lt_Some, Hf. Qed.

(** Replacing the entry and the memory of such a process. *)
Lemma fgets_state_eq l e f m' l' e' :
  f = mem_file d (AFile data (pos + Zlen l') e') -> m' = poke_list (p_mem s) buf l' ->
  set_mem m' (set_files (<[i := f]> (p_files (fgets_state l e))) (fgets_state l e)) = fgets_state l' e'.
Proof.
  intros -> ->. unfold fgets_state, after, set_files, set_mem. simpl.
  now rewrite list_insert_insert_eq.
Qed.

Definition fgets_body (k : Z) : ST proc (Z + Z) :=
  if k <? n - 1 then
    (f ← get_file i;
     if f_size f <=? f_pos f then (upd_file i (set_eof true);; mret (inr k))
     else
       c ← in_mem (load8 (f_data f + f_pos f));
       upd_file i (set_pos (u64 (f_pos f + 1)));;
       in_mem (store8 (buf + k) c);;
       if c =? 10 then mret (inr (k + 1)) else mret (inl (k + 1)))
  else mret (inr k).

Lemma fgets_body_byte l c rest :
  drop (Z.to_nat (pos + Zlen l)) data = c :: rest -> Zlen l < n - 1 ->
  is_mapped (p_mem s) (buf + Zlen l) = true ->
  buf + Zlen l <= d \/ d + Zlen data <= buf ->
  fgets_body (Zlen l) (fgets_state l eof) =
  Ret (if c =? 10 then inr (Zlen l + 1) else inl (Zlen l + 1)) (fgets_state (l ++ [c]) eof).
Proof.
  intros Hrest Hn Hmap Hdis. destruct Hf as (_ & Hb & Hp & Hl). simpl in Hp, Hl, Hb.
  pose proof (Zlen_nonneg l). pose proof (lookup_drop data (Z.to_nat (pos + Zlen l)) 0) as Hc.
  rewrite Hrest, Nat.add_0_r in Hc. symmetry in Hc. pose proof (lookup_lt_Some _ _ _ Hc) as Hlt.
  unfold fgets_body. destruct (Z.ltb_spec (Zlen l) (n - 1)); [|lia].
  erewrite bind_ret by (unfold get_file; now rewrite fgets_state_file).
  cbn [mem_file f_size f_pos f_data a_data a_pos].
  destruct (Z.leb_spec (Zlen data) (pos + Zlen l)); [unfold Zlen in *; lia|].
  erewrite bind_ret.
  2: { apply in_mem_read, load8_ret. simpl. rewrite peek_poke_list_out by lia.
       pose proof (bytes_at_peek _ _ _ _ _ Hb Hc) as Hpk.
       rewrite Z2Nat.id in Hpk by lia. exact Hpk. }
  erewrite bind_ret by (apply upd_file_ret; apply fgets_state_file).
  erewrite bind_ret by (apply in_mem_ret, store8_ret; simpl; now rewrite is_mapped_poke_list).
  rewrite (fgets_state_eq _ _ _ _ (l ++ [c]) eof).
  - destruct (c =? 10); done.
  - unfold set_pos, mem_file. simpl. rewrite Zlen_app, u64_id by lia. change (Zlen [c]) with 1.
    f_equal. lia.
  - simpl. now rewrite poke_list_snoc.
Qed.

Lemma fgets_loops k : forall rest l,
  drop (Z.to_nat (pos + Zlen l)) data = rest -> n - 1 = Zlen l + Z.of_nat k ->
  mapped_range (p_mem s) buf (Zlen (l ++ take_line k rest)) ->
  buf + (n - 1) <= d \/ d + Zlen data <= buf ->
  exists m, (m <= k)%nat /\
  loops fgets_body m (Zlen l) (fgets_state l eof)
    (Ret (Zlen (l ++ take_line k rest)) (fgets_state (l ++ take_line k rest) (eof || hits_end k rest))).
Proof.
  pose proof Hf as (_ & _ & Hp & _). simpl in Hp.
  induction k as [|k IH]; intros rest l Hrest Hn Hmap Hdis; pose proof (Zlen_nonneg l).
  - exists O. split; [lia|]. simpl. rewrite app_nil_r. unfold hits_end. simpl. rewrite orb_false_r.
    apply loops_stop. unfold fgets_body. destruct (Z.ltb_spec (Zlen l) (n - 1)); [lia|done].
  - destruct rest as [|c rest].
    + exists O. split; [lia|]. simpl. rewrite app_nil_r. unfold hits_end. simpl. rewrite orb_true_r.
      apply loops_stop. unfold fgets_body. destruct (Z.ltb_spec (Zlen l) (n - 1)); [|lia].
      erewrite bind_ret by (unfold get_file; now rewrite fgets_state_file).
      cbn [mem_file f_size f_pos a_data a_pos].
      assert (Zlen data <= pos + Zlen l).
      { apply (f_equal length) in Hrest. rewrite length_drop in Hrest. simpl in Hrest.
        unfold Zlen in *. lia. }
      destruct (Z.leb_spec (Zlen data) (pos + Zlen l)); [|lia].
      erewrite bind_ret by (apply upd_file_ret; apply fgets_state_file).
      unst. f_equal. rewrite <- (set_mem_id (set_files _ _)). now apply fgets_state_eq.
    + assert (Hmp : is_mapped (p_mem s) (buf + Zlen l) = true).
      { apply Hmap. simpl. rewrite Zlen_app. destruct (c =? 10); rewrite Zlen_cons;
          pose proof (Zlen_nonneg (take_line k rest)); rewrite ?Zlen_nil; lia. }
      pose proof (fgets_body_byte l c rest Hrest ltac:(lia) Hmp ltac:(lia)) as Hbd.
      cbn [take_line] in *. destruct (Z.eqb_spec c 10) as [->|Hc].
      * exists O. split; [lia|]. unfold hits_end. simpl. rewrite andb_false_r, orb_false_r.
        rewrite Zlen_app. apply loops_stop. exact Hbd.
      * replace (l ++ c :: take_line k rest) with ((l ++ [c]) ++ take_line k rest) in *
          by now rewrite <- app_assoc.
        destruct (IH rest (l ++ [c])) as (m & Hm & Hlp).
        -- rewrite Zlen_app. change (Zlen [c]) with 1.
           replace (Z.to_nat (pos + (Zlen l + 1))) with (Z.to_nat (pos + Zlen l) + 1)%nat by lia.
           now rewrite <- drop_drop, Hrest.
        -- rewrite Zlen_app. change (Zlen [c]) with 1. lia.
        -- done.
        -- done.
        -- exists (Datatypes.S m). split; [lia|]. eapply loops_step; [exact Hbd|].
           rewrite Zlen_app in Hlp. change (Zlen [c]) with 1 in Hlp.
           replace (hits_end (Datatypes.S k) (c :: rest)) with (hits_end k rest); [exact Hlp|].
           unfold hits_end. cbn [length existsb]. destruct (Z.eqb_spec 10 c); [lia|]. simpl orb.
           destruct (Nat.ltb_spec (length rest) k),
             (Nat.ltb_spec (Datatypes.S (length rest)) (Datatypes.S k)); (done || lia).
Qed.

End fgets.

Lemma fgets_refines_ret s i d a buf n :
  file_at s i d a -> n <= INT_MAX -> a_pos a + n < 2 ^ 63 ->
  let '(line, a') := afgets (Z.to_nat (n - 1)) a in
  mapped_range (p_mem s) buf (Zlen line + 1) ->
  buf + n <= d \/ d + Zlen (a_data a) <= buf ->
  if (n <=? 1) || a_eof a then fgets buf n (Some i) s = Ret 0 s
  else match line with
       | [] => fgets buf n (Some i) s = Ret 0 (after s (p_mem s) i d a')
       | _ => let s' := after s (poke_list (p_mem s) buf (line ++ [0])) i d a' in
              fgets buf n (Some i) s = Ret buf s' /\ file_at s' i d a'
       end.
Proof.
  intros Hf Hn Hbig. destruct a as [data pos eof]. unfold afgets. cbn [a_data a_pos a_eof].
  set (rest := drop (Z.to_nat pos) data). set (line := take_line _ rest). intros Hmap Hdis.
  assert (Hg : get_file i s = Ret (mem_file d (AFile data pos eof)) s) by (now apply get_file_ret).
  unfold fgets. destruct ((n <=? 1) || eof) eqn:E.
  { erewrite bind_ret by exact Hg. cbn [mem_file f_eof a_eof]. now rewrite E. }
  pose proof E as E'. apply orb_false_elim in E' as [E1 ->]. simpl orb.
  assert (Hst : fgets_state s i d data pos buf [] false = s).
  { unfold fgets_state, after. simpl. rewrite set_mem_id. change (Zlen []) with 0.
    rewrite Z.add_0_r. destruct s as [m h fs k]. unfold set_files. simpl. f_equal.
    apply list_insert_id. apply (proj1 Hf). }
  destruct (fgets_loops s i d data pos false Hf buf n (Z.to_nat (n - 1)) rest []) as (m & Hm & Hl).
  - unfold rest. change (Zlen []) with 0. now rewrite Z.add_0_r.
  - change (Zlen []) with 0. lia.
  - eapply mapped_range_sub; [exact Hmap|lia|]. simpl. fold line. lia.
  - lia.
  - rewrite Hst in Hl. simpl in Hl. fold line in Hl. unfold INT_MAX in *.
    assert (Hloop : fgets_loop buf n i s = Ret (Zlen line)
              (fgets_state s i d data pos buf line (hits_end (Z.to_nat (n - 1)) rest))).
    { unfold fgets_loop. eapply while_loops; [exact Hl|lia]. }
    erewrite bind_ret by exact Hg. cbn [mem_file f_eof a_eof]. rewrite E.
    erewrite bind_ret by exact Hloop.
    destruct line as [|c l0] eqn:El; [done|]. rewrite <- El in *. cbv zeta.
    pose proof (Zlen_nonneg line).
    destruct (Z.eqb_spec (Zlen line) 0) as [E0|_].
    { rewrite El, Zlen_cons in E0. pose proof (Zlen_nonneg l0). lia. }
    pose proof (take_line_length (Z.to_nat (n - 1)) rest) as Hlen. fold line in Hlen.
    split.
    + erewrite bind_ret.
      2: { apply in_mem_ret, store8_ret. simpl. rewrite is_mapped_poke_list. apply Hmap. lia. }
      unst. f_equal. unfold fgets_state, after, set_mem, set_files, hits_end. simpl.
      now rewrite poke_list_snoc.
    + destruct Hf as (Hi & Hb & Hp & Hd). simpl in *.
      eapply (file_at_after s i d (AFile data pos false)); simpl; [now repeat split|done| |].
      * replace (take_line (Z.to_nat (n - 1)) rest) with line by done. unfold Zlen in *. lia.
      * intros q Hq. apply peek_poke_list_out. rewrite Zlen_app. change (Zlen [0]) with 1.
        unfold Zlen in *. lia.
Qed.

(** [fgets] on an open file stores the next line (through its newline, or to
    the end of the file, at most [n - 1] bytes) followed by a nul, moves the
    position past it and returns the buffer; the end-of-file mark is set when
    the contents end first.  With nothing to read it returns null and stores
    nothing; so it does after the mark was set or when [n] leaves no room. *)
Theorem fgets_refines s i d a buf n :
  file_at s i d a -> n <= INT_MAX -> a_pos a + n < 2 ^ 63 ->
  let '(line, a') := afgets (Z.to_nat (n - 1)) a in
  mapped_range (p_mem s) buf (Zlen line + 1) ->
  buf + n <= d \/ d + Zlen (a_data a) <= buf ->
  if (n <=? 1) || a_eof a then fgets buf n (Some i) s = Ret 0 s
  else match line with
       | [] => fgets buf n (Some i) s = Ret 0 (after s (p_mem s) i d a')
       | _ => let s' := after s (poke_list (p_mem s) buf (line ++ [0])) i d a' in
              fgets buf n (Some i) s = Ret buf s' /\ file_at s' i d a'
       end.
Proof. exact (fgets_refines_ret s i d a buf n). Qed.

End refinement.

(** ** Opening a file of the initfs archive *)

Lemma find_free_spec fs i :
  find_free fs = Some i -> (i < length fs)%nat /\
  (exists f, fs !! i = Some f /\ f_in_use f = false) /\
  (forall j f, (j < i)%nat -> fs !! j = Some f -> f_in_use f = true).
Proof.
  revert i. induction fs as [|f fs IH]; intros i H; simpl in H; [done|].
  destruct (f_in_use f) eqn:Ef.
  - destruct (find_free fs) as [k|]; [|done]. injection H as <-.
    destruct (IH k eq_refl) as (H1 & H2 & H3). simpl. split; [lia|]. split; [done|].
    intros [|j] f' Hj Hf; simpl in Hf; [now injection Hf as <-|]. eapply H3; [|exact Hf]. lia.
  - injection H as <-. simpl. split; [lia|]. split; [eauto|]. lia.
Qed.

Section opening.
Context {K : Kernel} {KL : KernelLaws K} {D : KernelData K} {L : Layout}.

(** Asking for the size of a file changes nothing but the kernel's own state. *)
Lemma initfs_size_ret s name nm :
  bytes_at (p_mem s) name nm -> Zlen nm < 2 ^ 32 ->
  exists r k', innigkeit_initfs_read name (Zlen nm) 0 0 s = Ret r (set_kst k' s) /\
  same_media (p_kst s) k' /\
  match initfs (p_kst s) nm with None => r < 0 | Some data => r = Zlen data end.
Proof.
  intros Hb Hn. unfold innigkeit_initfs_read.
  erewrite bind_ret by (unfold guard_c; destruct (Z.ltb_spec (Zlen nm) (2 ^ 32)); [reflexivity|lia]).
  erewrite bind_ret by (apply in_mem_read, load_bytes_ret; [done|lia]).
  unfold initfs_call. destruct (sys_initfs_read nm 0 (p_kst s)) as [[r l] k'] eqn:E.
  destruct (initfs_read_file _ _ _ _ _ _ (Z.le_refl 0) E) as [Hm Hr]. simpl in Hr.
  pose proof (initfs_stat _ _ _ _ _ E) as ->. unfold deliver, decode.
  destruct (Z.leb_spec 0 r).
  - exists r, k'. split; [|auto]. destruct s. done.
  - exists (-2), k'. split; [done|]. split; [done|].
    destruct (initfs _ _) as [data|]; [pose proof (Zlen_nonneg data); lia|lia].
Qed.

(** Reading the whole file to a buffer of its size. *)
Lemma initfs_data_ret s name nm data buf :
  bytes_at (p_mem s) name nm -> Zlen nm < 2 ^ 32 -> initfs (p_kst s) nm = Some data ->
  mapped_range (p_mem s) buf (Zlen data) ->
  exists k', innigkeit_initfs_read name (Zlen nm) buf (Zlen data) s =
    Ret (Zlen data) (set_mem (poke_list (p_mem s) buf data) (set_kst k' s)) /\
  same_media (p_kst s) k'.
Proof.
  intros Hb Hn Hd Hmap. unfold innigkeit_initfs_read. pose proof (Zlen_nonneg data) as Hd0.
  erewrite bind_ret by (unfold guard_c; destruct (Z.ltb_spec (Zlen nm) (2 ^ 32)); [reflexivity|lia]).
  erewrite bind_ret by (apply in_mem_read, load_bytes_ret; [done|lia]).
  unfold initfs_call. destruct (sys_initfs_read nm (Zlen data) (p_kst s)) as [[r l] k'] eqn:E.
  destruct (initfs_read_file _ _ _ _ _ _ Hd0 E) as [Hm Hr]. rewrite Hd in Hr.
  assert (l = data /\ r = Zlen data) as [-> ->].
  { destruct (Z.eqb_spec (Zlen data) 0) as [E0|E0].
    - rewrite E0 in E. rewrite (initfs_stat _ _ _ _ _ E).
      destruct data; [done|]. rewrite Zlen_cons in E0. pose proof (Zlen_nonneg data). lia.
    - destruct Hr as [-> ->]. rewrite take_ge by (unfold Zlen; lia). done. }
  unfold deliver, decode. destruct (Z.leb_spec 0 (Zlen data)); [|lia].
  exists k'. split; [|done].
  erewrite bind_ret by (apply in_mem_ret, store_bytes_ret; exact Hmap). done.
Qed.

(** The name looked up in the archive: the path without a leading slash. *)
Definition strip (t : list Z) : list Z :=
  match t with c :: u => if c =? 47 then u else t | [] => [] end.

Lemma strip_name m path t :
  cstr m path t -> cstr m (if hd 0 t =? 47 then path + 1 else path) (strip t).
Proof.
  intros H. destruct t as [|c t]; [done|]. simpl. destruct (c =? 47); [|done].
  now apply cstr_cons in H as (_ & _ & H).
Qed.

(** The kernel has room for a mapping of [n] bytes in the address space of [s]. *)
Definition mmap_succeeds (s : proc) (n : Z) : Prop :=
  forall k, 0 < (sys_mmap (regions (p_mem s)) n 3 k).1.

Lemma mmap_ok s n :
  mem_ok (p_mem s) -> mmap_succeeds s n ->
  exists d k', innigkeit_mmap n s =
    Ret d (set_kst k' (set_mem (map_region (p_mem s) d (page_round n)) s)) /\
  calm (p_kst s) k' /\ 0 < d /\ d + page_round n <= 2 ^ 47 /\
  (forall q, d <= q < d + page_round n -> is_mapped (p_mem s) q = false).
Proof.
  intros Hm Hs. unfold innigkeit_mmap. specialize (Hs (p_kst s)).
  destruct (sys_mmap (regions (p_mem s)) n 3 (p_kst s)) as [r k'] eqn:E. simpl in Hs.
  destruct (mmap_fresh _ _ _ _ _ _ E Hs) as (_ & _ & Hb & Hf).
  unfold decode. destruct (Z.leb_spec 0 r); [|lia]. destruct (Z.eqb_spec r 0); [lia|].
  exists r, k'. split; [done|]. split; [|auto].
  split; [eapply mmap_media; exact E|]. pose proof (mmap_quiet (regions (p_mem s)) n 3 (p_kst s)) as Q.
  rewrite E in Q. exact Q.
Qed.

(** The process after the bytes [l] were loaded to a fresh mapping at [d]. *)
Definition loaded (s : proc) (k : kst) (d n : Z) (l : list Z) : proc :=
  set_kst k (set_mem (poke_list (map_region (p_mem s) d n) d l) s).

Lemma load_from_initfs_ret s i path t :
  mem_ok (p_mem s) -> cstr (p_mem s) path t -> Zlen (strip t) < 2 ^ 32 ->
  p_files s !! i = Some (mkMemFile 0 0 0 true false) ->
  match initfs (p_kst s) (strip t) with
  | None => exists k', load_from_initfs i path s = Ret false (set_kst k' s)
  | Some data =>
      Zlen data + 4096 < 2 ^ 63 -> mmap_succeeds s (Zlen data + 4096) ->
      exists d k', load_from_initfs i path s =
        Ret true (set_files (<[i := mem_file d (AFile data 0 false)]> (p_files s))
                    (loaded s k' d (page_round (Zlen data + 4096)) data)) /\
      0 < d /\ d + page_round (Zlen data + 4096) <= 2 ^ 47 /\
      (forall q, d <= q < d + page_round (Zlen data + 4096) -> is_mapped (p_mem s) q = false)
  end.
Proof.
  intros Hm Ht Hn Hi. pose proof (strip_name _ _ _ Ht) as Hnm.
  unfold load_from_initfs.
  erewrite bind_ret by (eapply in_mem_read, strlen_ret; eassumption).
  erewrite bind_ret by (eapply in_mem_read, load8_hd; eassumption). cbv zeta.
  set (name := if hd 0 t =? 47 then path + 1 else path) in *.
  erewrite bind_ret by (eapply in_mem_read, strlen_ret; eassumption).
  pose proof Hnm as [Hnb _]. apply bytes_at_app in Hnb as [Hnb _].
  destruct (initfs_size_ret s name (strip t) Hnb Hn) as (sz & k1 & E1 & M1 & Hsz).
  destruct (initfs (p_kst s) (strip t)) as [data|] eqn:Ei.
  2: { exists k1. erewrite bind_ret by exact E1. destruct (Z.ltb_spec sz 0); [done|lia]. }
  intros Hd Hmm. subst sz. pose proof (Zlen_nonneg data).
  erewrite bind_ret by exact E1. destruct (Z.ltb_spec (Zlen data) 0); [lia|].
  unfold PAGE_SIZE. rewrite u64_id by lia.
  destruct (mmap_ok (set_kst k1 s) (Zlen data + 4096)) as (d & k2 & E2 & M2 & Hd0 & Hd1 & Hfr); [done..|].
  simpl p_mem in *. erewrite bind_ret by exact E2.
  erewrite bind_ret by (apply upd_file_ret; exact Hi).
  destruct (Z.eqb_spec d 0) as [|_]; [lia|].
  erewrite bind_ret by (apply upd_file_ret; simpl; apply list_lookup_insert_eq;
    eapply lookup_lt_Some; exact Hi).
  match goal with |- context [(innigkeit_initfs_read _ _ _ _ ≫= _) ?st] => set (s3 := st) end.
  set (n := page_round (Zlen data + 4096)) in *.
  pose proof (page_round_ge (Zlen data + 4096)) as Hpr. fold n in Hpr.
  destruct (initfs_data_ret s3 name (strip t) data d) as (k3 & E3 & M3).
  - eapply bytes_at_ext; [|exact Hnb]. intros q Hq. simpl.
    apply peek_map_region_old. now apply (bytes_at_mapped _ _ _ Hnb).
  - done.
  - simpl. destruct M1 as [_ M1], M2 as [[_ M2] _]. simpl in M2. now rewrite M2, M1.
  - intros q Hq. simpl. rewrite is_mapped_map_region. unfold in_region. simpl. lia.
  - exists d, k3. erewrite bind_ret by exact E3. destruct (Z.ltb_spec (Zlen data) 0); [lia|].
    erewrite bind_ret by (apply upd_file_ret; simpl; apply list_lookup_insert_eq;
      rewrite length_insert; eapply lookup_lt_Some; exact Hi).
    split; [|done]. unst. f_equal. unfold loaded, set_files, set_kst, set_mem. simpl.
    f_equal. now rewrite !list_insert_insert_eq.
Qed.

Definition WAD_NAMES : list (list Z) := [bytes_of "/doom1.wad"; bytes_of "doom1.wad"].

(** Choosing the source of the file compares the path with the WAD's names. *)
Lemma is_wad_ret {A} s path t (k : bool -> ST proc A) :
  mem_ok (p_mem s) -> cstr (p_mem s) path t ->
  Forall (fun w => cstr (p_mem s) (lit w) w) WAD_NAMES ->
  (c1 ← in_mem (strcmp path (lit (bytes_of "/doom1.wad")));
   is_wad ← (if c1 =? 0 then mret true
             else (c2 ← in_mem (strcmp path (lit (bytes_of "doom1.wad"))); mret (c2 =? 0)));
   k is_wad) s = k (existsb (fun w => bool_decide (t = w)) WAD_NAMES) s.
Proof.
  intros Hm Ht Hw. inversion_clear Hw as [|? ? H1 Hw']. inversion_clear Hw' as [|? ? H2 _].
  destruct (strcmp_ret _ _ _ _ _ Hm Ht H1) as (r1 & E1 & _ & Hr1).
  destruct (strcmp_ret _ _ _ _ _ Hm Ht H2) as (r2 & E2 & _ & Hr2).
  erewrite bind_ret by (apply in_mem_read; exact E1). unfold WAD_NAMES. cbn [existsb].
  destruct (Z.eqb_spec r1 0) as [Hz|Hz].
  - rewrite bool_decide_true by tauto. done.
  - rewrite bool_decide_false by tauto. rewrite bind_assoc.
    erewrite bind_ret by (apply in_mem_read; exact E2).
    destruct (Z.eqb_spec r2 0); [rewrite bool_decide_true by tauto|rewrite bool_decide_false by tauto]; done.
Qed.

Lemma fopen_initfs_ret s i path mode t :
  mem_ok (p_mem s) -> find_free (p_files s) = Some i ->
  cstr (p_mem s) path t -> Zlen (strip t) < 2 ^ 32 -> ~ In t WAD_NAMES ->
  Forall (fun w => cstr (p_mem s) (lit w) w) WAD_NAMES ->
  match initfs (p_kst s) (strip t) with
  | None => exists s', fopen path mode s = Ret None s' /\ p_mem s' = p_mem s /\
      forall j, f_in_use <$> p_files s' !! j = f_in_use <$> p_files s !! j
  | Some data =>
      Zlen data + 4096 < 2 ^ 63 -> mmap_succeeds s (Zlen data + 4096) -> Forall byte_ok data ->
      exists d s', fopen path mode s = Ret (Some i) s' /\
      file_at s' i d (AFile data 0 false) /\ mem_ok (p_mem s') /\
      (forall q, d <= q < d + Zlen data -> is_mapped (p_mem s) q = false) /\
      (forall q, is_mapped (p_mem s) q = true -> peek (p_mem s') q = peek (p_mem s) q) /\
      (forall j, j <> i -> p_files s' !! j = p_files s !! j)
  end.
Proof.
  intros Hm Hi Ht Hn Hnw Hw. destruct (find_free_spec _ _ Hi) as (Hlt & (f0 & Hf0 & Hfree) & _).
  set (s1 := set_files (<[i := mkMemFile 0 0 0 true false]> (p_files s)) s).
  assert (Halloc : alloc_file s = Ret (Some i) s1).
  { unfold alloc_file, get_files, put_file. unst. now rewrite Hi. }
  assert (Hi1 : p_files s1 !! i = Some (mkMemFile 0 0 0 true false))
    by (simpl; now apply list_lookup_insert_eq).
  assert (Hsrc : existsb (fun w => bool_decide (t = w)) WAD_NAMES = false).
  { apply not_true_is_false. rewrite existsb_exists. intros (w & Hin & Hb).
    apply bool_decide_eq_true in Hb. now subst w. }
  pose proof (load_from_initfs_ret s1 i path t Hm Ht Hn Hi1) as Hload. simpl p_kst in Hload.
  unfold fopen. destruct (initfs (p_kst s) (strip t)) as [data|].
  - intros Hd Hmm Hby. destruct (Hload Hd Hmm) as (d & k' & E & Hd0 & Hd1 & Hfr). simpl p_mem in Hfr.
    set (n := page_round (Zlen data + 4096)) in *. eexists d, _.
    erewrite bind_ret by exact Halloc. cbv beta iota. rewrite (is_wad_ret s1 path t), Hsrc by done.
    rewrite bind_mret. erewrite bind_ret by exact E. split; [reflexivity|].
    pose proof (page_round_ge (Zlen data + 4096)) as Hpr. fold n in Hpr.
    assert (Hm1 : mem_ok (map_region (p_mem s) d n)) by (apply mem_ok_map_region; (done || lia)).
    assert (Hmp : mapped_range (map_region (p_mem s) d n) d (Zlen data)).
    { intros q Hq. rewrite is_mapped_map_region. unfold in_region. simpl. lia. }
    split; [|split; [|split; [|split]]].
    + split; [simpl; apply list_lookup_insert_eq; now rewrite length_insert|].
      split; [now apply bytes_at_poke_list|]. simpl. lia.
    + now apply mem_ok_poke_list.
    + intros q Hq. apply Hfr. lia.
    + intros q Hq. simpl. rewrite peek_poke_list_out; [now apply peek_map_region_old|].
      destruct (Z_lt_le_dec q d); [now left|]. right.
      destruct (Z_lt_le_dec q (d + Zlen data)); [|done]. rewrite Hfr in Hq by lia. done.
    + intros j Hj. simpl. now rewrite !list_lookup_insert_ne.
  - destruct Hload as (k' & E). eexists.
    erewrite bind_ret by exact Halloc. cbv beta iota. rewrite (is_wad_ret s1 path t), Hsrc by done.
    rewrite bind_mret. erewrite bind_ret by exact E. cbv beta iota.
    erewrite bind_ret by (apply upd_file_ret; exact Hi1). split; [reflexivity|]. split; [done|].
    intros j. simpl. rewrite list_insert_insert_eq. destruct (decide (j = i)) as [->|Hj].
    + rewrite list_lookup_insert_eq, Hf0 by done. simpl. now rewrite Hfree.
    + now rewrite list_lookup_insert_ne.
Qed.

(** Opening a path that is not the WAD's takes the first free entry of the
    table and looks the path up, without its leading slash, in the initfs
    archive: a file that is there is open at position 0 with exactly its
    contents, in fresh memory; one that is not there gives a null stream and
    leaves every entry free or in use as it was.  Memory in use is unchanged,
    and so are the other files. *)
Theorem fopen_initfs s i path mode t :
  mem_ok (p_mem s) -> find_free (p_files s) = Some i ->
  cstr (p_mem s) path t -> Zlen (strip t) < 2 ^ 32 -> ~ In t WAD_NAMES ->
  Forall (fun w => cstr (p_mem s) (lit w) w) WAD_NAMES ->
  match initfs (p_kst s) (strip t) with
  | None => exists s', fopen path mode s = Ret None s' /\ p_mem s' = p_mem s /\
      forall j, f_in_use <$> p_files s' !! j = f_in_use <$> p_files s !! j
  | Some data =>
      Zlen data + 4096 < 2 ^ 63 -> mmap_succeeds s (Zlen data + 4096) -> Forall byte_ok data ->
      exists d s', fopen path mode s = Ret (Some i) s' /\
      file_at s' i d (AFile data 0 false) /\ mem_ok (p_mem s') /\
      (forall q, d <= q < d + Zlen data -> is_mapped (p_mem s) q = false) /\
      (forall q, is_mapped (p_mem s) q = true -> peek (p_mem s') q = peek (p_mem s) q) /\
      (forall j, j <> i -> p_files s' !! j = p_files s !! j)
  end.
Proof. exact (fopen_initfs_ret s i path mode t). Qed.

(** ** Reading the WAD from the disk *)

(** While the disk holds [d], a read among its first [lim] bytes that starts on
    the disk delivers at least a byte. *)
Definition blk_progress (d : list Z) (lim : Z) : Prop :=
  forall off n k, disk k = d -> 0 <= off < Zlen d -> 0 < n -> off + n <= lim ->
  0 < (sys_blk_read off n k).1.1.

(** The process once the first [n] bytes of the disk are at [data]. *)
Definition disk_loaded (s : proc) (k : kst) (data n : Z) : proc :=
  set_kst k (set_mem (poke_list (p_mem s) data (take (Z.to_nat n) (disk (p_kst s)))) s).

(** One read of at most [n] bytes at offset [off], of which the disk has [off]. *)
Lemma blk_read_step s k data off n lim :
  blk_progress (disk (p_kst s)) lim -> calm (p_kst s) k -> 0 <= off -> 0 < n -> off + n <= lim ->
  mapped_range (p_mem s) data (off + n) ->
  exists r k', innigkeit_blk_read off (data + off) n (disk_loaded s k data off) =
    Ret r (disk_loaded s k' data (if off <? Zlen (disk (p_kst s)) then off + r else off)) /\
  calm (p_kst s) k' /\ r <= n /\
  (if off <? Zlen (disk (p_kst s)) then 0 < r /\ off + r <= Zlen (disk (p_kst s)) else r <= 0).
Proof.
  intros Hp [[Hk Hki] Hc] Ho Hn Hlim Hmap. unfold innigkeit_blk_read. simpl p_kst.
  destruct (sys_blk_read off n k) as [[r l] k'] eqn:E.
  destruct (blk_read_disk _ _ _ _ _ _ E) as [[D1 I1] Hl]. set (dk := disk (p_kst s)) in *.
  assert (Hm' : calm (p_kst s) k').
  { pose proof (blk_quiet off n k) as Q. rewrite E in Q. cbn [snd] in Q. split; [|congruence].
    split; [now rewrite D1, Hk|intros nm; now rewrite I1, Hki]. }
  pose proof (Hp off n k Hk) as Hr. rewrite E in Hr. simpl in Hr. fold dk in Hr.
  unfold deliver, decode. destruct (Z.leb_spec 0 r) as [Hr0|Hr0].
  - destruct (blk_read_bytes _ _ _ _ _ _ E Hr0) as (Hrl & Hrn & _).
    specialize (Hl Hr0). rewrite Hk in Hl. fold dk in Hl.
    assert (Hlen : r <= Z.max 0 (Zlen dk - off)).
    { rewrite Hrl, Hl. unfold Zlen. rewrite length_take, length_drop. unfold Zlen in *. lia. }
    exists r, k'. split; [|split; [done|split; [done|case_bool; [|lia]; specialize (Hr ltac:(lia) Hn Hlim); lia]]].
    erewrite bind_ret.
    2: { apply in_mem_ret, store_bytes_ret. simpl. apply mapped_range_poke_list.
         eapply mapped_range_sub; [exact Hmap|lia..]. }
    unst. f_equal. unfold disk_loaded, set_kst, set_mem. simpl. f_equal. fold dk.
    destruct (Z.ltb_spec off (Zlen dk)).
    + replace (Z.to_nat (off + r)) with (Z.to_nat off + Z.to_nat r)%nat by lia.
      rewrite <- take_take_drop, <- Hl, poke_list_app. f_equal.
      unfold Zlen in *. rewrite length_take. lia.
    + assert (r = 0) by lia. destruct l as [|x l]; [done|].
      rewrite Zlen_cons in Hrl. pose proof (Zlen_nonneg l). lia.
  - exists (-1), k'. split; [|split; [done|split; [lia|case_bool; [|lia]; specialize (Hr ltac:(lia) Hn Hlim); lia]]].
    destruct (Z.ltb_spec off (Zlen dk)); [specialize (Hr ltac:(lia) Hn Hlim); lia|]. done.
Qed.

Lemma read_chunks_loops s data total :
  blk_progress (disk (p_kst s)) total -> mapped_range (p_mem s) data total -> forall j k off,
  calm (p_kst s) k -> 0 <= off <= total -> off <= Zlen (disk (p_kst s)) ->
  total - off <= Z.of_nat j ->
  exists m k', Z.of_nat m <= Z.of_nat j /\ calm (p_kst s) k' /\
  loops (fun done =>
           if done <? total then
             let chunk := if total - done <? 4096 then total - done else 4096 in
             (r ← innigkeit_blk_read done (data + done) chunk;
              if r <=? 0 then mret (inr done) else mret (inl (done + r)))
           else mret (inr done)) m off (disk_loaded s k data off)
    (Ret (Z.min total (Zlen (disk (p_kst s))))
         (disk_loaded s k' data (Z.min total (Zlen (disk (p_kst s)))))).
Proof.
  intros Hp Hmap j. induction j as [|j IH]; intros k off Hk Ho Hd Hj.
  - exists O, k. split; [lia|]. split; [done|]. assert (off = total) as -> by lia.
    rewrite Z.min_l by lia. apply loops_stop. destruct (Z.ltb_spec total total); [lia|done].
  - destruct (Z.eq_dec off total) as [->|Hne].
    { exists O, k. split; [lia|]. split; [done|]. rewrite Z.min_l by lia.
      apply loops_stop. destruct (Z.ltb_spec total total); [lia|done]. }
    set (chunk := if total - off <? 4096 then total - off else 4096).
    assert (Hc : 0 < chunk <= total - off) by (unfold chunk; case_bool; lia).
    destruct (blk_read_step s k data off chunk total Hp Hk ltac:(lia) ltac:(lia) ltac:(lia)) as (r & k1 & E & Hk1 & Hr & Hcase).
    { eapply mapped_range_sub; [exact Hmap|lia..]. }
    destruct (Z.ltb_spec off (Zlen (disk (p_kst s)))).
    + destruct (IH k1 (off + r) Hk1 ltac:(lia) ltac:(lia) ltac:(lia)) as (m & k2 & Hm & Hk2 & Hl).
      exists (Datatypes.S m), k2. split; [lia|]. split; [done|]. eapply loops_step; [|exact Hl].
      destruct (Z.ltb_spec off total); [|lia]. fold chunk. cbv zeta. erewrite bind_ret by exact E.
      destruct (Z.leb_spec r 0); [lia|done].
    + exists O, k1. split; [lia|]. split; [done|]. rewrite Z.min_r by lia.
      replace (Zlen (disk (p_kst s))) with off by lia. apply loops_stop.
      destruct (Z.ltb_spec off total); [|lia]. fold chunk. cbv zeta. erewrite bind_ret by exact E.
      destruct (Z.leb_spec r 0); [done|lia].
Qed.

(** The chunked read of the WAD terminates and loads exactly the first
    [total] bytes of the disk, or all of the disk when it is shorter, whatever
    short reads the device makes; it reports how many bytes it loaded and
    changes no other memory. *)
Lemma read_chunks_ret s data total :
  blk_progress (disk (p_kst s)) total -> 0 <= total < 2 ^ 64 -> mapped_range (p_mem s) data total ->
  exists k', read_chunks data total s =
    Ret (Z.min total (Zlen (disk (p_kst s))))
        (set_kst k' (set_mem (poke_list (p_mem s) data
                                (take (Z.to_nat total) (disk (p_kst s)))) s)) /\
  calm (p_kst s) k'.
Proof.
  intros Hp Ht Hmap.
  destruct (read_chunks_loops s data total Hp Hmap (Z.to_nat total) (p_kst s) 0)
    as (m & k' & Hm & Hk' & Hl); [done|lia|apply Zlen_nonneg|lia|].
  exists k'. split; [|done]. unfold read_chunks. eapply while_loops; [|].
  - replace s with (disk_loaded s (p_kst s) data 0) at 1.
    + replace (poke_list _ _ _) with
        (poke_list (p_mem s) data (take (Z.to_nat (Z.min total (Zlen (disk (p_kst s))))) (disk (p_kst s)))).
      * exact Hl.
      * f_equal. destruct (Z.min_spec total (Zlen (disk (p_kst s)))) as [[_ ->]|[H ->]]; [done|].
        rewrite !take_ge by (unfold Zlen in *; lia). done.
    + unfold disk_loaded. simpl. now destruct s.
  - lia.
Qed.

End opening.

(** ** Examples on the small kernel *)

(** A process with the file "ab\ncd" open in entry 2, its contents at 4200. *)
Definition file_demo_data : list Z := [97; 98; 10; 99; 100].
Definition file_demo (pos : Z) : proc :=
  set_files (<[2%nat := mem_file 4200 (AFile file_demo_data pos false)]> (replicate 16 (mkMemFile 0 0 0 false false)))
    (tk_proc (tk_image [(4200, file_demo_data)]) tk_idle).

Lemma file_demo_at pos : 0 <= pos < 2 ^ 63 ->
  file_at (file_demo pos) 2 4200 (AFile file_demo_data pos false).
Proof. intros H. split; [done|]. split; [simpl; repeat split; reflexivity|]. done. Qed.

Lemma fread_refines_witness :
  let a := AFile file_demo_data 1 false in
  let l := fst (afread 6 a) in
  let a' := snd (afread 6 a) in
  let s' := after (file_demo 1) (poke_list (p_mem (file_demo 1)) 4300 l) 2 4200 a' in
  fread 4300 2 3 (Some 2%nat) (file_demo 1) = Ret (Zlen l / 2) s' /\ file_at s' 2 4200 a'.
Proof.
  apply (fread_refines (file_demo 1) 2 4200 (AFile file_demo_data 1 false) 4300 2 3).
  - now apply file_demo_at.
  - lia.
  - lia.
  - apply mapped_rangeb_ok. vm_compute. reflexivity.
  - right. vm_compute. discriminate.
Defined.

Lemma fseek_ftell_witness :
  (let a' := AFile file_demo_data 4 false in
   let s' := after (file_demo 1) (p_mem (file_demo 1)) 2 4200 a' in
   fseek (Some 2%nat) (-1) 2 (file_demo 1) = Ret 0 s' /\ file_at s' 2 4200 a' /\
   ftell (Some 2%nat) s' = Ret 4 s' /\ feof (Some 2%nat) s' = Ret 0 s') /\
  (exists s', fclose (Some 2%nat) (file_demo 1) = Ret 0 s' /\ ftell (Some 2%nat) s' = Ret (-1) s' /\
     forall j, j <> 2%nat -> p_files s' !! j = p_files (file_demo 1) !! j).
Proof.
  apply (fseek_ftell (file_demo 1) 2 4200 (AFile file_demo_data 1 false) (-1) 2).
  - now apply file_demo_at.
  - unfold LONG_MIN, LONG_MAX. lia.
  - vm_compute. discriminate.
Defined.

Lemma fgets_refines_witness :
  let s' := after (file_demo 0) (poke_list (p_mem (file_demo 0)) 4300 [97; 98; 10; 0]) 2 4200
              (AFile file_demo_data 3 false) in
  fgets 4300 16 (Some 2%nat) (file_demo 0) = Ret 4300 s' /\
  file_at s' 2 4200 (AFile file_demo_data 3 false).
Proof.
  apply (fgets_refines (file_demo 0) 2 4200 (AFile file_demo_data 0 false) 4300 16).
  - now apply file_demo_at.
  - vm_compute. discriminate.
  - reflexivity.
  - apply mapped_rangeb_ok. vm_compute. reflexivity.
  - right. vm_compute. discriminate.
Defined.

(** An archive with the one file "cfg", opened as "/cfg". *)
Definition open_demo : proc :=
  tk_proc (tk_image [(4100, bytes_of "/cfg" ++ [0])])
    (TK [] 0 [] [(bytes_of "cfg", file_demo_data)] [] None).

Lemma tk_mmap_succeeds m k n :
  0 < n -> first_free (regions m) + page_round n <= 2 ^ 47 -> 0 < first_free (regions m) ->
  mmap_succeeds (tk_proc m k) n.
Proof.
  intros Hn Hb Hp k'. simpl. unfold tk_place.
  destruct ((0 <? n) && (first_free (regions m) + page_round n <=? 2 ^ 47)) eqn:E; [done|lia].
Qed.

Lemma fopen_initfs_witness :
  exists d s', fopen 4100 0 open_demo = Ret (Some O) s' /\
  file_at s' 0 d (AFile file_demo_data 0 false) /\ mem_ok (p_mem s') /\
  (forall q, d <= q < d + Zlen file_demo_data -> is_mapped (p_mem open_demo) q = false) /\
  (forall q, is_mapped (p_mem open_demo) q = true -> peek (p_mem s') q = peek (p_mem open_demo) q) /\
  (forall j, j <> O -> p_files s' !! j = p_files open_demo !! j).
Proof.
  pose proof (fopen_initfs open_demo 0 4100 0 (bytes_of "/cfg")) as H.
  change (initfs (p_kst open_demo) (strip (bytes_of "/cfg"))) with (Some file_demo_data) in H.
  apply H; clear H.
  - by_eval.
  - reflexivity.
  - by_eval.
  - reflexivity.
  - vm_compute. intuition discriminate.
  - repeat constructor; by_eval.
  - reflexivity.
  - apply tk_mmap_succeeds; [done|vm_compute; discriminate|reflexivity].
  - apply (bool_decide_unpack _). reflexivity.
Defined.

Lemma tk_blk_progress d lim : @blk_progress tk_kernel tk_data d lim.
Proof.
  intros off n k <- Ho Hn _. cbn [disk tk_data] in Ho. cbn [sys_blk_read tk_kernel].
  assert (Hd : Zlen (tk_slice (tk_disk k) off n) = Z.min n (Zlen (u8 <$> tk_disk k) - off)).
  { unfold tk_slice, Zlen in *. rewrite length_take, length_drop. lia. }
  destruct (tk_disk k) as [|x xs]; [change (Zlen (u8 <$> [])) with 0 in Ho; lia|].
  destruct (Z.ltb_spec n 0); [lia|]. cbn [fst]. lia.
Qed.

(** A small WAD: no lump but the header, and the directory of one lump. *)
Definition wad_demo : list Z :=
  bytes_of "IWAD" ++ [1; 0; 0; 0; 12; 0; 0; 0] ++ [0; 0; 0; 0; 0; 0; 0; 0] ++ bytes_of "TEXTURE1".

Definition wad_proc : proc :=
  tk_proc (tk_image [(4100, bytes_of "doom1.wad" ++ [0])]) (TK [] 0 wad_demo [] [] None).

(** The whole path of [fopen] on that disk: entry 0, the contents of the disk,
    and the diagnostics on the console. *)
Example fopen_wad_example :
  match fopen 4100 0 wad_proc with
  | Ret (Some O) s' =>
      match p_files s' !! O with
      | Some f => bool_decide (bytes_at (p_mem s') (f_data f) wad_demo) && (f_size f =? Zlen wad_demo)
      | None => false
      end &&
      bool_decide (console (p_kst s') =
        nl "doom: loaded WAD from disk: 28 bytes (1 lumps)" ++
        bytes_of "doom: WAD magic=[IWAD] first lumps: [TEXTURE1]" ++
        nl "doom: TEXTURE1 in raw WAD: YES  TEXTURE2: NO" ++ [10])
  | _ => false
  end = true.
Proof. vm_compute. reflexivity. Qed.
