(* ===== verification/Time.v ===== *)
(** * Time, and the operations the runtime declines

    [apps/doom/innigkeit_libc.c]: [gettimeofday], [time], [clock], the
    busy-waiting [usleep] and the stubs for the operating-system services the
    game may ask for; [apps/doom/doomgeneric_innigkeit.c]: [DG_SleepMs] and
    [DG_GetTicksMs]. *)

From S2P Require Import Prelude Machine Memory Process TestKernel HeapAlloc.

Section time.
Context {K : Kernel}.

Definition CLOCKS_PER_SEC : Z := 1000.

(** [tv] points to two [long]s, [tv_sec] and [tv_usec]. *)
Definition gettimeofday (tv tz : Z) : ST proc Z :=
  (if tv =? 0 then mret tt
   else
     ms ← innigkeit_uptime_ms;
     in_mem (store64 tv (s64 (ms / 1000)));;
     in_mem (store64 (tv + 8) (s64 (u64 (ms mod 1000 * 1000)))));;
  mret 0.

Definition time (t : Z) : ST proc Z :=
  ms ← innigkeit_uptime_ms;
  let s := s64 (ms / 1000) in
  (if t =? 0 then mret tt else in_mem (store64 t s));;
  mret s.

Definition clock : ST proc Z :=
  ms ← innigkeit_uptime_ms; mret (s64 ms).

(** [while (innigkeit_uptime_ms() < target) ;] *)
Definition wait_until (target : Z) : ST proc unit :=
  while (fun _ : unit =>
           t ← innigkeit_uptime_ms;
           if t <? target then mret (inl tt) else mret (inr tt)) tt.

Definition usleep (usec : Z) : ST proc Z :=
  t ← innigkeit_uptime_ms;
  wait_until (u64 (t + usec / 1000));;
  mret 0.

Definition DG_SleepMs (ms : Z) : ST proc unit :=
  t ← innigkeit_uptime_ms;
  wait_until (u64 (t + ms)).

Definition DG_GetTicksMs : ST proc Z :=
  ms ← innigkeit_uptime_ms; mret (u32 ms).

(** ** Stubs *)

Definition getenv (name : Z) : ST proc Z := mret 0.
Definition system (cmd : Z) : ST proc Z := mret (-1).
Definition open (path flags : Z) : ST proc Z := mret (-1).
Definition close (fd : Z) : ST proc Z := mret (-1).
Definition read (fd buf len : Z) : ST proc Z := mret (-1).
Definition unlink (path : Z) : ST proc Z := mret (-1).
Definition rename (old newp : Z) : ST proc Z := mret (-1).
Definition getcwd (buf size : Z) : ST proc Z :=
  (if negb (buf =? 0) && (0 <? size) then in_mem (store8 buf 0) else mret tt);;
  mret buf.
Definition chdir (path : Z) : ST proc Z := mret (-1).
Definition mkdtemp (tmpl : Z) : ST proc Z := mret 0.
Definition opendir (path : Z) : ST proc Z := mret 0.
Definition readdir (dir : Z) : ST proc Z := mret 0.
Definition closedir (dir : Z) : ST proc Z := mret 0.
Definition stat (path buf : Z) : ST proc Z := mret (-1).
Definition fstat (fd buf : Z) : ST proc Z := mret (-1).
Definition mkdir (path mode : Z) : ST proc Z := mret (-1).
Definition access (path mode : Z) : ST proc Z := mret (-1).
Definition remove (path : Z) : ST proc Z := mret (-1).

End time.

(** ** The clock

    The kernel's millisecond counter: a reading reports it, it never goes back,
    and, up to [CLOCK_MAX] milliseconds after boot, it advances at least once in
    every [tick_readings] readings. *)

Definition CLOCK_MAX : Z := 2 ^ 62.

Fixpoint after_readings `{Kernel} (n : nat) (k : kst) : kst :=
  match n with
  | O => k
  | Datatypes.S n' => after_readings n' (sys_uptime_ms k).2
  end.

Class KernelClock (K : Kernel) := {
  now : kst -> Z;
  tick_readings : nat;
  uptime_reads : forall k, (sys_uptime_ms k).1 = now k;
  now_range : forall k, 0 <= now k < 2 ^ 63;
  now_monotone : forall k, now k <= now (sys_uptime_ms k).2;
  now_advances : forall k, now k < CLOCK_MAX -> now k < now (after_readings tick_readings k)
}.

Section waiting.
Context {K : Kernel} {C : KernelClock K}.

Lemma uptime_ret s :
  innigkeit_uptime_ms s = Ret (now (p_kst s)) (set_kst (sys_uptime_ms (p_kst s)).2 s).
Proof.
  unfold innigkeit_uptime_ms. pose proof (uptime_reads (p_kst s)) as H.
  destruct (sys_uptime_ms (p_kst s)) as [r k']. simpl in *. subst r.
  pose proof (now_range (p_kst s)). now rewrite u64_id by lia.
Qed.

Lemma after_readings_add n m k : after_readings (n + m) k = after_readings m (after_readings n k).
Proof. revert k. induction n as [|n IH]; intros k; [done|]. apply IH. Qed.

Lemma now_after n k : now k <= now (after_readings n k).
Proof.
  revert k. induction n as [|n IH]; intros k; simpl; [lia|].
  pose proof (now_monotone k). specialize (IH (sys_uptime_ms k).2). lia.
Qed.

(** After [tick_readings] readings for each millisecond the target is reached. *)
Lemma now_reaches n k :
  Z.min CLOCK_MAX (now k + Z.of_nat n) <= now (after_readings (n * tick_readings) k).
Proof.
  revert k. induction n as [|n IH]; intros k; [simpl; lia|].
  replace (Datatypes.S n * tick_readings)%nat with (tick_readings + n * tick_readings)%nat by lia.
  rewrite after_readings_add. specialize (IH (after_readings tick_readings k)).
  destruct (Z_lt_le_dec (now k) CLOCK_MAX) as [H|H].
  - pose proof (now_advances k H). lia.
  - pose proof (now_after tick_readings k). lia.
Qed.

Lemma wait_until_loops target j : forall s,
  target <= now (after_readings j (p_kst s)) ->
  exists i, (i <= j)%nat /\
  loops (fun _ : unit =>
           t ← innigkeit_uptime_ms;
           if t <? target then mret (inl tt) else mret (inr tt)) i tt s
    (Ret tt (set_kst (after_readings (Datatypes.S i) (p_kst s)) s)) /\
  target <= now (after_readings i (p_kst s)).
Proof.
  induction j as [|j IH]; intros s Hj.
  - exists O. split; [lia|]. split; [|done]. apply loops_stop.
    erewrite bind_ret by apply uptime_ret. simpl in Hj.
    destruct (Z.ltb_spec (now (p_kst s)) target); [lia|done].
  - destruct (Z.ltb_spec (now (p_kst s)) target) as [Hlt|Hge].
    + destruct (IH (set_kst (sys_uptime_ms (p_kst s)).2 s) Hj) as (i & Hi & Hl & Hn).
      exists (Datatypes.S i). split; [lia|]. split; [|exact Hn].
      eapply loops_step; [|exact Hl]. erewrite bind_ret by apply uptime_ret.
      destruct (Z.ltb_spec (now (p_kst s)) target); [done|lia].
    + exists O. split; [lia|]. split; [|done]. apply loops_stop.
      erewrite bind_ret by apply uptime_ret.
      destruct (Z.ltb_spec (now (p_kst s)) target); [lia|done].
Qed.

(** The busy-wait ends, and not before the target was read. *)
Lemma wait_until_ret s target :
  target <= CLOCK_MAX -> (target - now (p_kst s)) * Z.of_nat tick_readings < 2 ^ 65 ->
  exists k', wait_until target s = Ret tt (set_kst k' s) /\ target <= now k' /\ now (p_kst s) <= now k'.
Proof.
  intros Ht Hb. set (n := Z.to_nat (target - now (p_kst s))).
  destruct (wait_until_loops target (n * tick_readings) s) as (i & Hi & Hl & Hn).
  { pose proof (now_reaches n (p_kst s)). lia. }
  exists (after_readings (Datatypes.S i) (p_kst s)). split; [|split].
  - unfold wait_until. eapply while_loops; [exact Hl|].
    assert (Z.of_nat i <= Z.of_nat n * Z.of_nat tick_readings) by lia. nia.
  - replace (Datatypes.S i) with (i + 1)%nat by lia. rewrite after_readings_add.
    pose proof (now_after 1 (after_readings i (p_kst s))). lia.
  - apply now_after.
Qed.

(** Reading the clock and waiting for [d] more milliseconds. *)
Lemma sleep_ret s d :
  0 <= d -> now (p_kst s) + d <= CLOCK_MAX -> d * Z.of_nat tick_readings < 2 ^ 65 ->
  exists k', (t ← innigkeit_uptime_ms; wait_until (u64 (t + d))) s = Ret tt (set_kst k' s) /\
  now (p_kst s) + d <= now k'.
Proof.
  intros Hd Hcl Hb. pose proof (now_range (p_kst s)) as Hr. pose proof (now_monotone (p_kst s)) as Hmn.
  erewrite bind_ret by apply uptime_ret. unfold CLOCK_MAX in *. rewrite u64_id by lia.
  set (s1 := set_kst (sys_uptime_ms (p_kst s)).2 s).
  destruct (wait_until_ret s1 (now (p_kst s) + d) Hcl) as (k' & E & Ht & _).
  { unfold s1. simpl. nia. }
  now exists k'.
Qed.

(** The time functions report the kernel's millisecond counter: [clock] in
    milliseconds, [time] in whole seconds, [gettimeofday] as seconds and
    microseconds that add up to it, with [tv_usec] below a million, and
    [DG_GetTicksMs] modulo 2^32; [usleep] and [DG_SleepMs] return, no sooner than
    the requested number of milliseconds. *)
Theorem time_functions s tv usec delay :
  mapped_range (p_mem s) tv 16 -> tv <> 0 -> 0 <= usec < 2 ^ 64 -> 0 <= delay < 2 ^ 32 ->
  now (p_kst s) + Z.max delay (usec / 1000) <= CLOCK_MAX ->
  Z.max delay (usec / 1000) * Z.of_nat tick_readings < 2 ^ 65 ->
  let ms := now (p_kst s) in
  let s1 := set_kst (sys_uptime_ms (p_kst s)).2 s in
  clock s = Ret ms s1 /\ time 0 s = Ret (ms / 1000) s1 /\
  (exists sec us, gettimeofday tv 0 s =
     Ret 0 (set_mem (poke_list (p_mem s) tv (le_encode 8 sec ++ le_encode 8 us)) s1) /\
     ms * 1000 = sec * 1000000 + us /\ 0 <= us < 1000000) /\
  DG_GetTicksMs s = Ret (ms mod 2 ^ 32) s1 /\
  (exists k', usleep usec s = Ret 0 (set_kst k' s) /\ ms + usec / 1000 <= now k') /\
  (exists k', DG_SleepMs delay s = Ret tt (set_kst k' s) /\ ms + delay <= now k').
Proof.
  intros Hmap Htv Hu Hd Hcl Hb ms s1. pose proof (now_range (p_kst s)) as Hr. fold ms in Hr.
  assert (Hm1 : 0 <= ms / 1000 < 2 ^ 63).
  { split; [apply Z.div_pos; lia|]. apply Z.div_lt_upper_bound; lia. }
  assert (Hm2 : 0 <= ms mod 1000 < 1000) by (apply Z.mod_pos_bound; lia).
  split; [|split; [|split; [|split; [|split]]]].
  - unfold clock. erewrite bind_ret by apply uptime_ret. fold ms.
    rewrite s64_id by (unfold LONG_MIN, LONG_MAX; lia). done.
  - unfold time. erewrite bind_ret by apply uptime_ret. fold ms.
    rewrite s64_id by (unfold LONG_MIN, LONG_MAX; lia). done.
  - exists (ms / 1000), (ms mod 1000 * 1000). unfold gettimeofday.
    destruct (Z.eqb_spec tv 0); [done|]. rewrite bind_assoc. erewrite bind_ret by apply uptime_ret.
    fold ms s1. rewrite u64_id, !s64_id by (unfold LONG_MIN, LONG_MAX; lia). rewrite bind_assoc.
    erewrite bind_ret by (apply in_mem_ret, store64_ret; eapply mapped_range_sub; [exact Hmap|lia..]).
    erewrite bind_ret by (apply in_mem_ret, store64_ret; cbn [p_mem set_mem]; apply mapped_range_poke_list;
      eapply mapped_range_sub; [exact Hmap|lia..]).
    split; [|split; [pose proof (Z.div_mod ms 1000 ltac:(lia)); lia|lia]].
    rewrite poke_list_app. unst. rewrite le_encode_Zlen. done.
  - unfold DG_GetTicksMs. now erewrite bind_ret by apply uptime_ret.
  - unfold usleep. rewrite <- bind_assoc.
    destruct (sleep_ret s (usec / 1000)) as (k' & E & Ht); [apply Z.div_pos; lia|fold ms; lia|nia|].
    exists k'. split; [|done]. now erewrite bind_ret by exact E.
  - unfold DG_SleepMs. apply sleep_ret; fold ms; [lia..|nia].
Qed.

End waiting.

(** ** Examples on the small kernel *)

#[export] Instance tk_clock_laws : KernelClock tk_kernel.
Proof.
  refine {| now := tk_now : @kst tk_kernel -> Z; tick_readings := 1 |}; intros k; [done|..];
    unfold CLOCK_MAX, tk_now; cbn [after_readings sys_uptime_ms tk_kernel snd tk_clock]; lia.
Defined.

Definition clock_demo : proc := tk_proc (page_with []) (TK [] 61234 [] [] [] None).

Lemma time_functions_witness :
  let ms := now (p_kst clock_demo) in
  let s1 := set_kst (sys_uptime_ms (p_kst clock_demo)).2 clock_demo in
  clock clock_demo = Ret ms s1 /\ time 0 clock_demo = Ret (ms / 1000) s1 /\
  (exists sec us, gettimeofday 4200 0 clock_demo =
     Ret 0 (set_mem (poke_list (p_mem clock_demo) 4200 (le_encode 8 sec ++ le_encode 8 us)) s1) /\
     ms * 1000 = sec * 1000000 + us /\ 0 <= us < 1000000) /\
  DG_GetTicksMs clock_demo = Ret (ms mod 2 ^ 32) s1 /\
  (exists k', usleep 5000 clock_demo = Ret 0 (set_kst k' clock_demo) /\ ms + 5000 / 1000 <= now k') /\
  (exists k', DG_SleepMs 20 clock_demo = Ret tt (set_kst k' clock_demo) /\ ms + 20 <= now k').
Proof.
  apply (time_functions clock_demo 4200 5000 20);
    [apply mapped_rangeb_ok; vm_compute; reflexivity|done|lia|lia|vm_compute; discriminate|reflexivity].
Defined.
