(* ===== verification/SortSearch.v ===== *)
(** * Sorting and searching

    [apps/doom/innigkeit_libc.c]: [qsort], an insertion sort over memory with a
    scratch element from [malloc], and [bsearch].  The comparison function the
    caller passes is a parameter. *)

From S2P Require Import Prelude Machine Memory Process TestKernel HeapAlloc.
From Stdlib Require Import Sorting.Sorted Sorting.Permutation.

Section operations.
Context {K : Kernel}.
Variable cmp : Z -> Z -> ST proc Z.

(** The inner loop: shift the elements above the one in [tmp] up by one place;
    the place left free. *)
Definition shift_up (b size tmp i : Z) : ST proc Z :=
  while (fun j =>
           if 0 <? j then
             (r ← cmp (b + u64 ((j - 1) * size)) tmp;
              if 0 <? r then
                (in_mem (memcpy (b + u64 (j * size)) (b + u64 ((j - 1) * size)) size);;
                 mret (inl (j - 1)))
              else mret (inr j))
           else mret (inr j)) i.

Definition qsort (base n size : Z) : ST proc unit :=
  tmp ← malloc size;
  if tmp =? 0 then mret tt
  else
    while (fun i =>
             if i <? n then
               (in_mem (memcpy tmp (base + u64 (i * size)) size);;
                j ← shift_up base size tmp i;
                in_mem (memcpy (base + u64 (j * size)) tmp size);;
                mret (inl (i + 1)))
             else mret (inr tt)) 1;;
    free tmp.

Definition bsearch (key base n size : Z) : ST proc Z :=
  while (fun '(lo, hi) =>
           if lo <? hi then
             let mid := lo + (hi - lo) / size / 2 * size in
             (r ← cmp key mid;
              if r <? 0 then mret (inl (lo, mid))
              else if 0 <? r then mret (inl (mid + size, hi))
              else mret (inr mid))
           else mret (inr 0)) (base, base + u64 (n * size)).

End operations.

(** ** Reference: insertion sort of lists *)

Section reference.
Context {A : Type} (gt : A -> A -> bool).

(** Insert into a sorted prefix given from its end. *)
Fixpoint insert_rev (x : A) (rp : list A) : list A :=
  match rp with
  | y :: rp' => if gt y x then y :: insert_rev x rp' else x :: rp
  | [] => [x]
  end.

Definition insertion_sort (l : list A) : list A :=
  reverse (fold_left (fun rp x => insert_rev x rp) l []).

Lemma insert_rev_perm x rp : Permutation (x :: rp) (insert_rev x rp).
Proof.
  induction rp as [|y rp IH]; simpl; [done|]. destruct (gt y x); [|done].
  rewrite <- IH. apply perm_swap.
Qed.

Lemma insertion_sort_perm l : Permutation l (insertion_sort l).
Proof.
  unfold insertion_sort. etrans; [|symmetry; apply reverse_Permutation].
  assert (H : forall rp, Permutation (l ++ rp) (fold_left (fun rp x => insert_rev x rp) l rp)).
  { induction l as [|x l IH]; intros rp; simpl; [done|]. rewrite <- IH, <- insert_rev_perm.
    apply Permutation_middle. }
  specialize (H []). now rewrite app_nil_r in H.
Qed.

(** [gt] is the strict part of a total preorder. *)
Context (gt_asym : forall x y, gt x y = true -> gt y x = false).
Context (le_trans : forall x y z, gt x y = false -> gt y z = false -> gt x z = false).

Definition le (x y : A) : Prop := gt x y = false.
Definition ge (x y : A) : Prop := gt y x = false.

Lemma insert_rev_sorted x rp : Sorted ge rp -> Sorted ge (insert_rev x rp).
Proof.
  induction rp as [|y rp IH]; intros Hs; simpl; [now repeat constructor|].
  destruct (gt y x) eqn:E.
  - inversion_clear Hs as [|? ? Hs' Hh]. constructor; [now apply IH|].
    destruct rp as [|z rp]; simpl; [constructor; unfold ge; auto|].
    destruct (gt z x); constructor; [now inversion Hh|unfold ge; auto].
  - constructor; [done|]. now constructor.
Qed.

Lemma fold_insert_sorted l rp :
  Sorted ge rp -> Sorted ge (fold_left (fun rp x => insert_rev x rp) l rp).
Proof.
  revert rp. induction l as [|x l IH]; intros rp H; simpl; [done|]. now apply IH, insert_rev_sorted.
Qed.

Lemma reverse_sorted l : Sorted ge l -> Sorted le (reverse l).
Proof.
  induction 1 as [|x l Hs IH Hh]; [constructor|]. rewrite reverse_cons.
  destruct l as [|y l]; [simpl; now repeat constructor|].
  inversion_clear Hh as [|? ? Hxy]. rewrite reverse_cons in *.
  revert IH. generalize (reverse l). intros k Hk. rewrite <- app_assoc. simpl.
  induction k as [|z k IHk]; simpl in *.
  - repeat constructor. exact Hxy.
  - inversion_clear Hk as [|? ? Hk' Hz]. constructor; [now apply IHk|].
    destruct k; simpl in *; inversion_clear Hz; now constructor.
Qed.

Lemma insertion_sort_sorted l : Sorted le (insertion_sort l).
Proof. apply reverse_sorted, fold_insert_sorted. constructor. Qed.

(** Elements that compare equal to [c] keep their order. *)
Definition same_rank (c y : A) : bool := negb (gt c y) && negb (gt y c).

Lemma insert_rev_stable c x rp :
  List.filter (same_rank c) (insert_rev x rp) = List.filter (same_rank c) (x :: rp).
Proof.
  induction rp as [|y rp IH]; [done|]. cbn [insert_rev]. destruct (gt y x) eqn:E; [|done].
  cbn [List.filter] in *. rewrite IH.
  destruct (same_rank c x) eqn:Ex, (same_rank c y) eqn:Ey; try done.
  unfold same_rank in *. exfalso.
  apply andb_prop in Ex as [E1 E2], Ey as [E3 E4]. rewrite negb_true_iff in *.
  rewrite (le_trans y c x) in E; done.
Qed.

Lemma insertion_sort_stable c l :
  List.filter (same_rank c) (insertion_sort l) = List.filter (same_rank c) l.
Proof.
  assert (H : forall l rp, List.filter (same_rank c) (fold_left (fun rp x => insert_rev x rp) l rp) =
                           List.filter (same_rank c) (reverse l ++ rp)).
  { clear l. induction l as [|x l IH]; intros rp; [done|]. cbn [fold_left].
    rewrite IH, reverse_cons, <- app_assoc, !List.filter_app. f_equal. rewrite <- List.filter_app. apply insert_rev_stable. }
  unfold insertion_sort.
  assert (Hr : forall k, List.filter (same_rank c) (reverse k) = reverse (List.filter (same_rank c) k)).
  { induction k as [|x k IH]; [done|]. rewrite reverse_cons, List.filter_app, IH. simpl.
    destruct (same_rank c x); [now rewrite reverse_cons|now rewrite app_nil_r]. }
  rewrite Hr, H, app_nil_r, Hr. apply reverse_involutive.
Qed.

End reference.

(** ** Arrays in memory *)

Section arrays.
Context (size : Z) (Hsize : 0 < size).

Definition sized (l : list (list Z)) : Prop := Forall (fun x => Zlen x = size) l.

Lemma concat_Zlen l : sized l -> Zlen (concat l) = Zlen l * size.
Proof.
  induction 1 as [|x l Hx _ IH]; [done|]. simpl. rewrite Zlen_app, Zlen_cons, IH, Hx. lia.
Qed.

Lemma sized_app l1 l2 : sized (l1 ++ l2) <-> sized l1 /\ sized l2.
Proof. apply Forall_app. Qed.

Lemma elem_at m b l1 x l2 :
  bytes_at m b (concat (l1 ++ x :: l2)) -> sized l1 -> bytes_at m (b + Zlen l1 * size) x.
Proof.
  intros H Hs. rewrite concat_app, bytes_at_app in H. destruct H as [_ H]. simpl in H.
  apply bytes_at_app in H as [H _]. now rewrite concat_Zlen in H.
Qed.

Lemma elem_store m b l1 x y l2 :
  bytes_at m b (concat (l1 ++ y :: l2)) -> sized l1 -> Zlen x = size -> Zlen y = size ->
  Forall byte_ok x -> bytes_at (poke_list m (b + Zlen l1 * size) x) b (concat (l1 ++ x :: l2)).
Proof.
  intros H Hs Hx Hy Hb. rewrite concat_app in *. simpl in *.
  apply bytes_at_app in H as [H1 H]. apply bytes_at_app in H as [H2 H3].
  rewrite concat_Zlen in * by done. pose proof (bytes_at_mapped _ _ _ H2) as Hm.
  rewrite !bytes_at_app, concat_Zlen by done. rewrite Hx. rewrite Hy in *. split; [|split].
  - apply bytes_at_poke_list_out; [|done]. rewrite concat_Zlen by done. lia.
  - apply bytes_at_poke_list; [now rewrite Hx|done].
  - apply bytes_at_poke_list_out; [|done]. lia.
Qed.

End arrays.

(** ** The state of the sort *)

Section sorting.
Context {K : Kernel} (cmp : Z -> Z -> ST proc Z) (gt : list Z -> list Z -> bool).
Context (b size tmp n : Z) (s1 : proc).
Context (Hsize : 0 < size) (Hn : 0 <= n) (Hb : 0 < b) (Hend : b + n * size <= 2 ^ 64).
Context (Hmt : mapped_range (p_mem s1) tmp size).
Context (Hma : mapped_range (p_mem s1) b (n * size)).
Context (Hdis : tmp + size <= b \/ b + n * size <= tmp).

(** The comparison function only reads the two elements and returns a positive
    number exactly when the first is the greater. *)
Definition compares : Prop :=
  forall p q x y s, bytes_at (p_mem s) p x -> bytes_at (p_mem s) q y ->
  Zlen x = size -> Zlen y = size -> exists r, cmp p q s = Ret r s /\ (0 <? r) = gt x y.
Context (Hcmp : compares).

(** The array holds [l], the scratch element [t], and the rest of memory is
    that of [s1]. *)
Record holds (m : mem) (l : list (list Z)) (t : list Z) : Prop := {
  h_ok : mem_ok m;
  h_arr : bytes_at m b (concat l);
  h_tmp : bytes_at m tmp t;
  h_sized : sized size l;
  h_len : Zlen l = n;
  h_tlen : Zlen t = size;
  h_mapped : forall q, is_mapped m q = is_mapped (p_mem s1) q;
  h_frame : forall q, q < b \/ b + n * size <= q -> q < tmp \/ tmp + size <= q ->
            peek m q = peek (p_mem s1) q
}.

Lemma holds_index m l1 x l2 t :
  holds m (l1 ++ x :: l2) t ->
  0 <= Zlen l1 < n /\ u64 (Zlen l1 * size) = Zlen l1 * size /\ sized size l1 /\
  Zlen x = size /\ Zlen l1 * size + size <= n * size.
Proof.
  intros H. pose proof (h_len _ _ _ H) as Hl. rewrite Zlen_app, Zlen_cons in Hl.
  pose proof (Zlen_nonneg l1). pose proof (Zlen_nonneg l2).
  pose proof (h_sized _ _ _ H) as Hs. apply sized_app in Hs as [Hs1 Hs2].
  inversion_clear Hs2. split; [lia|]. split; [|split; [done|split; [done|nia]]].
  apply u64_id. split; nia.
Qed.

Lemma holds_mapped m l t : holds m l t ->
  mapped_range m tmp size /\ mapped_range m b (n * size).
Proof. intros H. split; intros q Hq; rewrite (h_mapped _ _ _ H); auto. Qed.

(** Copying the bytes of some element or of the scratch to a place. *)
Lemma store_elem m l1 y l2 t src x :
  holds m (l1 ++ y :: l2) t -> bytes_at m src x -> Zlen x = size ->
  src + size <= b + Zlen l1 * size \/ b + Zlen l1 * size + size <= src ->
  exists m', memcpy (b + u64 (Zlen l1 * size)) src size m = Ret tt m' /\ holds m' (l1 ++ x :: l2) t.
Proof.
  intros H Hx Hlx Hd. destruct (holds_index _ _ _ _ _ H) as (Hi & -> & Hs1 & Hy & Hle).
  destruct (holds_mapped _ _ _ H) as [_ Hmb]. pose proof (h_ok _ _ _ H) as Hok.
  assert (Hmp : mapped_range m (b + Zlen l1 * size) size)
    by (eapply mapped_range_sub; [exact Hmb|nia..]).
  pose proof (bytes_at_bytes _ _ _ Hok Hx) as Hxb.
  exists (poke_list m (b + Zlen l1 * size) x). split.
  { apply memcpy_ret; [done|done|nia| |done]. unfold disjoint_ranges.
    rewrite !orb_true_iff, !Z.leb_le. lia. }
  pose proof (h_len _ _ _ H) as Hl. rewrite Zlen_app, Zlen_cons in Hl.
  pose proof (h_sized _ _ _ H) as Hs. apply sized_app in Hs as [_ Hs]. inversion_clear Hs.
  split.
  - apply mem_ok_poke_list; [done|]. now rewrite Hlx.
  - eapply elem_store; try done. apply (h_arr _ _ _ H).
  - apply bytes_at_poke_list_out; [|apply (h_tmp _ _ _ H)].
    rewrite Hlx, (h_tlen _ _ _ H). nia.
  - apply sized_app. split; [done|]. now constructor.
  - rewrite Zlen_app, Zlen_cons. lia.
  - apply (h_tlen _ _ _ H).
  - intros q. rewrite is_mapped_poke_list. apply (h_mapped _ _ _ H).
  - intros q Hq1 Hq2. rewrite peek_poke_list_out by (rewrite Hlx; nia).
    now apply (h_frame _ _ _ H).
Qed.

(** Copying an element to the scratch. *)
Lemma load_tmp m l1 x l2 t :
  holds m (l1 ++ x :: l2) t ->
  exists m', memcpy tmp (b + u64 (Zlen l1 * size)) size m = Ret tt m' /\ holds m' (l1 ++ x :: l2) x.
Proof.
  intros H. destruct (holds_index _ _ _ _ _ H) as (Hi & -> & Hs1 & Hlx & Hle).
  destruct (holds_mapped _ _ _ H) as [Hmp _]. pose proof (h_ok _ _ _ H) as Hok.
  pose proof (elem_at size m b l1 x l2 (h_arr _ _ _ H) Hs1) as Hx.
  pose proof (bytes_at_bytes _ _ _ Hok Hx) as Hxb.
  exists (poke_list m tmp x). split.
  { apply memcpy_ret; [done|done|nia| |done]. unfold disjoint_ranges.
    rewrite !orb_true_iff, !Z.leb_le. nia. }
  pose proof (h_len _ _ _ H) as Hl.
  split; try (apply H).
  - apply mem_ok_poke_list; [done|]. now rewrite Hlx.
  - apply bytes_at_poke_list_out; [|apply (h_arr _ _ _ H)].
    rewrite Hlx, (concat_Zlen size) by apply (h_sized _ _ _ H). rewrite Hl. lia.
  - apply bytes_at_poke_list; [now rewrite Hlx|done].
  - done.
  - intros q. rewrite is_mapped_poke_list. apply (h_mapped _ _ _ H).
  - intros q Hq1 Hq2. rewrite peek_poke_list_out by (rewrite Hlx; lia).
    now apply (h_frame _ _ _ H).
Qed.

Lemma in_mem_at {A} (c : ST mem A) m a m' :
  c m = Ret a m' -> in_mem c (set_mem m s1) = Ret a (set_mem m' s1).
Proof. intros H. erewrite in_mem_ret by exact H. done. Qed.

Definition shift_body (j : Z) : ST proc (Z + Z) :=
  if 0 <? j then
    (r ← cmp (b + u64 ((j - 1) * size)) tmp;
     if 0 <? r then
       (in_mem (memcpy (b + u64 (j * size)) (b + u64 ((j - 1) * size)) size);;
        mret (inl (j - 1)))
     else mret (inr j))
  else mret (inr j).

(** The inner loop with the prefix [rp] (from its end) still to be examined, a
    free place [h], and the elements [up] already moved up. *)
Lemma shift_loops rest x : forall rp m h up,
  holds m (reverse rp ++ h :: up ++ rest) x ->
  exists k rpf hf upf m', (k <= length rp)%nat /\
  loops shift_body k (Zlen rp) (set_mem m s1) (Ret (Zlen rpf) (set_mem m' s1)) /\
  holds m' (reverse rpf ++ hf :: upf ++ rest) x /\
  reverse (insert_rev gt x rp) ++ up = reverse rpf ++ x :: upf.
Proof.
  induction rp as [|y rp IH]; intros m h up H.
  - exists O, [], h, up, m. split; [lia|]. split; [|done]. now apply loops_stop.
  - pose proof H as H0. rewrite reverse_cons, <- app_assoc in H0. simpl in H0.
    destruct (holds_index _ _ _ _ _ H0) as (Hi & Hu & Hs & Hly & Hle).
    pose proof (elem_at size m b _ y _ (h_arr _ _ _ H0) Hs) as Hy.
    destruct (Hcmp (b + u64 (Zlen (reverse rp) * size)) tmp y x (set_mem m s1)) as (r & Er & Hr).
    { now rewrite Hu. } { apply (h_tmp _ _ _ H0). } { done. } { apply (h_tlen _ _ _ H0). }
    assert (HZ : Zlen (reverse rp) = Zlen (y :: rp) - 1).
    { rewrite Zlen_cons. unfold Zlen. rewrite length_reverse. lia. }
    rewrite HZ in *. simpl insert_rev. destruct (gt y x) eqn:Eg.
    + destruct (holds_index _ _ _ _ _ H) as (Hi' & _ & _ & Hlh & _).
      assert (HZ' : Zlen (reverse (y :: rp)) = Zlen (y :: rp))
        by (unfold Zlen; now rewrite length_reverse).
      destruct (store_elem m _ h _ x _ y H Hy Hly) as (m1 & Em & H1).
      { rewrite HZ'. left. nia. }
      rewrite HZ' in *. rewrite reverse_cons, <- app_assoc in H1. simpl in H1.
      change (y :: up ++ rest) with ((y :: up) ++ rest) in H1.
      destruct (IH m1 y (y :: up) H1) as (k & rpf & hf & upf & m' & Hk & Hl & Hh & He).
      exists (Datatypes.S k), rpf, hf, upf, m'. split; [simpl; lia|]. split; [|split; [done|]].
      * eapply loops_step; [|].
        -- unfold shift_body. destruct (Z.ltb_spec 0 (Zlen (y :: rp))); [|lia].
           erewrite bind_ret by exact Er. rewrite Hr. rewrite Hu.
           erewrite bind_ret by (apply in_mem_at; exact Em). reflexivity.
        -- now replace (Zlen (y :: rp) - 1) with (Zlen rp) by (rewrite Zlen_cons; lia).
      * rewrite reverse_cons, <- app_assoc. exact He.
    + exists O, (y :: rp), h, up, m. split; [simpl; lia|]. split; [|split; [done|]].
      * apply loops_stop. unfold shift_body. destruct (Z.ltb_spec 0 (Zlen (y :: rp))); [|lia].
        erewrite bind_ret by exact Er. now rewrite Hr.
      * rewrite (reverse_cons (y :: rp) x), <- app_assoc. done.
Qed.

(** One round of the outer loop inserts the element [x] into the sorted prefix. *)
Lemma insert_round m rp x rest t :
  holds m (reverse rp ++ x :: rest) t ->
  exists m', (in_mem (memcpy tmp (b + u64 (Zlen rp * size)) size);;
              j ← shift_up cmp b size tmp (Zlen rp);
              in_mem (memcpy (b + u64 (j * size)) tmp size);;
              mret (inl (Zlen rp + 1) : Z + unit)) (set_mem m s1) =
             Ret (inl (Zlen rp + 1)) (set_mem m' s1) /\
  holds m' (reverse (insert_rev gt x rp) ++ rest) x.
Proof.
  intros H. assert (HZ : Zlen (reverse rp) = Zlen rp) by (unfold Zlen; now rewrite length_reverse).
  destruct (load_tmp m _ x _ t H) as (m1 & E1 & H1). rewrite HZ in E1.
  destruct (shift_loops rest x rp m1 x [] H1) as (k & rpf & hf & upf & m2 & Hk & Hl & H2 & He).
  rewrite app_nil_r in He.
  destruct (holds_index _ _ _ _ _ H) as (Hi & _). rewrite HZ in Hi.
  pose proof H2 as H2'. destruct (holds_index _ _ _ _ _ H2') as (Hj & _ & _ & _ & Hle).
  assert (HZf : Zlen (reverse rpf) = Zlen rpf) by (unfold Zlen; now rewrite length_reverse).
  destruct (store_elem m2 _ hf _ x tmp x H2 (h_tmp _ _ _ H2) (h_tlen _ _ _ H2)) as (m3 & E3 & H3).
  { rewrite HZf in *. nia. }
  rewrite HZf in E3. exists m3. split.
  - erewrite bind_ret by (apply in_mem_at; exact E1).
    erewrite bind_ret.
    2: { unfold shift_up. eapply while_loops; [exact Hl|]. unfold Zlen in *. nia. }
    erewrite bind_ret by (apply in_mem_at; exact E3). done.
  - rewrite He, <- app_assoc. exact H3.
Qed.

Definition outer_body (i : Z) : ST proc (Z + unit) :=
  if i <? n then
    (in_mem (memcpy tmp (b + u64 (i * size)) size);;
     j ← shift_up cmp b size tmp i;
     in_mem (memcpy (b + u64 (j * size)) tmp size);;
     mret (inl (i + 1)))
  else mret (inr tt).

Lemma outer_loops rest : forall rp m t,
  holds m (reverse rp ++ rest) t ->
  exists m' t', loops outer_body (length rest) (Zlen rp) (set_mem m s1) (Ret tt (set_mem m' s1)) /\
  holds m' (reverse (fold_left (fun rp x => insert_rev gt x rp) rest rp)) t'.
Proof.
  induction rest as [|x rest IH]; intros rp m t H.
  - exists m, t. rewrite app_nil_r in H. split; [|done]. apply loops_stop. unfold outer_body.
    pose proof (h_len _ _ _ H) as Hl. unfold Zlen in *. rewrite length_reverse in Hl.
    destruct (Z.ltb_spec (Z.of_nat (length rp)) n); [lia|done].
  - destruct (insert_round m rp x rest t H) as (m1 & E & H1).
    destruct (IH (insert_rev gt x rp) m1 x H1) as (m' & t' & Hl & H').
    exists m', t'. split; [|done]. eapply loops_step; [|].
    + unfold outer_body. destruct (holds_index _ _ _ _ _ H) as (Hi & _).
      assert (HZ : Zlen (reverse rp) = Zlen rp) by (unfold Zlen; now rewrite length_reverse).
      destruct (Z.ltb_spec (Zlen rp) n); [exact E|lia].
    + replace (Zlen rp + 1) with (Zlen (insert_rev gt x rp)); [exact Hl|].
      unfold Zlen. rewrite <- (Permutation_length (insert_rev_perm gt x rp)). simpl. lia.
Qed.

End sorting.

Section sort_correct.
Context {K : Kernel} {KL : KernelLaws K}.

(** The allocator's invariant only depends on what is mapped and on the free
    part of the arena, which the sort does not touch. *)
Lemma heap_ok_frame s m' :
  heap_ok s -> mem_ok m' -> (forall q, is_mapped m' q = is_mapped (p_mem s) q) ->
  (forall q, in_free_arena s q -> peek m' q = peek (p_mem s) q) -> heap_ok (set_mem m' s).
Proof.
  intros [_ Ha] Hm Hmp Hpk. split; [done|]. destruct Ha as [Ha|(B1 & B2 & B3 & B4 & B5 & B6 & B7)]; [now left|right].
  do 5 (split; [done|]). split.
  - intros q Hq. simpl. rewrite Hmp. now apply B6.
  - intros q Hq. simpl. rewrite Hpk; [now apply B7|].
    unfold in_free_arena. simpl in Hq. rewrite B3. lia.
Qed.

Lemma in_use_array s s1 base k l :
  preserves_in_use s s1 -> (forall a, base <= a < base + k -> in_use s a) ->
  k = Zlen l -> bytes_at (p_mem s) base l ->
  bytes_at (p_mem s1) base l /\ mapped_range (p_mem s1) base k.
Proof.
  intros Hp Hu -> Hl. split.
  - eapply bytes_at_preserved; [exact Hp|done|exact Hl].
  - intros q Hq. apply (Hp q (Hu q Hq)).
Qed.

(** The sort once the scratch element is allocated. *)
Lemma qsort_ret cmp gt s s1 base size e0 elems tmp :
  0 < size < 2 ^ 63 -> compares cmp gt size -> sized size (e0 :: elems) ->
  bytes_at (p_mem s) base (concat (e0 :: elems)) ->
  (forall a, base <= a < base + Zlen (e0 :: elems) * size -> in_use s a) ->
  malloc size s = Ret tmp s1 -> heap_ok s1 -> preserves_in_use s s1 -> tmp <> 0 ->
  fresh_block s s1 tmp size ->
  exists m', qsort cmp base (Zlen (e0 :: elems)) size s = Ret tt (set_mem m' s1) /\
  heap_ok (set_mem m' s1) /\ bytes_at m' base (concat (insertion_sort gt (e0 :: elems))) /\
  (forall q, in_use s q -> q < base \/ base + Zlen (e0 :: elems) * size <= q ->
     peek m' q = peek (p_mem s) q).
Proof.
  intros Hsz Hcmp Hs Hl Hu Em Hs1 Hp1 Ht (Hf & Hz & Ht8 & _). set (n := Zlen (e0 :: elems)) in *.
  assert (HN : n * size = Zlen (concat (e0 :: elems))) by (now rewrite (concat_Zlen size)).
  destruct (in_use_array s s1 base _ _ Hp1 Hu HN Hl) as [Hl1 Hma].
  assert (Hn : 1 <= n) by (unfold n; rewrite Zlen_cons; pose proof (Zlen_nonneg elems); lia).
  assert (HN0 : 0 < n * size) by nia.
  destruct (mapped_range_bound _ _ _ (proj1 Hs1) HN0 Hma) as [Hb Hend].
  assert (Hmt : mapped_range (p_mem s1) tmp size) by (intros q Hq; apply (Hf q); lia).
  assert (Hdis : tmp + size <= base \/ base + n * size <= tmp).
  { destruct (Z_lt_le_dec base (tmp + size)), (Z_lt_le_dec tmp (base + n * size)); try lia.
    exfalso. set (q := Z.max base tmp). destruct (Hf q ltac:(lia)) as [Hq _]. apply Hq, Hu. lia. }
  destruct (mapped_bytes_at (p_mem s1) tmp (Z.to_nat size)) as (t & Htl & Htb).
  { now rewrite Z2Nat.id by lia. }
  assert (H0 : holds base size tmp n s1 (p_mem s1) (reverse [e0] ++ elems) t).
  { split; try done; [apply Hs1|unfold Zlen; lia]. }
  destruct (outer_loops cmp gt base size tmp n s1 ltac:(lia) ltac:(lia) Hb Hend Hmt Hma Hdis Hcmp elems [e0]
              (p_mem s1) t H0) as (m' & t' & Hloop & Hm').
  exists m'. split; [|split; [|split]].
  - unfold qsort. erewrite bind_ret by exact Em. destruct (Z.eqb_spec tmp 0); [done|].
    erewrite bind_ret; [reflexivity|]. rewrite set_mem_id in Hloop.
    eapply while_loops; [exact Hloop|]. unfold n, Zlen in *. simpl length in *. nia.
  - apply heap_ok_frame; [done|apply Hm'|apply Hm'|]. intros q Hq. apply (h_frame _ _ _ _ _ _ _ _ Hm').
    + destruct (Z_lt_le_dec q base); [lia|]. destruct (Z_lt_le_dec q (base + n * size)); [|lia].
      destruct (Hp1 q (Hu q ltac:(lia))) as [[_ Hnf] _]. done.
    + destruct (Z_lt_le_dec q tmp); [lia|]. destruct (Z_lt_le_dec q (tmp + size)); [|lia].
      destruct (Hf q ltac:(lia)) as [_ [_ Hnf]]. done.
  - apply Hm'.
  - intros q Hq Hout. rewrite (h_frame _ _ _ _ _ _ _ _ Hm'); [now apply Hp1|done|].
    destruct (Z_lt_le_dec q tmp); [lia|]. destruct (Z_lt_le_dec q (tmp + size)); [|lia].
    destruct (Hf q ltac:(lia)) as [Hnu _]. done.
Qed.


End sort_correct.

(** ** Searching *)

Section search.
Context {K : Kernel} (cmp : Z -> Z -> ST proc Z) (ord : list Z -> Z).
Context (s : proc) (key base size : Z) (elems : list (list Z)) (Hsize : 0 < size).
Context (Hcmp : forall i x, elems !! i = Some x ->
           cmp key (base + Z.of_nat i * size) s = Ret (ord x) s).
Context (Hsorted : forall i j x y, (i < j)%nat -> elems !! i = Some x -> elems !! j = Some y ->
           (ord x < 0 -> ord y < 0) /\ (0 < ord y -> 0 < ord x)).

Definition found (r : Z) : Prop :=
  (exists i x, elems !! i = Some x /\ ord x = 0 /\ r = base + Z.of_nat i * size) \/
  (r = 0 /\ Forall (fun x => ord x <> 0) elems).

Lemma bsearch_loops k : forall i j,
  (j - i <= k)%nat -> (i <= j <= length elems)%nat ->
  (forall q x, (q < i)%nat -> elems !! q = Some x -> 0 < ord x) ->
  (forall q x, (j <= q)%nat -> elems !! q = Some x -> ord x < 0) ->
  exists c r, (c <= k)%nat /\ found r /\
  loops (fun '(lo, hi) =>
           if lo <? hi then
             let mid := lo + (hi - lo) / size / 2 * size in
             (r ← cmp key mid;
              if r <? 0 then mret (inl (lo, mid))
              else if 0 <? r then mret (inl (mid + size, hi))
              else mret (inr mid))
           else mret (inr 0)) c (base + Z.of_nat i * size, base + Z.of_nat j * size) s (Ret r s).
Proof.
  induction k as [|k IH]; intros i j Hk Hij Hlow Hhigh.
  all: destruct (decide (i = j)) as [->|Hne].
  1, 3: exists O, 0; split; [lia|]; split;
    [right; split; [done|]; apply Forall_lookup; intros q x Hx;
     destruct (decide (q < j)%nat); [specialize (Hlow q x)|specialize (Hhigh q x)]; 
     (assert (ord x <> 0); [|done]); [specialize (Hlow l Hx); lia|specialize (Hhigh ltac:(lia) Hx); lia]
    |apply loops_stop; destruct (Z.ltb_spec (base + Z.of_nat j * size) (base + Z.of_nat j * size)); [lia|done]].
  { lia. }
  set (c := (i + (j - i) / 2)%nat).
  assert (Hc : (i <= c < j)%nat).
  { unfold c. pose proof (Nat.div_lt (j - i) 2 ltac:(lia) ltac:(lia)). lia. }
  destruct (lookup_lt_is_Some_2 elems c ltac:(lia)) as [x Hx].
  assert (Hmid : base + Z.of_nat i * size +
            (base + Z.of_nat j * size - (base + Z.of_nat i * size)) / size / 2 * size =
            base + Z.of_nat c * size).
  { replace (base + Z.of_nat j * size - (base + Z.of_nat i * size)) with (Z.of_nat (j - i) * size) by nia.
    rewrite Z.div_mul by lia. change 2 with (Z.of_nat 2) at 1. rewrite <- Nat2Z.inj_div.
    unfold c. nia. }
  assert (Hlt : base + Z.of_nat i * size < base + Z.of_nat j * size) by nia.
  destruct (Z.lt_trichotomy (ord x) 0) as [Ho|[Ho|Ho]].
  - destruct (IH i c ltac:(lia) ltac:(lia) Hlow) as (cnt & r & Hcnt & Hr & Hl).
    { intros q y Hq Hy. destruct (decide (q = c)) as [->|]; [now simplify_eq|].
      now apply (Hsorted c q x y ltac:(lia) Hx Hy). }
    exists (Datatypes.S cnt), r. split; [lia|]. split; [done|]. eapply loops_step; [|exact Hl].
    destruct (Z.ltb_spec (base + Z.of_nat i * size) (base + Z.of_nat j * size)); [|lia].
    cbv zeta. rewrite Hmid. erewrite bind_ret by (apply Hcmp; exact Hx).
    destruct (Z.ltb_spec (ord x) 0); [done|lia].
  - exists O, (base + Z.of_nat c * size). split; [lia|]. split; [left; eauto|]. apply loops_stop.
    destruct (Z.ltb_spec (base + Z.of_nat i * size) (base + Z.of_nat j * size)); [|lia].
    cbv zeta. rewrite Hmid. erewrite bind_ret by (apply Hcmp; exact Hx).
    destruct (Z.ltb_spec (ord x) 0), (Z.ltb_spec 0 (ord x)); try lia. done.
  - destruct (IH (Datatypes.S c) j ltac:(lia) ltac:(lia)) as (cnt & r & Hcnt & Hr & Hl); [|exact Hhigh|].
    { intros q y Hq Hy. destruct (decide (q = c)) as [->|]; [now simplify_eq|].
      now apply (Hsorted q c y x ltac:(lia) Hy Hx). }
    exists (Datatypes.S cnt), r. split; [lia|]. split; [done|]. eapply loops_step; [|exact Hl].
    destruct (Z.ltb_spec (base + Z.of_nat i * size) (base + Z.of_nat j * size)); [|lia].
    cbv zeta. rewrite Hmid. erewrite bind_ret by (apply Hcmp; exact Hx).
    destruct (Z.ltb_spec (ord x) 0), (Z.ltb_spec 0 (ord x)); try lia.
    now replace (base + Z.of_nat c * size + size) with (base + Z.of_nat (Datatypes.S c) * size) by lia.
Qed.

(** On an array sorted with respect to the key, [bsearch] terminates without
    changing anything and returns the address of an element that compares equal
    to the key, or null when there is none. *)
Theorem bsearch_correct :
  Zlen elems * size < 2 ^ 64 ->
  exists r, bsearch cmp key base (Zlen elems) size s = Ret r s /\ found r.
Proof.
  intros Hb. unfold bsearch. pose proof (Zlen_nonneg elems).
  destruct (bsearch_loops (length elems) 0 (length elems)) as (c & r & Hc & Hr & Hl); [lia|lia| | |].
  - lia.
  - intros q x Hq Hx. apply lookup_lt_Some in Hx. lia.
  - exists r. split; [|done]. rewrite u64_id by nia.
    eapply (while_loops _ c); [|unfold Zlen in *; nia].
    rewrite Z.add_0_r in Hl. exact Hl.
Qed.

End search.

(** ** Examples on the small kernel *)

(** A comparison of one-byte elements. *)
Definition cmp_bytes (p q : Z) : ST (@proc tk_kernel) Z :=
  x ← in_mem (load8 p); y ← in_mem (load8 q); mret (x - y).

Definition gt_bytes (x y : list Z) : bool := hd 0 y <? hd 0 x.

Lemma cmp_bytes_compares : compares cmp_bytes gt_bytes 1.
Proof.
  intros p q x y s Hx Hy Lx Ly. destruct x as [|a [|a' x]], y as [|c [|c' y]];
    unfold Zlen in *; simpl in *; try lia.
  exists (a - c). split.
  - destruct Hx as [Hx _], Hy as [Hy _]. unfold cmp_bytes.
    do 2 erewrite bind_ret by (apply in_mem_read, load8_ret; eassumption). done.
  - unfold gt_bytes. simpl. destruct (Z.ltb_spec 0 (a - c)), (Z.ltb_spec c a); (done || lia).
Qed.

Definition array_demo : proc := tk_proc (page_with [(4200, [5; 3; 9; 3])]) tk_idle.


(** The one-byte element 7 at 4300 is looked up in 2 5 7 9. *)
Definition search_demo : proc := tk_proc (page_with [(4200, [2; 5; 7; 9]); (4300, [7])]) tk_idle.

Lemma bsearch_correct_witness :
  exists r, bsearch cmp_bytes 4300 4200 (Zlen [[2]; [5]; [7]; [9]]) 1 search_demo = Ret r search_demo /\
  found (fun x => 7 - hd 0 x) 4200 1 [[2]; [5]; [7]; [9]] r.
Proof.
  apply (bsearch_correct cmp_bytes (fun x => 7 - hd 0 x)).
  - lia.
  - intros i x Hx. do 4 (destruct i as [|i]; [injection Hx as <-; reflexivity|]). done.
  - intros i j x y Hij Hx Hy.
    do 4 (destruct i as [|i]; [injection Hx as <-;
      do 4 (destruct j as [|j]; [injection Hy as <-; simpl; lia|]); done|]). done.
  - reflexivity.
Defined.
