(* ===== verification/Sscanf.v ===== *)
(** * Formatted input

    [apps/doom/innigkeit_libc.c]: [sscanf], which knows literal characters, [%d]
    and [%s].  The reference semantics is on the list of directives. *)

From S2P Require Import Prelude Machine Memory CString Ctype Numeric Format.

(** ** Operations *)

(** [while ( *str && !isspace( *str)) *p++ = *str++]: both pointers after it. *)
Definition copy_word (p str : Z) : ST mem (Z * Z) :=
  while (fun '(p, str) =>
           c ← load8 str;
           if (c =? 0) || isspace c then mret (inr (p, str))
           else (store8 p c;; mret (inl (p + 1, str + 1)))) (p, str).

(** The conversion [c]: the position in the string, the arguments left and
    whether an item was assigned. *)
Definition scan_conversion (c str : Z) (args : va_list) : ST mem (Z * va_list * Z) :=
  if c =? 100 then
    '(p, args) ← va_arg u64 args;
    '(v, str) ← strtol str 10;
    store32 p (s32 v);;
    mret (str, args, 1)
  else if c =? 115 then
    '(p, args) ← va_arg u64 args;
    str ← scan_while (fun c => mret (isspace c)) str;
    '(p, str) ← copy_word p str;
    store8 p 0;;
    mret (str, args, 1)
  else mret (str, args, 0).

Definition sscanf (str fmt : Z) (args : va_list) : ST mem Z :=
  while (fun '(fmt, str, args, count) =>
           f ← load8 fmt;
           if f =? 0 then mret (inr count)
           else
             c ← load8 str;
             if c =? 0 then mret (inr count)
             else if negb (f =? 37) then
               (if f =? c then mret (inl (fmt + 1, str + 1, args, count)) else mret (inr count))
             else
               (k ← load8 (fmt + 1);
                '(str, args, n) ← scan_conversion k str args;
                mret (inl (fmt + 2, str, args, count + n)))) (fmt, str, args, 0).

(** ** Reference semantics *)

Inductive scan_item := Scan_lit (c : Z) | Scan_int | Scan_word.

Definition show_scan (f : list scan_item) : list Z :=
  concat ((fun it => match it with
                     | Scan_lit c => [c]
                     | Scan_int => [37; 100]
                     | Scan_word => [37; 115]
                     end) <$> f).

Definition scan_item_okb (it : scan_item) : bool :=
  match it with Scan_lit c => negb (c =? 0) && negb (c =? 37) | _ => true end.

(** What is assigned, in order: the bytes stored at each argument. *)
Fixpoint scan (f : list scan_item) (s : list Z) : option (list (list Z)) :=
  match f, s with
  | [], _ | _, [] => Some []
  | Scan_lit c :: f', x :: s' => if c =? x then scan f' s' else Some []
  | Scan_int :: f', _ =>
      let n := parse_number 10 s in
      v ← number_value n;
      rs ← scan f' (num_rest n);
      Some (le_encode 4 (s32 v) :: rs)
  | Scan_word :: f', _ =>
      let t := drop_while isspace s in
      rs ← scan f' (drop_while (fun c => negb (isspace c)) t);
      Some ((take_while (fun c => negb (isspace c)) t ++ [0]) :: rs)
  end.

(** Storing the results, first to last. *)
Fixpoint store_results (m : mem) (args : va_list) (rs : list (list Z)) : mem :=
  match args, rs with
  | p :: args', r :: rs' => store_results (poke_list m p r) args' rs'
  | _, _ => m
  end.

(** ** Correctness *)

Lemma cstr_split m p (f : Z -> bool) t :
  cstr m p t -> cstr m (p + Zlen (take_while f t)) (drop_while f t).
Proof. intros H. rewrite <- (take_drop_while f t) in H. now apply cstr_drop in H. Qed.

Lemma skip_spaces_ret m p t :
  mem_ok m -> cstr m p t ->
  scan_while (fun c => mret (isspace c)) p m = Ret (p + Zlen (take_while isspace t)) m.
Proof.
  intros Hm Ht. pose proof (take_drop_while isspace t) as E.
  assert (Hall : Forall (fun c => (mret (isspace c) : ST mem bool) m = Ret true m) (take_while isspace t)).
  { eapply Forall_impl; [apply take_while_Forall|]. simpl. intros c Hc. unst. now rewrite Hc. }
  destruct (drop_while isspace t) as [|x u] eqn:Ed.
  - rewrite app_nil_r in E. rewrite E in *. now apply scan_while_nul.
  - apply scan_while_stop with (x := x) (t := u); [done|now rewrite E|done|].
    unst. now rewrite (drop_while_head _ _ _ _ Ed).
Qed.

Lemma copy_word_ret m p str t :
  mem_ok m -> cstr m str t ->
  let w := take_while (fun c => negb (isspace c)) t in
  mapped_range m p (Zlen w) -> p + Zlen w <= str \/ str + Zlen t + 1 <= p ->
  copy_word p str m = Ret (p + Zlen w, str + Zlen w) (poke_list m p w).
Proof.
  intros Hm Ht w Hmp Hd. pose proof (cstr_bound _ _ _ Hm Ht).
  unfold copy_word. eapply (while_loops _ (length w)).
  - clear H. revert m p str Hm Ht Hmp Hd. subst w. induction t as [|c t IH]; intros m p str Hm Ht Hmp Hd.
    + simpl. change (Zlen []) with 0. rewrite !Z.add_0_r. apply loops_stop.
      now erewrite bind_ret by (eapply load8_hd; exact Ht).
    + pose proof (load8_hd _ _ _ Ht) as El. apply cstr_cons in Ht as (Hc & Hc0 & Ht).
      cbn [take_while] in *. destruct (isspace c) eqn:Es; cbn [negb] in *.
      * change (Zlen []) with 0. rewrite !Z.add_0_r. apply loops_stop.
        erewrite bind_ret by exact El. cbn [hd]. rewrite Es, orb_true_r. done.
      * rewrite Zlen_cons in *. pose proof (Zlen_nonneg (take_while (fun c => negb (isspace c)) t)).
        set (w := take_while _ t) in *. assert (Hp : is_mapped m p = true) by (apply Hmp; lia).
        cbn [length poke_list]. eapply loops_step.
        -- erewrite bind_ret by exact El. cbn [hd]. rewrite Es.
           destruct (Z.eqb_spec c 0); [done|]. cbn [orb].
           erewrite bind_ret by (now apply store8_ret). reflexivity.
        -- replace (p + (Zlen w + 1)) with (p + 1 + Zlen w) by lia.
           replace (str + (Zlen w + 1)) with (str + 1 + Zlen w) by lia.
           rewrite Zlen_cons in Hd. apply IH.
           ++ now apply mem_ok_poke.
           ++ apply (cstr_poke_list_out m p [c]); [|done]. change (Zlen [c]) with 1. lia.
           ++ apply mapped_range_poke. eapply mapped_range_sub; [exact Hmp|lia..].
           ++ lia.
  - pose proof (take_drop_while (fun c => negb (isspace c)) t) as E. apply (f_equal Zlen) in E.
    rewrite Zlen_app in E. fold w in E. unfold Zlen in *. lia.
Qed.

Lemma num_rest_suffix base s : exists pre, s = pre ++ num_rest (parse_number base s).
Proof.
  unfold parse_number. set (t := drop_while is_blank s).
  assert (H1 : exists a, s = a ++ t) by (exists (take_while is_blank s); symmetry; apply take_drop_while).
  assert (H2 : exists a, t = a ++ (split_sign t).2).
  { unfold split_sign. destruct t as [|c t']; [now exists []|].
    destruct (c =? 45); [now exists [c]|]. destruct (c =? 43); [now exists [c]|now exists []]. }
  destruct (split_sign t) as [neg u]. simpl in H2.
  assert (H3 : exists a, u = a ++ (split_base base u).2).
  { unfold split_base. destruct (base =? 0); [|now exists []].
    destruct u as [|c u']; [now exists []|]. destruct (c =? 48); [|now exists []].
    destruct u' as [|d u'']; [now exists [c]|].
    destruct (_ || _); [now exists [c; d]|now exists [c]]. }
  destruct (split_base base u) as [b w]. simpl in H3. simpl.
  destruct H1 as [a1 E1], H2 as [a2 E2], H3 as [a3 E3].
  exists (a1 ++ a2 ++ a3 ++ take_while (is_digit_in b) w).
  now rewrite <- !app_assoc, take_drop_while, <- E3, <- E2.
Qed.

Section scanning.
Context (slo shi flo fhi : Z).

(** Every assigned argument points to mapped memory away from both strings. *)
Fixpoint dest_ok (m : mem) (args : va_list) (rs : list (list Z)) : Prop :=
  match rs, args with
  | [], _ => True
  | r :: rs', p :: args' =>
      u64 p = p /\ mapped_range m p (Zlen r) /\ (p + Zlen r <= slo \/ shi <= p) /\
      (p + Zlen r <= flo \/ fhi <= p) /\ dest_ok m args' rs'
  | _ :: _, [] => False
  end.

Lemma dest_ok_poke m q l args rs : dest_ok m args rs -> dest_ok (poke_list m q l) args rs.
Proof.
  revert args. induction rs as [|r rs IH]; intros [|p args]; simpl; try done.
  intros (H1 & H2 & H3 & H4 & H5). repeat split; auto. now apply mapped_range_poke_list.
Qed.

Definition scan_body : Z * Z * va_list * Z -> ST mem (Z * Z * va_list * Z + Z) :=
  fun '(fmt, str, args, count) =>
    f ← load8 fmt;
    if f =? 0 then mret (inr count)
    else
      c ← load8 str;
      if c =? 0 then mret (inr count)
      else if negb (f =? 37) then
        (if f =? c then mret (inl (fmt + 1, str + 1, args, count)) else mret (inr count))
      else
        (k ← load8 (fmt + 1);
         '(str, args, n) ← scan_conversion k str args;
         mret (inl (fmt + 2, str, args, count + n))).

(** A conversion that assigns [r] to the argument [p]: the state after it. *)
Lemma scan_int_ret m str s args p v :
  mem_ok m -> cstr m str s -> number_value (parse_number 10 s) = Some v ->
  u64 p = p -> mapped_range m p 4 ->
  scan_conversion 100 str (p :: args) m =
  Ret (str + Zlen s - Zlen (num_rest (parse_number 10 s)), args, 1)
      (poke_list m p (le_encode 4 (s32 v))).
Proof.
  intros Hm Hs Hv Hp Hmp. unfold scan_conversion. cbn [Z.eqb Pos.eqb va_arg]. rewrite bind_mret, Hp.
  cbv beta iota. erewrite bind_ret by (rewrite (strtol_ret m Hm 10 str s Hs), Hv; reflexivity).
  cbv beta iota.   erewrite bind_ret; [done|]. unfold store32. apply store_bytes_ret.
  unfold Zlen. now rewrite le_encode_length.
Qed.

Lemma scan_word_ret m str s args p :
  let t := drop_while isspace s in
  let w := take_while (fun c => negb (isspace c)) t in
  mem_ok m -> cstr m str s -> u64 p = p -> mapped_range m p (Zlen (w ++ [0])) ->
  p + Zlen (w ++ [0]) <= str \/ str + Zlen s + 1 <= p ->
  scan_conversion 115 str (p :: args) m =
  Ret (str + Zlen (take_while isspace s) + Zlen w, args, 1) (poke_list m p (w ++ [0])).
Proof.
  intros t w Hm Hs Hp Hmp Hd. rewrite Zlen_app in *. change (Zlen [0]) with 1 in *.
  pose proof (cstr_split m str isspace s Hs) as Ht. fold t in Ht.
  pose proof (take_drop_while isspace s) as E. apply (f_equal Zlen) in E. rewrite Zlen_app in E. fold t in E.
  pose proof (Zlen_nonneg (take_while isspace s)).
  unfold scan_conversion. cbn [Z.eqb Pos.eqb va_arg]. rewrite bind_mret, Hp. cbv beta iota.
  erewrite bind_ret by (eapply skip_spaces_ret; eassumption).
  erewrite bind_ret.
  2: { apply (copy_word_ret m p _ t Hm Ht); fold w; [|lia].
       eapply mapped_range_sub; [exact Hmp|lia..]. }
  fold w. rewrite poke_list_snoc. cbv beta iota. erewrite bind_ret; [done|]. apply store8_ret.
  rewrite is_mapped_poke_list. apply Hmp. pose proof (Zlen_nonneg w). lia.
Qed.

(** The strings are outside what is stored for an argument. *)
Lemma strings_kept m p r str s fmt f :
  cstr m str s -> slo <= str -> str + Zlen s + 1 <= shi ->
  cstr m fmt f -> flo <= fmt -> fmt + Zlen f + 1 <= fhi ->
  p + Zlen r <= slo \/ shi <= p -> p + Zlen r <= flo \/ fhi <= p ->
  cstr (poke_list m p r) str s /\ cstr (poke_list m p r) fmt f.
Proof. intros. split; apply cstr_poke_list_out; (lia || done). Qed.

(** What one round does: it ends the scan, or leads to a state from which the
    rest of the results is to be stored. *)
Inductive round (f : list scan_item) (m : mem) (s : list Z) (str fmt : Z) (args : va_list) (count : Z)
    (rs : list (list Z)) : outcome mem (Z * Z * va_list * Z + Z) -> Prop :=
  | round_stop : rs = [] -> round f m s str fmt args count rs (Ret (inr count) m)
  | round_next m' s' str' fmt' args' n rs' :
      mem_ok m' -> cstr m' str' s' -> str <= str' -> str' + Zlen s' <= str + Zlen s ->
      cstr m' fmt' (show_scan f) -> flo <= fmt' -> fmt' + Zlen (show_scan f) + 1 <= fhi ->
      scan f s' = Some rs' -> dest_ok m' args' rs' -> Zlen rs = n + Zlen rs' ->
      store_results m args rs = store_results m' args' rs' ->
      round f m s str fmt args count rs (Ret (inl (fmt', str', args', count + n)) m').

Section round.
Context (m : mem) (x : Z) (s : list Z) (str fmt : Z) (f : list scan_item).
Context (Hm : mem_ok m) (Hs : cstr m str (x :: s)) (Hlo : slo <= str) (Hhi : str + Zlen (x :: s) + 1 <= shi).
Context (Hflo : flo <= fmt).

Lemma round_lit c args count rs :
  c <> 0 -> c <> 37 -> cstr m fmt (c :: show_scan f) -> fmt + Zlen (c :: show_scan f) + 1 <= fhi ->
  scan (Scan_lit c :: f) (x :: s) = Some rs -> dest_ok m args rs ->
  round f m (x :: s) str fmt args count rs (scan_body (fmt, str, args, count) m).
Proof.
  intros Hc0 Hc Hf Hfhi Hsc Hd. unfold scan_body.
  erewrite bind_ret by (eapply load8_hd; exact Hf). cbn [hd].
  destruct (Z.eqb_spec c 0); [done|]. erewrite bind_ret by (eapply load8_hd; exact Hs). cbn [hd].
  apply cstr_cons in Hs as (_ & Hx & Hs'). apply cstr_cons in Hf as (_ & _ & Hf).
  rewrite !Zlen_cons in *. pose proof (Zlen_nonneg s).
  destruct (Z.eqb_spec x 0); [done|]. destruct (Z.eqb_spec c 37); [done|]. cbn [negb].
  cbn [scan] in Hsc. destruct (Z.eqb_spec c x).
  - unfold mret, ST_ret. replace count with (count + 0) at 2 by lia.
    apply (round_next f m (x :: s) str fmt args count rs m s (str + 1) (fmt + 1) args 0 rs);
      rewrite ?Zlen_cons; (done || lia).
  - injection Hsc as <-. now apply round_stop.
Qed.

(** The beginning of a round on a conversion [k]. *)
Lemma conversion_round k args count :
  cstr m fmt (37 :: k :: show_scan f) ->
  scan_body (fmt, str, args, count) m =
  ('(str, args, n) ← scan_conversion k str args; mret (inl (fmt + 2, str, args, count + n))) m /\
  cstr m (fmt + 2) (show_scan f).
Proof.
  intros Hf. unfold scan_body. erewrite bind_ret by (eapply load8_hd; exact Hf). cbn [hd Z.eqb Pos.eqb].
  erewrite bind_ret by (eapply load8_hd; exact Hs). cbn [hd].
  apply cstr_cons in Hs as (_ & Hx & _). apply cstr_cons in Hf as (_ & _ & Hf).
  destruct (Z.eqb_spec x 0); [done|]. cbn [negb].
  erewrite bind_ret by (eapply load8_hd; exact Hf). split; [done|].
  apply cstr_cons in Hf as (_ & _ & Hf). now rewrite <- Z.add_assoc in Hf.
Qed.

Lemma round_int args count rs :
  cstr m fmt (37 :: 100 :: show_scan f) -> fmt + Zlen (37 :: 100 :: show_scan f) + 1 <= fhi ->
  scan (Scan_int :: f) (x :: s) = Some rs -> dest_ok m args rs ->
  round f m (x :: s) str fmt args count rs (scan_body (fmt, str, args, count) m).
Proof.
  intros Hf Hfhi Hsc Hd. rewrite !Zlen_cons in Hfhi. pose proof (Zlen_nonneg (show_scan f)).
  destruct (conversion_round 100 args count Hf) as [-> Hf2].
  cbn [scan] in Hsc. cbv zeta in Hsc. destruct (number_value _) as [v|] eqn:Ev; [|done].
  cbn [mbind option_bind] in Hsc. destruct (scan f _) as [rs'|] eqn:Er; [|done].
  injection Hsc as <-. destruct args as [|p args]; [done|]. destruct Hd as (Hp & Hmp & Hd1 & Hd2 & Hd).
  set (r := le_encode 4 (s32 v)) in *. assert (Hr : Zlen r = 4) by (unfold r, Zlen; now rewrite le_encode_length).
  rewrite Hr in *. erewrite bind_ret by (eapply scan_int_ret; eassumption).
  destruct (num_rest_suffix 10 (x :: s)) as [pre Epre]. set (rest := num_rest (parse_number 10 (x :: s))) in *.
  assert (Hst : str + Zlen (x :: s) - Zlen rest = str + Zlen pre) by (rewrite Epre, Zlen_app; lia).
  pose proof (Zlen_nonneg pre). assert (Hlen : Zlen (x :: s) = Zlen pre + Zlen rest) by (rewrite Epre; apply Zlen_app).
  assert (Hs2 : cstr m (str + Zlen pre) rest) by (apply cstr_drop; now rewrite <- Epre).
  rewrite Hst. fold r. destruct (strings_kept m p r _ _ _ _ Hs2 ltac:(lia) ltac:(lia) Hf2 ltac:(lia) ltac:(lia))
    as [Hk1 Hk2]; [lia..|].
  eapply round_next; try eassumption; try lia.
  - apply mem_ok_poke_list; [done|]. now rewrite Hr.
  - now apply dest_ok_poke.
  - rewrite Zlen_cons. lia.
  - done.
Qed.

Lemma round_word args count rs :
  cstr m fmt (37 :: 115 :: show_scan f) -> fmt + Zlen (37 :: 115 :: show_scan f) + 1 <= fhi ->
  scan (Scan_word :: f) (x :: s) = Some rs -> dest_ok m args rs ->
  round f m (x :: s) str fmt args count rs (scan_body (fmt, str, args, count) m).
Proof.
  intros Hf Hfhi Hsc Hd. rewrite !Zlen_cons in Hfhi. pose proof (Zlen_nonneg (show_scan f)).
  destruct (conversion_round 115 args count Hf) as [-> Hf2].
  cbn [scan] in Hsc. cbv zeta in Hsc.
  set (a := take_while isspace (x :: s)). set (t := drop_while isspace (x :: s)) in *.
  set (w := take_while _ t) in *. set (rest := drop_while _ t) in *.
  destruct (scan f rest) as [rs'|] eqn:Er; [|done]. cbn [mbind option_bind] in Hsc.
  injection Hsc as <-. destruct args as [|p args]; [done|]. destruct Hd as (Hp & Hmp & Hd1 & Hd2 & Hd).
  assert (Es : x :: s = a ++ w ++ rest).
  { unfold w, rest. rewrite take_drop_while. unfold a, t. now rewrite take_drop_while. }
  assert (Hlen : Zlen (x :: s) = Zlen a + Zlen w + Zlen rest) by (rewrite Es, !Zlen_app; lia).
  pose proof (Zlen_nonneg a). pose proof (Zlen_nonneg w).
  erewrite bind_ret by (eapply scan_word_ret; try eassumption; fold t; fold w; lia).
  fold t a w. assert (Hs2 : cstr m (str + Zlen a + Zlen w) rest).
  { rewrite Es in Hs. now apply cstr_drop, cstr_drop in Hs. }
  destruct (strings_kept m p (w ++ [0]) _ _ _ _ Hs2 ltac:(lia) ltac:(lia) Hf2 ltac:(lia) ltac:(lia))
    as [Hk1 Hk2]; [lia..|].
  eapply round_next; try eassumption; try lia.
  - now apply mem_ok_poke_list.
  - now apply dest_ok_poke.
  - rewrite Zlen_cons. lia.
  - done.
Qed.

End round.

Lemma sscanf_loops f : forall m s str fmt args count rs,
  mem_ok m -> cstr m str s -> slo <= str -> str + Zlen s + 1 <= shi ->
  forallb scan_item_okb f = true -> cstr m fmt (show_scan f) -> flo <= fmt ->
  fmt + Zlen (show_scan f) + 1 <= fhi ->
  scan f s = Some rs -> dest_ok m args rs ->
  exists k, (k <= length f)%nat /\
  loops scan_body k (fmt, str, args, count) m (Ret (count + Zlen rs) (store_results m args rs)).
Proof.
  induction f as [|it f IH]; intros m s str fmt args count rs Hm Hs Hlo Hhi Hf Hfmt Hflo Hfhi Hsc Hd.
  - assert (rs = []) as -> by (destruct s; now injection Hsc). exists O. split; [lia|].
    change (Zlen []) with 0. rewrite Z.add_0_r.
    destruct args; apply loops_stop; unfold scan_body;
      now erewrite bind_ret by (eapply load8_hd; exact Hfmt).
  - simpl in Hf. apply andb_prop in Hf as [Hit Hf].
    assert (Hr : round f m s str fmt args count rs (scan_body (fmt, str, args, count) m)).
    { destruct s as [|x s].
      - assert (rs = []) by (destruct it; now injection Hsc).
        unfold scan_body. erewrite bind_ret by (eapply load8_hd; exact Hfmt).
        destruct (Z.eqb_spec (hd 0 (show_scan (it :: f))) 0) as [E|]; [now apply round_stop|].
        erewrite bind_ret by (eapply load8_hd; exact Hs). now apply round_stop.
      - destruct it as [c| |]; simpl in Hit.
        + apply round_lit with (c := c); try done; lia.
        + now apply round_int.
        + now apply round_word. }
    inversion Hr as [Hrs Eb|m' s' str' fmt' args' n rs' M1 M2 M3 M4 M5 M6 M7 M8 M9 M10 M11 Eb].
    + exists O. split; [lia|]. subst rs. change (Zlen []) with 0. rewrite Z.add_0_r.
      destruct args; now apply loops_stop.
    + destruct (IH m' s' str' fmt' args' (count + n) rs') as (k & Hk & Hl); try done; try lia.
      exists (Datatypes.S k). split; [simpl; lia|]. rewrite M11, M10.
      eapply loops_step; [symmetry; exact Eb|]. now rewrite Z.add_assoc.
Qed.

End scanning.

(** [sscanf] with a format of literal characters, [%d] and [%s] terminates,
    stores what the reference scan assigns at its arguments, in order, and
    returns how many it assigned: the scan stops at the first literal that does
    not match or at the end of the input; a [%d] that finds no digit still
    counts and assigns 0. *)
Theorem sscanf_correct m str s fmt f args rs :
  mem_ok m -> cstr m str s -> forallb scan_item_okb f = true -> cstr m fmt (show_scan f) ->
  scan f s = Some rs ->
  dest_ok str (str + Zlen s + 1) fmt (fmt + Zlen (show_scan f) + 1) m args rs ->
  sscanf str fmt args m = Ret (Zlen rs) (store_results m args rs).
Proof.
  intros Hm Hs Hf Hfmt Hsc Hd.
  destruct (sscanf_loops _ _ _ _ f m s str fmt args 0 rs Hm Hs (Z.le_refl _) (Z.le_refl _) Hf Hfmt
              (Z.le_refl _) (Z.le_refl _) Hsc Hd) as (k & Hk & Hl).
  unfold sscanf. eapply while_loops; [exact Hl|].
  pose proof (cstr_bound _ _ _ Hm Hfmt).
  enough (Z.of_nat (length f) <= Zlen (show_scan f)) by lia. clear.
  induction f as [|it f IH]; [done|]. unfold show_scan in *. cbn [fmap list_fmap concat length].
  rewrite Zlen_app. destruct it; unfold Zlen in *; simpl length in *; lia.
Qed.

(** "7,ab c" scanned by "%d,%s". *)
Definition scan_demo : mem :=
  page_with [(4100, bytes_of "7,ab c" ++ [0]); (4200, bytes_of "%d,%s" ++ [0])].

Lemma sscanf_correct_witness :
  sscanf 4100 4200 [4300; 4400] scan_demo =
  Ret 2 (store_results scan_demo [4300; 4400] [le_encode 4 7; [97; 98; 0]]).
Proof.
  apply (sscanf_correct scan_demo 4100 (bytes_of "7,ab c") 4200 [Scan_int; Scan_lit 44; Scan_word]
           [4300; 4400] [le_encode 4 7; [97; 98; 0]]);
    [by_eval|by_eval|reflexivity|by_eval|reflexivity|].
  split; [reflexivity|]. split; [apply mapped_rangeb_ok; vm_compute; reflexivity|].
  split; [right; vm_compute; discriminate|]. split; [right; vm_compute; discriminate|].
  split; [reflexivity|]. split; [apply mapped_rangeb_ok; vm_compute; reflexivity|].
  split; [right; vm_compute; discriminate|]. split; [right; vm_compute; discriminate|]. done.
Defined.
