(* ===== verification/Keyboard.v ===== *)
(** * The keyboard of the platform layer

    [apps/doom/doomgeneric_innigkeit.c]: the translation of PS/2 set-1 codes to
    the key codes of the game, the ring buffer of key events, [poll_keyboard]
    and [DG_GetKey].  The key codes of [doomkeys.h] are not part of the sources
    and are a parameter. *)

From S2P Require Import Prelude Machine Memory Process TestKernel.

(** ** Key codes *)

Class DoomKeys := {
  KEY_UPARROW : Z; KEY_DOWNARROW : Z; KEY_LEFTARROW : Z; KEY_RIGHTARROW : Z;
  KEY_RCTRL : Z; KEY_RALT : Z; KEY_ENTER : Z; KEY_ESCAPE : Z; KEY_FIRE : Z;
  KEY_USE : Z; KEY_RSHIFT : Z; KEY_LALT : Z; KEY_TAB : Z;
  KEY_F1 : Z; KEY_F2 : Z; KEY_F3 : Z; KEY_F4 : Z; KEY_F5 : Z; KEY_F6 : Z;
  KEY_F7 : Z; KEY_F8 : Z; KEY_F9 : Z; KEY_F10 : Z; KEY_F11 : Z; KEY_F12 : Z
}.

Section keyboard.
Context {DK : DoomKeys}.

(** The string [nums]. *)
Definition nums : list Z := bytes_of "1234567890-=".

(** The letters, by make code. *)
Definition letters : list (Z * string) :=
  [(0x10, "q"); (0x11, "w"); (0x12, "e"); (0x13, "r"); (0x14, "t"); (0x15, "y");
   (0x16, "u"); (0x17, "i"); (0x18, "o"); (0x19, "p"); (0x1E, "a"); (0x1F, "s");
   (0x20, "d"); (0x21, "f"); (0x22, "g"); (0x23, "h"); (0x24, "j"); (0x25, "k");
   (0x26, "l"); (0x2C, "z"); (0x2D, "x"); (0x2E, "c"); (0x2F, "v"); (0x30, "b");
   (0x31, "n"); (0x32, "m")]%string.

Definition letter (make : Z) : Z :=
  match List.find (fun p => make =? fst p) letters with
  | Some (_, c) => hd 0 (bytes_of c)
  | None => 0
  end.

Definition scancode_to_doom (make : Z) (is_extended : bool) : Z :=
  u8 (if is_extended then
        (if make =? 0x48 then KEY_UPARROW
         else if make =? 0x50 then KEY_DOWNARROW
         else if make =? 0x4B then KEY_LEFTARROW
         else if make =? 0x4D then KEY_RIGHTARROW
         else if make =? 0x1D then KEY_RCTRL
         else if make =? 0x38 then KEY_RALT
         else 0)
      else if make =? 0x1C then KEY_ENTER
      else if make =? 0x01 then KEY_ESCAPE
      else if make =? 0x1D then KEY_FIRE
      else if make =? 0x39 then KEY_USE
      else if (make =? 0x2A) || (make =? 0x36) then KEY_RSHIFT
      else if make =? 0x38 then KEY_LALT
      else if make =? 0x0F then KEY_TAB
      else if make =? 0x57 then KEY_F11
      else if make =? 0x58 then KEY_F12
      else if make =? 0x3B then KEY_F1
      else if make =? 0x3C then KEY_F2
      else if make =? 0x3D then KEY_F3
      else if make =? 0x3E then KEY_F4
      else if make =? 0x3F then KEY_F5
      else if make =? 0x40 then KEY_F6
      else if make =? 0x41 then KEY_F7
      else if make =? 0x42 then KEY_F8
      else if make =? 0x43 then KEY_F9
      else if make =? 0x44 then KEY_F10
      else if (0x02 <=? make) && (make <=? 0x0D) then nth (Z.to_nat (make - 0x02)) nums 0
      else letter make).

(** ** The ring buffer *)

Definition KEYQUEUE_SIZE : Z := 32.

Record keyq := KeyQ { s_key_queue : list Z; s_key_write : Z; s_key_read : Z }.

Definition key_init : keyq := KeyQ (replicate (Z.to_nat KEYQUEUE_SIZE) 0) 0 0.

Definition key_push (pressed doom_key : Z) (q : keyq) : keyq :=
  if doom_key =? 0 then q
  else
    KeyQ (<[Z.to_nat (s_key_write q) := u16 (Z.lor (Z.shiftl pressed 8) doom_key)]> (s_key_queue q))
         (u32 (s_key_write q + 1) mod KEYQUEUE_SIZE) (s_key_read q).

(** [DG_GetKey]: the event taken, as [pressed] and [doom_key]; [None] is the
    result 0, which leaves the two targets as they are. *)
Definition DG_GetKey (q : keyq) : option (Z * Z) * keyq :=
  if s_key_read q =? s_key_write q then (None, q)
  else
    let data := default 0 (s_key_queue q !! Z.to_nat (s_key_read q)) in
    (Some (Z.shiftr data 8, Z.land data 0xFF),
     KeyQ (s_key_queue q) (s_key_write q) (u32 (s_key_read q + 1) mod KEYQUEUE_SIZE)).

(** ** Polling *)

(** The static state of the keyboard code. *)
Record kbd := Kbd { in_extended : bool; key_queue : keyq }.

(** The body of the loop of [poll_keyboard] on one byte. *)
Definition poll_byte (st : kbd) (byte : Z) : kbd :=
  if byte =? 0xE0 then Kbd true (key_queue st)
  else
    let ext := in_extended st in
    let is_break := negb (Z.land byte 0x80 =? 0) in
    let make := Z.land byte 0x7F in
    let dk := scancode_to_doom make ext in
    Kbd false (if negb (dk =? 0) then key_push (if is_break then 0 else 1) dk (key_queue st)
               else key_queue st).

Definition poll_keyboard `{Kernel} `{Layout} (st : kbd) : ST proc kbd :=
  n ← innigkeit_kbd_read loc_raw 32;
  if n <=? 0 then mret st
  else
    while (fun '(i, st) =>
             if i <? n then
               (byte ← in_mem (load8 (loc_raw + i));
                mret (inl (i + 1, poll_byte st byte)))
             else mret (inr st)) (0, st).

End keyboard.

(** ** The ring buffer as a bounded queue *)

Definition key_ok (p k : Z) : Prop := (p = 0 \/ p = 1) /\ 0 < k < 256.

Definition encode_event (e : Z * Z) : Z := fst e * 256 + snd e.

(** The entries between the read and the write position. *)
Definition pending (q : keyq) : list Z :=
  (fun i => default 0 (s_key_queue q !! Z.to_nat ((s_key_read q + Z.of_nat i) mod 32))) <$>
  seq 0 (Z.to_nat ((s_key_write q - s_key_read q) mod 32)).

Definition keyq_ok (q : keyq) : Prop :=
  length (s_key_queue q) = 32%nat /\ 0 <= s_key_write q < 32 /\ 0 <= s_key_read q < 32.

(** The queue the ring buffer implements: it holds 31 events, and an event that
    arrives when it is full empties it. *)
Definition aqueue := list (Z * Z).
Definition apush (e : Z * Z) (a : aqueue) : aqueue := if Zlen a =? 31 then [] else a ++ [e].
Definition apop (a : aqueue) : option (Z * Z) * aqueue :=
  match a with [] => (None, []) | e :: a' => (Some e, a') end.

Definition queue_refines (q : keyq) (a : aqueue) : Prop :=
  keyq_ok q /\ pending q = encode_event <$> a /\ Forall (fun e => key_ok (fst e) (snd e)) a.

Lemma pending_length q : length (pending q) = Z.to_nat ((s_key_write q - s_key_read q) mod 32).
Proof. unfold pending. now rewrite length_fmap, length_seq. Qed.

Lemma mod32_step x : 0 <= x < 32 -> u32 (x + 1) mod 32 = (x + 1) mod 32.
Proof. intros H. now rewrite u32_id by lia. Qed.

Lemma event_word p k :
  key_ok p k -> u16 (Z.lor (Z.shiftl p 8) k) = encode_event (p, k).
Proof.
  intros [Hp Hk]. unfold encode_event. simpl. rewrite Z.shiftl_mul_pow2 by lia.
  rewrite <- Z.lxor_lor, <- Z.add_nocarry_lxor; [unfold u16; rewrite Z.mod_small; lia|..].
  all: apply Z.bits_inj'; intros n Hn; rewrite Z.land_spec, Z.bits_0;
    change (2 ^ 8) with (2 ^ 8); destruct (Z_lt_le_dec n 8);
    [rewrite Z.mul_pow2_bits_low by lia; done|
     rewrite (Z.bits_above_log2 k n), andb_false_r; [done|lia|];
     apply Z.log2_lt_pow2; [lia|]; assert (2 ^ 8 <= 2 ^ n) by (apply Z.pow_le_mono_r; lia); lia].
Qed.

Lemma event_fields p k :
  key_ok p k -> Z.shiftr (encode_event (p, k)) 8 = p /\ Z.land (encode_event (p, k)) 0xFF = k.
Proof.
  intros [Hp Hk]. unfold encode_event. simpl. rewrite Z.shiftr_div_pow2 by lia.
  change 0xFF with (Z.ones 8). rewrite Z.land_ones by lia. change (2 ^ 8) with 256.
  split; [rewrite Z.div_add_l, Z.div_small by lia; lia|].
  rewrite Z.add_comm, Z.mod_add, Z.mod_small by lia. lia.
Qed.

Lemma write_index q :
  keyq_ok q -> (s_key_read q + (s_key_write q - s_key_read q) mod 32) mod 32 = s_key_write q.
Proof.
  intros (_ & Hw & Hr). rewrite Zplus_mod_idemp_r.
  replace (s_key_read q + (s_key_write q - s_key_read q)) with (s_key_write q) by lia.
  now apply Z.mod_small.
Qed.

Lemma push_pending q p k :
  keyq_ok q -> key_ok p k ->
  keyq_ok (key_push p k q) /\
  pending (key_push p k q) =
    if Zlen (pending q) =? 31 then [] else pending q ++ [encode_event (p, k)].
Proof.
  intros Hq Hk. pose proof (write_index q Hq) as Hwi. destruct Hq as (Hl & Hw & Hr).
  assert (Hlen : Zlen (pending q) = (s_key_write q - s_key_read q) mod 32).
  { unfold Zlen. rewrite pending_length, Z2Nat.id; [done|]. apply Z.mod_pos_bound. lia. }
  unfold key_push, KEYQUEUE_SIZE. destruct (Z.eqb_spec k 0); [destruct Hk; lia|].
  rewrite mod32_step, event_word by done.
  pose proof (Z.mod_pos_bound (s_key_write q + 1) 32 ltac:(lia)) as Hb.
  pose proof (Z.mod_pos_bound (s_key_write q - s_key_read q) 32 ltac:(lia)) as Hd.
  set (d := (s_key_write q - s_key_read q) mod 32) in *.
  assert (Hd' : ((s_key_write q + 1) mod 32 - s_key_read q) mod 32 = if d =? 31 then 0 else d + 1).
  { rewrite Zminus_mod_idemp_l.
    replace (s_key_write q + 1 - s_key_read q) with (s_key_write q - s_key_read q + 1) by lia.
    rewrite <- Zplus_mod_idemp_l. fold d. destruct (Z.eqb_spec d 31) as [Ed|]; [now rewrite Ed|apply Z.mod_small; lia]. }
  split; [split; simpl; [now rewrite length_insert|lia]|].
  rewrite Hlen. unfold pending at 1. cbn [s_key_write s_key_read s_key_queue]. rewrite Hd'.
  destruct (Z.eqb_spec d 31); [done|].
  replace (Z.to_nat (d + 1)) with (Z.to_nat d + 1)%nat by lia.
  rewrite seq_app, fmap_app. simpl. rewrite Z2Nat.id, Hwi by lia.
  rewrite list_lookup_insert_eq by lia. change (default 0 (Some ?x)) with x. f_equal.
  unfold pending. fold d. apply list_fmap_ext. intros j i Hi.
    apply lookup_seq in Hi as [-> Hj]. f_equal. apply list_lookup_insert_ne.
    intros E. apply (f_equal Z.of_nat) in E.
    pose proof (Z.mod_pos_bound (s_key_read q + Z.of_nat (0 + j)) 32 ltac:(lia)).
    rewrite !Z2Nat.id in E by lia. rewrite <- Hwi in E.
    assert (Hm : forall u v, 0 <= u < 32 -> 0 <= v < 32 ->
              (s_key_read q + u) mod 32 = (s_key_read q + v) mod 32 -> u = v).
    { intros u v Hu Hv Huv. pose proof (Z.div_mod (s_key_read q + u) 32 ltac:(lia)).
      pose proof (Z.div_mod (s_key_read q + v) 32 ltac:(lia)). lia. }
    apply Hm in E; lia.
Qed.

Lemma pop_pending q :
  keyq_ok q ->
  match pending q with
  | [] => DG_GetKey q = (None, q)
  | w :: l => exists q', DG_GetKey q = (Some (Z.shiftr w 8, Z.land w 0xFF), q') /\ keyq_ok q' /\ pending q' = l
  end.
Proof.
  intros (Hl & Hw & Hr). pose proof (pending_length q) as Hlen.
  pose proof (Z.mod_pos_bound (s_key_write q - s_key_read q) 32 ltac:(lia)) as Hd.
  unfold DG_GetKey, KEYQUEUE_SIZE. destruct (pending q) as [|w l] eqn:E.
  - assert (Hz : (s_key_write q - s_key_read q) mod 32 = 0) by (simpl in Hlen; lia).
    pose proof (Z.div_mod (s_key_write q - s_key_read q) 32 ltac:(lia)).
    destruct (Z.eqb_spec (s_key_read q) (s_key_write q)); [done|lia].
  - destruct (Z.eqb_spec (s_key_read q) (s_key_write q)) as [Eq|Ne].
    { rewrite Eq, Z.sub_diag in Hlen. simpl in Hlen. done. }
    rewrite mod32_step by done. unfold pending in E.
    set (d := (s_key_write q - s_key_read q) mod 32) in *.
    assert (Hs : seq 0 (Z.to_nat d) = 0%nat :: seq 1 (Z.to_nat (d - 1))).
    { simpl in Hlen. replace (Z.to_nat d) with (Datatypes.S (Z.to_nat (d - 1))) by lia. done. }
    rewrite Hs in E. simpl in E. rewrite Z.add_0_r, Z.mod_small in E by lia.
    injection E as <- <-. eexists. split; [reflexivity|].
    pose proof (Z.mod_pos_bound (s_key_read q + 1) 32 ltac:(lia)).
    split; [split; simpl; [done|lia]|]. unfold pending. cbn [s_key_write s_key_read s_key_queue].
    assert (Hd' : (s_key_write q - (s_key_read q + 1) mod 32) mod 32 = d - 1).
    { rewrite Zminus_mod_idemp_r.
      replace (s_key_write q - (s_key_read q + 1)) with (s_key_write q - s_key_read q - 1) by lia.
      rewrite <- Zminus_mod_idemp_l. fold d. apply Z.mod_small. simpl in Hlen. lia. }
    rewrite Hd', <- fmap_S_seq, <- list_fmap_compose. apply list_fmap_ext. intros j i Hi. simpl.
    do 3 f_equal. rewrite Zplus_mod_idemp_l. f_equal. lia.
Qed.

(** *** Histories of the queue *)

Inductive key_op := Push (pressed doom_key : Z) | Pop.

Definition op_ok (o : key_op) : Prop :=
  match o with Push p k => key_ok p k | Pop => True end.

(** The results of the [Pop]s of a history, on the ring buffer and on the queue. *)
Fixpoint run (q : keyq) (ops : list key_op) : list (option (Z * Z)) :=
  match ops with
  | [] => []
  | Push p k :: ops' => run (key_push p k q) ops'
  | Pop :: ops' => let '(r, q') := DG_GetKey q in r :: run q' ops'
  end.

Fixpoint arun (a : aqueue) (ops : list key_op) : list (option (Z * Z)) :=
  match ops with
  | [] => []
  | Push p k :: ops' => arun (apush (p, k) a) ops'
  | Pop :: ops' => let '(r, a') := apop a in r :: arun a' ops'
  end.

Lemma push_refines q a p k :
  queue_refines q a -> key_ok p k -> queue_refines (key_push p k q) (apush (p, k) a).
Proof.
  intros (Hq & Hp & Ha) Hk. destruct (push_pending q p k Hq Hk) as [Hq' Hp'].
  assert (Hl : Zlen (pending q) = Zlen a) by (rewrite Hp; unfold Zlen; now rewrite length_fmap).
  split; [done|]. rewrite Hp', Hl. unfold apush. destruct (Zlen a =? 31); [done|].
  split; [now rewrite fmap_app, Hp|]. apply Forall_app. split; [done|]. now constructor.
Qed.

Lemma pop_refines q a :
  queue_refines q a ->
  fst (DG_GetKey q) = fst (apop a) /\ queue_refines (snd (DG_GetKey q)) (snd (apop a)).
Proof.
  intros (Hq & Hp & Ha). pose proof (pop_pending q Hq) as H. rewrite Hp in H.
  destruct a as [|[p k] a]; simpl in H.
  - rewrite H. split; [done|]. cbn [snd apop]. exact (conj Hq (conj Hp Ha)).
  - destruct H as (q' & -> & Hq' & Hp'). inversion_clear Ha as [|? ? Hk Ha'].
    destruct (event_fields p k Hk) as [-> ->]. split; [done|]. done.
Qed.

Lemma run_refines ops : forall q a,
  queue_refines q a -> Forall op_ok ops -> run q ops = arun a ops.
Proof.
  induction ops as [|o ops IH]; intros q a Hr Ho; [done|]. inversion_clear Ho as [|? ? Ho1 Ho2].
  destruct o as [p k|]; cbn [run arun].
  - apply IH; [now apply push_refines|done].
  - destruct (pop_refines q a Hr) as [E Hr']. destruct (DG_GetKey q), (apop a). simpl in *. subst.
    f_equal. now apply IH.
Qed.

Lemma key_init_refines : queue_refines key_init [].
Proof. split; [unfold keyq_ok; simpl; lia|]. split; [reflexivity|constructor]. Qed.

(** The ring buffer of key events, from its initial state and under every
    history of pushes and reads, behaves as a first-in first-out queue of
    (pressed, key) events that holds 31 of them: [DG_GetKey] returns the events
    in the order they were pushed, with the same fields, and nothing when there
    is none.  The one difference from a queue is a push onto 31 unread events,
    which makes all of them disappear. *)
Theorem keyqueue_refines ops :
  Forall op_ok ops -> run key_init ops = arun [] ops.
Proof. intros H. now apply run_refines; [apply key_init_refines|]. Qed.

Lemma keyqueue_refines_witness :
  run key_init [Push 1 65; Push 0 65; Pop; Push 1 66; Pop; Pop; Pop] =
  [Some (1, 65); Some (0, 65); Some (1, 66); None].
Proof.
  apply (keyqueue_refines [Push 1 65; Push 0 65; Pop; Push 1 66; Pop; Pop; Pop]).
  repeat constructor; simpl; lia.
Defined.

(** ** Decoding the PS/2 stream *)

(** A key event of the keyboard: an optional prefix, the make code and the break bit. *)
Record key_event := KeyEvent { ev_ext : bool; ev_make : Z; ev_break : bool }.

Definition event_ok (e : key_event) : Prop :=
  0 <= ev_make e < 128 /\ ~ (ev_make e = 0x60 /\ ev_break e = true).

Definition event_bytes (e : key_event) : list Z :=
  (if ev_ext e then [0xE0] else []) ++ [ev_make e + (if ev_break e then 128 else 0)].

Section decoding.
Context {DK : DoomKeys}.

(** What the game is to see of it. *)
Definition translate (e : key_event) : option (Z * Z) :=
  let k := scancode_to_doom (ev_make e) (ev_ext e) in
  if k =? 0 then None else Some (if ev_break e then 0 else 1, k).

Lemma scancode_range make ext : 0 <= scancode_to_doom make ext < 256.
Proof. unfold scancode_to_doom. apply u8_range. Qed.

Lemma low_seven x : 0 <= x < 128 -> Z.land x 0x7F = x /\ Z.land (x + 128) 0x7F = x /\
  Z.land x 0x80 = 0 /\ Z.land (x + 128) 0x80 <> 0.
Proof.
  intros Hx. change 0x7F with (Z.ones 7). rewrite !Z.land_ones by lia. change (2 ^ 7) with 128.
  rewrite (Z.mod_small x) by lia. replace (x + 128) with (x + 1 * 128) by lia.
  rewrite Z.mod_add, Z.mod_small by lia. split; [done|]. split; [done|].
  assert (Hb : Z.testbit x 7 = false).
  { destruct (Z.eq_dec x 0) as [->|]; [done|]. apply Z.bits_above_log2; [lia|].
    apply Z.log2_lt_pow2; lia. }
  change 0x80 with (2 ^ 7). split.
  - apply Z.bits_inj'. intros n Hn. rewrite Z.land_spec, Z.bits_0, Z.pow2_bits_eqb by lia.
    destruct (Z.eqb_spec 7 n) as [<-|]; [now rewrite Hb|apply andb_false_r].
  - intros E. apply (f_equal (fun z => Z.testbit z 7)) in E.
    rewrite Z.land_spec, Z.bits_0, Z.pow2_bits_true in E by lia.
    replace (x + 1 * 128) with (x + 1 * 2 ^ 7) in E by lia.
    rewrite andb_true_r in E.
    rewrite Z.testbit_eqb in E by lia. rewrite Z.div_add, Z.div_small in E by lia. done.
Qed.

Definition push_opt (e : option (Z * Z)) (q : keyq) : keyq :=
  match e with Some (p, k) => key_push p k q | None => q end.

Lemma poll_event e q :
  event_ok e ->
  fold_left poll_byte (event_bytes e) (Kbd false q) = Kbd false (push_opt (translate e) q).
Proof.
  intros [Hm Hn]. destruct e as [ext make brk]. simpl in *.
  destruct (low_seven make Hm) as (L1 & L2 & L3 & L4).
  assert (Hb : forall x, poll_byte (Kbd x q) (make + (if brk then 128 else 0)) =
    Kbd false (push_opt (translate (KeyEvent x make brk)) q)).
  { intros x. unfold poll_byte, translate, push_opt. cbn [in_extended key_queue ev_ext ev_make ev_break].
    destruct (Z.eqb_spec (make + (if brk then 128 else 0)) 0xE0); [destruct brk; lia|].
    destruct brk; rewrite ?Z.add_0_r.
    - rewrite L2. destruct (Z.eqb_spec (Z.land (make + 128) 0x80) 0); [done|]. cbn [negb].
      now destruct (scancode_to_doom make x =? 0).
    - rewrite L1, L3. cbn [Z.eqb negb]. now destruct (scancode_to_doom make x =? 0). }
  unfold event_bytes. cbn [ev_ext ev_make ev_break]. destruct ext; cbn [app fold_left].
  - change (poll_byte (Kbd false q) 0xE0) with (Kbd true q). apply Hb.
  - apply Hb.
Qed.

Lemma translate_ok e p k : translate e = Some (p, k) -> key_ok p k.
Proof.
  unfold translate. cbv zeta. pose proof (scancode_range (ev_make e) (ev_ext e)).
  destruct (Z.eqb_spec (scancode_to_doom (ev_make e) (ev_ext e)) 0); [done|].
  intros [= <- <-]. split; [destruct (ev_break e); lia|lia].
Qed.

Lemma poll_events es : forall q a,
  Forall event_ok es -> queue_refines q a ->
  exists q', fold_left poll_byte (concat (event_bytes <$> es)) (Kbd false q) = Kbd false q' /\
  queue_refines q' (fold_left (fun a e => apush e a) (omap translate es) a).
Proof.
  induction es as [|e es IH]; intros q a He Hq; [now exists q|].
  inversion_clear He as [|? ? He1 He2]. cbn [fmap list_fmap concat]. rewrite fold_left_app.
  rewrite poll_event by done. cbn [omap list_omap].
  destruct (translate e) as [[p k]|] eqn:Et; simpl push_opt.
  - destruct (IH (key_push p k q) (apush (p, k) a) He2) as (q' & E & Hr).
    + apply push_refines; [done|eapply translate_ok, Et].
    + exists q'. split; [done|]. exact Hr.
  - now apply IH.
Qed.

Lemma apush_all l : forall a,
  Zlen a + Zlen l <= 31 -> fold_left (fun a e => apush e a) l a = a ++ l.
Proof.
  induction l as [|e l IH]; intros a H; simpl; [now rewrite app_nil_r|]. rewrite Zlen_cons in H.
  pose proof (Zlen_nonneg l).
  assert (Ha : apush e a = a ++ [e]) by (unfold apush; destruct (Z.eqb_spec (Zlen a) 31); [lia|done]).
  rewrite Ha, IH; [now rewrite <- app_assoc|]. rewrite Zlen_app. change (Zlen [e]) with 1. lia.
Qed.

Lemma arun_drain a : arun a (replicate (length a) Pop) = Some <$> a.
Proof. induction a as [|e a IH]; [done|]. simpl. now rewrite IH. Qed.

Lemma keyboard_decodes_ret es chunks :
  Forall event_ok es -> concat chunks = concat (event_bytes <$> es) ->
  Zlen (omap translate es) <= 31 ->
  let st := fold_left (fun st l => fold_left poll_byte l st) chunks (Kbd false key_init) in
  in_extended st = false /\
  run (key_queue st) (replicate (length (omap translate es)) Pop ++ [Pop]) =
  (Some <$> omap translate es) ++ [None].
Proof.
  intros He Hc Hl st.
  assert (Hst : st = fold_left poll_byte (concat chunks) (Kbd false key_init)).
  { unfold st. clear. generalize (Kbd false key_init). induction chunks as [|l chunks IH]; intros k; [done|].
    simpl. now rewrite fold_left_app, IH. }
  destruct (poll_events es key_init [] He key_init_refines) as (q' & E & Hr).
  rewrite <- Hc, <- Hst in E. rewrite E. split; [done|]. cbn [key_queue].
  rewrite apush_all in Hr by done. simpl in Hr.
  rewrite (run_refines _ _ _ Hr) by (apply Forall_app; split; [now apply Forall_replicate|now repeat constructor]).
  clear. generalize (omap translate es). intros a.
  induction a as [|e a IH]; [done|]. simpl. now rewrite IH.
Qed.

(** Decoding inverts the keyboard's encoding: however the bytes of a sequence
    of key events are cut into polls (also between a prefix and its code), the
    calls of [DG_GetKey] that follow return exactly the events the game knows,
    in order, as presses and releases of the key the scan code stands for, as
    long as no more than 31 of them are waiting. *)
Theorem keyboard_decodes es chunks :
  Forall event_ok es -> concat chunks = concat (event_bytes <$> es) ->
  Zlen (omap translate es) <= 31 ->
  let st := fold_left (fun st l => fold_left poll_byte l st) chunks (Kbd false key_init) in
  in_extended st = false /\
  run (key_queue st) (replicate (length (omap translate es)) Pop ++ [Pop]) =
  (Some <$> omap translate es) ++ [None].
Proof. exact (keyboard_decodes_ret es chunks). Qed.

Lemma apush_full l e : Zlen l = 31 -> fold_left (fun a e => apush e a) (l ++ [e]) [] = [].
Proof.
  intros H. rewrite fold_left_app, (apush_all l []) by (unfold Zlen in *; simpl; lia). simpl.
  unfold apush. now rewrite H.
Qed.

(** The ring buffer has no test for being full: when 32 known key events
    arrive with none of them read, the write position meets the read position
    and [DG_GetKey] reports that there is no event. *)
Theorem key_overflow_loses_events es :
  Forall event_ok es -> Zlen (omap translate es) = 32 ->
  let st := fold_left poll_byte (concat (event_bytes <$> es)) (Kbd false key_init) in
  fst (DG_GetKey (key_queue st)) = None.
Proof.
  intros He Hl st.
  destruct (poll_events es key_init [] He key_init_refines) as (q' & E & Hr).
  unfold st. rewrite E. cbn [key_queue].
  destruct (omap translate es) as [|e l _] using rev_ind; [discriminate Hl|].
  rewrite Zlen_app in Hl. change (Zlen [e]) with 1 in Hl.
  rewrite apush_full in Hr by lia.
  now destruct (pop_refines _ _ Hr) as [-> _].
Qed.

(** ** The poll as a program *)

Section poll.
Context `{Kernel} `{Layout}.

Lemma poll_loop l : forall done st s,
  bytes_at (p_mem s) loc_raw (done ++ l) ->
  loops (fun '(i, st) =>
           if i <? Zlen (done ++ l) then
             (byte ← in_mem (load8 (loc_raw + i)); mret (inl (i + 1, poll_byte st byte)))
           else mret (inr st))
    (length l) (Zlen done, st) s (Ret (fold_left poll_byte l st) s).
Proof.
  induction l as [|x l IH]; intros done st s Hb.
  - apply loops_stop. rewrite app_nil_r, Z.ltb_irrefl. reflexivity.
  - eapply loops_step.
    + cbv beta iota. rewrite Zlen_app, Zlen_cons. pose proof (Zlen_nonneg l).
      destruct (Z.ltb_spec (Zlen done) (Zlen done + (Zlen l + 1))); [|lia].
      erewrite bind_ret; [reflexivity|]. apply in_mem_read, load8_ret.
      unfold Zlen. eapply bytes_at_peek; [exact Hb|]. now rewrite lookup_app_r, Nat.sub_diag by lia.
    + replace (done ++ x :: l) with ((done ++ [x]) ++ l) in * by now rewrite <- app_assoc.
      specialize (IH (done ++ [x]) (poll_byte st x) s Hb).
      rewrite (Zlen_app done [x]) in IH. exact IH.
Qed.

Lemma kbd_read_ret {KL : KernelLaws _} s r l k' :
  mapped_range (p_mem s) loc_raw 32 -> sys_kbd_read 32 (p_kst s) = ((r, l), k') ->
  let got := if 0 <=? r then l else [] in
  Forall byte_ok got /\ Zlen got <= 32 /\
  innigkeit_kbd_read loc_raw 32 s =
    Ret (Zlen got) (set_kst k' (set_mem (poke_list (p_mem s) loc_raw got) s)).
Proof.
  intros Hm Hk got. unfold innigkeit_kbd_read. rewrite Hk.
  unfold deliver, decode, got. destruct (Z.leb_spec 0 r) as [Hr|Hr]; [|now destruct s].
  destruct (kbd_read_bytes 32 _ _ _ _ Hk Hr) as (-> & Hle & Hb). split; [done|]. split; [done|].
  erewrite bind_ret by (apply in_mem_ret, store_bytes_ret; eapply mapped_range_sub; [exact Hm|lia..]).
  done.
Qed.

Lemma poll_ret {KL : KernelLaws _} st s r l k' :
  mapped_range (p_mem s) loc_raw 32 -> sys_kbd_read 32 (p_kst s) = ((r, l), k') ->
  let got := if 0 <=? r then l else [] in
  poll_keyboard st s =
  Ret (fold_left poll_byte got st) (set_kst k' (set_mem (poke_list (p_mem s) loc_raw got) s)).
Proof.
  intros Hm Hk got. destruct (kbd_read_ret s r l k' Hm Hk) as (Hb & Hle & E). fold got in Hb, Hle, E.
  unfold poll_keyboard. erewrite bind_ret by exact E. destruct (Z.leb_spec (Zlen got) 0) as [Hz|Hz].
  { destruct got as [|x got]; [done|]. rewrite Zlen_cons in Hz. pose proof (Zlen_nonneg got). lia. }
  eapply while_loops; [apply (poll_loop got [])|unfold Zlen in *; lia].
  apply bytes_at_poke_list; [|done]. eapply mapped_range_sub; [exact Hm|cbn [app]; lia..].
Qed.

(** [poll_keyboard] feeds every byte the kernel delivers, in order, to the
    decoder, writes only the bytes it received to its buffer, and leaves the
    keyboard state alone when the kernel has nothing or fails. *)
Theorem poll_keyboard_correct {KL : KernelLaws _} st s r l k' :
  mapped_range (p_mem s) loc_raw 32 -> sys_kbd_read 32 (p_kst s) = ((r, l), k') ->
  exists s', poll_keyboard st s = Ret (if 0 <? r then fold_left poll_byte l st else st) s' /\
  p_kst s' = k' /\ p_heap s' = p_heap s /\ p_files s' = p_files s /\
  forall q, ~ (loc_raw <= q < loc_raw + r) -> peek (p_mem s') q = peek (p_mem s) q.
Proof.
  intros Hm Hk. rewrite (poll_ret st s r l k' Hm Hk). eexists. split.
  - f_equal. destruct (Z.ltb_spec 0 r), (Z.leb_spec 0 r); try lia; try done.
    destruct (kbd_read_bytes 32 _ _ _ _ Hk ltac:(done)) as (Er & _ & _).
    destruct l; [done|]. rewrite Zlen_cons in Er. pose proof (Zlen_nonneg l). lia.
  - split; [done|]. split; [done|]. split; [done|]. intros q Hq.
    destruct (Z.leb_spec 0 r); [|done]. apply peek_poke_list_out.
    destruct (kbd_read_bytes 32 _ _ _ _ Hk ltac:(done)) as (<- & _ & _). lia.
Qed.

End poll.
End decoding.

(** ** Witnesses *)

#[local] Instance demo_keys : DoomKeys := {|
  KEY_UPARROW := 0xad; KEY_DOWNARROW := 0xaf; KEY_LEFTARROW := 0xac; KEY_RIGHTARROW := 0xae;
  KEY_RCTRL := 0x9d; KEY_RALT := 0xb8; KEY_ENTER := 13; KEY_ESCAPE := 27; KEY_FIRE := 0xa3;
  KEY_USE := 0xa2; KEY_RSHIFT := 0xb6; KEY_LALT := 0xb8; KEY_TAB := 9;
  KEY_F1 := 0xbb; KEY_F2 := 0xbc; KEY_F3 := 0xbd; KEY_F4 := 0xbe; KEY_F5 := 0xbf; KEY_F6 := 0xc0;
  KEY_F7 := 0xc1; KEY_F8 := 0xc2; KEY_F9 := 0xc3; KEY_F10 := 0xc4; KEY_F11 := 0xd7; KEY_F12 := 0xd8
|}.

(** The arrow up pressed, [w] pressed, an unknown key, the arrow released. *)
Definition demo_events : list key_event :=
  [KeyEvent true 0x48 false; KeyEvent false 0x11 false; KeyEvent false 0x7F false;
   KeyEvent true 0x48 true].

Lemma event_okb es :
  forallb (fun e => (0 <=? ev_make e) && (ev_make e <? 128) && negb ((ev_make e =? 0x60) && ev_break e)) es
  = true -> Forall event_ok es.
Proof.
  intros H. apply Forall_forall. intros e He. apply list_elem_of_In in He.
  rewrite forallb_forall in H. specialize (H e He). apply andb_prop in H as [H1 H2].
  split; [lia|]. intros [E1 E2]. rewrite E1, E2 in H2. done.
Qed.

Lemma keyboard_decodes_witness :
  let st := fold_left (fun st l => fold_left poll_byte l st)
    [[0xE0]; [0x48; 0x11]; [0x7F; 0xE0]; [0xC8]] (Kbd false key_init) in
  in_extended st = false /\
  run (key_queue st) [Pop; Pop; Pop; Pop] = [Some (1, 0xad); Some (1, 119); Some (0, 0xad); None].
Proof.
  assert (E : omap translate demo_events = [(1, 0xad); (1, 119); (0, 0xad)]) by reflexivity.
  generalize (keyboard_decodes demo_events [[0xE0]; [0x48; 0x11]; [0x7F; 0xE0]; [0xC8]]).
  rewrite E. intros H. apply H.
  - apply event_okb. reflexivity.
  - reflexivity.
  - vm_compute. discriminate.
Defined.

Lemma key_overflow_loses_events_witness :
  let st := fold_left poll_byte (replicate 32 0x11) (Kbd false key_init) in
  fst (DG_GetKey (key_queue st)) = None.
Proof.
  apply (key_overflow_loses_events (replicate 32 (KeyEvent false 0x11 false))).
  - apply event_okb. reflexivity.
  - reflexivity.
Defined.

Definition poll_demo : proc := tk_proc (tk_image []) (TK [] 0 [] [] [0x11; 0x91] None).

Lemma poll_keyboard_correct_witness :
  exists s', poll_keyboard (Kbd false key_init) poll_demo =
    Ret (Kbd false (key_push 0 119 (key_push 1 119 key_init))) s' /\
  p_kst s' = tk_idle /\ p_heap s' = p_heap poll_demo /\ p_files s' = p_files poll_demo /\
  forall q, ~ (loc_raw <= q < loc_raw + 2) -> peek (p_mem s') q = peek (p_mem poll_demo) q.
Proof.
  apply (poll_keyboard_correct (Kbd false key_init) poll_demo 2 [0x11; 0x91]).
  - apply mapped_rangeb_ok. vm_compute. reflexivity.
  - reflexivity.
Defined.
