(* ===== verification/Framebuffer.v ===== *)
(** * The display of the platform layer

    [apps/doom/doomgeneric_innigkeit.c]: [DG_Init], which maps the framebuffer,
    [DG_DrawFrame], which copies the frame of the game to the display at twice
    its size and then polls the keyboard, and [DG_SetWindowTitle].  The size of
    the frame ([DOOMGENERIC_RESX], [DOOMGENERIC_RESY]) and the frame buffer
    itself ([DG_ScreenBuffer]) belong to the game and are parameters. *)

From S2P Require Import Prelude Machine Memory Process TestKernel HeapAlloc Format FormatCorrect Stdio.
From S2P Require Import Keyboard.

Class DoomFrame := { DOOMGENERIC_RESX : Z; DOOMGENERIC_RESY : Z }.

(** The static variables. *)
Record display := Display { s_fb : Z; s_fb_w : Z; s_fb_h : Z; s_stride : Z }.

Definition display_init : display := Display 0 0 0 0.

Definition SCALE : Z := 2.

(** [for (uint32_t i = 0; i < n; i++)]; the body returns [false] to break. *)
Definition for_u32 {S} (n : Z) (body : Z -> ST S bool) : ST S unit :=
  while (fun i =>
           if i <? n then
             (go ← body i;
              if (go : bool) then mret (inl (u32 (i + 1))) else mret (inr tt))
           else mret (inr tt)) 0.

Section platform.
Context {K : Kernel} {L : Layout} {DK : DoomKeys} {DF : DoomFrame}.

Definition DOOM_W : Z := DOOMGENERIC_RESX.
Definition DOOM_H : Z := DOOMGENERIC_RESY.

Definition DG_Init (d : display) : ST proc display :=
  fb ← innigkeit_framebuffer_map;
  match fb with
  | None =>
      printf (lit (bytes_of "DG_Init: no framebuffer" ++ [10])) [];;
      mret d
  | Some (fb, info) =>
      let d' := Display fb (fb_width info) (fb_height info) (fb_pitch info / 4) in
      printf (lit (bytes_of "DG_Init: framebuffer %ux%u stride=%u" ++ [10]))
             [s_fb_w d'; s_fb_h d'; s_stride d'];;
      mret d'
  end.

(** The [SCALE] x [SCALE] block of one pixel. *)
Definition draw_block (d : display) (pixel fy fx : Z) : ST proc unit :=
  for_u32 SCALE (fun dy =>
    let row := u32 (fy + dy) in
    if s_fb_h d <=? row then mret false
    else
      let dst_row_p := s_fb d + 4 * u32 (row * s_stride d) + 4 * fx in
      for_u32 SCALE (fun dx =>
        (if u32 (fx + dx) <? s_fb_w d then in_mem (store32 (dst_row_p + 4 * dx) pixel) else mret tt);;
        mret true);;
      mret true).

Definition offset_x (d : display) : Z :=
  let dst_w := u32 (DOOM_W * SCALE) in
  if dst_w <? s_fb_w d then u32 (s_fb_w d - dst_w) / 2 else 0.

Definition offset_y (d : display) : Z :=
  let dst_h := u32 (DOOM_H * SCALE) in
  if dst_h <? s_fb_h d then u32 (s_fb_h d - dst_h) / 2 else 0.

(** The two outer loops. *)
Definition draw_frame (d : display) (DG_ScreenBuffer : Z) : ST proc unit :=
  for_u32 (u32 DOOM_H) (fun sy =>
    let src_row := DG_ScreenBuffer + 4 * u32 (sy * DOOM_W) in
    for_u32 (u32 DOOM_W) (fun sx =>
      pixel ← in_mem (load32 (src_row + 4 * sx));
      let fy := u32 (offset_y d + u32 (sy * SCALE)) in
      let fx := u32 (offset_x d + u32 (sx * SCALE)) in
      draw_block d pixel fy fx;;
      mret true);;
    mret true).

Definition DG_DrawFrame (d : display) (DG_ScreenBuffer : Z) (st : kbd) : ST proc kbd :=
  if (s_fb d =? 0) || (DG_ScreenBuffer =? 0) then mret st
  else
    draw_frame d DG_ScreenBuffer;;
    poll_keyboard st.

Definition DG_SetWindowTitle (title : Z) : ST proc unit := mret tt.

End platform.

(** ** Counting loops *)

Lemma for_u32_ret {S} n (body : Z -> ST S bool) (st : Z -> S) j :
  0 <= j <= n -> n < 2 ^ 32 ->
  (forall i, 0 <= i < j -> body i (st i) = Ret true (st (i + 1))) ->
  (j < n -> body j (st j) = Ret false (st j)) ->
  for_u32 n body (st 0) = Ret tt (st j).
Proof.
  intros Hj Hn Hgo Hstop. unfold for_u32.
  match goal with |- while ?bd _ _ = _ => set (step := bd) end.
  enough (G : forall k i, i = j - Z.of_nat k -> 0 <= i -> loops step k i (st i) (Ret tt (st j))).
  { eapply while_loops; [apply (G (Z.to_nat j)); lia|lia]. }
  induction k as [|k IH]; intros i Hi H0.
  - replace i with j by lia. apply loops_stop. unfold step.
    destruct (Z.ltb_spec j n); [|done]. now erewrite bind_ret by (apply Hstop; lia).
  - eapply loops_step; [|apply (IH (i + 1)); lia]. unfold step.
    destruct (Z.ltb_spec i n); [|lia]. erewrite bind_ret by (apply Hgo; lia).
    cbv iota. now rewrite u32_id by lia.
Qed.

Definition collect {A} (n : Z) (f : Z -> list A) : list A := concat (f <$> seqZ 0 n).

Lemma collect_succ {A} n (f : Z -> list A) : 0 <= n -> collect (n + 1) f = collect n f ++ f n.
Proof.
  intros Hn. unfold collect. rewrite seqZ_app by lia. rewrite fmap_app, concat_app.
  change (seqZ (0 + n) 1) with [0 + n]. simpl. now rewrite app_nil_r.
Qed.

Lemma elem_of_collect {A} n (f : Z -> list A) x :
  x ∈ collect n f <-> exists i, 0 <= i < n /\ x ∈ f i.
Proof.
  unfold collect. rewrite list_elem_of_In, in_concat. setoid_rewrite <- list_elem_of_In.
  setoid_rewrite list_elem_of_fmap. setoid_rewrite elem_of_seqZ. split.
  - intros (l & (i & -> & Hi) & Hx). exists i. split; [lia|done].
  - intros (i & Hi & Hx). exists (f i). split; [|done]. exists i. split; [done|lia].
Qed.

(** ** Pixel writes *)

(** [paint m fb ws]: the pixels [ws], by index, written to the frame at [fb]. *)
Definition paint (m : mem) (fb : Z) (ws : list (Z * Z)) : mem :=
  fold_left (fun m w => poke_list m (fb + 4 * w.1) (le_encode 4 w.2)) ws m.

Lemma le_encode_Zlen4 x : Zlen (le_encode 4 x) = 4.
Proof. unfold Zlen. now rewrite le_encode_length. Qed.

Lemma paint_cons m fb w ws :
  paint m fb (w :: ws) = paint (poke_list m (fb + 4 * w.1) (le_encode 4 w.2)) fb ws.
Proof. reflexivity. Qed.

Lemma paint_app m fb ws ws' : paint m fb (ws ++ ws') = paint (paint m fb ws) fb ws'.
Proof. apply fold_left_app. Qed.

Lemma regions_paint m fb ws : regions (paint m fb ws) = regions m.
Proof.
  revert m. induction ws as [|w ws IH]; intros m; [done|]. now rewrite paint_cons, IH, regions_poke_list.
Qed.

(** A byte of no painted pixel keeps its value. *)
Lemma paint_miss m fb ws q :
  (forall w, w ∈ ws -> q < fb + 4 * w.1 \/ fb + 4 * w.1 + 4 <= q) -> peek (paint m fb ws) q = peek m q.
Proof.
  revert m. induction ws as [|w ws IH]; intros m H; [done|].
  rewrite paint_cons, IH by (intros w' Hw; apply H; now right). apply peek_poke_list_out. rewrite le_encode_Zlen4.
  specialize (H w (list_elem_of_here _ _)). lia.
Qed.

(** A pixel that is painted, always with the same value, has that value. *)
Lemma paint_hit m fb ws i v :
  (i, v) ∈ ws -> (forall v', (i, v') ∈ ws -> v' = v) -> mapped_range m (fb + 4 * i) 4 ->
  bytes_at (paint m fb ws) (fb + 4 * i) (le_encode 4 v).
Proof.
  induction ws as [|w ws IH] using rev_ind; intros Hin Huniq Hm; [now apply not_elem_of_nil in Hin|].
  rewrite paint_app, paint_cons. change (paint ?m fb []) with m.
  assert (Hm' : mapped_range (paint m fb ws) (fb + 4 * i) 4).
  { intros q Hq. unfold is_mapped. rewrite regions_paint. now apply Hm. }
  destruct (Z.eq_dec w.1 i) as [E|E].
  - assert (w.2 = v) as ->.
    { apply Huniq. rewrite <- E, <- surjective_pairing. apply elem_of_app. right. now apply list_elem_of_singleton. }
    rewrite E. apply bytes_at_poke_list; [now rewrite le_encode_Zlen4|apply le_encode_bytes].
  - apply bytes_at_poke_list_out; [rewrite !le_encode_Zlen4; lia|]. apply IH; [|intros v' Hv|done].
    + apply elem_of_app in Hin as [Hin|Hin]; [done|]. apply list_elem_of_singleton in Hin. now subst w.
    + apply Huniq, elem_of_app. now left.
Qed.

(** A counting loop whose body paints, in memories with a property it keeps. *)
Lemma for_paint `{Kernel} (good : mem -> Prop) s fb n body w j m :
  0 <= j <= n -> n < 2 ^ 32 ->
  (forall i m, 0 <= i < j -> good m ->
     body i (set_mem m s) = Ret true (set_mem (paint m fb (w i)) s) /\ good (paint m fb (w i))) ->
  (forall m, j < n -> good m -> body j (set_mem m s) = Ret false (set_mem m s)) ->
  good m ->
  for_u32 n body (set_mem m s) = Ret tt (set_mem (paint m fb (collect j w)) s) /\
  good (paint m fb (collect j w)).
Proof.
  intros Hj Hn Hgo Hstop Hm.
  assert (G : forall k, Z.of_nat k <= j -> good (paint m fb (collect (Z.of_nat k) w))).
  { induction k as [|k IH]; intros Hk; [done|].
    rewrite Nat2Z.inj_succ, <- Z.add_1_r, collect_succ, paint_app by lia.
    now apply Hgo; [lia|apply IH; lia]. }
  assert (G' : forall i, 0 <= i <= j -> good (paint m fb (collect i w))).
  { intros i Hi. rewrite <- (Z2Nat.id i) by lia. apply G. lia. }
  split; [|apply G'; lia].
  apply (for_u32_ret n body (fun i => set_mem (paint m fb (collect i w)) s)); [done..| |].
  - intros i Hi. rewrite collect_succ, paint_app by lia. apply Hgo; [lia|apply G'; lia].
  - intros Hlt. apply Hstop; [done|apply G'; lia].
Qed.

(** ** The frame on the display *)

Section drawing.
Context {K : Kernel} {L : Layout} {DK : DoomKeys} {DF : DoomFrame}.
Context (d : display) (buf : Z) (src : Z -> Z -> Z) (m0 : mem).

(** A mapped display whose rows are not shorter than its width and whose pixels
    32-bit indices reach, and a frame [src], by row and column, that lies
    elsewhere in memory. *)
Record frame_ready : Prop := {
  fr_fb : 0 < s_fb d;
  fr_w : 0 <= s_fb_w d <= s_stride d;
  fr_h : 0 <= s_fb_h d < 2 ^ 32;
  fr_stride : s_stride d < 2 ^ 32;
  fr_size : s_stride d * s_fb_h d < 2 ^ 32;
  fr_mapped : mapped_range m0 (s_fb d) (4 * (s_stride d * s_fb_h d));
  fr_buf : buf <> 0;
  fr_res : 0 < DOOM_W < 2 ^ 30 /\ 0 < DOOM_H < 2 ^ 30 /\ DOOM_W * DOOM_H < 2 ^ 32;
  fr_src : forall sy sx, 0 <= sy < DOOM_H -> 0 <= sx < DOOM_W ->
    0 <= src sy sx < 2 ^ 32 /\
    bytes_at m0 (buf + 4 * (sy * DOOM_W + sx)) (le_encode 4 (src sy sx));
  fr_apart : buf + 4 * (DOOM_W * DOOM_H) <= s_fb d \/
             s_fb d + 4 * (s_stride d * s_fb_h d) <= buf
}.

(** A memory that differs from [m0] on the display only. *)
Definition drawing (m : mem) : Prop :=
  regions m = regions m0 /\
  forall q, q < s_fb d \/ s_fb d + 4 * (s_stride d * s_fb_h d) <= q -> peek m q = peek m0 q.

Definition block_writes (pixel fy fx : Z) : list (Z * Z) :=
  collect (Z.min 2 (Z.max 0 (s_fb_h d - fy))) (fun dy =>
    collect 2 (fun dx =>
      if fx + dx <? s_fb_w d then [((fy + dy) * s_stride d + (fx + dx), pixel)] else [])).

Definition frame_writes : list (Z * Z) :=
  collect DOOM_H (fun sy => collect DOOM_W (fun sx =>
    block_writes (src sy sx) (offset_y d + 2 * sy) (offset_x d + 2 * sx))).

(** The display shows the frame at this position. *)
Definition in_window (row col : Z) : bool :=
  (offset_y d <=? row) && (row <? offset_y d + 2 * DOOM_H) &&
  (offset_x d <=? col) && (col <? offset_x d + 2 * DOOM_W) && (col <? s_fb_w d).

Context (R : frame_ready).

Lemma offset_bounds :
  0 <= offset_x d /\ offset_x d + 2 * DOOM_W < 2 ^ 32 /\ 0 <= offset_y d /\ offset_y d + 2 * DOOM_H < 2 ^ 32.
Proof.
  destruct R as [_ Hw Hh Hst _ _ _ [Rw [Rh _]] _ _]. unfold offset_x, offset_y, SCALE.
  rewrite !(u32_id (_ * 2)) by lia.
  destruct (Z.ltb_spec (DOOM_W * 2) (s_fb_w d)), (Z.ltb_spec (DOOM_H * 2) (s_fb_h d));
    rewrite ?u32_id by lia.
  all: pose proof (Z.div_mod (s_fb_w d - DOOM_W * 2) 2 ltac:(lia)) as D1;
    pose proof (Z.mod_pos_bound (s_fb_w d - DOOM_W * 2) 2 ltac:(lia)) as D2;
    pose proof (Z.div_mod (s_fb_h d - DOOM_H * 2) 2 ltac:(lia)) as D3;
    pose proof (Z.mod_pos_bound (s_fb_h d - DOOM_H * 2) 2 ltac:(lia)) as D4; lia.
Qed.

Lemma pixel_index row col :
  0 <= row < s_fb_h d -> 0 <= col < s_stride d -> 0 <= row * s_stride d + col < s_stride d * s_fb_h d.
Proof. intros. nia. Qed.

Lemma store_pixel s m row col v :
  drawing m -> 0 <= row < s_fb_h d -> 0 <= col < s_stride d ->
  in_mem (store32 (s_fb d + 4 * (row * s_stride d + col)) v) (set_mem m s) =
    Ret tt (set_mem (paint m (s_fb d) [(row * s_stride d + col, v)]) s) /\
  drawing (paint m (s_fb d) [(row * s_stride d + col, v)]).
Proof.
  intros [Hr Hp] Hrow Hcol. pose proof (pixel_index row col Hrow Hcol) as Hi. split.
  - erewrite in_mem_ret; [reflexivity|]. apply store_bytes_ret. rewrite le_encode_Zlen4.
    intros q Hq. unfold is_mapped. cbn [p_mem set_mem]. rewrite Hr. apply (fr_mapped R). lia.
  - split; [now rewrite regions_paint|]. intros q Hq. rewrite <- Hp by done. apply paint_miss.
    intros w Hw. apply list_elem_of_singleton in Hw as ->. simpl. lia.
Qed.

Lemma draw_block_ret s m pixel fy fx :
  drawing m -> 0 <= fy -> fy + 1 < 2 ^ 32 -> 0 <= fx -> fx + 1 < 2 ^ 32 ->
  draw_block d pixel fy fx (set_mem m s) =
    Ret tt (set_mem (paint m (s_fb d) (block_writes pixel fy fx)) s) /\
  drawing (paint m (s_fb d) (block_writes pixel fy fx)).
Proof.
  intros Hm Hfy Hfy' Hfx Hfx'. destruct (fr_h R) as [Hh0 Hh1]. pose proof (fr_w R) as Hw.
  unfold draw_block, SCALE.
  apply (for_paint drawing); [lia|lia| | |done].
  - clear m Hm. intros dy m Hdy Hm. rewrite u32_id by lia.
    destruct (Z.leb_spec (s_fb_h d) (fy + dy)); [lia|].
    assert (Hix : u32 ((fy + dy) * s_stride d) = (fy + dy) * s_stride d).
    { apply u32_id. pose proof (fr_size R). nia. }
    rewrite Hix.
    edestruct (for_paint drawing s (s_fb d) 2
      (fun dx => (if u32 (fx + dx) <? s_fb_w d then
         in_mem (store32 (s_fb d + 4 * ((fy + dy) * s_stride d) + 4 * fx + 4 * dx) pixel) else mret tt);;
        mret true)
      (fun dx => if fx + dx <? s_fb_w d then [((fy + dy) * s_stride d + (fx + dx), pixel)] else [])
      2 m) as [E Hd]; [lia|lia| |lia|done|].
    + clear m Hm. intros dx m Hdx Hm. rewrite u32_id by lia.
      destruct (Z.ltb_spec (fx + dx) (s_fb_w d)); [|now split].
      destruct (store_pixel s m (fy + dy) (fx + dx) pixel Hm) as [E Hd]; [lia|lia|].
      replace (s_fb d + 4 * ((fy + dy) * s_stride d) + 4 * fx + 4 * dx)
        with (s_fb d + 4 * ((fy + dy) * s_stride d + (fx + dx))) by lia.
      split; [|done]. now erewrite bind_ret by exact E.
    + split; [|exact Hd]. now erewrite bind_ret by exact E.
  - intros m' Hj _. rewrite u32_id by lia. destruct (Z.leb_spec (s_fb_h d)
      (fy + Z.min 2 (Z.max 0 (s_fb_h d - fy)))); [done|lia].
Qed.

Lemma load_source m sy sx :
  drawing m -> 0 <= sy < DOOM_H -> 0 <= sx < DOOM_W ->
  load32 (buf + 4 * u32 (sy * DOOM_W) + 4 * sx) m = Ret (src sy sx) m.
Proof.
  intros [_ Hp] Hsy Hsx. destruct (fr_res R) as (Rw & Rh & Rs). destruct (fr_src R sy sx Hsy Hsx) as [Hv Hb].
  rewrite u32_id by nia.
  replace (buf + 4 * (sy * DOOM_W) + 4 * sx) with (buf + 4 * (sy * DOOM_W + sx)) by lia.
  unfold load32. erewrite bind_ret; [|apply load_bytes_ret'; [|now rewrite le_encode_Zlen4|lia]].
  - unfold mret, ST_ret. now rewrite le_decode_encode by exact Hv.
  - eapply bytes_at_ext; [|exact Hb]. intros q Hq. rewrite le_encode_Zlen4 in Hq. apply Hp.
    assert (0 <= sy * DOOM_W + sx < DOOM_W * DOOM_H) by nia.
    destruct (fr_apart R); [left|right]; lia.
Qed.

Lemma draw_frame_ret s :
  p_mem s = m0 -> draw_frame d buf s = Ret tt (set_mem (paint m0 (s_fb d) frame_writes) s) /\
  drawing (paint m0 (s_fb d) frame_writes).
Proof.
  intros Hs. replace s with (set_mem m0 s) at 1 by (rewrite <- Hs; apply set_mem_id).
  destruct (fr_res R) as (Rw & Rh & _). destruct offset_bounds as (Ox & Ox' & Oy & Oy').
  unfold draw_frame, SCALE. rewrite !(u32_id DOOM_H), !(u32_id DOOM_W) by lia.
  apply (for_paint drawing); [lia|lia| |lia|now split].
  intros sy m Hsy Hm.
  edestruct (for_paint drawing s (s_fb d) DOOM_W (fun sx =>
      pixel ← in_mem (load32 (buf + 4 * u32 (sy * DOOM_W) + 4 * sx));
      draw_block d pixel (u32 (offset_y d + u32 (sy * 2))) (u32 (offset_x d + u32 (sx * 2)));;
      mret true)
    (fun sx => block_writes (src sy sx) (offset_y d + 2 * sy) (offset_x d + 2 * sx)) DOOM_W m)
    as [E Hd]; [lia|lia| |lia|done|split; [|exact Hd]; now erewrite bind_ret by exact E].
  clear m Hm. intros sx m Hsx Hm.
  erewrite bind_ret by (apply in_mem_ret, load_source; [exact Hm|lia|lia]).
  rewrite !(u32_id (_ * 2)), !u32_id by lia.
  replace (offset_y d + sy * 2) with (offset_y d + 2 * sy) by lia.
  replace (offset_x d + sx * 2) with (offset_x d + 2 * sx) by lia.
  destruct (draw_block_ret s m (src sy sx) (offset_y d + 2 * sy) (offset_x d + 2 * sx) Hm)
    as [E Hd]; [lia..|]. split; [|done]. now erewrite bind_ret by exact E.
Qed.

(** Which pixels are written, and with what. *)
Lemma elem_of_frame_writes i v :
  (i, v) ∈ frame_writes <-> exists row col, 0 <= row < s_fb_h d /\ in_window row col = true /\
    i = row * s_stride d + col /\ v = src ((row - offset_y d) / 2) ((col - offset_x d) / 2).
Proof.
  destruct offset_bounds as (Ox & _ & Oy & _). unfold frame_writes, block_writes, in_window. split.
  - intros H. apply elem_of_collect in H as (sy & Hsy & H). apply elem_of_collect in H as (sx & Hsx & H).
    apply elem_of_collect in H as (dy & Hdy & H). apply elem_of_collect in H as (dx & Hdx & H).
    destruct (Z.ltb_spec (offset_x d + 2 * sx + dx) (s_fb_w d)); [|now apply not_elem_of_nil in H].
    apply list_elem_of_singleton in H. injection H as -> ->.
    exists (offset_y d + 2 * sy + dy), (offset_x d + 2 * sx + dx). split; [lia|]. split; [lia|].
    split; [lia|]. f_equal;
      [apply (Z.div_unique_pos _ _ _ dy)|apply (Z.div_unique_pos _ _ _ dx)]; lia.
  - intros (row & col & Hrow & Hw & -> & ->).
    pose proof (Z.div_mod (row - offset_y d) 2 ltac:(lia)) as D1.
    pose proof (Z.mod_pos_bound (row - offset_y d) 2 ltac:(lia)) as D2.
    pose proof (Z.div_mod (col - offset_x d) 2 ltac:(lia)) as D3.
    pose proof (Z.mod_pos_bound (col - offset_x d) 2 ltac:(lia)) as D4.
    apply elem_of_collect. exists ((row - offset_y d) / 2). split; [lia|].
    apply elem_of_collect. exists ((col - offset_x d) / 2). split; [lia|].
    apply elem_of_collect. exists ((row - offset_y d) mod 2). split; [lia|].
    apply elem_of_collect. exists ((col - offset_x d) mod 2). split; [lia|].
    destruct (Z.ltb_spec (offset_x d + 2 * ((col - offset_x d) / 2) + (col - offset_x d) mod 2) (s_fb_w d));
      [|lia]. apply list_elem_of_singleton. f_equal. lia.
Qed.

Lemma pixel_index_inj row col row' col' :
  0 <= col < s_stride d -> 0 <= col' < s_stride d ->
  row * s_stride d + col = row' * s_stride d + col' -> row = row' /\ col = col'.
Proof.
  intros Hc Hc' E.
  assert (row = row') as -> by (apply (Z.div_mod_unique (s_stride d) _ _ col col'); lia). lia.
Qed.

(** What the display shows after the frame is drawn. *)
Lemma frame_shown row col :
  0 <= row < s_fb_h d -> 0 <= col < s_stride d ->
  let p := s_fb d + 4 * (row * s_stride d + col) in
  let m' := paint m0 (s_fb d) frame_writes in
  if in_window row col
  then bytes_at m' p (le_encode 4 (src ((row - offset_y d) / 2) ((col - offset_x d) / 2)))
  else forall q, p <= q < p + 4 -> peek m' q = peek m0 q.
Proof.
  intros Hrow Hcol p m'. pose proof (fr_w R) as Hfw.
  assert (Hsame : forall row' col' v, in_window row' col' = true ->
    (row' * s_stride d + col', v) ∈ frame_writes ->
    v = src ((row' - offset_y d) / 2) ((col' - offset_x d) / 2)).
  { intros row' col' v Hw' Hv. apply elem_of_frame_writes in Hv as (r & c & Hr & Hw & E & ->).
    pose proof offset_bounds. unfold in_window in Hw, Hw'.
    apply pixel_index_inj in E as [-> ->]; [done|lia|lia]. }
  destruct (in_window row col) eqn:Hw.
  - apply paint_hit.
    + apply elem_of_frame_writes. exists row, col. done.
    + intros v' Hv. now apply Hsame.
    + pose proof (pixel_index row col Hrow Hcol).
      eapply mapped_range_sub; [apply (fr_mapped R)|lia..].
  - intros q Hq. apply paint_miss. intros [i v] Hi. simpl.
    apply elem_of_frame_writes in Hi as (r & c & Hr & Hw' & -> & _).
    destruct (Z.eq_dec (r * s_stride d + c) (row * s_stride d + col)) as [E|E]; [|lia].
    pose proof offset_bounds. pose proof Hw' as Hw2. unfold in_window in Hw2.
    apply pixel_index_inj in E as [-> ->]; [congruence|lia|lia].
Qed.


End drawing.

(** ** Setting up the display *)

Definition no_fb_format : list item := lits (bytes_of "DG_Init: no framebuffer" ++ [10]).

Definition init_format : list item :=
  lits (bytes_of "DG_Init: framebuffer ") ++ [plain Conv_u] ++ lits (bytes_of "x") ++ [plain Conv_u] ++
  lits (bytes_of " stride=") ++ [plain Conv_u] ++ lits [10].

Definition init_message (w h stride : Z) : list Z :=
  bytes_of "DG_Init: framebuffer " ++ number_digits 10 false None w ++ bytes_of "x" ++
  number_digits 10 false None h ++ bytes_of " stride=" ++ number_digits 10 false None stride ++ [10].

Lemma eval_init w h stride :
  eval_format ∅ init_format [w; h; stride] = Some (init_message (u32 w) (u32 h) (u32 stride)).
Proof.
  unfold init_format, init_message.
  do 3 apply eval_lits, eval_plain_u. rewrite <- (app_nil_r (lits _)), <- (app_nil_r [10]).
  now apply eval_lits.
Qed.

Lemma init_message_short w h stride : Zlen (init_message w h stride) <= 4095.
Proof.
  unfold init_message. rewrite !Zlen_app.
  pose proof (number_digits_short w). pose proof (number_digits_short h).
  pose proof (number_digits_short stride).
  change (Zlen (bytes_of "DG_Init: framebuffer ")) with 21. change (Zlen (bytes_of "x")) with 1.
  change (Zlen (bytes_of " stride=")) with 8. change (Zlen [10]) with 1. lia.
Qed.

Section init.
Context {K : Kernel} {KL : KernelLaws K} {D : KernelData K} {L : Layout} {DF : DoomFrame}.
Context (Hprog : write_progress).

(** The message of a format is a literal outside of the buffer of [printf]. *)
Definition message_at (m : mem) (f : list item) : Prop :=
  cstr m (lit (show_format f)) (show_format f) /\
  (lit (show_format f) + Zlen (show_format f) + 1 <= printf_buf \/
   printf_buf + 4096 <= lit (show_format f)).

Lemma message_printable s f args out :
  mem_ok (p_mem s) -> mapped_range (p_mem s) printf_buf 4096 -> message_at (p_mem s) f ->
  forallb item_okb f = true -> eval_format ∅ f args = Some out -> Zlen out <= 4095 ->
  exists s', printf (lit (show_format f)) args s = Ret (Zlen out) s' /\
  prints (set_mem (poke_list (p_mem s) printf_buf (out ++ [0])) s) s' out.
Proof.
  intros Hm Hmap [Hs Hd] Hf He Hl.
  destruct (vprintf_ret Hprog s (lit (show_format f)) f args ∅ out) as (s' & E & P).
  { do 7 (split; [done || (unfold INT_MAX; lia)|]). apply map_Forall_empty. }
  exists s'. split; [exact E|]. now rewrite take_ge in P by (unfold Zlen in *; lia).
Qed.

(** The memory after a successful mapping extends the memory before it. *)
Lemma framebuffer_extends m k a i px k' :
  mem_ok m -> sys_framebuffer_map (regions m) k = ((a, i, px), k') -> 0 <= a ->
  let m1 := poke_list (map_region m a (page_round (fb_pitch i * fb_height i))) a px in
  mem_ok m1 /\ mapped_range m1 a (fb_pitch i * fb_height i) /\
  forall q, is_mapped m q = true -> is_mapped m1 q = true /\ peek m1 q = peek m q.
Proof.
  intros Hm Hk Ha m1. destruct (framebuffer_fresh _ _ _ _ _ _ Hk Ha) as (Ha' & Hb & Hf & Hpx & _).
  set (n := page_round (fb_pitch i * fb_height i)) in *.
  pose proof (mapped_map_region m a n) as Hmap. unfold m1. split; [|split].
  - apply mem_ok_poke_list; [apply mem_ok_map_region; [done..|lia]|].
    eapply mapped_range_sub; [exact Hmap|lia..].
  - apply mapped_range_poke_list. eapply mapped_range_sub; [exact Hmap|lia|].
    pose proof (page_round_ge (fb_pitch i * fb_height i)). lia.
  - intros q Hq. rewrite is_mapped_poke_list, is_mapped_map_region, Hq, orb_true_r. split; [done|].
    rewrite peek_poke_list_out; [now apply peek_map_region_old|].
    destruct (Z_lt_le_dec q a); [lia|]. destruct (Z_lt_le_dec q (a + n)); [|lia].
    unfold is_mapped in Hq. rewrite Hf in Hq by lia. done.
Qed.

Lemma message_extends m m1 f :
  (forall q, is_mapped m q = true -> is_mapped m1 q = true /\ peek m1 q = peek m q) ->
  message_at m f -> message_at m1 f.
Proof.
  intros He [[Hb Hn] Hd]. split; [|done]. split; [|done].
  eapply bytes_at_ext; [|exact Hb]. intros q Hq. apply He.
  eapply bytes_at_mapped; [exact Hb|lia].
Qed.

(** [DG_Init] takes over the display the kernel maps: the pixel pointer, the
    dimensions, and the row length in pixels, announces it on the console, and
    leaves the memory of the program as it is, but for the buffer of [printf];
    the whole display is then accessible.  When the kernel has no display it
    says so and leaves the platform state unchanged. *)
Theorem dg_init_correct s d a i px k' :
  mem_ok (p_mem s) -> mapped_range (p_mem s) printf_buf 4096 ->
  message_at (p_mem s) no_fb_format -> message_at (p_mem s) init_format ->
  sys_framebuffer_map (regions (p_mem s)) (p_kst s) = ((a, i, px), k') ->
  if 0 <=? a then
    let stride := fb_pitch i / 4 in
    let msg := init_message (fb_width i) (fb_height i) stride in
    exists m1 s', DG_Init d s = Ret (Display a (fb_width i) (fb_height i) stride) s' /\
    prints (set_kst k' (set_mem (poke_list m1 printf_buf (msg ++ [0])) s)) s' msg /\
    mapped_range m1 a (fb_pitch i * fb_height i) /\
    (forall q, is_mapped (p_mem s) q = true -> peek m1 q = peek (p_mem s) q)
  else
    let msg := bytes_of "DG_Init: no framebuffer" ++ [10] in
    exists s', DG_Init d s = Ret d s' /\
    prints (set_kst k' (set_mem (poke_list (p_mem s) printf_buf (msg ++ [0])) s)) s' msg.
Proof.
  intros Hm Hmap Hno Hin Hk.
  assert (Em := eq_refl (innigkeit_framebuffer_map s)). unfold innigkeit_framebuffer_map at 2 in Em.
  rewrite Hk in Em. unfold decode in Em. unfold DG_Init. destruct (Z.leb_spec 0 a) as [Ha|Ha].
  - destruct (framebuffer_fresh _ _ _ _ _ _ Hk Ha) as (Ha' & _ & _ & _ & Rw & Rh & Rp).
    destruct (Z.eqb_spec a 0); [lia|]. erewrite bind_ret by exact Em.
    destruct (framebuffer_extends _ _ _ _ _ _ Hm Hk Ha) as (Hm1 & Hmap1 & He).
    cbv zeta. set (m1 := poke_list _ a px) in *. set (s1 := set_kst k' (set_mem m1 s)).
    assert (Rs : 0 <= fb_pitch i / 4 < 2 ^ 32).
    { split; [apply Z.div_pos; lia|apply Z.div_lt_upper_bound; lia]. }
    destruct (message_printable s1 init_format [fb_width i; fb_height i; fb_pitch i / 4]
      (init_message (fb_width i) (fb_height i) (fb_pitch i / 4))) as (s' & E & P).
    + exact Hm1.
    + intros q Hq. apply He. now apply Hmap.
    + now apply (message_extends (p_mem s)).
    + reflexivity.
    + rewrite eval_init. now rewrite !u32_id by lia.
    + apply init_message_short.
    + exists m1, s'. split; [|split; [exact P|]].
      * now erewrite bind_ret by exact E.
      * split; [done|]. intros q Hq. now apply He.
  - erewrite bind_ret by exact Em. cbv zeta. destruct (message_printable (set_kst k' s) no_fb_format []
      (bytes_of "DG_Init: no framebuffer" ++ [10])) as (s' & E & P); [done..|].
    exists s'. split; [now erewrite bind_ret by exact E|exact P].
Qed.

End init.

(** ** Examples on the small kernel *)

#[local] Existing Instance demo_keys.
#[local] Instance demo_frame : DoomFrame := {| DOOMGENERIC_RESX := 2; DOOMGENERIC_RESY := 1 |}.

(** A display of 8 by 4 pixels with rows of 9, and a frame of two pixels. *)
Definition draw_display : display := Display 32768 8 4 9.
Definition draw_src (sy sx : Z) : Z := if sx =? 0 then 0xFF0000 else 0x00FF00.
Definition draw_demo : proc :=
  tk_proc (tk_image [(30000, le_encode 4 0xFF0000 ++ le_encode 4 0x00FF00)]) (TK [] 0 [] [] [0x11] None).

Lemma draw_ready : frame_ready draw_display 30000 draw_src (p_mem draw_demo).
Proof.
  split; try (unfold DOOM_W, DOOM_H; simpl; lia).
  - apply mapped_rangeb_ok. vm_compute. reflexivity.
  - unfold DOOM_W, DOOM_H. simpl. intros sy sx Hy Hx. assert (sy = 0) as -> by lia.
    assert (sx = 0 \/ sx = 1) as [-> | ->] by lia; (split; [unfold draw_src; simpl; lia|by_eval]).
Qed.


Definition init_demo : proc := tk_proc (tk_image []) (TK [] 0 [] [] [] (Some (FbInfo 640 480 2560 32))).

Lemma dg_init_correct_witness :
  exists m1 s', DG_Init display_init init_demo = Ret (Display 65536 640 480 640) s' /\
  prints (set_kst (p_kst init_demo) (set_mem (poke_list m1 printf_buf (init_message 640 480 640 ++ [0])) init_demo))
    s' (init_message 640 480 640) /\
  mapped_range m1 65536 (2560 * 480) /\
  (forall q, is_mapped (p_mem init_demo) q = true -> peek m1 q = peek (p_mem init_demo) q).
Proof.
  apply (dg_init_correct tk_progress init_demo display_init 65536 (FbInfo 640 480 2560 32) [] (p_kst init_demo)).
  - by_eval.
  - apply mapped_rangeb_ok. vm_compute. reflexivity.
  - split; [by_eval|left; vm_compute; discriminate].
  - split; [by_eval|left; vm_compute; discriminate].
  - vm_compute. reflexivity.
Defined.
