(* ===== verification/Initfs.v ===== *)
(** * The initfs archive

    The read-only archive embedded in the kernel, from the tool that builds it
    ([tools/initfs_builder/main.zig]) to the lookup in the kernel
    ([filesystem/initfs.zig]).  The round trip of the two is the main result:
    what was packed under a name is found under it, byte for byte.  The lookup
    is total: it ends on every sequence of bytes and its result lies inside. *)

From S2P Require Import Prelude Machine CString.

(** [sub l i n]: the slice [l[i..i+n]]. *)
Definition sub (l : list Z) (i n : Z) : list Z := take (Z.to_nat n) (drop (Z.to_nat i) l).

(** ** The lookup *)

Definition isZeroBlock (block : list Z) : bool := forallb (Z.eqb 0) block.

(** Zig's saturating operations on [usize]. *)
Definition sat (x : Z) : Z := Z.min x SIZE_MAX.

Fixpoint parse_octal (field : list Z) (result : Z) : Z :=
  match field with
  | [] => result
  | ch :: field' =>
      if (ch =? 0) || (ch =? 32) then result
      else if (ch <? 48) || (55 <? ch) then 0
      else parse_octal field' (sat (sat (result * 8) + (ch - 48)))
  end.

Definition parseOctal (field : list Z) : Z := parse_octal field 0.

Definition alignUp512 (n : Z) : Z := Z.land (n + 511) (Z.lnot 511).

(** [std.mem.sliceTo(l, 0)]. *)
Definition sliceTo (l : list Z) : list Z := take_while (fun c => negb (c =? 0)) l.

(** The loop of [findFileIn] from the header at [offset]; every iteration
    moves on by at least a block, so [fuel] iterations are enough when the
    archive is not longer than [fuel] bytes. *)
Fixpoint find_from (fuel : nat) (bytes name : list Z) (offset : Z) : option (list Z) :=
  match fuel with
  | O => None
  | S fuel' =>
      if offset + 512 <=? Zlen bytes then
        let hdr := sub bytes offset 512 in
        if isZeroBlock hdr then None
        else
          let entry_name := sliceTo (sub hdr 0 100) in
          let size := parseOctal (sub hdr 124 12) in
          let data_start := offset + 512 in
          if Zlen bytes - data_start <? size then None
          else if bool_decide (entry_name = name) then Some (sub bytes data_start size)
          else find_from fuel' bytes name (offset + (512 + alignUp512 size))
      else None
  end.

Definition findFileIn (bytes name : list Z) : option (list Z) :=
  find_from (length bytes) bytes name 0.

(** ** The builder

    The archive is written to an output stream, the state of the monad. *)

Definition out_write (l : list Z) : ST (list Z) unit := fun out => Ret tt (out ++ l).

(** [@memcpy(header[at..], l)] *)
Definition memcpy_at (at_ : nat) (l header : list Z) : list Z := list_inserts at_ l header.

(** [n] in [w] octal digits, and [bufPrint("{o:0>w}")] to a buffer of [w]
    bytes, which fails when the number has more digits. *)
Fixpoint octal (w : nat) (n : Z) : list Z :=
  match w with
  | O => []
  | S w' => octal w' (n / 8) ++ [48 + n mod 8]
  end.

Definition print_octal {St} (w : nat) (n : Z) : ST St (list Z) :=
  if n <? 8 ^ Z.of_nat w then mret (octal w n) else fault.

Definition sum_bytes (l : list Z) : Z := foldl Z.add 0 l.

(** The header with everything but the checksum. *)
Definition header_fields (name size : list Z) : list Z :=
  let header := replicate 512 0 in
  let name_len := Nat.min (length name) 99 in
  let header := memcpy_at 0 (take name_len name) header in
  let header := memcpy_at 100 (bytes_of "0000644" ++ [0]) header in
  let header := memcpy_at 108 (bytes_of "0000000" ++ [0]) header in
  let header := memcpy_at 116 (bytes_of "0000000" ++ [0]) header in
  let header := memcpy_at 124 size header in
  let header := memcpy_at 135 [32] header in
  let header := memcpy_at 136 (bytes_of "00000000000") header in
  let header := memcpy_at 147 [32] header in
  let header := memcpy_at 148 (replicate 8 32) header in
  let header := memcpy_at 156 [48] header in
  let header := memcpy_at 257 (bytes_of "ustar" ++ [0]) header in
  memcpy_at 263 (bytes_of "00") header.

Definition writeEntry (name data : list Z) : ST (list Z) unit :=
  size ← print_octal 11 (Zlen data);
  let header := header_fields name size in
  checksum ← print_octal 6 (sum_bytes header);
  let header := memcpy_at 148 checksum header in
  let header := memcpy_at 154 [0] header in
  let header := memcpy_at 155 [32] header in
  out_write header;;
  out_write data;;
  let remainder := Zlen data mod 512 in
  if negb (remainder =? 0) then out_write (replicate (Z.to_nat (512 - remainder)) 0) else mret tt.

(** The loop over the arguments, pairs of a name and the path of a file. *)
Fixpoint pack (read_file : list Z -> option (list Z)) (args : list (list Z)) : ST (list Z) unit :=
  match args with
  | name :: path :: rest =>
      match read_file path with
      | None => exit_with 1
      | Some data => writeEntry name data;; pack read_file rest
      end
  | _ => mret tt
  end.

(** [main] of the builder, with the arguments after the program's name. *)
Definition initfs_builder (read_file : list Z -> option (list Z)) (args : list (list Z)) :
    ST (list Z) unit :=
  if (0 <? Zlen args) && negb (Zlen args mod 2 =? 0) then exit_with 1
  else (pack read_file args;; out_write (replicate 1024 0)).

(** ** Slices *)

Lemma sub_length l i n : 0 <= i -> 0 <= n -> i + n <= Zlen l -> length (sub l i n) = Z.to_nat n.
Proof. intros. unfold sub, Zlen in *. rewrite length_take, length_drop. lia. Qed.

Lemma sub_app_r p l i n : Zlen p <= i -> sub (p ++ l) i n = sub l (i - Zlen p) n.
Proof.
  intros H. unfold sub, Zlen in *. rewrite drop_app_ge by lia. do 2 f_equal. lia.
Qed.

Lemma sub_app_l l r i n : 0 <= i -> 0 <= n -> i + n <= Zlen l -> sub (l ++ r) i n = sub l i n.
Proof.
  intros. unfold sub, Zlen in *. rewrite drop_app_le by lia. rewrite take_app_le; [done|].
  rewrite length_drop. lia.
Qed.

Lemma sub_all l n : n = Zlen l -> sub l 0 n = l.
Proof. intros ->. unfold sub, Zlen. rewrite drop_0, take_ge; [done|lia]. Qed.

Lemma sub_bytes l i n : Forall byte_ok l -> Forall byte_ok (sub l i n).
Proof. intros. unfold sub. now apply Forall_take, Forall_drop. Qed.

Lemma sub_lookup l i n j :
  0 <= i -> sub l i n !! j = if bool_decide (Z.of_nat j < n) then l !! (Z.to_nat i + j)%nat else None.
Proof.
  intros Hi. unfold sub. case_bool_decide.
  - rewrite lookup_take_lt by lia. apply lookup_drop.
  - apply lookup_take_ge. lia.
Qed.

(** A field of a header is what was last copied there. *)
Lemma sub_memcpy_same k l i n :
  i = Z.of_nat k -> n = Zlen l -> forall h, (k + length l <= length h)%nat ->
  sub (memcpy_at k l h) i n = l.
Proof.
  intros -> -> h Hh. apply list_eq. intros j. rewrite sub_lookup by lia. unfold memcpy_at, Zlen.
  case_bool_decide as H.
  - rewrite list_lookup_inserts by lia. f_equal. lia.
  - symmetry. apply lookup_ge_None. lia.
Qed.

Lemma sub_memcpy_ne k l i n h :
  0 <= i -> i + n <= Z.of_nat k \/ Z.of_nat k + Zlen l <= i ->
  sub (memcpy_at k l h) i n = sub h i n.
Proof.
  intros Hi H. apply list_eq. intros j. rewrite !sub_lookup by lia. unfold memcpy_at, Zlen in *.
  case_bool_decide as Hj; [|done]. destruct H.
  - rewrite list_lookup_inserts_lt by lia. done.
  - rewrite list_lookup_inserts_ge by lia. done.
Qed.

Lemma memcpy_length k l h : length (memcpy_at k l h) = length h.
Proof. apply length_inserts. Qed.

Lemma memcpy_bytes k l h : Forall byte_ok l -> Forall byte_ok h -> Forall byte_ok (memcpy_at k l h).
Proof.
  unfold memcpy_at. revert k. induction l as [|c l IH]; intros k Hl Hh; simpl; [done|].
  inversion_clear Hl. apply Forall_insert; auto.
Qed.

(** ** Octal numbers *)

Lemma octal_length w n : length (octal w n) = w.
Proof. revert n. induction w as [|w IH]; intros n; simpl; [done|]. rewrite length_app, IH. simpl. lia. Qed.

Lemma octal_bytes w n : Forall byte_ok (octal w n).
Proof.
  revert n. induction w as [|w IH]; intros n; simpl; [done|]. apply Forall_app. split; [done|].
  pose proof (Z.mod_pos_bound n 8). repeat constructor; lia.
Qed.

(** Reading back [w] digits continues with their value. *)
Lemma parse_octal_digits w n : forall rest r,
  0 <= n < 8 ^ Z.of_nat w -> 0 <= r -> r * 8 ^ Z.of_nat w + n <= SIZE_MAX ->
  parse_octal (octal w n ++ rest) r = parse_octal rest (r * 8 ^ Z.of_nat w + n).
Proof.
  revert n. induction w as [|w IH]; intros n rest r Hn Hr Hs.
  - simpl in *. f_equal. lia.
  - simpl octal. rewrite <- app_assoc.
    pose proof (Z.div_mod n 8 ltac:(lia)). pose proof (Z.mod_pos_bound n 8 ltac:(lia)).
    rewrite Nat2Z.inj_succ, Z.pow_succ_r in * by lia. set (P := 8 ^ Z.of_nat w) in *.
    assert (0 <= n / 8 < P) by (split; [apply Z.div_pos|apply Z.div_lt_upper_bound]; lia).
    rewrite IH; fold P; [|lia..|nia].
    cbn [app parse_octal]. set (d := 48 + n mod 8).
    assert ((d =? 0) || (d =? 32) = false) as -> by lia.
    assert ((d <? 48) || (55 <? d) = false) as -> by lia.
    f_equal. unfold sat. replace ((r * P + n / 8) * 8) with (r * (8 * P) + n - n mod 8) by nia. lia.
Qed.

Lemma parse_octal_nonneg l r : 0 <= r -> 0 <= parse_octal l r.
Proof.
  revert r. induction l as [|c l IH]; intros r Hr; simpl; [done|].
  destruct (_ || _); [done|]. destruct (_ || _) eqn:E; [done|]. apply IH. unfold sat, SIZE_MAX. lia.
Qed.

Lemma parseOctal_print n : 0 <= n < 8 ^ 11 -> parseOctal (octal 11 n ++ [32]) = n.
Proof.
  intros H. unfold parseOctal. rewrite parse_octal_digits; [|exact H|lia|unfold SIZE_MAX; lia].
  simpl. lia.
Qed.

Lemma print_octal_ret {St} w n (s : St) :
  n < 8 ^ Z.of_nat w -> print_octal w n s = Ret (octal w n) s.
Proof. intros H. unfold print_octal. destruct (Z.ltb_spec n (8 ^ Z.of_nat w)); [done|lia]. Qed.

(** ** Entries of the archive *)

Lemma sum_bytes_bound l : Forall byte_ok l -> sum_bytes l <= 255 * Zlen l.
Proof.
  unfold sum_bytes. enough (H : forall a, Forall byte_ok l -> foldl Z.add a l <= a + 255 * Zlen l)
    by (intros Hl; specialize (H 0 Hl); lia).
  induction l as [|c l IH]; intros a Hl; simpl; [zlen; lia|]. inversion_clear Hl as [|? ? Hc].
  rewrite Zlen_cons. etransitivity; [now apply IH|]. unfold byte_ok in Hc. lia.
Qed.

(** What the lookup sees of the header of [data] under [name]. *)
Definition entry_header (hdr name data : list Z) : Prop :=
  length hdr = 512%nat /\ isZeroBlock hdr = false /\
  sliceTo (sub hdr 0 100) = take 99 name /\ parseOctal (sub hdr 124 12) = Zlen data.

Definition padding (data : list Z) : list Z :=
  let remainder := Zlen data mod 512 in
  if negb (remainder =? 0) then replicate (Z.to_nat (512 - remainder)) 0 else [].

(** A name can be stored when it has no nul. *)
Definition name_ok (name : list Z) : Prop := Forall (fun c => 0 < c < 256) name.

Lemma sliceTo_zeros l n : Forall (fun c => 0 < c < 256) l -> sliceTo (l ++ replicate n 0) = l.
Proof.
  intros H. unfold sliceTo. induction H as [|c l Hc Hl IH]; simpl; [now destruct n|].
  destruct (Z.eqb_spec c 0); [lia|]. simpl. now rewrite IH.
Qed.

Lemma isZeroBlock_sub l i n c :
  0 <= i -> sub l i n !! O = Some c -> c <> 0 -> isZeroBlock l = false.
Proof.
  intros Hi H Hc. rewrite sub_lookup in H by done. case_bool_decide; [|done].
  apply not_true_is_false. intros Hz. unfold isZeroBlock in Hz.
  rewrite forallb_forall in Hz. apply list_elem_of_lookup_2, list_elem_of_In, Hz in H. lia.
Qed.

Lemma header_fields_length name size : length (header_fields name size) = 512%nat.
Proof. unfold header_fields. now rewrite !memcpy_length. Qed.

Lemma header_fields_bytes name size :
  name_ok name -> Forall byte_ok size -> Forall byte_ok (header_fields name size).
Proof.
  intros Hn Hs. unfold header_fields. repeat apply memcpy_bytes; try done.
  all: try (repeat constructor; lia).
  apply Forall_take. eapply Forall_impl; [exact Hn|]. unfold byte_ok. simpl. lia.
Qed.

(** The fields are not overlapped by later copies. *)
Lemma header_name name size :
  name_ok name -> length size = 11%nat -> sliceTo (sub (header_fields name size) 0 100) = take 99 name.
Proof.
  intros Hn Hs. unfold header_fields. cbv zeta.
  do 11 (rewrite sub_memcpy_ne; [|lia|unfold Zlen; rewrite ?Hs; simpl; lia]).
  set (l := take _ name). assert (Hl : l = take 99 name).
  { unfold l. destruct (Nat.le_gt_cases (length name) 99).
    - rewrite Nat.min_l, !take_ge by lia. done.
    - now rewrite Nat.min_r by lia. }
  rewrite Hl. assert (Hlen : (length (take 99 name) <= 99)%nat) by (rewrite length_take; lia).
  set (t := take 99 name) in *. unfold memcpy_at.
  replace (replicate 512 0) with (replicate (length t) 0 ++ replicate (512 - length t) 0)
    by (rewrite <- replicate_add; f_equal; lia).
  rewrite list_inserts_0_r by now rewrite length_replicate.
  unfold sub. rewrite drop_0, take_app_ge by (simpl; lia). rewrite take_replicate.
  apply sliceTo_zeros. unfold t. now apply Forall_take.
Qed.

Lemma header_size name size :
  length size = 11%nat -> sub (header_fields name size) 124 12 = size ++ [32].
Proof.
  intros Hs. unfold header_fields. cbv zeta.
  do 6 (rewrite sub_memcpy_ne; [|lia|unfold Zlen; rewrite ?Hs; simpl; lia]).
  match goal with |- sub (memcpy_at 135 _ (memcpy_at 124 _ ?h)) _ _ = _ => set (h0 := h) end.
  replace (memcpy_at 135 [32] (memcpy_at 124 size h0)) with (memcpy_at 124 (size ++ [32]) h0)
    by (unfold memcpy_at; rewrite list_inserts_app_l; now rewrite Hs).
  apply sub_memcpy_same; [done|unfold Zlen; rewrite length_app, Hs; done|].
  unfold h0. rewrite !memcpy_length, length_replicate, length_app, Hs. simpl. lia.
Qed.

Lemma header_mode name size :
  length size = 11%nat -> sub (header_fields name size) 100 8 = bytes_of "0000644" ++ [0].
Proof.
  intros Hs. unfold header_fields. cbv zeta.
  do 10 (rewrite sub_memcpy_ne; [|lia|unfold Zlen; rewrite ?Hs; simpl; lia]).
  apply sub_memcpy_same; [done..|]. rewrite memcpy_length, length_replicate. simpl. lia.
Qed.

(** An entry that is written is a header the lookup understands, the data and
    the padding. *)
Lemma writeEntry_ret name data out :
  name_ok name -> Zlen data < 8 ^ 11 ->
  exists hdr, writeEntry name data out = Ret tt (out ++ hdr ++ data ++ padding data) /\
  entry_header hdr name data.
Proof.
  intros Hn Hd. unfold writeEntry.
  erewrite bind_ret by (apply print_octal_ret; exact Hd).
  set (size := octal 11 (Zlen data)). assert (Hs : length size = 11%nat) by apply octal_length.
  set (h := header_fields name size). cbv zeta.
  assert (Hlen : length h = 512%nat) by apply header_fields_length.
  pose proof (sum_bytes_bound h (header_fields_bytes _ _ Hn (octal_bytes _ _))) as Hsum.
  unfold Zlen in Hsum. rewrite Hlen in Hsum.
  erewrite bind_ret by (apply print_octal_ret; simpl; lia).
  set (ck := octal 6 (sum_bytes h)). assert (Hck : length ck = 6%nat) by apply octal_length.
  set (hdr := memcpy_at 155 _ _). exists hdr. split.
  - unfold out_write, padding. unst. destruct (negb _); rewrite <- !app_assoc, ?app_nil_r; done.
  - assert (Hsub : forall i n, 0 <= i -> i + n <= 148 -> sub hdr i n = sub h i n).
    { intros i n Hi Hin. unfold hdr.
      do 3 (rewrite sub_memcpy_ne; [|lia|unfold Zlen; rewrite ?Hck; simpl; lia]). done. }
    split; [unfold hdr; now rewrite !memcpy_length|]. split; [|split].
    + eapply (isZeroBlock_sub _ 100 8 48); [lia|rewrite Hsub by lia|lia].
      unfold h. now rewrite header_mode.
    + rewrite Hsub by lia. now apply header_name.
    + rewrite Hsub by lia. unfold h. rewrite header_size by done.
      apply parseOctal_print. split; [apply Zlen_nonneg|exact Hd].
Qed.

(** Rounding a size up to whole blocks counts the padding. *)
Lemma alignUp512_spec n : 0 <= n -> alignUp512 n = (n + 511) / 512 * 512.
Proof.
  intros H. unfold alignUp512. change (Z.lnot 511) with (Z.lnot (Z.ones 9)).
  rewrite <- Z.ldiff_land, Z.ldiff_ones_r, Z.shiftr_div_pow2, Z.shiftl_mul_pow2 by lia. done.
Qed.

Lemma padding_align data : Zlen data + Zlen (padding data) = alignUp512 (Zlen data).
Proof.
  pose proof (Zlen_nonneg data). rewrite alignUp512_spec by done. unfold padding.
  pose proof (Z.div_mod (Zlen data) 512 ltac:(lia)).
  pose proof (Z.mod_pos_bound (Zlen data) 512 ltac:(lia)).
  set (q := Zlen data / 512) in *. set (r := Zlen data mod 512) in *.
  destruct (Z.eqb_spec r 0) as [E|E]; simpl negb; cbv iota.
  - change (Zlen []) with 0. replace (Zlen data + 511) with (511 + q * 512) by lia.
    rewrite Z.div_add by lia. change (511 / 512) with 0. lia.
  - rewrite Zlen_replicate. replace (Zlen data + 511) with ((r - 1) + (q + 1) * 512) by lia.
    rewrite Z.div_add, Z.div_small by lia. lia.
Qed.

(** ** The lookup *)

(** With enough fuel the loop is the loop of the source: the fuel does not show. *)
Lemma find_from_fuel bytes name : forall f f' offset,
  0 <= offset -> Zlen bytes - offset <= Z.of_nat f -> Zlen bytes - offset <= Z.of_nat f' ->
  find_from f bytes name offset = find_from f' bytes name offset.
Proof.
  induction f as [|f IH]; intros [|f'] offset Ho Hf Hf'; cbn [find_from]; try done;
    (destruct (Z.leb_spec (offset + 512) (Zlen bytes)) as [Hle|]; [|done]); try lia.
  destruct (isZeroBlock _); [done|]. cbv zeta. set (size := parseOctal _).
  assert (Hsz : 0 <= size) by now apply parse_octal_nonneg.
  destruct (Z.ltb_spec (Zlen bytes - (offset + 512)) size); [done|].
  case_bool_decide; [done|].
  assert (0 <= alignUp512 size) by (rewrite alignUp512_spec by done; pose proof (Z.div_pos (size + 511) 512); lia).
  apply IH; lia.
Qed.

(** What is found lies inside the archive. *)
Lemma find_from_slice bytes name : forall f offset data,
  0 <= offset -> find_from f bytes name offset = Some data ->
  exists start, offset + 512 <= start /\ start + Zlen data <= Zlen bytes /\
  data = sub bytes start (Zlen data).
Proof.
  induction f as [|f IH]; intros offset data Ho H; cbn [find_from] in H; [done|].
  destruct (Z.leb_spec (offset + 512) (Zlen bytes)); [|done]. destruct (isZeroBlock _); [done|].
  cbv zeta in H. set (size := parseOctal _) in *.
  assert (Hsz : 0 <= size) by now apply parse_octal_nonneg.
  destruct (Z.ltb_spec (Zlen bytes - (offset + 512)) size); [done|].
  case_bool_decide.
  - injection H as <-. exists (offset + 512).
    assert (E : Zlen (sub bytes (offset + 512) size) = size)
      by (unfold Zlen at 1; rewrite sub_length by lia; lia).
    rewrite E. split; [lia|]. split; [lia|done].
  - assert (0 <= alignUp512 size)
      by (rewrite alignUp512_spec by done; pose proof (Z.div_pos (size + 511) 512); lia).
    apply IH in H as (start & Hs & Hr); [|lia]. exists start. split; [lia|done].
Qed.

(** The files an archive holds, in order, and the first one under a name; names
    are cut to 99 bytes. *)
Fixpoint archive_lookup (nm : list Z) (es : list (list Z * list Z)) : option (list Z) :=
  match es with
  | [] => None
  | (n, d) :: es' => if bool_decide (take 99 n = nm) then Some d else archive_lookup nm es'
  end.

(** [body] is a sequence of entries for [es] and the end mark. *)
Fixpoint archive_of (body : list Z) (es : list (list Z * list Z)) : Prop :=
  match es with
  | [] => body = replicate 1024 0
  | (n, d) :: es' =>
      exists hdr rest, body = hdr ++ d ++ padding d ++ rest /\ entry_header hdr n d /\
      archive_of rest es'
  end.

Lemma find_archive nm es : forall body pre f,
  archive_of body es -> Zlen body <= Z.of_nat f ->
  find_from f (pre ++ body) nm (Zlen pre) = archive_lookup nm es.
Proof.
  induction es as [|[n d] es IH]; intros body pre f Hb Hf; cbn [archive_of archive_lookup] in *.
  - subst body. rewrite Zlen_replicate in Hf. destruct f as [|f]; [lia|]. cbn [find_from].
    rewrite Zlen_app, Zlen_replicate. destruct (Z.leb_spec (Zlen pre + 512) (Zlen pre + Z.of_nat 1024)); [|lia].
    rewrite sub_app_r, Z.sub_diag by lia. done.
  - destruct Hb as (hdr & rest & -> & (Hl & Hz & Hn & Hs) & Hrest).
    assert (Hl' : Zlen hdr = 512) by (unfold Zlen; lia).
    pose proof (Zlen_nonneg d). pose proof (Zlen_nonneg (padding d)). pose proof (Zlen_nonneg rest).
    rewrite !Zlen_app in Hf. destruct f as [|f]; [lia|]. cbn [find_from]. cbv zeta. rewrite !Zlen_app.
    destruct (Z.leb_spec (Zlen pre + 512) (Zlen pre + (Zlen hdr + (Zlen d + (Zlen (padding d) + Zlen rest)))));
      [|lia].
    rewrite (sub_app_r pre _ (Zlen pre)), Z.sub_diag by lia.
    rewrite (sub_app_l hdr), (sub_all hdr), Hz, Hn, Hs by lia.
    destruct (Z.ltb_spec (Zlen pre + (Zlen hdr + (Zlen d + (Zlen (padding d) + Zlen rest))) - (Zlen pre + 512)) (Zlen d)); [lia|].
    case_bool_decide; [f_equal|].
    + rewrite !sub_app_r by lia.
      replace (Zlen pre + 512 - Zlen pre - Zlen hdr) with 0 by lia.
      rewrite sub_app_l by lia. now apply sub_all.
    + rewrite <- padding_align, !app_assoc.
      replace (Zlen pre + (512 + (Zlen d + Zlen (padding d))))
        with (Zlen (((pre ++ hdr) ++ d) ++ padding d)) by (rewrite !Zlen_app; lia).
      apply IH; [done|lia].
Qed.

(** The files named by the arguments of the builder. *)
Fixpoint named_files (read_file : list Z -> option (list Z)) (args : list (list Z)) :
    option (list (list Z * list Z)) :=
  match args with
  | name :: path :: rest =>
      data ← read_file path; es ← named_files read_file rest; Some ((name, data) :: es)
  | _ => Some []
  end.

(** A file the format can hold: its size has at most 11 octal digits. *)
Definition packable (e : list Z * list Z) : Prop := name_ok e.1 /\ Zlen e.2 < 8 ^ 11.

Lemma pack_ret read_file es : forall args out,
  named_files read_file args = Some es -> Forall packable es ->
  exists body, pack read_file args out = Ret tt (out ++ body) /\
  archive_of (body ++ replicate 1024 0) es.
Proof.
  induction es as [|[n d] es IH]; intros [|name [|path rest]] out Hes Hp; cbn [named_files pack] in *;
    try (exists []; rewrite app_nil_r; done).
  - destruct (read_file path); [|done]. simpl in Hes. now destruct (named_files _ rest).
  - destruct (read_file path) as [data|]; [|done]. simpl in Hes.
    destruct (named_files read_file rest) as [es'|] eqn:E; [|done]. simpl in Hes.
    injection Hes as -> -> ->. inversion_clear Hp as [|? ? [Hn Hd] Hp'].
    destruct (writeEntry_ret n d out Hn Hd) as (hdr & Ew & Hh).
    destruct (IH rest (out ++ hdr ++ d ++ padding d) E Hp') as (body & Ep & Hb).
    exists (hdr ++ d ++ padding d ++ body). erewrite bind_ret by exact Ew. rewrite Ep. split.
    + now rewrite <- !app_assoc.
    + exists hdr, (body ++ replicate 1024 0). rewrite <- !app_assoc. done.
Qed.

Lemma initfs_builder_ret read_file args es :
  Zlen args mod 2 = 0 -> named_files read_file args = Some es -> Forall packable es ->
  exists a, initfs_builder read_file args [] = Ret tt a /\ archive_of a es.
Proof.
  intros Ha He Hp. unfold initfs_builder. rewrite Ha, andb_false_r.
  destruct (pack_ret read_file es args [] He Hp) as (body & E & Hb).
  erewrite bind_ret by exact E. simpl in *. now eexists.
Qed.

Lemma findFileIn_archive a es nm : archive_of a es -> findFileIn a nm = archive_lookup nm es.
Proof. intros H. unfold findFileIn. apply (find_archive nm es a [] (length a) H). unfold Zlen. lia. Qed.

(** The archive the builder writes for a list of names and files is found
    again by the lookup of the kernel: a name gives the data of the first file
    packed under it, whole and unchanged, and a name that was not packed gives
    nothing.  Names are cut to 99 bytes when they are packed, so a longer one is
    found under its first 99 bytes only. *)
Theorem initfs_roundtrip read_file args es nm :
  Zlen args mod 2 = 0 -> named_files read_file args = Some es -> Forall packable es ->
  exists a, initfs_builder read_file args [] = Ret tt a /\
  findFileIn a nm = archive_lookup nm es.
Proof.
  intros Ha He Hp. destruct (initfs_builder_ret read_file args es Ha He Hp) as (a & E & H).
  exists a. split; [exact E|]. now apply findFileIn_archive.
Qed.

(** The lookup is safe on every sequence of bytes, well formed or not: the
    loop ends, whatever fuel beyond the length of the archive it is given, and
    a result is a slice of the archive behind a header of 512 bytes. *)
Theorem findFileIn_safe bytes name fuel :
  (length bytes <= fuel)%nat ->
  find_from fuel bytes name 0 = findFileIn bytes name /\
  match findFileIn bytes name with
  | None => True
  | Some data => exists start, 512 <= start /\ start + Zlen data <= Zlen bytes /\
                 data = sub bytes start (Zlen data)
  end.
Proof.
  intros Hf. split; [apply find_from_fuel; unfold Zlen; lia|].
  destruct (findFileIn bytes name) as [data|] eqn:E; [|done].
  exact (find_from_slice bytes name _ 0 data (Z.le_refl 0) E).
Qed.

(** *** The theorems at concrete inputs *)

(** Two files under the names "readme" and "empty". *)
Definition demo_file (path : list Z) : option (list Z) :=
  if bool_decide (path = bytes_of "a") then Some (bytes_of "hello")
  else if bool_decide (path = bytes_of "b") then Some []
  else None.

Definition demo_args : list (list Z) :=
  [bytes_of "readme"; bytes_of "a"; bytes_of "empty"; bytes_of "b"].

Definition demo_entries : list (list Z * list Z) :=
  [(bytes_of "readme", bytes_of "hello"); (bytes_of "empty", [])].

Lemma demo_packable : Forall packable demo_entries.
Proof. repeat constructor; simpl; lia. Qed.

Lemma initfs_roundtrip_witness :
  exists a, initfs_builder demo_file demo_args [] = Ret tt a /\
  findFileIn a (bytes_of "readme") = Some (bytes_of "hello").
Proof.
  apply (initfs_roundtrip demo_file demo_args demo_entries);
    [reflexivity|reflexivity|exact demo_packable].
Defined.

Lemma findFileIn_safe_witness :
  find_from 2000 (replicate 600 49) (bytes_of "x") 0 = findFileIn (replicate 600 49) (bytes_of "x") /\
  match findFileIn (replicate 600 49) (bytes_of "x") with
  | None => True
  | Some data => exists start, 512 <= start /\ start + Zlen data <= Zlen (replicate 600 49) /\
                 data = sub (replicate 600 49) start (Zlen data)
  end.
Proof. apply (findFileIn_safe (replicate 600 49) (bytes_of "x") 2000). apply Nat.leb_le. reflexivity. Defined.
