(* ===== verification/Wad.v ===== *)
(** * Opening the WAD

    [fopen] of the WAD reads the data disk: the header, the size computed from
    it, the contents in chunks, and the diagnostics that are printed on the way.
    The theorem is end to end: the stream stands for the first bytes of the
    disk, the console shows the report of its directory, and no memory of the
    program changes but the local arrays of [load_from_disk] and the buffer of
    [printf]. *)

From S2P Require Import Prelude Machine Memory CString Compare Process TestKernel Initfs.
From S2P Require Import Format FormatCorrect Stdio HeapAlloc Files.

(** ** The WAD format *)

Definition lump_count (d : list Z) : Z := le_decode (sub d 4 4).
Definition info_ofs (d : list Z) : Z := le_decode (sub d 8 4).
Definition wad_size (d : list Z) : Z := Z.max 12 (info_ofs d + lump_count d * 16).

(** A disk that holds a WAD: the header, the directory it points to, and a nul
    somewhere in the two numbers, which ends the magic for [printf]. *)
Definition wad_ok (d : list Z) : Prop :=
  wad_size d <= Zlen d /\ 0 ∈ sub d 4 8 /\ Forall byte_ok d.

Lemma header_range d : wad_ok d -> 12 <= Zlen d /\ 0 <= lump_count d < 2 ^ 32 /\ 0 <= info_ofs d < 2 ^ 32.
Proof.
  intros (Hs & _ & Hb). assert (12 <= Zlen d) by (unfold wad_size in Hs; lia). split; [done|].
  assert (Hf : forall i, 0 <= i <= 8 -> 0 <= le_decode (sub d i 4) < 2 ^ 32).
  { intros i Hi. pose proof (le_decode_range (sub d i 4) (sub_bytes d i 4 Hb)) as Hr.
    replace (Zlen (sub d i 4)) with 4 in Hr; [exact Hr|].
    unfold Zlen. rewrite sub_length by lia. done. }
  split; apply Hf; lia.
Qed.

(** The name field of directory entry [i], and whether a name occurs. *)
Definition lump_name (d : list Z) (i : Z) : list Z := sub d (info_ofs d + u32 (i * 16) + 8) 8.

Definition has_lump (d : list Z) (n : nat) (name : list Z) : bool :=
  existsb (fun i => bool_decide (lump_name d (Z.of_nat i) = name)) (seq 0 n).

(** ** The diagnostics *)

Definition str_n (digits : list Z) : item := Dir (Directive [] (Digits []) (Some (Digits digits)) No_mod Conv_s).
Definition size_t_u : item := Dir (Directive [] (Digits []) None Mod_z Conv_u).

Definition loaded_format : list item :=
  lits (bytes_of "doom: loaded WAD from disk: ") ++ [size_t_u] ++ lits (bytes_of " bytes (") ++
  [plain Conv_u] ++ lits (bytes_of " lumps)" ++ [10]).
Definition magic_format : list item :=
  lits (bytes_of "doom: WAD magic=[") ++ [str_n [52]] ++ lits (bytes_of "] first lumps:").
Definition lump_format : list item := lits (bytes_of " [") ++ [str_n [56]] ++ lits (bytes_of "]").
Definition texture_format : list item :=
  lits (bytes_of "doom: TEXTURE1 in raw WAD: ") ++ [plain Conv_s] ++ lits (bytes_of "  TEXTURE2: ") ++
  [plain Conv_s] ++ lits [10].
Definition newline_format : list item := lits [10].

Lemma formats_shown :
  show_format loaded_format = bytes_of "doom: loaded WAD from disk: %zu bytes (%u lumps)" ++ [10] /\
  show_format magic_format = bytes_of "doom: WAD magic=[%.4s] first lumps:" /\
  show_format lump_format = bytes_of " [%.8s]" /\
  show_format texture_format = bytes_of "doom: TEXTURE1 in raw WAD: %s  TEXTURE2: %s" ++ [10] /\
  show_format newline_format = [10].
Proof. repeat split. Qed.

Definition decimal_digits (n : Z) : list Z := number_digits 10 false None n.

Definition yes_no_text (b : bool) : list Z := if b then bytes_of "YES" else bytes_of "NO".

Definition loaded_text (d : list Z) : list Z :=
  bytes_of "doom: loaded WAD from disk: " ++ decimal_digits (wad_size d) ++ bytes_of " bytes (" ++
  decimal_digits (lump_count d) ++ bytes_of " lumps)" ++ [10].
Definition magic_text (d : list Z) : list Z :=
  bytes_of "doom: WAD magic=[" ++ take 4 (sliceTo (sub d 0 12)) ++ bytes_of "] first lumps:".
Definition lump_text (name : list Z) : list Z := bytes_of " [" ++ sliceTo name ++ bytes_of "]".
Definition lumps_text (d : list Z) (n : nat) : list Z :=
  concat ((fun i => lump_text (lump_name d (Z.of_nat i))) <$> seq 0 n).
Definition texture_text (t1 t2 : bool) : list Z :=
  bytes_of "doom: TEXTURE1 in raw WAD: " ++ yes_no_text t1 ++ bytes_of "  TEXTURE2: " ++
  yes_no_text t2 ++ [10].

(** What [fopen] prints about the WAD [d]. *)
Definition wad_report (d : list Z) : list Z :=
  let n := Z.to_nat (lump_count d) in
  loaded_text d ++ magic_text d ++ lumps_text d (Nat.min n 5) ++
  texture_text (has_lump d n (bytes_of "TEXTURE1")) (has_lump d n (bytes_of "TEXTURE2")) ++ [10].

(** ** Evaluation of the formats *)

Lemma eval_size_u strs x f args o :
  eval_format strs f args = Some o ->
  eval_format strs ([size_t_u] ++ f) (x :: args) = Some (decimal_digits (u64 x) ++ o).
Proof.
  intros Ho. unfold size_t_u, decimal_digits.
  cbn [app eval_format eval_directive d_width d_prec d_flags d_mod d_conv eval_width eval_prec
       mbind option_bind eval_conv pop wide existsb orb].
  unfold checked_number. cbn [default Z.leb Z.compare mbind option_bind]. rewrite Ho.
  cbn [mbind option_bind]. unfold number_text, spaces.
  cbn [andb dec_value fold_left app]. rewrite Z2Nat.nonpos; [done|].
  pose proof (Zlen_nonneg (number_digits 10 false None (u64 x))). change (Zlen []) with 0. lia.
Qed.

Lemma eval_str_n strs ds p t f args o :
  strs !! p = Some t -> 0 < p < 2 ^ 64 -> eval_format strs f args = Some o ->
  eval_format strs ([str_n ds] ++ f) (p :: args) = Some (take (Z.to_nat (dec_value ds)) t ++ o).
Proof.
  intros Ht Hp Ho. unfold str_n.
  cbn [app eval_format eval_directive d_width d_prec d_flags d_mod d_conv eval_width eval_prec
       mbind option_bind eval_conv pop wide existsb orb].
  unfold string_arg. rewrite u64_id by lia. destruct (Z.eqb_spec p 0); [lia|]. rewrite Ht.
  cbn [mbind option_bind cut]. rewrite Ho. cbn [mbind option_bind].
  change (dec_value []) with 0. now rewrite string_text_0.
Qed.

Lemma eval_end strs l : eval_format strs (lits l) [] = Some l.
Proof.
  pose proof (eval_lits strs l [] [] [] eq_refl) as H. now rewrite !app_nil_r in H.
Qed.

Lemma eval_loaded n c :
  eval_format ∅ loaded_format [n; c] =
  Some (bytes_of "doom: loaded WAD from disk: " ++ decimal_digits (u64 n) ++ bytes_of " bytes (" ++
        decimal_digits (u32 c) ++ bytes_of " lumps)" ++ [10]).
Proof. unfold loaded_format. apply eval_lits, eval_size_u, eval_lits, eval_plain_u, eval_end. Qed.

Lemma eval_magic p t : 0 < p < 2 ^ 64 ->
  eval_format {[p := t]} magic_format [p] =
  Some (bytes_of "doom: WAD magic=[" ++ take 4 t ++ bytes_of "] first lumps:").
Proof.
  intros Hp. unfold magic_format. apply eval_lits, (eval_str_n _ [52] p t); [|done|apply eval_end].
  apply lookup_singleton_eq.
Qed.

Lemma eval_lump p t : 0 < p < 2 ^ 64 -> (length t <= 8)%nat ->
  eval_format {[p := t]} lump_format [p] = Some (bytes_of " [" ++ t ++ bytes_of "]").
Proof.
  intros Hp Ht. unfold lump_format. rewrite <- (take_ge t 8) at 2 by done.
  apply eval_lits, (eval_str_n _ [56] p t); [|done|apply eval_end]. apply lookup_singleton_eq.
Qed.

Lemma eval_texture strs p q t1 t2 :
  strs !! p = Some (yes_no_text t1) -> strs !! q = Some (yes_no_text t2) ->
  0 < p < 2 ^ 64 -> 0 < q < 2 ^ 64 ->
  eval_format strs texture_format [p; q] = Some (texture_text t1 t2).
Proof.
  intros H1 H2 Hp Hq. unfold texture_format, texture_text.
  apply eval_lits, eval_plain_s; [done..|]. apply eval_lits, eval_plain_s; [done..|]. apply eval_end.
Qed.

(** ** The memory of the program *)

Section wad.
Context {K : Kernel} {KL : KernelLaws K} {D : KernelData K} {L : Layout}.
Context (Hprog : write_progress).

(** The arrays [load_from_disk] and [printf] write to.  The code reads 12 bytes
    of [header], which has 8. *)
Definition scratch : list (Z * Z) :=
  [(loc_header, 12); (loc_hdr12, 12); (loc_name, 9); (printf_buf, 4096)].

Definition in_scratch (q : Z) : bool := existsb (in_region q) scratch.

Definition wad_literals : list (list Z) :=
  WAD_NAMES ++ [show_format loaded_format; show_format magic_format; show_format lump_format;
                show_format texture_format; show_format newline_format;
                bytes_of "YES"; bytes_of "NO"; bytes_of "TEXTURE1"; bytes_of "TEXTURE2"].

Definition literal_at (m : mem) (w : list Z) : Prop :=
  cstr m (lit w) w /\ forall q, lit w <= q < lit w + Zlen w + 1 -> in_scratch q = false.

(** An image in which the arrays are mapped and apart from each other, and the
    literals are in place. *)
Record wad_image (m : mem) : Prop := {
  wi_ok : mem_ok m;
  wi_scratch : Forall (fun r => mapped_range m r.1 r.2) scratch;
  wi_literals : Forall (literal_at m) wad_literals;
  wi_apart1 : disjoint_ranges loc_hdr12 12 loc_name 9 = true;
  wi_apart2 : disjoint_ranges loc_hdr12 12 printf_buf 4096 = true;
  wi_apart3 : disjoint_ranges loc_name 9 printf_buf 4096 = true
}.

(** [m'] extends [m] and differs from it only in the arrays. *)
Definition keeps (m m' : mem) : Prop :=
  mem_ok m' /\ forall q, is_mapped m q = true ->
  is_mapped m' q = true /\ (in_scratch q = false -> peek m' q = peek m q).

Lemma keeps_refl m : mem_ok m -> keeps m m.
Proof. intros H. split; [done|]. auto. Qed.

Lemma keeps_trans m1 m2 m3 : keeps m1 m2 -> keeps m2 m3 -> keeps m1 m3.
Proof.
  intros [_ H1] [H2 H3]. split; [done|]. intros q Hq. destruct (H1 q Hq) as [Ha Hb].
  destruct (H3 q Ha) as [Hc Hd]. split; [done|]. intros Hs. now rewrite Hd, Hb.
Qed.

Lemma keeps_bytes m m' p l :
  keeps m m' -> bytes_at m p l -> (forall q, p <= q < p + Zlen l -> in_scratch q = false) ->
  bytes_at m' p l.
Proof.
  intros [_ Hk] Hb Hs. eapply bytes_at_ext; [|exact Hb]. intros q Hq. apply Hk; [|auto].
  now apply (bytes_at_mapped _ _ _ Hb).
Qed.

Lemma wad_image_keeps m m' : wad_image m -> keeps m m' -> wad_image m'.
Proof.
  intros [H1 H2 H3 H4 H5 H6] Hk. pose proof Hk as [Hok Hm]. split; try done.
  - eapply Forall_impl; [exact H2|]. intros r Hr q Hq. apply Hm. now apply Hr.
  - eapply Forall_impl; [exact H3|]. intros w [[Hw Hn] Hs]. split; [|done]. split; [|done].
    eapply keeps_bytes; [exact Hk|exact Hw|]. rewrite Zlen_app. change (Zlen [0]) with 1. intros q Hq.
    apply Hs. lia.
Qed.

(** Writing inside an array of the scratch area. *)
Lemma scratch_in r p n : In r scratch -> r.1 <= p -> p + n <= r.1 + r.2 ->
  forall q, p <= q < p + n -> in_scratch q = true.
Proof.
  intros Hr H1 H2 q Hq. unfold in_scratch. rewrite existsb_exists. exists r. split; [done|].
  unfold in_region. lia.
Qed.

Lemma scratch_mapped m r : wad_image m -> In r scratch -> mapped_range m r.1 r.2.
Proof. intros H Hr. pose proof (wi_scratch m H) as Hs. rewrite List.Forall_forall in Hs. auto. Qed.

Lemma keeps_poke m r p l :
  wad_image m -> In r scratch -> r.1 <= p -> p + Zlen l <= r.1 + r.2 ->
  keeps m (poke_list m p l) /\ mapped_range m p (Zlen l).
Proof.
  intros Hi Hr H1 H2. pose proof (Zlen_nonneg l).
  assert (Hm : mapped_range m p (Zlen l)).
  { eapply mapped_range_sub; [now apply (scratch_mapped m r)|lia..]. }
  split; [|done]. split; [apply mem_ok_poke_list; [apply Hi|done]|]. intros q Hq.
  rewrite is_mapped_poke_list. split; [done|]. intros Hs. apply peek_poke_list_out.
  destruct (Z_lt_le_dec q p); [lia|]. destruct (Z_lt_le_dec q (p + Zlen l)); [|lia].
  rewrite (scratch_in r p (Zlen l) Hr H1 H2 q) in Hs by lia. done.
Qed.

(** A literal of the image. *)
Lemma literal_in m w : wad_image m -> In w wad_literals -> literal_at m w.
Proof. intros H Hw. pose proof (wi_literals m H) as Hs. rewrite List.Forall_forall in Hs. auto. Qed.

(** Nothing of the scratch area lies in a literal. *)
Lemma literal_apart m w r :
  wad_image m -> In w wad_literals -> In r scratch -> 0 < r.2 ->
  lit w + Zlen w + 1 <= r.1 \/ r.1 + r.2 <= lit w.
Proof.
  intros Hi Hw Hr Hp. destruct (literal_in m w Hi Hw) as [_ Hs]. pose proof (Zlen_nonneg w).
  destruct (Z_le_gt_dec (lit w + Zlen w + 1) r.1); [now left|].
  destruct (Z_le_gt_dec (r.1 + r.2) (lit w)); [now right|]. exfalso.
  assert (E : in_scratch (Z.max (lit w) r.1) = true).
  { eapply (scratch_in r r.1 r.2); [done|lia..]. }
  rewrite Hs in E by lia. done.
Qed.

(** ** Steps of the report

    [goes s s' out]: the process goes from [s] to [s'], printing [out]. *)

Record goes (s s' : proc) (out : list Z) : Prop := {
  g_mem : keeps (p_mem s) (p_mem s');
  g_files : p_files s' = p_files s;
  g_heap : p_heap s' = p_heap s;
  g_console : console (p_kst s') = console (p_kst s) ++ out;
  g_media : same_media (p_kst s) (p_kst s')
}.

Lemma same_media_trans k1 k2 k3 : same_media k1 k2 -> same_media k2 k3 -> same_media k1 k3.
Proof. intros [D1 I1] [D2 I2]. split; [congruence|]. intros nm. now rewrite I2, I1. Qed.

Lemma goes_refl s : mem_ok (p_mem s) -> goes s s [].
Proof. intros H. split; [now apply keeps_refl|done|done|now rewrite app_nil_r|done]. Qed.

Lemma goes_trans s1 s2 s3 o1 o2 : goes s1 s2 o1 -> goes s2 s3 o2 -> goes s1 s3 (o1 ++ o2).
Proof.
  intros [A1 B1 C1 D1 E1] [A2 B2 C2 D2 E2]. split.
  - eapply keeps_trans; eassumption.
  - congruence.
  - congruence.
  - now rewrite D2, D1, app_assoc.
  - eapply same_media_trans; eassumption.
Qed.

Lemma goes_image s s' o : wad_image (p_mem s) -> goes s s' o -> wad_image (p_mem s').
Proof. intros Hi Hg. eapply wad_image_keeps; [exact Hi|apply Hg]. Qed.

(** A write to the scratch area is a silent step. *)
Lemma goes_poke s r p l :
  wad_image (p_mem s) -> In r scratch -> r.1 <= p -> p + Zlen l <= r.1 + r.2 ->
  goes s (set_mem (poke_list (p_mem s) p l) s) [].
Proof.
  intros Hi Hr H1 H2. destruct (keeps_poke _ r p l Hi Hr H1 H2) as [Hk _].
  split; [done..|now rewrite app_nil_r|done].
Qed.

(** Printing a message of the report. *)
Lemma wad_print s f args strs out :
  wad_image (p_mem s) -> In (show_format f) wad_literals -> forallb item_okb f = true ->
  eval_format strs f args = Some out -> Zlen out <= 4095 ->
  strings_at (p_mem s) printf_buf 4096 strs ->
  exists s', printf (lit (show_format f)) args s = Ret (Zlen out) s' /\ goes s s' out /\
  (forall q, q < printf_buf \/ printf_buf + 4096 <= q -> peek (p_mem s') q = peek (p_mem s) q).
Proof.
  intros Hi Hl Hf He Hmax Hs. assert (Hr : In (printf_buf, 4096) scratch) by (simpl; auto).
  destruct (vprintf_ret Hprog s (lit (show_format f)) f args strs out) as (s' & E & P).
  { split; [apply Hi|]. split; [done|]. split; [apply (literal_in _ _ Hi Hl)|]. split; [done|].
    split; [unfold INT_MAX; lia|]. split; [now apply (scratch_mapped _ (printf_buf, 4096))|].
    split; [|done]. now apply (literal_apart _ _ (printf_buf, 4096) Hi Hl). }
  rewrite take_ge in P by (unfold Zlen in *; lia). exists s'. split; [exact E|].
  destruct P as (k' & -> & Hc & Hm). cbn [p_kst set_mem] in Hc, Hm.
  assert (Hlen : Zlen (out ++ [0]) <= 4096) by (rewrite Zlen_app; change (Zlen [0]) with 1; lia).
  split.
  - destruct (goes_poke s (printf_buf, 4096) printf_buf (out ++ [0]) Hi Hr) as [A1 A2 A3 _ _];
      [simpl; lia|simpl; lia|]. split; try done.
  - intros q Hq. simpl. apply peek_poke_list_out. lia.
Qed.

Lemma strings_none m p n : strings_at m p n ∅.
Proof. apply map_Forall_empty. Qed.

Lemma strings_one m p n q t :
  cstr m q t -> (q + Zlen t + 1 <= p \/ p + n <= q) -> strings_at m p n {[q := t]}.
Proof. intros Hc Hd. apply map_Forall_singleton. done. Qed.

(** The part of a terminated field up to its first nul. *)
Lemma cstr_field m p l : bytes_at m p (l ++ [0]) -> cstr m p (sliceTo l).
Proof.
  revert p. induction l as [|c l IH]; intros p Hb; cbn [app bytes_at] in Hb.
  - destruct Hb as [Hb _]. now apply cstr_nil.
  - destruct Hb as [Hc Hb]. unfold sliceTo. cbn [take_while].
    destruct (Z.eqb_spec c 0) as [->|Hne]; cbn [negb]; [now apply cstr_nil|].
    apply cstr_cons. split; [done|]. split; [done|]. now apply IH.
Qed.

Lemma sliceTo_length l : (length (sliceTo l) <= length l)%nat.
Proof.
  unfold sliceTo. induction l as [|c l IH]; simpl; [lia|]. destruct (negb _); simpl; lia.
Qed.

Lemma sliceTo_lt l : 0 ∈ l -> (length (sliceTo l) < length l)%nat.
Proof.
  unfold sliceTo. induction l as [|c l IH]; intros H; [set_solver|]. simpl.
  destruct (Z.eqb_spec c 0); simpl; [lia|]. assert (Hl : 0 ∈ l) by set_solver. specialize (IH Hl). lia.
Qed.

Lemma sub_join0 l n k : 0 <= n -> 0 <= k -> sub l 0 n ++ sub l n k = sub l 0 (n + k).
Proof.
  intros. unfold sub. rewrite drop_0, Z2Nat.inj_add by lia. apply take_take_drop.
Qed.

(** ** The directory *)

Lemma bytes_at_sub m p l i n :
  bytes_at m p l -> 0 <= i -> 0 <= n -> i + n <= Zlen l -> bytes_at m (p + i) (sub l i n).
Proof.
  intros Hb Hi Hn Hl. unfold sub. rewrite <- (take_drop (Z.to_nat i) l), bytes_at_app in Hb.
  destruct Hb as [_ Hb]. replace (p + Zlen (take (Z.to_nat i) l)) with (p + i) in Hb
    by (unfold Zlen in *; rewrite length_take; lia).
  rewrite <- (take_drop (Z.to_nat n) (drop _ l)), bytes_at_app in Hb. apply Hb.
Qed.

Lemma sub_take l k i n :
  0 <= i -> 0 <= n -> i + n <= k -> sub (take (Z.to_nat k) l) i n = sub l i n.
Proof.
  intros. unfold sub. rewrite skipn_firstn_comm, take_take. f_equal. lia.
Qed.

Lemma sub_prefix l k i n : 0 <= i -> 0 <= n -> i + n <= k -> sub (sub l 0 k) i n = sub l i n.
Proof. intros. unfold sub at 2. rewrite drop_0. now apply sub_take. Qed.

Lemma first_difference (l1 l2 : list Z) :
  length l1 = length l2 -> l1 <> l2 ->
  exists pre x y r1 r2, l1 = pre ++ x :: r1 /\ l2 = pre ++ y :: r2 /\ x <> y.
Proof.
  revert l2. induction l1 as [|x l1 IH]; intros [|y l2] Hl Hne; try done.
  destruct (decide (x = y)) as [->|Hxy]; [|now exists [], x, y, l1, l2].
  destruct (IH l2) as (pre & a & b & r1 & r2 & -> & -> & Hab); [simpl in Hl; lia|congruence|].
  now exists (y :: pre), a, b, r1, r2.
Qed.

Section directory.
Context (d : list Z) (data : Z).
Context (Hd : wad_ok d).

Definition wad_bytes : list Z := take (Z.to_nat (wad_size d)) d.

Lemma wad_bytes_length : Zlen wad_bytes = wad_size d.
Proof. unfold wad_bytes, Zlen. rewrite length_take. destruct Hd as [H _]. unfold Zlen, wad_size in *. lia. Qed.

(** The contents of the WAD are in memory at [data], away from the scratch area. *)
Definition wad_in (s : proc) : Prop :=
  wad_image (p_mem s) /\ bytes_at (p_mem s) data wad_bytes /\
  forall q, data <= q < data + wad_size d -> in_scratch q = false.

Lemma wad_in_goes s s' o : wad_in s -> goes s s' o -> wad_in s'.
Proof.
  intros (Hi & Hb & Hs) Hg. split; [now apply (goes_image s s' o)|]. split; [|done].
  eapply keeps_bytes; [apply Hg|exact Hb|]. now rewrite wad_bytes_length.
Qed.

(** The fields of the directory are inside the contents. *)
Lemma lump_name_range i : 0 <= i < lump_count d ->
  0 <= info_ofs d + u32 (i * 16) + 8 /\ info_ofs d + u32 (i * 16) + 8 + 8 <= wad_size d.
Proof.
  intros Hi. pose proof (header_range d Hd) as (_ & _ & Ho).
  pose proof (u32_range (i * 16)). assert (u32 (i * 16) <= i * 16) by (apply Z.mod_le; lia).
  unfold wad_size. lia.
Qed.

Lemma lump_name_at s i : wad_in s -> 0 <= i < lump_count d ->
  bytes_at (p_mem s) (data + info_ofs d + u32 (i * 16) + 8) (lump_name d i) /\
  Zlen (lump_name d i) = 8.
Proof.
  intros (_ & Hb & _) Hi. pose proof (lump_name_range i Hi) as [H1 H2].
  pose proof wad_bytes_length as Hl. split.
  - unfold lump_name. rewrite <- (sub_take d (wad_size d)) by lia. fold wad_bytes.
    replace (data + info_ofs d + u32 (i * 16) + 8)
      with (data + (info_ofs d + u32 (i * 16) + 8)) by lia.
    apply bytes_at_sub; [exact Hb|lia..].
  - unfold lump_name, Zlen. destruct Hd as [Hs _]. rewrite sub_length by lia. done.
Qed.

(** The copy of a name field to the local array, terminated and printed. *)
Lemma show_one s i : wad_in s -> 0 <= i < lump_count d ->
  exists s1 s2 s', in_mem (memcpy loc_name (data + info_ofs d + u32 (i * 16) + 8) 8) s = Ret tt s1 /\
  in_mem (store8 (loc_name + 8) 0) s1 = Ret tt s2 /\
  printf (lit (show_format lump_format)) [loc_name] s2 = Ret (Zlen (lump_text (lump_name d i))) s' /\
  goes s s' (lump_text (lump_name d i)).
Proof.
  intros Hw Hi. destruct (lump_name_at s i Hw Hi) as [Hb Hl]. pose proof Hw as (Hwi & _ & Hout).
  assert (Hr : In (loc_name, 9) scratch) by (simpl; auto).
  pose proof (scratch_mapped _ _ Hwi Hr) as Hmap. cbn [fst snd] in Hmap.
  set (src := data + info_ofs d + u32 (i * 16) + 8) in *. set (nm := lump_name d i) in *.
  assert (Hdis : disjoint_ranges loc_name 8 src 8 = true).
  { destruct (lump_name_range i Hi) as [R1 R2]. unfold disjoint_ranges.
    destruct (Z_le_gt_dec (loc_name + 8) src); [lia|]. destruct (Z_le_gt_dec (src + 8) loc_name); [lia|].
    assert (E : in_scratch (Z.max src loc_name) = true) by (eapply (scratch_in (loc_name, 9) loc_name 9); simpl; auto; lia).
    rewrite Hout in E by (unfold src in *; lia). done. }
  exists (set_mem (poke_list (p_mem s) loc_name nm) s), (set_mem (poke_list (p_mem s) loc_name (nm ++ [0])) s).
  destruct (goes_poke s (loc_name, 9) loc_name (nm ++ [0]) Hwi Hr) as [G1 G2 G3 G4 G5];
    [simpl; lia|rewrite Zlen_app, Hl; change (Zlen [0]) with 1; simpl; lia|].
  assert (Hg : goes s (set_mem (poke_list (p_mem s) loc_name (nm ++ [0])) s) []) by now split.
  assert (Hat : bytes_at (poke_list (p_mem s) loc_name (nm ++ [0])) loc_name (nm ++ [0])).
  { apply bytes_at_poke_list; [now rewrite Zlen_app, Hl|]. apply Forall_app.
    split; [now apply sub_bytes, Hd|repeat constructor; lia]. }
  assert (Hlen : (length (sliceTo nm) <= 8)%nat) by (pose proof (sliceTo_length nm); unfold Zlen in Hl; lia).
  assert (Hp : 0 < loc_name < 2 ^ 64).
  { pose proof (mapped_range_bound _ loc_name 9 (wi_ok _ Hwi) ltac:(lia) Hmap). lia. }
  destruct (wad_print (set_mem (poke_list (p_mem s) loc_name (nm ++ [0])) s) lump_format [loc_name]
    {[loc_name := sliceTo nm]} (lump_text nm)) as (s' & E & Hg' & _).
  - now apply (goes_image s _ []).
  - unfold wad_literals. apply in_or_app. right. simpl. auto.
  - reflexivity.
  - now apply eval_lump.
  - unfold lump_text. rewrite !Zlen_app. unfold Zlen in *. simpl. lia.
  - apply strings_one; [now apply cstr_field|]. pose proof (wi_apart3 _ Hwi) as Ha.
    unfold disjoint_ranges in Ha. unfold Zlen in *. lia.
  - exists s'. split; [|split; [|split]].
    + apply in_mem_ret, memcpy_ret; [exact Hb|done|lia|exact Hdis|].
      eapply mapped_range_sub; [exact Hmap|lia..].
    + erewrite in_mem_ret; [|apply store8_ret; simpl; rewrite is_mapped_poke_list; apply Hmap; lia].
      simpl. unfold set_mem. simpl. do 2 f_equal. rewrite poke_list_app. now rewrite Hl.
    + exact E.
    + change (lump_text nm) with ([] ++ lump_text nm). eapply goes_trans; eassumption.
Qed.

Lemma show_lumps_loops shown : Z.of_nat shown <= lump_count d -> forall j i s,
  wad_in s -> (i + j = shown)%nat ->
  exists s', goes s s' (concat ((fun i => lump_text (lump_name d (Z.of_nat i))) <$> seq i j)) /\
  loops (fun i =>
           if i <? Z.of_nat shown then
             let entry := data + info_ofs d + u32 (i * 16) in
             (in_mem (memcpy loc_name (entry + 8) 8);;
              in_mem (store8 (loc_name + 8) 0);;
              printf (lit (bytes_of " [%.8s]")) [loc_name];;
              mret (inl (i + 1)))
           else mret (inr tt)) j (Z.of_nat i) s (Ret tt s').
Proof.
  intros Hs j. induction j as [|j IH]; intros i s Hw Hij.
  - exists s. split; [apply goes_refl, Hw|]. apply loops_stop.
    destruct (Z.ltb_spec (Z.of_nat i) (Z.of_nat shown)); [lia|done].
  - destruct (show_one s (Z.of_nat i) Hw ltac:(lia)) as (s1 & s2 & s3 & E1 & E2 & E3 & Hg).
    destruct (IH (S i) s3 (wad_in_goes _ _ _ Hw Hg) ltac:(lia)) as (s' & Hg' & Hl).
    exists s'. split; [cbn [seq fmap list_fmap concat]; eapply goes_trans; eassumption|].
    eapply loops_step; [|replace (Z.of_nat (S i)) with (Z.of_nat i + 1) in Hl by lia; exact Hl].
    destruct (Z.ltb_spec (Z.of_nat i) (Z.of_nat shown)); [|lia]. cbv zeta.
    erewrite bind_ret by exact E1. erewrite bind_ret by exact E2. now erewrite bind_ret by exact E3.
Qed.

Lemma show_lumps_ret s shown :
  wad_in s -> Z.of_nat shown <= lump_count d -> Z.of_nat shown < 2 ^ 32 ->
  exists s', show_lumps data (info_ofs d) (Z.of_nat shown) s = Ret tt s' /\
  goes s s' (lumps_text d shown).
Proof.
  intros Hw Hs Hb. destruct (show_lumps_loops shown Hs shown O s Hw ltac:(lia)) as (s' & Hg & Hl).
  exists s'. split; [|exact Hg]. unfold show_lumps. eapply while_loops; [exact Hl|lia].
Qed.

(** Comparing two fields of the same length. *)
Lemma memcmp_ret m p q l1 l2 :
  bytes_at m p l1 -> bytes_at m q l2 -> Zlen l1 = Zlen l2 -> Zlen l1 < 2 ^ 64 -> mem_ok m ->
  exists r, memcmp p q (Zlen l1) m = Ret r m /\ (r =? 0) = bool_decide (l1 = l2).
Proof.
  intros H1 H2 Hl Hb Hm. destruct (decide (l1 = l2)) as [->|Hne].
  - exists 0. rewrite bool_decide_true by done. split; [apply memcmp_eq; [done..|lia]|done].
  - rewrite bool_decide_false by done.
    destruct (first_difference l1 l2) as (pre & x & y & r1 & r2 & -> & -> & Hxy);
      [unfold Zlen in Hl; lia|done|].
    apply bytes_at_app in H1 as [P1 [Hx _]]. apply bytes_at_app in H2 as [P2 [Hy _]].
    exists (x - y). split; [|lia]. pose proof (Zlen_nonneg r1). rewrite Zlen_app, Zlen_cons in *.
    apply (memcmp_ne m p q _ pre x y); [apply bytes_at_app; done..|done|lia|lia].
Qed.

(** Scanning the directory for a name. *)
Lemma compare_lump s i w :
  wad_in s -> 0 <= i < lump_count d -> In w wad_literals -> Zlen w = 8 ->
  exists r, in_mem (memcmp (data + info_ofs d + u32 (i * 16) + 8) (lit w) 8) s = Ret r s /\
  (r =? 0) = bool_decide (lump_name d i = w).
Proof.
  intros Hw Hi Hl H8. destruct (lump_name_at s i Hw Hi) as [Hb Hn]. pose proof Hw as (Hwi & _).
  destruct (literal_in _ _ Hwi Hl) as [[Hlit _] _]. apply bytes_at_app in Hlit as [Hlit _].
  destruct (memcmp_ret (p_mem s) _ _ _ _ Hb Hlit) as (r & E & Hr); [congruence|lia|apply Hwi|].
  exists r. split; [|done]. apply in_mem_read. now rewrite Hn in E.
Qed.

Lemma has_lump_S n w :
  has_lump d (S n) w = has_lump d n w || bool_decide (lump_name d (Z.of_nat n) = w).
Proof. unfold has_lump. rewrite seq_S, existsb_app. simpl. now rewrite orb_false_r. Qed.

Lemma directory_loops s n : wad_in s -> Z.of_nat n = lump_count d -> forall j i,
  (i + j = n)%nat ->
  loops (fun '(i, found_t1, found_t2) =>
           if i <? lump_count d then
             let name := data + info_ofs d + u32 (i * 16) + 8 in
             (r1 ← in_mem (memcmp name (lit (bytes_of "TEXTURE1")) 8);
              r2 ← in_mem (memcmp name (lit (bytes_of "TEXTURE2")) 8);
              mret (inl (i + 1, found_t1 || (r1 =? 0), found_t2 || (r2 =? 0))))
           else mret (inr (found_t1, found_t2))) j
    (Z.of_nat i, has_lump d i (bytes_of "TEXTURE1"), has_lump d i (bytes_of "TEXTURE2")) s
    (Ret (has_lump d n (bytes_of "TEXTURE1"), has_lump d n (bytes_of "TEXTURE2")) s).
Proof.
  intros Hw Hn j. induction j as [|j IH]; intros i Hij.
  - apply loops_stop. destruct (Z.ltb_spec (Z.of_nat i) (lump_count d)); [lia|].
    now replace i with n by lia.
  - destruct (compare_lump s (Z.of_nat i) (bytes_of "TEXTURE1") Hw) as (r1 & E1 & R1);
      [lia|simpl; auto 20|done|].
    destruct (compare_lump s (Z.of_nat i) (bytes_of "TEXTURE2") Hw) as (r2 & E2 & R2);
      [lia|simpl; auto 20|done|].
    specialize (IH (S i) ltac:(lia)). rewrite !has_lump_S in IH. rewrite <- R1, <- R2 in IH.
    replace (Z.of_nat (S i)) with (Z.of_nat i + 1) in IH by lia.
    eapply loops_step; [|exact IH].
    destruct (Z.ltb_spec (Z.of_nat i) (lump_count d)); [|lia]. cbv zeta.
    erewrite bind_ret by exact E1. now erewrite bind_ret by exact E2.
Qed.

Lemma scan_directory_ret s :
  wad_in s -> let n := Z.to_nat (lump_count d) in
  scan_directory data (info_ofs d) (lump_count d) s =
  Ret (has_lump d n (bytes_of "TEXTURE1"), has_lump d n (bytes_of "TEXTURE2")) s.
Proof.
  intros Hw n. pose proof (header_range d Hd) as (_ & Hc & _).
  unfold scan_directory. eapply while_loops.
  - apply (directory_loops s n Hw ltac:(lia) n O). lia.
  - lia.
Qed.

(** *** The report *)

Lemma cstr_until m p l : bytes_at m p l -> 0 ∈ l -> cstr m p (sliceTo l).
Proof.
  revert p. induction l as [|c l IH]; intros p Hb Hin; [set_solver|]. destruct Hb as [Hc Hb].
  unfold sliceTo. cbn [take_while]. destruct (Z.eqb_spec c 0) as [->|Hne]; cbn [negb]; [now apply cstr_nil|].
  apply cstr_cons. split; [done|]. split; [done|]. apply IH; [done|set_solver].
Qed.

Lemma magic_nul : 0 ∈ sub d 0 12.
Proof.
  destruct Hd as (_ & Hz & _). change 12 with (4 + 8). rewrite <- sub_join0 by lia. set_solver.
Qed.

Definition yes_no_strings : gmap Z (list Z) :=
  <[lit (bytes_of "YES") := bytes_of "YES"]> {[lit (bytes_of "NO") := bytes_of "NO"]}.

Lemma yes_no_lookup m b : wad_image m ->
  yes_no_strings !! yes_no b = Some (yes_no_text b) /\ 0 < yes_no b < 2 ^ 64.
Proof.
  intros Hi.
  destruct (literal_in m (bytes_of "YES") Hi ltac:(simpl; auto 20)) as [HY _].
  destruct (literal_in m (bytes_of "NO") Hi ltac:(simpl; auto 20)) as [HN _].
  pose proof (cstr_bound _ _ _ (wi_ok _ Hi) HY). pose proof (cstr_bound _ _ _ (wi_ok _ Hi) HN).
  pose proof (Zlen_nonneg (bytes_of "YES")). pose proof (Zlen_nonneg (bytes_of "NO")).
  unfold yes_no_strings, yes_no, yes_no_text. destruct b; (split; [|lia]).
  - apply lookup_insert_eq.
  - rewrite lookup_insert_ne; [apply lookup_singleton_eq|]. intros E. rewrite E in HY.
    pose proof (cstr_inj _ _ _ _ HY HN). done.
Qed.

Lemma yes_no_strings_at m : wad_image m -> strings_at m printf_buf 4096 yes_no_strings.
Proof.
  intros Hi. apply map_Forall_insert_2; [|apply map_Forall_singleton];
    (split; [apply (literal_in _ _ Hi); simpl; auto 20|
             eapply (literal_apart _ _ (printf_buf, 4096) Hi); simpl; auto 20; lia]).
Qed.

Lemma print_textures s t1 t2 : wad_image (p_mem s) ->
  exists s', printf (lit (show_format texture_format)) [yes_no t1; yes_no t2] s =
    Ret (Zlen (texture_text t1 t2)) s' /\ goes s s' (texture_text t1 t2).
Proof.
  intros Hi. destruct (yes_no_lookup _ t1 Hi) as [L1 B1]. destruct (yes_no_lookup _ t2 Hi) as [L2 B2].
  destruct (wad_print s texture_format [yes_no t1; yes_no t2] yes_no_strings (texture_text t1 t2))
    as (s' & E & Hg & _); [done|simpl; auto 20|done| | | |now exists s'].
  - now apply eval_texture.
  - unfold texture_text. rewrite !Zlen_app. destruct t1, t2; vm_compute; discriminate.
  - now apply yes_no_strings_at.
Qed.

(** The text before the directory. *)
Lemma print_header s : wad_in s -> bytes_at (p_mem s) loc_hdr12 (sub d 0 12) ->
  exists s1 s2 r1 r2, printf (lit (show_format loaded_format)) [wad_size d; lump_count d] s = Ret r1 s1 /\
  printf (lit (show_format magic_format)) [loc_hdr12] s1 = Ret r2 s2 /\
  goes s s2 (loaded_text d ++ magic_text d).
Proof.
  intros Hw Hh. pose proof (header_range d Hd) as (H12 & Hc & Ho). pose proof Hw as (Hwi & _).
  assert (Hsz : 0 <= wad_size d < 2 ^ 64) by (unfold wad_size; lia).
  assert (Hlh : Zlen (sub d 0 12) = 12) by (unfold Zlen; rewrite sub_length by lia; done).
  destruct (wad_print s loaded_format [wad_size d; lump_count d] ∅ (loaded_text d))
    as (s1 & E1 & G1 & P1); [done|simpl; auto 20|done| | |apply strings_none|].
  { rewrite eval_loaded, u64_id, u32_id by lia. done. }
  { unfold loaded_text, decimal_digits. rewrite !Zlen_app.
    pose proof (number_digits_short (wad_size d)). pose proof (number_digits_short (lump_count d)).
    unfold Zlen in *. simpl. lia. }
  assert (Hw1 : wad_in s1) by now apply (wad_in_goes s s1 (loaded_text d)). pose proof Hw1 as (Hwi1 & _).
  pose proof (wi_apart2 _ Hwi) as Ha. unfold disjoint_ranges in Ha.
  assert (Hh1 : bytes_at (p_mem s1) loc_hdr12 (sub d 0 12)).
  { eapply bytes_at_ext; [|exact Hh]. intros q Hq. apply P1. lia. }
  assert (Hp : 0 < loc_hdr12 < 2 ^ 64).
  { pose proof (bytes_at_bound _ _ _ (wi_ok _ Hwi1) ltac:(intros E; rewrite E in Hlh; done) Hh1). lia. }
  pose proof (sliceTo_length (sub d 0 12)) as Hsl.
  destruct (wad_print s1 magic_format [loc_hdr12] {[loc_hdr12 := sliceTo (sub d 0 12)]} (magic_text d))
    as (s2 & E2 & G2 & _); [done|simpl; auto 20|done|now apply eval_magic| | |].
  { unfold magic_text. rewrite !Zlen_app. unfold Zlen. rewrite length_take. simpl length. lia. }
  { pose proof (cstr_until _ _ _ Hh1 magic_nul) as Hcs. apply strings_one; [done|].
    pose proof (sliceTo_lt (sub d 0 12) magic_nul). unfold Zlen in *. lia. }
  exists s1, s2. do 2 eexists. split; [exact E1|]. split; [exact E2|]. eapply goes_trans; eassumption.
Qed.

Lemma report_wad_ret s : wad_in s -> bytes_at (p_mem s) loc_hdr12 (sub d 0 12) ->
  exists s', report_wad data (wad_size d) (info_ofs d) (lump_count d) s = Ret tt s' /\
  goes s s' (wad_report d).
Proof.
  intros Hw Hh. pose proof (header_range d Hd) as (_ & Hc & _).
  destruct (print_header s Hw Hh) as (s1 & s2 & r1 & r2 & E1 & E2 & G2).
  assert (Hw2 : wad_in s2) by now apply (wad_in_goes s s2 (loaded_text d ++ magic_text d)).
  set (n := Z.to_nat (lump_count d)).
  destruct (show_lumps_ret s2 (Nat.min n 5) Hw2) as (s3 & E3 & G3); [lia..|].
  assert (Hw3 : wad_in s3) by now apply (wad_in_goes s2 s3 (lumps_text d (Nat.min n 5))).
  set (t1 := has_lump d n (bytes_of "TEXTURE1")). set (t2 := has_lump d n (bytes_of "TEXTURE2")).
  destruct (print_textures s3 t1 t2 (proj1 Hw3)) as (s4 & E4 & G4).
  assert (Hw4 : wad_in s4) by now apply (wad_in_goes s3 s4 (texture_text t1 t2)).
  destruct (wad_print s4 newline_format [] ∅ [10]) as (s5 & E5 & G5 & _);
    [apply Hw4|simpl; auto 20|done|done|done|apply strings_none|].
  exists s5. split.
  - unfold report_wad. erewrite bind_ret by exact E1. erewrite bind_ret by exact E2.
    replace (if lump_count d <? 5 then lump_count d else 5) with (Z.of_nat (Nat.min n 5))
      by (case_bool; lia).
    erewrite bind_ret by exact E3. erewrite bind_ret by (apply scan_directory_ret; exact Hw3).
    fold n t1 t2. cbv iota beta. erewrite bind_ret by exact E4. now erewrite bind_ret by exact E5.
  - unfold wad_report. fold n. fold t1 t2. rewrite app_assoc. eapply goes_trans; [exact G2|].
    eapply goes_trans; [exact G3|]. eapply goes_trans; [exact G4|exact G5].
Qed.

End directory.

(** ** Loading *)

(** The reads of the header of a disk that holds [d] are not short. *)
Definition header_reads (d : list Z) : Prop :=
  forall k n, disk k = d -> n = 8 \/ n = 12 -> 12 <= Zlen d -> (sys_blk_read 0 n k).1.1 = n.

Lemma header_read s r n :
  header_reads (disk (p_kst s)) -> n = 8 \/ n = 12 -> 12 <= Zlen (disk (p_kst s)) ->
  wad_image (p_mem s) -> In r scratch -> n <= r.2 ->
  exists s', innigkeit_blk_read 0 r.1 n s = Ret n s' /\ goes s s' [] /\
  p_mem s' = poke_list (p_mem s) r.1 (sub (disk (p_kst s)) 0 n).
Proof.
  intros Hh Hn Hd Hi Hr Hrn. specialize (Hh (p_kst s) n eq_refl Hn Hd). unfold innigkeit_blk_read.
  pose proof (blk_quiet 0 n (p_kst s)) as Q.
  destruct (sys_blk_read 0 n (p_kst s)) as [[r' l] k'] eqn:E. cbn [fst snd] in Hh, Q. subst r'.
  destruct (blk_read_disk _ _ _ _ _ _ E) as [Hk Hl]. specialize (Hl ltac:(lia)).
  assert (Hl' : l = sub (disk (p_kst s)) 0 n) by exact Hl. clear Hl.
  assert (Hlen : Zlen l = n) by (rewrite Hl'; unfold Zlen; rewrite sub_length by lia; lia).
  destruct (keeps_poke (p_mem s) r r.1 l Hi Hr) as [Hkeep Hmap]; [lia..|].
  unfold deliver, decode. destruct (Z.leb_spec 0 n); [|lia].
  erewrite bind_ret by (apply in_mem_ret, store_bytes_ret; exact Hmap).
  eexists. split; [reflexivity|]. split; [|now rewrite Hl'].
  split; [done..|now rewrite app_nil_r|done].
Qed.

Lemma load32_ret m p l : bytes_at m p l -> length l = 4%nat -> load32 p m = Ret (le_decode l) m.
Proof.
  intros Hb Hl. unfold load32. erewrite bind_ret; [reflexivity|].
  apply load_bytes_ret'; [done|unfold Zlen; lia|lia].
Qed.

Lemma load32_some m p : mapped_range m p 4 -> exists v, load32 p m = Ret v m.
Proof.
  intros Hm. destruct (mapped_bytes_at m p 4 Hm) as (l & Hl & Hb).
  exists (le_decode l). now apply load32_ret.
Qed.

(** The size computed from the two numbers of the header does not wrap. *)
Lemma total_size d : wad_ok d ->
  (let total := u64 (info_ofs d + u64 (lump_count d * 16)) in if total <? 12 then 12 else total) = wad_size d /\
  wad_size d + 4096 < 2 ^ 63.
Proof.
  intros Hd. pose proof (header_range d Hd) as (_ & Hc & Ho). cbv zeta.
  rewrite (u64_id (lump_count d * 16)), u64_id by lia. unfold wad_size. case_bool; lia.
Qed.

(** The two reads of the header. *)
Lemma read_header s :
  header_reads (disk (p_kst s)) -> wad_ok (disk (p_kst s)) -> wad_image (p_mem s) ->
  exists s1 s2 v1 v2, let d := disk (p_kst s) in
  innigkeit_blk_read 0 loc_header 8 s = Ret 8 s1 /\
  in_mem (load32 (loc_header + 4)) s1 = Ret v1 s1 /\ in_mem (load32 (loc_header + 8)) s1 = Ret v2 s1 /\
  innigkeit_blk_read 0 loc_hdr12 12 s1 = Ret 12 s2 /\
  in_mem (load32 (loc_hdr12 + 4)) s2 = Ret (lump_count d) s2 /\
  in_mem (load32 (loc_hdr12 + 8)) s2 = Ret (info_ofs d) s2 /\
  goes s s2 [] /\ bytes_at (p_mem s2) loc_hdr12 (sub d 0 12) /\ regions (p_mem s2) = regions (p_mem s).
Proof.
  intros Hh Hd Hi. pose proof (header_range _ Hd) as (H12 & _). set (d := disk (p_kst s)) in *.
  assert (R1 : In (loc_header, 12) scratch) by (simpl; auto).
  assert (R2 : In (loc_hdr12, 12) scratch) by (simpl; auto).
  destruct (header_read s (loc_header, 12) 8 Hh) as (s1 & E1 & G1 & M1); [lia|done|done|done|simpl; lia|].
  assert (Hi1 : wad_image (p_mem s1)) by now apply (goes_image s s1 []).
  pose proof (scratch_mapped _ _ Hi1 R1) as Hm1. cbn [fst snd] in Hm1.
  destruct (load32_some (p_mem s1) (loc_header + 4)) as [v1 V1]; [eapply mapped_range_sub; [exact Hm1|lia..]|].
  destruct (load32_some (p_mem s1) (loc_header + 8)) as [v2 V2]; [eapply mapped_range_sub; [exact Hm1|lia..]|].
  assert (Hd1 : disk (p_kst s1) = d) by apply (g_media _ _ _ G1).
  destruct (header_read s1 (loc_hdr12, 12) 12 ltac:(now rewrite Hd1)) as (s2 & E2 & G2 & M2);
    [lia|now rewrite Hd1|done|done|simpl; lia|]. rewrite Hd1 in M2. cbn [fst] in *.
  assert (Hl : Zlen (sub d 0 12) = 12) by (unfold Zlen; rewrite sub_length by lia; done).
  assert (Hb : bytes_at (p_mem s2) loc_hdr12 (sub d 0 12)).
  { rewrite M2. apply bytes_at_poke_list; [|apply sub_bytes, Hd]. rewrite Hl.
    exact (scratch_mapped _ _ Hi1 R2). }
  assert (Hf : forall i, 0 <= i <= 8 -> in_mem (load32 (loc_hdr12 + i)) s2 = Ret (le_decode (sub d i 4)) s2).
  { intros i Hi'. apply in_mem_read, load32_ret; [|apply sub_length; lia].
    rewrite <- (sub_prefix d 12 i 4) by lia. apply bytes_at_sub; [done|lia..]. }
  exists s1, s2, v1, v2. split; [exact E1|]. split; [now apply in_mem_read|]. split; [now apply in_mem_read|].
  split; [exact E2|]. split; [apply Hf; lia|]. split; [apply Hf; lia|].
  split; [change [] with ([] ++ [] : list Z); eapply goes_trans; eassumption|].
  split; [exact Hb|]. now rewrite M2, regions_poke_list, M1, regions_poke_list.
Qed.

(** Bytes loaded to a fresh mapping. *)
Lemma keeps_load m a n l :
  wad_image m -> 0 < a -> a + n <= 2 ^ 47 -> Zlen l <= n -> Forall byte_ok l ->
  (forall q, a <= q < a + n -> is_mapped m q = false) ->
  let m' := poke_list (map_region m a n) a l in
  keeps m m' /\ bytes_at m' a l /\ (forall q, a <= q < a + n -> in_scratch q = false).
Proof.
  intros Hi Ha Hn Hl Hb Hf m'. pose proof (Zlen_nonneg l).
  assert (Hm : mapped_range (map_region m a n) a (Zlen l)).
  { eapply mapped_range_sub; [apply mapped_map_region|lia..]. }
  split; [|split].
  - pose proof (wi_ok _ Hi) as Hok.
    split; [apply mem_ok_poke_list; [|done]; apply mem_ok_map_region; (done || lia)|].
    intros q Hq. unfold m'. rewrite is_mapped_poke_list, is_mapped_map_region, Hq, orb_true_r.
    split; [done|]. intros _. rewrite peek_poke_list_out; [now apply peek_map_region_old|].
    destruct (Z_lt_le_dec q a); [lia|]. destruct (Z_lt_le_dec q (a + n)); [|lia].
    rewrite Hf in Hq by lia. done.
  - now apply bytes_at_poke_list.
  - intros q Hq. apply not_true_is_false. intros Hs. unfold in_scratch in Hs.
    apply existsb_exists in Hs as (r & Hr & Hin). pose proof (scratch_mapped _ _ Hi Hr) as Hmr.
    unfold in_region in Hin.
    specialize (Hmr q ltac:(lia)). rewrite Hf in Hmr by done. done.
Qed.

(** Everything [load_from_disk] needs from the machine. *)
Definition wad_ready (s : proc) : Prop :=
  wad_image (p_mem s) /\ wad_ok (disk (p_kst s)) /\ header_reads (disk (p_kst s)) /\
  blk_progress (disk (p_kst s)) (wad_size (disk (p_kst s))) /\ mmap_succeeds s (wad_size (disk (p_kst s)) + 4096).

Definition opened (s s' : proc) (i : nat) (data : Z) : Prop :=
  let d := disk (p_kst s) in
  keeps (p_mem s) (p_mem s') /\ bytes_at (p_mem s') data (wad_bytes d) /\
  (forall q, data <= q < data + wad_size d -> is_mapped (p_mem s) q = false) /\
  p_files s' = <[i := mem_file data (AFile (wad_bytes d) 0 false)]> (p_files s) /\
  p_heap s' = p_heap s /\ console (p_kst s') = console (p_kst s) ++ wad_report d /\
  same_media (p_kst s) (p_kst s').

(** The mapping and the chunked read. *)
Lemma load_chunks s i d :
  wad_image (p_mem s) -> wad_ok d -> disk (p_kst s) = d -> blk_progress d (wad_size d) ->
  mmap_succeeds s (wad_size d + 4096) -> p_files s !! i = Some (mkMemFile 0 0 0 true false) ->
  exists data s3 s6, innigkeit_mmap (wad_size d + 4096) s = Ret data s3 /\ 0 < data /\
  p_files s3 = p_files s /\
  read_chunks data (wad_size d) (set_files (<[i := mkMemFile data (wad_size d) 0 true false]> (p_files s)) s3) =
    Ret (wad_size d) s6 /\
  wad_in d data s6 /\ keeps (p_mem s) (p_mem s6) /\
  p_files s6 = <[i := mkMemFile data (wad_size d) 0 true false]> (p_files s) /\
  p_heap s6 = p_heap s /\ calm (p_kst s) (p_kst s6) /\
  (forall q, data <= q < data + wad_size d -> is_mapped (p_mem s) q = false) /\
  (forall q, is_mapped (p_mem s) q = true -> peek (p_mem s6) q = peek (p_mem s) q).
Proof.
  intros Hi Hd Hdk Hpr Hmm Hfi. destruct (total_size d Hd) as [_ Hmax].
  assert (Hsz : 12 <= wad_size d) by (unfold wad_size; lia).
  set (n := page_round (wad_size d + 4096)). pose proof (page_round_ge (wad_size d + 4096)) as Hn. fold n in Hn.
  destruct (mmap_ok s (wad_size d + 4096)) as (data & k3 & E3 & C3 & Hd0 & Hd1 & Hfr); [apply Hi|done|].
  fold n in E3, Hd1, Hfr. set (s3 := set_kst k3 (set_mem (map_region (p_mem s) data n) s)) in *.
  set (s5 := set_files (<[i := mkMemFile data (wad_size d) 0 true false]> (p_files s)) s3).
  assert (Hd5 : disk (p_kst s5) = d).
  { destruct C3 as [[Hk _] _]. simpl. now rewrite Hk. }
  assert (Hwb : Zlen (wad_bytes d) = wad_size d) by now apply wad_bytes_length.
  destruct (read_chunks_ret s5 data (wad_size d)) as (k6 & E6 & C6); [now rewrite Hd5|lia| |].
  { eapply mapped_range_sub; [apply mapped_map_region|lia..]. }
  rewrite Hd5 in E6. fold (wad_bytes d) in E6.
  replace (Z.min (wad_size d) (Zlen d)) with (wad_size d) in E6 by (destruct Hd; lia).
  destruct (keeps_load (p_mem s) data n (wad_bytes d)) as (K6 & B6 & S6); [done|lia|lia|lia| |done|].
  { apply Forall_take, Hd. }
  exists data, s3. eexists. split; [exact E3|]. split; [done|]. split; [done|]. split; [exact E6|].
  split; [|split; [exact K6|split; [done|split; [done|split; [|split]]]]].
  - split; [now apply (wad_image_keeps (p_mem s))|]. split; [done|]. intros q Hq. apply S6. lia.
  - destruct C3 as [M3 Q3], C6 as [M6 Q6]. split; [eapply same_media_trans; eassumption|].
    cbn [p_kst set_kst]. now rewrite Q6.
  - intros q Hq. apply Hfr. lia.
  - intros q Hq. cbn [p_mem set_kst set_mem]. rewrite peek_poke_list_out; [now apply peek_map_region_old|].
    destruct (Z_lt_le_dec q data); [lia|]. destruct (Z_lt_le_dec q (data + n)); [|lia].
    rewrite Hfr in Hq by lia. done.
Qed.

Lemma load_from_disk_ret s i :
  wad_ready s -> p_files s !! i = Some (mkMemFile 0 0 0 true false) ->
  exists data s', load_from_disk i s = Ret true s' /\ opened s s' i data.
Proof.
  intros (Hi & Hd & Hh & Hpr & Hmm) Hfi. unfold opened. set (d := disk (p_kst s)) in *. cbv zeta.
  destruct (read_header s Hh Hd Hi) as (s1 & s2 & v1 & v2 & E1 & V1 & V2 & E2 & V3 & V4 & G2 & Hb2 & Hr2).
  fold d in V3, V4, Hb2. destruct (total_size d Hd) as [Ht Hmax]. cbv zeta in Ht.
  pose proof (goes_image s s2 [] Hi G2) as Hi2.
  destruct (load_chunks s2 i d) as (data & s3 & s6 & E3 & Hd0 & F3 & E6 & Hw6 & K6 & F6 & P6 & C6 & Hf6 & U6);
    [done|done|apply (g_media _ _ _ G2)|done|intros k; rewrite Hr2; apply Hmm|now rewrite (g_files _ _ _ G2)|].
  rewrite (g_files _ _ _ G2) in *.
  assert (Hlt : (i < length (p_files s))%nat) by (eapply lookup_lt_Some; exact Hfi).
  assert (Hb6 : bytes_at (p_mem s6) loc_hdr12 (sub d 0 12)).
  { eapply bytes_at_ext; [|exact Hb2]. intros q Hq. apply U6. now apply (bytes_at_mapped _ _ _ Hb2). }
  destruct (report_wad_ret d data Hd s6 Hw6 Hb6) as (s7 & E7 & G7).
  assert (Hsz : 12 <= wad_size d) by (unfold wad_size; lia).
  exists data, s7. split.
  - unfold load_from_disk. erewrite bind_ret by exact E1. cbn [Z.ltb Z.compare Pos.compare Pos.compare_cont].
    erewrite bind_ret by exact V1. erewrite bind_ret by exact V2. erewrite bind_ret by exact E2.
    cbn [Z.ltb Z.compare Pos.compare Pos.compare_cont].
    erewrite bind_ret by exact V3. erewrite bind_ret by exact V4. cbv zeta. rewrite Ht.
    unfold PAGE_SIZE. rewrite u64_id by lia. erewrite bind_ret by exact E3.
    erewrite bind_ret by (apply upd_file_ret; rewrite F3; exact Hfi).
    destruct (Z.eqb_spec data 0); [lia|].
    erewrite bind_ret by (apply upd_file_ret; simpl; apply list_lookup_insert_eq; now rewrite F3).
    cbn [p_files set_files]. rewrite F3, list_insert_insert_eq. cbn [set_size set_data f_data f_size f_pos f_in_use f_eof].
    erewrite bind_ret by exact E6.
    erewrite bind_ret by (apply upd_file_ret; rewrite F6; now apply list_lookup_insert_eq).
    rewrite F6, list_insert_insert_eq. cbn [set_size f_data f_size f_pos f_in_use f_eof].
    replace (set_files _ s6) with s6 by (destruct s6; simpl in *; now rewrite F6).
    now erewrite bind_ret by exact E7.
  - destruct (wad_in_goes d data Hd _ _ _ Hw6 G7) as (_ & Hb7 & _). destruct G2 as [A1 A2 A3 A4 A5].
    destruct G7 as [B1 B2 B3 B4 B5]. destruct C6 as [C1 C2]. rewrite app_nil_r in A4.
    split; [eapply keeps_trans; [exact A1|eapply keeps_trans; eassumption]|]. split; [done|].
    split; [|split; [|split; [congruence|split; [congruence|]]]].
    + intros q Hq. apply not_true_is_false. intros Hq'. destruct A1 as [_ A1].
      destruct (A1 q Hq') as [E _]. rewrite Hf6 in E by done. done.
    + rewrite B2, F6. unfold mem_file. cbn [a_data a_pos a_eof]. now rewrite wad_bytes_length.
    + eapply same_media_trans; [exact A5|]. eapply same_media_trans; eassumption.
Qed.

Lemma fopen_wad_ret s i path mode t :
  wad_ready s -> find_free (p_files s) = Some i -> cstr (p_mem s) path t -> In t WAD_NAMES ->
  let d := disk (p_kst s) in
  exists data s', fopen path mode s = Ret (Some i) s' /\
  file_at s' i data (AFile (wad_bytes d) 0 false) /\
  (forall q, data <= q < data + wad_size d -> is_mapped (p_mem s) q = false) /\
  keeps (p_mem s) (p_mem s') /\ (forall j, j <> i -> p_files s' !! j = p_files s !! j) /\
  p_heap s' = p_heap s /\ console (p_kst s') = console (p_kst s) ++ wad_report d /\
  same_media (p_kst s) (p_kst s').
Proof.
  intros Hr Hi Ht Hin d. pose proof Hr as (Hwi & Hd & _).
  destruct (find_free_spec _ _ Hi) as (Hlt & _ & _).
  set (s1 := set_files (<[i := mkMemFile 0 0 0 true false]> (p_files s)) s).
  assert (Halloc : alloc_file s = Ret (Some i) s1).
  { unfold alloc_file, get_files, put_file. unst. now rewrite Hi. }
  destruct (load_from_disk_ret s1 i Hr) as (data & s' & E & A1 & A2 & A3 & A4 & A5 & A6 & A7);
    [simpl; now apply list_lookup_insert_eq|].
  assert (Hsrc : existsb (fun w => bool_decide (t = w)) WAD_NAMES = true).
  { apply existsb_exists. exists t. split; [done|]. now apply bool_decide_eq_true. }
  exists data, s'. split.
  - unfold fopen. erewrite bind_ret by exact Halloc. cbv beta iota.
    rewrite (is_wad_ret s1 path t); [|apply Hwi|done|]; [|].
    + rewrite Hsrc. erewrite bind_ret by exact E. cbv iota. now rewrite bind_mret.
    + apply List.Forall_forall. intros w Hw. apply (literal_in _ _ Hwi). unfold wad_literals.
      apply in_or_app. now left.
  - pose proof (wad_bytes_length d Hd). pose proof (total_size d Hd) as [_ Hmax].
    split; [|split; [exact A3|split; [exact A1|split; [|done]]]].
    + split; [rewrite A4; simpl; apply list_lookup_insert_eq; now rewrite length_insert|].
      split; [exact A2|]. simpl. fold d. lia.
    + intros j Hj. rewrite A4. simpl. now rewrite !list_lookup_insert_ne.
Qed.

(** Opening the WAD gives a stream at position 0 whose contents are the WAD
    on the disk, from its header to the end of its directory, in fresh memory.
    The console shows exactly the report of its size, its magic, the first lump
    names and whether the textures are there.  The memory of the program is
    unchanged but for the local arrays and the buffer of [printf], and so are
    the other files. *)
Theorem fopen_wad s i path mode t :
  wad_ready s -> find_free (p_files s) = Some i -> cstr (p_mem s) path t -> In t WAD_NAMES ->
  let d := disk (p_kst s) in
  exists data s', fopen path mode s = Ret (Some i) s' /\
  file_at s' i data (AFile (wad_bytes d) 0 false) /\
  (forall q, data <= q < data + wad_size d -> is_mapped (p_mem s) q = false) /\
  keeps (p_mem s) (p_mem s') /\ (forall j, j <> i -> p_files s' !! j = p_files s !! j) /\
  p_heap s' = p_heap s /\ console (p_kst s') = console (p_kst s) ++ wad_report d /\
  same_media (p_kst s) (p_kst s').
Proof. exact (fopen_wad_ret s i path mode t). Qed.

End wad.

(** ** An example on the small kernel *)

Lemma tk_header_reads d : @header_reads tk_kernel tk_data d.
Proof.
  intros k n <- Hn Hd. cbn [disk tk_data] in Hd. cbn [sys_blk_read tk_kernel].
  destruct (tk_disk k) as [|x xs] eqn:E; [change (Zlen (u8 <$> [])) with 0 in Hd; lia|].
  destruct (Z.ltb_spec n 0); [lia|]. cbn [fst]. unfold tk_slice, Zlen in *.
  rewrite drop_0, length_take. lia.
Qed.

(** A literal that the evaluator finds apart from the scratch area. *)
Definition literal_apartb {L : Layout} (w : list Z) : bool :=
  forallb (fun r => disjoint_ranges (lit w) (Zlen w + 1) r.1 r.2) scratch.

Lemma literal_apartb_ok {L : Layout} m w :
  cstr m (lit w) w -> literal_apartb w = true -> literal_at m w.
Proof.
  intros Hc Hb. split; [done|]. intros q Hq. apply not_true_is_false. intros Hs.
  apply existsb_exists in Hs as (r & Hr & Hin). unfold literal_apartb in Hb.
  rewrite forallb_forall in Hb. specialize (Hb r Hr). unfold disjoint_ranges, in_region in *. lia.
Qed.

Lemma wad_proc_image : wad_image (p_mem wad_proc).
Proof.
  split.
  - by_eval.
  - repeat (apply List.Forall_cons; [by_eval|]). apply List.Forall_nil.
  - repeat (apply List.Forall_cons; [apply literal_apartb_ok; [by_eval|vm_compute; reflexivity]|]).
    apply List.Forall_nil.
  - reflexivity.
  - reflexivity.
  - reflexivity.
Qed.

Lemma fopen_wad_witness :
  exists data s', fopen 4100 0 wad_proc = Ret (Some O) s' /\
  file_at s' 0 data (AFile (wad_bytes (disk (p_kst wad_proc))) 0 false) /\
  console (p_kst s') = console (p_kst wad_proc) ++ wad_report (disk (p_kst wad_proc)).
Proof.
  destruct (fopen_wad (Stdio.tk_progress) wad_proc 0 4100 0 (bytes_of "doom1.wad"))
    as (data & s' & E & Hf & _ & _ & _ & _ & Hc & _).
  - split; [exact wad_proc_image|]. split.
    { split; [vm_compute; discriminate|]. split; by_eval. }
    split; [apply tk_header_reads|]. split; [apply tk_blk_progress|].
    apply tk_mmap_succeeds; [reflexivity|vm_compute; discriminate|reflexivity].
  - reflexivity.
  - by_eval.
  - simpl. auto.
  - exists data, s'. exact (conj E (conj Hf Hc)).
Defined.
