(* ===== verification/Ring.v ===== *)
(** * Ring buffers

    The kernel's byte queues are arrays of [N] cells with a read and a write
    position; one cell stays empty, so that equal positions mean an empty ring.
    Here is the queue such a ring stands for, and what a write at the write
    position and a step of the read position do to it. *)

From S2P Require Import Prelude Machine.

Section ring.
Context {A : Type} (d : A) (N : Z) (HN : 1 < N).

Definition ring_ok (buf : list A) (r w : Z) : Prop :=
  Zlen buf = N /\ 0 <= r < N /\ 0 <= w < N.

Definition ring_len (r w : Z) : Z := (w - r) mod N.

Definition ring_at (buf : list A) (r : Z) (i : nat) : A :=
  default d (buf !! Z.to_nat ((r + Z.of_nat i) mod N)).

(** The elements that wait in the ring, oldest first. *)
Definition ring_list (buf : list A) (r w : Z) : list A :=
  ring_at buf r <$> seq 0 (Z.to_nat (ring_len r w)).

Lemma mod_cases x : - N < x < 2 * N ->
  x mod N = if x <? 0 then x + N else if x <? N then x else x - N.
Proof.
  intros Hx. case_bool; [|case_bool].
  - symmetry. apply (Z.mod_unique_pos _ _ (-1)); lia.
  - apply Z.mod_small. lia.
  - symmetry. apply (Z.mod_unique_pos _ _ 1); lia.
Qed.

Lemma ring_len_cases buf r w : ring_ok buf r w ->
  ring_len r w = if r <=? w then w - r else w - r + N.
Proof.
  intros (_ & Hr & Hw). unfold ring_len. rewrite mod_cases by lia. repeat case_bool; lia.
Qed.

Lemma Zlen_ring_list buf r w : Zlen (ring_list buf r w) = ring_len r w.
Proof.
  unfold ring_list, Zlen. rewrite length_fmap, length_seq.
  pose proof (Z.mod_pos_bound (w - r) N). unfold ring_len. lia.
Qed.

Lemma ring_list_bound buf r w : Zlen (ring_list buf r w) <= N - 1.
Proof.
  rewrite Zlen_ring_list. pose proof (Z.mod_pos_bound (w - r) N). unfold ring_len. lia.
Qed.

(** The next write position meets the read position exactly when all cells but
    one are taken. *)
Lemma ring_full_len buf r w : ring_ok buf r w ->
  ((w + 1) mod N =? r) = (Zlen (ring_list buf r w) =? N - 1).
Proof.
  intros Ho. rewrite Zlen_ring_list, (ring_len_cases buf) by done. destruct Ho as (_ & Hr & Hw).
  rewrite mod_cases by lia.
  destruct (Z.ltb_spec (w + 1) 0), (Z.ltb_spec (w + 1) N), (Z.leb_spec r w); repeat case_bool; lia.
Qed.

(** The cell at the write position is not part of the queue. *)
Lemma ring_write_hidden b buf r w : ring_ok buf r w ->
  ring_ok (<[Z.to_nat w := b]> buf) r w /\
  ring_list (<[Z.to_nat w := b]> buf) r w = ring_list buf r w.
Proof.
  intros Ho. pose proof (ring_len_cases _ _ _ Ho) as Hlen. pose proof Ho as (Hb & Hr & Hw).
  assert (0 <= ring_len r w < N) by (apply Z.mod_pos_bound; lia). split.
  - unfold ring_ok, Zlen in *. rewrite length_insert. lia.
  - apply list_fmap_ext. intros i j Hj. apply lookup_seq in Hj as [-> Hi].
    unfold ring_at. rewrite list_lookup_insert_ne; [done|].
    rewrite mod_cases by lia. revert Hlen. repeat case_bool; lia.
Qed.

Lemma ring_push_ok b buf r w : ring_ok buf r w -> (w + 1) mod N <> r ->
  ring_ok (<[Z.to_nat w := b]> buf) r ((w + 1) mod N) /\
  ring_list (<[Z.to_nat w := b]> buf) r ((w + 1) mod N) = ring_list buf r w ++ [b].
Proof.
  intros Ho Hne. pose proof Ho as (Hb & Hr & Hw). pose proof (ring_len_cases _ _ _ Ho) as Hlen.
  pose proof (Z.mod_pos_bound (w + 1) N ltac:(lia)) as Hn.
  assert (Ho' : ring_ok (<[Z.to_nat w := b]> buf) r ((w + 1) mod N)).
  { unfold ring_ok, Zlen in *. rewrite length_insert. lia. }
  assert (Hlen' : ring_len r ((w + 1) mod N) = ring_len r w + 1 /\ 0 <= ring_len r w < N - 1).
  { rewrite (ring_len_cases _ _ _ Ho'), Hlen. revert Hne. rewrite mod_cases by lia.
    destruct (Z.ltb_spec (w + 1) 0), (Z.ltb_spec (w + 1) N); repeat case_bool; lia. }
  split; [done|]. rewrite <- (proj2 (ring_write_hidden b buf r w Ho)). unfold ring_list.
  rewrite (proj1 Hlen'), Z2Nat.inj_add, seq_app, fmap_app by lia. f_equal.
  simpl. f_equal. unfold ring_at.
  replace (Z.to_nat ((r + Z.of_nat (Z.to_nat (ring_len r w))) mod N)) with (Z.to_nat w).
  - rewrite list_lookup_insert_eq by (unfold Zlen in Hb; lia). done.
  - f_equal. rewrite mod_cases by lia. revert Hlen. repeat case_bool; lia.
Qed.

Lemma ring_empty buf r : ring_list buf r r = [].
Proof. unfold ring_list, ring_len. now rewrite Z.sub_diag, Z.mod_0_l by lia. Qed.

Lemma ring_pop_ok buf r w : ring_ok buf r w -> r <> w ->
  exists b, buf !! Z.to_nat r = Some b /\ ring_ok buf ((r + 1) mod N) w /\
  ring_list buf r w = b :: ring_list buf ((r + 1) mod N) w.
Proof.
  intros Ho Hne. pose proof Ho as (Hb & Hr & Hw). pose proof (ring_len_cases _ _ _ Ho) as Hlen.
  destruct (lookup_lt_is_Some_2 buf (Z.to_nat r)) as [b Eb]; [unfold Zlen in Hb; lia|].
  exists b. split; [done|].
  assert (Ho' : ring_ok buf ((r + 1) mod N) w).
  { split; [done|]. pose proof (Z.mod_pos_bound (r + 1) N). lia. }
  split; [done|].
  assert (Hlen' : ring_len r w = ring_len ((r + 1) mod N) w + 1 /\ 0 <= ring_len ((r + 1) mod N) w).
  { rewrite (ring_len_cases _ _ _ Ho'), Hlen. rewrite mod_cases by lia.
    destruct (Z.ltb_spec (r + 1) 0), (Z.ltb_spec (r + 1) N); repeat case_bool; lia. }
  unfold ring_list at 1. rewrite (proj1 Hlen').
  replace (Z.to_nat (ring_len ((r + 1) mod N) w + 1)) with (S (Z.to_nat (ring_len ((r + 1) mod N) w))) by lia.
  cbn [seq]. rewrite fmap_cons. f_equal.
  - unfold ring_at. change (Z.of_nat 0) with 0. rewrite Z.add_0_r, Z.mod_small by lia. now rewrite Eb.
  - rewrite <- fmap_S_seq, <- list_fmap_compose. apply list_fmap_ext. intros i j _.
    unfold ring_at, compose. do 3 f_equal. rewrite Zplus_mod_idemp_l. f_equal. lia.
Qed.

End ring.
