(* ===== verification/LineInput.v ===== *)
(** * The line discipline of the console

    [src/src/innigkeit/init/input/KeyboardInputBuffer.zig]: the interrupt handler
    pushes characters, which are edited into a line and, at Enter, moved to a
    ring from which readers take lines; a reader that finds no line waits.  The
    state has the bytes echoed to the screen and the tasks that were woken.  The
    theorems relate it to a bounded queue of bytes, show that edited lines are
    read back in order and that a waiting reader is woken, and give a run after
    which it never is. *)

From S2P Require Import Prelude Machine Ring.

(** A task that reads, with the length of its buffer. *)
Record task := Task { t_id : nat; t_len : Z }.

#[export] Instance task_eq : EqDecision task.
Proof. solve_decision. Defined.

Record KeyboardInputBuffer := KeyIn {
  line : list Z;
  line_len : Z;
  completed : list Z;
  completed_read : Z;
  completed_write : Z;
  (** [wait_queue], the tasks that were made runnable, and the echo. *)
  wait_queue : list task;
  woken : list task;
  screen : list Z
}.

Implicit Types s : KeyboardInputBuffer.

(** The initial state; the arrays start with arbitrary contents. *)
Definition empty_input (line0 completed0 : list Z) : KeyboardInputBuffer :=
  KeyIn line0 0 completed0 0 0 [] [] [].

Definition set_line l n s : KeyboardInputBuffer :=
  KeyIn l n (completed s) (completed_read s) (completed_write s) (wait_queue s) (woken s) (screen s).
Definition set_ring c r w s : KeyboardInputBuffer :=
  KeyIn (line s) (line_len s) c r w (wait_queue s) (woken s) (screen s).
Definition set_tasks q w s : KeyboardInputBuffer :=
  KeyIn (line s) (line_len s) (completed s) (completed_read s) (completed_write s) q w (screen s).
Definition writeRawImmediate l s : KeyboardInputBuffer :=
  KeyIn (line s) (line_len s) (completed s) (completed_read s) (completed_write s)
    (wait_queue s) (woken s) (screen s ++ l).

(** ** Operations *)

Definition completedAppend (byte : Z) s : KeyboardInputBuffer :=
  let next := (completed_write s + 1) mod 1024 in
  if negb (next =? completed_read s) then
    set_ring (<[Z.to_nat (completed_write s) := byte]> (completed s)) (completed_read s) next s
  else s.

Definition completedPop s : option Z * KeyboardInputBuffer :=
  if completed_read s =? completed_write s then (None, s)
  else
    (completed s !! Z.to_nat (completed_read s),
     set_ring (completed s) ((completed_read s + 1) mod 1024) (completed_write s) s).

(** The loop visits at most the 1024 cells. *)
Fixpoint has_line (fuel : nat) (i : Z) s : bool :=
  match fuel with
  | O => false
  | S fuel' =>
      if negb (i =? completed_write s) then
        if bool_decide (completed s !! Z.to_nat i = Some 10) then true
        else has_line fuel' ((i + 1) mod 1024) s
      else false
  end.

Definition hasCompletedLine s : bool := has_line 1024 (completed_read s) s.

(** [WaitQueue.wakeOne] and [WaitQueue.wait]. *)
Definition wakeOne s : KeyboardInputBuffer :=
  match wait_queue s with
  | [] => s
  | t :: q => set_tasks q (woken s ++ [t]) s
  end.

Definition wait (t : task) s : KeyboardInputBuffer := set_tasks (wait_queue s ++ [t]) (woken s) s.

Fixpoint submit_from (fuel : nat) (i : Z) s : KeyboardInputBuffer :=
  match fuel with
  | O => s
  | S fuel' =>
      if i <? line_len s then
        submit_from fuel' (i + 1) (completedAppend (nth (Z.to_nat i) (line s) 0) s)
      else s
  end.

Definition submitLine s : KeyboardInputBuffer :=
  let s := submit_from (Z.to_nat (line_len s)) 0 s in
  let s := completedAppend 10 s in
  let s := set_line (line s) 0 s in
  wakeOne s.

(** [std.ascii.isPrint] *)
Definition isPrint (byte : Z) : bool := (32 <=? byte) && (byte <=? 126).

Definition push (byte : Z) s : KeyboardInputBuffer :=
  if (byte =? 13) || (byte =? 10) then
    writeRawImmediate [13; 10] (submitLine s)
  else if (byte =? 8) || (byte =? 127) then
    if 0 <? line_len s then writeRawImmediate [8; 32; 8] (set_line (line s) (line_len s - 1) s) else s
  else if byte =? 3 then
    writeRawImmediate (bytes_of "^C" ++ [13; 10]) (set_line (line s) 0 s)
  else if isPrint byte && (line_len s <? 256 - 1) then
    let s := set_line (<[Z.to_nat (line_len s) := byte]> (line s)) (line_len s + 1) s in
    writeRawImmediate [byte] s
  else s.

(** The copying loop of [readLine] into a buffer of [n] bytes. *)
Fixpoint pop_line (n : nat) s : list Z * KeyboardInputBuffer :=
  match n with
  | O => ([], s)
  | S n' =>
      match completedPop s with
      | (None, s) => ([], s)
      | (Some byte, s) =>
          if byte =? 10 then ([byte], s)
          else let '(l, s) := pop_line n' s in (byte :: l, s)
      end
  end.

(** [readLine] from its start, or from the point after the wait, up to its
    return or to the next wait. *)
Definition readLine (t : task) s : option (list Z) * KeyboardInputBuffer :=
  if negb (hasCompletedLine s) then (None, wait t s)
  else let '(l, s) := pop_line (Z.to_nat (t_len t)) s in (Some l, s).

(** ** The queue it implements *)

(** The characters of the line being typed and the bytes ready to be read. *)
Record console := Console { current : list Z; queue : list Z }.

Definition input_ok s : Prop :=
  Zlen (line s) = 256 /\ 0 <= line_len s <= 255 /\
  ring_ok 1024 (completed s) (completed_read s) (completed_write s).

Definition console_of s : console :=
  Console (take (Z.to_nat (line_len s)) (line s))
    (ring_list 0 1024 (completed s) (completed_read s) (completed_write s)).

(** The queue keeps 1023 bytes; what does not fit is lost. *)
Definition key (byte : Z) (c : console) : console :=
  if (byte =? 13) || (byte =? 10) then
    Console [] (take 1023 (queue c ++ current c ++ [10]))
  else if (byte =? 8) || (byte =? 127) then
    Console (take (length (current c) - 1) (current c)) (queue c)
  else if byte =? 3 then Console [] (queue c)
  else if isPrint byte && (Zlen (current c) <? 255) then Console (current c ++ [byte]) (queue c)
  else c.

(** The first [n] bytes, but not beyond the first newline. *)
Fixpoint one_line (n : nat) (q : list Z) : list Z :=
  match n, q with
  | S n', byte :: q' => byte :: (if byte =? 10 then [] else one_line n' q')
  | _, _ => []
  end.

Lemma take_cap (a b c : list Z) : take 1023 (take 1023 (a ++ b) ++ c) = take 1023 (a ++ b ++ c).
Proof.
  rewrite !app_assoc, !(firstn_app 1023 _ c), take_take, length_take, Nat.min_id.
  f_equal. f_equal. lia.
Qed.

(** The parts of the state an operation on the ring leaves alone. *)
Definition same_line s s' : Prop :=
  line s' = line s /\ line_len s' = line_len s /\ wait_queue s' = wait_queue s /\
  woken s' = woken s /\ screen s' = screen s.

Lemma append_abs byte s : input_ok s ->
  input_ok (completedAppend byte s) /\ same_line s (completedAppend byte s) /\
  queue (console_of (completedAppend byte s)) = take 1023 (queue (console_of s) ++ [byte]).
Proof.
  intros (Hl & Hn & Ho). unfold completedAppend.
  pose proof (ring_full_len 0 1024 ltac:(lia) _ _ _ Ho) as Hf.
  pose proof (ring_list_bound 0 1024 ltac:(lia) (completed s) (completed_read s) (completed_write s)) as Hb.
  destruct (Z.eqb_spec ((completed_write s + 1) mod 1024) (completed_read s)) as [E|E]; cbn [negb].
  - symmetry in Hf. apply Z.eqb_eq in Hf. split; [done|]. split; [done|]. cbn [console_of queue].
    rewrite take_app_le by (unfold Zlen in Hf; lia). symmetry. apply take_ge. unfold Zlen in Hf. lia.
  - symmetry in Hf. apply Z.eqb_neq in Hf.
    destruct (ring_push_ok 0 1024 ltac:(lia) byte _ _ _ Ho E) as [Ho' El].
    split; [done|]. split; [done|]. cbn [console_of queue set_ring completed completed_read completed_write].
    rewrite El, take_ge; [done|]. rewrite length_app. unfold Zlen in *. simpl. lia.
Qed.

Lemma submit_abs s0 fuel : forall i s,
  input_ok s -> same_line s0 s -> 0 <= i -> line_len s - i <= Z.of_nat fuel ->
  let s' := submit_from fuel i s in
  input_ok s' /\ same_line s0 s' /\
  queue (console_of s') = take 1023 (queue (console_of s) ++ drop (Z.to_nat i) (current (console_of s))).
Proof.
  induction fuel as [|fuel IH]; intros i s Hok Hs Hi Hf s'; pose proof Hok as (Hl & Hn & Ho);
    pose proof (ring_list_bound 0 1024 ltac:(lia) (completed s) (completed_read s) (completed_write s)) as Hb.
  - split; [done|]. split; [done|]. cbn [s' submit_from console_of queue current].
    rewrite drop_ge, app_nil_r, take_ge; [done| |rewrite length_take]; unfold Zlen in *; lia.
  - unfold s'. cbn [submit_from]. destruct (Z.ltb_spec i (line_len s)) as [Hlt|Hge].
    + destruct (append_abs (nth (Z.to_nat i) (line s) 0) s Hok) as (Hok' & Hs' & Hq).
      destruct Hs' as (E1 & E2 & E3 & E4 & E5). set (s1 := completedAppend _ s) in *.
      specialize (IH (i + 1) s1 Hok'). destruct Hs as (F1 & F2 & F3 & F4 & F5).
      destruct IH as (A & B & C); [repeat split; congruence|lia|lia|].
      split; [done|]. split; [done|]. rewrite C, Hq. cbn [console_of current]. rewrite E1, E2.
      rewrite take_cap. f_equal. f_equal.
      assert (Hx : take (Z.to_nat (line_len s)) (line s) !! Z.to_nat i = Some (nth (Z.to_nat i) (line s) 0)).
      { rewrite lookup_take_lt by lia. rewrite nth_lookup.
        destruct (lookup_lt_is_Some_2 (line s) (Z.to_nat i)) as [x ->]; [unfold Zlen in *; lia|done]. }
      rewrite (drop_S _ _ _ Hx). simpl. f_equal. f_equal. lia.
    + split; [done|]. split; [done|]. cbn [console_of queue current].
      rewrite drop_ge, app_nil_r, take_ge; [done| |rewrite length_take]; unfold Zlen in *; lia.
Qed.

Lemma wakeOne_keeps s :
  line (wakeOne s) = line s /\ line_len (wakeOne s) = line_len s /\ console_of (wakeOne s) = console_of s /\
  (input_ok s -> input_ok (wakeOne s)) /\ screen (wakeOne s) = screen s /\
  woken (wakeOne s) = woken s ++ take 1 (wait_queue s) /\ wait_queue (wakeOne s) = drop 1 (wait_queue s).
Proof.
  unfold wakeOne. destruct (wait_queue s) as [|t q] eqn:E; cbn [take drop].
  - rewrite app_nil_r, E. done.
  - done.
Qed.

Lemma submitLine_abs s : input_ok s ->
  input_ok (submitLine s) /\ screen (submitLine s) = screen s /\
  console_of (submitLine s) = Console [] (take 1023 (queue (console_of s) ++ current (console_of s) ++ [10])) /\
  wait_queue (submitLine s) = drop 1 (wait_queue s) /\
  woken (submitLine s) = woken s ++ take 1 (wait_queue s).
Proof.
  intros Hok. unfold submitLine. pose proof Hok as (_ & Hn & _).
  destruct (submit_abs s (Z.to_nat (line_len s)) 0 s) as (Hok1 & Hs1 & Hq1); [done|done|lia|lia|].
  set (s1 := submit_from _ _ _) in *.
  destruct (append_abs 10 s1 Hok1) as (Hok2 & Hs2 & Hq2). set (s2 := completedAppend 10 s1) in *.
  assert (Hok3 : input_ok (set_line (line s2) 0 s2)) by (destruct Hok2 as (A & B & C); split; [done|]; split; [cbn; lia|done]).
  set (s3 := set_line _ _ _) in *. destruct (wakeOne_keeps s3) as (_ & _ & Ha & Hok4 & Hsc & Hw & Hq).
  destruct Hs1 as (E1 & E2 & E3 & E4 & E5), Hs2 as (F1 & F2 & F3 & F4 & F5).
  split; [now apply Hok4|]. split; [rewrite Hsc; cbn; congruence|]. split; [|].
  - rewrite Ha. unfold console_of at 1. cbn [s3 set_line line_len line completed completed_read completed_write].
    change (Z.to_nat 0) with O. f_equal. change (queue (console_of s2) = take 1023 (queue (console_of s) ++ current (console_of s) ++ [10])).
    rewrite Hq2, Hq1. apply take_cap.
  - rewrite Hq, Hw. cbn [s3 set_line wait_queue woken]. rewrite F3, F4, E3, E4. done.
Qed.

(** A key press does to the line and the queue what [key] says; it wakes a reader
    exactly when it ends a line. *)
Lemma push_abs byte s : input_ok s ->
  let n := if (byte =? 13) || (byte =? 10) then 1%nat else 0%nat in
  input_ok (push byte s) /\ console_of (push byte s) = key byte (console_of s) /\
  wait_queue (push byte s) = drop n (wait_queue s) /\
  woken (push byte s) = woken s ++ take n (wait_queue s).
Proof.
  intros Hok n. pose proof Hok as (Hl & Hn & Ho). unfold push, key, n. clear n.
  destruct (_ || _).
  { destruct (submitLine_abs s Hok) as (A & B & C & D & E). split; [done|]. rewrite <- C. done. }
  rewrite drop_0. cbn [take]. rewrite app_nil_r.
  assert (Hc : length (current (console_of s)) = Z.to_nat (line_len s)).
  { cbn [console_of current]. rewrite length_take. unfold Zlen in *. lia. }
  destruct (_ || _).
  { destruct (Z.ltb_spec 0 (line_len s)) as [Hp|Hp].
    - split; [split; [done|]; split; [cbn; lia|done]|]. split; [|done].
      rewrite Hc. unfold console_of. cbn. f_equal. rewrite take_take. f_equal. lia.
    - split; [done|]. split; [|done]. rewrite Hc. unfold console_of. cbn. f_equal.
      rewrite take_take. f_equal. lia. }
  destruct (byte =? 3); [split; [split; [done|]; split; [cbn; lia|done]|done]|].
  replace (Zlen (current (console_of s))) with (line_len s) by (unfold Zlen; lia).
  change (256 - 1) with 255. destruct (isPrint byte); [|done]. cbn [andb].
  destruct (Z.ltb_spec (line_len s) 255); [|done].
  assert (Hi : Zlen (<[Z.to_nat (line_len s):=byte]> (line s)) = 256)
    by (unfold Zlen; now rewrite length_insert).
  split; [split; [done|]; split; [cbn; lia|done]|]. split; [|done].
  unfold console_of at 1. cbn. f_equal. replace (Z.to_nat (line_len s + 1)) with (S (Z.to_nat (line_len s))) by lia.
  rewrite (take_S_r _ _ byte).
  - f_equal. apply take_insert_ge. lia.
  - apply list_lookup_insert_eq. unfold Zlen in Hl. lia.
Qed.

Lemma pop_abs s : input_ok s ->
  match queue (console_of s) with
  | [] => completedPop s = (None, s)
  | byte :: q => exists s', completedPop s = (Some byte, s') /\ input_ok s' /\ same_line s s' /\
                 console_of s' = Console (current (console_of s)) q
  end.
Proof.
  intros (Hl & Hn & Ho). cbn [console_of queue current]. unfold completedPop.
  destruct (Z.eqb_spec (completed_read s) (completed_write s)) as [E|E].
  - now rewrite E, ring_empty.
  - destruct (ring_pop_ok 0 1024 ltac:(lia) _ _ _ Ho E) as (b & Eb & Ho' & ->).
    rewrite Eb. eexists. split; [reflexivity|]. done.
Qed.

Lemma pop_line_abs n : forall s, input_ok s ->
  let l := one_line n (queue (console_of s)) in
  exists s', pop_line n s = (l, s') /\ input_ok s' /\ same_line s s' /\
  console_of s' = Console (current (console_of s)) (drop (length l) (queue (console_of s))).
Proof.
  induction n as [|n IH]; intros s Hok l.
  { exists s. split; [done|]. split; [done|]. split; [done|]. done. }
  cbn [pop_line]. pose proof (pop_abs s Hok) as Hp. unfold l. clear l.
  destruct (queue (console_of s)) as [|b q] eqn:Eq; cbn [one_line].
  - rewrite Hp. exists s. split; [done|]. split; [done|]. split; [done|].
    change (console_of s = Console (current (console_of s)) []). now rewrite <- Eq.
  - destruct Hp as (s1 & -> & Hok1 & Hs1 & Ha1). destruct (Z.eqb_spec b 10) as [->|].
    + exists s1. rewrite Ha1. done.
    + destruct (IH s1 Hok1) as (s2 & E & Hok2 & Hs2 & Ha2). rewrite Ha1 in E, Ha2.
      cbn [queue current] in *. rewrite E. exists s2. split; [done|]. split; [done|]. split; [|done].
      destruct Hs1 as (A1 & A2 & A3 & A4 & A5), Hs2 as (B1 & B2 & B3 & B4 & B5).
      repeat split; congruence.
Qed.

Lemma has_line_abs c w lim fuel : forall i s, completed s = c -> completed_write s = w ->
  ring_ok 1024 c i w -> ring_len 1024 i w <= Z.of_nat fuel -> lim = ring_list 0 1024 c i w ->
  has_line (S fuel) i s = bool_decide (10 ∈ lim).
Proof.
  revert lim. induction fuel as [|fuel IH]; intros lim i s Hc Hw Ho Hf ->; cbn [has_line]; rewrite Hc, Hw.
  - destruct (Z.eqb_spec i w) as [->|E]; cbn [negb].
    + now rewrite ring_empty by lia.
    + destruct (ring_pop_ok 0 1024 ltac:(lia) _ _ _ Ho E) as (b & _ & _ & El).
      pose proof (Zlen_ring_list 0 1024 ltac:(lia) c i w) as Hlen. rewrite El, Zlen_cons in Hlen.
      pose proof (Zlen_nonneg (ring_list 0 1024 c ((i + 1) mod 1024) w)). lia.
  - destruct (Z.eqb_spec i w) as [->|E]; cbn [negb].
    + now rewrite ring_empty by lia.
    + destruct (ring_pop_ok 0 1024 ltac:(lia) _ _ _ Ho E) as (b & Eb & Ho' & El).
      pose proof (Zlen_ring_list 0 1024 ltac:(lia) c i w) as Hlen. rewrite El, Zlen_cons, Zlen_ring_list in Hlen by lia.
      rewrite Eb, El. case_bool_decide as E1.
      * injection E1 as ->. symmetry. apply bool_decide_eq_true. left.
      * rewrite <- Hc, <- Hw in *.
        change (has_line (S fuel) ((i + 1) mod 1024) s = bool_decide (10 ∈ b :: ring_list 0 1024 (completed s) ((i + 1) mod 1024) (completed_write s))).
        rewrite (IH _ _ s eq_refl eq_refl Ho' ltac:(lia) eq_refl).
        apply bool_decide_ext. rewrite elem_of_cons. naive_solver.
Qed.

Lemma hasCompletedLine_abs s : input_ok s -> hasCompletedLine s = bool_decide (10 ∈ queue (console_of s)).
Proof.
  intros (_ & _ & Ho). unfold hasCompletedLine.
  apply (has_line_abs (completed s) (completed_write s) _ 1023); [done..| |done].
  unfold ring_len. pose proof (Z.mod_pos_bound (completed_write s - completed_read s) 1024). lia.
Qed.

(** A reader takes one line, or the part of it that fits its buffer, and waits
    when there is no line. *)
Lemma readLine_abs t s : input_ok s ->
  if bool_decide (10 ∈ queue (console_of s)) then
    let l := one_line (Z.to_nat (t_len t)) (queue (console_of s)) in
    exists s', readLine t s = (Some l, s') /\ input_ok s' /\ same_line s s' /\
    console_of s' = Console (current (console_of s)) (drop (length l) (queue (console_of s)))
  else readLine t s = (None, wait t s).
Proof.
  intros Hok. unfold readLine. rewrite hasCompletedLine_abs by done.
  case_bool_decide; [|done]. cbn [negb].
  destruct (pop_line_abs (Z.to_nat (t_len t)) s Hok) as (s' & E & H'). rewrite E. now exists s'.
Qed.

(** ** Sequences of key presses and reads *)

Inductive input_op := Key (byte : Z) | Read (t : task).

Definition exec (o : input_op) s : option (list Z) * KeyboardInputBuffer :=
  match o with
  | Key byte => (None, push byte s)
  | Read t => readLine t s
  end.

Definition aexec (o : input_op) (c : console) : option (list Z) * console :=
  match o with
  | Key byte => (None, key byte c)
  | Read t =>
      if bool_decide (10 ∈ queue c) then
        let l := one_line (Z.to_nat (t_len t)) (queue c) in
        (Some l, Console (current c) (drop (length l) (queue c)))
      else (None, c)
  end.

(** The results of a sequence and the state after it, for both. *)
Fixpoint exec_all {S : Type} (step : input_op -> S -> option (list Z) * S) (ops : list input_op) (x : S)
  : list (option (list Z)) * S :=
  match ops with
  | [] => ([], x)
  | o :: ops =>
      let '(r, x) := step o x in
      let '(rs, x) := exec_all step ops x in (r :: rs, x)
  end.

Lemma exec_abs o s : input_ok s ->
  let '(r, s') := exec o s in input_ok s' /\ aexec o (console_of s) = (r, console_of s').
Proof.
  intros Hok. destruct o as [b|t]; cbn [exec aexec].
  - destruct (push_abs b s Hok) as (A & B & _). now rewrite B.
  - pose proof (readLine_abs t s Hok) as Hr. case_bool_decide.
    + destruct Hr as (s' & -> & A & _ & B). now rewrite B.
    + rewrite Hr. done.
Qed.

Lemma exec_all_abs ops : forall s, input_ok s ->
  let '(rs, s') := exec_all exec ops s in
  input_ok s' /\ exec_all aexec ops (console_of s) = (rs, console_of s').
Proof.
  induction ops as [|o ops IH]; intros s Hok; [done|]. cbn [exec_all].
  pose proof (exec_abs o s Hok) as He. destruct (exec o s) as [r s1]. destruct He as [Hok1 ->].
  specialize (IH s1 Hok1). destruct (exec_all exec ops s1) as [rs s2]. destruct IH as [Hok2 ->]. done.
Qed.

Lemma empty_input_ok l c : Zlen l = 256 -> Zlen c = 1024 ->
  input_ok (empty_input l c) /\ console_of (empty_input l c) = Console [] [].
Proof.
  intros Hl Hc. split; [|unfold console_of; cbn; f_equal; now rewrite ring_empty].
  split; [done|]. split; [cbn; lia|]. split; [done|]. cbn. lia.
Qed.

(** C33. The buffer with its array, positions and ring of 1024 cells behaves, for
    every sequence of key presses and reads, as a line being edited and a queue
    that keeps 1023 bytes: it returns the same lines and waits in the same
    places, whatever the arrays hold at the start. *)
Theorem line_discipline_refines ops l c :
  Zlen l = 256 -> Zlen c = 1024 ->
  fst (exec_all exec ops (empty_input l c)) = fst (exec_all aexec ops (Console [] [])).
Proof.
  intros Hl Hc. destruct (empty_input_ok l c Hl Hc) as [Hok Ha].
  pose proof (exec_all_abs ops _ Hok) as H. destruct (exec_all exec ops _) as [rs s'].
  destruct H as [_ E]. now rewrite <- Ha, E.
Qed.

(** ** Typed lines *)

(** The keys of a line and the text they leave: characters, corrections with
    backspace and restarts with Ctrl-C. *)
Inductive types : list Z -> list Z -> Prop :=
  | types_nil : types [] []
  | types_char ks t c : types ks t -> isPrint c = true -> Zlen t < 255 -> types (ks ++ [c]) (t ++ [c])
  | types_back ks t c : types ks (t ++ [c]) -> types (ks ++ [8]) t
  | types_restart ks t : types ks t -> types (ks ++ [3]) [].

Definition keys (l : list Z) (c : console) : console := fold_left (fun c b => key b c) l c.

Lemma types_keys ks t q : types ks t -> keys ks (Console [] q) = Console t q.
Proof.
  unfold keys. induction 1 as [|ks t c _ IH Hc Ht|ks t c _ IH|ks t _ IH]; [done|..];
    rewrite fold_left_app, IH; cbn [fold_left key].
  - unfold isPrint in *. unfold key. destruct (Z.eqb_spec c 13), (Z.eqb_spec c 10), (Z.eqb_spec c 8),
      (Z.eqb_spec c 127), (Z.eqb_spec c 3); try lia; cbn [orb]. unfold isPrint. rewrite Hc. cbn [current queue andb].
    destruct (Z.ltb_spec (Zlen t) 255); [done|lia].
  - unfold key. cbn [Z.eqb Pos.eqb orb current queue]. f_equal. rewrite length_app. cbn [length].
    rewrite take_app_le, take_ge by lia. done.
  - done.
Qed.

Lemma types_print ks t : types ks t -> Forall (fun c => isPrint c = true) t /\ Zlen t <= 255.
Proof.
  induction 1 as [|ks t c _ [IH IHl] Hc Ht|ks t c _ [IH IHl]|ks t _ _].
  - done.
  - split; [apply Forall_app; auto|]. rewrite Zlen_app. change (Zlen [c]) with 1. lia.
  - apply Forall_app in IH as [IH _]. rewrite Zlen_app in IHl. change (Zlen [c]) with 1 in IHl. split; [done|lia].
  - done.
Qed.

Lemma one_line_text t q n : Forall (fun c => isPrint c = true) t -> (length t < n)%nat ->
  one_line n (t ++ 10 :: q) = t ++ [10].
Proof.
  revert n. induction t as [|c t IH]; intros [|n] Ht Hn; simpl in *; try lia; [done|].
  inversion_clear Ht as [|? ? Hc Ht']. unfold isPrint in Hc. destruct (Z.eqb_spec c 10); [lia|].
  rewrite IH by (done || lia). done.
Qed.

Definition enter (l : list Z) : list input_op := Key <$> (l ++ [10]).

Lemma exec_all_app {S} (step : input_op -> S -> option (list Z) * S) a b x :
  exec_all step (a ++ b) x =
  (let '(ra, x) := exec_all step a x in let '(rb, x) := exec_all step b x in (ra ++ rb, x)).
Proof.
  revert x. induction a as [|o a IH]; intros x; cbn [exec_all app].
  - now destruct (exec_all step b x).
  - destruct (step o x) as [r y]. rewrite IH. destruct (exec_all step a y) as [ra z].
    now destruct (exec_all step b z).
Qed.

Lemma aexec_keys l c : exec_all aexec (Key <$> l) c = (replicate (length l) None, keys l c).
Proof.
  revert c. induction l as [|b l IH]; intros c; [done|]. rewrite fmap_cons. cbn [exec_all aexec].
  rewrite IH. done.
Qed.

(** All lines are typed before the first is read. *)
Lemma enter_all kss ts q :
  Forall2 types kss ts -> Zlen q + Zlen (concat ((fun t => t ++ [10]) <$> ts)) <= 1023 ->
  (exec_all aexec (concat (enter <$> kss)) (Console [] q)).2 =
  Console [] (q ++ concat ((fun t => t ++ [10]) <$> ts)).
Proof.
  intros H. revert q. induction H as [|ks t kss ts Hk _ IH]; intros q Hq; [now rewrite app_nil_r|].
  rewrite !fmap_cons in *. cbn [concat] in *. rewrite !Zlen_app in Hq. rewrite exec_all_app.
  unfold enter at 1. rewrite aexec_keys. unfold keys. rewrite fold_left_app.
  fold (keys ks (Console [] q)). rewrite (types_keys ks t q Hk). cbn [fold_left].
  change (key 10 (Console t q)) with (Console [] (take 1023 (q ++ t ++ [10]))).
  pose proof (Zlen_nonneg (concat ((fun t => t ++ [10]) <$> ts))).
  rewrite take_ge by (rewrite !length_app; unfold Zlen in *; lia).
  specialize (IH (q ++ t ++ [10])). rewrite !Zlen_app in IH. specialize (IH ltac:(lia)).
  destruct (exec_all aexec (concat (enter <$> kss)) _) as [rs x]. cbn [snd] in *. rewrite IH.
  now rewrite <- app_assoc.
Qed.

Lemma read_all tk ts :
  256 <= t_len tk -> Forall (fun t => Forall (fun c => isPrint c = true) t /\ Zlen t <= 255) ts ->
  (exec_all aexec (replicate (S (length ts)) (Read tk))
    (Console [] (concat ((fun t => t ++ [10]) <$> ts)))).1 = ((fun t => Some (t ++ [10])) <$> ts) ++ [None].
Proof.
  intros Hn H. induction H as [|t ts [Hp Hl] _ IH]; [done|].
  rewrite !fmap_cons. change (replicate (S (length (t :: ts))) (Read tk)) with ([Read tk] ++ replicate (S (length ts)) (Read tk)).
  rewrite exec_all_app. cbn [exec_all aexec concat queue current].
  rewrite bool_decide_eq_true_2 by set_solver.
  replace ((t ++ [10]) ++ concat ((fun t => t ++ [10]) <$> ts)) with (t ++ 10 :: concat ((fun t => t ++ [10]) <$> ts))
    by now rewrite <- app_assoc.
  rewrite one_line_text by (done || unfold Zlen in *; lia). cbv zeta.
  replace (t ++ 10 :: concat ((fun t => t ++ [10]) <$> ts)) with ((t ++ [10]) ++ concat ((fun t => t ++ [10]) <$> ts))
    by now rewrite <- app_assoc.
  rewrite drop_app_length.
  destruct (exec_all aexec (replicate (S (length ts)) (Read tk)) _) as [rs x]. cbn [fst] in *. rewrite IH. done.
Qed.

(** Lines that are typed ahead are read back. *)
Lemma typed_lines_ret kss ts tk l c :
  Zlen l = 256 -> Zlen c = 1024 -> Forall2 types kss ts ->
  Zlen (concat ((fun t => t ++ [10]) <$> ts)) <= 1023 -> 256 <= t_len tk ->
  let s := snd (exec_all exec (concat (enter <$> kss)) (empty_input l c)) in
  fst (exec_all exec (replicate (S (length ts)) (Read tk)) s) =
  ((fun t => Some (t ++ [10])) <$> ts) ++ [None].
Proof.
  intros Hl Hc Ht Hsum Hn s. destruct (empty_input_ok l c Hl Hc) as [Hok Ha].
  pose proof (exec_all_abs (concat (enter <$> kss)) _ Hok) as H1. unfold s. clear s. rewrite Ha in H1.
  pose proof (enter_all kss ts [] Ht Hsum) as He.
  destruct (exec_all exec (concat (enter <$> kss)) _) as [rs s1]. destruct H1 as [Hok1 E1].
  rewrite E1 in He. cbn [snd app] in *.
  pose proof (exec_all_abs (replicate (S (length ts)) (Read tk)) _ Hok1) as H2. rewrite He in H2.
  destruct (exec_all exec (replicate _ _) s1) as [rs2 s2]. destruct H2 as [_ E2].
  cbn [fst]. rewrite <- (read_all tk ts Hn), E2; [done|].
  clear -Ht. induction Ht as [|ks t kss ts Hk _ IH]; constructor; [now apply types_print in Hk|done].
Qed.

(** ** Waiting and waking

    One task reads, again and again; key presses come at any time. *)

Inductive reader_step (t : task) : KeyboardInputBuffer -> KeyboardInputBuffer -> Prop :=
  | reader_key s byte : reader_step t s (push byte s)
  | reader_call s o s' :
      wait_queue s = [] -> woken s = [] -> readLine t s = (o, s') -> reader_step t s s'
  | reader_resume s o s' :
      woken s = [t] -> readLine t (set_tasks (wait_queue s) [] s) = (o, s') -> reader_step t s s'.

(** The reader is in one place, and waits only when there is no line. *)
Definition reader_inv (t : task) s : Prop :=
  input_ok s /\ (10 ∉ current (console_of s)) /\
  (wait_queue s = [] /\ (woken s = [] \/ woken s = [t]) \/
   wait_queue s = [t] /\ woken s = [] /\ 10 ∉ queue (console_of s)).

Lemma readLine_inv t s o s' :
  input_ok s -> 10 ∉ current (console_of s) -> wait_queue s = [] -> woken s = [] ->
  readLine t s = (o, s') -> reader_inv t s'.
Proof.
  intros Hok Hcur Hq Hw E. pose proof (readLine_abs t s Hok) as Hr. case_bool_decide as Hin.
  - destruct Hr as (s1 & E1 & Hok1 & (_ & _ & Hq1 & Hw1 & _) & Ha). rewrite E in E1. injection E1 as -> ->.
    split; [done|]. rewrite Ha. split; [done|]. left. rewrite Hq1, Hw1. auto.
  - rewrite E in Hr. injection Hr as -> ->. split; [done|]. split; [done|].
    right. unfold wait. cbn. rewrite Hq. done.
Qed.

Lemma key_no_newline byte c :
  (byte =? 13) || (byte =? 10) = false -> queue (key byte c) = queue c.
Proof.
  intros E. unfold key. rewrite E.
  destruct ((byte =? 8) || (byte =? 127)); [done|]. destruct (byte =? 3); [done|]. now destruct (_ && _).
Qed.

Lemma key_current byte c : 10 ∉ current c -> 10 ∉ current (key byte c).
Proof.
  intros Hc. unfold key. destruct ((byte =? 13) || (byte =? 10)) eqn:E; [apply not_elem_of_nil|].
  destruct ((byte =? 8) || (byte =? 127)).
  { cbn [current]. intros Hin. apply elem_of_take in Hin as (i & Hi & _). apply Hc. exact (list_elem_of_lookup_2 _ _ _ Hi). }
  destruct (byte =? 3); [apply not_elem_of_nil|]. destruct (_ && _); [|done]. cbn [current].
  rewrite elem_of_app, list_elem_of_singleton. intros [?|<-]; done.
Qed.

Lemma reader_inv_step t s s' : reader_inv t s -> reader_step t s s' -> reader_inv t s'.
Proof.
  intros (Hok & Hcur & Hi) Hs. destruct Hs as [s b|s o s' Hq Hw E|s o s' Hw E].
  - destruct (push_abs b s Hok) as (Hok' & Ha & Hq & Hw). split; [done|]. rewrite Hq, Hw, Ha.
    split; [now apply key_current|]. destruct Hi as [(-> & Hi)|(-> & -> & Hn)].
    + left. rewrite take_nil, drop_nil, app_nil_r. done.
    + destruct (_ || _) eqn:E; [left; auto|]. right. rewrite key_no_newline by done. done.
  - eapply readLine_inv; eassumption.
  - destruct Hi as [(Hq & _)|(_ & Hw' & _)]; [|congruence].
    eapply (readLine_inv t (set_tasks (wait_queue s) [] s)); [exact Hok|exact Hcur|exact Hq|reflexivity|exact E].
Qed.

Lemma reader_inv_reachable t l c s :
  Zlen l = 256 -> Zlen c = 1024 -> rtc (reader_step t) (empty_input l c) s -> reader_inv t s.
Proof.
  intros Hl Hc Hr.
  eapply (rtc_ind_r (reader_inv t)); [|intros x y _ Hxy Hx; exact (reader_inv_step t x y Hx Hxy)|exact Hr].
  destruct (empty_input_ok l c Hl Hc) as [Hok Ha]. split; [done|]. rewrite Ha.
  split; [apply not_elem_of_nil|left; auto].
Qed.

Lemma one_line_first n q : 10 ∉ q -> one_line n (q ++ [10]) = take n (q ++ [10]).
Proof.
  revert n. induction q as [|b q IH]; intros [|n] Hq; try done.
  - destruct n; done.
  - apply not_elem_of_cons in Hq as [Hb Hq]. cbn [app one_line take]. destruct (Z.eqb_spec b 10); [congruence|].
    now rewrite IH.
Qed.

(** No wake-up is lost: in every reachable state in which the reader waits
    there is no line to read, and when the queue has room for the line being
    typed, Enter wakes the reader, and its next step returns the bytes up to
    and including the newline, as far as its buffer takes them. *)
Theorem waiting_reader_wakes t l c s :
  Zlen l = 256 -> Zlen c = 1024 ->
  rtc (reader_step t) (empty_input l c) s -> wait_queue s = [t] ->
  hasCompletedLine s = false /\
  (Zlen (queue (console_of s)) + Zlen (current (console_of s)) < 1023 ->
   woken (push 10 s) = [t] /\ wait_queue (push 10 s) = [] /\
   exists s', readLine t (set_tasks [] [] (push 10 s)) =
     (Some (take (Z.to_nat (t_len t)) ((queue (console_of s) ++ current (console_of s)) ++ [10])), s')).
Proof.
  intros Hl Hc Hr Hq. destruct (reader_inv_reachable t l c s Hl Hc Hr) as (Hok & Hcur & Hi).
  destruct Hi as [(Hq' & _)|(_ & Hw & Hno)]; [congruence|].
  split; [rewrite hasCompletedLine_abs by done; now apply bool_decide_eq_false|]. intros Hroom.
  destruct (push_abs 10 s Hok) as (Hok' & Ha & Hq' & Hw'). cbn [Z.eqb Pos.eqb orb] in Hq', Hw'.
  rewrite Hq in Hq', Hw'. rewrite Hw in Hw'. split; [done|]. split; [done|].
  pose proof (readLine_abs t (set_tasks [] [] (push 10 s)) Hok') as H1.
  change (console_of (set_tasks [] [] (push 10 s))) with (console_of (push 10 s)) in H1. rewrite Ha in H1.
  change (key 10 (console_of s)) with (Console [] (take 1023 (queue (console_of s) ++ current (console_of s) ++ [10]))) in H1.
  rewrite take_ge in H1 by (rewrite !length_app; unfold Zlen in Hroom; cbn [length]; lia).
  cbn [queue] in H1. rewrite bool_decide_eq_true_2, app_assoc in H1 by set_solver.
  destruct H1 as (s' & E & _). exists s'. rewrite E, one_line_first by set_solver. done.
Qed.

(** ** A reader that is never woken

    A line of 255 characters and Enter, and a reader with a buffer of 200 bytes. *)

Definition long_line : list input_op := Key <$> (replicate 255 97 ++ [10]).
Definition short_reader : task := Task 0 200.

(** Four lines ahead of the reader, then a line for every read. *)
Definition typing_ahead : list input_op :=
  concat (replicate 4 long_line) ++ concat (replicate 6 (Read short_reader :: long_line)).

(** Reads that return at once are steps of the reader. *)
Definition served (t : task) (o : input_op) (r : option (list Z)) : Prop :=
  match o with Key _ => True | Read t' => t' = t /\ is_Some r end.

Lemma exec_reach t ops : forall s rs s',
  input_ok s -> wait_queue s = [] -> woken s = [] -> exec_all exec ops s = (rs, s') ->
  Forall2 (served t) ops rs -> rtc (reader_step t) s s'.
Proof.
  induction ops as [|o ops IH]; intros s rs s' Hok Hq Hw E Hs; cbn [exec_all] in E.
  - injection E as <- <-. apply rtc_refl.
  - destruct (exec o s) as [r s1] eqn:E1. destruct (exec_all exec ops s1) as [rs1 s2] eqn:E2.
    injection E as <- <-. inversion_clear Hs as [|? ? ? ? Ho Hs']. pose proof (exec_abs o s Hok) as Ha.
    rewrite E1 in Ha. destruct Ha as [Hok1 _]. destruct o as [b|t']; cbn [exec] in E1.
    + injection E1 as <- <-. destruct (push_abs b s Hok) as (_ & _ & Hq1 & Hw1).
      rewrite Hq, drop_nil in Hq1. rewrite Hq, Hw, take_nil in Hw1.
      eapply rtc_l; [apply reader_key|]. exact (IH _ _ _ Hok1 Hq1 Hw1 E2 Hs').
    + destruct Ho as [-> [l ->]]. pose proof (readLine_abs t s Hok) as Hr. case_bool_decide.
      * destruct Hr as (s3 & E3 & _ & (_ & _ & Hq1 & Hw1 & _) & _). rewrite E1 in E3. injection E3 as _ <-.
        rewrite Hq in Hq1. rewrite Hw in Hw1.
        eapply rtc_l; [exact (reader_call t s _ _ Hq Hw E1)|]. exact (IH _ _ _ Hok1 Hq1 Hw1 E2 Hs').
      * rewrite E1 in Hr. discriminate.
Qed.

Fixpoint all_served (t : task) (ops : list input_op) (rs : list (option (list Z))) : bool :=
  match ops, rs with
  | [], [] => true
  | Key _ :: ops, _ :: rs => all_served t ops rs
  | Read t' :: ops, Some _ :: rs => bool_decide (t' = t) && all_served t ops rs
  | _, _ => false
  end.

Lemma all_served_ok t ops : forall rs, all_served t ops rs = true -> Forall2 (served t) ops rs.
Proof.
  induction ops as [|[b|t'] ops IH]; intros [|r rs] H; try done.
  - constructor; [done|auto].
  - destruct r; [|done]. cbn [all_served] in H. apply andb_prop in H as [Ht H].
    apply bool_decide_eq_true in Ht. constructor; [split; [done|eauto]|auto].
Qed.

(** The queue is full and has no newline. *)
Definition stuck s : Prop :=
  input_ok s /\ length (queue (console_of s)) = 1023%nat /\ 10 ∉ queue (console_of s).

Lemma stuck_read t s o s' : stuck s -> readLine t s = (o, s') -> stuck s'.
Proof.
  intros (Hok & Hl & Hn) E. pose proof (readLine_abs t s Hok) as Hr.
  rewrite bool_decide_eq_false_2 in Hr by done. rewrite E in Hr. injection Hr as -> ->. done.
Qed.

Lemma stuck_step t s s' : stuck s -> reader_step t s s' -> stuck s'.
Proof.
  intros Hs H. destruct H as [s b|s o s' _ _ E|s o s' _ E].
  - destruct Hs as (Hok & Hl & Hn). destruct (push_abs b s Hok) as (Hok' & Ha & _).
    assert (Eq : queue (key b (console_of s)) = queue (console_of s)).
    { destruct ((b =? 13) || (b =? 10)) eqn:E; [|now apply key_no_newline]. unfold key. rewrite E.
      cbn [queue]. rewrite <- Hl. apply take_app_length. }
    split; [done|]. rewrite Ha, Eq. done.
  - eapply stuck_read; eassumption.
  - apply (stuck_read t (set_tasks (wait_queue s) [] s) o s'); [exact Hs|exact E].
Qed.

(** The ring drops the newline of a line that does not fit and keeps its
    characters.  Typing ahead of a reader with a small buffer therefore leads to
    a ring that is full and has no newline: from that state on, whatever is
    typed, Enter included, there is never a line for the reader again. *)
Theorem reader_blocked_forever l c :
  Zlen l = 256 -> Zlen c = 1024 ->
  exists s, rtc (reader_step short_reader) (empty_input l c) s /\
  forall s', rtc (reader_step short_reader) s s' -> hasCompletedLine s' = false.
Proof.
  intros Hl Hc. destruct (empty_input_ok l c Hl Hc) as [Hok Ha].
  pose proof (exec_all_abs typing_ahead _ Hok) as H1. rewrite Ha in H1.
  destruct (exec_all exec typing_ahead _) as [rs s] eqn:E. destruct H1 as [Hok1 E1]. exists s.
  assert (Hq : queue (console_of s) = replicate 1023 97).
  { transitivity (queue (snd (exec_all aexec typing_ahead (Console [] [])))); [now rewrite E1|].
    vm_compute. reflexivity. }
  split.
  - eapply exec_reach; [exact Hok|done|done|exact E|].
    replace rs with (fst (exec_all aexec typing_ahead (Console [] []))) by now rewrite E1.
    apply all_served_ok. vm_compute. reflexivity.
  - intros s' Hr. assert (Hs : stuck s').
    { eapply (rtc_ind_r stuck); [|intros x y _ Hxy Hx; exact (stuck_step short_reader x y Hx Hxy)|exact Hr].
      split; [done|]. rewrite Hq. split; [apply length_replicate|].
      intros Hin. apply elem_of_replicate in Hin. destruct Hin; discriminate. }
    destruct Hs as (Hok' & _ & Hn). rewrite hasCompletedLine_abs by done. now apply bool_decide_eq_false.
Qed.

(** ** Witnesses *)

Definition junk_line : list Z := replicate 256 170.
Definition junk_ring : list Z := replicate 1024 170.
Definition reader : task := Task 1 256.

Lemma line_discipline_refines_witness :
  let ops := Key <$> [97; 98; 8; 99; 10] in
  fst (exec_all exec (ops ++ [Read reader]) (empty_input junk_line junk_ring)) =
  replicate 5 None ++ [Some [97; 99; 10]].
Proof.
  intros ops. rewrite (line_discipline_refines (ops ++ [Read reader]) junk_line junk_ring) by reflexivity.
  vm_compute. reflexivity.
Defined.

(** The reader waits from the start. *)
Definition waiting_demo : KeyboardInputBuffer := wait reader (empty_input junk_line junk_ring).

Lemma waiting_reader_wakes_witness :
  hasCompletedLine waiting_demo = false /\ woken (push 10 waiting_demo) = [reader].
Proof.
  destruct (waiting_reader_wakes reader junk_line junk_ring waiting_demo) as [H1 H2].
  - reflexivity.
  - reflexivity.
  - eapply rtc_l; [|apply rtc_refl]. apply (reader_call reader _ None); reflexivity.
  - reflexivity.
  - split; [exact H1|]. apply H2. vm_compute. reflexivity.
Defined.

Lemma reader_blocked_forever_witness :
  exists s, rtc (reader_step short_reader) (empty_input junk_line junk_ring) s /\
  forall s', rtc (reader_step short_reader) s s' -> hasCompletedLine s' = false.
Proof. apply (reader_blocked_forever junk_line junk_ring); reflexivity. Defined.
