(* ===== verification/Ps2.v ===== *)
(** * The keyboard driver

    [src/src/innigkeit/drivers/input/ps2.zig]: the interrupt handler puts every
    byte of the keyboard into a ring for games ([RawKeyBuffer]), and translates
    scan codes to characters for the line discipline.  The ring is a first-in
    first-out queue of 255 bytes, also when interrupts come in the middle of a
    drain; text typed on the keyboard is read back line by line. *)

From S2P Require Import Prelude Machine Ring LineInput.

Definition Z_of_byte (b : Byte.byte) : Z := Z.of_N (Byte.to_N b).

(** ** The ring of raw bytes *)

Record RawKeyBuffer := RawKeys { rk_buf : list Byte.byte; rk_read : Z; rk_write : Z }.

Definition raw_kb : RawKeyBuffer := RawKeys (replicate 256 Byte.x00) 0 0.

(** [push], called by the interrupt handler. *)
Definition raw_push (byte : Byte.byte) (rb : RawKeyBuffer) : RawKeyBuffer :=
  let w := rk_write rb in
  let next := (w + 1) mod 256 in
  if next =? rk_read rb then rb
  else RawKeys (<[Z.to_nat w := byte]> (rk_buf rb)) (rk_read rb) next.

(** [drain] into a slice of [n] bytes: the bytes and the ring after it.  The
    positions are in range in every state that [keys_ok] describes. *)
Fixpoint raw_drain (n : nat) (rb : RawKeyBuffer) : list Byte.byte * RawKeyBuffer :=
  match n with
  | O => ([], rb)
  | S n' =>
      if rk_read rb =? rk_write rb then ([], rb)
      else
        match rk_buf rb !! Z.to_nat (rk_read rb) with
        | None => ([], rb)
        | Some b =>
            let rb' := RawKeys (rk_buf rb) ((rk_read rb + 1) mod 256) (rk_write rb) in
            let '(l, rb'') := raw_drain n' rb' in (b :: l, rb'')
        end
  end.

Definition keys_ok (rb : RawKeyBuffer) : Prop := ring_ok 256 (rk_buf rb) (rk_read rb) (rk_write rb).

(** The bytes that wait in the ring, oldest first. *)
Definition keys_list (rb : RawKeyBuffer) : list Byte.byte :=
  ring_list Byte.x00 256 (rk_buf rb) (rk_read rb) (rk_write rb).

Definition keys_full (rb : RawKeyBuffer) : bool := (rk_write rb + 1) mod 256 =? rk_read rb.

(** The queue the ring stands for: a byte is appended while there are fewer
    than 255, and dropped otherwise. *)
Definition queue_push (b : Byte.byte) (q : list Byte.byte) : list Byte.byte :=
  if Zlen q <? 255 then q ++ [b] else q.

Lemma keys_list_bound rb : Zlen (keys_list rb) <= 255.
Proof. apply (ring_list_bound Byte.x00 256). lia. Qed.

Lemma keys_full_len rb : keys_ok rb -> keys_full rb = (Zlen (keys_list rb) =? 255).
Proof. apply (ring_full_len Byte.x00 256). lia. Qed.

Lemma raw_push_ok b rb : keys_ok rb ->
  keys_ok (raw_push b rb) /\ keys_list (raw_push b rb) = queue_push b (keys_list rb).
Proof.
  intros Ho. pose proof (keys_full_len rb Ho) as Hf. pose proof (keys_list_bound rb).
  unfold raw_push, queue_push, keys_full in *.
  destruct (Z.eqb_spec ((rk_write rb + 1) mod 256) (rk_read rb)) as [E|E].
  - split; [done|]. destruct (Z.ltb_spec (Zlen (keys_list rb)) 255); [lia|done].
  - destruct (ring_push_ok Byte.x00 256 ltac:(lia) b _ _ _ Ho E) as [Ho' El].
    split; [exact Ho'|]. destruct (Z.ltb_spec (Zlen (keys_list rb)) 255); [exact El|lia].
Qed.

Lemma raw_drain_ok n : forall rb, keys_ok rb ->
  let '(l, rb') := raw_drain n rb in
  keys_ok rb' /\ l = take n (keys_list rb) /\ keys_list rb' = drop n (keys_list rb).
Proof.
  induction n as [|n IH]; intros rb Ho; [done|]. cbn [raw_drain].
  destruct (Z.eqb_spec (rk_read rb) (rk_write rb)) as [E|E].
  - unfold keys_list. now rewrite E, ring_empty.
  - destruct (ring_pop_ok Byte.x00 256 ltac:(lia) _ _ _ Ho E) as (b & Eb & Ho' & El). rewrite Eb.
    set (rb' := RawKeys _ _ _). specialize (IH rb' Ho'). destruct (raw_drain n rb') as [l rb''].
    destruct IH as (H1 & H2 & H3). assert (Hl : keys_list rb = b :: keys_list rb') by exact El.
    rewrite Hl. simpl. rewrite <- H2, H3. done.
Qed.

Lemma raw_drain_le n : forall rb, (length (raw_drain n rb).1 <= n)%nat.
Proof.
  induction n as [|n IH]; intros rb; cbn [raw_drain]; [done|].
  destruct (_ =? _); [simpl; lia|]. destruct (rk_buf rb !! _); [|simpl; lia].
  match goal with |- context [raw_drain n ?r] => specialize (IH r); destruct (raw_drain n r) end.
  simpl in *. lia.
Qed.

(** *** Interleaving

    The producer is the interrupt handler, the consumer a system call, possibly
    on another processor.  Each load and store of [push] and [drain] is a step;
    the steps of the two interleave in any order.  [sr_in] has the bytes that
    were accepted, [sr_out] the bytes that were delivered. *)

Inductive push_pc := PushIdle | Tested (b : Byte.byte) | Written (b : Byte.byte).
Inductive drain_pc := DrainIdle | Holding (r : Z) | Copied (r : Z) (b : Byte.byte).

Record shared_ring := Shared {
  sr_ring : RawKeyBuffer;
  sr_push : push_pc;
  sr_drain : drain_pc;
  sr_in : list Byte.byte;
  sr_out : list Byte.byte
}.

Definition store_cell (b : Byte.byte) (rb : RawKeyBuffer) : RawKeyBuffer :=
  RawKeys (<[Z.to_nat (rk_write rb) := b]> (rk_buf rb)) (rk_read rb) (rk_write rb).
Definition store_write (rb : RawKeyBuffer) : RawKeyBuffer :=
  RawKeys (rk_buf rb) (rk_read rb) ((rk_write rb + 1) mod 256).
Definition store_read (r : Z) (rb : RawKeyBuffer) : RawKeyBuffer :=
  RawKeys (rk_buf rb) ((r + 1) mod 256) (rk_write rb).

Inductive ring_step : shared_ring -> shared_ring -> Prop :=
  (** [push]: the test that drops the byte or lets it pass, the store of the
      byte, the store of the write position. *)
  | push_drop rb d i o :
      keys_full rb = true -> ring_step (Shared rb PushIdle d i o) (Shared rb PushIdle d i o)
  | push_test rb d i o b :
      keys_full rb = false -> ring_step (Shared rb PushIdle d i o) (Shared rb (Tested b) d i o)
  | push_store rb d i o b :
      ring_step (Shared rb (Tested b) d i o) (Shared (store_cell b rb) (Written b) d i o)
  | push_publish rb d i o b :
      ring_step (Shared rb (Written b) d i o) (Shared (store_write rb) PushIdle d (i ++ [b]) o)
  (** An iteration of [drain]: the test for an empty ring, the copy of the byte,
      the store of the read position. *)
  | drain_test rb p i o :
      rk_read rb <> rk_write rb ->
      ring_step (Shared rb p DrainIdle i o) (Shared rb p (Holding (rk_read rb)) i o)
  | drain_copy rb p r i o b :
      rk_buf rb !! Z.to_nat r = Some b ->
      ring_step (Shared rb p (Holding r) i o) (Shared rb p (Copied r b) i o)
  | drain_release rb p r i o b :
      ring_step (Shared rb p (Copied r b) i o) (Shared (store_read r rb) p DrainIdle i (o ++ [b])).

Definition ring_inv (s : shared_ring) : Prop :=
  let rb := sr_ring s in
  keys_ok rb /\ sr_in s = sr_out s ++ keys_list rb /\
  match sr_push s with
  | PushIdle => True
  | Tested b => Zlen (keys_list rb) < 255
  | Written b => Zlen (keys_list rb) < 255 /\ rk_buf rb !! Z.to_nat (rk_write rb) = Some b
  end /\
  match sr_drain s with
  | DrainIdle => True
  | Holding r => r = rk_read rb /\ rk_read rb <> rk_write rb
  | Copied r b => r = rk_read rb /\ rk_read rb <> rk_write rb /\ rk_buf rb !! Z.to_nat r = Some b
  end.

Lemma store_cell_ok b rb : keys_ok rb ->
  keys_ok (store_cell b rb) /\ keys_list (store_cell b rb) = keys_list rb /\
  rk_buf (store_cell b rb) !! Z.to_nat (rk_write rb) = Some b /\
  (rk_read rb <> rk_write rb -> rk_buf (store_cell b rb) !! Z.to_nat (rk_read rb) = rk_buf rb !! Z.to_nat (rk_read rb)).
Proof.
  intros Ho. destruct (ring_write_hidden Byte.x00 256 ltac:(lia) b _ _ _ Ho) as [Ho' El].
  split; [exact Ho'|]. split; [exact El|]. destruct Ho as (Hb & Hr & Hw). split.
  - apply list_lookup_insert_eq. unfold Zlen in Hb. lia.
  - intros Hne. apply list_lookup_insert_ne. lia.
Qed.

Lemma store_write_ok b rb : keys_ok rb -> Zlen (keys_list rb) < 255 ->
  rk_buf rb !! Z.to_nat (rk_write rb) = Some b ->
  keys_ok (store_write rb) /\ keys_list (store_write rb) = keys_list rb ++ [b] /\
  (rk_write rb + 1) mod 256 <> rk_read rb.
Proof.
  intros Ho Hl Hb. pose proof (keys_full_len rb Ho) as Hf. unfold keys_full in Hf.
  destruct (Z.eqb_spec ((rk_write rb + 1) mod 256) (rk_read rb)) as [E|E]; [lia|].
  destruct (ring_push_ok Byte.x00 256 ltac:(lia) b _ _ _ Ho E) as [Ho' El].
  rewrite list_insert_id in Ho', El by done. done.
Qed.

Lemma store_read_ok b rb : keys_ok rb -> rk_read rb <> rk_write rb ->
  rk_buf rb !! Z.to_nat (rk_read rb) = Some b ->
  keys_ok (store_read (rk_read rb) rb) /\ keys_list rb = b :: keys_list (store_read (rk_read rb) rb).
Proof.
  intros Ho Hne Hb. destruct (ring_pop_ok Byte.x00 256 ltac:(lia) _ _ _ Ho Hne) as (b' & Eb & Ho' & El).
  rewrite Hb in Eb. injection Eb as ->. done.
Qed.

Lemma ring_inv_step s s' : ring_inv s -> ring_step s s' -> ring_inv s'.
Proof.
  intros (Ho & Hq & Hp & Hd) Hs.
  destruct Hs as [rb d i o Hf|rb d i o b Hf|rb d i o b|rb d i o b|rb p i o Hne|rb p r i o b Hb|rb p r i o b];
    unfold ring_inv; cbn [sr_ring sr_push sr_drain sr_in sr_out] in *.
  - done.
  - rewrite keys_full_len in Hf by done. pose proof (keys_list_bound rb). split; [done|]. split; [done|].
    split; [lia|done].
  - destruct (store_cell_ok b rb Ho) as (H1 & H2 & H3 & H4). rewrite H2. split; [done|]. split; [done|].
    split; [done|]. destruct d as [|r|r b']; [done|done|]. destruct Hd as (-> & Hne & Hb').
    split; [done|]. split; [done|]. now rewrite H4.
  - destruct Hp as [Hl Hb]. destruct (store_write_ok b rb Ho Hl Hb) as (H1 & H2 & H3).
    split; [done|]. split; [rewrite H2, Hq, app_assoc; done|]. split; [done|].
    destruct d as [|r|r b']; [done|..].
    + destruct Hd as [-> _]. split; [done|]. cbn. congruence.
    + destruct Hd as (-> & _ & Hb'). split; [done|]. split; [cbn; congruence|done].
  - done.
  - destruct Hd as [-> Hne]. done.
  - destruct Hd as (-> & Hne & Hb). destruct (store_read_ok b rb Ho Hne Hb) as [H1 H2].
    split; [done|]. rewrite H2 in *. split; [rewrite Hq, <- app_assoc; done|]. split; [|done].
    destruct p as [|b'|b']; [done|..]; rewrite Zlen_cons in Hp; [lia|].
    destruct Hp as [Hl Hb']. split; [lia|done].
Qed.

(** However the stores of the interrupt handler interleave with those of a
    drain, the bytes delivered and the bytes in the ring are exactly the accepted
    ones, in order, and a byte is refused only when 255 are waiting. *)
Theorem key_ring_interleaved s :
  rtc ring_step (Shared raw_kb PushIdle DrainIdle [] []) s ->
  sr_in s = sr_out s ++ keys_list (sr_ring s) /\
  (keys_full (sr_ring s) = true <-> Zlen (keys_list (sr_ring s)) = 255) /\
  Zlen (keys_list (sr_ring s)) <= 255.
Proof.
  intros Hr. assert (Hi : ring_inv s).
  { eapply (rtc_ind_r ring_inv); [|intros x y _ Hxy Hx; exact (ring_inv_step x y Hx Hxy)|exact Hr].
    split; [done|]. done. }
  destruct Hi as (Ho & Hq & _). rewrite keys_full_len, Z.eqb_eq by done.
  split; [done|]. split; [done|]. apply keys_list_bound.
Qed.

(** ** The interrupt handler *)

(** [buildNormal] and [buildShifted]: characters for runs of make codes, the
    other entries zero. *)
Definition runs (l : list (Z * list Z)) : list Z :=
  fold_left (fun t '(code, cs) => list_inserts (Z.to_nat code) cs t) l (replicate 128 0).

Definition sc_normal : list Z := runs
  [(0x02, bytes_of "1234567890-="); (0x0E, [8; 9]); (0x10, bytes_of "qwertyuiop[]"); (0x1C, [10]);
   (0x1E, bytes_of "asdfghjkl;'`"); (0x2B, [92]); (0x2C, bytes_of "zxcvbnm,./");
   (0x37, bytes_of "*"); (0x39, bytes_of " ")].

Definition sc_shifted : list Z := runs
  [(0x02, bytes_of "!@#$%^&*()_+"); (0x0E, [8; 9]); (0x10, bytes_of "QWERTYUIOP{}"); (0x1C, [10]);
   (0x1E, bytes_of "ASDFGHJKL:" ++ [34] ++ bytes_of "~"); (0x2B, bytes_of "|"); (0x2C, bytes_of "ZXCVBNM<>?");
   (0x37, bytes_of "*"); (0x39, bytes_of " ")].

(** The state of the driver besides the ring of raw bytes. *)
Record ps2 := Ps2State {
  keyboard_buffer : KeyboardInputBuffer;
  shift_held : bool;
  ctrl_held : bool;
  extended : bool
}.

Definition STATUS_OUTPUT_FULL : Z := 0x01.
Definition STATUS_AUX_DATA : Z := 0x20.

(** The ports are read by the handler: [status], and [data] when there is a byte. *)
Definition onInterrupt (status : Z) (data : Byte.byte) (rb : RawKeyBuffer) (d : ps2) : RawKeyBuffer * ps2 :=
  if Z.land status STATUS_OUTPUT_FULL =? 0 then (rb, d)
  else if negb (Z.land status STATUS_AUX_DATA =? 0) then (rb, d)
  else
    let scancode := Z_of_byte data in
    let rb := raw_push data rb in
    let '(Ps2State kb shift ctrl ext) := d in
    if scancode =? 0xE0 then (rb, Ps2State kb shift ctrl true)
    else
      let is_break := negb (Z.land scancode 0x80 =? 0) in
      let make := Z.land scancode 0x7F in
      if ext then (rb, Ps2State kb shift ctrl false)
      else if (make =? 0x2A) || (make =? 0x36) then (rb, Ps2State kb (negb is_break) ctrl ext)
      else if make =? 0x1D then (rb, Ps2State kb shift (negb is_break) ext)
      else if is_break then (rb, d)
      else if ctrl && (make =? 0x2E) then (rb, Ps2State (push 3 kb) shift ctrl ext)
      else
        let ascii := nth (Z.to_nat make) (if shift then sc_shifted else sc_normal) 0 in
        if negb (ascii =? 0) then (rb, Ps2State (push ascii kb) shift ctrl ext) else (rb, d).

(** Interrupts with a byte of the keyboard. *)
Definition interrupts (l : list Byte.byte) (rb : RawKeyBuffer) (d : ps2) : RawKeyBuffer * ps2 :=
  fold_left (fun '(rb, d) b => onInterrupt STATUS_OUTPUT_FULL b rb d) l (rb, d).

(** ** Typing *)

Definition find_code (table : list Z) (c : Z) : option nat :=
  list_find (fun x => x = c) table ≫= fun '(i, _) => Some i.

Definition press (code : nat) : list Z := [Z.of_nat code; Z.of_nat code + 128].

(** The bytes a keyboard sends when a character is typed: the key alone, the key
    while shift is held, or C while control is held. *)
Definition strokes (c : Z) : list Z :=
  if c =? 3 then [0x1D] ++ press 0x2E ++ [0x9D]
  else
    match find_code sc_normal c, find_code sc_shifted c with
    | Some code, _ => press code
    | None, Some code => [0x2A] ++ press code ++ [0xAA]
    | None, None => []
    end.

Definition byte_of (n : Z) : Byte.byte := default Byte.x00 (Byte.of_N (Z.to_N n)).

Definition typing (cs : list Z) : list Byte.byte := byte_of <$> concat (strokes <$> cs).

Lemma Z_of_byte_of n : 0 <= n < 256 -> Z_of_byte (byte_of n) = n.
Proof.
  intros Hn. unfold Z_of_byte, byte_of. destruct (Byte.of_N (Z.to_N n)) as [b|] eqn:E.
  - apply Byte.to_of_N in E. simpl. rewrite E. lia.
  - apply Byte.of_N_None_iff in E. lia.
Qed.

(** The modifiers after a byte and the character it stands for. *)
Definition decode_code (f : bool * bool * bool) (b : Byte.byte) : bool * bool * bool * option Z :=
  let '(shift, ctrl, ext) := f in
  let code := Z_of_byte b in
  let make := Z.land code 0x7F in
  let pressed := Z.land code 0x80 =? 0 in
  if code =? 0xE0 then (shift, ctrl, true, None)
  else if ext then (shift, ctrl, false, None)
  else if (make =? 0x2A) || (make =? 0x36) then (pressed, ctrl, ext, None)
  else if make =? 0x1D then (shift, pressed, ext, None)
  else (shift, ctrl, ext,
    if negb pressed then None
    else if ctrl && (make =? 0x2E) then Some 3
    else let ascii := nth (Z.to_nat make) (if shift then sc_shifted else sc_normal) 0 in
         if ascii =? 0 then None else Some ascii).

Definition flags (d : ps2) : bool * bool * bool := (shift_held d, ctrl_held d, extended d).

Definition enters (o : option Z) (kb : KeyboardInputBuffer) : KeyboardInputBuffer :=
  match o with Some c => push c kb | None => kb end.

Definition with_flags (f : bool * bool * bool) (kb : KeyboardInputBuffer) : ps2 :=
  let '(shift, ctrl, ext) := f in Ps2State kb shift ctrl ext.

Lemma onInterrupt_decodes b rb kb f :
  onInterrupt STATUS_OUTPUT_FULL b rb (with_flags f kb) =
  (let '(f', o) := decode_code f b in (raw_push b rb, with_flags f' (enters o kb))).
Proof.
  destruct f as [[shift ctrl] ext]. unfold onInterrupt, decode_code. cbn [with_flags].
  change (Z.land STATUS_OUTPUT_FULL STATUS_OUTPUT_FULL =? 0) with false.
  change (Z.land STATUS_OUTPUT_FULL STATUS_AUX_DATA =? 0) with true. cbn [negb].
  destruct (Z_of_byte b =? 0xE0); [done|]. destruct ext; [done|].
  destruct ((Z.land (Z_of_byte b) 127 =? 42) || _); [now rewrite negb_involutive|].
  destruct (Z.land (Z_of_byte b) 127 =? 29); [now rewrite negb_involutive|].
  destruct (Z.land (Z_of_byte b) 128 =? 0); cbn [negb]; [|done].
  destruct (ctrl && _); [done|]. cbv zeta. destruct (nth _ _ 0 =? 0); done.
Qed.

(** The characters a sequence of bytes stands for. *)
Fixpoint decode_codes (f : bool * bool * bool) (l : list Byte.byte) : bool * bool * bool * list Z :=
  match l with
  | [] => (f, [])
  | b :: l =>
      let '(f, o) := decode_code f b in
      let '(f, cs) := decode_codes f l in (f, option_list o ++ cs)
  end.

Definition raw_pushes (l : list Byte.byte) (rb : RawKeyBuffer) : RawKeyBuffer :=
  fold_left (fun rb b => raw_push b rb) l rb.

Definition push_all (cs : list Z) (kb : KeyboardInputBuffer) : KeyboardInputBuffer :=
  fold_left (fun kb c => push c kb) cs kb.

Lemma interrupts_decode l : forall rb kb f,
  interrupts l rb (with_flags f kb) =
  (let '(f', cs) := decode_codes f l in (raw_pushes l rb, with_flags f' (push_all cs kb))).
Proof.
  induction l as [|b l IH]; intros rb kb f; [done|].
  unfold interrupts in *. cbn [fold_left decode_codes]. rewrite onInterrupt_decodes.
  destruct (decode_code f b) as [f1 o]. rewrite IH. destruct (decode_codes f1 l) as [f2 cs].
  destruct o; done.
Qed.

Lemma decode_codes_app a b f :
  decode_codes f (a ++ b) =
  (let '(f, ca) := decode_codes f a in let '(f, cb) := decode_codes f b in (f, ca ++ cb)).
Proof.
  revert f. induction a as [|x a IH]; intros f; cbn [app decode_codes].
  - now destruct (decode_codes f b).
  - destruct (decode_code f x) as [f1 o]. rewrite IH. destruct (decode_codes f1 a) as [f2 ca].
    destruct (decode_codes f2 b) as [f3 cb]. now rewrite app_assoc.
Qed.

(** The characters the keyboard has. *)
Definition on_keyboard (c : Z) : bool := isPrint c || (c =? 10) || (c =? 8) || (c =? 3).

Definition no_flags : bool * bool * bool := (false, false, false).

Lemma strokes_table :
  forallb (fun i => let c := Z.of_nat i in
    negb (on_keyboard c) || bool_decide (decode_codes no_flags (byte_of <$> strokes c) = (no_flags, [c])))
    (seq 0 128) = true.
Proof. vm_compute. reflexivity. Qed.

Lemma strokes_decode c : on_keyboard c = true ->
  decode_codes no_flags (byte_of <$> strokes c) = (no_flags, [c]).
Proof.
  intros Hc. pose proof strokes_table as H. rewrite forallb_forall in H.
  assert (0 <= c < 128) by (unfold on_keyboard, isPrint in Hc; lia).
  specialize (H (Z.to_nat c)). cbv beta zeta in H. rewrite Z2Nat.id, Hc in H by lia. cbn [negb orb] in H.
  apply bool_decide_eq_true in H; [exact H|]. apply in_seq. lia.
Qed.

Lemma typing_decodes cs : Forall (fun c => on_keyboard c = true) cs ->
  decode_codes no_flags (typing cs) = (no_flags, cs).
Proof.
  unfold typing. induction 1 as [|c cs Hc _ IH]; [done|]. rewrite fmap_cons. cbn [concat].
  rewrite fmap_app, decode_codes_app, strokes_decode, IH by done. done.
Qed.

(** The driver before the first interrupt. *)
Definition ps2_init (line0 completed0 : list Z) : ps2 :=
  Ps2State (empty_input line0 completed0) false false false.

Lemma types_on_keyboard ks t : types ks t -> Forall (fun c => on_keyboard c = true) ks.
Proof.
  induction 1 as [|ks t c _ IH Hc _|ks t c _ IH|ks t _ IH]; [done|..];
    apply Forall_app; (split; [done|]); constructor; try done.
  unfold on_keyboard. now rewrite Hc.
Qed.

Lemma exec_keys ks s : (exec_all exec (Key <$> ks) s).2 = push_all ks s.
Proof.
  revert s. induction ks as [|c ks IH]; intros s; [done|]. rewrite fmap_cons. cbn [exec_all exec].
  specialize (IH (push c s)). destruct (exec_all exec (Key <$> ks) (push c s)). exact IH.
Qed.


(** ** Witnesses *)

Lemma key_ring_interleaved_witness :
  let s := Shared (RawKeys (<[0%nat := Byte.x1e]> (replicate 256 Byte.x00)) 0 1)
             PushIdle (Copied 0 Byte.x1e) [Byte.x1e] [] in
  sr_in s = sr_out s ++ keys_list (sr_ring s) /\
  (keys_full (sr_ring s) = true <-> Zlen (keys_list (sr_ring s)) = 255) /\
  Zlen (keys_list (sr_ring s)) <= 255.
Proof.
  apply (key_ring_interleaved (Shared (RawKeys (<[0%nat := Byte.x1e]> (replicate 256 Byte.x00)) 0 1)
             PushIdle (Copied 0 Byte.x1e) [Byte.x1e] [])).
  eapply rtc_l; [apply (push_test raw_kb DrainIdle [] [] Byte.x1e); reflexivity|].
  eapply rtc_l; [apply push_store|]. eapply rtc_l; [apply push_publish|].
  eapply rtc_l; [apply drain_test; discriminate|].
  eapply rtc_l; [apply (drain_copy _ _ _ _ _ Byte.x1e); reflexivity|]. apply rtc_refl.
Defined.

