(* ===== verification/Handlers.v ===== *)
(** * The system-call handlers of the kernel

    The other side of the wrappers of [Process]: the handlers the runtime
    reaches ([user/handlers/framebuffer.zig], [io.zig], [memory.zig]), the checks
    on user memory ([user/validate.zig]), the error codes
    ([library/innigkeit/Error.zig]) and the sector reads of
    [drivers/virtio/blk.zig].  Below them the devices and the memory manager are
    a parameter, [Hardware].

    The handlers are an implementation of the [Kernel] interface: [serve] gives
    the interface's functions, [serve_laws] and [serve_data] its laws, and
    [wrappers_reach_handlers] shows that a wrapper applied to that interface
    does what the handler does to the memory of the process. *)

From S2P Require Import Prelude Machine Memory Process Initfs Ps2.

(** ** Errors *)

Inductive Error :=
  | PermissionDenied | BadHandle | BadAddress | WouldBlock | OutOfMemory | NotFound
  | AlreadyExists | InvalidArgument | NoDevice | NoSpace | IoError | Unsupported | Unknown.

(** [Error.code]; [Unknown] is not a result of a handler. *)
Definition code (e : Error) : option Z :=
  match e with
  | PermissionDenied => Some (-1) | BadHandle => Some (-9) | BadAddress => Some (-14)
  | WouldBlock => Some (-11) | OutOfMemory => Some (-12) | NotFound => Some (-2)
  | AlreadyExists => Some (-17) | InvalidArgument => Some (-22) | NoDevice => Some (-19)
  | NoSpace => Some (-28) | IoError => Some (-5) | Unsupported => Some (-38) | Unknown => None
  end.

Definition fromCode (raw : Z) : Error :=
  if raw =? -1 then PermissionDenied else if raw =? -2 then NotFound
  else if raw =? -5 then IoError else if raw =? -9 then BadHandle
  else if raw =? -11 then WouldBlock else if raw =? -12 then OutOfMemory
  else if raw =? -14 then BadAddress else if raw =? -17 then AlreadyExists
  else if raw =? -19 then NoDevice else if raw =? -22 then InvalidArgument
  else if raw =? -28 then NoSpace else if raw =? -38 then Unsupported else Unknown.

(** ** The hardware and the memory manager *)

Inductive map_error := MapOutOfMemory | RequestedRangeUnavailable | MapOther.

Record phys_info := PhysInfo { ph_base : Z; ph_width : Z; ph_height : Z; ph_pitch : Z; ph_bpp : Z }.
Record gpu_state := GpuState { gpu_width : Z; gpu_height : Z; gpu_pages : list Z }.

Class Hardware := {
  hw : Type;
  (** The archive embedded in the kernel. *)
  archive : list Z;
  (** [address_space.map] and [unmap] in a space with the given ranges. *)
  space_map : list (Z * Z) -> Z -> hw -> (Z + map_error) * hw;
  space_unmap : Z -> Z -> hw -> hw;
  (** [mapSinglePage] of a virtual to a physical page. *)
  map_page : Z -> Z -> hw -> bool * hw;
  gpu : hw -> option gpu_state;
  getPhysInfo : hw -> option phys_info;
  (** The bytes the display's memory holds. *)
  shown : hw -> list Z;
  (** The capacity of block device 0 and 1 in sectors; a request to it. *)
  capacity : Z -> hw -> option Z;
  device_count : hw -> Z;
  cipher_read : Z -> hw -> option (Z -> Z -> hw -> option (list Z) * hw);
  submit_read : Z -> Z -> Z -> hw -> option (list Z) * hw;
  getUptimeMs : hw -> Z * hw;
  (** The entitlements of the process. *)
  entitled_keyboard : bool;
  entitled_framebuffer : bool
}.

Section handlers.
Context {H : Hardware}.

(** ** The state of the kernel and the monad of the handlers

    A handler works on the memory of the calling process and on the kernel, and
    returns a value or an error. *)

Record kernel := Kern { k_keys : RawKeyBuffer; k_term : list Z; k_hw : hw }.

Definition HM (A : Type) : Type := mem * kernel -> (Error + A) * (mem * kernel).

#[export] Instance HM_ret : MRet HM := fun A a s => (inr a, s).

#[export] Instance HM_bind : MBind HM := fun A B k c s =>
  match c s with
  | (inr a, s') => k a s'
  | (inl e, s') => (inl e, s')
  end.

Definition throw {A} (e : Error) : HM A := fun s => (inl e, s).

Definition check (b : bool) (e : Error) : HM unit := if b then mret tt else throw e.

Definition with_hw {A} (f : hw -> A * hw) : HM A := fun '(m, k) =>
  let '(a, h) := f (k_hw k) in (inr a, (m, Kern (k_keys k) (k_term k) h)).

(** ** User memory *)

(** [user_memory_range] of the x86-64 architecture. *)
Definition user_base : Z := 4096.
Definition user_end : Z := 2 ^ 47 - 4096.

Definition userBuffer (ptr len : Z) : bool :=
  if len =? 0 then true
  else if u64 (ptr + len) <? ptr then false
  else (user_base <=? ptr) && (ptr + len <=? user_end).

(** [memory.safe.memcpy] stops at the first page that is not mapped. *)
Fixpoint safe_store (p : Z) (l : list Z) (m : mem) : bool * mem :=
  match l with
  | [] => (true, m)
  | c :: l' => if is_mapped m p then safe_store (p + 1) l' (poke m p c) else (false, m)
  end.

Definition safe_load (p n : Z) (m : mem) : option (list Z) :=
  mapM (peek m) ((fun i => p + Z.of_nat i) <$> seq 0 (Z.to_nat n)).

Definition copyFromUser (user_ptr n : Z) : HM (list Z) :=
  check (userBuffer user_ptr n) BadAddress;;
  if n =? 0 then mret []
  else (fun '(m, k) =>
    match safe_load user_ptr n m with
    | Some l => (inr l, (m, k))
    | None => (inl BadAddress, (m, k))
    end) : HM (list Z).

Definition copyToUser (user_ptr : Z) (src : list Z) : HM unit :=
  check (userBuffer user_ptr (Zlen src)) BadAddress;;
  if Zlen src =? 0 then mret tt
  else (fun '(m, k) =>
    let '(ok, m') := safe_store user_ptr src m in
    if (ok : bool) then (inr tt, (m', k)) else (inl BadAddress, (m', k))) : HM unit.

(** ** The handlers *)

(** The descriptors of a process that opened no file: [FdTable.reset]. *)
Inductive Descriptor := closed | terminal_out | keyboard_in.

Definition fd_table : list Descriptor :=
  [keyboard_in; terminal_out; terminal_out] ++ replicate 29 closed.

Definition resolve (fd : Z) : option Descriptor :=
  if 32 <=? fd then None
  else match fd_table !! Z.to_nat fd with
       | Some closed | None => None
       | d => d
       end.

Definition term_write (l : list Z) : HM unit := fun '(m, k) =>
  (inr tt, (m, Kern (k_keys k) (k_term k ++ l) (k_hw k))).

(** The loop of [write] over chunks of 256 bytes; [fuel] is the number of bytes
    that are left, at least one of which every iteration writes. *)
Fixpoint write_chunks (fuel : nat) (buf_ptr buf_len offset : Z) : HM unit :=
  match fuel with
  | O => mret tt
  | S fuel' =>
      if offset <? buf_len then
        let chunk_len := Z.min (buf_len - offset) 256 in
        chunk ← copyFromUser (buf_ptr + offset) chunk_len;
        term_write chunk;;
        write_chunks fuel' buf_ptr buf_len (offset + chunk_len)
      else mret tt
  end.

Definition write (fd buf_ptr buf_len : Z) : HM Z :=
  match resolve fd with
  | None => throw BadHandle
  | Some d =>
      if buf_len =? 0 then mret 0
      else
        match d with
        | terminal_out =>
            check (userBuffer buf_ptr buf_len) BadAddress;;
            write_chunks (Z.to_nat buf_len) buf_ptr buf_len 0;;
            mret buf_len
        | _ => throw BadHandle
        end
  end.

(** [address_space.map] of a fresh range for the calling process. *)
Definition map_range (n : Z) : HM (Z + map_error) := fun '(m, k) =>
  let '(r, h) := space_map (regions m) n (k_hw k) in
  let k' := Kern (k_keys k) (k_term k) h in
  match r with
  | inl a => (inr (inl a), (map_region m a n, k'))
  | inr e => (inr (inr e), (m, k'))
  end.

Definition mmap (size_bytes prot_raw : Z) : HM Z :=
  check (negb (size_bytes =? 0)) InvalidArgument;;
  check (size_bytes <=? SIZE_MAX - 4095) InvalidArgument;;
  let aligned_size := page_round size_bytes in
  let read := negb (Z.land (u32 prot_raw) 1 =? 0) in
  let write := negb (Z.land (u32 prot_raw) 2 =? 0) in
  let execute := negb (Z.land (u32 prot_raw) 4 =? 0) in
  check (read || write || execute) InvalidArgument;;
  check (negb (write && execute)) InvalidArgument;;
  r ← map_range aligned_size;
  match r with
  | inl a => mret a
  | inr (MapOutOfMemory | RequestedRangeUnavailable) => throw OutOfMemory
  | inr MapOther => throw InvalidArgument
  end.

(** The request structs in user memory, which [readUser] copies. *)
Record InitfsReadSpec := InitfsSpec { is_name_ptr : Z; is_name_len : Z; is_buf_ptr : Z; is_buf_len : Z }.
Record BlkReadSpec := BlkSpec { bs_byte_offset : Z; bs_buf_ptr : Z; bs_buf_len : Z }.

Definition readUser (n user_ptr : Z) : HM (list Z) := copyFromUser user_ptr n.

Definition initfs_spec (l : list Z) : InitfsReadSpec :=
  InitfsSpec (le_decode (sub l 0 8)) (le_decode (sub l 8 4)) (le_decode (sub l 16 8)) (le_decode (sub l 24 8)).

Definition blk_spec (l : list Z) : BlkReadSpec :=
  BlkSpec (le_decode (sub l 0 8)) (le_decode (sub l 8 8)) (le_decode (sub l 16 8)).

Definition findFile (name : list Z) : option (list Z) := findFileIn archive name.

Definition initfs_read (spec : InitfsReadSpec) : HM Z :=
  let name_len := is_name_len spec in
  check (negb ((name_len =? 0) || (255 <? name_len))) InvalidArgument;;
  check (userBuffer (is_name_ptr spec) name_len) BadAddress;;
  check (negb ((0 <? is_buf_len spec) && negb (userBuffer (is_buf_ptr spec) (is_buf_len spec)))) BadAddress;;
  name ← copyFromUser (is_name_ptr spec) name_len;
  match findFile name with
  | None => throw NotFound
  | Some file_data =>
      if is_buf_len spec =? 0 then mret (Zlen file_data)
      else
        let copy_len := Z.min (Zlen file_data) (is_buf_len spec) in
        copyToUser (is_buf_ptr spec) (take (Z.to_nat copy_len) file_data);;
        mret copy_len
  end.

Definition initfsRead (spec_ptr : Z) : HM Z :=
  l ← readUser 32 spec_ptr;
  initfs_read (initfs_spec l).

Definition uptimeMs : HM Z := with_hw getUptimeMs.

Definition drain_keys (n : nat) : HM (list Z) := fun '(m, k) =>
  let '(l, rb) := raw_drain n (k_keys k) in
  (inr (Z_of_byte <$> l), (m, Kern rb (k_term k) (k_hw k))).

Definition kbdRead (buf_ptr buf_len : Z) : HM Z :=
  if buf_len =? 0 then mret 0
  else
    (check (userBuffer buf_ptr buf_len) BadAddress;;
     let to_read := Z.min buf_len 64 in
     tmp ← drain_keys (Z.to_nat to_read);
     if Zlen tmp =? 0 then mret 0
     else (copyToUser buf_ptr tmp;; mret (Zlen tmp))).

(** *** Sectors *)

(** [readSectorsRaw]: at most 8 sectors inside the device; [None] for an error. *)
Definition readSectorsRaw (dev lba count : Z) (h : hw) : option (list Z) * hw :=
  if (count =? 0) || (8 <? count) then (None, h)
  else
    match capacity dev h with
    | None => (None, h)
    | Some cap =>
        if (cap <? lba) || (cap - lba <? count) then (None, h)
        else submit_read dev lba count h
    end.

Definition readSectors (dev lba count : Z) (h : hw) : option (list Z) * hw :=
  match cipher_read dev h with
  | Some f => f lba count h
  | None => readSectorsRaw dev lba count h
  end.

Definition isDataReady (h : hw) : bool :=
  match capacity 1 h with Some _ => true | None => device_count h =? 1 end.

Definition dataDeviceIndex (h : hw) : Z :=
  match capacity 1 h with Some _ => 1 | None => 0 end.

(** The loop of [blkRead]: a bounce buffer of at most 8 sectors per iteration. *)
Fixpoint blk_chunks (fuel : nat) (buf_ptr out_pos remaining byte_offset : Z) : HM Z :=
  match fuel with
  | O => mret out_pos
  | S fuel' =>
      if 0 <? remaining then
        let sector := byte_offset / 512 in
        let off_in_sector := byte_offset mod 512 in
        let sectors_needed := Z.min 8 (sat (sat (off_in_sector + remaining) + 511) / 512) in
        let chunk_bytes := sectors_needed * 512 in
        r ← with_hw (fun h => readSectors (dataDeviceIndex h) sector sectors_needed h);
        match r with
        | None => throw IoError
        | Some tmp =>
            let copy_len := Z.min remaining (chunk_bytes - off_in_sector) in
            copyToUser (buf_ptr + out_pos) (sub tmp off_in_sector copy_len);;
            blk_chunks fuel' buf_ptr (out_pos + copy_len) (remaining - copy_len)
              (byte_offset + copy_len)
        end
      else mret out_pos
  end.

Definition blk_read (spec : BlkReadSpec) : HM Z :=
  if bs_buf_len spec =? 0 then mret 0
  else
    (check (userBuffer (bs_buf_ptr spec) (bs_buf_len spec)) BadAddress;;
     h ← with_hw (fun h => (h, h));
     check (isDataReady h) NoDevice;;
     blk_chunks (Z.to_nat (bs_buf_len spec)) (bs_buf_ptr spec) 0 (bs_buf_len spec) (bs_byte_offset spec)).

Definition blkRead (spec_ptr : Z) : HM Z :=
  l ← readUser 24 spec_ptr;
  blk_read (blk_spec l).

(** *** The display *)

(** Wiring the pages of a range; the error that stops it, if any. *)
Fixpoint map_gpu_pages (virt : Z) (pages : list Z) : HM (option Error) :=
  match pages with
  | [] => mret None
  | pg :: pages' =>
      ok ← with_hw (map_page virt pg);
      if (ok : bool) then map_gpu_pages (virt + 4096) pages' else mret (Some OutOfMemory)
  end.

Fixpoint map_fb_pages (virt phys_base i : Z) (n : nat) : HM (option Error) :=
  match n with
  | O => mret None
  | S n' =>
      let phys_offset := sat (i * 4096) in
      if negb (phys_offset / 4096 =? i) then mret (Some InvalidArgument)
      else
        let phys_val := sat (phys_base + phys_offset) in
        if phys_val <? phys_base then mret (Some InvalidArgument)
        else
          (ok ← with_hw (map_page (virt + i * 4096) phys_val);
           if (ok : bool) then map_fb_pages virt phys_base (i + 1) n'
           else mret (Some OutOfMemory))
  end.

(** Unmapping the range at [a] again gives back the memory [m].  The range is the
    one that was asked for; [Mapping.v] shows when the code unmaps more. *)
Definition rollback {A} (m : mem) (a n : Z) (e : Error) : HM A := fun '(_, k) =>
  (inl e, (m, Kern (k_keys k) (k_term k) (space_unmap a n (k_hw k)))).

Definition get_mem : HM mem := fun s => (inr s.1, s).

(** A fresh range of [n] bytes wired by [wire_pages]; when that fails the range
    is unmapped again. *)
Definition map_display (n : Z) (wire_pages : Z -> HM (option Error)) : HM Z :=
  m ← get_mem;
  r ← map_range n;
  match r with
  | inr _ => throw OutOfMemory
  | inl a =>
      e ← wire_pages a;
      match e with
      | None => mret a
      | Some e => rollback m a n e
      end
  end.

(** The bytes of a [FramebufferInfo]: three 32-bit numbers, the depth and the
    padding. *)
Definition fb_bytes (i : fb_info) : list Z :=
  le_encode 4 (fb_width i) ++ le_encode 4 (fb_height i) ++ le_encode 4 (fb_pitch i) ++ [fb_bpp i; 0; 0; 0].

Definition framebufferMapGpu (info_ptr : Z) (g : gpu_state) : HM Z :=
  check (userBuffer info_ptr 16) BadAddress;;
  let total_bytes := Zlen (gpu_pages g) * 4096 in
  va ← map_display total_bytes (fun a => map_gpu_pages a (gpu_pages g));
  copyToUser info_ptr (fb_bytes (FbInfo (gpu_width g) (gpu_height g) (gpu_width g * 4) 32));;
  mret va.

Definition framebufferMap (info_ptr : Z) : HM Z :=
  h ← with_hw (fun h => (h, h));
  match gpu h with
  | Some g => framebufferMapGpu info_ptr g
  | None =>
      match getPhysInfo h with
      | None => throw NoDevice
      | Some info =>
          check (userBuffer info_ptr 16) BadAddress;;
          let total_bytes := ph_pitch info * ph_height info in
          let aligned_bytes := page_round total_bytes in
          let n_pages := aligned_bytes / 4096 in
          va ← map_display aligned_bytes (fun a => map_fb_pages a (ph_base info) 0 (Z.to_nat n_pages));
          copyToUser info_ptr (fb_bytes (FbInfo (ph_width info) (ph_height info) (ph_pitch info) (ph_bpp info)));;
          mret va
      end
  end.

(** ** Dispatch

    The gate on the entitlements and the value in the return register. *)

Definition wire (e : Error) : Z := default 0 (code e).

Definition dispatch (gate : bool) (handler : HM Z) (s : mem * kernel) : Z * (mem * kernel) :=
  if negb gate then (wire PermissionDenied, s)
  else match handler s with
       | (inr r, s') => (r, s')
       | (inl e, s') => (wire e, s')
       end.

End handlers.
