(* ===== verification/HandlersCorrect.v ===== *)
(** * The handlers implement the kernel interface

    The laws of the hardware below the handlers, the [Kernel] the handlers
    provide to the runtime, the proofs of [KernelLaws] and [KernelData] for it,
    and the correspondence between a wrapper and its handler. *)

From S2P Require Import Prelude Machine Memory Process TestKernel Initfs Ps2 Handlers.

(** ** The laws of the hardware *)

Class HardwareLaws (H : Hardware) := {
  (** The contents of the data disk. *)
  data_disk : hw -> list Z;
  same_devices (h h' : hw) : Prop :=
    data_disk h' = data_disk h /\ (forall d, capacity d h' = capacity d h) /\
    device_count h' = device_count h;
  archive_bytes : Forall byte_ok archive;
  disk_bytes : forall h, Forall byte_ok (data_disk h);
  (** [map] returns a fresh page-aligned range of user addresses, for a size
      that is not zero. *)
  map_fresh : forall rs n h a h', space_map rs n h = (inl a, h') ->
    0 < n /\ a mod 4096 = 0 /\ user_base <= a /\ a + n <= user_end /\
    (forall q, a <= q < a + n -> existsb (in_region q) rs = false);
  map_devices : forall rs n h, same_devices h (space_map rs n h).2;
  (** A read of sectors inside the data device delivers their contents. *)
  submit_devices : forall d lba c h, same_devices h (submit_read d lba c h).2;
  submit_sectors : forall lba c h cap l h',
    cipher_read (dataDeviceIndex h) h = None -> capacity (dataDeviceIndex h) h = Some cap ->
    0 <= lba -> 0 < c -> lba + c <= cap ->
    submit_read (dataDeviceIndex h) lba c h = (Some l, h') ->
    l = sub (data_disk h) (lba * 512) (c * 512) /\ Zlen l = c * 512;
  (** A cipher layer delivers the decrypted contents. *)
  cipher_devices : forall d f lba c h, cipher_read d h = Some f -> same_devices h (f lba c h).2;
  cipher_sectors : forall f lba c h l h',
    cipher_read (dataDeviceIndex h) h = Some f -> 0 <= lba -> 0 < c ->
    f lba c h = (Some l, h') ->
    l = sub (data_disk h) (lba * 512) (c * 512) /\ Zlen l = c * 512;
  (** The dimensions of the display are 32-bit numbers; the pages of a GPU
      cover its frame. *)
  gpu_frame : forall h g, gpu h = Some g ->
    0 <= gpu_width g < 2 ^ 30 /\ 0 <= gpu_height g < 2 ^ 32 /\
    Zlen (gpu_pages g) * 4096 = page_round (gpu_width g * 4 * gpu_height g);
  phys_frame : forall h i, getPhysInfo h = Some i ->
    0 <= ph_width i < 2 ^ 32 /\ 0 <= ph_height i < 2 ^ 32 /\ 0 <= ph_pitch i < 2 ^ 32
}.

(** ** What the handlers do for a valid buffer

    [serve_] functions: the result and the bytes delivered, without the copying
    to and from user memory. *)

Section service.
Context {H : Hardware} {HL : HardwareLaws H}.

Lemma hm_bind {A B} (c : HM A) (f : A -> HM B) s a s' :
  c s = (inr a, s') -> (c ≫= f) s = f a s'.
Proof. intros E. unfold mbind, HM_bind. now rewrite E. Qed.

Lemma hm_throw {A B} (c : HM A) (f : A -> HM B) s e s' :
  c s = (inl e, s') -> (c ≫= f) s = (inl e, s').
Proof. intros E. unfold mbind, HM_bind. now rewrite E. Qed.

Lemma check_bind {B} b e (f : unit -> HM B) s :
  (check b e ≫= f) s = if b then f tt s else (inl e, s).
Proof. now destruct b. Qed.

Lemma safe_load_ok m p l : bytes_at m p l -> safe_load p (Zlen l) m = Some l.
Proof.
  intros Hb. unfold safe_load, Zlen. rewrite Nat2Z.id.
  enough (E : forall i, mapM (peek m) ((fun j => p - Z.of_nat i + Z.of_nat j) <$> seq i (length l)) = Some l).
  { rewrite <- (E O). f_equal. apply list_fmap_ext. intros. lia. }
  revert p Hb. induction l as [|c l IH]; intros p Hb i; [done|]. destruct Hb as [Hc Hb].
  cbn [length seq]. rewrite fmap_cons. simpl.
  replace (p - Z.of_nat i + Z.of_nat i) with p by lia. rewrite Hc. simpl.
  specialize (IH (p + 1) Hb (S i)).
  replace (p + 1 - Z.of_nat (S i)) with (p - Z.of_nat i) in IH by lia. now rewrite IH.
Qed.

Lemma safe_store_ok l : forall m p,
  mapped_range m p (Zlen l) -> safe_store p l m = (true, poke_list m p l).
Proof.
  induction l as [|c l IH]; intros m p Hm; [done|]. cbn [safe_store poke_list].
  rewrite Zlen_cons in Hm. pose proof (Zlen_nonneg l). rewrite (Hm p) by lia. apply IH.
  apply mapped_range_poke. eapply mapped_range_sub; [exact Hm|lia..].
Qed.

Lemma copyFromUser_ok m k p l :
  bytes_at m p l -> userBuffer p (Zlen l) = true ->
  copyFromUser p (Zlen l) (m, k) = (inr l, (m, k)).
Proof.
  intros Hb Hu. unfold copyFromUser. rewrite check_bind, Hu.
  destruct (Z.eqb_spec (Zlen l) 0) as [E|E].
  - destruct l; [done|]. rewrite Zlen_cons in E. pose proof (Zlen_nonneg l). lia.
  - now rewrite safe_load_ok.
Qed.

Lemma copyToUser_ok m k p l :
  mapped_range m p (Zlen l) -> userBuffer p (Zlen l) = true ->
  copyToUser p l (m, k) = (inr tt, (poke_list m p l, k)).
Proof.
  intros Hm Hu. unfold copyToUser. rewrite check_bind, Hu.
  destruct (Z.eqb_spec (Zlen l) 0) as [E|E].
  - destruct l; [done|]. rewrite Zlen_cons in E. pose proof (Zlen_nonneg l). lia.
  - now rewrite safe_store_ok.
Qed.

(** A part of a user buffer is a user buffer. *)
Lemma userBuffer_sub p n q j :
  userBuffer p n = true -> 0 <= n -> p <= q -> 0 <= j -> q + j <= p + n -> userBuffer q j = true.
Proof.
  unfold userBuffer, user_base, user_end. intros Hu Hn Hq Hj Hqj.
  destruct (Z.eqb_spec j 0); [done|]. destruct (Z.eqb_spec n 0); [lia|].
  destruct (Z.ltb_spec (u64 (p + n)) p); [done|].
  apply andb_prop in Hu as [H1 H2]. apply Z.leb_le in H1, H2.
  rewrite u64_id by lia. destruct (Z.ltb_spec (q + j) q); [lia|]. lia.
Qed.

(** A struct of the caller with the given bytes. *)
Definition user_struct (m : mem) (p : Z) (l : list Z) : Prop :=
  bytes_at m p l /\ userBuffer p (Zlen l) = true.

Definition initfs_bytes (spec : InitfsReadSpec) : list Z :=
  le_encode 8 (is_name_ptr spec) ++ le_encode 4 (is_name_len spec) ++ [0; 0; 0; 0] ++
  le_encode 8 (is_buf_ptr spec) ++ le_encode 8 (is_buf_len spec).

Definition blk_spec_bytes (spec : BlkReadSpec) : list Z :=
  le_encode 8 (bs_byte_offset spec) ++ le_encode 8 (bs_buf_ptr spec) ++ le_encode 8 (bs_buf_len spec).

Lemma initfsRead_struct m k p spec :
  user_struct m p (initfs_bytes spec) ->
  0 <= is_name_ptr spec < 2 ^ 64 -> 0 <= is_name_len spec < 2 ^ 32 ->
  0 <= is_buf_ptr spec < 2 ^ 64 -> 0 <= is_buf_len spec < 2 ^ 64 ->
  initfsRead p (m, k) = initfs_read spec (m, k).
Proof.
  intros [Hb Hu] H1 H2 H3 H4. unfold initfsRead.
  rewrite (hm_bind _ _ _ (initfs_bytes spec) (m, k)) by exact (copyFromUser_ok m k p (initfs_bytes spec) Hb Hu).
  replace (initfs_spec (initfs_bytes spec)) with spec; [done|]. destruct spec as [a b c d].
  unfold initfs_spec. f_equal; symmetry.
  - exact (le_decode_encode 8 a H1).
  - exact (le_decode_encode 4 b H2).
  - exact (le_decode_encode 8 c H3).
  - exact (le_decode_encode 8 d H4).
Qed.

Lemma blkRead_struct m k p spec :
  user_struct m p (blk_spec_bytes spec) ->
  0 <= bs_byte_offset spec < 2 ^ 64 -> 0 <= bs_buf_ptr spec < 2 ^ 64 -> 0 <= bs_buf_len spec < 2 ^ 64 ->
  blkRead p (m, k) = blk_read spec (m, k).
Proof.
  intros [Hb Hu] H1 H2 H3. unfold blkRead.
  rewrite (hm_bind _ _ _ (blk_spec_bytes spec) (m, k)) by exact (copyFromUser_ok m k p (blk_spec_bytes spec) Hb Hu).
  replace (blk_spec (blk_spec_bytes spec)) with spec; [done|]. destruct spec as [a b c].
  unfold blk_spec. f_equal; symmetry.
  - exact (le_decode_encode 8 a H1).
  - exact (le_decode_encode 8 b H2).
  - exact (le_decode_encode 8 c H3).
Qed.

(** *** initfs_read *)

Definition serve_initfs (name : list Z) (n : Z) : Z * list Z :=
  if (Zlen name =? 0) || (255 <? Zlen name) then (wire InvalidArgument, [])
  else
    match findFile name with
    | None => (wire NotFound, [])
    | Some data =>
        if n =? 0 then (Zlen data, [])
        else let l := take (Z.to_nat n) data in (Zlen l, l)
    end.

Lemma initfsRead_serves m k p name buf n :
  bytes_at m p name -> userBuffer p (Zlen name) = true ->
  0 <= n -> userBuffer buf n = true -> mapped_range m buf n ->
  dispatch true (initfs_read (InitfsSpec p (Zlen name) buf n)) (m, k) =
  (let '(r, l) := serve_initfs name n in (r, (poke_list m buf l, k))).
Proof.
  intros Hb Hu Hn Hub Hm. unfold dispatch, initfs_read, serve_initfs. simpl negb. cbv iota.
  cbn [is_name_ptr is_name_len is_buf_ptr is_buf_len]. rewrite check_bind.
  destruct (_ || _); [done|]. cbn [negb]. rewrite check_bind, Hu, check_bind, Hub, andb_false_r.
  cbn [negb]. rewrite (hm_bind _ _ _ name (m, k)) by now apply copyFromUser_ok.
  destruct (findFile name) as [data|]; [|done].
  destruct (Z.eqb_spec n 0); [done|].
  assert (E : take (Z.to_nat (Z.min (Zlen data) n)) data = take (Z.to_nat n) data).
  { destruct (Z.min_spec (Zlen data) n) as [[? ->]|[? ->]]; [|done].
    unfold Zlen. rewrite !take_ge; [done|unfold Zlen in *; lia..]. }
  assert (El : Zlen (take (Z.to_nat n) data) = Z.min (Zlen data) n)
    by (unfold Zlen; rewrite length_take; lia).
  pose proof (Zlen_nonneg data). cbv zeta. rewrite E.
  erewrite hm_bind.
  2: { apply copyToUser_ok; rewrite El.
       - eapply mapped_range_sub; [exact Hm|lia..].
       - eapply userBuffer_sub; [exact Hub|lia..]. }
  cbn. now rewrite El.
Qed.

(** *** write *)

Definition serve_write (l : list Z) (k : kernel) : Z * kernel :=
  (Zlen l, Kern (k_keys k) (k_term k ++ l) (k_hw k)).

Lemma write_chunks_ok m p l : forall fuel k off,
  bytes_at m p l -> userBuffer p (Zlen l) = true -> 0 <= off <= Zlen l ->
  Zlen l - off <= Z.of_nat fuel ->
  write_chunks fuel p (Zlen l) off (m, k) =
  (inr tt, (m, Kern (k_keys k) (k_term k ++ drop (Z.to_nat off) l) (k_hw k))).
Proof.
  induction fuel as [|fuel IH]; intros k off Hb Hu Ho Hf; cbn [write_chunks].
  - rewrite drop_ge by (unfold Zlen in *; lia). rewrite app_nil_r. now destruct k.
  - destruct (Z.ltb_spec off (Zlen l)) as [Hlt|Hge].
    2: { rewrite drop_ge by (unfold Zlen in *; lia). rewrite app_nil_r. now destruct k. }
    set (n := Z.min (Zlen l - off) 256). set (c := take (Z.to_nat n) (drop (Z.to_nat off) l)).
    assert (Hc : Zlen c = n) by (unfold c, Zlen in *; rewrite length_take, length_drop; lia).
    assert (Hbc : bytes_at m (p + off) c).
    { rewrite <- (take_drop (Z.to_nat off) l), bytes_at_app in Hb. destruct Hb as [_ Hb].
      rewrite <- (take_drop (Z.to_nat n) (drop _ l)), bytes_at_app in Hb. destruct Hb as [Hb _].
      replace (p + Zlen (take (Z.to_nat off) l)) with (p + off) in Hb; [exact Hb|].
      unfold Zlen in *. rewrite length_take. lia. }
    cbv zeta. rewrite <- Hc at 1. erewrite hm_bind.
    2: { apply copyFromUser_ok; [exact Hbc|]. eapply userBuffer_sub; [exact Hu|lia..]. }
    erewrite hm_bind by reflexivity. rewrite IH; [|done|done|lia|lia]. cbn [k_keys k_term k_hw].
    do 2 f_equal. f_equal. rewrite <- app_assoc. f_equal. unfold c.
    rewrite Z2Nat.inj_add by lia. rewrite <- drop_drop. apply take_drop.
Qed.

Lemma write_serves m k p l :
  bytes_at m p l -> userBuffer p (Zlen l) = true -> l <> [] ->
  dispatch true (write 1 p (Zlen l)) (m, k) = (let '(r, k') := serve_write l k in (r, (m, k'))).
Proof.
  intros Hb Hu Hl. unfold dispatch, write. change (resolve 1) with (Some terminal_out).
  pose proof (Zlen_nonneg l). cbn [negb]. destruct (Z.eqb_spec (Zlen l) 0) as [E|E].
  - destruct l; [done|]. rewrite Zlen_cons in E. pose proof (Zlen_nonneg l). lia.
  - rewrite check_bind, Hu. rewrite (hm_bind _ _ _ tt (m, Kern (k_keys k) (k_term k ++ l) (k_hw k)));
      [done|]. rewrite write_chunks_ok by (done || lia). done.
Qed.

(** *** kbd_read *)

Definition serve_kbd (n : Z) (k : kernel) : (Z * list Z) * kernel :=
  if negb entitled_keyboard then ((wire PermissionDenied, []), k)
  else if n <? 0 then ((wire InvalidArgument, []), k)
  else
    let '(l, rb) := raw_drain (Z.to_nat (Z.min n 64)) (k_keys k) in
    ((Zlen l, Z_of_byte <$> l), Kern rb (k_term k) (k_hw k)).

Lemma kbdRead_serves m k buf n :
  0 <= n -> userBuffer buf n = true -> mapped_range m buf n ->
  dispatch entitled_keyboard (kbdRead buf n) (m, k) =
  (let '((r, l), k') := serve_kbd n k in (r, (poke_list m buf l, k'))).
Proof.
  intros Hn Hu Hm. unfold dispatch, serve_kbd. destruct (negb entitled_keyboard); [done|].
  destruct (Z.ltb_spec n 0); [lia|]. unfold kbdRead.
  destruct (Z.eqb_spec n 0) as [->|Hn0]; [now destruct k|].
  rewrite check_bind, Hu. cbv zeta. pose proof (raw_drain_le (Z.to_nat (Z.min n 64)) (k_keys k)) as Hle.
  destruct (raw_drain _ _) as [l rb] eqn:Ed. simpl fst in Hle.
  erewrite hm_bind by (unfold drain_keys; rewrite Ed; reflexivity).
  assert (El : Zlen (Z_of_byte <$> l) = Zlen l) by (unfold Zlen; now rewrite length_fmap).
  rewrite El. destruct (Z.eqb_spec (Zlen l) 0) as [E|E].
  - destruct l; [done|]. rewrite Zlen_cons in E. pose proof (Zlen_nonneg l). lia.
  - erewrite hm_bind; [reflexivity|]. apply copyToUser_ok; rewrite El; unfold Zlen.
    + eapply mapped_range_sub; [exact Hm|lia..].
    + eapply userBuffer_sub; [exact Hu|lia..].
Qed.

(** *** blk_read *)

(** The bytes the loop of [blkRead] copies, or [None] when a read failed. *)
Fixpoint blk_bytes (fuel : nat) (remaining off : Z) (h : hw) : option (list Z) * hw :=
  match fuel with
  | O => (Some [], h)
  | S fuel' =>
      if 0 <? remaining then
        let o := off mod 512 in
        let c := Z.min 8 (sat (sat (o + remaining) + 511) / 512) in
        match readSectors (dataDeviceIndex h) (off / 512) c h with
        | (None, h') => (None, h')
        | (Some tmp, h') =>
            let n := Z.min remaining (c * 512 - o) in
            match blk_bytes fuel' (remaining - n) (off + n) h' with
            | (Some l, h'') => (Some (sub tmp o n ++ l), h'')
            | (None, h'') => (None, h'')
            end
        end
      else (Some [], h)
  end.

Definition serve_blk (off n : Z) (k : kernel) : (Z * list Z) * kernel :=
  if (n <? 0) || (off <? 0) then ((wire InvalidArgument, []), k)
  else if n =? 0 then ((0, []), k)
  else if negb (isDataReady (k_hw k)) then ((wire NoDevice, []), k)
  else
    let '(r, h) := blk_bytes (Z.to_nat n) n off (k_hw k) in
    let k' := Kern (k_keys k) (k_term k) h in
    match r with
    | Some l => ((n, l), k')
    | None => ((wire IoError, []), k')
    end.

Lemma same_devices_refl h : same_devices h h.
Proof. done. Qed.

Lemma same_devices_trans h1 h2 h3 : same_devices h1 h2 -> same_devices h2 h3 -> same_devices h1 h3.
Proof.
  intros (A1 & B1 & C1) (A2 & B2 & C2). split; [congruence|]. split; [|congruence].
  intros d. now rewrite B2, B1.
Qed.

Lemma same_index h h' : same_devices h h' -> dataDeviceIndex h' = dataDeviceIndex h.
Proof. intros (_ & B & _). unfold dataDeviceIndex. now rewrite B. Qed.

Lemma readSectors_devices d lba c h : same_devices h (readSectors d lba c h).2.
Proof.
  unfold readSectors, readSectorsRaw. destruct (cipher_read d h) as [f|] eqn:E.
  - eapply cipher_devices; exact E.
  - destruct (_ || _); [done|]. destruct (capacity d h); [|done].
    destruct (_ || _); [done|]. apply submit_devices.
Qed.

Lemma readSectors_data lba c h l h' :
  0 <= lba -> 0 < c -> readSectors (dataDeviceIndex h) lba c h = (Some l, h') ->
  l = sub (data_disk h) (lba * 512) (c * 512) /\ Zlen l = c * 512.
Proof.
  intros Hl Hc. unfold readSectors, readSectorsRaw.
  destruct (cipher_read (dataDeviceIndex h) h) as [f|] eqn:E; intros Hr.
  - eapply cipher_sectors; eassumption.
  - destruct (_ || _); [done|]. destruct (capacity (dataDeviceIndex h) h) as [cap|] eqn:Ec; [|done].
    destruct ((cap <? lba) || (cap - lba <? c)) eqn:Eb; [done|].
    eapply submit_sectors; [exact E|exact Ec|lia..|exact Hr].
Qed.

Lemma sub_sub l i n j k :
  0 <= i -> 0 <= j -> 0 <= k -> j + k <= n -> sub (sub l i n) j k = sub l (i + j) k.
Proof.
  intros. unfold sub. rewrite skipn_firstn_comm, take_take, drop_drop. f_equal; [lia|]. f_equal. lia.
Qed.

Lemma sub_join l i n k :
  0 <= i -> 0 <= n -> 0 <= k -> sub l i n ++ sub l (i + n) k = sub l i (n + k).
Proof.
  intros. unfold sub. rewrite (Z2Nat.inj_add n k), (Z2Nat.inj_add i n) by lia.
  rewrite <- drop_drop. apply take_take_drop.
Qed.

(** The number of sectors of an iteration, and the bytes it copies. *)
Lemma blk_count off remaining :
  0 <= off -> 0 < remaining ->
  let o := off mod 512 in
  let c := Z.min 8 (sat (sat (o + remaining) + 511) / 512) in
  0 <= o < 512 /\ 0 < c <= 8 /\ 0 < Z.min remaining (c * 512 - o) <= remaining.
Proof.
  intros Ho Hr o c. pose proof (Z.mod_pos_bound off 512 ltac:(lia)) as Hm. fold o in Hm.
  assert (Hc : 1 <= sat (sat (o + remaining) + 511) / 512).
  { apply Z.div_le_lower_bound; [lia|]. unfold sat, SIZE_MAX. lia. }
  unfold c. lia.
Qed.

(** A read that ends within 8 sectors takes one iteration. *)
Lemma blk_single off remaining :
  0 <= off -> 0 < remaining -> off mod 512 + remaining <= 4096 ->
  let o := off mod 512 in
  let c := Z.min 8 (sat (sat (o + remaining) + 511) / 512) in
  Z.min remaining (c * 512 - o) = remaining.
Proof.
  intros Ho Hr Hone o c. pose proof (Z.mod_pos_bound off 512 ltac:(lia)) as Hm. fold o in Hm, Hone.
  assert (Hc : c = (o + remaining + 511) / 512).
  { unfold c, sat, SIZE_MAX.
    rewrite (Z.min_l (o + remaining)), (Z.min_l (o + remaining + 511)) by lia. apply Z.min_r.
    apply Z.lt_succ_r, Z.div_lt_upper_bound; lia. }
  pose proof (Z.div_mod (o + remaining + 511) 512 ltac:(lia)).
  pose proof (Z.mod_pos_bound (o + remaining + 511) 512 ltac:(lia)). lia.
Qed.

(** Reads deliver the contents of the disk. *)
Lemma blk_bytes_disk fuel : forall remaining off h,
  0 <= off -> 0 <= remaining <= Z.of_nat fuel ->
  let '(r, h') := blk_bytes fuel remaining off h in
  same_devices h h' /\
  match r with
  | Some l => l = sub (data_disk h) off remaining /\ Zlen l = remaining
  | None => True
  end.
Proof.
  induction fuel as [|fuel IH]; intros remaining off h Ho Hr; cbn [blk_bytes].
  - assert (remaining = 0) as -> by lia. done.
  - destruct (Z.ltb_spec 0 remaining) as [Hpos|]; [|assert (remaining = 0) as -> by lia; done].
    destruct (blk_count off remaining Ho Hpos) as (Hb1 & Hb2 & Hb3). cbv zeta in *.
    set (o := off mod 512) in *. set (c := Z.min 8 _) in *. set (n := Z.min remaining _) in *.
    pose proof (readSectors_devices (dataDeviceIndex h) (off / 512) c h) as Hd.
    assert (Hlba : 0 <= off / 512) by (apply Z.div_pos; lia).
    destruct (readSectors _ _ _ _) as [[tmp|] h1] eqn:E; simpl snd in Hd; [|done].
    destruct (readSectors_data _ _ _ _ _ Hlba (proj1 Hb2) E) as [Htmp Hlen].
    specialize (IH (remaining - n) (off + n) h1 ltac:(lia) ltac:(lia)).
    destruct (blk_bytes fuel _ _ h1) as [r h2]. destruct IH as [Hd2 Hl].
    pose proof (same_devices_trans _ _ _ Hd Hd2) as Hd3. destruct r as [l|]; [|done].
    destruct Hl as [Hl1 Hl2]. destruct Hd as (Hdisk & _). rewrite Hdisk in Hl1.
    assert (Hoff : off = off / 512 * 512 + o) by (unfold o; pose proof (Z.div_mod off 512); lia).
    split; [done|]. rewrite Htmp, sub_sub by lia. rewrite <- Hoff, Hl1. split.
    + rewrite sub_join by lia. f_equal. lia.
    + rewrite Zlen_app, <- Hl1, Hl2.
      replace (Zlen (sub (data_disk h) off n)) with n; [lia|].
      assert (E2 : Zlen (sub tmp o n) = n) by (unfold Zlen at 1; rewrite sub_length by lia; lia).
      rewrite Htmp, sub_sub, <- Hoff in E2 by lia. done.
Qed.

(** The loop of the handler copies these bytes to the buffer; when a later
    iteration fails, bytes of the earlier ones stay there. *)
Lemma blk_chunks_ok fuel : forall m k p out remaining off,
  0 <= off -> 0 <= remaining <= Z.of_nat fuel ->
  userBuffer (p + out) remaining = true -> mapped_range m (p + out) remaining ->
  let '(r, h') := blk_bytes fuel remaining off (k_hw k) in
  let k' := Kern (k_keys k) (k_term k) h' in
  match r with
  | Some l => blk_chunks fuel p out remaining off (m, k) =
                (inr (out + remaining), (poke_list m (p + out) l, k'))
  | None => exists m', blk_chunks fuel p out remaining off (m, k) = (inl IoError, (m', k')) /\
              (forall q, q < p + out \/ p + out + remaining <= q -> peek m' q = peek m q) /\
              (off mod 512 + remaining <= 4096 -> m' = m)
  end.
Proof.
  induction fuel as [|fuel IH]; intros m k p out remaining off Ho Hr Hu Hm; cbn [blk_bytes blk_chunks].
  - assert (remaining = 0) as -> by lia. rewrite Z.add_0_r. now destruct k.
  - destruct (Z.ltb_spec 0 remaining) as [Hpos|].
    2: { assert (remaining = 0) as -> by lia. rewrite Z.add_0_r. now destruct k. }
    destruct (blk_count off remaining Ho Hpos) as (Hb1 & Hb2 & Hb3). cbv zeta in *.
    set (o := off mod 512) in *. set (c := Z.min 8 _) in *. set (n := Z.min remaining _) in *.
    assert (Hlba : 0 <= off / 512) by (apply Z.div_pos; lia).
    destruct (readSectors (dataDeviceIndex (k_hw k)) (off / 512) c (k_hw k)) as [[tmp|] h1] eqn:E.
    2: { exists m. erewrite hm_bind by (cbn [with_hw]; rewrite E; reflexivity). done. }
    erewrite hm_bind by (cbn [with_hw]; rewrite E; reflexivity).
    destruct (readSectors_data _ _ _ _ _ Hlba (proj1 Hb2) E) as [Htmp Hlen].
    assert (Hs : Zlen (sub tmp o n) = n) by (unfold Zlen at 1; rewrite sub_length by lia; lia).
    set (k1 := Kern (k_keys k) (k_term k) h1). set (m1 := poke_list m (p + out) (sub tmp o n)).
    specialize (IH m1 k1 p (out + n) (remaining - n) (off + n) ltac:(lia) ltac:(lia)).
    rewrite Z.add_assoc in IH. cbn [k_hw k1] in IH.
    specialize (IH (userBuffer_sub (p + out) remaining (p + out + n) (remaining - n) Hu ltac:(lia) ltac:(lia) ltac:(lia) ltac:(lia))).
    assert (Hm1 : mapped_range m1 (p + out + n) (remaining - n)).
    { apply mapped_range_poke_list. eapply mapped_range_sub; [exact Hm|lia..]. }
    specialize (IH Hm1).
    assert (Ec : copyToUser (p + out) (sub tmp o n) (m, k1) = (inr tt, (m1, k1))).
    { apply copyToUser_ok; rewrite Hs.
      - eapply mapped_range_sub; [exact Hm|lia..].
      - eapply userBuffer_sub; [exact Hu|lia..]. }
    destruct (blk_bytes fuel (remaining - n) (off + n) h1) as [[l|] h2] eqn:Eb; cbn [k_keys k_term k1] in IH.
    + erewrite hm_bind by exact Ec. rewrite IH.
      replace (out + n + (remaining - n)) with (out + remaining) by lia.
      unfold m1. now rewrite poke_list_app, Hs.
    + destruct IH as (m' & E1 & E2 & E3). exists m'. erewrite hm_bind by exact Ec. rewrite E1.
      split; [done|]. split.
      * intros q Hq. rewrite E2 by lia. unfold m1. apply peek_poke_list_out. lia.
      * intros Hone. exfalso. assert (n = remaining) by now apply blk_single.
        replace (remaining - n) with 0 in Eb by lia. destruct fuel; done.
Qed.

Lemma blkRead_serves m k buf off n :
  0 <= off -> 0 <= n -> userBuffer buf n = true -> mapped_range m buf n ->
  let '((r, l), k') := serve_blk off n k in
  exists m', dispatch true (blk_read (BlkSpec off buf n)) (m, k) = (r, (m', k')) /\
  (forall q, q < buf \/ buf + n <= q -> peek m' q = peek m q) /\
  (0 <= r \/ off mod 512 + n <= 4096 -> m' = poke_list m buf l).
Proof.
  intros Ho Hn Hu Hm. unfold serve_blk, dispatch, blk_read. cbn [bs_byte_offset bs_buf_ptr bs_buf_len negb].
  destruct (Z.ltb_spec n 0); [lia|]. destruct (Z.ltb_spec off 0); [lia|]. cbn [orb].
  destruct (Z.eqb_spec n 0); [now exists m|]. rewrite check_bind, Hu.
  rewrite (hm_bind _ _ _ (k_hw k) (m, k)) by now destruct k. rewrite check_bind.
  destruct (isDataReady (k_hw k)); cbn [negb]; [|now exists m].
  pose proof (blk_chunks_ok (Z.to_nat n) m k buf 0 n off Ho ltac:(lia)) as Hc.
  rewrite Z.add_0_r in Hc. specialize (Hc Hu Hm).
  destruct (blk_bytes _ _ _ _) as [[l|] h'] eqn:E.
  - pose proof (blk_bytes_disk (Z.to_nat n) n off (k_hw k) Ho ltac:(lia)) as Hd. rewrite E in Hd.
    destruct Hd as (_ & _ & Hl). rewrite Hc. eexists. split; [reflexivity|]. split; [|done].
    intros q Hq. apply peek_poke_list_out. lia.
  - destruct Hc as (m' & Ec & Ho1 & Ho2). rewrite Ec. exists m'. split; [done|]. split; [done|].
    intros [Hw|Hone]; [cbn in Hw; lia|]. now rewrite (Ho2 Hone).
Qed.

(** *** mmap *)

Definition no_bytes (rs : list (Z * Z)) : mem := Mem rs ∅.

Definition serve_mmap (rs : list (Z * Z)) (n prot : Z) (k : kernel) : Z * kernel :=
  let '(r, (_, k')) := dispatch true (mmap n prot) (no_bytes rs, k) in (r, k').

Lemma mmap_serves m k n prot :
  dispatch true (mmap n prot) (m, k) =
  (let '(r, k') := serve_mmap (regions m) n prot k in
   (r, (if 0 <=? r then map_region m r (page_round n) else m, k'))).
Proof.
  unfold serve_mmap, dispatch, mmap. cbn [negb]. cbv zeta.
  rewrite !(check_bind (negb (n =? 0))). destruct (negb (n =? 0)); [|done].
  rewrite !(check_bind (n <=? _)). destruct (n <=? _); [|done].
  rewrite !(check_bind (_ || _)). destruct (_ || _); [|done].
  rewrite !(check_bind (negb _)). destruct (negb _); [|done].
  unfold mbind, HM_bind, map_range. cbn [no_bytes regions].
  destruct (space_map (regions m) (page_round n) (k_hw k)) as [[a|[]] h] eqn:E; try done.
  apply map_fresh in E as (_ & _ & Hb & _). unfold user_base in Hb. simpl.
  destruct (Z.leb_spec 0 a); [done|lia].
Qed.

Lemma serve_mmap_spec rs n prot k r k' :
  serve_mmap rs n prot k = (r, k') ->
  same_devices (k_hw k) (k_hw k') /\ k_term k' = k_term k /\
  (r < 0 \/ exists h, 0 < n /\ space_map rs (page_round n) (k_hw k) = (inl r, h)).
Proof.
  unfold serve_mmap, dispatch, mmap. cbn [negb]. rewrite check_bind.
  destruct (Z.eqb_spec n 0); cbn [negb]; [intros [= <- <-]; split; [done|]; split; [done|]; left; cbn; lia|].
  rewrite check_bind. destruct (n <=? _); [|intros [= <- <-]; split; [done|]; split; [done|]; left; cbn; lia].
  cbv zeta. rewrite check_bind.
  destruct (_ || _); [|intros [= <- <-]; split; [done|]; split; [done|]; left; cbn; lia].
  rewrite check_bind.
  destruct (negb (_ && _)); [|intros [= <- <-]; split; [done|]; split; [done|]; left; cbn; lia].
  unfold mbind, HM_bind, map_range. cbn [no_bytes regions].
  pose proof (map_devices rs (page_round n) (k_hw k)) as Hd.
  destruct (space_map rs (page_round n) (k_hw k)) as [[a|[]] h] eqn:E; simpl in *;
    intros [= <- <-]; (split; [done|]; split; [done|]); try (left; cbn; lia).
  right. exists h. split; [|done]. apply map_fresh in E as (Hp & _).
  unfold page_round in Hp. destruct (Z_lt_le_dec 0 n); [done|].
  assert ((n + 4095) / 4096 <= 0) by (apply Z.lt_succ_r, Z.div_lt_upper_bound; lia). lia.
Qed.

(** *** framebuffer_map *)

(** The display the handler maps: its description, its size and the wiring of
    its pages. *)
Definition display_of (h : hw) : option (fb_info * Z * (Z -> HM (option Error))) :=
  match gpu h, getPhysInfo h with
  | Some g, _ => Some (FbInfo (gpu_width g) (gpu_height g) (gpu_width g * 4) 32,
                       Zlen (gpu_pages g) * 4096, fun a => map_gpu_pages a (gpu_pages g))
  | None, Some p =>
      let n := page_round (ph_pitch p * ph_height p) in
      Some (FbInfo (ph_width p) (ph_height p) (ph_pitch p) (ph_bpp p), n,
            fun a => map_fb_pages a (ph_base p) 0 (Z.to_nat (n / 4096)))
  | None, None => None
  end.

Definition serve_framebuffer (rs : list (Z * Z)) (k : kernel) : (Z * fb_info * list Z) * kernel :=
  if negb entitled_framebuffer then ((wire PermissionDenied, FbInfo 0 0 0 0, []), k)
  else
    match display_of (k_hw k) with
    | None => ((wire NoDevice, FbInfo 0 0 0 0, []), k)
    | Some (i, n, w) =>
        match map_display n w (no_bytes rs, k) with
        | (inr va, (_, k')) => ((va, i, take (Z.to_nat n) (shown (k_hw k'))), k')
        | (inl e, (_, k')) => ((wire e, FbInfo 0 0 0 0, []), k')
        end
    end.

(** The loops that wire pages leave the memory alone and end with success or with
    an error that has a code. *)
Definition wires (c : HM (option Error)) : Prop :=
  forall k, exists o k', (forall m, c (m, k) = (inr o, (m, k'))) /\ (forall e, o = Some e -> wire e < 0).

Lemma map_gpu_pages_wires pages : forall virt, wires (map_gpu_pages virt pages).
Proof.
  induction pages as [|pg pages IH]; intros virt k; cbn [map_gpu_pages].
  - exists None, k. split; [reflexivity|done].
  - unfold mbind, HM_bind, with_hw. destruct (map_page virt pg (k_hw k)) as [[|] h].
    + apply IH.
    + eexists _, _. split; [reflexivity|]. intros e [= <-]. cbn. lia.
Qed.

Lemma map_fb_pages_wires virt base n : forall i, wires (map_fb_pages virt base i n).
Proof.
  induction n as [|n IH]; intros i k; cbn [map_fb_pages].
  - exists None, k. split; [reflexivity|done].
  - destruct (negb _); [eexists _, _; split; [reflexivity|]; intros e [= <-]; cbn; lia|].
    destruct (_ <? _); [eexists _, _; split; [reflexivity|]; intros e [= <-]; cbn; lia|].
    unfold mbind, HM_bind, with_hw. destruct (map_page _ _ (k_hw k)) as [[|] h].
    + apply IH.
    + eexists _, _. split; [reflexivity|]. intros e [= <-]. cbn. lia.
Qed.

Lemma display_of_ok h i n w : display_of h = Some (i, n, w) ->
  (0 < n -> n = page_round (fb_pitch i * fb_height i)) /\ (forall a, wires (w a)) /\
  0 <= fb_width i < 2 ^ 32 /\ 0 <= fb_height i < 2 ^ 32 /\ 0 <= fb_pitch i < 2 ^ 32.
Proof.
  unfold display_of. destruct (gpu h) as [g|] eqn:Eg.
  - destruct (gpu_frame _ _ Eg) as (Hw & Hh & Hp). intros [= <- <- <-]. cbn [fb_width fb_height fb_pitch].
    split; [done|]. split; [apply map_gpu_pages_wires|lia].
  - destruct (getPhysInfo h) as [p|] eqn:Ep; [|done]. destruct (phys_frame _ _ Ep) as (Hw & Hh & Hp).
    intros [= <- <- <-]. split; [done|]. split; [intros a; apply map_fb_pages_wires|done].
Qed.

(** Mapping the display: the result does not depend on the bytes in memory. *)
Lemma map_display_spec n w k rs : (forall a, wires (w a)) ->
  exists r k', (forall m, regions m = rs -> map_display n w (m, k) =
    (r, (match r with inr a => map_region m a n | inl _ => m end, k'))) /\
  match r with
  | inr a => exists h, space_map rs n (k_hw k) = (inl a, h)
  | inl e => wire e < 0
  end.
Proof.
  intros Hw. destruct (space_map rs n (k_hw k)) as [[a|e] h] eqn:E.
  - destruct (Hw a (Kern (k_keys k) (k_term k) h)) as (o & k1 & Ew & Ho).
    destruct o as [e|].
    + eexists (inl e), _. split; [|now apply Ho]. intros m Hm. unfold map_display.
      rewrite (hm_bind _ _ _ m (m, k)) by done. unfold map_range, mbind, HM_bind. rewrite Hm, E, Ew. reflexivity.
    + exists (inr a), k1. split; [|now exists h]. intros m Hm. unfold map_display.
      rewrite (hm_bind _ _ _ m (m, k)) by done. unfold map_range, mbind, HM_bind. rewrite Hm, E, Ew. reflexivity.
  - eexists (inl OutOfMemory), _. split; [|cbn; lia]. intros m Hm. unfold map_display.
    rewrite (hm_bind _ _ _ m (m, k)) by done. unfold map_range, mbind, HM_bind. rewrite Hm, E. reflexivity.
Qed.

Lemma serve_framebuffer_spec rs k a i px k' :
  serve_framebuffer rs k = ((a, i, px), k') -> 0 <= a ->
  (exists h h', space_map rs (page_round (fb_pitch i * fb_height i)) h = (inl a, h')) /\
  Zlen px <= page_round (fb_pitch i * fb_height i) /\
  0 <= fb_width i < 2 ^ 32 /\ 0 <= fb_height i < 2 ^ 32 /\ 0 <= fb_pitch i < 2 ^ 32.
Proof.
  unfold serve_framebuffer. destruct (negb _); [intros [= <- <- <- <-]; cbn; lia|].
  destruct (display_of (k_hw k)) as [[[i0 n] w]|] eqn:Ed; [|intros [= <- <- <- <-]; cbn; lia].
  destruct (display_of_ok _ _ _ _ Ed) as (Hn & Hw & Hdim).
  destruct (map_display_spec n w k rs Hw) as (r & k1 & Em & Hr). rewrite (Em (no_bytes rs) eq_refl).
  destruct r as [e|va]; intros [= <- <- <- <-]; [lia|]. intros _. destruct Hr as [h Es].
  pose proof (map_fresh _ _ _ _ _ Es) as (Hpos & _). rewrite <- (Hn Hpos).
  split; [eauto|]. split; [|exact Hdim]. unfold Zlen. rewrite length_take. lia.
Qed.

Lemma fb_bytes_length i : Zlen (fb_bytes i) = 16.
Proof. reflexivity. Qed.

(** The handler on a valid pointer: the range is mapped, or nothing changes. *)
Lemma framebuffer_serves m k p :
  userBuffer p 16 = true -> mapped_range m p 16 ->
  dispatch entitled_framebuffer (framebufferMap p) (m, k) =
  (let '((r, i, _), k') := serve_framebuffer (regions m) k in
   (r, (if 0 <=? r then poke_list (map_region m r (page_round (fb_pitch i * fb_height i))) p (fb_bytes i)
        else m, k'))).
Proof.
  intros Hu Hm. unfold dispatch, serve_framebuffer. destruct (negb _); [done|].
  assert (Hf : framebufferMap p (m, k) =
    match display_of (k_hw k) with
    | None => (inl NoDevice, (m, k))
    | Some (i, n, w) => (va ← map_display n w; copyToUser p (fb_bytes i);; mret va) (m, k)
    end).
  { unfold framebufferMap, display_of. rewrite (hm_bind _ _ _ (k_hw k) (m, k)) by now destruct k.
    destruct (gpu (k_hw k)); [|destruct (getPhysInfo (k_hw k)); [|done]];
      unfold framebufferMapGpu; rewrite check_bind, Hu; reflexivity. }
  rewrite Hf. clear Hf. destruct (display_of (k_hw k)) as [[[i n] w]|] eqn:Ed; [|done].
  destruct (display_of_ok _ _ _ _ Ed) as (Hn & Hw & _).
  destruct (map_display_spec n w k (regions m) Hw) as (r & k1 & Em & Hr).
  rewrite (Em (no_bytes (regions m)) eq_refl). destruct r as [e|va].
  - rewrite (hm_throw _ _ _ e (m, k1)) by now rewrite Em. destruct (Z.leb_spec 0 (wire e)); [lia|done].
  - destruct Hr as [h Es]. pose proof (map_fresh _ _ _ _ _ Es) as (Hpos & _ & Hb & _ & _).
    rewrite (hm_bind _ _ _ va (map_region m va n, k1)) by now rewrite Em.
    erewrite hm_bind.
    2: { apply copyToUser_ok; rewrite fb_bytes_length; [|exact Hu]. intros q Hq.
         rewrite is_mapped_map_region, (Hm q Hq). apply orb_true_r. }
    unfold user_base in Hb. destruct (Z.leb_spec 0 va); [|lia]. now rewrite <- (Hn Hpos).
Qed.

(** ** The kernel the handlers provide *)

Definition serve : Kernel := {|
  kst := kernel;
  sys_write l k := serve_write l k;
  sys_mmap rs n prot k := serve_mmap rs n prot k;
  sys_framebuffer_map rs k := serve_framebuffer rs k;
  sys_uptime_ms k :=
    let '(ms, h) := getUptimeMs (k_hw k) in (ms, Kern (k_keys k) (k_term k) h);
  sys_blk_read off n k := serve_blk off n k;
  sys_initfs_read name n k := (serve_initfs name n, k);
  sys_kbd_read n k := serve_kbd n k
|}.

Lemma Z_of_byte_ok b : byte_ok (Z_of_byte b).
Proof. unfold byte_ok, Z_of_byte. pose proof (Byte.to_N_bounded b). lia. Qed.

Lemma findFile_bytes name data : findFile name = Some data -> Forall byte_ok data.
Proof.
  intros E. apply (find_from_slice archive name _ 0 data (Z.le_refl 0)) in E as (st & _ & _ & ->).
  apply sub_bytes, archive_bytes.
Qed.

Lemma serve_blk_spec off n k r l k' :
  serve_blk off n k = ((r, l), k') ->
  same_devices (k_hw k) (k_hw k') /\ k_term k' = k_term k /\
  (0 <= r -> r = Zlen l /\ r = n /\ l = sub (data_disk (k_hw k)) off n).
Proof.
  unfold serve_blk. destruct (_ || _) eqn:Eb; [intros [= <- <- <-]; cbn; split; [done|]; split; [done|lia]|].
  destruct (Z.eqb_spec n 0) as [->|]; [intros [= <- <- <-]; done|].
  destruct (negb _); [intros [= <- <- <-]; cbn; split; [done|]; split; [done|lia]|].
  pose proof (blk_bytes_disk (Z.to_nat n) n off (k_hw k) ltac:(lia) ltac:(lia)) as Hd.
  destruct (blk_bytes _ _ _ _) as [[d|] h]; destruct Hd as [Hd Hl]; intros [= <- <- <-]; cbn.
  - destruct Hl as [Hl1 Hl2]. done.
  - split; [done|]. split; [done|lia].
Qed.

(** The handlers keep the promises of the kernel interface. *)
#[export] Instance serve_laws : KernelLaws serve.
Proof.
  split; cbn [serve sys_mmap sys_framebuffer_map sys_blk_read sys_initfs_read sys_kbd_read].
  - intros rs n prot k a k' E Ha. apply serve_mmap_spec in E as (_ & _ & [?|(h & Hn & E)]); [lia|].
    apply map_fresh in E as (_ & H1 & H2 & H3 & H4). unfold user_base, user_end in *.
    split; [done|]. split; [done|]. split; [lia|done].
  - intros rs k a i px k' E Ha. apply serve_framebuffer_spec in E as ((h & h' & E) & Hpx & Hi); [|done].
    apply map_fresh in E as (_ & H1 & H2 & H3 & H4). unfold user_base, user_end in *.
    split; [lia|]. split; [lia|]. done.
  - intros off n k r l k' E Hr. apply serve_blk_spec in E as (_ & _ & Hl).
    destruct (Hl Hr) as (H1 & H2 & ->). split; [done|]. split; [lia|]. apply sub_bytes, disk_bytes.
  - intros name n k r l k' [= E _] Hr Hn. revert E. unfold serve_initfs.
    destruct (_ || _); [intros [= <- <-]; cbn in Hr; lia|].
    destruct (findFile name) as [data|] eqn:Ef; [|intros [= <- <-]; cbn in Hr; lia].
    destruct (Z.eqb_spec n 0); [lia|]. intros [= <- <-]. split; [done|].
    split; [unfold Zlen; rewrite length_take; lia|]. eapply Forall_take, findFile_bytes, Ef.
  - intros name k r l k' [= E _]. revert E. unfold serve_initfs.
    destruct (_ || _); [now intros [= <- <-]|]. destruct (findFile name); now intros [= <- <-].
  - intros n k r l k'. unfold serve_kbd. destruct (negb _); [intros [= <- <- <-]; cbn; lia|].
    destruct (Z.ltb_spec n 0); [intros [= <- <- <-]; cbn; lia|].
    pose proof (raw_drain_le (Z.to_nat (Z.min n 64)) (k_keys k)) as Hle.
    destruct (raw_drain _ _) as [bs rb]. simpl fst in Hle. intros [= <- <- <-] _.
    split; [unfold Zlen; now rewrite length_fmap|]. split; [unfold Zlen; lia|].
    apply Forall_fmap, Forall_true. intros b. apply Z_of_byte_ok.
Qed.

(** The media behind the interface: the terminal, the data disk when there is
    one, and the embedded archive. *)
Definition served_disk (k : kernel) : list Z :=
  if isDataReady (k_hw k) then data_disk (k_hw k) else [].

Definition served_file (name : list Z) : option (list Z) :=
  if (Zlen name =? 0) || (255 <? Zlen name) then None else findFile name.

Lemma served_disk_same k k' : same_devices (k_hw k) (k_hw k') -> served_disk k' = served_disk k.
Proof. intros (E1 & E2 & E3). unfold served_disk, isDataReady. now rewrite E1, E2, E3. Qed.

#[export] Instance serve_data : KernelData serve.
Proof.
  refine {| console := k_term : @kst serve -> list Z; disk := served_disk : @kst serve -> list Z;
            initfs := (fun _ => served_file) : @kst serve -> list Z -> option (list Z) |};
    cbn [serve sys_write sys_mmap sys_blk_read sys_initfs_read snd].
  - intros l k r k' [= <- <-]. cbn. split; [done|]. split; [lia|]. case_bool.
    + rewrite take_ge; [done|]. unfold Zlen. lia.
    + destruct l; [done|]. rewrite Zlen_cons in *. pose proof (Zlen_nonneg l). lia.
  - intros rs n prot k r k' E. apply serve_mmap_spec in E as (Hd & _).
    split; [now apply served_disk_same|done].
  - intros off n k r l k' E. pose proof (serve_blk_spec _ _ _ _ _ _ E) as (Hd & _ & Hl).
    split; [split; [now apply served_disk_same|done]|]. intros Hr.
    destruct (Hl Hr) as (H1 & H2 & H3). revert E. unfold serve_blk, served_disk.
    destruct (_ || _) eqn:Eb; [intros [= <- <- <-]; cbn in Hr; lia|].
    destruct (Z.eqb_spec n 0) as [->|]; [intros [= <- <- <-]; done|].
    destruct (isDataReady (k_hw k)); cbn [negb]; [|intros [= <- <- <-]; cbn in Hr; lia].
    intros _. rewrite H2. exact H3.
  - intros name n k r l k' Hn [= E <-]. split; [done|]. revert E. unfold serve_initfs, served_file.
    destruct (_ || _); [intros [= <- <-]; cbn; lia|].
    destruct (findFile name); [|intros [= <- <-]; cbn; lia].
    destruct (n =? 0); intros [= <- <-]; done.
  - intros rs n prot k. destruct (serve_mmap rs n prot k) as [r k'] eqn:E.
    now apply serve_mmap_spec in E as (_ & Hc & _).
  - intros off n k. destruct (serve_blk off n k) as [[r l] k'] eqn:E.
    now apply serve_blk_spec in E as (_ & Hc & _).
Defined.

(** ** Wrappers and handlers *)

(** What a wrapper makes of the return register: [err] stands for every error,
    and memory and kernel are as the handler left them. *)
Definition returns (err : Z) (out : Z * (mem * kernel)) (s : @proc serve) : outcome (@proc serve) Z :=
  let '(r, (m, k)) := out in
  Ret (if r <? 0 then err else r) (@set_kst serve k (@set_mem serve m s)).

Lemma deliver_returns (s : @proc serve) (k' : kernel) buf r l err :
  mapped_range (p_mem s) buf (Zlen l) -> (r < 0 -> l = []) ->
  @deliver serve buf r l err (@set_kst serve k' s) = returns err (r, (poke_list (p_mem s) buf l, k')) s.
Proof.
  intros Hm Hl. unfold deliver, decode, returns.
  destruct (Z.leb_spec 0 r); destruct (Z.ltb_spec r 0); try lia.
  - erewrite bind_ret by (apply in_mem_ret, store_bytes_ret; exact Hm). done.
  - rewrite Hl by done. cbn. now destruct s.
Qed.

Lemma serve_initfs_cases name n r l :
  0 <= n -> serve_initfs name n = (r, l) -> Zlen l <= n /\ (r < 0 -> l = []).
Proof.
  intros Hn. unfold serve_initfs. destruct (_ || _); [intros [= <- <-]; done|].
  destruct (findFile name) as [data|]; [|intros [= <- <-]; done].
  destruct (Z.eqb_spec n 0); intros [= <- <-]; [split; [done|]; intros; done|].
  split; [unfold Zlen; rewrite length_take; lia|]. pose proof (Zlen_nonneg (take (Z.to_nat n) data)). lia.
Qed.

Lemma initfs_reaches (s : @proc serve) p name buf n :
  bytes_at (p_mem s) p name -> userBuffer p (Zlen name) = true -> Zlen name < 2 ^ 32 ->
  0 <= n -> userBuffer buf n = true -> mapped_range (p_mem s) buf n ->
  innigkeit_initfs_read p (Zlen name) buf n s =
  returns (-2) (dispatch true (initfs_read (InitfsSpec p (Zlen name) buf n)) (p_mem s, p_kst s)) s.
Proof.
  intros Hb Hu Hl Hn Hub Hm. rewrite initfsRead_serves by done. unfold innigkeit_initfs_read.
  erewrite bind_ret by (unfold guard_c; destruct (Z.ltb_spec (Zlen name) (2 ^ 32)); [reflexivity|lia]).
  erewrite bind_ret by (apply in_mem_read, load_bytes_ret; [done|lia]).
  unfold initfs_call. cbn [serve sys_initfs_read].
  destruct (serve_initfs name n) as [r l] eqn:E. apply serve_initfs_cases in E as [H1 H2]; [|done].
  pose proof (Zlen_nonneg l). apply deliver_returns; [|done].
  eapply mapped_range_sub; [exact Hm|lia..].
Qed.

Lemma kbd_reaches (s : @proc serve) buf n :
  0 <= n -> userBuffer buf n = true -> mapped_range (p_mem s) buf n ->
  innigkeit_kbd_read buf n s =
  returns 0 (dispatch entitled_keyboard (kbdRead buf n) (p_mem s, p_kst s)) s.
Proof.
  intros Hn Hu Hm. rewrite kbdRead_serves by done. unfold innigkeit_kbd_read.
  cbn [serve sys_kbd_read]. destruct (serve_kbd n (p_kst s)) as [[r l] k'] eqn:E.
  assert (Hl : Zlen l <= n /\ (r < 0 -> l = [])).
  { revert E. unfold serve_kbd. destruct (negb _); [intros [= <- <- <-]; done|].
    destruct (Z.ltb_spec n 0); [lia|].
    pose proof (raw_drain_le (Z.to_nat (Z.min n 64)) (k_keys (p_kst s))) as Hle.
    destruct (raw_drain _ _) as [bs rb]. simpl fst in Hle. intros [= <- <- <-].
    split; [unfold Zlen; rewrite length_fmap; lia|]. pose proof (Zlen_nonneg bs). lia. }
  destruct Hl as [H1 H2]. pose proof (Zlen_nonneg l). apply deliver_returns; [|done].
  eapply mapped_range_sub; [exact Hm|lia..].
Qed.

Lemma blk_reaches (s : @proc serve) off buf n :
  0 <= off -> 0 <= n -> userBuffer buf n = true -> mapped_range (p_mem s) buf n ->
  let out := dispatch true (blk_read (BlkSpec off buf n)) (p_mem s, p_kst s) in
  off mod 512 + n <= 4096 \/ 0 <= out.1 ->
  innigkeit_blk_read off buf n s = returns (-1) out s.
Proof.
  intros Ho Hn Hu Hm out Hcase. pose proof (blkRead_serves (p_mem s) (p_kst s) buf off n Ho Hn Hu Hm) as Hs.
  unfold innigkeit_blk_read. cbn [serve sys_blk_read].
  destruct (serve_blk off n (p_kst s)) as [[r l] k'] eqn:E. destruct Hs as (m' & Ed & _ & Hm').
  assert (Eo : out = (r, (m', k'))) by exact Ed.
  rewrite Eo in Hcase |- *. cbn [fst] in Hcase. rewrite Hm' by tauto.
  assert (Hl : Zlen l <= n /\ (r < 0 -> l = [])).
  { pose proof (serve_blk_spec _ _ _ _ _ _ E) as (_ & _ & Hr). revert E. unfold serve_blk.
    destruct (_ || _) eqn:Eb; [lia|]. destruct (n =? 0); [intros [= <- <- <-]; done|].
    destruct (negb _); [intros [= <- <- <-]; done|].
    destruct (blk_bytes _ _ _ _) as [[d|] h]; intros [= <- <- <-]; [|done].
    destruct (Hr Hn) as (H1 & _). lia. }
  destruct Hl as [H1 H2]. pose proof (Zlen_nonneg l). apply deliver_returns; [|done].
  eapply mapped_range_sub; [exact Hm|lia..].
Qed.

Lemma mmap_reaches (s : @proc serve) n :
  innigkeit_mmap n s = returns 0 (dispatch true (mmap n 3) (p_mem s, p_kst s)) s.
Proof.
  rewrite mmap_serves. unfold innigkeit_mmap, decode. cbn [serve sys_mmap].
  destruct (serve_mmap (regions (p_mem s)) n 3 (p_kst s)) as [r k'] eqn:E.
  apply serve_mmap_spec in E as (_ & _ & Hr). unfold returns.
  destruct (Z.leb_spec 0 r) as [Hle|Hlt]; destruct (Z.ltb_spec r 0); try lia.
  - destruct Hr as [?|(h & _ & E)]; [lia|]. apply map_fresh in E as (_ & _ & Hb & _).
    unfold user_base in Hb. destruct (Z.eqb_spec r 0); [lia|done].
  - now destruct s.
Qed.

(** C10. The kernel interface the runtime is verified against is what the
    handlers provide: they meet its laws, and a wrapper that is given buffers in
    user memory does to memory and kernel what the handler does and returns its
    result, with every error as the wrapper's error value.  For [blk_read] this
    holds when the read succeeds or stays within 8 sectors; a longer one that
    fails may leave part of the data in the buffer.  [framebuffer_map] maps the
    display and writes its description, or changes no memory. *)
Theorem wrappers_reach_handlers (s : @proc serve) p name buf n off sp bp :
  let spec := InitfsSpec p (Zlen name) buf n in
  let bspec := BlkSpec off buf n in
  bytes_at (p_mem s) p name -> userBuffer p (Zlen name) = true -> Zlen name < 2 ^ 32 ->
  userBuffer buf n = true -> mapped_range (p_mem s) buf n ->
  0 <= p < 2 ^ 64 -> 0 <= buf < 2 ^ 64 -> 0 <= n < 2 ^ 64 -> 0 <= off < 2 ^ 64 ->
  user_struct (p_mem s) sp (initfs_bytes spec) -> user_struct (p_mem s) bp (blk_spec_bytes bspec) ->
  let st : mem * kernel := (p_mem s, p_kst s) in
  KernelLaws serve /\
  innigkeit_mmap n s = returns 0 (dispatch true (mmap n 3) st) s /\
  innigkeit_initfs_read p (Zlen name) buf n s = returns (-2) (dispatch true (initfsRead sp) st) s /\
  innigkeit_kbd_read buf n s = returns 0 (dispatch entitled_keyboard (kbdRead buf n) st) s /\
  (let out := dispatch true (blkRead bp) st in
   off mod 512 + n <= 4096 \/ 0 <= out.1 -> innigkeit_blk_read off buf n s = returns (-1) out s) /\
  (name <> [] -> dispatch true (write 1 p (Zlen name)) st =
    (let '(r, k') := @sys_write serve name (p_kst s) in (r, (p_mem s, k')))) /\
  (16 <= n -> dispatch entitled_framebuffer (framebufferMap buf) st =
    (let '((r, i, _), k') := @sys_framebuffer_map serve (regions (p_mem s)) (p_kst s) in
     (r, (if 0 <=? r then poke_list (map_region (p_mem s) r (page_round (fb_pitch i * fb_height i))) buf (fb_bytes i)
          else p_mem s, k')))).
Proof.
  intros spec bspec Hb Hu Hl Hub Hm Hp Hbuf Hn Ho Hsp Hbp st. pose proof (Zlen_nonneg name).
  assert (E1 : initfsRead sp st = initfs_read spec st) by (apply initfsRead_struct; done || (cbn; lia)).
  assert (E2 : blkRead bp st = blk_read bspec st) by (apply blkRead_struct; done).
  replace (dispatch true (initfsRead sp) st) with (dispatch true (initfs_read spec) st) by (unfold dispatch; now rewrite E1).
  replace (dispatch true (blkRead bp) st) with (dispatch true (blk_read bspec) st) by (unfold dispatch; now rewrite E2).
  split; [exact serve_laws|]. split; [apply mmap_reaches|].
  split; [now apply initfs_reaches|]. split; [now apply kbd_reaches|].
  split; [now apply blk_reaches|]. split; [intros Hne; now apply write_serves|]. intros H16.
  apply framebuffer_serves; [eapply userBuffer_sub; [exact Hub|lia..]|eapply mapped_range_sub; [exact Hm|lia..]].
Qed.

(** Every error a handler returns has a negative code of its own, from which the
    library gets it back. *)
Lemma error_codes e : e <> Unknown ->
  exists c, code e = Some c /\ c < 0 /\ fromCode c = e.
Proof. destruct e; intros He; try done; eexists; (split; [reflexivity|]); (split; [lia|done]). Qed.

End service.

(** ** A small machine

    Hardware that meets the laws, for the examples: a data disk, free memory
    behind the last mapping and no display. *)

Definition demo_archive : list Z :=
  match initfs_builder demo_file demo_args [] with Ret _ a => u8 <$> a | _ => [] end.

Definition demo_hw : Hardware := {|
  hw := list Z;
  archive := demo_archive;
  space_map rs n h :=
    if (0 <? n) && (first_free rs + n <=? user_end) then (inl (first_free rs), h)
    else (inr MapOutOfMemory, h);
  space_unmap _ _ h := h;
  map_page _ _ h := (true, h);
  gpu _ := None;
  getPhysInfo _ := None;
  shown _ := [];
  capacity d h := if d =? 1 then Some (Zlen h / 512) else None;
  device_count _ := 2;
  cipher_read _ _ := None;
  submit_read _ lba c h := (Some (sub (u8 <$> h) (lba * 512) (c * 512)), h);
  getUptimeMs h := (0, h);
  entitled_keyboard := true;
  entitled_framebuffer := true
|}.

Lemma u8_bytes l : Forall byte_ok (u8 <$> l).
Proof. apply Forall_fmap, Forall_true. intros x. apply u8_range. Qed.

Lemma first_free_aligned rs : first_free rs mod 4096 = 0.
Proof. unfold first_free, page_round. apply Z.mod_mul. lia. Qed.

#[export] Instance demo_laws : HardwareLaws demo_hw.
Proof.
  refine {| data_disk := (fun h => u8 <$> h) : @hw demo_hw -> list Z |};
    cbn [demo_hw archive space_map submit_read cipher_read capacity gpu getPhysInfo].
  - unfold archive, demo_hw, demo_archive. destruct (initfs_builder _ _ _); try done. apply u8_bytes.
  - apply u8_bytes.
  - intros rs n h a h'. destruct (_ && _) eqn:E; [|done]. intros [= <- <-].
    split; [lia|]. split; [apply first_free_aligned|]. split; [|split; [lia|]].
    + unfold user_base, first_free. etransitivity; [|apply page_round_ge].
      clear E. induction rs as [|r rs IH]; simpl; lia.
    + intros q Hq. apply not_true_is_false. rewrite existsb_exists. intros (r & Hr & Hin).
      apply first_free_above in Hr. unfold in_region in Hin. lia.
  - intros rs n h. now destruct (_ && _).
  - done.
  - intros lba c h cap l h' _. unfold dataDeviceIndex. cbn [demo_hw capacity Z.eqb Pos.eqb].
    intros [= <-] Hl Hc Hcap [= <- <-]. split; [done|].
    unfold Zlen. rewrite sub_length; [lia|lia|lia|]. unfold Zlen in *. rewrite length_fmap.
    pose proof (Z.div_mod (Z.of_nat (length h)) 512 ltac:(lia)).
    pose proof (Z.mod_pos_bound (Z.of_nat (length h)) 512 ltac:(lia)). lia.
  - done.
  - done.
  - done.
  - done.
Defined.

Definition demo_proc (m : mem) (disk : list Z) : @proc (@serve demo_hw) :=
  @Proc (@serve demo_hw) m (Heap 0 0 0) [] (@Kern demo_hw raw_kb [] disk).

(** The name "readme" at 4100, a buffer at 4200 and the structs at 4300 and 4400. *)
Definition reach_demo : @proc (@serve demo_hw) :=
  demo_proc (page_with [(4100, bytes_of "readme"); (4300, initfs_bytes (InitfsSpec 4100 6 4200 16));
    (4400, blk_spec_bytes (BlkSpec 0 4200 16))]) (replicate 512 7).

Lemma wrappers_reach_handlers_witness :
  innigkeit_initfs_read 4100 6 4200 16 reach_demo =
    returns (-2) (dispatch true (initfsRead 4300) (p_mem reach_demo, p_kst reach_demo)) reach_demo.
Proof.
  destruct (wrappers_reach_handlers (H := demo_hw) reach_demo 4100 (bytes_of "readme") 4200 16 0 4300 4400)
    as (_ & _ & Hi & _); [by_eval|reflexivity|reflexivity|reflexivity|by_eval|lia|lia|lia|lia|..|exact Hi].
  - split; [by_eval|reflexivity].
  - split; [by_eval|reflexivity].
Defined.
