(* ===== verification/EndToEnd.v ===== *)
(** * From the devices to the game

    The parts put together, with the handlers of the kernel behind the wrappers:
    bytes of the keyboard travel from the interrupt through the driver's ring,
    the system call and [poll_keyboard] to [DG_GetKey]; a file that the build
    packed into the archive is what [fopen] and [fread] deliver; and the WAD that
    [fopen] and [fread] deliver is the contents of the data disk. *)

From S2P Require Import Prelude Machine Memory CString Compare Process TestKernel Initfs.
From S2P Require Import Format FormatCorrect Stdio HeapAlloc Files Wad.
From S2P Require Import Keyboard Ps2 Handlers HandlersCorrect.

(** ** The keyboard *)

(** Interrupts, with what the handler finds at the ports, and polls of the game. *)
Inductive action := Irq (status : Z) (data : Byte.byte) | Poll.

Definition from_keyboard (status : Z) : bool :=
  negb (Z.land status STATUS_OUTPUT_FULL =? 0) && (Z.land status STATUS_AUX_DATA =? 0).

(** The bytes the keyboard sent. *)
Definition sent (acts : list action) : list Byte.byte :=
  acts ≫= fun a => match a with Irq st b => if from_keyboard st then [b] else [] | Poll => [] end.

(** A poll takes 32 bytes at most.  [fed]: the bytes the polls take when [q] is
    waiting at the start; [unread]: the bytes that are waiting at the end;
    [never_full]: no byte arrives while 255 are waiting. *)
Fixpoint fed (acts : list action) (q : list Byte.byte) : list Byte.byte :=
  match acts with
  | [] => []
  | Irq st b :: acts => fed acts (if from_keyboard st then q ++ [b] else q)
  | Poll :: acts => take 32 q ++ fed acts (drop 32 q)
  end.

Fixpoint unread (acts : list action) (q : list Byte.byte) : list Byte.byte :=
  match acts with
  | [] => q
  | Irq st b :: acts => unread acts (if from_keyboard st then q ++ [b] else q)
  | Poll :: acts => unread acts (drop 32 q)
  end.

Fixpoint never_full (acts : list action) (q : list Byte.byte) : bool :=
  match acts with
  | [] => true
  | Irq st b :: acts =>
      negb (from_keyboard st && (255 <=? Zlen q)) && never_full acts (if from_keyboard st then q ++ [b] else q)
  | Poll :: acts => never_full acts (drop 32 q)
  end.

Lemma fed_left acts : forall q, fed acts q ++ unread acts q = q ++ sent acts.
Proof.
  induction acts as [|[st b|] acts IH]; intros q; cbn [fed unread sent mbind list_bind app].
  - now rewrite app_nil_r.
  - rewrite IH. destruct (from_keyboard st); [now rewrite <- app_assoc|done].
  - rewrite <- app_assoc, IH, app_assoc. now rewrite take_drop.
Qed.

Section keys.
Context {H : Hardware} {HL : HardwareLaws H} {L : Layout} {DK : DoomKeys}.

Definition irq (status : Z) (data : Byte.byte) (d : ps2) : ST (@proc serve) ps2 := fun s =>
  let '(rb, d') := onInterrupt status data (k_keys (p_kst s)) d in
  Ret d' (@set_kst serve (Kern rb (k_term (p_kst s)) (k_hw (p_kst s))) s).

Fixpoint play (acts : list action) (d : ps2) (st : kbd) : ST (@proc serve) (ps2 * kbd) :=
  match acts with
  | [] => mret (d, st)
  | Irq status data :: acts => d' ← irq status data d; play acts d' st
  | Poll :: acts => st' ← poll_keyboard st; play acts d st'
  end.

Lemma onInterrupt_ring status data rb d :
  fst (onInterrupt status data rb d) = if from_keyboard status then raw_push data rb else rb.
Proof.
  unfold onInterrupt, from_keyboard.
  destruct (Z.land status STATUS_OUTPUT_FULL =? 0); [done|].
  destruct (Z.land status STATUS_AUX_DATA =? 0); [|done]. cbn [negb andb]. destruct d as [kb sh ct ex].
  destruct (Z_of_byte data =? 0xE0); [done|]. destruct ex; [done|]. cbv zeta.
  repeat match goal with |- context [if ?b then _ else _] => destruct b; [done|] end. done.
Qed.

(** The process is ready to poll, with [q] waiting in the ring. *)
Definition ready (s : @proc serve) (q : list Byte.byte) : Prop :=
  mapped_range (p_mem s) loc_raw 32 /\ keys_ok (k_keys (p_kst s)) /\ keys_list (k_keys (p_kst s)) = q.

Lemma play_ret acts : entitled_keyboard = true -> forall d st s q,
  ready s q -> never_full acts q = true ->
  exists d' s', play acts d st s = Ret (d', fold_left poll_byte (Z_of_byte <$> fed acts q) st) s' /\
  ready s' (unread acts q).
Proof.
  intros He. induction acts as [|[status b|] acts IH]; intros d st s q (Hm & Ho & Hq) Hn;
    cbn [play fed unread never_full] in *.
  - exists d, s. done.
  - pose proof (onInterrupt_ring status b (k_keys (p_kst s)) d) as Hr. unfold irq.
    destruct (onInterrupt _ _ _ _) as [rb d1] eqn:E. cbn [fst] in Hr.
    apply andb_prop in Hn as [Hb Hn].
    assert (Hrb : keys_ok rb /\ keys_list rb = if from_keyboard status then q ++ [b] else q).
    { rewrite Hr. destruct (from_keyboard status); [|done]. destruct (raw_push_ok b _ Ho) as [Ho' Hl].
      split; [done|]. rewrite Hl, Hq. unfold queue_push. cbn [andb] in Hb.
      destruct (Z.ltb_spec (Zlen q) 255); [done|]. destruct (Z.leb_spec 255 (Zlen q)); [done|lia]. }
    edestruct (IH d1 st) as (d2 & s2 & E2 & H2); [|exact Hn|].
    2: { exists d2, s2. split; [|exact H2]. erewrite bind_ret; [exact E2|]. cbv beta. now rewrite E. }
    split; [exact Hm|exact Hrb].
  - pose proof (raw_drain_ok 32 (k_keys (p_kst s)) Ho) as Hd.
    destruct (raw_drain 32 (k_keys (p_kst s))) as [l rb] eqn:Ed. destruct Hd as (Ho' & Hl & Hleft).
    assert (Ek : @sys_kbd_read serve 32 (p_kst s) =
      ((Zlen l, Z_of_byte <$> l), Kern rb (k_term (p_kst s)) (k_hw (p_kst s)))).
    { cbn [serve sys_kbd_read]. unfold serve_kbd. rewrite He. cbn [negb].
      change (Z.to_nat (Z.min 32 64)) with 32%nat. cbn [Z.ltb Z.compare]. now rewrite Ed. }
    pose proof (poll_ret st s _ _ _ Hm Ek) as Ep. pose proof (Zlen_nonneg l).
    destruct (Z.leb_spec 0 (Zlen l)); [|lia]. cbv zeta in Ep.
    edestruct (IH d (fold_left poll_byte (Z_of_byte <$> l) st)) as (d2 & s2 & E2 & H2); [|exact Hn|].
    2: { exists d2, s2. split; [|exact H2]. erewrite bind_ret by exact Ep. rewrite E2.
         now rewrite fmap_app, fold_left_app, Hl, Hq. }
    split; [cbn; now apply mapped_range_poke_list|]. cbn. split; [exact Ho'|]. now rewrite Hleft, Hq.
Qed.

(** C7. From the interrupt to the game: however the interrupts of the keyboard
    (and of the mouse, whose bytes are discarded) interleave with the polls of
    the game, [DG_GetKey] returns the key events the game knows, in the order in
    which the keys were pressed and released, when the ring of the kernel never
    has 255 bytes as another arrives, all bytes are polled at the end, and at
    most 31 events wait for the game. *)
Theorem keys_reach_game es acts d (s : @proc serve) :
  entitled_keyboard = true -> ready s [] -> Forall event_ok es ->
  Z_of_byte <$> sent acts = concat (event_bytes <$> es) ->
  never_full acts [] = true -> unread acts [] = [] -> Zlen (omap translate es) <= 31 ->
  exists d' st' s', play acts d (Kbd false key_init) s = Ret (d', st') s' /\
  in_extended st' = false /\
  run (key_queue st') (replicate (length (omap translate es)) Pop ++ [Pop]) =
  (Some <$> omap translate es) ++ [None].
Proof.
  intros He Hs Hev Hsent Hn Hl Hb.
  destruct (play_ret acts He d (Kbd false key_init) s [] Hs Hn) as (d' & s' & E & _).
  pose proof (fed_left acts []) as Hf. rewrite Hl, app_nil_r in Hf. cbn [app] in Hf. rewrite Hf in E.
  rewrite Hsent in E. eexists d', _, s'. split; [exact E|].
  pose proof (keyboard_decodes_ret es [concat (event_bytes <$> es)] Hev (app_nil_r _) Hb) as Hk.
  revert Hk. generalize (concat (event_bytes <$> es)) as bytes. intros bytes Hk. exact Hk.
Qed.

End keys.

(** ** Files of the archive *)

(** The first [fread] from an open file whose contents are outside the memory of
    the buffer. *)
Lemma first_fread {K : Kernel} {L : Layout} (m0 : mem) s i d data ptr size count :
  file_at s i d (AFile data 0 false) -> 0 < size * count < 2 ^ 64 -> 0 < size ->
  (forall q, is_mapped m0 q = true -> is_mapped (p_mem s) q = true) ->
  (forall q, d <= q < d + Zlen data -> is_mapped m0 q = false) ->
  Forall byte_ok data -> mapped_range m0 ptr (size * count) ->
  let l := take (Z.to_nat (size * count)) data in
  exists s', fread ptr size count (Some i) s = Ret (Zlen l / size) s' /\ bytes_at (p_mem s') ptr l.
Proof.
  intros Hf Hn Hs Hold Hfree Hb Hm l.
  assert (Hl : (afread (size * count) (AFile data 0 false)).1 = l) by (unfold l; now rewrite <- (drop_0 data)).
  assert (Hle : Zlen l <= size * count /\ Zlen l <= Zlen data).
  { unfold l, Zlen. rewrite length_take. revert Hn. generalize (size * count). intros. lia. }
  assert (Hmap : mapped_range (p_mem s) ptr (Zlen l)) by (intros q Hq; apply Hold, Hm; lia).
  assert (Hdis : ptr + Zlen l <= d \/ d + Zlen data <= ptr).
  { destruct (Z_le_gt_dec (ptr + Zlen l) d) as [?|H1]; [by left|].
    destruct (Z_le_gt_dec (d + Zlen data) ptr) as [?|H2]; [by right|]. exfalso.
    specialize (Hfree (Z.max ptr d) ltac:(lia)). rewrite (Hm (Z.max ptr d) ltac:(lia)) in Hfree. done. }
  pose proof (fread_refines_ret s i d (AFile data 0 false) ptr size count Hf ltac:(lia) ltac:(lia)) as Hr.
  cbv zeta in Hr. rewrite Hl in Hr. destruct (Hr Hmap Hdis) as [E _].
  eexists. split; [exact E|]. apply bytes_at_poke_list; [exact Hmap|]. now apply Forall_take.
Qed.

Section opening.
Context {H : Hardware} {HL : HardwareLaws H} {L : Layout}.

(** C8. From the build to the program: when the archive in the kernel is the one
    the builder wrote for a list of files, [fopen] of a packed name and [fread]
    deliver the bytes of that file, through the lookup of the kernel, the
    system call and the mapping. *)
Theorem packed_file_is_read (s : @proc serve) i path mode t read_file args es data ptr size count :
  initfs_builder read_file args [] = Ret tt archive ->
  Zlen args mod 2 = 0 -> named_files read_file args = Some es -> Forall packable es ->
  mem_ok (p_mem s) -> find_free (p_files s) = Some i ->
  cstr (p_mem s) path t -> 0 < Zlen (strip t) <= 255 -> ~ In t WAD_NAMES ->
  Forall (fun w => cstr (p_mem s) (lit w) w) WAD_NAMES ->
  archive_lookup (strip t) es = Some data -> Zlen data + 4096 < 2 ^ 63 ->
  mmap_succeeds s (Zlen data + 4096) ->
  0 < size * count < 2 ^ 64 -> 0 < size -> mapped_range (p_mem s) ptr (size * count) ->
  let l := take (Z.to_nat (size * count)) data in
  exists s1 s2, fopen path mode s = Ret (Some i) s1 /\
  fread ptr size count (Some i) s1 = Ret (Zlen l / size) s2 /\ bytes_at (p_mem s2) ptr l.
Proof.
  intros Hbuild Ha Hes Hp Hm Hi Ht Hlen Hnw Hw Hlook Hsz Hmm Hn Hs Hptr l.
  destruct (initfs_builder_ret read_file args es Ha Hes Hp) as (a & E & Har).
  rewrite Hbuild in E. injection E as <-.
  assert (Hfile : findFile (strip t) = Some data).
  { unfold findFile. now rewrite (findFileIn_archive archive es (strip t) Har). }
  assert (Hini : @initfs serve serve_data (p_kst s) (strip t) = Some data).
  { cbn. unfold served_file. destruct (Z.eqb_spec (Zlen (strip t)) 0); [lia|].
    destruct (Z.ltb_spec 255 (Zlen (strip t))); [lia|]. exact Hfile. }
  pose proof (fopen_initfs_ret s i path mode t Hm Hi Ht ltac:(lia) Hnw Hw) as Ho. rewrite Hini in Ho.
  destruct (Ho Hsz Hmm (findFile_bytes _ _ Hfile)) as (d & s1 & Eo & Hf & _ & Hfree & Hkeep & _).
  destruct (first_fread (p_mem s) s1 i d data ptr size count Hf Hn Hs) as (s2 & Er & Hb).
  - intros q Hq. destruct (mapped_peek _ _ Hq) as [v Hv]. rewrite <- (Hkeep q Hq) in Hv.
    now apply peek_mapped in Hv.
  - exact Hfree.
  - exact (findFile_bytes _ _ Hfile).
  - exact Hptr.
  - exists s1, s2. done.
Qed.

(** ** The WAD on the data disk *)

(** While the data disk holds [d], reads of sectors inside it succeed; it is made
    of whole sectors. *)
Definition disk_reliable (d : list Z) : Prop :=
  Zlen d mod 512 = 0 /\
  forall h lba c, data_disk h = d -> 0 <= lba -> 0 < c <= 8 -> (lba + c) * 512 <= Zlen d ->
  is_Some (readSectors (dataDeviceIndex h) lba c h).1.

Lemma sectors_inside off remaining total :
  0 <= off -> 0 < remaining -> off + remaining <= total -> total mod 512 = 0 ->
  (off / 512 + Z.min 8 (sat (sat (off mod 512 + remaining) + 511) / 512)) * 512 <= total.
Proof.
  intros Ho Hr Ht Hm. pose proof (Z.div_mod off 512 ltac:(lia)) as E.
  pose proof (Z.mod_pos_bound off 512 ltac:(lia)). pose proof (Z.div_mod total 512 ltac:(lia)) as Et.
  assert (Hc : sat (sat (off mod 512 + remaining) + 511) / 512 <= (off mod 512 + remaining + 511) / 512).
  { apply Z.div_le_mono; [lia|]. unfold sat. lia. }
  pose proof (Z.div_mod (off mod 512 + remaining + 511) 512 ltac:(lia)).
  pose proof (Z.mod_pos_bound (off mod 512 + remaining + 511) 512 ltac:(lia)).
  assert ((off mod 512 + remaining + 511) / 512 <= total / 512 - off / 512); [|lia].
  apply Z.lt_succ_r, Z.div_lt_upper_bound; lia.
Qed.

Lemma blk_bytes_full fuel d : disk_reliable d -> forall remaining off h,
  data_disk h = d -> 0 <= off -> 0 <= remaining <= Z.of_nat fuel -> off + remaining <= Zlen d ->
  is_Some (blk_bytes fuel remaining off h).1.
Proof.
  intros [Hmod Hread]. induction fuel as [|fuel IH]; intros remaining off h Eh Ho Hr Hd; cbn [blk_bytes]; [eauto|].
  destruct (Z.ltb_spec 0 remaining) as [Hpos|]; [|eauto].
  destruct (blk_count off remaining Ho Hpos) as (Hb1 & Hb2 & Hb3). cbv zeta in *.
  pose proof (sectors_inside off remaining (Zlen d) Ho Hpos Hd Hmod) as Hin.
  set (c := Z.min 8 _) in *. pose proof (Hread h (off / 512) c Eh ltac:(apply Z.div_pos; lia) Hb2 Hin) as Hr1.
  pose proof (readSectors_devices (dataDeviceIndex h) (off / 512) c h) as (Hdisk & _).
  destruct (readSectors _ _ _ _) as [r h1]. cbn [fst snd] in *. destruct Hr1 as [tmp ->].
  set (n := Z.min remaining _) in *.
  destruct (IH (remaining - n) (off + n) h1 ltac:(congruence) ltac:(lia) ltac:(lia) ltac:(lia)) as [l El].
  destruct (blk_bytes fuel (remaining - n) (off + n) h1) as [r2 h2]. cbn [fst] in El. rewrite El. eauto.
Qed.

Lemma serve_blk_full off n k : disk_reliable (served_disk k) ->
  0 <= off -> 0 < n -> off + n <= Zlen (served_disk k) -> (serve_blk off n k).1.1 = n.
Proof.
  intros Hrel Ho Hn Hd. unfold serve_blk, served_disk in *.
  destruct (Z.ltb_spec n 0); [lia|]. destruct (Z.ltb_spec off 0); [lia|]. cbn [orb].
  destruct (Z.eqb_spec n 0); [lia|].
  destruct (isDataReady (k_hw k)); cbn [negb]; [|change (Zlen []) with 0 in Hd; lia].
  destruct (blk_bytes_full (Z.to_nat n) _ Hrel n off (k_hw k) eq_refl Ho ltac:(lia) Hd) as [l E].
  destruct (blk_bytes _ _ _ _) as [r h]. cbn [fst] in E. now rewrite E.
Qed.

(** C9. From the disk to the program: when the data disk holds a WAD and its
    sectors can be read, [fopen] of the WAD and [fread] deliver the bytes of the
    disk, through the sector reads, the bounce buffer and the chunks. *)
Theorem disk_wad_is_read (s : @proc serve) i path mode t ptr size count :
  disk_reliable (served_disk (p_kst s)) -> wad_image (p_mem s) -> wad_ok (served_disk (p_kst s)) ->
  mmap_succeeds s (wad_size (served_disk (p_kst s)) + 4096) ->
  find_free (p_files s) = Some i -> cstr (p_mem s) path t -> In t WAD_NAMES ->
  0 < size * count < 2 ^ 64 -> 0 < size -> mapped_range (p_mem s) ptr (size * count) ->
  let l := take (Z.to_nat (size * count)) (wad_bytes (served_disk (p_kst s))) in
  exists s1 s2, fopen path mode s = Ret (Some i) s1 /\
  fread ptr size count (Some i) s1 = Ret (Zlen l / size) s2 /\ bytes_at (p_mem s2) ptr l /\
  k_term (p_kst s1) = k_term (p_kst s) ++ wad_report (served_disk (p_kst s)).
Proof.
  intros Hrel Hwi Hok Hmm Hi Ht Hin Hn Hs Hptr l.
  assert (Hprog : @write_progress serve).
  { intros x k Hx. cbn. destruct x; [done|]. rewrite Zlen_cons. pose proof (Zlen_nonneg x). lia. }
  assert (Hready : wad_ready s).
  { split; [exact Hwi|]. split; [exact Hok|]. split; [|split; [|exact Hmm]].
    - intros k n Hk Hcase Hd. assert (Ek : served_disk k = served_disk (p_kst s)) by exact Hk.
      apply serve_blk_full; rewrite ?Ek; [exact Hrel|lia|lia|]. cbn in Hd. lia.
    - intros off n k Hk Ho Hn' Hlim. assert (Ek : served_disk k = served_disk (p_kst s)) by exact Hk.
      cbn [serve sys_blk_read]. rewrite serve_blk_full; rewrite ?Ek; [lia|exact Hrel|lia|lia|].
      destruct Hok as [Hsz _]. cbn in Hlim. lia. }
  destruct (fopen_wad_ret Hprog s i path mode t Hready Hi Ht Hin)
    as (d & s1 & Eo & Hf & Hfree & [_ Hkeep] & _ & _ & Hc & _).
  destruct (first_fread (p_mem s) s1 i d (wad_bytes (served_disk (p_kst s))) ptr size count Hf Hn Hs) as (s2 & Er & Hb).
  - intros q Hq. now apply Hkeep.
  - rewrite wad_bytes_length by exact Hok. exact Hfree.
  - destruct Hok as (_ & _ & Hb). now apply Forall_take.
  - exact Hptr.
  - exists s1, s2. done.
Qed.

End opening.

(** ** Witnesses *)

(** A process on the small machine, with an idle keyboard and no open file. *)
Definition machine (m : mem) (d : list Z) : @proc (@serve demo_hw) :=
  @Proc (@serve demo_hw) m (Heap 0 0 0) (replicate 16 (mkMemFile 0 0 0 false false)) (@Kern demo_hw raw_kb [] d).

Definition key_irq (n : Z) : action := Irq 1 (byte_of n).

(** The arrow up pressed with a poll inside its two bytes, a byte of the mouse,
    [w], an unknown key, and the arrow released. *)
Definition demo_actions : list action :=
  [key_irq 0xE0; Poll; key_irq 0x48; Irq 0x21 Byte.x05; key_irq 0x11; Poll; key_irq 0x7F;
   key_irq 0xE0; key_irq 0xC8; Poll].

Lemma keys_reach_game_witness :
  exists d' st' s', @play demo_hw tk_layout demo_keys demo_actions
    (ps2_init LineInput.junk_line LineInput.junk_ring) (Kbd false key_init) (machine (tk_image []) []) = Ret (d', st') s' /\
  in_extended st' = false /\
  run (key_queue st') [Pop; Pop; Pop; Pop] = [Some (1, 0xad); Some (1, 119); Some (0, 0xad); None].
Proof.
  assert (E : omap (@translate demo_keys) demo_events = [(1, 0xad); (1, 119); (0, 0xad)]) by reflexivity.
  generalize (@keys_reach_game demo_hw demo_laws tk_layout demo_keys demo_events demo_actions
    (ps2_init LineInput.junk_line LineInput.junk_ring) (machine (tk_image []) [])).
  rewrite E. intros H. apply H; clear H.
  - reflexivity.
  - split; [by_eval|]. split; [|reflexivity]. vm_compute. intuition discriminate.
  - apply event_okb. reflexivity.
  - reflexivity.
  - reflexivity.
  - reflexivity.
  - vm_compute. discriminate.
Defined.

(** The file "readme" of the archive, read into the buffer at 4200. *)
Definition archive_demo : @proc (@serve demo_hw) := machine (tk_image [(4100, bytes_of "/readme" ++ [0])]) [].

Lemma packed_file_is_read_witness :
  exists s1 s2, fopen 4100 0 archive_demo = Ret (Some O) s1 /\
  fread 4200 1 16 (Some O) s1 = Ret 5 s2 /\ bytes_at (p_mem s2) 4200 (bytes_of "hello").
Proof.
  apply (packed_file_is_read archive_demo 0 4100 0 (bytes_of "/readme") demo_file demo_args demo_entries
    (bytes_of "hello") 4200 1 16).
  - vm_compute. reflexivity.
  - reflexivity.
  - reflexivity.
  - exact demo_packable.
  - by_eval.
  - reflexivity.
  - by_eval.
  - vm_compute. intuition discriminate.
  - vm_compute. intuition discriminate.
  - repeat (apply List.Forall_cons; [by_eval|]). apply List.Forall_nil.
  - reflexivity.
  - reflexivity.
  - intros k. destruct k. vm_compute. reflexivity.
  - lia.
  - lia.
  - by_eval.
Defined.

(** A disk of one sector with a small WAD. *)
Definition wad_disk : list Z := wad_demo ++ replicate 484 0.
Definition disk_demo : @proc (@serve demo_hw) := machine (p_mem wad_proc) wad_disk.

Lemma demo_reliable d : Zlen d mod 512 = 0 -> @disk_reliable demo_hw demo_laws d.
Proof.
  intros Hd. split; [done|]. intros h lba c <- Hl Hc Hin. cbn [data_disk demo_laws] in *.
  assert (Hz : Zlen (u8 <$> h) = Zlen h) by (unfold Zlen; now rewrite length_fmap). rewrite Hz in *.
  assert (Hcap : lba + c <= Zlen h / 512) by (apply Z.div_le_lower_bound; lia).
  change (is_Some (readSectorsRaw (H := demo_hw) 1 lba c h).1). unfold readSectorsRaw.
  cbn [demo_hw capacity submit_read Z.eqb Pos.eqb].
  destruct (Z.eqb_spec c 0); [lia|]. destruct (Z.ltb_spec 8 c); [lia|]. cbn [orb].
  destruct (Z.ltb_spec (Zlen h / 512) lba); [lia|]. destruct (Z.ltb_spec (Zlen h / 512 - lba) c); [lia|].
  cbn. eauto.
Qed.

Lemma disk_wad_is_read_witness :
  exists s1 s2, fopen 4100 0 disk_demo = Ret (Some O) s1 /\
  fread 4200 4 3 (Some O) s1 = Ret 3 s2 /\
  bytes_at (p_mem s2) 4200 (bytes_of "IWAD" ++ [1; 0; 0; 0; 12; 0; 0; 0]) /\
  k_term (p_kst s1) = k_term (p_kst disk_demo) ++ wad_report (served_disk (p_kst disk_demo)).
Proof.
  destruct (disk_wad_is_read disk_demo 0 4100 0 (bytes_of "doom1.wad") 4200 4 3)
    as (s1 & s2 & E1 & E2 & Hb & Hc).
  - apply demo_reliable. reflexivity.
  - exact wad_proc_image.
  - split; [vm_compute; discriminate|]. split; by_eval.
  - intros k. destruct k. vm_compute. reflexivity.
  - reflexivity.
  - by_eval.
  - simpl. auto.
  - lia.
  - lia.
  - by_eval.
  - exists s1, s2. exact (conj E1 (conj E2 (conj Hb Hc))).
Defined.
