(* ===== verification/AddressSpace.v ===== *)
(** * Address spaces

    [src/src/innigkeit/memory/address_space/AddressSpace.zig] and [Entry.zig]:
    the sorted list of entries behind [mmap] and [munmap], with the reference
    counts of the anonymous maps the entries share.  Entries are split, shrunk
    and merged; what a process sees is which protection an address has.

    No memory object exists in the system yet ([Object.zig] says so), so entries
    have no object and [map] is modelled for zero-filled memory.  The locks are
    held for the whole of an operation.  Allocations may fail: [alloc] says
    whether they do.  [debug] selects the assertions of a debug build; a failed
    assertion or an arithmetic overflow is [Panic]. *)

From stdpp Require Import gmap.
From S2P Require Import Prelude Machine.

Definition page : Z := 4096.
Definition aligned (x : Z) : bool := x mod page =? 0.

(** ** Ranges and protections *)

Record VirtualRange := VRange { address : Z; size : Z }.

(** The end of a range; [after_checked] traps when it does not fit 64 bits. *)
Definition after (r : VirtualRange) : Z := address r + size r.
Definition after_checked {E} (r : VirtualRange) : result E Z :=
  if after r <? 2 ^ 64 then Done (after r) else Panic.

Definition pageAligned (r : VirtualRange) : bool := aligned (address r) && aligned (size r).

Definition anyOverlap (r other : VirtualRange) : bool :=
  (address r <? after other) && (address other <? after r).

Record Protection := Prot { p_read : bool; p_write : bool; p_execute : bool }.
#[export] Instance Protection_eq : EqDecision Protection.
Proof. solve_decision. Defined.

Definition no_protection : Protection := Prot false false false.

Definition exceeds (p other : Protection) : bool :=
  (p_read p && negb (p_read other)) || (p_write p && negb (p_write other)) ||
  (p_execute p && negb (p_execute other)).

(** ** Entries *)

(** The pages of an anonymous map are in chunks of 16 slots; a slot holds an
    anonymous page, known by a number. *)
Record AnonMap := Anon {
  reference_count : Z;
  number_of_pages : Z;
  pages_in_use : Z;
  anonymous_page_chunks : gmap Z (list (option nat))
}.

(** The reference to an anonymous map: which one, and the offset in it. *)
Record Entry := MkEntry {
  range : VirtualRange;
  protection : Protection;
  max_protection : Protection;
  anonymous_map : option (nat * Z);
  copy_on_write : bool;
  needs_copy : bool;
  wired_count : Z
}.

Definition with_range (r : VirtualRange) (e : Entry) : Entry :=
  MkEntry r (protection e) (max_protection e) (anonymous_map e) (copy_on_write e) (needs_copy e) (wired_count e).

Definition with_anon (m : option (nat * Z)) (e : Entry) : Entry :=
  MkEntry (range e) (protection e) (max_protection e) m (copy_on_write e) (needs_copy e) (wired_count e).

Abbreviation maps := (gmap nat AnonMap).

Definition pages_of (ms : maps) (i : nat) : Z :=
  match ms !! i with Some m => number_of_pages m | None => 0 end.

Definition add_references (i : nat) (n : Z) (ms : maps) : maps :=
  alter (fun m => Anon (reference_count m + n) (number_of_pages m) (pages_in_use m) (anonymous_page_chunks m)) i ms.

Definition add_pages (i : nat) (n : Z) (ms : maps) : maps :=
  alter (fun m => Anon (reference_count m) (number_of_pages m + n) (pages_in_use m) (anonymous_page_chunks m)) i ms.

(** [AnonMap.decrementReferenceCount]: the last reference destroys the map. *)
Definition decrementReferenceCount (i : nat) (ms : maps) : maps :=
  match ms !! i with
  | Some m => if reference_count m =? 1 then delete i ms else add_references i (-1) ms
  | None => ms
  end.

Definition canMerge (ms : maps) (first second : Entry) : bool :=
  bool_decide (protection first = protection second) &&
  bool_decide (max_protection first = max_protection second) &&
  Bool.eqb (copy_on_write first) (copy_on_write second) &&
  (wired_count first =? wired_count second) &&
  (after (range first) =? address (range second)) &&
  match anonymous_map first, anonymous_map second with
  | None, None => true
  | None, Some _ => false
  | Some (i, off), None => pages_of ms i =? (off + size (range first)) / page
  | Some (i, off), Some (j, off2) => (Nat.eqb i j) && (off + size (range first) =? off2)
  end.

(** [None] when the number of pages of the anonymous map does not fit 32 bits: the
    cast of [increaseBySize] traps. *)
Definition merge (first second : Entry) (ms : maps) : option (Entry * maps) :=
  let merged := with_range (VRange (address (range first)) (size (range first) + size (range second))) first in
  match anonymous_map first, anonymous_map second with
  | Some (i, _), Some _ => Some (merged, add_references i (-1) ms)
  | Some (i, _), None =>
      let count := size (range second) / page in
      if pages_of ms i + count <? 2 ^ 32 then Some (merged, add_pages i count ms) else None
  | None, _ => Some (merged, ms)
  end.

(** The first part of the entry, the new second entry and the maps. *)
Definition split (first : Entry) (split_size : Z) (ms : maps) : Entry * Entry * maps :=
  let r := range first in
  let second := with_range (VRange (address r + split_size) (size r - split_size)) first in
  let '(second, ms) :=
    match anonymous_map first with
    | Some (i, off) => (with_anon (Some (i, off + split_size)) second, add_references i 1 ms)
    | None => (second, ms)
    end in
  (with_range (VRange (address r) split_size) first, second, ms).

Inductive ShrinkDirection := beginning | end_.

Definition shrink (direction : ShrinkDirection) (new_size : Z) (e : Entry) : Entry :=
  let size_change := size (range e) - new_size in
  match direction with
  | beginning =>
      let e' := with_range (VRange (address (range e) + size_change) new_size) e in
      match anonymous_map e with
      | Some (i, off) => with_anon (Some (i, off + size_change)) e'
      | None => e'
      end
  | end_ => with_range (VRange (address (range e)) new_size) e
  end.

(** ** Address spaces *)

Record AddressSpace := Space {
  space_range : VirtualRange;
  entries : list Entry;
  entries_version : Z;
  anonymous_maps : maps
}.

Definition init (r : VirtualRange) : AddressSpace := Space r [] 0 ∅.

(** [std.sort.lowerBound] with [entryAddressCompare] on the sorted entries: the
    index of the first entry that does not end at or before the address. *)
Fixpoint lowerBound (es : list Entry) (a : Z) : nat :=
  match es with
  | [] => O
  | e :: es' => if after (range e) <=? a then S (lowerBound es' a) else O
  end.

(** *** map *)

Inductive MapError :=
  | ZeroSize | RequestedRangeUnavailable | MapOutOfMemory | MaxProtectionExceeded
  | MaxProtectionNone | SizeNotMultipleOfAPage | BaseNotPageAligned.

(** The loop of [findFreeRange]: the candidate and its insertion index. *)
Fixpoint free_candidate (es : list Entry) (size candidate : Z) (index : nat) : result MapError (Z * nat) :=
  candidate_end ← after_checked (VRange candidate size);
  match es with
  | [] => Done (candidate, index)
  | e :: es' =>
      if candidate_end <=? address (range e) then Done (candidate, index)
      else free_candidate es' size (after (range e)) (S index)
  end.

Definition findFreeRange (s : AddressSpace) (size : Z) : result MapError (option (VirtualRange * nat)) :=
  '(candidate, index) ← free_candidate (entries s) size (address (space_range s)) 0;
  mret (if candidate + size <=? after (space_range s) then Some (VRange candidate size, index) else None).

Definition findExactFreeRange (s : AddressSpace) (r : VirtualRange) : result MapError (option (VirtualRange * nat)) :=
  let index := lowerBound (entries s) (address r) in
  range_end ← after_checked r;
  match entries s !! index with
  | None => mret (if range_end <=? after (space_range s) then Some (r, index) else None)
  | Some e => mret (if anyOverlap (range e) r then None else Some (r, index))
  end.

Definition remove_at (i : nat) (es : list Entry) : list Entry := take i es ++ drop (S i) es.
Definition insert_at (i : nat) (e : Entry) (es : list Entry) : list Entry := take i es ++ e :: drop i es.

(** The following entry takes up the new one: the local entry, the entries, the
    maps and the number of merges. *)
Definition merge_following (i : nat) (local : Entry) (es : list Entry) (ms : maps) :
    option (Entry * list Entry * maps * Z) :=
  match es !! i with
  | Some following =>
      if canMerge ms local following then
        '(local, ms) ← merge local following ms;
        Some (local, <[i := local]> es, ms, 1)
      else Some (local, es, ms, 0)
  | None => Some (local, es, ms, 0)
  end.

Definition merge_preceding (i : nat) (local : Entry) (es : list Entry) (ms : maps) (merges : Z) :
    option (list Entry * maps * Z) :=
  match i with
  | O => Some (es, ms, merges)
  | S j =>
      match es !! j with
      | Some preceding =>
          if canMerge ms preceding local then
            '(preceding, ms) ← merge preceding local ms;
            let es := <[j := preceding]> es in
            Some (if negb (merges =? 0) then remove_at i es else es, ms, merges + 1)
          else Some (es, ms, merges)
      | None => Some (es, ms, merges)
      end
  end.

(** The entry for the new range, with its two possible merges: the range that is
    reported, the entries and the maps. *)
Definition place (alloc : bool) (i : nat) (local : Entry) (es : list Entry) (ms : maps) :
    result MapError (VirtualRange * list Entry * maps) :=
  match merge_following i local es ms with
  | None => Panic
  | Some (local, es, ms, merges) =>
      match merge_preceding i local es ms merges with
      | None => Panic
      | Some (es, ms, merges) =>
          if merges =? 0 then
            if alloc : bool then Done (range local, insert_at i local es, ms) else Failed MapOutOfMemory
          else Done (range local, es, ms)
      end
  end.

Definition map (alloc : bool) (base : option Z) (size : Z) (prot : Protection) (max : option Protection)
    (s : AddressSpace) : result MapError (VirtualRange * AddressSpace) :=
  if size =? 0 then Failed ZeroSize
  else if negb (aligned size) then Failed SizeNotMultipleOfAPage
  else if match base with Some b => negb (aligned b) | None => false end then Failed BaseNotPageAligned
  else if match max with Some m => bool_decide (m = no_protection) | None => false end then Failed MaxProtectionNone
  else if match max with Some m => exceeds prot m | None => false end then Failed MaxProtectionExceeded
  else
    free_range ← match base with
           | Some b => findExactFreeRange s (VRange b size)
           | None => findFreeRange s size
           end;
    match free_range with
    | None => Failed RequestedRangeUnavailable
    | Some (r, i) =>
        let local := MkEntry r prot (default prot max) None true true 0 in
        '(r', es, ms) ← place alloc i local (entries s) (anonymous_maps s);
        Done (r', Space (space_range s) es ((entries_version s + 1) mod 2 ^ 32) ms)
    end.

(** *** unmap *)

Inductive UnmapError := UnmapOutOfMemory | RangeNotPageAligned.

Record EntryRange := ERange { start : nat; length_ : nat; start_overlap : bool; end_overlap : bool }.

Definition isWithinSingleEntry (er : EntryRange) : bool :=
  (Nat.eqb (length_ er) 1) && start_overlap er && end_overlap er.

(** The number of entries at the front that overlap the range. *)
Fixpoint overlapping (es : list Entry) (r : VirtualRange) : nat :=
  match es with
  | [] => O
  | e :: es' => if anyOverlap (range e) r then S (overlapping es' r) else O
  end.

(** The entry before the first one does not exist: an index underflow. *)
Definition entryRange {E} (debug : bool) (s : AddressSpace) (r : VirtualRange) : result E (option EntryRange) :=
  let start_index := lowerBound (entries s) (address r) in
  match entries s !! start_index with
  | None => mret None
  | Some first_entry =>
      range_end ← after_checked r;
      let n := overlapping (drop start_index (entries s)) r in
      if debug && Nat.eqb n 0 then Panic
      else
        match (start_index + n)%nat with
        | O => Panic
        | S last =>
            match entries s !! last with
            | None => Panic
            | Some last_entry =>
                mret (Some (ERange start_index n
                  (address (range first_entry) <? address r)
                  (range_end <? after (range last_entry))))
            end
        end
  end.

(** The ranges that are removed from the page table: [RangeIterator]. *)
Fixpoint page_table_ranges (es : list Entry) (r : VirtualRange) (first so eo : bool) : list VirtualRange :=
  match es with
  | [] => []
  | e :: es' =>
      let last := match es' with [] => true | _ => false end in
      (if first && so then
         if last && eo then r else VRange (address r) (after (range e) - address r)
       else if last && eo then VRange (address (range e)) (after r - address (range e))
       else range e) :: page_table_ranges es' r false so eo
  end.

Definition rangeIterator (es : list Entry) (er : EntryRange) (r : VirtualRange) : list VirtualRange :=
  page_table_ranges (take (length_ er) (drop (start er) es)) r true (start_overlap er) (end_overlap er).

Definition release (e : Entry) (ms : maps) : maps :=
  match anonymous_map e with Some (i, _) => decrementReferenceCount i ms | None => ms end.

(** The loop that removes [n] entries from index [first] on, the last one first. *)
Fixpoint remove_entries (n first : nat) (es : list Entry) (ms : maps) : list Entry * maps :=
  match n with
  | O => (es, ms)
  | S n' =>
      match es !! (first + n')%nat with
      | Some e => remove_entries n' first (remove_at (first + n') es) (release e ms)
      | None => (es, ms)
      end
  end.

Definition update_at (i : nat) (f : Entry -> Entry) (es : list Entry) : list Entry := alter f i es.

Definition performUnmap (er : EntryRange) (r : VirtualRange) (es : list Entry) (ms : maps) : list Entry * maps :=
  let first_entry_index := start er in
  if isWithinSingleEntry er then
    match es !! first_entry_index with
    | Some first =>
        let '(first, second, ms) := split first (address r - address (range first)) ms in
        let second := shrink beginning (after (range second) - after r) second in
        (insert_at (S first_entry_index) second (<[first_entry_index := first]> es), ms)
    | None => (es, ms)
    end
  else
    let '(es, first_entry_index, n) :=
      if start_overlap er then
        (update_at first_entry_index (fun e => shrink end_ (address r - address (range e)) e) es,
         S first_entry_index, (length_ er - 1)%nat)
      else (es, first_entry_index, length_ er) in
    let '(es, n) :=
      if end_overlap er then
        (update_at (first_entry_index + n - 1)%nat (fun e => shrink beginning (after (range e) - after r) e) es,
         (n - 1)%nat)
      else (es, n) in
    remove_entries n first_entry_index es ms.

(** The address space and the ranges that were removed from the page table. *)
Definition unmap (debug alloc : bool) (r : VirtualRange) (s : AddressSpace) :
    result UnmapError (AddressSpace * list VirtualRange) :=
  if negb (pageAligned r) then Failed RangeNotPageAligned
  else if size r =? 0 then Done (s, [])
  else
    found ← entryRange debug s r;
    match found with
    | None => Done (s, [])
    | Some er =>
        if isWithinSingleEntry er && negb alloc then Failed UnmapOutOfMemory
        else
          let removed := rangeIterator (entries s) er r in
          let '(es, ms) := performUnmap er r (entries s) (anonymous_maps s) in
          Done (Space (space_range s) es ((entries_version s + 1) mod 2 ^ 32) ms, removed)
    end.

(** Everything is unmapped; an error of [unmap] is [unreachable]. *)
Definition reinitializeAndUnmapAll (debug alloc : bool) (s : AddressSpace) : result UnmapError AddressSpace :=
  match unmap debug alloc (space_range s) s with
  | Done (s', _) => Done (Space (space_range s) [] 0 (anonymous_maps s'))
  | Failed _ | Panic => Panic
  end.

(** *** changeProtection *)

Inductive ChangeProtection :=
  | change_protection (p : Protection) | change_max_protection (m : Protection) | change_both (p m : Protection).

Record Request := Req { new_protection : option Protection; new_max_protection : option Protection }.

Definition toRequest (c : ChangeProtection) : Request :=
  match c with
  | change_protection p => Req (Some p) None
  | change_max_protection m => Req None (Some m)
  | change_both p m => Req (Some p) (Some m)
  end.

Inductive ChangeProtectionError :=
  | MaxProtectionIncreased | ChangeMaxProtectionExceeded | ChangeMaxProtectionNone
  | ChangeOutOfMemory | ChangeRangeNotPageAligned.

(** The loop of [validateChangeProtection]: no work to do, the page table changes. *)
Fixpoint validateChangeProtection (es : list Entry) (req : Request) (no_op update_page_table : bool) :
    result ChangeProtectionError (bool * bool) :=
  match es with
  | [] => Done (no_op, update_page_table)
  | e :: es' =>
      '(planned, no_op) ←
        match new_max_protection req with
        | Some m =>
            if exceeds m (max_protection e) then Failed MaxProtectionIncreased
            else Done (m, no_op && bool_decide (max_protection e = m))
        | None => Done (max_protection e, no_op)
        end;
      match new_protection req with
      | Some p =>
          if exceeds p planned then Failed ChangeMaxProtectionExceeded
          else if bool_decide (protection e = p) then validateChangeProtection es' req no_op update_page_table
          else validateChangeProtection es' req false true
      | None =>
          if exceeds (protection e) planned then Failed ChangeMaxProtectionExceeded
          else validateChangeProtection es' req no_op update_page_table
      end
  end.

(** The entry does not have the requested protections yet. *)
Definition differs (req : Request) (e : Entry) : bool :=
  match new_protection req with Some p => negb (bool_decide (protection e = p)) | None => false end ||
  match new_max_protection req with Some m => negb (bool_decide (max_protection e = m)) | None => false end.

Definition set_protections (req : Request) (e : Entry) : Entry :=
  MkEntry (range e) (default (protection e) (new_protection req)) (default (max_protection e) (new_max_protection req))
    (anonymous_map e) (copy_on_write e) (needs_copy e) (wired_count e).

(** The entry at [index] becomes two, the second at [index + 1]. *)
Definition split_entry (index : nat) (first : Entry) (split_size : Z) (es : list Entry) (ms : maps) : list Entry * maps :=
  let '(first, second, ms) := split first split_size ms in
  (insert_at (S index) second (<[index := first]> es), ms).

Definition split_first (er : EntryRange) (r : VirtualRange) (req : Request) (es : list Entry) (ms : maps) :
    list Entry * maps * nat :=
  if start_overlap er then
    match es !! start er with
    | Some first_entry =>
        if differs req first_entry then
          let '(es, ms) := split_entry (start er) first_entry (address r - address (range first_entry)) es ms in
          (es, ms, S (start er))
        else (es, ms, start er)
    | None => (es, ms, start er)
    end
  else (es, ms, start er).

Definition split_last (er : EntryRange) (r : VirtualRange) (req : Request) (first_entry_index : nat)
    (es : list Entry) (ms : maps) : list Entry * maps :=
  if end_overlap er then
    let last_entry_index := (first_entry_index + length_ er - 1)%nat in
    match es !! last_entry_index with
    | Some last_entry =>
        if differs req last_entry then
          split_entry last_entry_index last_entry (after r - address (range last_entry)) es ms
        else (es, ms)
    | None => (es, ms)
    end
  else (es, ms).

(** The loop over the [n] entries from index [first] on, the last one first, with
    the numbers of modified and of merged entries. *)
Fixpoint change_entries (n first : nat) (req : Request) (es : list Entry) (ms : maps) (modified merged : Z) :
    option (list Entry * maps * Z * Z) :=
  match n with
  | O => Some (es, ms, modified, merged)
  | S n' =>
      let index := (first + n')%nat in
      match es !! index with
      | Some e =>
          let changed := differs req e in
          let e := set_protections req e in
          let es := <[index := e]> es in
          match es !! S index with
          | Some following =>
              if canMerge ms e following then
                '(e, ms) ← merge e following ms;
                change_entries n' first req (remove_at (S index) (<[index := e]> es)) ms modified (merged + 1)
              else change_entries n' first req es ms (if changed then modified + 1 else modified) merged
          | None => change_entries n' first req es ms (if changed then modified + 1 else modified) merged
          end
      | None => Some (es, ms, modified, merged)
      end
  end.

(** The entry before the range takes up the first one; one modified entry less. *)
Definition change_preceding {E} (index : nat) (es : list Entry) (ms : maps) (modified : Z) : result E (list Entry * maps) :=
  match index with
  | O => Done (es, ms)
  | S j =>
      match es !! j, es !! index with
      | Some preceding_entry, Some first_entry =>
          if canMerge ms preceding_entry first_entry then
            match merge preceding_entry first_entry ms with
            | None => Panic
            | Some (preceding_entry, ms) =>
                if modified =? 0 then Panic
                else Done (remove_at index (<[j := preceding_entry]> es), ms)
            end
          else Done (es, ms)
      | _, _ => Panic
      end
  end.

Definition performChangeProtection {E} (er : EntryRange) (r : VirtualRange) (req : Request) (es : list Entry) (ms : maps) :
    result E (list Entry * maps) :=
  let '(es, ms, first_entry_index) := split_first er r req es ms in
  let '(es, ms) := split_last er r req first_entry_index es ms in
  match change_entries (length_ er) first_entry_index req es ms 0 0 with
  | None => Panic
  | Some (es, ms, modified, _) =>
      if start_overlap er then Done (es, ms)
      else change_preceding first_entry_index es ms modified
  end.

(** The ranges whose protection changes in the page table, with the previous one:
    [RangeAndProtectionIterator]. *)
Definition rangeAndProtectionIterator (es : list Entry) (er : EntryRange) (r : VirtualRange) :
    list (VirtualRange * Protection) :=
  combine (rangeIterator es er r) (protection <$> take (length_ er) (drop (start er) es)).

Definition changeProtection (debug alloc : bool) (r : VirtualRange) (change : ChangeProtection) (s : AddressSpace) :
    result ChangeProtectionError (AddressSpace * list (VirtualRange * Protection)) :=
  let req := toRequest change in
  if negb (pageAligned r) then Failed ChangeRangeNotPageAligned
  else if match new_max_protection req with Some m => bool_decide (m = no_protection) | None => false end
  then Failed ChangeMaxProtectionNone
  else if size r =? 0 then Done (s, [])
  else
    found ← entryRange debug s r;
    match found with
    | None => Done (s, [])
    | Some er =>
        '(no_op, update_page_table) ← validateChangeProtection (take (length_ er) (drop (start er) (entries s))) req true false;
        if no_op : bool then Done (s, [])
        else if (start_overlap er || end_overlap er) && negb alloc then Failed ChangeOutOfMemory
        else
          let updates := if update_page_table : bool then rangeAndProtectionIterator (entries s) er r else [] in
          '(es, ms) ← performChangeProtection er r req (entries s) (anonymous_maps s);
          Done (Space (space_range s) es ((entries_version s + 1) mod 2 ^ 32) ms, updates)
    end.

(** ** What an address space means *)

Definition contains (r : VirtualRange) (a : Z) : Prop := address r <= a < after r.

Definition attributes (e : Entry) : Protection * Protection * bool * Z :=
  (protection e, max_protection e, copy_on_write e, wired_count e).

(** Address [a] is mapped with attributes [t]; it is at offset [o] of the
    anonymous map [i]. *)
Definition mapped (es : list Entry) (a : Z) (t : Protection * Protection * bool * Z) : Prop :=
  exists e, e ∈ es /\ contains (range e) a /\ attributes e = t.

Definition anon_at (es : list Entry) (a : Z) (i : nat) (o : Z) : Prop :=
  exists e off, e ∈ es /\ contains (range e) a /\ anonymous_map e = Some (i, off) /\
                o = off + (a - address (range e)).

(** The entries are sorted and disjoint, between [lo] and [hi]. *)
Fixpoint chain (lo : Z) (es : list Entry) (hi : Z) : Prop :=
  match es with
  | [] => lo <= hi
  | e :: es' => lo <= address (range e) /\ 0 < size (range e) /\ chain (after (range e)) es' hi
  end.

Definition entry_ok (ms : maps) (e : Entry) : Prop :=
  aligned (address (range e)) = true /\ aligned (size (range e)) = true /\ 0 < size (range e) /\
  exceeds (protection e) (max_protection e) = false /\
  match anonymous_map e with
  | None => True
  | Some (i, off) => 0 <= off /\ aligned off = true /\ is_Some (ms !! i) /\
                     off + size (range e) <= pages_of ms i * page
  end.

Definition uses (i : nat) (e : Entry) : Z :=
  match anonymous_map e with Some (j, _) => if Nat.eqb i j then 1 else 0 | None => 0 end.

Definition total_uses (i : nat) (es : list Entry) : Z := foldr (fun e n => uses i e + n) 0 es.

(** The reference count of a map is the number of entries that refer to it. *)
Definition counts_ok (ms : maps) (es : list Entry) : Prop := forall i,
  match ms !! i with
  | Some m => reference_count m = total_uses i es /\ 0 < reference_count m
  | None => total_uses i es = 0
  end.

Definition space_ok (s : AddressSpace) : Prop :=
  0 <= address (space_range s) /\ after (space_range s) < 2 ^ 64 /\
  aligned (address (space_range s)) = true /\
  chain (address (space_range s)) (entries s) (after (space_range s)) /\
  Forall (entry_ok (anonymous_maps s)) (entries s) /\ counts_ok (anonymous_maps s) (entries s).
