(* ===== verification/AddressSpaceCorrect.v ===== *)
(** * Address spaces, correctness

    [map] and [unmap] of [AddressSpace.v] against what an address space means:
    which addresses are mapped with which protection, and where in which
    anonymous map their memory is. *)

From stdpp Require Import gmap.
From S2P Require Import Prelude Machine AddressSpace.

(** ** Lists of entries *)

Lemma aligned_add x y : aligned x = true -> aligned y = true -> aligned (x + y) = true.
Proof.
  unfold aligned, page. rewrite !Z.eqb_eq. intros Hx Hy. rewrite Z.add_mod, Hx, Hy by lia. done.
Qed.

Lemma aligned_sub x y : aligned x = true -> aligned y = true -> aligned (x - y) = true.
Proof.
  unfold aligned, page. rewrite !Z.eqb_eq. intros Hx Hy. rewrite Zminus_mod, Hx, Hy. done.
Qed.

Lemma aligned_div x : aligned x = true -> x / page * page = x.
Proof. unfold aligned, page. rewrite Z.eqb_eq. intros Hx. pose proof (Z.div_mod x 4096). lia. Qed.

Lemma total_uses_app i a b : total_uses i (a ++ b) = total_uses i a + total_uses i b.
Proof. induction a as [|e a IH]; cbn; [done|]. unfold total_uses in *. rewrite IH. lia. Qed.

Lemma total_uses_cons i e es : total_uses i (e :: es) = uses i e + total_uses i es.
Proof. done. Qed.

Lemma uses_nonneg i e : 0 <= uses i e.
Proof. unfold uses. destruct (anonymous_map e) as [[j o]|]; [|done]. destruct (Nat.eqb i j); lia. Qed.

Lemma total_uses_nonneg i es : 0 <= total_uses i es.
Proof. induction es as [|e es IH]; [done|]. rewrite total_uses_cons. pose proof (uses_nonneg i e). lia. Qed.

Lemma chain_app lo a b hi : chain lo (a ++ b) hi <-> exists mid, chain lo a mid /\ chain mid b hi.
Proof.
  revert lo. induction a as [|e a IH]; intros lo; cbn [chain app].
  - split; [intros H; exists lo; done|]. intros (mid & H1 & H2). revert mid H1 H2.
    destruct b as [|e b]; cbn [chain]; intros; [lia|]. destruct H2 as (H2 & H3 & H4). split; [lia|done].
  - rewrite IH. split; [intros (H1 & H2 & mid & H3 & H4); exists mid; done|].
    intros (mid & (H1 & H2 & H3) & H4). eauto.
Qed.

Lemma chain_lo lo lo' es hi : lo' <= lo -> chain lo es hi -> chain lo' es hi.
Proof. destruct es; cbn [chain]; [lia|]. intros Hl (H1 & H2). split; [lia|done]. Qed.

Lemma chain_hi lo es hi hi' : hi <= hi' -> chain lo es hi -> chain lo es hi'.
Proof.
  revert lo. induction es as [|e es IH]; intros lo Hl; cbn [chain]; [lia|].
  intros (H1 & H2 & H3). eauto.
Qed.

Lemma chain_le lo es hi : chain lo es hi -> lo <= hi.
Proof.
  revert lo. induction es as [|e es IH]; intros lo; cbn [chain]; [done|].
  intros (H1 & H2 & H3). apply IH in H3. unfold after in H3. lia.
Qed.

Lemma chain_bounds lo es hi e : chain lo es hi -> e ∈ es ->
  lo <= address (range e) /\ 0 < size (range e) /\ after (range e) <= hi.
Proof.
  revert lo. induction es as [|x es IH]; intros lo; cbn [chain]; [intros _ H; now apply not_elem_of_nil in H|].
  intros (H1 & H2 & H3) [->|Hin]%elem_of_cons.
  - apply chain_le in H3. done.
  - destruct (IH _ H3 Hin) as (A & B & C). unfold after in A. split; [lia|done].
Qed.

Lemma mapped_app a b x t : mapped (a ++ b) x t <-> mapped a x t \/ mapped b x t.
Proof.
  unfold mapped. split.
  - intros (e & [H|H]%elem_of_app & R); [left|right]; eauto.
  - intros [(e & H & R)|(e & H & R)]; exists e; rewrite elem_of_app; auto.
Qed.

Lemma mapped_cons e es x t :
  mapped (e :: es) x t <-> (contains (range e) x /\ attributes e = t) \/ mapped es x t.
Proof.
  unfold mapped. split.
  - intros (y & [->|H]%elem_of_cons & R); [left|right]; eauto.
  - intros [H|(y & H & R)]; [exists e|exists y]; rewrite elem_of_cons; auto.
Qed.

Lemma mapped_nil x t : ~ mapped [] x t.
Proof. intros (e & H & _). now apply not_elem_of_nil in H. Qed.

Definition anon_of (e : Entry) (a : Z) (i : nat) (o : Z) : Prop :=
  exists off, contains (range e) a /\ anonymous_map e = Some (i, off) /\ o = off + (a - address (range e)).

Lemma anon_at_app a b x i o : anon_at (a ++ b) x i o <-> anon_at a x i o \/ anon_at b x i o.
Proof.
  unfold anon_at. split.
  - intros (e & off & [H|H]%elem_of_app & R); [left|right]; eauto.
  - intros [(e & off & H & R)|(e & off & H & R)]; exists e, off; rewrite elem_of_app; auto.
Qed.

Lemma anon_at_cons e es x i o : anon_at (e :: es) x i o <-> anon_of e x i o \/ anon_at es x i o.
Proof.
  unfold anon_at, anon_of. split.
  - intros (y & off & [->|H]%elem_of_cons & R); [left|right]; eauto.
  - intros [(off & H)|(y & off & H & R)]; [exists e, off|exists y, off]; rewrite elem_of_cons; auto.
Qed.

Lemma anon_at_nil x i o : ~ anon_at [] x i o.
Proof. intros (e & off & H & _). now apply not_elem_of_nil in H. Qed.

(** ** Reference counts *)

Lemma pages_add_references i n ms j : pages_of (add_references i n ms) j = pages_of ms j.
Proof.
  unfold pages_of, add_references. rewrite lookup_alter. case_decide; [|done]. subst. now destruct (ms !! j).
Qed.

Lemma pages_add_pages i n ms j : is_Some (ms !! i) ->
  pages_of (add_pages i n ms) j = pages_of ms j + if Nat.eqb i j then n else 0.
Proof.
  intros [m Hm]. unfold pages_of, add_pages. rewrite lookup_alter.
  destruct (Nat.eqb_spec i j) as [->|Hne]; case_decide; try done; [|lia]. now rewrite Hm.
Qed.

Lemma add_references_some i n ms j : is_Some (ms !! j) -> is_Some (add_references i n ms !! j).
Proof. intros [m Hm]. unfold add_references. rewrite lookup_alter. case_decide; subst; rewrite Hm; cbn; eauto. Qed.

Lemma add_pages_some i n ms j : is_Some (ms !! j) -> is_Some (add_pages i n ms !! j).
Proof. intros [m Hm]. unfold add_pages. rewrite lookup_alter. case_decide; subst; rewrite Hm; cbn; eauto. Qed.

(** The maps before and after an operation: those of before have as many pages or
    more, and the counts fit the new entries. *)
Lemma entry_ok_maps ms ms' e :
  (forall i off, anonymous_map e = Some (i, off) -> is_Some (ms !! i) ->
     is_Some (ms' !! i) /\ pages_of ms i <= pages_of ms' i) ->
  entry_ok ms e -> entry_ok ms' e.
Proof.
  intros Hm (H1 & H2 & H0 & H3 & H4). split; [done|]. split; [done|]. split; [done|]. split; [done|].
  destruct (anonymous_map e) as [[i off]|]; [|done]. destruct H4 as (A & B & C & D).
  destruct (Hm i off eq_refl C) as [E F]. split; [done|]. split; [done|]. split; [done|]. unfold page in *. lia.
Qed.

Lemma entry_ok_mono ms ms' e :
  (forall i, is_Some (ms !! i) -> is_Some (ms' !! i) /\ pages_of ms i <= pages_of ms' i) ->
  entry_ok ms e -> entry_ok ms' e.
Proof. intros Hm. apply entry_ok_maps. auto. Qed.

Lemma counts_shift ms es ms' es' i n :
  is_Some (ms !! i) -> ms' = add_references i n ms ->
  (forall j, total_uses j es' = total_uses j es + if Nat.eqb i j then n else 0) ->
  0 < total_uses i es' -> counts_ok ms es -> counts_ok ms' es'.
Proof.
  intros [m Hm] -> Hu Hpos Hc j. specialize (Hc j). unfold add_references. rewrite lookup_alter.
  rewrite Hu. destruct (Nat.eqb_spec i j) as [->|Hne]; case_decide; try done.
  - rewrite Hm in *. cbn. rewrite Hu, Nat.eqb_refl in Hpos. lia.
  - destruct (ms !! j); lia.
Qed.

(** The pages of an anonymous map with all memory that has none yet: what bounds
    the number of pages the map may get. *)
Definition untouched_size (e : Entry) : Z := match anonymous_map e with None => size (range e) | Some _ => 0 end.
Definition untouched (es : list Entry) : Z := foldr (fun e n => untouched_size e + n) 0 es.
Definition weight (ms : maps) (es : list Entry) (i : nat) : Z := pages_of ms i * page + untouched es.

Lemma untouched_app a b : untouched (a ++ b) = untouched a + untouched b.
Proof. unfold untouched. induction a as [|e a IH]; cbn; [done|]. rewrite IH. lia. Qed.

Lemma untouched_cons e es : untouched (e :: es) = untouched_size e + untouched es.
Proof. done. Qed.

Lemma untouched_nonneg es : Forall (fun e => 0 < size (range e)) es -> 0 <= untouched es.
Proof.
  induction 1 as [|e es He _ IH]; [done|]. rewrite untouched_cons. unfold untouched_size.
  destruct (anonymous_map e); lia.
Qed.

Lemma entries_ok_positive ms es : Forall (entry_ok ms) es -> Forall (fun e => 0 < size (range e)) es.
Proof. intros H. eapply Forall_impl; [exact H|]. now intros e (_ & _ & H0 & _). Qed.

(** The slots of an anonymous map. *)
Definition chunks_of (ms : maps) (i : nat) : option (gmap Z (list (option nat))) := anonymous_page_chunks <$> ms !! i.

Lemma chunks_add_references i n ms j : chunks_of (add_references i n ms) j = chunks_of ms j.
Proof. unfold chunks_of, add_references. rewrite lookup_alter. case_decide; [subst|done]. now destruct (ms !! j). Qed.

Lemma chunks_add_pages i n ms j : chunks_of (add_pages i n ms) j = chunks_of ms j.
Proof. unfold chunks_of, add_pages. rewrite lookup_alter. case_decide; [subst|done]. now destruct (ms !! j). Qed.

(** The maps that are left are as they were. *)
Definition kept (ms ms' : maps) : Prop :=
  forall i, is_Some (ms' !! i) -> pages_of ms' i = pages_of ms i /\ chunks_of ms' i = chunks_of ms i.

(** An entry without an anonymous map is one that needs a copy. *)
Definition copy_ok (e : Entry) : Prop := needs_copy e = true <-> anonymous_map e = None.

(** No two addresses share anonymous memory. *)
Definition anon_inj (es : list Entry) : Prop := forall x y i o, anon_at es x i o -> anon_at es y i o -> x = y.

Lemma anon_bound ms es x i o : Forall (entry_ok ms) es -> anon_at es x i o -> 0 <= o < pages_of ms i * page.
Proof.
  intros Hok (e & off & Hin & Hx & He & ->). rewrite Forall_forall in Hok. destruct (Hok e Hin) as (_ & _ & _ & _ & H).
  rewrite He in H. destruct H as (A & _ & _ & D). unfold contains, after in Hx. lia.
Qed.

(** ** Merging two neighbours *)

(** The entries before and after a merge show the same mappings; anonymous memory
    that was not there before is in new pages of a map. *)
(** The numbers of pages are 32-bit numbers. *)
Definition counts_fit (ms : maps) : Prop := forall i, pages_of ms i < 2 ^ 32.

Lemma merge_fits x y ms z ms' : merge x y ms = Some (z, ms') -> counts_fit ms -> counts_fit ms'.
Proof.
  unfold merge. intros Hm Hf i. specialize (Hf i).
  destruct (anonymous_map x) as [[j off]|], (anonymous_map y) as [[k off2]|]; try (now injection Hm as _ <-).
  - injection Hm as _ <-. now rewrite pages_add_references.
  - destruct (Z.ltb_spec (pages_of ms j + size (range y) / page) (2 ^ 32)) as [Hl|]; [|done]. injection Hm as _ <-.
    unfold pages_of, add_pages in *. rewrite lookup_alter. case_decide; [subst|done]. destruct (ms !! i); [cbn; lia|done].
Qed.

Record same_view (ms : maps) (es : list Entry) (ms' : maps) (es' : list Entry) : Prop := {
  sv_mapped : forall a t, mapped es' a t <-> mapped es a t;
  sv_anon : forall a i o, anon_at es a i o -> anon_at es' a i o;
  sv_fresh : forall a i o, anon_at es' a i o -> anon_at es a i o \/ pages_of ms i * page <= o;
  sv_pages : forall i, pages_of ms i <= pages_of ms' i;
  sv_chain : forall lo hi, chain lo es hi -> chain lo es' hi;
  sv_weight : forall i, weight ms' es' i <= weight ms es i;
  sv_chunks : forall i, chunks_of ms' i = chunks_of ms i;
  sv_copies : Forall copy_ok es -> Forall copy_ok es';
  sv_inj : anon_inj es -> anon_inj es';
  sv_fits : counts_fit ms -> counts_fit ms';
  sv_ok : Forall (entry_ok ms') es' /\ counts_ok ms' es'
}.

Lemma canMerge_spec ms x y : canMerge ms x y = true ->
  attributes x = attributes y /\ after (range x) = address (range y) /\
  match anonymous_map x, anonymous_map y with
  | None, None => True
  | None, Some _ => False
  | Some (i, off), None => pages_of ms i = (off + size (range x)) / page
  | Some (i, off), Some (j, off2) => i = j /\ off + size (range x) = off2
  end.
Proof.
  unfold canMerge. rewrite !andb_true_iff. intros [[[[[H1 H2] H3] H4] H5] H6].
  apply bool_decide_eq_true in H1, H2. apply Bool.eqb_prop in H3. apply Z.eqb_eq in H4, H5.
  split; [unfold attributes; congruence|]. split; [done|].
  destruct (anonymous_map x) as [[i off]|], (anonymous_map y) as [[j off2]|]; try done.
  - apply andb_prop in H6 as [H6 H7]. apply Nat.eqb_eq in H6. apply Z.eqb_eq in H7. done.
  - now apply Z.eqb_eq in H6.
Qed.

Lemma merge_some x y ms z ms' : merge x y ms = Some (z, ms') ->
  z = with_range (VRange (address (range x)) (size (range x) + size (range y))) x /\
  ms' = match anonymous_map x, anonymous_map y with
        | Some (i, _), Some _ => add_references i (-1) ms
        | Some (i, _), None => add_pages i (size (range y) / page) ms
        | None, _ => ms
        end.
Proof.
  unfold merge. destruct (anonymous_map x) as [[i off]|], (anonymous_map y) as [[j off2]|];
    try (now intros [= <- <-]). destruct (_ <? _); [now intros [= <- <-]|done].
Qed.

(** A merge that traps: a map would get 2^32 pages or more. *)
Lemma merge_none ms l1 x y l2 : merge x y ms = None -> Forall (entry_ok ms) (l1 ++ x :: y :: l2) ->
  exists i, 2 ^ 32 * page <= weight ms (l1 ++ x :: y :: l2) i.
Proof.
  intros Hm Hok. pose proof (entries_ok_positive _ _ Hok) as Hpos. rewrite !Forall_app, !Forall_cons in Hok, Hpos.
  destruct Hok as (_ & _ & (_ & Y2 & _) & _), Hpos as (P1 & P2 & P3 & P4).
  unfold merge in Hm. destruct (anonymous_map x) as [[i off]|] eqn:Ex; [|done].
  destruct (anonymous_map y) as [[j off2]|] eqn:Ey; [done|].
  destruct (Z.ltb_spec (pages_of ms i + size (range y) / page) (2 ^ 32)) as [|Hge]; [done|].
  exists i. unfold weight. rewrite untouched_app, !untouched_cons. unfold untouched_size. rewrite Ex, Ey.
  pose proof (untouched_nonneg _ P1). pose proof (untouched_nonneg _ P4). pose proof (aligned_div _ Y2).
  unfold page in *. lia.
Qed.

Lemma merge_maps_ok ms l1 x y l2 z ms' :
  canMerge ms x y = true -> merge x y ms = Some (z, ms') ->
  Forall (entry_ok ms) (l1 ++ x :: y :: l2) -> counts_ok ms (l1 ++ x :: y :: l2) ->
  (forall i, (is_Some (ms !! i) -> is_Some (ms' !! i)) /\ pages_of ms i <= pages_of ms' i) /\
  counts_ok ms' (l1 ++ z :: l2) /\ entry_ok ms' z.
Proof.
  intros Hm Hz Hok Hc. apply merge_some in Hz as [-> ->]. apply canMerge_spec in Hm as (Ha & Hadj & Hanon).
  apply Forall_app in Hok as [_ Hok]. inversion_clear Hok as [|? ? Hx Hok']. inversion_clear Hok' as [|? ? Hy _].
  destruct Hx as (X1 & X2 & X0 & X3 & X4), Hy as (Y1 & Y2 & Y0 & Y3 & Y4).
  set (z := with_range _ x).
  assert (Hz : forall ms', match anonymous_map x with None => True | Some (i, off) =>
      0 <= off /\ aligned off = true /\ is_Some (ms' !! i) /\
      off + (size (range x) + size (range y)) <= pages_of ms' i * page end -> entry_ok ms' z).
  { intros ms' H. split; [done|]. split; [now apply aligned_add|]. split; [cbn; lia|]. split; [done|]. exact H. }
  assert (Hu : forall j, total_uses j (l1 ++ z :: l2) = total_uses j (l1 ++ x :: y :: l2) - uses j y).
  { intros j. rewrite !total_uses_app, !total_uses_cons. change (uses j z) with (uses j x). lia. }
  destruct (anonymous_map x) as [[i off]|] eqn:Ex, (anonymous_map y) as [[j off2]|] eqn:Ey; try done.
  - destruct Hanon as [-> Hoff]. destruct X4 as (A & B & C & D), Y4 as (_ & _ & _ & D').
    split; [|split].
    + intros k. rewrite pages_add_references. split; [|done]. now apply add_references_some.
    + eapply (counts_shift ms); [exact C|reflexivity| | |exact Hc].
      * intros k. rewrite Hu. unfold uses. rewrite Ey, (Nat.eqb_sym k j). destruct (Nat.eqb j k); lia.
      * rewrite total_uses_app, total_uses_cons. unfold uses at 1. change (anonymous_map z) with (anonymous_map x).
        rewrite Ex, Nat.eqb_refl. pose proof (total_uses_nonneg j l1). pose proof (total_uses_nonneg j l2). lia.
    + apply Hz. rewrite pages_add_references. split; [done|]. split; [done|].
      split; [now apply add_references_some|unfold page in *; lia].
  - destruct X4 as (A & B & C & D). pose proof (aligned_div _ Y2) as Hd.
    pose proof (aligned_div (off + size (range x)) (aligned_add _ _ B X2)) as Hd2.
    split; [|split].
    + intros k. rewrite pages_add_pages by done. split; [now apply add_pages_some|].
      destruct (Nat.eqb i k); unfold page in *; lia.
    + intros k. specialize (Hc k). rewrite Hu. unfold uses. rewrite Ey. unfold add_pages. rewrite lookup_alter.
      case_decide; [subst|]; destruct (ms !! k); cbn; lia.
    + apply Hz. rewrite pages_add_pages, Nat.eqb_refl by done. split; [done|]. split; [done|].
      split; [now apply add_pages_some|]. unfold page in *. lia.
  - split; [done|]. split; [|now apply Hz]. intros k. specialize (Hc k). rewrite Hu. unfold uses. rewrite Ey.
    now rewrite Z.sub_0_r.
Qed.

Lemma merge_weight ms l1 x y l2 z ms' i :
  z = with_range (VRange (address (range x)) (size (range x) + size (range y))) x ->
  ms' = match anonymous_map x, anonymous_map y with
        | Some (i, _), Some _ => add_references i (-1) ms
        | Some (i, _), None => add_pages i (size (range y) / page) ms
        | None, _ => ms
        end ->
  (forall j off, anonymous_map x = Some (j, off) -> is_Some (ms !! j)) ->
  (anonymous_map x = None -> anonymous_map y = None) -> entry_ok ms y ->
  weight ms' (l1 ++ z :: l2) i <= weight ms (l1 ++ x :: y :: l2) i.
Proof.
  intros -> -> Hx Hn (_ & Y2 & Y0 & _). unfold weight. rewrite !untouched_app, !untouched_cons. unfold untouched_size. cbn.
  destruct (anonymous_map x) as [[j off]|], (anonymous_map y) as [[k off2]|]; try lia.
  - rewrite pages_add_references. lia.
  - rewrite pages_add_pages by now eapply Hx. pose proof (aligned_div _ Y2). destruct (Nat.eqb j i); unfold page in *; lia.
  - now specialize (Hn eq_refl).
Qed.

(** What is anonymous memory after a merge was so before, or is a new page of the
    map of the merged entry. *)
Lemma merge_fresh ms l1 x y l2 z :
  z = with_range (VRange (address (range x)) (size (range x) + size (range y))) x ->
  after (range x) = address (range y) ->
  match anonymous_map x, anonymous_map y with
  | None, None => True
  | None, Some _ => False
  | Some (i, off), None => pages_of ms i = (off + size (range x)) / page
  | Some (i, off), Some (j, off2) => i = j /\ off + size (range x) = off2
  end ->
  entry_ok ms x -> entry_ok ms y -> forall a i o, anon_at (l1 ++ z :: l2) a i o ->
  anon_at (l1 ++ x :: y :: l2) a i o \/ (pages_of ms i * page <= o /\ anon_of z a i o).
Proof.
  intros Ez Hadj Hanon (_ & X2 & X0 & _ & X4) (_ & _ & Y0 & _) a i o.
  rewrite !anon_at_app, !anon_at_cons. intros [H|[H|H]]; [tauto| |tauto].
  pose proof H as (off & H1 & H2 & H3). rewrite Ez in H1, H2, H3. cbn in H2, H3. unfold contains, after in H1, Hadj. cbn in H1.
  destruct (Z_lt_le_dec a (address (range y))) as [Hlt|Hge].
  { left. right. left. exists off. unfold contains, after. split; [lia|done]. }
  rewrite H2 in Hanon, X4. destruct (anonymous_map y) as [[j off2]|] eqn:Ey.
  - destruct Hanon as [-> Hoff]. left. right. right. left. exists off2. unfold contains, after. split; [lia|].
    split; [done|]. lia.
  - right. split; [|done]. destruct X4 as (_ & B & _).
    pose proof (aligned_div (off + size (range x)) (aligned_add _ _ B X2)) as Hd. rewrite Hanon, Hd. lia.
Qed.

Lemma merge_adjacent ms l1 x y l2 z ms' :
  canMerge ms x y = true -> merge x y ms = Some (z, ms') ->
  Forall (entry_ok ms) (l1 ++ x :: y :: l2) -> counts_ok ms (l1 ++ x :: y :: l2) ->
  same_view ms (l1 ++ x :: y :: l2) ms' (l1 ++ z :: l2).
Proof.
  intros Hm Hz Hok Hc. destruct (merge_maps_ok _ _ _ _ _ _ _ Hm Hz Hok Hc) as (Hp & Hc' & Hoz).
  pose proof (merge_fits _ _ _ _ _ Hz) as Hfits.
  apply canMerge_spec in Hm as (Ha & Hadj & Hanon).
  apply merge_some in Hz as [Ez Ems].
  assert (Hin : forall a, contains (range z) a <-> contains (range x) a \/ contains (range y) a).
  { intros a. apply Forall_app in Hok as [_ Hok]. inversion_clear Hok as [|? ? Hx Hok'].
    inversion_clear Hok' as [|? ? Hy _]. destruct Hx as (_ & _ & X0 & _), Hy as (_ & _ & Y0 & _).
    rewrite Ez. unfold contains, after in *. cbn. lia. }
  assert (Hfx : entry_ok ms x /\ entry_ok ms y).
  { apply Forall_app in Hok as [_ Hok]. inversion_clear Hok as [|? ? Hx Hok']. now inversion_clear Hok'. }
  pose proof (merge_fresh ms l1 x y l2 z Ez Hadj Hanon (proj1 Hfx) (proj2 Hfx)) as Hfresh.
  split.
  - intros a t. rewrite !mapped_app, !mapped_cons, Hin. rewrite Ez. cbn [attributes].
    change (attributes (with_range _ x)) with (attributes x). rewrite <- Ha. tauto.
  - intros a i o. rewrite !anon_at_app, !anon_at_cons.
    intros [H|[H|[H|H]]]; [tauto|right; left|right; left|tauto]; destruct H as (off & H1 & H2 & H3).
    + exists off. rewrite Hin. rewrite Ez. auto.
    + rewrite H2 in Hanon. destruct (anonymous_map x) as [[j off1]|] eqn:Ex; [|done].
      destruct Hanon as [-> Hoff]. exists off1. rewrite Hin. split; [auto|]. rewrite Ez. split; [done|].
      cbn. unfold after in Hadj. lia.
  - intros a i o H. destruct (Hfresh a i o H) as [F|[F _]]; auto.
  - intros i. apply Hp.
  - intros lo hi. rewrite !chain_app. intros (mid & H1 & H2). exists mid. split; [done|].
    cbn [chain] in *. destruct H2 as (A & B & C & D & E). rewrite Ez. cbn. unfold after in *. cbn.
    split; [done|]. split; [lia|]. now replace (address (range x) + (size (range x) + size (range y)))
      with (address (range y) + size (range y)) by lia.
  - intros i. apply (merge_weight ms l1 x y l2 z ms'); [done|done| | |apply Hfx].
    + intros j off Hx. destruct Hfx as [(_ & _ & _ & _ & X4) _]. rewrite Hx in X4. apply X4.
    + intros Hx. rewrite Hx in Hanon. now destruct (anonymous_map y).
  - intros i. rewrite Ems. destruct (anonymous_map x) as [[j off]|]; [|done].
    destruct (anonymous_map y) as [[k off2]|]; [apply chunks_add_references|apply chunks_add_pages].
  - rewrite !Forall_app, !Forall_cons. intros (C1 & C2 & C3 & C4). now subst z.
  - intros Hinj u v i o Hu Hv. pose proof (Hfresh u i o Hu) as [Fu|Fu]; pose proof (Hfresh v i o Hv) as [Fv|Fv].
    + now apply (Hinj u v i o).
    + apply (anon_bound ms) in Fu; [lia|done].
    + apply (anon_bound ms) in Fv; [lia|done].
    + destruct Fu as (_ & offu & _ & Eu & ->), Fv as (_ & offv & _ & Ev & Ho). rewrite Eu in Ev. injection Ev as <-. lia.
  - exact Hfits.
  - split; [|done]. apply Forall_app in Hok as [Hok1 Hok2]. inversion_clear Hok2 as [|? ? _ Hok3].
    inversion_clear Hok3 as [|? ? _ Hok4].
    assert (Hmono : forall e, entry_ok ms e -> entry_ok ms' e).
    { intros e. apply entry_ok_mono. intros i Hi. destruct (Hp i) as [P1 P2]. auto. }
    apply Forall_app. split; [eapply Forall_impl; [exact Hok1|exact Hmono]|].
    constructor; [done|]. eapply Forall_impl; [exact Hok4|exact Hmono].
Qed.

Lemma same_view_trans ms1 es1 ms2 es2 ms3 es3 :
  same_view ms1 es1 ms2 es2 -> same_view ms2 es2 ms3 es3 -> same_view ms1 es1 ms3 es3.
Proof.
  intros [A1 A2 A3 A4 A5 A6 A7 A8 A9 A10 A11] [B1 B2 B3 B4 B5 B6 B7 B8 B9 B10 B11]. split.
  - intros a t. now rewrite B1, A1.
  - auto.
  - intros a i o H. destruct (B3 _ _ _ H) as [H'|H']; [auto|]. right. specialize (A4 i). unfold page in *. lia.
  - intros i. specialize (A4 i). specialize (B4 i). lia.
  - auto.
  - intros i. specialize (A6 i). specialize (B6 i). lia.
  - intros i. now rewrite B7.
  - auto.
  - auto.
  - auto.
  - done.
Qed.

Lemma same_view_refl ms es : Forall (entry_ok ms) es -> counts_ok ms es -> same_view ms es ms es.
Proof. intros H1 H2. split; auto; lia. Qed.

(** ** Placing a new entry *)

Lemma insert_at_middle e l1 l2 : insert_at (length l1) e (l1 ++ l2) = l1 ++ e :: l2.
Proof. unfold insert_at. now rewrite take_app_length, drop_app_length. Qed.

Lemma remove_at_middle e l1 l2 : remove_at (length l1) (l1 ++ e :: l2) = l1 ++ l2.
Proof.
  unfold remove_at. rewrite take_app_length. f_equal. rewrite cons_middle, app_assoc.
  replace (S (length l1)) with (length (l1 ++ [e])) by (rewrite length_app; cbn; lia). apply drop_app_length.
Qed.

Lemma insert_middle e e' (l1 l2 : list Entry) : <[length l1 := e']> (l1 ++ e :: l2) = l1 ++ e' :: l2.
Proof. rewrite insert_app_r_alt, Nat.sub_diag by lia. done. Qed.

(** The range that [map] reports: the new entry, with the following one if they merged. *)
Definition reported (ms : maps) (local : Entry) (post : list Entry) : VirtualRange :=
  match post with
  | following :: _ => if canMerge ms local following
      then VRange (address (range local)) (size (range local) + size (range following)) else range local
  | [] => range local
  end.

(** A map of the space would get 2^32 pages or more. *)
Definition count_overflows (ms : maps) (es : list Entry) : Prop := exists i, 2 ^ 32 * page <= weight ms es i.

Lemma merge_following_spec ms pre l post :
  Forall (entry_ok ms) (pre ++ l :: post) -> counts_ok ms (pre ++ l :: post) ->
  match merge_following (length pre) l (pre ++ post) ms with
  | Some (l', es', ms', n) => range l' = reported ms l post /\
      exists post', same_view ms (pre ++ l :: post) ms' (pre ++ l' :: post') /\
        (n = 0 /\ es' = pre ++ post' \/ n = 1 /\ es' = pre ++ l' :: post')
  | None => count_overflows ms (pre ++ l :: post)
  end.
Proof.
  intros Hok Hc. unfold merge_following, reported. destruct post as [|f post].
  { rewrite app_nil_r, lookup_ge_None_2 by lia. split; [done|].
    exists []. rewrite app_nil_r. split; [now apply same_view_refl|auto]. }
  rewrite list_lookup_middle by done. destruct (canMerge ms l f) eqn:Em.
  - destruct (merge l f ms) as [[z ms1]|] eqn:Ez; cbn; [|now apply (merge_none ms pre l f post)].
    split; [now apply merge_some in Ez as [-> _]|].
    exists post. rewrite insert_middle. split; [now apply merge_adjacent with (1 := Em) (2 := Ez)|auto].
  - split; [done|]. exists (f :: post). split; [now apply same_view_refl|auto].
Qed.

Lemma merge_preceding_spec ms pre l post es n :
  (n = 0 /\ es = pre ++ post \/ n = 1 /\ es = pre ++ l :: post) ->
  Forall (entry_ok ms) (pre ++ l :: post) -> counts_ok ms (pre ++ l :: post) ->
  match merge_preceding (length pre) l es ms n with
  | Some (es', ms', n') =>
      (n' = 0 /\ es' = pre ++ post /\ ms' = ms) \/ (0 < n' /\ same_view ms (pre ++ l :: post) ms' es')
  | None => count_overflows ms (pre ++ l :: post)
  end.
Proof.
  intros He Hok Hc.
  assert (Hkeep : (n = 0 /\ es = pre ++ post /\ ms = ms) \/ (0 < n /\ same_view ms (pre ++ l :: post) ms es)).
  { destruct He as [[-> ->]|[-> ->]]; [auto|]. right. split; [done|now apply same_view_refl]. }
  destruct pre as [|p pre _] using rev_ind; [exact Hkeep|].
  unfold merge_preceding. rewrite length_app, Nat.add_1_r.
  assert (El : es !! length pre = Some p).
  { rewrite <- !app_assoc in He. destruct He as [[_ ->]|[_ ->]]; now apply list_lookup_middle. }
  rewrite El. destruct (canMerge ms p l) eqn:Em; [|exact Hkeep]. clear Hkeep.
  rewrite <- !app_assoc in *. cbn [app] in *.
  destruct (merge p l ms) as [[z ms1]|] eqn:Ez; cbn; [|now apply (merge_none ms pre p l post)].
  right. pose proof (merge_adjacent _ _ _ _ _ _ _ Em Ez Hok Hc) as Hv.
  destruct He as [[-> ->]|[-> ->]]; cbn; (split; [lia|]).
  - now rewrite insert_middle.
  - rewrite insert_middle. replace (pre ++ z :: l :: post) with ((pre ++ [z]) ++ l :: post) by now rewrite <- app_assoc.
    replace (S (length pre)) with (length (pre ++ [z])) by (rewrite length_app; cbn; lia).
    rewrite remove_at_middle, <- app_assoc. done.
Qed.

Lemma place_spec alloc ms pre l post :
  Forall (entry_ok ms) (pre ++ l :: post) -> counts_ok ms (pre ++ l :: post) ->
  match place alloc (length pre) l (pre ++ post) ms with
  | Done (r, es', ms') => r = reported ms l post /\ same_view ms (pre ++ l :: post) ms' es'
  | Failed e => e = MapOutOfMemory /\ alloc = false
  | Panic => count_overflows ms (pre ++ l :: post)
  end.
Proof.
  intros Hok Hc. unfold place. pose proof (merge_following_spec ms pre l post Hok Hc) as H1.
  destruct (merge_following _ _ _ _) as [[[[l1 es1] ms1] n1]|]; [|exact H1].
  destruct H1 as (Hr & post' & Hv & He). destruct (sv_ok _ _ _ _ Hv) as [Hok1 Hc1].
  pose proof (merge_preceding_spec ms1 pre l1 post' es1 n1 He Hok1 Hc1) as H2.
  destruct (merge_preceding _ _ _ _ _) as [[[es2 ms2] n2]|].
  - destruct H2 as [(-> & -> & ->)|[Hn Hv2]].
    + cbn. destruct alloc; [|done]. split; [done|]. now rewrite insert_at_middle.
    + replace (n2 =? 0) with false by (symmetry; apply Z.eqb_neq; lia). split; [done|].
      eapply same_view_trans; [exact Hv|exact Hv2].
  - destruct H2 as [i Hi]. exists i. pose proof (sv_weight _ _ _ _ Hv i). lia.
Qed.

(** ** Free ranges *)

(** No entry shares an address with the range. *)
Definition clear (es : list Entry) (r : VirtualRange) : Prop :=
  forall e, e ∈ es -> after (range e) <= address r \/ after r <= address (range e).

Definition available (s : AddressSpace) (r : VirtualRange) : Prop :=
  address (space_range s) <= address r /\ after r <= after (space_range s) /\ clear (entries s) r.

(** The entries around a free range: its insertion index is the length of [pre]. *)
Definition gap (s : AddressSpace) (r : VirtualRange) (pre post : list Entry) : Prop :=
  entries s = pre ++ post /\ chain (address (space_range s)) pre (address r) /\
  chain (after r) post (after (space_range s)).

Lemma gap_free s r pre post : gap s r pre post -> available s r.
Proof.
  intros (He & H1 & H2). split; [eauto using chain_le|]. split; [eauto using chain_le|].
  intros e. rewrite He, elem_of_app. intros [H|H]; [left|right].
  - eapply chain_bounds in H1 as (_ & _ & A); eauto.
  - eapply chain_bounds in H2 as (A & _); eauto.
Qed.

Lemma free_candidate_spec es n c i hi : 0 < n -> chain c es hi ->
  Forall (fun e => aligned (after (range e)) = true) es -> aligned c = true ->
  match free_candidate es n c i with
  | Done (c', j) => exists pre post, es = pre ++ post /\ j = (i + length pre)%nat /\ chain c pre c' /\
      (forall h, c' + n <= h -> hi <= h -> chain (c' + n) post h) /\ aligned c' = true /\ c' + n < 2 ^ 64 /\
      (forall a, c <= a -> clear es (VRange a n) -> c' <= a)
  | Failed _ => False
  | Panic => 2 ^ 64 <= hi + n
  end.
Proof.
  intros Hn. revert c i. induction es as [|e es IH]; intros c i Hch Hal Hc; cbn [free_candidate];
    unfold after_checked, after; cbn;
    destruct (Z.ltb_spec (c + n) (2 ^ 64)) as [Hlt|Hlt]; cbn.
  - exists [], []. split; [done|]. split; [cbn; lia|]. cbn in *. split; [lia|]. split; [intros; lia|]. auto.
  - cbn in Hch. lia.
  - destruct Hch as (H1 & H2 & H3). apply Forall_cons in Hal as [Ha Hal].
    destruct (Z.leb_spec (c + n) (address (range e))) as [Hle|Hgt]; cbn.
    + exists [], (e :: es). split; [done|]. split; [cbn; lia|]. split; [cbn; lia|]. split; [|auto].
      intros h _ Hh. cbn [chain]. split; [lia|]. split; [done|]. eapply chain_hi; [exact Hh|exact H3].
    + specialize (IH _ (S i) H3 Hal Ha). fold (after (range e)). 
      destruct (free_candidate es n (after (range e)) (S i)) as [[c' j]| |]; [|done..].
      destruct IH as (pre & post & -> & -> & A & B & C & D & F). exists (e :: pre), post.
      split; [done|]. split; [cbn; lia|]. split; [done|]. split; [done|]. split; [done|]. split; [done|].
      intros a Hca Hcl. apply F.
      * destruct (Hcl e) as [H|H]; [rewrite elem_of_cons; auto|done|]. unfold after in H. cbn in H. lia.
      * intros e' He'. apply Hcl. rewrite elem_of_cons. auto.
  - apply chain_le in Hch. lia.
Qed.

Lemma entries_aligned s : space_ok s -> Forall (fun e => aligned (after (range e)) = true) (entries s).
Proof.
  intros (_ & _ & _ & _ & H & _). eapply Forall_impl; [exact H|]. intros e (A & B & _). now apply aligned_add.
Qed.

Lemma findFreeRange_ret s n : space_ok s -> 0 < n ->
  match findFreeRange s n with
  | Done (Some (r, i)) => size r = n /\ aligned (address r) = true /\
      (exists pre post, gap s r pre post /\ i = length pre) /\
      (forall a, available s (VRange a n) -> address r <= a)
  | Done None => forall a, ~ available s (VRange a n)
  | Failed _ => False
  | Panic => 2 ^ 64 <= after (space_range s) + n
  end.
Proof.
  intros Hs Hn. pose proof (entries_aligned _ Hs) as Ha. destruct Hs as (H1 & H2 & H3 & H4 & _).
  pose proof (free_candidate_spec _ _ _ 0 _ Hn H4 Ha H3) as H. unfold findFreeRange.
  destruct (free_candidate _ _ _ _) as [[c j]| |]; [|done..].
  destruct H as (pre & post & He & -> & A & B & C & D & F). cbn.
  destruct (Z.leb_spec (c + n) (after (space_range s))) as [Hle|Hgt].
  - split; [done|]. split; [done|]. split; [exists pre, post; split; [|done]; split; [done|]; split; [done|]; now apply B|].
    intros a (A1 & _ & A2). auto.
  - intros a (A1 & A2 & A3). apply F in A3; [|done]. unfold after in *. cbn in *. lia.
Qed.

Lemma lowerBound_spec es a lo hi : chain lo es hi -> lo <= a ->
  exists pre post, es = pre ++ post /\ lowerBound es a = length pre /\ chain lo pre a /\
    match post with e :: _ => a < after (range e) /\ chain (address (range e)) post hi | [] => True end.
Proof.
  revert lo. induction es as [|e es IH]; intros lo Hch Hlo; cbn [lowerBound].
  - exists [], []. done.
  - destruct Hch as (H1 & H2 & H3). destruct (Z.leb_spec (after (range e)) a) as [Hle|Hgt].
    + destruct (IH _ H3 Hle) as (pre & post & -> & -> & A & B). exists (e :: pre), post. done.
    + exists [], (e :: es). split; [done|]. split; [done|]. split; [done|]. split; [done|]. cbn [chain]. split; [lia|done].
Qed.

Lemma lookup_length {A} (l1 l2 : list A) : (l1 ++ l2) !! length l1 = head l2.
Proof. rewrite lookup_app_r, Nat.sub_diag by lia. now destruct l2. Qed.

Lemma findExactFreeRange_ret s r : space_ok s -> 0 < size r -> address (space_range s) <= address r ->
  match findExactFreeRange s r with
  | Done (Some (r', i)) => r' = r /\ exists pre post, gap s r pre post /\ i = length pre
  | Done None => ~ available s r
  | Failed _ => False
  | Panic => 2 ^ 64 <= after r
  end.
Proof.
  intros (H1 & H2 & H3 & H4 & _) Hn Hlo. unfold findExactFreeRange, gap, available.
  destruct (lowerBound_spec _ _ _ _ H4 Hlo) as (pre & post & He & -> & A & B). rewrite He, lookup_length.
  unfold after_checked. destruct (Z.ltb_spec (after r) (2 ^ 64)) as [Hlt|]; [|done].
  destruct post as [|e post]; cbn.
  - destruct (Z.leb_spec (after r) (after (space_range s))).
    + split; [done|]. exists pre, []. done.
    + intros (_ & H' & _). lia.
  - destruct B as [B1 B2]. unfold anyOverlap. destruct (Z.ltb_spec (address r) (after (range e))) as [_|]; [|lia].
    rewrite andb_true_r. destruct (Z.ltb_spec (address (range e)) (after r)) as [Hov|Hov].
    + intros (_ & _ & Hc). destruct (Hc e); [rewrite elem_of_app, elem_of_cons; auto|lia|lia].
    + split; [done|]. exists pre, (e :: post). split; [|done]. split; [done|]. split; [done|].
      cbn [chain] in *. split; [lia|apply B2].
Qed.

(** ** map *)

(** The parameters that [map] refuses, in the order of its checks. *)
Definition refuses (base : option Z) (n : Z) (prot : Protection) (max : option Protection) (e : MapError) : Prop :=
  match e with
  | ZeroSize => n = 0
  | SizeNotMultipleOfAPage => aligned n = false
  | BaseNotPageAligned => exists b, base = Some b /\ aligned b = false
  | MaxProtectionNone => max = Some no_protection
  | MaxProtectionExceeded => exists m, max = Some m /\ exceeds prot m = true
  | RequestedRangeUnavailable | MapOutOfMemory => False
  end.

Lemma exceeds_refl p : exceeds p p = false.
Proof. now destruct p as [[] [] []]. Qed.

Lemma place_gap alloc s r pre post prot max :
  space_ok s -> gap s r pre post -> 0 < size r -> aligned (address r) = true -> aligned (size r) = true ->
  exceeds prot max = false ->
  let l := MkEntry r prot max None true true 0 in
  match place alloc (length pre) l (entries s) (anonymous_maps s) with
  | Done (r', es', ms') => r' = reported (anonymous_maps s) l post /\
      same_view (anonymous_maps s) (pre ++ l :: post) ms' es' /\
      space_ok (Space (space_range s) es' ((entries_version s + 1) mod 2 ^ 32) ms')
  | Failed e => e = MapOutOfMemory /\ alloc = false
  | Panic => exists i, 2 ^ 32 * page <= weight (anonymous_maps s) (entries s) i + size r
  end.
Proof.
  intros (H1 & H2 & H3 & H4 & H5 & H6) (He & G1 & G2) Hn Ha Hs Hx l. rewrite He in *.
  assert (Hok : Forall (entry_ok (anonymous_maps s)) (pre ++ l :: post)).
  { apply Forall_app in H5 as [P1 P2]. apply Forall_app. split; [done|]. constructor; [|done]. repeat split; done. }
  assert (Hc : counts_ok (anonymous_maps s) (pre ++ l :: post)).
  { intros i. specialize (H6 i). rewrite total_uses_app in *. rewrite total_uses_cons. exact H6. }
  pose proof (place_spec alloc _ _ _ _ Hok Hc) as Hp.
  destruct (place _ _ _ _ _) as [[[r' es'] ms']| |]; [|done|].
  2: { destruct Hp as [i Hi]. exists i. unfold weight in *. rewrite untouched_app, untouched_cons in *. cbn in Hi. lia. }
  destruct Hp as [-> Hv]. split; [done|]. split; [done|].
  split; [done|]. split; [done|]. split; [done|]. split; [|apply Hv].
  apply (sv_chain _ _ _ _ Hv). apply chain_app. exists (address r). split; [done|].
  cbn [chain]. split; [cbn; lia|]. done.
Qed.

(** The address the caller asks for, or the first that fits. *)
Definition chosen (s : AddressSpace) (base : option Z) (n a : Z) : Prop :=
  match base with Some b => a = b | None => forall a', available s (VRange a' n) -> a <= a' end.

Definition unavailable (s : AddressSpace) (base : option Z) (n : Z) : Prop :=
  match base with Some b => ~ available s (VRange b n) | None => forall a, ~ available s (VRange a n) end.

Definition base_ok (s : AddressSpace) (base : option Z) : Prop :=
  match base with Some b => address (space_range s) <= b | None => True end.

Lemma search_ret s base n : space_ok s -> 0 < n -> base_ok s base ->
  match base with Some b => aligned b | None => true end = true ->
  match match base with Some b => findExactFreeRange s (VRange b n) | None => findFreeRange s n end with
  | Done (Some (r, i)) => size r = n /\ aligned (address r) = true /\ chosen s base n (address r) /\
      exists pre post, gap s r pre post /\ i = length pre
  | Done None => unavailable s base n
  | Failed _ => False
  | Panic => 2 ^ 64 <= default (after (space_range s)) base + n
  end.
Proof.
  intros Hs Hn Hb Ha. destruct base as [b|]; cbn [default chosen unavailable base_ok] in *.
  - pose proof (findExactFreeRange_ret s (VRange b n) Hs Hn Hb) as H.
    destruct (findExactFreeRange s (VRange b n)) as [[[r i]|]| |]; [|done..].
    destruct H as [-> H]. done.
  - pose proof (findFreeRange_ret s n Hs Hn) as H.
    destruct (findFreeRange s n) as [[[r i]|]| |]; [|done..].
    destruct H as (A & B & C & D). done.
Qed.

(** The anonymous maps after an operation are those from before with the same slots,
    and maybe more pages; what holds of the references to them is kept, and the
    pages a map may get are at most those of [n] more bytes. *)
Definition maps_follow (n : Z) (s s' : AddressSpace) : Prop :=
  (forall i m', anonymous_maps s' !! i = Some m' -> exists m, anonymous_maps s !! i = Some m /\
     anonymous_page_chunks m' = anonymous_page_chunks m /\ number_of_pages m <= number_of_pages m') /\
  (Forall copy_ok (entries s) -> Forall copy_ok (entries s')) /\ (anon_inj (entries s) -> anon_inj (entries s')) /\
  (counts_fit (anonymous_maps s) -> counts_fit (anonymous_maps s')) /\
  (forall i, weight (anonymous_maps s') (entries s') i <= weight (anonymous_maps s) (entries s) i + n).

Lemma maps_follow_refl s : maps_follow 0 s s.
Proof. split; [|split; [done|]; split; [done|]; split; [done|]; intros i; lia]. intros i m Hm. exists m. split; [done|]. split; [done|lia]. Qed.

Lemma chunks_follow ms ms' i m' : chunks_of ms' i = chunks_of ms i -> pages_of ms i <= pages_of ms' i ->
  ms' !! i = Some m' -> exists m, ms !! i = Some m /\
    anonymous_page_chunks m' = anonymous_page_chunks m /\ number_of_pages m <= number_of_pages m'.
Proof.
  unfold chunks_of, pages_of. intros Hc Hp Hm. rewrite Hm in *. destruct (ms !! i) as [m|]; [|done].
  cbn in Hc. injection Hc as Hc. eauto.
Qed.

Definition map_done (s : AddressSpace) (base : option Z) (n : Z) (prot max : Protection)
    (r : VirtualRange) (s' : AddressSpace) : Prop :=
  space_ok s' /\ space_range s' = space_range s /\
  available s (VRange (address r) n) /\ chosen s base n (address r) /\ pageAligned (VRange (address r) n) = true /\
  (forall x t, mapped (entries s') x t <->
     contains (VRange (address r) n) x /\ t = (prot, max, true, 0) \/ mapped (entries s) x t) /\
  (forall x i o, anon_at (entries s) x i o -> anon_at (entries s') x i o) /\
  (forall x i o, anon_at (entries s') x i o ->
     anon_at (entries s) x i o \/ pages_of (anonymous_maps s) i * page <= o) /\
  maps_follow n s s'.

(** The range [map] returns. *)
Definition map_reports (s : AddressSpace) (n : Z) (prot max : Protection) (r : VirtualRange) : Prop :=
  exists pre post, gap s (VRange (address r) n) pre post /\
    r = reported (anonymous_maps s) (MkEntry (VRange (address r) n) prot max None true true 0) post.

Lemma reported_address ms l post : address (reported ms l post) = address (range l).
Proof. unfold reported. destruct post as [|f post]; [done|]. now destruct (canMerge _ _ _). Qed.

Lemma map_done_view s base r n pre post prot max l r' es' ms' v :
  gap s r pre post -> size r = n -> chosen s base n (address r) -> pageAligned r = true ->
  l = MkEntry r prot max None true true 0 ->
  r' = reported (anonymous_maps s) l post ->
  same_view (anonymous_maps s) (pre ++ l :: post) ms' es' ->
  space_ok (Space (space_range s) es' v ms') ->
  map_done s base n prot max r' (Space (space_range s) es' v ms').
Proof.
  intros Hg Hn Hch Hpa -> -> Hv Hok. pose proof Hg as (He & _ & _).
  assert (Hr : VRange (address r) n = r) by (destruct r; cbn in *; now subst).
  split; [done|]. rewrite !reported_address. cbn [range]. rewrite Hr. split; [done|]. split; [exact (gap_free _ _ _ _ Hg)|]. split; [done|]. split; [done|].
  assert (Ha : forall x i o, anon_at (pre ++ MkEntry r prot max None true true 0 :: post) x i o <-> anon_at (pre ++ post) x i o).
  { intros x i o. rewrite !anon_at_app, anon_at_cons. split; [|tauto].
    intros [H|[(off & _ & H & _)|H]]; [auto|done|auto]. }
  cbn [entries]. rewrite He. split; [|split; [|split]].
  - intros x t. rewrite (sv_mapped _ _ _ _ Hv), !mapped_app, mapped_cons. cbn [range]. unfold attributes. cbn.
    split; [intros [H|[[H <-]|H]]|intros [[H ->]|[H|H]]]; auto.
  - intros x i o H. now apply (sv_anon _ _ _ _ Hv), Ha.
  - intros x i o H. apply (sv_fresh _ _ _ _ Hv) in H as [H|H]; [|auto]. left. now apply Ha.
  - split; [|cbn [entries]; rewrite He; split].
    + intros i m'. apply chunks_follow; [apply Hv|apply Hv].
    + intros H. apply (sv_copies _ _ _ _ Hv). rewrite Forall_app in *. now rewrite Forall_cons.
    + split; [intros H; apply (sv_inj _ _ _ _ Hv); intros x y i o; rewrite !Ha; apply H|]. split; [apply Hv|].
      intros i. pose proof (sv_weight _ _ _ _ Hv i) as W. unfold weight in *. rewrite untouched_app, untouched_cons in W. cbn in W.
      rewrite untouched_app. cbn. lia.
Qed.

(** [map] either gives zero-filled memory at a free address, the first that fits
    unless the caller asked for one, and leaves every other mapping as it was; or
    it fails for the reason it reports. *)
Lemma map_ret alloc base n prot max s : space_ok s -> 0 <= n -> base_ok s base ->
  match map alloc base n prot max s with
  | Done (r, s') => map_done s base n prot (default prot max) r s' /\ map_reports s n prot (default prot max) r
  | Failed RequestedRangeUnavailable => unavailable s base n
  | Failed MapOutOfMemory => alloc = false
  | Failed e => refuses base n prot max e
  | Panic => 2 ^ 64 <= default (after (space_range s)) base + n \/
      exists i, 2 ^ 32 * page <= weight (anonymous_maps s) (entries s) i + n
  end.
Proof.
  intros Hs Hn Hb. unfold map.
  destruct (Z.eqb_spec n 0) as [|Hn0]; [done|]. destruct (aligned n) eqn:Han; cbn [negb]; [|done].
  destruct (match base with Some b => negb (aligned b) | None => false end) eqn:Eb.
  { destruct base as [b|]; [|done]. exists b. now apply negb_true_iff in Eb. }
  destruct (match max with Some m => bool_decide (m = no_protection) | None => false end) eqn:E0.
  { destruct max as [m|]; [|done]. apply bool_decide_eq_true in E0. now subst. }
  destruct (match max with Some m => exceeds prot m | None => false end) eqn:Ex.
  { destruct max as [m|]; [|done]. now exists m. }
  assert (Hal : match base with Some b => aligned b | None => true end = true).
  { destruct base; [now apply negb_false_iff in Eb|done]. }
  assert (Hex : exceeds prot (default prot max) = false) by (destruct max; [done|apply exceeds_refl]).
  pose proof (search_ret s base n Hs ltac:(lia) Hb Hal) as H.
  destruct (match base with Some b => findExactFreeRange s (VRange b n) | None => findFreeRange s n end)
    as [[[r i]|]| |]; unfold mbind, result_bind; [|done|done|auto].
  destruct H as (Hsz & Ha & Hch & pre & post & Hg & ->).
  pose proof (place_gap alloc s r pre post prot (default prot max) Hs Hg ltac:(lia) Ha ltac:(now rewrite Hsz) Hex) as Hp.
  cbv zeta in Hp. destruct (place _ _ _ _ _) as [[[r' es'] ms']|e|]; cbn; [|now destruct Hp as [-> ->]|].
  2: { right. now rewrite <- Hsz. }
  destruct Hp as (Hr & Hv & Hok).
  split.
  2: { exists pre, post. rewrite Hr, reported_address. cbn [range]. rewrite <- Hsz. now destruct r. }
  eapply map_done_view; [exact Hg|exact Hsz|exact Hch| |reflexivity|exact Hr|exact Hv|exact Hok].
  apply andb_true_intro. rewrite Hsz. done.
Qed.

(** ** unmap against its reference *)

(** What is left of an entry outside the range: the entry itself, one piece, two
    pieces or nothing. *)
Definition carve (r : VirtualRange) (e : Entry) : list Entry :=
  if anyOverlap (range e) r then
    (if address (range e) <? address r then [shrink end_ (address r - address (range e)) e] else []) ++
    (if after r <? after (range e) then [shrink beginning (after (range e) - after r) e] else [])
  else [e].

Definition intersection (r : VirtualRange) (e : Entry) : VirtualRange :=
  let a := Z.max (address r) (address (range e)) in
  VRange a (Z.min (after r) (after (range e)) - a).

Lemma anyOverlap_false q r : 0 < size q -> 0 < size r ->
  anyOverlap q r = false <-> after q <= address r \/ after r <= address q.
Proof. intros. unfold anyOverlap. rewrite andb_false_iff, !Z.ltb_ge. unfold after. lia. Qed.

Lemma anyOverlap_true q r : anyOverlap q r = true <-> address q < after r /\ address r < after q.
Proof. unfold anyOverlap. now rewrite andb_true_iff, !Z.ltb_lt. Qed.

Lemma shrink_end n e : shrink end_ n e = with_range (VRange (address (range e)) n) e.
Proof. done. Qed.

Lemma shrink_attributes d n e : attributes (shrink d n e) = attributes e.
Proof. destruct d; [|done]. cbn. now destruct (anonymous_map e) as [[i off]|]. Qed.

Lemma shrink_range n e :
  range (shrink beginning n e) = VRange (address (range e) + (size (range e) - n)) n.
Proof. cbn. now destruct (anonymous_map e) as [[i off]|]. Qed.

Lemma shrink_anon n e : anonymous_map (shrink beginning n e) =
  match anonymous_map e with Some (i, off) => Some (i, off + (size (range e) - n)) | None => None end.
Proof. unfold shrink. destruct (anonymous_map e) as [[i off]|] eqn:E; [done|exact E]. Qed.

Lemma shrink_copy_ok d n e : copy_ok e -> copy_ok (shrink d n e).
Proof.
  unfold copy_ok. destruct d; [|done]. rewrite shrink_anon. intros H.
  assert (Hn : needs_copy (shrink beginning n e) = needs_copy e) by (cbn; now destruct (anonymous_map e) as [[i off]|]).
  rewrite Hn, H. now destruct (anonymous_map e) as [[i off]|].
Qed.

Lemma shrink_uses j d n e : uses j (shrink d n e) = uses j e.
Proof. unfold uses. destruct d; [rewrite shrink_anon|done]. now destruct (anonymous_map e) as [[i off]|]. Qed.

(** The pieces of an entry before and after the range. *)
Lemma before_contains r e x : contains (range (shrink end_ (address r - address (range e)) e)) x <->
  address (range e) <= x < address r.
Proof. unfold contains, after. cbn. lia. Qed.

Lemma beyond_contains r e x : contains (range (shrink beginning (after (range e) - after r) e)) x <->
  after r <= x < after (range e).
Proof. rewrite shrink_range. unfold contains, after. cbn. lia. Qed.

Lemma before_anon r e x i o : address r < after (range e) ->
  anon_of (shrink end_ (address r - address (range e)) e) x i o <->
  anon_of e x i o /\ address (range e) <= x < address r.
Proof.
  intros Hr. unfold anon_of. setoid_rewrite before_contains. unfold contains. cbn.
  split; [intros (off & A & B & C)|intros [(off & A & B & C) D]]; [split; [exists off; intuition lia|lia]|now exists off].
Qed.

Lemma beyond_anon r e x i o : address (range e) < after r ->
  anon_of (shrink beginning (after (range e) - after r) e) x i o <->
  anon_of e x i o /\ after r <= x < after (range e).
Proof.
  intros Hr. unfold anon_of. setoid_rewrite beyond_contains. rewrite shrink_anon, shrink_range.
  unfold contains, after in *. cbn. destruct (anonymous_map e) as [[j off]|]; [|naive_solver].
  split; [intros (off' & A & [= -> <-] & C)|intros [(off' & A & [= -> ->] & C) D]].
  - split; [exists off; intuition lia|lia].
  - eexists. split; [exact D|]. split; [reflexivity|lia].
Qed.

(** A property of the address [x] of an entry that overlaps the range. *)
Lemma cut_cases (P : Prop) r e x (L B : bool) :
  address (range e) < after r -> address r < after (range e) -> 0 < size r ->
  (P -> contains (range e) x) ->
  L = (address (range e) <? address r) -> B = (after r <? after (range e)) ->
  ((if L then P /\ address (range e) <= x < address r else False) \/
   (if B then P /\ after r <= x < after (range e) else False)) <-> P /\ ~ contains r x.
Proof.
  intros H1 H2 Hr Hin -> ->. unfold contains in *. unfold after in *. split.
  - destruct (Z.ltb_spec (address (range e)) (address r)),
      (Z.ltb_spec (address r + size r) (address (range e) + size (range e))); intuition lia.
  - intros [HP HD]. specialize (Hin HP). assert (x < address r \/ address r + size r <= x) as [Hx|Hx] by lia.
    + left. destruct (Z.ltb_spec (address (range e)) (address r)); [split; [done|lia]|lia].
    + right. destruct (Z.ltb_spec (address r + size r) (address (range e) + size (range e))); [split; [done|lia]|lia].
Qed.

Lemma cut_mapped r e x t : 0 < size r -> 0 < size (range e) ->
  mapped (carve r e) x t <-> (contains (range e) x /\ attributes e = t) /\ ~ contains r x.
Proof.
  intros Hr He. unfold carve. pose proof (mapped_nil x t) as Hnil. destruct (anyOverlap (range e) r) eqn:Eo.
  - apply anyOverlap_true in Eo as [E1 E2]. rewrite mapped_app.
    rewrite <- (cut_cases _ r e x _ _ E1 E2 Hr (fun H => proj1 H) eq_refl eq_refl).
    unfold contains at 1 2. destruct (address (range e) <? address r), (after r <? after (range e));
      rewrite ?mapped_cons, ?shrink_attributes, ?before_contains, ?beyond_contains; intuition lia.
  - apply anyOverlap_false in Eo; [|done..]. rewrite mapped_cons.
    unfold contains, after in *. intuition lia.
Qed.

Lemma cut_anon r e x i o : 0 < size r -> 0 < size (range e) ->
  anon_at (carve r e) x i o <-> anon_of e x i o /\ ~ contains r x.
Proof.
  intros Hr He. unfold carve. pose proof (anon_at_nil x i o) as Hnil.
  assert (Hin : anon_of e x i o -> contains (range e) x) by (intros (off & H & _); exact H).
  destruct (anyOverlap (range e) r) eqn:Eo.
  - apply anyOverlap_true in Eo as [E1 E2]. rewrite anon_at_app.
    rewrite <- (cut_cases _ r e x _ _ E1 E2 Hr Hin eq_refl eq_refl).
    destruct (address (range e) <? address r), (after r <? after (range e));
      rewrite ?anon_at_cons, ?before_anon, ?beyond_anon by done; tauto.
  - apply anyOverlap_false in Eo; [|done..]. rewrite anon_at_cons. unfold contains, after in *.
    split; [intros [H|]; [|done]; split; [done|specialize (Hin H); lia]|tauto].
Qed.

Lemma cut_all_mapped r es x t : 0 < size r -> Forall (fun e => 0 < size (range e)) es ->
  mapped (es ≫= carve r) x t <-> mapped es x t /\ ~ contains r x.
Proof.
  intros Hr Hes. induction Hes as [|e es He _ IH]; cbn; [pose proof (mapped_nil x t); tauto|].
  rewrite mapped_app, mapped_cons, IH, cut_mapped by done. tauto.
Qed.

Lemma cut_all_anon r es x i o : 0 < size r -> Forall (fun e => 0 < size (range e)) es ->
  anon_at (es ≫= carve r) x i o <-> anon_at es x i o /\ ~ contains r x.
Proof.
  intros Hr Hes. induction Hes as [|e es He _ IH]; cbn; [pose proof (anon_at_nil x i o); tauto|].
  rewrite anon_at_app, anon_at_cons, IH, cut_anon by done. tauto.
Qed.

Lemma cut_chain r lo es hi : 0 < size r -> chain lo es hi -> chain lo (es ≫= carve r) hi.
Proof.
  intros Hr. revert lo. induction es as [|e es IH]; intros lo; cbn [chain]; [done|]. intros (H1 & H2 & H3).
  cbn. apply chain_app. exists (after (range e)). split; [|now apply IH].
  unfold carve. destruct (anyOverlap (range e) r) eqn:Eo; [|cbn [chain]; lia]. apply anyOverlap_true in Eo.
  destruct (Z.ltb_spec (address (range e)) (address r)), (Z.ltb_spec (after r) (after (range e)));
    cbn [app chain]; rewrite ?shrink_range, ?shrink_end; unfold after in *; cbn; lia.
Qed.

Lemma entry_ok_shrink ms ms' d n e :
  (forall i off, anonymous_map e = Some (i, off) -> is_Some (ms' !! i) /\ pages_of ms i <= pages_of ms' i) ->
  aligned n = true -> 0 < n -> n <= size (range e) -> entry_ok ms e -> entry_ok ms' (shrink d n e).
Proof.
  intros Hm Hn Hpos Hle (H1 & H2 & H3 & H4 & H5). unfold entry_ok.
  pose proof (shrink_attributes d n e) as Ha. injection Ha as -> -> _ _. destruct d.
  - rewrite shrink_range, shrink_anon. cbn. split; [apply aligned_add, aligned_sub; done|].
    split; [done|]. split; [done|]. split; [done|].
    destruct (anonymous_map e) as [[i off]|]; [|done]. destruct H5 as (A & B & C & D), (Hm i off eq_refl) as [E F].
    split; [lia|]. split; [apply aligned_add, aligned_sub; done|]. split; [done|]. unfold page in *. lia.
  - rewrite shrink_end. cbn. split; [done|]. split; [done|]. split; [done|]. split; [done|].
    destruct (anonymous_map e) as [[i off]|]; [|done]. destruct H5 as (A & B & C & D), (Hm i off eq_refl) as [E F].
    split; [lia|]. split; [done|]. split; [done|]. unfold page in *. lia.
Qed.

(** The maps that the remaining entries refer to are there, as they were. *)
Lemma counts_some ms es e i off : counts_ok ms es -> e ∈ es -> anonymous_map e = Some (i, off) -> is_Some (ms !! i).
Proof.
  intros Hc Hin Ha. specialize (Hc i). destruct (ms !! i); [eauto|exfalso].
  apply list_elem_of_split in Hin as (l1 & l2 & ->). rewrite total_uses_app, total_uses_cons in Hc.
  pose proof (total_uses_nonneg i l1). pose proof (total_uses_nonneg i l2).
  assert (uses i e = 1) by (unfold uses; now rewrite Ha, Nat.eqb_refl). lia.
Qed.

Lemma cut_anon_name r e e' i off : e' ∈ carve r e -> anonymous_map e = Some (i, off) -> exists off', anonymous_map e' = Some (i, off').
Proof.
  intros Hin Ha. unfold carve in Hin. destruct (anyOverlap _ _); [|apply list_elem_of_singleton in Hin; subst; eauto].
  apply elem_of_app in Hin as [H|H].
  - destruct (_ <? _); [|now apply not_elem_of_nil in H]. apply list_elem_of_singleton in H as ->. eauto.
  - destruct (_ <? _); [|now apply not_elem_of_nil in H]. apply list_elem_of_singleton in H as ->.
    rewrite shrink_anon, Ha. eauto.
Qed.

Lemma cut_entries_ok ms ms' r es : 0 < size r -> pageAligned r = true ->
  kept ms ms' ->
  counts_ok ms' (es ≫= carve r) -> Forall (entry_ok ms) es -> Forall (entry_ok ms') (es ≫= carve r).
Proof.
  intros Hr Hal Hp Hc Hok. apply andb_prop in Hal as [Ha1 Ha2]. apply Forall_forall. intros e' Hin'.
  pose proof Hin' as (e & He' & He)%list_elem_of_bind. rewrite Forall_forall in Hok. specialize (Hok _ He).
  assert (Hm : forall i off, anonymous_map e = Some (i, off) -> is_Some (ms' !! i) /\ pages_of ms i <= pages_of ms' i).
  { intros i off Ha. destruct (cut_anon_name _ _ _ _ _ He' Ha) as [off' Ha'].
    pose proof (counts_some _ _ _ _ _ Hc Hin' Ha') as Hs. destruct (Hp i Hs) as [-> _]. done. }
  pose proof Hok as (A & B & C & _). pose proof (aligned_add _ _ A B) as D. pose proof (aligned_add _ _ Ha1 Ha2) as E.
  unfold carve in He'. destruct (anyOverlap (range e) r) eqn:Eo.
  - apply anyOverlap_true in Eo. apply elem_of_app in He' as [H|H].
    + destruct (Z.ltb_spec (address (range e)) (address r)); [|now apply not_elem_of_nil in H].
      apply list_elem_of_singleton in H as ->. apply (entry_ok_shrink ms); [done|now apply aligned_sub|lia| |done].
      unfold after in *. lia.
    + destruct (Z.ltb_spec (after r) (after (range e))); [|now apply not_elem_of_nil in H].
      apply list_elem_of_singleton in H as ->. apply (entry_ok_shrink ms); [done|now apply aligned_sub|lia| |done].
      unfold after in *. lia.
  - apply list_elem_of_singleton in He' as ->. apply (entry_ok_maps ms); [|done]. intros i off H _. now apply (Hm i off).
Qed.

(** ** Removing entries *)

Lemma release_counts ms l1 e l2 :
  counts_ok ms (l1 ++ e :: l2) -> counts_ok (release e ms) (l1 ++ l2).
Proof.
  intros Hc j. specialize (Hc j). rewrite total_uses_app, total_uses_cons in Hc. rewrite total_uses_app.
  unfold release, uses in *. destruct (anonymous_map e) as [[i off]|]; [|destruct (ms !! j); lia].
  unfold decrementReferenceCount. destruct (ms !! i) as [m|] eqn:Em.
  - destruct (Z.eqb_spec (reference_count m) 1) as [H1|H1].
    + destruct (Nat.eqb_spec j i) as [->|Hne]; [rewrite lookup_delete_eq, Em in *; lia|].
      rewrite lookup_delete_ne by done. destruct (ms !! j); lia.
    + unfold add_references. rewrite lookup_alter.
      destruct (Nat.eqb_spec j i) as [->|Hne]; case_decide; try congruence; [rewrite Em in *; cbn; lia|].
      destruct (ms !! j); lia.
  - destruct (Nat.eqb_spec j i) as [->|Hne]; [rewrite Em in *|destruct (ms !! j); lia].
    pose proof (total_uses_nonneg i l1). pose proof (total_uses_nonneg i l2). lia.
Qed.

Lemma release_kept ms e : kept ms (release e ms).
Proof.
  intros i. unfold release. destruct (anonymous_map e) as [[j off]|]; [|done]. unfold decrementReferenceCount.
  destruct (ms !! j) as [m|] eqn:Em; [|done].
  destruct (_ =? _); [|intros _; split; [apply pages_add_references|apply chunks_add_references]].
  unfold pages_of, chunks_of. destruct (decide (i = j)) as [->|Hne].
  - rewrite lookup_delete_eq. now intros [? ?].
  - now rewrite lookup_delete_ne.
Qed.

Lemma release_some ms e i : is_Some (release e ms !! i) -> is_Some (ms !! i).
Proof.
  unfold release. destruct (anonymous_map e) as [[j off]|]; [|done]. unfold decrementReferenceCount.
  destruct (ms !! j) as [m|] eqn:Em; [|done]. destruct (decide (i = j)) as [->|Hne]; [rewrite Em; eauto|].
  destruct (_ =? _); [now rewrite lookup_delete_ne|]. unfold add_references. now rewrite lookup_alter_ne.
Qed.

Definition release_all (es : list Entry) (ms : maps) : maps := foldr release ms es.

Lemma release_all_kept es ms : kept ms (release_all es ms).
Proof.
  induction es as [|e es IH]; [done|]. intros i H. change (release_all (e :: es) ms) with (release e (release_all es ms)) in *.
  destruct (release_kept (release_all es ms) e i H) as [-> ->]. apply IH. eapply release_some, H.
Qed.

Lemma release_all_counts ms l1 es l2 : counts_ok ms (l1 ++ es ++ l2) -> counts_ok (release_all es ms) (l1 ++ l2).
Proof.
  revert l1. induction es as [|e es IH]; intros l1 H; [done|]. cbn. apply release_counts.
  specialize (IH (l1 ++ [e])). rewrite <- !app_assoc in IH. now apply IH.
Qed.

Lemma remove_entries_middle mid l1 l2 ms :
  remove_entries (length mid) (length l1) (l1 ++ mid ++ l2) ms = (l1 ++ l2, release_all mid ms).
Proof.
  revert l2 ms. induction mid as [|e mid IH] using rev_ind; intros l2 ms; [done|].
  rewrite length_app, Nat.add_1_r. cbn [remove_entries].
  rewrite <- app_assoc. cbn [app]. rewrite (app_assoc l1), <- length_app, list_lookup_middle by done.
  rewrite remove_at_middle, <- app_assoc, IH. unfold release_all. now rewrite foldr_app.
Qed.

(** Only the number of references matters to the counts. *)
Lemma counts_same ms es es' : (forall i, total_uses i es' = total_uses i es) -> counts_ok ms es -> counts_ok ms es'.
Proof. intros H Hc i. rewrite H. apply Hc. Qed.

Lemma update_middle f e l1 l2 : update_at (length l1) f (l1 ++ e :: l2) = l1 ++ f e :: l2.
Proof. induction l1 as [|x l1 IH]; [done|]. cbn. f_equal. exact IH. Qed.

(** The entry is within the range; the range starts or ends inside the entry. *)
Definition inner (r : VirtualRange) (e : Entry) : Prop := address r <= address (range e) /\ after (range e) <= after r.
Definition starts_in (r : VirtualRange) (e : Entry) : bool := address (range e) <? address r.
Definition ends_in (r : VirtualRange) (e : Entry) : bool := after r <? after (range e).

Lemma cut_overlap r e : anyOverlap (range e) r = true -> carve r e =
  (if starts_in r e then [shrink end_ (address r - address (range e)) e] else []) ++
  (if ends_in r e then [shrink beginning (after (range e) - after r) e] else []).
Proof. unfold carve. now intros ->. Qed.

Lemma cut_inner r es : Forall (fun e => anyOverlap (range e) r = true) es -> Forall (inner r) es -> es ≫= carve r = [].
Proof.
  intros Ho Hi. induction Hi as [|e es [H1 H2] _ IH]; [done|]. apply Forall_cons in Ho as [Ho1 Ho2].
  cbn. rewrite IH by done. rewrite cut_overlap by done. unfold starts_in, ends_in.
  destruct (Z.ltb_spec (address (range e)) (address r)); [lia|].
  destruct (Z.ltb_spec (after r) (after (range e))); [lia|done].
Qed.

(** The entries that overlap a range: all but the first and the last are within it. *)
Lemma overlap_inner r lo e1 mid e2 hi : chain lo (e1 :: mid ++ [e2]) hi ->
  anyOverlap (range e1) r = true -> anyOverlap (range e2) r = true ->
  Forall (inner r) mid /\ starts_in r e2 = false /\ ends_in r e1 = false.
Proof.
  cbn [chain]. intros (H1 & H2 & H3) Ho1 Ho2. apply anyOverlap_true in Ho1, Ho2.
  apply chain_app in H3 as (m & A & B). cbn [chain] in B. destruct B as (B1 & B2 & B3).
  pose proof (chain_le _ _ _ A) as Hle. split; [|unfold starts_in, ends_in; split; apply Z.ltb_ge; lia].
  apply Forall_forall. intros e He. apply (chain_bounds _ _ _ _ A) in He. unfold inner. lia.
Qed.

Lemma trim_entries pre F0 F mid R0 R post ms :
  (forall i, total_uses i F = total_uses i F0) -> (forall i, total_uses i R = total_uses i R0) ->
  exists ms', remove_entries (length mid) (length (pre ++ F)) ((pre ++ F) ++ mid ++ (R ++ post)) ms = (pre ++ (F ++ R) ++ post, ms') /\
    (counts_ok ms (pre ++ (F0 ++ mid ++ R0) ++ post) -> counts_ok ms' (pre ++ (F ++ R) ++ post)) /\
    kept ms ms'.
Proof.
  intros HF HR. exists (release_all mid ms). split; [rewrite remove_entries_middle; f_equal; now rewrite <- !app_assoc|].
  split; [|apply release_all_kept]. intros Hc.
  assert (Hc' : counts_ok ms ((pre ++ F) ++ mid ++ (R ++ post))).
  { eapply counts_same; [|exact Hc]. intros i. rewrite !total_uses_app, HF, HR. lia. }
  apply release_all_counts in Hc'. now rewrite <- !app_assoc in *.
Qed.

Lemma split_shrink ms e r :
  let '(first, second, ms') := split e (address r - address (range e)) ms in
  first = shrink end_ (address r - address (range e)) e /\
  shrink beginning (after (range second) - after r) second = shrink beginning (after (range e) - after r) e /\
  ms' = match anonymous_map e with Some (i, _) => add_references i 1 ms | None => ms end.
Proof.
  unfold split. destruct e as [[a n] p mp [[i off]|] cow nc w]; cbn; (split; [done|]; split; [|done]);
    unfold with_range, with_anon, after; cbn; repeat (f_equal; try lia).
Qed.

(** The entries that overlap the range, as [performUnmap] takes them: a first one
    that keeps its start, a last one that keeps its end, and those in between. *)
Record trims (r : VirtualRange) (mid : list Entry) (so eo : bool) (F M R : list Entry) : Prop := {
  tr_mid : mid = F ++ M ++ R;
  tr_first : if so then exists e, F = [e] /\ starts_in r e = true /\ ends_in r e = false else F = [];
  tr_last : if eo then exists e, R = [e] /\ starts_in r e = false /\ ends_in r e = true else R = [];
  tr_inner : Forall (inner r) M;
  tr_overlap : Forall (fun e => anyOverlap (range e) r = true) mid
}.

Definition keep_start (r : VirtualRange) (e : Entry) : Entry := shrink end_ (address r - address (range e)) e.
Definition keep_end (r : VirtualRange) (e : Entry) : Entry := shrink beginning (after (range e) - after r) e.

Lemma trims_cut r mid so eo F M R : trims r mid so eo F M R ->
  mid ≫= carve r = (keep_start r <$> F) ++ (keep_end r <$> R).
Proof.
  intros [-> HF HR HM Ho]. apply Forall_app in Ho as [Ho1 Ho]. apply Forall_app in Ho as [Ho2 Ho3].
  rewrite !bind_app, (cut_inner r M) by done. cbn [app].
  f_equal; [destruct so|destruct eo]; subst; try done.
  - destruct HF as (e & -> & A & B). apply Forall_cons in Ho1 as [Ho1 _]. cbn. rewrite cut_overlap, A, B by done. done.
  - destruct HR as (e & -> & A & B). apply Forall_cons in Ho3 as [Ho3 _]. cbn. rewrite cut_overlap, A, B by done. done.
Qed.

Lemma trim_last r (eo : bool) M R pre post ms :
  (if eo then exists e, R = [e] /\ starts_in r e = false /\ ends_in r e = true else R = []) ->
  (let '(es, n) :=
     if eo then
       (update_at (length pre + length (M ++ R) - 1)%nat (fun e => shrink beginning (after (range e) - after r) e)
          (pre ++ (M ++ R) ++ post), (length (M ++ R) - 1)%nat)
     else (pre ++ (M ++ R) ++ post, length (M ++ R)) in
   remove_entries n (length pre) es ms) =
  remove_entries (length M) (length pre) (pre ++ M ++ ((keep_end r <$> R) ++ post)) ms.
Proof.
  destruct eo; [intros (e & -> & _)|intros ->].
  - rewrite <- app_assoc. cbn [app fmap list_fmap]. rewrite app_assoc.
    replace (length pre + length (M ++ [e]) - 1)%nat with (length (pre ++ M)) by (rewrite !length_app; cbn; lia).
    rewrite update_middle. replace (length (M ++ [e]) - 1)%nat with (length M) by (rewrite !length_app; cbn; lia).
    now rewrite <- app_assoc.
  - now rewrite app_nil_r.
Qed.

Lemma performUnmap_trims r mid so eo F M R pre post ms : trims r mid so eo F M R ->
  performUnmap (ERange (length pre) (length mid) so eo) r (pre ++ mid ++ post) ms =
  remove_entries (length M) (length (pre ++ (keep_start r <$> F)))
    ((pre ++ (keep_start r <$> F)) ++ M ++ ((keep_end r <$> R) ++ post)) ms.
Proof.
  intros [-> HF HR _ _]. unfold performUnmap, isWithinSingleEntry. cbn [start length_ start_overlap end_overlap].
  replace (_ && so && eo) with false.
  2: { destruct so, eo; [|now rewrite ?andb_false_r..]. destruct HF as (e & -> & _), HR as (e' & -> & _).
       rewrite !length_app. cbn. now replace (length M + 1)%nat with (S (length M)) by lia. }
  rewrite <- (trim_last r eo M R (pre ++ (keep_start r <$> F)) post ms HR).
  destruct so; [destruct HF as (e & -> & _)|subst F]; cbn [fmap list_fmap app].
  - rewrite update_middle. fold (keep_start r e).
    replace (length (e :: M ++ R) - 1)%nat with (length (M ++ R)) by (cbn; lia).
    replace (S (length pre)) with (length (pre ++ [keep_start r e])) by (rewrite length_app; cbn; lia).
    now replace (pre ++ keep_start r e :: (M ++ R) ++ post) with ((pre ++ [keep_start r e]) ++ (M ++ R) ++ post)
      by now rewrite <- app_assoc.
  - now rewrite app_nil_r.
Qed.

Lemma total_uses_fmap i f es : (forall e, uses i (f e) = uses i e) -> total_uses i (f <$> es) = total_uses i es.
Proof. intros H. induction es as [|e es IH]; [done|]. cbn [fmap list_fmap]. now rewrite !total_uses_cons, H, <- IH. Qed.

(** What [performUnmap] leaves. *)
Definition unmapped_to (r : VirtualRange) (pre mid post : list Entry) (ms : maps) (res : list Entry * maps) : Prop :=
  fst res = pre ++ (mid ≫= carve r) ++ post /\
  (counts_ok ms (pre ++ mid ++ post) -> counts_ok (snd res) (fst res)) /\
  kept ms (snd res).

Lemma trims_unmapped r mid so eo F M R pre post ms : trims r mid so eo F M R ->
  unmapped_to r pre mid post ms (performUnmap (ERange (length pre) (length mid) so eo) r (pre ++ mid ++ post) ms).
Proof.
  intros Ht. rewrite (performUnmap_trims _ _ _ _ _ _ _ _ _ _ Ht). unfold unmapped_to. rewrite (trims_cut _ _ _ _ _ _ _ Ht).
  destruct (trim_entries pre F (keep_start r <$> F) M R (keep_end r <$> R) post ms) as (ms' & -> & Hc & Hp).
  - intros i. apply total_uses_fmap. intros e. apply shrink_uses.
  - intros i. apply total_uses_fmap. intros e. apply shrink_uses.
  - cbn [fst snd]. rewrite (tr_mid _ _ _ _ _ _ _ Ht). auto.
Qed.

Lemma single_unmapped r e pre post ms :
  anyOverlap (range e) r = true -> starts_in r e = true -> ends_in r e = true ->
  is_Some (match anonymous_map e with Some (i, _) => ms !! i | None => Some (Anon 0 0 0 ∅) end) ->
  unmapped_to r pre [e] post ms (performUnmap (ERange (length pre) 1 true true) r (pre ++ [e] ++ post) ms).
Proof.
  intros Ho Hs He Hm. unfold performUnmap. cbn [isWithinSingleEntry length_ start_overlap end_overlap start Nat.eqb andb app].
  rewrite list_lookup_middle by done. pose proof (split_shrink ms e r) as H.
  destruct (split e _ ms) as [[f s] ms']. destruct H as (-> & -> & ->). rewrite insert_middle.
  fold (keep_start r e) (keep_end r e). unfold unmapped_to. cbn [fst snd].
  replace (insert_at _ _ _) with (pre ++ [keep_start r e; keep_end r e] ++ post).
  2: { replace (pre ++ keep_start r e :: post) with ((pre ++ [keep_start r e]) ++ post) by now rewrite <- app_assoc.
       replace (S (length pre)) with (length (pre ++ [keep_start r e])) by (rewrite length_app; cbn; lia).
       now rewrite insert_at_middle, <- app_assoc. }
  split; [cbn; now rewrite cut_overlap, Hs, He, app_nil_r by done|].
  assert (Hu : forall j, total_uses j (pre ++ [keep_start r e; keep_end r e] ++ post) =
    total_uses j (pre ++ e :: post) + uses j e).
  { intros j. rewrite !total_uses_app, !total_uses_cons. unfold keep_start, keep_end. rewrite !shrink_uses.
    change (total_uses j []) with 0. lia. }
  destruct (anonymous_map e) as [[i off]|] eqn:Ea.
  - split; [|intros j _; split; [apply pages_add_references|apply chunks_add_references]]. intros Hc.
    apply (counts_shift ms (pre ++ e :: post) _ _ i 1); [done|done| | |done].
    + intros j. rewrite Hu. unfold uses. rewrite Ea, Nat.eqb_sym. done.
    + rewrite Hu, total_uses_app, total_uses_cons. unfold uses. rewrite Ea, Nat.eqb_refl.
      pose proof (total_uses_nonneg i pre). pose proof (total_uses_nonneg i post). lia.
  - split; [|done]. apply counts_same. intros j. rewrite Hu. unfold uses. rewrite Ea. now rewrite Z.add_0_r.
Qed.

Lemma trims_exist r mid lo hi : chain lo mid hi -> Forall (fun e => anyOverlap (range e) r = true) mid ->
  let so := match mid with e :: _ => starts_in r e | [] => false end in
  let eo := match last mid with Some e => ends_in r e | None => false end in
  (exists F M R, trims r mid so eo F M R) \/ (exists e, mid = [e] /\ starts_in r e = true /\ ends_in r e = true).
Proof.
  intros Hch Ho. destruct mid as [|e1 mid]; [left; exists [], [], []; now split|].
  destruct mid as [|e2 mid _] using rev_ind; cbn zeta.
  - cbn [last]. destruct (starts_in r e1) eqn:Es, (ends_in r e1) eqn:Ee; [right; eauto|left..].
    + exists [e1], [], []. split; eauto.
    + exists [], [], [e1]. split; eauto.
    + exists [], [e1], []. split; [done..| |done]. constructor; [|done]. unfold starts_in, ends_in, inner in *. lia.
  - left. change (e1 :: mid ++ [e2]) with ((e1 :: mid) ++ [e2]) at 2. rewrite last_snoc.
    pose proof Ho as Ho'. apply Forall_cons in Ho' as [Ho1 Ho']. apply Forall_app in Ho' as [_ Ho2].
    apply Forall_cons in Ho2 as [Ho2 _]. destruct (overlap_inner _ _ _ _ _ _ Hch Ho1 Ho2) as (Hi & Hs & He).
    exists (if starts_in r e1 then [e1] else []),
      ((if starts_in r e1 then [] else [e1]) ++ mid ++ (if ends_in r e2 then [] else [e2])),
      (if ends_in r e2 then [e2] else []).
    split; [..|done].
    + destruct (starts_in r e1), (ends_in r e2); cbn; now rewrite <- ?app_assoc, ?app_nil_r.
    + destruct (starts_in r e1) eqn:?; eauto.
    + destruct (ends_in r e2) eqn:?; eauto.
    + apply Forall_app. split; [|apply Forall_app; split; [done|]].
      * destruct (starts_in r e1) eqn:E; constructor; [|done]. unfold starts_in, ends_in, inner in *. lia.
      * destruct (ends_in r e2) eqn:E; constructor; [|done]. unfold starts_in, ends_in, inner in *. lia.
Qed.

(** ** The entries of a range *)

Lemma overlapping_spec es r lo hi : chain lo es hi -> 0 < size r -> Forall (fun e => address r < after (range e)) es ->
  exists mid post, es = mid ++ post /\ overlapping es r = length mid /\
    Forall (fun e => anyOverlap (range e) r = true) mid /\ Forall (fun e => after r <= address (range e)) post.
Proof.
  intros Hch Hr Ha. revert lo Hch. induction Ha as [|e es Ha _ IH]; intros lo Hch; [now exists [], []|].
  destruct Hch as (H1 & H2 & H3). cbn [overlapping]. destruct (anyOverlap (range e) r) eqn:Eo.
  - destruct (IH _ H3) as (mid & post & -> & -> & A & B). exists (e :: mid), post. auto.
  - exists [], (e :: es). split; [done|]. split; [done|]. split; [done|].
    apply anyOverlap_false in Eo; [|done..]. constructor; [lia|]. apply Forall_forall. intros e' He'.
    apply (chain_bounds _ _ _ _ H3) in He'. unfold after in *. lia.
Qed.

(** The entries before, inside and after the range. *)
Record window (s : AddressSpace) (r : VirtualRange) (pre mid post : list Entry) : Prop := {
  w_entries : entries s = pre ++ mid ++ post;
  w_start : lowerBound (entries s) (address r) = length pre;
  w_length : overlapping (mid ++ post) r = length mid;
  w_before : Forall (fun e => after (range e) <= address r) pre;
  w_inside : Forall (fun e => anyOverlap (range e) r = true) mid;
  w_beyond : Forall (fun e => after r <= address (range e)) post
}.

Lemma window_exists s r : space_ok s -> 0 <= address r -> 0 < size r -> exists pre mid post, window s r pre mid post.
Proof.
  intros (H1 & H2 & H3 & H4 & _) Ha Hr. apply (chain_lo _ 0) in H4; [|done].
  destruct (lowerBound_spec _ _ _ _ H4 Ha) as (pre & rest & He & Hl & A & B).
  assert (HF : Forall (fun e => address r < after (range e)) rest).
  { destruct rest as [|e rest]; [done|]. destruct B as [B1 B2]. constructor; [done|]. cbn [chain] in B2.
    apply Forall_forall. intros e' He'. destruct B2 as (_ & _ & B2).
    apply (chain_bounds _ _ _ _ B2) in He'. unfold after in *. lia. }
  assert (exists lo hi, chain lo rest hi) as (lo & hi & Hch).
  { destruct rest; [now exists 0, 0|]. destruct B. eauto. }
  destruct (overlapping_spec _ _ _ _ Hch Hr HF) as (mid & post & -> & Ho & C & D).
  exists pre, mid, post. split; [done..| |done|done]. apply Forall_forall. intros e He'.
  now apply (chain_bounds _ _ _ _ A) in He'.
Qed.

Lemma cut_outside r es : Forall (fun e => anyOverlap (range e) r = false) es -> es ≫= carve r = es.
Proof. induction 1 as [|e es H _ IH]; [done|]. cbn. rewrite IH. unfold carve. now rewrite H. Qed.

Lemma window_cut s r pre mid post : space_ok s -> 0 < size r -> window s r pre mid post ->
  entries s ≫= carve r = pre ++ (mid ≫= carve r) ++ post.
Proof.
  intros (_ & _ & _ & _ & Hok & _) Hr [He _ _ Hb _ Hp]. rewrite He in *. rewrite !bind_app.
  apply Forall_app in Hok as [O1 Hok]. apply Forall_app in Hok as [_ O2].
  rewrite (cut_outside r pre), (cut_outside r post); [done|..].
  - apply Forall_forall. intros e Hin. rewrite Forall_forall in O2, Hp. destruct (O2 e Hin) as (_ & _ & Hs & _).
    apply anyOverlap_false; [done|done|]. auto.
  - apply Forall_forall. intros e Hin. rewrite Forall_forall in O1, Hb. destruct (O1 e Hin) as (_ & _ & Hs & _).
    apply anyOverlap_false; [done|done|]. auto.
Qed.

Definition first_flag (r : VirtualRange) (mid : list Entry) : bool :=
  match mid with e :: _ => starts_in r e | [] => false end.
Definition last_flag (r : VirtualRange) (mid : list Entry) : bool :=
  match last mid with Some e => ends_in r e | None => false end.

(** A range with entries above it and none in it: a debug build asserts that there
    is one, and without one below it the index of the last entry underflows. *)
Definition in_hole (debug : bool) (pre mid post : list Entry) : Prop :=
  mid = [] /\ post <> [] /\ (debug = true \/ pre = []).

Lemma lookup_last {A} (l1 l2 : list A) x k : last l1 = Some x -> length l1 = S k -> (l1 ++ l2) !! k = Some x.
Proof.
  intros Hl Hk. apply lookup_app_l_Some. rewrite last_lookup, Hk in Hl. exact Hl.
Qed.

Lemma entryRange_ret {E} debug s r pre mid post : window s r pre mid post -> 0 < size r ->
  match @entryRange E debug s r with
  | Done None => mid = [] /\ post = []
  | Done (Some er) => er = ERange (length pre) (length mid) (first_flag r mid) (last_flag r mid)
  | Failed _ => False
  | Panic => 2 ^ 64 <= after r \/ in_hole debug pre mid post
  end.
Proof.
  intros [He Hs Hl Hb Hi Hp] Hr. unfold entryRange. rewrite Hs, He, lookup_length, drop_app_length, Hl.
  destruct (head (mid ++ post)) as [f|] eqn:Ef; [|now apply head_None, app_nil in Ef].
  unfold after_checked. destruct (Z.ltb_spec (after r) (2 ^ 64)); cbn; [|now left].
  rewrite <- length_app. rewrite app_assoc. destruct mid as [|e1 mid].
  - rewrite app_nil_r in *. cbn [length Nat.eqb app] in *. rewrite andb_true_r.
    assert (post <> []) by now destruct post.
    destruct debug; [right; split; auto|]. destruct pre as [|p pre _] using rev_ind; [right; split; auto|].
    replace (length (pre ++ [p])) with (S (length pre)) by (rewrite length_app; cbn; lia).
    rewrite (lookup_last (pre ++ [p]) post p) by (rewrite ?last_snoc, ?length_app; cbn; lia || done). cbn.
    do 2 f_equal. f_equal.
    + destruct post as [|q post]; [done|]. injection Ef as ->. apply Forall_cons in Hp as [Hp _].
      apply Z.ltb_ge. unfold after in *. lia.
    + apply Forall_app in Hb as [_ Hb]. apply Forall_cons in Hb as [Hb _]. apply Z.ltb_ge. unfold after in *. lia.
  - replace (debug && Nat.eqb (length (e1 :: mid)) 0) with false by now rewrite andb_false_r.
    replace (length (pre ++ e1 :: mid)) with (S (length (pre ++ mid))) by (rewrite !length_app; cbn; lia).
    destruct (last (e1 :: mid)) as [x|] eqn:El; [|now apply last_None in El].
    rewrite (lookup_last (pre ++ e1 :: mid) post x).
    + cbn. injection Ef as <-. unfold last_flag. rewrite El. done.
    + rewrite last_app, El. done.
    + rewrite !length_app. cbn. lia.
Qed.

(** ** The page table *)

Lemma page_table_spec r es lo hi first so : 0 < size r -> chain lo es hi ->
  Forall (fun e => anyOverlap (range e) r = true) es ->
  (if first : bool then so = first_flag r es else Forall (fun e => starts_in r e = false) es) ->
  page_table_ranges es r first so (last_flag r es) = intersection r <$> es.
Proof.
  intros Hr Hch Ho. revert lo first Hch. induction Ho as [|e es Ho Hos IH]; intros lo first Hch Hf; [done|].
  cbn [page_table_ranges fmap list_fmap]. destruct Hch as (H1 & H2 & H3).
  assert (Hrest : Forall (fun e => starts_in r e = false) es).
  { apply anyOverlap_true in Ho. apply Forall_forall. intros e' He'. apply (chain_bounds _ _ _ _ H3) in He'.
    unfold starts_in. lia. }
  assert (Hlast : es <> [] -> last_flag r (e :: es) = last_flag r es) by now destruct es.
  f_equal.
  - replace (first && so) with (starts_in r e).
    2: { destruct first; [now subst|]. now apply Forall_cons in Hf as [-> _]. }
    replace (_ && last_flag r (e :: es)) with (ends_in r e).
    2: { destruct es as [|e2 es]; [done|]. cbn. apply Forall_cons in Hos as [Ho2 _]. cbn [chain] in H3.
         apply anyOverlap_true in Ho2. unfold ends_in. lia. }
    apply anyOverlap_true in Ho. unfold intersection, starts_in, ends_in.
    destruct (Z.ltb_spec (address (range e)) (address r)), (Z.ltb_spec (after r) (after (range e)));
      destruct (range e) as [a n], r as [b m]; unfold after in *; cbn in *; f_equal; lia.
  - destruct es as [|e2 es]; [done|]. rewrite Hlast by done. now apply (IH (after (range e)) false).
Qed.

(** The removed ranges are exactly the mapped addresses of the range. *)
Lemma intersection_contains r e x : contains (intersection r e) x <-> contains r x /\ contains (range e) x.
Proof. unfold intersection, contains, after. cbn. lia. Qed.

Lemma removed_spec s r pre mid post x : window s r pre mid post ->
  (exists q, q ∈ intersection r <$> mid /\ contains q x) <-> contains r x /\ exists t, mapped (entries s) x t.
Proof.
  intros [He _ _ Hb _ Hp]. rewrite He. split.
  - intros (q & Hq & Hx). apply list_elem_of_fmap in Hq as (e & -> & Hin). apply intersection_contains in Hx as [H1 H2].
    split; [done|]. exists (attributes e), e. rewrite !elem_of_app. auto.
  - intros (Hr & t & e & Hin & Hx & _). rewrite Forall_forall in Hb, Hp.
    rewrite !elem_of_app in Hin. unfold contains in *.
    destruct Hin as [Hin|[Hin|Hin]]; [specialize (Hb e Hin); lia| |specialize (Hp e Hin); lia].
    exists (intersection r e). split; [now apply list_elem_of_fmap_2|]. now apply intersection_contains.
Qed.

(** ** unmap *)

(** Ranges of whole pages in ascending order, between [lo] and [hi]. *)
Fixpoint ranges_in (lo : Z) (l : list VirtualRange) (hi : Z) : Prop :=
  match l with
  | [] => True
  | q :: l' => lo <= address q /\ 0 < size q /\ pageAligned q = true /\ after q <= hi /\ ranges_in (after q) l' hi
  end.

Lemma ranges_lo lo lo' l hi : lo' <= lo -> ranges_in lo l hi -> ranges_in lo' l hi.
Proof. destruct l; [done|]. cbn. intros H (H1 & H2). split; [lia|done]. Qed.

Lemma intersection_aligned r e : pageAligned r = true -> aligned (address (range e)) = true -> aligned (size (range e)) = true ->
  pageAligned (intersection r e) = true.
Proof.
  intros [H1 H2]%andb_prop H3 H4. unfold pageAligned, intersection. cbn.
  assert (A1 : aligned (Z.max (address r) (address (range e))) = true) by (destruct (Z.max_spec (address r) (address (range e))) as [[_ ->]|[_ ->]]; done).
  rewrite A1. apply aligned_sub; [|done]. unfold after.
  destruct (Z.min_spec (address r + size r) (address (range e) + size (range e))) as [[_ ->]|[_ ->]]; now apply aligned_add.
Qed.

Lemma intersection_ranges ms r es : forall lo hi, 0 < size r -> pageAligned r = true -> chain lo es hi -> Forall (entry_ok ms) es ->
  Forall (fun e => anyOverlap (range e) r = true) es -> ranges_in (Z.max (address r) lo) (intersection r <$> es) (after r).
Proof.
  induction es as [|e es IH]; intros lo hi H0 Hr Hc Hok Ho; [done|]. cbn [chain] in Hc. destruct Hc as (C1 & C2 & C3).
  apply Forall_cons in Hok as [(E1 & E2 & _) Hok]. apply Forall_cons in Ho as [O1 Ho]. apply anyOverlap_true in O1.
  specialize (IH _ _ H0 Hr C3 Hok Ho). change (intersection r <$> e :: es) with (intersection r e :: (intersection r <$> es)).
  cbn [ranges_in]. split; [cbn; lia|]. split; [unfold after in *; cbn; unfold after; lia|]. split; [now apply intersection_aligned|].
  split; [unfold after; cbn; unfold after; lia|]. eapply ranges_lo; [|exact IH]. unfold after; cbn; unfold after in *; lia.
Qed.

Lemma window_ranges s r pre mid post : space_ok s -> 0 < size r -> pageAligned r = true -> window s r pre mid post ->
  ranges_in (address r) (intersection r <$> mid) (after r).
Proof.
  intros (_ & _ & _ & H4 & H5 & _) H0 Hr [He _ _ _ Hi _]. rewrite He in H4, H5.
  apply chain_app in H4 as (m1 & _ & H4). apply chain_app in H4 as (m2 & H4 & _).
  apply Forall_app in H5 as [_ H5]. apply Forall_app in H5 as [H5 _].
  eapply ranges_lo; [|exact (intersection_ranges _ r mid m1 m2 H0 Hr H4 H5 Hi)]. lia.
Qed.

Definition unmap_done (s : AddressSpace) (r : VirtualRange) (s' : AddressSpace) (removed : list VirtualRange) : Prop :=
  space_ok s' /\ space_range s' = space_range s /\
  (forall x t, mapped (entries s') x t <-> mapped (entries s) x t /\ ~ contains r x) /\
  (forall x i o, anon_at (entries s') x i o <-> anon_at (entries s) x i o /\ ~ contains r x) /\
  (forall x, (exists q, q ∈ removed /\ contains q x) <-> contains r x /\ exists t, mapped (entries s) x t) /\
  ranges_in (address r) removed (after r) /\
  maps_follow 0 s s'.

Lemma carve_copy_ok r es : Forall copy_ok es -> Forall copy_ok (es ≫= carve r).
Proof.
  intros H. induction H as [|e es He _ IH]; [done|]. cbn. apply Forall_app. split; [|done]. unfold carve.
  destruct (anyOverlap _ _); [|now constructor]. apply Forall_app.
  split; destruct (_ <? _); constructor; auto using shrink_copy_ok.
Qed.

Lemma pages_nonneg ms es i : Forall (entry_ok ms) es -> counts_ok ms es -> 0 <= pages_of ms i.
Proof.
  intros Hok Hc. specialize (Hc i). unfold pages_of. destruct (ms !! i) as [m|] eqn:Em; [|done].
  assert (Hu : exists e off, e ∈ es /\ anonymous_map e = Some (i, off)).
  { destruct Hc as [Hc H0]. rewrite Hc in H0. clear Hc Hok. induction es as [|e es IH]; [done|]. rewrite total_uses_cons in H0.
    unfold uses in H0. destruct (anonymous_map e) as [[j off]|] eqn:Ee.
    - destruct (Nat.eqb_spec i j) as [->|]; [exists e, off; split; [now left|done]|]. destruct (IH H0) as (e' & off' & H1 & H2). exists e', off'. split; [now right|done].
    - destruct (IH H0) as (e' & off' & H1 & H2). exists e', off'. split; [now right|done]. }
  destruct Hu as (e & off & Hin & He). rewrite Forall_forall in Hok. destruct (Hok e Hin) as (_ & _ & H0 & _ & H). rewrite He in H.
  destruct H as (H1 & _ & _ & H2). unfold pages_of in H2. rewrite Em in H2. unfold page in H2. lia.
Qed.

Lemma carve_untouched r es : Forall (fun e => 0 < size (range e)) es -> 0 < size r -> untouched (es ≫= carve r) <= untouched es.
Proof.
  intros H Hr. induction H as [|e es He _ IH]; [done|].
  change ((e :: es) ≫= carve r) with (carve r e ++ (es ≫= carve r)). rewrite untouched_app, untouched_cons.
  enough (untouched (carve r e) <= untouched_size e) by lia. unfold carve. destruct (anyOverlap _ _) eqn:Eo.
  - apply anyOverlap_true in Eo. rewrite untouched_app. unfold untouched, untouched_size, shrink, after in *.
    destruct (Z.ltb_spec (address (range e)) (address r)), (Z.ltb_spec (address r + size r) (address (range e) + size (range e))); cbn;
      destruct (anonymous_map e) as [[i off]|] eqn:Em; cbn; rewrite ?Em; lia.
  - unfold untouched. cbn. lia.
Qed.

Lemma unmap_done_cut s r v ms pre mid post :
  space_ok s -> 0 < size r -> pageAligned r = true -> window s r pre mid post ->
  counts_ok ms (entries s ≫= carve r) ->
  kept (anonymous_maps s) ms ->
  unmap_done s r (Space (space_range s) (entries s ≫= carve r) v ms) (intersection r <$> mid).
Proof.
  intros (H1 & H2 & H3 & H4 & H5 & H6) Hr Hal Hw Hc Hp.
  assert (Hpos : Forall (fun e => 0 < size (range e)) (entries s)).
  { eapply Forall_impl; [exact H5|]. now intros e (_ & _ & H & _). }
  split.
  { split; [done|]. split; [done|]. split; [done|]. split; [now apply cut_chain|]. split; [|done].
    now apply (cut_entries_ok (anonymous_maps s)). }
  split; [done|]. split; [intros; now apply cut_all_mapped|].
  split; [intros; now apply cut_all_anon|]. split; [intros x; now apply (removed_spec s r pre mid post)|].
  split; [now apply (window_ranges s r pre mid post)|]. split; [|split; [apply carve_copy_ok|]].
  - intros i m' Hm. destruct (Hp i ltac:(eauto)) as [Hpg Hck]. apply (chunks_follow _ ms); [done|lia|done].
  - split; [intros Hinj x y i o Hx Hy; apply cut_all_anon in Hx as [Hx _], Hy as [Hy _]; [|done..]; now apply (Hinj x y i o)|].
    split.
    + intros Hf i. destruct (ms !! i) as [m|] eqn:Em; [destruct (Hp i ltac:(eauto)) as [Hpg _]; cbn; rewrite Hpg; apply Hf|].
      unfold pages_of. cbn. now rewrite Em.
    + intros i. pose proof (carve_untouched r (entries s) Hpos Hr). unfold weight. cbn [anonymous_maps entries].
      enough (pages_of ms i <= pages_of (anonymous_maps s) i) by (unfold page; lia).
      destruct (ms !! i) as [m|] eqn:Em; [destruct (Hp i ltac:(eauto)) as [-> _]; lia|]. unfold pages_of at 1. rewrite Em.
      apply (pages_nonneg _ (entries s)); done.
Qed.

Lemma performUnmap_ret s r pre mid post : space_ok s -> 0 < size r -> window s r pre mid post ->
  unmapped_to r pre mid post (anonymous_maps s)
    (performUnmap (ERange (length pre) (length mid) (first_flag r mid) (last_flag r mid)) r (entries s) (anonymous_maps s)).
Proof.
  intros (_ & _ & _ & H4 & H5 & _) Hr [He _ _ _ Hi _]. rewrite He in *.
  apply chain_app in H4 as (m1 & _ & H4). apply chain_app in H4 as (m2 & H4 & _).
  destruct (trims_exist r mid _ _ H4 Hi) as [(F & M & R & Ht)|(e & -> & Hs & Hn)].
  - eapply trims_unmapped. exact Ht.
  - cbn [first_flag length]. unfold last_flag. cbn [last]. rewrite Hs, Hn.
    apply Forall_cons in Hi as [Hi _]. apply single_unmapped; [done..|].
    apply Forall_app in H5 as [_ H5]. apply Forall_app in H5 as [H5 _]. apply Forall_cons in H5 as [(_ & _ & _ & _ & H5) _].
    destruct (anonymous_map e) as [[i off]|]; [apply H5|eauto].
Qed.

(** The range has no entry, there is one above it, and the build checks the
    assertion or there is no entry below it. *)
Definition hole_panics (debug : bool) (s : AddressSpace) (r : VirtualRange) : Prop :=
  clear (entries s) r /\ (exists e, e ∈ entries s /\ after r <= address (range e)) /\
  (debug = true \/ forall e, e ∈ entries s -> after r <= address (range e)).

Lemma in_hole_panics debug s r pre mid post : window s r pre mid post -> 0 < size r ->
  Forall (fun e => 0 < size (range e)) (entries s) ->
  in_hole debug pre mid post <-> hole_panics debug s r.
Proof.
  intros [He _ _ Hb Hi Hp] Hr Hpos. unfold hole_panics, clear. rewrite He in *. rewrite !Forall_app in Hpos.
  destruct Hpos as (P1 & P2 & P3). rewrite Forall_forall in Hb, Hi, Hp, P1, P2, P3. split.
  - intros (-> & Hpost & Hd). cbn [app]. split; [|split].
    + intros e. rewrite elem_of_app. intros [H|H]; auto.
    + destruct post as [|e post]; [done|]. exists e. rewrite elem_of_app, elem_of_cons. split; [auto|].
      apply Hp. rewrite elem_of_cons. auto.
    + destruct Hd as [Hd| ->]; auto.
  - intros (Hc & (e & Hin & Ha) & Hd).
    assert (Hmid : mid = []).
    { destruct mid as [|e' mid]; [done|]. assert (e' ∈ e' :: mid) as H' by (rewrite elem_of_cons; auto).
      specialize (Hc e' ltac:(rewrite !elem_of_app; auto)). specialize (Hi e' H'). apply anyOverlap_true in Hi. lia. }
    subst mid. cbn [app] in *. split; [done|]. split.
    + intros ->. rewrite app_nil_r in Hin. specialize (Hb e Hin). specialize (P1 e Hin). unfold after in *. lia.
    + destruct Hd as [Hd|Hd]; [auto|]. right. destruct pre as [|p pre]; [done|].
      assert (p ∈ p :: pre) as H' by (rewrite elem_of_cons; auto).
      specialize (Hd p ltac:(rewrite elem_of_app; auto)). specialize (Hb p H'). specialize (P1 p H'). unfold after in *. lia.
Qed.

Lemma entries_positive s : space_ok s -> Forall (fun e => 0 < size (range e)) (entries s).
Proof. intros (_ & _ & _ & _ & H & _). eapply Forall_impl; [exact H|]. now intros e (_ & _ & H0 & _). Qed.

Lemma rangeIterator_ret s r pre mid post : space_ok s -> 0 < size r -> window s r pre mid post ->
  rangeIterator (entries s) (ERange (length pre) (length mid) (first_flag r mid) (last_flag r mid)) r =
  intersection r <$> mid.
Proof.
  intros (_ & _ & _ & H4 & _) Hr Hw. unfold rangeIterator. cbn [start length_ start_overlap end_overlap].
  rewrite (w_entries _ _ _ _ _ Hw), drop_app_length, take_app_length. rewrite (w_entries _ _ _ _ _ Hw) in H4.
  apply chain_app in H4 as (m1 & _ & H4). apply chain_app in H4 as (m2 & H4 & _).
  eapply page_table_spec; [done|exact H4|exact (w_inside _ _ _ _ _ Hw)|done].
Qed.

(** [unmap] clears exactly the range, in the entries and in the page table, and
    keeps the counts of the anonymous maps; or it reports why it does not. *)
Lemma unmap_ret debug alloc r s : space_ok s -> 0 <= address r -> 0 <= size r ->
  match unmap debug alloc r s with
  | Done (s', removed) => unmap_done s r s' removed
  | Failed RangeNotPageAligned => pageAligned r = false
  | Failed UnmapOutOfMemory => alloc = false /\
      exists e, e ∈ entries s /\ address (range e) < address r /\ after r < after (range e)
  | Panic => 2 ^ 64 <= after r \/ hole_panics debug s r
  end.
Proof.
  intros Hs Ha Hr. unfold unmap. destruct (pageAligned r) eqn:Hal; cbn [negb]; [|done].
  destruct (Z.eqb_spec (size r) 0) as [H0|H0].
  { split; [done|]. split; [done|]. assert (Hx : forall x, ~ contains r x) by (intros x; unfold contains, after; lia).
    split; [intros; specialize (Hx x); tauto|]. split; [intros; specialize (Hx x); tauto|].
    split; [|split; [done|apply maps_follow_refl]].
    intros x. split; [intros (q & Hq & _); now apply not_elem_of_nil in Hq|]. specialize (Hx x). tauto. }
  assert (Hr' : 0 < size r) by lia. destruct (window_exists s r Hs Ha Hr') as (pre & mid & post & Hw).
  pose proof (entryRange_ret (E := UnmapError) debug s r pre mid post Hw Hr') as Her.
  destruct (entryRange debug s r) as [[er|]| |]; unfold mbind, result_bind; [| |done|].
  - subst er. destruct (isWithinSingleEntry _ && negb alloc) eqn:Eo.
    + apply andb_prop in Eo as [Eo Hna]. apply negb_true_iff in Hna. split; [done|].
      unfold isWithinSingleEntry in Eo. cbn in Eo. apply andb_prop in Eo as [Eo E3]. apply andb_prop in Eo as [E1 E2].
      destruct mid as [|e [|]]; [done| |done]. exists e. rewrite (w_entries _ _ _ _ _ Hw), !elem_of_app.
      split; [right; left; now apply list_elem_of_singleton|]. split; now apply Z.ltb_lt.
    + pose proof (performUnmap_ret s r pre mid post Hs Hr' Hw) as (P1 & P2 & P3).
      destruct (performUnmap _ _ _ _) as [es ms]. cbn [fst snd] in *.
      rewrite <- (window_cut s r pre mid post Hs Hr' Hw) in P1. subst es.
      replace (rangeIterator _ _ _) with (intersection r <$> mid).
      * eapply unmap_done_cut; [done|done|done|exact Hw| |exact P3]. apply P2. rewrite <- (w_entries _ _ _ _ _ Hw). apply Hs.
      * symmetry. now apply (rangeIterator_ret s r pre mid post).
  - destruct Her as [-> ->]. pose proof (window_cut s r pre [] [] Hs Hr' Hw) as Hc. cbn in Hc.
    rewrite app_nil_r in Hc. pose proof (w_entries _ _ _ _ _ Hw) as He. cbn in He. rewrite app_nil_r in He.
    rewrite <- He in Hc.
    pose proof (unmap_done_cut s r (entries_version s) (anonymous_maps s) pre [] [] Hs Hr' Hal Hw) as H.
    rewrite Hc in H. destruct s; apply H; [apply Hs|done].
  - destruct Her as [Her|Her]; [auto|]. right. apply (in_hole_panics debug s r pre mid post); [done|done|now apply entries_positive|done].
Qed.

(** A mapping right after the new one with the same attributes and no memory yet is
    part of the range that [map] returns. *)
Lemma reported_neighbour s n prot max r e : space_ok s -> 0 < n -> map_reports s n prot max r -> e ∈ entries s ->
  address (range e) = address r + n -> attributes e = (prot, max, true, 0) -> anonymous_map e = None ->
  r = VRange (address r) (n + size (range e)).
Proof.
  intros Hs Hn (pre & post & (He & G1 & G2) & Hr) Hin Ha Hat Hno. rewrite He, elem_of_app in Hin.
  destruct Hin as [Hin|Hin].
  { apply (chain_bounds _ _ _ _ G1) in Hin as (_ & H & H'). unfold after in H'. cbn in H'. lia. }
  assert (exists post', post = e :: post') as [post' ->].
  { destruct post as [|f post]; [now apply not_elem_of_nil in Hin|]. apply elem_of_cons in Hin as [<-|Hin]; [eauto|].
    cbn [chain] in G2. destruct G2 as (A & B & C). apply (chain_bounds _ _ _ _ C) in Hin as (D & _).
    unfold after in *. cbn in *. lia. }
  rewrite Hr at 1. unfold reported. replace (canMerge _ _ _) with true; [done|].
  unfold canMerge. unfold attributes in Hat. injection Hat as -> -> -> ->. rewrite Hno. cbn.
  rewrite !bool_decide_eq_true_2 by done. unfold after. cbn. now rewrite Ha, Z.eqb_refl.
Qed.
