(* ===== verification/AddressSpaceProtect.v ===== *)
(** * Changing protections, correctness

    [changeProtection] of [AddressSpace.v]: the entries at the borders of the range
    are split, the entries in the range modified and neighbours merged; what an
    address space means changes in the range only. *)

From stdpp Require Import gmap.
From S2P Require Import Prelude Machine AddressSpace AddressSpaceCorrect.

(** ** Splitting an entry *)

Lemma split_parts e n ms : exists ms', split e n ms = (shrink end_ n e, shrink beginning (size (range e) - n) e, ms') /\
  ms' = match anonymous_map e with Some (i, _) => add_references i 1 ms | None => ms end.
Proof.
  unfold split. destruct e as [[a m] p mp [[i off]|] cow nc w]; cbn; eexists; (split; [|reflexivity]);
    unfold with_range, with_anon; cbn; repeat (f_equal; try lia).
Qed.

Lemma split_counts ms l1 e l2 a b ms' :
  is_Some (match anonymous_map e with Some (i, _) => ms !! i | None => Some (Anon 0 0 0 ∅) end) ->
  (forall j, uses j a = uses j e) -> (forall j, uses j b = uses j e) ->
  ms' = match anonymous_map e with Some (i, _) => add_references i 1 ms | None => ms end ->
  counts_ok ms (l1 ++ e :: l2) -> counts_ok ms' (l1 ++ a :: b :: l2).
Proof.
  intros Hm Ha Hb -> Hc.
  assert (Hu : forall j, total_uses j (l1 ++ a :: b :: l2) = total_uses j (l1 ++ e :: l2) + uses j e).
  { intros j. rewrite !total_uses_app, !total_uses_cons, Ha, Hb. lia. }
  destruct (anonymous_map e) as [[i off]|] eqn:Ea.
  - apply (counts_shift ms (l1 ++ e :: l2) _ _ i 1); [done|done| | |done].
    + intros j. rewrite Hu. unfold uses. now rewrite Ea, Nat.eqb_sym.
    + rewrite Hu, total_uses_app, total_uses_cons. unfold uses. rewrite Ea, Nat.eqb_refl.
      pose proof (total_uses_nonneg i l1). pose proof (total_uses_nonneg i l2). lia.
  - eapply counts_same; [|exact Hc]. intros j. rewrite Hu. unfold uses. rewrite Ea. lia.
Qed.

Lemma split_adjacent ms l1 e l2 n a b ms' :
  split e n ms = (a, b, ms') -> 0 < n < size (range e) -> aligned n = true ->
  Forall (entry_ok ms) (l1 ++ e :: l2) -> counts_ok ms (l1 ++ e :: l2) ->
  same_view ms (l1 ++ e :: l2) ms' (l1 ++ a :: b :: l2).
Proof.
  intros Hs Hn Han Hok Hc. destruct (split_parts e n ms) as (ms1 & Hs' & Hms). rewrite Hs in Hs'.
  assert (a = shrink end_ n e /\ b = shrink beginning (size (range e) - n) e /\ ms' = ms1) as (-> & -> & ->)
    by (repeat split; congruence).
  pose proof Hok as Hok'. apply Forall_app in Hok' as [Hok1 Hok']. apply Forall_cons in Hok' as [He Hok2].
  pose proof He as (E1 & E2 & E3 & E4 & E5).
  assert (Hpg : forall i, pages_of ms1 i = pages_of ms i).
  { intros i. rewrite Hms. destruct (anonymous_map e) as [[j off]|]; [apply pages_add_references|done]. }
  assert (Hmono : forall i, is_Some (ms !! i) -> is_Some (ms1 !! i) /\ pages_of ms i <= pages_of ms1 i).
  { intros i Hi. rewrite Hpg. split; [|done]. rewrite Hms. destruct (anonymous_map e) as [[j off]|]; [|done].
    now apply add_references_some. }
  pose (r := VRange (address (range e) + n) 0).
  replace (shrink end_ n e) with (shrink end_ (address r - address (range e)) e) by (f_equal; cbn; lia).
  replace (shrink beginning (size (range e) - n) e) with (shrink beginning (after (range e) - after r) e)
    by (f_equal; unfold after; cbn; lia).
  assert (Hr : after r = address r /\ address (range e) < address r < after (range e)) by (unfold after; cbn; lia).
  destruct Hr as [Hr Hr'].
  split.
  - intros x t. rewrite !mapped_app, !mapped_cons, !shrink_attributes, before_contains, beyond_contains.
    unfold contains. assert (x < address r \/ address r <= x) as [|] by lia; intuition lia.
  - intros x i o. rewrite !anon_at_app, !anon_at_cons, before_anon, beyond_anon by lia.
    intros [H|[H|H]]; [auto| |auto]. assert (contains (range e) x) by (destruct H as (? & ? & _); done).
    unfold contains in *. assert (x < address r \/ after r <= x) as [|] by lia; intuition lia.
  - intros x i o. rewrite !anon_at_app, !anon_at_cons, before_anon, beyond_anon by lia. tauto.
  - intros i. rewrite Hpg. lia.
  - intros lo hi. rewrite !chain_app. intros (m & A & B). exists m. split; [done|]. cbn [chain] in *.
    rewrite shrink_range, shrink_end. unfold after in *. cbn in *. destruct B as (B1 & B2 & B3).
    repeat (split; [lia|]). eapply chain_lo; [|exact B3]. lia.
  - intros i. unfold weight. rewrite Hpg, !untouched_app, !untouched_cons. unfold untouched_size.
    rewrite shrink_anon, shrink_range, shrink_end. cbn. destruct (anonymous_map e) as [[j off]|]; unfold after; cbn; lia.
  - intros i. rewrite Hms. destruct (anonymous_map e) as [[j off]|]; [apply chunks_add_references|done].
  - rewrite !Forall_app, !Forall_cons. intros (C1 & C2 & C3). split; [done|]. split; [now apply shrink_copy_ok|].
    split; [now apply shrink_copy_ok|done].
  - intros Hinj x y i o Hx Hy. apply (Hinj x y i o); clear Hinj; [clear Hy; revert Hx|clear Hx; revert Hy];
      rewrite !anon_at_app, !anon_at_cons, before_anon, beyond_anon by lia; tauto.
  - intros Hf i. rewrite Hpg. apply Hf.
  - split.
    + apply Forall_app. split; [eapply Forall_impl; [exact Hok1|intros x; now apply entry_ok_mono]|].
      constructor; [|constructor; [|eapply Forall_impl; [exact Hok2|intros x; now apply entry_ok_mono]]].
      * apply (entry_ok_shrink ms); [|now apply aligned_sub, E1; apply aligned_add|cbn; lia|cbn; lia|done].
        intros i off Hi. rewrite Hi in E5. now apply Hmono.
      * apply (entry_ok_shrink ms); [| |lia|unfold after; cbn; lia|done].
        -- intros i off Hi. rewrite Hi in E5. now apply Hmono.
        -- unfold after. cbn. replace (_ - _) with (size (range e) - n) by lia. now apply aligned_sub.
    + eapply split_counts; [|intros; apply shrink_uses..|exact Hms|exact Hc].
      destruct (anonymous_map e) as [[i off]|]; [apply E5|eauto].
Qed.

(** ** The loop *)

Lemma remove_following e f l1 l2 : remove_at (S (length l1)) (l1 ++ e :: f :: l2) = l1 ++ e :: l2.
Proof.
  replace (l1 ++ e :: f :: l2) with ((l1 ++ [e]) ++ f :: l2) by now rewrite <- app_assoc.
  replace (S (length l1)) with (length (l1 ++ [e])) by (rewrite length_app; cbn; lia).
  now rewrite remove_at_middle, <- app_assoc.
Qed.

Lemma lookup_following (e : Entry) l1 l2 : (l1 ++ e :: l2) !! S (length l1) = head l2.
Proof.
  replace (l1 ++ e :: l2) with ((l1 ++ [e]) ++ l2) by now rewrite <- app_assoc.
  replace (S (length l1)) with (length (l1 ++ [e])) by (rewrite length_app; cbn; lia). apply lookup_length.
Qed.

(** A merge keeps the start and the attributes of the first entry. *)
Definition same_head (l l' : list Entry) : Prop :=
  match l with
  | [] => l' = []
  | e :: _ => exists e' tail, l' = e' :: tail /\ address (range e') = address (range e) /\ attributes e' = attributes e
  end.

Lemma same_head_refl l : same_head l l.
Proof. destruct l as [|e l]; [done|]. now exists e, l. Qed.

Lemma same_head_trans a b c : same_head a b -> same_head b c -> same_head a c.
Proof.
  unfold same_head. destruct a as [|e a]; [intros ->; done|]. intros (e' & tail & -> & A & B) (f & tail' & -> & C & D).
  exists f, tail'. split; [done|]. split; congruence.
Qed.

Lemma same_head_app a b b' : same_head b b' -> same_head (a ++ b) (a ++ b').
Proof. destruct a as [|e a]; [done|]. intros _. now exists e, (a ++ b'). Qed.

Lemma merge_head x y ms z ms' l : merge x y ms = Some (z, ms') -> same_head (x :: y :: l) (z :: l).
Proof. intros [-> _]%merge_some. now eexists _, l. Qed.

Lemma change_entries_ret req pre mid rest ms k m :
  let target := pre ++ (set_protections req <$> mid) ++ rest in
  Forall (entry_ok ms) target -> counts_ok ms target ->
  match change_entries (length mid) (length pre) req (pre ++ mid ++ rest) ms k m with
  | Some (es', ms', k', m') => exists tail, es' = pre ++ tail /\ same_view ms target ms' (pre ++ tail) /\
      same_head ((set_protections req <$> mid) ++ rest) tail
  | None => count_overflows ms target
  end.
Proof.
  cbv zeta. revert rest ms k m. induction mid as [|e mid IH] using rev_ind; intros rest ms k m Hok Hc.
  { exists rest. split; [done|]. split; [now apply same_view_refl|apply same_head_refl]. }
  assert (Ht : forall l, pre ++ (set_protections req <$> (mid ++ [e])) ++ l =
    (pre ++ (set_protections req <$> mid)) ++ set_protections req e :: l).
  { intros l. now rewrite fmap_app, <- !app_assoc. }
  rewrite Ht in *. assert (Hh : (set_protections req <$> (mid ++ [e])) ++ rest =
    (set_protections req <$> mid) ++ set_protections req e :: rest) by now rewrite fmap_app, <- app_assoc.
  rewrite Hh. clear Hh. rewrite length_app, Nat.add_1_r. cbn [change_entries].
  replace (pre ++ (mid ++ [e]) ++ rest) with ((pre ++ mid) ++ e :: rest) by now rewrite <- !app_assoc.
  rewrite <- length_app, list_lookup_middle by done. rewrite insert_middle, lookup_following.
  pose proof (fun k m => IH (set_protections req e :: rest) ms k m) as Hnext. rewrite (app_assoc pre mid) in Hnext.
  rewrite (app_assoc pre (set_protections req <$> mid)) in Hnext.
  destruct rest as [|f rest]; cbn [head]; [now apply Hnext|].
  destruct (canMerge ms (set_protections req e) f) eqn:Em; [|now apply Hnext]. clear Hnext.
  destruct (merge (set_protections req e) f ms) as [[z ms1]|] eqn:Ez; [|now apply (merge_none ms _ _ f rest Ez)].
  unfold mbind, option_bind. cbv beta iota zeta. rewrite insert_middle, remove_following.
  pose proof (merge_adjacent _ _ _ _ _ _ _ Em Ez Hok Hc) as V1. destruct (sv_ok _ _ _ _ V1) as [Hok1 Hc1].
  specialize (IH (z :: rest) ms1 k (m + 1)). rewrite (app_assoc pre mid) in IH.
  rewrite (app_assoc pre (set_protections req <$> mid)) in IH. specialize (IH Hok1 Hc1).
  destruct (change_entries _ _ _ _ _ _ _) as [[[[es' ms'] k1] m1]|].
  - destruct IH as (tail & -> & V & T). exists tail. split; [done|]. split; [eapply same_view_trans; [exact V1|exact V]|].
    eapply same_head_trans; [|exact T]. apply same_head_app. now apply (merge_head _ _ _ _ _ _ Ez).
  - destruct IH as [i Hi]. exists i. pose proof (sv_weight _ _ _ _ V1 i). lia.
Qed.

Lemma change_preceding_ret {E} pre tail ms k : tail <> [] ->
  Forall (entry_ok ms) (pre ++ tail) -> counts_ok ms (pre ++ tail) ->
  match @change_preceding E (length pre) (pre ++ tail) ms k with
  | Done (es, ms') => same_view ms (pre ++ tail) ms' es
  | Failed _ => False
  | Panic => count_overflows ms (pre ++ tail) \/
      (k = 0 /\ exists p f, last pre = Some p /\ head tail = Some f /\ canMerge ms p f = true)
  end.
Proof.
  intros Ht Hok Hc. destruct tail as [|f tail]; [done|]. destruct pre as [|p pre _] using rev_ind; [now apply same_view_refl|].
  unfold change_preceding. rewrite length_app, Nat.add_1_r. rewrite <- app_assoc in *. cbn [app] in *.
  rewrite list_lookup_middle, lookup_following by done. cbn [head].
  destruct (canMerge ms p f) eqn:Em; [|now apply same_view_refl].
  destruct (merge p f ms) as [[z ms']|] eqn:Ez; [|left; now apply (merge_none ms pre p f tail)].
  destruct (Z.eqb_spec k 0) as [Hk|Hk].
  - right. split; [done|]. exists p, f. now rewrite last_snoc.
  - rewrite insert_middle, remove_following. now apply merge_adjacent with (1 := Em) (2 := Ez).
Qed.

(** ** The borders of the range *)

Lemma differs_attributes req e e' : attributes e' = attributes e -> differs req e' = differs req e.
Proof. unfold attributes, differs. now intros [= -> -> _ _]. Qed.

Lemma split_entry_middle e n l1 l2 ms : exists ms',
  split_entry (length l1) e n (l1 ++ e :: l2) ms =
    (l1 ++ shrink end_ n e :: shrink beginning (size (range e) - n) e :: l2, ms') /\
  split e n ms = (shrink end_ n e, shrink beginning (size (range e) - n) e, ms').
Proof.
  destruct (split_parts e n ms) as (ms' & Hs & _). exists ms'. split; [|done]. unfold split_entry. rewrite Hs, insert_middle.
  f_equal. set (a := shrink end_ n e). replace (l1 ++ a :: l2) with ((l1 ++ [a]) ++ l2) by now rewrite <- app_assoc.
  replace (S (length l1)) with (length (l1 ++ [a])) by (rewrite length_app; cbn; lia).
  now rewrite insert_at_middle, <- app_assoc.
Qed.

Section Borders.
Variables (r : VirtualRange) (req : Request).
Hypothesis Hr : 0 < size r.
Hypothesis Hal : pageAligned r = true.

Definition before (e : Entry) : Prop := after (range e) <= address r.
Definition beyond (e : Entry) : Prop := after r <= address (range e).

Lemma split_first_ret n eo pre e m post ms :
  anyOverlap (range e) r = true -> Forall before pre ->
  Forall (entry_ok ms) (pre ++ (e :: m) ++ post) -> counts_ok ms (pre ++ (e :: m) ++ post) ->
  exists pre1 e1 ms1,
    split_first (ERange (length pre) n (starts_in r e) eo) r req (pre ++ (e :: m) ++ post) ms =
      (pre1 ++ (e1 :: m) ++ post, ms1, length pre1) /\
    same_view ms (pre ++ (e :: m) ++ post) ms1 (pre1 ++ (e1 :: m) ++ post) /\ Forall before pre1 /\
    attributes e1 = attributes e /\ after (range e1) = after (range e) /\ address (range e1) < after r /\
    (differs req e1 = true -> address r <= address (range e1)) /\
    (starts_in r e = false -> pre1 = pre /\ e1 = e).
Proof.
  intros Ho Hb Hok Hc. pose proof Ho as Ho'. apply anyOverlap_true in Ho'. pose proof Hal as Hal'.
  apply andb_prop in Hal' as [Ha _]. unfold split_first. cbn [start_overlap start].
  destruct (starts_in r e) eqn:Es.
  2: { exists pre, e, ms. split; [done|]. split; [now apply same_view_refl|]. split; [done|]. split; [done|].
       split; [done|]. split; [lia|]. split; [|done]. intros _. unfold starts_in in Es. lia. }
  cbn [app]. rewrite list_lookup_middle by done. destruct (differs req e) eqn:Ed.
  2: { exists pre, e, ms. split; [done|]. split; [now apply same_view_refl|]. split; [done|]. split; [done|].
       split; [done|]. split; [lia|]. split; [congruence|done]. }
  destruct (split_entry_middle e (address r - address (range e)) pre (m ++ post) ms) as (ms' & -> & Hs).
  exists (pre ++ [keep_start r e]), (shrink beginning (size (range e) - (address r - address (range e))) e), ms'.
  unfold starts_in in Es. apply Forall_app in Hok as Hok'. destruct Hok' as [_ Hok'].
  apply Forall_cons in Hok' as [(E1 & E2 & E3 & _) _].
  split; [rewrite <- app_assoc; cbn; do 2 f_equal; rewrite length_app; cbn; lia|].
  split; [rewrite <- app_assoc; eapply split_adjacent; [exact Hs|unfold after in *; lia|now apply aligned_sub|done|done]|].
  rewrite shrink_attributes, shrink_range. unfold after in *. cbn. split; [|split; [done|]; split; [lia|]; split; [lia|]; split; [lia|done]].
  apply Forall_app. split; [done|]. constructor; [|done]. unfold before, after. cbn. lia.
Qed.

Lemma split_last_ret so i pre m e post ms :
  address (range e) < after r -> Forall beyond post ->
  Forall (entry_ok ms) (pre ++ (m ++ [e]) ++ post) -> counts_ok ms (pre ++ (m ++ [e]) ++ post) ->
  exists e1 post1 ms1,
    split_last (ERange i (length (m ++ [e])) so (ends_in r e)) r req (length pre) (pre ++ (m ++ [e]) ++ post) ms =
      (pre ++ (m ++ [e1]) ++ post1, ms1) /\
    same_view ms (pre ++ (m ++ [e]) ++ post) ms1 (pre ++ (m ++ [e1]) ++ post1) /\ Forall beyond post1 /\
    attributes e1 = attributes e /\ address (range e1) = address (range e) /\
    (differs req e1 = true -> after (range e1) <= after r).
Proof.
  intros Ho Hb Hok Hc. pose proof Hal as Hal'. apply andb_prop in Hal' as [Ha1 Ha2].
  unfold split_last. cbn [end_overlap length_]. destruct (ends_in r e) eqn:Es.
  2: { exists e, post, ms. split; [done|]. split; [now apply same_view_refl|]. split; [done|]. split; [done|].
       split; [done|]. intros _. unfold ends_in in Es. lia. }
  replace (length pre + length (m ++ [e]) - 1)%nat with (length (pre ++ m)) by (rewrite !length_app; cbn; lia).
  assert (Hes : forall x l, pre ++ (m ++ [x]) ++ l = (pre ++ m) ++ x :: l) by (intros; now rewrite <- !app_assoc).
  rewrite Hes in *. rewrite list_lookup_middle by done. destruct (differs req e) eqn:Ed.
  2: { exists e, post, ms. rewrite Hes. split; [done|]. split; [now apply same_view_refl|]. split; [done|]. split; [done|].
       split; [done|]. congruence. }
  destruct (split_entry_middle e (after r - address (range e)) (pre ++ m) post ms) as (ms' & -> & Hs).
  set (b := shrink beginning _ e) in *.
  exists (shrink end_ (after r - address (range e)) e), (b :: post), ms'. rewrite Hes.
  apply Forall_app in Hok as Hok'. destruct Hok' as [_ Hok']. apply Forall_cons in Hok' as [(E1 & E2 & E3 & _) _].
  unfold ends_in in Es. split; [done|].
  split; [eapply split_adjacent; [exact Hs|unfold after in *; lia|apply aligned_sub; [now apply aligned_add|done]|done|done]|].
  split; [|split; [done|]; split; [done|]; cbn; unfold after; cbn; lia].
  constructor; [|done]. unfold beyond, b. rewrite shrink_range. unfold after in *. cbn. lia.
Qed.
End Borders.

(** The entries after both splits: those that change are within the range. *)
Record bordered (r : VirtualRange) (req : Request) (pre mid pre1 mid1 post1 : list Entry) : Prop := {
  bd_before : Forall (before r) pre1;
  bd_beyond : Forall (beyond r) post1;
  bd_length : length mid1 = length mid;
  bd_inner : Forall (fun e => differs req e = true -> inner r e) mid1;
  bd_attributes : Forall (fun e => exists e0, e0 ∈ mid /\ attributes e = attributes e0) mid1;
  bd_first : first_flag r mid = false -> pre1 = pre /\ same_head mid mid1
}.

Lemma self_attributes (es es' : list Entry) : (forall e, e ∈ es -> e ∈ es') ->
  Forall (fun e => exists e0, e0 ∈ es' /\ attributes e = attributes e0) es.
Proof. intros H. apply Forall_forall. intros e He. exists e. auto. Qed.

Lemma splits_ret r req pre mid post ms lo hi :
  0 < size r -> pageAligned r = true -> mid <> [] ->
  Forall (before r) pre -> Forall (fun e => anyOverlap (range e) r = true) mid -> Forall (beyond r) post ->
  chain lo mid hi -> Forall (entry_ok ms) (pre ++ mid ++ post) -> counts_ok ms (pre ++ mid ++ post) ->
  let er := ERange (length pre) (length mid) (first_flag r mid) (last_flag r mid) in
  exists pre1 mid1 post1 es1 ms1 ms2,
    split_first er r req (pre ++ mid ++ post) ms = (es1, ms1, length pre1) /\
    split_last er r req (length pre1) es1 ms1 = (pre1 ++ mid1 ++ post1, ms2) /\
    same_view ms (pre ++ mid ++ post) ms2 (pre1 ++ mid1 ++ post1) /\ bordered r req pre mid pre1 mid1 post1.
Proof.
  intros Hr Hal Hne Hb Ho Hp Hch Hok Hc er. unfold er. clear er. destruct mid as [|e1 mid]; [done|]. clear Hne.
  pose proof Ho as Ho'. apply Forall_cons in Ho' as [Ho1 Ho'].
  destruct (split_first_ret r req Hr Hal (length (e1 :: mid)) (last_flag r (e1 :: mid)) pre e1 mid post ms Ho1 Hb Hok Hc)
    as (pre1 & f & ms1 & E1 & V1 & B1 & A1 & F1 & L1 & D1 & K1).
  destruct (sv_ok _ _ _ _ V1) as [Hok1 Hc1].
  destruct mid as [|e2 mid _] using rev_ind.
  - change [f] with ([] ++ [f]) in Hok1, Hc1, V1, E1.
    destruct (split_last_ret r req Hal (first_flag r [e1]) (length pre) pre1 [] f post ms1 L1 Hp Hok1 Hc1)
      as (g & post1 & ms2 & E2 & V2 & B2 & A2 & F2 & D2).
    exists pre1, [g], post1, (pre1 ++ [f] ++ post), ms1, ms2. split; [exact E1|].
    split; [unfold last_flag; cbn [last]; unfold ends_in in *; rewrite <- F1; exact E2|].
    split; [eapply same_view_trans; [exact V1|exact V2]|]. split; [done..| | |].
    + constructor; [|done]. intros Hd. rewrite (differs_attributes _ f) in Hd by done.
      rewrite (differs_attributes _ f) in D2 by done. split; [rewrite F2|]; auto.
    + constructor; [|done]. exists e1. split; [now apply list_elem_of_singleton|congruence].
    + intros Hf. destruct (K1 Hf) as [-> ->]. split; [done|]. exists g, []. split; [done|]. split; congruence.
  - destruct (overlap_inner _ _ _ _ _ _ Hch Ho1) as (Hi & Hs & He).
    { now apply Forall_app in Ho' as [_ [Ho2 _]%Forall_cons]. }
    assert (Ha2 : address (range e2) < after r).
    { apply Forall_app in Ho' as [_ [Ho2 _]%Forall_cons]. now apply anyOverlap_true in Ho2. }
    change (f :: mid ++ [e2]) with ((f :: mid) ++ [e2]) in Hok1, Hc1, V1, E1.
    destruct (split_last_ret r req Hal (first_flag r (e1 :: mid ++ [e2])) (length pre) pre1 (f :: mid) e2 post ms1 Ha2 Hp Hok1 Hc1)
      as (g & post1 & ms2 & E2 & V2 & B2 & A2 & F2 & D2).
    exists pre1, ((f :: mid) ++ [g]), post1, (pre1 ++ ((f :: mid) ++ [e2]) ++ post), ms1, ms2. split; [exact E1|].
    split.
    { replace (last_flag r (e1 :: mid ++ [e2])) with (ends_in r e2); [exact E2|].
      unfold last_flag. change (e1 :: mid ++ [e2]) with ((e1 :: mid) ++ [e2]). now rewrite last_snoc. }
    split; [eapply same_view_trans; [exact V1|exact V2]|]. split; [done|done| | | |].
    + cbn. now rewrite !length_app.
    + constructor; [|apply Forall_app; split; [|constructor; [|done]]].
      * intros Hd. split; [auto|]. unfold ends_in in He. rewrite F1. lia.
      * eapply Forall_impl; [exact Hi|auto].
      * intros Hd. split; [|auto]. unfold starts_in in Hs. rewrite F2. lia.
    + constructor; [|apply Forall_app; split; [|constructor; [|done]]].
      * exists e1. split; [apply elem_of_cons; auto|done].
      * apply self_attributes. intros e H. rewrite elem_of_cons, elem_of_app. auto.
      * exists e2. split; [|done]. rewrite elem_of_cons, elem_of_app, list_elem_of_singleton. auto.
    + intros Hf. destruct (K1 Hf) as [-> ->]. split; [done|]. now exists e1, (mid ++ [g]).
Qed.

(** ** Validation *)

(** The protections of an entry after the change are allowed. *)
Definition allowed (req : Request) (e : Entry) : Prop :=
  exceeds (protection (set_protections req e)) (max_protection (set_protections req e)) = false /\
  exceeds (max_protection (set_protections req e)) (max_protection e) = false.

Definition moves (req : Request) (e : Entry) : bool :=
  match new_protection req with Some p => negb (bool_decide (protection e = p)) | None => false end.

Lemma validate_ret req es : forall n u,
  match validateChangeProtection es req n u with
  | Done (n', u') => Forall (allowed req) es /\ n' = n && forallb (fun e => negb (differs req e)) es /\
      u' = u || existsb (moves req) es
  | Failed MaxProtectionIncreased => exists e, e ∈ es /\ exceeds (max_protection (set_protections req e)) (max_protection e) = true
  | Failed ChangeMaxProtectionExceeded => exists e, e ∈ es /\
      exceeds (protection (set_protections req e)) (max_protection (set_protections req e)) = true
  | Failed _ | Panic => False
  end.
Proof.
  induction es as [|e es IH]; intros n u; cbn [validateChangeProtection].
  { cbn. now rewrite andb_true_r, orb_false_r. }
  assert (Hs : forall n1 u1, allowed req e -> n1 = n && negb (differs req e) -> u1 = u || moves req e ->
    match validateChangeProtection es req n1 u1 with
    | Done (n', u') => Forall (allowed req) (e :: es) /\ n' = n && forallb (fun e => negb (differs req e)) (e :: es) /\
        u' = u || existsb (moves req) (e :: es)
    | Failed MaxProtectionIncreased =>
        exists e0, e0 ∈ e :: es /\ exceeds (max_protection (set_protections req e0)) (max_protection e0) = true
    | Failed ChangeMaxProtectionExceeded => exists e0, e0 ∈ e :: es /\
        exceeds (protection (set_protections req e0)) (max_protection (set_protections req e0)) = true
    | Failed _ | Panic => False
    end).
  { intros n1 u1 Ha -> ->. specialize (IH (n && negb (differs req e)) (u || moves req e)).
    destruct (validateChangeProtection es req _ _) as [[n' u']|er|]; [|destruct er; try done..|done].
    - destruct IH as (A & -> & ->). split; [now constructor|]. cbn. now rewrite andb_assoc, orb_assoc.
    - destruct IH as (e0 & H & H'). exists e0. rewrite elem_of_cons. auto.
    - destruct IH as (e0 & H & H'). exists e0. rewrite elem_of_cons. auto. }
  assert (Hin : e ∈ e :: es) by (rewrite elem_of_cons; auto).
  assert (Hx : exceeds (max_protection e) (max_protection e) = false) by apply exceeds_refl.
  destruct req as [[p|] [m|]]; cbn [new_protection new_max_protection]; unfold mbind, result_bind.
  - destruct (exceeds m (max_protection e)) eqn:E1; [now exists e|]. destruct (exceeds p m) eqn:E2; [now exists e|].
    destruct (bool_decide (protection e = p)) eqn:B1; apply Hs; try done; unfold differs, moves; cbn; rewrite B1; cbn;
      now rewrite ?negb_involutive, ?andb_false_r, ?orb_true_r, ?orb_false_r.
  - destruct (exceeds p (max_protection e)) eqn:E2; [now exists e|].
    destruct (bool_decide (protection e = p)) eqn:B1; apply Hs; try done; unfold differs, moves; cbn; rewrite B1; cbn;
      now rewrite ?andb_true_r, ?andb_false_r, ?orb_true_r, ?orb_false_r.
  - destruct (exceeds m (max_protection e)) eqn:E1; [now exists e|].
    destruct (exceeds (protection e) m) eqn:E2; [now exists e|].
    apply Hs; try done; unfold differs, moves; cbn; now rewrite ?negb_involutive, ?orb_false_r.
  - destruct (exceeds (protection e) (max_protection e)) eqn:E2; [now exists e|].
    apply Hs; try done; unfold differs, moves; cbn; now rewrite ?andb_true_r, ?orb_false_r.
Qed.

(** ** What changes *)

Definition changed (req : Request) (t : Protection * Protection * bool * Z) : Protection * Protection * bool * Z :=
  let '(p, m, cow, w) := t in (default p (new_protection req), default m (new_max_protection req), cow, w).

(** The mappings of [es'] are those of [es], with the new protections in the range. *)
Definition protections_changed (r : VirtualRange) (req : Request) (es es' : list Entry) : Prop :=
  forall x t, mapped es' x t <->
    exists t0, mapped es x t0 /\ (contains r x /\ t = changed req t0 \/ ~ contains r x /\ t = t0).

Lemma set_attributes req e : attributes (set_protections req e) = changed req (attributes e).
Proof. done. Qed.

Lemma differs_changed req e : differs req e = false -> changed req (attributes e) = attributes e.
Proof.
  unfold differs. intros [H1 H2]%orb_false_elim. unfold attributes, changed.
  destruct (new_protection req); [apply negb_false_iff, bool_decide_eq_true in H1; subst|];
    (destruct (new_max_protection req); [apply negb_false_iff, bool_decide_eq_true in H2; subst|]); done.
Qed.

Lemma contains_dec r x : contains r x \/ ~ contains r x.
Proof. unfold contains. lia. Qed.

(** One entry, changed if it is to change: it is outside the range, inside it or
    has the requested protections already. *)
Lemma changed_entry r req e x t :
  (differs req e = true -> inner r e) ->
  contains (range e) x /\ attributes (set_protections req e) = t <->
  exists t0, (contains (range e) x /\ attributes e = t0) /\ (contains r x /\ t = changed req t0 \/ ~ contains r x /\ t = t0).
Proof.
  intros Hi. rewrite set_attributes. destruct (differs req e) eqn:Ed.
  - destruct (Hi eq_refl) as [A B]. split.
    + intros [H <-]. exists (attributes e). split; [done|]. left. split; [unfold contains in *; lia|done].
    + intros (t0 & [H <-] & [[_ ->]|[H' _]]); [done|]. unfold contains in *. lia.
  - apply differs_changed in Ed. rewrite Ed. split.
    + intros [H <-]. exists (attributes e). rewrite Ed. destruct (contains_dec r x); auto.
    + intros (t0 & [H <-] & [[_ ->]|[_ ->]]); auto.
Qed.

Lemma exists_or_and {A} (P Q R : A -> Prop) :
  (exists t, P t /\ R t) \/ (exists t, Q t /\ R t) <-> exists t, (P t \/ Q t) /\ R t.
Proof.
  split; [intros [(t & H & K)|(t & H & K)]; exists t; auto|]. intros (t & [H|H] & K); [left|right]; exists t; auto.
Qed.

Lemma changed_inside r req es : Forall (fun e => differs req e = true -> inner r e) es ->
  protections_changed r req es (set_protections req <$> es).
Proof.
  intros H x t. induction H as [|e es He _ IH]; cbn [fmap list_fmap].
  - split; [intros H; now apply mapped_nil in H|]. intros (t0 & H & _). now apply mapped_nil in H.
  - rewrite mapped_cons. change (range (set_protections req e)) with (range e). rewrite (changed_entry r) by done.
    unfold fmap in IH. rewrite IH. setoid_rewrite mapped_cons. apply exists_or_and.
Qed.

Lemma changed_outside r req es : Forall (fun e => before r e \/ beyond r e) es -> protections_changed r req es es.
Proof.
  intros H x t. rewrite Forall_forall in H. split.
  - intros Hm. exists t. split; [done|]. right. split; [|done]. destruct Hm as (e & Hin & Hx & _).
    specialize (H e Hin). unfold before, beyond, contains in *. lia.
  - intros (t0 & Hm & [[Hx _]|[_ ->]]); [|done]. destruct Hm as (e & Hin & Hx' & _).
    specialize (H e Hin). unfold before, beyond, contains in *. lia.
Qed.

Lemma changed_app r req a a' b b' : protections_changed r req a a' -> protections_changed r req b b' ->
  protections_changed r req (a ++ b) (a' ++ b').
Proof. intros Ha Hb x t. rewrite mapped_app, (Ha x t), (Hb x t). setoid_rewrite mapped_app. apply exists_or_and. Qed.

Lemma changed_bordered r req pre mid pre1 mid1 post1 : bordered r req pre mid pre1 mid1 post1 ->
  protections_changed r req (pre1 ++ mid1 ++ post1) (pre1 ++ (set_protections req <$> mid1) ++ post1).
Proof.
  intros [Hb Hp _ Hi _ _]. apply changed_app; [|apply changed_app].
  - apply changed_outside. eapply Forall_impl; [exact Hb|auto].
  - now apply changed_inside.
  - apply changed_outside. eapply Forall_impl; [exact Hp|auto].
Qed.

(** The rest of an entry stays. *)
Lemma set_anon req a b c x i o : anon_at (a ++ (set_protections req <$> b) ++ c) x i o <-> anon_at (a ++ b ++ c) x i o.
Proof.
  rewrite !anon_at_app. enough (anon_at (set_protections req <$> b) x i o <-> anon_at b x i o) by tauto.
  induction b as [|e b IH]; [done|]. cbn [fmap list_fmap]. rewrite !anon_at_cons. unfold fmap in IH. rewrite IH. done.
Qed.

Lemma set_chain req a b c lo hi : chain lo (a ++ b ++ c) hi -> chain lo (a ++ (set_protections req <$> b) ++ c) hi.
Proof.
  rewrite !chain_app. intros (m & A & B). exists m. split; [done|]. apply chain_app in B as (m' & B & C).
  apply chain_app. exists m'. split; [|done]. clear - B. revert m B. induction b as [|e b IH]; intros m; [done|].
  cbn [chain fmap list_fmap]. intros (H1 & H2 & H3). split; [done|]. split; [done|]. now apply IH.
Qed.

Lemma set_weight req ms a b c i : weight ms (a ++ (set_protections req <$> b) ++ c) i = weight ms (a ++ b ++ c) i.
Proof.
  unfold weight. rewrite !untouched_app. enough (untouched (set_protections req <$> b) = untouched b) by lia.
  induction b as [|e b IH]; [done|]. cbn [fmap list_fmap]. rewrite !untouched_cons. f_equal. exact IH.
Qed.

Lemma set_entries_ok req ms a b c : Forall (allowed req) b -> Forall (entry_ok ms) (a ++ b ++ c) ->
  Forall (entry_ok ms) (a ++ (set_protections req <$> b) ++ c).
Proof.
  rewrite !Forall_app. intros Ha (H1 & H2 & H3). split; [done|]. split; [|done]. apply Forall_fmap.
  rewrite Forall_forall in Ha, H2. apply Forall_forall. intros e He.
  destruct (H2 e He) as (A & B & C & _ & D). destruct (Ha e He) as [E _]. split; [done|]. split; [done|]. split; [done|]. done.
Qed.

Lemma set_counts req ms a b c : counts_ok ms (a ++ b ++ c) -> counts_ok ms (a ++ (set_protections req <$> b) ++ c).
Proof. apply counts_same. intros i. rewrite !total_uses_app. now rewrite total_uses_fmap. Qed.

Lemma set_copies req a b c : Forall copy_ok (a ++ b ++ c) -> Forall copy_ok (a ++ (set_protections req <$> b) ++ c).
Proof. rewrite !Forall_app, Forall_fmap. intros (A & B & C). split; [done|]. split; [|done]. eapply Forall_impl; [exact B|done]. Qed.

Lemma allowed_attributes req e e' : attributes e' = attributes e -> allowed req e -> allowed req e'.
Proof. unfold attributes, allowed. cbn. now intros [= -> -> _ _]. Qed.

(** The whole effect of a change, given the space before. *)
Definition protect_view (s : AddressSpace) (r : VirtualRange) (req : Request) (s' : AddressSpace) : Prop :=
  space_ok s' /\ space_range s' = space_range s /\ protections_changed r req (entries s) (entries s') /\
  (forall x i o, anon_at (entries s) x i o -> anon_at (entries s') x i o) /\
  (forall x i o, anon_at (entries s') x i o ->
     anon_at (entries s) x i o \/ pages_of (anonymous_maps s) i * page <= o) /\
  maps_follow 0 s s'.

(** The first entry of the range joins the one before it. *)
Definition joins_preceding (s : AddressSpace) (r : VirtualRange) (req : Request) : Prop :=
  exists p e, p ∈ entries s /\ e ∈ entries s /\ after (range p) = address (range e) /\
    address r <= address (range e) < after r /\ attributes p = changed req (attributes e).

Lemma protect_view_of s r req es1 ms1 es2 es3 ms3 v : space_ok s ->
  same_view (anonymous_maps s) (entries s) ms1 es1 -> protections_changed r req es1 es2 ->
  (forall x i o, anon_at es2 x i o <-> anon_at es1 x i o) -> (forall lo hi, chain lo es1 hi -> chain lo es2 hi) ->
  (Forall copy_ok es1 -> Forall copy_ok es2) -> (forall i, weight ms1 es2 i = weight ms1 es1 i) ->
  same_view ms1 es2 ms3 es3 -> protect_view s r req (Space (space_range s) es3 v ms3).
Proof.
  intros (H1 & H2 & H3 & H4 & H5 & H6) V1 P A C K Wt V2. split; [|split; [done|]; split; [|split; [|split]]].
  - split; [done|]. split; [done|]. split; [done|]. split; [|apply V2].
    apply (sv_chain _ _ _ _ V2), C, (sv_chain _ _ _ _ V1). done.
  - intros x t. cbn. rewrite (sv_mapped _ _ _ _ V2), (P x t). setoid_rewrite (sv_mapped _ _ _ _ V1). done.
  - intros x i o H. apply (sv_anon _ _ _ _ V2), A, (sv_anon _ _ _ _ V1). done.
  - intros x i o H. apply (sv_fresh _ _ _ _ V2) in H as [H|H].
    + apply A in H. now apply (sv_fresh _ _ _ _ V1) in H.
    + right. pose proof (sv_pages _ _ _ _ V1 i). unfold page in *. lia.
  - split; [|split].
    + intros i m'. pose proof (sv_pages _ _ _ _ V1 i). pose proof (sv_pages _ _ _ _ V2 i).
      apply chunks_follow; [now rewrite (sv_chunks _ _ _ _ V2), (sv_chunks _ _ _ _ V1)|cbn; lia].
    + intros H. now apply (sv_copies _ _ _ _ V2), K, (sv_copies _ _ _ _ V1).
    + split; [|split; [intros H; now apply (sv_fits _ _ _ _ V2), (sv_fits _ _ _ _ V1)|]].
      2: { intros i. cbn. pose proof (sv_weight _ _ _ _ V1 i). pose proof (sv_weight _ _ _ _ V2 i). rewrite Wt in *. lia. }
      intros H. apply (sv_inj _ _ _ _ V2). intros x y i o. rewrite !A. now apply (sv_inj _ _ _ _ V1).
Qed.

Lemma performChangeProtection_ret {E} s r req pre mid post v : space_ok s -> 0 < size r -> pageAligned r = true ->
  window s r pre mid post -> mid <> [] -> Forall (allowed req) mid ->
  match @performChangeProtection E (ERange (length pre) (length mid) (first_flag r mid) (last_flag r mid)) r req
          (entries s) (anonymous_maps s) with
  | Done (es, ms) => protect_view s r req (Space (space_range s) es v ms)
  | Failed _ => False
  | Panic => count_overflows (anonymous_maps s) (entries s) \/ joins_preceding s r req
  end.
Proof.
  intros Hs Hr Hal Hw Hne Ha. pose proof Hs as (_ & _ & _ & H4 & H5 & H6). destruct Hw as [He _ _ Hb Hi Hp].
  pose proof H4 as Hch. rewrite He in H4, H5, H6.
  apply chain_app in H4 as (m1 & _ & H4). apply chain_app in H4 as (m2 & H4 & _).
  destruct (splits_ret r req pre mid post _ _ _ Hr Hal Hne Hb Hi Hp H4 H5 H6)
    as (pre1 & mid1 & post1 & es1 & ms1 & ms2 & E1 & E2 & V & B).
  unfold performChangeProtection. rewrite He, E1, E2. cbn [length_ start_overlap]. rewrite <- (bd_length _ _ _ _ _ _ _ B).
  destruct (sv_ok _ _ _ _ V) as [Hok1 Hc1].
  assert (Ha1 : Forall (allowed req) mid1).
  { eapply Forall_impl; [exact (bd_attributes _ _ _ _ _ _ _ B)|]. intros e (e0 & H0 & Hat).
    rewrite Forall_forall in Ha. now apply (allowed_attributes req e0), Ha. }
  pose proof (change_entries_ret req pre1 mid1 post1 ms2 0 0 ltac:(now apply set_entries_ok) ltac:(now apply set_counts)) as Hce.
  rewrite <- He in V.
  destruct (change_entries _ _ _ _ _ _ _) as [[[[es3 ms3] k] m]|].
  2: { left. destruct Hce as [i Hov]. exists i. rewrite set_weight in Hov.
       pose proof (sv_weight _ _ _ _ V i) as W. rewrite He in W. lia. }
  destruct Hce as (tail & -> & V2 & Hh).
  assert (Hv : forall es3 ms3 v, same_view ms2 (pre1 ++ (set_protections req <$> mid1) ++ post1) ms3 es3 ->
    protect_view s r req (Space (space_range s) es3 v ms3)).
  { intros es3 ms4 w V3. eapply protect_view_of; [done|exact V|exact (changed_bordered _ _ _ _ _ _ _ B)| | | | |exact V3].
    - intros. apply set_anon.
    - intros. now apply set_chain.
    - apply set_copies.
    - intros. apply set_weight. }
  destruct (first_flag r mid) eqn:Ef; [now apply Hv|].
  destruct (bd_first _ _ _ _ _ _ _ B Ef) as [-> Hhead]. destruct (sv_ok _ _ _ _ V2) as [Hok2 Hc2].
  destruct mid as [|e mid]; [done|]. destruct Hhead as (e1 & mid2 & -> & Hae & Hat).
  destruct Hh as (f & tl & -> & Haf & Hatf).
  pose proof (change_preceding_ret (E := E) pre (f :: tl) ms3 k ltac:(done) Hok2 Hc2) as Hq.
  destruct (change_preceding _ _ _ _) as [[es ms]| |]; [|done|].
  - apply Hv. eapply same_view_trans; [exact V2|exact Hq].
  - destruct Hq as [[i Hov]|(_ & p & f' & Hlast & [= <-] & Hm)].
    { left. exists i. pose proof (sv_weight _ _ _ _ V i) as W. rewrite He in W.
      pose proof (sv_weight _ _ _ _ V2 i) as W2. rewrite set_weight in W2. lia. }
    right. apply canMerge_spec in Hm as (M1 & M2 & _).
    apply last_Some in Hlast as [pre' ->]. exists p, e. rewrite He.
    split; [rewrite !elem_of_app, list_elem_of_singleton; auto|].
    split; [rewrite elem_of_app; right; cbn; rewrite elem_of_cons; auto|].
    cbn in Haf, Hatf. split; [congruence|]. apply Forall_cons in Hi as [Hi _]. apply anyOverlap_true in Hi.
    cbn in Ef. unfold starts_in in Ef. split; [lia|]. rewrite M1, Hatf, set_attributes. congruence.
Qed.

(** ** changeProtection *)

Definition protection_of (t : Protection * Protection * bool * Z) : Protection := t.1.1.1.

(** The page table: nothing to do, or exactly the mapped addresses of the range,
    with the protection they had. *)
Definition updates_ok (s : AddressSpace) (r : VirtualRange) (req : Request) (updates : list (VirtualRange * Protection)) : Prop :=
  (updates = [] /\ forall x t, contains r x -> mapped (entries s) x t -> protection_of (changed req t) = protection_of t) \/
  (is_Some (new_protection req) /\ ranges_in (address r) updates.*1 (after r) /\
   forall x p, (exists q, (q, p) ∈ updates /\ contains q x) <->
     contains r x /\ exists t, mapped (entries s) x t /\ protection_of t = p).

Lemma protect_nothing s r req : space_ok s ->
  (forall x t, contains r x -> mapped (entries s) x t -> changed req t = t) ->
  protect_view s r req s /\ updates_ok s r req [].
Proof.
  intros Hs H. split; [|left; split; [done|]; intros; now rewrite H with (x := x)].
  split; [done|]. split; [done|]. split; [|split; [auto|]; split; [auto|apply maps_follow_refl]]. intros x t. split.
  - intros Hm. exists t. split; [done|]. destruct (contains_dec r x) as [Hx|Hx]; [left|auto]. now rewrite (H x).
  - intros (t0 & Hm & [[Hx ->]|[_ ->]]); [|done]. now rewrite (H x).
Qed.

Lemma window_mapped s r pre mid post x t : window s r pre mid post -> contains r x -> mapped (entries s) x t ->
  mapped mid x t.
Proof.
  intros [He _ _ Hb _ Hp] Hx (e & Hin & He' & Ha). rewrite He, !elem_of_app in Hin. rewrite Forall_forall in Hb, Hp.
  exists e. split; [|done]. unfold contains in *.
  destruct Hin as [H|[H|H]]; [specialize (Hb e H); lia|done|specialize (Hp e H); lia].
Qed.

Lemma combine_fmap {A B C} (f : A -> B) (g : A -> C) l : combine (f <$> l) (g <$> l) = (fun a => (f a, g a)) <$> l.
Proof. induction l as [|a l IH]; [done|]. cbn. f_equal. exact IH. Qed.

Lemma updates_ret s r req pre mid post : space_ok s -> 0 < size r -> pageAligned r = true -> window s r pre mid post ->
  updates_ok s r req (if existsb (moves req) mid
    then rangeAndProtectionIterator (entries s) (ERange (length pre) (length mid) (first_flag r mid) (last_flag r mid)) r
    else []).
Proof.
  intros Hs Hr Hal Hw. destruct (existsb (moves req) mid) eqn:Em.
  - right. unfold rangeAndProtectionIterator. rewrite (rangeIterator_ret s r pre mid post) by done.
    cbn [start length_]. rewrite (w_entries _ _ _ _ _ Hw), drop_app_length, take_app_length, combine_fmap.
    split.
    { apply existsb_exists in Em as (e & _ & Em). unfold moves in Em. destruct (new_protection req); [eauto|done]. }
    split; [rewrite <- list_fmap_compose; now apply (window_ranges s r pre mid post)|]. intros x p. split.
    + intros (q & Hq & Hx). apply list_elem_of_fmap in Hq as (e & [= -> ->] & Hin).
      apply intersection_contains in Hx as [Hx He]. split; [done|]. exists (attributes e). split; [|done].
      exists e. rewrite !elem_of_app. auto.
    + rewrite <- (w_entries _ _ _ _ _ Hw). intros (Hx & t & Hm & <-). apply (window_mapped _ _ _ _ _ _ _ Hw Hx) in Hm as (e & Hin & He & <-).
      exists (intersection r e). split; [apply list_elem_of_fmap; now exists e|]. now apply intersection_contains.
  - left. split; [done|]. intros x t Hx Hm. apply (window_mapped _ _ _ _ _ _ _ Hw Hx) in Hm as (e & Hin & He & <-).
    assert (Hmv : moves req e = false).
    { destruct (moves req e) eqn:E; [|done]. rewrite <- Em. symmetry. apply existsb_exists. exists e.
      now rewrite <- list_elem_of_In. }
    unfold moves in Hmv. cbn. destruct (new_protection req); [|done].
    apply negb_false_iff, bool_decide_eq_true in Hmv. now subst.
Qed.

Lemma window_overlap s r pre mid post e : window s r pre mid post -> e ∈ mid -> e ∈ entries s /\ anyOverlap (range e) r = true.
Proof.
  intros [He _ _ _ Hi _] Hin. rewrite Forall_forall in Hi. split; [|auto]. rewrite He, !elem_of_app. auto.
Qed.

Lemma changeProtection_ret debug alloc r change s : space_ok s -> 0 <= address r -> 0 <= size r ->
  let req := toRequest change in
  match changeProtection debug alloc r change s with
  | Done (s', updates) => protect_view s r req s' /\ updates_ok s r req updates
  | Failed ChangeRangeNotPageAligned => pageAligned r = false
  | Failed ChangeMaxProtectionNone => new_max_protection req = Some no_protection
  | Failed MaxProtectionIncreased => exists e, (e ∈ entries s /\ anyOverlap (range e) r = true) /\
      exceeds (max_protection (set_protections req e)) (max_protection e) = true
  | Failed ChangeMaxProtectionExceeded => exists e, (e ∈ entries s /\ anyOverlap (range e) r = true) /\
      exceeds (protection (set_protections req e)) (max_protection (set_protections req e)) = true
  | Failed ChangeOutOfMemory => alloc = false
  | Panic => 2 ^ 64 <= after r \/ hole_panics debug s r \/
      count_overflows (anonymous_maps s) (entries s) \/ joins_preceding s r req
  end.
Proof.
  intros Hs Ha Hr req. unfold changeProtection. fold req.
  destruct (pageAligned r) eqn:Hal; cbn [negb]; [|done].
  destruct (match new_max_protection req with Some m => bool_decide (m = no_protection) | None => false end) eqn:Em.
  { destruct (new_max_protection req); [|done]. apply bool_decide_eq_true in Em. congruence. }
  destruct (Z.eqb_spec (size r) 0) as [H0|H0].
  { apply protect_nothing; [done|]. intros x t Hx. unfold contains, after in Hx. lia. }
  assert (Hr' : 0 < size r) by lia. destruct (window_exists s r Hs Ha Hr') as (pre & mid & post & Hw).
  pose proof (entryRange_ret (E := ChangeProtectionError) debug s r pre mid post Hw Hr') as Her.
  destruct (entryRange debug s r) as [[er|]| |]; unfold mbind, result_bind; [| |done|].
  2: { destruct Her as [-> ->]. apply protect_nothing; [done|]. intros x t Hx Hm.
       apply (window_mapped _ _ _ _ _ _ _ Hw Hx) in Hm. now apply mapped_nil in Hm. }
  2: { destruct Her as [Her|Her]; [auto|]. right. left.
       apply (in_hole_panics debug s r pre mid post); [done|done|now apply entries_positive|done]. }
  subst er. cbn [length_ start start_overlap end_overlap].
  replace (take (length mid) (drop (length pre) (entries s))) with mid
    by now rewrite (w_entries _ _ _ _ _ Hw), drop_app_length, take_app_length.
  pose proof (validate_ret req mid true false) as Hv.
  destruct (validateChangeProtection mid req true false) as [[no_op upd]|e|]; [|destruct e; try done|done].
  - destruct Hv as (Hall & -> & ->). cbn [andb orb].
    destruct (forallb (fun e => negb (differs req e)) mid) eqn:En.
    + apply protect_nothing; [done|]. intros x t Hx Hm.
      apply (window_mapped _ _ _ _ _ _ _ Hw Hx) in Hm as (e & Hin & _ & <-). apply differs_changed.
      rewrite forallb_forall in En. apply negb_true_iff, En. now apply list_elem_of_In.
    + destruct (_ && negb alloc) eqn:Eal; [now apply andb_prop in Eal as [_ ?%negb_true_iff]|].
      assert (Hne : mid <> []) by (intros ->; done).
      pose proof (performChangeProtection_ret (E := ChangeProtectionError) s r req pre mid post
        ((entries_version s + 1) mod 2 ^ 32) Hs Hr' Hal Hw Hne Hall) as Hp.
      destruct (performChangeProtection _ _ _ _ _) as [[es ms]| |]; [|done|auto].
      split; [exact Hp|]. now apply (updates_ret s r req pre mid post).
  - destruct Hv as (e & Hin & H). exists e. split; [now apply (window_overlap s r pre mid post)|done].
  - destruct Hv as (e & Hin & H). exists e. split; [now apply (window_overlap s r pre mid post)|done].
Qed.
