(* ===== verification/Mapping.v ===== *)
(** * Memory of a process

    The address space of a process from its creation on: every state that [map],
    [unmap] and [changeProtection] reach is well formed, a map and its unmap cancel
    out, and the memory that [mmap] gives is what the handlers of [Handlers.v] rely
    on.  Three sequences of calls go wrong: the range that [map] returns may contain
    a neighbour, and the kernel panics on a range without entries and on a change
    of protection that joins the entries on both sides.

    The handlers are [src/src/innigkeit/user/handlers/memory.zig] and
    [src/src/innigkeit/user/Thread.zig]. *)

From stdpp Require Import gmap relations.
From S2P Require Import Prelude Machine Memory Handlers HandlersCorrect.
From S2P Require Import AddressSpace AddressSpaceCorrect AddressSpaceProtect.

Definition user_memory_range : VirtualRange := VRange user_base (user_end - user_base).

(** The space of a process, and the operations on it. *)
Definition process_space (s : AddressSpace) : Prop := space_ok s /\ space_range s = user_memory_range.

Inductive space_step (debug alloc : bool) : AddressSpace -> AddressSpace -> Prop :=
  | step_map base n prot max s r s' : 0 <= n -> base_ok s base ->
      map alloc base n prot max s = Done (r, s') -> space_step debug alloc s s'
  | step_unmap r s s' removed : 0 <= address r -> 0 <= size r ->
      unmap debug alloc r s = Done (s', removed) -> space_step debug alloc s s'
  | step_change r change s s' updates : 0 <= address r -> 0 <= size r ->
      changeProtection debug alloc r change s = Done (s', updates) -> space_step debug alloc s s'.

(** [mmap(size, prot)] and [munmap(addr, size)] on the address space. *)
Definition munmap (debug alloc : bool) (addr_raw size_bytes : Z) (s : AddressSpace) : result Error (Z * AddressSpace) :=
  if (size_bytes =? 0) || (addr_raw =? 0) then Failed InvalidArgument
  else if negb (aligned addr_raw) || negb (aligned size_bytes) then Failed InvalidArgument
  else if negb ((user_base <=? addr_raw) && (addr_raw <? user_end)) then Failed BadAddress
  else
    match unmap debug alloc (VRange addr_raw size_bytes) s with
    | Done (s', _) => Done (0, s')
    | Failed UnmapOutOfMemory => Failed OutOfMemory
    | Failed RangeNotPageAligned => Failed InvalidArgument
    | Panic => Panic
    end.

(** [Thread.start]: the stack of a new thread and its stack pointer. *)
Definition thread_stack (alloc : bool) (s : AddressSpace) : result MapError (Z * AddressSpace) :=
  '(user_stack, s') ← map alloc None 65536 (Prot true true false) None s;
  Done (after user_stack, s').

(** ** Lemmas *)

Lemma init_ok r : 0 <= address r -> 0 <= size r -> after r < 2 ^ 64 -> aligned (address r) = true -> space_ok (init r).
Proof.
  intros H1 H2 H3 H4. split; [done|]. split; [done|]. split; [done|]. cbn. split; [unfold after; lia|].
  split; [done|]. intros i. now rewrite lookup_empty.
Qed.

Lemma step_ok debug alloc s s' : space_step debug alloc s s' -> space_ok s ->
  space_ok s' /\ space_range s' = space_range s.
Proof.
  intros Hst Hs. destruct Hst as [base n prot max s r s' Hn Hb H|r s s' removed Ha Hn H|r change s s' updates Ha Hn H].
  - pose proof (map_ret alloc base n prot max s Hs Hn Hb) as Hr. rewrite H in Hr. destruct Hr as [(H1 & H2 & _) _]. done.
  - pose proof (unmap_ret debug alloc r s Hs Ha Hn) as Hr. rewrite H in Hr. destruct Hr as (H1 & H2 & _). done.
  - pose proof (changeProtection_ret debug alloc r change s Hs Ha Hn) as Hr. rewrite H in Hr.
    destruct Hr as [(H1 & H2 & _) _]. done.
Qed.

(** The regions of the memory model are the mapped addresses of the space. *)
Definition regions_are (rs : list (Z * Z)) (s : AddressSpace) : Prop :=
  forall q, existsb (in_region q) rs = true <-> exists t, mapped (entries s) q t.

Lemma available_unmapped s a n q t : available s (VRange a n) -> contains (VRange a n) q -> ~ mapped (entries s) q t.
Proof.
  intros (_ & _ & Hc) Hq (e & Hin & He & _). specialize (Hc e Hin). unfold contains, after in *. cbn in *. lia.
Qed.

(** ** A space to look at *)

Definition rw : Protection := Prot true true false.
Definition rx : Protection := Prot true false true.
Definition fresh_entry (a n : Z) (p : Protection) : Entry := MkEntry (VRange a n) p p None true true 0.

(** A page of code at [0x10000] and writable memory from [0x20000] on. *)
Definition demo_space : AddressSpace :=
  Space user_memory_range [fresh_entry 65536 4096 rx; fresh_entry 131072 8192 rw] 0 ∅.

Lemma no_anon_counts es : Forall (fun e => anonymous_map e = None) es -> counts_ok ∅ es.
Proof.
  intros H i. rewrite lookup_empty. induction H as [|e es He _ IH]; [done|].
  rewrite total_uses_cons, IH. unfold uses. now rewrite He.
Qed.

Lemma demo_ok : process_space demo_space.
Proof.
  split; [|done]. split; [done|]. split; [done|]. split; [done|]. split; [cbn; unfold after; cbn; unfold user_base, user_end; lia|].
  split; [repeat constructor|]. apply no_anon_counts. repeat constructor.
Qed.

(** ** Correctness *)

(** [map] gives zero-filled memory at a free address, the first that fits unless
    the caller asked for one, with the protection asked for, and leaves every other
    mapping as it was; or it fails for the reason it reports.  It panics only when
    the end of a candidate range does not fit 64 bits or an anonymous map would have
    to have 2^32 pages. *)
Theorem map_correct alloc base n prot max s : space_ok s -> 0 <= n -> base_ok s base ->
  match map alloc base n prot max s with
  | Done (r, s') => map_done s base n prot (default prot max) r s'
  | Failed RequestedRangeUnavailable => unavailable s base n
  | Failed MapOutOfMemory => alloc = false
  | Failed e => refuses base n prot max e
  | Panic => 2 ^ 64 <= default (after (space_range s)) base + n \/
      exists i, 2 ^ 32 * page <= weight (anonymous_maps s) (entries s) i + n
  end.
Proof.
  intros Hs Hn Hb. pose proof (map_ret alloc base n prot max s Hs Hn Hb) as H.
  destruct (map alloc base n prot max s) as [[r s']| |]; [exact (proj1 H)|exact H|exact H].
Qed.

(** [map] of two pages goes to the first page of the space. *)
Lemma map_correct_witness :
  match map true None 8192 rw None demo_space with
  | Done (r, s') => map_done demo_space None 8192 rw rw r s' /\ address r = 4096
  | _ => False
  end.
Proof. split; [apply (map_correct true None 8192 rw None demo_space (proj1 demo_ok)); [lia|done]|reflexivity]. Defined.

(** [unmap] clears exactly the range: every other address keeps its mapping and
    its anonymous memory, the counts of the anonymous maps stay right, and what is
    removed from the page table are the mapped addresses of the range.  It needs
    memory only to split an entry; it panics only on an overflow or in a hole. *)
Theorem unmap_correct debug alloc r s : space_ok s -> 0 <= address r -> 0 <= size r ->
  match unmap debug alloc r s with
  | Done (s', removed) => unmap_done s r s' removed
  | Failed RangeNotPageAligned => pageAligned r = false
  | Failed UnmapOutOfMemory => alloc = false /\
      exists e, e ∈ entries s /\ address (range e) < address r /\ after r < after (range e)
  | Panic => 2 ^ 64 <= after r \/ hole_panics debug s r
  end.
Proof. apply unmap_ret. Qed.

(** The end of the code and the start of the writable memory go. *)
Lemma unmap_correct_witness :
  match unmap true true (VRange 65536 69632) demo_space with
  | Done (s', removed) => unmap_done demo_space (VRange 65536 69632) s' removed /\
      entries s' = [fresh_entry 135168 4096 rw] /\ removed = [VRange 65536 4096; VRange 131072 4096]
  | _ => False
  end.
Proof.
  split; [apply (unmap_correct true true (VRange 65536 69632) demo_space (proj1 demo_ok)); cbn; lia|].
  split; reflexivity.
Defined.

(** [changeProtection] gives the mapped addresses of the range the new
    protections and leaves the others and the anonymous memory as they were,
    however it splits and merges entries; the page table is told exactly the mapped
    addresses of the range with the protection they had.  It refuses a protection
    above the maximum of an entry in the range.  Beyond overflows and holes it panics
    only when the first entry joins the one before the range. *)
Theorem change_protection_correct debug alloc r change s : space_ok s -> 0 <= address r -> 0 <= size r ->
  let req := toRequest change in
  match changeProtection debug alloc r change s with
  | Done (s', updates) => protect_view s r req s' /\ updates_ok s r req updates
  | Failed ChangeRangeNotPageAligned => pageAligned r = false
  | Failed ChangeMaxProtectionNone => new_max_protection req = Some no_protection
  | Failed MaxProtectionIncreased => exists e, (e ∈ entries s /\ anyOverlap (range e) r = true) /\
      exceeds (max_protection (set_protections req e)) (max_protection e) = true
  | Failed ChangeMaxProtectionExceeded => exists e, (e ∈ entries s /\ anyOverlap (range e) r = true) /\
      exceeds (protection (set_protections req e)) (max_protection (set_protections req e)) = true
  | Failed ChangeOutOfMemory => alloc = false
  | Panic => 2 ^ 64 <= after r \/ hole_panics debug s r \/
      count_overflows (anonymous_maps s) (entries s) \/ joins_preceding s r req
  end.
Proof. apply changeProtection_ret. Qed.

(** The second page of the writable memory becomes read-only. *)
Definition read_only : Protection := Prot true false false.

Lemma change_protection_correct_witness :
  match changeProtection true true (VRange 135168 4096) (change_protection read_only) demo_space with
  | Done (s', updates) =>
      (protect_view demo_space (VRange 135168 4096) (Req (Some read_only) None) s' /\
       updates_ok demo_space (VRange 135168 4096) (Req (Some read_only) None) updates) /\
      updates = [(VRange 135168 4096, rw)]
  | _ => False
  end.
Proof.
  split; [|reflexivity].
  apply (change_protection_correct true true (VRange 135168 4096) (change_protection read_only) demo_space (proj1 demo_ok)); cbn; lia.
Defined.



(** Unmapping what [map] mapped gives back the mappings there were before and
    keeps all anonymous memory; it does not fail when there is memory to split an
    entry that had been merged. *)
Theorem map_unmap_roundtrip debug alloc base n prot max s r s1 : space_ok s -> 0 < n -> base_ok s base ->
  map alloc base n prot max s = Done (r, s1) ->
  exists s2 removed, unmap debug true (VRange (address r) n) s1 = Done (s2, removed) /\ space_ok s2 /\
    (forall x t, mapped (entries s2) x t <-> mapped (entries s) x t) /\
    (forall x i o, anon_at (entries s) x i o -> anon_at (entries s2) x i o).
Proof.
  intros Hs Hn Hb E. pose proof (map_ret alloc base n prot max s Hs ltac:(lia) Hb) as H. rewrite E in H.
  destruct H as [(Hs1 & Hr1 & Hav & _ & Hal & Hm & Ha & _) _]. pose proof Hav as (A1 & A2 & A3).
  destruct Hs as (B1 & B2 & _). cbn in A1.
  assert (Hself : mapped (entries s1) (address r) (prot, default prot max, true, 0)).
  { apply Hm. left. split; [|done]. unfold contains, after. cbn. lia. }
  pose proof (unmap_ret debug true (VRange (address r) n) s1 Hs1 ltac:(cbn; lia) ltac:(cbn; lia)) as Hu.
  destruct (unmap debug true _ s1) as [[s2 removed]|e|].
  - destruct Hu as (U1 & _ & U2 & U3 & _). exists s2, removed. split; [done|]. split; [done|]. split.
    + intros x t. rewrite U2, Hm. split; [tauto|]. intros H. split; [auto|]. intros Hx.
      now apply (available_unmapped _ _ _ _ _ Hav Hx) in H.
    + intros x i o H. apply U3. split; [auto|]. intros Hx. destruct H as (e & off & Hin & He & _).
      apply (available_unmapped _ _ _ x (attributes e) Hav Hx). now exists e.
  - destruct e; [now destruct Hu|congruence].
  - destruct Hu as [Hu|[Hu _]]; [unfold after in *; cbn in *; lia|]. destruct Hself as (e & Hin & He & _).
    specialize (Hu e Hin). unfold contains, after in *. cbn in *. lia.
Qed.

Lemma map_unmap_roundtrip_witness : exists r s1,
  map true None 4096 rw None demo_space = Done (r, s1) /\
  exists s2 removed, unmap true true (VRange (address r) 4096) s1 = Done (s2, removed) /\ space_ok s2 /\
    (forall x t, mapped (entries s2) x t <-> mapped (entries demo_space) x t) /\
    (forall x i o, anon_at (entries demo_space) x i o -> anon_at (entries s2) x i o).
Proof.
  do 2 eexists. split; [reflexivity|].
  apply (map_unmap_roundtrip true true None 4096 rw None demo_space); [apply demo_ok|lia|done|reflexivity].
Defined.

(** When a process is gone its address space goes back to its first state: no
    entry is left, every anonymous map has been destroyed, and neither an error nor
    a panic can happen, whether or not there is memory left. *)
Theorem reinitialize_frees_all debug alloc s : process_space s ->
  reinitializeAndUnmapAll debug alloc s = Done (init user_memory_range).
Proof.
  intros [Hs Hr]. unfold reinitializeAndUnmapAll. rewrite Hr.
  pose proof Hs as (_ & _ & _ & Hch & _). rewrite Hr in Hch. set (r := user_memory_range) in *.
  pose proof (unmap_ret debug alloc r s Hs ltac:(done) ltac:(done)) as Hu.
  assert (Hin : forall e, e ∈ entries s -> address r <= address (range e) /\ 0 < size (range e) /\ after (range e) <= after r).
  { intros e He. exact (chain_bounds _ _ _ _ Hch He). }
  destruct (unmap debug alloc r s) as [[s' removed]|e|].
  - destruct Hu as (Hs' & _ & Hm & _). unfold init. f_equal. f_equal.
    assert (He : entries s' = []).
    { destruct (entries s') as [|e es] eqn:E; [done|]. pose proof (entries_positive _ Hs') as Hp. rewrite E in Hp.
      apply Forall_cons in Hp as [Hp _].
      destruct (proj1 (Hm (address (range e)) (attributes e))) as [(e0 & Hi & Hc & _) Hout].
      { rewrite mapped_cons. left. split; [|done]. unfold contains, after. lia. }
      exfalso. apply Hout. specialize (Hin e0 Hi). unfold contains in *. lia. }
    apply map_eq. intros i. rewrite lookup_empty. destruct Hs' as (_ & _ & _ & _ & _ & Hc). specialize (Hc i).
    rewrite He in Hc. cbn in Hc. destruct (anonymous_maps s' !! i); [lia|done].
  - exfalso. destruct e; [|done]. destruct Hu as (_ & e & Hi & H1 & _). specialize (Hin e Hi). lia.
  - exfalso. destruct Hu as [Hu|(Hc & (e & Hi & Ha) & _)]; [done|]. specialize (Hin e Hi). unfold after in *. lia.
Qed.

Lemma reinitialize_frees_all_witness : reinitializeAndUnmapAll true false demo_space = Done (init user_memory_range).
Proof. apply (reinitialize_frees_all true false demo_space demo_ok). Defined.

(** The address space gives the memory handlers what they rely on: the range of
    [mmap] is not empty, page aligned, in user memory and disjoint from every region
    the process has, and the regions with the new one are the mapped addresses
    again.  These are the laws the handlers are verified against. *)
Theorem mmap_keeps_regions alloc n prot max s rs r s' :
  process_space s -> regions_are rs s -> 0 <= n -> map alloc None n prot max s = Done (r, s') ->
  (0 < n /\ address r mod 4096 = 0 /\ user_base <= address r /\ address r + n <= user_end /\
   (forall q, address r <= q < address r + n -> existsb (in_region q) rs = false)) /\
  process_space s' /\ regions_are ((address r, n) :: rs) s'.
Proof.
  intros [Hs Hr] Hrs Hn E. pose proof (map_ret alloc None n prot max s Hs Hn I) as H. rewrite E in H.
  destruct H as [(Hs1 & Hr1 & Hav & _ & Hal & Hm & _) _]. pose proof Hav as (A1 & A2 & A3).
  assert (Hn0 : n <> 0) by (intros ->; done). rewrite Hr in A1, A2. unfold after in A2. cbn in A1, A2.
  apply andb_prop in Hal as [Hal _]. split; [|split; [split; [done|congruence]|]].
  - split; [lia|]. split; [now apply Z.eqb_eq|]. split; [done|]. split; [unfold user_base, user_end in *; lia|].
    intros q Hq. apply not_true_is_false. intros Hin. apply Hrs in Hin as [t Ht].
    apply (available_unmapped _ _ _ q t Hav) in Ht; [done|]. unfold contains, after. cbn. lia.
  - intros q. cbn [existsb]. rewrite orb_true_iff, (Hrs q). setoid_rewrite Hm. unfold in_region. cbn. split.
    + intros [Hq|[t Ht]]; [|eauto]. eexists. left. split; [|reflexivity]. unfold contains, after. cbn. lia.
    + intros (t & [[Hq _]|Ht]); [|eauto]. left. unfold contains, after in Hq. cbn in Hq. lia.
Qed.

Lemma mmap_keeps_regions_witness : exists r s', map true None 4096 rw None demo_space = Done (r, s') /\
  process_space s' /\ regions_are ((address r, 4096) :: [(65536, 4096); (131072, 8192)]) s'.
Proof.
  do 2 eexists. split; [reflexivity|].
  apply (mmap_keeps_regions true 4096 rw None demo_space [(65536, 4096); (131072, 8192)]); [apply demo_ok| |lia|reflexivity].
  intros q. cbn [existsb]. unfold demo_space. cbn [entries]. setoid_rewrite mapped_cons. setoid_rewrite mapped_cons.
  unfold in_region, contains, after. cbn. rewrite !orb_true_iff, !andb_true_iff, !Z.leb_le, !Z.ltb_lt. split.
  - intros [H|[H|H]]; [| |done]; eexists; [left|right; left]; (split; [|reflexivity]); lia.
  - intros (t & [[H _]|[[H _]|H]]); [lia|lia|]. now apply mapped_nil in H.
Defined.

(** ** Sequences that go wrong *)

(** The range that [map] returns is not the range that was asked for when the
    new memory ends where an untouched mapping with the same attributes starts: it
    ends where that mapping ends.  [Thread.start] takes this end as the stack
    pointer, so the stack of the thread is in the other mapping; callers that undo
    the map by unmapping what was returned unmap the other mapping too. *)
Theorem map_returns_neighbour debug alloc base n prot max s r s' e :
  space_ok s -> 0 < n -> base_ok s base -> map alloc base n prot max s = Done (r, s') ->
  e ∈ entries s -> address (range e) = address r + n ->
  attributes e = (prot, default prot max, true, 0) -> anonymous_map e = None ->
  after r = after (range e) /\ address r + n < after r /\
  (forall s2 removed x t, unmap debug alloc r s' = Done (s2, removed) ->
     contains (range e) x -> mapped (entries s) x (attributes e) /\ ~ mapped (entries s2) x t).
Proof.
  intros Hs Hn Hb E Hin Ha Hat Hno. pose proof (map_ret alloc base n prot max s Hs ltac:(lia) Hb) as H. rewrite E in H.
  destruct H as [(Hs1 & _ & (A1 & A2 & _) & _) Hrep]. pose proof Hs as (B1 & _). cbn in A1.
  pose proof (reported_neighbour _ _ _ _ _ _ Hs Hn Hrep Hin Ha Hat Hno) as Hr.
  assert (Hpos : 0 < size (range e)).
  { pose proof (entries_positive _ Hs) as Hp. rewrite Forall_forall in Hp. auto. }
  assert (Hsz : size r = n + size (range e)) by now rewrite Hr at 1.
  split; [unfold after; lia|]. split; [unfold after; lia|]. intros s2 removed x t Eu Hx. split; [now exists e|].
  pose proof (unmap_ret debug alloc r s' Hs1 ltac:(lia) ltac:(lia)) as Hu. rewrite Eu in Hu.
  destruct Hu as (_ & _ & Hm & _). rewrite Hm. intros [_ Hc]. apply Hc. unfold contains, after in *. lia.
Qed.

(** A gap of 64 KiB below a page of the process. *)
Definition stack_space : AddressSpace := Space user_memory_range [fresh_entry 69632 4096 rw] 0 ∅.

Lemma stack_ok : process_space stack_space.
Proof.
  split; [|done]. split; [done|]. split; [done|]. split; [done|]. split; [cbn; unfold after; cbn; unfold user_base, user_end; lia|].
  split; [repeat constructor|]. apply no_anon_counts. repeat constructor.
Qed.

Lemma map_returns_neighbour_witness :
  (exists s', thread_stack true stack_space = Done (73728, s')) /\
  exists r s', map true None 65536 rw None stack_space = Done (r, s') /\ after r = 73728 /\ address r + 65536 < after r.
Proof.
  split; [eexists; reflexivity|]. do 2 eexists. split; [reflexivity|].
  assert (H := fun s' E => map_returns_neighbour true true None 65536 rw None stack_space (VRange 4096 69632) s'
    (fresh_entry 69632 4096 rw) (proj1 stack_ok) ltac:(lia) I E ltac:(now left) eq_refl eq_refl eq_refl).
  destruct (H _ eq_refl) as (H1 & H2 & _). split; [exact H1|exact H2].
Defined.

(** A process whose lowest mapping is not at the bottom of its memory panics the
    kernel by unmapping the first page, with the assertions of a debug build and
    without them: the index of the last entry underflows. *)
Theorem munmap_hole_panics debug alloc s e es : process_space s -> entries s = e :: es -> user_base < address (range e) ->
  munmap debug alloc user_base 4096 s = Panic.
Proof.
  intros [(_ & _ & _ & Hch & Hok & _) Hr] He Ha. rewrite He in Hok, Hch. apply Forall_cons in Hok as [(Hal & _ & Hpos & _) _].
  assert (Hge : 8192 <= address (range e)).
  { unfold aligned, page, user_base in *. apply Z.eqb_eq in Hal. pose proof (Z.div_mod (address (range e)) 4096). lia. }
  unfold munmap, unmap. change (_ || _) with false. cbn match.
  change (negb (aligned user_base) || negb (aligned 4096)) with false. cbn match.
  change (negb ((user_base <=? user_base) && (user_base <? user_end))) with false. cbn match.
  change (negb (pageAligned (VRange user_base 4096))) with false. cbn match.
  change (size (VRange user_base 4096) =? 0) with false. cbn match.
  unfold entryRange. rewrite He. cbn [lowerBound address].
  replace (after (range e) <=? user_base) with false by (symmetry; apply Z.leb_gt; unfold after, user_base; lia).
  cbn [lookup list_lookup drop overlapping].
  replace (anyOverlap (range e) (VRange user_base 4096)) with false.
  2: { symmetry. apply anyOverlap_false; [done|done|]. right. unfold after, user_base. cbn. lia. }
  unfold after_checked. change (after (VRange user_base 4096) <? 2 ^ 64) with true. cbn.
  destruct debug; reflexivity.
Qed.

Lemma munmap_hole_panics_witness : munmap false true 4096 4096 demo_space = Panic.
Proof. apply (munmap_hole_panics false true demo_space _ _ demo_ok eq_refl). reflexivity. Defined.

Lemma lowerBound_app a l1 e l2 : Forall (fun e => after (range e) <= a) l1 -> a < after (range e) ->
  lowerBound (l1 ++ e :: l2) a = length l1.
Proof.
  intros H He. induction H as [|x l1 Hx _ IH]; cbn [app lowerBound length].
  - destruct (Z.leb_spec (after (range e)) a); [lia|done].
  - destruct (Z.leb_spec (after (range x)) a); [now rewrite IH|lia].
Qed.

(** The window of an entry of the space is the entry. *)
Lemma entry_window s l1 e l2 : space_ok s -> entries s = l1 ++ e :: l2 -> window s (range e) l1 [e] l2.
Proof.
  intros Hs He. pose proof (entries_positive _ Hs) as Hpos. destruct Hs as (_ & _ & _ & Hch & _). rewrite He in Hch, Hpos.
  apply Forall_app in Hpos as [Hp1 Hp2]. apply Forall_cons in Hp2 as [Hpe Hp2].
  apply chain_app in Hch as (m & C1 & C2). cbn [chain] in C2. destruct C2 as (C2 & C3 & C4).
  assert (Hb : Forall (fun x => after (range x) <= address (range e)) l1).
  { apply Forall_forall. intros x Hx. apply (chain_bounds _ _ _ _ C1) in Hx. lia. }
  assert (Hg : Forall (fun x => after (range e) <= address (range x)) l2).
  { apply Forall_forall. intros x Hx. now apply (chain_bounds _ _ _ _ C4) in Hx. }
  assert (Ho : anyOverlap (range e) (range e) = true) by (apply anyOverlap_true; unfold after; lia).
  split; [done| | |done|now constructor|done].
  - rewrite He. apply lowerBound_app; [done|]. unfold after. lia.
  - cbn [app overlapping length]. rewrite Ho. f_equal. destruct l2 as [|f l2]; [done|]. cbn [overlapping].
    apply Forall_cons in Hg as [Hg _]. apply Forall_cons in Hp2 as [Hp2 _].
    now rewrite (proj2 (anyOverlap_false (range f) (range e) Hp2 Hpe) (or_intror Hg)).
Qed.

Lemma canMerge_none ms x y : attributes x = attributes y -> after (range x) = address (range y) ->
  anonymous_map x = None -> anonymous_map y = None -> canMerge ms x y = true.
Proof.
  unfold attributes. intros [= H1 H2 H3 H4] Ha Hx Hy. unfold canMerge.
  rewrite H1, H2, H3, H4, Hx, Hy, Ha, !bool_decide_eq_true_2, Z.eqb_refl by done.
  now rewrite Bool.eqb_reflx, Z.eqb_refl.
Qed.

(** The loop merges the changed entry with the one after it, which counts as a
    merge; joining the one before takes it from the modified entries, of which there
    are none. *)
Lemma join_both_panics {E} l1 p e q l2 ms req :
  let e' := set_protections req e in
  attributes p = attributes e' -> attributes e' = attributes q ->
  after (range p) = address (range e) -> after (range e) = address (range q) ->
  anonymous_map p = None -> anonymous_map e = None -> anonymous_map q = None ->
  @performChangeProtection E (ERange (length (l1 ++ [p])) 1 false false) (range e) req ((l1 ++ [p]) ++ e :: q :: l2) ms = Panic.
Proof.
  intros e' Hpe Heq Hp He Np Ne Nq. unfold performChangeProtection, split_first, split_last.
  cbn [start_overlap end_overlap start length_ change_entries].
  rewrite Nat.add_0_r, list_lookup_middle, insert_middle, lookup_following by done. cbn [head].
  fold e'. rewrite (canMerge_none ms e' q) by done.
  assert (Hz : exists z, merge e' q ms = Some (z, ms) /\ attributes z = attributes e' /\
    address (range z) = address (range e) /\ anonymous_map z = None).
  { unfold merge. change (anonymous_map e') with (anonymous_map e). rewrite Ne. eexists. split; [reflexivity|]. done. }
  destruct Hz as (z & -> & Hz1 & Hz2 & Hz3). unfold mbind, option_bind. rewrite insert_middle, remove_following.
  unfold change_preceding. rewrite length_app, Nat.add_1_r. rewrite <- app_assoc. cbn [app].
  rewrite list_lookup_middle, lookup_following by done. cbn [head].
  rewrite (canMerge_none ms p z) by congruence. now destruct (merge p z ms) as [[? ?]|].
Qed.

(** Giving an entry the protections that its neighbours on both sides have
    panics the kernel: three adjacent entries, of which the middle one differs. *)
Theorem change_protection_panics debug alloc s l1 p e q l2 prot max cow w :
  space_ok s -> entries s = l1 ++ p :: e :: q :: l2 ->
  after (range p) = address (range e) -> after (range e) = address (range q) ->
  attributes p = (prot, max, cow, w) -> attributes q = (prot, max, cow, w) ->
  copy_on_write e = cow -> wired_count e = w ->
  (protection e, max_protection e) <> (prot, max) -> exceeds max (max_protection e) = false -> max <> no_protection ->
  anonymous_map p = None -> anonymous_map e = None -> anonymous_map q = None ->
  changeProtection debug alloc (range e) (change_both prot max) s = Panic.
Proof.
  intros Hs He Hp Hq Ap Aq Hcow Hw Hne Hmax Hnone Np Ne Nq.
  replace (l1 ++ p :: e :: q :: l2) with ((l1 ++ [p]) ++ e :: q :: l2) in He by now rewrite <- app_assoc.
  pose proof (entry_window s (l1 ++ [p]) e (q :: l2) Hs He) as Hwin.
  pose proof Hs as (_ & _ & _ & _ & Hok & _). rewrite He, !Forall_app, !Forall_cons in Hok.
  destruct Hok as ((_ & Okp & _) & Oke & _). destruct Okp as (_ & _ & _ & Hx & _), Oke as (E1 & E2 & E3 & _).
  unfold attributes in Ap. injection Ap as Ap1 Ap2 Ap3 Ap4. rewrite Ap1, Ap2 in Hx.
  unfold changeProtection. cbn [toRequest new_max_protection].
  unfold pageAligned. rewrite E1, E2. cbn [negb andb].
  rewrite bool_decide_eq_false_2 by done. destruct (Z.eqb_spec (size (range e)) 0); [lia|].
  pose proof (entryRange_ret (E := ChangeProtectionError) debug s (range e) _ _ _ Hwin E3) as Her.
  destruct (entryRange debug s (range e)) as [[er|]| |]; [|now destruct Her|done|reflexivity].
  subst er. unfold mbind, result_bind. cbn [length_ start length].
  rewrite He, drop_app_length. cbn [take validateChangeProtection new_max_protection new_protection].
  rewrite Hmax. unfold mbind, result_bind. cbn match. rewrite Hx.
  replace (first_flag (range e) [e]) with false by (symmetry; apply Z.ltb_irrefl).
  replace (last_flag (range e) [e]) with false by (symmetry; apply Z.ltb_irrefl). cbn [start_overlap end_overlap orb andb].
  rewrite (join_both_panics (E := ChangeProtectionError)); [..|done|done|done|done|done].
  - destruct (bool_decide_reflect (protection e = prot)) as [Hpr|]; [|done].
    destruct (bool_decide_reflect (max_protection e = max)) as [Hmx|]; [congruence|done].
  - unfold attributes. cbn. congruence.
  - unfold attributes in *. cbn. congruence.
Qed.

(** Code, a writable page and code again. *)
Definition sandwich_space : AddressSpace :=
  Space user_memory_range [fresh_entry 4096 4096 rx; MkEntry (VRange 8192 4096) rw (Prot true true true) None true true 0;
    fresh_entry 12288 4096 rx] 0 ∅.

Lemma sandwich_ok : process_space sandwich_space.
Proof.
  split; [|done]. split; [done|]. split; [done|]. split; [done|]. split; [cbn; unfold after; cbn; unfold user_base, user_end; lia|].
  split; [repeat constructor|]. apply no_anon_counts. repeat constructor.
Qed.

Lemma change_protection_panics_witness :
  changeProtection false true (VRange 8192 4096) (change_both rx rx) sandwich_space = Panic.
Proof.
  apply (change_protection_panics false true sandwich_space [] (fresh_entry 4096 4096 rx)
    (MkEntry (VRange 8192 4096) rw (Prot true true true) None true true 0) (fresh_entry 12288 4096 rx) [] rx rx true 0
    (proj1 sandwich_ok) eq_refl); reflexivity || discriminate.
Defined.
