(* ===== verification/PageTable.v ===== *)
(** * Page tables

    [src/src/architecture/x64/paging/PageTable.zig], the four-level page tables of
    x64, with the allocator interface of
    [src/src/innigkeit/memory/page/PhysicalPage.zig] and the batches of ranges of
    [src/src/innigkeit/memory/core/VirtualRangeBatch.zig].

    A table is its physical page and the entries that are not zero.  A leaf entry is
    the 64-bit word the hardware reads; an entry that points to a table holds that
    table, an entry of a huge page its word.  [unmap] and [changeProtection] of the
    source have the same four nested loops around a different leaf, so the loops are
    written once and take the leaf as an argument. *)

From stdpp Require Import gmap.
From S2P Require Import Prelude Machine AddressSpace.

(** ** Physical pages *)

(** [Index.zig]: a page is known by its number. *)
Definition baseAddress (index : Z) : Z := index * page.
Definition fromAddress (physical_address : Z) : Z := physical_address / page.

(** [PhysicalPage.Allocator]: one page, and giving back a list of pages. *)
Class PageAllocator (A : Type) := {
  allocate : A -> option (Z * A);
  deallocate : list Z -> A -> A;
  (** The pages that can be handed out, and how many pages there are. *)
  free_pages : A -> gset Z;
  page_limit : Z;
}.
Arguments page_limit A {_}.

(** What the users of the allocator rely on: it hands out a free page, fails only
    when there is none, and takes back pages of the machine that are not free. *)
Class PageAllocatorLaws (A : Type) `{PageAllocator A} : Prop := {
  allocate_some : forall a f a', allocate a = Some (f, a') ->
    f ∈ free_pages a /\ free_pages a' = free_pages a ∖ {[f]};
  allocate_none : forall a, allocate a = None -> free_pages a = ∅;
  deallocate_free : forall l a, NoDup l -> (forall f, f ∈ l -> f ∉ free_pages a) -> (forall f, f ∈ l -> 0 <= f < page_limit A) ->
    free_pages (deallocate l a) = free_pages a ∪ list_to_set l;
  free_index : forall a f, f ∈ free_pages a -> 0 <= f < page_limit A;
  page_limit_index : page_limit A <= 2 ^ 32;
}.

(** ** Entries *)

Definition level_1_shift : Z := 12.
Definition level_2_shift : Z := 21.
Definition level_3_shift : Z := 30.
Definition level_4_shift : Z := 39.

Definition small_page_size : Z := 4096.
Definition medium_page_size : Z := 2 ^ 21.
Definition large_page_size : Z := 2 ^ 30.
Definition level_4_address_space_size : Z := 2 ^ 39.
Definition number_of_entries : Z := 512.

Definition p1Index (a : Z) : Z := Z.shiftr a level_1_shift mod 2 ^ 9.
Definition p2Index (a : Z) : Z := Z.shiftr a level_2_shift mod 2 ^ 9.
Definition p3Index (a : Z) : Z := Z.shiftr a level_3_shift mod 2 ^ 9.
Definition p4Index (a : Z) : Z := Z.shiftr a level_4_shift mod 2 ^ 9.

(** The flags of an entry, by their bit. *)
Definition present : Z := 0.
Definition writeable : Z := 1.
Definition user_accessible : Z := 2.
Definition write_through : Z := 3.
Definition no_cache : Z := 4.
Definition huge : Z := 7.
Definition pat : Z := 7.
Definition global : Z := 8.
Definition pat_huge : Z := 12.
Definition no_execute : Z := 63.

Definition flag_write (bit : Z) (value : bool) (entry : Z) : Z :=
  if value then Z.setbit entry bit else Z.clearbit entry bit.

(** An address field: [length] bits from bit [shift], read and written in place. *)
Definition field_mask (shift length : Z) : Z := Z.shiftl (Z.ones length) shift.
Definition field_read (mask entry : Z) : Z := Z.land entry mask.
Definition field_write (mask value entry : Z) : Z := Z.lor (Z.ldiff entry mask) (Z.land value mask).

Definition maximum_physical_address_bit : Z := 48.
Definition address_mask (shift : Z) : Z := field_mask shift (maximum_physical_address_bit - shift).
Definition getAddress4kib (entry : Z) : Z := field_read (address_mask level_1_shift) entry.

Inductive Context := kernel | user.
Inductive Cache := write_back | write_combining | uncached.
Record MapType := MkMapType { map_context : Context; map_protection : Protection; map_cache : Cache }.
Inductive PageType := small | medium | large.

(** [execute_disable] is what the processor reports. *)
Definition applyMapType (execute_disable : bool) (mt : MapType) (page_type : PageType) (entry : Z) : Z :=
  let e := flag_write present true entry in
  let e := flag_write writeable (p_write (map_protection mt)) e in
  let e := if execute_disable then flag_write no_execute (negb (p_execute (map_protection mt))) e else e in
  let '(is_user, is_global) := match map_context mt with user => (true, false) | kernel => (false, true) end in
  let e := flag_write user_accessible is_user e in
  let e := flag_write global is_global e in
  let '(through, no, p) :=
    match map_cache mt with
    | write_back => (false, false, false)
    | write_combining => (true, false, true)
    | uncached => (false, true, false)
    end in
  let e := flag_write write_through through e in
  let e := flag_write no_cache no e in
  match page_type with
  | small => flag_write pat p e
  | medium | large => flag_write pat_huge p e
  end.

(** The new word of an entry; [None] is [error.AlreadyMapped]. *)
Definition setEntry (execute_disable : bool) (entry physical_address : Z) (mt : MapType) (page_type : PageType) : option Z :=
  if Z.testbit entry present then None
  else
    let e := match page_type with
             | small => field_write (address_mask level_1_shift) physical_address 0
             | medium => field_write (address_mask level_2_shift) physical_address (flag_write huge true 0)
             | large => field_write (address_mask level_3_shift) physical_address (flag_write huge true 0)
             end in
    Some (applyMapType execute_disable mt page_type e).

(** ** Tables *)

Record Table (A : Type) := MkTable { table_page : Z; slots : gmap Z A }.
Arguments MkTable {A} table_page slots.
Arguments table_page {A} t : rename.
Arguments slots {A} t : rename.

Inductive Slot (A : Type) := NextTable (t : Table A) | HugePage (word : Z).
Arguments NextTable {A} t.
Arguments HugePage {A} word.

Definition Level1 : Type := Table Z.
Definition Level2 : Type := Table (Slot Z).
Definition Level3 : Type := Table (Slot (Slot Z)).
Definition Level4 : Type := Table (Slot (Slot (Slot Z))).

Definition isEmpty {A} (t : Table A) : bool := match map_to_list (slots t) with [] => true | _ => false end.
Definition set_slot {A} (index : Z) (v : A) (t : Table A) : Table A := MkTable (table_page t) (<[index := v]> (slots t)).
Definition zero_slot {A} (index : Z) (t : Table A) : Table A := MkTable (table_page t) (delete index (slots t)).

(** The walk of the hardware: the word of the leaf entry of an address. *)
Definition leaf_at (t : Level1) (a : Z) : option Z :=
  match slots t !! p1Index a with
  | Some e => if Z.testbit e present then Some e else None
  | None => None
  end.
Definition next_at {A} (index : Z -> Z) (below : Table A -> Z -> option Z) (t : Table (Slot A)) (a : Z) : option Z :=
  match slots t !! index a with Some (NextTable s) => below s a | _ => None end.
Definition level2_at : Level2 -> Z -> option Z := next_at p2Index leaf_at.
Definition level3_at : Level3 -> Z -> option Z := next_at p3Index level2_at.
Definition translate : Level4 -> Z -> option Z := next_at p4Index level3_at.

(** ** Mapping a page *)

Inductive PageMapError := AlreadyMapped | MappingNotValid | PagesExhausted.

Section Map.
Context {A : Type} `{PageAllocator A}.

(** The next table, whether it was created, and the allocator. *)
Definition ensureNextTable {B} (entry : option (Slot B)) (a : A) : PageMapError + (Table B * bool * A) :=
  match entry with
  | Some (NextTable t) => inr (t, false, a)
  | Some (HugePage _) => inl MappingNotValid
  | None =>
      match allocate a with
      | None => inl PagesExhausted
      | Some (f, a') => inr (MkTable f ∅, true, a')
      end
  end.

(** One level of [map4KiB]: the rest of the function works on the next table, and
    when it fails a table created here is taken out again and queued to be freed. *)
Definition descend {B} (index : Z) (rest : Table B -> A -> option PageMapError * Table B * list Z * A)
    (t : Table (Slot B)) (a : A) : option PageMapError * Table (Slot B) * list Z * A :=
  match ensureNextTable (slots t !! index) a with
  | inl e => (Some e, t, [], a)
  | inr (next, created, a) =>
      let '(error, next', deallocate_page_list, a) := rest next a in
      match error with
      | Some e =>
          if created : bool then (Some e, zero_slot index t, table_page next :: deallocate_page_list, a)
          else (Some e, set_slot index (NextTable next') t, deallocate_page_list, a)
      | None => (None, set_slot index (NextTable next') t, deallocate_page_list, a)
      end
  end.

Definition set_leaf (execute_disable : bool) (index physical_address : Z) (mt : MapType) (t : Level1) (a : A) :
    option PageMapError * Level1 * list Z * A :=
  match setEntry execute_disable (default 0 (slots t !! index)) physical_address mt small with
  | None => (Some AlreadyMapped, t, [], a)
  | Some e => (None, set_slot index e t, [], a)
  end.

Definition map4KiB (execute_disable : bool) (level4_table : Level4) (virtual_address phys_page : Z) (mt : MapType) (a : A) :
    option PageMapError * Level4 * A :=
  let '(error, t, deallocate_page_list, a) :=
    descend (p4Index virtual_address)
      (descend (p3Index virtual_address)
        (descend (p2Index virtual_address)
          (set_leaf execute_disable (p1Index virtual_address) (baseAddress phys_page) mt))) level4_table a in
  match error with
  | Some e => (Some e, t, deallocate deallocate_page_list a)
  | None => (None, t, a)
  end.

End Map.

(** ** Batches of ranges *)

Definition virtual_ranges_to_batch : nat := 16.
Definition virtual_range_batching_merge_distance : Z := small_page_size * 4.

Definition extend_last (batch : list VirtualRange) (l r : VirtualRange) : list VirtualRange :=
  removelast batch ++ [VRange (address l) (size l + (address r - after l) + size r)].

Definition appendMergeIfFull (r : VirtualRange) (batch : list VirtualRange) : list VirtualRange :=
  match last batch with
  | None => [r]
  | Some l =>
      if (length batch =? virtual_ranges_to_batch)%nat then extend_last batch l r
      else if address r - after l <=? virtual_range_batching_merge_distance then extend_last batch l r
      else batch ++ [r]
  end.

(** ** Walking a range *)

Record Walk := MkWalk {
  current_virtual_address : Z;
  opt_in_progress_range : option VirtualRange;
  flush_batch : list VirtualRange;
  deallocate_page_list : list Z;
}.

Definition moved (a : Z) (w : Walk) : Walk :=
  MkWalk a (opt_in_progress_range w) (flush_batch w) (deallocate_page_list w).

Definition end_progress (w : Walk) : Walk :=
  match opt_in_progress_range w with
  | Some r => MkWalk (current_virtual_address w) None (appendMergeIfFull r (flush_batch w)) (deallocate_page_list w)
  | None => w
  end.

(** A leaf that changed: the range in progress grows by it, or one starts at it. *)
Definition note_page (starts : bool) (w : Walk) : Walk :=
  let progress :=
    match opt_in_progress_range w with
    | Some r => Some (VRange (address r) (size r + small_page_size))
    | None => if starts then Some (VRange (current_virtual_address w) small_page_size) else None
    end in
  MkWalk (current_virtual_address w) progress (flush_batch w) (deallocate_page_list w).

Definition deallocated (l : list Z) (w : Walk) : Walk :=
  MkWalk (current_virtual_address w) (opt_in_progress_range w) (flush_batch w) (l ++ deallocate_page_list w).

(** An entry that is not present: over to the next one of this level. *)
Definition skip (entry_size : Z) (w : Walk) : Walk :=
  let w := end_progress w in
  moved ((current_virtual_address w + entry_size) / entry_size * entry_size) w.

(** What is done at a leaf that is present: its new word, [None] for zero, and the
    pages to free. *)
Record LeafAction := MkLeaf { leaf_step : Z -> option Z * list Z; leaf_flush : bool }.

Definition level1_step (act : LeafAction) (index : Z) (t : Level1) (w : Walk) : Level1 * Walk :=
  let entry := default 0 (slots t !! index) in
  let '(t, w) :=
    if Z.testbit entry present then
      let '(word, freed) := leaf_step act entry in
      (match word with Some e => set_slot index e t | None => zero_slot index t end,
       note_page (leaf_flush act) (deallocated freed w))
    else (t, end_progress w) in
  (t, moved (current_virtual_address w + small_page_size) w).

Fixpoint level1_loop (act : LeafAction) (n : nat) (index : Z) (t : Level1) (w : Walk) : Level1 * Walk :=
  match n with
  | O => (t, w)
  | S n' => let '(t, w) := level1_step act index t w in level1_loop act n' (index + 1) t w
  end.

(** An iteration of the loop of a level above, and the loop: [entry_size] is what an
    entry of the level covers, [free] whether an emptied table below it is freed.
    [None] is the panic at a huge page. *)
Definition level_step {A} (entry_size : Z) (free : bool) (below : Z -> Table A -> Walk -> option (Table A * Walk))
    (index : Z) (t : Table (Slot A)) (w : Walk) : option (Table (Slot A) * Walk) :=
  match slots t !! index with
  | None => Some (t, skip entry_size w)
  | Some (HugePage _) => None
  | Some (NextTable next) =>
      '(next', w') ← below index next w;
      if free && isEmpty next' then Some (zero_slot index t, deallocated [table_page next] w')
      else Some (set_slot index (NextTable next') t, w')
  end.

Fixpoint level_loop {A} (entry_size : Z) (free : bool) (below : Z -> Table A -> Walk -> option (Table A * Walk))
    (n : nat) (index : Z) (t : Table (Slot A)) (w : Walk) : option (Table (Slot A) * Walk) :=
  match n with
  | O => Some (t, w)
  | S n' => '(t, w) ← level_step entry_size free below index t w; level_loop entry_size free below n' (index + 1) t w
  end.

(** The iterations from [first] to [last]. *)
Definition iterations (first last : Z) : nat := Z.to_nat (last + 1 - first).

Section Levels.
Variable act : LeafAction.
(** Whether emptied tables are freed, below the top level and at it. *)
Variable free top_free : bool.
Variable last_virtual_address : Z.

Definition level1 (level2_index : Z) (t : Level1) (w : Walk) : option (Level1 * Walk) :=
  let level1_index := p1Index (current_virtual_address w) in
  let last_level1_index :=
    if p2Index last_virtual_address =? level2_index then p1Index last_virtual_address else number_of_entries - 1 in
  Some (level1_loop act (iterations level1_index last_level1_index) level1_index t w).

Definition level2 (level3_index : Z) (t : Level2) (w : Walk) : option (Level2 * Walk) :=
  let level2_index := p2Index (current_virtual_address w) in
  let last_level2_index :=
    if p3Index last_virtual_address =? level3_index then p2Index last_virtual_address else number_of_entries - 1 in
  level_loop medium_page_size free level1 (iterations level2_index last_level2_index) level2_index t w.

Definition level3 (level4_index : Z) (t : Level3) (w : Walk) : option (Level3 * Walk) :=
  let level3_index := p3Index (current_virtual_address w) in
  let last_level3_index :=
    if p4Index last_virtual_address =? level4_index then p3Index last_virtual_address else number_of_entries - 1 in
  level_loop large_page_size free level2 (iterations level3_index last_level3_index) level3_index t w.

Definition level4 (t : Level4) (w : Walk) : option (Level4 * Walk) :=
  let level4_index := p4Index (current_virtual_address w) in
  level_loop level_4_address_space_size top_free level3
    (iterations level4_index (p4Index last_virtual_address)) level4_index t w.
End Levels.

Definition range_last (r : VirtualRange) : Z := if size r =? 0 then address r else address r + (size r - 1).

Definition walk_range (act : LeafAction) (free top_free : bool) (r : VirtualRange) (t : Level4)
    (flush : list VirtualRange) (dealloc : list Z) : option (Level4 * list VirtualRange * list Z) :=
  '(t, w) ← level4 act free top_free (range_last r) t (MkWalk (address r) None flush dealloc);
  let w := end_progress w in
  Some (t, flush_batch w, deallocate_page_list w).

(** [core.CleanupDecision]. *)
Inductive CleanupDecision := keep | free.
Definition is_free (d : CleanupDecision) : bool := match d with free => true | keep => false end.

Definition unmap_leaf (backing_page_decision : CleanupDecision) : LeafAction :=
  MkLeaf (fun e => (None, if is_free backing_page_decision then [fromAddress (getAddress4kib e)] else [])) true.

(** [PageTable.unmap]. *)
Definition pageTableUnmap (level4_table : Level4) (virtual_range : VirtualRange)
    (backing_page_decision top_level_decision : CleanupDecision) (flush : list VirtualRange) (dealloc : list Z) :
    option (Level4 * list VirtualRange * list Z) :=
  walk_range (unmap_leaf backing_page_decision) true (is_free top_level_decision) virtual_range level4_table flush dealloc.

Definition needToFlush (previous_map_type new_map_type : MapType) : bool :=
  match map_context previous_map_type, map_context new_map_type with
  | user, user | kernel, kernel =>
      match map_cache previous_map_type, map_cache new_map_type with
      | write_back, write_back | write_combining, write_combining | uncached, uncached =>
          negb (Bool.eqb (p_execute (map_protection previous_map_type)) (p_execute (map_protection new_map_type))) ||
          negb (Bool.eqb (p_write (map_protection previous_map_type)) (p_write (map_protection new_map_type)))
      | _, _ => true
      end
  | _, _ => true
  end.

Definition protect_leaf (execute_disable : bool) (previous_map_type new_map_type : MapType) : LeafAction :=
  MkLeaf (fun e => (Some (applyMapType execute_disable new_map_type small e), [])) (needToFlush previous_map_type new_map_type).

(** [PageTable.changeProtection]. *)
Definition pageTableChangeProtection (execute_disable : bool) (level4_table : Level4) (virtual_range : VirtualRange)
    (previous_map_type new_map_type : MapType) (flush : list VirtualRange) : option (Level4 * list VirtualRange) :=
  '(t, flush, _) ← walk_range (protect_leaf execute_disable previous_map_type new_map_type) false false
    virtual_range level4_table flush [];
  Some (t, flush).
