(* ===== verification/PageTableCorrect.v ===== *)
(** * Page tables: correctness

    What mapping a page and walking a range do to the translation of every address,
    to the pages the tables are in, and to the ranges flushed from the TLB. *)

From stdpp Require Import gmap.
From S2P Require Import Prelude Machine AddressSpace AddressSpaceCorrect PageTable.

#[local] Arguments Z.testbit : simpl never.

(** ** Indices *)

Definition slot_of (s a : Z) : Z := a / s mod 512.

Lemma p1Index_slot a : p1Index a = slot_of small_page_size a.
Proof. unfold p1Index, slot_of. now rewrite Z.shiftr_div_pow2. Qed.
Lemma p2Index_slot a : p2Index a = slot_of medium_page_size a.
Proof. unfold p2Index, slot_of. now rewrite Z.shiftr_div_pow2. Qed.
Lemma p3Index_slot a : p3Index a = slot_of large_page_size a.
Proof. unfold p3Index, slot_of. now rewrite Z.shiftr_div_pow2. Qed.
Lemma p4Index_slot a : p4Index a = slot_of level_4_address_space_size a.
Proof. unfold p4Index, slot_of. now rewrite Z.shiftr_div_pow2. Qed.

Lemma slot_of_range s a : 0 <= slot_of s a < 512.
Proof. unfold slot_of. apply Z.mod_pos_bound. lia. Qed.

(** The entries of a table whose first address is [b * (512 * s)]. *)
Lemma slot_of_in s b a j : 0 < s -> 0 <= j < 512 ->
  b * (512 * s) + j * s <= a < b * (512 * s) + (j + 1) * s -> slot_of s a = j.
Proof.
  intros Hs Hj Ha. unfold slot_of. symmetry.
  assert (Hq : a / s = b * 512 + j) by (symmetry; apply (Z.div_unique a s _ (a - (b * 512 + j) * s)); lia).
  rewrite Hq. apply (Z.mod_unique _ _ b); lia.
Qed.

Lemma slot_of_bounds s b a : 0 < s -> b * (512 * s) <= a < b * (512 * s) + 512 * s ->
  b * (512 * s) + slot_of s a * s <= a < b * (512 * s) + (slot_of s a + 1) * s.
Proof.
  intros Hs Ha. pose proof (Z.div_mod a s ltac:(lia)) as Hd. pose proof (Z.mod_pos_bound a s Hs) as Hm.
  assert (Hq : b * 512 <= a / s < b * 512 + 512).
  { split; [apply Z.div_le_lower_bound; lia|apply Z.div_lt_upper_bound; lia]. }
  assert (slot_of s a = a / s - b * 512) as ->; [|nia].
  unfold slot_of. symmetry. apply (Z.mod_unique _ _ b); lia.
Qed.

(** The last index of the loop over a table, when the test for the end is right. *)
Lemma last_index s b last (test : bool) : 0 < s -> b * (512 * s) <= last ->
  (if test then last < b * (512 * s) + 512 * s else b * (512 * s) + 512 * s <= last) ->
  let l := if test then slot_of s last else number_of_entries - 1 in
  0 <= l < 512 /\ b * (512 * s) + l * s <= last /\ (l = 511 \/ last + 1 <= b * (512 * s) + (l + 1) * s).
Proof.
  intros Hs Hb Ht. destruct test; cbv zeta; [|unfold number_of_entries; lia].
  pose proof (slot_of_bounds s b last Hs ltac:(lia)). pose proof (slot_of_range s last). lia.
Qed.

(** The test compares the index of the last address at the level above, which is
    right when the range is not so long that an index comes twice. *)
Lemma last_test size b lo c last : 0 < size -> b * size <= c < b * size + size -> lo <= c <= last ->
  last / size - lo / size < 512 ->
  if slot_of size last =? b mod 512 then last < b * size + size else b * size + size <= last.
Proof.
  intros Hs Hc Hl Hd. unfold slot_of.
  assert (lo / size <= b) by (apply Z.lt_succ_r, Z.div_lt_upper_bound; lia).
  assert (b <= last / size) by (apply Z.div_le_lower_bound; lia).
  pose proof (Z.div_mod last size ltac:(lia)) as Hm. pose proof (Z.mod_pos_bound last size Hs) as Hr.
  destruct (Z.eqb_spec (last / size mod 512) (b mod 512)) as [He|He].
  - assert (last / size = b) as E; [|nia].
    pose proof (Z.div_mod (last / size) 512 ltac:(lia)). pose proof (Z.div_mod b 512 ltac:(lia)). lia.
  - assert (last / size <> b) by (intros E; now rewrite E in He). nia.
Qed.

(** ** Batches of ranges *)

Definition in_batch (batch : list VirtualRange) (x : Z) : Prop := exists r, r ∈ batch /\ contains r x.

(** The batch ends before [a]. *)
Definition batch_before (batch : list VirtualRange) (a : Z) : Prop :=
  match last batch with Some l => 0 <= size l /\ after l <= a | None => True end.

Lemma append_ok r batch : 0 <= size r -> batch_before batch (address r) ->
  batch_before (appendMergeIfFull r batch) (after r) /\
  forall x, in_batch batch x \/ contains r x -> in_batch (appendMergeIfFull r batch) x.
Proof.
  intros Hr Hb. unfold appendMergeIfFull, batch_before in *. destruct (last batch) as [l|] eqn:El.
  2: { apply last_None in El as ->. cbn. split; [lia|]. intros x [(q & Hq & _)|Hx]; [now apply not_elem_of_nil in Hq|].
       exists r. split; [now apply list_elem_of_singleton|done]. }
  apply last_Some in El as [pre ->].
  assert (Hm : batch_before (extend_last (pre ++ [l]) l r) (after r) /\
    forall x, in_batch (pre ++ [l]) x \/ contains r x -> in_batch (extend_last (pre ++ [l]) l r) x).
  { unfold extend_last, batch_before. rewrite removelast_last, last_snoc. unfold after in *. cbn. split; [lia|].
    intros x [(q & Hq & Hx)|Hx].
    - apply elem_of_app in Hq as [Hq|Hq%list_elem_of_singleton].
      + exists q. split; [apply elem_of_app; auto|done].
      + eexists. split; [apply elem_of_app; right; now apply list_elem_of_singleton|]. subst q.
        unfold contains, after in *. cbn. lia.
    - eexists. split; [apply elem_of_app; right; now apply list_elem_of_singleton|].
      unfold contains, after in *. cbn. lia. }
  destruct (_ =? _)%nat; [exact Hm|]. destruct (_ <=? _); [exact Hm|].
  split; [now rewrite last_snoc|]. intros x [(q & Hq & Hx)|Hx]; [exists q|exists r]; (split; [|done]); apply elem_of_app; [auto|].
  right. now apply list_elem_of_singleton.
Qed.

(** ** The state of a walk *)

Definition covered (w : Walk) (x : Z) : Prop :=
  in_batch (flush_batch w) x \/ exists r, opt_in_progress_range w = Some r /\ contains r x.

(** The range in progress ends where the walk is, the batch before it, and neither
    goes beyond [e]. *)
Definition walk_ok (e : Z) (w : Walk) : Prop :=
  match opt_in_progress_range w with
  | Some r => after r = current_virtual_address w /\ 0 < size r /\ after r <= e /\ batch_before (flush_batch w) (address r)
  | None => batch_before (flush_batch w) (Z.min (current_virtual_address w) e)
  end.

Lemma batch_before_mono batch a b : batch_before batch a -> a <= b -> batch_before batch b.
Proof. unfold batch_before. destruct (last batch); [lia|done]. Qed.

Lemma end_progress_ok e w : walk_ok e w -> let w' := end_progress w in
  opt_in_progress_range w' = None /\ batch_before (flush_batch w') (Z.min (current_virtual_address w') e) /\
  current_virtual_address w' = current_virtual_address w /\ deallocate_page_list w' = deallocate_page_list w /\
  (forall x, covered w x -> in_batch (flush_batch w') x).
Proof.
  unfold walk_ok, end_progress, covered. destruct (opt_in_progress_range w) as [r|] eqn:Er; cbn.
  - intros (H1 & H2 & He & H3). destruct (append_ok r (flush_batch w) ltac:(lia) H3) as [A B].
    split; [done|]. split; [now rewrite Z.min_l, <- H1 by lia|]. split; [done|]. split; [done|].
    intros x [Hx|(q & [= <-] & Hx)]; auto.
  - intros H. split; [done|]. split; [done|]. split; [done|]. split; [done|]. intros x [Hx|(q & Hq & _)]; [done|congruence].
Qed.

Lemma end_progress_moved e w b : walk_ok e w -> current_virtual_address w <= b ->
  walk_ok e (moved b (end_progress w)) /\ deallocate_page_list (moved b (end_progress w)) = deallocate_page_list w /\
  forall x, covered w x -> covered (moved b (end_progress w)) x.
Proof.
  intros Hw Hb. destruct (end_progress_ok e w Hw) as (A & B & C & D & E).
  split; [|split; [done|left; now apply E]]. unfold walk_ok. cbn. rewrite A. rewrite C in B.
  apply (batch_before_mono _ _ _ B). lia.
Qed.

Lemma note_page_ok e starts fr w : walk_ok e w -> current_virtual_address w + small_page_size <= e ->
  let w' := moved (current_virtual_address w + small_page_size) (note_page starts (deallocated fr w)) in
  walk_ok e w' /\ deallocate_page_list w' = fr ++ deallocate_page_list w /\ (forall x, covered w x -> covered w' x) /\
  (starts = true -> forall x, current_virtual_address w <= x < current_virtual_address w + small_page_size -> covered w' x).
Proof.
  unfold walk_ok, covered, note_page, deallocated. cbn.
  destruct (opt_in_progress_range w) as [r|]; cbn.
  - intros (H1 & H2 & H3 & H4) He. unfold after, small_page_size in *. cbn. split; [repeat (split; [lia|]); done|]. split; [done|]. split.
    + intros x [Hx|(q & [= <-] & Hx)]; [auto|]. right. eexists. split; [done|]. unfold contains, after in *. cbn. lia.
    + intros _ x Hx. right. eexists. split; [done|]. unfold contains, after. cbn. lia.
  - intros H He. destruct starts; cbn.
    + unfold after, small_page_size in *. cbn. rewrite Z.min_l in H by lia. split; [repeat (split; [lia|]); done|]. split; [done|]. split; [intros x [Hx|(q & [=] & _)]; auto|].
      intros _ x Hx. right. eexists. split; [done|]. unfold contains, after. cbn. lia.
    + split; [apply (batch_before_mono _ _ _ H); unfold small_page_size; lia|]. split; [done|]. split; [|done].
      intros x [Hx|(q & [=] & _)]; auto.
Qed.

(** ** The pages the tables are in *)

Definition table_pages {A} (below : A -> list Z) (t : Table A) : list Z :=
  table_page t :: (map_to_list (slots t) ≫= fun kv => below kv.2).

Definition slot_pages {A} (below : Table A -> list Z) (s : Slot A) : list Z :=
  match s with NextTable t => below t | HugePage _ => [] end.

Lemma bind_perm {A B} (f : A -> list B) l l' : l ≡ₚ l' -> l ≫= f ≡ₚ l' ≫= f.
Proof. now intros ->. Qed.

Lemma pages_zero {A} (below : A -> list Z) i t v : slots t !! i = Some v ->
  table_pages below t ≡ₚ below v ++ table_pages below (zero_slot i t).
Proof.
  intros Hi. unfold table_pages. cbn. rewrite <- (bind_perm _ _ _ (map_to_list_delete (slots t) i v Hi)). cbn.
  apply Permutation_middle.
Qed.

Lemma pages_set {A} (below : A -> list Z) i t v :
  table_pages below (set_slot i v t) ≡ₚ below v ++ table_pages below (zero_slot i t).
Proof.
  unfold table_pages. cbn. rewrite <- insert_delete_eq.
  rewrite (bind_perm _ _ _ (map_to_list_insert (delete i (slots t)) i v (lookup_delete_eq _ _))). cbn.
  apply Permutation_middle.
Qed.

Lemma isEmpty_slots {A} (t : Table A) : isEmpty t = true -> slots t = ∅.
Proof. unfold isEmpty. destruct (map_to_list (slots t)) eqn:E; [|done]. intros _. now apply map_to_list_empty_iff. Qed.

Lemma pages_empty {A} (below : A -> list Z) t : isEmpty t = true -> table_pages below t = [table_page t].
Proof. intros Ht. unfold table_pages. now rewrite (isEmpty_slots t Ht), map_to_list_empty. Qed.

(** ** Walking *)

Section Walking.
Variable act : LeafAction.
(** The end of the range. *)
Variable lim : Z.
(** The pages an entry stands for, of those that are accounted for. *)
Variable leaf_pages : Z -> list Z.

Class LeafLaws : Prop := {
  step_present : forall e e' fr, leaf_step act e = (Some e', fr) -> Z.testbit e' present = true;
  step_pages : forall e o fr, leaf_step act e = (o, fr) -> leaf_pages e ≡ₚ from_option leaf_pages [] o ++ fr;
}.
Context {laws : LeafLaws}.

Definition stepped (e : Z) : option Z := if Z.testbit e present then (leaf_step act e).1 else Some e.

Definition loop_pages {A} (below : A -> list Z) (t : Table A) (w : Walk) : list Z :=
  table_pages below t ++ deallocate_page_list w.

(** What a piece of the loop over a leaf table does: the slots from [j] on, [n] of
    them, have been stepped. *)
Record leaves_walked (j n : Z) (t : Level1) (w : Walk) (t' : Level1) (w' : Walk) : Prop := {
  lw_slots : forall k, slots t' !! k = if decide (j <= k < j + n) then slots t !! k ≫= stepped else slots t !! k;
  lw_page : table_page t' = table_page t;
  lw_current : current_virtual_address w' = current_virtual_address w + n * small_page_size;
  lw_ok : walk_ok lim w';
  lw_covered : forall x, covered w x -> covered w' x;
  lw_flushed : leaf_flush act = true -> forall k word x, j <= k < j + n -> slots t !! k = Some word ->
    Z.testbit word present = true ->
    current_virtual_address w + (k - j) * small_page_size <= x < current_virtual_address w + (k - j + 1) * small_page_size ->
    covered w' x;
  lw_pages : loop_pages leaf_pages t' w' ≡ₚ loop_pages leaf_pages t w;
}.

Lemma level1_step_present j t w e : slots t !! j = Some e -> Z.testbit e present = true -> walk_ok lim w ->
  current_virtual_address w + small_page_size <= lim -> leaves_walked j 1 t w (level1_step act j t w).1 (level1_step act j t w).2.
Proof.
  intros Ej Ep Hw He0. unfold level1_step. rewrite Ej. change (default 0 (Some e)) with e. rewrite Ep.
  destruct (leaf_step act e) as [o fr] eqn:Ee. cbn [fst snd].
  destruct (note_page_ok lim (leaf_flush act) fr w Hw He0) as (A & B & C & D).
  assert (Hs : stepped e = o) by (unfold stepped; now rewrite Ep, Ee). split.
  - intros k. destruct (decide (j <= k < j + 1)) as [Hk|Hk].
    + replace k with j by lia. rewrite Ej. cbn. rewrite Hs.
      destruct o; cbn; [now rewrite lookup_insert_eq|now rewrite lookup_delete_eq].
    + destruct o; cbn; [now rewrite lookup_insert_ne by lia|now rewrite lookup_delete_ne by lia].
  - now destruct o.
  - cbn. lia.
  - exact A.
  - exact C.
  - intros Hf k _ x Hk _ _ Hx. apply (D Hf). replace k with j in Hx by lia. lia.
  - unfold loop_pages. cbn [deallocate_page_list moved note_page deallocated].
    rewrite (pages_zero leaf_pages j t e Ej), (step_pages _ _ _ Ee). destruct o as [e'|]; cbn [from_option].
    + rewrite pages_set. rewrite <- !app_assoc. apply Permutation_app_head. rewrite !app_assoc.
      apply Permutation_app_tail, Permutation_app_comm.
    + rewrite app_nil_l, !app_assoc. apply Permutation_app_tail, Permutation_app_comm.
Qed.

Lemma level1_step_absent j t w : Z.testbit (default 0 (slots t !! j)) present = false -> walk_ok lim w ->
  leaves_walked j 1 t w (level1_step act j t w).1 (level1_step act j t w).2.
Proof.
  intros Ep Hw. unfold level1_step. rewrite Ep. cbn [fst snd].
  destruct (end_progress_ok lim w Hw) as (_ & _ & C0 & _). rewrite C0.
  destruct (end_progress_moved lim w (current_virtual_address w + small_page_size) Hw ltac:(unfold small_page_size; lia)) as (A & B & C).
  split; [|done|cbn; lia|exact A|exact C| |].
  - intros k. destruct (decide (j <= k < j + 1)) as [Hk|Hk]; [|done]. replace k with j by lia.
    destruct (slots t !! j) as [e|]; [|done]. cbn in Ep |- *. unfold stepped. now rewrite Ep.
  - intros _ k e x Hk He Hp. replace k with j in He by lia. rewrite He in Ep. cbn in Ep. congruence.
  - unfold loop_pages. now rewrite B.
Qed.

Lemma level1_loop_ret n : forall j t w, walk_ok lim w -> current_virtual_address w + Z.of_nat n * small_page_size <= lim ->
  leaves_walked j (Z.of_nat n) t w (level1_loop act n j t w).1 (level1_loop act n j t w).2.
Proof.
  induction n as [|n IH]; intros j t w Hw He0; cbn [level1_loop].
  { split; [|done|cbn; lia|done|done|lia|done]. intros k. now rewrite decide_False by lia. }
  assert (H1 : leaves_walked j 1 t w (level1_step act j t w).1 (level1_step act j t w).2).
  { destruct (Z.testbit (default 0 (slots t !! j)) present) eqn:Ep; [|now apply level1_step_absent].
    destruct (slots t !! j) as [e|] eqn:Ej; [|done]. apply (level1_step_present j t w e); [done|done|done|unfold small_page_size in *; lia]. }
  destruct (level1_step act j t w) as [t1 w1]. destruct H1 as [S1 T1 C1 W1 V1 F1 P1]. cbn [fst snd] in *.
  destruct (IH (j + 1) t1 w1 W1 ltac:(lia)) as [S2 T2 C2 W2 V2 F2 P2]. clear IH. split; [|congruence|lia|done|auto| |].
  - intros k. rewrite S2, S1. destruct (decide (j <= k < j + 1)).
    + rewrite decide_False by lia. now rewrite decide_True by lia.
    + destruct (decide (j + 1 <= k < j + 1 + Z.of_nat n)); [rewrite decide_True by lia|rewrite decide_False by lia]; done.
  - intros Hf k e x Hk He Hp Hx. destruct (decide (k = j)) as [->|Hne].
    + apply V2, (F1 Hf j e x); auto; lia.
    + apply (F2 Hf k e x); [lia| |done|lia]. rewrite S1. now rewrite decide_False by lia.
  - now rewrite P2.
Qed.

(** What walking the addresses [b] to [b + len] of a table up to [e] does. *)
Record walked {A} (view : Table A -> Z -> option Z) (below : A -> list Z) (plain : Table A -> Prop) (b len e : Z)
    (t : Table A) (w : Walk) (t' : Table A) (w' : Walk) : Prop := {
  wk_view : forall x, b <= x < b + len ->
    view t' x = if decide (current_virtual_address w <= x < e) then view t x ≫= stepped else view t x;
  wk_page : table_page t' = table_page t;
  wk_current : b + len <= e -> current_virtual_address w' = b + len;
  wk_ok : walk_ok lim w';
  wk_covered : forall x, covered w x -> covered w' x;
  wk_flushed : leaf_flush act = true -> forall x, b <= x < b + len -> current_virtual_address w <= x < e ->
    is_Some (view t x) -> covered w' x;
  wk_pages : loop_pages below t' w' ≡ₚ loop_pages below t w;
  wk_plain : plain t -> plain t';
}.

(** Up to [e1], and from there up to [e]. *)
Lemma walked_trans {A} view (below : A -> list Z) plain b len e1 e t w t1 w1 t' w' :
  walked view below plain b len e1 t w t1 w1 -> current_virtual_address w1 = e1 ->
  current_virtual_address w <= e1 <= e -> walked view below plain b len e t1 w1 t' w' ->
  walked view below plain b len e t w t' w'.
Proof.
  intros [A1 A2 A3 A4 A5 A6 A7 A8] Hc He [B1 B2 B3 B4 B5 B6 B7 B8]. rewrite Hc in *.
  assert (V1 : forall x, b <= x < b + len -> e1 <= x -> view t1 x = view t x).
  { intros x Hx H1. rewrite A1 by done. now rewrite decide_False by lia. }
  split; [|congruence|done|done|auto| |now rewrite B7|auto].
  - intros x Hx. rewrite B1 by done. destruct (Z_lt_le_dec x e1) as [H1|H1].
    + rewrite decide_False by lia. rewrite A1 by done.
      destruct (decide (current_virtual_address w <= x < e1)); [rewrite decide_True by lia|rewrite decide_False by lia]; done.
    + rewrite (V1 x Hx H1).
      destruct (decide (e1 <= x < e)); [rewrite decide_True by lia|rewrite decide_False by lia]; done.
  - intros Hf x Hx H1 Hs. destruct (Z_lt_le_dec x e1) as [H2|H2]; [apply B5, A6; auto; lia|].
    apply B6; [done|done|lia|]. now rewrite (V1 x Hx H2).
Qed.

(** The part of [e] that lies in the table is all that counts. *)
Lemma walked_end {A} view (below : A -> list Z) plain b len e1 e t w t' w' :
  walked view below plain b len e1 t w t' w' -> e1 = Z.min e (b + len) -> walked view below plain b len e t w t' w'.
Proof.
  intros [A1 A2 A3 A4 A5 A6 A7 A8] ->. split; [|done| |done|done| |done|done].
  - intros x Hx. rewrite A1 by done.
    destruct (decide (current_virtual_address w <= x < e)); [rewrite decide_True by lia|rewrite decide_False by lia]; done.
  - intros H. apply A3. lia.
  - intros Hf x Hx H1. apply A6; [done|done|lia].
Qed.

Lemma aligned_slot b a : aligned a = true -> b * (512 * small_page_size) <= a < b * (512 * small_page_size) + 512 * small_page_size ->
  a = b * (512 * small_page_size) + slot_of small_page_size a * small_page_size.
Proof.
  intros Ha Hb. pose proof (slot_of_bounds small_page_size b a ltac:(done) Hb) as Hs.
  unfold aligned, page in Ha. apply Z.eqb_eq in Ha. pose proof (Z.div_mod a 4096 ltac:(lia)).
  unfold small_page_size in *. lia.
Qed.

Lemma aligned_mult k s : aligned s = true -> aligned (k * s) = true.
Proof.
  unfold aligned, page. rewrite !Z.eqb_eq. intros H. rewrite Z.mul_mod, H by lia. now rewrite Z.mul_0_r.
Qed.

Definition leaf_plain (t : Level1) : Prop := True.

Lemma leaf_at_stepped t t' x : slots t' !! p1Index x = slots t !! p1Index x ≫= stepped ->
  leaf_at t' x = leaf_at t x ≫= stepped.
Proof.
  unfold leaf_at. intros ->. destruct (slots t !! p1Index x) as [e|]; [|done]. cbn. unfold stepped at 1.
  destruct (Z.testbit e present) eqn:Ep; cbn.
  - unfold stepped. rewrite Ep. destruct (leaf_step act e) as [[e'|] fr] eqn:Ee; cbn; [|done]. now rewrite (step_present _ _ _ Ee).
  - now rewrite Ep.
Qed.

(** The leaf loop up to the last index [l]. *)
Lemma leaves_ret b e l t w : e <= lim -> aligned e = true -> aligned (current_virtual_address w) = true -> walk_ok lim w ->
  b * medium_page_size <= current_virtual_address w < b * medium_page_size + medium_page_size ->
  current_virtual_address w < e -> l < 512 -> b * medium_page_size + l * small_page_size < e ->
  l = 511 \/ e <= b * medium_page_size + (l + 1) * small_page_size ->
  let j := p1Index (current_virtual_address w) in
  let r := level1_loop act (iterations j l) j t w in
  walked leaf_at leaf_pages leaf_plain (b * medium_page_size) medium_page_size e t w r.1 r.2.
Proof.
  intros Hlim He Hca Hw Hc Hce Hl He1 He2. cbv zeta. rewrite p1Index_slot.
  change medium_page_size with (512 * small_page_size) in *.
  set (B := b * (512 * small_page_size)) in *. set (c := current_virtual_address w) in *.
  set (j := slot_of small_page_size c). pose proof (aligned_slot b c Hca Hc) as Ej. fold B j in Ej.
  pose proof (slot_of_range small_page_size c) as Hj. fold j in Hj.
  assert (Ee : e = B + (l + 1) * small_page_size \/ (l = 511 /\ B + 512 * small_page_size <= e)).
  { unfold aligned, page in *. apply Z.eqb_eq in He, Hca. unfold small_page_size in *.
    assert (B mod 4096 = 0) by (unfold B; apply Z.mod_divide; [lia|exists (b * 512); lia]).
    pose proof (Z.div_mod e 4096 ltac:(lia)). pose proof (Z.div_mod B 4096 ltac:(lia)). lia. }
  assert (Hjl : j <= l) by (unfold small_page_size in *; lia).
  destruct (level1_loop_ret (iterations j l) j t w Hw) as [S1 T1 C1 W1 V1 F1 P1];
    [unfold iterations; rewrite Z2Nat.id by lia; fold c; unfold small_page_size in *; lia|]. unfold iterations in *. rewrite Z2Nat.id in * by lia. fold c in C1, F1.
  assert (Hk : forall x, B <= x < B + 512 * small_page_size -> let k := slot_of small_page_size x in
    B + k * small_page_size <= x < B + (k + 1) * small_page_size /\ (j <= k < j + (l + 1 - j) <-> c <= x < e)).
  { intros x Hx. cbv zeta. pose proof (slot_of_bounds small_page_size b x ltac:(done) Hx) as Hs. fold B in Hs.
    pose proof (slot_of_range small_page_size x). split; [exact Hs|]. unfold small_page_size in *. lia. }
  split; [|done| |done|done| |done|done].
  - intros x Hx. destruct (Hk x Hx) as [_ Hi]. pose proof (S1 (slot_of small_page_size x)) as Sx.
    rewrite <- p1Index_slot in Sx, Hi. fold c. destruct (decide (c <= x < e)) as [Hy|Hy].
    + apply leaf_at_stepped. rewrite Sx. now rewrite decide_True by now apply Hi.
    + unfold leaf_at. rewrite Sx. rewrite decide_False; [done|]. intros Hz. apply Hy, Hi, Hz.
  - intros H. rewrite C1. unfold small_page_size in *. lia.
  - intros Hf x Hx Hy [e' Hv]. destruct (Hk x Hx) as [Hb Hi]. unfold leaf_at in Hv. rewrite p1Index_slot in Hv.
    destruct (slots t !! slot_of small_page_size x) as [e0|] eqn:Es; [|done].
    destruct (Z.testbit e0 present) eqn:Ep; [|done].
    apply (F1 Hf _ e0 x (proj2 Hi Hy) Es Ep). unfold small_page_size in *. lia.
Qed.

(** *** The loops above *)

Definition next_plain {A} (bound : Z) (plain : Table A -> Prop) (t : Table (Slot A)) : Prop :=
  forall i sl, i < bound -> slots t !! i = Some sl -> exists next, sl = NextTable next /\ plain next.

Lemma set_next_plain {A} bound (plain : Table A -> Prop) i t next : next_plain bound plain t -> plain next ->
  next_plain bound plain (set_slot i (NextTable next) t).
Proof.
  intros Hp Hn j sl Hj. cbn. intros [[<- <-]|[_ Hi']]%lookup_insert_Some; [eauto|exact (Hp j sl Hj Hi')].
Qed.

Lemma empty_plain {A} bound (plain : Table A -> Prop) p : next_plain bound plain (MkTable p ∅).
Proof. intros i sl _ Hl. cbn in Hl. now rewrite lookup_empty in Hl. Qed.

Section Level.
Context {A : Type} (s : Z) (index : Z -> Z) (view : Table A -> Z -> option Z) (below_pages : A -> list Z).
Context (plain : Table A -> Prop) (below : Z -> Table A -> Walk -> option (Table A * Walk)).
Context (free : bool) (bound b lo e : Z).
Context (Hs : 0 < s) (Hsa : aligned s = true) (Hindex : forall a, index a = slot_of s a).
Context (Hempty : forall t x, slots t = ∅ -> view t x = None).

Let first : Z := b * (512 * s).

(** Where the walk is in the entry [j] of the table. *)
Definition within (j : Z) (w : Walk) : Prop :=
  walk_ok lim w /\ aligned (current_virtual_address w) = true /\
  first + j * s <= current_virtual_address w < first + (j + 1) * s /\
  lo <= current_virtual_address w < e.

Context (Hbelow : forall j next w, 0 <= j < 512 -> within j w -> plain next ->
  exists next' w', below j next w = Some (next', w') /\
    walked view below_pages plain (first + j * s) s e next w next' w').

Let up_walked := walked (next_at index view) (slot_pages (table_pages below_pages)) (next_plain bound plain) first (512 * s).

Lemma index_in j x : 0 <= j < 512 -> first + j * s <= x < first + (j + 1) * s -> index x = j.
Proof. intros Hj Hx. rewrite Hindex. now apply (slot_of_in s b). Qed.

Lemma index_out j x : 0 <= j < 512 -> first <= x < first + 512 * s -> ~ (first + j * s <= x < first + (j + 1) * s) ->
  index x <> j.
Proof. intros Hj Hx Hn Hi. apply Hn. rewrite Hindex in Hi. rewrite <- Hi. now apply (slot_of_bounds s b). Qed.

(** A new table at the entry [j], seen from this level. *)
Lemma level_slot_walked j t next w next' w' t' : 0 <= j < 512 -> within j w ->
  slots t !! j = Some (NextTable next) ->
  walked view below_pages plain (first + j * s) s e next w next' w' ->
  (forall x, index x = j -> next_at index view t' x = view next' x) ->
  (forall x, index x <> j -> next_at index view t' x = next_at index view t x) ->
  forall w1, table_page t' = table_page t ->
  current_virtual_address w1 = current_virtual_address w' -> walk_ok lim w1 -> (forall x, covered w' x -> covered w1 x) ->
  loop_pages (slot_pages (table_pages below_pages)) t' w1 ≡ₚ loop_pages (slot_pages (table_pages below_pages)) t w ->
  (next_plain bound plain t -> next_plain bound plain t') ->
  up_walked (Z.min e (first + (j + 1) * s)) t w t' w1.
Proof.
  intros Hj (Hw & Ha & Hc & Hl) Ht [A1 A2 A3 A4 A5 A6 A7 A8] Hin Hout w1 Hpg Hcur Hok Hcov Hpages Hpl.
  assert (Hold : forall x, index x = j -> next_at index view t x = view next x).
  { intros x Hx. unfold next_at. now rewrite Hx, Ht. }
  split; [|done| |done|auto| |done|done].
  - intros x Hx.
    assert (Hd : first + j * s <= x < first + (j + 1) * s \/ ~ (first + j * s <= x < first + (j + 1) * s)) by lia.
    destruct Hd as [Hy|Hy].
    + pose proof (index_in j x Hj Hy) as Hi. rewrite (Hin x Hi), (Hold x Hi), A1 by lia.
      destruct (decide (current_virtual_address w <= x < e)); [rewrite decide_True by lia|rewrite decide_False by lia]; done.
    + rewrite decide_False by lia. apply Hout. now apply index_out.
  - intros H. rewrite Hcur, A3; nia.
  - intros Hf x Hx Hy Hv. apply Hcov, (A6 Hf x); [lia|lia|]. rewrite <- Hold; [done|]. apply (index_in j); lia.
Qed.

Lemma level_step_ret j t w : 0 <= j < 512 -> j < bound -> within j w -> next_plain bound plain t ->
  exists t' w', level_step s free below j t w = Some (t', w') /\ up_walked (Z.min e (first + (j + 1) * s)) t w t' w' /\
    (first + (j + 1) * s <= e -> current_virtual_address w' = first + (j + 1) * s).
Proof.
  intros Hj Hjb Hwi Hp. pose proof Hwi as (Hw & Ha & Hc & Hl). unfold level_step.
  destruct (slots t !! j) as [sl|] eqn:Et.
  - destruct (Hp j sl Hjb Et) as (next & -> & Hpn). destruct (Hbelow j next w Hj Hwi Hpn) as (next' & w' & Eb & Hwk).
    rewrite Eb. unfold mbind, option_bind. pose proof Hwk as [_ A2 A3 A4 _ _ A7 A8].
    assert (Hcov : forall f x, covered w' x -> covered (deallocated f w') x) by done.
    destruct (free && isEmpty next') eqn:Ef.
    + apply andb_prop in Ef as [_ Ef]. eexists _, _. split; [done|].
      split; [|intros H; cbn; rewrite A3; lia].
      apply (level_slot_walked j t next w next' w'); try done.
      * intros x Hx. unfold next_at. cbn. rewrite Hx, lookup_delete_eq. symmetry. now apply Hempty, isEmpty_slots.
      * intros x Hx. unfold next_at. cbn. now rewrite lookup_delete_ne by done.
      * unfold loop_pages in *. cbn [deallocate_page_list deallocated]. rewrite (pages_zero _ j t _ Et). cbn [slot_pages].
        rewrite pages_empty in A7 by done. rewrite A2 in A7. cbn [app] in A7.
        rewrite <- (app_assoc (table_pages below_pages next)), (Permutation_app_swap_app (table_pages below_pages next)).
        now rewrite <- A7.
      * intros _ i sl Hi. cbn. intros [_ Hi']%lookup_delete_Some. exact (Hp i sl Hi Hi').
    + eexists _, _. split; [done|]. split; [|intros H; rewrite A3; lia].
      apply (level_slot_walked j t next w next' w'); try done.
      * intros x Hx. unfold next_at. cbn. now rewrite Hx, lookup_insert_eq.
      * intros x Hx. unfold next_at. cbn. now rewrite lookup_insert_ne by done.
      * unfold loop_pages in *. rewrite (pages_zero _ j t _ Et), pages_set. cbn [slot_pages].
        rewrite <- !app_assoc, (Permutation_app_swap_app (table_pages below_pages next')), A7. apply Permutation_app_swap_app.
      * intros _. apply set_next_plain; auto.
  - eexists _, _. split; [done|].
    assert (Hcur : (current_virtual_address w + s) / s * s = first + (j + 1) * s).
    { assert ((current_virtual_address w + s) / s = b * 512 + j + 1) as ->; [|unfold first; lia].
      symmetry. apply (Z.div_unique _ _ _ (current_virtual_address w - first - j * s)); unfold first in *; lia. }
    destruct (end_progress_ok lim w Hw) as (_ & _ & C0 & _). unfold skip. rewrite C0, Hcur.
    destruct (end_progress_moved lim w (first + (j + 1) * s) Hw ltac:(lia)) as (B1 & B2 & B3).
    split; [|intros _; done]. split; [|done|cbn; nia|done|done| |unfold loop_pages; now rewrite B2|done].
    + intros x Hx. destruct (decide _) as [Hy|]; [|done]. unfold next_at. now rewrite (index_in j x Hj ltac:(lia)), Et.
    + intros Hf x Hx Hy [v Hv]. unfold next_at in Hv. now rewrite (index_in j x Hj ltac:(lia)), Et in Hv.
Qed.

Lemma level_loop_ret l n : l < 512 -> l < bound -> first + l * s < e -> l = 511 \/ e <= first + (l + 1) * s ->
  forall j t w, Z.of_nat n = l + 1 - j -> 0 <= j <= l -> within j w -> next_plain bound plain t ->
  exists t' w', level_loop s free below n j t w = Some (t', w') /\ up_walked e t w t' w'.
Proof.
  intros Hl Hlb He1 He2. induction n as [|n IH]; intros j t w Hn Hj Hwi Hp; [lia|]. cbn [level_loop].
  destruct (level_step_ret j t w ltac:(lia) ltac:(lia) Hwi Hp) as (t1 & w1 & -> & W1 & C1).
  unfold mbind, option_bind. pose proof Hwi as (Hw & Ha & Hc & Hlo).
  destruct (decide (j = l)) as [->|Hne].
  - assert (n = O) as -> by lia. exists t1, w1. split; [done|]. apply (walked_end _ _ _ _ _ _ _ _ _ _ _ W1).
    destruct He2 as [->|He2]; [f_equal; lia|].
    assert (first + (l + 1) * s <= first + 512 * s) by nia. lia.
  - assert (Hlt : first + (j + 1) * s <= first + l * s) by nia.
    specialize (C1 ltac:(lia)). rewrite Z.min_r in W1 by lia.
    destruct (IH (j + 1) t1 w1) as (t' & w' & El & W2).
    + lia.
    + lia.
    + split; [apply W1|]. rewrite C1. split; [|nia]. unfold first.
      apply aligned_add; [|now apply aligned_mult]. replace (b * (512 * s)) with (b * 512 * s) by lia. now apply aligned_mult.
    + now apply W1.
    + exists t', w'. split; [done|]. eapply walked_trans; [exact W1|done| |exact W2]. lia.
Qed.

Lemma level_ret last test t w : e = last + 1 -> walk_ok lim w -> aligned (current_virtual_address w) = true ->
  first <= current_virtual_address w < first + 512 * s -> lo <= current_virtual_address w < e ->
  next_plain bound plain t ->
  (if test : bool then last < first + 512 * s /\ index last < bound else first + 512 * s <= last /\ 511 < bound) ->
  let j := index (current_virtual_address w) in
  exists t' w', level_loop s free below (iterations j (if test then index last else number_of_entries - 1)) j t w =
    Some (t', w') /\ up_walked e t w t' w'.
Proof.
  intros He Hw Ha Hc Hl Hp Ht. cbv zeta. set (c := current_virtual_address w) in *.
  destruct (last_index s b last test Hs) as (L1 & L2 & L3); [fold first; lia|destruct test; apply Ht|].
  rewrite <- Hindex in L1, L2, L3. fold first in L2, L3.
  pose proof (slot_of_bounds s b c Hs Hc) as Hb. rewrite <- Hindex in Hb. fold first in Hb.
  pose proof (slot_of_range s c) as Hr. rewrite <- Hindex in Hr.
  set (l := if test then index last else number_of_entries - 1) in *.
  assert (Hjl : index c <= l).
  { destruct L3 as [->|L3]; [lia|]. enough (index c < l + 1) by lia.
    apply (Zmult_lt_reg_r _ _ s); [done|]. lia. }
  apply (level_loop_ret l); [lia|destruct test; apply Ht|lia|rewrite He; exact L3| |lia| |exact Hp].
  - unfold iterations. rewrite Z2Nat.id; lia.
  - split; [exact Hw|]. split; [exact Ha|]. split; [exact Hb|exact Hl].
Qed.

End Level.

(** *** The four levels *)

Definition plain2 : Level2 -> Prop := next_plain 512 leaf_plain.
Definition plain3 : Level3 -> Prop := next_plain 512 plain2.
(** No huge pages in the lower half of the addresses. *)
Definition plain4 : Level4 -> Prop := next_plain 256 plain3.

Definition pages1 : Level1 -> list Z := table_pages leaf_pages.
Definition pages2 : Level2 -> list Z := table_pages (slot_pages pages1).
Definition pages3 : Level3 -> list Z := table_pages (slot_pages pages2).
Definition pages4 : Level4 -> list Z := table_pages (slot_pages pages3).

Section Levels.
Variable free top_free : bool.
Variable lo last : Z.
(** The range touches at most 512 regions of 2 MiB. *)
Hypothesis Hspan : last / medium_page_size - lo / medium_page_size < 512.
Hypothesis Hend : aligned (last + 1) = true.
Hypothesis Hlim : last + 1 <= lim.

Lemma span_at size : size = medium_page_size \/ 512 * medium_page_size <= size -> lo <= last -> last / size - lo / size < 512.
Proof.
  intros [->|Hs] Hl; [done|].
  assert (Hd : last - lo < 513 * medium_page_size).
  { pose proof (Z.div_mod last medium_page_size ltac:(done)). pose proof (Z.div_mod lo medium_page_size ltac:(done)).
    pose proof (Z.mod_pos_bound last medium_page_size ltac:(done)). pose proof (Z.mod_pos_bound lo medium_page_size ltac:(done)). nia. }
  assert (0 < size) by (unfold medium_page_size in Hs; lia).
  assert (0 < medium_page_size) by done. pose proof (Z.div_mod last size ltac:(lia)). pose proof (Z.div_mod lo size ltac:(lia)).
  pose proof (Z.mod_pos_bound last size ltac:(done)). pose proof (Z.mod_pos_bound lo size ltac:(done)).
  enough (size * (last / size - lo / size) < size * 512) by nia. nia.
Qed.

Lemma slot_mod b j : 0 <= j < 512 -> (b * 512 + j) mod 512 = j.
Proof. intros Hj. symmetry. apply (Z.mod_unique _ _ b); lia. Qed.

(** The test of the code in the entry [j] of the table above. *)
Lemma test_ret size b j w : size = medium_page_size \/ 512 * medium_page_size <= size -> 0 <= j < 512 -> within size b lo (last + 1) j w ->
  let first := b * (512 * size) + j * size in
  if slot_of size last =? j then last < first + size else first + size <= last.
Proof.
  intros Hs Hj (_ & _ & Hc & Hl). cbv zeta. assert (0 < size) by (unfold medium_page_size in Hs; lia).
  pose proof (last_test size (b * 512 + j) lo (current_virtual_address w) last ltac:(done) ltac:(lia) ltac:(lia)
    (span_at size Hs ltac:(lia))) as Ht.
  rewrite slot_mod in Ht by done. now replace ((b * 512 + j) * size) with (b * (512 * size) + j * size) in Ht by lia.
Qed.

Lemma level1_ret b j next w : 0 <= j < 512 -> within medium_page_size b lo (last + 1) j w -> leaf_plain next ->
  exists next' w', level1 act last j next w = Some (next', w') /\
    walked leaf_at leaf_pages leaf_plain (b * (512 * medium_page_size) + j * medium_page_size) medium_page_size (last + 1)
      next w next' w'.
Proof.
  intros Hj Hwi _. pose proof (test_ret medium_page_size b j w ltac:(auto) Hj Hwi) as Ht. cbv zeta in Ht.
  destruct Hwi as (Hw & Ha & Hc & Hl). unfold level1. rewrite p2Index_slot.
  set (test := slot_of medium_page_size last =? j) in *.
  replace (b * (512 * medium_page_size) + j * medium_page_size) with ((b * 512 + j) * medium_page_size) in * by lia.
  change medium_page_size with (512 * small_page_size) in Ht.
  destruct (last_index small_page_size (b * 512 + j) last test ltac:(done)) as (L1 & L2 & L3);
    [change (512 * small_page_size) with medium_page_size; lia|exact Ht|].
  rewrite <- p1Index_slot in L1, L2, L3. change (512 * small_page_size) with medium_page_size in L2, L3.
  set (l := if test then p1Index last else number_of_entries - 1) in *. eexists _, _. split; [|apply (leaves_ret _ _ l)].
  - now destruct (level1_loop _ _ _ _ _).
  - done.
  - done.
  - done.
  - done.
  - lia.
  - lia.
  - lia.
  - lia.
  - exact L3.
Qed.

Lemma leaf_empty t x : slots t = ∅ -> leaf_at t x = None.
Proof. intros H. unfold leaf_at. now rewrite H, lookup_empty. Qed.

Lemma next_empty {A} index (view : Table A -> Z -> option Z) t x : slots t = ∅ -> next_at index view t x = None.
Proof. intros H. unfold next_at. now rewrite H, lookup_empty. Qed.

(** What the lemmas of a level below the top have in common. *)
Lemma middle_ret {A} size index (view : Table A -> Z -> option Z) below_pages plain below uindex b j t w :
  0 < size -> aligned size = true -> medium_page_size <= size -> (forall a, index a = slot_of size a) ->
  (forall a, uindex a = slot_of (512 * size) a) -> (forall t x, slots t = ∅ -> view t x = None) ->
  (forall b j next w, 0 <= j < 512 -> within size b lo (last + 1) j w -> plain next ->
     exists next' w', below j next w = Some (next', w') /\
       walked view below_pages plain (b * (512 * size) + j * size) size (last + 1) next w next' w') ->
  0 <= j < 512 -> within (512 * size) b lo (last + 1) j w -> next_plain 512 plain t ->
  let c := index (current_virtual_address w) in
  exists t' w',
    level_loop size free below (iterations c (if uindex last =? j then index last else number_of_entries - 1)) c t w = Some (t', w') /\
    walked (next_at index view) (slot_pages (table_pages below_pages)) (next_plain 512 plain)
      (b * (512 * (512 * size)) + j * (512 * size)) (512 * size) (last + 1) t w t' w'.
Proof.
  intros Hs Hsa Hm Hi Hu He Hbelow Hj Hwi Hp. cbv zeta.
  pose proof (test_ret (512 * size) b j w ltac:(lia) Hj Hwi) as Ht. cbv zeta in Ht. rewrite <- Hu in Ht.
  destruct Hwi as (Hw & Ha & Hc & Hl).
  replace (b * (512 * (512 * size)) + j * (512 * size)) with ((b * 512 + j) * (512 * size)) in * by lia.
  apply (level_ret size index view below_pages plain below free 512 (b * 512 + j) lo (last + 1)); try done; [now intros; apply Hbelow|lia|].
  rewrite (Hi last). pose proof (slot_of_range size last). destruct (uindex last =? j); lia.
Qed.

Lemma level2_ret b j next w : 0 <= j < 512 -> within large_page_size b lo (last + 1) j w -> plain2 next ->
  exists next' w', level2 act free last j next w = Some (next', w') /\
    walked level2_at (slot_pages pages1) plain2 (b * (512 * large_page_size) + j * large_page_size) large_page_size (last + 1)
      next w next' w'.
Proof.
  change large_page_size with (512 * medium_page_size).
  apply (middle_ret medium_page_size p2Index leaf_at leaf_pages leaf_plain (level1 act last) p3Index);
    [done|done|done|apply p2Index_slot|apply p3Index_slot|apply leaf_empty|apply level1_ret].
Qed.

Lemma level3_ret b j next w : 0 <= j < 512 -> within level_4_address_space_size b lo (last + 1) j w -> plain3 next ->
  exists next' w', level3 act free last j next w = Some (next', w') /\
    walked level3_at (slot_pages pages2) plain3 (b * (512 * level_4_address_space_size) + j * level_4_address_space_size)
      level_4_address_space_size (last + 1) next w next' w'.
Proof.
  change level_4_address_space_size with (512 * large_page_size).
  apply (middle_ret large_page_size p3Index level2_at (slot_pages pages1) plain2 (level2 act free last) p4Index);
    [done|done|done|apply p3Index_slot|apply p4Index_slot|apply next_empty|apply level2_ret].
Qed.

Lemma level4_ret t w : walk_ok lim w -> aligned (current_virtual_address w) = true -> 0 <= lo ->
  lo <= current_virtual_address w <= last -> last < 2 ^ 47 -> plain4 t ->
  exists t' w', level4 act free top_free last t w = Some (t', w') /\
    walked translate (slot_pages pages3) plain4 0 (2 ^ 48) (last + 1) t w t' w'.
Proof.
  intros Hw Ha H0 Hl Hh Hp.
  apply (level_ret level_4_address_space_size p4Index level3_at (slot_pages pages2) plain3 (level3 act free last) top_free 256 0 lo
           (last + 1) ltac:(done) ltac:(done) p4Index_slot (next_empty _ _) (level3_ret 0) last true); try done; [unfold level_4_address_space_size; lia|lia|].
  split; [unfold level_4_address_space_size; lia|]. rewrite p4Index_slot. unfold slot_of, level_4_address_space_size.
  assert (0 <= last / 2 ^ 39 < 256) by (split; [apply Z.div_pos; lia|apply Z.div_lt_upper_bound; lia]).
  rewrite Z.mod_small; lia.
Qed.

End Levels.
End Walking.

(** ** Walking a range *)

(** A range of the lower half that touches at most 512 regions of 2 MiB. *)
Definition walkable (r : VirtualRange) : Prop :=
  pageAligned r = true /\ 0 < size r /\ 0 <= address r /\ after r <= 2 ^ 47 /\
  (after r - 1) / medium_page_size - address r / medium_page_size < 512.

Record range_walked (act : LeafAction) (leaf_pages : Z -> list Z) (r : VirtualRange)
    (t : Level4) (flush : list VirtualRange) (dealloc : list Z)
    (t' : Level4) (flush' : list VirtualRange) (dealloc' : list Z) : Prop := {
  rw_view : forall x, 0 <= x < 2 ^ 48 ->
    translate t' x = if decide (contains r x) then translate t x ≫= stepped act else translate t x;
  rw_page : table_page t' = table_page t;
  rw_batch : forall x, in_batch flush x -> in_batch flush' x;
  rw_flushed : leaf_flush act = true -> forall x, contains r x -> is_Some (translate t x) -> in_batch flush' x;
  rw_before : batch_before flush' (after r);
  rw_pages : pages4 leaf_pages t' ++ dealloc' ≡ₚ pages4 leaf_pages t ++ dealloc;
  rw_plain : plain4 t';
}.

Lemma walk_range_ret act leaf_pages {laws : LeafLaws act leaf_pages} free top_free r t flush dealloc :
  walkable r -> batch_before flush (address r) -> plain4 t ->
  exists t' flush' dealloc', walk_range act free top_free r t flush dealloc = Some (t', flush', dealloc') /\
    range_walked act leaf_pages r t flush dealloc t' flush' dealloc'.
Proof.
  intros (Ha & Hs & H0 & Hh & Hd) Hb Hp. unfold walk_range, range_last.
  rewrite (proj2 (Z.eqb_neq _ _)) by lia. replace (address r + (size r - 1)) with (after r - 1) by (unfold after; lia).
  apply andb_prop in Ha as [Ha1 Ha2].
  destruct (level4_ret act (after r) leaf_pages free top_free (address r) (after r - 1) Hd) with
    (t := t) (w := MkWalk (address r) None flush dealloc) as (t' & w' & -> & W).
  - replace (after r - 1 + 1) with (after r) by lia. now apply aligned_add.
  - lia.
  - unfold walk_ok. cbn. rewrite Z.min_l by (unfold after; lia). done.
  - done.
  - done.
  - cbn. unfold after. lia.
  - lia.
  - done.
  - unfold mbind, option_bind. replace (after r - 1 + 1) with (after r) in W by lia. destruct W as [A1 A2 _ A4 A5 A6 A7 A8].
    cbn [current_virtual_address deallocate_page_list] in *.
    destruct (end_progress_ok (after r) w' A4) as (_ & E2 & _ & E4 & E5).
    eexists _, _, _. split; [done|]. rewrite E4. split; [| |intros x Hx; apply E5, A5; now left| | |done|auto].
    + intros x Hx. apply A1. lia.
    + done.
    + intros Hf x Hx Hv. apply E5, A6; [done| |exact Hx|done]. unfold contains in Hx. lia.
    + apply (batch_before_mono _ _ _ E2). lia.
Qed.

(** ** The words of the entries *)

Lemma flag_write_spec bit v e n : 0 <= bit -> 0 <= n ->
  Z.testbit (flag_write bit v e) n = if n =? bit then v else Z.testbit e n.
Proof.
  intros Hb Hn. unfold flag_write. destruct v.
  - rewrite Z.setbit_eqb by done. rewrite (Z.eqb_sym bit n). now destruct (n =? bit).
  - rewrite Z.clearbit_eqb. rewrite (Z.eqb_sym bit n). destruct (n =? bit); [now rewrite andb_false_r|now rewrite andb_true_r].
Qed.

Create Rewrite HintDb flags.
#[local] Hint Rewrite flag_write_spec using (unfold present, writeable, user_accessible, write_through, no_cache, huge, pat,
  global, pat_huge, no_execute in *; lia) : flags.

(** Every bit of a leaf entry after [applyMapType]; the bits that are not flags stay. *)
Lemma applyMapType_spec nx mt e n : 0 <= n -> Z.testbit (applyMapType nx mt small e) n =
  if n =? present then true
  else if n =? writeable then p_write (map_protection mt)
  else if n =? user_accessible then match map_context mt with user => true | kernel => false end
  else if n =? write_through then match map_cache mt with write_combining => true | _ => false end
  else if n =? no_cache then match map_cache mt with uncached => true | _ => false end
  else if n =? pat then match map_cache mt with write_combining => true | _ => false end
  else if n =? global then match map_context mt with kernel => true | user => false end
  else if nx && (n =? no_execute) then negb (p_execute (map_protection mt))
  else Z.testbit e n.
Proof.
  intros Hn. unfold applyMapType. destruct mt as [c p k]. cbn [map_context map_protection map_cache].
  destruct c, k, nx; autorewrite with flags;
    unfold present, writeable, user_accessible, write_through, no_cache, pat, global, no_execute;
    repeat (match goal with |- context [?a =? ?b] => destruct (Z.eqb_spec a b) end; try lia; try done).
Qed.

Lemma applyMapType_idem nx mt e : applyMapType nx mt small (applyMapType nx mt small e) = applyMapType nx mt small e.
Proof.
  apply Z.bits_inj'. intros n Hn. rewrite !applyMapType_spec by done.
  repeat (match goal with |- context [?a =? ?b] => destruct (a =? b) end; try done). all: now destruct nx.
Qed.

Lemma applyMapType_address nx mt e : getAddress4kib (applyMapType nx mt small e) = getAddress4kib e.
Proof.
  apply Z.bits_inj'. intros n Hn. unfold getAddress4kib, field_read. rewrite !Z.land_spec.
  destruct (Z.testbit (address_mask level_1_shift) n) eqn:Em; [|now rewrite !andb_false_r].
  rewrite !andb_true_r, applyMapType_spec by done.
  assert (Hr : 12 <= n < 48).
  { unfold address_mask, field_mask, level_1_shift, maximum_physical_address_bit in Em.
    rewrite Z.shiftl_spec, Z.testbit_ones in Em by lia.
    apply andb_prop in Em as [E1 E2]. apply Z.leb_le in E1. apply Z.ltb_lt in E2. lia. }
  unfold present, writeable, user_accessible, write_through, no_cache, pat, global, no_execute.
  repeat (match goal with |- context [?a =? ?b] => destruct (Z.eqb_spec a b) as [?|_]; [lia|] end).
  now rewrite andb_false_r.
Qed.

Definition leaf_word (nx : bool) (mt : MapType) (physical_address : Z) : Z :=
  applyMapType nx mt small (field_write (address_mask level_1_shift) physical_address 0).

Lemma leaf_word_present nx mt a : Z.testbit (leaf_word nx mt a) present = true.
Proof. unfold leaf_word. now rewrite applyMapType_spec. Qed.

Lemma mask_page f : 0 <= f < 2 ^ 32 -> Z.land (baseAddress f) (address_mask level_1_shift) = baseAddress f.
Proof.
  intros Hf. apply Z.bits_inj'. intros n Hn. rewrite Z.land_spec.
  unfold address_mask, field_mask, level_1_shift, maximum_physical_address_bit.
  rewrite Z.shiftl_spec, Z.testbit_ones by lia. unfold baseAddress, page. change 4096 with (2 ^ 12).
  rewrite Z.mul_pow2_bits by lia.
  destruct (Z.testbit f (n - 12)) eqn:Eb; [|done].
  assert (0 <= n - 12) by (destruct (Z_lt_le_dec (n - 12) 0); [now rewrite Z.testbit_neg_r in Eb|done]).
  assert (n - 12 < 32).
  { destruct (Z_lt_le_dec (n - 12) 32); [done|]. rewrite Z.bits_above_log2 in Eb; [done|lia|].
    destruct (Z.eq_dec f 0) as [->|]; [cbn; lia|]. apply Z.log2_lt_pow2; [lia|].
    apply Z.lt_le_trans with (2 ^ 32); [lia|]. apply Z.pow_le_mono_r; lia. }
  rewrite (proj2 (Z.leb_le _ _)), (proj2 (Z.ltb_lt _ _)) by lia. done.
Qed.

Lemma leaf_word_address nx mt f : 0 <= f < 2 ^ 32 -> getAddress4kib (leaf_word nx mt (baseAddress f)) = baseAddress f.
Proof.
  intros Hf. unfold leaf_word. rewrite applyMapType_address. unfold getAddress4kib, field_read, field_write.
  rewrite Z.ldiff_0_l, Z.lor_0_l, <- Z.land_assoc, Z.land_diag. now apply mask_page.
Qed.

(** ** Mapping a page *)

Section Mapping.
Context {A : Type} `{laws : PageAllocatorLaws A}.

(** The pages [l] were allocated between [a] and [a']. *)
Definition taken (a a' : A) (l : list Z) : Prop :=
  free_pages a = free_pages a' ∪ list_to_set l /\ NoDup l /\ (forall f, f ∈ l -> f ∉ free_pages a').

Lemma taken_nil a : taken a a [].
Proof. split; [cbn; now rewrite union_empty_r_L|]. split; [apply NoDup_nil_2|]. intros f Hf. now apply not_elem_of_nil in Hf. Qed.

Lemma taken_cons a f a1 a' l : allocate a = Some (f, a1) -> taken a1 a' l -> taken a a' (f :: l).
Proof.
  intros Ha (E & Hn & Hd). destruct (allocate_some a f a1 Ha) as [Hin Ef].
  assert (Hf : f ∉ free_pages a1) by (rewrite Ef; set_solver).
  assert (Hu : free_pages a = free_pages a1 ∪ {[f]}).
  { rewrite Ef. apply set_eq. intros y. destruct (decide (y = f)) as [->|]; set_solver. }
  split; [|split].
  - rewrite Hu, E. cbn. set_solver.
  - apply NoDup_cons. split; [|done]. intros Hl. apply Hf. rewrite E. set_solver.
  - intros y [->|Hy]%elem_of_cons; [|now apply Hd]. intros Hy. apply Hf. rewrite E. set_solver.
Qed.

Lemma allocate_size a f a1 : allocate a = Some (f, a1) -> base.size (free_pages a) = S (base.size (free_pages a1)).
Proof.
  intros Ha. destruct (allocate_some a f a1 Ha) as [Hin Ef]. rewrite Ef.
  rewrite (union_difference_singleton_L f (free_pages a) Hin) at 1. rewrite size_union by set_solver. now rewrite size_singleton.
Qed.

Variable nx : bool.
Variable x word : Z.

(** What mapping the page of [x] as [word] below a table does, with [k] tables that
    may have to be created. *)
Definition mapped_below {B} (k : nat) (view : Table B -> Z -> option Z) (below : B -> list Z) (plain : Table B -> Prop)
    (same : Z -> bool) (t : Table B) (a : A) (res : option PageMapError * Table B * list Z * A) : Prop :=
  let '(error, t', l, a') := res in
  match error with
  | None => view t x = None /\ l = [] /\ (forall y, view t' y = if same y then Some word else view t y) /\
      table_page t' = table_page t /\ plain t' /\
      exists new, taken a a' new /\ table_pages below t' ≡ₚ new ++ table_pages below t
  | Some AlreadyMapped => t' = t /\ l = [] /\ a' = a /\ is_Some (view t x)
  | Some PagesExhausted => t' = t /\ taken a a' l /\ view t x = None /\ (base.size (free_pages a) < k)%nat
  | Some MappingNotValid => False
  end.

Lemma set_slot_id {B} i (v : B) t : slots t !! i = Some v -> set_slot i v t = t.
Proof. intros Hi. destruct t as [p m]. unfold set_slot. cbn in *. now rewrite insert_id. Qed.

Lemma zero_slot_id {B} i (t : Table B) : slots t !! i = None -> zero_slot i t = t.
Proof. intros Hi. destruct t as [p m]. unfold zero_slot. cbn in *. now rewrite delete_id. Qed.

Lemma pages_new {B} (below : B -> list Z) i t v : slots t !! i = None ->
  table_pages below (set_slot i v t) ≡ₚ below v ++ table_pages below t.
Proof. intros Hi. now rewrite pages_set, zero_slot_id. Qed.

(** A new table at the entry of [x], and the view through it. *)
Lemma set_next_view {B} index (view : Table B -> Z -> option Z) t next' same old :
  (forall y, view next' y = if same y : bool then Some word else old y) ->
  (forall y, index y = index x -> next_at index view t y = old y) ->
  forall y, next_at index view (set_slot (index x) (NextTable next') t) y =
    if (index y =? index x) && same y then Some word else next_at index view t y.
Proof.
  intros Hn Ho y. destruct (Z.eqb_spec (index y) (index x)) as [He|Hne].
  - rewrite (Ho y He). unfold next_at. cbn. now rewrite He, lookup_insert_eq, Hn.
  - unfold next_at. cbn. now rewrite lookup_insert_ne.
Qed.

Lemma descend_ret {B} k index (view : Table B -> Z -> option Z) below plain bound same rest t a :
  index x < bound -> next_plain bound plain t -> (forall p y, view (MkTable p ∅) y = None) ->
  (forall p, plain (MkTable p ∅)) ->
  (forall t a, plain t -> mapped_below k view below plain same t a (rest t a)) ->
  mapped_below (S k) (next_at index view) (slot_pages (table_pages below)) (next_plain bound plain)
    (fun y => (index y =? index x) && same y) t a (descend (index x) rest t a).
Proof.
  intros Hb Hp Hv Hpe Hrest. unfold descend, ensureNextTable.
  destruct (slots t !! index x) as [sl|] eqn:Et.
  - destruct (Hp _ sl Hb Et) as (next & -> & Hpn). specialize (Hrest next a Hpn).
    destruct (rest next a) as [[[[er|] next'] l] a'].
    + assert (Hx : next_at index view t x = view next x) by (unfold next_at; now rewrite Et).
      destruct er; cbn in *; rewrite ?Hx; [|done|]; destruct Hrest as (-> & Hrest); rewrite set_slot_id by done; (split; [done|]).
      * tauto.
      * destruct Hrest as (A1 & A2 & A3). split; [done|]. split; [done|lia].
    + destruct Hrest as (A1 & A2 & A3 & A4 & A5 & new & A6 & A7). unfold mapped_below.
      split; [unfold next_at; now rewrite Et|]. split; [done|]. split; [|split; [done|split]].
      * apply (set_next_view _ _ _ _ _ _ A3). intros y Hy. unfold next_at. now rewrite Hy, Et.
      * now apply set_next_plain.
      * exists new. split; [done|]. rewrite (pages_zero _ (index x) t _ Et), pages_set. cbn [slot_pages].
        rewrite A7. now rewrite <- app_assoc.
  - assert (Hx : next_at index view t x = None) by (unfold next_at; now rewrite Et).
    destruct (allocate a) as [[f a1]|] eqn:Ea.
    2: { split; [done|]. split; [apply taken_nil|]. split; [done|]. rewrite (allocate_none a Ea), size_empty. lia. }
    pose proof (Hrest (MkTable f ∅) a1 (Hpe f)) as Hr. destruct (rest (MkTable f ∅) a1) as [[[[er|] next'] l] a'].
    + destruct er; cbn in *.
      * destruct Hr as (_ & _ & _ & Hr). rewrite Hv in Hr. now apply is_Some_None in Hr.
      * done.
      * destruct Hr as (_ & A1 & _ & A3). split; [now apply zero_slot_id|]. split; [now apply (taken_cons a f a1)|]. split; [done|].
        rewrite (allocate_size a f a1 Ea). lia.
    + destruct Hr as (A1 & A2 & A3 & A4 & A5 & new & A6 & A7). unfold mapped_below.
      split; [done|]. split; [done|]. split; [|split; [done|split]].
      * apply (set_next_view _ _ _ _ _ _ A3). intros y Hy. unfold next_at. now rewrite Hv, Hy, Et.
      * now apply set_next_plain.
      * exists (f :: new). split; [now apply (taken_cons a f a1)|]. rewrite pages_new by done. cbn [slot_pages].
        rewrite A7, pages_empty by done. rewrite <- app_assoc. cbn. now rewrite <- Permutation_middle.
Qed.

End Mapping.

Definition no_pages (word : Z) : list Z := [].

(** Addresses of the same page. *)
Definition same_page (x y : Z) : bool := y / page =? x / page.

Lemma same_page_indices x y : 0 <= x < 2 ^ 48 -> 0 <= y < 2 ^ 48 ->
  (p4Index y =? p4Index x) && ((p3Index y =? p3Index x) && ((p2Index y =? p2Index x) && (p1Index y =? p1Index x))) =
  same_page x y.
Proof.
  intros Hx Hy. rewrite !p1Index_slot, !p2Index_slot, !p3Index_slot, !p4Index_slot. unfold slot_of, same_page, page.
  unfold small_page_size, medium_page_size, large_page_size, level_4_address_space_size.
  assert (Hq : forall z, 0 <= z < 2 ^ 48 -> 0 <= z / 4096 < 2 ^ 36 /\
    z / 2 ^ 21 = z / 4096 / 512 /\ z / 2 ^ 30 = z / 4096 / 512 / 512 /\ z / 2 ^ 39 = z / 4096 / 512 / 512 / 512).
  { intros z Hz. rewrite !Z.div_div by lia. split; [|done].
    split; [apply Z.div_pos; lia|apply Z.div_lt_upper_bound; lia]. }
  destruct (Hq x Hx) as (X0 & -> & -> & ->), (Hq y Hy) as (Y0 & -> & -> & ->). clear Hq.
  set (a := x / 4096) in *. set (b := y / 4096) in *. clearbody a b.
  assert (Hd : forall z, 0 <= z < 2 ^ 36 -> z = z mod 512 + 512 * (z / 512 mod 512) + 512 * 512 * (z / 512 / 512 mod 512) +
    512 * 512 * 512 * (z / 512 / 512 / 512 mod 512)).
  { intros z Hz. pose proof (Z.div_mod z 512 ltac:(lia)). pose proof (Z.div_mod (z / 512) 512 ltac:(lia)).
    pose proof (Z.div_mod (z / 512 / 512) 512 ltac:(lia)).
    assert (0 <= z / 512 / 512 / 512 < 512).
    { rewrite !Z.div_div by lia. split; [apply Z.div_pos; lia|apply Z.div_lt_upper_bound; lia]. }
    rewrite (Z.mod_small (z / 512 / 512 / 512)) by lia. lia. }
  apply Bool.eq_iff_eq_true. rewrite !andb_true_iff, !Z.eqb_eq. split; [|now intros ->].
  intros (E4 & E3 & E2 & E1). rewrite (Hd a X0), (Hd b Y0). lia.
Qed.

Section Map4KiB.
Context {A : Type} `{laws : PageAllocatorLaws A}.
Variable nx : bool.

Lemma set_leaf_ret x phys mt (t : Level1) (a : A) :
  mapped_below x (leaf_word nx mt phys) 0 leaf_at no_pages leaf_plain (fun y => p1Index y =? p1Index x) t a
    (set_leaf nx (p1Index x) phys mt t a).
Proof.
  unfold set_leaf, setEntry, mapped_below. destruct (Z.testbit (default 0 (slots t !! p1Index x)) present) eqn:Ep.
  { split; [done|]. split; [done|]. split; [done|]. unfold leaf_at.
    destruct (slots t !! p1Index x) as [e|]; [|done]. cbn in Ep. rewrite Ep. eauto. }
  split; [unfold leaf_at; destruct (slots t !! p1Index x) as [e|]; [cbn in Ep; now rewrite Ep|done]|].
  split; [done|]. split; [|split; [done|split; [done|]]].
  - intros y. unfold leaf_at. cbn. destruct (Z.eqb_spec (p1Index y) (p1Index x)) as [->|Hne].
    + rewrite lookup_insert_eq. fold (leaf_word nx mt phys). now rewrite leaf_word_present.
    + now rewrite lookup_insert_ne.
  - exists []. split; [apply taken_nil|]. rewrite pages_set. cbn [no_pages app].
    destruct (slots t !! p1Index x) as [e|] eqn:Et; [now rewrite (pages_zero no_pages _ t e Et)|now rewrite zero_slot_id].
Qed.

Definition map_result (x phys : Z) (mt : MapType) (t : Level4) (a : A) (res : option PageMapError * Level4 * A) : Prop :=
  let '(error, t', a') := res in
  match error with
  | None => translate t x = None /\
      (forall y, 0 <= y < 2 ^ 48 -> translate t' y = if same_page x y then Some (leaf_word nx mt (baseAddress phys)) else translate t y) /\
      table_page t' = table_page t /\ plain4 t' /\
      exists new, taken a a' new /\ pages4 no_pages t' ≡ₚ new ++ pages4 no_pages t
  | Some AlreadyMapped => t' = t /\ free_pages a' = free_pages a /\ is_Some (translate t x)
  | Some PagesExhausted => t' = t /\ free_pages a' = free_pages a /\ translate t x = None /\ (base.size (free_pages a) < 3)%nat
  | Some MappingNotValid => False
  end.

Lemma taken_given_back (a a' : A) l : taken a a' l -> free_pages (deallocate l a') = free_pages a.
Proof.
  intros (E & Hn & Hd). rewrite deallocate_free, E; [done|done|done|]. intros f Hf. apply (free_index a). rewrite E. set_solver.
Qed.

Lemma map4KiB_ret t x phys mt a : 0 <= x < 2 ^ 47 -> plain4 t -> map_result x phys mt t a (map4KiB nx t x phys mt a).
Proof.
  intros Hx Hp.
  assert (Hi : forall s, slot_of s x < 512) by (intros; apply slot_of_range).
  assert (H4 : p4Index x < 256).
  { rewrite p4Index_slot. unfold slot_of, level_4_address_space_size.
    assert (0 <= x / 2 ^ 39 < 256) by (split; [apply Z.div_pos; lia|apply Z.div_lt_upper_bound; lia]). rewrite Z.mod_small; lia. }
  set (word := leaf_word nx mt (baseAddress phys)).
  assert (Hd : mapped_below x word 3 translate (slot_pages (pages3 no_pages)) plain4
    (fun y => (p4Index y =? p4Index x) && ((p3Index y =? p3Index x) && ((p2Index y =? p2Index x) && (p1Index y =? p1Index x)))) t a
    (descend (p4Index x) (descend (p3Index x) (descend (p2Index x)
       (set_leaf nx (p1Index x) (baseAddress phys) mt))) t a)).
  { unfold translate, plain4. apply descend_ret; [done|done|done|intros p; apply empty_plain|].
    intros t3 a3 Hp3. unfold level3_at, plain3.
    apply descend_ret; [rewrite p3Index_slot; apply Hi|done|done|intros p; apply empty_plain|].
    intros t2 a2 Hp2. unfold level2_at, plain2. apply descend_ret; [rewrite p2Index_slot; apply Hi|done| |done|].
    - intros p y. now apply leaf_empty.
    - intros t1 a1 _. apply set_leaf_ret. }
  unfold map4KiB. destruct (descend _ _ t a) as [[[er t'] l] a']. unfold mapped_below in Hd. unfold map_result.
  destruct er as [[]|].
  - destruct Hd as (-> & -> & -> & Hm). split; [done|]. split; [apply taken_given_back, taken_nil|done].
  - done.
  - destruct Hd as (-> & Ht & Hn & Hs). split; [done|]. split; [now apply taken_given_back|]. done.
  - destruct Hd as (Hn & _ & Hv & Hpg & Hp' & Hnew). split; [done|]. split; [|done].
    intros y Hy. rewrite Hv. now rewrite same_page_indices by lia.
Qed.
End Map4KiB.

(** ** Unmapping a range and changing its protection *)

#[export] Instance unmap_keep_laws : LeafLaws (unmap_leaf keep) no_pages.
Proof. split; [done|]. cbn. now intros e o fr [= <- <-]. Qed.

#[export] Instance unmap_free_laws : LeafLaws (unmap_leaf free) (fun e => [fromAddress (getAddress4kib e)]).
Proof. split; [done|]. cbn. now intros e o fr [= <- <-]. Qed.

#[export] Instance protect_laws nx p n : LeafLaws (protect_leaf nx p n) no_pages.
Proof.
  split.
  - cbn. intros e e' fr [= <- <-]. now rewrite applyMapType_spec.
  - cbn. now intros e o fr [= <- <-].
Qed.

Lemma translate_present t x e : translate t x = Some e -> Z.testbit e present = true.
Proof.
  unfold translate, level3_at, level2_at, next_at, leaf_at. intros H.
  repeat match type of H with context [match ?m with _ => _ end] => destruct m eqn:?; try done end. congruence.
Qed.

Lemma pageTableUnmap_ret t r top flush dealloc : walkable r -> batch_before flush (address r) -> plain4 t ->
  exists t' flush' dealloc', pageTableUnmap t r keep top flush dealloc = Some (t', flush', dealloc') /\
    (forall x, 0 <= x < 2 ^ 48 -> translate t' x = if decide (contains r x) then None else translate t x) /\
    range_walked (unmap_leaf keep) no_pages r t flush dealloc t' flush' dealloc'.
Proof.
  intros Hr Hb Hp. destruct (walk_range_ret (unmap_leaf keep) no_pages true (is_free top) r t flush dealloc Hr Hb Hp)
    as (t' & flush' & dealloc' & E & W). exists t', flush', dealloc'. split; [exact E|]. split; [|exact W].
  intros x Hx. rewrite (rw_view _ _ _ _ _ _ _ _ _ W x Hx). destruct (decide _); [|done].
  destruct (translate t x) as [e|] eqn:Ee; [|done]. cbn. unfold stepped. now rewrite (translate_present _ _ _ Ee).
Qed.

(** *** Nothing is freed when nothing is to be freed *)

Lemma end_progress_dealloc w : deallocate_page_list (end_progress w) = deallocate_page_list w.
Proof. unfold end_progress. now destruct (opt_in_progress_range w). Qed.

Lemma level1_loop_dealloc act n : (forall e, (leaf_step act e).2 = []) ->
  forall j t w, deallocate_page_list (level1_loop act n j t w).2 = deallocate_page_list w.
Proof.
  intros Ha. induction n as [|n IH]; intros j t w; [done|]. cbn [level1_loop]. unfold level1_step.
  destruct (Z.testbit _ present).
  - specialize (Ha (default 0 (slots t !! j))). destruct (leaf_step act _) as [o fr]. cbn in Ha. subst fr. now rewrite IH.
  - rewrite IH. cbn. apply end_progress_dealloc.
Qed.

Lemma level_loop_dealloc {A} s (below : Z -> Table A -> Walk -> option (Table A * Walk)) n :
  (forall j t w t' w', below j t w = Some (t', w') -> deallocate_page_list w' = deallocate_page_list w) ->
  forall j t w t' w', level_loop s false below n j t w = Some (t', w') -> deallocate_page_list w' = deallocate_page_list w.
Proof.
  intros Hb. induction n as [|n IH]; intros j t w t' w'; cbn [level_loop]; [now intros [= _ <-]|].
  unfold level_step. destruct (slots t !! j) as [[next|word]|]; [|done|].
  - destruct (below j next w) as [[next' w1]|] eqn:Eb; [|done]. unfold mbind, option_bind. cbn [andb].
    intros H. now rewrite (IH _ _ _ _ _ H), (Hb _ _ _ _ _ Eb).
  - unfold mbind, option_bind. intros H. rewrite (IH _ _ _ _ _ H). cbn. apply end_progress_dealloc.
Qed.

Lemma walk_range_dealloc act r t flush dealloc t' flush' dealloc' : (forall e, (leaf_step act e).2 = []) ->
  walk_range act false false r t flush dealloc = Some (t', flush', dealloc') -> dealloc' = dealloc.
Proof.
  intros Ha. unfold walk_range. destruct (level4 _ _ _ _ _ _) as [[t1 w1]|] eqn:E; [|done]. unfold mbind, option_bind.
  intros [= _ _ <-]. rewrite end_progress_dealloc. revert E. apply level_loop_dealloc. intros j4 t4 w4 t4' w4'.
  apply level_loop_dealloc. intros j3 t3 w3 t3' w3'. apply level_loop_dealloc. intros j2 t2 w2 t2' w2'.
  unfold level1. intros E%(inj Some). apply (f_equal snd) in E. cbn [snd] in E. rewrite <- E. now apply level1_loop_dealloc.
Qed.

Lemma pageTableChangeProtection_ret nx t r previous new flush : walkable r -> batch_before flush (address r) -> plain4 t ->
  exists t' flush', pageTableChangeProtection nx t r previous new flush = Some (t', flush') /\
    (forall x, 0 <= x < 2 ^ 48 -> translate t' x =
       if decide (contains r x) then applyMapType nx new small <$> translate t x else translate t x) /\
    range_walked (protect_leaf nx previous new) no_pages r t flush [] t' flush' [].
Proof.
  intros Hr Hb Hp.
  destruct (walk_range_ret (protect_leaf nx previous new) no_pages false false r t flush [] Hr Hb Hp)
    as (t' & flush' & dealloc' & E & W). pose proof (walk_range_dealloc (protect_leaf nx previous new) _ _ _ _ _ _ _ (fun _ => eq_refl) E) as ->.
  exists t', flush'. unfold pageTableChangeProtection. rewrite E. split; [done|]. split; [|done].
  intros x Hx. rewrite (rw_view _ _ _ _ _ _ _ _ _ W x Hx). destruct (decide _); [|done].
  destruct (translate t x) as [e|] eqn:Ee; [|done]. cbn. unfold stepped. now rewrite (translate_present _ _ _ Ee).
Qed.

(** ** Properties *)

(** An allocator that is a set of pages. *)
#[export] Instance set_allocator : PageAllocator (gset Z) := {
  allocate := fun s => match elements (filter (fun f => 0 <= f < 2 ^ 32) s) with f :: _ => Some (f, s ∖ {[f]}) | [] => None end;
  deallocate := fun l s => s ∪ list_to_set l;
  free_pages := filter (fun f => 0 <= f < 2 ^ 32);
  page_limit := 2 ^ 32
}.

#[export] Instance set_laws : PageAllocatorLaws (gset Z).
Proof.
  split; cbn.
  - intros s f s'. destruct (elements (filter (fun f => 0 <= f < 2 ^ 32) s)) as [|g l] eqn:E; [done|]. intros [= <- <-].
    assert (Hg : g ∈ filter (fun f => 0 <= f < 2 ^ 32) s) by (apply elem_of_elements; rewrite E; now left).
    split; [done|]. apply set_eq. intros y. rewrite elem_of_filter, !elem_of_difference, elem_of_filter. tauto.
  - intros s. destruct (elements _) as [|g l] eqn:E; [|done]. intros _. now apply elements_empty_iff, leibniz_equiv in E.
  - intros l s _ _ Hl. apply set_eq. intros y. rewrite elem_of_filter, !elem_of_union, elem_of_filter, elem_of_list_to_set.
    split; [tauto|]. intros [H|H]; [tauto|]. specialize (Hl y H). split; [lia|auto].
  - intros s f [Hf _]%elem_of_filter. exact Hf.
  - done.
Qed.


(** An empty table and one with the page 9 at [x], in the 100th page of the sixth
    2 MiB region of the second top level slot. *)
Definition demo_address : Z := 2 ^ 39 + 5 * medium_page_size + 100 * page.
Definition demo_type : MapType := MkMapType user (Prot true true false) write_back.
Definition empty_table : Level4 := MkTable 1 ∅.
Definition demo_table : Level4 := (map4KiB true empty_table demo_address 9 demo_type ({[2; 3; 4]} : gset Z)).1.2.



Lemma demo_plain : plain4 demo_table.
Proof.
  pose proof (map4KiB_ret true empty_table demo_address 9 demo_type ({[2; 3; 4]} : gset Z) ltac:(done) (empty_plain _ _ _)) as Hm.
  unfold demo_table. assert (E : (map4KiB true empty_table demo_address 9 demo_type ({[2; 3; 4]} : gset Z)).1.1 = None) by reflexivity.
  destruct (map4KiB true empty_table demo_address 9 demo_type ({[2; 3; 4]} : gset Z)) as [[e t'] a']. cbn [fst snd] in *. subst e.
  destruct Hm as (_ & _ & _ & Hp & _). exact Hp.
Qed.


