(* ===== verification/Paging.v ===== *)
(** * Batches of page table changes

    [src/src/innigkeit/memory/root.zig]: [unmap] and [changeProtection] of a batch of
    ranges, with the flushes of the TLB they request, and how [AddressSpace.zig]
    collects the ranges of an operation into batches
    ([core/VirtualRangeBatch.zig], [core/ChangeProtectionBatch.zig]). *)

From stdpp Require Import gmap.
From S2P Require Import Prelude Machine AddressSpace AddressSpaceCorrect PageTable PageTableCorrect.

(** ** The batches *)

Definition batch_full {B} (batch : list B) : bool := (length batch =? virtual_ranges_to_batch)%nat.

(** [VirtualRangeBatch.append]; [None] when the batch is full. *)
Definition batch_append (r : VirtualRange) (batch : list VirtualRange) : option (list VirtualRange) :=
  match last batch with
  | None => Some [r]
  | Some l =>
      if address r - after l <=? virtual_range_batching_merge_distance then Some (extend_last batch l r)
      else if batch_full batch then None
      else Some (batch ++ [r])
  end.

(** [ChangeProtectionBatch.append]: ranges with their protection, which must be the
    same to merge. *)
Definition protect_append (rp : VirtualRange * Protection) (batch : list (VirtualRange * Protection)) :
    option (list (VirtualRange * Protection)) :=
  match last batch with
  | None => Some [rp]
  | Some (l, p) =>
      if (address rp.1 - after l <=? virtual_range_batching_merge_distance) && bool_decide (p = rp.2) then
        Some (removelast batch ++ [(VRange (address l) (size l + (address rp.1 - after l) + size rp.1), p)])
      else if batch_full batch then None
      else Some (batch ++ [rp])
  end.

(** ** Changing the page table, a batch at a time *)

(** The ranges flushed so far, and the batch being filled. *)
Record Flushing := MkFlushing { flushed : list VirtualRange; pending : list VirtualRange }.

(** The request is submitted when the batch is full, and what is left at the end. *)
Definition flush_if_full (f : Flushing) : Flushing :=
  if batch_full (pending f) then MkFlushing (flushed f ++ pending f) [] else f.
Definition flush_rest (f : Flushing) : list VirtualRange := flushed f ++ pending f.

Section Batches.
Context {A : Type} `{PageAllocator A}.

Fixpoint unmap_ranges (ranges : list VirtualRange) (backing top : CleanupDecision) (t : Level4) (f : Flushing) (dealloc : list Z) :
    option (Level4 * Flushing * list Z) :=
  match ranges with
  | [] => Some (t, f, dealloc)
  | r :: ranges' =>
      '(t, flush, dealloc) ← pageTableUnmap t r backing top (pending f) dealloc;
      unmap_ranges ranges' backing top t (flush_if_full (MkFlushing (flushed f) flush)) dealloc
  end.

(** [memory.unmap]; [None] is a panic. *)
Definition memory_unmap (t : Level4) (batch : list VirtualRange) (backing top : CleanupDecision) (a : A) :
    option (Level4 * list VirtualRange * A) :=
  '(t, f, dealloc) ← unmap_ranges batch backing top t (MkFlushing [] []) [];
  Some (t, flush_rest f, deallocate dealloc a).

Fixpoint protect_ranges (nx : bool) (ranges : list (VirtualRange * Protection)) (new : MapType) (t : Level4) (f : Flushing) :
    option (Level4 * Flushing) :=
  match ranges with
  | [] => Some (t, f)
  | (r, p) :: ranges' =>
      '(t, flush) ← pageTableChangeProtection nx t r (MkMapType (map_context new) p write_back) new (pending f);
      protect_ranges nx ranges' new t (flush_if_full (MkFlushing (flushed f) flush))
  end.

(** [memory.changeProtection]; it asserts that the new protection is not empty. *)
Definition memory_changeProtection (debug nx : bool) (t : Level4) (batch : list (VirtualRange * Protection)) (new : MapType) :
    option (Level4 * list VirtualRange) :=
  if debug && bool_decide (map_protection new = no_protection) then None
  else
    '(t, f) ← protect_ranges nx batch new t (MkFlushing [] []);
    Some (t, flush_rest f).

(** The loop of [unmapInner] over the ranges of the entries, for user memory. *)
Fixpoint unmap_batches (ranges batch : list VirtualRange) (t : Level4) (a : A) (done : list VirtualRange) :
    option (Level4 * list VirtualRange * A) :=
  match ranges with
  | [] =>
      match batch with
      | [] => Some (t, done, a)
      | _ => '(t, fl, a) ← memory_unmap t batch keep free a; Some (t, done ++ fl, a)
      end
  | r :: ranges' =>
      match batch_append r batch with
      | Some batch' => unmap_batches ranges' batch' t a done
      | None =>
          '(t, fl, a) ← memory_unmap t batch keep free a;
          unmap_batches ranges' (appendMergeIfFull r []) t a (done ++ fl)
      end
  end.

(** The loop of [changeProtectionInner]. *)
Fixpoint protect_batches (debug nx : bool) (ranges batch : list (VirtualRange * Protection)) (new : MapType) (t : Level4)
    (done : list VirtualRange) : option (Level4 * list VirtualRange) :=
  match ranges with
  | [] =>
      match batch with
      | [] => Some (t, done)
      | _ => '(t, fl) ← memory_changeProtection debug nx t batch new; Some (t, done ++ fl)
      end
  | rp :: ranges' =>
      match protect_append rp batch with
      | Some batch' => protect_batches debug nx ranges' batch' new t done
      | None =>
          '(t, fl) ← memory_changeProtection debug nx t batch new;
          protect_batches debug nx ranges' [rp] new t (done ++ fl)
      end
  end.
End Batches.

(** ** What the batches are *)

Lemma ranges_hi lo l hi hi' : hi <= hi' -> ranges_in lo l hi -> ranges_in lo l hi'.
Proof.
  revert lo. induction l as [|q l IH]; intros lo Hh; [done|]. cbn. intros (H1 & H2 & H3 & H4 & H5).
  split; [done|]. split; [done|]. split; [done|]. split; [lia|auto].
Qed.

Lemma ranges_snoc lo l q hi : ranges_in lo l (address q) -> lo <= address q -> 0 < size q -> pageAligned q = true -> after q <= hi ->
  ranges_in lo (l ++ [q]) hi.
Proof.
  revert lo. induction l as [|p l IH]; intros lo Hl Hlo Hs Ha Hq; cbn; [done|]. cbn in Hl. destruct Hl as (H1 & H2 & H3 & H4 & H5).
  split; [done|]. split; [done|]. split; [done|]. split; [unfold after in *; lia|]. now apply IH.
Qed.

Lemma ranges_snoc_inv lo l q hi : ranges_in lo (l ++ [q]) hi ->
  ranges_in lo l (address q) /\ lo <= address q /\ 0 < size q /\ pageAligned q = true /\ after q <= hi.
Proof.
  revert lo. induction l as [|p l IH]; intros lo; cbn; [intros (H1 & H2 & H3 & H4 & _); done|].
  intros (H1 & H2 & H3 & H4 & H5). destruct (IH _ H5) as (I1 & I2 & I3). unfold after in *. split; [|split; [lia|done]].
  split; [done|]. split; [done|]. split; [done|]. split; [lia|done].
Qed.

Lemma ranges_bounds lo l hi q : ranges_in lo l hi -> q ∈ l -> lo <= address q /\ 0 < size q /\ pageAligned q = true /\ after q <= hi.
Proof.
  revert lo. induction l as [|p l IH]; intros lo Hl; [intros Hq; now apply not_elem_of_nil in Hq|].
  destruct Hl as (H1 & H2 & H3 & H4 & H5). intros [->|Hq]%elem_of_cons; [done|].
  destruct (IH _ H5 Hq) as (I1 & I2). unfold after in I1. split; [lia|done].
Qed.

Lemma in_batch_app a b x : in_batch (a ++ b) x <-> in_batch a x \/ in_batch b x.
Proof.
  unfold in_batch. split.
  - intros (q & [H|H]%elem_of_app & Hx); [left|right]; eauto.
  - intros [(q & H & Hx)|(q & H & Hx)]; exists q; rewrite elem_of_app; auto.
Qed.

Lemma in_batch_cons r b x : in_batch (r :: b) x <-> contains r x \/ in_batch b x.
Proof.
  unfold in_batch. split.
  - intros (q & [->|H]%elem_of_cons & Hx); [left|right]; eauto.
  - intros [H|(q & H & Hx)]; [exists r|exists q]; rewrite elem_of_cons; auto.
Qed.

Lemma in_batch_nil x : ~ in_batch [] x.
Proof. intros (q & H & _). now apply not_elem_of_nil in H. Qed.

(** The last range of a batch grown up to the end of [r]. *)
Lemma extend_ranges lo pre l r : ranges_in lo (pre ++ [l]) (address r) -> 0 < size r -> pageAligned r = true ->
  let q := VRange (address l) (size l + (address r - after l) + size r) in
  ranges_in lo (pre ++ [q]) (after r) /\
  forall x, in_batch (pre ++ [l]) x \/ contains r x -> in_batch (pre ++ [q]) x.
Proof.
  intros Hl Hs Ha q. apply ranges_snoc_inv in Hl as (L1 & L2 & L3 & L4 & L5). unfold after in L5. split.
  - apply ranges_snoc; [exact L1|exact L2|unfold q, after; cbn; lia| |unfold q, after; cbn; lia].
    unfold pageAligned in *. apply andb_prop in L4 as [A1 A2], Ha as [B1 B2]. unfold q, after. cbn. rewrite A1. cbn.
    replace (size l + (address r - (address l + size l)) + size r) with (address r - address l + size r) by lia.
    apply aligned_add; [now apply aligned_sub|done].
  - intros x. rewrite !in_batch_app, !in_batch_cons. intros [[H|[H|H]]|H]; [auto| |now apply in_batch_nil in H|];
      right; left; unfold q, contains, after in *; cbn; lia.
Qed.

Lemma batch_append_ret lo batch r batch' : ranges_in lo batch (address r) -> lo <= address r -> 0 < size r -> pageAligned r = true ->
  batch_append r batch = Some batch' ->
  ranges_in lo batch' (after r) /\ forall x, in_batch batch x \/ contains r x -> in_batch batch' x.
Proof.
  intros Hb Hlo Hs Ha. unfold batch_append. destruct (last batch) as [l|] eqn:El.
  2: { intros [= <-]. apply last_None in El as ->. cbn. split; [done|]. intros x.
       rewrite in_batch_cons. intros [H|H]; [now apply in_batch_nil in H|auto]. }
  apply last_Some in El as [pre ->]. unfold extend_last. rewrite removelast_last.
  destruct (_ <=? _); [intros [= <-]; now apply extend_ranges|]. destruct (batch_full _); [done|]. intros [= <-]. split.
  - now apply ranges_snoc.
  - intros x. rewrite (in_batch_app (pre ++ [l])), in_batch_cons. tauto.
Qed.

(** ** Unmapping in batches *)

Definition spans (lo hi : Z) : Prop :=
  0 <= lo /\ hi <= 2 ^ 47 /\ (hi - 1) / medium_page_size - lo / medium_page_size < 512.

Lemma walkable_in lo hi r : spans lo hi -> lo <= address r -> 0 < size r -> pageAligned r = true -> after r <= hi -> walkable r.
Proof.
  intros (S1 & S2 & S3) Hlo Hs Ha Hh. split; [done|]. split; [done|]. split; [lia|]. split; [lia|].
  pose proof (Z.div_le_mono (after r - 1) (hi - 1) medium_page_size ltac:(done) ltac:(lia)).
  pose proof (Z.div_le_mono lo (address r) medium_page_size ltac:(done) Hlo). lia.
Qed.

(** The ranges are unmapped, and every address that was mapped is flushed. *)
Record ranges_unmapped (ranges : list VirtualRange) (t t' : Level4) (fl fl' : list VirtualRange) (dealloc dealloc' : list Z) : Prop := {
  ru_in : forall x, 0 <= x < 2 ^ 48 -> in_batch ranges x -> translate t' x = None;
  ru_out : forall x, 0 <= x < 2 ^ 48 -> ~ in_batch ranges x -> translate t' x = translate t x;
  ru_batch : forall x, in_batch fl x -> in_batch fl' x;
  ru_flushed : forall x, 0 <= x < 2 ^ 48 -> in_batch ranges x -> is_Some (translate t x) -> in_batch fl' x;
  ru_pages : pages4 no_pages t' ++ dealloc' ≡ₚ pages4 no_pages t ++ dealloc;
  ru_plain : plain4 t';
}.

Lemma flush_full_before f a : batch_before (pending f) a -> batch_before (pending (flush_if_full f)) a.
Proof. unfold flush_if_full. now destruct (batch_full _). Qed.

Lemma flush_full_rest f x : in_batch (flush_rest (flush_if_full f)) x <-> in_batch (flush_rest f) x.
Proof. unfold flush_if_full, flush_rest. destruct (batch_full _); [|done]. cbn. now rewrite app_nil_r. Qed.

Lemma in_range_dec r x : contains r x \/ ~ contains r x.
Proof. unfold contains. lia. Qed.

Lemma unmap_ranges_ret lo hi top ranges : spans lo hi -> forall m t f dealloc,
  lo <= m -> ranges_in m ranges hi -> batch_before (pending f) m -> plain4 t ->
  exists t' f' dealloc', unmap_ranges ranges keep top t f dealloc = Some (t', f', dealloc') /\
    ranges_unmapped ranges t t' (flush_rest f) (flush_rest f') dealloc dealloc'.
Proof.
  intros Hsp. induction ranges as [|r ranges IH]; intros m t f dealloc Hm Hr Hb Hp; cbn [unmap_ranges].
  { exists t, f, dealloc. split; [done|]. split; [|done|done| |done|done]; intros x _ Hx; now apply in_batch_nil in Hx. }
  destruct Hr as (R1 & R2 & R3 & R4 & R5).
  destruct (pageTableUnmap_ret t r top (pending f) dealloc) as (t1 & fl1 & d1 & -> & V1 & W1).
  { now apply (walkable_in lo hi); [|lia|..]. }
  { now apply (batch_before_mono _ m). }
  { done. }
  unfold mbind, option_bind. destruct W1 as [_ _ W3 W4 W5 W6 W7].
  destruct (IH (after r) t1 (flush_if_full (MkFlushing (flushed f) fl1)) d1) as (t' & f' & d' & -> & U);
    [unfold after; lia|done|now apply flush_full_before|done|].
  exists t', f', d'. split; [done|]. destruct U as [U1 U2 U3 U4 U5 U6].
  assert (Hf : forall x, in_batch (flushed f) x \/ in_batch fl1 x -> in_batch (flush_rest f') x).
  { intros x Hx. apply U3, flush_full_rest. unfold flush_rest. cbn. now apply in_batch_app. }
  split; [| | | |now rewrite U5|done].
  - intros x Hx0 Hx. destruct (in_range_dec r x) as [Hr|Hr].
    + destruct (translate t' x) as [e|] eqn:E; [|done].
      assert (~ in_batch ranges x) as Hn by (intros Hi; rewrite U1 in E by done; done).
      rewrite U2, V1 in E by done. now rewrite decide_True in E.
    + apply U1; [done|]. now apply in_batch_cons in Hx as [Hx|Hx].
  - intros x Hx0 Hx. rewrite in_batch_cons in Hx. rewrite U2 by tauto. rewrite V1 by done. now rewrite decide_False by tauto.
  - intros x Hx. apply Hf. unfold flush_rest in Hx. apply in_batch_app in Hx as [Hx|Hx]; auto.
  - intros x Hx0 Hx Hs. destruct (in_range_dec r x) as [Hr|Hr]; [apply Hf; right; now apply W4|].
    apply in_batch_cons in Hx as [Hx|Hx]; [done|]. apply U4; [done|done|]. rewrite V1 by done. now rewrite decide_False.
Qed.

Section Freed.
Context {A : Type} {alloc : PageAllocator A} {laws : PageAllocatorLaws A}.

(** The pages of the tables that are gone were given back. *)
Definition given_back (t t' : Level4) (a a' : A) : Prop := exists gone,
  pages4 no_pages t' ++ gone ≡ₚ pages4 no_pages t /\
  (NoDup (pages4 no_pages t) -> (forall f, f ∈ pages4 no_pages t -> f ∉ free_pages a) ->
   (forall f, f ∈ pages4 no_pages t -> 0 <= f < page_limit A) ->
   free_pages a' = free_pages a ∪ list_to_set gone).

Lemma given_back_refl t a : given_back t t a a.
Proof. exists []. rewrite app_nil_r. split; [done|]. intros _ _ _. cbn. now rewrite union_empty_r_L. Qed.

Lemma given_back_trans t t1 t2 a a1 a2 : given_back t t1 a a1 -> given_back t1 t2 a1 a2 -> given_back t t2 a a2.
Proof.
  intros (g1 & P1 & F1) (g2 & P2 & F2). exists (g2 ++ g1). split; [now rewrite app_assoc, P2|].
  intros Hn Hd Hb. specialize (F1 Hn Hd Hb). rewrite <- P1 in Hn. apply NoDup_app in Hn as (N1 & N2 & N3).
  rewrite F2, F1; [rewrite list_to_set_app_L; set_solver|done| |].
  2: { intros f Hf. apply Hb. rewrite <- P1. apply elem_of_app. auto. }
  intros f Hf. rewrite F1. pose proof (Hd f ltac:(rewrite <- P1; apply elem_of_app; auto)). specialize (N2 f Hf). set_solver.
Qed.

(** What a pass over the ranges of an operation leaves: those ranges are unmapped,
    and nothing outside [lo] to [hi] changes. *)
Record batches_unmapped (lo hi : Z) (ranges : list VirtualRange) (t t' : Level4) (fl fl' : list VirtualRange) (a a' : A) : Prop := {
  bu_in : forall x, 0 <= x < 2 ^ 48 -> in_batch ranges x -> translate t' x = None;
  bu_cases : forall x, 0 <= x < 2 ^ 48 -> translate t' x = translate t x \/ (translate t' x = None /\ lo <= x < hi);
  bu_batch : forall x, in_batch fl x -> in_batch fl' x;
  bu_flushed : forall x, 0 <= x < 2 ^ 48 -> is_Some (translate t x) -> translate t' x = None -> in_batch fl' x;
  bu_pages : given_back t t' a a';
  bu_plain : plain4 t';
}.

Lemma memory_unmap_ret lo hi m batch t a done : spans lo hi -> lo <= m -> ranges_in m batch hi -> plain4 t ->
  exists t' fl a', memory_unmap t batch keep free a = Some (t', fl, a') /\
    batches_unmapped lo hi batch t t' done (done ++ fl) a a'.
Proof.
  intros Hsp Hm Hb Hp. unfold memory_unmap.
  destruct (unmap_ranges_ret lo hi free batch Hsp m t (MkFlushing [] []) [] Hm Hb I Hp) as (t' & f' & d' & -> & [U1 U2 _ U4 U5 U6]).
  unfold mbind, option_bind. eexists _, _, _. split; [done|].
  assert (Hin : forall x, in_batch batch x -> lo <= x < hi).
  { intros x (q & Hq & Hx). destruct (ranges_bounds _ _ _ _ Hb Hq) as (B1 & _ & _ & B2). unfold contains in Hx. lia. }
  assert (Hd : forall x, 0 <= x < 2 ^ 48 -> translate t' x = translate t x \/ (translate t' x = None /\ in_batch batch x)).
  { intros x Hx. destruct (decide (Exists (fun q => address q <= x < after q) batch)) as [He|He].
    - right. assert (in_batch batch x) by (apply Exists_exists in He as (q & Hq & Hx'); exists q; done). auto.
    - left. apply U2; [done|]. intros (q & Hq & Hx'). apply He, Exists_exists. eauto. }
  split; [done| |intros x Hx; apply in_batch_app; auto| | |done].
  - intros x Hx. destruct (Hd x Hx) as [H|[H1 H2]]; auto.
  - intros x Hx Hs Hn. apply in_batch_app. right. destruct (Hd x Hx) as [H|[H1 H2]]; [|now apply U4].
    rewrite <- H, Hn in Hs. now apply is_Some_None in Hs.
  - rewrite app_nil_r in U5. exists d'. split; [done|]. intros Hn Hdj Hbd. apply deallocate_free.
    + rewrite <- U5 in Hn. now apply NoDup_app in Hn as (_ & _ & Hn).
    + intros f Hf. apply Hdj. rewrite <- U5. apply elem_of_app. auto.
    + intros f Hf. apply Hbd. rewrite <- U5. apply elem_of_app. auto.
Qed.

Lemma batches_trans lo hi r1 r2 t t1 t2 fl fl1 fl2 a a1 a2 :
  batches_unmapped lo hi r1 t t1 fl fl1 a a1 -> batches_unmapped lo hi r2 t1 t2 fl1 fl2 a1 a2 ->
  batches_unmapped lo hi (r1 ++ r2) t t2 fl fl2 a a2.
Proof.
  intros [A1 A2 A3 A4 A5 A6] [B1 B2 B3 B4 B5 B6]. split; [| |auto| |now apply (given_back_trans t t1 t2 a a1 a2)|done].
  - intros x Hx [H|H]%in_batch_app; [|auto]. destruct (B2 x Hx) as [->|[-> _]]; auto.
  - intros x Hx. destruct (B2 x Hx) as [->|H]; auto.
  - intros x Hx Hs Hn. destruct (B2 x Hx) as [E|_]; [apply B3, A4; congruence|].
    destruct (A2 x Hx) as [E|[E _]]; [|apply B3; auto]. apply B4; [done|congruence|done].
Qed.

Lemma batches_sub lo hi r r' t t' fl fl' a a' : (forall x, in_batch r x -> in_batch r' x) ->
  batches_unmapped lo hi r' t t' fl fl' a a' -> batches_unmapped lo hi r t t' fl fl' a a'.
Proof. intros Hs [A1 A2 A3 A4 A5 A6]. split; auto. Qed.

Lemma unmap_batches_ret lo hi ranges : spans lo hi -> forall m batch t a done,
  lo <= m -> ranges_in lo batch m -> ranges_in m ranges hi -> m <= hi -> plain4 t ->
  exists t' fl a', unmap_batches ranges batch t a done = Some (t', fl, a') /\
    batches_unmapped lo hi (batch ++ ranges) t t' done fl a a'.
Proof.
  intros Hsp. induction ranges as [|r ranges IH]; intros m batch t a done Hm Hb Hr Hh Hp; cbn [unmap_batches].
  - rewrite app_nil_r. destruct batch as [|q batch].
    + exists t, done, a. split; [done|]. split; [|auto|done| |apply given_back_refl|done].
      * intros x _ Hx. now apply in_batch_nil in Hx.
      * intros x _ Hs Hn. rewrite Hn in Hs. now apply is_Some_None in Hs.
    + destruct (memory_unmap_ret lo hi lo (q :: batch) t a done Hsp ltac:(lia) (ranges_hi _ _ _ _ Hh Hb) Hp) as (t' & fl & a' & -> & U).
      unfold mbind, option_bind. eauto.
  - destruct Hr as (R1 & R2 & R3 & R4 & R5). assert (Hb' : ranges_in lo batch (address r)) by now apply (ranges_hi _ _ m).
    destruct (batch_append r batch) as [batch'|] eqn:Eb.
    + destruct (batch_append_ret lo batch r batch' Hb' ltac:(lia) R2 R3 Eb) as [B1 B2].
      destruct (IH (after r) batch' t a done) as (t' & fl & a' & -> & U); [unfold after; lia|done|done|done|done|].
      exists t', fl, a'. split; [done|]. apply (batches_sub _ _ _ (batch' ++ ranges)); [|exact U].
      intros x. rewrite !in_batch_app, in_batch_cons. intros [H|[H|H]]; auto.
    + destruct (memory_unmap_ret lo hi lo batch t a done Hsp ltac:(lia) (ranges_hi _ _ _ _ Hh Hb) Hp) as (t1 & fl1 & a1 & -> & U1).
      unfold mbind, option_bind. change (appendMergeIfFull r []) with [r].
      destruct (IH (after r) [r] t1 a1 (done ++ fl1)) as (t' & fl & a' & -> & U2); [unfold after; lia| |done|done|apply U1|].
      { cbn. split; [lia|]. split; [done|]. split; [done|]. split; [lia|done]. }
      exists t', fl, a'. split; [done|]. exact (batches_trans _ _ _ _ _ _ _ _ _ _ _ _ _ U1 U2).
Qed.

End Freed.

(** ** Changing protections in batches *)

(** The addresses of [ranges] with [f] applied to their entries, and possibly others
    between [lo] and [hi]. *)
Record leaves_changed (f : Z -> Z) (lo hi : Z) (ranges : list VirtualRange) (t t' : Level4) : Prop := {
  lc_in : forall x, 0 <= x < 2 ^ 48 -> in_batch ranges x -> translate t' x = f <$> translate t x;
  lc_cases : forall x, 0 <= x < 2 ^ 48 -> translate t' x = translate t x \/ (translate t' x = f <$> translate t x /\ lo <= x < hi);
  lc_pages : pages4 no_pages t' ≡ₚ pages4 no_pages t;
  lc_plain : plain4 t';
}.

Lemma leaves_refl f lo hi t : plain4 t -> leaves_changed f lo hi [] t t.
Proof. intros Hp. split; [|auto|done|done]. intros x _ Hx. now apply in_batch_nil in Hx. Qed.

Lemma leaves_trans f lo hi r1 r2 t t1 t2 : (forall e, f (f e) = f e) ->
  leaves_changed f lo hi r1 t t1 -> leaves_changed f lo hi r2 t1 t2 -> leaves_changed f lo hi (r1 ++ r2) t t2.
Proof.
  intros Hf [A1 A2 A3 A4] [B1 B2 B3 B4].
  assert (Hff : forall o : option Z, f <$> (f <$> o) = f <$> o) by (intros [e|]; cbn; [now rewrite Hf|done]).
  split; [| |now rewrite B3|done]; intros x Hx.
  - intros [H|H]%in_batch_app.
    + destruct (B2 x Hx) as [->|[-> _]]; rewrite (A1 x Hx H); auto.
    + rewrite (B1 x Hx H). destruct (A2 x Hx) as [->|[-> _]]; auto.
  - destruct (B2 x Hx) as [->|[-> ?]]; [auto|]. destruct (A2 x Hx) as [->|[-> ?]]; [auto|]. rewrite Hff. auto.
Qed.

Lemma leaves_sub f lo hi r r' t t' : (forall x, in_batch r x -> in_batch r' x) -> leaves_changed f lo hi r' t t' ->
  leaves_changed f lo hi r t t'.
Proof. intros Hs [A1 A2 A3 A4]. split; auto. Qed.

Section Protect.
Variable nx : bool.
Variable new : MapType.

#[local] Abbreviation changes := (leaves_changed (applyMapType nx new small)).

Lemma protect_ranges_ret lo hi ranges : spans lo hi -> forall m t f,
  lo <= m -> ranges_in m ranges.*1 hi -> batch_before (pending f) m -> plain4 t ->
  exists t' f', protect_ranges nx ranges new t f = Some (t', f') /\ changes lo hi ranges.*1 t t'.
Proof.
  intros Hsp. induction ranges as [|[r p] ranges IH]; intros m t f Hm Hr Hb Hp; cbn [protect_ranges].
  { exists t, f. split; [done|now apply leaves_refl]. }
  rewrite fmap_cons in Hr. destruct Hr as (R1 & R2 & R3 & R4 & R5). cbn [fst] in *.
  destruct (pageTableChangeProtection_ret nx t r (MkMapType (map_context new) p write_back) new (pending f)) as (t1 & fl1 & -> & V1 & W1).
  { now apply (walkable_in lo hi); [|lia|..]. }
  { now apply (batch_before_mono _ m). }
  { done. }
  unfold mbind, option_bind. destruct W1 as [_ _ _ _ W5 W6 W7].
  destruct (IH (after r) t1 (flush_if_full (MkFlushing (flushed f) fl1))) as (t' & f' & -> & U);
    [unfold after; lia|done|now apply flush_full_before|done|].
  exists t', f'. split; [done|]. rewrite fmap_cons. change (_ :: ?l) with ([r] ++ l).
  apply (leaves_trans _ _ _ _ _ _ t1); [apply applyMapType_idem| |exact U].
  split; [| |now rewrite !app_nil_r in W6|done]; intros x Hx; rewrite V1 by done.
  - rewrite in_batch_cons. intros [H|H]; [now rewrite decide_True|now apply in_batch_nil in H].
  - destruct (decide _) as [H|H]; [right|auto]. split; [done|]. unfold contains in H. lia.
Qed.

Lemma memory_changeProtection_ret debug lo hi m batch t : spans lo hi -> lo <= m -> ranges_in m batch.*1 hi -> plain4 t ->
  (debug && bool_decide (map_protection new = no_protection)) = false ->
  exists t' fl, memory_changeProtection debug nx t batch new = Some (t', fl) /\ changes lo hi batch.*1 t t'.
Proof.
  intros Hsp Hm Hb Hp Hn. unfold memory_changeProtection. rewrite Hn.
  destruct (protect_ranges_ret lo hi batch Hsp m t (MkFlushing [] []) Hm Hb I Hp) as (t' & f' & -> & U). unfold mbind, option_bind. eauto.
Qed.

Lemma protect_append_ret lo batch rp batch' : ranges_in lo batch.*1 (address rp.1) -> lo <= address rp.1 -> 0 < size rp.1 ->
  pageAligned rp.1 = true -> protect_append rp batch = Some batch' ->
  ranges_in lo batch'.*1 (after rp.1) /\ forall x, in_batch batch.*1 x \/ contains rp.1 x -> in_batch batch'.*1 x.
Proof.
  intros Hb Hlo Hs Ha. unfold protect_append. destruct (last batch) as [[l p]|] eqn:El.
  2: { intros [= <-]. apply last_None in El as ->. cbn. split; [done|]. intros x.
       rewrite in_batch_cons. intros [H|H]; [now apply in_batch_nil in H|auto]. }
  apply last_Some in El as [pre ->]. rewrite removelast_last. rewrite fmap_app in Hb. cbn in Hb.
  destruct (_ && _); [intros [= <-]; rewrite !fmap_app; now apply extend_ranges|]. destruct (batch_full _); [done|]. intros [= <-].
  rewrite !fmap_app. cbn. split; [now apply ranges_snoc|]. intros x. rewrite (in_batch_app (_ ++ _)), in_batch_cons. tauto.
Qed.

Lemma protect_batches_ret debug lo hi ranges : spans lo hi -> (debug && bool_decide (map_protection new = no_protection)) = false -> forall m batch t done,
  lo <= m -> ranges_in lo batch.*1 m -> ranges_in m ranges.*1 hi -> m <= hi -> plain4 t ->
  exists t' fl, protect_batches debug nx ranges batch new t done = Some (t', fl) /\ changes lo hi (batch.*1 ++ ranges.*1) t t'.
Proof.
  intros Hsp Hn. induction ranges as [|[r p] ranges IH]; intros m batch t done Hm Hb Hr Hh Hp; cbn [protect_batches].
  - change ([].*1) with (@nil VirtualRange). rewrite app_nil_r. destruct batch as [|q batch].
    + exists t, done. split; [done|now apply leaves_refl].
    + destruct (memory_changeProtection_ret debug lo hi lo (q :: batch) t Hsp ltac:(lia) (ranges_hi _ _ _ _ Hh Hb) Hp Hn) as (t' & fl & -> & U).
      unfold mbind, option_bind. eauto.
  - rewrite fmap_cons in *. destruct Hr as (R1 & R2 & R3 & R4 & R5). cbn [fst] in *.
    assert (Hb' : ranges_in lo batch.*1 (address r)) by now apply (ranges_hi _ _ m).
    destruct (protect_append (r, p) batch) as [batch'|] eqn:Eb.
    + destruct (protect_append_ret lo batch (r, p) batch' Hb' ltac:(cbn; lia) R2 R3 Eb) as [B1 B2].
      destruct (IH (after r) batch' t done) as (t' & fl & -> & U); [unfold after; lia|done|done|done|done|].
      exists t', fl. split; [done|]. apply (leaves_sub _ _ _ _ (batch'.*1 ++ ranges.*1)); [|exact U].
      intros x. rewrite !in_batch_app, in_batch_cons. intros [H|[H|H]]; auto.
    + destruct (memory_changeProtection_ret debug lo hi lo batch t Hsp ltac:(lia) (ranges_hi _ _ _ _ Hh Hb) Hp Hn) as (t1 & fl1 & -> & U1).
      unfold mbind, option_bind.
      destruct (IH (after r) [(r, p)] t1 (done ++ fl1)) as (t' & fl & -> & U2); [unfold after; lia| |done|done|apply U1|].
      { cbn. split; [lia|]. split; [done|]. split; [done|]. split; [lia|done]. }
      exists t', fl. split; [done|]. exact (leaves_trans _ _ _ _ _ _ _ _ (applyMapType_idem nx new) U1 U2).
Qed.
End Protect.
