(* ===== verification/PageFault.v ===== *)
(** * Page faults

    [src/src/innigkeit/memory/address_space/FaultInfo.zig], [AnonMap.zig],
    [AnonPage.zig], [chunk_map.zig] and [handlePageFault] of [AddressSpace.zig]: how
    a process gets the memory it was promised by [mmap] when it touches it.

    The state is the address space, the anonymous pages, the page table, the bytes
    of the physical memory, the page allocator and the locks.  One fault is
    handled at a time, but the locks are real: taking one that is held, or letting
    go of one that is not, is [Trap], as are the panics of the code.  The kernel's
    caches may be out of memory, and an upgrade of a lock may fail: [Resources].
    There is no memory object in the system, so an entry has none. *)

From stdpp Require Import gmap.
From S2P Require Import Prelude Machine AddressSpace PageTable.

(** ** State *)

Record AnonPage := MkAnonPage { page_references : Z; physical_page : Z }.

Inductive LockType := read_lock | write_lock.
#[export] Instance LockType_eq : EqDecision LockType.
Proof. solve_decision. Defined.

(** The locks the task holds: of the entries, of an anonymous map, of an anonymous
    page, and of the page table. *)
Record Locks := MkLocks {
  entries_lock : option LockType;
  map_lock : option (nat * LockType);
  page_lock : option nat;
  page_table_lock : bool;
}.
Definition no_locks : Locks := MkLocks None None None false.

Record VM (A : Type) := MkVM {
  space : AddressSpace;
  anonymous_pages : gmap nat AnonPage;
  page_table : Level4;
  memory : Z -> Z;
  allocator : A;
  locks : Locks;
}.
Arguments MkVM {A}.
Arguments space {A} v : rename.
Arguments anonymous_pages {A} v : rename.
Arguments page_table {A} v : rename.
Arguments memory {A} v : rename.
Arguments allocator {A} v : rename.
Arguments locks {A} v : rename.

Inductive AccessType := read | write | execute.

Record FaultInfo := MkFaultInfo {
  access_type : AccessType;
  faulting_address : Z;
  entry : nat;
  enter_protection : Protection;
  wired : bool;
  promote_to_anonymous_map : bool;
  anonymous_map_lock_type : LockType;
}.

Inductive FaultError := Restart | NotMapped | ProtectionViolation | OutOfMemory.
Inductive outcome (X : Type) := Ok (x : X) | Err (e : FaultError) | Trap.
Arguments Ok {X} x.
Arguments Err {X} e.
Arguments Trap {X}.

(** Whether the caches hand out an anonymous map, an anonymous page and a chunk, and
    whether the upgrade of a lock succeeds. *)
Record Resources := MkResources {
  map_available : bool;
  page_available : bool;
  chunk_available : bool;
  upgrade_succeeds : bool;
}.

(** ** The entry of an address *)

(** [std.sort.binarySearch] with [entryAddressCompare]. *)
Fixpoint binarySearch (fuel : nat) (es : list Entry) (a : Z) (low high : nat) : option nat :=
  match fuel with
  | O => None
  | S fuel' =>
      if (low <? high)%nat then
        let mid := (low + (high - low) / 2)%nat in
        match es !! mid with
        | Some e =>
            if a <? address (range e) then binarySearch fuel' es a low mid
            else if after (range e) <=? a then binarySearch fuel' es a (S mid) high
            else Some mid
        | None => None
        end
      else None
  end.

Definition entryIndexByAddress (es : list Entry) (a : Z) : option nat :=
  binarySearch (S (length es)) es a 0 (length es).

(** ** Chunks *)

Definition slots_per_chunk : Z := 16.
Definition chunkIndex (index : Z) : Z := Z.shiftr index 4.
Definition chunkOffset (index : Z) : Z := Z.land index (slots_per_chunk - 1).

Abbreviation Chunks := (gmap Z (list (option nat))).

Definition chunk_get (chunks : Chunks) (index : Z) : option nat :=
  match chunks !! chunkIndex index with
  | Some chunk => default None (chunk !! Z.to_nat (chunkOffset index))
  | None => None
  end.

(** [ensureChunk]; [None] when a new chunk cannot be allocated. *)
Definition ensureChunk (av : Resources) (chunks : Chunks) (index : Z) : option Chunks :=
  match chunks !! chunkIndex index with
  | Some _ => Some chunks
  | None => if chunk_available av then Some (<[chunkIndex index := replicate 16 None]> chunks) else None
  end.

(** The assignment to a slot of a chunk that exists. *)
Definition chunk_set (chunks : Chunks) (index : Z) (p : nat) : Chunks :=
  alter (fun chunk => <[Z.to_nat (chunkOffset index) := Some p]> chunk) (chunkIndex index) chunks.

(** [Reference.targetIndex]; a result that does not fit 32 bits traps. *)
Definition targetIndex (e : Entry) (start_offset fault : Z) : Z := (fault - address (range e)) / page + start_offset / page.

(** ** The fault monad *)

Section Fault.
Context {A : Type} `{PageAllocator A}.
Variable debug : bool.
Variable execute_disable : bool.
Variable av : Resources.

Definition FaultState : Type := FaultInfo * VM A.
Definition F (X : Type) : Type := FaultState -> outcome X * FaultState.

#[export] Instance F_ret : MRet F := fun X x s => (Ok x, s).
#[export] Instance F_bind : MBind F := fun X Y k c s =>
  match c s with
  | (Ok x, s') => k x s'
  | (Err e, s') => (Err e, s')
  | (Trap, s') => (Trap, s')
  end.

Definition throw {X} (e : FaultError) : F X := fun s => (Err e, s).
Definition panic {X} : F X := fun s => (Trap, s).
Definition guarded (b : bool) : F unit := if b then mret tt else panic.
(** An assertion of a debug build. *)
Definition assert_debug (b : bool) : F unit := guarded (negb debug || b).

Definition info : F FaultInfo := fun s => (Ok s.1, s).
Definition vm : F (VM A) := fun s => (Ok s.2, s).
Definition set_info (f : FaultInfo -> FaultInfo) : F unit := fun s => (Ok tt, (f s.1, s.2)).
Definition set_vm (f : VM A -> VM A) : F unit := fun s => (Ok tt, (s.1, f s.2)).

Definition set_space (s : AddressSpace) (v : VM A) : VM A :=
  MkVM s (anonymous_pages v) (page_table v) (memory v) (allocator v) (locks v).
Definition set_pages (p : gmap nat AnonPage) (v : VM A) : VM A :=
  MkVM (space v) p (page_table v) (memory v) (allocator v) (locks v).
Definition set_memory (m : Z -> Z) (v : VM A) : VM A :=
  MkVM (space v) (anonymous_pages v) (page_table v) m (allocator v) (locks v).
Definition set_allocator (a : A) (v : VM A) : VM A :=
  MkVM (space v) (anonymous_pages v) (page_table v) (memory v) a (locks v).
Definition set_locks (l : Locks) (v : VM A) : VM A :=
  MkVM (space v) (anonymous_pages v) (page_table v) (memory v) (allocator v) l.
Definition set_table (t : Level4) (a : A) (v : VM A) : VM A :=
  MkVM (space v) (anonymous_pages v) t (memory v) a (locks v).

Definition with_lock_type (t : LockType) (f : FaultInfo) : FaultInfo :=
  MkFaultInfo (access_type f) (faulting_address f) (entry f) (enter_protection f) (wired f) (promote_to_anonymous_map f) t.
Definition with_entry (i : nat) (f : FaultInfo) : FaultInfo :=
  MkFaultInfo (access_type f) (faulting_address f) i (enter_protection f) (wired f) (promote_to_anonymous_map f)
    (anonymous_map_lock_type f).
Definition with_enter (p : Protection) (f : FaultInfo) : FaultInfo :=
  MkFaultInfo (access_type f) (faulting_address f) (entry f) p (wired f) (promote_to_anonymous_map f) (anonymous_map_lock_type f).
Definition with_promote (b : bool) (f : FaultInfo) : FaultInfo :=
  MkFaultInfo (access_type f) (faulting_address f) (entry f) (enter_protection f) (wired f) b (anonymous_map_lock_type f).
(** A wired entry needs full access and the write lock. *)
Definition with_wired (f : FaultInfo) : FaultInfo :=
  let access := if p_write (enter_protection f) then write
                else if p_execute (enter_protection f) then execute else access_type f in
  MkFaultInfo access (faulting_address f) (entry f) (enter_protection f) true (promote_to_anonymous_map f) write_lock.

(** *** Locks *)

Definition lock_entries (t : LockType) : F unit :=
  v ← vm; let l := locks v in
  guarded (bool_decide (entries_lock l = None));;
  set_vm (set_locks (MkLocks (Some t) (map_lock l) (page_lock l) (page_table_lock l))).
Definition unlock_entries (t : LockType) : F unit :=
  v ← vm; let l := locks v in
  guarded (bool_decide (entries_lock l = Some t));;
  set_vm (set_locks (MkLocks None (map_lock l) (page_lock l) (page_table_lock l))).

Definition lock_map (i : nat) (t : LockType) : F unit :=
  v ← vm; let l := locks v in
  guarded (bool_decide (map_lock l = None));;
  set_vm (set_locks (MkLocks (entries_lock l) (Some (i, t)) (page_lock l) (page_table_lock l))).
Definition unlock_map (i : nat) (t : LockType) : F unit :=
  v ← vm; let l := locks v in
  guarded (bool_decide (map_lock l = Some (i, t)));;
  set_vm (set_locks (MkLocks (entries_lock l) None (page_lock l) (page_table_lock l))).
(** [tryUpgradeLock]: when it fails the lock is left unlocked. *)
Definition tryUpgradeLock (i : nat) : F bool :=
  v ← vm; let l := locks v in
  guarded (bool_decide (map_lock l = Some (i, read_lock)));;
  set_vm (set_locks (MkLocks (entries_lock l) (if upgrade_succeeds av then Some (i, write_lock) else None)
    (page_lock l) (page_table_lock l)));;
  mret (upgrade_succeeds av).

Definition lock_page (p : nat) : F unit :=
  v ← vm; let l := locks v in
  guarded (bool_decide (page_lock l = None));;
  set_vm (set_locks (MkLocks (entries_lock l) (map_lock l) (Some p) (page_table_lock l))).
Definition unlock_page (p : nat) : F unit :=
  v ← vm; let l := locks v in
  guarded (bool_decide (page_lock l = Some p));;
  set_vm (set_locks (MkLocks (entries_lock l) (map_lock l) None (page_table_lock l))).

Definition lock_table : F unit :=
  v ← vm; let l := locks v in
  guarded (negb (page_table_lock l));;
  set_vm (set_locks (MkLocks (entries_lock l) (map_lock l) (page_lock l) true)).
Definition unlock_table : F unit :=
  v ← vm; let l := locks v in
  guarded (page_table_lock l);;
  set_vm (set_locks (MkLocks (entries_lock l) (map_lock l) (page_lock l) false)).

(** *** Pages *)

(** [PhysicalPage.allocator.allocate] *)
Definition allocate_page : F (option Z) :=
  v ← vm;
  match allocate (allocator v) with
  | Some (f, a) => set_vm (set_allocator a);; mret (Some f)
  | None => mret None
  end.
Definition deallocate_pages (l : list Z) : F unit :=
  v ← vm; set_vm (set_allocator (deallocate l (allocator v))).

Definition write_memory (m : (Z -> Z) -> Z -> Z) : F unit := v ← vm; set_vm (set_memory (m (memory v))).
(** [@memset] of a page to 0, and [@memcpy] of a page. *)
Definition page_zeroed (f : Z) (m : Z -> Z) (a : Z) : Z := if a / page =? f then 0 else m a.
Definition page_copied (new old : Z) (m : Z -> Z) (a : Z) : Z :=
  if a / page =? new then m (a - baseAddress new + baseAddress old) else m a.

(** [AnonPage.create] *)
Definition AnonPage_create (physical : Z) : F (option nat) :=
  v ← vm;
  if page_available av then
    let p := fresh (dom (anonymous_pages v)) in
    set_vm (set_pages (<[p := MkAnonPage 1 physical]> (anonymous_pages v)));;
    mret (Some p)
  else mret None.

Definition get_page (p : nat) : F AnonPage :=
  v ← vm; match anonymous_pages v !! p with Some ap => mret ap | None => panic end.

(** [AnonPage.decrementReferenceCount]: the pages to free; the lock is let go. *)
Definition AnonPage_decrementReferenceCount (p : nat) (free_list : list Z) : F (list Z) :=
  ap ← get_page p; v ← vm;
  if page_references ap =? 1 then
    set_vm (set_pages (delete p (anonymous_pages v)));;
    unlock_page p;;
    mret (physical_page ap :: free_list)
  else
    set_vm (set_pages (<[p := MkAnonPage (page_references ap - 1) (physical_page ap)]> (anonymous_pages v)));;
    unlock_page p;;
    mret free_list.

Definition AnonPage_incrementReferenceCount (p : nat) : F unit :=
  ap ← get_page p; v ← vm;
  set_vm (set_pages (<[p := MkAnonPage (page_references ap + 1) (physical_page ap)]> (anonymous_pages v))).

(** *** Anonymous maps *)

Definition get_entry : F Entry :=
  f ← info; v ← vm; match entries (space v) !! entry f with Some e => mret e | None => panic end.
Definition set_entry (g : Entry -> Entry) : F unit :=
  f ← info; v ← vm; let s := space v in
  set_vm (set_space (Space (space_range s) (alter g (entry f) (entries s)) (entries_version s) (anonymous_maps s))).

Definition get_map (i : nat) : F AnonMap :=
  v ← vm; match anonymous_maps (space v) !! i with Some m => mret m | None => panic end.
Definition set_maps (g : gmap nat AnonMap -> gmap nat AnonMap) : F unit :=
  v ← vm; let s := space v in
  set_vm (set_space (Space (space_range s) (entries s) (entries_version s) (g (anonymous_maps s)))).

(** [AnonMap.create]: the number of pages is cast to 32 bits. *)
Definition AnonMap_create (bytes : Z) : F (option nat) :=
  if map_available av then
    guarded (bytes / page <? 2 ^ 32);;
    v ← vm;
    let i := fresh (dom (anonymous_maps (space v))) in
    set_maps (insert i (Anon 1 (bytes / page) 0 ∅));;
    mret (Some i)
  else mret None.

(** The slots of a map that hold a page, with their index. *)
Definition chunk_slots (kv : Z * list (option nat)) : list (Z * nat) :=
  omap (fun ko : nat * option nat => match ko.2 with Some p => Some (kv.1 * slots_per_chunk + Z.of_nat ko.1, p) | None => None end)
    (zip (seq 0 (length kv.2)) kv.2).
Definition populated (chunks : Chunks) : list (Z * nat) := map_to_list chunks ≫= chunk_slots.

Fixpoint decrement_all (l : list (Z * nat)) (free_list : list Z) : F (list Z) :=
  match l with
  | [] => mret free_list
  | (_, p) :: l' =>
      lock_page p;;
      free_list ← AnonPage_decrementReferenceCount p free_list;
      decrement_all l' free_list
  end.

(** [AnonMap.destroy], and [AnonMap.decrementReferenceCount] around it. *)
Definition AnonMap_destroy (i : nat) (free_list : list Z) : F (list Z) :=
  m ← get_map i;
  free_list ← decrement_all (populated (anonymous_page_chunks m)) free_list;
  unlock_map i write_lock;;
  set_maps (delete i);;
  mret free_list.

Definition AnonMap_decrementReferenceCount (i : nat) (free_list : list Z) : F (list Z) :=
  m ← get_map i;
  if reference_count m =? 1 then AnonMap_destroy i free_list
  else set_maps (add_references i (-1));; unlock_map i write_lock;; mret free_list.

(** The slots of the entry's window of the old map, each page with one more
    reference; false when a chunk cannot be allocated, with everything undone but
    the lock of the old map.  The new map is destroyed then; no other task can know
    it, and its lock is left out. *)
Fixpoint copy_slots (l : list (Z * nat)) (start_page entry_pages : Z) (new_map : nat) : F bool :=
  match l with
  | [] => mret true
  | (slot_index, p) :: l' =>
      if (slot_index <? start_page) || (start_page + entry_pages <=? slot_index)
      then copy_slots l' start_page entry_pages new_map
      else
        lock_page p;; AnonPage_incrementReferenceCount p;; unlock_page p;;
        let new_index := slot_index - start_page in
        m ← get_map new_map;
        match ensureChunk av (anonymous_page_chunks m) new_index with
        | None =>
            lock_page p;;
            free_list ← AnonPage_decrementReferenceCount p [];
            free_list ← decrement_all (populated (anonymous_page_chunks m)) free_list;
            set_maps (delete new_map);;
            deallocate_pages free_list;;
            mret false
        | Some chunks =>
            set_maps (insert new_map (Anon (reference_count m) (number_of_pages m) (pages_in_use m + 1)
              (chunk_set chunks new_index p)));;
            copy_slots l' start_page entry_pages new_map
        end
  end.

Definition clear_needs_copy (e : Entry) : Entry :=
  MkEntry (range e) (protection e) (max_protection e) (anonymous_map e) (copy_on_write e) false (wired_count e).

(** [AnonMap.copy] *)
Definition AnonMap_copy : F unit :=
  e ← get_entry;
  match anonymous_map e with
  | None =>
      new ← AnonMap_create (size (range e));
      match new with
      | None => throw OutOfMemory
      | Some i => set_entry (fun e => clear_needs_copy (with_anon (Some (i, 0)) e))
      end
  | Some (old, start_offset) =>
      lock_map old write_lock;;
      m ← get_map old;
      if reference_count m =? 1 then
        unlock_map old write_lock;;
        set_entry clear_needs_copy
      else
        new ← AnonMap_create (size (range e));
        match new with
        | None => unlock_map old write_lock;; throw OutOfMemory
        | Some i =>
            copied ← copy_slots (populated (anonymous_page_chunks m)) (start_offset / page) (size (range e) / page) i;
            if copied : bool then
              set_entry (fun e => clear_needs_copy (with_anon (Some (i, 0)) e));;
              free_list ← AnonMap_decrementReferenceCount old [];
              deallocate_pages free_list
            else unlock_map old write_lock;; throw OutOfMemory
        end
  end.

(** [Reference.lookup] *)
Definition Reference_lookup (e : Entry) (i : nat) (start_offset fault : Z) : F (option nat) :=
  m ← get_map i;
  let target_index := targetIndex e start_offset fault in
  guarded (target_index <? 2 ^ 32);;
  assert_debug (target_index <? number_of_pages m);;
  mret (chunk_get (anonymous_page_chunks m) target_index).

Inductive AddOperation := add_page | replace_page.

(** [Reference.add]; false when it is out of memory. *)
Definition Reference_add (e : Entry) (i : nat) (start_offset fault : Z) (p : nat) (operation : AddOperation) : F bool :=
  m ← get_map i;
  let target_index := targetIndex e start_offset fault in
  guarded (target_index <? 2 ^ 32);;
  assert_debug (target_index <? number_of_pages m);;
  match ensureChunk av (anonymous_page_chunks m) target_index with
  | None => mret false
  | Some chunks =>
      let occupied := chunk_get chunks target_index in
      match operation with
      | add_page => assert_debug (bool_decide (occupied = None))
      | replace_page => assert_debug (bool_decide (occupied <> None))
      end;;
      let in_use := match operation with add_page => pages_in_use m + 1 | replace_page => pages_in_use m end in
      set_maps (insert i (Anon (reference_count m) (number_of_pages m) in_use (chunk_set chunks target_index p)));;
      mret true
  end.

(** ** Handling a fault *)

(** The entry is left locked when it is found. *)
Definition faultLookup (lock_type : LockType) : F bool :=
  lock_entries lock_type;;
  f ← info; v ← vm;
  match entryIndexByAddress (entries (space v)) (faulting_address f) with
  | None => unlock_entries lock_type;; mret false
  | Some i => set_info (with_entry i);; mret true
  end.

Definition unlockAll (opt_anonymous_map : option nat) : F unit :=
  f ← info;
  match opt_anonymous_map with Some i => unlock_map i (anonymous_map_lock_type f) | None => mret tt end;;
  unlock_entries read_lock.

(** [defer]: the cleanup runs when the function returns or fails. *)
Definition deferred {X} (cleanup : F unit) (c : F X) : F X := fun s =>
  let '(r, s) := c s in
  match r with
  | Trap => (Trap, s)
  | _ => match cleanup s with (Ok _, s) => (r, s) | (_, s) => (Trap, s) end
  end.

Definition anonymousMapCopy : F unit :=
  found ← faultLookup write_lock;
  if negb found then throw NotMapped
  else deferred (unlock_entries write_lock) (e ← get_entry; if needs_copy e then AnonMap_copy else mret tt).

Definition faultAnonymousMapLockUpgrade (i : nat) : F bool :=
  f ← info;
  if bool_decide (anonymous_map_lock_type f = write_lock) then mret true
  else set_info (with_lock_type write_lock);; tryUpgradeLock i.

Definition allowed_by (p : Protection) (access : AccessType) : bool :=
  match access with read => p_read p | write => p_write p | execute => p_execute p end.

(** The anonymous page of the faulting address, with the locks of the entries and of
    the anonymous map held. *)
Definition faultCheck : F (option nat) :=
  found ← faultLookup read_lock;
  if negb found then throw NotMapped
  else
    e ← get_entry; f ← info;
    if negb (allowed_by (protection e) (access_type f)) then unlock_entries read_lock;; throw ProtectionViolation
    else
      set_info (with_enter (protection e));;
      (if wired_count e =? 0 then mret tt else set_info with_wired);;
      if needs_copy e then
        unlock_entries read_lock;;
        anonymousMapCopy;;
        throw Restart
      else
        assert_debug (bool_decide (anonymous_map e <> None));;
        match anonymous_map e with
        | Some (i, start_offset) =>
            f ← info;
            match access_type f with write => set_info (with_lock_type write_lock) | _ => mret tt end;;
            f ← info;
            lock_map i (anonymous_map_lock_type f);;
            Reference_lookup e i start_offset (faulting_address f)
        | None => mret None
        end.

(** [promote] of zero-filled memory: the anonymous page and its physical page.  On
    an error everything is unlocked. *)
Definition promote : F (nat * Z) :=
  e ← get_entry;
  let opt_anonymous_map := fst <$> anonymous_map e in
  allocated ← allocate_page;
  match allocated with
  | None => unlockAll opt_anonymous_map;; throw OutOfMemory
  | Some physical =>
      created ← AnonPage_create physical;
      match created with
      | None => deallocate_pages [physical];; unlockAll opt_anonymous_map;; throw OutOfMemory
      | Some p => write_memory (page_zeroed physical);; mret (p, physical)
      end
  end.

(** [memory.mapSinglePage] under the lock of the page table; false for an error. *)
Definition enter_page (physical : Z) : F bool :=
  f ← info;
  let map_type := MkMapType user (enter_protection f) write_back in
  lock_table;;
  assert_debug (negb (bool_decide (enter_protection f = no_protection)));;
  v ← vm;
  let '(error, t, a) := map4KiB execute_disable (page_table v) (faulting_address f) physical map_type (allocator v) in
  set_vm (set_table t a);;
  unlock_table;;
  mret (match error with None => true | Some _ => false end).

(** No object: [object_page] is [.zero_fill] and the page is promoted. *)
Definition faultObjectOrZeroFill : F unit :=
  e ← get_entry;
  set_info (with_promote true);;
  match anonymous_map e with
  | None => panic
  | Some (i, start_offset) =>
      upgraded ← faultAnonymousMapLockUpgrade i;
      if negb upgraded then unlockAll None;; throw Restart
      else
        '(p, physical) ← promote;
        f ← info;
        added ← Reference_add e i start_offset (faulting_address f) p add_page;
        if negb added then throw OutOfMemory
        else
          entered ← enter_page physical;
          if negb entered then unlockAll (Some i);; throw OutOfMemory
          else
            f ← info;
            if wired f then panic else unlockAll (Some i)
  end.

(** The private copy of a shared page: its physical page. *)
Definition copy_page (e : Entry) (i : nat) (start_offset : Z) (p : nat) (ap : AnonPage) : F Z :=
  upgraded ← faultAnonymousMapLockUpgrade i;
  if negb upgraded then unlock_page p;; unlock_entries read_lock;; throw Restart
  else
    allocated ← allocate_page;
    match allocated with
    | None => unlock_page p;; unlockAll (Some i);; throw OutOfMemory
    | Some new_phys =>
        write_memory (page_copied new_phys (physical_page ap));;
        created ← AnonPage_create new_phys;
        match created with
        | None => deallocate_pages [new_phys];; unlock_page p;; unlockAll (Some i);; throw OutOfMemory
        | Some new_anon =>
            free_list ← AnonPage_decrementReferenceCount p [];
            f ← info;
            added ← Reference_add e i start_offset (faulting_address f) new_anon replace_page;
            if negb added then
              deallocate_pages [new_phys];; deallocate_pages free_list;; unlockAll (Some i);; throw OutOfMemory
            else deallocate_pages free_list;; mret new_phys
        end
    end.

Definition faultUpper (p : nat) : F unit :=
  e ← get_entry; f ← info;
  match anonymous_map e with
  | None => panic
  | Some (i, start_offset) =>
      lock_page p;;
      ap ← get_page p;
      physical ←
        match access_type f with
        | write =>
            if 1 <? page_references ap then copy_page e i start_offset p ap
            else unlock_page p;; mret (physical_page ap)
        | _ => unlock_page p;; mret (physical_page ap)
        end;
      entered ← enter_page physical;
      if negb entered then unlockAll (Some i);; throw OutOfMemory
      else unlockAll (Some i)
  end.

(** An iteration of the loop of [handlePageFault]. *)
Definition fault_iteration : F unit :=
  opt_anonymous_page ← faultCheck;
  match opt_anonymous_page with
  | Some p => faultUpper p
  | None => faultObjectOrZeroFill
  end.

(** The loop; [None] when the fuel is used up. *)
Fixpoint fault_loop (fuel : nat) (s : FaultState) : option (outcome unit * FaultState) :=
  match fuel with
  | O => None
  | S fuel' =>
      match fault_iteration s with
      | (Err Restart, s') => fault_loop fuel' s'
      | r => Some r
      end
  end.

Definition handlePageFault (fuel : nat) (access : AccessType) (a : Z) (v : VM A) : option (outcome unit * VM A) :=
  match fault_loop fuel (MkFaultInfo access (a / page * page) 0 no_protection false false read_lock, v) with
  | Some (r, s) => Some (r, s.2)
  | None => None
  end.

End Fault.
