(* ===== verification/PageFaultCorrect.v ===== *)
(** * Page faults: correctness

    Handling a fault terminates, gives the process the page and changes nothing of
    what its memory holds. *)

From stdpp Require Import gmap.
From S2P Require Import Prelude Machine AddressSpace AddressSpaceCorrect PageTable PageTableCorrect PageFault.

(** ** The entry of an address *)

Lemma chain_lookup lo es hi i j x y : chain lo es hi -> es !! i = Some x -> es !! j = Some y -> (i < j)%nat ->
  after (range x) <= address (range y).
Proof.
  revert lo i j. induction es as [|e es IH]; intros lo i j Hc Hi Hj Hlt; [done|].
  cbn [chain] in Hc. destruct Hc as (H1 & H2 & H3). destruct j as [|j]; [lia|]. cbn in Hj. destruct i as [|i]; cbn in Hi.
  - injection Hi as <-. now apply (chain_bounds _ _ _ y H3), (list_elem_of_lookup_2 _ j).
  - apply (IH (after (range e)) i j); [done|done|done|lia].
Qed.

Lemma binarySearch_ret lo hi es a : chain lo es hi -> forall fuel low high, (high - low < fuel)%nat -> (low <= high <= length es)%nat ->
  (forall i e, (i < low)%nat -> es !! i = Some e -> after (range e) <= a) ->
  (forall i e, (high <= i)%nat -> es !! i = Some e -> a < address (range e)) ->
  match binarySearch fuel es a low high with
  | Some i => exists e, es !! i = Some e /\ contains (range e) a
  | None => forall e, e ∈ es -> ~ contains (range e) a
  end.
Proof.
  intros Hc fuel. induction fuel as [|fuel IH]; intros low high Hf Hb Hl Hh; [lia|]. cbn [binarySearch].
  destruct (Nat.ltb_spec low high) as [Hlt|Hge].
  - set (mid := (low + (high - low) / 2)%nat).
    assert (Hm : (low <= mid < high)%nat) by (pose proof (Nat.div_lt (high - low) 2); unfold mid; lia).
    destruct (lookup_lt_is_Some_2 es mid ltac:(lia)) as [e He]. rewrite He.
    destruct (Z.ltb_spec a (address (range e))) as [Ha|Ha].
    { apply IH; [lia|lia|done|]. intros i x Hi Hx. destruct (decide (i = mid)) as [->|]; [congruence|].
      pose proof (chain_lookup _ _ _ mid i e x Hc He Hx ltac:(lia)) as Hle.
      pose proof (chain_bounds _ _ _ e Hc (list_elem_of_lookup_2 _ _ _ He)). unfold after in Hle. lia. }
    destruct (Z.leb_spec (after (range e)) a) as [Ha2|Ha2].
    { apply IH; [lia|lia| |done]. intros i x Hi Hx. destruct (decide (i = mid)) as [->|]; [congruence|].
      pose proof (chain_lookup _ _ _ i mid x e Hc Hx He ltac:(lia)). lia. }
    exists e. split; [done|]. unfold contains. lia.
  - intros e [i Hi]%list_elem_of_lookup Hx. unfold contains in Hx. destruct (Nat.lt_ge_cases i low) as [H1|H1].
    + specialize (Hl i e H1 Hi). lia.
    + specialize (Hh i e ltac:(lia) Hi). lia.
Qed.

Lemma entry_unique lo es hi i j x y a : chain lo es hi -> es !! i = Some x -> es !! j = Some y ->
  contains (range x) a -> contains (range y) a -> i = j /\ x = y.
Proof.
  intros Hc Hi Hj Hx Hy. assert (i = j) as ->; [|split; congruence]. unfold contains in *.
  destruct (Nat.lt_trichotomy i j) as [H1|[->|H1]]; [|done|].
  - pose proof (chain_lookup _ _ _ i j x y Hc Hi Hj H1). lia.
  - pose proof (chain_lookup _ _ _ j i y x Hc Hj Hi H1). lia.
Qed.

Lemma entryIndex_ret lo es hi a : chain lo es hi ->
  match entryIndexByAddress es a with
  | Some i => exists e, es !! i = Some e /\ contains (range e) a
  | None => forall e, e ∈ es -> ~ contains (range e) a
  end.
Proof.
  intros Hc. apply (binarySearch_ret lo hi es a Hc (S (length es)) 0 (length es)); [lia|lia|lia|].
  intros i e Hi He. apply lookup_lt_Some in He. lia.
Qed.

Lemma entryIndex_some lo es hi a i e : chain lo es hi -> es !! i = Some e -> contains (range e) a ->
  entryIndexByAddress es a = Some i.
Proof.
  intros Hc Hi He. pose proof (entryIndex_ret lo es hi a Hc) as H. destruct (entryIndexByAddress es a) as [j|].
  - destruct H as (y & Hj & Hy). f_equal. now apply (entry_unique _ _ _ _ _ _ _ _ Hc Hj Hi Hy He).
  - exfalso. apply (H e); [|done]. now apply (list_elem_of_lookup_2 _ i).
Qed.

(** ** Chunks *)

(** Every chunk has its 16 slots. *)
Definition chunks_ok (chunks : Chunks) : Prop := map_Forall (fun _ chunk => length chunk = 16%nat) chunks.

Lemma chunk_offset_range index : 0 <= chunkOffset index < 16.
Proof.
  unfold chunkOffset, slots_per_chunk. change (16 - 1) with (Z.ones 4). rewrite Z.land_ones by lia. now apply Z.mod_pos_bound.
Qed.

Lemma chunk_split index : index = chunkIndex index * 16 + chunkOffset index.
Proof.
  unfold chunkIndex, chunkOffset, slots_per_chunk. change (16 - 1) with (Z.ones 4).
  rewrite Z.land_ones, Z.shiftr_div_pow2 by lia. pose proof (Z.div_mod index (2 ^ 4)). lia.
Qed.

Lemma chunk_index_inj i j : chunkIndex i = chunkIndex j -> chunkOffset i = chunkOffset j -> i = j.
Proof. intros H1 H2. rewrite (chunk_split i), (chunk_split j). congruence. Qed.

(** Ensuring a chunk changes no slot; the slots can then be set. *)
Lemma ensureChunk_ret av chunks index : chunks_ok chunks ->
  match ensureChunk av chunks index with
  | Some chunks' => chunks_ok chunks' /\ is_Some (chunks' !! chunkIndex index) /\
      (forall k, chunk_get chunks' k = chunk_get chunks k)
  | None => chunk_available av = false /\ chunks !! chunkIndex index = None
  end.
Proof.
  intros Hok. unfold ensureChunk. destruct (chunks !! chunkIndex index) as [c|] eqn:Ec.
  - split; [done|]. rewrite Ec. eauto.
  - destruct (chunk_available av); [|done]. split; [|split].
    + intros k c. intros [[<- <-]|[_ Hk]]%lookup_insert_Some; [done|now apply (Hok k)].
    + rewrite lookup_insert_eq. eauto.
    + intros k. unfold chunk_get. destruct (decide (chunkIndex k = chunkIndex index)) as [Hk|Hk].
      * rewrite Hk, lookup_insert_eq, Ec. set (n := Z.to_nat (chunkOffset k)).
        destruct (replicate 16 (@None nat) !! n) as [o|] eqn:Eo; [|done]. now apply lookup_replicate in Eo as [-> _].
      * now rewrite lookup_insert_ne.
Qed.

Lemma chunk_set_ret chunks index p : chunks_ok chunks -> is_Some (chunks !! chunkIndex index) ->
  chunks_ok (chunk_set chunks index p) /\
  forall k, chunk_get (chunk_set chunks index p) k = if k =? index then Some p else chunk_get chunks k.
Proof.
  intros Hok [c Hc]. split.
  - intros k c'. unfold chunk_set. rewrite lookup_alter. case_decide; [subst|now apply (Hok k)].
    rewrite Hc. intros [= <-]. rewrite length_insert. now apply (Hok (chunkIndex index)).
  - intros k. unfold chunk_get, chunk_set. rewrite lookup_alter.
    pose proof (chunk_offset_range index). pose proof (chunk_offset_range k).
    pose proof (Hok _ _ Hc) as Hl. cbn in Hl. destruct (Z.eqb_spec k index) as [->|Hne].
    + rewrite decide_True, Hc by done. cbn. rewrite list_lookup_insert_eq by lia. done.
    + case_decide as He; [|done]. rewrite <- He, Hc. cbn. rewrite list_lookup_insert_ne; [done|].
      intros E. apply Hne, chunk_index_inj; [done|lia].
Qed.

(** ** Running the code *)

Section Run.
Context {A : Type} `{PageAllocator A}.

(** The outcome and the state of [c] from [s] satisfy [Q]. *)
Definition runs {X} (c : F (A := A) X) (s : FaultState) (Q : outcome X -> FaultState (A := A) -> Prop) : Prop := Q (c s).1 (c s).2.

Lemma runs_bind {X Y} (c : F X) (k : X -> F Y) s Q :
  runs c s (fun r s' => match r with Ok x => runs (k x) s' Q | Err e => Q (Err e) s' | Trap => Q Trap s' end) ->
  runs (c ≫= k) s Q.
Proof. unfold runs, mbind, F_bind. destruct (c s) as [[x|e|] s']; done. Qed.

Lemma runs_conseq {X} (c : F X) s (P Q : outcome X -> FaultState -> Prop) : runs c s P -> (forall r s', P r s' -> Q r s') -> runs c s Q.
Proof. unfold runs. auto. Qed.

Lemma runs_deferred {X} cleanup (c : F X) s Q :
  runs c s (fun r s' => match r with
    | Trap => Q Trap s'
    | _ => runs cleanup s' (fun r2 s2 => match r2 with Ok _ => Q r s2 | _ => Q Trap s2 end)
    end) -> runs (deferred cleanup c) s Q.
Proof. unfold runs, deferred. destruct (c s) as [[x|e|] s']; cbn; [| |done]; now destruct (cleanup s') as [[]]. Qed.

Lemma runs_ret {X} (x : X) s (Q : outcome X -> FaultState -> Prop) : Q (Ok x) s -> runs (mret x) s Q.
Proof. done. Qed.
Lemma runs_throw {X} e s (Q : outcome X -> FaultState -> Prop) : Q (Err e) s -> runs (throw e) s Q.
Proof. done. Qed.
Lemma runs_info f v (Q : outcome FaultInfo -> FaultState -> Prop) : Q (Ok f) (f, v) -> runs info (f, v) Q.
Proof. done. Qed.
Lemma runs_vm f v (Q : outcome (VM A) -> FaultState -> Prop) : Q (Ok v) (f, v) -> runs vm (f, v) Q.
Proof. done. Qed.
Lemma runs_set_info g f v (Q : outcome unit -> FaultState -> Prop) : Q (Ok tt) (g f, v) -> runs (set_info g) (f, v) Q.
Proof. done. Qed.
Lemma runs_set_vm g f v (Q : outcome unit -> FaultState -> Prop) : Q (Ok tt) (f, g v) -> runs (set_vm g) (f, v) Q.
Proof. done. Qed.

Lemma runs_guarded b s Q : b = true -> Q (Ok tt) s -> runs (guarded b) s Q.
Proof. now intros ->. Qed.

Lemma runs_unguarded s (Q : outcome unit -> FaultState -> Prop) : Q Trap s -> runs (guarded false) s Q.
Proof. done. Qed.

Lemma runs_assert debug b s Q : b = true -> Q (Ok tt) s -> runs (assert_debug debug b) s Q.
Proof. intros ->. unfold assert_debug. now rewrite orb_true_r. Qed.

Lemma runs_lock_entries t f s ps pt m al ml pl tl (Q : outcome unit -> FaultState -> Prop) :
  Q (Ok tt) (f, MkVM s ps pt m al (MkLocks (Some t) ml pl tl)) ->
  runs (lock_entries t) (f, MkVM s ps pt m al (MkLocks None ml pl tl)) Q.
Proof. done. Qed.

Lemma runs_unlock_entries t f s ps pt m al ml pl tl (Q : outcome unit -> FaultState -> Prop) :
  Q (Ok tt) (f, MkVM s ps pt m al (MkLocks None ml pl tl)) ->
  runs (unlock_entries t) (f, MkVM s ps pt m al (MkLocks (Some t) ml pl tl)) Q.
Proof. now destruct t. Qed.

Lemma runs_lock_map i t f s ps pt m al el pl tl (Q : outcome unit -> FaultState -> Prop) :
  Q (Ok tt) (f, MkVM s ps pt m al (MkLocks el (Some (i, t)) pl tl)) ->
  runs (lock_map i t) (f, MkVM s ps pt m al (MkLocks el None pl tl)) Q.
Proof. done. Qed.

Lemma runs_unlock_map i t f s ps pt m al el pl tl (Q : outcome unit -> FaultState -> Prop) :
  Q (Ok tt) (f, MkVM s ps pt m al (MkLocks el None pl tl)) ->
  runs (unlock_map i t) (f, MkVM s ps pt m al (MkLocks el (Some (i, t)) pl tl)) Q.
Proof. intros HQ. apply runs_bind. apply runs_bind. apply runs_guarded; [now apply bool_decide_eq_true_2|exact HQ]. Qed.

Lemma runs_upgrade av i f s ps pt m al el pl tl (Q : outcome bool -> FaultState -> Prop) :
  Q (Ok (upgrade_succeeds av))
    (f, MkVM s ps pt m al (MkLocks el (if upgrade_succeeds av then Some (i, write_lock) else None) pl tl)) ->
  runs (tryUpgradeLock av i) (f, MkVM s ps pt m al (MkLocks el (Some (i, read_lock)) pl tl)) Q.
Proof. intros HQ. apply runs_bind. apply runs_bind. apply runs_guarded; [now apply bool_decide_eq_true_2|exact HQ]. Qed.

Lemma runs_lock_page p f s ps pt m al el ml tl (Q : outcome unit -> FaultState -> Prop) :
  Q (Ok tt) (f, MkVM s ps pt m al (MkLocks el ml (Some p) tl)) ->
  runs (lock_page p) (f, MkVM s ps pt m al (MkLocks el ml None tl)) Q.
Proof. done. Qed.

Lemma runs_unlock_page p f s ps pt m al el ml tl (Q : outcome unit -> FaultState -> Prop) :
  Q (Ok tt) (f, MkVM s ps pt m al (MkLocks el ml None tl)) ->
  runs (unlock_page p) (f, MkVM s ps pt m al (MkLocks el ml (Some p) tl)) Q.
Proof. intros HQ. apply runs_bind. apply runs_bind. apply runs_guarded; [now apply bool_decide_eq_true_2|exact HQ]. Qed.

Lemma runs_lock_table f s ps pt m al el ml pl (Q : outcome unit -> FaultState -> Prop) :
  Q (Ok tt) (f, MkVM s ps pt m al (MkLocks el ml pl true)) ->
  runs lock_table (f, MkVM s ps pt m al (MkLocks el ml pl false)) Q.
Proof. done. Qed.

Lemma runs_unlock_table f s ps pt m al el ml pl (Q : outcome unit -> FaultState -> Prop) :
  Q (Ok tt) (f, MkVM s ps pt m al (MkLocks el ml pl false)) ->
  runs unlock_table (f, MkVM s ps pt m al (MkLocks el ml pl true)) Q.
Proof. done. Qed.

Lemma runs_unlockAll i f s ps pt m al pl tl (Q : outcome unit -> FaultState -> Prop) :
  Q (Ok tt) (f, MkVM s ps pt m al (MkLocks None None pl tl)) ->
  runs (unlockAll (Some i)) (f, MkVM s ps pt m al (MkLocks (Some read_lock) (Some (i, anonymous_map_lock_type f)) pl tl)) Q.
Proof.
  intros HQ. apply runs_bind. apply runs_bind. cbn. apply runs_unlock_map. now apply runs_unlock_entries.
Qed.

Lemma runs_get_entry f s ps pt m al lk e (Q : outcome Entry -> FaultState -> Prop) :
  entries s !! entry f = Some e -> Q (Ok e) (f, MkVM s ps pt m al lk) ->
  runs get_entry (f, MkVM s ps pt m al lk) Q.
Proof. intros He HQ. apply runs_bind. cbn. apply runs_bind. cbn. now rewrite He. Qed.

Lemma runs_get_map i f s ps pt m al lk mm (Q : outcome AnonMap -> FaultState -> Prop) :
  anonymous_maps s !! i = Some mm -> Q (Ok mm) (f, MkVM s ps pt m al lk) ->
  runs (get_map i) (f, MkVM s ps pt m al lk) Q.
Proof. intros He HQ. apply runs_bind. cbn. now rewrite He. Qed.

Lemma runs_get_page p f s ps pt m al lk ap (Q : outcome AnonPage -> FaultState -> Prop) :
  ps !! p = Some ap -> Q (Ok ap) (f, MkVM s ps pt m al lk) ->
  runs (get_page p) (f, MkVM s ps pt m al lk) Q.
Proof. intros He HQ. apply runs_bind. cbn. now rewrite He. Qed.

End Run.

#[local] Opaque runs guarded assert_debug lock_entries unlock_entries lock_map unlock_map tryUpgradeLock lock_page unlock_page
  lock_table unlock_table get_entry get_map get_page.
#[local] Arguments entryIndexByAddress : simpl never.

(** The next primitive of the code. *)
Ltac run1 := apply runs_bind; first [apply runs_info | apply runs_vm | apply runs_set_info | apply runs_set_vm | apply runs_ret].
Ltac run := repeat run1.

Section Steps.
Context {A : Type} `{PageAllocator A}.
Variable debug nx : bool.
Variable av : Resources.

(** The address space after [AnonMap.copy] of an entry that has no map. *)
Definition copied_space (s : AddressSpace) (ix : nat) (e : Entry) : AddressSpace :=
  let i := fresh (dom (anonymous_maps s)) in
  Space (space_range s) (alter (fun e => clear_needs_copy (with_anon (Some (i, 0)) e)) ix (entries s)) (entries_version s)
    (<[i := Anon 1 (size (range e) / page) 0 ∅]> (anonymous_maps s)).

(** The fault information once the entry is found and checked. *)
Definition checked (ix : nat) (e : Entry) (f : FaultInfo) : FaultInfo := with_enter (protection e) (with_entry ix f).
Definition for_access (f : FaultInfo) : FaultInfo :=
  match access_type f with write => with_lock_type write_lock f | _ => f end.

Lemma for_access_runs f v (Q : outcome unit -> FaultState -> Prop) : Q (Ok tt) (for_access f, v) ->
  runs (A := A) (match access_type f return F unit with write => set_info (with_lock_type write_lock) | _ => mret tt end) (f, v) Q.
Proof.
  unfold for_access. intros HQ. destruct (access_type f); [now apply runs_ret|now apply runs_set_info|now apply runs_ret].
Qed.

Lemma faultLookup_runs t f s ps pt m al (Q : outcome bool -> FaultState -> Prop) :
  match entryIndexByAddress (entries s) (faulting_address f) with
  | None => Q (Ok false) (f, MkVM s ps pt m al no_locks)
  | Some ix => Q (Ok true) (with_entry ix f, MkVM s ps pt m al (MkLocks (Some t) None None false))
  end ->
  runs (A := A) (faultLookup t) (f, MkVM s ps pt m al no_locks) Q.
Proof.
  intros HQ. apply runs_bind. apply runs_lock_entries. run. cbn [space].
  destruct (entryIndexByAddress _ _) as [ix|]; [run1; now apply runs_ret|]. apply runs_bind. apply runs_unlock_entries. now apply runs_ret.
Qed.

Lemma anonymousMapCopy_runs f s ps pt m al ix e (Q : outcome unit -> FaultState -> Prop) :
  entryIndexByAddress (entries s) (faulting_address f) = Some ix -> entries s !! ix = Some e ->
  needs_copy e = true -> anonymous_map e = None ->
  (map_available av = false -> Q (Err OutOfMemory) (with_entry ix f, MkVM s ps pt m al no_locks)) ->
  (size (range e) / page < 2 ^ 32 -> Q (Ok tt) (with_entry ix f, MkVM (copied_space s ix e) ps pt m al no_locks)) ->
  (2 ^ 32 <= size (range e) / page -> forall v, Q Trap v) ->
  runs (A := A) (anonymousMapCopy av) (f, MkVM s ps pt m al no_locks) Q.
Proof.
  intros Hix He Hn Ha Qe Qo Qt. apply runs_bind. apply faultLookup_runs. rewrite Hix. cbn [negb].
  apply runs_deferred. apply runs_bind. apply (runs_get_entry _ _ _ _ _ _ _ e); [exact He|]. rewrite Hn.
  apply runs_bind. apply (runs_get_entry _ _ _ _ _ _ _ e); [exact He|]. rewrite Ha.
  apply runs_bind. unfold AnonMap_create. destruct (map_available av).
  - apply runs_bind. destruct (Z.ltb_spec (size (range e) / page) (2 ^ 32)) as [Hs|Hs]; [|apply runs_unguarded; now apply Qt].
    apply runs_guarded; [done|]. run. apply runs_bind. unfold set_maps. run. apply runs_set_vm.
    apply runs_ret. unfold set_entry. run. apply runs_set_vm. apply runs_unlock_entries. now apply Qo.
  - apply runs_ret. apply runs_throw. apply runs_unlock_entries. now apply Qe.
Qed.

(** [faultCheck], by what it finds. *)
Lemma faultCheck_runs f s ps pt m al (Q : outcome (option nat) -> FaultState -> Prop) :
  match entryIndexByAddress (entries s) (faulting_address f) with
  | None => Q (Err NotMapped) (f, MkVM s ps pt m al no_locks)
  | Some ix => exists e, entries s !! ix = Some e /\ wired_count e = 0 /\
      if negb (allowed_by (protection e) (access_type f))
      then Q (Err ProtectionViolation) (with_entry ix f, MkVM s ps pt m al no_locks)
      else if needs_copy e then anonymous_map e = None /\
        (map_available av = false -> Q (Err OutOfMemory) (checked ix e f, MkVM s ps pt m al no_locks)) /\
        (size (range e) / page < 2 ^ 32 -> Q (Err Restart) (checked ix e f, MkVM (copied_space s ix e) ps pt m al no_locks)) /\
        (2 ^ 32 <= size (range e) / page -> forall v, Q Trap v)
      else exists i off mm, anonymous_map e = Some (i, off) /\ anonymous_maps s !! i = Some mm /\
        let k := targetIndex e off (faulting_address f) in
        k < number_of_pages mm < 2 ^ 32 /\
        let f' := for_access (checked ix e f) in
        Q (Ok (chunk_get (anonymous_page_chunks mm) k))
          (f', MkVM s ps pt m al (MkLocks (Some read_lock) (Some (i, anonymous_map_lock_type f')) None false))
  end ->
  runs (A := A) (faultCheck debug av) (f, MkVM s ps pt m al no_locks) Q.
Proof.
  intros HQ. apply runs_bind. apply faultLookup_runs.
  destruct (entryIndexByAddress _ _) as [ix|] eqn:Hix; cbn [negb]; [|now apply runs_throw].
  destruct HQ as (e & He & Hw & HQ). apply runs_bind. apply (runs_get_entry _ _ _ _ _ _ _ e); [exact He|].
  run. change (access_type (with_entry ix f)) with (access_type f) in *.
  destruct (negb (allowed_by _ _)); [apply runs_bind; apply runs_unlock_entries; now apply runs_throw|].
  run. rewrite Hw. cbn [Z.eqb]. run. change (with_enter _ _) with (checked ix e f).
  destruct (needs_copy e) eqn:Hn.
  - destruct HQ as (Ha & Qe & Qo & Qt). apply runs_bind. apply runs_unlock_entries. apply runs_bind.
    assert (Hc : with_entry ix (checked ix e f) = checked ix e f) by done.
    apply (anonymousMapCopy_runs _ _ _ _ _ _ ix e); [exact Hix|exact He|exact Hn|exact Ha| | |].
    + intros Hm. rewrite Hc. now apply Qe.
    + intros Hs. rewrite Hc. apply runs_throw. now apply Qo.
    + intros Hs v. now apply Qt.
  - destruct HQ as (i & off & mm & Ha & Hm & Hk & HQ). apply runs_bind. rewrite Ha. apply runs_assert; [done|].
    run. apply runs_bind.
    apply for_access_runs. run. apply runs_bind. apply runs_lock_map.
    apply runs_bind. apply (runs_get_map _ _ _ _ _ _ _ _ mm); [exact Hm|].
    assert (Hf : faulting_address (for_access (checked ix e f)) = faulting_address f).
    { unfold for_access. now destruct (access_type (checked ix e f)). }
    apply runs_bind. rewrite Hf. apply runs_guarded; [apply Z.ltb_lt; lia|].
    apply runs_bind. apply runs_assert; [apply Z.ltb_lt; lia|]. apply runs_ret. exact HQ.
Qed.

(** The map type a page is entered with. *)
Definition map_type (f : FaultInfo) : MapType := MkMapType user (enter_protection f) write_back.
Definition held (i : nat) (f : FaultInfo) : Locks := MkLocks (Some read_lock) (Some (i, anonymous_map_lock_type f)) None false.

Lemma enter_page_runs physical f s ps pt m al el ml pl (Q : outcome bool -> FaultState -> Prop) :
  enter_protection f <> no_protection ->
  (let '(error, t, a) := map4KiB nx pt (faulting_address f) physical (map_type f) al in
   Q (Ok (match error with None => true | Some _ => false end)) (f, MkVM s ps t m a (MkLocks el ml pl false))) ->
  runs (enter_page debug nx physical) (f, MkVM s ps pt m al (MkLocks el ml pl false)) Q.
Proof.
  intros Hp HQ. run. apply runs_bind. apply runs_lock_table.
  apply runs_bind. apply runs_assert; [now rewrite bool_decide_eq_false_2|]. run. cbn [page_table allocator].
  change (MkMapType user (enter_protection f) write_back) with (map_type f).
  destruct (map4KiB _ _ _ _ _ _) as [[error t] a]. run. apply runs_bind. apply runs_unlock_table.
  apply runs_ret. exact HQ.
Qed.

Lemma faultUpper_runs p f s ps pt m al e i off fr (Q : outcome unit -> FaultState -> Prop) :
  enter_protection f <> no_protection -> entries s !! entry f = Some e -> anonymous_map e = Some (i, off) ->
  ps !! p = Some (MkAnonPage 1 fr) ->
  (let '(error, t, a) := map4KiB nx pt (faulting_address f) fr (map_type f) al in
   Q (match error with None => Ok tt | Some _ => Err OutOfMemory end) (f, MkVM s ps t m a no_locks)) ->
  runs (faultUpper debug nx av p) (f, MkVM s ps pt m al (held i f)) Q.
Proof.
  intros Hp He Ha Hps HQ. apply runs_bind. apply (runs_get_entry _ _ _ _ _ _ _ e); [exact He|]. run. rewrite Ha.
  apply runs_bind. apply runs_lock_page. apply runs_bind. apply (runs_get_page _ _ _ _ _ _ _ _ _ _ Hps).
  apply runs_bind. cbn [page_references physical_page]. change (1 <? 1) with false. cbn iota.
  assert (HU : runs (unlock_page p;; mret fr)
    (f, MkVM s ps pt m al (MkLocks (Some read_lock) (Some (i, anonymous_map_lock_type f)) (Some p) false)) (fun r st =>
      r = Ok fr /\ st = (f, MkVM s ps pt m al (held i f)))).
  { apply runs_bind. apply runs_unlock_page. now apply runs_ret. }
  apply runs_conseq with (P := fun r st => r = Ok fr /\ st = (f, MkVM s ps pt m al (held i f))).
  { destruct (access_type f); exact HU. }
  intros r st [-> ->]. apply runs_bind. apply enter_page_runs; [exact Hp|].
  destruct (map4KiB _ _ _ _ _ _) as [[[er|] t] a]; cbn [negb].
  - apply runs_bind. apply runs_unlockAll. now apply runs_throw.
  - now apply runs_unlockAll.
Qed.

(** The fault information when a page is promoted. *)
Definition promoting (f : FaultInfo) : FaultInfo := with_lock_type write_lock (with_promote true f).

(** What [add] makes of the anonymous maps. *)
Definition added_space (s : AddressSpace) (i : nat) (mm : AnonMap) (chunks : Chunks) (k : Z) (p : nat) : AddressSpace :=
  Space (space_range s) (entries s) (entries_version s)
    (<[i := Anon (reference_count mm) (number_of_pages mm) (pages_in_use mm + 1) (chunk_set chunks k p)]> (anonymous_maps s)).

Lemma upgrade_runs i f s ps pt m al (Q : outcome bool -> FaultState -> Prop) :
  (anonymous_map_lock_type f = read_lock -> upgrade_succeeds av = false ->
    Q (Ok false) (with_lock_type write_lock f, MkVM s ps pt m al (MkLocks (Some read_lock) None None false))) ->
  (anonymous_map_lock_type f = write_lock \/ upgrade_succeeds av = true ->
    Q (Ok true) (with_lock_type write_lock f, MkVM s ps pt m al (held i (with_lock_type write_lock f)))) ->
  runs (A := A) (faultAnonymousMapLockUpgrade av i) (f, MkVM s ps pt m al (held i f)) Q.
Proof.
  intros Qf Qt. run. unfold held in *. destruct (anonymous_map_lock_type f) eqn:El.
  - rewrite bool_decide_eq_false_2 by done. run. apply runs_upgrade. destruct (upgrade_succeeds av) eqn:Eu; auto.
  - rewrite bool_decide_eq_true_2 by done. apply runs_ret.
    replace f with (with_lock_type write_lock f) by (destruct f; cbn in *; now rewrite El). apply Qt. auto.
Qed.

Lemma faultObjectOrZeroFill_runs f s ps pt m al e i off mm (Q : outcome unit -> FaultState -> Prop) :
  enter_protection f <> no_protection -> wired f = false ->
  entries s !! entry f = Some e -> anonymous_map e = Some (i, off) -> anonymous_maps s !! i = Some mm ->
  chunks_ok (anonymous_page_chunks mm) ->
  let k := targetIndex e off (faulting_address f) in
  k < number_of_pages mm < 2 ^ 32 -> chunk_get (anonymous_page_chunks mm) k = None ->
  (anonymous_map_lock_type f = read_lock -> upgrade_succeeds av = false -> Q (Err Restart) (promoting f, MkVM s ps pt m al no_locks)) ->
  (anonymous_map_lock_type f = write_lock \/ upgrade_succeeds av = true ->
   match allocate al with
   | None => Q (Err OutOfMemory) (promoting f, MkVM s ps pt m al no_locks)
   | Some (fr, a1) =>
       if page_available av then
         let p := fresh (dom ps) in
         let ps' := <[p := MkAnonPage 1 fr]> ps in
         match ensureChunk av (anonymous_page_chunks mm) k with
         | None => Q (Err OutOfMemory) (promoting f, MkVM s ps' pt (page_zeroed fr m) a1 (held i (promoting f)))
         | Some chunks =>
             let '(error, t, a2) := map4KiB nx pt (faulting_address f) fr (map_type f) a1 in
             Q (match error with None => Ok tt | Some _ => Err OutOfMemory end)
               (promoting f, MkVM (added_space s i mm chunks k p) ps' t (page_zeroed fr m) a2 no_locks)
         end
       else Q (Err OutOfMemory) (promoting f, MkVM s ps pt m (deallocate [fr] a1) no_locks)
   end) ->
  runs (faultObjectOrZeroFill debug nx av) (f, MkVM s ps pt m al (held i f)) Q.
Proof.
  intros Hp Hw He Ha Hm Hok k Hk Hc Qr Qa. apply runs_bind. apply (runs_get_entry _ _ _ _ _ _ _ e); [exact He|]. run.
  rewrite Ha. apply runs_bind. change (held i f) with (held i (with_promote true f)). apply upgrade_runs; [intros Hl Hu|intros Hl].
  { cbn [negb]. apply runs_bind. unfold unlockAll. run. apply runs_unlock_entries. apply runs_throw. now apply Qr. }
  specialize (Qa Hl). clear Qr Hl. cbn [negb]. apply runs_bind.
  change (with_lock_type write_lock (with_promote true f)) with (promoting f).
  unfold promote. apply runs_bind. apply (runs_get_entry _ _ _ _ _ _ _ e); [exact He|]. rewrite Ha. cbn [fst fmap option_fmap option_map].
  apply runs_bind. unfold allocate_page. run. cbn [allocator]. destruct (allocate al) as [[fr a1]|].
  2: { run. apply runs_ret. apply runs_bind. apply runs_unlockAll. now apply runs_throw. }
  run. apply runs_ret. apply runs_bind. unfold AnonPage_create. run. destruct (page_available av).
  2: { apply runs_ret. apply runs_bind. unfold deallocate_pages. run. apply runs_set_vm. apply runs_bind.
       apply runs_unlockAll. now apply runs_throw. }
  run. apply runs_ret. apply runs_bind. unfold write_memory. run. apply runs_set_vm. apply runs_ret.
  cbn [anonymous_pages set_vm set_pages set_allocator set_memory space page_table memory allocator locks].
  set (p := fresh (dom ps)) in *. run. apply runs_bind. change (faulting_address (promoting f)) with (faulting_address f).
  unfold Reference_add. apply runs_bind. apply (runs_get_map _ _ _ _ _ _ _ _ _ _ Hm). fold k. apply runs_bind.
  apply runs_guarded; [apply Z.ltb_lt; lia|]. apply runs_bind. apply runs_assert; [apply Z.ltb_lt; lia|].
  pose proof (ensureChunk_ret av (anonymous_page_chunks mm) k Hok) as Hen.
  destruct (ensureChunk av (anonymous_page_chunks mm) k) as [chunks|]; [|apply runs_ret; cbn [negb]; now apply runs_throw].
  destruct Hen as (_ & _ & Hg). apply runs_bind. apply runs_assert; [rewrite Hg, Hc; now apply bool_decide_eq_true_2|].
  apply runs_bind. unfold set_maps. run. apply runs_set_vm. apply runs_ret. cbn [negb]. apply runs_bind.
  apply enter_page_runs; [exact Hp|]. change (faulting_address (promoting f)) with (faulting_address f).
  change (map_type (promoting f)) with (map_type f).
  destruct (map4KiB _ _ _ _ _ _) as [[[er|] t] a2]; cbn [negb].
  - apply runs_bind. apply runs_unlockAll. now apply runs_throw.
  - run. change (wired (promoting f)) with (wired f). rewrite Hw. now apply runs_unlockAll.
Qed.

End Steps.
