(* ===== verification/VirtualMemory.v ===== *)
(** * Virtual memory

    The address space, the anonymous maps, the page table and the physical memory
    together: what a process finds at an address, and the invariant that ties the
    parts to each other. *)

From stdpp Require Import gmap.
From S2P Require Import Prelude Machine AddressSpace AddressSpaceCorrect AddressSpaceProtect PageTable PageTableCorrect PageFault PageFaultCorrect.

#[local] Arguments Nat.eqb : simpl never.

(** ** What is behind an address *)

Definition slot_at (ms : gmap nat AnonMap) (i : nat) (k : Z) : option nat :=
  match ms !! i with Some m => chunk_get (anonymous_page_chunks m) k | None => None end.

(** The anonymous page of an address. *)
Definition backing (s : AddressSpace) (x : Z) : option nat :=
  match entryIndexByAddress (entries s) x with
  | Some ix =>
      match entries s !! ix with
      | Some e =>
          match anonymous_map e with
          | Some (i, off) => slot_at (anonymous_maps s) i ((off + (x - address (range e))) / page)
          | None => None
          end
      | None => None
      end
  | None => None
  end.

Lemma anon_at_unique lo es hi x i o j u : chain lo es hi -> anon_at es x i o -> anon_at es x j u -> i = j /\ o = u.
Proof.
  intros Hc (e & off & [n Hn]%list_elem_of_lookup & He & Ha & ->) (e' & off' & [n' Hn']%list_elem_of_lookup & He' & Ha' & ->).
  destruct (entry_unique _ _ _ _ _ _ _ _ Hc Hn Hn' He He') as [_ ->]. rewrite Ha in Ha'. injection Ha' as -> ->. done.
Qed.

Lemma backing_iff lo s hi x p : chain lo (entries s) hi ->
  backing s x = Some p <-> exists i o, anon_at (entries s) x i o /\ slot_at (anonymous_maps s) i (o / page) = Some p.
Proof.
  intros Hc. unfold backing. pose proof (entryIndex_ret _ _ _ x Hc) as Hi. split.
  - destruct (entryIndexByAddress _ _) as [ix|]; [|done]. destruct Hi as (e & He & Hx). rewrite He.
    destruct (anonymous_map e) as [[i off]|] eqn:Ea; [|done]. intros Hs. exists i, (off + (x - address (range e))).
    split; [|done]. exists e, off. split; [now apply (list_elem_of_lookup_2 _ ix)|done].
  - intros (i & o & (e & off & [ix He]%list_elem_of_lookup & Hx & Ha & ->) & Hs).
    now rewrite (entryIndex_some _ _ _ x ix e Hc He Hx), He, Ha.
Qed.

Lemma backing_none lo s hi x i o : chain lo (entries s) hi -> anon_at (entries s) x i o ->
  backing s x = slot_at (anonymous_maps s) i (o / page).
Proof.
  intros Hc Ha. destruct (slot_at _ i _) as [p|] eqn:Es.
  - apply (backing_iff _ _ _ _ _ Hc). eauto.
  - destruct (backing s x) as [p|] eqn:Eb; [|done]. apply (backing_iff _ _ _ _ _ Hc) in Eb as (j & u & Hj & Hs).
    destruct (anon_at_unique _ _ _ _ _ _ _ _ Hc Ha Hj) as [-> ->]. congruence.
Qed.

(** Two address spaces with the same pages behind every address. *)
Lemma backing_same lo s hi lo' s' hi' : chain lo (entries s) hi -> chain lo' (entries s') hi' ->
  (forall x i o p, anon_at (entries s) x i o -> slot_at (anonymous_maps s) i (o / page) = Some p ->
     anon_at (entries s') x i o /\ slot_at (anonymous_maps s') i (o / page) = Some p) ->
  (forall x i o p, anon_at (entries s') x i o -> slot_at (anonymous_maps s') i (o / page) = Some p ->
     anon_at (entries s) x i o /\ slot_at (anonymous_maps s) i (o / page) = Some p) ->
  forall x, backing s' x = backing s x.
Proof.
  intros Hc Hc' H1 H2 x. apply option_eq. intros p.
  rewrite (backing_iff _ _ _ _ _ Hc), (backing_iff _ _ _ _ _ Hc').
  split; intros (i & o & Ha & Hs); exists i, o; eauto.
Qed.

Section Content.
Context {A : Type}.

(** The byte a process finds at an address: of its page, or 0. *)
Definition content (v : VM A) (x : Z) : Z :=
  match backing (space v) x with
  | Some p =>
      match anonymous_pages v !! p with
      | Some ap => memory v (baseAddress (physical_page ap) + x mod page)
      | None => 0
      end
  | None => 0
  end.
End Content.

(** ** The invariant *)

(** The slots of the anonymous maps: each of a page of the map, each with a page of
    its own that only it refers to. *)
Record slots_ok (ms : gmap nat AnonMap) (ps : gmap nat AnonPage) : Prop := {
  so_chunks : forall i m, ms !! i = Some m -> chunks_ok (anonymous_page_chunks m);
  so_bound : forall i k p, slot_at ms i k = Some p -> 0 <= k < pages_of ms i;
  so_page : forall i k p, slot_at ms i k = Some p -> exists f, ps !! p = Some (MkAnonPage 1 f);
  so_inj : forall i k j l p, slot_at ms i k = Some p -> slot_at ms j l = Some p -> i = j /\ k = l;
  so_fits : counts_fit ms;
}.

(** The physical pages: those of the tables, those of anonymous pages and the free
    ones are different pages. *)
Record frames_ok (limit : Z) (ps : gmap nat AnonPage) (pt : Level4) (free : gset Z) : Prop := {
  fr_table : NoDup (pages4 no_pages pt);
  fr_free : forall f, f ∈ pages4 no_pages pt -> f ∉ free;
  fr_limit : forall f, f ∈ pages4 no_pages pt -> 0 <= f < limit;
  fr_page : forall p ap, ps !! p = Some ap ->
    0 <= physical_page ap < limit /\ (physical_page ap ∉ free) /\ physical_page ap ∉ pages4 no_pages pt;
  fr_inj : forall p q ap aq, ps !! p = Some ap -> ps !! q = Some aq -> physical_page ap = physical_page aq -> p = q;
}.

(** The word of a leaf entry for the page [f] with protection [prot]. *)
Definition word_for (nx : bool) (prot : Protection) (f : Z) (word : Z) : Prop :=
  getAddress4kib word = baseAddress f /\ Z.testbit word writeable = p_write prot /\
  Z.testbit word user_accessible = true /\ (nx = true -> Z.testbit word no_execute = negb (p_execute prot)).

(** The page table maps only addresses of entries, to their pages, with their
    protections. *)
Record table_ok (nx : bool) (s : AddressSpace) (ps : gmap nat AnonPage) (pt : Level4) : Prop := {
  tb_plain : plain4 pt;
  tb_backed : forall x word, 0 <= x < 2 ^ 47 -> translate pt x = Some word ->
    exists t p ap, mapped (entries s) x t /\ backing s x = Some p /\ ps !! p = Some ap /\
      word_for nx (protection_of t) (physical_page ap) word;
}.

Record layout_ok (s : AddressSpace) : Prop := {
  lo_space : space_ok s;
  lo_range : after (space_range s) <= 2 ^ 47;
  lo_copy : Forall copy_ok (entries s);
  lo_inj : anon_inj (entries s);
  (** Nothing wires memory. *)
  lo_wired : forall x t, mapped (entries s) x t -> t.2 = 0;
}.

Section Invariant.
Context {A : Type} `{laws : PageAllocatorLaws A}.
Variable nx : bool.

Record vm_ok (v : VM A) : Prop := {
  vm_layout : layout_ok (space v);
  vm_slots : slots_ok (anonymous_maps (space v)) (anonymous_pages v);
  vm_frames : frames_ok (page_limit A) (anonymous_pages v) (page_table v) (free_pages (allocator v));
  vm_table : table_ok nx (space v) (anonymous_pages v) (page_table v);
}.
End Invariant.

Lemma layout_chain s : layout_ok s -> chain (address (space_range s)) (entries s) (after (space_range s)).
Proof. intros [(_ & _ & _ & Hc & _) _ _ _ _]. exact Hc. Qed.

Lemma layout_entries s : layout_ok s -> Forall (entry_ok (anonymous_maps s)) (entries s).
Proof. intros [(_ & _ & _ & _ & He & _) _ _ _ _]. exact He. Qed.

(** ** An entry gets its anonymous map *)

Lemma alter_middle {B} (f : B -> B) l1 x l2 : alter f (length l1) (l1 ++ x :: l2) = l1 ++ f x :: l2.
Proof. induction l1 as [|y l1 IH]; [done|]. cbn. f_equal. exact IH. Qed.

Lemma lookup_split {B} (l : list B) i x : l !! i = Some x -> exists l1 l2, l = l1 ++ x :: l2 /\ i = length l1.
Proof. intros Hi. apply list_elem_of_split_length in Hi as (l1 & l2 & -> & ->). eauto. Qed.

Section Copy.
Variable s : AddressSpace.
Variable ix : nat.
Variable e : Entry.
Hypothesis Hl : layout_ok s.
Hypothesis He : entries s !! ix = Some e.
Hypothesis Ha : anonymous_map e = None.

Let i : nat := fresh (dom (anonymous_maps s)).

Lemma copy_fresh : anonymous_maps s !! i = None.
Proof. apply not_elem_of_dom. apply is_fresh. Qed.

Lemma copied_anon x j o : anon_at (entries (copied_space s ix e)) x j o <->
  anon_at (entries s) x j o \/ (j = i /\ contains (range e) x /\ o = x - address (range e)).
Proof.
  unfold copied_space. cbn. destruct (lookup_split _ _ _ He) as (l1 & l2 & -> & ->). rewrite alter_middle.
  rewrite !anon_at_app, !anon_at_cons. unfold anon_of. cbn. rewrite Ha. split.
  - intros [H|[(off & H1 & [= <- <-] & ->)|H]]; [auto| |auto]. right. fold i. split; [done|]. split; [done|lia].
  - intros [[H|[(off & _ & H & _)|H]]|(-> & H & ->)]; [auto|done|auto|]. right. left. exists 0. fold i. split; [done|]. split; [done|lia].
Qed.

Lemma copied_mapped x t : mapped (entries (copied_space s ix e)) x t <-> mapped (entries s) x t.
Proof.
  unfold copied_space. cbn. destruct (lookup_split _ _ _ He) as (l1 & l2 & -> & ->). rewrite alter_middle.
  now rewrite !mapped_app, !mapped_cons.
Qed.

Lemma copied_slot j k : slot_at (anonymous_maps (copied_space s ix e)) j k = slot_at (anonymous_maps s) j k.
Proof.
  unfold slot_at, copied_space. cbn. fold i. destruct (decide (j = i)) as [->|Hne].
  - now rewrite lookup_insert_eq, copy_fresh.
  - now rewrite lookup_insert_ne.
Qed.

Lemma copied_pages j : pages_of (anonymous_maps (copied_space s ix e)) j =
  if decide (j = i) then size (range e) / page else pages_of (anonymous_maps s) j.
Proof.
  unfold pages_of, copied_space. cbn. fold i. case_decide as Hj; [subst; now rewrite lookup_insert_eq|now rewrite lookup_insert_ne].
Qed.

Lemma copied_weight j : 0 < size (range e) ->
  weight (anonymous_maps (copied_space s ix e)) (entries (copied_space s ix e)) j <= weight (anonymous_maps s) (entries s) j.
Proof.
  intros Hz. unfold weight. rewrite copied_pages. unfold copied_space. cbn [entries].
  destruct (lookup_split _ _ _ He) as (l1 & l2 & -> & ->). rewrite alter_middle, !untouched_app, !untouched_cons.
  unfold untouched_size. cbn. rewrite Ha. case_decide as Hj; [|lia]. subst j. unfold pages_of. rewrite copy_fresh.
  pose proof (Z.mul_div_le (size (range e)) page ltac:(done)). lia.
Qed.

Lemma copied_entries_ok : Forall (entry_ok (anonymous_maps (copied_space s ix e))) (entries (copied_space s ix e)) /\
  counts_ok (anonymous_maps (copied_space s ix e)) (entries (copied_space s ix e)).
Proof.
  destruct Hl as [(_ & _ & _ & _ & Hok & Hc) _ _ _ _].
  assert (Hkeep : forall x, entry_ok (anonymous_maps s) x -> entry_ok (anonymous_maps (copied_space s ix e)) x).
  { intros x. apply entry_ok_mono. intros j [m Hj].
    assert (Hne : j <> i) by (intros ->; rewrite copy_fresh in Hj; done).
    rewrite copied_pages. rewrite decide_False by done. unfold copied_space. cbn. fold i. rewrite lookup_insert_ne by done. split; [eauto|done]. }
  assert (He' : entry_ok (anonymous_maps (copied_space s ix e)) (clear_needs_copy (with_anon (Some (i, 0)) e))).
  { rewrite Forall_forall in Hok. destruct (Hok e (list_elem_of_lookup_2 _ _ _ He)) as (E1 & E2 & E3 & E4 & _).
    split; [done|]. split; [done|]. split; [done|]. split; [done|]. cbn [anonymous_map clear_needs_copy with_anon].
    split; [done|]. split; [done|]. rewrite copied_pages, decide_True by done.
    split; [unfold copied_space; cbn; fold i; rewrite lookup_insert_eq; eauto|]. cbn. rewrite aligned_div by done. lia. }
  split.
  - unfold copied_space in *. cbn in *. fold i in He' |- *. destruct (lookup_split _ _ _ He) as (l1 & l2 & El & ->). rewrite El in *.
    rewrite alter_middle. apply Forall_app in Hok as [O1 O2]. apply Forall_cons in O2 as [_ O2].
    apply Forall_app. split; [eapply Forall_impl; [exact O1|exact Hkeep]|]. constructor; [exact He'|].
    eapply Forall_impl; [exact O2|exact Hkeep].
  - intros j. specialize (Hc j). pose proof copy_fresh as Hf. unfold copied_space. cbn [entries anonymous_maps]. fold i.
    destruct (lookup_split _ _ _ He) as (l1 & l2 & El & ->). rewrite El in *. rewrite alter_middle.
    rewrite total_uses_app, total_uses_cons in *.
    change (uses j (clear_needs_copy (with_anon (Some (i, 0)) e))) with (if Nat.eqb j i then 1 else 0).
    assert (uses j e = 0) as Hu by (unfold uses; now rewrite Ha). rewrite Hu in Hc.
    destruct (decide (j = i)) as [->|Hne].
    + rewrite lookup_insert_eq. rewrite Hf in Hc. cbn [reference_count]. rewrite Nat.eqb_refl. lia.
    + rewrite lookup_insert_ne by done. rewrite (proj2 (Nat.eqb_neq j i) Hne). exact Hc.
Qed.

Lemma copied_layout : layout_ok (copied_space s ix e).
Proof.
  pose proof Hl as [(H1 & H2 & H3 & H4 & H5 & H6) H7 H8 H9 H10]. split.
  - split; [done|]. split; [done|]. split; [done|]. split; [|apply copied_entries_ok].
    unfold copied_space. cbn. destruct (lookup_split _ _ _ He) as (l1 & l2 & El & ->). rewrite El in *. rewrite alter_middle.
    apply chain_app in H4 as (mid & C1 & C2). apply chain_app. exists mid. split; [exact C1|exact C2].
  - done.
  - unfold copied_space. cbn. fold i. destruct (lookup_split _ _ _ He) as (l1 & l2 & El & ->). rewrite El in *. rewrite alter_middle.
    apply Forall_app in H8 as [O1 O2]. apply Forall_cons in O2 as [_ O2]. apply Forall_app. split; [done|]. constructor; [|done].
    unfold copy_ok. cbn. split; done.
  - intros x y j o. rewrite !copied_anon.
    assert (Hold : forall z o, ~ anon_at (entries s) z i o).
    { intros z u (e' & off & Hin & _ & Ha' & _). pose proof (counts_some _ _ _ _ _ H6 Hin Ha') as [m Hm]. now rewrite copy_fresh in Hm. }
    intros [Hx|(-> & _ & ->)] [Hy|(E & _ & E2)]; [now apply (H9 x y j o)| | |lia].
    + subst j. now apply Hold in Hx.
    + now apply Hold in Hy.
  - intros x t. rewrite copied_mapped. apply H10.
Qed.

Lemma copied_backing x : backing (copied_space s ix e) x = backing s x.
Proof.
  apply (backing_same _ _ _ _ _ _ (layout_chain _ Hl) (layout_chain _ copied_layout)).
  - intros y j o p Hy Hs. rewrite copied_slot. split; [|done]. apply copied_anon. auto.
  - intros y j o p Hy Hs. rewrite copied_slot in Hs. split; [|done]. apply copied_anon in Hy as [Hy|(-> & _)]; [done|].
    unfold slot_at in Hs. now rewrite copy_fresh in Hs.
Qed.

Lemma copied_slots_ok ps : size (range e) / page < 2 ^ 32 -> slots_ok (anonymous_maps s) ps ->
  slots_ok (anonymous_maps (copied_space s ix e)) ps.
Proof.
  intros Hs [S1 S2 S3 S4 S5]. split.
  - intros j m. unfold copied_space. cbn. fold i. intros [[<- <-]|[_ Hj]]%lookup_insert_Some; [|now apply (S1 j)].
    apply map_Forall_empty.
  - intros j k p. rewrite copied_slot. intros Hk. rewrite copied_pages. rewrite decide_False; [now apply (S2 j k p)|].
    intros ->. unfold slot_at in Hk. now rewrite copy_fresh in Hk.
  - intros j k p. rewrite copied_slot. apply S3.
  - intros j k j' l p. rewrite !copied_slot. apply S4.
  - intros j. rewrite copied_pages. case_decide; [done|apply S5].
Qed.

End Copy.

(** ** A slot gets its page *)

(** Maps with the same references and numbers of pages. *)
Lemma layout_maps s ms' : layout_ok s ->
  (forall j, reference_count <$> ms' !! j = reference_count <$> anonymous_maps s !! j) ->
  (forall j, pages_of ms' j = pages_of (anonymous_maps s) j) ->
  layout_ok (Space (space_range s) (entries s) (entries_version s) ms').
Proof.
  intros [(H1 & H2 & H3 & H4 & H5 & H6) H7 H8 H9 H10] Hr Hp. split; [|done..].
  split; [done|]. split; [done|]. split; [done|]. split; [done|]. split.
  - eapply Forall_impl; [exact H5|]. intros x. apply entry_ok_mono. intros j [m Hm]. cbn. rewrite Hp. split; [|done].
    specialize (Hr j). rewrite Hm in Hr. destruct (ms' !! j); [eauto|done].
  - intros j. specialize (H6 j). specialize (Hr j). cbn. destruct (anonymous_maps s !! j), (ms' !! j); cbn in Hr; try done.
    now injection Hr as ->.
Qed.

Section Add.
Variable s : AddressSpace.
Variable i : nat.
Variable mm : AnonMap.
Variable chunks : Chunks.
Variable k : Z.
Variable p : nat.
Hypothesis Hm : anonymous_maps s !! i = Some mm.
Hypothesis Hok : chunks_ok chunks.
Hypothesis Hk : is_Some (chunks !! chunkIndex k).
Hypothesis Hg : forall l, chunk_get chunks l = chunk_get (anonymous_page_chunks mm) l.

Let s' : AddressSpace := added_space s i mm chunks k p.

Lemma added_slot j l : slot_at (anonymous_maps s') j l =
  if decide (j = i /\ l = k) then Some p else slot_at (anonymous_maps s) j l.
Proof.
  unfold slot_at, s', added_space. cbn. destruct (decide (j = i)) as [->|Hne].
  - rewrite lookup_insert_eq, Hm. cbn. destruct (chunk_set_ret chunks k p Hok Hk) as [_ ->]. rewrite Hg.
    destruct (Z.eqb_spec l k) as [->|Hl]; [now rewrite decide_True|rewrite decide_False by tauto]. done.
  - rewrite lookup_insert_ne by done. now rewrite decide_False by tauto.
Qed.

Lemma added_pages j : pages_of (anonymous_maps s') j = pages_of (anonymous_maps s) j.
Proof.
  unfold pages_of, s', added_space. cbn. destruct (decide (j = i)) as [->|Hne].
  - now rewrite lookup_insert_eq, Hm.
  - now rewrite lookup_insert_ne.
Qed.

Lemma added_layout : layout_ok s -> layout_ok s'.
Proof.
  intros Hl. apply layout_maps; [done| |apply added_pages]. intros j. destruct (decide (j = i)) as [->|Hne].
  - now rewrite lookup_insert_eq, Hm.
  - now rewrite lookup_insert_ne.
Qed.

Lemma added_slots_ok ps fr : slots_ok (anonymous_maps s) ps -> slot_at (anonymous_maps s) i k = None -> ps !! p = None ->
  0 <= k < number_of_pages mm -> slots_ok (anonymous_maps s') (<[p := MkAnonPage 1 fr]> ps).
Proof.
  intros [S1 S2 S3 S4 S5] Hn Hp Hkb.
  assert (Hpk : k < pages_of (anonymous_maps s) i) by (unfold pages_of; rewrite Hm; lia).
  assert (Hold : forall j l, slot_at (anonymous_maps s) j l <> Some p).
  { intros j l Hj. destruct (S3 _ _ _ Hj) as [f Hf]. congruence. }
  split.
  - intros j m. unfold s', added_space. cbn. intros [[<- <-]|[_ Hj]]%lookup_insert_Some; [|now apply (S1 j)].
    now apply chunk_set_ret.
  - intros j l q. rewrite added_slot, added_pages. case_decide as Hd; [|apply S2]. destruct Hd as [-> ->]. lia.
  - intros j l q. rewrite added_slot. case_decide.
    + intros [= <-]. exists fr. now rewrite lookup_insert_eq.
    + intros Hq. destruct (S3 _ _ _ Hq) as [f Hf]. exists f. rewrite lookup_insert_ne; [done|]. intros ->. now apply Hold in Hq.
  - intros j l j' l' q. rewrite !added_slot. case_decide as D1; case_decide as D2.
    + intros _ _. destruct D1 as [-> ->], D2 as [-> ->]. done.
    + intros [= <-] Hq. now apply Hold in Hq.
    + intros Hq [= <-]. now apply Hold in Hq.
    + apply S4.
  - intros j. rewrite added_pages. apply S5.
Qed.

(** What is behind an address of another slot, and behind one of this slot. *)
Lemma added_backing_ne x q : layout_ok s -> slot_at (anonymous_maps s) i k = None -> backing s x = Some q -> backing s' x = Some q.
Proof.
  intros Hl Hn Hb. apply (backing_iff _ _ _ _ _ (layout_chain _ Hl)) in Hb as (j & o & Ha & Hs).
  apply (backing_iff _ _ _ _ _ (layout_chain _ (added_layout Hl))). exists j, o. split; [exact Ha|].
  rewrite added_slot. rewrite decide_False; [done|]. intros [-> E]. congruence.
Qed.

Lemma added_backing_inv x q : layout_ok s -> backing s' x = Some q ->
  (q = p /\ exists o, anon_at (entries s) x i o /\ o / page = k) \/ backing s x = Some q.
Proof.
  intros Hl Hb. apply (backing_iff _ _ _ _ _ (layout_chain _ (added_layout Hl))) in Hb as (j & o & Ha & Hs).
  change (entries s') with (entries s) in Ha. rewrite added_slot in Hs. case_decide as Hd.
  - injection Hs as <-. left. destruct Hd as [-> Hd]. eauto.
  - right. apply (backing_iff _ _ _ _ _ (layout_chain _ Hl)). eauto.
Qed.

End Add.

(** ** Pages and the invariant *)

Section PagesOk.
Context {A : Type} `{laws : PageAllocatorLaws A}.
Variable nx : bool.

Lemma frames_new ps pt (a : A) f a' p : frames_ok (page_limit A) ps pt (free_pages a) -> allocate a = Some (f, a') -> ps !! p = None ->
  frames_ok (page_limit A) (<[p := MkAnonPage 1 f]> ps) pt (free_pages a') /\ 0 <= f < page_limit A /\
  (forall q ap, ps !! q = Some ap -> physical_page ap <> f).
Proof.
  intros [F1 F2 Fl F3 F4] Ha Hp. destruct (allocate_some a f a' Ha) as [Hin Ef].
  assert (Hne : forall q ap, ps !! q = Some ap -> physical_page ap <> f).
  { intros q ap Hq E. destruct (F3 q ap Hq) as (_ & Hn & _). apply Hn. now rewrite E. }
  pose proof (free_index a f Hin) as Hf. split; [|split; [exact Hf|exact Hne]]. split.
  - exact F1.
  - intros g Hg. rewrite Ef. specialize (F2 g Hg). set_solver.
  - exact Fl.
  - intros q ap [[<- <-]|[_ Hq]]%lookup_insert_Some.
    + cbn. split; [exact Hf|]. split; [rewrite Ef; set_solver|]. intros Hg. now apply (F2 f).
    + destruct (F3 q ap Hq) as (R & N1 & N2). split; [exact R|]. split; [rewrite Ef; set_solver|exact N2].
  - intros q r aq ar [[<- <-]|[_ Hq]]%lookup_insert_Some [[<- <-]|[_ Hr]]%lookup_insert_Some; cbn.
    + done.
    + intros E. now destruct (Hne _ _ Hr).
    + intros E. now destruct (Hne _ _ Hq).
    + now apply F4.
Qed.

Lemma frames_mapped ps pt pt' (a a' : A) new : frames_ok (page_limit A) ps pt (free_pages a) -> taken a a' new ->
  pages4 no_pages pt' ≡ₚ new ++ pages4 no_pages pt -> frames_ok (page_limit A) ps pt' (free_pages a').
Proof.
  intros [F1 F2 Fl F3 F4] (E & Hn & Hd) Hp. pose proof (free_index a) as Hix. rewrite E in *. split.
  - rewrite Hp. apply NoDup_app. split; [exact Hn|]. split; [|exact F1].
    intros f Hf Hf'. apply (F2 f Hf'). set_solver.
  - intros f. rewrite Hp. intros [Hf|Hf]%elem_of_app; [now apply Hd|]. specialize (F2 f Hf). set_solver.
  - intros f. rewrite Hp. intros [Hf|Hf]%elem_of_app; [|now apply Fl]. apply Hix. set_solver.
  - intros q aq Hq. destruct (F3 q aq Hq) as (R & N1 & N2). split; [exact R|]. split; [set_solver|].
    rewrite Hp. intros [Hf|Hf]%elem_of_app; [|now apply N2]. apply N1. set_solver.
  - exact F4.
Qed.

Lemma leaf_word_for prot f : 0 <= f < 2 ^ 32 -> word_for nx prot f (leaf_word nx (MkMapType user prot write_back) (baseAddress f)).
Proof.
  intros Hf. split; [now apply leaf_word_address|]. unfold leaf_word.
  rewrite !applyMapType_spec by done. cbn. split; [done|]. split; [done|]. intros ->. done.
Qed.

(** Entering the page behind an address into the page table. *)
Lemma table_entered s ps pt x p f prot pt' : table_ok nx s ps pt -> 0 <= f < 2 ^ 32 -> ps !! p = Some (MkAnonPage 1 f) ->
  plain4 pt' ->
  (forall y, same_page x y = true -> exists t, mapped (entries s) y t /\ protection_of t = prot /\ backing s y = Some p) ->
  (forall y, 0 <= y < 2 ^ 48 -> translate pt' y =
     if same_page x y then Some (leaf_word nx (MkMapType user prot write_back) (baseAddress f)) else translate pt y) ->
  table_ok nx s ps pt'.
Proof.
  intros [T1 T2] Hf Hp Hpl Hs Hv. split; [exact Hpl|]. intros y word Hy Hw. rewrite Hv in Hw by lia.
  destruct (same_page x y) eqn:Es; [|now apply T2]. injection Hw as <-.
  destruct (Hs y Es) as (t & Ht & <- & Hb). exists t, p, (MkAnonPage 1 f). split; [done|]. split; [done|]. split; [done|].
  now apply leaf_word_for.
Qed.

End PagesOk.
