(* ===== verification/FaultHandled.v ===== *)
(** * Handling a page fault

    [handlePageFault] ends after at most three attempts, with the page entered and
    the memory of the process as it was, or with the error that applies. *)

From stdpp Require Import gmap.
From S2P Require Import Prelude Machine AddressSpace AddressSpaceCorrect AddressSpaceProtect PageTable PageTableCorrect PageFault PageFaultCorrect VirtualMemory.

(** What the processor lets user code do with an entry that is present. *)
Definition permits (nx : bool) (word : Z) (access : AccessType) : bool :=
  Z.testbit word user_accessible &&
  match access with
  | read => true
  | write => Z.testbit word writeable
  | execute => negb (nx && Z.testbit word no_execute)
  end.

(** ** Pages of an entry *)

Lemma aligned_down a : aligned (a / page * page) = true.
Proof. unfold aligned, page. apply Z.eqb_eq. now rewrite Z.mod_mul. Qed.

Lemma same_page_down a : same_page (a / page * page) a = true.
Proof. unfold same_page, page. apply Z.eqb_eq. now rewrite Z.div_mul. Qed.

(** The addresses of a page are all in the range or all out of it. *)
Lemma same_page_contains r x y : pageAligned r = true -> same_page x y = true -> contains r x -> contains r y.
Proof.
  intros [H1 H2]%andb_prop Hs Hx. unfold same_page, page in Hs. apply Z.eqb_eq in Hs. unfold aligned, page in *.
  apply Z.eqb_eq in H1, H2. unfold contains, after in *.
  pose proof (Z.div_mod x 4096 ltac:(lia)). pose proof (Z.div_mod y 4096 ltac:(lia)).
  pose proof (Z.mod_pos_bound x 4096 ltac:(lia)). pose proof (Z.mod_pos_bound y 4096 ltac:(lia)).
  pose proof (Z.div_mod (address r) 4096 ltac:(lia)). pose proof (Z.div_mod (size r) 4096 ltac:(lia)). lia.
Qed.

Lemma same_page_sym x y : same_page x y = same_page y x.
Proof. unfold same_page. apply Z.eqb_sym. Qed.

Lemma translate_page pt x y : 0 <= x < 2 ^ 48 -> 0 <= y < 2 ^ 48 -> same_page x y = true -> translate pt y = translate pt x.
Proof.
  intros Hx Hy Hs. rewrite <- (same_page_indices x y Hx Hy) in Hs.
  apply andb_prop in Hs as [E4 Hs]. apply andb_prop in Hs as [E3 Hs]. apply andb_prop in Hs as [E2 E1].
  apply Z.eqb_eq in E1, E2, E3, E4. unfold translate, level3_at, level2_at, next_at, leaf_at. now rewrite E1, E2, E3, E4.
Qed.

Lemma offset_page off r x y : aligned off = true -> aligned (address r) = true -> same_page x y = true ->
  (off + (y - address r)) / page = (off + (x - address r)) / page.
Proof.
  unfold aligned, same_page, page. rewrite !Z.eqb_eq. intros H1 H2 H3.
  pose proof (Z.div_mod off 4096 ltac:(lia)). pose proof (Z.div_mod (address r) 4096 ltac:(lia)).
  assert (E : forall z, (off + (z - address r)) / 4096 = off / 4096 - address r / 4096 + z / 4096).
  { intros z. replace (off + (z - address r)) with (z + (off / 4096 - address r / 4096) * 4096) by lia.
    rewrite Z.div_add by lia. lia. }
  rewrite !E. lia.
Qed.

Lemma targetIndex_offset e off a : aligned off = true -> aligned (address (range e)) = true -> aligned a = true ->
  targetIndex e off a = (off + (a - address (range e))) / page.
Proof.
  unfold aligned, targetIndex, page. rewrite !Z.eqb_eq. intros H1 H2 H3.
  pose proof (Z.div_mod off 4096 ltac:(lia)). pose proof (Z.div_mod (address (range e)) 4096 ltac:(lia)).
  pose proof (Z.div_mod a 4096 ltac:(lia)).
  replace (a - address (range e)) with ((a / 4096 - address (range e) / 4096) * 4096) by lia.
  replace (off + _) with ((off / 4096 + (a / 4096 - address (range e) / 4096)) * 4096) by lia. rewrite !Z.div_mul by lia. lia.
Qed.

Lemma base_page f x : (baseAddress f + x mod page) / page = f.
Proof.
  unfold baseAddress, page. rewrite Z.div_add_l by lia. rewrite Z.div_small; [lia|now apply Z.mod_pos_bound].
Qed.

Lemma zeroed_here f m x : page_zeroed f m (baseAddress f + x mod page) = 0.
Proof. unfold page_zeroed. now rewrite base_page, Z.eqb_refl. Qed.

Lemma zeroed_other f g m x : g <> f -> page_zeroed f m (baseAddress g + x mod page) = m (baseAddress g + x mod page).
Proof. intros Hg. unfold page_zeroed. now rewrite base_page, (proj2 (Z.eqb_neq _ _) Hg). Qed.

Section Handled.
Context {A : Type} `{laws : PageAllocatorLaws A}.
Variable debug nx : bool.
Variable av : Resources.

(** The process sees the same memory. *)
Record same_memory (v v' : VM A) : Prop := {
  sm_range : space_range (space v') = space_range (space v);
  sm_mapped : forall x t, mapped (entries (space v')) x t <-> mapped (entries (space v)) x t;
  sm_content : forall x, content v' x = content v x;
  sm_weight : forall i, weight (anonymous_maps (space v')) (entries (space v')) i <= weight (anonymous_maps (space v)) (entries (space v)) i;
}.

Lemma same_memory_refl v : same_memory v v.
Proof. split; done. Qed.

Lemma same_memory_trans u v w : same_memory u v -> same_memory v w -> same_memory u w.
Proof.
  intros [A1 A2 A3 A4] [B1 B2 B3 B4]. split; [congruence| |congruence|]; [intros x t; now rewrite B2|].
  intros i. specialize (A4 i). specialize (B4 i). lia.
Qed.

(** What an entry that has its map says about the slot of an address. *)
Lemma entry_slot v ix e a : vm_ok nx v -> entries (space v) !! ix = Some e -> contains (range e) a -> aligned a = true ->
  needs_copy e = false -> exists i off mm, anonymous_map e = Some (i, off) /\ anonymous_maps (space v) !! i = Some mm /\
    chunks_ok (anonymous_page_chunks mm) /\
    let k := targetIndex e off a in 0 <= k < number_of_pages mm /\ number_of_pages mm < 2 ^ 32 /\
    slot_at (anonymous_maps (space v)) i k = chunk_get (anonymous_page_chunks mm) k /\
    forall y, same_page a y = true -> contains (range e) y /\
      exists o, anon_at (entries (space v)) y i o /\ o / page = k.
Proof.
  intros Hv He Ha Hal Hn. pose proof (vm_layout _ _ Hv) as Hl. pose proof (layout_entries _ Hl) as Hok.
  pose proof (lo_copy _ Hl) as Hc. pose proof (list_elem_of_lookup_2 _ _ _ He) as Hin.
  rewrite Forall_forall in Hc, Hok. specialize (Hc e Hin). destruct (Hok e Hin) as (E1 & E2 & E3 & E4 & E5).
  destruct (anonymous_map e) as [[i off]|] eqn:Em; [|now rewrite (proj2 Hc Em) in Hn].
  destruct E5 as (O1 & O2 & [mm Hm] & O4). exists i, off, mm. split; [done|]. split; [done|].
  split; [now apply (so_chunks _ _ (vm_slots _ _ Hv) i)|]. cbv zeta. rewrite targetIndex_offset by done.
  pose proof (so_fits _ _ (vm_slots _ _ Hv) i) as Hf. unfold pages_of in Hf, O4. rewrite Hm in Hf, O4.
  split; [|split; [exact Hf|split]].
  - unfold contains, after in Ha. split; [apply Z.div_pos; unfold page; lia|].
    apply Z.div_lt_upper_bound; [done|]. unfold page in *. lia.
  - unfold slot_at. now rewrite Hm.
  - intros y Hy. assert (Hcy : contains (range e) y).
    { apply (same_page_contains _ a); [now apply andb_true_intro|done|done]. }
    split; [exact Hcy|]. exists (off + (y - address (range e))). split; [|now apply offset_page]. exists e, off. done.
Qed.

(** The result of a fault. *)
Definition fault_result (access : AccessType) (a : Z) (v : VM A) (r : outcome unit) (v' : VM A) : Prop :=
  match r with
  | Ok _ => vm_ok nx v' /\ locks v' = no_locks /\ same_memory v v' /\ translate (page_table v) a = None /\
      (exists t, mapped (entries (space v)) a t /\ allowed_by (protection_of t) access = true) /\
      exists word, translate (page_table v') a = Some word /\ permits nx word access = true
  | Err NotMapped => v' = v /\ forall t, ~ mapped (entries (space v)) a t
  | Err ProtectionViolation => v' = v /\ exists t, mapped (entries (space v)) a t /\ allowed_by (protection_of t) access = false
  | Err OutOfMemory => same_memory v v' /\
      (exists t, mapped (entries (space v)) a t /\ allowed_by (protection_of t) access = true) /\
      ((vm_ok nx v' /\ locks v' = no_locks) \/ (chunk_available av = false /\ locks v' <> no_locks)) /\
      (map_available av = false \/ page_available av = false \/ chunk_available av = false \/
       (base.size (free_pages (allocator v)) < 4)%nat \/ is_Some (translate (page_table v) a))
  | Err Restart => False
  | Trap => exists e, e ∈ entries (space v) /\ contains (range e) a /\ 2 ^ 32 <= size (range e) / page
  end.

Lemma fault_result_same access a v v1 r v' : same_memory v v1 -> allocator v1 = allocator v -> page_table v1 = page_table v ->
  (match r with Err NotMapped | Err ProtectionViolation | Trap => False | _ => True end) ->
  fault_result access a v1 r v' -> fault_result access a v r v'.
Proof.
  intros Hs Ha Ht Hr. destruct r as [[]|[]|]; try done; cbn.
  - intros (R1 & R2 & R3 & R4 & (t & R5 & R5') & R6). split; [done|]. split; [done|]. split; [now apply (same_memory_trans v v1)|].
    rewrite <- Ht. split; [done|]. split; [|done]. exists t. split; [now apply (sm_mapped _ _ Hs)|done].
  - intros (R1 & (t & R2 & R2') & R3 & R4). split; [now apply (same_memory_trans v v1)|].
    split; [exists t; split; [now apply (sm_mapped _ _ Hs)|done]|]. rewrite <- Ht, <- Ha. done.
Qed.

(** The word a page is entered with permits the access it was entered for. *)
Lemma leaf_permits prot f access : allowed_by prot access = true ->
  permits nx (leaf_word nx (MkMapType user prot write_back) f) access = true.
Proof.
  intros Hp. unfold permits, leaf_word. rewrite !applyMapType_spec by done. cbn. destruct access; [done|done|].
  cbn in Hp. destruct nx; [|done]. cbn. now rewrite Hp.
Qed.

(** The last step: the page [fr] behind the address is entered. *)
Lemma entered_result v0 v1 a access prot p fr :
  vm_ok nx v1 -> same_memory v0 v1 -> page_table v1 = page_table v0 ->
  (base.size (free_pages (allocator v0)) <= S (base.size (free_pages (allocator v1))))%nat ->
  anonymous_pages v1 !! p = Some (MkAnonPage 1 fr) -> 0 <= a < 2 ^ 47 -> allowed_by prot access = true ->
  (forall y, same_page a y = true ->
     exists t, mapped (entries (space v1)) y t /\ protection_of t = prot /\ backing (space v1) y = Some p) ->
  let '(error, t, a2) := map4KiB nx (page_table v1) a fr (MkMapType user prot write_back) (allocator v1) in
  fault_result access a v0 (match error with None => Ok tt | Some _ => Err OutOfMemory end)
    (MkVM (space v1) (anonymous_pages v1) t (memory v1) a2 no_locks).
Proof.
  intros Hv Hs Ht Hal Hp Ha Hacc Hpage. pose proof Hv as [V1 V2 V3 V4].
  assert (Hmap : exists t, mapped (entries (space v0)) a t /\ allowed_by (protection_of t) access = true).
  { destruct (Hpage a ltac:(unfold same_page; now rewrite Z.eqb_refl)) as (t & Hm & <- & _). exists t.
    split; [now apply (sm_mapped _ _ Hs)|done]. }
  pose proof (map4KiB_ret nx (page_table v1) a fr (MkMapType user prot write_back) (allocator v1) Ha (tb_plain _ _ _ _ V4)) as Hr.
  destruct (map4KiB _ _ _ _ _ _) as [[[er|] t] a2]; cbn in Hr.
  - assert (Hsm : forall a2, free_pages a2 = free_pages (allocator v1) ->
      same_memory v0 (MkVM (space v1) (anonymous_pages v1) (page_table v1) (memory v1) a2 no_locks) /\
      vm_ok nx (MkVM (space v1) (anonymous_pages v1) (page_table v1) (memory v1) a2 no_locks)).
    { intros b Hb. split; [now destruct Hs|]. split; cbn; [done|done|now rewrite Hb|done]. }
    destruct er; [|done|].
    + destruct Hr as (-> & Hf & Hx). destruct (Hsm a2 Hf) as [S1 S2]. split; [done|]. split; [done|].
      split; [left; done|]. rewrite <- Ht. auto.
    + destruct Hr as (-> & Hf & Hx & Hz). destruct (Hsm a2 Hf) as [S1 S2]. split; [done|]. split; [done|].
      split; [left; done|]. right. right. right. left. lia.
  - destruct Hr as (Hn & Hw & _ & Hpl & new & Htk & Hpg).
    assert (Hfr : 0 <= fr < 2 ^ 32) by (destruct (fr_page _ _ _ _ V3 p _ Hp) as (R & _); cbn in R; pose proof page_limit_index; lia).
    split; [|split; [done|]; split; [now destruct Hs|]].
    + split; cbn; [done|done| |].
      * now apply (frames_mapped (anonymous_pages v1) (page_table v1) t (allocator v1) a2 new).
      * now apply (table_entered nx (space v1) (anonymous_pages v1) (page_table v1) a p fr prot t).
    + rewrite <- Ht. split; [done|]. split; [done|].
      exists (leaf_word nx (MkMapType user prot write_back) (baseAddress fr)). split; [|now apply leaf_permits].
      cbn. rewrite Hw by lia. unfold same_page. now rewrite Z.eqb_refl.
Qed.

(** A zeroed page that is in no slot. *)
Lemma leaked_memory v fr a1 lk : let p := fresh (dom (anonymous_pages v)) in
  vm_ok nx v -> allocate (allocator v) = Some (fr, a1) ->
  same_memory v (MkVM (space v) (<[p := MkAnonPage 1 fr]> (anonymous_pages v)) (page_table v) (page_zeroed fr (memory v)) a1 lk).
Proof.
  intros p Hv Hal. assert (Hp : anonymous_pages v !! p = None) by (apply not_elem_of_dom, is_fresh).
  destruct (frames_new (anonymous_pages v) (page_table v) (allocator v) fr a1 p (vm_frames _ _ Hv) Hal Hp) as (_ & _ & F3).
  split; [done|done| |done]. intros x. unfold content. cbn. destruct (backing (space v) x) as [q|] eqn:Eb; [|done].
  apply (backing_iff _ _ _ _ _ (layout_chain _ (vm_layout _ _ Hv))) in Eb as (j & o & _ & Hq).
  destruct (so_page _ _ (vm_slots _ _ Hv) _ _ _ Hq) as [g Hg]. rewrite lookup_insert_ne by (intros ->; congruence).
  rewrite Hg. cbn. rewrite zeroed_other; [done|]. exact (F3 q _ Hg).
Qed.

(** A new zeroed page in the slot of an address changes nothing the process sees. *)
Lemma zeroed_memory v i mm chunks k fr a1 lk : let p := fresh (dom (anonymous_pages v)) in
  vm_ok nx v -> anonymous_maps (space v) !! i = Some mm -> chunks_ok chunks -> is_Some (chunks !! chunkIndex k) ->
  (forall l, chunk_get chunks l = chunk_get (anonymous_page_chunks mm) l) ->
  slot_at (anonymous_maps (space v)) i k = None -> 0 <= k < number_of_pages mm -> allocate (allocator v) = Some (fr, a1) ->
  let v1 := MkVM (added_space (space v) i mm chunks k p) (<[p := MkAnonPage 1 fr]> (anonymous_pages v)) (page_table v)
    (page_zeroed fr (memory v)) a1 lk in
  vm_ok nx v1 /\ same_memory v v1.
Proof.
  intros p Hv Hm Hok Hck Hg Hn Hk Hal v1. pose proof Hv as [V1 V2 V3 V4].
  assert (Hp : anonymous_pages v !! p = None) by (apply not_elem_of_dom, is_fresh).
  destruct (frames_new (anonymous_pages v) (page_table v) (allocator v) fr a1 p V3 Hal Hp) as (F1 & F2 & F3).
  pose proof (added_layout (space v) i mm chunks k p Hm V1) as Hl.
  split; [split; cbn|split; cbn].
  - exact Hl.
  - now apply added_slots_ok.
  - exact F1.
  - split; [apply V4|]. intros x word Hx Hw. destruct (tb_backed _ _ _ _ V4 x word Hx Hw) as (t & q & aq & T1 & T2 & T3 & T4).
    exists t, q, aq. split; [done|]. split; [now apply added_backing_ne|]. split; [|done].
    rewrite lookup_insert_ne; [done|]. intros ->. congruence.
  - done.
  - done.
  - intros x. unfold content. cbn [space anonymous_pages memory v1].
    destruct (backing (space v) x) as [q|] eqn:Eb.
    + rewrite (added_backing_ne (space v) i mm chunks k p Hm Hok Hck Hg x q V1 Hn Eb).
      apply (backing_iff _ _ _ _ _ (layout_chain _ V1)) in Eb as (j & o & _ & Hq).
      destruct (so_page _ _ V2 _ _ _ Hq) as [f Hf]. rewrite lookup_insert_ne by (intros ->; congruence). rewrite Hf. cbn.
      rewrite zeroed_other; [done|]. exact (F3 q _ Hf).
    + destruct (backing (added_space _ _ _ _ _ _) x) as [q|] eqn:Eb'; [|done].
      apply (added_backing_inv (space v) i mm chunks k p Hm Hok Hck Hg x q V1) in Eb' as [[-> _]|Eb']; [|congruence].
      rewrite lookup_insert_eq. cbn. apply zeroed_here.
  - intros j. unfold weight, pages_of. destruct (decide (j = i)) as [->|Hne]; [rewrite lookup_insert_eq, Hm; done|now rewrite lookup_insert_ne].
Qed.

(** ** An iteration of the loop *)

Lemma vm_eta (v : VM A) : locks v = no_locks ->
  v = MkVM (space v) (anonymous_pages v) (page_table v) (memory v) (allocator v) no_locks.
Proof. destruct v. cbn. now intros ->. Qed.

Section Iteration.
Variable v : VM A.
Hypothesis Hv : vm_ok nx v.
Hypothesis Hlk : locks v = no_locks.
Variable f : FaultInfo.
Hypothesis Hal : aligned (faulting_address f) = true.
Hypothesis Ha : 0 <= faulting_address f < 2 ^ 47.
Hypothesis Hw : wired f = false.

Lemma no_entry_result :
  match entryIndexByAddress (entries (space v)) (faulting_address f) with
  | Some ix => exists e, entries (space v) !! ix = Some e /\ contains (range e) (faulting_address f) /\ wired_count e = 0
  | None => forall t, ~ mapped (entries (space v)) (faulting_address f) t
  end.
Proof.
  pose proof (vm_layout _ _ Hv) as Hl. pose proof (entryIndex_ret _ _ _ (faulting_address f) (layout_chain _ Hl)) as Hi.
  destruct (entryIndexByAddress _ _) as [ix|].
  - destruct Hi as (e & He & Hx). exists e. split; [done|]. split; [done|].
    apply (lo_wired _ Hl (faulting_address f) (attributes e)). exists e. split; [now apply (list_elem_of_lookup_2 _ ix)|done].
  - intros t (e & Hin & Hx & _). now apply (Hi e).
Qed.

Variable ix : nat.
Variable e : Entry.
Hypothesis Hix : entryIndexByAddress (entries (space v)) (faulting_address f) = Some ix.
Hypothesis He : entries (space v) !! ix = Some e.
Hypothesis Hx : contains (range e) (faulting_address f).
Hypothesis Hwc : wired_count e = 0.

Lemma entry_mapped y : contains (range e) y -> mapped (entries (space v)) y (attributes e).
Proof. intros Hy. exists e. split; [now apply (list_elem_of_lookup_2 _ ix)|done]. Qed.

Hypothesis Hallow : allowed_by (protection e) (access_type f) = true.

Lemma enter_allowed : protection e <> no_protection.
Proof. intros E. rewrite E in Hallow. now destruct (access_type f). Qed.

Let f1 : FaultInfo := for_access (checked ix e f).

Lemma f1_fields : faulting_address f1 = faulting_address f /\ enter_protection f1 = protection e /\ entry f1 = ix /\
  wired f1 = wired f /\ access_type f1 = access_type f.
Proof. unfold f1, for_access. destruct (access_type (checked ix e f)) eqn:Ea; unfold checked, with_lock_type in *; cbn in *; done. Qed.

Lemma zero_fill_result i off mm (Q : outcome unit -> FaultState -> Prop) :
  anonymous_map e = Some (i, off) -> anonymous_maps (space v) !! i = Some mm -> chunks_ok (anonymous_page_chunks mm) ->
  let k := targetIndex e off (faulting_address f) in 0 <= k < number_of_pages mm -> number_of_pages mm < 2 ^ 32 ->
  slot_at (anonymous_maps (space v)) i k = None -> chunk_get (anonymous_page_chunks mm) k = None ->
  (forall y, same_page (faulting_address f) y = true -> contains (range e) y /\
     exists o, anon_at (entries (space v)) y i o /\ o / page = k) ->
  (anonymous_map_lock_type f1 = read_lock -> Q (Err Restart) (promoting f1, v)) ->
  (forall r v', fault_result (access_type f) (faulting_address f) v r v' -> Q r (promoting f1, v')) ->
  runs (faultObjectOrZeroFill debug nx av)
    (f1, MkVM (space v) (anonymous_pages v) (page_table v) (memory v) (allocator v) (held i f1)) Q.
Proof.
  intros Em Hm Hok k Hk Hk2 Hs Hc Hpg Qr Qa. destruct f1_fields as (E1 & E2 & E3 & E4 & _).
  assert (Hmap : exists t, mapped (entries (space v)) (faulting_address f) t /\ allowed_by (protection_of t) (access_type f) = true).
  { exists (attributes e). split; [now apply entry_mapped|done]. }
  apply (faultObjectOrZeroFill_runs debug nx av f1 _ _ _ _ _ e i off mm); rewrite ?E1, ?E2, ?E3, ?E4; try done.
  - apply enter_allowed.
  - fold k. lia.
  - intros Hl _. rewrite <- (vm_eta v Hlk). now apply Qr.
  - intros _. fold k. destruct (allocate (allocator v)) as [[fr a1]|] eqn:Eal.
    2: { rewrite <- (vm_eta v Hlk). apply Qa. split; [apply same_memory_refl|]. split; [exact Hmap|]. split; [left; done|].
         rewrite (allocate_none _ Eal), size_empty. right. right. right. left. lia. }
    destruct (page_available av) eqn:Epa.
    2: { apply Qa. split; [now split|]. split; [exact Hmap|]. split; [|auto]. left. split; [|done].
         destruct Hv as [V1 V2 V3 V4]. split; cbn; try done. rewrite (taken_given_back (allocator v) a1 [fr]); [done|].
         now apply (taken_cons _ fr a1), taken_nil. }
    cbv zeta. pose proof (ensureChunk_ret av (anonymous_page_chunks mm) k Hok) as Hen.
    destruct (ensureChunk av (anonymous_page_chunks mm) k) as [chunks|].
    + destruct Hen as (C1 & C2 & C3).
      destruct (zeroed_memory v i mm chunks k fr a1 no_locks Hv Hm C1 C2 C3 Hs Hk Eal) as [Z1 Z2].
      unfold map_type. rewrite E2. set (p := fresh (dom (anonymous_pages v))) in *.
      pose proof (entered_result v _ (faulting_address f) (access_type f) (protection e) p fr Z1 Z2 eq_refl) as Hr.
      cbn [space anonymous_pages page_table memory allocator] in Hr.
      destruct (map4KiB _ _ _ _ _ _) as [[er t] a2]. apply Qa. apply Hr; clear Hr.
      * rewrite (allocate_size _ _ _ Eal). lia.
      * now rewrite lookup_insert_eq.
      * done.
      * done.
      * intros y Hy. destruct (Hpg y Hy) as (Hy1 & o & Hy2 & Hy3). exists (attributes e).
        split; [now apply entry_mapped|]. split; [done|].
        pose proof (backing_none _ _ _ y i o (layout_chain _ (vm_layout _ _ Z1)) Hy2) as Hb. cbn [space] in Hb.
        rewrite Hb, added_slot by done. now rewrite decide_True.
    + apply Qa. destruct Hen as [Hch _]. split; [now apply leaked_memory|]. split; [exact Hmap|]. split; [right; done|auto].
Qed.

(** The entry has its map: the fault is handled, or the lock could not be upgraded. *)
Lemma iteration_found : needs_copy e = false ->
  runs (fault_iteration debug nx av) (f, v) (fun r st =>
    (r = Err Restart /\ anonymous_map_lock_type f1 = read_lock /\ st = (promoting f1, v)) \/
    fault_result (access_type f) (faulting_address f) v r st.2).
Proof.
  intros Hn. destruct (entry_slot v ix e (faulting_address f) Hv He Hx Hal Hn) as (i & off & mm & Em & Hm & Hok & Hk & Hf & Hs & Hpg).
  set (k := targetIndex e off (faulting_address f)) in *. destruct f1_fields as (E1 & E2 & E3 & E4 & E5).
  rewrite (vm_eta v Hlk). apply runs_bind. apply faultCheck_runs. rewrite Hix. exists e. split; [done|]. split; [done|].
  rewrite Hallow, Hn. cbn [negb]. exists i, off, mm. split; [done|]. split; [done|]. cbv zeta. fold k. split; [lia|].
  fold f1 (held i f1). destruct (chunk_get (anonymous_page_chunks mm) k) as [p|] eqn:Ec.
  - destruct (so_page _ _ (vm_slots _ _ Hv) _ _ _ Hs) as [fr Hfr].
    apply (faultUpper_runs debug nx av p f1 _ _ _ _ _ e i off fr); rewrite ?E1, ?E2, ?E3; try done; [apply enter_allowed|].
    unfold map_type. rewrite E2.
    pose proof (entered_result v v (faulting_address f) (access_type f) (protection e) p fr Hv (same_memory_refl v) eq_refl) as Hr.
    destruct (map4KiB _ _ _ _ _ _) as [[er t] a2]. right. rewrite <- (vm_eta v Hlk). apply Hr; clear Hr; [lia|done|done|done|].
    intros y Hy. destruct (Hpg y Hy) as (Hy1 & o & Hy2 & Hy3). exists (attributes e).
    split; [now apply entry_mapped|]. split; [done|].
    now rewrite (backing_none _ _ _ y i o (layout_chain _ (vm_layout _ _ Hv)) Hy2), Hy3.
  - apply (zero_fill_result i off mm); try done.
    + intros Hl. left. rewrite <- (vm_eta v Hlk). done.
    + intros r v' Hr. right. now rewrite <- (vm_eta v Hlk).
Qed.

Lemma copied_memory : anonymous_map e = None ->
  size (range e) / page < 2 ^ 32 ->
  let v1 := MkVM (copied_space (space v) ix e) (anonymous_pages v) (page_table v) (memory v) (allocator v) no_locks in
  vm_ok nx v1 /\ same_memory v v1.
Proof.
  intros Em Hsz v1. pose proof (vm_layout _ _ Hv) as Hl. destruct Hv as [V1 V2 V3 V4].
  pose proof (fun x => copied_backing (space v) ix e Hl He Em x) as Hb.
  pose proof (fun x t => copied_mapped (space v) ix e He x t) as Hm. split.
  - split; [now apply (copied_layout (space v) ix e)|now apply (copied_slots_ok (space v) ix e)|done|]. split; [apply V4|].
    intros x word Hx' Hw'. destruct (tb_backed _ _ _ _ V4 x word Hx' Hw') as (t & p & ap & T1 & T2 & T3 & T4).
    exists t, p, ap. split; [now apply Hm|]. split; [now rewrite <- (Hb x) in T2|done].
  - split; [done|exact Hm| |].
    + intros x. unfold content. cbn [space v1]. now rewrite Hb.
    + intros j. apply (copied_weight (space v) ix e He Em). pose proof (layout_entries _ Hl) as Hok. rewrite Forall_forall in Hok.
      now destruct (Hok e (list_elem_of_lookup_2 _ _ _ He)) as (_ & _ & Hz & _).
Qed.

(** The entry has no map yet: it gets one and the fault starts again. *)
Lemma iteration_copy : needs_copy e = true ->
  runs (fault_iteration debug nx av) (f, v) (fun r st =>
    (r = Err Restart /\ anonymous_map e = None /\ size (range e) / page < 2 ^ 32 /\
     st = (checked ix e f,
           MkVM (copied_space (space v) ix e) (anonymous_pages v) (page_table v) (memory v) (allocator v) no_locks)) \/
    fault_result (access_type f) (faulting_address f) v r st.2).
Proof.
  intros Hn. pose proof (lo_copy _ (vm_layout _ _ Hv)) as Hc. rewrite Forall_forall in Hc.
  pose proof (list_elem_of_lookup_2 _ _ _ He) as Hin. pose proof (proj1 (Hc e Hin) Hn) as Em.
  rewrite (vm_eta v Hlk). apply runs_bind. apply faultCheck_runs. rewrite Hix. exists e. split; [done|]. split; [done|].
  rewrite Hallow, Hn. cbn [negb]. split; [done|]. rewrite <- (vm_eta v Hlk). split; [|split].
  - intros Hma. right. split; [apply same_memory_refl|].
    split; [exists (attributes e); split; [now apply entry_mapped|done]|]. split; [left; done|auto].
  - intros Hs. left. split; [done|]. split; [done|]. split; [done|]. done.
  - intros Hs w. right. exists e. done.
Qed.

End Iteration.
(** ** The loop *)

Lemma loop_done fuel access a v s r st : fault_iteration debug nx av s = (r, st) -> fault_result access a v r st.2 ->
  fault_loop debug nx av (S fuel) s = Some (r, st).
Proof. intros E Hr. cbn. rewrite E. destruct r as [|[]|]; done. Qed.

Lemma iteration_refused v f : vm_ok nx v -> locks v = no_locks ->
  (entryIndexByAddress (entries (space v)) (faulting_address f) = None \/
   exists ix e, entryIndexByAddress (entries (space v)) (faulting_address f) = Some ix /\ entries (space v) !! ix = Some e /\
     wired_count e = 0 /\ contains (range e) (faulting_address f) /\ allowed_by (protection e) (access_type f) = false) ->
  runs (fault_iteration debug nx av) (f, v) (fun r st => fault_result (access_type f) (faulting_address f) v r st.2).
Proof.
  intros Hv Hlk Hc. pose proof (no_entry_result v Hv f) as Hne. rewrite (vm_eta v Hlk). apply runs_bind. apply faultCheck_runs.
  destruct Hc as [Hc|(ix & e & Hc & He & Hwc & Hx & Hd)]; rewrite Hc in *; rewrite <- (vm_eta v Hlk).
  - done.
  - exists e. split; [done|]. split; [done|]. rewrite Hd. cbn [negb]. split; [done|].
    exists (attributes e). split; [|done]. exists e. split; [now apply (list_elem_of_lookup_2 _ ix)|done].
Qed.

Lemma loop_found fuel v f ix e : vm_ok nx v -> locks v = no_locks -> aligned (faulting_address f) = true ->
  0 <= faulting_address f < 2 ^ 47 -> wired f = false ->
  entryIndexByAddress (entries (space v)) (faulting_address f) = Some ix -> entries (space v) !! ix = Some e ->
  contains (range e) (faulting_address f) -> wired_count e = 0 -> allowed_by (protection e) (access_type f) = true ->
  needs_copy e = false ->
  exists r st, fault_loop debug nx av (2 + fuel) (f, v) = Some (r, st) /\
    fault_result (access_type f) (faulting_address f) v r st.2.
Proof.
  intros Hv Hlk Hal Ha Hw Hix He Hx Hwc Hallow Hn.
  pose proof (iteration_found v Hv Hlk f Hal Ha Hw ix e Hix He Hx Hwc Hallow Hn) as H1. unfold runs in H1.
  destruct (fault_iteration debug nx av (f, v)) as [r st] eqn:E1. cbn [fst snd] in H1. destruct H1 as [(-> & Hl & ->)|H1].
  2: { exists r, st. split; [now apply (loop_done _ _ _ _ _ _ _ E1 H1)|done]. }
  destruct (f1_fields f ix e) as (F1 & _ & _ & F4 & F5). set (f2 := promoting (for_access (checked ix e f))) in *.
  assert (G1 : faulting_address f2 = faulting_address f) by (rewrite <- F1; done).
  assert (G2 : access_type f2 = access_type f) by (rewrite <- F5; done).
  assert (G3 : wired f2 = false) by (rewrite <- Hw, <- F4; done).
  pose proof (iteration_found v Hv Hlk f2) as H2. rewrite G1, G2 in H2.
  specialize (H2 Hal Ha G3 ix e Hix He Hx Hwc Hallow Hn). unfold runs in H2.
  destruct (fault_iteration debug nx av (f2, v)) as [r st] eqn:E2. cbn [fst snd] in H2. destruct H2 as [(_ & Hl2 & _)|H2].
  { exfalso. revert Hl2. unfold for_access. now destruct (access_type (checked ix e f2)). }
  exists r, st. split; [|done]. cbn [Nat.add fault_loop]. rewrite E1.
  exact (loop_done fuel _ _ _ _ _ _ E2 H2).
Qed.

Lemma handled v f : vm_ok nx v -> locks v = no_locks -> aligned (faulting_address f) = true ->
  0 <= faulting_address f < 2 ^ 47 -> wired f = false ->
  exists r st, fault_loop debug nx av 3 (f, v) = Some (r, st) /\ fault_result (access_type f) (faulting_address f) v r st.2.
Proof.
  intros Hv Hlk Hal Ha Hw. pose proof (no_entry_result v Hv f) as Hne.
  destruct (entryIndexByAddress (entries (space v)) (faulting_address f)) as [ix|] eqn:Hix.
  2: { pose proof (iteration_refused v f Hv Hlk (or_introl Hix)) as H1. unfold runs in H1.
       destruct (fault_iteration debug nx av (f, v)) as [r st] eqn:E1. exists r, st. split; [|done]. exact (loop_done 2 _ _ _ _ _ _ E1 H1). }
  destruct Hne as (e & He & Hx & Hwc). destruct (allowed_by (protection e) (access_type f)) eqn:Hallow.
  2: { pose proof (iteration_refused v f Hv Hlk) as H1. unfold runs in H1.
       destruct (fault_iteration debug nx av (f, v)) as [r st] eqn:E1. specialize (H1 ltac:(right; exists ix, e; done)).
       exists r, st. split; [|done]. exact (loop_done 2 _ _ _ _ _ _ E1 H1). }
  destruct (needs_copy e) eqn:Hn; [|now apply (loop_found 1 v f ix e)].
  pose proof (iteration_copy v Hv Hlk f ix e Hix He Hx Hwc Hallow Hn) as H1. unfold runs in H1.
  destruct (fault_iteration debug nx av (f, v)) as [r st] eqn:E1. cbn [fst snd] in H1.
  destruct H1 as [(-> & Em & Hsz & ->)|H1]; [|exists r, st; split; [exact (loop_done 2 _ _ _ _ _ _ E1 H1)|done]].
  destruct (copied_memory v Hv ix e He Em Hsz) as [Hv1 Hs1]. set (v1 := MkVM (copied_space (space v) ix e) _ _ _ _ _) in *.
  pose proof (layout_chain _ (vm_layout _ _ Hv1)) as Hc1.
  set (e1 := clear_needs_copy (with_anon (Some (fresh (dom (anonymous_maps (space v))), 0)) e)).
  assert (He1 : entries (space v1) !! ix = Some e1).
  { cbn [space v1]. unfold copied_space. cbn [entries]. rewrite list_lookup_alter_eq, He. done. }
  destruct (loop_found 0 v1 (checked ix e f) ix e1) as (r & st & E2 & H2); try done.
  { apply (entryIndex_some _ _ _ _ ix e1 Hc1); done. }
  exists r, st. split; [cbn [fault_loop]; rewrite E1; exact E2|].
  destruct r as [[]|[]|]; try (now apply (fault_result_same _ _ v v1 _ _ Hs1)).
  - destruct H2 as [_ H2]. exfalso. apply (H2 (attributes e1)). exists e1. split; [now apply (list_elem_of_lookup_2 _ ix)|done].
  - destruct H2 as [_ (t & Ht & Hd)]. exfalso. apply (sm_mapped _ _ Hs1) in Ht.
    destruct Ht as (e' & [ix' He']%list_elem_of_lookup & Hx' & <-).
    destruct (entry_unique _ _ _ _ _ _ _ _ (layout_chain _ (vm_layout _ _ Hv)) He He' Hx Hx') as [_ <-].
    unfold protection_of in Hd. cbn in Hd. congruence.
  - destruct H2 as (e' & Hin & Hx' & Hsz'). exfalso. apply list_elem_of_lookup in Hin as [ix' He'].
    destruct (entry_unique _ _ _ _ _ _ _ _ Hc1 He1 He' Hx Hx') as [_ <-]. cbn in Hsz'. lia.
Qed.

(** More fuel gives the same result. *)
Lemma fault_loop_more more : forall fuel s r, fault_loop debug nx av fuel s = Some r -> fault_loop debug nx av (fuel + more) s = Some r.
Proof.
  induction fuel as [|fuel IH]; intros s r; cbn [Nat.add fault_loop]; [done|].
  destruct (fault_iteration debug nx av s) as [[u|[]|] s']; auto.
Qed.

Lemma handlePageFault_more fuel access a v r : (3 <= fuel)%nat -> handlePageFault debug nx av 3 access a v = Some r ->
  handlePageFault debug nx av fuel access a v = Some r.
Proof.
  intros Hf. unfold handlePageFault. destruct (fault_loop debug nx av 3 _) as [[r' s]|] eqn:E; [|done].
  apply (fault_loop_more (fuel - 3)) in E. replace (3 + (fuel - 3))%nat with fuel in E by lia. now rewrite E.
Qed.

Lemma handlePageFault_ret v access a : vm_ok nx v -> locks v = no_locks -> 0 <= a < 2 ^ 47 ->
  exists r v', handlePageFault debug nx av 3 access a v = Some (r, v') /\ fault_result access (a / page * page) v r v'.
Proof.
  intros Hv Hlk Ha. unfold handlePageFault.
  set (f := MkFaultInfo access (a / page * page) 0 no_protection false false read_lock).
  destruct (handled v f Hv Hlk) as (r & st & -> & Hr); [apply aligned_down| |done|now exists r, st.2].
  cbn. pose proof (Z.div_mod a page ltac:(done)). pose proof (Z.mod_pos_bound a page ltac:(done)).
  pose proof (Z.div_pos a page ltac:(lia) ltac:(done)). unfold page in *. lia.
Qed.

End Handled.
