(* ===== verification/Reclaim.v ===== *)
(** * Giving the pages back

    What [performUnmap] of [AddressSpace.zig] does with the entries it removes: each
    lets go of its anonymous map ([AnonMap.decrementReferenceCount]), the last
    reference destroys the map ([AnonMap.destroy]), and its pages are given back to
    the allocator. *)

From stdpp Require Import gmap.
From S2P Require Import Prelude Machine AddressSpace AddressSpaceCorrect PageTable PageTableCorrect PageFault PageFaultCorrect VirtualMemory.

#[local] Arguments Nat.eqb : simpl never.

(** ** Releasing the entries *)

Section Release.
Context {A : Type} `{PageAllocator A}.

Definition release_entry (e : Entry) (free_list : list Z) : F (A := A) (list Z) :=
  match anonymous_map e with
  | Some (i, _) => lock_map i write_lock;; AnonMap_decrementReferenceCount i free_list
  | None => mret free_list
  end.

(** The loop, which goes through the entries from the last one. *)
Fixpoint release_entries (es : list Entry) (free_list : list Z) : F (A := A) (list Z) :=
  match es with
  | [] => mret free_list
  | e :: es' => free_list ← release_entries es' free_list; release_entry e free_list
  end.

(** The entries [performUnmap] removes. *)
Definition removed_entries (er : EntryRange) (es : list Entry) : list Entry :=
  if isWithinSingleEntry er then []
  else
    let first := if start_overlap er then S (start er) else start er in
    let n := if start_overlap er then (length_ er - 1)%nat else length_ er in
    take (if end_overlap er then (n - 1)%nat else n) (drop first es).
End Release.

(** ** The slots of a map *)

Lemma slots_elem kv k p : (k, p) ∈ chunk_slots kv <->
  exists n, kv.2 !! n = Some (Some p) /\ k = kv.1 * slots_per_chunk + Z.of_nat n.
Proof.
  unfold chunk_slots. rewrite list_elem_of_omap. split.
  - intros ([j o] & (n & Hn)%list_elem_of_lookup & Ho). apply lookup_zip_Some in Hn as [[-> _]%lookup_seq Hl].
    cbn in Ho. destruct o as [q|]; [|done]. injection Ho as <- <-. now exists n.
  - intros (n & Hn & ->). exists (n, Some p). split; [|done]. apply (list_elem_of_lookup_2 _ n), lookup_zip_Some.
    split; [|done]. apply lookup_lt_Some in Hn. now rewrite lookup_seq_lt.
Qed.

Lemma omap_nodup {B C} (f : B -> option C) l : (forall x y z, f x = Some z -> f y = Some z -> x = y) -> NoDup l -> NoDup (omap f l).
Proof.
  intros Hf. induction 1 as [|x l Hx Hl IH]; [constructor|]. cbn. destruct (f x) as [z|] eqn:Ez; [|done].
  constructor; [|done]. intros (y & Hy & Ey)%list_elem_of_omap. now rewrite (Hf x y z) in Hx.
Qed.

Lemma slots_nodup kv : NoDup (chunk_slots kv).
Proof.
  apply omap_nodup.
  - intros [j [q|]] [j' [q'|]] z; cbn; intros H; try done. intros H'. injection H as <-. injection H' as H1 ->. do 2 f_equal. lia.
  - apply (NoDup_fmap_1 fst). rewrite fst_zip by (now rewrite length_seq). apply NoDup_seq.
Qed.

Lemma chunk_position c n : 0 <= n < 16 -> chunkIndex (c * slots_per_chunk + n) = c /\ chunkOffset (c * slots_per_chunk + n) = n.
Proof.
  intros Hn. unfold chunkIndex, chunkOffset, slots_per_chunk. rewrite Z.shiftr_div_pow2 by lia. change (16 - 1) with (Z.ones 4).
  rewrite Z.land_ones by lia. change (2 ^ 4) with 16. rewrite Z.add_comm, Z.div_add, Z.div_small, Z.mod_add, Z.mod_small by lia. lia.
Qed.

(** The populated slots, each once. *)
Lemma populated_elem chunks k p : chunks_ok chunks -> (k, p) ∈ populated chunks <-> chunk_get chunks k = Some p.
Proof.
  intros Hok. unfold populated, chunk_get. rewrite list_elem_of_bind. split.
  - intros ([c l] & (n & Hn & ->)%slots_elem & Hl%elem_of_map_to_list). cbn [fst snd] in *. pose proof (Hok _ _ Hl) as Hlen. cbn in Hlen.
    apply lookup_lt_Some in Hn as Hlt. destruct (chunk_position c (Z.of_nat n) ltac:(lia)) as [-> ->]. now rewrite Hl, Nat2Z.id, Hn.
  - destruct (chunks !! chunkIndex k) as [l|] eqn:El; [|done]. intros Hn. exists (chunkIndex k, l). rewrite elem_of_map_to_list.
    split; [|done]. apply slots_elem. exists (Z.to_nat (chunkOffset k)). pose proof (chunk_offset_range k). cbn [fst snd].
    split; [|rewrite Z2Nat.id by lia; apply chunk_split]. destruct (l !! _) as [[q|]|]; try done. cbn in Hn. congruence.
Qed.

Lemma populated_nodup chunks : chunks_ok chunks -> NoDup (populated chunks).
Proof.
  intros Hok. apply NoDup_bind; [|intros kv _; apply slots_nodup|apply NoDup_map_to_list].
  intros [c l] [c' l'] [k p] Hc%elem_of_map_to_list Hc'%elem_of_map_to_list (n & Hn & ->)%slots_elem (n' & Hn' & E)%slots_elem.
  cbn [fst snd] in *. pose proof (Hok _ _ Hc) as L. pose proof (Hok _ _ Hc') as L'. cbn in L, L'.
  apply lookup_lt_Some in Hn, Hn'. destruct (chunk_position c (Z.of_nat n) ltac:(lia)) as [H1 _].
  destruct (chunk_position c' (Z.of_nat n') ltac:(lia)) as [H2 _]. rewrite E, H2 in H1. subst. congruence.
Qed.

(** ** The pages that are given back *)

Lemma slot_kept ms ms' i k : kept ms ms' -> is_Some (ms' !! i) -> slot_at ms' i k = slot_at ms i k.
Proof.
  intros Hk Hi. destruct (Hk i Hi) as [_ Hc]. unfold chunks_of in Hc. unfold slot_at. destruct Hi as [m' Hm]. rewrite Hm in *.
  destruct (ms !! i) as [m|]; [|done]. cbn in Hc. now injection Hc as ->.
Qed.

Lemma slot_map ms i k p : slot_at ms i k = Some p -> is_Some (ms !! i).
Proof. unfold slot_at. destruct (ms !! i); [eauto|done]. Qed.

Section Reclaim.
Variable limit : Z.
Variable pt : Level4.
Variable free : gset Z.

(** The pages of [free_list] are to be free, the ones of [ps] are in use. *)
Record reclaiming (ps : gmap nat AnonPage) (free_list : list Z) : Prop := {
  rg_frames : frames_ok limit ps pt (free ∪ list_to_set free_list);
  rg_nodup : NoDup free_list;
  rg_new : forall f, f ∈ free_list -> f ∉ free;
  rg_limit : forall f, f ∈ free_list -> 0 <= f < limit;
}.

Lemma reclaiming_drop ps free_list p ap : reclaiming ps free_list -> ps !! p = Some ap ->
  reclaiming (delete p ps) (physical_page ap :: free_list).
Proof.
  intros [[F1 F2 Fl F3 F4] G2 G3 G4] Hp. destruct (F3 _ _ Hp) as (P1 & P2 & P3). split; [split| | |].
  - done.
  - intros f Hf. specialize (F2 f Hf). cbn. set_solver.
  - done.
  - intros q aq [Hne Hq]%lookup_delete_Some. destruct (F3 _ _ Hq) as (Q1 & Q2 & Q3).
    split; [done|]. split; [|done]. cbn. rewrite !elem_of_union, elem_of_singleton in *. intros [H|[H|H]]; [tauto| |tauto].
    apply Hne. symmetry. now apply (F4 q p aq ap).
  - intros q q' aq aq' [_ Hq]%lookup_delete_Some [_ Hq']%lookup_delete_Some. now apply F4.
  - constructor; [|done]. set_solver.
  - intros f [->|Hf]%elem_of_cons; [set_solver|auto].
  - intros f [->|Hf]%elem_of_cons; auto.
Qed.

(** The anonymous maps [ms] became [ms'], and the pages of those that are gone are
    given back. *)
Record reclaimed (ms : maps) (ps : gmap nat AnonPage) (fl : list Z) (ms' : maps) (ps' : gmap nat AnonPage) (fl' : list Z) : Prop := {
  rc_kept : kept ms ms';
  rc_frames : reclaiming ps' fl';
  rc_sub : ps' ⊆ ps;
  rc_pages : forall i k p, is_Some (ms' !! i) -> slot_at ms i k = Some p -> ps' !! p = ps !! p;
  rc_gone : forall i k p ap, slot_at ms i k = Some p -> ms' !! i = None -> ps !! p = Some ap ->
    ps' !! p = None /\ physical_page ap ∈ fl';
  rc_list : fl ⊆ fl';
}.

Lemma kept_some ms ms' i : kept ms ms' -> is_Some (ms' !! i) -> is_Some (ms !! i).
Proof.
  intros Hk Hi. destruct (Hk i Hi) as [_ Hc]. unfold chunks_of in Hc. destruct Hi as [m' Hm]. rewrite Hm in Hc.
  destruct (ms !! i); [eauto|done].
Qed.

Lemma reclaimed_slots ms ps fl ms' ps' fl' : slots_ok ms ps -> reclaimed ms ps fl ms' ps' fl' -> slots_ok ms' ps'.
Proof.
  intros [S1 S2 S3 S4 S5] [R1 R2 R3 R4 R5 R6].
  assert (Hs : forall i k p, slot_at ms' i k = Some p -> slot_at ms i k = Some p).
  { intros i k p Hp. rewrite <- (slot_kept ms ms'); [done|done|now apply (slot_map _ _ k p)]. }
  split.
  - intros i m' Hm. destruct (kept_some _ _ i R1 ltac:(eauto)) as [m Hi]. destruct (R1 i ltac:(eauto)) as [_ Hc].
    unfold chunks_of in Hc. rewrite Hm, Hi in Hc. cbn in Hc. injection Hc as ->. now apply (S1 i).
  - intros i k p Hp. destruct (R1 i (slot_map _ _ _ _ Hp)) as [-> _]. apply (S2 i k p). auto.
  - intros i k p Hp. rewrite (R4 i k p (slot_map _ _ _ _ Hp)) by auto. apply (S3 i k). auto.
  - intros i k j l p Hp Hq. apply (S4 i k j l p); auto.
  - intros i. unfold pages_of. destruct (ms' !! i) as [m'|] eqn:Hm; [|done]. destruct (R1 i ltac:(eauto)) as [Hp _].
    unfold pages_of in Hp. rewrite Hm in Hp. rewrite Hp. apply S5.
Qed.

Lemma reclaimed_refl ms ps fl : reclaiming ps fl -> reclaimed ms ps fl ms ps fl.
Proof.
  intros H. split; [done|done|done|done| |done]. intros i k p ap Hs Hn. apply slot_map in Hs. rewrite Hn in Hs. now apply is_Some_None in Hs.
Qed.

Lemma reclaimed_trans ms ps fl ms1 ps1 fl1 ms2 ps2 fl2 :
  reclaimed ms ps fl ms1 ps1 fl1 -> reclaimed ms1 ps1 fl1 ms2 ps2 fl2 -> reclaimed ms ps fl ms2 ps2 fl2.
Proof.
  intros [A1 A2 A3 A4 A5 A6] [B1 B2 B3 B4 B5 B6]. split; [| done| |intros i k p Hi Hs| |].
  - intros i Hi. destruct (B1 i Hi) as [-> ->]. apply A1. now apply (kept_some _ ms2).
  - now transitivity ps1.
  - assert (is_Some (ms1 !! i)) by now apply (kept_some _ ms2).
    rewrite (B4 i k p Hi), (A4 i k p); [done|done|done|]. now rewrite (slot_kept ms).
  - intros i k p ap Hs Hn Hp. destruct (ms1 !! i) as [m|] eqn:Em.
    + apply (B5 i k p ap); [rewrite (slot_kept ms); [done|done|eauto]|done|]. now rewrite (A4 i k p) by eauto.
    + destruct (A5 i k p ap Hs Em Hp) as [G1 G2]. split; [|now apply B6]. destruct (ps2 !! p) as [aq|] eqn:E; [|done].
      rewrite (lookup_weaken _ _ _ _ E B3) in G1. done.
  - now transitivity fl1.
Qed.
End Reclaim.

(** ** The code gives them back *)

#[local] Opaque runs guarded lock_map unlock_map lock_page unlock_page get_map get_page.

Definition with_maps (s : AddressSpace) (ms : maps) : AddressSpace := Space (space_range s) (entries s) (entries_version s) ms.

Section Runs.
Context {A : Type} {alloc : PageAllocator A} {laws : PageAllocatorLaws A}.
Variable pt : Level4.
Variable free : gset Z.

#[local] Abbreviation reclaiming := (reclaiming (page_limit A) pt free).
#[local] Abbreviation reclaimed := (reclaimed (page_limit A) pt free).

(** The pages [l] are dropped. *)
Record dropped (l : list nat) (ps : gmap nat AnonPage) (fl : list Z) (ps' : gmap nat AnonPage) (fl' : list Z) : Prop := {
  dr_frames : reclaiming ps' fl';
  dr_in : forall p, p ∈ l -> ps' !! p = None;
  dr_out : forall p, p ∉ l -> ps' !! p = ps !! p;
  dr_given : forall p ap, p ∈ l -> ps !! p = Some ap -> physical_page ap ∈ fl';
  dr_list : fl ⊆ fl';
}.

Lemma dropped_cons p ap l ps fl ps' fl' : p ∉ l -> ps !! p = Some ap ->
  dropped l (delete p ps) (physical_page ap :: fl) ps' fl' -> dropped (p :: l) ps fl ps' fl'.
Proof.
  intros Hn Hp [D1 D2 D3 D4 D5]. split; [done| | | |].
  - intros q [->|Hq]%elem_of_cons; [|auto]. rewrite D3 by done. apply lookup_delete_eq.
  - intros q [Hne Hq]%not_elem_of_cons. rewrite D3 by done. now apply lookup_delete_ne.
  - intros q aq [->|Hq]%elem_of_cons Ha; [rewrite Hp in Ha; injection Ha as ->; apply D5; now left|].
    apply (D4 q aq Hq). rewrite lookup_delete_ne; [done|]. now intros ->.
  - intros f Hf. apply D5. now right.
Qed.

Lemma decrement_all_runs l f s m al tb el ml tl : forall ps fl (Q : outcome (list Z) -> FaultState (A := A) -> Prop),
  Forall (fun kp => exists f, ps !! kp.2 = Some (MkAnonPage 1 f)) l -> NoDup l.*2 -> reclaiming ps fl ->
  (forall ps' fl', dropped l.*2 ps fl ps' fl' -> Q (Ok fl') (f, MkVM s ps' tb m al (MkLocks el ml None tl))) ->
  runs (decrement_all l fl) (f, MkVM s ps tb m al (MkLocks el ml None tl)) Q.
Proof.
  induction l as [|[k p] l IH]; intros ps fl Q Hl Hn Hr HQ.
  - apply runs_ret. apply HQ. split; [done| |done| |done]; intros p; [|intros ap]; now intros Hp%elem_of_nil.
  - cbn in Hn. apply NoDup_cons in Hn as [Hp Hn]. apply Forall_cons in Hl as [[g Hg] Hl]. cbn [snd] in Hg.
    cbn [decrement_all]. apply runs_bind. apply runs_lock_page. apply runs_bind. unfold AnonPage_decrementReferenceCount.
    apply runs_bind. apply (runs_get_page _ _ _ _ _ _ _ _ _ _ Hg). run. cbn [page_references Z.eqb Pos.eqb]. run.
    unfold set_pages. cbn [space anonymous_pages page_table memory allocator locks]. apply runs_bind. apply runs_unlock_page. apply runs_ret.
    apply IH; [|done|now apply (reclaiming_drop _ _ _ _ _ _ _ Hr Hg)|].
    + rewrite Forall_forall in *. intros kp Hin. destruct (Hl kp Hin) as [h Hh]. exists h. rewrite lookup_delete_ne; [done|].
      intros ->. apply Hp, list_elem_of_fmap. eauto.
    + intros ps' fl' Hd. apply HQ. now apply (dropped_cons _ (MkAnonPage 1 g)).
Qed.

Lemma destroyed ms i mm ps fl ps' fl' : slots_ok ms ps -> ms !! i = Some mm -> reclaiming ps fl ->
  dropped (populated (anonymous_page_chunks mm)).*2 ps fl ps' fl' -> reclaimed ms ps fl (delete i ms) ps' fl'.
Proof.
  intros [S1 S2 S3 S4 S5] Hi Hr [D1 D2 D3 D4 D5]. pose proof (S1 _ _ Hi) as Hc.
  assert (Hin : forall p, p ∈ (populated (anonymous_page_chunks mm)).*2 <-> exists k, slot_at ms i k = Some p).
  { intros p. rewrite list_elem_of_fmap. unfold slot_at. rewrite Hi. split.
    - intros ([k q] & -> & Hq). exists k. now apply populated_elem.
    - intros [k Hk]. exists (k, p). split; [done|]. now apply populated_elem. }
  split; [|done| | | |done].
  - intros j [m Hj]. apply lookup_delete_Some in Hj as [Hne Hj]. unfold pages_of, chunks_of. now rewrite lookup_delete_ne.
  - apply map_subseteq_spec. intros p ap Hp. destruct (decide (p ∈ (populated (anonymous_page_chunks mm)).*2)) as [Hd|Hd].
    + rewrite D2 in Hp by done. done.
    + now rewrite <- D3.
  - intros j k p [m Hj] Hs. apply lookup_delete_Some in Hj as [Hne Hj]. apply D3. rewrite Hin. intros [l Hl].
    destruct (S4 _ _ _ _ _ Hs Hl) as [-> _]. done.
  - intros j k p ap Hs Hd Hp. assert (j = i) as ->.
    { destruct (decide (j = i)); [done|]. rewrite lookup_delete_ne in Hd by done. apply slot_map in Hs. rewrite Hd in Hs.
      now apply is_Some_None in Hs. }
    assert (p ∈ (populated (anonymous_page_chunks mm)).*2) by (apply Hin; eauto). eauto.
Qed.

Lemma less_referenced ms i n ps fl : reclaiming ps fl -> reclaimed ms ps fl (add_references i n ms) ps fl.
Proof.
  intros Hr. split; [|done|done|done| |done].
  - intros j _. split; [apply pages_add_references|apply chunks_add_references].
  - intros j k p ap Hs Hn. apply slot_map in Hs as [m Hm]. unfold add_references in Hn. rewrite lookup_alter in Hn.
    case_decide; [subst|congruence]. now rewrite Hm in Hn.
Qed.

Lemma release_entry_runs e fl f s ps m al tb el tl (Q : outcome (list Z) -> FaultState (A := A) -> Prop) :
  let ms := anonymous_maps s in
  slots_ok ms ps -> reclaiming ps fl -> (forall i off, anonymous_map e = Some (i, off) -> is_Some (ms !! i)) ->
  (forall ps' fl', reclaimed ms ps fl (release e ms) ps' fl' ->
     Q (Ok fl') (f, MkVM (with_maps s (release e ms)) ps' tb m al (MkLocks el None None tl))) ->
  runs (release_entry e fl) (f, MkVM s ps tb m al (MkLocks el None None tl)) Q.
Proof.
  intros ms Hs Hr Hm HQ. unfold release_entry. unfold release in HQ. destruct (anonymous_map e) as [[i off]|].
  2: { apply runs_ret. specialize (HQ ps fl (reclaimed_refl _ _ _ _ _ _ Hr)). now destruct s. }
  destruct (Hm i off eq_refl) as [mm Hi]. apply runs_bind. apply runs_lock_map. unfold AnonMap_decrementReferenceCount.
  apply runs_bind. apply (runs_get_map _ _ _ _ _ _ _ _ _ _ Hi). unfold decrementReferenceCount in HQ. rewrite Hi in HQ.
  destruct (reference_count mm =? 1).
  - unfold AnonMap_destroy. apply runs_bind. apply (runs_get_map _ _ _ _ _ _ _ _ _ _ Hi). apply runs_bind.
    pose proof Hs as [S1 S2 S3 S4 S5].
    assert (Hsl : forall k p, (k, p) ∈ populated (anonymous_page_chunks mm) -> slot_at ms i k = Some p).
    { intros k p Hp. unfold slot_at. rewrite Hi. apply populated_elem; [now apply (S1 i)|done]. }
    apply decrement_all_runs; [| |done|].
    + apply Forall_forall. intros [k p] Hp. apply (S3 i k). auto.
    + apply NoDup_fmap_2_strong; [|apply populated_nodup; now apply (S1 i)].
      intros [k p] [l q] Hp Hq. cbn. intros ->. now destruct (S4 _ _ _ _ _ (Hsl _ _ Hp) (Hsl _ _ Hq)) as [_ ->].
    + intros ps' fl' Hd. apply runs_bind. apply runs_unlock_map. apply runs_bind. unfold set_maps. run.
      apply runs_set_vm. apply runs_ret. apply (HQ ps' fl'). now apply (destroyed _ _ mm).
  - apply runs_bind. unfold set_maps. run. apply runs_set_vm. apply runs_bind. apply runs_unlock_map. apply runs_ret.
    apply (HQ ps fl). now apply less_referenced.
Qed.

(** The entries [es] are let go of, and no others. *)
Lemma release_entries_runs es l2 f s ps m al tb el tl : forall l1 fl (Q : outcome (list Z) -> FaultState (A := A) -> Prop),
  let ms := anonymous_maps s in
  counts_ok ms (l1 ++ es ++ l2) -> slots_ok ms ps -> reclaiming ps fl ->
  (forall ps' fl', reclaimed ms ps fl (release_all es ms) ps' fl' ->
     Q (Ok fl') (f, MkVM (with_maps s (release_all es ms)) ps' tb m al (MkLocks el None None tl))) ->
  runs (release_entries es fl) (f, MkVM s ps tb m al (MkLocks el None None tl)) Q.
Proof.
  induction es as [|e es IH]; intros l1 fl Q ms Hc Hs Hr HQ.
  - apply runs_ret. specialize (HQ ps fl (reclaimed_refl _ _ _ _ _ _ Hr)). now destruct s.
  - cbn [release_entries]. apply runs_bind. apply (IH (l1 ++ [e])); [now rewrite <- app_assoc|done|done|].
    intros ps1 fl1 R1. pose proof (reclaimed_slots _ _ _ _ _ _ _ _ _ Hs R1) as S1.
    pose proof (release_all_counts ms (l1 ++ [e]) es l2 ltac:(now rewrite <- app_assoc)) as C1. rewrite <- app_assoc in C1.
    apply release_entry_runs; [done|apply R1| |].
    + intros i off Ei. cbn [anonymous_maps with_maps]. specialize (C1 i). fold ms. destruct (release_all es ms !! i); [eauto|].
      change ([e] ++ l2) with (e :: l2) in C1. rewrite total_uses_app, total_uses_cons in C1. unfold uses in C1 at 1. rewrite Ei, Nat.eqb_refl in C1.
      pose proof (total_uses_nonneg i l1). pose proof (total_uses_nonneg i l2). lia.
    + intros ps' fl' R2. cbn [anonymous_maps with_maps] in R2. apply (HQ ps' fl'). exact (reclaimed_trans _ _ _ _ _ _ _ _ _ _ _ _ R1 R2).
Qed.
End Runs.

(** ** The entries that are removed *)

Lemma remove_entries_maps n first es ms : n = O \/ (first + n <= length es)%nat ->
  (remove_entries n first es ms).2 = release_all (take n (drop first es)) ms.
Proof.
  intros [->|Hl]; [done|]. rewrite <- (take_drop first es) at 1. rewrite <- (take_drop n (drop first es)) at 1.
  assert (E1 : first = length (take first es)) by (rewrite length_take; lia).
  assert (E2 : n = length (take n (drop first es))) by (rewrite length_take, length_drop; lia).
  rewrite E1 at 1. rewrite E2 at 1. now rewrite remove_entries_middle.
Qed.

Lemma take_drop_alter {B} (f : B -> B) (l : list B) first n :
  take (n - 1) (drop first (alter f (first + n - 1)%nat l)) = take (n - 1) (drop first l).
Proof.
  destruct n as [|n]; [done|]. rewrite drop_alter_ge by lia. now rewrite take_alter_ge by lia.
Qed.

Lemma performUnmap_maps er r es ms : isWithinSingleEntry er = false -> (start er + length_ er <= length es)%nat ->
  (performUnmap er r es ms).2 = release_all (removed_entries er es) ms.
Proof.
  intros Hs Hl. unfold performUnmap, removed_entries, update_at. rewrite Hs.
  destruct (start_overlap er), (end_overlap er); rewrite remove_entries_maps by (rewrite ?length_alter; lia); f_equal.
  - rewrite take_drop_alter. now rewrite drop_alter_lt by lia.
  - now rewrite drop_alter_lt by lia.
  - apply take_drop_alter.
Qed.
