(* ===== verification/ProcessMemory.v ===== *)
(** * The memory of a process

    The operations of a process on its memory: [map], [unmap] and
    [changeProtection] of [AddressSpace.zig] with everything they change, and the
    loads and stores of its instructions, which go through the page table and fault
    when it has no entry. *)

From stdpp Require Import gmap.
From S2P Require Import Prelude Machine AddressSpace AddressSpaceCorrect AddressSpaceProtect PageTable PageTableCorrect Paging PageFault PageFaultCorrect VirtualMemory FaultHandled Reclaim.

#[local] Arguments Nat.eqb : simpl never.

(** ** The operations *)

Section Operations.
Context {A : Type} `{PageAllocator A}.
Variable debug nx : bool.
Variable av : Resources.

(** [AddressSpace.map]: pages are entered when they are touched. *)
Definition vm_map (alloc : bool) (base : option Z) (size : Z) (prot : Protection) (max : option Protection) (v : VM A) :
    result MapError (VirtualRange * VM A) :=
  '(r, s) ← map alloc base size prot max (space v);
  Done (r, set_space s v).

(** The entries [unmap] removes. *)
Definition unmap_removes (r : VirtualRange) (s : AddressSpace) : list Entry :=
  if size r =? 0 then []
  else match @entryRange UnmapError debug s r with
       | Done (Some er) => removed_entries er (entries s)
       | _ => []
       end.

(** No fault is being handled. *)
Definition no_fault : FaultInfo := MkFaultInfo read 0 0 no_protection false false read_lock.

(** [AddressSpace.unmap]: the page table first, then the entries, then the pages of
    the maps that are gone.  The ranges are those flushed from the TLB. *)
Definition vm_unmap (alloc : bool) (r : VirtualRange) (v : VM A) : result UnmapError (VM A * list VirtualRange) :=
  '(s, removed) ← unmap debug alloc r (space v);
  match unmap_batches removed [] (page_table v) (allocator v) [] with
  | None => Panic
  | Some (t, flushed, a) =>
      match release_entries (unmap_removes r (space v)) [] (no_fault, set_table t a v) with
      | (Ok free_list, (_, v')) => Done (set_space s (set_allocator (deallocate free_list (allocator v')) v'), flushed)
      | _ => Panic
      end
  end.

(** [AddressSpace.changeProtection] of user memory. *)
Definition vm_changeProtection (alloc : bool) (r : VirtualRange) (change : ChangeProtection) (v : VM A) :
    result ChangeProtectionError (VM A * list VirtualRange) :=
  '(s, updates) ← changeProtection debug alloc r change (space v);
  match updates, new_protection (toRequest change) with
  | [], _ => Done (set_space s v, [])
  | _, Some p =>
      match protect_batches debug nx updates [] (MkMapType user p write_back) (page_table v) [] with
      | Some (t, flushed) => Done (set_space s (set_table t (allocator v) v), flushed)
      | None => Panic
      end
  | _, None => Panic
  end.

(** The physical address an instruction of the process reaches, if its page table
    has an entry that permits the access. *)
Definition physical (access : AccessType) (x : Z) (v : VM A) : option Z :=
  word ← translate (page_table v) x;
  if permits nx word access then Some (getAddress4kib word + x mod page) else None.

(** An instruction faults until it reaches memory; a fault that is not handled ends
    the thread.  [None] when the fuel is used up. *)
Fixpoint execute_access (fuel : nat) (access : AccessType) (x : Z) (v : VM A) : option (outcome Z * VM A) :=
  match fuel with
  | O => None
  | S fuel' =>
      match physical access x v with
      | Some a => Some (Ok a, v)
      | None =>
          match handlePageFault debug nx av 3 access x v with
          | Some (Ok _, v') => execute_access fuel' access x v'
          | Some (Err e, v') => Some (Err e, v')
          | Some (Trap, v') => Some (Trap, v')
          | None => None
          end
      end
  end.

Definition load (x : Z) (v : VM A) : option (outcome Z * VM A) :=
  '(r, v) ← execute_access 2 read x v;
  Some (match r with Ok a => Ok (memory v a) | Err e => Err e | Trap => Trap end, v).

Definition store (x byte : Z) (v : VM A) : option (outcome unit * VM A) :=
  '(r, v) ← execute_access 2 write x v;
  Some (match r with
        | Ok a => (Ok tt, set_memory (fun y => if y =? a then byte else memory v y) v)
        | Err e => (Err e, v)
        | Trap => (Trap, v)
        end).
End Operations.

(** ** Operations that keep what is behind every address *)

Lemma follow_slot n s s' i k p : maps_follow n s s' -> slot_at (anonymous_maps s') i k = Some p -> slot_at (anonymous_maps s) i k = Some p.
Proof.
  intros (Hm & _) Hs. unfold slot_at in *. destruct (anonymous_maps s' !! i) as [m'|] eqn:Ei; [|done].
  destruct (Hm i m' Ei) as (m & -> & <- & _). done.
Qed.

Lemma follow_slot_back n s s' i k : maps_follow n s s' -> is_Some (anonymous_maps s' !! i) ->
  slot_at (anonymous_maps s') i k = slot_at (anonymous_maps s) i k.
Proof.
  intros (Hm & _) [m' Ei]. unfold slot_at. rewrite Ei. destruct (Hm i m' Ei) as (m & -> & <- & _). done.
Qed.

Lemma anon_present s x i o : space_ok s -> anon_at (entries s) x i o -> is_Some (anonymous_maps s !! i).
Proof.
  intros (_ & _ & _ & _ & He & _) (e & off & Hin & _ & Ha & _). rewrite Forall_forall in He. destruct (He e Hin) as (_ & _ & _ & _ & H).
  rewrite Ha in H. apply H.
Qed.

Lemma follow_layout n s s' : layout_ok s -> space_ok s' -> space_range s' = space_range s -> maps_follow n s s' ->
  (forall x t, mapped (entries s') x t -> t.2 = 0) -> layout_ok s'.
Proof.
  intros [L1 L2 L3 L4 L5] Hs Hr (_ & M2 & M3 & _) Hw. split; [done|now rewrite Hr|auto|auto|done].
Qed.

Lemma follow_slots n s s' ps ps' : slots_ok (anonymous_maps s) ps -> maps_follow n s s' ->
  (forall i k p, slot_at (anonymous_maps s') i k = Some p -> ps' !! p = ps !! p) -> slots_ok (anonymous_maps s') ps'.
Proof.
  intros [S1 S2 S3 S4 S5] Hf Hp. pose proof Hf as (M1 & _ & _ & M4 & _). split; [| | | |auto].
  - intros i m' Hm. destruct (M1 i m' Hm) as (m & Hm0 & -> & _). now apply (S1 i).
  - intros i k p Hs. pose proof (S2 i k p (follow_slot n _ _ _ _ _ Hf Hs)) as Hk. apply slot_map in Hs as [m' Hm].
    destruct (M1 i m' Hm) as (m & Hm0 & _ & Hle). unfold pages_of in *. rewrite Hm, Hm0 in *. lia.
  - intros i k p Hs. rewrite (Hp i k p Hs). apply (S3 i k). now apply (follow_slot n s s').
  - intros i k j l p H1 H2. apply (S4 i k j l p); now apply (follow_slot n s s').
Qed.

(** New addresses of a map are beyond its pages. *)
Definition grows (s s' : AddressSpace) : Prop :=
  (forall x i o, anon_at (entries s) x i o -> anon_at (entries s') x i o) /\
  (forall x i o, anon_at (entries s') x i o ->
     anon_at (entries s) x i o \/ pages_of (anonymous_maps s) i * page <= o).

Lemma grows_backing n s s' ps : layout_ok s -> slots_ok (anonymous_maps s) ps -> space_ok s' -> maps_follow n s s' -> grows s s' ->
  forall x, backing s' x = backing s x.
Proof.
  intros Hl Hs Hs' Hf [G1 G2]. pose proof (layout_chain _ Hl) as Hc. pose proof Hs' as (_ & _ & _ & Hc' & _).
  apply (backing_same _ _ _ _ _ _ Hc Hc').
  - intros x i o p Ha Hp. specialize (G1 x i o Ha). split; [done|]. rewrite (follow_slot_back n s s'); [done|done|now apply (anon_present s' x i o)].
  - intros x i o p Ha Hp%(follow_slot n s s'); [|done]. split; [|done]. destruct (G2 x i o Ha) as [H|H]; [done|].
    apply (so_bound _ _ Hs) in Hp. pose proof (Z.mul_div_le o page ltac:(done)). pose proof (Z.mod_pos_bound o page ltac:(done)).
    pose proof (Z.div_mod o page ltac:(done)). unfold page in *. lia.
Qed.

(** The offset in the map is the offset in the page. *)
Lemma anon_offset s x i o : layout_ok s -> anon_at (entries s) x i o -> o mod page = x mod page.
Proof.
  intros Hl (e & off & Hin & _ & Ha & ->). pose proof (layout_entries _ Hl) as He. rewrite Forall_forall in He.
  destruct (He e Hin) as (A1 & _ & _ & _ & A5). rewrite Ha in A5. destruct A5 as (_ & A5 & _). unfold aligned in A1, A5. apply Z.eqb_eq in A1, A5.
  unfold page in *. pose proof (Z.div_mod off 4096 ltac:(done)). pose proof (Z.div_mod (address (range e)) 4096 ltac:(done)).
  replace (off + (x - address (range e))) with (x + (off / 4096 - address (range e) / 4096) * 4096) by lia. now rewrite Z.mod_add.
Qed.

Section Laws.
Context {A : Type} {alloc_ops : PageAllocator A} {laws : PageAllocatorLaws A}.
Variable debug nx : bool.
Variable av : Resources.

Lemma grows_content n (v v' : VM A) : vm_ok nx v -> space_ok (space v') -> maps_follow n (space v) (space v') -> grows (space v) (space v') ->
  anonymous_pages v' = anonymous_pages v -> memory v' = memory v -> forall x, content v' x = content v x.
Proof.
  intros Hv Hs Hf Hg Ep Em x. unfold content. now rewrite Ep, Em, (grows_backing n _ _ _ (vm_layout _ _ Hv) (vm_slots _ _ Hv) Hs Hf Hg).
Qed.

Lemma vm_map_ret alloc base n prot max v : vm_ok nx v -> 0 <= n -> base_ok (space v) base ->
  match vm_map alloc base n prot max v with
  | Done (r, v') => vm_ok nx v' /\ locks v' = locks v /\ map_done (space v) base n prot (default prot max) r (space v') /\
      (forall x, content v' x = content v x) /\ forall x, contains (VRange (address r) n) x -> content v' x = 0
  | Failed RequestedRangeUnavailable => unavailable (space v) base n
  | Failed MapOutOfMemory => alloc = false
  | Failed e => refuses base n prot max e
  | Panic => 2 ^ 64 <= default (after (space_range (space v))) base + n \/
      exists i, 2 ^ 32 * page <= weight (anonymous_maps (space v)) (entries (space v)) i + n
  end.
Proof.
  intros Hv Hn Hb. pose proof (vm_layout _ _ Hv) as Hl. pose proof (map_ret alloc base n prot max _ (lo_space _ Hl) Hn Hb) as H.
  unfold vm_map. destruct (map _ _ _ _ _ _) as [[r s']|e|]; unfold mbind, result_bind; [|exact H|exact H].
  destruct H as [H _]. pose proof H as (D1 & D2 & D3 & D4 & D5 & D6 & D7 & D8 & D9).
  assert (Hg : grows (space v) s') by done.
  assert (Hc : forall x, content (set_space s' v) x = content v x) by now apply (grows_content n).
  split; [|split; [done|]; split; [done|]; split; [done|]].
  - split.
    + apply (follow_layout n (space v)); [done..|]. intros x t [[_ ->]|Ht]%D6; [done|now apply (lo_wired _ Hl x)].
    + now apply (follow_slots n (space v) s' (anonymous_pages v)); [apply Hv|..].
    + apply Hv.
    + destruct (vm_table _ _ Hv) as [T1 T2]. split; [done|]. intros x word Hx Ht. destruct (T2 x word Hx Ht) as (t & p & ap & M1 & M2 & M3).
      exists t, p, ap. split; [apply D6; auto|]. split; [|done]. cbn [space set_space].
      now rewrite (grows_backing n _ _ _ Hl (vm_slots _ _ Hv) D1 D9 Hg).
  - intros x Hx. rewrite Hc. unfold content. destruct (backing (space v) x) as [p|] eqn:Eb; [|done].
    apply (backing_iff _ _ _ _ _ (layout_chain _ Hl)) in Eb as (i & o & (e & off & Hin & He & _) & _).
    destruct D3 as (_ & _ & Hcl). specialize (Hcl e Hin). unfold contains in *. lia.
Qed.

(** *** unmap *)

Lemma unmap_removes_split r s : exists l1 l2, entries s = l1 ++ unmap_removes debug r s ++ l2.
Proof.
  assert (Hs : forall n k, exists l1 l2, entries s = l1 ++ take n (drop k (entries s)) ++ l2).
  { intros n k. exists (take k (entries s)), (drop n (drop k (entries s))). now rewrite !take_drop. }
  unfold unmap_removes, removed_entries. destruct (size r =? 0); [apply (Hs 0%nat 0%nat)|].
  destruct (entryRange _ _ _) as [[er|]| |]; [|apply (Hs 0%nat 0%nat)..].
  destruct (isWithinSingleEntry er); [apply (Hs 0%nat 0%nat)|apply Hs].
Qed.

(** The maps that are left are those that a release of the removed entries leaves. *)
Lemma unmap_removes_maps alloc r s s' removed : space_ok s -> 0 <= address r -> 0 <= size r ->
  unmap debug alloc r s = Done (s', removed) ->
  forall i, is_Some (anonymous_maps s' !! i) <-> is_Some (release_all (unmap_removes debug r s) (anonymous_maps s) !! i).
Proof.
  intros Hs Ha Hr. unfold unmap, unmap_removes. destruct (negb (pageAligned r)); [done|].
  destruct (Z.eqb_spec (size r) 0) as [H0|H0]; [now intros [= <- <-]|].
  destruct (window_exists s r Hs Ha ltac:(lia)) as (pre & mid & post & Hw).
  pose proof (@entryRange_ret UnmapError debug s r pre mid post Hw ltac:(lia)) as He.
  destruct (entryRange debug s r) as [[er|]| |]; unfold mbind, result_bind; [|now intros [= <- <-]|done|done]. subst er.
  destruct (isWithinSingleEntry _ && negb alloc) eqn:Ea; [done|].
  destruct (isWithinSingleEntry _) eqn:Es.
  - unfold removed_entries. rewrite Es. unfold performUnmap. rewrite Es.
    destruct (entries s !! _) as [first|]; [|now intros [= <- <-]]. unfold split.
    destruct (anonymous_map first) as [[j off]|]; intros [= <- <-]; [|done]. cbn. intros i. unfold add_references.
    rewrite lookup_alter. case_decide; [subst; apply fmap_is_Some|done].
  - pose proof (performUnmap_maps (ERange (length pre) (length mid) (first_flag r mid) (last_flag r mid)) r (entries s) (anonymous_maps s) Es) as Hm.
    destruct (performUnmap _ _ _ _) as [es ms]. intros [= <- <-]. cbn [snd anonymous_maps] in *. rewrite Hm; [done|].
    cbn [start length_]. rewrite (w_entries _ _ _ _ _ Hw), !length_app. lia.
Qed.

Lemma frames_given_back ps t t' (a a' : A) : frames_ok (page_limit A) ps t (free_pages a) -> given_back t t' a a' -> frames_ok (page_limit A) ps t' (free_pages a').
Proof.
  intros [F1 F2 Fl F3 F4] (gone & P & G). rewrite (G F1 F2 Fl). pose proof F1 as Hn. rewrite <- P in Hn. apply NoDup_app in Hn as (N1 & N2 & N3).
  assert (Hp : forall f, f ∈ pages4 no_pages t <-> f ∈ pages4 no_pages t' \/ f ∈ gone) by (intros f; rewrite <- P; apply elem_of_app).
  split; [done| |intros f Hf; apply Fl, Hp; auto| |done].
  - intros f Hf. rewrite elem_of_union, elem_of_list_to_set. intros [H|H]; [now apply (F2 f); [apply Hp; auto|]|now apply (N2 f)].
  - intros p ap Ha. destruct (F3 p ap Ha) as (Q1 & Q2 & Q3). rewrite Hp in Q3. rewrite elem_of_union, elem_of_list_to_set. tauto.
Qed.

(** The page table and the entries without the range [r]. *)
Lemma unmapped_table s s' ps ps' pt t r removed fl fl' (a a' : A) : layout_ok s -> table_ok nx s ps pt -> after r <= 2 ^ 47 ->
  unmap_done s r s' removed -> batches_unmapped (address r) (after r) removed pt t fl fl' a a' ->
  (forall x i o p, anon_at (entries s') x i o -> slot_at (anonymous_maps s) i (o / page) = Some p -> ps' !! p = ps !! p) ->
  table_ok nx s' ps' t.
Proof.
  intros Hl [T1 T2] Hr (D1 & D2 & D3 & D4 & D5 & D6 & D7) [U1 U2 U3 U4 U5 U6] Hps. split; [done|]. intros x word Hx Ht.
  destruct (U2 x ltac:(lia)) as [E|[E _]]; rewrite Ht in E; [|done]. symmetry in E.
  destruct (T2 x word Hx E) as (t0 & p & ap & M1 & M2 & M3 & M4).
  assert (Hn : ~ contains r x).
  { intros Hc. destruct (proj2 (D5 x)) as (q & Hq & Hxq); [split; [done|eauto]|]. rewrite (U1 x) in Ht; [done|lia|now exists q]. }
  apply (backing_iff _ _ _ _ _ (layout_chain _ Hl)) in M2 as (i & o & Ha & Hs).
  assert (Ha' : anon_at (entries s') x i o) by now apply D4.
  exists t0, p, ap. split; [now apply D3|]. split; [|split; [now rewrite (Hps x i o p)|done]].
  pose proof D1 as (_ & _ & _ & Hc' & _). apply (backing_iff _ _ _ _ _ Hc'). exists i, o. split; [done|].
  rewrite (follow_slot_back 0 s s'); [done|done|now apply (anon_present s' x i o)].
Qed.

Lemma cleared_table s s' ps pt t r removed fl fl' (a a' : A) : table_ok nx s ps pt -> 0 <= address r /\ after r <= 2 ^ 47 ->
  unmap_done s r s' removed -> batches_unmapped (address r) (after r) removed pt t fl fl' a a' ->
  forall x, contains r x -> translate t x = None.
Proof.
  intros [T1 T2] Hr (D1 & D2 & D3 & D4 & D5 & D6 & D7) [U1 U2 U3 U4 U5 U6] x Hc. assert (Hx : 0 <= x < 2 ^ 47) by (unfold contains in Hc; lia).
  destruct (translate t x) as [word|] eqn:Ht; [|done].
  destruct (U2 x ltac:(lia)) as [E|[E _]]; rewrite Ht in E; [|done]. symmetry in E.
  destruct (T2 x word Hx E) as (t0 & p & ap & M1 & _).
  destruct (proj2 (D5 x)) as (q & Hq & Hxq); [split; [done|eauto]|]. rewrite (U1 x) in Ht; [done|lia|now exists q].
Qed.

Lemma unmapped_backing s s' r removed : layout_ok s -> unmap_done s r s' removed ->
  forall x, backing s' x = if decide (contains r x) then None else backing s x.
Proof.
  intros Hl (D1 & D2 & D3 & D4 & D5 & D6 & D7) x. pose proof D1 as (_ & _ & _ & Hc' & _). apply option_eq. intros p.
  rewrite (backing_iff _ _ _ _ _ Hc'). case_decide as Hx.
  - split; [|done]. intros (i & o & [_ H]%D4 & _). done.
  - rewrite (backing_iff _ _ _ _ _ (layout_chain _ Hl)). split; intros (i & o & Ha & Hs); exists i, o.
    + split; [now apply D4|now apply (follow_slot 0 s s')].
    + assert (Ha' : anon_at (entries s') x i o) by now apply D4. split; [done|].
      rewrite (follow_slot_back 0 s s'); [done|done|now apply (anon_present s' x i o)].
Qed.

(** What [unmap] leaves. *)
Record vm_unmapped (r : VirtualRange) (v v' : VM A) (flushed : list VirtualRange) : Prop := {
  vu_ok : vm_ok nx v';
  vu_locks : locks v' = no_locks;
  vu_range : space_range (space v') = space_range (space v);
  vu_weight : forall i, weight (anonymous_maps (space v')) (entries (space v')) i <= weight (anonymous_maps (space v)) (entries (space v)) i;
  vu_mapped : forall x t, mapped (entries (space v')) x t <-> mapped (entries (space v)) x t /\ ~ contains r x;
  vu_content : forall x, content v' x = if decide (contains r x) then 0 else content v x;
  vu_table : forall x, contains r x -> translate (page_table v') x = None;
  vu_flushed : forall x, contains r x -> is_Some (translate (page_table v) x) -> in_batch flushed x;
  vu_freed : forall i k p ap, slot_at (anonymous_maps (space v)) i k = Some p -> anonymous_pages v !! p = Some ap ->
    anonymous_maps (space v') !! i = None -> anonymous_pages v' !! p = None /\ physical_page ap ∈ free_pages (allocator v');
}.

Lemma release_ret r s ps t m (a : A) : space_ok s -> slots_ok (anonymous_maps s) ps -> frames_ok (page_limit A) ps t (free_pages a) ->
  let ms' := release_all (unmap_removes debug r s) (anonymous_maps s) in
  exists ps' fl, release_entries (unmap_removes debug r s) [] (no_fault, MkVM s ps t m a no_locks) =
      (Ok fl, (no_fault, MkVM (with_maps s ms') ps' t m a no_locks)) /\
    reclaimed (page_limit A) t (free_pages a) (anonymous_maps s) ps [] ms' ps' fl.
Proof.
  intros (_ & _ & _ & _ & _ & Hc) Hs Hf ms'. destruct (unmap_removes_split r s) as (l1 & l2 & El). rewrite El in Hc.
  assert (Hr : reclaiming (page_limit A) t (free_pages a) ps []) by (split; [cbn; now rewrite union_empty_r_L|constructor|intros f Hf'; now apply elem_of_nil in Hf'|intros f Hf'; now apply elem_of_nil in Hf']).
  pose proof (release_entries_runs t (free_pages a) (unmap_removes debug r s) l2 no_fault s ps m a t None false l1 []
    (fun r s' => exists ps' fl, r = Ok fl /\ s' = (no_fault, MkVM (with_maps s ms') ps' t m a no_locks) /\
       reclaimed (page_limit A) t (free_pages a) (anonymous_maps s) ps [] ms' ps' fl) Hc Hs Hr) as R.
  destruct R as (ps' & fl & R1 & R2 & R3); [intros ps' fl Hd; exists ps', fl; done|].
  exists ps', fl. split; [|done]. rewrite <- R1, <- R2. apply surjective_pairing.
Qed.

Lemma reclaimed_frames t (a : A) ms ps ms' ps' fl : reclaimed (page_limit A) t (free_pages a) ms ps [] ms' ps' fl ->
  frames_ok (page_limit A) ps' t (free_pages (deallocate fl a)) /\ free_pages (deallocate fl a) = free_pages a ∪ list_to_set fl.
Proof. intros [_ [G1 G2 G3 G4] _ _ _ _]. rewrite deallocate_free by done. done. Qed.

Lemma vm_unmap_ret alloc r v : vm_ok nx v -> locks v = no_locks -> 0 <= size r -> spans (address r) (after r) ->
  match vm_unmap debug alloc r v with
  | Done (v', flushed) => vm_unmapped r v v' flushed
  | Failed RangeNotPageAligned => pageAligned r = false
  | Failed UnmapOutOfMemory => alloc = false /\
      exists e, e ∈ entries (space v) /\ address (range e) < address r /\ after r < after (range e)
  | Panic => hole_panics debug (space v) r
  end.
Proof.
  intros Hv Hlk Hr Hsp. pose proof Hsp as (Sp1 & Sp2 & _). pose proof (vm_layout _ _ Hv) as Hl. pose proof (lo_space _ Hl) as Hs.
  pose proof (unmap_ret debug alloc r (space v) Hs Sp1 Hr) as Hu. unfold vm_unmap.
  destruct (unmap debug alloc r (space v)) as [[s' removed]|e|] eqn:Eu; unfold mbind, result_bind; [|exact Hu|destruct Hu; [lia|done]].
  pose proof Hu as (D1 & D2 & D3 & D4 & D5 & D6 & D7). destruct v as [s ps pt m a lk]. cbn [space locks page_table allocator] in *. subst lk.
  pose proof (vm_table _ _ Hv) as Ht. cbn [space page_table anonymous_pages] in Ht.
  destruct (unmap_batches_ret (address r) (after r) removed Hsp (address r) [] pt a []) as (t & fl & a' & -> & U);
    [lia|done|done|unfold after; lia|apply Ht|].
  cbn [app] in U. pose proof (frames_given_back _ _ _ _ _ (vm_frames _ _ Hv) (bu_pages _ _ _ _ _ _ _ _ _ U)) as Hf.
  unfold set_table. cbn [space anonymous_pages memory locks].
  destruct (release_ret r s ps t m a' Hs (vm_slots _ _ Hv) Hf) as (ps' & free_list & -> & Rc).
  unfold set_space, set_allocator. cbn [allocator space anonymous_pages page_table memory locks].
  pose proof (unmap_removes_maps alloc r s s' removed Hs Sp1 Hr Eu) as Hm. destruct (reclaimed_frames _ _ _ _ _ _ _ Rc) as [Hf' Ef].
  assert (Hps : forall i k p, is_Some (anonymous_maps s' !! i) -> slot_at (anonymous_maps s) i k = Some p -> ps' !! p = ps !! p).
  { intros i k p Hi. apply (rc_pages _ _ _ _ _ _ _ _ _ Rc). now apply Hm. }
  pose proof (unmapped_backing s s' r removed Hl Hu) as Hb. pose proof (cleared_table s s' ps pt t r removed [] fl a a' Ht ltac:(lia) Hu U) as Hcl.
  split; cbn [space locks page_table anonymous_pages allocator memory]; [|done|done|intros i; destruct D7 as (_ & _ & _ & _ & W); specialize (W i); lia|done| | | |].
  - split; cbn [space locks page_table anonymous_pages allocator memory].
    + apply (follow_layout 0 s); [done..|]. intros x t0 [Hx _]%D3. now apply (lo_wired _ Hl x).
    + apply (follow_slots 0 s s' ps); [apply Hv|done|]. intros i k p Hp. apply (Hps i k); [now apply (slot_map _ _ k p)|now apply (follow_slot 0 s s')].
    + exact Hf'.
    + apply (unmapped_table s s' ps ps' pt t r removed [] fl a a'); [done..|]. intros x i o p Hx. apply Hps. now apply (anon_present s' x i o).
  - intros x. unfold content. cbn [space locks page_table anonymous_pages allocator memory]. rewrite Hb. case_decide as Hx; [done|].
    destruct (backing s x) as [p|] eqn:Eb; [|done]. apply (backing_iff _ _ _ _ _ (layout_chain _ Hl)) in Eb as (i & o & Ha & Hsl).
    rewrite (Hps i (o / page) p); [done| |done]. apply (anon_present s' x i o D1), D4. done.
  - exact Hcl.
  - intros x Hx Hs0. apply (bu_flushed _ _ _ _ _ _ _ _ _ U); [unfold contains in Hx; lia|done|now apply Hcl].
  - intros i k p ap Hsl Hp Hn. destruct (rc_gone _ _ _ _ _ _ _ _ _ Rc i k p ap Hsl) as [G1 G2]; [|done|].
    + destruct (release_all _ _ !! i) eqn:E; [|done]. assert (is_Some (anonymous_maps s' !! i)) as [? Hi] by (apply Hm; eauto). congruence.
    + split; [done|]. rewrite Ef. set_solver.
Qed.

(** *** changeProtection *)

Lemma word_for_applied p q f word : word_for nx q f word -> word_for nx p f (applyMapType nx (MkMapType user p write_back) small word).
Proof.
  intros (W1 & W2 & W3 & W4). unfold word_for. rewrite applyMapType_address, !applyMapType_spec by done.
  split; [done|]. split; [done|]. split; [done|]. intros ->. done.
Qed.

(** The mappings of [s'] with the leaves of [t] after the protections of [r] changed. *)
Lemma protected_table s s' ps pt t r req p : table_ok nx s ps pt -> after r <= 2 ^ 47 -> new_protection req = Some p ->
  protections_changed r req (entries s) (entries s') -> (forall x, backing s' x = backing s x) -> plain4 t ->
  (forall x, 0 <= x < 2 ^ 47 -> contains r x -> is_Some (translate pt x) ->
     translate t x = applyMapType nx (MkMapType user p write_back) small <$> translate pt x) ->
  (forall x, 0 <= x < 2 ^ 47 -> ~ contains r x \/ translate pt x = None -> translate t x = translate pt x) ->
  table_ok nx s' ps t.
Proof.
  intros [T1 T2] Hr Hp Hm Hb Hpl Hin Hout. split; [done|]. intros x word Hx Ht.
  destruct (translate pt x) as [w0|] eqn:E.
  2: { rewrite Hout in Ht by auto. congruence. }
  destruct (T2 x w0 Hx E) as (t0 & q & ap & M1 & M2 & M3 & M4). destruct (contains_dec r x) as [Hc|Hc].
  - rewrite Hin in Ht by (rewrite ?E; eauto). rewrite E in Ht. injection Ht as <-.
    exists (changed req t0), q, ap. split; [apply Hm; eauto|]. rewrite Hb. split; [done|]. split; [done|].
    destruct t0 as [[[q0 m0] c0] w]. cbn in *. rewrite Hp. cbn. exact (word_for_applied _ _ _ _ M4).
  - rewrite Hout in Ht by auto. rewrite E in Ht. injection Ht as <-. exists t0, q, ap. split; [apply Hm; eauto|]. now rewrite Hb.
Qed.

Lemma unchanged_table s s' ps pt r req : table_ok nx s ps pt ->
  (forall x t, contains r x -> mapped (entries s) x t -> protection_of (changed req t) = protection_of t) ->
  protections_changed r req (entries s) (entries s') -> (forall x, backing s' x = backing s x) -> table_ok nx s' ps pt.
Proof.
  intros [T1 T2] Hp Hm Hb. split; [done|]. intros x word Hx Ht. destruct (T2 x word Hx Ht) as (t0 & q & ap & M1 & M2 & M3 & M4).
  destruct (contains_dec r x) as [Hc|Hc].
  - exists (changed req t0), q, ap. split; [apply Hm; eauto|]. now rewrite Hb, (Hp x t0).
  - exists t0, q, ap. split; [apply Hm; eauto|]. now rewrite Hb.
Qed.

Lemma leaves_frames limit ps pt t free f lo hi l : frames_ok limit ps pt free -> leaves_changed f lo hi l pt t -> frames_ok limit ps t free.
Proof.
  intros [F1 F2 Fl F3 F4] [_ _ P _]. split; [now rewrite P| |intros g; rewrite P; auto| |done].
  - intros g. rewrite P. auto.
  - intros p ap Hp. rewrite P. now apply (F3 p).
Qed.

Lemma view_backing v s' r req : vm_ok nx v -> protect_view (space v) r req s' -> forall x, backing s' x = backing (space v) x.
Proof.
  intros Hv (D1 & D2 & D3 & D4 & D5 & D6). apply (grows_backing 0 _ _ (anonymous_pages v)); [apply Hv|apply Hv|done|done|done].
Qed.

(** The address space and the page table after a change of protections. *)
Lemma protected_vm v v' r req : vm_ok nx v -> protect_view (space v) r req (space v') -> anonymous_pages v' = anonymous_pages v ->
  memory v' = memory v -> locks v' = locks v -> frames_ok (page_limit A) (anonymous_pages v') (page_table v') (free_pages (allocator v')) ->
  table_ok nx (space v') (anonymous_pages v') (page_table v') ->
  vm_ok nx v' /\ locks v' = locks v /\ protect_view (space v) r req (space v') /\ forall x, content v' x = content v x.
Proof.
  intros Hv Hview Ep Em El Hf Ht. pose proof Hview as (D1 & D2 & D3 & D4 & D5 & D6). pose proof (vm_layout _ _ Hv) as Hl.
  split; [|split; [done|]; split; [done|]; now apply (grows_content 0)]. split; [|rewrite Ep|done|done].
  - apply (follow_layout 0 (space v)); [done..|]. intros x t ([[[p m] c] w] & Hm & [[_ ->]|[_ ->]])%D3; pose proof (lo_wired _ Hl x _ Hm) as Hw; exact Hw.
  - now apply (follow_slots 0 (space v) (space v') (anonymous_pages v)); [apply Hv|..].
Qed.

Lemma protect_batches_none ranges u batch t done_ t' fl : debug = true ->
  protect_batches debug nx ranges (u :: batch) (MkMapType user no_protection write_back) t done_ <> Some (t', fl).
Proof.
  intros ->. revert u batch. induction ranges as [|q ranges IH]; intros u batch; cbn [protect_batches]; [done|].
  destruct (protect_append q (u :: batch)) as [batch'|] eqn:Ea; [|done]. destruct batch' as [|u' batch']; [|apply IH].
  unfold protect_append in Ea. destruct (last (u :: batch)) as [[l p]|]; [|done]. destruct (_ && _); [injection Ea as Ea; now apply app_nil in Ea as [_ ?]|].
  destruct (batch_full _); [done|]. now injection Ea.
Qed.

Lemma vm_changeProtection_ret alloc r change v : vm_ok nx v -> 0 <= size r -> spans (address r) (after r) ->
  let req := toRequest change in
  match vm_changeProtection debug nx alloc r change v with
  | Done (v', flushed) => vm_ok nx v' /\ locks v' = locks v /\ protect_view (space v) r req (space v') /\
      forall x, content v' x = content v x
  | Failed ChangeRangeNotPageAligned => pageAligned r = false
  | Failed ChangeMaxProtectionNone => new_max_protection req = Some no_protection
  | Failed MaxProtectionIncreased => exists e, (e ∈ entries (space v) /\ anyOverlap (range e) r = true) /\
      exceeds (max_protection (set_protections req e)) (max_protection e) = true
  | Failed ChangeMaxProtectionExceeded => exists e, (e ∈ entries (space v) /\ anyOverlap (range e) r = true) /\
      exceeds (protection (set_protections req e)) (max_protection (set_protections req e)) = true
  | Failed ChangeOutOfMemory => alloc = false
  | Panic => hole_panics debug (space v) r \/ count_overflows (anonymous_maps (space v)) (entries (space v)) \/
      joins_preceding (space v) r req \/ (debug = true /\ new_protection req = Some no_protection)
  end.
Proof.
  intros Hv Hr Hsp req. pose proof Hsp as (Sp1 & Sp2 & _). pose proof (vm_layout _ _ Hv) as Hl. pose proof (lo_space _ Hl) as Hs.
  pose proof (changeProtection_ret debug alloc r change (space v) Hs Sp1 Hr) as Hu. cbv zeta in Hu. fold req in Hu. unfold vm_changeProtection. fold req.
  destruct (AddressSpace.changeProtection debug alloc r change (space v)) as [[s' updates]|e|]; unfold mbind, result_bind; [|exact Hu|].
  2: { destruct Hu as [H|H]; [lia|tauto]. }
  destruct Hu as [Hview Hup]. pose proof Hview as (D1 & D2 & D3 & D4 & D5 & D6).
  destruct updates as [|u updates].
  { assert (table_ok nx s' (anonymous_pages v) (page_table v)).
    { apply (unchanged_table (space v) s' _ _ r req); [apply Hv| |done|now apply (view_backing v s' r req)].
      destruct Hup as [[_ H]|(_ & _ & H)]; [done|]. intros x t Hx Hm. exfalso. destruct (proj2 (H x (protection_of t))) as (q & Hq & _); [eauto|].
      now apply elem_of_nil in Hq. }
    apply (protected_vm v (set_space s' v) r req); [done..|apply Hv|done]. }
  destruct Hup as [[? _]|((p & Hp) & Hri & Hup)]; [done|]. rewrite Hp.
  destruct (debug && bool_decide (p = no_protection)) eqn:Ed.
  { apply andb_prop in Ed as [Ed Hd%bool_decide_eq_true]. subst p.
    cbn [protect_batches]. change (protect_append u []) with (Some [u]). cbv iota.
    destruct (protect_batches _ _ _ _ _ _ _) as [[t fl]|] eqn:Eb; [|tauto]. now apply protect_batches_none in Eb. }
  destruct (protect_batches_ret nx (MkMapType user p write_back) debug (address r) (after r) (u :: updates) Hsp Ed (address r) [] (page_table v) [])
    as (t & fl & -> & U); [lia|done|exact Hri|unfold after; lia|apply Hv|]. cbn [app fmap list_fmap] in U.
  apply (protected_vm v (set_space s' (set_table t (allocator v) v)) r req); [done|done|done|done|done|apply (leaves_frames _ _ _ _ _ _ _ _ _ (vm_frames _ _ Hv) U)|].
  apply (protected_table (space v) s' _ (page_table v) t r req p); [apply Hv|lia|done|done|now apply (view_backing v s' r req)|apply U| |].
  - intros x Hx Hc [w Hw]. apply (lc_in _ _ _ _ _ _ U); [lia|].
    destruct (tb_backed _ _ _ _ (vm_table _ _ Hv) x w Hx Hw) as (t0 & q & ap & M1 & _).
    destruct (proj2 (Hup x (protection_of t0))) as (g & Hg & Hxg); [eauto|]. exists g. split; [|done]. change (g ∈ (u :: updates).*1). apply list_elem_of_fmap. now exists (g, protection_of t0).
  - intros x Hx Ho. destruct (lc_cases _ _ _ _ _ _ U x ltac:(lia)) as [H|[H Hb]]; [done|]. destruct Ho as [Ho|Ho]; [unfold contains in Ho; lia|].
    now rewrite H, Ho.
Qed.

(** ** Loads and stores *)

Lemma mapped_page s x y t : layout_ok s -> same_page x y = true -> mapped (entries s) x t -> mapped (entries s) y t.
Proof.
  intros Hl Hs (e & Hin & Hx & Ht). exists e. split; [done|]. split; [|done].
  pose proof (layout_entries _ Hl) as He. rewrite Forall_forall in He. destruct (He e Hin) as (A1 & A2 & _).
  apply (same_page_contains _ x); [now apply andb_true_intro|done|done].
Qed.

Lemma mapped_unique s x t u : layout_ok s -> mapped (entries s) x t -> mapped (entries s) x u -> t = u.
Proof.
  intros Hl (e & [i Hi]%list_elem_of_lookup & Hx & <-) (e' & [i' Hi']%list_elem_of_lookup & Hx' & <-).
  now destruct (entry_unique _ _ _ _ _ _ _ _ (layout_chain _ Hl) Hi Hi' Hx Hx') as [_ ->].
Qed.

Lemma word_permits prot f word access : word_for nx prot f word -> allowed_by prot access = true -> permits nx word access = true.
Proof.
  intros (W1 & W2 & W3 & W4) Ha. unfold permits. rewrite W3. destruct access; cbn in *; [done|now rewrite W2|].
  destruct nx; [|done]. rewrite W4 by done. now rewrite Ha.
Qed.

(** The memory an instruction reaches. *)
Definition reaches (x a : Z) (v : VM A) : Prop := exists p ap, backing (space v) x = Some p /\ anonymous_pages v !! p = Some ap /\
  a = baseAddress (physical_page ap) + x mod page.

Lemma physical_reaches access x a v : vm_ok nx v -> 0 <= x < 2 ^ 47 -> physical nx access x v = Some a ->
  reaches x a v /\ exists t, mapped (entries (space v)) x t /\ (access = write -> p_write (protection_of t) = true).
Proof.
  intros Hv Hx. unfold physical. destruct (translate (page_table v) x) as [word|] eqn:Et; [|done]. cbn.
  destruct (permits nx word access) eqn:Ep; [|done]. intros [= <-].
  destruct (tb_backed _ _ _ _ (vm_table _ _ Hv) x word Hx Et) as (t & p & ap & M1 & M2 & M3 & (W1 & W2 & W3 & W4)).
  split; [exists p, ap; now rewrite W1|]. exists t. split; [done|]. intros ->. unfold permits in Ep. apply andb_prop in Ep as [_ Ep]. congruence.
Qed.

Lemma reaches_content x a v : reaches x a v -> memory v a = content v x.
Proof. intros (p & ap & Hb & Hp & ->). unfold content. now rewrite Hb, Hp. Qed.

(** What an instruction that accesses [x] does. *)
Definition access_result (access : AccessType) (x : Z) (v : VM A) (r : outcome Z) (v' : VM A) : Prop :=
  match r with
  | Ok a => vm_ok nx v' /\ locks v' = no_locks /\ same_memory v v' /\ reaches x a v' /\
      exists t, mapped (entries (space v)) x t /\ (access = write -> p_write (protection_of t) = true)
  | Err NotMapped => v' = v /\ forall t, ~ mapped (entries (space v)) x t
  | Err ProtectionViolation => v' = v /\ exists t, mapped (entries (space v)) x t /\ allowed_by (protection_of t) access = false
  | Err OutOfMemory => same_memory v v' /\
      (exists t, mapped (entries (space v)) x t /\ allowed_by (protection_of t) access = true) /\
      ((vm_ok nx v' /\ locks v' = no_locks) \/ (chunk_available av = false /\ locks v' <> no_locks)) /\
      (map_available av = false \/ page_available av = false \/ chunk_available av = false \/
       (base.size (free_pages (allocator v)) < 4)%nat)
  | Err Restart => False
  | Trap => exists e, e ∈ entries (space v) /\ contains (range e) x /\ 2 ^ 32 <= size (range e) / page
  end.

Lemma page_down x : 0 <= x < 2 ^ 47 -> 0 <= x / page * page < 2 ^ 47 /\ same_page (x / page * page) x = true.
Proof.
  intros Hx. split; [|apply same_page_down]. pose proof (Z.div_mod x page ltac:(done)). pose proof (Z.mod_pos_bound x page ltac:(done)).
  pose proof (Z.div_pos x page ltac:(lia) ltac:(done)). unfold page in *. lia.
Qed.

(** Two attempts are enough: the one that faults, and the one after the fault. *)
Lemma execute_access_ret access x v : vm_ok nx v -> locks v = no_locks -> 0 <= x < 2 ^ 47 ->
  exists r v', execute_access debug nx av 2 access x v = Some (r, v') /\ access_result access x v r v'.
Proof.
  intros Hv Hlk Hx. cbn [execute_access]. destruct (physical nx access x v) as [a|] eqn:Ep.
  { exists (Ok a), v. split; [done|]. destruct (physical_reaches access x a v Hv Hx Ep) as [R T].
    split; [done|]. split; [done|]. split; [apply same_memory_refl|done]. }
  destruct (handlePageFault_ret debug nx av v access x Hv Hlk Hx) as (r & v' & -> & Hr).
  destruct (page_down x Hx) as [Hd Hp]. set (b := x / page * page) in *.
  pose proof (vm_layout _ _ Hv) as Hl. rewrite same_page_sym in Hp.
  assert (Hm : forall t, mapped (entries (space v)) b t -> mapped (entries (space v)) x t).
  { intros t. apply (mapped_page (space v) b x t Hl). now rewrite same_page_sym. }
  assert (Ht : forall pt, translate pt b = translate pt x) by (intros pt; apply translate_page; [lia|lia|done]).
  destruct r as [[]|[]|].
  - destruct Hr as (V1 & V2 & V3 & _ & _ & word & W1 & W2). rewrite Ht in W1.
    assert (E : physical nx access x v' = Some (getAddress4kib word + x mod page)) by (unfold physical; rewrite W1; cbn; now rewrite W2).
    rewrite E. eexists _, _. split; [done|]. destruct (physical_reaches access x _ v' V1 Hx E) as [R (t & T1 & T2)].
    split; [done|]. split; [done|]. split; [done|]. split; [done|]. exists t. split; [now apply (sm_mapped _ _ V3)|done].
  - done.
  - eexists _, _. split; [done|]. destruct Hr as [R1 R2]. split; [done|]. intros t T. apply (R2 t). now apply (mapped_page (space v) x b).
  - eexists _, _. split; [done|]. destruct Hr as [R1 (t & T1 & T2)]. split; [done|]. exists t. auto.
  - eexists _, _. split; [done|]. destruct Hr as (R1 & (t & T1 & T2) & R3 & R4). split; [done|]. split; [exists t; auto|]. split; [done|].
    destruct R4 as [H|[H|[H|[H|H]]]]; [tauto|tauto|tauto|tauto|]. exfalso. rewrite Ht in H. destruct H as [word Hw].
    unfold physical in Ep. rewrite Hw in Ep. cbn in Ep.
    destruct (tb_backed _ _ _ _ (vm_table _ _ Hv) x word Hx Hw) as (t' & p & ap & M1 & _ & _ & M4).
    rewrite (mapped_unique _ _ _ _ Hl M1 (Hm t T1)) in M4. now rewrite (word_permits _ _ _ _ M4 T2) in Ep.
  - eexists _, _. split; [done|]. destruct Hr as (e & E1 & E2 & E3). exists e. split; [done|]. split; [|done].
    pose proof (layout_entries _ Hl) as He. rewrite Forall_forall in He. destruct (He e E1) as (A1 & A2 & _).
    apply (same_page_contains _ b); [now apply andb_true_intro|now rewrite same_page_sym|done].
Qed.

(** A load finds the byte of the process's memory. *)
Lemma load_ret x v : vm_ok nx v -> locks v = no_locks -> 0 <= x < 2 ^ 47 ->
  exists r v', load debug nx av x v = Some (r, v') /\
    match r with
    | Ok b => b = content v x /\ vm_ok nx v' /\ locks v' = no_locks /\ same_memory v v' /\ exists t, mapped (entries (space v)) x t
    | Err e => access_result read x v (Err e) v'
    | Trap => access_result read x v Trap v'
    end.
Proof.
  intros Hv Hlk Hx. unfold load. destruct (execute_access_ret read x v Hv Hlk Hx) as (r & v' & -> & Hr). cbn.
  eexists _, _. split; [done|]. destruct r as [a|e|]; [|done|done]. destruct Hr as (V1 & V2 & V3 & V4 & t & V5 & _).
  split; [|eauto]. rewrite (reaches_content x a v' V4). apply V3.
Qed.

(** Two addresses with the same memory are one address. *)
Lemma reaches_unique x y a v : vm_ok nx v -> reaches x a v -> reaches y a v -> x = y.
Proof.
  intros Hv (p & ap & Hb & Hp & ->) (q & aq & Hb' & Hq & E).
  assert (Hf : physical_page ap = physical_page aq) by (rewrite <- (base_page (physical_page ap) x), E; apply base_page).
  pose proof (fr_inj _ _ _ _ (vm_frames _ _ Hv) _ _ _ _ Hp Hq Hf) as ->. assert (Hm : x mod page = y mod page).
  { rewrite Hp in Hq. injection Hq as ->. unfold baseAddress in E. lia. }
  pose proof (vm_layout _ _ Hv) as Hl. pose proof (layout_chain _ Hl) as Hc.
  apply (backing_iff _ _ _ _ _ Hc) in Hb as (i & o & A1 & S1), Hb' as (j & u & A2 & S2).
  destruct (so_inj _ _ (vm_slots _ _ Hv) _ _ _ _ _ S1 S2) as [-> Ho]. apply (lo_inj _ Hl x y j o); [done|]. replace o with u; [done|].
  pose proof (anon_offset _ _ _ _ Hl A1) as O1. pose proof (anon_offset _ _ _ _ Hl A2) as O2.
  pose proof (Z.div_mod o page ltac:(done)). pose proof (Z.div_mod u page ltac:(done)). lia.
Qed.

Lemma written_content x a b v y : vm_ok nx v -> reaches x a v ->
  content (set_memory (fun z => if z =? a then b else memory v z) v) y = if y =? x then b else content v y.
Proof.
  intros Hv Hr. assert (Hy : forall z, reaches y z v -> (z =? a) = (y =? x)).
  { intros z Hz. destruct (Z.eqb_spec z a) as [->|Hne], (Z.eqb_spec y x) as [->|Hne']; [done| |exfalso|done].
    - now destruct (Hne' (reaches_unique y x a v Hv Hz Hr)).
    - destruct Hz as (p & ap & H1 & H2 & ->), Hr as (q & aq & H3 & H4 & ->). congruence. }
  unfold content. cbn [space set_memory anonymous_pages memory]. destruct (backing (space v) y) as [p|] eqn:Eb.
  - destruct (anonymous_pages v !! p) as [ap|] eqn:Ep; [now rewrite (Hy _ ltac:(now exists p, ap))|].
    destruct (Z.eqb_spec y x) as [->|]; [|done]. destruct Hr as (q & aq & H3 & H4 & _). congruence.
  - destruct (Z.eqb_spec y x) as [->|]; [|done]. destruct Hr as (q & aq & H3 & _). congruence.
Qed.

(** A store changes the byte of its address and no other. *)
Lemma store_ret x b v : vm_ok nx v -> locks v = no_locks -> 0 <= x < 2 ^ 47 ->
  exists r v', store debug nx av x b v = Some (r, v') /\
    match r with
    | Ok _ => vm_ok nx v' /\ locks v' = no_locks /\ space_range (space v') = space_range (space v) /\
        (forall i, weight (anonymous_maps (space v')) (entries (space v')) i <= weight (anonymous_maps (space v)) (entries (space v)) i) /\
        (forall y t, mapped (entries (space v')) y t <-> mapped (entries (space v)) y t) /\
        (forall y, content v' y = if y =? x then b else content v y) /\
        exists t, mapped (entries (space v)) x t /\ p_write (protection_of t) = true
    | Err e => access_result write x v (Err e) v'
    | Trap => access_result write x v Trap v'
    end.
Proof.
  intros Hv Hlk Hx. unfold store. destruct (execute_access_ret write x v Hv Hlk Hx) as (r & v' & -> & Hr). cbn.
  destruct r as [a|e|]; [|eexists _, _; split; [done|done]..]. eexists _, _. split; [done|].
  destruct Hr as (V1 & V2 & V3 & V4 & t & V5 & V6). split; [destruct V1; now split|]. split; [done|]. split; [apply V3|]. split; [apply V3|]. split; [apply V3|].
  split; [|eauto]. intros y. rewrite (written_content x a b v' y V1 V4). now rewrite (sm_content _ _ V3).
Qed.
End Laws.
