(* ===== verification/FlatMemory.v ===== *)
(** * What a process is promised

    The memory of a process as it is specified: for every address how it is mapped,
    and a byte, which is 0 until it is stored to.  Any sequence of [map], [unmap],
    [changeProtection], loads and stores answers as this memory does. *)

From stdpp Require Import gmap.
From S2P Require Import Prelude Machine AddressSpace AddressSpaceCorrect AddressSpaceProtect PageTable PageTableCorrect Paging PageFault PageFaultCorrect VirtualMemory FaultHandled Reclaim ProcessMemory.

(** ** The specification *)

Abbreviation Attributes := (Protection * Protection * bool * Z)%type.

Record Flat := MkFlat { flat_mapping : Z -> option Attributes; flat_byte : Z -> Z }.

(** Nothing changes. *)
Definition flat_same (f f' : Flat) : Prop :=
  (forall x, flat_mapping f' x = flat_mapping f x) /\ forall x, flat_byte f' x = flat_byte f x.

Inductive Op :=
  | OpMap (base : option Z) (size : Z) (prot : Protection) (max : option Protection)
  | OpUnmap (r : VirtualRange)
  | OpProtect (r : VirtualRange) (change : ChangeProtection)
  | OpLoad (x : Z)
  | OpStore (x byte : Z).

Inductive Answer :=
  | Mapped (r : VirtualRange) | Unmapped | Protected | Loaded (byte : Z) | Stored
  | Refused
  | Killed (e : FaultError)
  | Panicked.

(** What an operation may answer, and the memory after it.  A refusal and the end of
    a thread change nothing; a thread ends at an address that is not mapped, or not
    for the access, or for want of memory. *)
Inductive flat_step : Op -> Answer -> Flat -> Flat -> Prop :=
  | flat_map base n prot max r f f' :
      (forall x, contains (VRange (address r) n) x -> flat_mapping f x = None /\ flat_byte f' x = 0) ->
      (forall x, flat_mapping f' x = if decide (contains (VRange (address r) n) x) then Some (prot, default prot max, true, 0)
                                     else flat_mapping f x) ->
      (forall x, flat_byte f' x = flat_byte f x) ->
      match base with Some b => address r = b | None => True end ->
      flat_step (OpMap base n prot max) (Mapped r) f f'
  | flat_unmap r f f' :
      (forall x, flat_mapping f' x = if decide (contains r x) then None else flat_mapping f x) ->
      (forall x, flat_byte f' x = if decide (contains r x) then 0 else flat_byte f x) ->
      flat_step (OpUnmap r) Unmapped f f'
  | flat_protect r change f f' :
      (forall x, flat_mapping f' x = if decide (contains r x) then changed (toRequest change) <$> flat_mapping f x else flat_mapping f x) ->
      (forall x, flat_byte f' x = flat_byte f x) ->
      flat_step (OpProtect r change) Protected f f'
  | flat_load x f f' : is_Some (flat_mapping f x) -> flat_same f f' ->
      flat_step (OpLoad x) (Loaded (flat_byte f x)) f f'
  | flat_store x byte t f f' : flat_mapping f x = Some t -> p_write (protection_of t) = true ->
      (forall y, flat_mapping f' y = flat_mapping f y) ->
      (forall y, flat_byte f' y = if y =? x then byte else flat_byte f y) ->
      flat_step (OpStore x byte) Stored f f'
  | flat_refused op f f' : match op with OpLoad _ | OpStore _ _ => False | _ => True end -> flat_same f f' ->
      flat_step op Refused f f'
  | flat_killed op x access e f f' :
      match op with OpLoad y => y = x /\ access = read | OpStore y _ => y = x /\ access = write | _ => False end ->
      match e with
      | NotMapped => flat_mapping f x = None
      | ProtectionViolation => exists t, flat_mapping f x = Some t /\ allowed_by (protection_of t) access = false
      | OutOfMemory => exists t, flat_mapping f x = Some t /\ allowed_by (protection_of t) access = true
      | Restart => False
      end -> flat_same f f' -> flat_step op (Killed e) f f'.

(** The range has no mapping, but there is one above it. *)
Definition flat_hole (f : Flat) (r : VirtualRange) : Prop :=
  (forall x, contains r x -> flat_mapping f x = None) /\ exists y, after r <= y /\ is_Some (flat_mapping f y).

(** A mapping that starts in the range becomes like the one right before it. *)
Definition flat_joins (f : Flat) (r : VirtualRange) (change : ChangeProtection) : Prop :=
  exists x t, contains r x /\ flat_mapping f x = Some t /\ flat_mapping f (x - 1) = Some (changed (toRequest change) t).

(** When the kernel panics: a size that overflows an address, [unmap] and
    [changeProtection] of a hole, and the assertions of [changeProtection]. *)
Definition may_panic (debug : bool) (op : Op) (f : Flat) : Prop :=
  match op with
  | OpMap base n _ _ => 2 ^ 64 <= default (2 ^ 47) base + n
  | OpUnmap r => flat_hole f r
  | OpProtect r change => flat_hole f r \/ flat_joins f r change \/
      (debug = true /\ new_protection (toRequest change) = Some no_protection)
  | OpLoad _ | OpStore _ _ => False
  end.

(** A run, which a panic ends. *)
Inductive flat_run (debug : bool) : list Op -> list Answer -> Flat -> Flat -> Prop :=
  | flat_end f f' : flat_same f f' -> flat_run debug [] [] f f'
  | flat_cons op ops a answers f f1 f' : flat_step op a f f1 -> flat_run debug ops answers f1 f' ->
      flat_run debug (op :: ops) (a :: answers) f f'
  | flat_panic op ops f f' : may_panic debug op f -> flat_run debug (op :: ops) [Panicked] f f'.

(** ** The implementation *)

Section Run.
Context {A : Type} `{PageAllocator A}.
Variable debug nx : bool.

Definition run_op (alloc : bool) (av : Resources) (op : Op) (v : VM A) : option (Answer * VM A) :=
  match op with
  | OpMap base n prot max =>
      Some match vm_map alloc base n prot max v with
           | Done (r, v') => (Mapped r, v')
           | Failed _ => (Refused, v)
           | Panic => (Panicked, v)
           end
  | OpUnmap r =>
      Some match vm_unmap debug alloc r v with
           | Done (v', _) => (Unmapped, v')
           | Failed _ => (Refused, v)
           | Panic => (Panicked, v)
           end
  | OpProtect r change =>
      Some match vm_changeProtection debug nx alloc r change v with
           | Done (v', _) => (Protected, v')
           | Failed _ => (Refused, v)
           | Panic => (Panicked, v)
           end
  | OpLoad x =>
      '(r, v') ← load debug nx av x v;
      Some (match r with Ok b => Loaded b | Err e => Killed e | Trap => Panicked end, v')
  | OpStore x byte =>
      '(r, v') ← store debug nx av x byte v;
      Some (match r with Ok _ => Stored | Err e => Killed e | Trap => Panicked end, v')
  end.

(** Each operation with the memory the kernel's caches have for it. *)
Fixpoint run_ops (ops : list (bool * Resources * Op)) (v : VM A) : option (list Answer * VM A) :=
  match ops with
  | [] => Some ([], v)
  | (alloc, av, op) :: ops' =>
      '(a, v') ← run_op alloc av op v;
      match a with
      | Panicked => Some ([Panicked], v')
      | _ => '(answers, v'') ← run_ops ops' v'; Some (a :: answers, v'')
      end
  end.
End Run.

(** ** The memory of a process, as it is specified *)

Definition mapping_of (s : AddressSpace) (x : Z) : option Attributes :=
  ix ← entryIndexByAddress (entries s) x; attributes <$> entries s !! ix.

Definition flat_of {A} (v : VM A) : Flat := MkFlat (mapping_of (space v)) (content v).

Lemma mapping_of_iff lo s hi x t : chain lo (entries s) hi -> mapping_of s x = Some t <-> mapped (entries s) x t.
Proof.
  intros Hc. unfold mapping_of. pose proof (entryIndex_ret _ _ _ x Hc) as Hi. split.
  - destruct (entryIndexByAddress _ _) as [ix|]; [|done]. destruct Hi as (e & He & Hx). cbn. rewrite He. intros [= <-].
    exists e. split; [now apply (list_elem_of_lookup_2 _ ix)|done].
  - intros (e & [ix He]%list_elem_of_lookup & Hx & <-). rewrite (entryIndex_some _ _ _ x ix e Hc He Hx). cbn. now rewrite He.
Qed.

Lemma mapping_of_none lo s hi x : chain lo (entries s) hi -> mapping_of s x = None <-> forall t, ~ mapped (entries s) x t.
Proof.
  intros Hc. split.
  - intros Hn t Ht. apply (mapping_of_iff _ _ _ _ _ Hc) in Ht. congruence.
  - intros Hn. destruct (mapping_of s x) as [t|] eqn:E; [|done]. apply (mapping_of_iff _ _ _ _ _ Hc) in E. now destruct (Hn t).
Qed.

(** Mappings that agree as relations agree as functions. *)
Lemma mapping_of_ext lo s hi x o : chain lo (entries s) hi -> (forall t, mapped (entries s) x t <-> o = Some t) -> mapping_of s x = o.
Proof. intros Hc H. apply option_eq. intros t. rewrite (mapping_of_iff _ _ _ _ _ Hc). apply H. Qed.

(** ** The implementation behaves as specified *)

Section Refinement.
Context {A : Type} {alloc_ops : PageAllocator A} {laws : PageAllocatorLaws A}.
Variable debug nx : bool.

(** What the operations are given: addresses of the lower half, a range that is
    unmapped or protected spans at most 512 regions of 2 MiB, and a slot of an
    anonymous map can be allocated. *)
Definition op_ok (space_start : Z) (st : bool * Resources * Op) : Prop :=
  let '(_, av, op) := st in
  match op with
  | OpMap base n _ _ => 0 <= n /\ match base with Some b => space_start <= b | None => True end
  | OpUnmap r | OpProtect r _ => 0 <= size r /\ spans (address r) (after r)
  | OpLoad x | OpStore x _ => 0 <= x < 2 ^ 47 /\ chunk_available av = true
  end.

(** The pages the anonymous maps may get are those of at most [k] bytes. *)
Definition running (start k : Z) (v : VM A) : Prop := vm_ok nx v /\ locks v = no_locks /\ address (space_range (space v)) = start /\
  forall i, weight (anonymous_maps (space v)) (entries (space v)) i <= k.

(** The bytes an operation maps. *)
Definition mapped_bytes (op : Op) : Z := match op with OpMap _ n _ _ => n | _ => 0 end.

Lemma flat_same_memory (v v' : VM A) : vm_ok nx v -> layout_ok (space v') -> same_memory v v' -> flat_same (flat_of v) (flat_of v').
Proof.
  intros Hv Hl [S1 S2 S3]. split; [|exact S3]. intros x. cbn [flat_mapping flat_of]. apply (mapping_of_ext _ _ _ _ _ (layout_chain _ Hl)).
  intros t. rewrite S2. symmetry. apply (mapping_of_iff _ _ _ _ _ (layout_chain _ (vm_layout _ _ Hv))).
Qed.

Lemma flat_refl f : flat_same f f.
Proof. done. Qed.

(** An operation answers as specified, and the invariant holds after it, unless it
    panics. *)
Definition refines (start k : Z) (op : Op) (v : VM A) (a : Answer) (v' : VM A) : Prop :=
  (a = Panicked /\ may_panic debug op (flat_of v)) \/
  (a <> Panicked /\ running start (k + mapped_bytes op) v' /\ flat_step op a (flat_of v) (flat_of v')).

Lemma hole_flat v r : vm_ok nx v -> hole_panics debug (space v) r -> flat_hole (flat_of v) r.
Proof.
  intros Hv (Hc & (e & Hin & Ha) & _). pose proof (layout_chain _ (vm_layout _ _ Hv)) as Hch. split.
  - intros x Hx. cbn [flat_mapping flat_of]. apply (mapping_of_none _ _ _ _ Hch). intros t (e' & He' & Hx' & _).
    specialize (Hc e' He'). unfold contains in *. lia.
  - exists (address (range e)). split; [done|]. exists (attributes e). apply (mapping_of_iff _ _ _ _ _ Hch). exists e. split; [done|]. split; [|done].
    pose proof (layout_entries _ (vm_layout _ _ Hv)) as Hok. rewrite Forall_forall in Hok. destruct (Hok e Hin) as (_ & _ & Hz & _).
    unfold contains, after. lia.
Qed.

Lemma joins_flat v r change : vm_ok nx v -> joins_preceding (space v) r (toRequest change) -> flat_joins (flat_of v) r change.
Proof.
  intros Hv (p & e & Hp & He & Hpe & Hr & Ha). pose proof (layout_chain _ (vm_layout _ _ Hv)) as Hch.
  pose proof (layout_entries _ (vm_layout _ _ Hv)) as Hok. rewrite Forall_forall in Hok.
  destruct (Hok e He) as (_ & _ & Hze & _). destruct (Hok p Hp) as (_ & _ & Hzp & _). unfold after in *.
  exists (address (range e)), (attributes e). split; [done|]. split; apply (mapping_of_iff _ _ _ _ _ Hch).
  - exists e. split; [done|]. split; [unfold contains, after; lia|done].
  - exists p. split; [done|]. split; [unfold contains, after; lia|done].
Qed.

Lemma map_refines start k alloc base n prot max v : running start k v -> 0 <= n -> base_ok (space v) base -> k + n < 2 ^ 32 * page ->
  match vm_map alloc base n prot max v with
  | Done (r, v') => refines start k (OpMap base n prot max) v (Mapped r) v'
  | Failed _ => True
  | Panic => may_panic debug (OpMap base n prot max) (flat_of v)
  end.
Proof.
  intros (Hv & Hlk & Hst & Hw) Hn Hb Hk. pose proof (vm_map_ret nx alloc base n prot max v Hv Hn Hb) as H.
  destruct (vm_map _ _ _ _ _ _) as [[r v']|e|]; [|done|].
  2: { cbn. destruct H as [H|[i H]]; [|specialize (Hw i); lia]. pose proof (lo_range _ (vm_layout _ _ Hv)). destruct base; cbn in *; lia. }
  destruct H as (V1 & V2 & D & C1 & C2).
  pose proof D as (D1 & D2 & (_ & _ & D3) & D4 & D5 & D6 & _ & _ & _ & _ & _ & _ & Dw). right. split; [done|].
  pose proof (layout_chain _ (vm_layout _ _ V1)) as Hc'. pose proof (layout_chain _ (vm_layout _ _ Hv)) as Hc.
  split; [split; [done|]; split; [congruence|]; split; [congruence|]; intros i; specialize (Dw i); specialize (Hw i); cbn; lia|].
  assert (Hfree : forall x, contains (VRange (address r) n) x -> mapping_of (space v) x = None).
  { intros x Hx. apply (mapping_of_none _ _ _ _ Hc). intros t (e & Hin & He & _). specialize (D3 e Hin). unfold contains in *. lia. }
  apply flat_map; cbn [flat_mapping flat_byte flat_of]; [intros x Hx; split; [now apply Hfree|now apply C2]| |done|].
  - intros x. apply (mapping_of_ext _ _ _ _ _ Hc'). intros t. rewrite D6. case_decide as Hx.
    + split; [intros [[_ ->]|Ht]; [done|]|intros [= <-]; auto]. apply (mapping_of_iff _ _ _ _ _ Hc) in Ht. rewrite Hfree in Ht; done.
    + rewrite (mapping_of_iff _ _ _ _ _ Hc). split; [intros [[? _]|?]; done|auto].
  - destruct base; [|done]. cbn in D4. done.
Qed.

Lemma unmap_refines start k alloc r v : running start k v -> 0 <= size r -> spans (address r) (after r) ->
  match vm_unmap debug alloc r v with
  | Done (v', _) => refines start k (OpUnmap r) v Unmapped v'
  | Failed _ => True
  | Panic => may_panic debug (OpUnmap r) (flat_of v)
  end.
Proof.
  intros (Hv & Hlk & Hst & Hw) Hr Hsp. pose proof (vm_unmap_ret debug nx alloc r v Hv Hlk Hr Hsp) as H.
  destruct (vm_unmap _ _ _ _) as [[v' fl]|e|]; [|done|now apply hole_flat]. destruct H as [U1 U2 U3 Uw U4 U5 _ _ _]. right. split; [done|].
  pose proof (layout_chain _ (vm_layout _ _ U1)) as Hc'. pose proof (layout_chain _ (vm_layout _ _ Hv)) as Hc.
  split; [split; [done|]; split; [done|]; split; [congruence|]; intros i; specialize (Uw i); specialize (Hw i); cbn; lia|].
  apply flat_unmap; [|exact U5].
  intros x. cbn [flat_mapping flat_of]. apply (mapping_of_ext _ _ _ _ _ Hc'). intros t. rewrite U4. case_decide as Hx; [split; [now intros [_ ?]|done]|].
  rewrite (mapping_of_iff _ _ _ _ _ Hc). tauto.
Qed.

Lemma protect_refines start k alloc r change v : running start k v -> 0 <= size r -> spans (address r) (after r) -> k < 2 ^ 32 * page ->
  match vm_changeProtection debug nx alloc r change v with
  | Done (v', _) => refines start k (OpProtect r change) v Protected v'
  | Failed _ => True
  | Panic => may_panic debug (OpProtect r change) (flat_of v)
  end.
Proof.
  intros (Hv & Hlk & Hst & Hw) Hr Hsp Hk. pose proof (vm_changeProtection_ret debug nx alloc r change v Hv Hr Hsp) as H. cbv zeta in H.
  destruct (vm_changeProtection _ _ _ _ _ _) as [[v' fl]|e|]; [|done|].
  2: { destruct H as [H|[[i H]|[H|H]]]; [left; now apply hole_flat|specialize (Hw i); lia|right; left; now apply joins_flat|right; right; done]. }
  destruct H as (V1 & V2 & (D1 & D2 & D3 & _ & _ & _ & _ & _ & _ & Dw) & C). right. split; [done|].
  pose proof (layout_chain _ (vm_layout _ _ V1)) as Hc'. pose proof (layout_chain _ (vm_layout _ _ Hv)) as Hc.
  split; [split; [done|]; split; [congruence|]; split; [congruence|]; intros i; specialize (Dw i); specialize (Hw i); cbn; lia|].
  apply flat_protect; [|exact C].
  intros x. cbn [flat_mapping flat_of]. apply (mapping_of_ext _ _ _ _ _ Hc'). intros t. rewrite (D3 x t). case_decide as Hx.
  - split; [intros (t0 & Ht & [[_ ->]|[? _]]); [|done]; apply (mapping_of_iff _ _ _ _ _ Hc) in Ht; now rewrite Ht|].
    intros Ht. apply fmap_Some in Ht as (t0 & Ht & ->). apply (mapping_of_iff _ _ _ _ _ Hc) in Ht. exists t0. auto.
  - rewrite (mapping_of_iff _ _ _ _ _ Hc). split; [intros (t0 & Ht & [[? _]|[_ ->]]); done|]. intros Ht. exists t. auto.
Qed.

Lemma killed_refines start k av access x op e v v' : running start k v -> chunk_available av = true ->
  match op with OpLoad y => y = x /\ access = read | OpStore y _ => y = x /\ access = write | _ => False end ->
  access_result nx av access x v (Err e) v' -> refines start k op v (Killed e) v'.
Proof.
  intros Hrun Hav Hop Hr. assert (Hz : mapped_bytes op = 0) by now destruct op.
  pose proof Hrun as (Hv & Hlk & Hst & Hw). unfold refines. rewrite Hz, Z.add_0_r. pose proof (layout_chain _ (vm_layout _ _ Hv)) as Hc. right. split; [done|]. destruct e; cbn in Hr; [done| | |].
  - destruct Hr as [-> Hm]. split; [done|]. apply (flat_killed _ x access); [done| |done].
    now apply (mapping_of_none _ _ _ _ Hc).
  - destruct Hr as [-> (t & Ht & Ha)]. split; [done|]. apply (flat_killed _ x access); [done| |done].
    exists t. split; [now apply (mapping_of_iff _ _ _ _ _ Hc)|done].
  - destruct Hr as (S & (t & Ht & Ha) & [[V1 V2]|[H _]] & _); [|congruence].
    split; [split; [done|]; split; [done|]; split; [now rewrite (sm_range _ _ S)|]; intros i; pose proof (sm_weight _ _ S i); specialize (Hw i); lia|].
    apply (flat_killed _ x access); [done| |now apply flat_same_memory; [|apply V1|]].
    exists t. split; [now apply (mapping_of_iff _ _ _ _ _ Hc)|done].
Qed.

(** An entry of 2^32 pages is too large for the bytes that may be mapped. *)
Lemma entry_weight s e : space_ok s -> e ∈ entries s -> exists i, size (range e) <= weight (anonymous_maps s) (entries s) i.
Proof.
  intros (_ & _ & _ & _ & Hok & Hc) Hin. pose proof Hok as Hok'. rewrite Forall_forall in Hok'. destruct (Hok' e Hin) as (_ & _ & Hz & _ & Ha).
  assert (Hpos : Forall (fun e => 0 < size (range e)) (entries s)) by (eapply Forall_impl; [exact Hok|]; now intros e' (_ & _ & H & _)).
  destruct (anonymous_map e) as [[i off]|] eqn:Em.
  - exists i. destruct Ha as (H1 & _ & _ & H2). pose proof (untouched_nonneg _ Hpos). unfold weight. lia.
  - exists 0%nat. pose proof (pages_nonneg _ _ 0%nat Hok Hc). apply list_elem_of_split in Hin as (l1 & l2 & E). unfold weight. rewrite E in *.
    rewrite untouched_app, untouched_cons. unfold untouched_size at 1. rewrite Em. rewrite Forall_app, Forall_cons in Hpos. destruct Hpos as (P1 & _ & P2).
    pose proof (untouched_nonneg _ P1). pose proof (untouched_nonneg _ P2). unfold page in *. lia.
Qed.

Lemma no_trap start k av access x v v' : running start k v -> k < 2 ^ 32 * page -> ~ access_result nx av access x v Trap v'.
Proof.
  intros (Hv & _ & _ & Hw) Hk (e & Hin & _ & Hs). destruct (entry_weight (space v) e (lo_space _ (vm_layout _ _ Hv)) Hin) as [i Hi].
  specialize (Hw i). pose proof (Z.mul_div_le (size (range e)) page ltac:(done)). unfold page in *. lia.
Qed.

Lemma run_op_refines start k alloc av op v : running start k v -> op_ok start (alloc, av, op) -> k + mapped_bytes op < 2 ^ 32 * page ->
  exists a v', run_op debug nx alloc av op v = Some (a, v') /\ refines start k op v a v'.
Proof.
  intros Hv Hop Hk. pose proof Hv as (Hok & Hlk & Hst & Hw). pose proof (layout_chain _ (vm_layout _ _ Hok)) as Hc.
  assert (Href : match op with OpLoad _ | OpStore _ _ => False | _ => True end -> refines start k op v Refused v).
  { intros H. right. split; [done|]. split; [|now apply flat_refused]. split; [done|]. split; [done|]. split; [done|].
    intros i. specialize (Hw i). destruct op; cbn in *; lia. }
  destruct op as [base n prot max|r|r change|x|x b]; cbn [run_op]; cbn in Hop.
  - destruct Hop as [Hn Hb]. assert (Hb' : base_ok (space v) base) by (unfold base_ok; destruct base; [lia|done]).
    pose proof (map_refines start k alloc base n prot max v Hv Hn Hb' Hk) as H.
    destruct (vm_map _ _ _ _ _ _) as [[r v']|e|]; eexists _, _; (split; [done|]); [done|now apply Href|now left].
  - destruct Hop as [Hr Hsp]. pose proof (unmap_refines start k alloc r v Hv Hr Hsp) as H.
    destruct (vm_unmap _ _ _ _) as [[v' fl]|e|]; eexists _, _; (split; [done|]); [done|now apply Href|now left].
  - destruct Hop as [Hr Hsp]. pose proof (protect_refines start k alloc r change v Hv Hr Hsp ltac:(cbn in Hk; lia)) as H.
    destruct (vm_changeProtection _ _ _ _ _ _) as [[v' fl]|e|]; eexists _, _; (split; [done|]); [done|now apply Href|now left].
  - destruct Hop as [Hx Hav]. destruct (load_ret debug nx av x v Hok Hlk Hx) as (r & v' & -> & Hr). eexists _, _. split; [done|].
    destruct r as [b|e|]; [|now apply (killed_refines start k av read x)|destruct (no_trap start k av read x v v' Hv ltac:(cbn in Hk; lia) Hr)].
    destruct Hr as (-> & V1 & V2 & V3 & t & Ht). right. split; [done|].
    split; [split; [done|]; split; [done|]; split; [now rewrite (sm_range _ _ V3)|]; intros i; pose proof (sm_weight _ _ V3 i); specialize (Hw i); cbn; lia|].
    apply (flat_load x (flat_of v)); [|now apply flat_same_memory; [|apply V1|]]. exists t. now apply (mapping_of_iff _ _ _ _ _ Hc).
  - destruct Hop as [Hx Hav]. destruct (store_ret debug nx av x b v Hok Hlk Hx) as (r & v' & -> & Hr). eexists _, _. split; [done|].
    destruct r as [[]|e|]; [|now apply (killed_refines start k av write x)|destruct (no_trap start k av write x v v' Hv ltac:(cbn in Hk; lia) Hr)].
    destruct Hr as (V1 & V2 & V3 & Vw & V4 & V5 & t & Ht & Hwr). right. split; [done|].
    split; [split; [done|]; split; [done|]; split; [now rewrite V3|]; intros i; specialize (Vw i); specialize (Hw i); cbn; lia|].
    apply (flat_store x b t); [now apply (mapping_of_iff _ _ _ _ _ Hc)|done| |exact V5].
    intros y. cbn [flat_mapping flat_of]. apply (mapping_of_ext _ _ _ _ _ (layout_chain _ (vm_layout _ _ V1))). intros u.
    rewrite V4. symmetry. apply (mapping_of_iff _ _ _ _ _ Hc).
Qed.

(** The bytes a sequence of operations maps. *)
Definition total_mapped (ops : list Op) : Z := foldr (fun op n => mapped_bytes op + n) 0 ops.

Lemma total_mapped_nonneg start ops : Forall (op_ok start) ops -> 0 <= total_mapped ops.*2.
Proof.
  induction 1 as [|[[alloc av] op] ops Hop _ IH]; [done|]. rewrite fmap_cons. cbn [total_mapped foldr snd].
  fold (total_mapped ops.*2). destruct op; cbn in Hop |- *; lia.
Qed.

Lemma run_ops_refines start ops : forall k v, running start k v -> Forall (op_ok start) ops -> k + total_mapped ops.*2 < 2 ^ 32 * page ->
  exists answers v', run_ops debug nx ops v = Some (answers, v') /\ flat_run debug ops.*2 answers (flat_of v) (flat_of v') /\
    (Panicked ∉ answers -> running start (k + total_mapped ops.*2) v').
Proof.
  induction ops as [|[[alloc av] op] ops IH]; intros k v Hv Hops Hk; cbn [run_ops].
  - exists [], v. split; [done|]. split; [now constructor|]. intros _. cbn. now rewrite Z.add_0_r.
  - apply Forall_cons in Hops as [Hop Hops]. pose proof (total_mapped_nonneg start ops Hops). rewrite fmap_cons in *. cbn [total_mapped foldr snd] in *.
    fold (total_mapped ops.*2) in *.
    destruct (run_op_refines start k alloc av op v Hv Hop ltac:(lia)) as (a & v1 & -> & [[-> Hp]|(Ha & Hv1 & Hs)]).
    + exists [Panicked], v1. split; [done|]. split; [now apply flat_panic|]. intros []. now left.
    + rewrite Z.add_assoc in Hk. rewrite Z.add_assoc. destruct (IH _ v1 Hv1 Hops Hk) as (answers & v' & E & Hr & Hrun). exists (a :: answers), v'. unfold mbind, option_bind. rewrite E.
      split; [now destruct a|]. split; [now apply (flat_cons _ _ _ _ _ _ (flat_of v1))|]. rewrite not_elem_of_cons. tauto.
Qed.
End Refinement.
