(* ===== verification/Buddy.v ===== *)
(** * The allocator of physical pages

    [src/src/innigkeit/memory/page/BuddyAllocator.zig], with the array of page
    descriptors of [PhysicalPage.zig], and the part of [init.zig] that hands the
    memory of the machine to the allocator.

    A free block of [2 ^ order] pages is known by its first page, whose descriptor
    has [is_free] and the order, and is a node of the doubly linked list of its
    order.  The links are page numbers in the descriptors.  A descriptor outside
    the array, a counter that leaves 32 bits and a double free are [Panic]. *)

From stdpp Require Import gmap.
From S2P Require Import Prelude Machine AddressSpace PageTable.

(** [PhysicalPage] *)
Record PageDescriptor := MkDescriptor {
  next_node : option Z;
  prev_node : option Z;
  free_order : nat;
  is_free : bool
}.

Definition max_order : nat := 10.
Definition num_orders : nat := 11.
Definition block_pages (order : nat) : Z := Z.shiftl 1 (Z.of_nat order).

(** The array of descriptors, the lists and the counts of the orders, and the bytes
    of the physical memory. *)
Record Buddy := MkBuddy {
  descriptors : gmap Z PageDescriptor;
  free_lists : list (option Z);
  nr_free : list Z;
  ram : Z -> Z
}.

Inductive AllocateError := NoPages.

#[local] Abbreviation BuddyResult := (result AllocateError).

(** ** Descriptors *)

Definition with_next (n : option Z) (p : PageDescriptor) : PageDescriptor := MkDescriptor n (prev_node p) (free_order p) (is_free p).
Definition with_prev (n : option Z) (p : PageDescriptor) : PageDescriptor := MkDescriptor (next_node p) n (free_order p) (is_free p).
Definition with_free (b : bool) (p : PageDescriptor) : PageDescriptor := MkDescriptor (next_node p) (prev_node p) (free_order p) b.
Definition with_order (o : nat) (p : PageDescriptor) : PageDescriptor := MkDescriptor (next_node p) (prev_node p) o (is_free p).

Abbreviation Descriptors := (gmap Z PageDescriptor).

(** [fromIndex], to read a descriptor and to change it. *)
Definition descriptor (ds : Descriptors) (i : Z) : BuddyResult PageDescriptor :=
  match ds !! i with Some p => Done p | None => Panic end.
Definition change (i : Z) (f : PageDescriptor -> PageDescriptor) (ds : Descriptors) : BuddyResult Descriptors :=
  p ← descriptor ds i; Done (<[i := f p]> ds).
Definition change_some (o : option Z) (f : PageDescriptor -> PageDescriptor) (ds : Descriptors) : BuddyResult Descriptors :=
  match o with Some i => change i f ds | None => Done ds end.

(** ** FreeList *)

Definition list_prepend (first : option Z) (index : Z) (ds : Descriptors) : BuddyResult (option Z * Descriptors) :=
  ds ← change index (fun p => with_prev None (with_next first p)) ds;
  ds ← change_some first (with_prev (Some index)) ds;
  Done (Some index, ds).

Definition list_popFirst (first : option Z) (ds : Descriptors) : BuddyResult (option Z * option Z * Descriptors) :=
  match first with
  | None => Done (None, None, ds)
  | Some idx =>
      p ← descriptor ds idx;
      let first := next_node p in
      ds ← change_some first (with_prev None) ds;
      ds ← change idx (fun p => with_prev None (with_next None p)) ds;
      Done (Some idx, first, ds)
  end.

Definition list_remove (first : option Z) (index : Z) (ds : Descriptors) : BuddyResult (option Z * Descriptors) :=
  p ← descriptor ds index;
  let prev := prev_node p in
  let next := next_node p in
  ds ← change_some prev (with_next next) ds;
  let first := match prev with Some _ => first | None => next end in
  ds ← change_some next (with_prev prev) ds;
  ds ← change index (fun p => with_prev None (with_next None p)) ds;
  Done (first, ds).

(** ** The allocator *)

Definition list_of (o : nat) (b : Buddy) : option Z := default None (free_lists b !! o).

Definition set_list (o : nat) (first : option Z) (ds : Descriptors) (b : Buddy) : Buddy :=
  MkBuddy ds (<[o := first]> (free_lists b)) (nr_free b) (ram b).

(** A counter of 32 bits. *)
Definition add_count (o : nat) (n : Z) (b : Buddy) : BuddyResult Buddy :=
  match nr_free b !! o with
  | Some c =>
      if (0 <=? c + n) && (c + n <? 2 ^ 32) then Done (MkBuddy (descriptors b) (free_lists b) (<[o := c + n]> (nr_free b)) (ram b))
      else Panic
  | None => Panic
  end.

Definition set_descriptor (i : Z) (f : PageDescriptor -> PageDescriptor) (b : Buddy) : BuddyResult Buddy :=
  ds ← change i f (descriptors b); Done (MkBuddy ds (free_lists b) (nr_free b) (ram b)).

(** A block is put on the list of its order: the end of [freeLocked], the halves of
    [allocLocked], and [addBlock]. *)
Definition addBlock (index : Z) (order : nat) (b : Buddy) : BuddyResult Buddy :=
  b ← set_descriptor index (fun p => with_order order (with_free true p)) b;
  '(first, ds) ← list_prepend (list_of order b) index (descriptors b);
  add_count order 1 (set_list order first ds b).

(** [zeroBlock]: the bytes of the block. *)
Definition zeroBlock (index : Z) (order : nat) (b : Buddy) : Buddy :=
  MkBuddy (descriptors b) (free_lists b) (nr_free b)
    (fun a => if (baseAddress index <=? a) && (a <? baseAddress (index + block_pages order)) then 0 else ram b a).

(** The smallest order from [avail] on that has a block. *)
Fixpoint find_order (fuel avail : nat) (b : Buddy) : option nat :=
  match fuel with
  | O => None
  | S fuel' =>
      if (avail <=? max_order)%nat then
        match list_of avail b with Some _ => Some avail | None => find_order fuel' (S avail) b end
      else None
  end.

(** The split down from [cur_order], [n] times. *)
Fixpoint split_block (n : nat) (block : Z) (cur_order : nat) (b : Buddy) : BuddyResult Buddy :=
  match n with
  | O => Done b
  | S n' =>
      let cur_order := (cur_order - 1)%nat in
      b ← addBlock (block + block_pages cur_order) cur_order b;
      split_block n' block cur_order b
  end.

Definition allocLocked (order : nat) (b : Buddy) : BuddyResult (Z * Buddy) :=
  match find_order (S num_orders) order b with
  | None => Failed NoPages
  | Some avail =>
      '(popped, first, ds) ← list_popFirst (list_of avail b) (descriptors b);
      match popped with
      | None => Panic
      | Some block =>
          b ← add_count avail (-1) (set_list avail first ds b);
          b ← set_descriptor block (with_free false) b;
          b ← split_block (avail - order) block avail b;
          Done (block, zeroBlock block order b)
      end
  end.

(** The buddy of a block. *)
Definition buddy_of (index : Z) (order : nat) : Z := Z.lxor index (block_pages order).

(** The block grows while its buddy is free. *)
Fixpoint coalesce (fuel : nat) (cur_order : nat) (cur_idx : Z) (b : Buddy) : BuddyResult (nat * Z * Buddy) :=
  match fuel with
  | O => Done (cur_order, cur_idx, b)
  | S fuel' =>
      if (cur_order <? max_order)%nat then
        let buddy := buddy_of cur_idx cur_order in
        buddy_page ← descriptor (descriptors b) buddy;
        if negb (is_free buddy_page) || negb (free_order buddy_page =? cur_order)%nat then Done (cur_order, cur_idx, b)
        else
          '(first, ds) ← list_remove (list_of cur_order b) buddy (descriptors b);
          b ← add_count cur_order (-1) (set_list cur_order first ds b);
          b ← set_descriptor buddy (with_free false) b;
          coalesce fuel' (S cur_order) (Z.min cur_idx buddy) b
      else Done (cur_order, cur_idx, b)
  end.

Definition freeLocked (index : Z) (order : nat) (b : Buddy) : BuddyResult Buddy :=
  p ← descriptor (descriptors b) index;
  if is_free p then Panic
  else
    '(cur_order, cur_idx, b) ← coalesce num_orders order index (zeroBlock index order b);
    addBlock cur_idx cur_order b.

Definition totalFreePages (b : Buddy) : Z := foldr Z.add 0 (zip_with (fun c o => Z.shiftl c (Z.of_nat o)) (nr_free b) (seq 0 num_orders)).

(** ** PhysicalPage: one page at a time *)

(** [List]: pages linked by [next_node]. *)
Record PageList := MkPageList { first_index : option Z; last_index : option Z; list_count : Z }.

Definition pageList_prepend (index : Z) (l : PageList) (ds : Descriptors) : BuddyResult (PageList * Descriptors) :=
  ds ← change index (with_next (first_index l)) ds;
  Done (MkPageList (Some index) (match last_index l with Some e => Some e | None => Some index end) (list_count l + 1), ds).

(** The allocator and the number of free bytes, a 64-bit counter. *)
Record PhysicalMemory := MkPhysical { buddy : Buddy; free_memory : Z }.

(** A debug build fills the page with [0xAA]. *)
Definition fill_page (index : Z) (b : Buddy) : Buddy :=
  MkBuddy (descriptors b) (free_lists b) (nr_free b)
    (fun a => if (baseAddress index <=? a) && (a <? baseAddress (index + 1)) then 170 else ram b a).

Definition physical_allocate (debug : bool) (m : PhysicalMemory) : BuddyResult (Z * PhysicalMemory) :=
  '(index, b) ← allocLocked 0 (buddy m);
  Done (index, MkPhysical (if debug then fill_page index b else b) ((free_memory m - page) mod 2 ^ 64)).

(** The loop of [deallocate] over the pages of a list; the fuel is their number. *)
Fixpoint deallocate_pages_from (fuel : nat) (it : option Z) (b : Buddy) : BuddyResult Buddy :=
  match it, fuel with
  | None, _ => Done b
  | Some _, O => Panic
  | Some i, S fuel' =>
      p ← descriptor (descriptors b) i;
      b ← set_descriptor i (fun p => with_prev None (with_next None p)) b;
      b ← freeLocked i 0 b;
      deallocate_pages_from fuel' (next_node p) b
  end.

Definition physical_deallocate (l : PageList) (m : PhysicalMemory) : BuddyResult PhysicalMemory :=
  if list_count l =? 0 then Done m
  else
    b ← deallocate_pages_from (Z.to_nat (list_count l)) (first_index l) (buddy m);
    Done (MkPhysical b ((free_memory m + page * list_count l) mod 2 ^ 64)).

(** [allocateContiguous] and [freeContiguous] *)
Definition allocateContiguous (order : nat) (m : PhysicalMemory) : BuddyResult (Z * PhysicalMemory) :=
  '(index, b) ← allocLocked order (buddy m);
  Done (index, MkPhysical b ((free_memory m - page * block_pages order) mod 2 ^ 64)).

Definition freeContiguous (index : Z) (order : nat) (m : PhysicalMemory) : BuddyResult PhysicalMemory :=
  b ← freeLocked index order (buddy m);
  Done (MkPhysical b ((free_memory m + page * block_pages order) mod 2 ^ 64)).

(** ** Handing the memory to the allocator *)

(** The highest order, from [order] down, of a block that starts at [current], is
    aligned and ends by [end_index]. *)
Fixpoint largest_order (current end_index : Z) (order : nat) : nat :=
  match order with
  | O => O
  | S order' =>
      if negb (Z.land current (block_pages order - 1) =? 0) then largest_order current end_index order'
      else if end_index <? current + block_pages order then largest_order current end_index order'
      else order
  end.

(** The loop of [initializePhysicalMemory] over the free pages of a region; the fuel
    is their number. *)
Fixpoint add_region (fuel : nat) (current end_index : Z) (b : Buddy) : BuddyResult Buddy :=
  if current <? end_index then
    match fuel with
    | O => Panic
    | S fuel' =>
        let order := largest_order current end_index max_order in
        b ← addBlock current order b;
        add_region fuel' (current + block_pages order) end_index b
    end
  else Done b.

Fixpoint add_regions (regions : list (Z * Z)) (b : Buddy) : BuddyResult Buddy :=
  match regions with
  | [] => Done b
  | (first_free, end_index) :: regions' =>
      b ← add_region (Z.to_nat (end_index - first_free)) first_free end_index b;
      add_regions regions' b
  end.

(** The descriptors of [n] pages and an allocator without memory.  The code clears
    the descriptors of usable memory, but for the last page of each of its ranges;
    the others are taken to be clear as well. *)
Definition empty_buddy (n : Z) (m : Z -> Z) : Buddy :=
  MkBuddy (list_to_map ((fun i => (i, MkDescriptor None None 0 false)) <$> seqZ 0 n))
    (replicate num_orders None) (replicate num_orders 0) m.

(** The regions of free pages, each from its first free page up to its end. *)
Definition initializePhysicalMemory (n : Z) (regions : list (Z * Z)) (m : Z -> Z) : BuddyResult PhysicalMemory :=
  b ← add_regions regions (empty_buddy n m);
  Done (MkPhysical b (foldr (fun r s => page * (r.2 - r.1) + s) 0 regions)).

(** ** The pages that are free *)

Definition blocks_of (b : Buddy) (o : nat) : list Z :=
  omap (fun ip : Z * PageDescriptor => if is_free ip.2 && (free_order ip.2 =? o)%nat then Some ip.1 else None) (map_to_list (descriptors b)).

Definition free_page_list (b : Buddy) : list Z :=
  seq 0 num_orders ≫= fun o => blocks_of b o ≫= fun i => seqZ i (block_pages o).

Definition free_set (b : Buddy) : gset Z := list_to_set (free_page_list b).
