(* ===== verification/BuddyCorrect.v ===== *)
(** * The allocator hands out every page once

    The invariant of the buddy allocator, and what it does to the set of free
    pages: an allocation takes an aligned block out of it, a free puts one back,
    whatever is split or merged on the way. *)

From stdpp Require Import gmap.
From S2P Require Import Prelude Machine AddressSpace PageTable Buddy.

(** ** Doubly linked lists in the descriptors *)

(** [l] is linked from [first], its first node points back to [prev]. *)
Fixpoint linked (ds : Descriptors) (prev first : option Z) (l : list Z) : Prop :=
  match l with
  | [] => first = None
  | x :: l' => first = Some x /\ exists p, ds !! x = Some p /\ prev_node p = prev /\ linked ds (Some x) (next_node p) l'
  end.

(** The descriptors differ only in the links, and only of the pages of [l]. *)
Definition relinked (l : list Z) (ds ds' : Descriptors) : Prop := forall i,
  (i ∉ l -> ds' !! i = ds !! i) /\
  match ds !! i, ds' !! i with
  | Some p, Some p' => free_order p' = free_order p /\ is_free p' = is_free p
  | None, None => True
  | _, _ => False
  end.

Lemma relinked_refl l ds : relinked l ds ds.
Proof. intros i. split; [done|]. now destruct (ds !! i). Qed.

Lemma relinked_trans l ds ds1 ds2 : relinked l ds ds1 -> relinked l ds1 ds2 -> relinked l ds ds2.
Proof.
  intros H1 H2 i. destruct (H1 i) as [A1 A2], (H2 i) as [B1 B2]. split; [intros Hi; now rewrite B1, A1|].
  destruct (ds !! i), (ds1 !! i), (ds2 !! i); try done. destruct A2, B2. split; congruence.
Qed.

Lemma relinked_weaken l l' ds ds' : l ⊆ l' -> relinked l ds ds' -> relinked l' ds ds'.
Proof. intros Hl H i. destruct (H i) as [A1 A2]. split; [|done]. intros Hi. apply A1. set_solver. Qed.

Lemma linked_frame ds ds' prev first l : (forall i, i ∈ l -> ds' !! i = ds !! i) -> linked ds prev first l -> linked ds' prev first l.
Proof.
  revert prev first. induction l as [|x l IH]; intros prev first H; [done|]. cbn. intros (-> & p & Hp & Hv & Hl).
  split; [done|]. exists p. rewrite H by (now left). split; [done|]. split; [done|]. apply IH; [|done]. intros i Hi. apply H. now right.
Qed.

Lemma linked_present ds prev first l i : linked ds prev first l -> i ∈ l -> is_Some (ds !! i).
Proof.
  revert prev first. induction l as [|x l IH]; intros prev first; [intros _ Hi; now apply elem_of_nil in Hi|]. cbn.
  intros (_ & p & Hp & _ & Hl) [->|Hi]%elem_of_cons; eauto.
Qed.

(** A change of links. *)
Definition keeps_flags (f : PageDescriptor -> PageDescriptor) : Prop := forall p, free_order (f p) = free_order p /\ is_free (f p) = is_free p.

Lemma change_ret i f ds p : ds !! i = Some p -> change i f ds = Done (<[i := f p]> ds).
Proof. intros H. unfold change, descriptor. now rewrite H. Qed.

Lemma change_relinked l i f ds p : keeps_flags f -> i ∈ l -> ds !! i = Some p -> relinked l ds (<[i := f p]> ds).
Proof.
  intros Hf Hi Hp j. split; [intros Hj; apply lookup_insert_ne; intros ->; done|]. destruct (decide (i = j)) as [<-|Hne].
  - rewrite lookup_insert_eq, Hp. apply Hf.
  - rewrite lookup_insert_ne by done. now destruct (ds !! j).
Qed.

(** The first node of a list now points back to [prev']. *)
Lemma relink_first ds prev prev' first l : linked ds prev first l -> NoDup l ->
  exists ds', change_some first (with_prev prev') ds = Done ds' /\ linked ds' prev' first l /\ relinked l ds ds'.
Proof.
  destruct l as [|x l]; cbn [linked].
  - intros -> _. exists ds. split; [done|]. split; [done|apply relinked_refl].
  - intros (-> & p & Hp & _ & Hl) [Hx Hn]%NoDup_cons. exists (<[x := with_prev prev' p]> ds). cbn [change_some]. rewrite (change_ret x _ ds p Hp).
    split; [done|]. split; [|apply change_relinked; [done|now left|done]]. split; [done|]. exists (with_prev prev' p). rewrite lookup_insert_eq.
    split; [done|]. split; [done|]. apply (linked_frame ds); [|done]. intros i Hi. apply lookup_insert_ne. now intros ->.
Qed.

Lemma prepend_ret ds first l x : linked ds None first l -> NoDup l -> x ∉ l -> is_Some (ds !! x) ->
  exists ds', list_prepend first x ds = Done (Some x, ds') /\ linked ds' None (Some x) (x :: l) /\ relinked (x :: l) ds ds'.
Proof.
  intros Hl Hn Hx [p Hp]. unfold list_prepend. rewrite (change_ret x _ ds p Hp). unfold mbind, result_bind.
  set (p1 := with_prev None (with_next first p)). set (ds1 := <[x := p1]> ds).
  assert (R1 : relinked (x :: l) ds ds1) by (unfold ds1, p1; apply (change_relinked _ _ (fun p => with_prev None (with_next first p))); [done|now left|done]).
  assert (L1 : linked ds1 None first l).
  { apply (linked_frame ds); [|done]. intros i Hi. apply lookup_insert_ne. now intros ->. }
  destruct (relink_first ds1 None (Some x) first l L1 Hn) as (ds2 & -> & L2 & R2).
  exists ds2. split; [done|]. split; [|apply (relinked_trans _ _ ds1); [done|apply (relinked_weaken l); [set_solver|done]]].
  cbn. split; [done|]. exists p1. split; [|split; [done|]].
  - rewrite (proj1 (R2 x) Hx). apply lookup_insert_eq.
  - done.
Qed.

Lemma popFirst_ret ds x l first : linked ds None first (x :: l) -> NoDup (x :: l) ->
  exists first' ds', list_popFirst first ds = Done (Some x, first', ds') /\ linked ds' None first' l /\ relinked (x :: l) ds ds'.
Proof.
  cbn [linked]. intros (-> & p & Hp & Hv & Hl) [Hx Hn]%NoDup_cons. unfold list_popFirst, descriptor. rewrite Hp. unfold mbind, result_bind.
  destruct (relink_first ds (Some x) None (next_node p) l Hl Hn) as (ds1 & -> & L1 & R1).
  assert (Hp1 : ds1 !! x = Some p) by now rewrite (proj1 (R1 x) Hx). rewrite (change_ret x _ ds1 p Hp1).
  eexists _, _. split; [done|]. split.
  - apply (linked_frame ds1); [|done]. intros i Hi. apply lookup_insert_ne. now intros ->.
  - apply (relinked_trans _ _ ds1); [apply (relinked_weaken l); [set_solver|done]|].
    apply (change_relinked _ _ (fun p => with_prev None (with_next None p))); [done|now left|done].
Qed.

Lemma linked_middle ds x y l1 l2 : forall prev first, linked ds prev first (l1 ++ y :: x :: l2) ->
  exists py px, ds !! y = Some py /\ ds !! x = Some px /\ prev_node px = Some y /\ linked ds (Some x) (next_node px) l2 /\
    forall ds' n, (forall i, i ∈ l1 -> ds' !! i = ds !! i) -> ds' !! y = Some (with_next n py) -> linked ds' (Some y) n l2 ->
      linked ds' prev first (l1 ++ y :: l2).
Proof.
  induction l1 as [|z l1 IH]; intros prev first; cbn [app linked].
  - intros (-> & py & Hy & Hv & Hx & px & Hpx & Hpv & Hl). exists py, px. split; [done|]. split; [done|]. split; [done|]. split; [done|].
    intros ds' n _ Hy' Hl'. split; [done|]. exists (with_next n py). done.
  - intros (-> & pz & Hz & Hv & Hl). destruct (IH _ _ Hl) as (py & px & H1 & H2 & H3 & H4 & H5). exists py, px.
    split; [done|]. split; [done|]. split; [done|]. split; [done|]. intros ds' n Hi Hy' Hl'. split; [done|]. exists pz.
    rewrite Hi by (now left). split; [done|]. split; [done|]. apply (H5 ds' n); [|done|done]. intros i Hin. apply Hi. now right.
Qed.

Lemma remove_ret ds x l1 l2 first : linked ds None first (l1 ++ x :: l2) -> NoDup (l1 ++ x :: l2) ->
  exists first' ds', list_remove first x ds = Done (first', ds') /\ linked ds' None first' (l1 ++ l2) /\ relinked (l1 ++ x :: l2) ds ds'.
Proof.
  intros Hl Hn. apply NoDup_app in Hn as Hn'. destruct Hn' as (N1 & N2 & [Nx N3]%NoDup_cons).
  assert (Hclear : forall ds1 p, ds1 !! x = Some p -> forall l, x ∈ l -> relinked l ds1 (<[x := with_prev None (with_next None p)]> ds1)).
  { intros ds1 p Hp l Hx. now apply (change_relinked _ _ (fun p => with_prev None (with_next None p))). }
  unfold list_remove, descriptor. destruct l1 as [|y l1 _] using rev_ind.
  - cbn [app linked] in *. destruct Hl as (-> & p & Hp & Hv & Hl). rewrite Hp. unfold mbind, result_bind. rewrite Hv. cbn [change_some].
    destruct (relink_first ds (Some x) None (next_node p) l2 Hl N3) as (ds1 & -> & L1 & R1).
    assert (Hp1 : ds1 !! x = Some p) by now rewrite (proj1 (R1 x) Nx). rewrite (change_ret x _ ds1 p Hp1).
    eexists _, _. split; [done|]. split; [apply (linked_frame ds1); [|done]; intros i Hi; apply lookup_insert_ne; now intros ->|].
    apply (relinked_trans _ _ ds1); [apply (relinked_weaken l2); [set_solver|done]|]. apply Hclear; [done|now left].
  - rewrite <- app_assoc in *. cbn [app] in *. apply NoDup_app in N1 as (N1 & N4 & _).
    assert (Hy : y <> x /\ (y ∉ l2) /\ x ∉ l1).
    { split; [intros ->; apply (N2 x); set_solver|]. split; [intros H; apply (N2 y); set_solver|]. intros H. apply (N2 x); set_solver. }
    destruct Hy as (Hyx & Hy2 & Hx1). assert (H12 : forall i, i ∈ l1 -> (i ∉ l2) /\ i <> y /\ i <> x).
    { intros i Hi. split; [intros H; apply (N2 i); set_solver|]. split; [intros ->; apply (N4 y); set_solver|]. intros ->. done. }
    destruct (linked_middle ds x y l1 l2 None first Hl) as (py & px & Py & Px & Pv & Lx & Hre).
    rewrite Px. unfold mbind, result_bind. rewrite Pv. cbn [change_some]. rewrite (change_ret y _ ds py Py).
    set (ds1 := <[y := with_next (next_node px) py]> ds).
    assert (L1 : linked ds1 (Some x) (next_node px) l2) by (apply (linked_frame ds); [|done]; intros i Hi; apply lookup_insert_ne; now intros ->).
    destruct (relink_first ds1 (Some x) (Some y) (next_node px) l2 L1 N3) as (ds2 & -> & L2 & R2).
    assert (Hx2 : ds2 !! x = Some px) by (rewrite (proj1 (R2 x) Nx); unfold ds1; now rewrite lookup_insert_ne). rewrite (change_ret x _ ds2 px Hx2).
    eexists _, _. split; [done|]. rewrite <- app_assoc. cbn [app]. split.
    + apply (Hre _ (next_node px)).
      * intros i Hi. destruct (H12 i Hi) as (I1 & I2 & I3). rewrite lookup_insert_ne, (proj1 (R2 i) I1) by done. now apply lookup_insert_ne.
      * rewrite lookup_insert_ne, (proj1 (R2 y) Hy2) by done. apply lookup_insert_eq.
      * apply (linked_frame ds2); [|done]. intros i Hi. apply lookup_insert_ne. now intros ->.
    + apply (relinked_trans _ _ ds1); [apply (change_relinked _ _ (with_next (next_node px))); [done|set_solver|done]|].
      apply (relinked_trans _ _ ds2); [apply (relinked_weaken l2); [set_solver|done]|]. apply Hclear; [done|set_solver].
Qed.

(** ** The invariant *)

(** A free block of order [o] starts at page [i]. *)
Definition block (ds : Descriptors) (i : Z) (o : nat) : Prop := exists p, ds !! i = Some p /\ is_free p = true /\ free_order p = o.

Definition in_block (i : Z) (o : nat) (x : Z) : Prop := i <= x < i + block_pages o.

(** A page of a free block. *)
Definition free_at (b : Buddy) (x : Z) : Prop := exists i o, block (descriptors b) i o /\ in_block i o x.

(** The list of order [o]. *)
Definition order_list (b : Buddy) (o : nat) (l : list Z) : Prop := exists first,
  free_lists b !! o = Some first /\ linked (descriptors b) None first l /\ NoDup l /\
  nr_free b !! o = Some (Z.of_nat (length l)) /\ forall i, i ∈ l <-> block (descriptors b) i o.

Definition fits (n i : Z) (o : nat) : Prop := (o < num_orders)%nat /\ 0 <= i /\ i mod block_pages o = 0 /\ i + block_pages o <= n.

Record buddy_ok (n : Z) (b : Buddy) : Prop := {
  bk_limit : n mod block_pages max_order = 0 /\ 0 <= n < 2 ^ 32;
  bk_array : forall i, is_Some (descriptors b !! i) <-> 0 <= i < n;
  bk_lists : forall o, (o < num_orders)%nat -> exists l, order_list b o l;
  bk_blocks : forall i o, block (descriptors b) i o -> fits n i o;
  bk_disjoint : forall i o j u x, block (descriptors b) i o -> block (descriptors b) j u -> in_block i o x -> in_block j u x -> i = j;
}.

Lemma block_pages_pow o : block_pages o = 2 ^ Z.of_nat o.
Proof. unfold block_pages. rewrite Z.shiftl_mul_pow2 by lia. lia. Qed.

Lemma block_pages_pos o : 0 < block_pages o.
Proof. rewrite block_pages_pow. lia. Qed.

Lemma block_pages_S o : block_pages (S o) = 2 * block_pages o.
Proof. rewrite !block_pages_pow, Nat2Z.inj_succ, Z.pow_succ_r by lia. done. Qed.

Lemma in_block_first i o : in_block i o i.
Proof. unfold in_block. pose proof (block_pages_pos o). lia. Qed.

Lemma block_order ds i o u : block ds i o -> block ds i u -> o = u.
Proof. intros (p & Hp & _ & <-) (q & Hq & _ & <-). congruence. Qed.

Lemma block_relinked l ds ds' i o : relinked l ds ds' -> block ds' i o <-> block ds i o.
Proof.
  intros H. destruct (H i) as [_ H2]. unfold block. destruct (ds !! i) as [p|], (ds' !! i) as [p'|]; try done.
  destruct H2 as [E1 E2]. split; intros (q & [= <-] & Hf & Ho); eexists; (split; [done|]); split; congruence.
Qed.

Lemma length_bound n l : NoDup l -> (forall i, i ∈ l -> 0 <= i < n) -> 0 <= n -> Z.of_nat (length l) <= n.
Proof.
  intros Hn Hi H0. assert (Hs : (list_to_set l : gset Z) ⊆ list_to_set (seqZ 0 n)).
  { intros i. rewrite !elem_of_list_to_set, elem_of_seqZ. intros H. specialize (Hi i H). lia. }
  apply subseteq_size in Hs. rewrite !size_list_to_set, length_seqZ in Hs by (done || apply NoDup_seqZ). lia.
Qed.

(** ** A block on its list and off it *)

Lemma add_count_ret o d b c : nr_free b !! o = Some c -> 0 <= c + d < 2 ^ 32 ->
  add_count o d b = Done (MkBuddy (descriptors b) (free_lists b) (<[o := c + d]> (nr_free b)) (ram b)).
Proof. intros Hc Hd. unfold add_count. rewrite Hc. now rewrite (proj2 (Z.leb_le _ _)), (proj2 (Z.ltb_lt _ _)) by lia. Qed.

(** A list whose nodes do not change. *)
Lemma other_lists b b' ls u : order_list b u ls ->
  free_lists b' !! u = free_lists b !! u -> nr_free b' !! u = nr_free b !! u ->
  (forall i, i ∈ ls -> descriptors b' !! i = descriptors b !! i) ->
  (forall i, block (descriptors b') i u <-> block (descriptors b) i u) -> order_list b' u ls.
Proof.
  intros (first & F1 & F2 & F3 & F4 & F5) E1 E2 Hi Hb. exists first. rewrite E1, E2. split; [done|].
  split; [now apply (linked_frame (descriptors b))|]. split; [done|]. split; [done|]. intros i. now rewrite Hb.
Qed.

Lemma order_list_nodes n b o l i : buddy_ok n b -> order_list b o l -> i ∈ l -> 0 <= i < n.
Proof.
  intros Hb (first & _ & _ & _ & _ & F5) Hi. apply F5 in Hi as (p & Hp & _). apply (bk_array _ _ Hb). eauto.
Qed.

(** What [addBlock] leaves. *)
Definition block_added (n : Z) (i : Z) (o : nat) (b b' : Buddy) : Prop :=
  buddy_ok n b' /\ ram b' = ram b /\
  (forall j u, block (descriptors b') j u <-> block (descriptors b) j u \/ (j = i /\ u = o)) /\
  forall j, j <> i -> (forall u, ~ block (descriptors b) j u) -> descriptors b' !! j = descriptors b !! j.

Lemma marked_block ds i o p : ds !! i = Some p -> is_free p = false ->
  forall j u, block (<[i := with_order o (with_free true p)]> ds) j u <-> block ds j u \/ (j = i /\ u = o).
Proof.
  intros Hp Hf j u. unfold block. destruct (decide (j = i)) as [->|Hne].
  - rewrite lookup_insert_eq. split.
    + intros (q & [= <-] & _ & <-). auto.
    + intros [(q & Hq & Hf' & _)|[_ ->]]; [congruence|eauto].
  - rewrite lookup_insert_ne by done. split; [auto|]. intros [H|[? _]]; done.
Qed.

Lemma added_ok n i o b b' : buddy_ok n b -> fits n i o -> (forall x, in_block i o x -> ~ free_at b x) ->
  (forall j, is_Some (descriptors b' !! j) <-> is_Some (descriptors b !! j)) ->
  (forall u, (u < num_orders)%nat -> exists l, order_list b' u l) -> ram b' = ram b ->
  (forall j u, block (descriptors b') j u <-> block (descriptors b) j u \/ (j = i /\ u = o)) -> buddy_ok n b'.
Proof.
  intros [B1 B2 B3 B4 B5] Hfit Hno Hdom Hlists Hram Hbl. split; [done| |done| |].
  - intros j. rewrite Hdom. apply B2.
  - intros j u [H|[-> ->]]%Hbl; auto.
  - intros j u k w x [H1|[-> ->]]%Hbl [H2|[-> ->]]%Hbl Hx1 Hx2; [now apply (B5 j u k w x)|exfalso..|done].
    + apply (Hno x Hx2). now exists j, u.
    + apply (Hno x Hx1). now exists k, w.
Qed.

Lemma addBlock_ret n i o b : buddy_ok n b -> fits n i o -> (forall x, in_block i o x -> ~ free_at b x) ->
  exists b', addBlock i o b = Done b' /\ block_added n i o b b'.
Proof.
  intros Hb Hfit Hno. pose proof Hb as [B1 B2 B3 B4 B5]. pose proof Hfit as (Ho & Hi & _ & Hle). pose proof (block_pages_pos o).
  destruct (proj2 (B2 i) ltac:(lia)) as [p Hp]. assert (Hf : is_free p = false).
  { destruct (is_free p) eqn:E; [|done]. exfalso. apply (Hno i (in_block_first i o)). exists i, (free_order p). split; [now exists p|apply in_block_first]. }
  unfold addBlock, set_descriptor. rewrite (change_ret i _ _ p Hp). unfold mbind, result_bind. set (ds1 := <[i := _]> (descriptors b)).
  pose proof (marked_block (descriptors b) i o p Hp Hf) as Hm. fold ds1 in Hm.
  assert (Hnot : forall u, ~ block (descriptors b) i u) by (intros u (q & Hq & Hfq & _); congruence).
  destruct (B3 o Ho) as (l & Hol). pose proof Hol as (first & F1 & F2 & F3 & F4 & F5).
  assert (Hil : i ∉ l) by (rewrite F5; apply Hnot). unfold list_of. cbn [free_lists descriptors]. rewrite F1. change (default None (Some first)) with first.
  destruct (prepend_ret ds1 first l i) as (ds2 & -> & L2 & R2); [|done|done|unfold ds1; rewrite lookup_insert_eq; eauto|].
  { apply (linked_frame (descriptors b)); [|done]. intros j Hj. apply lookup_insert_ne. now intros ->. }
  assert (Hlen : Z.of_nat (length (i :: l)) <= n).
  { apply length_bound; [now constructor| |lia]. intros j [->|Hj]%elem_of_cons; [lia|now apply (order_list_nodes n b o l)]. }
  rewrite (add_count_ret o 1 _ (Z.of_nat (length l))); [|done|cbn in Hlen; lia]. eexists. split; [done|].
  assert (Hbl : forall j u, block ds2 j u <-> block (descriptors b) j u \/ (j = i /\ u = o)) by (intros j u; rewrite (block_relinked _ _ _ _ _ R2); apply Hm).
  split; [|split; [done|]; split; [exact Hbl|]; cbn [descriptors set_list]; intros j Hji Hjb].
  2: { rewrite (proj1 (R2 j)); [unfold ds1; now apply lookup_insert_ne|]. intros [?|Hj]%elem_of_cons; [done|]. apply F5 in Hj. now apply (Hjb o). }
  apply (added_ok n i o b); [done|done|done| | |done|exact Hbl]; cbn [descriptors free_lists nr_free set_list].
  - intros j. destruct (R2 j) as [_ Hj]. unfold ds1 in Hj. destruct (decide (j = i)) as [->|Hne].
    + rewrite lookup_insert_eq in Hj. destruct (ds2 !! i); [|done]. rewrite Hp. split; eauto.
    + rewrite lookup_insert_ne in Hj by done. destruct (ds2 !! j), (descriptors b !! j); try done; split; eauto.
  - intros u Hu. destruct (decide (u = o)) as [->|Hne].
    + exists (i :: l), (Some i). cbn [descriptors free_lists nr_free set_list]. rewrite !list_lookup_insert_eq by (eapply lookup_lt_Some; eassumption).
      split; [done|]. split; [done|]. split; [now constructor|]. split; [do 2 f_equal; cbn [length]; lia|].
      intros j. rewrite elem_of_cons, F5, Hbl. split; [intros [->|H']; auto|intros [H'|[-> _]]; auto].
    + destruct (B3 u Hu) as (ls & Hls). exists ls. apply (other_lists b); cbn [descriptors free_lists nr_free set_list]; [done|now apply list_lookup_insert_ne|now apply list_lookup_insert_ne| |].
      * destruct Hls as (_ & _ & _ & _ & _ & G5). intros j Hj%G5. rewrite (proj1 (R2 j)); [apply lookup_insert_ne; intros ->; now apply (Hnot u)|].
        intros [->|Hjl]%elem_of_cons; [now apply (Hnot u)|]. apply F5 in Hjl. now rewrite (block_order _ _ _ _ Hj Hjl) in Hne.
      * intros j. rewrite Hbl. split; [intros [H'|[_ ?]]; done|auto].
Qed.

(** A block taken off its list. *)
Definition block_taken (n : Z) (x : Z) (b b' : Buddy) : Prop :=
  buddy_ok n b' /\ ram b' = ram b /\
  (forall j u, block (descriptors b') j u <-> block (descriptors b) j u /\ j <> x) /\
  forall j, (forall u, ~ block (descriptors b) j u) -> descriptors b' !! j = descriptors b !! j.

Lemma taken_ok n x b b' : buddy_ok n b -> (forall j, is_Some (descriptors b' !! j) <-> is_Some (descriptors b !! j)) ->
  (forall u, (u < num_orders)%nat -> exists l, order_list b' u l) -> ram b' = ram b ->
  (forall j u, block (descriptors b') j u <-> block (descriptors b) j u /\ j <> x) -> buddy_ok n b'.
Proof.
  intros [B1 B2 B3 B4 B5] Hdom Hlists Hram Hbl. split; [done| |done| |].
  - intros j. rewrite Hdom. apply B2.
  - intros j u [H _]%Hbl. auto.
  - intros j u k w y [H1 _]%Hbl [H2 _]%Hbl. apply (B5 j u k w y H1 H2).
Qed.

Lemma unmarked_block ds x p : ds !! x = Some p -> forall j u, block (<[x := with_free false p]> ds) j u <-> block ds j u /\ j <> x.
Proof.
  intros Hp j u. unfold block. destruct (decide (j = x)) as [->|Hne].
  - rewrite lookup_insert_eq. split; [intros (q & [= <-] & ? & _); done|]. now intros [_ ?].
  - rewrite lookup_insert_ne by done. tauto.
Qed.

Lemma take_ret n b o x l1 l2 first first' ds' : buddy_ok n b -> (o < num_orders)%nat ->
  free_lists b !! o = Some first -> nr_free b !! o = Some (Z.of_nat (length (l1 ++ x :: l2))) -> NoDup (l1 ++ x :: l2) ->
  (forall i, i ∈ l1 ++ x :: l2 <-> block (descriptors b) i o) ->
  linked ds' None first' (l1 ++ l2) -> relinked (l1 ++ x :: l2) (descriptors b) ds' ->
  exists b1 b', add_count o (-1) (set_list o first' ds' b) = Done b1 /\ set_descriptor x (with_free false) b1 = Done b' /\ block_taken n x b b'.
Proof.
  intros Hb Ho F1 F4 F3 F5 L R. pose proof Hb as [B1 B2 B3 B4 B5]. rewrite length_app in F4. cbn [length] in F4.
  assert (Hx : block (descriptors b) x o) by (apply F5; set_solver). apply NoDup_app in F3 as (N1 & N2 & [N3 N4]%NoDup_cons).
  assert (Hlen : Z.of_nat (length (l1 ++ x :: l2)) <= n).
  { apply length_bound; [apply NoDup_app; split; [done|]; split; [done|now constructor]| |lia]. intros j Hj%F5. apply B2. destruct Hj as (q & -> & _). eauto. }
  rewrite length_app in Hlen. cbn [length] in Hlen.
  assert (Hbl : forall j u, block ds' j u <-> block (descriptors b) j u) by (intros; now apply (block_relinked _ _ _ _ _ R)).
  destruct (proj2 (Hbl x o) Hx) as (p & Hp & _). rewrite (add_count_ret o (-1) (set_list o first' ds' b) _ F4) by lia.
  eexists _, _. split; [done|]. unfold set_descriptor. cbn [descriptors free_lists nr_free ram set_list]. rewrite (change_ret x _ _ p Hp). split; [done|].
  pose proof (unmarked_block ds' x p Hp) as Hm. setoid_rewrite Hbl in Hm.
  assert (Hx' : x ∉ l1 ++ l2). { rewrite elem_of_app. intros [H|H]; [apply (N2 x H); now left|done]. }
  split; [|split; [done|]; split; [exact Hm|]; cbn [descriptors]; intros j Hjb].
  2: { rewrite lookup_insert_ne by (intros ->; now apply (Hjb o)). rewrite (proj1 (R j)); [done|]. rewrite F5. apply Hjb. }
  apply (taken_ok n x b); [done| | |done|exact Hm]; cbn [descriptors free_lists nr_free ram].
  - intros j. destruct (R j) as [_ Hj]. destruct (decide (j = x)) as [->|Hne].
    + rewrite lookup_insert_eq. destruct Hx as (q & -> & _). split; eauto.
    + rewrite lookup_insert_ne by done. destruct (ds' !! j), (descriptors b !! j); try done; split; eauto.
  - intros u Hu. destruct (decide (u = o)) as [->|Hne].
    + exists (l1 ++ l2), first'. cbn [descriptors free_lists nr_free ram]. rewrite !list_lookup_insert_eq by (eapply lookup_lt_Some; eassumption).
      split; [done|]. split; [apply (linked_frame ds'); [|done]; intros j Hj; apply lookup_insert_ne; now intros ->|].
      split; [apply NoDup_app; split; [done|]; split; [|done]; intros j Hj Hj2; apply (N2 j Hj); now right|].
      split; [do 2 f_equal; rewrite length_app; lia|]. intros j. rewrite Hm, <- F5, !elem_of_app, elem_of_cons. split.
      * intros Hj. split; [tauto|]. intros ->. apply Hx'. now apply elem_of_app.
      * intros [[Hj|[->|Hj]] Hjx]; auto. done.
    + destruct (B3 u Hu) as (ls & Hls). exists ls. apply (other_lists b); cbn [descriptors free_lists nr_free ram]; [done|now apply list_lookup_insert_ne|now apply list_lookup_insert_ne| |].
      * destruct Hls as (_ & _ & _ & _ & _ & G5). intros j Hj%G5. assert (Hjl : j ∉ l1 ++ x :: l2).
        { rewrite F5. intros H'. now rewrite (block_order _ _ _ _ Hj H') in Hne. }
        rewrite lookup_insert_ne by (intros ->; apply Hjl; set_solver). now rewrite (proj1 (R j)).
      * intros j. rewrite Hm. split; [tauto|]. intros Hj. split; [done|]. intros ->. now rewrite (block_order _ _ _ _ Hj Hx) in Hne.
Qed.

Lemma added_free n i o b b' x : block_added n i o b b' -> free_at b' x <-> free_at b x \/ in_block i o x.
Proof.
  intros (_ & _ & H & _). unfold free_at. setoid_rewrite H. split.
  - intros (j & u & [Hj|[-> ->]] & Hx); [left; eauto|auto].
  - intros [(j & u & Hj & Hx)|Hx]; [exists j, u; auto|exists i, o; auto].
Qed.

Lemma taken_free n i o b b' x : buddy_ok n b -> block (descriptors b) i o -> block_taken n i b b' ->
  free_at b' x <-> free_at b x /\ ~ in_block i o x.
Proof.
  intros Hb Hi (_ & _ & H & _). unfold free_at. setoid_rewrite H. split.
  - intros (j & u & [Hj Hne] & Hx). split; [eauto|]. intros Hx'. apply Hne. now apply (bk_disjoint _ _ Hb j u i o x).
  - intros [(j & u & Hj & Hx) Hn]. exists j, u. split; [|done]. split; [done|]. intros ->. now rewrite (block_order _ _ _ _ Hi Hj) in Hn.
Qed.

(** ** Allocation *)

Lemma list_of_ret n b o : buddy_ok n b -> (o < num_orders)%nat ->
  match list_of o b with
  | None => forall i, ~ block (descriptors b) i o
  | Some x => exists l, order_list b o (x :: l) /\ block (descriptors b) x o
  end.
Proof.
  intros Hb Ho. destruct (bk_lists _ _ Hb o Ho) as (l & Hl). pose proof Hl as (first & F1 & F2 & F3 & F4 & F5).
  unfold list_of. rewrite F1. cbn. destruct l as [|x l]; cbn in F2.
  - subst first. intros i Hi%F5. now apply elem_of_nil in Hi.
  - destruct F2 as [-> _]. exists l. split; [done|]. apply F5. now left.
Qed.

Lemma find_order_ret n b : buddy_ok n b -> forall fuel avail, (num_orders < avail + fuel)%nat ->
  match find_order fuel avail b with
  | Some o => (avail <= o < num_orders)%nat /\ exists x, list_of o b = Some x
  | None => forall i o, block (descriptors b) i o -> (o < avail)%nat
  end.
Proof.
  intros Hb. induction fuel as [|fuel IH]; intros avail Hf; cbn [find_order].
  - intros i o Hi. destruct (bk_blocks _ _ Hb i o Hi) as [H _]. lia.
  - destruct (Nat.leb_spec avail max_order) as [Hle|Hle].
    + pose proof (list_of_ret n b avail Hb ltac:(unfold num_orders, max_order in *; lia)) as H. destruct (list_of avail b) as [x|] eqn:El.
      * split; [unfold num_orders, max_order in *; lia|eauto].
      * specialize (IH (S avail) ltac:(lia)). destruct (find_order fuel (S avail) b); [destruct IH as [? ?]; split; [lia|done]|].
        intros i o Hi. specialize (IH i o Hi). destruct (decide (o = avail)) as [->|]; [now destruct (H i)|lia].
    + intros i o Hi. destruct (bk_blocks _ _ Hb i o Hi) as [H _]. unfold num_orders, max_order in *. lia.
Qed.

(** The halves of a block. *)
Lemma fits_halves n i o : fits n i (S o) -> fits n i o /\ fits n (i + block_pages o) o /\
  forall x, in_block i (S o) x <-> in_block i o x \/ in_block (i + block_pages o) o x.
Proof.
  unfold fits, in_block. rewrite block_pages_S. pose proof (block_pages_pos o). intros (H1 & H2 & H3 & H4).
  apply Z.mod_divide in H3 as [k ->]; [|lia]. assert (E : k * (2 * block_pages o) mod block_pages o = 0).
  { replace (k * (2 * block_pages o)) with (k * 2 * block_pages o) by lia. apply Z.mod_mul. lia. }
  split; [split; [lia|]; split; [lia|]; split; [exact E|lia]|]. split; [|intros x; lia].
  split; [lia|]. split; [lia|]. split; [|lia].
  replace (k * (2 * block_pages o) + block_pages o) with ((k * 2 + 1) * block_pages o) by lia. apply Z.mod_mul. lia.
Qed.

Lemma split_block_ret n i k : forall cur b, buddy_ok n b -> (k <= cur)%nat -> fits n i cur -> (forall x, in_block i cur x -> ~ free_at b x) ->
  exists b', split_block k i cur b = Done b' /\ buddy_ok n b' /\ ram b' = ram b /\ fits n i (cur - k) /\
    (forall x, free_at b' x <-> free_at b x \/ (in_block i cur x /\ ~ in_block i (cur - k) x)) /\
    forall x, in_block i (cur - k) x -> in_block i cur x.
Proof.
  induction k as [|k IH]; intros cur b Hb Hk Hf Hno; cbn [split_block].
  - exists b. rewrite Nat.sub_0_r. split; [done|]. split; [done|]. split; [done|]. split; [done|]. split; [|done]. intros x. tauto.
  - destruct cur as [|cur]; [lia|]. replace (S cur - 1)%nat with cur by lia. replace (S cur - S k)%nat with (cur - k)%nat by lia.
    destruct (fits_halves n i cur Hf) as (Hf1 & Hf2 & Hh).
    destruct (addBlock_ret n (i + block_pages cur) cur b Hb Hf2) as (b1 & -> & Ha); [intros x Hx; apply Hno, Hh; auto|].
    pose proof (fun x => added_free n _ _ b b1 x Ha) as Hfr. destruct Ha as (Hb1 & Hr1 & _). unfold mbind, result_bind.
    assert (Hsep : forall x, in_block i cur x -> ~ in_block (i + block_pages cur) cur x) by (unfold in_block; lia).
    destruct (IH cur b1 Hb1 ltac:(lia) Hf1) as (b' & -> & Hb' & Hr' & Hf' & Hfree & Hsub).
    { intros x Hx [H|H]%Hfr; [now apply (Hno x); [apply Hh; auto|]|now apply (Hsep x)]. }
    exists b'. split; [done|]. split; [done|]. split; [congruence|]. split; [done|]. split; [|intros x Hx; apply Hh; auto].
    intros x. rewrite Hfree, Hfr, Hh. specialize (Hsep x). specialize (Hsub x). tauto.
Qed.

Lemma zeroed_ok n i o b : buddy_ok n b -> buddy_ok n (zeroBlock i o b).
Proof. intros [B1 B2 B3 B4 B5]. now split. Qed.

(** The bytes of the block are 0, the others as they were. *)
Definition zeroes (i : Z) (o : nat) (m m' : Z -> Z) : Prop := forall a,
  m' a = if decide (baseAddress i <= a < baseAddress (i + block_pages o)) then 0 else m a.

Lemma zeroBlock_ram i o b : zeroes i o (ram b) (ram (zeroBlock i o b)).
Proof.
  intros a. cbn. destruct (Z.leb_spec (baseAddress i) a), (Z.ltb_spec a (baseAddress (i + block_pages o))); cbn;
    case_decide; (done || lia).
Qed.

Definition allocated (n : Z) (order : nat) (b : Buddy) (i : Z) (b' : Buddy) : Prop :=
  buddy_ok n b' /\ fits n i order /\ (forall x, in_block i order x -> free_at b x) /\
  (forall x, free_at b' x <-> free_at b x /\ ~ in_block i order x) /\ zeroes i order (ram b) (ram b').

Lemma allocLocked_ret n order b : buddy_ok n b ->
  match allocLocked order b with
  | Done (i, b') => allocated n order b i b'
  | Failed _ => forall i o, block (descriptors b) i o -> (o < order)%nat
  | Panic => False
  end.
Proof.
  intros Hb. unfold allocLocked. pose proof (find_order_ret n b Hb (S num_orders) order ltac:(lia)) as Hf.
  destruct (find_order _ order b) as [avail|]; [|done]. destruct Hf as ([Ha1 Ha2] & x & Hx).
  pose proof (list_of_ret n b avail Hb Ha2) as Hl. rewrite Hx in *. destruct Hl as (l & (first & F1 & F2 & F3 & F4 & F5) & Hblk).
  assert (first = Some x) as -> by apply F2.
  destruct (popFirst_ret _ x l (Some x) F2 F3) as (first' & ds' & -> & L & R). unfold mbind, result_bind.
  destruct (take_ret n b avail x [] l (Some x) first' ds' Hb Ha2 F1 F4 F3 F5 L R) as (b1 & b2 & -> & -> & Ht).
  pose proof (fun y => taken_free n x avail b b2 y Hb Hblk Ht) as Hfr. destruct Ht as (Hb2 & Hr2 & _).
  pose proof (bk_blocks _ _ Hb x avail Hblk) as Hfit.
  destruct (split_block_ret n x (avail - order) avail b2 Hb2 ltac:(lia) Hfit) as (b3 & -> & Hb3 & Hr3 & Hf3 & Hfr3 & Hsub).
  { intros y Hy [_ Hn]%Hfr. done. }
  replace (avail - (avail - order))%nat with order in * by lia.
  split; [now apply zeroed_ok|]. split; [done|]. split; [intros y Hy; exists x, avail; auto|]. split.
  - intros y. change (free_at (zeroBlock x order b3) y) with (free_at b3 y). rewrite Hfr3, Hfr.
    assert (in_block x avail y -> free_at b y) by (intros; now exists x, avail). specialize (Hsub y).
    assert (in_block x avail y \/ ~ in_block x avail y) by (unfold in_block; lia). tauto.
  - intros a. rewrite (zeroBlock_ram x order b3 a). now rewrite Hr3, Hr2.
Qed.

(** ** Freeing *)

Lemma lxor_even j : Z.lxor (2 * j) 1 = 2 * j + 1.
Proof.
  symmetry. apply Z.add_nocarry_lxor. apply Z.bits_inj'. intros [|k|k] Hk; rewrite Z.land_spec, Z.bits_0; [|destruct k; apply andb_false_r|lia].
  now rewrite Z.testbit_even_0.
Qed.

Lemma lxor_odd j : Z.lxor (2 * j + 1) 1 = 2 * j.
Proof. now rewrite <- lxor_even, Z.lxor_assoc, Z.lxor_nilpotent, Z.lxor_0_r. Qed.

Lemma buddy_of_mul k o : buddy_of (k * block_pages o) o = Z.lxor k 1 * block_pages o.
Proof.
  unfold buddy_of. rewrite block_pages_pow, <- !Z.shiftl_mul_pow2 by lia. rewrite Z.shiftl_lxor. f_equal.
  rewrite Z.shiftl_mul_pow2 by lia. lia.
Qed.

(** The block and its buddy make a block of the next order. *)
Lemma fits_merged n i o : n mod block_pages max_order = 0 -> (o < max_order)%nat -> fits n i o ->
  let j := buddy_of i o in
  fits n j o /\ j <> i /\ fits n (Z.min i j) (S o) /\ (forall x, in_block i o x -> ~ in_block j o x) /\
  forall x, in_block (Z.min i j) (S o) x <-> in_block i o x \/ in_block j o x.
Proof.
  intros Hn Ho (H1 & H2 & H3 & H4) j. pose proof (block_pages_pos o) as Hp.
  apply Z.mod_divide in H3 as [k ->]; [|lia]. assert (Hk : 0 <= k) by nia. subst j. rewrite buddy_of_mul.
  assert (Hc : exists c, n = c * (2 * block_pages o)).
  { apply Z.mod_divide in Hn as [c ->]; [|rewrite block_pages_pow; lia]. exists (c * 2 ^ Z.of_nat (max_order - S o)).
    rewrite <- block_pages_S, !block_pages_pow, <- Z.mul_assoc, <- Z.pow_add_r by lia. do 2 f_equal. unfold max_order in *. lia. }
  destruct Hc as [c ->]. unfold fits, in_block. rewrite block_pages_S. unfold max_order, num_orders in *.
  assert (Hm : forall a, a * block_pages o mod block_pages o = 0) by (intros; apply Z.mod_mul; lia).
  assert (Hm2 : forall a, a * (2 * block_pages o) mod (2 * block_pages o) = 0) by (intros; apply Z.mod_mul; lia).
  destruct (Z.Even_or_Odd k) as [[q ->]|[q ->]].
  - rewrite lxor_even. assert (q < c) by nia. replace (Z.min _ _) with (q * (2 * block_pages o)) by nia.
    split; [split; [lia|]; split; [nia|]; split; [done|nia]|]. split; [nia|]. split; [split; [lia|]; split; [nia|]; split; [done|nia]|].
    split; intros x; nia.
  - rewrite lxor_odd. assert (q < c) by nia. replace (Z.min _ _) with (q * (2 * block_pages o)) by nia.
    split; [split; [lia|]; split; [nia|]; split; [done|nia]|]. split; [nia|]. split; [split; [lia|]; split; [nia|]; split; [done|nia]|].
    split; intros x; nia.
Qed.

Definition coalesced (n : Z) (i : Z) (o : nat) (b : Buddy) (i' : Z) (o' : nat) (b' : Buddy) : Prop :=
  buddy_ok n b' /\ ram b' = ram b /\ fits n i' o' /\ (forall x, in_block i' o' x -> ~ free_at b' x) /\
  (forall x, free_at b' x \/ in_block i' o' x <-> free_at b x \/ in_block i o x) /\
  (forall j, (forall u, ~ block (descriptors b) j u) -> descriptors b' !! j = descriptors b !! j) /\
  (i' = i \/ exists u, block (descriptors b) i' u).

Lemma coalesced_refl n i o b : buddy_ok n b -> fits n i o -> (forall x, in_block i o x -> ~ free_at b x) -> coalesced n i o b i o b.
Proof. intros Hb Hf Hno. split; [done|]. split; [done|]. split; [done|]. split; [done|]. split; [done|]. split; [done|]. now left. Qed.

Lemma coalesce_ret n fuel : forall o i b, buddy_ok n b -> fits n i o -> (forall x, in_block i o x -> ~ free_at b x) ->
  exists o' i' b', coalesce fuel o i b = Done (o', i', b') /\ coalesced n i o b i' o' b'.
Proof.
  induction fuel as [|fuel IH]; intros o i b Hb Hf Hno; cbn [coalesce].
  { exists o, i, b. split; [done|]. now apply coalesced_refl. }
  destruct (Nat.ltb_spec o max_order) as [Ho|Ho]; [|exists o, i, b; split; [done|now apply coalesced_refl]].
  destruct (fits_merged n i o (proj1 (bk_limit _ _ Hb)) Ho Hf) as (Fj & Hne & Fm & Hsep & Hun). set (j := buddy_of i o) in *.
  pose proof (block_pages_pos o). destruct (proj2 (bk_array _ _ Hb j)) as [p Hp]; [destruct Fj as (_ & J1 & _ & J2); lia|].
  unfold descriptor. rewrite Hp. unfold mbind, result_bind.
  destruct (is_free p) eqn:Ef; cbn [negb orb]; [|exists o, i, b; split; [done|now apply coalesced_refl]].
  destruct (Nat.eqb_spec (free_order p) o) as [Eo|Eo]; cbn [negb]; [|exists o, i, b; split; [done|now apply coalesced_refl]].
  assert (Hj : block (descriptors b) j o) by now exists p. pose proof Fj as (Ho' & _).
  destruct (bk_lists _ _ Hb o Ho') as (l & first & F1 & F2 & F3 & F4 & F5).
  assert (Hjl : j ∈ l) by now apply F5. apply list_elem_of_split in Hjl as (l1 & l2 & ->).
  unfold list_of. rewrite F1. change (default None (Some first)) with first.
  destruct (remove_ret _ j l1 l2 first F2 F3) as (first' & ds' & -> & L & R).
  destruct (take_ret n b o j l1 l2 first first' ds' Hb Ho' F1 F4 F3 F5 L R) as (b1 & b2 & -> & -> & Ht).
  pose proof (fun y => taken_free n j o b b2 y Hb Hj Ht) as Hfr. destruct Ht as (Hb2 & Hr2 & Hbl2 & Hfm2).
  destruct (IH (S o) (Z.min i j) b2 Hb2 Fm) as (o' & i' & b' & -> & C1 & C2 & C3 & C4 & C5 & C6 & C7).
  { intros x Hx [H1 H2]%Hfr. apply Hun in Hx as [Hx|Hx]; [now apply (Hno x)|done]. }
  exists o', i', b'. split; [done|]. split; [done|]. split; [congruence|]. split; [done|]. split; [done|].
  split; [|split].
  - intros x. rewrite C5, Hfr, Hun. assert (in_block j o x -> free_at b x) by (intros; now exists j, o).
    assert (in_block j o x \/ ~ in_block j o x) by (unfold in_block; lia). tauto.
  - intros k Hk. rewrite C6; [now apply Hfm2|]. intros u [Hu _]%Hbl2. now apply (Hk u).
  - destruct C7 as [->|[u [Hu _]%Hbl2]]; [|eauto]. destruct (Z.min_spec i j) as [[_ ->]|[_ ->]]; eauto.
Qed.

Lemma freeLocked_ret n i o b : buddy_ok n b -> fits n i o -> (forall x, in_block i o x -> ~ free_at b x) ->
  exists b', freeLocked i o b = Done b' /\ buddy_ok n b' /\ (forall x, free_at b' x <-> free_at b x \/ in_block i o x) /\
    zeroes i o (ram b) (ram b') /\
    forall j, j <> i -> (forall u, ~ block (descriptors b) j u) -> descriptors b' !! j = descriptors b !! j.
Proof.
  intros Hb Hf Hno. pose proof (block_pages_pos o). destruct (proj2 (bk_array _ _ Hb i)) as [p Hp]; [destruct Hf as (_ & J1 & _ & J2); lia|].
  unfold freeLocked, descriptor. rewrite Hp. unfold mbind, result_bind. assert (Hpf : is_free p = false).
  { destruct (is_free p) eqn:E; [|done]. exfalso. apply (Hno i (in_block_first i o)). exists i, (free_order p). split; [now exists p|apply in_block_first]. }
  rewrite Hpf. destruct (coalesce_ret n num_orders o i (zeroBlock i o b)) as (o' & i' & b1 & -> & C1 & C2 & C3 & C4 & C5 & C6 & C7); [now apply zeroed_ok|done|done|].
  destruct (addBlock_ret n i' o' b1 C1 C3 C4) as (b' & -> & Ha). pose proof (fun x => added_free n i' o' b1 b' x Ha) as Hfr.
  destruct Ha as (Hb' & Hr' & _ & Hfm). exists b'. split; [done|]. split; [done|]. split; [intros x; rewrite Hfr; apply C5|].
  split; [intros a; rewrite <- (zeroBlock_ram i o b a); congruence|]. intros j Hj Hjb. cbn [descriptors zeroBlock] in *.
  rewrite Hfm; [now apply C6| |].
  - intros ->. destruct C7 as [->|[u Hu]]; [done|now apply (Hjb u)].
  - intros u (q & Hq & Hqf & Hqo). rewrite C6 in Hq by done. apply (Hjb u). now exists q.
Qed.

(** A block that is on a list is not freed again. *)
Lemma double_free n i o u b : buddy_ok n b -> block (descriptors b) i u -> freeLocked i o b = Panic.
Proof. intros _ (p & Hp & Hf & _). unfold freeLocked, descriptor. rewrite Hp. unfold mbind, result_bind. now rewrite Hf. Qed.
