(* ===== verification/PhysicalMemory.v ===== *)
(** * The pages of the machine

    The set of free pages of the buddy allocator and its size, [PhysicalPage.zig]'s
    allocator of single pages over it, which is what the rest of the kernel relies
    on, and the initialization from the memory map. *)

From stdpp Require Import gmap.
From S2P Require Import Prelude Machine AddressSpace PageTable Buddy BuddyCorrect.

(** ** The free pages, counted *)

Lemma blocks_of_elem b o i : i ∈ blocks_of b o <-> block (descriptors b) i o.
Proof.
  unfold blocks_of, block. rewrite list_elem_of_omap. split.
  - intros ([j p] & Hp%elem_of_map_to_list & E). cbn in E. destruct (is_free p) eqn:Ef; [|done].
    destruct (Nat.eqb_spec (free_order p) o) as [Eo|]; [|done]. injection E as <-. eauto.
  - intros (p & Hp & Ef & Eo). exists (i, p). split; [now apply elem_of_map_to_list|]. cbn. rewrite Ef, Eo, Nat.eqb_refl. done.
Qed.

Lemma blocks_of_nodup b o : NoDup (blocks_of b o).
Proof.
  unfold blocks_of. pose proof (NoDup_fst_map_to_list (descriptors b)) as Hn. induction (map_to_list (descriptors b)) as [|[i p] l IH]; [constructor|].
  rewrite fmap_cons in Hn. apply NoDup_cons in Hn as [Hi Hn]. cbn. destruct (is_free p && _); [|now apply IH].
  constructor; [|now apply IH]. intros ([j q] & Hj & E)%list_elem_of_omap. cbn in *. destruct (is_free q && _); [|done]. injection E as ->.
  apply Hi, list_elem_of_fmap. now exists (i, q).
Qed.

Lemma free_page_elem n b x : buddy_ok n b -> x ∈ free_page_list b <-> free_at b x.
Proof.
  intros Hb. unfold free_page_list, free_at, in_block. rewrite list_elem_of_bind. split.
  - intros (o & Hx & _). apply list_elem_of_bind in Hx as (i & Hx%elem_of_seqZ & Hi%blocks_of_elem). exists i, o. split; [done|lia].
  - intros (i & o & Hi & Hx). destruct (bk_blocks _ _ Hb i o Hi) as (Ho & _). exists o. split; [|apply elem_of_seq; lia].
    apply list_elem_of_bind. exists i. split; [apply elem_of_seqZ; lia|now apply blocks_of_elem].
Qed.

Lemma free_page_nodup n b : buddy_ok n b -> NoDup (free_page_list b).
Proof.
  intros Hb. assert (Hin : forall o x, x ∈ (blocks_of b o ≫= fun i => seqZ i (block_pages o)) -> exists i, block (descriptors b) i o /\ in_block i o x).
  { intros o x (i & Hx%elem_of_seqZ & Hi%blocks_of_elem)%list_elem_of_bind. exists i. split; [done|unfold in_block; lia]. }
  apply NoDup_bind; [| |apply NoDup_seq].
  - intros o u x _ _ Ho%Hin Hu%Hin. destruct Ho as (i & Hi & Hx), Hu as (j & Hj & Hx').
    pose proof (bk_disjoint _ _ Hb i o j u x Hi Hj Hx Hx') as ->. now apply (block_order _ _ _ _ Hi).
  - intros o _. apply NoDup_bind; [|intros; apply NoDup_seqZ|apply blocks_of_nodup].
    intros i j x Hi%blocks_of_elem Hj%blocks_of_elem Hx%elem_of_seqZ Hx'%elem_of_seqZ.
    apply (bk_disjoint _ _ Hb i o j o x Hi Hj); unfold in_block; lia.
Qed.

Lemma free_set_elem n b x : buddy_ok n b -> x ∈ free_set b <-> free_at b x.
Proof. intros Hb. unfold free_set. rewrite elem_of_list_to_set. now apply (free_page_elem n). Qed.

Lemma bind_length {X Y} (f : X -> list Y) l : Z.of_nat (length (l ≫= f)) = foldr Z.add 0 ((fun x => Z.of_nat (length (f x))) <$> l).
Proof. induction l as [|x l IH]; [done|]. cbn. rewrite length_app. unfold mbind in IH. cbn in IH. rewrite Nat2Z.inj_add. unfold mbind. lia. Qed.

Lemma block_list_length l o : Z.of_nat (length (l ≫= fun i => seqZ i (block_pages o))) = Z.shiftl (Z.of_nat (length l)) (Z.of_nat o).
Proof.
  rewrite bind_length, Z.shiftl_mul_pow2, <- block_pages_pow by lia. pose proof (block_pages_pos o).
  induction l as [|i l IH]; [done|]. rewrite fmap_cons. cbn [foldr length]. rewrite IH, length_seqZ. lia.
Qed.

(** [totalFreePages] counts the free pages. *)
Lemma totalFreePages_ret n b : buddy_ok n b -> totalFreePages b = Z.of_nat (base.size (free_set b)).
Proof.
  intros Hb. unfold free_set. rewrite size_list_to_set by now apply (free_page_nodup n). unfold free_page_list. rewrite bind_length.
  unfold totalFreePages. f_equal. apply list_eq. intros o. rewrite list_lookup_fmap.
  destruct (decide (o < num_orders)%nat) as [Ho|Ho].
  - rewrite lookup_seq_lt by done. cbn [fmap option_fmap option_map Nat.add]. rewrite lookup_zip_with, lookup_seq_lt by done.
    destruct (bk_lists _ _ Hb o Ho) as (l & first & _ & _ & F3 & F4 & F5). rewrite F4. cbn. rewrite block_list_length. do 3 f_equal.
    apply Permutation_length, NoDup_Permutation; [done|apply blocks_of_nodup|]. intros i. now rewrite F5, blocks_of_elem.
  - rewrite lookup_seq_ge by lia. rewrite lookup_zip_with, lookup_seq_ge by lia. now destruct (nr_free b !! o).
Qed.

(** ** Single pages *)

Record memory_ok (n : Z) (m : PhysicalMemory) : Prop := {
  mo_buddy : buddy_ok n (buddy m);
  mo_count : free_memory m = page * Z.of_nat (base.size (free_set (buddy m)));
}.

Lemma free_at_limit n b x : buddy_ok n b -> free_at b x -> 0 <= x < n.
Proof. intros Hb (i & o & Hi & Hx). destruct (bk_blocks _ _ Hb i o Hi) as (_ & H1 & _ & H2). unfold in_block in Hx. lia. Qed.

Lemma free_set_small n b : buddy_ok n b -> Z.of_nat (base.size (free_set b)) <= n.
Proof.
  intros Hb. unfold free_set. rewrite size_list_to_set by now apply (free_page_nodup n).
  apply length_bound; [now apply (free_page_nodup n)| |destruct (bk_limit _ _ Hb); lia].
  intros x Hx%(free_page_elem n); [|done]. now apply (free_at_limit n b).
Qed.

Lemma in_block_0 i x : in_block i 0 x <-> x = i.
Proof. unfold in_block. change (block_pages 0) with 1. lia. Qed.

Lemma filled_ok n i b : buddy_ok n b -> buddy_ok n (fill_page i b).
Proof. intros [B1 B2 B3 B4 B5]. now split. Qed.

Lemma size_remove (X : gset Z) i : i ∈ X -> base.size X = S (base.size (X ∖ {[i]})).
Proof. intros Hi. rewrite (union_difference_singleton_L i X Hi) at 1. rewrite size_union by set_solver. now rewrite size_singleton. Qed.

(** The counter follows the set of free pages. *)
Lemma count_after n b b' (k : Z) : buddy_ok n b' -> Z.of_nat (base.size (free_set b')) = Z.of_nat (base.size (free_set b)) + k ->
  (page * Z.of_nat (base.size (free_set b)) + page * k) mod 2 ^ 64 = page * Z.of_nat (base.size (free_set b')).
Proof.
  intros Hb E. pose proof (free_set_small n b' Hb). destruct (bk_limit _ _ Hb) as [_ Hn]. rewrite Z.mod_small; unfold page in *; lia.
Qed.

Lemma physical_allocate_ret n debug m : memory_ok n m ->
  match physical_allocate debug m with
  | Done (i, m') => memory_ok n m' /\ i ∈ free_set (buddy m) /\ free_set (buddy m') = free_set (buddy m) ∖ {[i]} /\
      forall a, baseAddress i <= a < baseAddress (i + 1) -> ram (buddy m') a = if debug then 170 else 0
  | Failed _ => free_set (buddy m) = ∅
  | Panic => False
  end.
Proof.
  intros [Hb Hc]. unfold physical_allocate. pose proof (allocLocked_ret n 0 (buddy m) Hb) as Ha.
  destruct (allocLocked 0 (buddy m)) as [[i b']|e|]; unfold mbind, result_bind; [| |done].
  - destruct Ha as (Hb' & Hf & Hin & Hfr & Hz). set (b2 := if debug then fill_page i b' else b').
    assert (Hb2 : buddy_ok n b2) by (unfold b2; destruct debug; [now apply filled_ok|done]).
    assert (Es : free_set b2 = free_set (buddy m) ∖ {[i]}).
    { apply set_eq. intros x. rewrite (free_set_elem n) by done. change (free_at b2 x) with (free_at (if debug then fill_page i b' else b') x).
      assert (E : free_at (if debug then fill_page i b' else b') x <-> free_at b' x) by now destruct debug. rewrite E, Hfr, in_block_0.
      rewrite elem_of_difference, elem_of_singleton, (free_set_elem n) by done. done. }
    assert (Hi : i ∈ free_set (buddy m)) by (apply (free_set_elem n); [done|]; now apply Hin, in_block_0).
    split; [split; [done|]|split; [done|]; split; [done|]].
    + cbn [buddy free_memory]. rewrite Hc. replace (_ - page) with (page * Z.of_nat (base.size (free_set (buddy m))) + page * -1) by lia.
      apply (count_after n); [done|]. rewrite Es, (size_remove (free_set (buddy m)) i Hi). lia.
    + cbn [buddy]. intros a Hal. unfold b2. destruct debug; cbn.
      * now rewrite (proj2 (Z.leb_le _ _)), (proj2 (Z.ltb_lt _ _)) by lia.
      * rewrite (Hz a). change (block_pages 0) with 1. now rewrite decide_True.
  - apply set_eq. intros x. rewrite (free_set_elem n) by done. split; [|set_solver]. intros (j & o & Hj & _). specialize (Ha j o Hj). lia.
Qed.

(** *** Lists of pages *)

Fixpoint chained (ds : Descriptors) (it : option Z) (l : list Z) : Prop :=
  match l with
  | [] => it = None
  | x :: l' => it = Some x /\ exists p, ds !! x = Some p /\ chained ds (next_node p) l'
  end.

Lemma chained_frame ds ds' it l : (forall i, i ∈ l -> ds' !! i = ds !! i) -> chained ds it l -> chained ds' it l.
Proof.
  revert it. induction l as [|x l IH]; intros it H; [done|]. cbn. intros (-> & p & Hp & Hl). split; [done|]. exists p.
  rewrite H by (now left). split; [done|]. apply IH; [|done]. intros i Hi. apply H. now right.
Qed.

(** The links of a page that is not free are of no concern to the allocator. *)
Lemma links_ok n i f b p : buddy_ok n b -> keeps_flags f -> descriptors b !! i = Some p -> (forall u, ~ block (descriptors b) i u) ->
  let b' := MkBuddy (<[i := f p]> (descriptors b)) (free_lists b) (nr_free b) (ram b) in
  buddy_ok n b' /\ (forall j u, block (descriptors b') j u <-> block (descriptors b) j u) /\ forall x, free_at b' x <-> free_at b x.
Proof.
  intros Hb Hf Hp Hn b'. pose proof (change_relinked [i] i f (descriptors b) p Hf ltac:(now left) Hp) as R.
  assert (Hbl : forall j u, block (descriptors b') j u <-> block (descriptors b) j u) by (intros; exact (block_relinked _ _ _ _ _ R)).
  split; [|split; [done|unfold free_at; setoid_rewrite Hbl; done]]. destruct Hb as [B1 B2 B3 B4 B5]. split; [done| | | |].
  - intros j. cbn. rewrite <- B2. destruct (decide (j = i)) as [->|]; [rewrite lookup_insert_eq, Hp; split; eauto|now rewrite lookup_insert_ne].
  - intros o Ho. destruct (B3 o Ho) as (l & Hl). exists l. apply (other_lists b); [done|done|done| |intros; apply Hbl].
    destruct Hl as (_ & _ & _ & _ & _ & F5). intros j Hj%F5. cbn. apply lookup_insert_ne. intros ->. now apply (Hn o).
  - intros j o Hj%Hbl. auto.
  - intros j o k u x Hj%Hbl Hk%Hbl. now apply (B5 j o k u x).
Qed.

Lemma deallocate_from_ret n l : forall fuel it b, (length l <= fuel)%nat -> buddy_ok n b -> chained (descriptors b) it l -> NoDup l ->
  (forall x, x ∈ l -> 0 <= x < n /\ ~ free_at b x) ->
  exists b', deallocate_pages_from fuel it b = Done b' /\ buddy_ok n b' /\ forall x, free_at b' x <-> free_at b x \/ x ∈ l.
Proof.
  induction l as [|i l IH]; intros fuel it b Hf Hb Hc Hn Hl; cbn [chained] in Hc.
  { subst it. exists b. destruct fuel; (split; [done|]; split; [done|]; intros x; rewrite elem_of_nil; tauto). }
  destruct Hc as (-> & p & Hp & Hc). apply NoDup_cons in Hn as [Hi Hn]. destruct fuel as [|fuel]; [cbn in Hf; lia|].
  destruct (Hl i ltac:(now left)) as [Hin Hifree].
  assert (Hnb : forall j, ~ free_at b j -> forall u, ~ block (descriptors b) j u).
  { intros j Hj u Hu. apply Hj. exists j, u. split; [done|apply in_block_first]. }
  cbn [deallocate_pages_from]. unfold descriptor, set_descriptor. rewrite Hp. unfold mbind, result_bind. rewrite (change_ret i _ _ p Hp).
  destruct (links_ok n i (fun p => with_prev None (with_next None p)) b p Hb ltac:(done) Hp (Hnb i Hifree)) as (Hb1 & Hbl1 & Hf1).
  set (b1 := MkBuddy _ _ _ _) in *.
  destruct (freeLocked_ret n i 0 b1 Hb1) as (b2 & -> & Hb2 & Hf2 & _ & Hfm).
  { split; [unfold num_orders; lia|]. split; [lia|]. change (block_pages 0) with 1. split; [apply Z.mod_1_r|lia]. }
  { intros x ->%in_block_0. now rewrite Hf1. }
  assert (Hkeep : forall j, j ∈ l -> descriptors b2 !! j = descriptors b !! j).
  { intros j Hj. assert (j <> i) by now intros ->. rewrite Hfm; [now apply lookup_insert_ne|done|]. intros u Hu%Hbl1.
    revert u Hu. apply Hnb. apply Hl. now right. }
  destruct (IH fuel (next_node p) b2) as (b' & -> & Hb' & Hf'); [cbn in Hf; lia|done|now apply (chained_frame (descriptors b))|done| |].
  - intros x Hx. destruct (Hl x ltac:(now right)) as [X1 X2]. split; [done|]. rewrite Hf2, Hf1, in_block_0. intros [?| ->]; done.
  - exists b'. split; [done|]. split; [done|]. intros x. rewrite Hf', Hf2, Hf1, in_block_0, elem_of_cons. tauto.
Qed.

(** The list of the pages [l], each put in front of those after it. *)
Definition page_list (l : list Z) (ds : Descriptors) : result AllocateError (PageList * Descriptors) :=
  foldr (fun i acc => '(pl, ds) ← acc; pageList_prepend i pl ds) (Done (MkPageList None None 0, ds)) l.

(** The pages of a list are given back. *)
Definition deallocate_list (l : list Z) (m : PhysicalMemory) : result AllocateError PhysicalMemory :=
  let b := buddy m in
  '(pl, ds) ← page_list l (descriptors b);
  physical_deallocate pl (MkPhysical (MkBuddy ds (free_lists b) (nr_free b) (ram b)) (free_memory m)).

Lemma page_list_ret n l b : buddy_ok n b -> NoDup l -> (forall x, x ∈ l -> 0 <= x < n /\ ~ free_at b x) ->
  exists pl ds, page_list l (descriptors b) = Done (pl, ds) /\ list_count pl = Z.of_nat (length l) /\ chained ds (first_index pl) l /\
    (let b' := MkBuddy ds (free_lists b) (nr_free b) (ram b) in
     buddy_ok n b' /\ (forall j u, block (descriptors b') j u <-> block (descriptors b) j u) /\ forall x, free_at b' x <-> free_at b x).
Proof.
  intros Hb. induction l as [|i l IH]; intros Hn Hl; cbn [page_list foldr].
  { eexists _, _. split; [done|]. split; [done|]. split; [done|]. now destruct b. }
  apply NoDup_cons in Hn as [Hi Hn]. destruct IH as (pl & ds & E & Hc & Hch & Hb1 & Hbl & Hfr); [done|intros x Hx; apply Hl; now right|].
  unfold page_list in E. rewrite E. unfold mbind, result_bind, pageList_prepend. set (b1 := MkBuddy ds _ _ _) in *.
  destruct (Hl i ltac:(now left)) as [Hin Hif]. destruct (proj2 (bk_array _ _ Hb1 i) Hin) as [p Hp]. cbn [descriptors b1] in Hp.
  rewrite (change_ret i _ ds p Hp). eexists _, _. split; [done|]. split; [cbn; lia|]. split.
  - cbn. split; [done|]. exists (with_next (first_index pl) p). rewrite lookup_insert_eq. split; [done|].
    apply (chained_frame ds); [|done]. intros j Hj. apply lookup_insert_ne. now intros ->.
  - destruct (links_ok n i (with_next (first_index pl)) b1 p Hb1 ltac:(done) Hp) as (L1 & L2 & L3).
    { intros u Hu%Hbl. apply Hif. exists i, u. split; [done|apply in_block_first]. }
    split; [done|]. split; [intros; rewrite <- Hbl; apply L2|intros; rewrite <- Hfr; apply L3].
Qed.

Lemma deallocate_list_ret n l m : memory_ok n m -> NoDup l -> (forall x, x ∈ l -> 0 <= x < n /\ x ∉ free_set (buddy m)) ->
  exists m', deallocate_list l m = Done m' /\ memory_ok n m' /\ free_set (buddy m') = free_set (buddy m) ∪ list_to_set l.
Proof.
  intros [Hb Hc] Hn Hl. assert (Hl' : forall x, x ∈ l -> 0 <= x < n /\ ~ free_at (buddy m) x).
  { intros x Hx. destruct (Hl x Hx) as [H1 H2]. split; [done|]. now rewrite <- (free_set_elem n). }
  unfold deallocate_list. destruct (page_list_ret n l (buddy m) Hb Hn Hl') as (pl & ds & -> & Hcount & Hch & Hb1 & Hbl & Hfr).
  unfold mbind, result_bind, physical_deallocate. set (b1 := MkBuddy ds _ _ _) in *. cbn [buddy free_memory].
  assert (Es1 : free_set b1 = free_set (buddy m)) by (apply set_eq; intros x; rewrite !(free_set_elem n) by done; apply Hfr).
  destruct (Z.eqb_spec (list_count pl) 0) as [H0|H0].
  { destruct l as [|x l]; [|cbn in Hcount; lia]. eexists. split; [done|]. split; [split; [done|]|]; cbn [buddy free_memory]; rewrite Es1; [done|].
    cbn. now rewrite union_empty_r_L. }
  rewrite Hcount, Nat2Z.id. destruct (deallocate_from_ret n l (length l) (first_index pl) b1) as (b' & -> & Hb' & Hf');
    [done|done|done|done|intros x Hx; rewrite Hfr; auto|].
  assert (Es : free_set b' = free_set (buddy m) ∪ list_to_set l).
  { apply set_eq. intros x. rewrite elem_of_union, elem_of_list_to_set, !(free_set_elem n) by done. now rewrite Hf', Hfr. }
  eexists. split; [done|]. split; [split; [done|]|done]. cbn [buddy free_memory]. rewrite Hc. apply (count_after n); [done|].
  rewrite Es, size_union, size_list_to_set by (done || (intros x Hx Hx'%elem_of_list_to_set; now destruct (Hl x Hx'))). lia.
Qed.

(** ** The allocator the kernel relies on *)

(** The allocator of a machine with [n] page descriptors, in a state that satisfies
    the invariant. *)
Definition Physical (debug : bool) (n : Z) : Type := { m : PhysicalMemory | memory_ok n m }.

Section Instance.
Variable debug : bool.
Variable n : Z.

Lemma allocate_keeps m : memory_ok n m -> match physical_allocate debug m with Done (_, m') => memory_ok n m' | _ => True end.
Proof. intros Hm. pose proof (physical_allocate_ret n debug m Hm). destruct (physical_allocate debug m) as [[i m']|e|]; tauto. Qed.

Definition allocate_page_of (a : Physical debug n) : option (Z * Physical debug n) :=
  match physical_allocate debug (`a) as r return match r with Done (_, m') => memory_ok n m' | _ => True end -> option (Z * Physical debug n) with
  | Done (i, m') => fun H => Some (i, exist _ m' H)
  | _ => fun _ => None
  end (allocate_keeps (`a) (proj2_sig a)).

(** The list that [deallocate] is given: pages of the machine, once each, that are
    not free. *)
Definition returnable (l : list Z) (m : PhysicalMemory) : Prop := NoDup l /\ Forall (fun x => 0 <= x < n /\ x ∉ free_set (buddy m)) l.
#[export] Instance returnable_dec l m : Decision (returnable l m).
Proof. unfold returnable. apply _. Defined.

Lemma deallocate_keeps l m : memory_ok n m -> returnable l m -> match deallocate_list l m with Done m' => memory_ok n m' | _ => True end.
Proof.
  intros Hm [H1 H2]. rewrite Forall_forall in H2. destruct (deallocate_list_ret n l m Hm H1 H2) as (m' & -> & Hm' & _). done.
Qed.

(** A list that is not [returnable] has no result. *)
Definition deallocate_pages_of (l : list Z) (a : Physical debug n) : Physical debug n :=
  match decide (returnable l (`a)) with
  | left H =>
      match deallocate_list l (`a) as r return match r with Done m' => memory_ok n m' | _ => True end -> Physical debug n with
      | Done m' => fun H => exist _ m' H
      | _ => fun _ => a
      end (deallocate_keeps l (`a) (proj2_sig a) H)
  | right _ => a
  end.

#[export] Instance physical_allocator : PageAllocator (Physical debug n) := {
  allocate := allocate_page_of;
  deallocate := deallocate_pages_of;
  free_pages := fun a => free_set (buddy (`a));
  page_limit := Z.min n (2 ^ 32)
}.

Lemma allocate_page_some a f a' : allocate_page_of a = Some (f, a') -> physical_allocate debug (`a) = Done (f, `a').
Proof.
  unfold allocate_page_of. generalize (allocate_keeps (`a) (proj2_sig a)). destruct (physical_allocate debug (`a)) as [[i m']|e|]; [|done|done].
  now intros H [= <- <-].
Qed.

Lemma allocate_page_none a : allocate_page_of a = None -> forall f m', physical_allocate debug (`a) <> Done (f, m').
Proof.
  unfold allocate_page_of. generalize (allocate_keeps (`a) (proj2_sig a)). destruct (physical_allocate debug (`a)) as [[i m']|e|]; done.
Qed.

Lemma deallocate_pages_done l (a : Physical debug n) m' : returnable l (`a) -> deallocate_list l (`a) = Done m' -> proj1_sig (deallocate_pages_of l a) = m'.
Proof.
  intros Hr E. unfold deallocate_pages_of. destruct (decide _) as [H|H]; [|done]. generalize (deallocate_keeps l (`a) (proj2_sig a) H). now rewrite E.
Qed.

#[export] Instance physical_laws : PageAllocatorLaws (Physical debug n).
Proof.
  split; cbn.
  - intros a f a' E%allocate_page_some. pose proof (physical_allocate_ret n debug (`a) (proj2_sig a)) as H. rewrite E in H. tauto.
  - intros a E. pose proof (physical_allocate_ret n debug (`a) (proj2_sig a)) as H. pose proof (allocate_page_none a E) as H'.
    destruct (physical_allocate debug (`a)) as [[i m']|e|]; [now destruct (H' i m')|done|done].
  - intros l a Hn Hf Hb. assert (Hl : forall x, x ∈ l -> 0 <= x < n /\ x ∉ free_set (buddy (`a))).
    { intros x Hx. specialize (Hb x Hx). split; [lia|auto]. }
    destruct (deallocate_list_ret n l (`a) (proj2_sig a) Hn Hl) as (m' & E & _ & Es).
    rewrite (deallocate_pages_done l a m'); [done| |done]. split; [done|]. now apply Forall_forall.
  - intros a f Hf. destruct (proj2_sig a) as [Hb _]. apply (free_set_elem n) in Hf; [|done]. pose proof (free_at_limit n _ f Hb Hf).
    destruct (bk_limit _ _ Hb) as [_ ?]. lia.
  - lia.
Qed.
End Instance.

(** ** Initialization *)

Lemma largest_order_fits n current end_index : 0 <= current < end_index -> end_index <= n -> forall order, (order < num_orders)%nat ->
  let o := largest_order current end_index order in fits n current o /\ current + block_pages o <= end_index.
Proof.
  intros Hc He. induction order as [|order IH]; intros Ho; cbn [largest_order].
  - unfold fits. change (block_pages 0) with 1. rewrite Z.mod_1_r. lia.
  - destruct (Z.eqb_spec (Z.land current (block_pages (S order) - 1)) 0) as [Hl|Hl]; cbn [negb]; [|apply IH; lia].
    destruct (Z.ltb_spec end_index (current + block_pages (S order))) as [Hlt|Hlt]; [apply IH; lia|].
    rewrite block_pages_pow in Hl. replace (2 ^ Z.of_nat (S order) - 1) with (Z.ones (Z.of_nat (S order))) in Hl by (rewrite Z.ones_equiv; lia).
    rewrite Z.land_ones, <- block_pages_pow in Hl by lia. unfold fits. lia.
Qed.

Lemma add_region_ret n end_index : end_index <= n -> forall fuel current b, buddy_ok n b -> 0 <= current -> end_index - current <= Z.of_nat fuel ->
  (forall x, current <= x < end_index -> ~ free_at b x) ->
  exists b', add_region fuel current end_index b = Done b' /\ buddy_ok n b' /\ ram b' = ram b /\
    forall x, free_at b' x <-> free_at b x \/ current <= x < end_index.
Proof.
  intros He. induction fuel as [|fuel IH]; intros current b Hb Hc Hf Hno; cbn [add_region]; destruct (Z.ltb_spec current end_index) as [Hlt|Hlt].
  - lia.
  - exists b. split; [done|]. split; [done|]. split; [done|]. intros x. split; [auto|intros [?|?]; [done|lia]].
  - destruct (largest_order_fits n current end_index ltac:(lia) He max_order ltac:(unfold max_order, num_orders; lia)) as [Hfit Hle].
    set (o := largest_order _ _ _) in *. pose proof (block_pages_pos o).
    destruct (addBlock_ret n current o b Hb Hfit) as (b1 & -> & Ha); [intros x Hx; apply Hno; unfold in_block in Hx; lia|].
    pose proof (fun x => added_free n current o b b1 x Ha) as Hfr. destruct Ha as (Hb1 & Hr1 & _). unfold mbind, result_bind.
    destruct (IH (current + block_pages o) b1 Hb1 ltac:(lia) ltac:(lia)) as (b' & -> & Hb' & Hr' & Hf').
    { intros x Hx [H'|H']%Hfr; [now apply (Hno x); [lia|]|unfold in_block in H'; lia]. }
    exists b'. split; [done|]. split; [done|]. split; [congruence|]. intros x. rewrite Hf', Hfr. unfold in_block.
    split; [intros [[?|?]|?]; [auto|right; lia|right; lia]|]. intros [?|?]; [auto|]. destruct (Z_lt_le_dec x (current + block_pages o)); [left; right; lia|right; lia].
  - exists b. split; [done|]. split; [done|]. split; [done|]. intros x. split; [auto|intros [?|?]; [done|lia]].
Qed.

(** The regions are in order and apart. *)
Fixpoint regions_in (lo : Z) (regions : list (Z * Z)) (hi : Z) : Prop :=
  match regions with
  | [] => True
  | (first_free, end_index) :: regions' => lo <= first_free <= end_index /\ end_index <= hi /\ regions_in end_index regions' hi
  end.

Definition in_regions (regions : list (Z * Z)) (x : Z) : Prop := Exists (fun r => r.1 <= x < r.2) regions.

Lemma in_regions_lo lo regions hi x : regions_in lo regions hi -> in_regions regions x -> lo <= x.
Proof.
  intros H Hx. revert lo H. induction Hx as [[a e] l H|[a e] l _ IH]; cbn; intros lo Hr; [cbn in H; lia|].
  destruct Hr as (H1 & H2 & H3). specialize (IH _ H3). lia.
Qed.

Lemma add_regions_ret n regions : forall lo b, buddy_ok n b -> 0 <= lo -> regions_in lo regions n -> (forall x, lo <= x -> ~ free_at b x) ->
  exists b', add_regions regions b = Done b' /\ buddy_ok n b' /\ ram b' = ram b /\ forall x, free_at b' x <-> free_at b x \/ in_regions regions x.
Proof.
  induction regions as [|[a e] regions IH]; intros lo b Hb H0 Hr Hno; cbn [add_regions].
  - exists b. split; [done|]. split; [done|]. split; [done|]. intros x. unfold in_regions. rewrite Exists_nil. tauto.
  - destruct Hr as (R1 & R2 & R3).
    destruct (add_region_ret n e R2 (Z.to_nat (e - a)) a b Hb ltac:(lia) ltac:(lia)) as (b1 & -> & Hb1 & Hr1 & Hf1); [intros x Hx; apply Hno; lia|].
    unfold mbind, result_bind. destruct (IH e b1 Hb1 ltac:(lia) R3) as (b' & -> & Hb' & Hr' & Hf').
    { intros x Hx [H|H]%Hf1; [now apply (Hno x); [lia|]|lia]. }
    exists b'. split; [done|]. split; [done|]. split; [congruence|]. intros x. rewrite Hf', Hf1. unfold in_regions. rewrite Exists_cons. cbn [fst snd]. tauto.
Qed.

Lemma empty_lookup n i : 0 <= n -> descriptors (empty_buddy n (fun _ => 0)) !! i = if decide (0 <= i < n) then Some (MkDescriptor None None 0 false) else None.
Proof.
  intros Hn. cbn. case_decide as Hi.
  - apply elem_of_list_to_map; [rewrite <- list_fmap_compose; cbn; rewrite list_fmap_id; apply NoDup_seqZ|].
    apply list_elem_of_fmap. exists i. split; [done|]. apply elem_of_seqZ. lia.
  - apply not_elem_of_list_to_map. rewrite <- list_fmap_compose. cbn. rewrite list_fmap_id. rewrite elem_of_seqZ. lia.
Qed.

Lemma empty_ok n m : n mod block_pages max_order = 0 -> 0 <= n < 2 ^ 32 ->
  buddy_ok n (empty_buddy n m) /\ forall x, ~ free_at (empty_buddy n m) x.
Proof.
  intros Hm Hn. assert (Hl : forall i p, descriptors (empty_buddy n m) !! i = Some p -> p = MkDescriptor None None 0 false).
  { intros i p. change (descriptors (empty_buddy n m)) with (descriptors (empty_buddy n (fun _ => 0))). rewrite empty_lookup by lia. now case_decide; intros [= <-]. }
  assert (Hb : forall i o, ~ block (descriptors (empty_buddy n m)) i o) by (intros i o (p & Hp & Hf & _); now rewrite (Hl i p Hp) in Hf).
  split; [|intros x (i & o & Hi & _); now apply (Hb i o)]. split; [done| | | |].
  - intros i. change (descriptors (empty_buddy n m)) with (descriptors (empty_buddy n (fun _ => 0))). rewrite empty_lookup by lia.
    case_decide; [split; eauto|]. split; [now intros [? ?]|done].
  - intros o Ho. exists [], None. cbn [free_lists nr_free empty_buddy]. rewrite !lookup_replicate_2 by done. split; [done|]. split; [done|]. split; [constructor|].
    split; [done|]. intros i. rewrite elem_of_nil. split; [done|apply Hb].
  - intros i o Hi. now destruct (Hb i o).
  - intros i o j u x Hi. now destruct (Hb i o).
Qed.

Definition region_pages (regions : list (Z * Z)) : list Z := regions ≫= fun r => seqZ r.1 (r.2 - r.1).

Lemma region_pages_elem regions x : x ∈ region_pages regions <-> in_regions regions x.
Proof.
  unfold region_pages, in_regions. rewrite list_elem_of_bind, Exists_exists. split.
  - intros (r & Hx%elem_of_seqZ & Hr). exists r. split; [done|lia].
  - intros (r & Hr & Hx). exists r. split; [apply elem_of_seqZ; lia|done].
Qed.

Lemma region_pages_nodup lo regions hi : regions_in lo regions hi ->
  NoDup (region_pages regions) /\ Z.of_nat (length (region_pages regions)) = foldr (fun r s => (r.2 - r.1) + s) 0 regions.
Proof.
  revert lo. induction regions as [|[a e] regions IH]; intros lo Hr; [split; [constructor|done]|]. destruct Hr as (R1 & R2 & R3).
  destruct (IH e R3) as [I1 I2]. unfold region_pages in *. cbn [mbind list_bind] in *. cbn. split.
  - apply NoDup_app. split; [apply NoDup_seqZ|]. split; [|done]. intros x Hx%elem_of_seqZ Hx'%region_pages_elem.
    pose proof (in_regions_lo _ _ _ _ R3 Hx'). cbn in Hx. lia.
  - rewrite length_app, length_seqZ, Nat2Z.inj_add. cbn in I2. rewrite I2. cbn. lia.
Qed.

Lemma initialize_ret n regions m : n mod block_pages max_order = 0 -> 0 <= n < 2 ^ 32 -> regions_in 0 regions n ->
  exists pm, initializePhysicalMemory n regions m = Done pm /\ memory_ok n pm /\ (forall x, x ∈ free_set (buddy pm) <-> in_regions regions x) /\
    ram (buddy pm) = m.
Proof.
  intros Hm Hn Hr. destruct (empty_ok n m Hm Hn) as [Hb Hno]. unfold initializePhysicalMemory.
  destruct (add_regions_ret n regions 0 (empty_buddy n m) Hb ltac:(lia) Hr) as (b & -> & Hb' & Hram & Hf); [intros x _; apply Hno|].
  assert (Hfs : forall x, x ∈ free_set b <-> in_regions regions x).
  { intros x. rewrite (free_set_elem n) by done. rewrite Hf. split; [intros [H|?]; [now apply Hno in H|done]|auto]. }
  eexists. split; [done|]. split; [split; [done|]|done]. cbn [buddy free_memory].
  destruct (region_pages_nodup 0 regions n Hr) as [N1 N2].
  replace (base.size (free_set b)) with (length (region_pages regions)).
  - rewrite N2. clear. induction regions as [|[a e] regions IH]; cbn in *; lia.
  - rewrite <- (size_list_to_set (C := gset Z)) by done. f_equal. apply set_eq. intros x. rewrite elem_of_list_to_set, region_pages_elem. symmetry. apply Hfs.
Qed.

(** ** Properties *)

Definition block_set (i : Z) (o : nat) : gset Z := list_to_set (seqZ i (block_pages o)).

Lemma block_set_elem i o x : x ∈ block_set i o <-> in_block i o x.
Proof. unfold block_set, in_block. rewrite elem_of_list_to_set, elem_of_seqZ. done. Qed.

Lemma block_set_size i o : Z.of_nat (base.size (block_set i o)) = block_pages o.
Proof. unfold block_set. rewrite size_list_to_set, length_seqZ by apply NoDup_seqZ. pose proof (block_pages_pos o). lia. Qed.

(** The free pages with and without a block. *)
Lemma free_count n n' b b' i o : buddy_ok n b -> buddy_ok n' b' -> free_set b' = free_set b ∪ block_set i o -> free_set b ## block_set i o ->
  totalFreePages b' = totalFreePages b + block_pages o.
Proof.
  intros Hb Hb' E Hd. rewrite (totalFreePages_ret n b Hb), (totalFreePages_ret n' b' Hb'), E, size_union by done.
  rewrite Nat2Z.inj_add, block_set_size. done.
Qed.

(** C29. An allocation of [2 ^ order] pages from an allocator in a good state never
    panics.  It takes an aligned block of free pages out of the set of free pages,
    which is counted right, keeps the lists and descriptors in a good state, and
    returns the block with every byte 0 and no other byte changed; it fails only
    when no free block is as large. *)
Theorem buddy_alloc_correct n order b : buddy_ok n b ->
  match allocLocked order b with
  | Done (i, b') => buddy_ok n b' /\ i mod block_pages order = 0 /\
      block_set i order ⊆ free_set b /\ free_set b' = free_set b ∖ block_set i order /\
      totalFreePages b' = totalFreePages b - block_pages order /\ zeroes i order (ram b) (ram b')
  | Failed _ => forall i o, block (descriptors b) i o -> (o < order)%nat
  | Panic => False
  end.
Proof.
  intros Hb. pose proof (allocLocked_ret n order b Hb) as Ha. destruct (allocLocked order b) as [[i b']|e|]; [|done|done].
  destruct Ha as (Hb' & (_ & _ & Hm & _) & Hin & Hfr & Hz). split; [done|]. split; [done|].
  assert (Hsub : block_set i order ⊆ free_set b) by (intros x Hx%block_set_elem; apply (free_set_elem n); auto).
  assert (Es : free_set b' = free_set b ∖ block_set i order).
  { apply set_eq. intros x. rewrite elem_of_difference, block_set_elem, !(free_set_elem n) by done. apply Hfr. }
  split; [done|]. split; [done|]. split; [|done].
  rewrite (free_count n n b' b i order); [lia|done|done| |rewrite Es; set_solver].
  rewrite Es. apply set_eq. intros x. specialize (Hsub x). rewrite elem_of_union, elem_of_difference.
  destruct (decide (x ∈ block_set i order)); tauto.
Qed.


(** The initialization from a memory map, for a number of descriptors that is a
    multiple of the largest block, ends with exactly the pages of the free regions
    free, however they are cut into blocks, and with the number of free bytes. *)
Theorem initialize_correct n regions m : n mod block_pages max_order = 0 -> 0 <= n < 2 ^ 32 -> regions_in 0 regions n ->
  exists pm, initializePhysicalMemory n regions m = Done pm /\ buddy_ok n (buddy pm) /\
    (forall x, x ∈ free_set (buddy pm) <-> in_regions regions x) /\
    free_memory pm = page * totalFreePages (buddy pm).
Proof.
  intros Hm Hn Hr. destruct (initialize_ret n regions m Hm Hn Hr) as (pm & E & [Hb Hc] & Hf & _).
  exists pm. split; [done|]. split; [done|]. split; [done|]. now rewrite (totalFreePages_ret n _ Hb).
Qed.

(** A machine with 15 free pages from page 1 on and 21 from page 20 on. *)
Definition demo_regions : list (Z * Z) := [(1, 16); (20, 41)].
Definition demo_physical : PhysicalMemory :=
  match initializePhysicalMemory 1024 demo_regions (fun _ => 1) with Done pm => pm | _ => MkPhysical (empty_buddy 1024 (fun _ => 1)) 0 end.

Lemma demo_memory_ok : memory_ok 1024 demo_physical.
Proof.
  destruct (initialize_ret 1024 demo_regions (fun _ => 1)) as (pm & E & Hm & _); [done|done|cbn; lia|].
  unfold demo_physical. rewrite E. exact Hm.
Qed.

Lemma buddy_alloc_correct_witness : exists i b', allocLocked 2 (buddy demo_physical) = Done (i, b') /\ i = 20 /\
  buddy_ok 1024 b' /\ block_set 20 2 ⊆ free_set (buddy demo_physical) /\ totalFreePages b' = 32.
Proof.
  pose proof (buddy_alloc_correct 1024 2 (buddy demo_physical) (mo_buddy _ _ demo_memory_ok)) as H.
  assert (E : match allocLocked 2 (buddy demo_physical) with Done (i, b') => i = 20 /\ totalFreePages (buddy demo_physical) = 36 | _ => False end)
    by (vm_compute; split; reflexivity).
  destruct (allocLocked 2 (buddy demo_physical)) as [[i b']|e|]; [|contradiction|contradiction].
  destruct E as [-> Et], H as (H1 & _ & H2 & _ & H3 & _). rewrite Et in H3. exists 20, b'. split; [reflexivity|]. split; [reflexivity|]. split; [exact H1|]. split; [exact H2|]. rewrite H3. reflexivity.
Defined.


Lemma initialize_correct_witness : exists pm, initializePhysicalMemory 1024 demo_regions (fun _ => 1) = Done pm /\
  buddy_ok 1024 (buddy pm) /\ (forall x, x ∈ free_set (buddy pm) <-> in_regions demo_regions x).
Proof.
  destruct (initialize_correct 1024 demo_regions (fun _ => 1)) as (pm & E & H1 & H2 & _); [reflexivity|lia|cbn; lia|].
  exists pm. split; [exact E|]. split; [exact H1|exact H2].
Defined.

(** The number of descriptors is the number of the last usable page plus one, not
    a multiple of anything, and [freeLocked] reads the descriptor of the buddy
    whether there is one or not: on a machine with three pages, all free, a page
    that was allocated cannot be given back. *)
Theorem free_past_end_panics : exists pm i pm',
  initializePhysicalMemory 3 [(0, 3)] (fun _ => 0) = Done pm /\ physical_allocate false pm = Done (i, pm') /\
  deallocate_list [i] pm' = Panic.
Proof.
  destruct (initializePhysicalMemory 3 [(0, 3)] (fun _ => 0)) as [pm|e|] eqn:E; [|vm_compute in E; discriminate E..].
  destruct (physical_allocate false pm) as [[i pm']|e|] eqn:Ea.
  - exists pm, i, pm'. split; [done|]. split; [done|]. injection E as <-. vm_compute in Ea. injection Ea as <- <-. vm_compute. reflexivity.
  - injection E as <-. vm_compute in Ea. discriminate Ea.
  - injection E as <-. vm_compute in Ea. discriminate Ea.
Qed.
