(* ===== verification/MemorySystem.v ===== *)
(** * The memory of a machine

    From the memory map of the machine to the loads and stores of a process: the
    allocator of pages is filled, a process gets its page table and its empty
    address space, and from then on its memory is the one it is promised.  The
    theorems here are about all the parts together. *)

From stdpp Require Import gmap.
From S2P Require Import Prelude Machine AddressSpace AddressSpaceCorrect AddressSpaceProtect Mapping PageTable PageTableCorrect Paging PageFault PageFaultCorrect VirtualMemory FaultHandled Reclaim ProcessMemory FlatMemory Buddy BuddyCorrect PhysicalMemory.

(** ** A new process *)

Section NewProcess.
Context {A : Type} {alloc_ops : PageAllocator A}.

(** [PageTable.create] of the page [f], whose upper half is the kernel's. *)
Definition create (f : Z) : Level4 := MkTable f ∅.

(** The constructor of [Process.zig]: a page for the table and an empty address
    space. *)
Definition constructor (m : Z -> Z) (a : A) : option (VM A) :=
  '(f, a) ← allocate a;
  Some (MkVM (init user_memory_range) ∅ (create f) m a no_locks).

Context {laws : PageAllocatorLaws A}.
Variable nx : bool.

Lemma init_layout : layout_ok (init user_memory_range).
Proof.
  split; [|done|done| |].
  - split; [done|]. split; [done|]. split; [done|]. split; [done|]. split; [done|]. intros i. cbn. now rewrite lookup_empty.
  - intros x y i o (e & off & He & _). now apply elem_of_nil in He.
  - intros x t (e & He & _). now apply elem_of_nil in He.
Qed.

Lemma create_translate f x : translate (create f) x = None.
Proof. unfold translate, level3_at, next_at. cbn. now rewrite lookup_empty. Qed.

Lemma create_pages f : pages4 no_pages (create f) = [f].
Proof. unfold pages4, table_pages. cbn. now rewrite map_to_list_empty. Qed.

Lemma constructor_ret m a v : constructor m a = Some v ->
  running nx (address user_memory_range) 0 v /\ forall x, flat_mapping (flat_of v) x = None /\ flat_byte (flat_of v) x = 0.
Proof.
  unfold constructor. destruct (allocate a) as [[f a']|] eqn:Ea; [|done]. intros [= <-]. destruct (allocate_some a f a' Ea) as [Hin Ef].
  split; [|done]. split; [|split; [done|]; split; [done|]; now intros i]. split; cbn.
  - exact init_layout.
  - split; [intros i mm Hm; now rewrite lookup_empty in Hm|..]; intros; unfold slot_at in *; rewrite ?lookup_empty in *; done.
  - rewrite ?create_pages. split; cbn.
    + apply NoDup_singleton.
    + intros g ->%list_elem_of_singleton. rewrite Ef. set_solver.
    + intros g ->%list_elem_of_singleton. now apply (free_index a).
    + intros p ap Hp. now rewrite lookup_empty in Hp.
    + intros p q ap aq Hp. now rewrite lookup_empty in Hp.
  - split; [apply empty_plain|]. intros x word _ Hw. rewrite create_translate in Hw. done.
Qed.
End NewProcess.

(** ** Memory that is pointwise the same *)

Lemma flat_same_sym f g : flat_same f g -> flat_same g f.
Proof. intros [H1 H2]. split; intros x; [now rewrite H1|now rewrite H2]. Qed.

Lemma flat_same_trans f g h : flat_same f g -> flat_same g h -> flat_same f h.
Proof. intros [A1 A2] [B1 B2]. split; intros x; [now rewrite B1|now rewrite B2]. Qed.

Lemma flat_step_same op a f g f' : flat_same f g -> flat_step op a f f' -> flat_step op a g f'.
Proof.
  intros Hs Hst. pose proof Hs as [S1 S2]. pose proof (flat_same_sym _ _ Hs) as Hs'. revert Hs Hs' S1 S2.
  destruct Hst as [base n prot max r f f' H1 H2 H3 H4|r f f' H1 H2|r change f f' H1 H2|x f f' H1 H2|x byte t f f' H1 H2 H3 H4|op f f' H1 H2|op x access e f f' H1 H2 H3];
    intros Hs Hs' S1 S2.
  - apply flat_map; [intros x Hx; rewrite S1; auto|intros x; rewrite H2; case_decide; auto|intros x; rewrite H3; auto|done].
  - apply flat_unmap; intros x; [rewrite H1|rewrite H2]; case_decide; auto.
  - apply flat_protect; intros x; [rewrite H1, S1; done|rewrite H2; auto].
  - rewrite <- S2. apply flat_load; [now rewrite S1|now apply (flat_same_trans g f)].
  - apply (flat_store x byte t); [now rewrite S1|done|intros y; now rewrite H3, S1|intros y; now rewrite H4, S2].
  - apply flat_refused; [done|now apply (flat_same_trans g f)].
  - apply (flat_killed op x access); [done| |now apply (flat_same_trans g f)]. now rewrite S1.
Qed.

Lemma may_panic_same debug op f g : flat_same f g -> may_panic debug op f -> may_panic debug op g.
Proof.
  intros [Hs _]. assert (Hole : forall r, flat_hole f r -> flat_hole g r).
  { intros r [H1 (y & H2 & H3)]. split; [intros x Hx; rewrite Hs; auto|]. exists y. now rewrite Hs. }
  destruct op as [base n prot max|r|r change|x|x b]; cbn; auto. intros [H|[(x & t & H1 & H2 & H3)|H]]; auto.
  right. left. exists x, t. now rewrite !Hs.
Qed.

Lemma flat_run_same debug ops answers f g f' : flat_same f g -> flat_run debug ops answers f f' -> flat_run debug ops answers g f'.
Proof.
  intros Hs Hr. destruct Hr as [f f' H|op ops a answers f f1 f' H1 H2|op ops f f' H].
  - constructor. now apply (flat_same_trans g f); [apply flat_same_sym|].
  - apply (flat_cons debug op ops a answers g f1 f'); [now apply (flat_step_same op a f)|done].
  - apply flat_panic. now apply (may_panic_same debug op f).
Qed.

(** ** Properties *)

(** Nothing is mapped, every byte is 0. *)
Definition empty_flat : Flat := MkFlat (fun _ => None) (fun _ => 0).

Lemma process_refines_ret debug nx n regions m ops :
  n mod block_pages max_order = 0 -> 0 <= n < 2 ^ 32 -> regions_in 0 regions n -> (exists x, in_regions regions x) ->
  Forall (op_ok (address user_memory_range)) ops -> total_mapped ops.*2 < 2 ^ 32 * page ->
  exists pm (Hpm : memory_ok n pm) v, initializePhysicalMemory n regions m = Done pm /\
    constructor m (exist _ pm Hpm : Physical debug n) = Some v /\
    exists answers v', run_ops debug nx ops v = Some (answers, v') /\ flat_run debug ops.*2 answers empty_flat (flat_of v') /\
      (Panicked ∉ answers -> vm_ok nx v' /\ locks v' = no_locks).
Proof.
  intros Hm Hn Hr [x Hx] Hops Hk. destruct (initialize_ret n regions m Hm Hn Hr) as (pm & E & Hpm & Hf & _). exists pm, Hpm.
  set (a := exist _ pm Hpm : Physical debug n). destruct (allocate a) as [[f a']|] eqn:Ea.
  2: { exfalso. apply allocate_none in Ea. apply Hf in Hx. change (free_set (buddy pm) = ∅) in Ea. rewrite Ea in Hx. now apply elem_of_empty in Hx. }
  eexists. split; [done|]. unfold constructor. rewrite Ea. split; [done|].
  destruct (constructor_ret nx m a (MkVM (init user_memory_range) ∅ (create f) m a' no_locks)) as [Hrun Hflat]; [unfold constructor; now rewrite Ea|].
  destruct (run_ops_refines debug nx (address user_memory_range) ops 0 _ Hrun Hops Hk) as (answers & v' & E' & Hfr & Hok).
  exists answers, v'. split; [done|]. split; [|intros Hp; destruct (Hok Hp) as (? & ? & _); done].
  apply (flat_run_same _ _ _ _ empty_flat) in Hfr; [done|]. split; intros y; symmetry; apply Hflat.
Qed.


(** A process that maps, stores, loads, protects and unmaps. *)
Definition enough : Resources := MkResources true true true true.
Definition demo_ops : list (bool * Resources * Op) :=
  [ (true, enough, OpMap (Some 65536) 8192 rw None); (true, enough, OpStore 65540 42); (true, enough, OpLoad 65540);
    (true, enough, OpLoad 69632); (true, enough, OpProtect (VRange 65536 4096) (change_protection (Prot true false false)));
    (true, enough, OpStore 65541 1); (true, enough, OpLoad 65540); (true, enough, OpUnmap (VRange 65536 4096));
    (true, enough, OpLoad 65540); (true, enough, OpMap (Some 65536) 4096 rw None); (true, enough, OpLoad 65540) ].

Lemma demo_ops_ok : Forall (op_ok (address user_memory_range)) demo_ops.
Proof. repeat constructor; vm_compute; congruence. Qed.


(** The same run with pages 1 to 12 in a set, evaluated. *)
Definition demo_pages : gset Z := list_to_set (seqZ 1 12).
Definition demo_start : VM (gset Z) :=
  default (MkVM (init user_memory_range) ∅ (create 0) (fun _ => 7) ∅ no_locks) (constructor (fun _ => 7) demo_pages).
Definition demo_run (ops : list (bool * Resources * Op)) : list Answer * VM (gset Z) :=
  match run_ops true true ops demo_start with Some r => r | None => ([Panicked], demo_start) end.

Example demo_answers : (demo_run demo_ops).1 =
  [Mapped (VRange 65536 8192); Stored; Loaded 42; Loaded 0; Protected; Killed ProtectionViolation; Loaded 42; Unmapped;
   Killed NotMapped; Mapped (VRange 65536 4096); Loaded 0].
Proof. vm_compute. reflexivity. Qed.

(** The states the run goes through are in order. *)
Lemma demo_start_ok : running true (address user_memory_range) 0 demo_start.
Proof.
  apply (constructor_ret true (fun _ => 7) demo_pages). unfold demo_start.
  destruct (constructor (fun _ => 7) demo_pages) eqn:E; [reflexivity|vm_compute in E; discriminate E].
Qed.

(** After [n] of the operations. *)
Definition demo_state (n : nat) : VM (gset Z) := (demo_run (take n demo_ops)).2.

Lemma demo_state_ok n : forallb (fun a => match a with Panicked => false | _ => true end) (demo_run (take n demo_ops)).1 = true ->
  vm_ok true (demo_state n) /\ locks (demo_state n) = no_locks.
Proof.
  intros Hp. assert (Hops : Forall (op_ok (address user_memory_range)) (take n demo_ops)) by apply Forall_take, demo_ops_ok.
  assert (Hk : 0 + total_mapped (take n demo_ops).*2 < 2 ^ 32 * page).
  { do 12 (destruct n as [|n]; [vm_compute; reflexivity|]). rewrite take_ge by (cbn; lia). vm_compute. reflexivity. }
  destruct (run_ops_refines true true (address user_memory_range) _ 0 demo_start demo_start_ok Hops Hk) as (answers & v' & E & _ & Hok).
  unfold demo_state, demo_run in *. rewrite E in *. cbn in Hp |- *. destruct Hok as (H1 & H2 & _); [|done].
  intros Hin. rewrite forallb_forall in Hp. now specialize (Hp Panicked (proj1 (list_elem_of_In _ _) Hin)).
Qed.





(** An address with a page is in an entry whose size is the one of a map. *)
Lemma translated_small {A} {alloc_ops : PageAllocator A} nx (v : VM A) a word e : vm_ok nx v -> 0 <= a < 2 ^ 47 ->
  translate (page_table v) a = Some word -> e ∈ entries (space v) -> contains (range e) a -> size (range e) / page < 2 ^ 32.
Proof.
  intros Hv Ha Hw He Hc. pose proof (vm_layout _ _ Hv) as Hl. destruct (tb_backed _ _ _ _ (vm_table _ _ Hv) a word Ha Hw) as (t & p & ap & _ & Hb & _).
  apply (backing_iff _ _ _ _ _ (layout_chain _ Hl)) in Hb as (i & o & (e' & off & He' & Hx' & Hm & _) & _).
  apply list_elem_of_lookup in He as [ix He], He' as [ix' He'].
  destruct (entry_unique _ _ _ _ _ _ _ _ (layout_chain _ Hl) He He' Hc Hx') as [_ ->].
  pose proof (layout_entries _ Hl) as Hok. rewrite Forall_forall in Hok.
  destruct (Hok e' (list_elem_of_lookup_2 _ _ _ He')) as (_ & _ & _ & _ & H). rewrite Hm in H. destruct H as (O1 & _ & _ & O2).
  pose proof (so_fits _ _ (vm_slots _ _ Hv) i). apply Z.div_lt_upper_bound; [done|]. unfold page in *. lia.
Qed.

(** A fault at a page that is in the page table already, for an access the
    mapping allows, is not taken for a fault another thread has handled: [map4KiB]
    finds the entry present, and the fault fails with [OutOfMemory], however much
    memory there is.  A thread that faults at an address right after another thread
    of the process has is killed. *)
Theorem second_fault_kills {A} {alloc_ops : PageAllocator A} {laws : PageAllocatorLaws A} debug nx av access a t word (v : VM A) :
  vm_ok nx v -> locks v = no_locks -> 0 <= a < 2 ^ 47 -> mapped (entries (space v)) (a / page * page) t ->
  allowed_by (protection_of t) access = true -> translate (page_table v) (a / page * page) = Some word ->
  exists v', handlePageFault debug nx av 3 access a v = Some (Err OutOfMemory, v').
Proof.
  intros Hv Hlk Ha Hm Hp Hw. destruct (handlePageFault_ret debug nx av v access a Hv Hlk Ha) as (r & v' & -> & H).
  destruct r as [[]|[]|].
  - destruct H as (_ & _ & _ & H & _). congruence.
  - done.
  - destruct H as [_ H]. now destruct (H t).
  - destruct H as (_ & u & Hu & H). rewrite (mapped_unique _ _ _ _ (vm_layout _ _ Hv) Hm Hu) in Hp. congruence.
  - now exists v'.
  - exfalso. destruct H as (e & He & Hc & Hs). assert (Hd : 0 <= a / page * page < 2 ^ 47).
    { pose proof (Z.mul_div_le a page ltac:(done)). pose proof (Z.div_pos a page ltac:(lia) ltac:(done)). unfold page in *. lia. }
    pose proof (translated_small nx v _ _ e Hv Hd Hw He Hc). lia.
Qed.

Lemma second_fault_kills_witness : exists v',
  handlePageFault true true enough 3 write 65540 (demo_state 2) = Some (Err OutOfMemory, v') /\ base.size (free_pages (allocator (demo_state 2))) = 7%nat.
Proof.
  destruct (demo_state_ok 2 ltac:(vm_compute; reflexivity)) as [Hv Hlk].
  destruct (translate (page_table (demo_state 2)) 65536) as [word|] eqn:Ew; [|vm_compute in Ew; discriminate Ew].
  destruct (second_fault_kills true true enough write 65540 (rw, rw, true, 0) word (demo_state 2) Hv Hlk) as [v' E].
  - lia.
  - apply (mapping_of_iff _ _ _ _ _ (layout_chain _ (vm_layout _ _ Hv))). vm_compute. reflexivity.
  - reflexivity.
  - exact Ew.
  - exists v'. split; [exact E|vm_compute; reflexivity].
Defined.
