(* ===== verification/Bootstrap.v ===== *)
(** * The bootstrap page allocator

    [src/src/innigkeit/memory/page/init.zig]: before the buddy allocator exists the
    kernel takes its pages (the pages of its page tables, of the descriptors) from the
    free entries of the memory map, one after the other; [initializePhysicalMemory] then gives the
    rest of each entry to the buddy allocator.  The memory map of the boot loader is a
    list of entries.

    Every page of the free entries is given out once: no bootstrap page is given out twice,
    and the buddy allocator starts with exactly those that are left. *)

From S2P Require Import Prelude Machine Buddy BuddyCorrect PhysicalMemory.

(** ** The code *)

Inductive MemoryType :=
  | mt_free | mt_in_use | mt_reserved | mt_bootloader_reclaimable | mt_acpi_reclaimable
  | mt_acpi_nvs | mt_framebuffer | mt_reserved_mapped | mt_unusable | mt_unknown.
#[export] Instance MemoryType_eq_dec : EqDecision MemoryType.
Proof. solve_decision. Defined.

Record MemoryEntry := MkEntry { me_address : Z; me_size : Z; me_type : MemoryType }.

(** [FreePhysicalRegion] *)
Record FreeRegion := MkRegion { start_physical_page : Z; first_free_page_index : Z; page_count : Z }.

(** The panics, by their cause. *)
Inductive BootPanic := no_empty_region | too_many_regions | index_overflow.
Definition BootResult := result BootPanic.

Definition standard_page_size : Z := 4096.
Definition max_regions : nat := 64.

(** [@intCast] to [u32] *)
Definition cast_u32 (x : Z) : BootResult Z := if (0 <=? x) && (x <? 2 ^ 32) then Done x else Failed index_overflow.

(** [bootstrap_physical_regions.append] *)
Definition append_region (r : FreeRegion) (regions : list FreeRegion) : BootResult (list FreeRegion) :=
  if (length regions <? max_regions)%nat then Done (regions ++ [r]) else Failed too_many_regions.

Fixpoint initializeBootstrapAllocator (memory_map : list MemoryEntry) (regions : list FreeRegion) : BootResult (list FreeRegion) :=
  match memory_map with
  | [] => Done regions
  | entry :: memory_map' =>
      if negb (bool_decide (me_type entry = mt_free)) then initializeBootstrapAllocator memory_map' regions
      else
        start ← cast_u32 (me_address entry / standard_page_size);
        count ← cast_u32 (me_size entry / standard_page_size);
        regions' ← append_region (MkRegion start 0 count) regions;
        initializeBootstrapAllocator memory_map' regions'
  end.

(** [bootstrap_allocator.allocate]: the first region that has a page left. *)
Fixpoint bootstrap_allocate (regions : list FreeRegion) : BootResult (Z * list FreeRegion) :=
  match regions with
  | [] => Failed no_empty_region
  | r :: regions' =>
      if first_free_page_index r <? page_count r then
        i ← cast_u32 (start_physical_page r + first_free_page_index r);
        Done (i, MkRegion (start_physical_page r) (first_free_page_index r + 1) (page_count r) :: regions')
      else
        '(i, regions'') ← bootstrap_allocate regions';
        Done (i, r :: regions'')
  end.

(** What [initializePhysicalMemory] takes of a region. *)
Definition pull_region (r : FreeRegion) : Z * Z :=
  (start_physical_page r + first_free_page_index r, start_physical_page r + page_count r).

(** The kernel's [k] allocations before. *)
Fixpoint allocate_pages (k : nat) (regions : list FreeRegion) : BootResult (list Z * list FreeRegion) :=
  match k with
  | O => Done ([], regions)
  | S k' =>
      '(i, regions') ← bootstrap_allocate regions;
      '(pages, regions'') ← allocate_pages k' regions';
      Done (i :: pages, regions'')
  end.

(** ** Its correctness *)

Definition free_entries (memory_map : list MemoryEntry) : list MemoryEntry := filter (fun e => me_type e = mt_free) memory_map.
Definition entry_region (e : MemoryEntry) : FreeRegion := MkRegion (me_address e / standard_page_size) 0 (me_size e / standard_page_size).
Definition entry_pages (e : MemoryEntry) : Z * Z := pull_region (entry_region e).

(** The pages that are left. *)
Definition remaining (regions : list FreeRegion) : list Z := region_pages (pull_region <$> regions).

Lemma cast_u32_ret x : 0 <= x < 2 ^ 32 -> cast_u32 x = Done x.
Proof. intros H. unfold cast_u32. now rewrite (proj2 (Z.leb_le _ _)), (proj2 (Z.ltb_lt _ _)) by lia. Qed.

Lemma remaining_cons r regions : remaining (r :: regions) =
  seqZ (start_physical_page r + first_free_page_index r) (page_count r - first_free_page_index r) ++ remaining regions.
Proof.
  unfold remaining, region_pages. cbn [fmap list_fmap mbind list_bind]. f_equal. f_equal. unfold pull_region. cbn [fst snd]. lia.
Qed.

Lemma allocate_ret regions lo n : 0 <= lo -> n < 2 ^ 32 -> regions_in lo (pull_region <$> regions) n ->
  match remaining regions with
  | [] => bootstrap_allocate regions = Failed no_empty_region
  | p :: rest => exists regions', bootstrap_allocate regions = Done (p, regions') /\ remaining regions' = rest /\ regions_in lo (pull_region <$> regions') n
  end.
Proof.
  intros Hlo Hn. revert lo Hlo. induction regions as [|[a f c] regions IH]; intros lo Hlo Hr; [done|].
  rewrite remaining_cons. cbn [start_physical_page first_free_page_index page_count bootstrap_allocate].
  cbn [fmap list_fmap regions_in pull_region start_physical_page first_free_page_index page_count] in Hr. destruct Hr as (H1 & H2 & H3).
  destruct (f <? c) eqn:Hf.
  - apply Z.ltb_lt in Hf. rewrite seqZ_cons by lia. rewrite cast_u32_ret by lia. cbn [app]. eexists. split; [reflexivity|]. split.
    + rewrite remaining_cons. cbn [start_physical_page first_free_page_index page_count]. do 2 f_equal; lia.
    + cbn [fmap list_fmap regions_in pull_region start_physical_page first_free_page_index page_count]. repeat split; try lia. done.
  - apply Z.ltb_ge in Hf. rewrite seqZ_nil by lia. cbn [app]. specialize (IH (a + c) ltac:(lia) H3). destruct (remaining regions) as [|p rest].
    + now rewrite IH.
    + destruct IH as (rs' & -> & R1 & R2). eexists. split; [reflexivity|]. split.
      * rewrite remaining_cons. cbn [start_physical_page first_free_page_index page_count]. now rewrite seqZ_nil by lia.
      * cbn [fmap list_fmap regions_in pull_region start_physical_page first_free_page_index page_count]. done.
Qed.

Lemma allocate_pages_ret k regions n : n < 2 ^ 32 -> regions_in 0 (pull_region <$> regions) n ->
  if decide (k <= length (remaining regions))%nat then
    exists regions', allocate_pages k regions = Done (take k (remaining regions), regions') /\ remaining regions' = drop k (remaining regions) /\
      regions_in 0 (pull_region <$> regions') n
  else allocate_pages k regions = Failed no_empty_region.
Proof.
  intros Hn. revert regions. induction k as [|k IH]; intros regions Hr; [case_decide; [now exists regions|lia]|].
  cbn [allocate_pages]. pose proof (allocate_ret regions 0 n ltac:(lia) Hn Hr) as Ha. destruct (remaining regions) as [|p rest] eqn:E.
  - rewrite decide_False by (cbn; lia). now rewrite Ha.
  - destruct Ha as (rs & -> & R1 & R2). specialize (IH rs R2). rewrite R1 in IH. cbn [length take drop]. repeat case_decide; try lia.
    + destruct IH as (rs' & E' & R). exists rs'. cbn [mbind result_bind]. unfold mbind, result_bind. now rewrite E'.
    + unfold mbind, result_bind. now rewrite IH.
Qed.

Lemma initialize_bootstrap_ret memory_map regions : (forall e, e ∈ free_entries memory_map -> 0 <= me_address e < 2 ^ 44 /\ 0 <= me_size e < 2 ^ 44) ->
  (length regions + length (free_entries memory_map) <= max_regions)%nat ->
  initializeBootstrapAllocator memory_map regions = Done (regions ++ (entry_region <$> free_entries memory_map)).
Proof.
  revert regions. induction memory_map as [|e memory_map IH]; intros regions He Hl; cbn [initializeBootstrapAllocator]; [now rewrite app_nil_r|].
  unfold free_entries in *. rewrite filter_cons in *. case_bool_decide as Ht; cbn [negb].
  - rewrite decide_True in * by done. cbn [length] in Hl. destruct (He e) as [H1 H2]; [left|].
    rewrite !cast_u32_ret by (unfold standard_page_size; split; [apply Z.div_pos; lia|apply Z.div_lt_upper_bound; lia]).
    cbn [mbind result_bind]. unfold mbind, result_bind, append_region. rewrite (proj2 (Nat.ltb_lt _ _)) by lia. rewrite IH.
    + now rewrite <- app_assoc.
    + intros e' He'. apply He. now right.
    + rewrite length_app. cbn. lia.
  - rewrite decide_False in * by done. now apply IH.
Qed.

Lemma entry_pages_fmap (es : list MemoryEntry) : pull_region <$> (entry_region <$> es) = entry_pages <$> es.
Proof. now rewrite <- list_fmap_compose. Qed.


Definition demo_map : list MemoryEntry :=
  [MkEntry 0 4096 mt_reserved; MkEntry 4096 (3 * 4096) mt_free; MkEntry (4 * 4096) 4096 mt_in_use; MkEntry (8 * 4096) (10 * 4096) mt_free].

