(* ===== verification/Compress.v ===== *)
(** * Page compression

    [src/src/innigkeit/memory/compress.zig]: the LZ4 block format for pages and the
    pool of compressed pages.

    A slice is the list of its bytes.  Positions are natural numbers: a slice is far
    shorter than 2^64 bytes, and no sum of the code reaches that.  The output is the
    list of the bytes written so far; a byte beyond the capacity of [dst], and an
    index beyond the end of [src], are [Panic]. *)

From stdpp Require Import gmap.
From S2P Require Import Prelude Machine.

Open Scope nat_scope.

Definition PAGE_BYTES : nat := 4096.
Definition MAX_COMPRESSED_SIZE : nat := PAGE_BYTES + PAGE_BYTES / 255 + 16.

Inductive CompressError := BufferTooSmall | CorruptInput.

Notation CResult := (result CompressError).

Definition HASH_BITS : Z := 12.
Definition HASH_SHIFT : Z := 32 - HASH_BITS.
Definition MIN_MATCH : nat := 4.
Definition LAST_LITERALS : nat := 5.

(** ** Bytes *)

Definition byte_at (src : list Z) (pos : nat) : CResult Z :=
  match src !! pos with Some b => Done b | None => Panic end.

(** [src[pos..][0..n]] *)
Definition slice_of (src : list Z) (pos n : nat) : CResult (list Z) :=
  if pos + n <=? length src then Done (take n (drop pos src)) else Panic.

(** The value of bytes, the least significant one first. *)
Fixpoint little_endian (l : list Z) : Z :=
  match l with [] => 0%Z | b :: l' => (b + 256 * little_endian l')%Z end.

Definition readU32 (src : list Z) (pos : nat) : CResult Z :=
  bytes ← slice_of src pos 4; Done (little_endian bytes).

Definition hash4 (v : Z) : Z := Z.shiftr (u32 (v * 0x9E3779B1)) HASH_SHIFT.

(** Writing at the end of the output, of capacity [cap]. *)
Definition put (cap : nat) (bytes out : list Z) : CResult (list Z) :=
  if length out + length bytes <=? cap then Done (out ++ bytes) else Panic.

(** ** Compression *)

(** [while (rem >= 255)], and the byte after the loop. *)
Fixpoint put_rem (cap fuel rem : nat) (out : list Z) : CResult (list Z) :=
  match fuel with
  | O => Panic
  | S fuel' =>
      if 255 <=? rem then out ← put cap [255%Z] out; put_rem cap fuel' (rem - 255) out
      else put cap [Z.of_nat rem] out
  end.

(** The extension of a length of which a nibble says 15. *)
Definition put_extension (cap len : nat) (out : list Z) : CResult (list Z) :=
  if 15 <=? len then put_rem cap (S len) (len - 15) out else Done out.

Definition nibble (n : nat) : Z := Z.of_nat (Nat.min 15 n).

Definition emitSequence (src : list Z) (anchor lit_len match_extra : nat) (offset : Z) (cap : nat) (out : list Z) : CResult (list Z) :=
  out ← put cap [Z.lor (Z.shiftl (nibble lit_len) 4) (nibble match_extra)] out;
  out ← put_extension cap lit_len out;
  literals ← slice_of src anchor lit_len;
  out ← put cap literals out;
  out ← put cap [(offset mod 256)%Z; (offset / 256)%Z] out;
  put_extension cap match_extra out.

Definition emitLastLiterals (src : list Z) (anchor lit_len cap : nat) (out : list Z) : CResult (list Z) :=
  out ← put cap [Z.shiftl (nibble lit_len) 4] out;
  out ← put_extension cap lit_len out;
  literals ← slice_of src anchor lit_len;
  put cap literals out.

(** The loop that extends a match; the fuel is the length of the input. *)
Fixpoint extend_match (fuel : nat) (src : list Z) (ref_pos ip match_len : nat) : CResult nat :=
  match fuel with
  | O => Panic
  | S fuel' =>
      if ip + match_len <? length src - LAST_LITERALS + MIN_MATCH then
        a ← byte_at src (ref_pos + match_len);
        b ← byte_at src (ip + match_len);
        if (a =? b)%Z then extend_match fuel' src ref_pos ip (S match_len) else Done match_len
      else Done match_len
  end.

(** Whether the four bytes at [ref_pos], with hash [h], are those at [ip]. *)
Definition match_found (src : list Z) (ip ref_pos : nat) (v : Z) : CResult bool :=
  let offset := u64 (Z.of_nat ip - Z.of_nat ref_pos) in
  if (0 <? offset)%Z && (offset <=? 0xFFFF)%Z && (ref_pos <? length src - MIN_MATCH + 1) then
    w ← readU32 src ref_pos; Done (w =? v)%Z
  else Done false.

(** The main loop: the output so far and the start of the literals that are left.
    The table has the last position of each hash. *)
Fixpoint compress_loop (fuel : nat) (src : list Z) (cap ip anchor : nat) (table : gmap Z nat) (out : list Z) :
    CResult (list Z * nat) :=
  let limit := if LAST_LITERALS <? length src then length src - LAST_LITERALS else 0 in
  if ip <? limit then
    match fuel with
    | O => Panic
    | S fuel' =>
        v ← readU32 src ip;
        let h := hash4 v in
        let ref_pos := default 0 (table !! h) in
        if (2 ^ 32 <=? Z.of_nat ip)%Z then Panic
        else
          let table := <[h := ip]> table in
          found ← match_found src ip ref_pos v;
          if negb found then compress_loop fuel' src cap (S ip) anchor table out
          else
            match_len ← extend_match (S (length src)) src ref_pos ip MIN_MATCH;
            let lit_len := ip - anchor in
            out ← emitSequence src anchor lit_len (match_len - MIN_MATCH) (Z.of_nat ip - Z.of_nat ref_pos) cap out;
            compress_loop fuel' src cap (ip + match_len) (ip + match_len) table out
    end
  else Done (out, anchor).

(** [cap] is the length of [dst]. *)
Definition compress (src : list Z) (cap : nat) : CResult (list Z) :=
  if cap <? MAX_COMPRESSED_SIZE then Failed BufferTooSmall
  else match src with
       | [] => Done []
       | _ =>
           '(out, anchor) ← compress_loop (length src) src cap 0 0 ∅ [];
           emitLastLiterals src anchor (length src - anchor) cap out
       end.

(** ** Decompression *)

(** The extra bytes of a length: the position behind them and the length. *)
Fixpoint read_extension (fuel : nat) (src : list Z) (ip len : nat) : CResult (nat * nat) :=
  match fuel with
  | O => Panic
  | S fuel' =>
      if ip <? length src then
        extra ← byte_at src ip;
        if (extra =? 255)%Z then read_extension fuel' src (S ip) (len + Z.to_nat extra) else Done (S ip, len + Z.to_nat extra)
      else Done (ip, len)
  end.

Definition read_length (src : list Z) (ip len : nat) : CResult (nat * nat) :=
  if len =? 15 then read_extension (S (length src)) src ip len else Done (ip, len).

(** The match, byte by byte: a byte may be one written just before. *)
Fixpoint copy_match (n : nat) (offset : nat) (out : list Z) : CResult (list Z) :=
  match n with
  | O => Done out
  | S n' => b ← byte_at out (length out - offset); copy_match n' offset (out ++ [b])
  end.

Fixpoint decompress_loop (fuel : nat) (src : list Z) (cap ip : nat) (out : list Z) : CResult (list Z) :=
  if ip <? length src then
    match fuel with
    | O => Panic
    | S fuel' =>
        token ← byte_at src ip;
        '(ip, lit_len) ← read_length src (S ip) (Z.to_nat (Z.shiftr token 4));
        if cap <? length out + lit_len then Failed BufferTooSmall
        else if length src <? ip + lit_len then Failed CorruptInput
        else
          literals ← slice_of src ip lit_len;
          out ← put cap literals out;
          let ip := ip + lit_len in
          if length src <=? ip then Done out
          else if length src <? ip + 2 then Failed CorruptInput
          else
            word ← slice_of src ip 2;
            let offset := Z.to_nat (little_endian word) in
            let ip := ip + 2 in
            if (offset =? 0) || (length out <? offset) then Failed CorruptInput
            else
              '(ip, extra) ← read_length src ip (Z.to_nat (Z.land token 15));
              let match_len := extra + MIN_MATCH in
              if cap <? length out + match_len then Failed BufferTooSmall
              else
                out ← copy_match match_len offset out;
                decompress_loop fuel' src cap ip out
    end
  else Done out.

Definition decompress (src : list Z) (cap : nat) : CResult (list Z) :=
  match src with [] => Done [] | _ => decompress_loop (length src) src cap 0 [] end.

(** ** The pool of compressed pages *)

Record CompressedSlot := MkSlot { page_index : Z; slot_data : list Z }.

Definition MAX_SLOTS : nat := 256.

Inductive Pressure := pressure_low | pressure_medium | pressure_high.

Record CompressPool := MkPool { pool_slots : list (option CompressedSlot); pool_used : nat; pool_pressure : Pressure }.

Definition pool_init : CompressPool := MkPool (replicate MAX_SLOTS None) 0 pressure_low.

Definition setPressure (q : Pressure) (p : CompressPool) : CompressPool := MkPool (pool_slots p) (pool_used p) q.

(** The first slot that is empty, filled; [None] when there is none. *)
Fixpoint fill_first (s : CompressedSlot) (slots : list (option CompressedSlot)) : option (list (option CompressedSlot)) :=
  match slots with
  | [] => None
  | None :: slots' => Some (Some s :: slots')
  | Some t :: slots' => slots' ← fill_first s slots'; Some (Some t :: slots')
  end.

(** [alloc] is whether the allocator has memory for the compressed page. *)
Definition pool_store (alloc : bool) (index : Z) (page_data : list Z) (p : CompressPool) : CResult (bool * CompressPool) :=
  if MAX_SLOTS <=? pool_used p then Done (false, p)
  else
    match compress page_data MAX_COMPRESSED_SIZE with
    | Panic => Panic
    | Failed _ => Done (false, p)
    | Done data =>
        if PAGE_BYTES <=? length data then Done (false, p)
        else if negb alloc then Done (false, p)
        else match fill_first (MkSlot index data) (pool_slots p) with
             | Some slots => Done (true, MkPool slots (pool_used p + 1) (pool_pressure p))
             | None => Done (false, p)
             end
    end.

(** The first slot of the page, and the slots without it. *)
Fixpoint take_slot (index : Z) (slots : list (option CompressedSlot)) : option (CompressedSlot * list (option CompressedSlot)) :=
  match slots with
  | [] => None
  | None :: slots' => '(s, slots') ← take_slot index slots'; Some (s, None :: slots')
  | Some s :: slots' =>
      if (page_index s =? index)%Z then Some (s, None :: slots')
      else '(t, slots') ← take_slot index slots'; Some (t, Some s :: slots')
  end.

(** The page, when it is there. *)
Definition pool_load (index : Z) (p : CompressPool) : CResult (option (list Z) * CompressPool) :=
  match take_slot index (pool_slots p) with
  | None => Done (None, p)
  | Some (s, slots) =>
      match decompress (slot_data s) PAGE_BYTES with
      | Panic => Panic
      | Failed _ => Done (None, p)
      | Done page_data =>
          if pool_used p =? 0 then Panic else Done (Some page_data, MkPool slots (pool_used p - 1) (pool_pressure p))
      end
  end.
