(* ===== verification/CompressCorrect.v ===== *)
(** * Page compression: correctness

    A block is a list of sequences, literals and a match each, and the literals at
    the end.  The compressor writes the bytes of a block whose expansion is the
    input, the decompressor expands the bytes of a block; so what is compressed is
    found again.  The size of the output is bounded, and the decompressor is safe on
    every input. *)

From stdpp Require Import gmap.
From S2P Require Import Prelude Machine Compress.

Open Scope nat_scope.

(** ** Blocks *)

Record Sequence := MkSequence { seq_literals : list Z; seq_offset : nat; seq_extra : nat }.

Definition extension (len : nat) : list Z :=
  if 15 <=? len then replicate ((len - 15) / 255) 255%Z ++ [Z.of_nat ((len - 15) mod 255)] else [].

Definition token (lits extra : nat) : Z := Z.lor (Z.shiftl (nibble lits) 4) (nibble extra).

Definition sequence_bytes (s : Sequence) : list Z :=
  [token (length (seq_literals s)) (seq_extra s)] ++ extension (length (seq_literals s)) ++ seq_literals s ++
  [(Z.of_nat (seq_offset s) mod 256)%Z; (Z.of_nat (seq_offset s) / 256)%Z] ++ extension (seq_extra s).

Definition literal_bytes (lits : list Z) : list Z := [Z.shiftl (nibble (length lits)) 4] ++ extension (length lits) ++ lits.

Definition block_bytes (ss : list Sequence) (lits : list Z) : list Z := (ss ≫= sequence_bytes) ++ literal_bytes lits.

(** [n] more bytes, each the one [offset] before it. *)
Fixpoint repeated (n offset : nat) (out : list Z) : list Z :=
  match n with
  | O => out
  | S n' => repeated n' offset (out ++ [nth (length out - offset) out 0%Z])
  end.

Definition expand (out : list Z) (s : Sequence) : list Z := repeated (seq_extra s + MIN_MATCH) (seq_offset s) (out ++ seq_literals s).

Definition sequence_ok (out : list Z) (s : Sequence) : Prop :=
  0 < seq_offset s <= length out + length (seq_literals s) /\ (Z.of_nat (seq_offset s) <= 0xFFFF)%Z.

Fixpoint sequences_ok (out : list Z) (ss : list Sequence) : Prop :=
  match ss with [] => True | s :: ss' => sequence_ok out s /\ sequences_ok (expand out s) ss' end.

Definition expand_all (ss : list Sequence) (out : list Z) : list Z := foldl expand out ss.

Lemma sequences_ok_app ss : forall out s, sequences_ok out (ss ++ [s]) <-> sequences_ok out ss /\ sequence_ok (expand_all ss out) s.
Proof. induction ss as [|t ss IH]; intros out s; cbn; [tauto|]. rewrite IH. unfold expand_all. cbn. tauto. Qed.

Lemma repeated_length n : forall offset out, length (repeated n offset out) = length out + n.
Proof. induction n as [|n IH]; intros offset out; cbn; [lia|]. rewrite IH, length_app. cbn. lia. Qed.

Lemma expand_length out s : length (expand out s) = length out + length (seq_literals s) + (seq_extra s + MIN_MATCH).
Proof. unfold expand. rewrite repeated_length, length_app. lia. Qed.

Lemma expand_all_length ss : forall out, length out <= length (expand_all ss out).
Proof.
  induction ss as [|s ss IH]; intros out; cbn; [lia|]. specialize (IH (expand out s)). unfold expand_all in IH. rewrite expand_length in IH. lia.
Qed.

(** ** The size of a block *)

Lemma extension_length len : length (extension len) <= len / 255 + 1.
Proof.
  unfold extension. destruct (15 <=? len); [|cbn; lia]. rewrite length_app, length_replicate. cbn [length].
  pose proof (Nat.Div0.div_le_mono (len - 15) len 255 ltac:(lia)). lia.
Qed.

Lemma extension_small len : length (extension len) <= len.
Proof.
  unfold extension. destruct (Nat.leb_spec 15 len); [|cbn; lia]. rewrite length_app, length_replicate. cbn [length].
  pose proof (Nat.Div0.div_le_upper_bound (len - 15) 255 (len - 15) ltac:(lia)). lia.
Qed.

Lemma sequence_length s n : n + n / 255 + length (sequence_bytes s) <=
  (n + length (seq_literals s) + (seq_extra s + MIN_MATCH)) + (n + length (seq_literals s) + (seq_extra s + MIN_MATCH)) / 255.
Proof.
  unfold sequence_bytes. rewrite !length_app. cbn [length]. pose proof (extension_length (length (seq_literals s))).
  pose proof (extension_small (seq_extra s)). unfold MIN_MATCH.
  set (l := length (seq_literals s)) in *. set (x := seq_extra s) in *.
  assert (n / 255 + l / 255 <= (n + l + (x + 4)) / 255); [|lia].
  pose proof (Nat.div_mod_eq n 255). pose proof (Nat.div_mod_eq l 255). apply Nat.div_le_lower_bound; lia.
Qed.

(** ** Writing *)

Lemma put_ret cap bytes out : length out + length bytes <= cap -> put cap bytes out = Done (out ++ bytes).
Proof. intros H. unfold put. now destruct (Nat.leb_spec (length out + length bytes) cap); [|lia]. Qed.

Lemma put_rem_ret cap fuel : forall rem out, rem < fuel -> length out + (rem / 255 + 1) <= cap ->
  put_rem cap fuel rem out = Done (out ++ replicate (rem / 255) 255%Z ++ [Z.of_nat (rem mod 255)]).
Proof.
  induction fuel as [|fuel IH]; intros rem out Hf Hc; [lia|]. cbn [put_rem]. destruct (Nat.leb_spec 255 rem).
  - assert (E : rem / 255 = S ((rem - 255) / 255)).
    { replace rem with (rem - 255 + 1 * 255) at 1 by lia. rewrite Nat.div_add by lia. lia. }
    assert (Em : rem mod 255 = (rem - 255) mod 255).
    { replace rem with (rem - 255 + 1 * 255) at 1 by lia. now rewrite Nat.Div0.mod_add. }
    rewrite put_ret by (cbn [length]; lia). unfold mbind, result_bind. rewrite IH by (rewrite ?length_app; cbn [length]; lia).
    rewrite E, Em. cbn [replicate]. now rewrite <- !app_assoc.
  - rewrite Nat.div_small, Nat.mod_small by lia. rewrite put_ret; [done|]. cbn [length]. rewrite Nat.div_small in Hc by lia. lia.
Qed.

Lemma put_extension_ret cap len out : length out + length (extension len) <= cap -> put_extension cap len out = Done (out ++ extension len).
Proof.
  unfold put_extension, extension. destruct (Nat.leb_spec 15 len); [|rewrite app_nil_r; done].
  rewrite length_app, length_replicate. cbn [length]. intros Hc. apply put_rem_ret; lia.
Qed.

Lemma slice_ret src pos n : pos + n <= length src -> slice_of src pos n = Done (take n (drop pos src)).
Proof. intros H. unfold slice_of. now destruct (Nat.leb_spec (pos + n) (length src)); [|lia]. Qed.

Lemma emitSequence_ret src anchor lit_len extra offset cap out : anchor + lit_len <= length src ->
  let s := MkSequence (take lit_len (drop anchor src)) offset extra in
  length out + length (sequence_bytes s) <= cap ->
  emitSequence src anchor lit_len extra (Z.of_nat offset) cap out = Done (out ++ sequence_bytes s).
Proof.
  intros Hs s. assert (Hl : length (seq_literals s) = lit_len) by (cbn; rewrite length_take, length_drop; lia).
  unfold sequence_bytes, emitSequence. rewrite Hl, !length_app. cbn [length seq_extra seq_offset seq_literals s].
  rewrite length_take, length_drop, Nat.min_l by lia. intros Hc.
  rewrite put_ret by (cbn; lia). cbn [mbind result_bind]. rewrite put_extension_ret by (rewrite !length_app; cbn; lia). cbn [mbind result_bind].
  rewrite slice_ret by lia. cbn [mbind result_bind].
  rewrite put_ret by (rewrite !length_app, length_take, length_drop; cbn; lia). cbn [mbind result_bind].
  rewrite put_ret by (rewrite !length_app, length_take, length_drop; cbn; lia). cbn [mbind result_bind].
  rewrite put_extension_ret by (rewrite !length_app, length_take, length_drop; cbn; lia). now rewrite <- !app_assoc.
Qed.

Lemma emitLast_ret src anchor lit_len cap out : anchor + lit_len <= length src ->
  let lits := take lit_len (drop anchor src) in
  length out + length (literal_bytes lits) <= cap ->
  emitLastLiterals src anchor lit_len cap out = Done (out ++ literal_bytes lits).
Proof.
  intros Hs lits. assert (Hl : length lits = lit_len) by (unfold lits; rewrite length_take, length_drop; lia).
  unfold literal_bytes, emitLastLiterals. rewrite Hl, !length_app, Hl. cbn [length]. intros Hc.
  rewrite put_ret by (cbn; lia). cbn [mbind result_bind]. rewrite put_extension_ret by (rewrite !length_app; cbn; lia). cbn [mbind result_bind].
  rewrite slice_ret by lia. cbn [mbind result_bind]. fold lits. rewrite put_ret by (rewrite !length_app, Hl; cbn; lia). now rewrite <- !app_assoc.
Qed.

(** ** Compression writes a block of the input *)

Lemma little_endian_inj l : forall k, Forall byte_ok l -> Forall byte_ok k -> length l = length k -> little_endian l = little_endian k -> l = k.
Proof.
  induction l as [|a l IH]; intros [|b k] Hl Hk Hn E; try done. apply Forall_cons in Hl as [Ha Hl], Hk as [Hb Hk]. unfold byte_ok in *. cbn in E, Hn.
  assert (a = b) as -> by lia. f_equal. apply IH; [done|done|lia|lia].
Qed.

Lemma lookup_slice (src : list Z) pos n j : j < n -> take n (drop pos src) !! j = src !! (pos + j).
Proof. intros H. rewrite lookup_take_lt by done. now rewrite lookup_drop. Qed.

Lemma readU32_ret src pos : pos + 4 <= length src -> readU32 src pos = Done (little_endian (take 4 (drop pos src))).
Proof. intros H. unfold readU32. now rewrite slice_ret. Qed.

Lemma same_word src p q : Forall byte_ok src -> p + 4 <= length src -> q + 4 <= length src ->
  little_endian (take 4 (drop p src)) = little_endian (take 4 (drop q src)) -> forall j, j < 4 -> src !! (p + j) = src !! (q + j).
Proof.
  intros Hb Hp Hq E j Hj. apply little_endian_inj in E; [|now apply Forall_take, Forall_drop|now apply Forall_take, Forall_drop|rewrite !length_take, !length_drop; lia].
  now rewrite <- (lookup_slice src p 4 j), E, lookup_slice.
Qed.

Lemma byte_at_ret src pos : pos < length src -> exists b, src !! pos = Some b /\ byte_at src pos = Done b.
Proof. intros H. unfold byte_at. apply lookup_lt_is_Some in H as [b ->]. eauto. Qed.

(** The bytes from [ref] and from [ip] on are the same, for [n] bytes. *)
Definition same_bytes (src : list Z) (ref ip n : nat) : Prop := forall j, j < n -> src !! (ref + j) = src !! (ip + j).

Lemma extend_match_ret src ref ip fuel : forall n, ref < ip -> LAST_LITERALS < length src -> ip + n < length src -> same_bytes src ref ip n ->
  length src < fuel + ip + n -> exists m, extend_match fuel src ref ip n = Done m /\ n <= m /\ ip + m < length src /\ same_bytes src ref ip m.
Proof.
  induction fuel as [|fuel IH]; intros n Hr Hl Hn Hs Hf; [lia|]. cbn [extend_match].
  destruct (Nat.ltb_spec (ip + n) (length src - LAST_LITERALS + MIN_MATCH)) as [H|H]; [|exists n; split; [done|]; split; [done|done]].
  unfold LAST_LITERALS, MIN_MATCH in *.
  destruct (byte_at_ret src (ref + n) ltac:(lia)) as (a & Ea & ->). destruct (byte_at_ret src (ip + n) ltac:(lia)) as (b & Eb & ->).
  cbn [mbind result_bind]. destruct (Z.eqb_spec a b) as [->|]; [|exists n; split; [done|]; split; [done|done]].
  destruct (IH (S n)) as (m & E & H1 & H2 & H3); [done|done|lia| |lia|exists m; split; [done|]; split; [lia|done]].
  intros j Hj. destruct (decide (j = n)) as [->|]; [now rewrite Ea, Eb|apply Hs; lia].
Qed.

Lemma repeated_same src n : forall ref ip, ref < ip -> ip + n <= length src -> same_bytes src ref ip n ->
  repeated n (ip - ref) (take ip src) = take (ip + n) src.
Proof.
  induction n as [|n IH]; intros ref ip Hr Hl Hs; [now rewrite Nat.add_0_r|]. cbn [repeated].
  rewrite length_take, Nat.min_l by lia. replace (ip - (ip - ref)) with ref by lia.
  assert (E : take ip src ++ [nth ref (take ip src) 0%Z] = take (S ip) src).
  { destruct (lookup_lt_is_Some_2 src ip ltac:(lia)) as [b Hb]. rewrite (take_S_r _ _ b) by done. do 2 f_equal.
    apply nth_lookup_Some. rewrite lookup_take_lt by lia. specialize (Hs 0 ltac:(lia)). rewrite !Nat.add_0_r in Hs. congruence. }
  rewrite E. replace (ip - ref) with (S ip - S ref) by lia. rewrite IH; [f_equal; lia|lia|lia|].
  intros j Hj. specialize (Hs (S j) ltac:(lia)). now rewrite <- !Nat.add_succ_comm in Hs.
Qed.

(** What the main loop has written: sequences that expand to the input up to the
    anchor. *)
Record compressing (src : list Z) (anchor : nat) (out : list Z) (ss : list Sequence) : Prop := {
  co_out : out = ss ≫= sequence_bytes;
  co_ok : sequences_ok [] ss;
  co_expand : expand_all ss [] = take anchor src;
  co_length : length out <= anchor + anchor / 255;
}.

Lemma compressing_step src anchor out ss ip ref m : compressing src anchor out ss -> anchor <= ip -> ref < ip -> ip + m <= length src ->
  MIN_MATCH <= m -> (Z.of_nat ip - Z.of_nat ref <= 0xFFFF)%Z -> same_bytes src ref ip m ->
  let s := MkSequence (take (ip - anchor) (drop anchor src)) (ip - ref) (m - MIN_MATCH) in
  compressing src (ip + m) (out ++ sequence_bytes s) (ss ++ [s]).
Proof.
  intros [C1 C2 C3 C4] Ha Hr Hm Hn Ho Hs s.
  assert (Hl : length (seq_literals s) = ip - anchor) by (cbn; rewrite length_take, length_drop; lia).
  assert (Hp : take anchor src ++ seq_literals s = take ip src).
  { cbn. rewrite take_take_drop. f_equal. lia. }
  split.
  - rewrite bind_app, <- C1. cbn. now rewrite app_nil_r.
  - apply sequences_ok_app. split; [done|]. split; [|cbn; lia]. rewrite C3, Hl, length_take. cbn. lia.
  - unfold expand_all. rewrite foldl_app. fold (expand_all ss []). rewrite C3. cbn [foldl]. unfold expand. rewrite Hp.
    cbn [seq_extra seq_offset s]. replace (m - MIN_MATCH + MIN_MATCH) with m by lia. now apply repeated_same.
  - rewrite length_app. pose proof (sequence_length s anchor) as H. rewrite Hl in H. cbn [seq_extra s] in H.
    replace (anchor + (ip - anchor) + (m - MIN_MATCH + MIN_MATCH)) with (ip + m) in H by lia. lia.
Qed.

Lemma match_found_ret src ip ref v : ref <= ip -> ip + 4 <= length src -> (Z.of_nat ip < 2 ^ 32)%Z -> Forall byte_ok src ->
  v = little_endian (take 4 (drop ip src)) -> exists b, match_found src ip ref v = Done b /\
    (b = true -> ref < ip /\ (Z.of_nat ip - Z.of_nat ref <= 0xFFFF)%Z /\ same_bytes src ref ip MIN_MATCH).
Proof.
  intros Hr Hi Hp Hb ->. unfold match_found. rewrite u64_id by lia.
  destruct (0 <? _)%Z eqn:E1; [|now exists false]. destruct (_ <=? 65535)%Z eqn:E2; [|now exists false]. cbn [andb].
  destruct (ref <? _) eqn:E3; [|now exists false]. apply Z.ltb_lt in E1. apply Z.leb_le in E2. apply Nat.ltb_lt in E3. unfold MIN_MATCH in *.
  rewrite readU32_ret by lia. eexists. split; [done|]. intros E%Z.eqb_eq. split; [lia|]. split; [done|].
  intros j Hj. now apply same_word; try lia.
Qed.

Lemma compress_loop_ret src cap fuel : forall ip anchor table out ss, Forall byte_ok src -> (Zlen src < 2 ^ 32)%Z ->
  length src + length src / 255 <= cap -> anchor <= ip -> anchor < length src -> compressing src anchor out ss ->
  map_Forall (fun _ p => p <= ip) table -> length src <= fuel + ip ->
  exists out' anchor' ss', compress_loop fuel src cap ip anchor table out = Done (out', anchor') /\ anchor' < length src /\ compressing src anchor' out' ss'.
Proof.
  induction fuel as [|fuel IH]; intros ip anchor table out ss Hb Hz Hc Hai Ha Hs Ht Hf; cbn [compress_loop].
  { destruct (Nat.ltb_spec LAST_LITERALS (length src)); [|now exists out, anchor, ss]. destruct (Nat.ltb_spec ip (length src - LAST_LITERALS)); [lia|].
    now exists out, anchor, ss. }
  destruct (Nat.ltb_spec LAST_LITERALS (length src)) as [Hl|]; [|now exists out, anchor, ss].
  destruct (Nat.ltb_spec ip (length src - LAST_LITERALS)) as [Hi|]; [|now exists out, anchor, ss]. unfold LAST_LITERALS, Zlen in *.
  rewrite readU32_ret by lia. cbn [mbind result_bind]. set (v := little_endian _). destruct (Z.leb_spec (2 ^ 32) (Z.of_nat ip)); [lia|].
  set (ref := default 0 (table !! hash4 v)).
  assert (Hr : ref <= ip). { unfold ref. destruct (table !! _) as [p|] eqn:E; cbn; [now apply (Ht _ _ E)|lia]. }
  assert (Ht' : forall q, ip <= q -> map_Forall (fun _ p => p <= q) (<[hash4 v := ip]> table)).
  { intros q Hq h p. rewrite lookup_insert_Some. intros [[_ <-]|[_ H']]; [done|]. specialize (Ht _ _ H'). cbn in Ht. lia. }
  destruct (match_found_ret src ip ref v Hr ltac:(lia) ltac:(lia) Hb eq_refl) as (b & -> & Hm). cbn [mbind result_bind]. destruct b; cbn [negb].
  2: { apply (IH _ _ _ _ ss); [done|done|done|lia|done|done|apply Ht'; lia|lia]. }
  destruct (Hm eq_refl) as (M1 & M2 & M3).
  destruct (extend_match_ret src ref ip (S (length src)) MIN_MATCH M1 Hl) as (m & -> & N1 & N2 & N3); [unfold MIN_MATCH; lia|done|lia|].
  cbn [mbind result_bind]. pose proof (compressing_step src anchor out ss ip ref m Hs Hai M1 ltac:(lia) N1 M2 N3) as Hstep. cbv zeta in Hstep.
  pose proof (co_length _ _ _ _ Hstep) as Hlen. rewrite length_app in Hlen. pose proof (Nat.Div0.div_le_mono (ip + m) (length src) 255 ltac:(lia)).
  replace (Z.of_nat ip - Z.of_nat ref)%Z with (Z.of_nat (ip - ref)) by lia.
  rewrite (emitSequence_ret src anchor (ip - anchor) (m - MIN_MATCH) (ip - ref) cap out) by lia. cbn [mbind result_bind].
  apply (IH _ _ _ _ (ss ++ [MkSequence (take (ip - anchor) (drop anchor src)) (ip - ref) (m - MIN_MATCH)])); [done|done|done|done|lia|done|apply Ht'; lia|unfold MIN_MATCH in N1; lia].
Qed.

(** The output is a block of the input. *)
Lemma compress_ret src cap : Forall byte_ok src -> (Zlen src < 2 ^ 32)%Z -> MAX_COMPRESSED_SIZE <= cap -> length src + length src / 255 + 2 <= cap ->
  src <> [] -> exists ss lits, compress src cap = Done (block_bytes ss lits) /\ sequences_ok [] ss /\ expand_all ss [] ++ lits = src /\
    length (block_bytes ss lits) <= length src + length src / 255 + 2.
Proof.
  intros Hb Hz Hm Hc Hne. unfold compress. destruct (Nat.ltb_spec cap MAX_COMPRESSED_SIZE); [lia|].
  assert (Hl : 0 < length src) by (destruct src; [done|cbn; lia]). destruct src as [|x src0] eqn:Es; [done|]. rewrite <- Es in *.
  destruct (compress_loop_ret src cap (length src) 0 0 ∅ [] []) as (out & anchor & ss & -> & Ha & [C1 C2 C3 C4]); [done|done|lia|lia|done|now split|done|lia|].
  cbn [mbind result_bind]. set (lits := take (length src - anchor) (drop anchor src)).
  assert (Hlit : length lits = length src - anchor) by (unfold lits; rewrite length_take, length_drop; lia).
  assert (Hlen : length out + length (literal_bytes lits) <= length src + length src / 255 + 2).
  { unfold literal_bytes. rewrite !length_app. cbn [length]. pose proof (extension_length (length lits)). rewrite Hlit in *.
    assert (anchor / 255 + (length src - anchor) / 255 <= length src / 255); [|lia].
    pose proof (Nat.div_mod_eq anchor 255). pose proof (Nat.div_mod_eq (length src - anchor) 255). apply Nat.div_le_lower_bound; lia. }
  rewrite emitLast_ret by (fold lits; lia). fold lits. subst out. exists ss, lits. split; [done|]. split; [done|].
  split; [rewrite C3; unfold lits; rewrite take_take_drop; apply take_ge; lia|]. unfold block_bytes. rewrite length_app. done.
Qed.

(** ** Decompression expands a block *)

Section Cursor.
Variable src : list Z.

Lemma drop_cons ip x rest : drop ip src = x :: rest -> ip < length src /\ byte_at src ip = Done x /\ drop (S ip) src = rest.
Proof.
  intros E. assert (H : src !! ip = Some x) by now rewrite <- (Nat.add_0_r ip), <- lookup_drop, E.
  split; [now apply lookup_lt_Some in H|]. unfold byte_at. rewrite H. split; [done|].
  replace (S ip) with (ip + 1) by lia. now rewrite <- drop_drop, E.
Qed.

Lemma drop_slice ip a rest : drop ip src = a ++ rest -> a ++ rest <> [] ->
  ip + length a <= length src /\ slice_of src ip (length a) = Done a /\ drop (ip + length a) src = rest.
Proof.
  intros E Hne. assert (Hl : ip + length a <= length src).
  { assert (length (drop ip src) = length a + length rest) by now rewrite E, length_app. rewrite length_drop in *.
    assert (length (a ++ rest) <> 0) by now destruct (a ++ rest). rewrite length_app in *. lia. }
  split; [done|]. rewrite slice_ret, E, take_app_length by done. split; [done|]. now rewrite <- drop_drop, E, drop_app_length.
Qed.

Lemma read_extension_ret k fuel : forall ip len r rest, drop ip src = replicate k 255%Z ++ r :: rest -> (0 <= r < 255)%Z -> k < fuel ->
  read_extension fuel src ip len = Done (ip + k + 1, len + 255 * k + Z.to_nat r).
Proof.
  revert fuel. induction k as [|k IH]; intros [|fuel] ip len r rest E Hr Hf; try lia; cbn [replicate app] in E;
    apply drop_cons in E as (Hi & Hb & E); cbn [read_extension]; destruct (Nat.ltb_spec ip (length src)); try lia; rewrite Hb; cbn [mbind result_bind].
  - destruct (Z.eqb_spec r 255); [lia|]. do 2 f_equal; lia.
  - change (255 =? 255)%Z with true. cbv iota. change (Z.to_nat 255) with 255. rewrite (IH fuel _ _ _ _ E) by lia. do 2 f_equal; lia.
Qed.

Lemma read_length_ret ip n rest : drop ip src = extension n ++ rest -> ip <= length src ->
  read_length src ip (Nat.min 15 n) = Done (ip + length (extension n), n) /\ drop (ip + length (extension n)) src = rest.
Proof.
  intros E Hi. unfold read_length, extension in *. destruct (Nat.leb_spec 15 n) as [H|H].
  - rewrite Nat.min_l by done. change (15 =? 15) with true. cbv iota. rewrite <- app_assoc in E.
    pose proof (drop_slice _ _ _ E ltac:(now destruct (replicate _ _))) as (Hs & _ & E'). rewrite length_replicate in *. cbn [app] in E'.
    apply drop_cons in E' as (Hl & _ & E').
    rewrite (read_extension_ret ((n - 15) / 255) _ _ _ _ _ E) by (pose proof (Nat.mod_upper_bound (n - 15) 255); lia).
    rewrite length_app, length_replicate. cbn [length]. rewrite Nat2Z.id. pose proof (Nat.div_mod_eq (n - 15) 255).
    split; [do 2 f_equal; lia|]. rewrite <- E'. f_equal. lia.
  - rewrite Nat.min_r by lia. destruct (Nat.eqb_spec n 15); [lia|]. cbn [length app] in *. now rewrite Nat.add_0_r.
Qed.
End Cursor.

Lemma nibble_range n : (0 <= nibble n < 16)%Z.
Proof. unfold nibble. lia. Qed.

Lemma token_high l x : Z.to_nat (Z.shiftr (token l x) 4) = Nat.min 15 l.
Proof.
  unfold token. rewrite Z.shiftr_lor, Z.shiftr_shiftl_l by lia. pose proof (nibble_range x). rewrite (Z.shiftr_div_pow2 (nibble x)) by lia.
  rewrite Z.div_small by (cbn; lia). rewrite Z.lor_0_r, Z.shiftl_0_r. unfold nibble. lia.
Qed.

Lemma token_low l x : Z.to_nat (Z.land (token l x) 15) = Nat.min 15 x.
Proof.
  unfold token. change 15%Z with (Z.ones 4). rewrite Z.land_lor_distr_l, !Z.land_ones, Z.shiftl_mul_pow2 by lia.
  rewrite Z.mod_mul by lia. pose proof (nibble_range x). rewrite Z.lor_0_l, Z.mod_small by (cbn; lia). unfold nibble. lia.
Qed.

Lemma token_last l : Z.to_nat (Z.shiftr (Z.shiftl (nibble l) 4) 4) = Nat.min 15 l.
Proof. pose proof (token_high l 0) as H. unfold token in H. now rewrite Z.lor_0_r in H. Qed.

Lemma copy_match_ret n offset : forall out, 0 < offset <= length out -> copy_match n offset out = Done (repeated n offset out).
Proof.
  induction n as [|n IH]; intros out Ho; [done|]. cbn [copy_match repeated]. destruct (byte_at_ret out (length out - offset) ltac:(lia)) as (b & E & ->).
  cbn [mbind result_bind]. rewrite IH by (rewrite length_app; cbn; lia). do 4 f_equal. symmetry. now apply nth_lookup_Some.
Qed.

Lemma le16 o : (0 <= o <= 0xFFFF)%Z -> little_endian [(o mod 256)%Z; (o / 256)%Z] = o.
Proof. intros H. cbn. pose proof (Z.div_mod o 256). lia. Qed.

(** An iteration at the last literals, and one at a sequence. *)
Lemma decompress_last src cap fuel ip out lits : drop ip src = literal_bytes lits -> length out + length lits <= cap ->
  decompress_loop (S fuel) src cap ip out = Done (out ++ lits).
Proof.
  intros E Hc. unfold literal_bytes in E. apply drop_cons in E as (Hi & Hb & E). cbn [decompress_loop].
  destruct (Nat.ltb_spec ip (length src)); [|lia]. rewrite Hb. cbn [mbind result_bind]. rewrite token_last.
  change ((extension (length lits)) ++ lits) with (extension (length lits) ++ lits) in E.
  destruct (read_length_ret src (S ip) (length lits) lits E ltac:(lia)) as [-> E']. cbn [mbind result_bind].
  set (ip' := S ip + length (extension (length lits))) in *. assert (Hl : length lits = length src - ip') by (rewrite <- E', length_drop; done).
  assert (Hi' : ip' <= length src).
  { assert (length (drop (S ip) src) = length (extension (length lits)) + length lits) by now rewrite E, length_app.
    rewrite length_drop in *. unfold ip' in *. lia. }
  destruct (Nat.ltb_spec cap (length out + length lits)); [lia|]. destruct (Nat.ltb_spec (length src) (ip' + length lits)); [lia|].
  rewrite (slice_ret src ip') by lia. rewrite E', firstn_all. cbn [mbind result_bind]. rewrite put_ret by lia. cbn [mbind result_bind].
  destruct (Nat.leb_spec (length src) (ip' + length lits)); [done|lia].
Qed.

Lemma decompress_sequence src cap fuel ip out s rest : drop ip src = sequence_bytes s ++ rest -> sequence_ok out s -> length (expand out s) <= cap ->
  exists ip', decompress_loop (S fuel) src cap ip out = decompress_loop fuel src cap ip' (expand out s) /\ drop ip' src = rest.
Proof.
  intros E [[Ho1 Ho2] Ho3] Hc. rewrite expand_length in Hc. unfold sequence_bytes in E. rewrite <- !app_assoc in E.
  apply drop_cons in E as (Hi & Hb & E). cbn [decompress_loop]. destruct (Nat.ltb_spec ip (length src)); [|lia]. rewrite Hb. cbn [mbind result_bind].
  rewrite token_high. destruct (read_length_ret src (S ip) _ _ E ltac:(lia)) as [-> E1]. cbn [mbind result_bind].
  set (lits := seq_literals s) in *. set (ip1 := S ip + length (extension (length lits))) in *.
  destruct (drop_slice src ip1 lits _ E1 ltac:(now destruct lits)) as (L1 & -> & E2). cbn [app] in E2.
  destruct (drop_slice src (ip1 + length lits) [_; _] _ E2 ltac:(done)) as (L2 & S2 & E3). cbn [length] in *.
  destruct (Nat.ltb_spec cap (length out + length lits)); [lia|]. destruct (Nat.ltb_spec (length src) (ip1 + length lits)); [lia|].
  cbn [mbind result_bind]. rewrite put_ret by lia. cbn [mbind result_bind]. destruct (Nat.leb_spec (length src) (ip1 + length lits)); [lia|].
  destruct (Nat.ltb_spec (length src) (ip1 + length lits + 2)); [lia|]. rewrite S2. cbn [mbind result_bind]. rewrite le16, Nat2Z.id by lia.
  destruct (Nat.eqb_spec (seq_offset s) 0); [lia|]. rewrite length_app. destruct (Nat.ltb_spec (length out + length lits) (seq_offset s)); [lia|]. cbn [orb].
  rewrite token_low. destruct (read_length_ret src (ip1 + length lits + 2) _ _ E3 ltac:(lia)) as [-> E4]. cbn [mbind result_bind].
  destruct (Nat.ltb_spec cap (length out + length lits + (seq_extra s + MIN_MATCH))); [lia|].
  rewrite copy_match_ret by (rewrite length_app; lia). cbn [mbind result_bind]. eexists. split; [reflexivity|exact E4].
Qed.

Lemma decompress_block src cap lits ss : forall fuel ip out, drop ip src = block_bytes ss lits -> sequences_ok out ss ->
  length (expand_all ss out) + length lits <= cap -> length ss < fuel -> decompress_loop fuel src cap ip out = Done (expand_all ss out ++ lits).
Proof.
  induction ss as [|s ss IH]; intros [|fuel] ip out E Hok Hc Hf; cbn in Hf; try lia; unfold block_bytes in E; cbn [mbind list_bind] in E.
  - now apply decompress_last.
  - rewrite <- app_assoc in E. destruct Hok as [Hs Hok]. pose proof (expand_all_length ss (expand out s)).
    destruct (decompress_sequence src cap fuel ip out s _ E Hs) as (ip' & -> & E'); [cbn in Hc; unfold expand_all in *; lia|].
    apply IH; [exact E'|done|exact Hc|lia].
Qed.

Lemma sequences_count ss : length ss <= length (ss ≫= sequence_bytes).
Proof. induction ss as [|s ss IH]; cbn; [lia|]. rewrite length_app. lia. Qed.

Lemma decompress_ret ss lits cap : sequences_ok [] ss -> length (expand_all ss [] ++ lits) <= cap ->
  decompress (block_bytes ss lits) cap = Done (expand_all ss [] ++ lits).
Proof.
  intros Hok Hc. rewrite length_app in Hc. unfold decompress.
  assert (Hl : length ss < length (block_bytes ss lits)).
  { unfold block_bytes, literal_bytes. rewrite !length_app. cbn [length]. pose proof (sequences_count ss). lia. }
  destruct (block_bytes ss lits) as [|x b] eqn:E; [cbn in Hl; lia|]. rewrite <- E in *. now apply decompress_block.
Qed.

(** ** Decompression of any input *)

Lemma read_extension_safe src fuel : forall ip len, length src < fuel + ip -> 0 < fuel ->
  exists ip' len', read_extension fuel src ip len = Done (ip', len') /\ ip <= ip'.
Proof.
  induction fuel as [|fuel IH]; intros ip len H Hf; [lia|]. cbn [read_extension].
  destruct (Nat.ltb_spec ip (length src)) as [Hi|]; [|eauto]. destruct (byte_at_ret src ip Hi) as (b & _ & ->). cbn [mbind result_bind].
  destruct (b =? 255)%Z; [|eexists _, _; split; [reflexivity|lia]].
  destruct (IH (S ip) (len + Z.to_nat b) ltac:(lia) ltac:(lia)) as (ip' & len' & -> & H'). exists ip', len'. split; [done|lia].
Qed.

Lemma read_length_safe src ip len : exists ip' len', read_length src ip len = Done (ip', len') /\ ip <= ip'.
Proof. unfold read_length. destruct (len =? 15); [apply read_extension_safe; lia|eauto]. Qed.

Lemma repeated_bytes n offset : forall out, Forall byte_ok out -> 0 < offset <= length out -> Forall byte_ok (repeated n offset out).
Proof.
  induction n as [|n IH]; intros out Hb Ho; cbn [repeated]; [done|]. apply IH; [|rewrite length_app; cbn; lia].
  apply Forall_app. split; [done|]. apply Forall_singleton. rewrite Forall_forall in Hb. apply Hb, list_elem_of_In, nth_In. lia.
Qed.

(** The output fits, and is made of bytes of the input. *)
Definition safe_output (cap : nat) (r : CResult (list Z)) : Prop :=
  match r with Done out => length out <= cap /\ Forall byte_ok out | Failed _ => True | Panic => False end.

Lemma decompress_loop_safe src cap fuel : forall ip out, Forall byte_ok src -> Forall byte_ok out -> length out <= cap -> length src <= fuel + ip ->
  safe_output cap (decompress_loop fuel src cap ip out).
Proof.
  induction fuel as [|fuel IH]; intros ip out Hb Ho Hc Hf; cbn [decompress_loop]; (destruct (Nat.ltb_spec ip (length src)) as [Hi|]; [|done]); [lia|].
  destruct (byte_at_ret src ip Hi) as (tok & _ & ->). cbn [mbind result_bind].
  destruct (read_length_safe src (S ip) (Z.to_nat (Z.shiftr tok 4))) as (ip1 & lits & -> & Hx1). cbn [mbind result_bind].
  destruct (Nat.ltb_spec cap (length out + lits)); [done|]. destruct (Nat.ltb_spec (length src) (ip1 + lits)); [done|].
  rewrite (slice_ret src ip1) by lia. cbn [mbind result_bind]. set (l := take lits (drop ip1 src)).
  assert (Hl : length l = lits) by (unfold l; rewrite length_take, length_drop; lia). rewrite put_ret by lia. cbn [mbind result_bind].
  assert (Ho' : Forall byte_ok (out ++ l)) by (apply Forall_app; split; [done|]; now apply Forall_take, Forall_drop).
  destruct (Nat.leb_spec (length src) (ip1 + lits)); [split; [rewrite length_app; lia|done]|]. destruct (Nat.ltb_spec (length src) (ip1 + lits + 2)); [done|].
  rewrite slice_ret by lia. cbn [mbind result_bind]. set (o := Z.to_nat (little_endian _)). destruct (Nat.eqb_spec o 0); [done|].
  destruct (Nat.ltb_spec (length (out ++ l)) o); [done|]. cbn [orb].
  destruct (read_length_safe src (ip1 + lits + 2) (Z.to_nat (Z.land tok 15))) as (ip2 & extra & -> & Hx2). cbn [mbind result_bind].
  destruct (Nat.ltb_spec cap (length (out ++ l) + (extra + MIN_MATCH))); [done|]. rewrite copy_match_ret by lia. cbn [mbind result_bind].
  apply IH; [done|apply repeated_bytes; [done|lia]|rewrite repeated_length; lia|lia].
Qed.

(** ** The pool *)

Definition is_page (pg : list Z) : Prop := length pg = PAGE_BYTES /\ Forall byte_ok pg.

Definition page_of (s : CompressedSlot) : option (Z * list Z) :=
  match decompress (slot_data s) PAGE_BYTES with Done pg => Some (page_index s, pg) | _ => None end.

(** The pages in the pool, with the numbers they were stored under. *)
Definition pool_pages (slots : list (option CompressedSlot)) : list (Z * list Z) := omap (fun o => s ← o; page_of s) slots.

Definition slot_ok (o : option CompressedSlot) : Prop :=
  match o with None => True | Some s => exists pg, decompress (slot_data s) PAGE_BYTES = Done pg /\ is_page pg end.

Record pool_ok (p : CompressPool) : Prop := {
  po_length : length (pool_slots p) = MAX_SLOTS;
  po_slots : Forall slot_ok (pool_slots p);
  po_used : pool_used p = length (pool_pages (pool_slots p));
}.

Lemma page_of_ret s : slot_ok (Some s) -> exists pg, page_of s = Some (page_index s, pg) /\ decompress (slot_data s) PAGE_BYTES = Done pg /\ is_page pg.
Proof. intros (pg & E & Hp). exists pg. unfold page_of. now rewrite E. Qed.

Lemma fill_first_ret s slots : Forall slot_ok slots -> slot_ok (Some s) ->
  match fill_first s slots with
  | Some slots' => Forall slot_ok slots' /\ length slots' = length slots /\
      exists x, page_of s = Some x /\ pool_pages slots' ≡ₚ x :: pool_pages slots
  | None => length slots = length (pool_pages slots)
  end.
Proof.
  intros Hok Hs. destruct (page_of_ret s Hs) as (pg & Es & _). induction slots as [|[t|] slots IH]; cbn [fill_first]; [done| |].
  - apply Forall_cons in Hok as [Ht Hok]. specialize (IH Hok). destruct (page_of_ret t Ht) as (pt & Et & _). destruct (fill_first s slots) as [slots'|]; cbn [mbind option_bind].
    + destruct IH as (I1 & I2 & x & I3 & I4). split; [now constructor|]. split; [cbn; lia|]. exists x. split; [done|].
      unfold pool_pages in *. cbn. rewrite Et, I4. apply Permutation_swap.
    + unfold pool_pages in *. cbn. rewrite Et. cbn. lia.
  - apply Forall_cons in Hok as [_ Hok]. split; [now constructor|]. split; [done|]. eexists. split; [exact Es|]. unfold pool_pages. cbn. now rewrite Es.
Qed.

Lemma take_slot_ret index slots : Forall slot_ok slots ->
  match take_slot index slots with
  | Some (s, slots') => slot_ok (Some s) /\ page_index s = index /\ Forall slot_ok slots' /\ length slots' = length slots /\
      exists x, page_of s = Some x /\ pool_pages slots ≡ₚ x :: pool_pages slots'
  | None => forall pg, (index, pg) ∉ pool_pages slots
  end.
Proof.
  induction slots as [|[t|] slots IH]; intros Hok; cbn [take_slot]; [intros pg; apply not_elem_of_nil| |]; apply Forall_cons in Hok as [Ht Hok]; specialize (IH Hok).
  - destruct (page_of_ret t Ht) as (pt & Et & _). destruct (Z.eqb_spec (page_index t) index) as [E|E].
    + split; [done|]. split; [done|]. split; [now constructor|]. split; [done|]. exists (page_index t, pt). split; [done|]. unfold pool_pages. cbn. now rewrite Et.
    + destruct (take_slot index slots) as [[s slots']|]; cbn [mbind option_bind].
      * destruct IH as (I1 & I2 & I3 & I4 & x & I5 & I6). split; [done|]. split; [done|]. split; [now constructor|]. split; [cbn; lia|]. exists x.
        split; [done|]. unfold pool_pages in *. cbn. rewrite Et, I6. apply Permutation_swap.
      * intros pg. unfold pool_pages in *. cbn. rewrite Et, not_elem_of_cons. split; [congruence|apply IH].
  - destruct (take_slot index slots) as [[s slots']|]; cbn [mbind option_bind].
    + destruct IH as (I1 & I2 & I3 & I4 & x & I5 & I6). split; [done|]. split; [done|]. split; [now constructor|]. split; [cbn; lia|]. exists x. done.
    + exact IH.
Qed.

Lemma pool_pages_length slots : length (pool_pages slots) <= length slots.
Proof. unfold pool_pages. induction slots as [|o slots IH]; cbn; [done|]. destruct (o ≫= page_of); cbn; lia. Qed.

Lemma pool_store_ret p alloc index pg : pool_ok p -> is_page pg ->
  exists accepted p', pool_store alloc index pg p = Done (accepted, p') /\ pool_ok p' /\
    if accepted : bool then pool_pages (pool_slots p') ≡ₚ (index, pg) :: pool_pages (pool_slots p)
    else p' = p /\ (length (pool_pages (pool_slots p)) = MAX_SLOTS \/ alloc = false \/
           exists out, compress pg MAX_COMPRESSED_SIZE = Done out /\ PAGE_BYTES <= length out).
Proof.
  intros Hp [Hl Hb]. pose proof Hp as [P1 P2 P3]. unfold pool_store. pose proof (pool_pages_length (pool_slots p)).
  destruct (Nat.leb_spec MAX_SLOTS (pool_used p)); [exists false, p; split; [done|]; split; [done|]; split; [done|]; left; lia|].
  assert (Hc : length pg + length pg / 255 + 2 <= MAX_COMPRESSED_SIZE) by (rewrite Hl; apply Nat.leb_le; vm_compute; reflexivity).
  destruct (compress_ret pg MAX_COMPRESSED_SIZE Hb) as (ss & lits & Ec & Hok & Hx & _); [unfold Zlen; rewrite Hl; reflexivity|lia|done|now intros ->|].
  rewrite Ec. destruct (Nat.leb_spec PAGE_BYTES (length (block_bytes ss lits))).
  { exists false, p. split; [done|]. split; [done|]. split; [done|]. right. right. eauto. }
  destruct alloc; cbn [negb]; [|exists false, p; split; [done|]; split; [done|]; split; [done|]; auto].
  assert (Hd : decompress (block_bytes ss lits) PAGE_BYTES = Done pg) by (rewrite decompress_ret, Hx; [done|done|rewrite Hx; lia]).
  pose proof (fill_first_ret (MkSlot index (block_bytes ss lits)) (pool_slots p) P2 (ex_intro _ pg (conj Hd (conj Hl Hb)))) as Hf.
  destruct (fill_first _ _) as [slots|]; [|lia]. destruct Hf as (F1 & F2 & x & F3 & F4). unfold page_of in F3. cbn in F3. rewrite Hd in F3. injection F3 as <-.
  eexists true, _. split; [done|]. split; [|done]. split; cbn; [lia|done|]. rewrite F4. cbn. lia.
Qed.

Lemma pool_load_ret p index : pool_ok p -> exists found p', pool_load index p = Done (found, p') /\ pool_ok p' /\
  match found with
  | Some pg => is_page pg /\ pool_pages (pool_slots p) ≡ₚ (index, pg) :: pool_pages (pool_slots p')
  | None => p' = p /\ forall pg, (index, pg) ∉ pool_pages (pool_slots p)
  end.
Proof.
  intros Hp. pose proof Hp as [P1 P2 P3]. unfold pool_load. pose proof (take_slot_ret index (pool_slots p) P2) as Ht.
  destruct (take_slot index (pool_slots p)) as [[s slots]|]; [|exists None, p; done].
  destruct Ht as (T1 & <- & T2 & T3 & x & T4 & T5). destruct (page_of_ret s T1) as (pg & E1 & E2 & E3). rewrite E2.
  assert (x = (page_index s, pg)) as -> by congruence. pose proof (Permutation_length T5) as Hn. cbn in Hn.
  destruct (Nat.eqb_spec (pool_used p) 0); [lia|]. eexists _, _. split; [done|]. split; [split; cbn [pool_slots pool_used]; [lia|done|lia]|done].
Qed.

(** ** Properties *)

(** C19. What [compress] makes of any input that fits the buffer, [decompress] turns
    back into that input, whatever the larger buffer it is given.  Compression never
    fails on a buffer of the documented size, and the output has at most a byte in
    255 and two more than the input: an incompressible page fits. *)
Theorem compress_roundtrip src cap : Forall byte_ok src -> (Zlen src < 2 ^ 32)%Z -> MAX_COMPRESSED_SIZE <= cap ->
  length src + length src / 255 + 2 <= cap ->
  exists out, compress src cap = Done out /\ length out <= length src + length src / 255 + 2 /\
    forall cap', length src <= cap' -> decompress out cap' = Done src.
Proof.
  intros Hb Hz Hm Hc. destruct (decide (src = [])) as [->|Hne].
  - exists []. unfold compress. destruct (Nat.ltb_spec cap MAX_COMPRESSED_SIZE); [lia|]. split; [done|]. split; [cbn; lia|done].
  - destruct (compress_ret src cap Hb Hz Hm Hc Hne) as (ss & lits & E & Hok & Hx & Hl). exists (block_bytes ss lits). split; [done|]. split; [done|].
    intros cap' Hc'. rewrite decompress_ret; [now rewrite Hx|done|now rewrite Hx].
Qed.

Lemma compress_roundtrip_witness : exists out, compress (replicate 20 7%Z ++ [1; 2; 3]%Z) MAX_COMPRESSED_SIZE = Done out /\ length out = 9 /\
  decompress out 64 = Done (replicate 20 7%Z ++ [1; 2; 3]%Z).
Proof.
  destruct (compress_roundtrip (replicate 20 7%Z ++ [1; 2; 3]%Z) MAX_COMPRESSED_SIZE) as (out & E & _ & H).
  - repeat constructor; cbn; lia.
  - reflexivity.
  - lia.
  - apply Nat.leb_le. vm_compute. reflexivity.
  - exists out. split; [exact E|]. split; [vm_compute in E; injection E as <-; reflexivity|]. apply H. apply Nat.leb_le. reflexivity.
Defined.

(** C20. [decompress] is safe on every sequence of bytes: it ends, reads nothing
    outside of its input, and its output is within the buffer. *)
Theorem decompress_safe src cap : Forall byte_ok src ->
  match decompress src cap with
  | Done out => length out <= cap /\ Forall byte_ok out
  | Failed _ => True
  | Panic => False
  end.
Proof.
  intros Hb. unfold decompress. destruct src as [|x src0] eqn:E; [split; [cbn; lia|done]|]. rewrite <- E in *.
  apply (decompress_loop_safe src cap (length src) 0 []); [done|done|cbn; lia|lia].
Qed.

Lemma decompress_safe_witness : decompress [0x1F; 7; 9; 0]%Z 100 = Failed CorruptInput /\
  match decompress [0x1F; 7; 1; 0; 200; 0]%Z 100 with Done _ => False | Failed _ => True | Panic => False end.
Proof.
  split; [reflexivity|]. pose proof (decompress_safe [0x1F; 7; 1; 0; 200; 0]%Z 100 ltac:(repeat constructor; cbn; lia)) as H.
  vm_compute in H |- *. exact H.
Defined.

(** The pool keeps the pages it has accepted.  It starts empty; a page that is
    stored is one page more in it, and is refused only when the pool is full, the
    page does not become smaller or there is no memory for it; a page that is loaded
    is one that was stored under its number, whole, and leaves the pool, and a load
    fails only when there is none.  None of it panics. *)
Theorem pool_keeps_pages : pool_ok pool_init /\
  (forall p alloc index pg, pool_ok p -> is_page pg -> exists accepted p', pool_store alloc index pg p = Done (accepted, p') /\ pool_ok p' /\
     if accepted : bool then pool_pages (pool_slots p') ≡ₚ (index, pg) :: pool_pages (pool_slots p)
     else p' = p /\ (length (pool_pages (pool_slots p)) = MAX_SLOTS \/ alloc = false \/
            exists out, compress pg MAX_COMPRESSED_SIZE = Done out /\ PAGE_BYTES <= length out)) /\
  (forall p index, pool_ok p -> exists found p', pool_load index p = Done (found, p') /\ pool_ok p' /\
     match found with
     | Some pg => is_page pg /\ pool_pages (pool_slots p) ≡ₚ (index, pg) :: pool_pages (pool_slots p')
     | None => p' = p /\ forall pg, (index, pg) ∉ pool_pages (pool_slots p)
     end).
Proof.
  split; [split; [done|now apply Forall_replicate|vm_compute; reflexivity]|].
  split; [intros p alloc index pg; apply pool_store_ret|intros p index; apply pool_load_ret].
Qed.

(** A page that is stored again under a number may end in a higher slot than the
    first one, and then the load finds the old page. *)
Example pool_stale_page index old new slots :
  fill_first (MkSlot index new) (Some (MkSlot index old) :: None :: slots) = Some (Some (MkSlot index old) :: Some (MkSlot index new) :: slots) /\
  take_slot index (Some (MkSlot index old) :: Some (MkSlot index new) :: slots) = Some (MkSlot index old, None :: Some (MkSlot index new) :: slots).
Proof. split; [done|]. cbn. now rewrite Z.eqb_refl. Qed.

(** The last literals of a block are not the last five bytes: the match of this
    input ends one byte before its end. *)
Example short_last_literals : compress (replicate 20 0%Z) MAX_COMPRESSED_SIZE =
  Done (sequence_bytes (MkSequence [0%Z] 1 14) ++ literal_bytes [0%Z]).
Proof. vm_compute. reflexivity. Qed.
