(* ===== verification/Tasks.v ===== *)
(** * Tasks that interleave

    The synchronisation primitives of [src/src/innigkeit/sync] are run by several
    tasks at once.  A task is a position in the list of program counters; a step is
    one atomic access to the shared state by one task.  What the tasks contribute to
    a shared counter is a sum over the list, which a step changes at one place. *)

From stdpp Require Import relations.
From S2P Require Import Prelude.

Section Sums.
Context {Pc : Type}.
Implicit Types (pcs : list Pc) (f g : Pc -> Z).

Definition total f pcs : Z := foldr (fun pc n => f pc + n) 0 pcs.

Lemma total_insert f pcs t pc pc' : pcs !! t = Some pc -> total f (<[t := pc']> pcs) = total f pcs - f pc + f pc'.
Proof.
  revert t. induction pcs as [|q pcs IH]; intros [|t] H; cbn in *; [done|done|injection H as ->; lia|].
  change (f q + total f (<[t := pc']> pcs) = f q + total f pcs - f pc + f pc'). rewrite (IH t H). lia.
Qed.

Lemma total_nonneg f pcs : (forall pc, 0 <= f pc) -> 0 <= total f pcs.
Proof. intros Hf. induction pcs as [|q pcs IH]; cbn; [lia|]. specialize (Hf q). unfold total in *. lia. Qed.

(** A task contributes no more than all of them. *)
Lemma total_elem f pcs t pc : (forall pc, 0 <= f pc) -> pcs !! t = Some pc -> f pc <= total f pcs.
Proof.
  intros Hf. revert t. induction pcs as [|q pcs IH]; intros [|t] H; cbn in *; [done|done|injection H as ->|].
  - pose proof (total_nonneg f pcs Hf). unfold total in *. lia.
  - specialize (IH t H). specialize (Hf q). unfold total in *. lia.
Qed.

(** Two tasks contribute no more than all of them. *)
Lemma total_two f pcs t u pc qc : (forall pc, 0 <= f pc) -> t <> u -> pcs !! t = Some pc -> pcs !! u = Some qc -> f pc + f qc <= total f pcs.
Proof.
  intros Hf. revert t u. induction pcs as [|q pcs IH]; intros [|t] [|u] Hn Ht Hu; cbn in *; try done; try congruence.
  - injection Ht as ->. pose proof (total_elem f pcs u qc Hf Hu). unfold total in *. lia.
  - injection Hu as ->. pose proof (total_elem f pcs t pc Hf Ht). unfold total in *. lia.
  - specialize (IH t u ltac:(congruence) Ht Hu). specialize (Hf q). unfold total in *. lia.
Qed.

(** When [g] is below [f] everywhere, the sums differ by what one task adds at least. *)
Lemma total_gap f g pcs t pc : (forall pc, g pc <= f pc) -> pcs !! t = Some pc -> f pc - g pc <= total f pcs - total g pcs.
Proof.
  intros Hg Ht. replace (total f pcs - total g pcs) with (total (fun pc => f pc - g pc) pcs).
  - apply (total_elem (fun pc => f pc - g pc) pcs t pc); [|done]. intros q. specialize (Hg q). lia.
  - clear Ht. induction pcs as [|q pcs IH]; cbn; [lia|]. unfold total in *. lia.
Qed.

Lemma total_mono f g pcs : (forall pc, f pc <= g pc) -> total f pcs <= total g pcs.
Proof. intros Hf. induction pcs as [|q pcs IH]; cbn; [lia|]. specialize (Hf q). unfold total in *. lia. Qed.

Lemma total_length f pcs : (forall pc, f pc <= 1) -> total f pcs <= Zlen pcs.
Proof. intros Hf. unfold Zlen. induction pcs as [|q pcs IH]; cbn [length total foldr]; [lia|]. specialize (Hf q). unfold total in *. lia. Qed.

Lemma total_replicate f n pc : f pc = 0 -> total f (replicate n pc) = 0.
Proof. intros Hf. induction n as [|n IH]; cbn; [done|]. unfold total in *. lia. Qed.

(** When a sum is positive some task contributes to it. *)
Lemma total_pos f pcs : 0 < total f pcs -> exists t pc, pcs !! t = Some pc /\ 0 < f pc.
Proof.
  induction pcs as [|q pcs IH]; cbn; [lia|]. intros H. destruct (Z.lt_trichotomy (f q) 0) as [Hq|[Hq|Hq]].
  - destruct IH as (t & pc & H1 & H2); [unfold total; lia|]. now exists (S t), pc.
  - destruct IH as (t & pc & H1 & H2); [unfold total; lia|]. now exists (S t), pc.
  - now exists 0%nat, q.
Qed.
End Sums.

(** ** Runs *)

Section Runs.
Context {S : Type} (step : S -> S -> Prop).

(** What holds in the states of a set and is kept by every step holds ever after. *)
Lemma run_invariant (P : S -> Prop) s s' : (forall s s', P s -> step s s' -> P s') -> P s -> rtc step s s' -> P s'.
Proof. intros Hp Hs Hr. induction Hr as [|s s1 s' H _ IH]; [done|]. apply IH. now apply (Hp s). Qed.
End Runs.

(** A run that is given by its steps. *)
Fixpoint run_steps {S L : Type} (next : L -> S -> option S) (ls : list L) (s : S) : option S :=
  match ls with [] => Some s | l :: ls' => s' ← next l s; run_steps next ls' s' end.

Lemma run_steps_rtc {S L : Type} (next : L -> S -> option S) ls : forall s s', run_steps next ls s = Some s' ->
  rtc (fun s s' => exists l, next l s = Some s') s s'.
Proof.
  induction ls as [|l ls IH]; intros s s' H; cbn in H; [injection H as ->; apply rtc_refl|].
  destruct (next l s) as [s1|] eqn:E; [|done]. apply (rtc_l _ _ s1); [now exists l|now apply IH].
Qed.
