(* ===== verification/SpinLock.v ===== *)
(** * The ticket spin lock

    [src/src/innigkeit/sync/TicketSpinLock.zig]: a lock is drawn as a ticket and is
    entered when the counter of served tickets reaches it.  A step is one atomic
    access of one context (a task, or the interrupt handler of an executor); a
    context that is inside the lock has interrupts disabled, hence is identified
    with its executor.  The lock implements a queue: contexts enter in the order in
    which they drew their tickets, one at a time, with the two counters wrapping at
    32 bits.

    A ticket is drawn before interrupts are disabled; the last part shows what an
    interrupt between the two does. *)

From stdpp Require Import relations.
From S2P Require Import Prelude Tasks.

(** ** The code *)

(** Where a context is: outside; with a ticket, before interrupts are disabled; in
    the wait loop; past it, before the holder is recorded; inside; between the two
    writes of [unsafeUnlock]; in [tryLock], with the container it loaded. *)
Inductive SpinPc :=
| SpinIdle
| SpinDrawn (tk : Z)
| SpinWaiting (tk : Z)
| SpinEntered
| SpinHeld
| SpinReleasing
| SpinTrying (current ticket : Z).

Record TicketSpinLock := { spin_current : Z; spin_ticket : Z; holding_executor : option nat; spin_pcs : list SpinPc }.

Definition spin_goto (t : nat) (pc : SpinPc) (s : TicketSpinLock) : TicketSpinLock :=
  {| spin_current := spin_current s; spin_ticket := spin_ticket s; holding_executor := holding_executor s;
     spin_pcs := <[t := pc]> (spin_pcs s) |}.
Definition spin_set_ticket (k : Z) (s : TicketSpinLock) : TicketSpinLock :=
  {| spin_current := spin_current s; spin_ticket := k; holding_executor := holding_executor s; spin_pcs := spin_pcs s |}.
Definition spin_set_current (c : Z) (s : TicketSpinLock) : TicketSpinLock :=
  {| spin_current := c; spin_ticket := spin_ticket s; holding_executor := holding_executor s; spin_pcs := spin_pcs s |}.
Definition spin_set_holder (h : option nat) (s : TicketSpinLock) : TicketSpinLock :=
  {| spin_current := spin_current s; spin_ticket := spin_ticket s; holding_executor := h; spin_pcs := spin_pcs s |}.

(** A context begins an operation, or makes the next access of the one it is in. *)
Inductive SpinAct := SpinLock | SpinTryLock | SpinUnlock | SpinGo.

(** [lock]: [@atomicRmw] on the ticket; interrupts are disabled; the loads of
    [current] until it is the ticket; the holder. *)
Definition spin_lock (t : nat) (s : TicketSpinLock) : TicketSpinLock :=
  spin_goto t (SpinDrawn (spin_ticket s)) (spin_set_ticket (u32 (spin_ticket s + 1)) s).

Definition spin_wait (t : nat) (tk : Z) (s : TicketSpinLock) : TicketSpinLock :=
  if spin_current s =? tk then spin_goto t SpinEntered s else s.

Definition spin_hold (t : nat) (s : TicketSpinLock) : TicketSpinLock := spin_goto t SpinHeld (spin_set_holder (Some t) s).

(** [tryLock]: the load of the container, and the exchange. *)
Definition spin_try (t : nat) (s : TicketSpinLock) : TicketSpinLock :=
  if spin_current s =? spin_ticket s then spin_goto t (SpinTrying (spin_current s) (spin_ticket s)) s else s.

Definition spin_try_exchange (t : nat) (c k : Z) (s : TicketSpinLock) : TicketSpinLock :=
  if (spin_current s =? c) && (spin_ticket s =? k) then spin_goto t SpinEntered (spin_set_ticket (u32 (k + 1)) s) else spin_goto t SpinIdle s.

(** [unlock], whose two writes are [unsafeUnlock]. *)
Definition spin_unlock (t : nat) (s : TicketSpinLock) : TicketSpinLock := spin_goto t SpinReleasing (spin_set_holder None s).
Definition spin_serve (t : nat) (s : TicketSpinLock) : TicketSpinLock := spin_goto t SpinIdle (spin_set_current (u32 (spin_current s + 1)) s).

Definition isLockedByCurrent (t : nat) (s : TicketSpinLock) : bool := bool_decide (holding_executor s = Some t).

Definition spin_next (l : nat * SpinAct) (s : TicketSpinLock) : option TicketSpinLock :=
  let t := l.1 in
  match l.2, spin_pcs s !! t with
  | SpinLock, Some SpinIdle => Some (spin_lock t s)
  | SpinGo, Some (SpinDrawn tk) => Some (spin_goto t (SpinWaiting tk) s)
  | SpinGo, Some (SpinWaiting tk) => Some (spin_wait t tk s)
  | SpinGo, Some SpinEntered => Some (spin_hold t s)
  | SpinTryLock, Some SpinIdle => Some (spin_try t s)
  | SpinGo, Some (SpinTrying c k) => Some (spin_try_exchange t c k s)
  | SpinUnlock, Some SpinHeld => Some (spin_unlock t s)
  | SpinGo, Some SpinReleasing => Some (spin_serve t s)
  | _, _ => None
  end.

Definition spin_init (c : Z) (n : nat) : TicketSpinLock :=
  {| spin_current := c; spin_ticket := c; holding_executor := None; spin_pcs := replicate n SpinIdle |}.

(** ** The queue it implements *)

Record Fifo := { fifo_queue : list nat; fifo_inside : bool }.

Inductive FifoEvent := Joined (t : nat) | Acquired (t : nat) | Tried (t : nat) | Released (t : nat).

Definition fifo_next (e : FifoEvent) (f : Fifo) : option Fifo :=
  match e, fifo_queue f, fifo_inside f with
  | Joined t, q, b => Some {| fifo_queue := q ++ [t]; fifo_inside := b |}
  | Acquired t, u :: q, false => if decide (t = u) then Some {| fifo_queue := u :: q; fifo_inside := true |} else None
  | Tried t, [], false => Some {| fifo_queue := [t]; fifo_inside := true |}
  | Released t, u :: q, true => if decide (t = u) then Some {| fifo_queue := q; fifo_inside := false |} else None
  | _, _, _ => None
  end.

Definition fifo_init : Fifo := {| fifo_queue := []; fifo_inside := false |}.

(** What a step of the lock is for its users. *)
Definition spin_events (l : nat * SpinAct) (s : TicketSpinLock) : list FifoEvent :=
  let t := l.1 in
  match l.2, spin_pcs s !! t with
  | SpinLock, Some SpinIdle => [Joined t]
  | SpinGo, Some (SpinWaiting tk) => if spin_current s =? tk then [Acquired t] else []
  | SpinGo, Some (SpinTrying c k) => if (spin_current s =? c) && (spin_ticket s =? k) then [Tried t] else []
  | SpinGo, Some SpinReleasing => [Released t]
  | _, _ => []
  end.

Fixpoint spin_trace (ls : list (nat * SpinAct)) (s : TicketSpinLock) : list FifoEvent :=
  match ls with
  | [] => []
  | l :: ls' => spin_events l s ++ match spin_next l s with Some s' => spin_trace ls' s' | None => [] end
  end.

(** ** The queue behind the counters *)

(** A context at place [i] of the queue has the ticket [i] after the served one, and
    the first of the queue may be inside. *)
Definition spin_stage (c : Z) (b : bool) (i : nat) (pc : SpinPc) : bool :=
  match pc with
  | SpinDrawn tk | SpinWaiting tk => (tk =? u32 (c + Z.of_nat i)) && negb (b && (i =? 0)%nat)
  | SpinEntered | SpinHeld | SpinReleasing => b && (i =? 0)%nat
  | SpinIdle | SpinTrying _ _ => false
  end.

Definition spin_outside (pc : SpinPc) : bool := match pc with SpinIdle | SpinTrying _ _ => true | _ => false end.

Record tickets (s : TicketSpinLock) (f : Fifo) : Prop := {
  tk_range : 0 <= spin_current s < 2 ^ 32;
  tk_few : Zlen (spin_pcs s) < 2 ^ 32;
  tk_ticket : spin_ticket s = u32 (spin_current s + Zlen (fifo_queue f));
  tk_nodup : NoDup (fifo_queue f);
  tk_queue : forall i t, fifo_queue f !! i = Some t -> exists pc, spin_pcs s !! t = Some pc /\ spin_stage (spin_current s) (fifo_inside f) i pc = true;
  tk_outside : forall t pc, spin_pcs s !! t = Some pc -> t ∉ fifo_queue f -> spin_outside pc = true;
  tk_inside : fifo_inside f = true -> fifo_queue f <> [];
  tk_holder : forall t, holding_executor s = Some t <-> spin_pcs s !! t = Some SpinHeld
}.

Lemma tickets_len s f : tickets s f -> Zlen (fifo_queue f) <= Zlen (spin_pcs s).
Proof.
  intros Hk. enough (fifo_queue f ⊆+ seq 0 (length (spin_pcs s))) as H.
  { apply submseteq_length in H. rewrite length_seq in H. unfold Zlen. lia. }
  apply NoDup_submseteq; [apply (tk_nodup _ _ Hk)|]. intros t Ht. apply list_elem_of_lookup in Ht as [i Hi].
  destruct (tk_queue _ _ Hk _ _ Hi) as (pc & Hpc & _). apply lookup_lt_Some in Hpc. apply elem_of_seq. lia.
Qed.

(** A context with a ticket is in the queue. *)
Lemma tickets_place s f t pc : tickets s f -> spin_pcs s !! t = Some pc -> spin_outside pc = false ->
  exists i, fifo_queue f !! i = Some t /\ spin_stage (spin_current s) (fifo_inside f) i pc = true /\ Z.of_nat i < 2 ^ 32.
Proof.
  intros Hk Hpc Ho. destruct (decide (t ∈ fifo_queue f)) as [Hin|Hout]; [|rewrite (tk_outside _ _ Hk _ _ Hpc Hout) in Ho; done].
  apply list_elem_of_lookup in Hin as [i Hi]. exists i. destruct (tk_queue _ _ Hk _ _ Hi) as (pc' & Hpc' & Hst).
  rewrite Hpc in Hpc'. injection Hpc' as <-. repeat split; [done..|]. apply lookup_lt_Some in Hi.
  pose proof (tickets_len _ _ Hk). pose proof (tk_few _ _ Hk). unfold Zlen in *. lia.
Qed.

Lemma u32_same c i : 0 <= c < 2 ^ 32 -> 0 <= i < 2 ^ 32 -> c = u32 (c + i) -> i = 0.
Proof. unfold u32. intros Hc Hi H. assert (c = c mod 2 ^ 32) by (rewrite Z.mod_small; lia). nia || (pose proof (Z.div_mod (c + i) (2 ^ 32)); nia). Qed.

Lemma tickets_outside_queue s f t pc : tickets s f -> spin_pcs s !! t = Some pc -> spin_outside pc = true -> t ∉ fifo_queue f.
Proof.
  intros Hk Hpc Ho Hin. apply list_elem_of_lookup in Hin as [i Hi]. destruct (tk_queue _ _ Hk _ _ Hi) as (pc' & Hpc' & Hst).
  rewrite Hpc in Hpc'. injection Hpc' as <-. now destruct pc.
Qed.

Lemma insert_held (pcs : list SpinPc) t pc u : (t < length pcs)%nat -> pc <> SpinHeld ->
  <[t := pc]> pcs !! u = Some SpinHeld <-> u <> t /\ pcs !! u = Some SpinHeld.
Proof.
  intros Ht Hn. rewrite list_lookup_insert_Some. split; [intros [(-> & E & _)|(Hu & E)]; [congruence|split; [congruence|done]]|intros (Hu & E); right; split; [congruence|done]].
Qed.

(** A step of a context outside leaves the queue as it is. *)
Lemma tickets_stay_outside s f t pc pc' : tickets s f -> spin_pcs s !! t = Some pc -> spin_outside pc = true -> spin_outside pc' = true ->
  tickets (spin_goto t pc' s) f.
Proof.
  intros Hk Hpc Ho Ho'. pose proof (tickets_outside_queue _ _ _ _ Hk Hpc Ho) as Hout. pose proof (lookup_lt_Some _ _ _ Hpc) as Hlt.
  destruct Hk. constructor; cbn [spin_goto spin_current spin_ticket spin_pcs holding_executor]; try done.
  - unfold Zlen in *. now rewrite length_insert.
  - intros i u Hi. destruct (tk_queue0 i u Hi) as (qc & Hqc & Hst). exists qc. split; [|done].
    rewrite list_lookup_insert_ne; [done|]. intros ->. apply Hout, list_elem_of_lookup. eauto.
  - intros u qc Hu Hn. apply list_lookup_insert_Some in Hu as [(<- & <- & _)|(_ & Hu)]; [done|]. now apply (tk_outside0 u).
  - intros u. rewrite insert_held; [|done|now intros ->]. rewrite tk_holder0. split; [|tauto]. intros Hu. split; [|done]. intros ->. rewrite Hpc in Hu. injection Hu as ->. done.
Qed.

(** A step of a context of the queue that leaves its place. *)
Lemma tickets_stay s f h t i b' pc' : tickets s f -> fifo_queue f !! i = Some t -> (i = 0%nat \/ b' = fifo_inside f) ->
  spin_stage (spin_current s) b' i pc' = true -> (forall u, h = Some u <-> <[t := pc']> (spin_pcs s) !! u = Some SpinHeld) ->
  tickets (spin_goto t pc' (spin_set_holder h s)) {| fifo_queue := fifo_queue f; fifo_inside := b' |}.
Proof.
  intros Hk Hi Hb Hst Hh. destruct Hk. constructor; cbn [spin_goto spin_set_holder spin_current spin_ticket spin_pcs holding_executor fifo_queue fifo_inside]; try done.
  - unfold Zlen in *. now rewrite length_insert.
  - intros j u Hj. destruct (tk_queue0 j u Hj) as (qc & Hqc & Hsq). destruct (decide (u = t)) as [->|Hn].
    + rewrite (NoDup_lookup _ _ _ _ tk_nodup0 Hj Hi). exists pc'. split; [|done]. apply list_lookup_insert_eq. now apply lookup_lt_Some in Hqc.
    + exists qc. rewrite list_lookup_insert_ne by congruence. split; [done|]. destruct Hb as [->| ->]; [|done].
      destruct j as [|j]; [congruence|]. unfold spin_stage in *. now rewrite !andb_false_r in *.
  - intros u qc Hu Hn. apply list_lookup_insert_Some in Hu as [(<- & _)|(_ & Hu)]; [|now apply (tk_outside0 u)].
    destruct Hn. apply list_elem_of_lookup. eauto.
  - intros _ E. now rewrite E in Hi.
Qed.

(** A ticket is drawn: the context is the last of the queue. *)
Lemma tickets_append s f t pc pc' b' : tickets s f -> spin_pcs s !! t = Some pc -> spin_outside pc = true -> pc' <> SpinHeld ->
  (b' = fifo_inside f \/ fifo_queue f = []) -> spin_stage (spin_current s) b' (length (fifo_queue f)) pc' = true ->
  tickets (spin_goto t pc' (spin_set_ticket (u32 (spin_ticket s + 1)) s)) {| fifo_queue := fifo_queue f ++ [t]; fifo_inside := b' |}.
Proof.
  intros Hk Hpc Ho Hn Hb Hst. pose proof (tickets_outside_queue _ _ _ _ Hk Hpc Ho) as Hout. pose proof (lookup_lt_Some _ _ _ Hpc) as Hlt.
  destruct Hk. constructor; cbn [spin_goto spin_set_ticket spin_current spin_ticket spin_pcs holding_executor fifo_queue fifo_inside]; try done.
  - unfold Zlen in *. now rewrite length_insert.
  - rewrite tk_ticket0. unfold u32, Zlen. rewrite Z.add_mod_idemp_l, length_app by done. f_equal. cbn [length]. lia.
  - apply NoDup_app. split_and!; [done| |apply NoDup_singleton]. intros u Hu Hu'. apply list_elem_of_singleton in Hu' as ->. done.
  - intros i u Hi. apply lookup_app_Some in Hi as [Hi|(Hge & Hi)].
    + destruct (tk_queue0 i u Hi) as (qc & Hqc & Hsq). exists qc. destruct Hb as [->|E]; [|now rewrite E in Hi].
      split; [|done]. rewrite list_lookup_insert_ne; [done|]. intros ->. apply Hout, list_elem_of_lookup. eauto.
    + apply list_lookup_singleton_Some in Hi as [Hi <-]. exists pc'. rewrite list_lookup_insert_eq by done. split; [done|].
      now replace i with (length (fifo_queue f)) by lia.
  - intros u qc Hu Hnu. rewrite not_elem_of_app, list_elem_of_singleton in Hnu. rewrite list_lookup_insert_ne in Hu by (intros ->; tauto). apply (tk_outside0 u); tauto.
  - now destruct (fifo_queue f).
  - intros u. rewrite insert_held by done. rewrite tk_holder0. split; [|tauto]. intros Hu. split; [|done]. intros ->. rewrite Hpc in Hu. now injection Hu as ->.
Qed.

(** The lock is released: the next ticket is served. *)
Lemma tickets_pop s f t : tickets s f -> spin_pcs s !! t = Some SpinReleasing -> fifo_inside f = true ->
  exists q, fifo_queue f = t :: q /\ tickets (spin_serve t s) {| fifo_queue := q; fifo_inside := false |}.
Proof.
  intros Hk Hpc Hin. destruct (tickets_place _ _ _ _ Hk Hpc eq_refl) as (i & Hi & Hst & _). cbn in Hst. rewrite Hin in Hst.
  assert (i = 0%nat) as -> by (destruct i; done). destruct (fifo_queue f) as [|u q] eqn:Eq; [done|]. injection Hi as ->. exists q. split; [done|].
  pose proof (lookup_lt_Some _ _ _ Hpc) as Hlt. destruct Hk. rewrite Eq in *. apply NoDup_cons in tk_nodup0 as [Hout Hnd].
  constructor; cbn [spin_serve spin_goto spin_set_current spin_current spin_ticket spin_pcs holding_executor fifo_queue fifo_inside]; try done.
  - unfold u32. apply Z.mod_pos_bound. lia.
  - unfold Zlen in *. now rewrite length_insert.
  - rewrite tk_ticket0. unfold u32, Zlen. rewrite Z.add_mod_idemp_l by done. f_equal. cbn [length]. lia.
  - intros i u Hi. destruct (tk_queue0 (S i) u Hi) as (qc & Hqc & Hsq). exists qc. split.
    + rewrite list_lookup_insert_ne; [done|]. intros ->. apply Hout, list_elem_of_lookup. eauto.
    + unfold spin_stage in *. replace (u32 (u32 (spin_current s + 1) + Z.of_nat i)) with (u32 (spin_current s + Z.of_nat (S i))).
      * destruct qc; try done; rewrite Hin in Hsq; cbn in *; now rewrite ?andb_true_r in *.
      * unfold u32. rewrite Z.add_mod_idemp_l by done. f_equal. lia.
  - intros u qc Hu Hn. apply list_lookup_insert_Some in Hu as [(<- & <- & _)|(Hne & Hu)]; [done|]. apply (tk_outside0 u); [done|].
    rewrite not_elem_of_cons. split; [congruence|done].
  - intros u. rewrite insert_held by done. rewrite tk_holder0. split; [|tauto]. intros Hu. split; [|done]. intros ->. congruence.
Qed.

(** Whoever is inside, and the one whose ticket is served, is the first. *)
Lemma tickets_inside s f t pc : tickets s f -> spin_pcs s !! t = Some pc -> match pc with SpinEntered | SpinHeld | SpinReleasing => True | _ => False end ->
  fifo_queue f !! 0%nat = Some t /\ fifo_inside f = true.
Proof.
  intros Hk Hpc Hin. destruct (tickets_place _ _ _ _ Hk Hpc) as (i & Hi & Hst & _); [now destruct pc|].
  assert (fifo_inside f && (i =? 0)%nat = true) as E by now destruct pc. apply andb_prop in E as [E1 E2]. apply Nat.eqb_eq in E2 as ->. done.
Qed.

Lemma tickets_served s f t : tickets s f -> spin_pcs s !! t = Some (SpinWaiting (spin_current s)) -> fifo_queue f !! 0%nat = Some t /\ fifo_inside f = false.
Proof.
  intros Hk Hpc. destruct (tickets_place _ _ _ _ Hk Hpc eq_refl) as (i & Hi & Hst & Hlt). cbn in Hst. apply andb_prop in Hst as [Hst Hb].
  assert (Z.of_nat i = 0) as E by (apply (u32_same (spin_current s)); [apply (tk_range _ _ Hk)|lia|lia]).
  assert (i = 0%nat) as -> by lia. split; [done|]. now destruct (fifo_inside f).
Qed.

Lemma tickets_keep s f t i b' pc pc' : tickets s f -> spin_pcs s !! t = Some pc -> pc <> SpinHeld -> pc' <> SpinHeld -> fifo_queue f !! i = Some t ->
  (i = 0%nat \/ b' = fifo_inside f) -> spin_stage (spin_current s) b' i pc' = true ->
  tickets (spin_goto t pc' s) {| fifo_queue := fifo_queue f; fifo_inside := b' |}.
Proof.
  intros Hk Hpc Hn Hn' Hi Hb Hst. apply (tickets_stay s f (holding_executor s) t i b' pc' Hk Hi Hb Hst). intros u.
  rewrite insert_held; [|now apply lookup_lt_Some in Hpc|done]. rewrite (tk_holder _ _ Hk). split; [|tauto]. intros Hu. split; [congruence|done].
Qed.

Lemma fifo_eta f : {| fifo_queue := fifo_queue f; fifo_inside := fifo_inside f |} = f.
Proof. now destruct f. Qed.

Lemma spin_wait_simulates s f t tk : tickets s f -> spin_pcs s !! t = Some (SpinWaiting tk) ->
  exists f', run_steps fifo_next (spin_events (t, SpinGo) s) f = Some f' /\ tickets (spin_wait t tk s) f'.
Proof.
  intros Hk Hpc. unfold spin_events, spin_wait. cbn [fst snd]. rewrite Hpc. destruct (Z.eqb_spec (spin_current s) tk) as [<-|_]; [|now exists f].
  destruct (tickets_served _ _ _ Hk Hpc) as [Hq Hb]. exists {| fifo_queue := fifo_queue f; fifo_inside := true |}. split.
  - cbn [run_steps fifo_next]. rewrite Hb. destruct (fifo_queue f) as [|u q]; [done|]. injection Hq as ->. now rewrite decide_True.
  - eapply tickets_keep; try done. now left.
Qed.

Lemma spin_exchange_simulates s f t c k : tickets s f -> spin_pcs s !! t = Some (SpinTrying c k) -> c = k ->
  exists f', run_steps fifo_next (spin_events (t, SpinGo) s) f = Some f' /\ tickets (spin_try_exchange t c k s) f'.
Proof.
  intros Hk Hpc ->. unfold spin_events, spin_try_exchange. cbn [fst snd]. rewrite Hpc.
  destruct (Z.eqb_spec (spin_current s) k) as [Ec|_]; [destruct (Z.eqb_spec (spin_ticket s) k) as [Et|_]|]; cbn [andb].
  2,3: exists f; split; [done|]; eapply tickets_stay_outside; eauto.
  assert (fifo_queue f = []) as Eq.
  { pose proof (tickets_len _ _ Hk). pose proof (tk_few _ _ Hk). pose proof (tk_range _ _ Hk) as Hr. pose proof (tk_ticket _ _ Hk) as Htk.
    assert (Zlen (fifo_queue f) = 0) as E by (apply (u32_same (spin_current s)); [done|unfold Zlen in *; lia|congruence]).
    unfold Zlen in E. apply nil_length_inv. lia. }
  assert (fifo_inside f = false) as Hb by (destruct (fifo_inside f) eqn:E; [now destruct (tk_inside _ _ Hk)|done]).
  exists {| fifo_queue := [t]; fifo_inside := true |}. split; [cbn [run_steps fifo_next]; now rewrite Eq, Hb|].
  replace [t] with (fifo_queue f ++ [t]) by now rewrite Eq. rewrite <- Et. eapply tickets_append; try done; [now right|now rewrite Eq].
Qed.

(** The exchange is tried with a container whose counters are equal. *)
Definition spin_tries (s : TicketSpinLock) : Prop := forall t c k, spin_pcs s !! t = Some (SpinTrying c k) -> c = k.

Lemma spin_tries_goto s s1 t pc : spin_tries s -> spin_pcs s1 = spin_pcs s -> match pc with SpinTrying c k => c = k | _ => True end -> spin_tries (spin_goto t pc s1).
Proof.
  intros Hs E Hp u c k Hu. cbn in Hu. rewrite E in Hu. apply list_lookup_insert_Some in Hu as [(<- & -> & _)|(_ & Hu)]; [done|]. now apply (Hs u).
Qed.

Lemma spin_next_tries l s s' : spin_tries s -> spin_next l s = Some s' -> spin_tries s'.
Proof.
  destruct l as [t a]. unfold spin_next. cbn [fst snd]. intros Hs H.
  destruct a; destruct (spin_pcs s !! t) as [pc|] eqn:E; try done; destruct pc; try done; injection H as <-;
    unfold spin_lock, spin_wait, spin_try, spin_hold, spin_unlock, spin_serve, spin_try_exchange; repeat case_match; try done;
    apply (spin_tries_goto s); try done. apply Z.eqb_eq. done.
Qed.

Lemma spin_events_at t a s pc : spin_pcs s !! t = Some pc -> spin_events (t, a) s =
  match a, pc with
  | SpinLock, SpinIdle => [Joined t]
  | SpinGo, SpinWaiting tk => if spin_current s =? tk then [Acquired t] else []
  | SpinGo, SpinTrying c k => if (spin_current s =? c) && (spin_ticket s =? k) then [Tried t] else []
  | SpinGo, SpinReleasing => [Released t]
  | _, _ => []
  end.
Proof. intros E. unfold spin_events. cbn [fst snd]. rewrite E. now destruct a. Qed.

Lemma spin_simulates l s s' f : spin_tries s -> tickets s f -> spin_next l s = Some s' ->
  exists f', run_steps fifo_next (spin_events l s) f = Some f' /\ tickets s' f'.
Proof.
  destruct l as [t a]. intros Hs Hk H. unfold spin_next in H. cbn [fst snd] in H.
  destruct a; destruct (spin_pcs s !! t) as [pc|] eqn:E; try done; destruct pc; try done; injection H as <-.
  - rewrite (spin_events_at _ _ _ _ E). eexists. split; [done|]. eapply tickets_append; try done; [now left|].
    cbn. rewrite (tk_ticket _ _ Hk). fold (Zlen (fifo_queue f)). rewrite Z.eqb_refl. cbn. destruct (fifo_inside f) eqn:Hb; [|done].
    destruct (fifo_queue f) eqn:Eq; [now destruct (tk_inside _ _ Hk)|done].
  - rewrite (spin_events_at _ _ _ _ E). exists f. split; [done|]. unfold spin_try. case_match; [|done]. eapply tickets_stay_outside; eauto.
  - rewrite (spin_events_at _ _ _ _ E). exists f. split; [done|]. destruct (tickets_inside _ _ _ _ Hk E I) as [Hi Hb]. rewrite <- (fifo_eta f).
    eapply tickets_stay; try done; [now right|now rewrite Hb|]. intros u. rewrite insert_held; [|now apply lookup_lt_Some in E|done].
    split; [done|]. intros [Hn Hu]. destruct (tickets_inside _ _ _ _ Hk Hu I) as [Hi' _]. congruence.
  - rewrite (spin_events_at _ _ _ _ E). exists f. split; [done|]. destruct (tickets_place _ _ _ _ Hk E eq_refl) as (i & Hi & Hst & _).
    rewrite <- (fifo_eta f). eapply tickets_keep; try done. now right.
  - now apply spin_wait_simulates.
  - rewrite (spin_events_at _ _ _ _ E). exists f. split; [done|]. destruct (tickets_inside _ _ _ _ Hk E I) as [Hi Hb]. rewrite <- (fifo_eta f).
    eapply tickets_stay; try done; [now right|now rewrite Hb|]. intros u. rewrite list_lookup_insert_Some. split.
    + intros [= <-]. left. repeat split. now apply lookup_lt_Some in E.
    + intros [(-> & _)|(Hn & Hu)]; [done|]. destruct (tickets_inside _ _ _ _ Hk Hu I) as [Hi' _]. congruence.
  - destruct (tickets_inside _ _ _ _ Hk E I) as [_ Hb]. destruct (tickets_pop _ _ _ Hk E Hb) as (q & Eq & Hk'). rewrite (spin_events_at _ _ _ _ E).
    eexists. split; [|exact Hk']. cbn [run_steps fifo_next]. rewrite Eq, Hb. now rewrite decide_True.
  - apply spin_exchange_simulates; [done..|]. now apply (Hs t).
Qed.

Lemma run_steps_app {S L : Type} (next : L -> S -> option S) xs ys s : run_steps next (xs ++ ys) s = (run_steps next xs s ≫= run_steps next ys).
Proof. revert s. induction xs as [|x xs IH]; intros s; [done|]. cbn. destruct (next x s); [apply IH|done]. Qed.

Lemma spin_run_simulates ls : forall s s' f, spin_tries s -> tickets s f -> run_steps spin_next ls s = Some s' ->
  exists f', run_steps fifo_next (spin_trace ls s) f = Some f' /\ tickets s' f'.
Proof.
  induction ls as [|l ls IH]; intros s s' f Hs Hk H; cbn in H; [injection H as <-; now exists f|].
  destruct (spin_next l s) as [s1|] eqn:E; [|done]. destruct (spin_simulates _ _ _ _ Hs Hk E) as (f1 & Hf1 & Hk1).
  destruct (IH s1 s' f1) as (f' & Hf' & Hk'); [now apply (spin_next_tries l s)|done|done|].
  exists f'. split; [|done]. cbn [spin_trace]. rewrite E, run_steps_app, Hf1. exact Hf'.
Qed.

Lemma tickets_init c n : 0 <= c < 2 ^ 32 -> Z.of_nat n < 2 ^ 32 -> tickets (spin_init c n) fifo_init /\ spin_tries (spin_init c n).
Proof.
  intros Hc Hn. split.
  - constructor; cbn [spin_init spin_current spin_ticket spin_pcs holding_executor fifo_init fifo_queue fifo_inside]; try done.
    + unfold Zlen. now rewrite length_replicate.
    + unfold Zlen, u32. cbn [length]. rewrite Z.add_0_r, Z.mod_small by lia. done.
    + apply NoDup_nil_2.
    + intros t pc Hpc _. now apply lookup_replicate in Hpc as [-> _].
    + intros t. split; [done|]. intros Hpc. now apply lookup_replicate in Hpc as [? _].
  - intros t x k Ht. now apply lookup_replicate in Ht as [? _].
Qed.

Definition spin_in_section (pc : SpinPc) : bool := match pc with SpinEntered | SpinHeld | SpinReleasing => true | _ => false end.

(** The first of the queue enters by its own steps when nobody is inside. *)
Lemma tickets_progress s f t q : tickets s f -> fifo_queue f = t :: q -> fifo_inside f = false ->
  exists k s', (k <= 2)%nat /\ run_steps spin_next (replicate k (t, SpinGo)) s = Some s' /\ spin_pcs s' !! t = Some SpinEntered.
Proof.
  intros Hk Eq Hb. destruct (tk_queue _ _ Hk 0%nat t) as (pc & Hpc & Hst); [now rewrite Eq|]. pose proof (tk_range _ _ Hk) as Hr.
  pose proof (lookup_lt_Some _ _ _ Hpc) as Hlt. cbn [spin_stage] in Hst. rewrite Hb in Hst.
  assert (spin_current s = u32 (spin_current s + Z.of_nat 0)) as Ec by (unfold u32; rewrite Z.add_0_r, Z.mod_small; lia).
  destruct pc as [|tk|tk| | | |]; try done; cbn in Hst; rewrite andb_true_r in Hst; apply Z.eqb_eq in Hst.
  - exists 2%nat, (spin_goto t SpinEntered (spin_goto t (SpinWaiting tk) s)). cbn [replicate run_steps]. unfold spin_next. cbn [fst snd]. rewrite Hpc.
    cbn [mbind option_bind spin_goto spin_pcs]. rewrite list_lookup_insert_eq by done. cbn [mbind option_bind]. unfold spin_wait. cbn [spin_goto spin_current].
    rewrite (proj2 (Z.eqb_eq _ _)) by (cbn in Ec; congruence). split; [lia|]. split; [done|]. cbn. rewrite list_lookup_insert_eq; [done|]. now rewrite length_insert.
  - exists 1%nat, (spin_goto t SpinEntered s). cbn [replicate run_steps]. unfold spin_next. cbn [fst snd]. rewrite Hpc. cbn [mbind option_bind]. unfold spin_wait.
    rewrite (proj2 (Z.eqb_eq _ _)) by (cbn in Ec; congruence). split; [lia|]. split; [done|]. cbn. now rewrite list_lookup_insert_eq.
Qed.

(** C16. Whatever the interleaving of fewer than 2^32 contexts, and wherever the
    counters start, the lock behaves as a queue: what the run does (tickets drawn,
    entries, releases) is a run of the queue, in which a context enters only when it
    is the first and nobody is inside.  So no two contexts are inside at once,
    [isLockedByCurrent] is true of exactly the holder, and the first of the queue gets
    in within two steps of its own once the lock is free. *)
Theorem ticket_lock_refines_queue c n ls s : 0 <= c < 2 ^ 32 -> Z.of_nat n < 2 ^ 32 -> run_steps spin_next ls (spin_init c n) = Some s ->
  exists f, run_steps fifo_next (spin_trace ls (spin_init c n)) fifo_init = Some f /\
    (forall t u pc qc, spin_pcs s !! t = Some pc -> spin_pcs s !! u = Some qc -> spin_in_section pc = true -> spin_in_section qc = true -> t = u) /\
    (forall t, isLockedByCurrent t s = true <-> spin_pcs s !! t = Some SpinHeld) /\
    (forall t q, fifo_queue f = t :: q -> fifo_inside f = false ->
       exists k s', (k <= 2)%nat /\ run_steps spin_next (replicate k (t, SpinGo)) s = Some s' /\ spin_pcs s' !! t = Some SpinEntered) /\
    (forall t pc, spin_pcs s !! t = Some pc -> t ∈ fifo_queue f <-> spin_outside pc = false).
Proof.
  intros Hc Hn H. destruct (tickets_init c n Hc Hn) as [Hk Hs]. destruct (spin_run_simulates _ _ _ _ Hs Hk H) as (f & Hf & Hk').
  exists f. split; [done|]. split_and!.
  - intros t u pc qc Ht Hu Hpc Hqc. destruct (tickets_inside _ _ _ _ Hk' Ht) as [H1 _]; [now destruct pc|].
    destruct (tickets_inside _ _ _ _ Hk' Hu) as [H2 _]; [now destruct qc|]. congruence.
  - intros t. unfold isLockedByCurrent. rewrite bool_decide_eq_true. apply (tk_holder _ _ Hk').
  - intros t q. now apply tickets_progress.
  - intros t pc Hpc. split.
    + intros Hin. destruct (spin_outside pc) eqn:E; [|done]. now destruct (tickets_outside_queue _ _ _ _ Hk' Hpc E).
    + intros Ho. destruct (tickets_place _ _ _ _ Hk' Hpc Ho) as (i & Hi & _). apply list_elem_of_lookup. eauto.
Qed.

Definition spin_demo : list (nat * SpinAct) :=
  [(0%nat, SpinLock); (1%nat, SpinLock); (0%nat, SpinGo); (1%nat, SpinGo); (1%nat, SpinGo); (0%nat, SpinGo); (0%nat, SpinGo); (0%nat, SpinUnlock); (0%nat, SpinGo)].

Lemma ticket_lock_refines_queue_witness : exists f, run_steps fifo_next [Joined 0; Joined 1; Acquired 0; Released 0] fifo_init = Some f.
Proof.
  destruct (ticket_lock_refines_queue (2 ^ 32 - 1) 2 spin_demo {| spin_current := 0; spin_ticket := 1; holding_executor := None; spin_pcs := [SpinIdle; SpinWaiting 0] |})
    as (f & Hf & _); [lia|lia|vm_compute; reflexivity|]. exists f. exact Hf.
Defined.

(** ** Interrupts

    Executor [e] runs the task [2 e] and, on top of it, the interrupt handler
    [2 e + 1]: the handler starts when the task's interrupts are enabled, and the task
    goes on when the handler is done.  [lock] disables interrupts after the ticket is
    drawn, [tryLock] after the load. *)

Definition interrupts_enabled (pc : SpinPc) : bool :=
  match pc with SpinIdle | SpinDrawn _ | SpinTrying _ _ => true | _ => false end.

Definition cpu_next (l : nat * SpinAct) (s : TicketSpinLock) : option TicketSpinLock :=
  let t := l.1 in
  if Nat.even t then
    match spin_pcs s !! S t with Some SpinIdle => spin_next l s | _ => None end
  else
    match spin_pcs s !! t, spin_pcs s !! Nat.pred t with
    | Some SpinIdle, Some pc => if interrupts_enabled pc then spin_next l s else None
    | Some _, Some _ => spin_next l s
    | _, _ => None
    end.

Definition interrupted_draw : TicketSpinLock :=
  {| spin_current := 0; spin_ticket := 2; holding_executor := None; spin_pcs := [SpinDrawn 0; SpinWaiting 1] |}.

Lemma interrupted_draw_stuck l s : cpu_next l interrupted_draw = Some s -> s = interrupted_draw.
Proof. unfold cpu_next. destruct l as [[|[|t]] a]; [done|destruct a; cbn; congruence|]. cbn. now destruct (Nat.even t). Qed.

(** C38. A lock that a task and an interrupt handler of its executor both take can hang
    the executor: when the interrupt comes after the task drew its ticket and before
    [lock] disabled interrupts, the handler waits for the task's ticket and the task
    for the handler to return; the lock is free, and no step changes the state again. *)
Theorem interrupted_lock_hangs :
  rtc (fun s s' => exists l, cpu_next l s = Some s') (spin_init 0 2) interrupted_draw /\
  isLockedByCurrent 0 interrupted_draw = false /\ isLockedByCurrent 1 interrupted_draw = false /\
  forall s, rtc (fun s s' => exists l, cpu_next l s = Some s') interrupted_draw s -> s = interrupted_draw.
Proof.
  split_and!; [|done|done|].
  - apply (run_steps_rtc cpu_next [(0%nat, SpinLock); (1%nat, SpinLock); (1%nat, SpinGo)]). vm_compute. reflexivity.
  - intros s Hs. apply (run_invariant (fun s s' => exists l, cpu_next l s = Some s') (fun s => s = interrupted_draw) interrupted_draw); [|done|done].
    intros s1 s2 -> [l Hl]. now apply (interrupted_draw_stuck l).
Qed.
