(* ===== verification/MutexLock.v ===== *)
(** * The mutex

    [src/src/innigkeit/sync/Mutex.zig] with the wait queue of [WaitQueue.zig].  A step
    is one atomic access of one task.  The spin lock that guards the wait queue is the
    task that holds it, which is what the queue of SpinLock.v provides; a task that waits in
    the queue is blocked, and the spin lock is released when it has been switched
    away from. *)

From stdpp Require Import relations.
From S2P Require Import Prelude Tasks.

(** ** The code *)

Inductive UnlockType := passed_to_waiter | unlocked.

(** Where a task is: what it does next.  [MxPassed b] has seen itself as the holder,
    with the spin lock held or not, and reads [unlock_type]; [MxPass w] has taken [w]
    from the wait queue and exchanges the holder; [MxWake w] wakes it. *)
Inductive MutexPc :=
| MxIdle | MxLocking | MxPassed (spin : bool) | MxSpin | MxRecheck | MxGot | MxWait | MxSwitching | MxBlocked
| MxOwner | MxUnlock | MxPop | MxClear | MxPass (w : nat) | MxWake (w : nat) | MxLeave | MxPanicked.

Record Mutex := { locked_by : option nat; unlock_type : UnlockType; mx_spinlock : option nat; wait_queue : list nat; mx_pcs : list MutexPc }.

Definition mx_goto (t : nat) (pc : MutexPc) (s : Mutex) : Mutex :=
  {| locked_by := locked_by s; unlock_type := unlock_type s; mx_spinlock := mx_spinlock s; wait_queue := wait_queue s; mx_pcs := <[t := pc]> (mx_pcs s) |}.
Definition set_locked_by (o : option nat) (s : Mutex) : Mutex :=
  {| locked_by := o; unlock_type := unlock_type s; mx_spinlock := mx_spinlock s; wait_queue := wait_queue s; mx_pcs := mx_pcs s |}.
Definition set_unlock_type (u : UnlockType) (s : Mutex) : Mutex :=
  {| locked_by := locked_by s; unlock_type := u; mx_spinlock := mx_spinlock s; wait_queue := wait_queue s; mx_pcs := mx_pcs s |}.
Definition set_spinlock (o : option nat) (s : Mutex) : Mutex :=
  {| locked_by := locked_by s; unlock_type := unlock_type s; mx_spinlock := o; wait_queue := wait_queue s; mx_pcs := mx_pcs s |}.
Definition set_wait_queue (q : list nat) (s : Mutex) : Mutex :=
  {| locked_by := locked_by s; unlock_type := unlock_type s; mx_spinlock := mx_spinlock s; wait_queue := q; mx_pcs := mx_pcs s |}.

(** [lock]: the first exchange, which may fail for no reason, and what it saw. *)
Definition lock_exchange (weak : bool) (t : nat) (s : Mutex) : Mutex :=
  match locked_by s with
  | None => if weak then mx_goto t MxSpin s else mx_goto t MxOwner (set_locked_by (Some t) s)
  | Some u => mx_goto t (if decide (u = t) then MxPassed false else MxSpin) s
  end.

(** The exchange under the spin lock. *)
Definition lock_recheck (t : nat) (s : Mutex) : Mutex :=
  match locked_by s with
  | None => mx_goto t MxGot (set_locked_by (Some t) s)
  | Some u => mx_goto t (if decide (u = t) then MxPassed true else MxWait) s
  end.

Definition lock_passed (t : nat) (spin : bool) (s : Mutex) : Mutex :=
  match unlock_type s with
  | passed_to_waiter => mx_goto t (if spin then MxGot else MxOwner) s
  | unlocked => mx_goto t MxPanicked s
  end.

(** [WaitQueue.wait]: the task is appended; the scheduler's action marks it blocked
    and releases the spin lock. *)
Definition wait_append (t : nat) (s : Mutex) : Mutex := mx_goto t MxSwitching (set_wait_queue (wait_queue s ++ [t]) s).
Definition wait_blocked (t : nat) (s : Mutex) : Mutex := mx_goto t MxBlocked (set_spinlock None s).

(** [spinlock.lock] and [spinlock.unlock]. *)
Definition take_spinlock (t : nat) (pc : MutexPc) (s : Mutex) : option Mutex :=
  match mx_spinlock s with None => Some (mx_goto t pc (set_spinlock (Some t) s)) | Some _ => None end.
Definition drop_spinlock (t : nat) (pc : MutexPc) (s : Mutex) : Mutex := mx_goto t pc (set_spinlock None s).

(** [unlock]: the queue is popped and [unlock_type] written; the holder is exchanged;
    the waiter is woken. *)
Definition unlock_pop (t : nat) (s : Mutex) : Mutex :=
  match wait_queue s with
  | [] => mx_goto t MxClear (set_unlock_type unlocked s)
  | w :: q => mx_goto t (MxPass w) (set_unlock_type passed_to_waiter (set_wait_queue q s))
  end.

Definition unlock_exchange (t : nat) (new : option nat) (pc : MutexPc) (s : Mutex) : Mutex :=
  if decide (locked_by s = Some t) then mx_goto t pc (set_locked_by new s) else mx_goto t MxPanicked s.

(** [wakeFromBlocked] asserts that the task is blocked. *)
Definition wake_waiter (t w : nat) (s : Mutex) : Mutex :=
  match mx_pcs s !! w with Some MxBlocked => mx_goto t MxLeave (mx_goto w MxLocking s) | _ => mx_goto t MxPanicked s end.

Definition mutex_tryLock (t : nat) (s : Mutex) : Mutex :=
  match locked_by s with
  | None => mx_goto t MxOwner (set_locked_by (Some t) s)
  | Some u => if decide (u = t) then mx_goto t MxPanicked s else s
  end.

Inductive MutexAct := MxLock | MxTryLock | MxUnlocking | MxGo | MxSpurious.

Definition mutex_next (l : nat * MutexAct) (s : Mutex) : option Mutex :=
  let t := l.1 in
  match l.2, mx_pcs s !! t with
  | MxLock, Some MxIdle => Some (mx_goto t MxLocking s)
  | MxTryLock, Some MxIdle => Some (mutex_tryLock t s)
  | MxUnlocking, Some MxOwner => Some (mx_goto t MxUnlock s)
  | MxSpurious, Some MxLocking => Some (lock_exchange true t s)
  | MxGo, Some MxLocking => Some (lock_exchange false t s)
  | MxGo, Some (MxPassed b) => Some (lock_passed t b s)
  | MxGo, Some MxSpin => take_spinlock t MxRecheck s
  | MxGo, Some MxRecheck => Some (lock_recheck t s)
  | MxGo, Some MxGot => Some (drop_spinlock t MxOwner s)
  | MxGo, Some MxWait => Some (wait_append t s)
  | MxGo, Some MxSwitching => Some (wait_blocked t s)
  | MxGo, Some MxUnlock => take_spinlock t MxPop s
  | MxGo, Some MxPop => Some (unlock_pop t s)
  | MxGo, Some MxClear => Some (unlock_exchange t None MxLeave s)
  | MxGo, Some (MxPass w) => Some (unlock_exchange t (Some w) (MxWake w) s)
  | MxGo, Some (MxWake w) => Some (wake_waiter t w s)
  | MxGo, Some MxLeave => Some (drop_spinlock t MxIdle s)
  | _, _ => None
  end.

Definition mutex_init (n : nat) : Mutex :=
  {| locked_by := None; unlock_type := unlocked; mx_spinlock := None; wait_queue := []; mx_pcs := replicate n MxIdle |}.

Definition mutex_step (s s' : Mutex) : Prop := exists l, mutex_next l s = Some s'.

(** ** The invariant *)

(** The tasks that own the mutex, those that hold the spin lock, and those the mutex
    may have been passed to. *)
Definition mx_owns (pc : MutexPc) : bool :=
  match pc with MxGot | MxOwner | MxUnlock | MxPop | MxClear | MxPass _ => true | _ => false end.
Definition mx_spins (pc : MutexPc) : bool :=
  match pc with MxRecheck | MxGot | MxWait | MxSwitching | MxPop | MxClear | MxPass _ | MxWake _ | MxLeave => true | _ => false end.
Definition mx_heir (pc : MutexPc) : bool := match pc with MxBlocked | MxLocking | MxPassed false => true | _ => false end.

(** The task that is about to be woken by the holder of the spin lock. *)
Definition mx_target (pc : MutexPc) : option nat := match pc with MxPass w | MxWake w => Some w | _ => None end.
Definition mx_woken (s : Mutex) : option nat := u ← mx_spinlock s; pc ← mx_pcs s !! u; mx_target pc.

Record task_ok (s : Mutex) (t : nat) (pc : MutexPc) : Prop := {
  ok_holder : locked_by s = Some t -> mx_owns pc = true \/ mx_heir pc = true /\ unlock_type s = passed_to_waiter;
  ok_owns : mx_owns pc = true -> locked_by s = Some t;
  ok_spins : mx_spins pc = true <-> mx_spinlock s = Some t;
  ok_queued : t ∈ wait_queue s -> (pc = MxSwitching \/ pc = MxBlocked) /\ locked_by s <> Some t;
  ok_here : match pc with
            | MxPassed b => b = false /\ locked_by s = Some t
            | MxWait => locked_by s <> None
            | MxSwitching => t ∈ wait_queue s
            | MxBlocked => t ∈ wait_queue s \/ mx_woken s = Some t
            | MxClear => wait_queue s = []
            | MxPass w => mx_pcs s !! w = Some MxBlocked /\ (w ∉ wait_queue s) /\ unlock_type s = passed_to_waiter
            | MxWake w => mx_pcs s !! w = Some MxBlocked /\ locked_by s = Some w
            | MxPanicked => False
            | _ => True
            end
}.

Record mutex_inv (s : Mutex) : Prop := {
  mi_tasks : forall t pc, mx_pcs s !! t = Some pc -> task_ok s t pc;
  mi_queue : NoDup (wait_queue s);
  mi_waited : wait_queue s <> [] -> locked_by s <> None;
  mi_queue_task : forall t, t ∈ wait_queue s -> (t < length (mx_pcs s))%nat;
  mi_holder_task : forall t, locked_by s = Some t -> (t < length (mx_pcs s))%nat;
  mi_spin_task : forall t, mx_spinlock s = Some t -> (t < length (mx_pcs s))%nat
}.

(** A step of task [t] to [pc'] keeps the invariant when it is kept for [t] and what
    the others rely on is kept. *)
Record frame (s s' : Mutex) (t : nat) : Prop := {
  fr_pcs : exists pc', mx_pcs s' = <[t := pc']> (mx_pcs s) /\ task_ok s' t pc';
  fr_runs : mx_pcs s !! t <> Some MxBlocked;
  fr_holder : forall u, u <> t -> locked_by s' = Some u -> locked_by s = Some u /\ unlock_type s' = unlock_type s;
  fr_holder' : forall u, u <> t -> locked_by s = Some u -> locked_by s' = Some u;
  fr_none : locked_by s' = None -> locked_by s = None \/ mx_spinlock s = Some t;
  fr_spin : forall u, u <> t -> mx_spinlock s' = Some u <-> mx_spinlock s = Some u;
  fr_queue : forall u, u <> t -> u ∈ wait_queue s' <-> u ∈ wait_queue s;
  fr_empty : wait_queue s = [] -> wait_queue s' = [] \/ mx_spinlock s = Some t;
  fr_type : unlock_type s' = unlock_type s \/ mx_spinlock s = Some t;
  fr_woken : forall u, u <> t -> mx_woken s = Some u -> mx_woken s' = Some u;
  fr_nodup : NoDup (wait_queue s');
  fr_waited : wait_queue s' <> [] -> locked_by s' <> None
}.

Lemma frame_other s s' t u pc : mutex_inv s -> frame s s' t -> u <> t -> mx_pcs s !! u = Some pc -> task_ok s' u pc.
Proof.
  intros Hi [(pc' & Hpcs & _) Hruns Hh Hh' Hn Hs Hq He Hty Hw _ _] Hu Hpc. destruct (mi_tasks _ Hi _ _ Hpc) as [K1 K2 K3 K4 K5].
  assert (mx_spins pc = true -> mx_spinlock s <> Some t) as Hx by (intros E; rewrite (proj1 K3 E); congruence).
  assert (forall w, mx_pcs s !! w = Some MxBlocked -> w <> t /\ mx_pcs s' !! w = Some MxBlocked) as Hb.
  { intros w Ew. assert (w <> t) by congruence. split; [done|]. now rewrite Hpcs, list_lookup_insert_ne. }
  constructor.
  - intros E. destruct (Hh u Hu E) as [E1 E2]. rewrite E2. now apply K1.
  - intros E. apply Hh'; auto.
  - rewrite Hs by done. done.
  - rewrite Hq by done. intros E. destruct (K4 E) as [E1 E2]. split; [done|]. intros E3. now apply Hh in E3 as [? _].
  - destruct pc; try done; cbn in Hx.
    + destruct K5 as [-> K5]. split; [done|]. auto.
    + intros E. destruct (Hn E); [done|]. now apply Hx.
    + now apply Hq.
    + destruct K5 as [K5|K5]; [left; now apply Hq|right; auto].
    + destruct (He K5); [done|]. now destruct Hx.
    + destruct K5 as (E1 & E2 & E3). destruct (Hb w E1) as [E4 E5]. rewrite Hq by done. destruct Hty as [->|]; [done|]. now destruct Hx.
    + destruct K5 as (E1 & E2). destruct (Hb w E1) as [E4 E5]. auto.
Qed.

Lemma frame_inv s s' t : mutex_inv s -> frame s s' t -> mx_pcs s !! t <> None -> mutex_inv s'.
Proof.
  intros Hi Hf Ht. assert (t < length (mx_pcs s))%nat as Hlt by (destruct (mx_pcs s !! t) eqn:E; [now apply lookup_lt_Some in E|done]).
  pose proof (frame_other s s' t) as Ho. destruct (fr_pcs _ _ _ Hf) as (pc' & Hpcs & Hok).
  assert (length (mx_pcs s') = length (mx_pcs s)) as El by (rewrite Hpcs; apply length_insert).
  constructor.
  - intros u pc Hu. destruct (decide (u = t)) as [->|Hn].
    + rewrite Hpcs, list_lookup_insert_eq in Hu by done. now injection Hu as <-.
    + rewrite Hpcs, list_lookup_insert_ne in Hu by done. now apply Ho.
  - apply (fr_nodup _ _ _ Hf).
  - apply (fr_waited _ _ _ Hf).
  - intros u Hu. rewrite El. destruct (decide (u = t)) as [->|Hn]; [done|]. apply (mi_queue_task _ Hi). now apply (fr_queue _ _ _ Hf).
  - intros u Hu. rewrite El. destruct (decide (u = t)) as [->|Hn]; [done|]. apply (mi_holder_task _ Hi). now apply (fr_holder _ _ _ Hf).
  - intros u Hu. rewrite El. destruct (decide (u = t)) as [->|Hn]; [done|]. apply (mi_spin_task _ Hi). now apply (fr_spin _ _ _ Hf).
Qed.

(** Without a spin lock there is nobody to be woken; the holder's target is woken. *)
Lemma woken_none s : mx_spinlock s = None -> mx_woken s = None.
Proof. unfold mx_woken. now intros ->. Qed.

Lemma woken_at s t pc : mx_spinlock s = Some t -> mx_pcs s !! t = Some pc -> mx_woken s = mx_target pc.
Proof. unfold mx_woken. intros -> H. cbn. now rewrite H. Qed.

(** A step of a task that wakes nobody keeps who is woken. *)
Lemma woken_frame s s' t pc pc' u : mx_pcs s !! t = Some pc -> mx_target pc = None -> mx_pcs s' = <[t := pc']> (mx_pcs s) ->
  (mx_spinlock s' = mx_spinlock s \/ mx_spinlock s = None \/ mx_spinlock s = Some t) -> mx_woken s = Some u -> mx_woken s' = Some u.
Proof.
  intros Hpc Ht Hpcs Hs Hw. destruct (decide (mx_spinlock s = None)) as [E|E]; [now rewrite (woken_none _ E) in Hw|].
  destruct (decide (mx_spinlock s = Some t)) as [E'|E']; [rewrite (woken_at _ _ _ E' Hpc) in Hw; congruence|].
  destruct Hs as [Hs|Hs]; [|tauto]. unfold mx_woken in *. rewrite Hs. destruct (mx_spinlock s) as [v|]; [|done].
  cbn [mbind option_bind] in *. rewrite Hpcs, list_lookup_insert_ne; [done|congruence].
Qed.

(** What a step of a task that wakes nobody must keep. *)
Lemma step_inv s s' t pc pc' : mutex_inv s -> mx_pcs s !! t = Some pc -> mx_target pc = None -> pc <> MxBlocked ->
  mx_pcs s' = <[t := pc']> (mx_pcs s) -> task_ok s' t pc' ->
  (locked_by s' = locked_by s \/ locked_by s = None /\ locked_by s' = Some t \/ locked_by s = Some t /\ locked_by s' = None /\ mx_spinlock s = Some t /\ wait_queue s = []) ->
  (mx_spinlock s' = mx_spinlock s \/ mx_spinlock s = None /\ mx_spinlock s' = Some t \/ mx_spinlock s = Some t /\ mx_spinlock s' = None) ->
  (wait_queue s' = wait_queue s \/ wait_queue s' = wait_queue s ++ [t] /\ (t ∉ wait_queue s) /\ mx_spinlock s = Some t /\ locked_by s <> None /\ locked_by s' = locked_by s) ->
  (unlock_type s' = unlock_type s \/ mx_spinlock s = Some t /\ locked_by s = Some t /\ locked_by s' = locked_by s) -> mutex_inv s'.
Proof.
  intros Hi Hpc Htg Hnb Hpcs Hok Hl Hs Hq Hu. pose proof (mi_queue _ Hi). pose proof (mi_waited _ Hi).
  eapply (frame_inv s s' t Hi); [|congruence]. constructor; try done.
  - now exists pc'.
  - congruence.
  - intros u Hn E. destruct Hl as [El|[[E1 E2]|[E1 [E2 _]]]]; [|congruence..]. split; [congruence|]. destruct Hu as [|[_ [E3 _]]]; [done|congruence].
  - intros u Hn E. destruct Hl as [El|[[E1 E2]|[E1 [E2 _]]]]; congruence.
  - intros E. destruct Hl as [El|[[E1 E2]|[E1 [E2 [E3 _]]]]]; [left|..]; [congruence|congruence|now right].
  - intros u Hn. destruct Hs as [->|[[-> ->]|[-> ->]]]; [done|split; congruence..].
  - intros u Hn. destruct Hq as [->|[-> _]]; [done|]. rewrite elem_of_app, list_elem_of_singleton. split; [intros [|]; [done|congruence]|tauto].
  - intros E. destruct Hq as [->|[-> [_ [Eq _]]]]; [now left|now right].
  - tauto.
  - intros u Hn. eapply woken_frame; try done. tauto.
  - destruct Hq as [->|[-> [Hn _]]]; [done|]. apply NoDup_app. split_and!; [done| |apply NoDup_singleton]. intros u Hu' Hu2. apply list_elem_of_singleton in Hu2 as ->. done.
  - intros E. destruct Hl as [El|[[E1 E2]|[E1 [E2 [_ E3]]]]]; [|congruence|].
    + destruct Hq as [Eq|[Eq [_ [_ [E1 E2]]]]]; [|congruence]. rewrite Eq in E. rewrite El. auto.
    + destruct Hq as [Eq|[Eq [_ [_ [_ E4]]]]]; congruence.
Qed.

Ltac mx_fields :=
  cbn [mx_goto set_locked_by set_unlock_type set_spinlock set_wait_queue locked_by unlock_type mx_spinlock wait_queue mx_pcs
       mx_owns mx_spins mx_heir mx_target] in *.

(** The step of a task that wakes nobody: the task is well placed afterwards, and the
    shared state changes as [step_inv] allows. *)
Ltac mx_step Hi Hpc :=
  let K := fresh "K" in
  pose proof (mi_tasks _ Hi _ _ Hpc) as K; destruct K as [K1 K2 K3 K4 K5];
  eapply (step_inv _ _ _ _ _ Hi Hpc); mx_fields; [done|done|reflexivity|constructor; mx_fields|..];
  try done; try tauto; try congruence; try (intuition congruence).

Lemma exchange_inv weak t s : mutex_inv s -> mx_pcs s !! t = Some MxLocking -> mutex_inv (lock_exchange weak t s).
Proof.
  intros Hi Hpc. unfold lock_exchange. destruct (locked_by s) as [u|] eqn:E; [destruct (decide (u = t)) as [->|Hn]|destruct weak]; mx_step Hi Hpc.
Qed.

Lemma recheck_inv t s : mutex_inv s -> mx_pcs s !! t = Some MxRecheck -> mutex_inv (lock_recheck t s).
Proof.
  intros Hi Hpc. unfold lock_recheck. destruct (locked_by s) as [u|] eqn:E; [destruct (decide (u = t)) as [->|Hn]|]; mx_step Hi Hpc.
Qed.

Lemma passed_inv t b s : mutex_inv s -> mx_pcs s !! t = Some (MxPassed b) -> mutex_inv (lock_passed t b s).
Proof.
  intros Hi Hpc. unfold lock_passed. destruct (unlock_type s) eqn:E; [destruct b|]; mx_step Hi Hpc.
Qed.

Lemma take_inv t pc pc' s s' : mutex_inv s -> mx_pcs s !! t = Some pc -> (pc, pc') = (MxSpin, MxRecheck) \/ (pc, pc') = (MxUnlock, MxPop) ->
  take_spinlock t pc' s = Some s' -> mutex_inv s'.
Proof.
  intros Hi Hpc Hc H. unfold take_spinlock in H. destruct (mx_spinlock s) eqn:E; [done|]. injection H as <-.
  destruct Hc as [[= -> ->]|[= -> ->]]; mx_step Hi Hpc.
Qed.

Lemma drop_inv t pc pc' s : mutex_inv s -> mx_pcs s !! t = Some pc -> (pc, pc') = (MxGot, MxOwner) \/ (pc, pc') = (MxLeave, MxIdle) ->
  mutex_inv (drop_spinlock t pc' s).
Proof.
  intros Hi Hpc Hc. unfold drop_spinlock. destruct Hc as [[= -> ->]|[= -> ->]]; mx_step Hi Hpc.
Qed.

Lemma tryLock_inv t s : mutex_inv s -> mx_pcs s !! t = Some MxIdle -> mutex_inv (mutex_tryLock t s).
Proof.
  intros Hi Hpc. unfold mutex_tryLock. destruct (locked_by s) as [u|] eqn:E; [destruct (decide (u = t)) as [->|Hn]; [|done]|]; mx_step Hi Hpc.
Qed.

Lemma append_inv t s : mutex_inv s -> mx_pcs s !! t = Some MxWait -> mutex_inv (wait_append t s).
Proof. intros Hi Hpc. unfold wait_append. mx_step Hi Hpc. set_solver. Qed.

Lemma blocked_inv t s : mutex_inv s -> mx_pcs s !! t = Some MxSwitching -> mutex_inv (wait_blocked t s).
Proof. intros Hi Hpc. unfold wait_blocked. mx_step Hi Hpc. Qed.

Lemma clear_inv t s : mutex_inv s -> mx_pcs s !! t = Some MxClear -> mutex_inv (unlock_exchange t None MxLeave s).
Proof. intros Hi Hpc. unfold unlock_exchange. destruct (decide _) as [E|E]; mx_step Hi Hpc. Qed.

Lemma pop_empty_inv t s : mutex_inv s -> mx_pcs s !! t = Some MxPop -> wait_queue s = [] -> mutex_inv (mx_goto t MxClear (set_unlock_type unlocked s)).
Proof. intros Hi Hpc Hq. mx_step Hi Hpc. Qed.

Lemma lock_call_inv t s : mutex_inv s -> mx_pcs s !! t = Some MxIdle -> mutex_inv (mx_goto t MxLocking s).
Proof. intros Hi Hpc. mx_step Hi Hpc. Qed.

Lemma unlock_call_inv t s : mutex_inv s -> mx_pcs s !! t = Some MxOwner -> mutex_inv (mx_goto t MxUnlock s).
Proof. intros Hi Hpc. mx_step Hi Hpc. Qed.

(** While a task holds the spin lock the others do not. *)
Lemma others_spin s t u pc : mutex_inv s -> mx_spinlock s = Some t -> u <> t -> mx_pcs s !! u = Some pc -> mx_spins pc = false.
Proof.
  intros Hi Hs Hu Hpc. destruct (mx_spins pc) eqn:E; [|done]. apply (ok_spins _ _ _ (mi_tasks _ Hi _ _ Hpc)) in E. congruence.
Qed.

Lemma goto_lookup (pcs : list MutexPc) t pc u qc : <[t := pc]> pcs !! u = Some qc -> u = t /\ qc = pc \/ u <> t /\ pcs !! u = Some qc.
Proof. rewrite list_lookup_insert_Some. intros [(-> & -> & _)|(H & H')]; [now left|right; split; [congruence|done]]. Qed.

Lemma pop_inv t w q s : mutex_inv s -> mx_pcs s !! t = Some MxPop -> wait_queue s = w :: q ->
  mutex_inv (mx_goto t (MxPass w) (set_unlock_type passed_to_waiter (set_wait_queue q s))).
Proof.
  intros Hi Hpc Eq. destruct (mi_tasks _ Hi _ _ Hpc) as [_ K2 K3 K4 _]. pose proof (proj1 K3 eq_refl) as Es. specialize (K2 eq_refl).
  assert (w <> t) as Hwt by (intros ->; destruct K4 as [[|] _]; [rewrite Eq; left|done..]).
  pose proof (mi_queue _ Hi) as Hnd. rewrite Eq in Hnd. apply NoDup_cons in Hnd as [Hwq Hnd].
  assert (forall u, u ∈ q -> u ∈ wait_queue s) as Hsub by (intros u Hu; rewrite Eq; now right).
  assert (mx_pcs s !! w = Some MxBlocked) as Hw.
  { assert (w ∈ wait_queue s) as Hin by (rewrite Eq; left). destruct (lookup_lt_is_Some_2 _ _ (mi_queue_task _ Hi w Hin)) as [pc E].
    destruct (ok_queued _ _ _ (mi_tasks _ Hi _ _ E) Hin) as [[->| ->] _]; [|done]. pose proof (others_spin _ _ _ _ Hi Es Hwt E). done. }
  pose proof (lookup_lt_Some _ _ _ Hpc) as Hlt.
  constructor; mx_fields; try done; try (rewrite length_insert; first [apply Hi|intros u Hu; apply (mi_queue_task _ Hi); now apply Hsub]); [|congruence].
  intros u pc Hu. apply goto_lookup in Hu as [[-> ->]|[Hn Hu]].
  - constructor; mx_fields; try done; [tauto|intros Hin; destruct (K4 (Hsub _ Hin)) as [[|] _]; done|].
    rewrite list_lookup_insert_ne by done. done.
  - destruct (mi_tasks _ Hi _ _ Hu) as [J1 J2 J3 J4 J5]. pose proof (others_spin _ _ _ _ Hi Es Hn Hu) as Hsp. constructor; mx_fields; try done.
    + congruence.
    + intros Hin. apply J4. now apply Hsub.
    + destruct pc; try done. destruct J5 as [J5|J5]; [|rewrite (woken_at _ _ _ Es Hpc) in J5; done].
      rewrite Eq in J5. apply elem_of_cons in J5 as [->|J5]; [|now left]. right.
      rewrite (woken_at _ t (MxPass w)); [done|done|]. cbn. now rewrite list_lookup_insert_eq.
Qed.

Lemma pass_inv t w s : mutex_inv s -> mx_pcs s !! t = Some (MxPass w) -> mutex_inv (unlock_exchange t (Some w) (MxWake w) s).
Proof.
  intros Hi Hpc. destruct (mi_tasks _ Hi _ _ Hpc) as [_ K2 K3 K4 (K5 & K6 & K7)]. pose proof (proj1 K3 eq_refl) as Es. specialize (K2 eq_refl).
  unfold unlock_exchange. rewrite decide_True by done. assert (w <> t) as Hwt by congruence. pose proof (lookup_lt_Some _ _ _ Hpc) as Hlt.
  constructor; mx_fields; try done; try (rewrite length_insert; apply Hi); [|apply Hi|intros u [= <-]; rewrite length_insert; now apply lookup_lt_Some in K5].
  intros u pc Hu. apply goto_lookup in Hu as [[-> ->]|[Hn Hu]].
  - constructor; mx_fields; try done; [congruence|intros Hin; destruct (K4 Hin) as [[|] _]; done|].
    rewrite list_lookup_insert_ne by done. done.
  - destruct (mi_tasks _ Hi _ _ Hu) as [J1 J2 J3 J4 J5]. pose proof (others_spin _ _ _ _ Hi Es Hn Hu) as Hsp. constructor; mx_fields; try done.
    + intros [= <-]. rewrite K5 in Hu. injection Hu as <-. now right.
    + intros E. specialize (J2 E). congruence.
    + intros Hin. split; [now apply J4|congruence].
    + destruct pc; try done; [destruct J5; congruence|]. destruct J5 as [J5|J5]; [now left|right].
      rewrite (woken_at _ _ _ Es Hpc) in J5. rewrite (woken_at _ t (MxWake w)); [done|done|]. cbn. now rewrite list_lookup_insert_eq.
Qed.

Lemma wake_inv t w s : mutex_inv s -> mx_pcs s !! t = Some (MxWake w) -> mutex_inv (wake_waiter t w s).
Proof.
  intros Hi Hpc. destruct (mi_tasks _ Hi _ _ Hpc) as [_ _ K3 K4 (K5 & K6)]. pose proof (proj1 K3 eq_refl) as Es.
  unfold wake_waiter. rewrite K5. assert (w <> t) as Hwt by congruence. pose proof (lookup_lt_Some _ _ _ Hpc) as Hlt.
  constructor; mx_fields; try done; try (rewrite !length_insert; apply Hi); [|apply Hi..].
  intros u pc Hu. apply goto_lookup in Hu as [[-> ->]|[Hn Hu]]; [|apply goto_lookup in Hu as [[-> ->]|[Hn' Hu]]].
  - constructor; mx_fields; try done; [congruence|intros Hin; destruct (K4 Hin) as [[|] _]; done].
  - destruct (mi_tasks _ Hi _ _ K5) as [J1 J2 J3 J4 J5]. constructor; mx_fields; try done.
    intros Hin. now destruct (J4 Hin) as [_ ?].
  - destruct (mi_tasks _ Hi _ _ Hu) as [J1 J2 J3 J4 J5]. pose proof (others_spin _ _ _ _ Hi Es Hn Hu) as Hsp. constructor; mx_fields; try done.
    destruct pc; try done. destruct J5 as [J5|J5]; [now left|]. rewrite (woken_at _ _ _ Es Hpc) in J5. cbn in J5. congruence.
Qed.

Lemma mutex_next_inv l s s' : mutex_inv s -> mutex_next l s = Some s' -> mutex_inv s'.
Proof.
  destruct l as [t a]. unfold mutex_next. cbn [fst snd]. intros Hi H.
  destruct a; destruct (mx_pcs s !! t) as [pc|] eqn:E; try done; destruct pc; try done;
    try (injection H as <-); eauto using lock_call_inv, tryLock_inv, unlock_call_inv, exchange_inv, passed_inv, recheck_inv, append_inv, blocked_inv, clear_inv, pass_inv, wake_inv.
  - eapply take_inv; eauto.
  - eapply drop_inv; eauto.
  - eapply take_inv; eauto.
  - unfold unlock_pop. destruct (wait_queue s) as [|w q] eqn:Eq; [now apply pop_empty_inv|now apply pop_inv].
  - eapply drop_inv; eauto.
Qed.

Lemma mutex_init_inv n : mutex_inv (mutex_init n).
Proof.
  constructor; cbn [mutex_init locked_by unlock_type mx_spinlock wait_queue mx_pcs]; try done; [|apply NoDup_nil_2|intros t Ht; set_solver].
  intros t pc Hpc. apply lookup_replicate in Hpc as [-> _]. constructor; cbn; try done. intros Ht. set_solver.
Qed.

Lemma mutex_reachable_inv n s : rtc mutex_step (mutex_init n) s -> mutex_inv s.
Proof. apply (run_invariant mutex_step); [|apply mutex_init_inv]. intros s1 s2 Hi [l Hl]. now apply (mutex_next_inv l s1). Qed.

(** ** What it gives *)

(** A task that holds the spin lock can always go on. *)
Lemma spin_holder_goes s t : mutex_inv s -> mx_spinlock s = Some t -> exists s', mutex_next (t, MxGo) s = Some s'.
Proof.
  intros Hi Hs. destruct (lookup_lt_is_Some_2 _ _ (mi_spin_task _ Hi t Hs)) as [pc Hpc].
  pose proof (proj2 (ok_spins _ _ _ (mi_tasks _ Hi _ _ Hpc)) Hs) as Hsp. unfold mutex_next. cbn [fst snd]. rewrite Hpc. destruct pc; try done; eauto.
Qed.

(** With the spin lock free, whoever has the mutex is its user or can go on. *)
Lemma holder_goes s t : mutex_inv s -> mx_spinlock s = None -> locked_by s = Some t ->
  mx_pcs s !! t = Some MxOwner \/ exists s', mutex_next (t, MxGo) s = Some s'.
Proof.
  intros Hi Hs Hl. destruct (lookup_lt_is_Some_2 _ _ (mi_holder_task _ Hi t Hl)) as [pc Hpc]. destruct (mi_tasks _ Hi _ _ Hpc) as [J1 J2 J3 J4 J5].
  rewrite Hs in J3. assert (mx_spins pc = false) as Hsp by (destruct (mx_spins pc); [pose proof (proj1 J3 eq_refl); done|done]).
  unfold mutex_next. cbn [fst snd]. rewrite Hpc. unfold take_spinlock. rewrite Hs.
  destruct (J1 Hl) as [Ho|[Hh _]]; destruct pc; try done; eauto.
  destruct J5 as [J5|J5]; [now destruct (J4 J5)|]. now rewrite (woken_none _ Hs) in J5.
Qed.

(** C17. The mutex, with any number of tasks and any interleaving: at most one task
    owns it; no panic is reached (no task is taken for a recursive locker, none is not
    the holder it expects to be, and whoever is woken is blocked); a blocked task is in the wait
    queue of a mutex that someone holds, or the task that passed it the mutex is about to
    wake it, so no wakeup is lost; and as long as some task is in the middle of an
    operation, either a task owns the mutex as its user or some task can go on. *)
Theorem mutex_correct n s : rtc mutex_step (mutex_init n) s ->
  (forall t u, mx_pcs s !! t = Some MxOwner -> mx_pcs s !! u = Some MxOwner -> t = u) /\
  (forall t, mx_pcs s !! t <> Some MxPanicked) /\
  (forall t, mx_pcs s !! t = Some MxBlocked ->
     t ∈ wait_queue s /\ locked_by s <> None \/
     exists u, mx_pcs s !! u = Some (MxPass t) \/ mx_pcs s !! u = Some (MxWake t)) /\
  (forall t pc, mx_pcs s !! t = Some pc -> pc <> MxIdle ->
     (exists u, mx_pcs s !! u = Some MxOwner) \/ exists u s', mutex_next (u, MxGo) s = Some s').
Proof.
  intros Hr. pose proof (mutex_reachable_inv n s Hr) as Hi. split_and!.
  - intros t u Ht Hu. pose proof (ok_owns _ _ _ (mi_tasks _ Hi _ _ Ht) eq_refl). pose proof (ok_owns _ _ _ (mi_tasks _ Hi _ _ Hu) eq_refl). congruence.
  - intros t Ht. now destruct (ok_here _ _ _ (mi_tasks _ Hi _ _ Ht)).
  - intros t Ht. destruct (ok_here _ _ _ (mi_tasks _ Hi _ _ Ht)) as [H|H].
    + left. split; [done|]. apply (mi_waited _ Hi). intros E. rewrite E in H. set_solver.
    + right. unfold mx_woken in H. destruct (mx_spinlock s) as [u|]; [|done]. cbn in H. destruct (mx_pcs s !! u) as [pc|] eqn:E; [|done]. cbn in H.
      exists u. destruct pc; try done; injection H as ->; eauto.
  - intros t pc Ht Hn. destruct (mx_spinlock s) as [u|] eqn:Es; [right; destruct (spin_holder_goes _ _ Hi Es) as [s' Hs']; eauto|].
    destruct (locked_by s) as [v|] eqn:El; [destruct (holder_goes _ _ Hi Es El) as [|[s' Hs']]; eauto|].
    pose proof (mi_tasks _ Hi _ _ Ht) as J. right. exists t. unfold mutex_next. cbn [fst snd]. rewrite Ht. unfold take_spinlock. rewrite Es.
    destruct pc; try done; eauto.
    + destruct (ok_here _ _ _ J) as [H|H]; [|now rewrite (woken_none _ Es) in H]. destruct (mi_waited _ Hi); [|done]. intros E. rewrite E in H. set_solver.
    + pose proof (ok_owns _ _ _ J eq_refl). congruence.
    + now destruct (ok_here _ _ _ J).
Qed.

Definition mutex_demo : list (nat * MutexAct) :=
  [(0%nat, MxLock); (0%nat, MxGo); (1%nat, MxLock); (1%nat, MxGo); (1%nat, MxGo); (1%nat, MxGo); (1%nat, MxGo); (1%nat, MxGo);
   (0%nat, MxUnlocking); (0%nat, MxGo); (0%nat, MxGo); (0%nat, MxGo)].

(** One task holds the mutex, another waits and is passed it. *)
Lemma mutex_demo_run : rtc mutex_step (mutex_init 2)
  {| locked_by := Some 1%nat; unlock_type := passed_to_waiter; mx_spinlock := Some 0%nat; wait_queue := []; mx_pcs := [MxWake 1; MxBlocked] |}.
Proof. apply (run_steps_rtc mutex_next mutex_demo). vm_compute. reflexivity. Defined.

Lemma mutex_correct_witness : exists u, [MxWake 1; MxBlocked] !! u = Some (MxPass 1) \/ [MxWake 1; MxBlocked] !! u = Some (MxWake 1).
Proof.
  destruct (mutex_correct 2 _ mutex_demo_run) as (_ & _ & H & _). destruct (H 1%nat eq_refl) as [[Hin _]|Hu]; [|exact Hu].
  exfalso. cbn in Hin. set_solver.
Defined.
