(* ===== verification/RwLock.v ===== *)
(** * The reader-writer lock

    [src/src/innigkeit/sync/RwLock.zig].  The state word holds the writing bit, the
    count of writers that wait and the count of readers; a writer holds the mutex
    while it has the lock.  A step is one atomic access of one task; the mutex and the
    spin lock of the wait queue are the task that holds them (MutexLock.v and SpinLock.v).

    No task ever has the lock for writing while another has it, whatever the
    interleaving.  Two ways are shown in which a writer is never woken. *)

From stdpp Require Import relations.
From S2P Require Import Prelude Tasks.

(** ** The code *)

Definition IS_WRITING : Z := 1.
Definition WRITER : Z := Z.shiftl 1 1.
Definition READER : Z := Z.shiftl 1 (1 + 31).
Definition WRITER_MASK : Z := Z.shiftl (2 ^ 31 - 1) 1.
Definition READER_MASK : Z := Z.shiftl (2 ^ 31 - 1) 32.

(** Where a task is: what it does next.
    [readLock]: [RdLoad], [RdTry state], [RdMutex], [RdAdd], [RdUnlock].
    [readUnlock]: the reader that wakes is at [RdSpin], [RdWake], [RdLeave].
    [writeLock]: [WrMutex], [WrMark], [WrSpin], [WrAppend], [WrSwitch], [WrBlocked].
    [writeUnlock]: [WrUnlock].
    [tryUpgradeLock]: [UpTry], [UpDrop], [UpMark], [UpUndo], [UpUnlock], [UpFail].
    [tryWriteLock]: [TwLoad], [TwTry state], [TwUnlock].
    [tryReadLock]: [TrTry state], [TrMutex], [TrAdd], [TrUnlock]. *)
Inductive RwPc :=
| RwIdle | RwReading | RwWriting
| RdLoad | RdTry (state : Z) | RdMutex | RdAdd | RdUnlock | RdSpin | RdWake | RdLeave
| WrMutex | WrMark | WrSpin | WrAppend | WrSwitch | WrBlocked | WrUnlock
| UpTry | UpDrop | UpMark | UpUndo | UpUnlock | UpFail
| TwLoad | TwTry (state : Z) | TwUnlock
| TrTry (state : Z) | TrMutex | TrAdd | TrUnlock.

Record RwLock := { rw_state : Z; rw_mutex : option nat; wait_queue_spinlock : option nat; rw_wait_queue : list nat; rw_pcs : list RwPc }.

Definition rw_goto (t : nat) (pc : RwPc) (s : RwLock) : RwLock :=
  {| rw_state := rw_state s; rw_mutex := rw_mutex s; wait_queue_spinlock := wait_queue_spinlock s; rw_wait_queue := rw_wait_queue s; rw_pcs := <[t := pc]> (rw_pcs s) |}.
Definition set_rw_state (w : Z) (s : RwLock) : RwLock :=
  {| rw_state := w; rw_mutex := rw_mutex s; wait_queue_spinlock := wait_queue_spinlock s; rw_wait_queue := rw_wait_queue s; rw_pcs := rw_pcs s |}.
Definition set_rw_mutex (o : option nat) (s : RwLock) : RwLock :=
  {| rw_state := rw_state s; rw_mutex := o; wait_queue_spinlock := wait_queue_spinlock s; rw_wait_queue := rw_wait_queue s; rw_pcs := rw_pcs s |}.
Definition set_rw_spin (o : option nat) (s : RwLock) : RwLock :=
  {| rw_state := rw_state s; rw_mutex := rw_mutex s; wait_queue_spinlock := o; rw_wait_queue := rw_wait_queue s; rw_pcs := rw_pcs s |}.
Definition set_rw_queue (q : list nat) (s : RwLock) : RwLock :=
  {| rw_state := rw_state s; rw_mutex := rw_mutex s; wait_queue_spinlock := wait_queue_spinlock s; rw_wait_queue := q; rw_pcs := rw_pcs s |}.

(** [@atomicRmw] with [.Add] and [.Sub], on a [usize]. *)
Definition rmw_add (d : Z) (s : RwLock) : RwLock := set_rw_state (u64 (rw_state s + d)) s.
Definition rmw_sub (d : Z) (s : RwLock) : RwLock := set_rw_state (u64 (rw_state s - d)) s.

(** [mutex.lock], [mutex.tryLock] and [mutex.unlock]; the spin lock. *)
Definition rw_lock_mutex (t : nat) (pc : RwPc) (s : RwLock) : option RwLock :=
  match rw_mutex s with None => Some (rw_goto t pc (set_rw_mutex (Some t) s)) | Some _ => None end.
Definition rw_try_mutex (t : nat) (yes no : RwPc) (s : RwLock) : RwLock :=
  match rw_mutex s with None => rw_goto t yes (set_rw_mutex (Some t) s) | Some _ => rw_goto t no s end.
Definition rw_unlock_mutex (t : nat) (pc : RwPc) (s : RwLock) : RwLock := rw_goto t pc (set_rw_mutex None s).
Definition rw_lock_spin (t : nat) (pc : RwPc) (s : RwLock) : option RwLock :=
  match wait_queue_spinlock s with None => Some (rw_goto t pc (set_rw_spin (Some t) s)) | Some _ => None end.

Definition no_writers (state : Z) : bool := Z.land state (Z.lor IS_WRITING WRITER_MASK) =? 0.

(** [readLock]: the loop of the fast path; the exchange may fail for no reason. *)
Definition readLock_try (weak : bool) (t : nat) (state : Z) (s : RwLock) : RwLock :=
  if no_writers state then
    if (rw_state s =? state) && negb weak then rw_goto t RwReading (set_rw_state (state + READER) s) else rw_goto t (RdTry (rw_state s)) s
  else rw_goto t RdMutex s.

(** [readUnlock]. *)
Definition readUnlock (t : nat) (s : RwLock) : RwLock :=
  let state := rw_state s in
  rw_goto t (if (Z.land state READER_MASK =? READER) && negb (Z.land state IS_WRITING =? 0) then RdSpin else RwIdle) (rmw_sub READER s).

(** [wait_queue.wakeOne]: a writer that waited has the lock. *)
Definition rw_wakeOne (t : nat) (s : RwLock) : RwLock :=
  match rw_wait_queue s with
  | [] => rw_goto t RdLeave s
  | w :: q => rw_goto t RdLeave (rw_goto w RwWriting (set_rw_queue q s))
  end.

(** [writeLock] with the mutex: the writer that waits becomes the one that writes. *)
Definition writeLock_mark (t : nat) (s : RwLock) : RwLock :=
  rw_goto t (if Z.land (rw_state s) READER_MASK =? 0 then RwWriting else WrSpin) (rmw_add (u64 (IS_WRITING - WRITER)) s).

(** [writeUnlock]: the bit is cleared. *)
Definition writeUnlock (t : nat) (s : RwLock) : RwLock := rw_goto t WrUnlock (set_rw_state (Z.land (rw_state s) (2 ^ 64 - 1 - IS_WRITING)) s).

(** [tryUpgradeLock] with the mutex: the reader is dropped. *)
Definition upgrade_drop (t : nat) (s : RwLock) : RwLock :=
  rw_goto t (if Z.land (rw_state s) READER_MASK =? READER then UpMark else UpUndo) (rmw_sub READER s).

(** [tryWriteLock] with the mutex: the load and the exchange. *)
Definition tryWrite_load (t : nat) (s : RwLock) : RwLock :=
  rw_goto t (if Z.land (rw_state s) READER_MASK =? 0 then TwTry (rw_state s) else TwUnlock) s.
Definition tryWrite_try (t : nat) (state : Z) (s : RwLock) : RwLock :=
  if rw_state s =? state then rw_goto t RwWriting (set_rw_state (Z.lor state IS_WRITING) s) else rw_goto t TwLoad s.

(** [tryReadLock]: the exchange. *)
Definition tryRead_try (t : nat) (state : Z) (s : RwLock) : RwLock :=
  if no_writers state && (rw_state s =? state) then rw_goto t RwReading (set_rw_state (state + READER) s) else rw_goto t TrMutex s.

Inductive RwAct := ReadLock | ReadUnlock | WriteLock | WriteUnlock | TryUpgrade | TryWrite | TryRead | RwGo | RwSpurious.

Definition rw_go (t : nat) (pc : RwPc) (s : RwLock) : option RwLock :=
  match pc with
  | RwIdle | RwReading | RwWriting | WrBlocked => None
  | RdLoad => Some (rw_goto t (RdTry (rw_state s)) s)
  | RdTry state => Some (readLock_try false t state s)
  | RdMutex => rw_lock_mutex t RdAdd s
  | RdAdd => Some (rw_goto t RdUnlock (rmw_add READER s))
  | RdUnlock => Some (rw_unlock_mutex t RwReading s)
  | RdSpin => rw_lock_spin t RdWake s
  | RdWake => Some (rw_wakeOne t s)
  | RdLeave => Some (rw_goto t RwIdle (set_rw_spin None s))
  | WrMutex => rw_lock_mutex t WrMark s
  | WrMark => Some (writeLock_mark t s)
  | WrSpin => rw_lock_spin t WrAppend s
  | WrAppend => Some (rw_goto t WrSwitch (set_rw_queue (rw_wait_queue s ++ [t]) s))
  | WrSwitch => Some (rw_goto t WrBlocked (set_rw_spin None s))
  | WrUnlock => Some (rw_unlock_mutex t RwIdle s)
  | UpTry => Some (rw_try_mutex t UpDrop UpFail s)
  | UpDrop => Some (upgrade_drop t s)
  | UpMark => Some (rw_goto t RwWriting (rmw_add (u64 (IS_WRITING - WRITER)) s))
  | UpUndo => Some (rw_goto t UpUnlock (rmw_sub WRITER s))
  | UpUnlock => Some (rw_unlock_mutex t RwIdle s)
  | UpFail => Some (rw_goto t RwIdle (rmw_sub (READER + WRITER) s))
  | TwLoad => Some (tryWrite_load t s)
  | TwTry state => Some (tryWrite_try t state s)
  | TwUnlock => Some (rw_unlock_mutex t RwIdle s)
  | TrTry state => Some (tryRead_try t state s)
  | TrMutex => Some (rw_try_mutex t TrAdd RwIdle s)
  | TrAdd => Some (rw_goto t TrUnlock (rmw_add READER s))
  | TrUnlock => Some (rw_unlock_mutex t RwReading s)
  end.

(** A task begins an operation, or makes the next access of the one it is in. *)
Definition rw_next (l : nat * RwAct) (s : RwLock) : option RwLock :=
  let t := l.1 in
  match l.2, rw_pcs s !! t with
  | ReadLock, Some RwIdle => Some (rw_goto t RdLoad s)
  | ReadUnlock, Some RwReading => Some (readUnlock t s)
  | WriteLock, Some RwIdle => Some (rw_goto t WrMutex (rmw_add WRITER s))
  | WriteUnlock, Some RwWriting => Some (writeUnlock t s)
  | TryUpgrade, Some RwReading => Some (rw_goto t UpTry (rmw_add WRITER s))
  | TryWrite, Some RwIdle => Some (rw_try_mutex t TwLoad RwIdle s)
  | TryRead, Some RwIdle => Some (rw_goto t (TrTry (rw_state s)) s)
  | RwSpurious, Some (RdTry state) => Some (readLock_try true t state s)
  | RwGo, Some pc => rw_go t pc s
  | _, _ => None
  end.

Definition rwlock_init (n : nat) : RwLock :=
  {| rw_state := 0; rw_mutex := None; wait_queue_spinlock := None; rw_wait_queue := []; rw_pcs := replicate n RwIdle |}.

Definition rw_step (s s' : RwLock) : Prop := exists l, rw_next l s = Some s'.

(** ** The state word *)

(** What the tasks add to the state word, the mutex and the spin lock: readers,
    waiting writers, the writing bit, the mutex, the spin lock; readers about to wake a
    writer; writers that wait for the readers, of these the queued ones; and those that may
    write. *)
Definition rw_r (pc : RwPc) : Z := match pc with RwReading | RdUnlock | UpTry | UpDrop | UpFail | TrUnlock => 1 | _ => 0 end.
Definition rw_p (pc : RwPc) : Z := match pc with WrMutex | WrMark | UpTry | UpDrop | UpMark | UpUndo | UpFail => 1 | _ => 0 end.
Definition rw_y (pc : RwPc) : Z := match pc with WrSpin | WrAppend | WrSwitch | WrBlocked => 1 | _ => 0 end.
Definition rw_b (pc : RwPc) : Z := match pc with RwWriting => 1 | _ => rw_y pc end.
Definition rw_x (pc : RwPc) : Z := match pc with RwWriting | UpMark => 1 | _ => 0 end.
Definition rw_q (pc : RwPc) : Z := match pc with WrSwitch | WrBlocked => 1 | _ => 0 end.
Definition rw_k (pc : RwPc) : Z := match pc with RdSpin | RdWake => 1 | _ => 0 end.
Definition rw_s (pc : RwPc) : Z := match pc with RdWake | RdLeave | WrAppend | WrSwitch => 1 | _ => 0 end.
Definition rw_m (pc : RwPc) : Z :=
  match pc with
  | RdAdd | RdUnlock | WrMark | WrUnlock | UpDrop | UpMark | UpUndo | UpUnlock | TwLoad | TwTry _ | TwUnlock | TrAdd | TrUnlock => 1
  | _ => rw_b pc
  end.

Definition word (b p r : Z) : Z := b + 2 * p + 2 ^ 32 * r.

Lemma land_shifted w m k : 0 <= k -> Z.land w (Z.shiftl m k) = Z.shiftl (Z.land (Z.shiftr w k) m) k.
Proof.
  intros Hk. apply Z.bits_inj'. intros n Hn. rewrite Z.land_spec, !Z.shiftl_spec, Z.land_spec by done. destruct (Z.le_gt_cases k n) as [Hle|Hlt].
  - rewrite Z.shiftr_spec by lia. now replace (n - k + k) with n by lia.
  - rewrite !(Z.testbit_neg_r _ (n - k)) by lia. now rewrite andb_false_r.
Qed.

Section Word.
Context (b p r : Z) (Hb : 0 <= b <= 1) (Hp : 0 <= p < 2 ^ 31) (Hr : 0 <= r < 2 ^ 31).

Lemma word_readers : Z.land (word b p r) READER_MASK = 2 ^ 32 * r.
Proof.
  replace READER_MASK with (Z.shiftl (Z.ones 31) 32) by reflexivity.
  rewrite land_shifted, Z.land_ones, Z.shiftr_div_pow2, Z.shiftl_mul_pow2 by lia. unfold word.
  rewrite <- (Z.div_unique (b + 2 * p + 2 ^ 32 * r) (2 ^ 32) r (b + 2 * p)) by lia. rewrite Z.mod_small by lia. lia.
Qed.

Lemma word_no_writers : no_writers (word b p r) = (b =? 0) && (p =? 0).
Proof.
  unfold no_writers. replace (Z.lor IS_WRITING WRITER_MASK) with (Z.ones 32) by reflexivity. rewrite Z.land_ones by lia.
  unfold word. rewrite <- (Z.mod_unique (b + 2 * p + 2 ^ 32 * r) (2 ^ 32) r (b + 2 * p)) by lia. lia.
Qed.

Lemma word_writing : Z.land (word b p r) IS_WRITING = b.
Proof.
  replace IS_WRITING with (Z.ones 1) by reflexivity. rewrite Z.land_ones by lia. unfold word. symmetry. apply (Z.mod_unique _ (2 ^ 1) (p + 2 ^ 31 * r)); lia.
Qed.

Lemma word_range : 0 <= word b p r < 2 ^ 64.
Proof. unfold word. lia. Qed.

Lemma word_set : b = 0 -> Z.lor (word b p r) IS_WRITING = word 1 p r.
Proof.
  intros ->. unfold word, IS_WRITING. replace (0 + 2 * p + 2 ^ 32 * r) with (2 * (p + 2 ^ 31 * r)) by lia. assert (0 <= p + 2 ^ 31 * r) as H by lia.
  replace (1 + 2 * p + 2 ^ 32 * r) with (2 * (p + 2 ^ 31 * r) + 1) by lia. destruct (p + 2 ^ 31 * r) as [|x|x]; [done|done|lia].
Qed.

Lemma word_clear : b = 1 -> Z.land (word b p r) (2 ^ 64 - 1 - IS_WRITING) = word 0 p r.
Proof.
  intros ->. replace (2 ^ 64 - 1 - IS_WRITING) with (Z.shiftl (Z.ones 63) 1) by reflexivity.
  rewrite land_shifted, Z.land_ones, Z.shiftr_div_pow2, Z.shiftl_mul_pow2 by lia. unfold word.
  rewrite <- (Z.div_unique (1 + 2 * p + 2 ^ 32 * r) (2 ^ 1) (p + 2 ^ 31 * r) 1) by lia. rewrite Z.mod_small by lia. lia.
Qed.
End Word.

(** ** The invariant *)

Record rw_inv (s : RwLock) : Prop := {
  ri_few : Zlen (rw_pcs s) < 2 ^ 31;
  ri_word : rw_state s = word (total rw_b (rw_pcs s)) (total rw_p (rw_pcs s)) (total rw_r (rw_pcs s));
  ri_mutex : total rw_m (rw_pcs s) = match rw_mutex s with None => 0 | Some _ => 1 end;
  ri_spin : total rw_s (rw_pcs s) = match wait_queue_spinlock s with None => 0 | Some _ => 1 end;
  ri_queue : Zlen (rw_wait_queue s) = total rw_q (rw_pcs s);
  ri_queued : forall w, w ∈ rw_wait_queue s -> rw_pcs s !! w = Some WrSwitch \/ rw_pcs s !! w = Some WrBlocked;
  ri_excl : total rw_x (rw_pcs s) = 0 \/ total rw_r (rw_pcs s) = 0;
  ri_pend : total rw_k (rw_pcs s) = 0 \/ total rw_k (rw_pcs s) = 1 /\ total rw_r (rw_pcs s) = 0 /\ total rw_y (rw_pcs s) = 1;
  ri_tries : forall t st, rw_pcs s !! t = Some (TwTry st) -> Z.land st READER_MASK = 0
}.

(** How the sums are related, and what the task that steps adds to them. *)
Record rw_facts (s : RwLock) (pc : RwPc) : Prop := {
  rf_r : rw_r pc <= total rw_r (rw_pcs s) < 2 ^ 31;
  rf_p : rw_p pc <= total rw_p (rw_pcs s) < 2 ^ 31;
  rf_b : rw_b pc <= total rw_b (rw_pcs s);
  rf_x : rw_x pc <= total rw_x (rw_pcs s);
  rf_q : 0 <= total rw_q (rw_pcs s);
  rf_k : rw_k pc <= total rw_k (rw_pcs s);
  rf_s : rw_s pc <= total rw_s (rw_pcs s) <= 1;
  rf_m : total rw_m (rw_pcs s) <= 1;
  rf_mb : rw_m pc - rw_b pc <= total rw_m (rw_pcs s) - total rw_b (rw_pcs s);
  rf_mx : rw_m pc - rw_x pc <= total rw_m (rw_pcs s) - total rw_x (rw_pcs s);
  rf_by : rw_b pc - rw_y pc <= total rw_b (rw_pcs s) - total rw_y (rw_pcs s);
  rf_yq : rw_y pc - rw_q pc <= total rw_y (rw_pcs s) - total rw_q (rw_pcs s);
  rf_xb : total rw_b (rw_pcs s) <= total rw_x (rw_pcs s) + total rw_y (rw_pcs s);
  rf_bpx : total rw_x (rw_pcs s) <= total rw_b (rw_pcs s) + total rw_p (rw_pcs s)
}.

Lemma total_add {Pc : Type} (f g : Pc -> Z) pcs : total (fun pc => f pc + g pc) pcs = total f pcs + total g pcs.
Proof. induction pcs as [|q pcs IH]; cbn; [done|]. unfold total in *. lia. Qed.

Lemma rw_facts_of s t pc : rw_inv s -> rw_pcs s !! t = Some pc -> rw_facts s pc.
Proof.
  intros Hi Hpc. pose proof (ri_few _ Hi) as Hf.
  assert (forall f : RwPc -> Z, (forall pc, f pc <= 1) -> total f (rw_pcs s) < 2 ^ 31) as Hlen.
  { intros f Hf1. pose proof (total_length f (rw_pcs s) Hf1). lia. }
  constructor.
  1,2: split; [apply (total_elem _ _ t); [now intros []|done]|apply Hlen; now intros []].
  1,2,4: apply (total_elem _ _ t); [now intros []|done].
  1: apply total_nonneg; now intros [].
  1: split; [apply (total_elem _ _ t); [now intros []|done]|rewrite (ri_spin _ Hi); now case_match].
  1: rewrite (ri_mutex _ Hi); now case_match.
  1,2,3,4: apply (total_gap _ _ _ t); [now intros []|done].
  all: rewrite <- total_add; apply total_mono; now intros [].
Qed.

(** A step that moves one task. *)
Lemma rw_move s s' t pc pc' : rw_inv s -> rw_pcs s !! t = Some pc -> rw_pcs s' = <[t := pc']> (rw_pcs s) ->
  rw_state s' = word (total rw_b (rw_pcs s) - rw_b pc + rw_b pc') (total rw_p (rw_pcs s) - rw_p pc + rw_p pc') (total rw_r (rw_pcs s) - rw_r pc + rw_r pc') ->
  total rw_m (rw_pcs s) - rw_m pc + rw_m pc' = match rw_mutex s' with None => 0 | Some _ => 1 end ->
  total rw_s (rw_pcs s) - rw_s pc + rw_s pc' = match wait_queue_spinlock s' with None => 0 | Some _ => 1 end ->
  Zlen (rw_wait_queue s') = total rw_q (rw_pcs s) - rw_q pc + rw_q pc' ->
  (forall w, w ∈ rw_wait_queue s' -> w <> t -> w ∈ rw_wait_queue s) -> (t ∈ rw_wait_queue s' -> pc' = WrSwitch \/ pc' = WrBlocked) ->
  (total rw_x (rw_pcs s) - rw_x pc + rw_x pc' = 0 \/ total rw_r (rw_pcs s) - rw_r pc + rw_r pc' = 0) ->
  (total rw_k (rw_pcs s) - rw_k pc + rw_k pc' = 0 \/
   total rw_k (rw_pcs s) - rw_k pc + rw_k pc' = 1 /\ total rw_r (rw_pcs s) - rw_r pc + rw_r pc' = 0 /\ total rw_y (rw_pcs s) - rw_y pc + rw_y pc' = 1) ->
  (forall st, pc' = TwTry st -> Z.land st READER_MASK = 0) -> rw_inv s'.
Proof.
  intros Hi Hpc Hpcs Hw Hm Hs Hq Hq1 Hq2 Hx Hk Ht. pose proof (lookup_lt_Some _ _ _ Hpc) as Hlt.
  constructor; rewrite ?Hpcs; rewrite ?(total_insert _ _ _ _ pc' Hpc); try done.
  - unfold Zlen. rewrite length_insert. apply Hi.
  - intros w Hin. destruct (decide (w = t)) as [->|Hn].
    + rewrite list_lookup_insert_eq by done. destruct (Hq2 Hin) as [-> | ->]; auto.
    + rewrite list_lookup_insert_ne by done. apply (ri_queued _ Hi). auto.
  - intros u st Hu. apply list_lookup_insert_Some in Hu as [(_ & -> & _)|(_ & Hu)]; [now apply Ht|]. now apply (ri_tries _ Hi u).
Qed.

Ltac rw_fields :=
  cbn [rw_goto set_rw_state set_rw_mutex set_rw_spin set_rw_queue rmw_add rmw_sub rw_unlock_mutex rw_state rw_mutex wait_queue_spinlock rw_wait_queue rw_pcs
       rw_r rw_p rw_y rw_b rw_x rw_q rw_k rw_s rw_m] in *.

(** The task is not in the queue unless it waits there. *)
Lemma not_queued s t pc : rw_inv s -> rw_pcs s !! t = Some pc -> rw_q pc = 0 -> t ∉ rw_wait_queue s.
Proof. intros Hi Hpc Hq Hin. destruct (ri_queued _ Hi _ Hin) as [E|E]; rewrite Hpc in E; injection E as ->; done. Qed.

Lemma u64_add w d : 0 <= w + d < 2 ^ 64 -> u64 (w + d) = w + d.
Proof. intros H. unfold u64. now rewrite Z.mod_small. Qed.

Lemma u64_add_mark w : 1 <= w < 2 ^ 64 -> u64 (w + u64 (IS_WRITING - WRITER)) = w - 1.
Proof.
  intros H. replace (u64 (IS_WRITING - WRITER)) with (2 ^ 64 - 1) by reflexivity. unfold u64. symmetry. apply (Z.mod_unique _ _ 1); lia.
Qed.

Lemma READER_val : READER = 2 ^ 32. Proof. done. Qed.
Lemma WRITER_val : WRITER = 2. Proof. done. Qed.
Lemma IS_WRITING_val : IS_WRITING = 1. Proof. done. Qed.

(** The facts about the task that steps, in the context of a proof. *)
Ltac rw_know Hi Hpc :=
  pose proof (rw_facts_of _ _ _ Hi Hpc) as [? ? ? ? ? ? ? ? ? ? ? ? ? ?];
  pose proof (ri_word _ Hi) as Hword; pose proof (ri_mutex _ Hi) as Hmutex; pose proof (ri_spin _ Hi) as Hspin;
  pose proof (ri_queue _ Hi) as Hqueue; pose proof (ri_excl _ Hi) as Hexcl; pose proof (ri_pend _ Hi) as Hpend;
  pose proof READER_val as HR; pose proof WRITER_val as HW; pose proof IS_WRITING_val as HI.

Ltac rw_words :=
  match goal with
  | H : rw_state ?s = word _ _ _ |- _ = word _ _ _ =>
      rewrite ?H; unfold word in *; first [lia | rewrite u64_add by lia; lia | rewrite <- Z.add_opp_r, u64_add by lia; lia | rewrite u64_add_mark by lia; lia | idtac]
  end.

(** The step of one task: the word, the counts, the queue. *)
Ltac rw_moves Hi Hpc :=
  eapply (rw_move _ _ _ _ _ Hi Hpc); [reflexivity|..]; rw_fields;
  [try rw_words|try (repeat case_match; first [lia | congruence])|try (repeat case_match; first [lia | congruence])|try lia|try (intros; assumption)
  |try (let H := fresh in intros H; exfalso; now apply (not_queued _ _ _ Hi Hpc eq_refl))|try lia|try lia|try (intros; discriminate)].

Lemma rw_local s t pc pc' : rw_inv s -> rw_pcs s !! t = Some pc -> rw_r pc' = rw_r pc -> rw_p pc' = rw_p pc -> rw_b pc' = rw_b pc ->
  rw_m pc' = rw_m pc -> rw_s pc' = rw_s pc -> rw_k pc' = rw_k pc -> rw_y pc' = rw_y pc -> rw_x pc' = rw_x pc -> rw_q pc = 0 -> rw_q pc' = 0 ->
  (forall st, pc' = TwTry st -> Z.land st READER_MASK = 0) -> rw_inv (rw_goto t pc' s).
Proof.
  intros Hi Hpc E1 E2 E3 E4 E5 E6 E7 E8 E9 E10 Ht. rw_know Hi Hpc.
  eapply (rw_move _ _ _ _ _ Hi Hpc); rw_fields; rewrite ?E1, ?E2, ?E3, ?E4, ?E5, ?E6, ?E7, ?E8; try done; try lia.
  - rewrite Hword. f_equal; lia.
  - intros Hin. exfalso. now apply (not_queued _ _ _ Hi Hpc E9).
Qed.

(** [mutex.lock], [mutex.tryLock], [mutex.unlock]. *)
Lemma lock_mutex_inv t pc pc' s s' : rw_inv s -> rw_pcs s !! t = Some pc -> (pc, pc') = (RdMutex, RdAdd) \/ (pc, pc') = (WrMutex, WrMark) ->
  rw_lock_mutex t pc' s = Some s' -> rw_inv s'.
Proof.
  intros Hi Hpc Hc H. unfold rw_lock_mutex in H. destruct (rw_mutex s) eqn:E; [done|]. injection H as <-. rw_know Hi Hpc. rewrite E in Hmutex.
  destruct Hc as [[= -> ->]|[= -> ->]]; rw_moves Hi Hpc.
Qed.

Lemma unlock_mutex_inv t pc pc' s : rw_inv s -> rw_pcs s !! t = Some pc ->
  (pc, pc') ∈ [(RdUnlock, RwReading); (TrUnlock, RwReading); (WrUnlock, RwIdle); (UpUnlock, RwIdle); (TwUnlock, RwIdle)] -> rw_inv (rw_unlock_mutex t pc' s).
Proof.
  intros Hi Hpc Hc. rw_know Hi Hpc. repeat (apply elem_of_cons in Hc as [[= -> ->]|Hc]; [now rw_moves Hi Hpc|]). set_solver.
Qed.

Lemma try_mutex_inv t pc yes no s : rw_inv s -> rw_pcs s !! t = Some pc -> (pc, yes, no) ∈ [(UpTry, UpDrop, UpFail); (RwIdle, TwLoad, RwIdle); (TrMutex, TrAdd, RwIdle)] ->
  rw_inv (rw_try_mutex t yes no s).
Proof.
  intros Hi Hpc Hc. unfold rw_try_mutex. rw_know Hi Hpc. destruct (rw_mutex s) eqn:E;
    repeat (apply elem_of_cons in Hc as [[= -> -> ->]|Hc]; [now rw_moves Hi Hpc|]); set_solver.
Qed.

Lemma lock_spin_inv t pc pc' s s' : rw_inv s -> rw_pcs s !! t = Some pc -> (pc, pc') = (RdSpin, RdWake) \/ (pc, pc') = (WrSpin, WrAppend) ->
  rw_lock_spin t pc' s = Some s' -> rw_inv s'.
Proof.
  intros Hi Hpc Hc H. unfold rw_lock_spin in H. destruct (wait_queue_spinlock s) eqn:E; [done|]. injection H as <-. rw_know Hi Hpc. rewrite E in Hspin.
  destruct Hc as [[= -> ->]|[= -> ->]]; rw_moves Hi Hpc.
Qed.

Lemma drop_spin_inv t pc pc' s : rw_inv s -> rw_pcs s !! t = Some pc -> (pc, pc') = (RdLeave, RwIdle) \/ (pc, pc') = (WrSwitch, WrBlocked) ->
  rw_inv (rw_goto t pc' (set_rw_spin None s)).
Proof.
  intros Hi Hpc Hc. rw_know Hi Hpc. destruct Hc as [[= -> ->]|[= -> ->]]; rw_moves Hi Hpc. auto.
Qed.

(** The additions and subtractions on the word. *)
Lemma add_inv t pc pc' s : rw_inv s -> rw_pcs s !! t = Some pc -> (pc, pc') = (RdAdd, RdUnlock) \/ (pc, pc') = (TrAdd, TrUnlock) ->
  rw_inv (rw_goto t pc' (rmw_add READER s)).
Proof. intros Hi Hpc Hc. rw_know Hi Hpc. destruct Hc as [[= -> ->]|[= -> ->]]; rw_moves Hi Hpc. Qed.

Lemma add_writer_inv t pc pc' s : rw_inv s -> rw_pcs s !! t = Some pc -> (pc, pc') = (RwIdle, WrMutex) \/ (pc, pc') = (RwReading, UpTry) ->
  rw_inv (rw_goto t pc' (rmw_add WRITER s)).
Proof. intros Hi Hpc Hc. rw_know Hi Hpc. destruct Hc as [[= -> ->]|[= -> ->]]; rw_moves Hi Hpc. Qed.

Lemma undo_inv t s : rw_inv s -> rw_pcs s !! t = Some UpUndo -> rw_inv (rw_goto t UpUnlock (rmw_sub WRITER s)).
Proof. intros Hi Hpc. rw_know Hi Hpc. rw_moves Hi Hpc. Qed.

Lemma fail_inv t s : rw_inv s -> rw_pcs s !! t = Some UpFail -> rw_inv (rw_goto t RwIdle (rmw_sub (READER + WRITER) s)).
Proof. intros Hi Hpc. rw_know Hi Hpc. rw_moves Hi Hpc. Qed.

Lemma mark_inv t s : rw_inv s -> rw_pcs s !! t = Some UpMark -> rw_inv (rw_goto t RwWriting (rmw_add (u64 (IS_WRITING - WRITER)) s)).
Proof. intros Hi Hpc. rw_know Hi Hpc. rw_moves Hi Hpc. Qed.

(** What the word says of the sums. *)
Lemma sums_range s t pc : rw_inv s -> rw_pcs s !! t = Some pc ->
  0 <= total rw_b (rw_pcs s) <= 1 /\ 0 <= total rw_p (rw_pcs s) < 2 ^ 31 /\ 0 <= total rw_r (rw_pcs s) < 2 ^ 31.
Proof.
  intros Hi Hpc. rw_know Hi Hpc. pose proof (total_nonneg rw_b (rw_pcs s) ltac:(now intros [])). pose proof (total_nonneg rw_p (rw_pcs s) ltac:(now intros [])).
  pose proof (total_nonneg rw_r (rw_pcs s) ltac:(now intros [])). destruct pc; rw_fields; lia.
Qed.

Lemma state_readers s t pc : rw_inv s -> rw_pcs s !! t = Some pc -> Z.land (rw_state s) READER_MASK = 2 ^ 32 * total rw_r (rw_pcs s).
Proof. intros Hi Hpc. destruct (sums_range _ _ _ Hi Hpc) as (H1 & H2 & H3). rewrite (ri_word _ Hi). now apply word_readers. Qed.

Lemma state_no_writers s t pc : rw_inv s -> rw_pcs s !! t = Some pc -> no_writers (rw_state s) = true -> total rw_b (rw_pcs s) = 0 /\ total rw_p (rw_pcs s) = 0.
Proof. intros Hi Hpc H. destruct (sums_range _ _ _ Hi Hpc) as (H1 & H2 & H3). rewrite (ri_word _ Hi), word_no_writers in H by done. lia. Qed.

(** The exchange of the readers' fast path. *)
Lemma reader_enters t pc s : rw_inv s -> rw_pcs s !! t = Some pc -> (exists st, pc = RdTry st \/ pc = TrTry st) -> no_writers (rw_state s) = true ->
  rw_inv (rw_goto t RwReading (set_rw_state (rw_state s + READER) s)).
Proof.
  intros Hi Hpc [st Hc] Hn. destruct (state_no_writers _ _ _ Hi Hpc Hn) as [Hb Hp]. rw_know Hi Hpc. destruct Hc as [-> | ->]; rw_moves Hi Hpc.
Qed.

Lemma readLock_try_inv weak t st s : rw_inv s -> rw_pcs s !! t = Some (RdTry st) -> rw_inv (readLock_try weak t st s).
Proof.
  intros Hi Hpc. unfold readLock_try. destruct (no_writers st) eqn:E; [|now apply (rw_local _ _ _ _ Hi Hpc)].
  destruct (Z.eqb_spec (rw_state s) st) as [<-|]; [destruct weak|]; cbn [andb negb]; try now apply (rw_local _ _ _ _ Hi Hpc).
  apply (reader_enters _ _ _ Hi Hpc); eauto.
Qed.

Lemma tryRead_try_inv t st s : rw_inv s -> rw_pcs s !! t = Some (TrTry st) -> rw_inv (tryRead_try t st s).
Proof.
  intros Hi Hpc. unfold tryRead_try. destruct (no_writers st) eqn:E; [|now apply (rw_local _ _ _ _ Hi Hpc)].
  destruct (Z.eqb_spec (rw_state s) st) as [<-|]; cbn [andb]; [|now apply (rw_local _ _ _ _ Hi Hpc)].
  apply (reader_enters _ _ _ Hi Hpc); eauto.
Qed.

Lemma readUnlock_inv t s : rw_inv s -> rw_pcs s !! t = Some RwReading -> rw_inv (readUnlock t s).
Proof.
  intros Hi Hpc. unfold readUnlock. rewrite (state_readers _ _ _ Hi Hpc). destruct (sums_range _ _ _ Hi Hpc) as (H1 & H2 & H3).
  rewrite (ri_word _ Hi), word_writing by done. rw_know Hi Hpc.
  destruct (Z.eqb_spec (2 ^ 32 * total rw_r (rw_pcs s)) READER); [destruct (Z.eqb_spec (total rw_b (rw_pcs s)) 0)|]; cbn [andb negb]; rw_moves Hi Hpc.
Qed.

Lemma writeLock_mark_inv t s : rw_inv s -> rw_pcs s !! t = Some WrMark -> rw_inv (writeLock_mark t s).
Proof.
  intros Hi Hpc. unfold writeLock_mark. rewrite (state_readers _ _ _ Hi Hpc). destruct (sums_range _ _ _ Hi Hpc) as (H1 & H2 & H3). rw_know Hi Hpc.
  destruct (Z.eqb_spec (2 ^ 32 * total rw_r (rw_pcs s)) 0); rw_moves Hi Hpc.
Qed.

Lemma writeUnlock_inv t s : rw_inv s -> rw_pcs s !! t = Some RwWriting -> rw_inv (writeUnlock t s).
Proof.
  intros Hi Hpc. unfold writeUnlock. destruct (sums_range _ _ _ Hi Hpc) as (H1 & H2 & H3). rw_know Hi Hpc.
  rewrite Hword, word_clear by (rw_fields; lia). rw_moves Hi Hpc.
Qed.

Lemma upgrade_drop_inv t s : rw_inv s -> rw_pcs s !! t = Some UpDrop -> rw_inv (upgrade_drop t s).
Proof.
  intros Hi Hpc. unfold upgrade_drop. rewrite (state_readers _ _ _ Hi Hpc). rw_know Hi Hpc.
  destruct (Z.eqb_spec (2 ^ 32 * total rw_r (rw_pcs s)) READER); rw_moves Hi Hpc.
Qed.

Lemma tryWrite_load_inv t s : rw_inv s -> rw_pcs s !! t = Some TwLoad -> rw_inv (tryWrite_load t s).
Proof.
  intros Hi Hpc. unfold tryWrite_load. destruct (Z.eqb_spec (Z.land (rw_state s) READER_MASK) 0); apply (rw_local _ _ _ _ Hi Hpc); try done. now intros st [= <-].
Qed.

Lemma tryWrite_try_inv t st s : rw_inv s -> rw_pcs s !! t = Some (TwTry st) -> rw_inv (tryWrite_try t st s).
Proof.
  intros Hi Hpc. pose proof (ri_tries _ Hi _ _ Hpc) as Ht. unfold tryWrite_try. destruct (Z.eqb_spec (rw_state s) st) as [<-|]; [|now apply (rw_local _ _ _ _ Hi Hpc)].
  rewrite (state_readers _ _ _ Hi Hpc) in Ht. destruct (sums_range _ _ _ Hi Hpc) as (H1 & H2 & H3). rw_know Hi Hpc.
  rewrite Hword, word_set by (rw_fields; lia). rw_moves Hi Hpc.
Qed.

Lemma writer_append_inv t s : rw_inv s -> rw_pcs s !! t = Some WrAppend -> rw_inv (rw_goto t WrSwitch (set_rw_queue (rw_wait_queue s ++ [t]) s)).
Proof.
  intros Hi Hpc. rw_know Hi Hpc. rw_moves Hi Hpc.
  - unfold Zlen in *. rewrite length_app. cbn [length]. lia.
  - intros w Hin Hn. rewrite elem_of_app, list_elem_of_singleton in Hin. tauto.
  - auto.
Qed.

(** A writer is woken by the last reader. *)
Lemma wake_writer_inv t w q s : rw_inv s -> rw_pcs s !! t = Some RdWake -> rw_wait_queue s = w :: q ->
  rw_inv (rw_goto w RwWriting (set_rw_queue q (rw_goto t RdLeave s))).
Proof.
  intros Hi Hpc Eq. assert (w ∈ rw_wait_queue s) as Hin by (rewrite Eq; left).
  assert (rw_pcs s !! w = Some WrBlocked /\ w <> t) as [Hw Hwt].
  { destruct (ri_queued _ Hi _ Hin) as [E|E]; [|split; congruence]. assert (w <> t) as Hn by congruence.
    pose proof (total_two rw_s _ _ _ _ _ ltac:(now intros []) Hn E Hpc) as H2. rw_know Hi Hpc. rw_fields. lia. }
  assert (rw_inv (rw_goto t RdLeave s)) as Hi' by (rw_know Hi Hpc; now rw_moves Hi Hpc).
  assert (total rw_r (rw_pcs s) = 0 /\ total rw_k (rw_pcs s) = 1) as [Hr Hk] by (rw_know Hi Hpc; rw_fields; lia).
  assert (rw_pcs (rw_goto t RdLeave s) !! w = Some WrBlocked) as Hw' by (cbn; now rewrite list_lookup_insert_ne).
  rw_know Hi' Hw'. assert (Zlen q = 0) as Hq0 by (rw_fields; rewrite Eq in Hqueue; unfold Zlen in *; cbn [length] in Hqueue; lia).
  assert (q = []) as -> by (unfold Zlen in Hq0; apply nil_length_inv; lia).
  pose proof (total_insert rw_r _ _ _ RdLeave Hpc) as Tr. pose proof (total_insert rw_k _ _ _ RdLeave Hpc) as Tk. rw_fields.
  rw_moves Hi' Hw'; [|set_solver..]. rewrite Eq in Hqueue. unfold Zlen in *. cbn [length] in *. lia.
Qed.

Lemma wakeOne_inv t s : rw_inv s -> rw_pcs s !! t = Some RdWake -> rw_inv (rw_wakeOne t s).
Proof.
  intros Hi Hpc. unfold rw_wakeOne. destruct (rw_wait_queue s) as [|w q] eqn:Eq.
  - rw_know Hi Hpc. now rw_moves Hi Hpc.
  - pose proof (wake_writer_inv _ _ _ _ Hi Hpc Eq) as H. replace (rw_goto t RdLeave (rw_goto w RwWriting (set_rw_queue q s)))
      with (rw_goto w RwWriting (set_rw_queue q (rw_goto t RdLeave s))); [done|].
    unfold rw_goto, set_rw_queue. cbn. f_equal. apply list_insert_insert_ne. intros ->.
    assert (t ∈ rw_wait_queue s) as Hin by (rewrite Eq; left). now apply (not_queued _ _ _ Hi Hpc eq_refl).
Qed.

Lemma rw_go_inv t pc s s' : rw_inv s -> rw_pcs s !! t = Some pc -> rw_go t pc s = Some s' -> rw_inv s'.
Proof.
  intros Hi Hpc H. destruct pc; cbn [rw_go] in H; try done; try (injection H as <-);
    eauto using readLock_try_inv, tryRead_try_inv, writeLock_mark_inv, upgrade_drop_inv, tryWrite_load_inv, tryWrite_try_inv, writer_append_inv, wakeOne_inv, undo_inv, fail_inv, mark_inv.
  - now apply (rw_local _ _ _ _ Hi Hpc).
  - eapply lock_mutex_inv; eauto.
  - eapply add_inv; eauto.
  - eapply unlock_mutex_inv; [done..|]. set_solver.
  - eapply lock_spin_inv; eauto.
  - eapply drop_spin_inv; eauto.
  - eapply lock_mutex_inv; eauto.
  - eapply lock_spin_inv; eauto.
  - eapply drop_spin_inv; eauto.
  - eapply unlock_mutex_inv; [done..|]. set_solver.
  - eapply try_mutex_inv; [done..|]. set_solver.
  - eapply unlock_mutex_inv; [done..|]. set_solver.
  - eapply unlock_mutex_inv; [done..|]. set_solver.
  - eapply try_mutex_inv; [done..|]. set_solver.
  - eapply add_inv; eauto.
  - eapply unlock_mutex_inv; [done..|]. set_solver.
Qed.

Lemma rw_next_inv l s s' : rw_inv s -> rw_next l s = Some s' -> rw_inv s'.
Proof.
  destruct l as [t a]. unfold rw_next. cbn [fst snd]. intros Hi H.
  destruct a; destruct (rw_pcs s !! t) as [pc|] eqn:E; try done; try (now apply (rw_go_inv t pc s)); destruct pc; try done; injection H as <-;
    eauto using readUnlock_inv, writeUnlock_inv, readLock_try_inv, add_writer_inv; try now apply (rw_local _ _ _ _ Hi E).
  eapply try_mutex_inv; [done..|]. set_solver.
Qed.

Lemma rwlock_init_inv n : Z.of_nat n < 2 ^ 31 -> rw_inv (rwlock_init n).
Proof.
  intros Hn. constructor; cbn [rwlock_init rw_state rw_mutex wait_queue_spinlock rw_wait_queue rw_pcs]; rewrite ?total_replicate by done; auto.
  - unfold Zlen. now rewrite length_replicate.
  - intros w Hw. set_solver.
  - intros t st Ht. now apply lookup_replicate in Ht as [? _].
Qed.

Lemma rw_reachable_inv n s : Z.of_nat n < 2 ^ 31 -> rtc rw_step (rwlock_init n) s -> rw_inv s.
Proof. intros Hn. apply (run_invariant rw_step); [|now apply rwlock_init_inv]. intros s1 s2 Hi [l Hl]. now apply (rw_next_inv l s1). Qed.

(** ** What it gives *)

Definition isReadLocked (s : RwLock) : bool := negb (Z.land (rw_state s) READER_MASK =? 0).
Definition isWriteLocked (s : RwLock) : bool := negb (Z.land (rw_state s) IS_WRITING =? 0).

Lemma state_writing s t pc : rw_inv s -> rw_pcs s !! t = Some pc -> Z.land (rw_state s) IS_WRITING = total rw_b (rw_pcs s).
Proof. intros Hi Hpc. destruct (sums_range _ _ _ Hi Hpc) as (H1 & H2 & H3). rewrite (ri_word _ Hi). now apply word_writing. Qed.

Lemma all_idle_total (f : RwPc -> Z) pcs : f RwIdle = 0 -> Forall (fun pc => pc = RwIdle) pcs -> total f pcs = 0.
Proof. intros Hf. induction 1 as [|pc pcs -> _ IH]; cbn; [done|]. unfold total in *. lia. Qed.

(** C18. The reader-writer lock, with fewer than 2^31 tasks and any interleaving of its
    operations (upgrades and failed attempts included): while a task has the lock for
    writing no other task has it for reading or for writing, [isWriteLocked] is true
    and [isReadLocked] is false; while one has it for reading [isReadLocked] is true; and
    when no task is using it the state word is zero and the mutex is free, so that no
    count has leaked. *)
Theorem rwlock_correct n s : Z.of_nat n < 2 ^ 31 -> rtc rw_step (rwlock_init n) s ->
  (forall t u, rw_pcs s !! t = Some RwWriting -> rw_pcs s !! u = Some RwWriting -> t = u) /\
  (forall t u, rw_pcs s !! t = Some RwWriting -> rw_pcs s !! u <> Some RwReading) /\
  (forall t, rw_pcs s !! t = Some RwWriting -> isWriteLocked s = true /\ isReadLocked s = false) /\
  (forall t, rw_pcs s !! t = Some RwReading -> isReadLocked s = true) /\
  (Forall (fun pc => pc = RwIdle) (rw_pcs s) -> rw_state s = 0 /\ rw_mutex s = None /\ wait_queue_spinlock s = None /\ rw_wait_queue s = []).
Proof.
  intros Hn Hr. pose proof (rw_reachable_inv n s Hn Hr) as Hi. unfold isReadLocked, isWriteLocked. split_and!.
  - intros t u Ht Hu. destruct (decide (t = u)) as [|Hne]; [done|]. rw_know Hi Ht. pose proof (total_two rw_m _ _ _ _ _ ltac:(now intros []) Hne Ht Hu). rw_fields. lia.
  - intros t u Ht Hu. rw_know Hi Ht. pose proof (total_elem rw_r _ _ _ ltac:(now intros []) Hu). rw_fields. lia.
  - intros t Ht. rewrite (state_writing _ _ _ Hi Ht), (state_readers _ _ _ Hi Ht). rw_know Hi Ht. rw_fields. lia.
  - intros t Ht. rewrite (state_readers _ _ _ Hi Ht). rw_know Hi Ht. rw_fields. lia.
  - intros Hall. pose proof (ri_word _ Hi) as Hw. pose proof (ri_mutex _ Hi) as Hm. pose proof (ri_spin _ Hi) as Hs. pose proof (ri_queue _ Hi) as Hq.
    rewrite !all_idle_total in * by done. split_and!; [done|now destruct (rw_mutex s)|now destruct (wait_queue_spinlock s)|].
    apply nil_length_inv. unfold Zlen in Hq. lia.
Qed.

Definition rw_demo : list (nat * RwAct) :=
  [(1%nat, ReadLock); (1%nat, RwGo); (1%nat, RwGo); (0%nat, WriteLock); (0%nat, RwGo); (0%nat, RwGo); (0%nat, RwGo); (0%nat, RwGo); (0%nat, RwGo);
   (1%nat, ReadUnlock); (1%nat, RwGo); (1%nat, RwGo)].

(** A writer that waits for a reader is woken by it. *)
Lemma rw_demo_run : rtc rw_step (rwlock_init 2)
  {| rw_state := 1; rw_mutex := Some 0%nat; wait_queue_spinlock := Some 1%nat; rw_wait_queue := []; rw_pcs := [RwWriting; RdLeave] |}.
Proof. apply (run_steps_rtc rw_next rw_demo). vm_compute. reflexivity. Defined.

Lemma rwlock_correct_witness : isWriteLocked {| rw_state := 1; rw_mutex := Some 0%nat; wait_queue_spinlock := Some 1%nat; rw_wait_queue := []; rw_pcs := [RwWriting; RdLeave] |} = true.
Proof. destruct (rwlock_correct 2 _ ltac:(lia) rw_demo_run) as (_ & _ & H & _). exact (proj1 (H 0%nat eq_refl)). Defined.

(** ** Writers that are never woken *)

(** A writer is blocked, and there is neither a reader nor one that will wake it. *)
Record stranded (t : nat) (s : RwLock) : Prop := {
  st_inv : rw_inv s;
  st_blocked : rw_pcs s !! t = Some WrBlocked;
  st_readers : total rw_r (rw_pcs s) = 0;
  st_wakers : total rw_k (rw_pcs s) = 0
}.

(** What the other tasks can be at: they have neither the lock nor the mutex. *)
Lemma stranded_other t u s pc : stranded t s -> u <> t -> rw_pcs s !! u = Some pc -> rw_r pc = 0 /\ rw_k pc = 0 /\ rw_m pc = 0.
Proof.
  intros [Hi Ht Hr Hk] Hu Hpc. rw_know Hi Hpc. pose proof (total_two rw_m _ _ _ _ _ ltac:(now intros []) Hu Hpc Ht) as H2.
  destruct pc; rw_fields; lia.
Qed.

Lemma stranded_busy t s : stranded t s -> rw_mutex s <> None /\ no_writers (rw_state s) = false.
Proof.
  intros [Hi Ht Hr Hk]. rw_know Hi Ht. split; [intros E; rewrite E in Hmutex; rw_fields; lia|].
  destruct (no_writers (rw_state s)) eqn:E; [|done]. destruct (state_no_writers _ _ _ Hi Ht E) as [H1 _]. rw_fields. lia.
Qed.

Lemma stranded_move t u s s' pc pc' : stranded t s -> rw_inv s' -> u <> t -> rw_pcs s !! u = Some pc -> rw_pcs s' = <[u := pc']> (rw_pcs s) ->
  rw_r pc' = 0 -> rw_k pc' = 0 -> stranded t s'.
Proof.
  intros Hst Hi' Hu Hpc Hpcs Hr' Hk'. destruct (stranded_other _ _ _ _ Hst Hu Hpc) as (H1 & H2 & _). destruct Hst as [Hi Ht Hr Hk].
  constructor; [done|now rewrite Hpcs, list_lookup_insert_ne|..]; rewrite Hpcs, (total_insert _ _ _ _ _ Hpc); lia.
Qed.

Lemma stranded_next t l s s' : stranded t s -> rw_next l s = Some s' -> stranded t s'.
Proof.
  intros Hst H. pose proof (rw_next_inv l s s' (st_inv _ _ Hst) H) as Hi'. destruct (stranded_busy _ _ Hst) as [Hm Hw]. destruct l as [u a].
  destruct (decide (u = t)) as [->|Hu]; [unfold rw_next in H; cbn [fst snd] in H; rewrite (st_blocked _ _ Hst) in H; now destruct a|].
  unfold rw_next in H. cbn [fst snd] in H. destruct (rw_pcs s !! u) as [pc|] eqn:E; [|now destruct a].
  pose proof (stranded_other _ _ _ _ Hst Hu E) as (H1 & H2 & H3). pose proof (stranded_move t u s s' pc) as Hmv.
  destruct a, pc; try done; cbn [rw_go] in H; unfold rw_lock_mutex, rw_lock_spin, rw_try_mutex, readLock_try, tryRead_try in *;
    destruct (rw_mutex s) as [v|]; try done; try (injection H as <-);
    repeat (match goal with |- context [if ?b then _ else _] => destruct b eqn:? end); try done; try (eapply Hmv; done).
  all: exfalso; match goal with H : _ && _ = true |- _ => apply andb_prop in H as [Ha Hb] end;
    match goal with H : (rw_state _ =? _) = true |- _ => apply Z.eqb_eq in H; congruence end.
Qed.

Lemma stranded_forever t s s' : stranded t s -> rtc rw_step s s' -> stranded t s'.
Proof. apply (run_invariant rw_step). intros s1 s2 H [l Hl]. now apply (stranded_next t l s1). Qed.

(** The reader releases between the writer's test of the count and its append. *)
Definition lost_wakeup_run : list (nat * RwAct) :=
  [(1%nat, ReadLock); (1%nat, RwGo); (1%nat, RwGo);
   (0%nat, WriteLock); (0%nat, RwGo); (0%nat, RwGo);
   (1%nat, ReadUnlock); (1%nat, RwGo); (1%nat, RwGo); (1%nat, RwGo);
   (0%nat, RwGo); (0%nat, RwGo); (0%nat, RwGo)].

(** The reader a writer waits for tries to upgrade, and fails as the writer has the
    mutex. *)
Definition failed_upgrade_run : list (nat * RwAct) :=
  [(1%nat, ReadLock); (1%nat, RwGo); (1%nat, RwGo);
   (0%nat, WriteLock); (0%nat, RwGo); (0%nat, RwGo); (0%nat, RwGo); (0%nat, RwGo); (0%nat, RwGo);
   (1%nat, TryUpgrade); (1%nat, RwGo); (1%nat, RwGo)].

Definition stranded_state : RwLock :=
  {| rw_state := 1; rw_mutex := Some 0%nat; wait_queue_spinlock := None; rw_wait_queue := [0%nat]; rw_pcs := [WrBlocked; RwIdle] |}.

Lemma stranded_state_ok : run_steps rw_next lost_wakeup_run (rwlock_init 2) = Some stranded_state -> stranded 0 stranded_state.
Proof.
  intros H. constructor; [|done|done|done]. apply (rw_reachable_inv 2); [lia|]. now apply (run_steps_rtc rw_next lost_wakeup_run).
Qed.

(** C37. Two runs of one reader and one writer leave the writer blocked for ever, with the
    lock free of readers: the reader's [readUnlock] wakes the queue before the writer
    has appended itself, or the last reader leaves by a failed [tryUpgradeLock], which
    wakes nobody.  Afterwards, whatever the tasks do, the writer stays blocked and no task has
    the lock for reading or for writing again. *)
Theorem rwlock_writer_stranded run : run ∈ [lost_wakeup_run; failed_upgrade_run] ->
  run_steps rw_next run (rwlock_init 2) = Some stranded_state /\
  forall s, rtc rw_step stranded_state s ->
    rw_pcs s !! 0%nat = Some WrBlocked /\ isReadLocked s = false /\ forall u, rw_pcs s !! u <> Some RwReading /\ rw_pcs s !! u <> Some RwWriting.
Proof.
  intros Hrun. split.
  - rewrite !elem_of_cons in Hrun. destruct Hrun as [-> |[-> |Hrun]]; [vm_compute; reflexivity..|]. now apply elem_of_nil in Hrun.
  - intros s Hs. pose proof (stranded_forever 0 _ _ (stranded_state_ok ltac:(vm_compute; reflexivity)) Hs) as Hst. pose proof (st_blocked _ _ Hst) as Hb.
    split; [done|]. unfold isReadLocked. rewrite (state_readers _ _ _ (st_inv _ _ Hst) Hb), (st_readers _ _ Hst). split; [done|].
    intros u. destruct (decide (u = 0%nat)) as [->|Hu]; [split; congruence|].
    split; intros E; destruct (stranded_other _ _ _ _ Hst Hu E) as (H1 & H2 & H3); done.
Qed.

Lemma rwlock_writer_stranded_witness : run_steps rw_next failed_upgrade_run (rwlock_init 2) = Some stranded_state.
Proof. apply (rwlock_writer_stranded failed_upgrade_run). right. left. Defined.
