(* ===== verification/Parker.v ===== *)
(** * The parker

    [src/src/innigkeit/sync/Parker.zig]: one task parks, any number of tasks unpark it; the
    kernel's task and process cleanup sleep in it.  A step is one atomic access.  The spin lock is
    a flag with one task in its section, as SpinLock.v shows of it; the parked task leaves
    it when the scheduler has switched away from it.

    No wake-up is lost: when the task has been unparked since it last came out of [park], and is
    blocked, an unparker is on its way to it. *)

From stdpp Require Import relations.
From S2P Require Import Prelude Machine Tasks.

(** ** The code *)

(** The task that parks: outside, at the lock, at the checks under the lock, switching away, blocked. *)
Inductive ParkPc := K_idle | K_lock | K_locked | K_scheduler | K_block | K_blocked | K_panicked.
(** An unparker: outside, at the lock, under the lock, with the task to wake. *)
Inductive UnparkPc := U_idle | U_lock | U_locked | U_wake | U_panicked.
#[export] Instance UnparkPc_eq_dec : EqDecision UnparkPc.
Proof. solve_decision. Defined.

Record Parker := MkParker { pk_lock : bool; parked_task : bool; unpark_attempts : Z; pk_park : ParkPc; pk_unpark : list UnparkPc }.

Definition park_goto (pc : ParkPc) (s : Parker) : Parker := MkParker (pk_lock s) (parked_task s) (unpark_attempts s) pc (pk_unpark s).
Definition unpark_goto (t : nat) (pc : UnparkPc) (s : Parker) : Parker :=
  MkParker (pk_lock s) (parked_task s) (unpark_attempts s) (pk_park s) (<[t := pc]> (pk_unpark s)).
Definition set_lock (b : bool) (s : Parker) : Parker := MkParker b (parked_task s) (unpark_attempts s) (pk_park s) (pk_unpark s).
Definition set_parked (b : bool) (s : Parker) : Parker := MkParker (pk_lock s) b (unpark_attempts s) (pk_park s) (pk_unpark s).
Definition set_attempts (n : Z) (s : Parker) : Parker := MkParker (pk_lock s) (parked_task s) n (pk_park s) (pk_unpark s).

(** [park]: the first look at the attempts. *)
Definition park_enter (s : Parker) : Parker :=
  park_goto (if unpark_attempts s =? 0 then K_lock else K_idle) (set_attempts 0 s).

(** Under the lock: no task is parked, and the second look. *)
Definition park_recheck (s : Parker) : Parker :=
  if parked_task s then park_goto K_panicked s
  else if unpark_attempts s =? 0 then park_goto K_scheduler (set_attempts 0 s)
  else park_goto K_idle (set_lock false (set_attempts 0 s)).

(** With the scheduler's lock, the third look. *)
Definition park_last (s : Parker) : Parker :=
  if unpark_attempts s =? 0 then park_goto K_block (set_attempts 0 s)
  else park_goto K_idle (set_lock false (set_attempts 0 s)).

(** The scheduler's action when the task has been switched away from. *)
Definition park_action (s : Parker) : Parker := park_goto K_blocked (set_lock false (set_parked true s)).

(** [unpark]: the attempt is counted; the first one goes on. *)
Definition unpark_enter (t : nat) (s : Parker) : Parker :=
  let s' := set_attempts (u64 (unpark_attempts s + 1)) s in if unpark_attempts s =? 0 then unpark_goto t U_lock s' else s'.

(** Under the lock. *)
Definition unpark_take (t : nat) (s : Parker) : Parker :=
  if parked_task s then unpark_goto t U_wake (set_lock false (set_attempts 0 (set_parked false s)))
  else unpark_goto t U_idle (set_lock false s).

(** [wakeFromBlocked], of a task that is blocked. *)
Definition unpark_wake (t : nat) (s : Parker) : Parker :=
  match pk_park s with K_blocked => unpark_goto t U_idle (park_goto K_idle s) | _ => unpark_goto t U_panicked s end.

(** A step of the task that parks, or of an unparker; the lock is taken when it is free. *)
Inductive ParkAct := A_park | A_unpark (t : nat).

Definition park_next (a : ParkAct) (s : Parker) : option Parker :=
  match a with
  | A_park =>
      match pk_park s with
      | K_idle => Some (park_enter s)
      | K_lock => if pk_lock s then None else Some (park_goto K_locked (set_lock true s))
      | K_locked => Some (park_recheck s)
      | K_scheduler => Some (park_last s)
      | K_block => Some (park_action s)
      | K_blocked | K_panicked => None
      end
  | A_unpark t =>
      match pk_unpark s !! t with
      | Some U_idle => Some (unpark_enter t s)
      | Some U_lock => if pk_lock s then None else Some (unpark_goto t U_locked (set_lock true s))
      | Some U_locked => Some (unpark_take t s)
      | Some U_wake => Some (unpark_wake t s)
      | Some U_panicked | None => None
      end
  end.

Definition parker_step (s s' : Parker) : Prop := exists a, park_next a s = Some s'.

(** [empty], and [withParkedTask], for [n] unparkers. *)
Definition parker_empty (n : nat) : Parker := MkParker false false 0 K_idle (replicate n U_idle).
Definition withParkedTask (n : nat) : Parker := MkParker false true 0 K_blocked (replicate n U_idle).

(** ** What is owed to the task

    Whether an [unpark] has begun since the task last came out of [park]. *)

Definition comes_out (a : ParkAct) (s s' : Parker) : bool :=
  match pk_park s' with
  | K_idle => match a, pk_park s with A_park, _ => true | _, K_blocked => true | _, _ => false end
  | _ => false
  end.
Definition begins (a : ParkAct) (s : Parker) : bool := match a with A_unpark t => bool_decide (pk_unpark s !! t = Some U_idle) | A_park => false end.
Definition owed_next (a : ParkAct) (x : Parker * bool) : option (Parker * bool) :=
  s' ← park_next a x.1; Some (s', begins a x.1 || x.2 && negb (comes_out a x.1 s')).
Definition owed_step (x x' : Parker * bool) : Prop := exists a, owed_next a x = Some x'.

(** ** Its invariant *)

Definition in_section (pc : ParkPc) : Z := match pc with K_locked | K_scheduler | K_block => 1 | _ => 0 end.
Definition holds (pc : UnparkPc) : Z := match pc with U_locked => 1 | _ => 0 end.
Definition waking (pc : UnparkPc) : Z := match pc with U_wake => 1 | _ => 0 end.
Definition coming (pc : UnparkPc) : Z := match pc with U_lock | U_locked => 1 | _ => 0 end.
Definition panicked (pc : UnparkPc) : Z := match pc with U_panicked => 1 | _ => 0 end.

Record parker_ok (n : Z) (s : Parker) : Prop := {
  po_lock : in_section (pk_park s) + total holds (pk_unpark s) = Z.b2z (pk_lock s);
  po_parked : Z.b2z (parked_task s) + total waking (pk_unpark s) = match pk_park s with K_blocked => 1 | _ => 0 end;
  po_coming : pk_park s = K_block \/ parked_task s = true -> 0 < unpark_attempts s -> 0 < total coming (pk_unpark s);
  po_attempts : 0 <= unpark_attempts s <= n;
  po_panic : pk_park s <> K_panicked /\ total panicked (pk_unpark s) = 0
}.

Ltac park_simpl := cbn [pk_lock parked_task unpark_attempts pk_park pk_unpark park_goto unpark_goto set_lock set_parked set_attempts] in *.

Lemma park_nonneg pcs : 0 <= total holds pcs /\ 0 <= total waking pcs /\ 0 <= total coming pcs.
Proof. repeat split; apply total_nonneg; now intros []. Qed.

Lemma park_ok n s s' : parker_ok n s -> park_next A_park s = Some s' -> parker_ok n s'.
Proof.
  intros [H1 H2 H3 H4 [H5 H6]] H. destruct s as [l p a k us]. cbn [park_next] in H. park_simpl. pose proof (park_nonneg us) as (N1 & N2 & N3).
  unfold park_enter, park_recheck, park_last, park_action in H. park_simpl.
  destruct k; try done.
  - injection H as <-. destruct (a =? 0) eqn:Ha; (split; park_simpl; [done|done|intros; lia|lia|done]).
  - destruct l; [done|]. injection H as <-. cbn [in_section Z.b2z] in *. split; park_simpl; [cbn [in_section Z.b2z]; lia|done| |lia|done].
    intros [?| ->]; [done|]. auto.
  - destruct p; [cbn [Z.b2z] in H2; lia|]. destruct (a =? 0) eqn:Ha; injection H as <-; cbn [in_section] in *.
    + split; park_simpl; [done|done|intros; lia|lia|done].
    + split; park_simpl; [destruct l; cbn [in_section Z.b2z] in *; lia|done|intros; lia|lia|done].
  - destruct (a =? 0) eqn:Ha; injection H as <-; cbn [in_section] in *.
    + split; park_simpl; [done|done|intros; lia|lia|done].
    + split; park_simpl; [destruct l; cbn [in_section Z.b2z] in *; lia|done|intros; lia|lia|done].
  - injection H as <-. cbn [in_section] in *. split; park_simpl; [destruct l; cbn [in_section Z.b2z] in *; lia|destruct p; cbn [Z.b2z] in *; lia|auto|lia|done].
Qed.

Lemma unpark_ok n t s s' : parker_ok n s -> n + 1 < 2 ^ 64 -> park_next (A_unpark t) s = Some s' -> parker_ok (n + 1) s'.
Proof.
  intros [H1 H2 H3 H4 [H5 H6]] Hn H. destruct s as [l p a k us]. cbn [park_next] in H. park_simpl. pose proof (park_nonneg us) as (N1 & N2 & N3).
  destruct (us !! t) as [u|] eqn:Hu; [|done].
  pose proof (total_insert holds us t u) as T1. pose proof (total_insert waking us t u) as T2.
  pose proof (total_insert coming us t u) as T3. pose proof (total_insert panicked us t u) as T4.
  destruct u; try done.
  - injection H as <-. unfold unpark_enter. park_simpl. rewrite u64_id by lia. destruct (a =? 0) eqn:Ha.
    + split; park_simpl; rewrite ?T1, ?T2, ?T3, ?T4 by done; cbn [holds waking coming panicked]; try lia. split; [done|lia].
    + apply Z.eqb_neq in Ha. split; park_simpl; try lia; [|done]. intros Hp _. apply H3; [done|lia].
  - destruct l; [done|]. injection H as <-. cbn [Z.b2z] in *.
    split; park_simpl; rewrite ?T1, ?T2, ?T3, ?T4 by done; cbn [holds waking coming panicked Z.b2z]; try lia; [|split; [done|lia]].
    intros Hp Ha. specialize (H3 Hp Ha). lia.
  - injection H as <-. unfold unpark_take. park_simpl. pose proof (total_elem holds us t U_locked ltac:(now intros []) Hu) as Hh. cbn [holds] in Hh.
    assert (in_section k = 0 /\ total holds us = 1 /\ l = true) as (Hk & Hh1 & ->) by (destruct k, l; cbn [in_section Z.b2z] in *; lia).
    destruct p; (split; park_simpl; rewrite ?T1, ?T2, ?T3, ?T4 by done; cbn [holds waking coming panicked Z.b2z] in *; try lia; try (split; [done|lia])).
    intros [-> | ?]; [done|done].
  - injection H as <-. unfold unpark_wake. park_simpl. pose proof (total_elem waking us t U_wake ltac:(now intros []) Hu) as Hw. cbn [waking] in Hw.
    assert (p = false /\ k = K_blocked) as [-> ->] by (destruct k, p; cbn [Z.b2z] in *; (lia || done)).
    split; park_simpl; rewrite ?T1, ?T2, ?T3, ?T4 by done; cbn [holds waking coming panicked Z.b2z in_section] in *; try lia; [now intros [?|?]|split; [done|lia]].
Qed.

(** What is owed is counted, or on its way. *)
Definition owed_ok (x : Parker * bool) : Prop := x.2 = true -> 0 < unpark_attempts x.1 \/ 0 < total waking (pk_unpark x.1).

Lemma park_owed n s s' b : parker_ok n s -> owed_ok (s, b) -> park_next A_park s = Some s' -> owed_ok (s', b && negb (comes_out A_park s s')).
Proof.
  intros Hs Ho H Hb. cbn [fst snd] in *. apply andb_true_iff in Hb as [-> Hc]. specialize (Ho eq_refl). cbn [fst] in Ho. pose proof (po_attempts _ _ Hs) as Ha.
  destruct s as [l p a k us]. cbn [park_next] in H. park_simpl. unfold park_enter, park_recheck, park_last, park_action in H. park_simpl.
  destruct k; try done.
  - injection H as <-. destruct (a =? 0) eqn:E; [|done]. park_simpl. lia.
  - destruct l; [done|]. injection H as <-. done.
  - destruct p; [injection H as <-; done|]. destruct (a =? 0) eqn:E; injection H as <-; [park_simpl; lia|done].
  - destruct (a =? 0) eqn:E; injection H as <-; [park_simpl; lia|done].
  - injection H as <-. done.
Qed.

Lemma unpark_owed n t s s' b : parker_ok n s -> n + 1 < 2 ^ 64 -> owed_ok (s, b) -> park_next (A_unpark t) s = Some s' ->
  owed_ok (s', begins (A_unpark t) s || b && negb (comes_out (A_unpark t) s s')).
Proof.
  intros Hs Hn Ho H Hb. cbn [fst snd] in *. pose proof (po_attempts _ _ Hs) as Ha. destruct s as [l p a k us]. cbn [park_next] in H. unfold begins in Hb. park_simpl.
  destruct (us !! t) as [u|] eqn:Hu; [|done]. pose proof (total_insert waking us t u) as T. pose proof (park_nonneg us) as (_ & Nw & _).
  destruct u; try done; cbn [bool_decide] in Hb.
  - injection H as <-. unfold unpark_enter. park_simpl. left. destruct (a =? 0); park_simpl; rewrite u64_id by lia; lia.
  - rewrite bool_decide_false in Hb by done. apply andb_true_iff in Hb as [-> _]. destruct l; [done|]. injection H as <-. park_simpl. rewrite T by done.
    cbn [waking]. specialize (Ho eq_refl). cbn [fst] in Ho. park_simpl. lia.
  - rewrite bool_decide_false in Hb by done. apply andb_true_iff in Hb as [-> _]. injection H as <-. unfold unpark_take. specialize (Ho eq_refl). cbn [fst] in Ho. park_simpl.
    destruct p; park_simpl; rewrite T by done; cbn [waking]; lia.
  - rewrite bool_decide_false in Hb by done. apply andb_true_iff in Hb as [-> Hc]. injection H as <-. unfold unpark_wake in *. park_simpl.
    pose proof (total_elem waking us t U_wake ltac:(now intros []) Hu) as Hw. cbn [waking] in Hw. pose proof (po_parked _ _ Hs) as Hp. park_simpl.
    destruct k; try (destruct p; cbn [Z.b2z] in Hp; lia). done.
Qed.

Lemma owed_run_ok k : forall n x x', parker_ok n x.1 -> owed_ok x -> nsteps owed_step k x x' -> n + Z.of_nat k < 2 ^ 64 ->
  parker_ok (n + Z.of_nat k) x'.1 /\ owed_ok x'.
Proof.
  induction k as [|k IH]; intros n x x' Hs Ho Hr Hk; inversion Hr as [|? ? x1 ? [a Ha] Hr']; subst; [now rewrite Z.add_0_r|].
  replace (n + Z.of_nat (S k)) with (n + 1 + Z.of_nat k) by lia. destruct x as [s b]. unfold owed_next in Ha. cbn [fst snd] in *.
  destruct (park_next a s) as [s1|] eqn:E; [|done]. injection Ha as <-. apply (IH (n + 1) _ _) in Hr'; [done| | |lia]; cbn [fst].
  - destruct a as [|t]; [|apply (unpark_ok n t s); [done|lia|done]]. destruct (park_ok n s s1 Hs E) as [H1 H2 H3 H4 H5]. split; [done|done|done|lia|done].
  - destruct a as [|t]; [now apply (park_owed n)|apply (unpark_owed n t); [done|lia|done|done]].
Qed.

Lemma parker_init_ok m b : parker_ok 0 (if b : bool then withParkedTask m else parker_empty m).
Proof. destruct b; (split; cbn [withParkedTask parker_empty pk_lock parked_task unpark_attempts pk_park pk_unpark]; rewrite ?total_replicate by done; try done; lia). Qed.

(** ** The parked task is woken *)

(** The steps of unparkers that have begun. *)
Definition begun (s s' : Parker) : Prop := exists t pc, pk_unpark s !! t = Some pc /\ pc <> U_idle /\ park_next (A_unpark t) s = Some s'.

Lemma waking_step s t : pk_park s = K_blocked -> pk_unpark s !! t = Some U_wake -> exists s', rtc begun s s' /\ pk_park s' = K_idle.
Proof.
  intros Hk Ht. eexists. split; [apply rtc_once; exists t, U_wake; split; [done|]; split; [done|]; cbn [park_next]; rewrite Ht; reflexivity|].
  unfold unpark_wake. now rewrite Hk.
Qed.

Lemma locked_steps s t : pk_park s = K_blocked -> parked_task s = true -> pk_unpark s !! t = Some U_locked -> exists s', rtc begun s s' /\ pk_park s' = K_idle.
Proof.
  intros Hk Hp Ht. destruct (waking_step (unpark_take t s) t) as (s' & Hr & Hs'); unfold unpark_take; rewrite ?Hp; park_simpl.
  - done.
  - apply list_lookup_insert_eq. now apply lookup_lt_Some in Ht.
  - exists s'. split; [|done]. eapply rtc_l; [|exact Hr]. exists t, U_locked. split; [done|]. split; [done|]. cbn [park_next]. now rewrite Ht.
Qed.

Lemma coming_steps n s : parker_ok n s -> pk_park s = K_blocked -> parked_task s = true -> 0 < total coming (pk_unpark s) ->
  exists s', rtc begun s s' /\ pk_park s' = K_idle.
Proof.
  intros Hs Hk Hp (t & pc & Ht & Hpc)%total_pos. destruct pc; try done; [|now apply (locked_steps s t)]. pose proof (po_lock _ _ Hs) as Hl. rewrite Hk in Hl.
  destruct (pk_lock s) eqn:El; cbn [Z.b2z in_section] in Hl.
  - destruct (total_pos holds (pk_unpark s)) as (u & qc & Hu & Hqc); [lia|]. destruct qc; try done. now apply (locked_steps s u).
  - destruct (locked_steps (unpark_goto t U_locked (set_lock true s)) t) as (s' & Hr & Hs'); [done|done|apply list_lookup_insert_eq; now apply lookup_lt_Some in Ht|].
    exists s'. split; [|done]. eapply rtc_l; [|exact Hr]. exists t, U_lock. split; [done|]. split; [done|]. cbn [park_next]. now rewrite Ht, El.
Qed.

(** C22. A parker that starts empty or with a parked task, one task that parks, [m] others that unpark,
    interleaved in any way for fewer than [2^64] steps.  The task never parks where one is parked already and
    what is woken is always a blocked task.  The lock has one task in its section.  No wake-up is lost:
    when the task is blocked, and an [unpark] has begun since it last came out of [park], then unparkers
    that have begun can run and wake it. *)
Theorem parker_correct m b k s owed : nsteps owed_step k (if b : bool then withParkedTask m else parker_empty m, false) (s, owed) -> Z.of_nat k < 2 ^ 64 ->
  pk_park s <> K_panicked /\ (forall t, pk_unpark s !! t <> Some U_panicked) /\
  in_section (pk_park s) + total holds (pk_unpark s) <= 1 /\
  (pk_park s = K_blocked -> owed = true -> exists s', rtc begun s s' /\ pk_park s' = K_idle).
Proof.
  intros Hr Hk. destruct (owed_run_ok k 0 (if b : bool then withParkedTask m else parker_empty m, false) (s, owed) (parker_init_ok m b) ltac:(done) Hr Hk) as [Hs Ho]. cbn [fst] in Hs. destruct (po_panic _ _ Hs) as [P1 P2].
  split; [done|]. split; [|split].
  - intros t Ht. pose proof (total_elem panicked _ t _ ltac:(now intros []) Ht) as H. cbn [panicked] in H. lia.
  - rewrite (po_lock _ _ Hs). destruct (pk_lock s); cbn; lia.
  - intros Hb Hc. specialize (Ho Hc). cbn [fst] in Ho. pose proof (po_parked _ _ Hs) as H. rewrite Hb in H. destruct (parked_task s) eqn:Hp; cbn [Z.b2z] in H.
    + apply (coming_steps _ s Hs Hb Hp). apply (po_coming _ _ Hs); [now right|lia].
    + destruct (total_pos waking (pk_unpark s)) as (t & pc & Ht & Hpc); [lia|]. destruct pc; try done. now apply (waking_step s t).
Qed.

Lemma parker_correct_witness : exists s s', nsteps owed_step 6 (parker_empty 2, false) (s, true) /\ pk_park s = K_blocked /\
  rtc begun s s' /\ pk_park s' = K_idle.
Proof.
  set (acts := [A_park; A_park; A_park; A_park; A_unpark 1; A_park]).
  destruct (run_steps park_next acts (parker_empty 2)) as [s|] eqn:E; [|now vm_compute in E].
  assert (Hr : nsteps owed_step 6 (parker_empty 2, false) (s, true)).
  { vm_compute in E. injection E as <-. do 4 (eapply nsteps_l; [exists A_park; reflexivity|]).
    eapply nsteps_l; [exists (A_unpark 1); reflexivity|]. eapply nsteps_l; [exists A_park; reflexivity|]. apply nsteps_O. }
  assert (Hb : pk_park s = K_blocked) by (vm_compute in E; injection E as <-; done).
  destruct (parker_correct 2 false 6 s true Hr ltac:(lia)) as (_ & _ & _ & H). destruct (H Hb eq_refl) as (s' & Hr' & Hs'). now exists s, s'.
Defined.
