(* ===== verification/Futex.v ===== *)
(** * Futexes

    [src/src/innigkeit/sync/futex.zig]: tasks wait on an address in one of 256 buckets
    and are woken by address, by a deadline, or taken out.  What happens with the lock of a
    bucket held is one step.  A bucket is the queue of its waiting tasks; a task has
    the address and the deadline it waits for.

    Every blocked task is in the bucket of its address, and [wake] wakes the tasks that
    wait on its address in the order in which they came and no others.  The address is
    virtual and the process is not part of it. *)

From stdpp Require Import relations.
From S2P Require Import Prelude Machine Handlers Tasks.

(** ** The code *)

(** Where a task is: it runs, it is blocked in a bucket ([timed] in [waitTimeout]), it was woken
    and has not run yet, or it was taken out by [cancel]. *)
Inductive FutexPc := F_running | F_blocked (timed : bool) | F_woken (timed : bool) | F_cancelled.
#[export] Instance FutexPc_eq_dec : EqDecision FutexPc.
Proof. solve_decision. Defined.

Record FutexTask := MkFutexTask { ft_process : Z; ft_pc : FutexPc; futex_addr : Z; futex_timeout_ms : Z }.
Record FutexState := MkFutex { buckets : list (list nat); ft_tasks : list FutexTask }.

Definition num_buckets : Z := 256.
Definition bucketOf (addr : Z) : nat := Z.to_nat (u64 (Z.shiftr addr 2 * 2654435761) mod num_buckets).

Definition no_task : FutexTask := MkFutexTask 0 F_running 0 0.
Definition task_at (ts : list FutexTask) (t : nat) : FutexTask := default no_task (ts !! t).

(** [wait] ([deadline] is none) and [waitTimeout] up to where the task is blocked; [word] is what
    the load of the futex word gives, none when it faults. *)
Definition block_on (addr : Z) (deadline : option Z) (x : FutexTask) : FutexTask :=
  match deadline with
  | None => MkFutexTask (ft_process x) (F_blocked false) addr (futex_timeout_ms x)
  | Some d => MkFutexTask (ft_process x) (F_blocked true) addr d
  end.

Definition futex_wait (t : nat) (addr expected : Z) (deadline word : option Z) (s : FutexState) : FutexState :=
  if negb (userBuffer addr 4) then s
  else
    match word with
    | None => s
    | Some current_val =>
        if negb (current_val =? expected) then s
        else MkFutex (alter (fun q => q ++ [t]) (bucketOf addr) (buckets s)) (alter (block_on addr deadline) t (ft_tasks s))
    end.

(** The rest of [wait] and [waitTimeout], when the woken task runs. *)
Definition resume (x : FutexTask) : FutexTask :=
  match ft_pc x with
  | F_woken timed => MkFutexTask (ft_process x) F_running 0 (if timed then 0 else futex_timeout_ms x)
  | _ => x
  end.

(** [task.wakeFromBlocked] *)
Definition wakeFromBlocked (addr timeout : Z) (x : FutexTask) : FutexTask :=
  MkFutexTask (ft_process x) (match ft_pc x with F_blocked timed => F_woken timed | pc => pc end) addr timeout.

(** The loop of [wake]: the tasks that stay, and the number woken. *)
Definition wake_task (x : FutexTask) : FutexTask := wakeFromBlocked 0 (futex_timeout_ms x) x.

Fixpoint wake_queue (addr : Z) (max_wake woken : nat) (q : list nat) (ts : list FutexTask) : list nat * nat * list FutexTask :=
  match q with
  | [] => ([], woken, ts)
  | t :: q' =>
      if (futex_addr (task_at ts t) =? addr) && (woken <? max_wake)%nat then wake_queue addr max_wake (S woken) q' (alter wake_task t ts)
      else let '(unmatched, n, ts') := wake_queue addr max_wake woken q' ts in (t :: unmatched, n, ts')
  end.

Definition bucket (s : FutexState) (b : nat) : list nat := default [] (buckets s !! b).

Definition futex_wake (addr : Z) (max_wake : nat) (s : FutexState) : nat * FutexState :=
  if (max_wake =? 0)%nat then (0%nat, s)
  else
    let '(unmatched, woken, ts) := wake_queue addr max_wake 0 (bucket s (bucketOf addr)) (ft_tasks s) in
    (woken, MkFutex (<[bucketOf addr := unmatched]> (buckets s)) ts).

(** [tick]: one bucket, and all of them. *)
Definition expired (now_ms : Z) (x : FutexTask) : bool := negb (futex_timeout_ms x =? 0) && (futex_timeout_ms x <=? now_ms).

Fixpoint tick_queue (now_ms : Z) (q : list nat) (ts : list FutexTask) : list nat * list FutexTask :=
  match q with
  | [] => ([], ts)
  | t :: q' =>
      if expired now_ms (task_at ts t) then tick_queue now_ms q' (alter (wakeFromBlocked 0 0) t ts)
      else let '(unmatched, ts') := tick_queue now_ms q' ts in (t :: unmatched, ts')
  end.

Definition tick_bucket (now_ms : Z) (s : FutexState) (b : nat) : FutexState :=
  let '(unmatched, ts) := tick_queue now_ms (bucket s b) (ft_tasks s) in MkFutex (<[b := unmatched]> (buckets s)) ts.

Definition futex_tick (now_ms : Z) (s : FutexState) : FutexState := foldl (tick_bucket now_ms) s (seq 0 (Z.to_nat num_buckets)).

(** [cancel], of a task that is about to be freed: it is taken out and not woken. *)
Definition cancel_task (x : FutexTask) : FutexTask := MkFutexTask (ft_process x) F_cancelled 0 0.

Definition futex_cancel (t : nat) (s : FutexState) : FutexState :=
  let addr := futex_addr (task_at (ft_tasks s) t) in
  if addr =? 0 then s
  else MkFutex (alter (filter (fun u => u <> t)) (bucketOf addr) (buckets s)) (alter cancel_task t (ft_tasks s)).

(** The system calls. *)
Definition futexWait (t : nat) (addr expected : Z) (word : option Z) (s : FutexState) : Error + FutexState :=
  if negb (userBuffer addr 4) then inl BadAddress else inr (futex_wait t addr expected None word s).
Definition futexWaitTimeout (t : nat) (addr expected deadline_ms : Z) (word : option Z) (s : FutexState) : Error + FutexState :=
  if negb (userBuffer addr 4) then inl BadAddress else inr (futex_wait t addr expected (Some deadline_ms) word s).
Definition futexWake (addr max_wake : Z) (s : FutexState) : Error + (Z * FutexState) :=
  if negb (userBuffer addr 4) then inl BadAddress
  else let '(woken, s') := futex_wake addr (Z.to_nat max_wake) s in inr (Z.of_nat woken, s').

Definition futex_init (processes : list Z) : FutexState :=
  MkFutex (replicate (Z.to_nat num_buckets) []) ((fun p => MkFutexTask p F_running 0 0) <$> processes).

(** What happens, in any order. *)
Inductive FutexAct :=
  | A_wait (t : nat) (addr expected : Z) (deadline word : option Z) | A_resume (t : nat)
  | A_wake (addr : Z) (max_wake : nat) | A_tick (now_ms : Z) | A_cancel (t : nat).

(** Only a running task waits. *)
Definition running (s : FutexState) (t : nat) : bool :=
  match ft_tasks s !! t with Some x => match ft_pc x with F_running => true | _ => false end | None => false end.

Definition futex_next (a : FutexAct) (s : FutexState) : option FutexState :=
  match a with
  | A_wait t addr expected deadline word => if running s t then Some (futex_wait t addr expected deadline word s) else None
  | A_resume t => Some (MkFutex (buckets s) (alter resume t (ft_tasks s)))
  | A_wake addr max_wake => Some (futex_wake addr max_wake s).2
  | A_tick now_ms => Some (futex_tick now_ms s)
  | A_cancel t => Some (futex_cancel t s)
  end.

(** ** What waits *)

Definition is_blocked (x : FutexTask) : bool := match ft_pc x with F_blocked _ => true | _ => false end.

(** The tasks that wait on an address, first come first. *)
Definition waiting (a : Z) (s : FutexState) : list nat := filter (fun t => futex_addr (task_at (ft_tasks s) t) = a) (bucket s (bucketOf a)).

(** A task has an address while it is blocked, and a deadline only when it was given one. *)
Definition task_ok (x : FutexTask) : Prop :=
  (is_blocked x = true <-> futex_addr x <> 0) /\
  match ft_pc x with F_running | F_blocked false | F_woken false => futex_timeout_ms x = 0 | _ => True end.

Record futex_ok (s : FutexState) : Prop := {
  fo_length : length (buckets s) = 256%nat;
  fo_nodup : forall b, NoDup (bucket s b);
  fo_bucket : forall b t, t ∈ bucket s b <-> exists x, ft_tasks s !! t = Some x /\ is_blocked x = true /\ bucketOf (futex_addr x) = b;
  fo_task : forall t x, ft_tasks s !! t = Some x -> task_ok x
}.

Lemma bucketOf_lt a : (bucketOf a < 256)%nat.
Proof. unfold bucketOf, num_buckets. pose proof (Z.mod_pos_bound (u64 (Z.shiftr a 2 * 2654435761)) 256). lia. Qed.

Lemma bucket_insert bs b q ts c : (b < length bs)%nat -> bucket (MkFutex (<[b := q]> bs) ts) c = if decide (c = b) then q else default [] (bs !! c).
Proof. intros Hb. unfold bucket. cbn [buckets]. case_decide as Hc; [subst c; now rewrite list_lookup_insert_eq|now rewrite list_lookup_insert_ne]. Qed.

Lemma bucket_alter bs f b ts c : (b < length bs)%nat ->
  bucket (MkFutex (alter f b bs) ts) c = if decide (c = b) then f (default [] (bs !! b)) else default [] (bs !! c).
Proof.
  intros Hb. unfold bucket. cbn [buckets]. case_decide as Hc; [subst c|now rewrite list_lookup_alter_ne].
  rewrite list_lookup_alter_eq. destruct (lookup_lt_is_Some_2 bs b Hb) as [q ->]. done.
Qed.

(** ** Waking a set of tasks *)

(** The tasks of [W] change by [f]. *)
Definition changed (W : list nat) (f : FutexTask -> FutexTask) (ts ts' : list FutexTask) : Prop :=
  forall t, ts' !! t = if decide (t ∈ W) then f <$> ts !! t else ts !! t.

Lemma changed_cons t W f ts ts' : t ∉ W -> changed W f (alter f t ts) ts' -> changed (t :: W) f ts ts'.
Proof.
  intros Ht H u. rewrite (H u). destruct (decide (u = t)) as [->|Hu].
  - rewrite (decide_False (P := t ∈ W)), decide_True by (done || left). apply list_lookup_alter_eq.
  - rewrite list_lookup_alter_ne by done. destruct (decide (u ∈ W)) as [Hw|Hw]; [now rewrite decide_True by now right|].
    rewrite decide_False; [done|]. intros [?|?]%elem_of_cons; done.
Qed.

Lemma filter_ext_in {A} (P Q : A -> Prop) `{forall x, Decision (P x), forall x, Decision (Q x)} (l : list A) :
  (forall x, x ∈ l -> P x <-> Q x) -> filter P l = filter Q l.
Proof.
  induction l as [|x l IH]; intros H1; [done|]. rewrite !filter_cons, IH by (intros y Hy; apply H1; now right).
  pose proof (H1 x ltac:(left)). repeat case_decide; tauto.
Qed.

Lemma filter_all {A} (P : A -> Prop) `{forall x, Decision (P x)} (l : list A) : (forall x, x ∈ l -> P x) -> filter P l = l.
Proof.
  induction l as [|x l IH]; intros H1; [done|]. rewrite filter_cons, decide_True, IH; [done| |apply H1; left]. intros y Hy. apply H1. now right.
Qed.

Lemma filter_out (q : list nat) t W : t ∉ q -> filter (fun u => u ∉ t :: W) q = filter (fun u => u ∉ W) q.
Proof.
  intros Ht. apply filter_ext_in. intros u Hu. rewrite elem_of_cons. split; [tauto|]. intros Hn [->|]; done.
Qed.

Lemma filter_alter (q : list nat) (P : FutexTask -> Prop) `{forall x, Decision (P x)} f t ts : t ∉ q ->
  filter (fun u => P (task_at (alter f t ts) u)) q = filter (fun u => P (task_at ts u)) q.
Proof.
  intros Ht. apply filter_ext_in. intros u Hu. unfold task_at. now rewrite list_lookup_alter_ne by (intros ->; done).
Qed.

Lemma changed_nil f ts : changed [] f ts ts.
Proof. intros t. now rewrite decide_False by apply not_elem_of_nil. Qed.

Lemma wake_queue_ret addr max_wake q : forall woken ts, NoDup q -> (woken <= max_wake)%nat ->
  let W := take (max_wake - woken) (filter (fun t => futex_addr (task_at ts t) = addr) q) in
  exists ts', wake_queue addr max_wake woken q ts = (filter (fun t => t ∉ W) q, (woken + length W)%nat, ts') /\ changed W wake_task ts ts'.
Proof.
  induction q as [|t q IH]; intros woken ts Hq Hw; cbn [wake_queue].
  { exists ts. destruct (max_wake - woken)%nat; (split; [cbn; do 2 f_equal; lia|apply changed_nil]). }
  apply NoDup_cons in Hq as [Ht Hq]. cbv zeta in *. rewrite (filter_cons (fun t => futex_addr (task_at ts t) = addr)). destruct (futex_addr (task_at ts t) =? addr) eqn:Ha; [destruct (woken <? max_wake)%nat eqn:Hm|]; cbn [andb].
  - apply Z.eqb_eq in Ha. apply Nat.ltb_lt in Hm. rewrite decide_True by done. replace (max_wake - woken)%nat with (S (max_wake - S woken)) by lia.
    destruct (IH (S woken) (alter wake_task t ts) Hq Hm) as (ts' & -> & Hc).
    pose proof (filter_alter q (fun x => futex_addr x = addr) wake_task t ts Ht) as Hfa. cbv beta in Hfa. rewrite Hfa in Hc |- *. exists ts'. cbn [take length]. split.
    + rewrite filter_cons, decide_False by (intros Hn; apply Hn; left). rewrite filter_out by done. do 2 f_equal. lia.
    + apply changed_cons; [|done]. intros Hn%elem_of_take. destruct Hn as (i & Hi%list_elem_of_lookup_2 & _). apply list_elem_of_filter in Hi as [_ Hi]. done.
  - apply Nat.ltb_ge in Hm. destruct (IH woken ts Hq Hw) as (ts' & -> & Hc). exists ts'. replace (max_wake - woken)%nat with 0%nat in * by lia. cbn [take] in *.
    rewrite filter_cons, decide_True by apply not_elem_of_nil. done.
  - apply Z.eqb_neq in Ha. rewrite decide_False by done. destruct (IH woken ts Hq Hw) as (ts' & -> & Hc). exists ts'.
    rewrite filter_cons, decide_True; [done|]. intros Hn%elem_of_take. destruct Hn as (i & Hi%list_elem_of_lookup_2 & _). apply list_elem_of_filter in Hi as [_ Hi]. done.
Qed.

Lemma tick_queue_ret now_ms q : forall ts, NoDup q ->
  let W := filter (fun t => expired now_ms (task_at ts t) = true) q in
  exists ts', tick_queue now_ms q ts = (filter (fun t => t ∉ W) q, ts') /\ changed W (wakeFromBlocked 0 0) ts ts'.
Proof.
  induction q as [|t q IH]; intros ts Hq; cbn [tick_queue]; [exists ts; split; [done|apply changed_nil]|].
  apply NoDup_cons in Hq as [Ht Hq]. cbv zeta in *. rewrite (filter_cons (fun t => expired now_ms (task_at ts t) = true)). destruct (expired now_ms (task_at ts t)) eqn:He.
  - destruct (IH (alter (wakeFromBlocked 0 0) t ts) Hq) as (ts' & -> & Hc). pose proof (filter_alter q (fun x => expired now_ms x = true) (wakeFromBlocked 0 0) t ts Ht) as Hfa. cbv beta in Hfa. rewrite Hfa in Hc |- *.
    exists ts'. rewrite decide_True by done. rewrite filter_cons, decide_False by (intros Hn; apply Hn; left). rewrite filter_out by done. split; [done|].
    apply changed_cons; [|done]. now intros [_ ?]%list_elem_of_filter.
  - destruct (IH ts Hq) as (ts' & -> & Hc). exists ts'. rewrite decide_False by done.
    rewrite filter_cons, decide_True; [done|]. now intros [_ ?]%list_elem_of_filter.
Qed.

(** What wakes a blocked task. *)
Definition wakes (f : FutexTask -> FutexTask) : Prop :=
  forall x, is_blocked x = true -> is_blocked (f x) = false /\ futex_addr (f x) = 0 /\ (task_ok x -> task_ok (f x)).

Lemma wakes_wake : wakes wake_task.
Proof.
  intros [p [|b|b|] a d]; try done. intros _. split; [done|]. split; [done|]. intros [_ H]. split; [now cbn|]. now destruct b.
Qed.

Lemma wakes_tick : wakes (wakeFromBlocked 0 0).
Proof. intros [p [|b|b|] a d]; try done. intros _. split; [done|]. split; [done|]. intros [_ H]. split; [now cbn|]. now destruct b. Qed.

Lemma task_at_lookup ts t x : ts !! t = Some x -> task_at ts t = x.
Proof. unfold task_at. now intros ->. Qed.

(** The tasks of a bucket are woken: the others stay as they are. *)
Lemma wake_set s b W f ts' : futex_ok s -> wakes f -> (b < 256)%nat -> (forall t, t ∈ W -> t ∈ bucket s b) -> changed W f (ft_tasks s) ts' ->
  futex_ok (MkFutex (<[b := filter (fun t => t ∉ W) (bucket s b)]> (buckets s)) ts') /\
  forall a, a <> 0 -> waiting a (MkFutex (<[b := filter (fun t => t ∉ W) (bucket s b)]> (buckets s)) ts') = filter (fun t => t ∉ W) (waiting a s).
Proof.
  intros Hs Hf Hb HW Hc. assert (HW' : forall t x, t ∈ W -> ft_tasks s !! t = Some x -> is_blocked x = true /\ bucketOf (futex_addr x) = b).
  { intros t x Ht Hx. apply HW, (fo_bucket _ Hs) in Ht as (y & Hy & H). now simplify_eq. }
  assert (Hbk : forall c, bucket (MkFutex (<[b := filter (fun t => t ∉ W) (bucket s b)]> (buckets s)) ts') c = filter (fun t => t ∉ W) (bucket s c)).
  { intros c. rewrite bucket_insert by (now rewrite (fo_length _ Hs)). case_decide as Hcb; [now subst c|]. fold (bucket s c).
    symmetry. apply filter_all. intros t Ht Hw. apply (fo_bucket _ Hs) in Ht as (x & Hx & _ & Hbx).
    destruct (HW' t x Hw Hx). congruence. }
  split; [split|].
  - cbn [buckets]. rewrite length_insert. apply (fo_length _ Hs).
  - intros c. rewrite Hbk. apply NoDup_filter, (fo_nodup _ Hs).
  - intros c t. rewrite Hbk, list_elem_of_filter, (fo_bucket _ Hs). cbn [ft_tasks]. rewrite (Hc t). case_decide as Ht.
    + split; [tauto|]. intros (x & Hx & Hbx & _). destruct (ft_tasks s !! t) as [y|] eqn:Hy; [|done]. injection Hx as <-.
      destruct (HW' t y Ht Hy) as [Hyb _]. destruct (Hf y Hyb) as [Hn _]. congruence.
    + split; [now intros [_ H]|now intros H].
  - intros t x. cbn [ft_tasks]. rewrite (Hc t). case_decide as Ht; [|apply (fo_task _ Hs)]. destruct (ft_tasks s !! t) as [y|] eqn:Hy; [|done].
    intros [= <-]. destruct (HW' t y Ht Hy) as [Hyb _]. apply (Hf y Hyb). now apply (fo_task _ Hs t).
  - intros a Ha. unfold waiting. rewrite Hbk. cbn [ft_tasks]. rewrite !list_filter_filter. apply filter_ext_in. intros t Hin. split.
    + intros [H1 H2]. split; [done|]. revert H1. unfold task_at. now rewrite (Hc t), decide_False.
    + intros [H1 H2]. split; [|done]. revert H2. unfold task_at. now rewrite (Hc t), decide_False.
Qed.

Lemma filter_take (l : list nat) n : NoDup l -> filter (fun t => t ∉ take n l) l = drop n l.
Proof.
  intros Hl. rewrite <- (take_drop n l) in Hl. apply NoDup_app in Hl as (_ & H & _). trans (filter (fun t => t ∉ take n l) (take n l ++ drop n l)); [now rewrite take_drop|]. rewrite filter_app.
  replace (filter (fun t => t ∉ take n l) (take n l)) with (@nil nat).
  - apply filter_all. intros t Ht Ht'. now apply (H t).
  - symmetry. apply elem_of_nil_inv. intros t [Hn Ht]%list_elem_of_filter. done.
Qed.

Lemma waiting_nodup s a : futex_ok s -> NoDup (waiting a s).
Proof. intros Hs. apply NoDup_filter, (fo_nodup _ Hs). Qed.

Lemma waiting_elem s a t : futex_ok s -> t ∈ waiting a s <-> exists x, ft_tasks s !! t = Some x /\ is_blocked x = true /\ futex_addr x = a.
Proof.
  intros Hs. unfold waiting. rewrite list_elem_of_filter, (fo_bucket _ Hs). split.
  - intros [Ha (x & Hx & H1 & H2)]. exists x. rewrite (task_at_lookup _ _ _ Hx) in Ha. done.
  - intros (x & Hx & H1 & H2). rewrite (task_at_lookup _ _ _ Hx). split; [done|]. exists x. split; [done|]. split; [done|]. now rewrite H2.
Qed.

Lemma futex_wake_ret s a n : futex_ok s -> exists s', futex_wake a n s = (length (take n (waiting a s)), s') /\ futex_ok s' /\
  changed (take n (waiting a s)) wake_task (ft_tasks s) (ft_tasks s') /\ (a <> 0 -> waiting a s' = drop n (waiting a s)) /\
  forall a', a' <> 0 -> a' <> a -> waiting a' s' = waiting a' s.
Proof.
  intros Hs. unfold futex_wake. destruct (n =? 0)%nat eqn:Hn.
  { apply Nat.eqb_eq in Hn as ->. exists s. split; [done|]. split; [done|]. split; [apply changed_nil|done]. }
  destruct (wake_queue_ret a n (bucket s (bucketOf a)) 0 (ft_tasks s) (fo_nodup _ Hs _) ltac:(lia)) as (ts' & -> & Hc).
  rewrite Nat.sub_0_r in *. fold (waiting a s) in *. cbn [Nat.add].
  assert (HW : forall t, t ∈ take n (waiting a s) -> t ∈ bucket s (bucketOf a)).
  { intros t (i & Hi%list_elem_of_lookup_2 & _)%elem_of_take. now apply list_elem_of_filter in Hi as [_ Hi]. }
  destruct (wake_set s (bucketOf a) _ wake_task ts' Hs wakes_wake (bucketOf_lt a) HW Hc) as [Hs' Hw'].
  eexists. split; [done|]. split; [done|]. split; [done|]. split.
  - intros Ha. rewrite Hw' by done. apply filter_take, waiting_nodup, Hs.
  - intros a' Ha' Hne. rewrite Hw' by done. apply filter_all. intros t Ht (i & Hi%list_elem_of_lookup_2 & _)%elem_of_take.
    apply waiting_elem in Ht as (x & Hx & _ & Hxa); [|done]. apply waiting_elem in Hi as (y & Hy & _ & Hya); [|done]. congruence.
Qed.

(** What [tick] does to a task. *)
Definition ticked (now_ms : Z) (bs : list nat) (x : FutexTask) : FutexTask :=
  if is_blocked x && expired now_ms x && bool_decide (bucketOf (futex_addr x) ∈ bs) then wakeFromBlocked 0 0 x else x.

Lemma ticked_not now_ms bs x : is_blocked x = false -> ticked now_ms bs x = x.
Proof. unfold ticked. now intros ->. Qed.

Lemma tick_bucket_ret now_ms s b : futex_ok s -> (b < 256)%nat -> futex_ok (tick_bucket now_ms s b) /\
  (forall t, ft_tasks (tick_bucket now_ms s b) !! t = ticked now_ms [b] <$> ft_tasks s !! t) /\
  forall a, a <> 0 -> exists P : nat -> bool, waiting a (tick_bucket now_ms s b) = filter (fun t => P t = true) (waiting a s).
Proof.
  intros Hs Hb. unfold tick_bucket. destruct (tick_queue_ret now_ms (bucket s b) (ft_tasks s) (fo_nodup _ Hs _)) as (ts' & -> & Hc).
  destruct (fun H => wake_set s b _ (wakeFromBlocked 0 0) ts' Hs wakes_tick Hb H Hc) as [Hs' Hw']; [now intros t [_ ?]%list_elem_of_filter|].
  split; [done|]. split.
  - intros t. cbn [ft_tasks]. rewrite (Hc t). destruct (ft_tasks s !! t) as [x|] eqn:Hx; [|now case_decide]. cbn [fmap option_fmap option_map]. unfold ticked.
    case_decide as Ht.
    + apply list_elem_of_filter in Ht as [He Ht]. apply (fo_bucket _ Hs) in Ht as (y & Hy & H1 & H2). simplify_eq.
      rewrite (task_at_lookup _ _ _ Hx) in He. rewrite H1, He. cbn [andb]. rewrite bool_decide_true by left. done.
    + destruct (is_blocked x) eqn:H1; [|done]. destruct (expired now_ms x) eqn:H2; [|done]. cbn [andb]. rewrite bool_decide_false; [done|].
      intros H3%list_elem_of_singleton. apply Ht. apply list_elem_of_filter. rewrite (task_at_lookup _ _ _ Hx). split; [done|].
      apply (fo_bucket _ Hs). eauto.
  - intros a Ha. rewrite Hw' by done. exists (fun t => bool_decide (t ∉ filter (fun t => expired now_ms (task_at (ft_tasks s) t) = true) (bucket s b))).
    apply filter_ext_in. intros t _. now rewrite bool_decide_eq_true.
Qed.

Lemma ticked_app now_ms b bs x : ticked now_ms bs (ticked now_ms [b] x) = ticked now_ms (b :: bs) x.
Proof.
  unfold ticked at 2 3. destruct (is_blocked x) eqn:H1; cbn [andb]; [|now apply ticked_not]. destruct (expired now_ms x) eqn:H2; cbn [andb]; [|unfold ticked; now rewrite H1, H2].
  destruct (decide (bucketOf (futex_addr x) = b)) as [H3|H3].
  - rewrite bool_decide_true, bool_decide_true by (rewrite H3; left). rewrite ticked_not; [done|]. now apply wakes_tick.
  - rewrite (bool_decide_false (_ ∈ [b])) by (now intros ?%list_elem_of_singleton). unfold ticked. rewrite H1, H2. cbn [andb].
    rewrite (bool_decide_ext (_ ∈ b :: bs) (bucketOf (futex_addr x) ∈ bs)); [done|]. rewrite elem_of_cons. tauto.
Qed.

Lemma tick_buckets_ret now_ms bs : forall s, futex_ok s -> (forall b, b ∈ bs -> (b < 256)%nat) -> futex_ok (foldl (tick_bucket now_ms) s bs) /\
  (forall t, ft_tasks (foldl (tick_bucket now_ms) s bs) !! t = ticked now_ms bs <$> ft_tasks s !! t) /\
  forall a, a <> 0 -> exists P : nat -> bool, waiting a (foldl (tick_bucket now_ms) s bs) = filter (fun t => P t = true) (waiting a s).
Proof.
  induction bs as [|b bs IH]; intros s Hs Hbs; cbn [foldl].
  - split; [done|]. split.
    + intros t. destruct (ft_tasks s !! t) as [x|]; [|done]. cbn [fmap option_fmap option_map]. unfold ticked. rewrite bool_decide_false by apply not_elem_of_nil.
      now rewrite andb_false_r.
    + intros a _. exists (fun _ => true). symmetry. now apply filter_all.
  - destruct (tick_bucket_ret now_ms s b Hs) as (Hs1 & Ht1 & Hw1); [apply Hbs; left|].
    destruct (IH _ Hs1) as (Hs2 & Ht2 & Hw2); [intros c Hc; apply Hbs; now right|]. split; [done|]. split.
    + intros t. rewrite Ht2, Ht1. destruct (ft_tasks s !! t) as [x|]; [|done]. cbn. f_equal. apply ticked_app.
    + intros a Ha. destruct (Hw1 a Ha) as [P HP]. destruct (Hw2 a Ha) as [Q HQ]. exists (fun t => Q t && P t). rewrite HQ, HP, list_filter_filter.
      apply filter_ext_in. intros t _. now rewrite andb_true_iff.
Qed.

(** ** The other operations *)

Lemma running_inv s t : running s t = true -> exists x, ft_tasks s !! t = Some x /\ ft_pc x = F_running.
Proof. unfold running. destruct (ft_tasks s !! t) as [x|]; [|done]. intros H. exists x. split; [done|]. now destruct (ft_pc x). Qed.

Lemma user_addr a : userBuffer a 4 = true -> a <> 0.
Proof.
  unfold userBuffer. cbn [Z.eqb]. destruct (u64 (a + 4) <? a); [done|]. intros [H _]%andb_true_iff. apply Z.leb_le in H. unfold user_base in H. lia.
Qed.

(** A task that is in no bucket changes and stays outside. *)
Lemma outside_ok s t x x' : futex_ok s -> ft_tasks s !! t = Some x -> is_blocked x = false -> is_blocked x' = false -> task_ok x' ->
  futex_ok (MkFutex (buckets s) (<[t := x']> (ft_tasks s))).
Proof.
  intros Hs Hx Hb Hb' Hok. split; [apply (fo_length _ Hs)|apply (fo_nodup _ Hs)| |].
  - intros b u. change (bucket (MkFutex _ _) b) with (bucket s b). rewrite (fo_bucket _ Hs). cbn [ft_tasks]. destruct (decide (u = t)) as [->|Hu].
    + rewrite list_lookup_insert_eq by (now apply lookup_lt_Some in Hx). split; intros (y & Hy & H1 & _); simplify_eq; congruence.
    + now rewrite list_lookup_insert_ne.
  - intros u y. cbn [ft_tasks]. destruct (decide (u = t)) as [->|Hu].
    + rewrite list_lookup_insert_eq by (now apply lookup_lt_Some in Hx). now intros [= <-].
    + rewrite list_lookup_insert_ne by done. apply (fo_task _ Hs).
Qed.

Lemma alter_insert_list {A} (f : A -> A) (l : list A) i x : l !! i = Some x -> alter f i l = <[i := f x]> l.
Proof. revert i. induction l as [|y l IH]; intros [|i] H; cbn in *; [done|done|congruence|]. f_equal. now apply IH. Qed.

Lemma resume_ok s t : futex_ok s -> futex_ok (MkFutex (buckets s) (alter resume t (ft_tasks s))).
Proof.
  intros Hs. destruct (ft_tasks s !! t) as [x|] eqn:Hx.
  - rewrite (alter_insert_list _ _ _ x Hx). destruct x as [p pc a d]. unfold resume. cbn [ft_pc ft_process futex_timeout_ms].
    destruct pc as [|b|b|]; try (rewrite list_insert_id by done; now destruct s).
    apply (outside_ok s t _ _ Hs Hx); [done|done|]. destruct (fo_task _ Hs _ _ Hx) as [_ H]. split; [now cbn|]. now destruct b.
  - replace (alter resume t (ft_tasks s)) with (ft_tasks s); [now destruct s|].
    apply list_eq. intros i. destruct (decide (i = t)) as [->|]; [now rewrite list_lookup_alter_eq, Hx|now rewrite list_lookup_alter_ne].
Qed.

(** A task that is in no bucket changes to one that is blocked, at the end of its bucket. *)
Lemma append_ret s t x x' : futex_ok s -> ft_tasks s !! t = Some x -> is_blocked x = false -> is_blocked x' = true -> task_ok x' ->
  let s' := MkFutex (alter (fun q => q ++ [t]) (bucketOf (futex_addr x')) (buckets s)) (<[t := x']> (ft_tasks s)) in
  futex_ok s' /\ waiting (futex_addr x') s' = waiting (futex_addr x') s ++ [t] /\ forall a', a' <> futex_addr x' -> a' <> 0 -> waiting a' s' = waiting a' s.
Proof.
  intros Hs Hx Hxb Hb Hok. cbv zeta. remember (futex_addr x') as a eqn:Ha. symmetry in Ha. pose proof (lookup_lt_Some _ _ _ Hx) as Hlt.
  assert (Hnb : forall b, t ∉ bucket s b) by (intros b (y & Hy & Hyb & _)%(fo_bucket _ Hs); simplify_eq; congruence).
  assert (Hbk : forall c, bucket (MkFutex (alter (fun q => q ++ [t]) (bucketOf a) (buckets s)) (<[t := x']> (ft_tasks s))) c =
    bucket s c ++ if decide (c = bucketOf a) then [t] else []).
  { intros c. rewrite bucket_alter by (rewrite (fo_length _ Hs); apply bucketOf_lt). case_decide as Hc; [now subst c|]. now rewrite app_nil_r. }
  assert (Hat : forall u, u <> t -> task_at (<[t := x']> (ft_tasks s)) u = task_at (ft_tasks s) u).
  { intros u Hne. unfold task_at. now rewrite list_lookup_insert_ne. }
  assert (Htt : task_at (<[t := x']> (ft_tasks s)) t = x') by (apply task_at_lookup; now apply list_lookup_insert_eq).
  assert (Hf : forall a' c, filter (fun u => futex_addr (task_at (<[t := x']> (ft_tasks s)) u) = a') (bucket s c) =
    filter (fun u => futex_addr (task_at (ft_tasks s) u) = a') (bucket s c)).
  { intros a' c. apply filter_ext_in. intros u Hin. rewrite Hat; [done|]. intros ->. now apply (Hnb c). }
  split; [split|split].
  - cbn [buckets]. rewrite length_alter. apply (fo_length _ Hs).
  - intros c. rewrite Hbk. apply NoDup_app. split; [apply (fo_nodup _ Hs)|]. case_decide; [|split; [now intros ? _ ?%elem_of_nil|constructor]].
    split; [|apply NoDup_singleton]. intros u Hin ->%list_elem_of_singleton. now apply (Hnb c).
  - intros c u. rewrite Hbk, elem_of_app, (fo_bucket _ Hs). cbn [ft_tasks]. destruct (decide (u = t)) as [->|Hne].
    + rewrite list_lookup_insert_eq by done. split.
      * intros [(y & Hy & Hyb & _)|Hin]; [simplify_eq; congruence|]. case_decide; [|now apply elem_of_nil in Hin].
        exists x'. rewrite Ha. now subst c.
      * intros (y & [= <-] & _ & Hc). right. rewrite Ha in Hc. rewrite decide_True by done. left.
    + rewrite list_lookup_insert_ne by done. split; [|tauto]. intros [H|H]; [done|]. case_decide; [now apply list_elem_of_singleton in H|now apply elem_of_nil in H].
  - intros u y. cbn [ft_tasks]. destruct (decide (u = t)) as [->|Hne]; [rewrite list_lookup_insert_eq by done; now intros [= <-]|].
    rewrite list_lookup_insert_ne by done. apply (fo_task _ Hs).
  - unfold waiting. rewrite Hbk, decide_True by done. cbn [ft_tasks]. rewrite filter_app, Hf. f_equal. rewrite filter_cons, Htt, decide_True by done. done.
  - intros a' Hne _. unfold waiting. rewrite Hbk. cbn [ft_tasks]. rewrite filter_app, Hf.
    replace (filter _ (if decide (bucketOf a' = bucketOf a) then [t] else [])) with (@nil nat); [apply app_nil_r|].
    case_decide; [|done]. rewrite filter_cons, Htt, decide_False; [done|congruence].
Qed.

Lemma wait_ret s t a e d w : futex_ok s -> running s t = true -> futex_ok (futex_wait t a e d w s) /\
  waiting a (futex_wait t a e d w s) = waiting a s ++ (if userBuffer a 4 && bool_decide (w = Some e) then [t] else []) /\
  forall a', a' <> a -> a' <> 0 -> waiting a' (futex_wait t a e d w s) = waiting a' s.
Proof.
  intros Hs Hr. unfold futex_wait. destruct (userBuffer a 4) eqn:Hu; cbn [negb andb]; [|now rewrite app_nil_r].
  destruct w as [v|]; [|rewrite bool_decide_false by done; now rewrite app_nil_r].
  destruct (v =? e) eqn:Hv; cbn [negb]; [|apply Z.eqb_neq in Hv; rewrite bool_decide_false by congruence; now rewrite app_nil_r].
  apply Z.eqb_eq in Hv as ->. rewrite bool_decide_true by done. apply user_addr in Hu. apply running_inv in Hr as (x & Hx & Hpc).
  rewrite (alter_insert_list _ _ _ x Hx).
  destruct (append_ret s t x (block_on a d x) Hs Hx) as (H1 & H2 & H3).
  - unfold is_blocked. now rewrite Hpc.
  - now destruct d.
  - destruct (fo_task _ Hs _ _ Hx) as [_ Ht]. rewrite Hpc in Ht. destruct d; (split; [now cbn|now cbn]).
  - replace (futex_addr (block_on a d x)) with a in * by now destruct d. done.
Qed.

Lemma cancel_ok s t : futex_ok s -> futex_ok (futex_cancel t s).
Proof.
  intros Hs. unfold futex_cancel. destruct (_ =? 0) eqn:Ha; [done|]. apply Z.eqb_neq in Ha. unfold task_at in *.
  destruct (ft_tasks s !! t) as [x|] eqn:Hx; [|now destruct Ha]. cbn [default from_option id] in *.
  assert (Hb : is_blocked x = true) by now apply (fo_task _ Hs t x Hx).
  assert (Hq : buckets s !! bucketOf (futex_addr x) = Some (bucket s (bucketOf (futex_addr x)))).
  { unfold bucket. destruct (lookup_lt_is_Some_2 (buckets s) (bucketOf (futex_addr x))) as [q Hq]; [rewrite (fo_length _ Hs); apply bucketOf_lt|]. now rewrite Hq. }
  rewrite (alter_insert_list _ _ _ _ Hq). rewrite (filter_ext_in (fun u => u <> t) (fun u => u ∉ [t])) by (intros u _; now rewrite list_elem_of_singleton).
  apply (wake_set s _ [t] cancel_task); [done| |apply bucketOf_lt| |].
  - intros y _. split; [done|]. split; [done|]. intros _. now split; cbn.
  - intros u ->%list_elem_of_singleton. apply (fo_bucket _ Hs). eauto.
  - apply changed_cons; [apply not_elem_of_nil|apply changed_nil].
Qed.

Definition futex_step (s s' : FutexState) : Prop := exists a, futex_next a s = Some s'.

Lemma tick_ret now_ms s : futex_ok s -> futex_ok (futex_tick now_ms s) /\
  (forall t x, ft_tasks s !! t = Some x -> ft_tasks (futex_tick now_ms s) !! t = Some (if is_blocked x && expired now_ms x then wakeFromBlocked 0 0 x else x)) /\
  forall a, a <> 0 -> exists P : nat -> bool, waiting a (futex_tick now_ms s) = filter (fun t => P t = true) (waiting a s).
Proof.
  intros Hs. destruct (tick_buckets_ret now_ms (seq 0 (Z.to_nat num_buckets)) s Hs) as (H1 & H2 & H3).
  { intros b Hb%elem_of_seq. change (Z.to_nat num_buckets) with 256%nat in Hb. lia. }
  split; [done|]. split; [|done]. intros t x Hx. unfold futex_tick. rewrite H2, Hx. cbn [fmap option_fmap option_map]. unfold ticked.
  rewrite (bool_decide_true (_ ∈ seq _ _)); [now rewrite andb_true_r|].
  apply elem_of_seq. change (Z.to_nat num_buckets) with 256%nat. pose proof (bucketOf_lt (futex_addr x)). lia.
Qed.

Lemma futex_step_ok s s' : futex_ok s -> futex_step s s' -> futex_ok s'.
Proof.
  intros Hs [[t a e d w|t|a n|now|t] H]; cbn [futex_next] in H.
  - destruct (running s t) eqn:Hr; [|done]. injection H as <-. now apply wait_ret.
  - injection H as <-. now apply resume_ok.
  - injection H as <-. now destruct (futex_wake_ret s a n Hs) as (s1 & -> & Hs1 & _).
  - apply (inj Some) in H as <-. now apply tick_ret.
  - injection H as <-. now apply cancel_ok.
Qed.

Lemma futex_init_ok processes : futex_ok (futex_init processes).
Proof.
  assert (Hb : forall b, bucket (futex_init processes) b = []).
  { intros b. unfold bucket. cbn [buckets futex_init]. destruct (replicate _ _ !! b) as [q|] eqn:E; [|done]. now apply lookup_replicate in E as [-> _]. }
  assert (Ht : forall t x, ft_tasks (futex_init processes) !! t = Some x -> ft_pc x = F_running /\ futex_addr x = 0 /\ futex_timeout_ms x = 0).
  { intros t x Hx. apply list_lookup_fmap_Some in Hx as (p & -> & _). done. }
  split.
  - reflexivity.
  - intros b. rewrite Hb. constructor.
  - intros b t. rewrite Hb. split; [now intros ?%elem_of_nil|]. intros (x & (Hx & _)%Ht & H & _). unfold is_blocked in H. now rewrite Hx in H.
  - intros t x (H1 & H2 & H3)%Ht. unfold task_ok, is_blocked. rewrite H1, H2. split; [now split|done].
Qed.

Lemma futex_reachable_ok processes s : rtc futex_step (futex_init processes) s -> futex_ok s.
Proof. apply (run_invariant futex_step futex_ok); [apply futex_step_ok|apply futex_init_ok]. Qed.


Definition futex_demo : list FutexAct := [A_wait 0 8192 7 None (Some 7); A_wait 1 8192 7 (Some 50) (Some 7); A_wait 2 8196 1 None (Some 1)].


(** The address of a futex is virtual and the bucket does not know the process: of two processes that
    each have a task waiting on the same address, the second wakes one task on its own
    futex; the call returns that one task was woken, but it is the task of the other process,
    and its own stays blocked. *)
Theorem futex_wakes_other_process : exists s s' x y,
  run_steps futex_next [A_wait 0 8192 0 None (Some 0); A_wait 1 8192 5 None (Some 5)] (futex_init [1; 2; 2]) = Some s /\
  futexWake 8192 1 s = inr (1, s') /\ ft_tasks s' !! 0%nat = Some x /\ ft_process x = 1 /\ ft_pc x = F_woken false /\
  ft_tasks s' !! 1%nat = Some y /\ ft_process y = 2 /\ ft_pc y = F_blocked false.
Proof. eexists _, _, _, _. repeat (split; [vm_compute; reflexivity|]). vm_compute. reflexivity. Qed.
