(* ===== verification/Capabilities.v ===== *)
(** * Capability tables

    [src/src/innigkeit/capabilities/CapabilityTable.zig], [Slot.zig], [Rights.zig] and
    [ObjectType.zig], and the system calls on them of
    [user/handlers/capabilities.zig].  Every process has a table of slots; a free slot
    holds the index of the next one; a used slot points to a kernel object, which has
    a count of references and a generation.  A slot is revoked when its generation is
    not the object's.

    A computation returns, fails with an error, or has no outcome: it used a pointer
    to an object that is not there, or reached [unreachable]. *)

From S2P Require Import Prelude Machine Handlers.

(** ** Data *)

Inductive ObjectType := cap_null | cap_frame | cap_notify | cap_endpoint | cap_reply | cap_secure_vault | cap_gpu_buffer | cap_net_socket.
#[export] Instance ObjectType_eq : EqDecision ObjectType.
Proof. solve_decision. Defined.

(** [Rights] is a packed [u16]: the bits are read, write, grant and revoke. *)
Definition right_read (r : Z) : bool := Z.testbit r 0.
Definition right_write (r : Z) : bool := Z.testbit r 1.
Definition right_grant (r : Z) : bool := Z.testbit r 2.
Definition right_revoke (r : Z) : bool := Z.testbit r 3.
Definition rights_all : Z := 15.
Definition rights_write_only : Z := 2.

Record Slot := { ptr_or_next : Z; slot_type : ObjectType; slot_rights : Z; slot_generation : Z }.
Record CapabilityTable := { slots : list Slot; free_head : Z }.

Definition cap_count : Z := 256.
Definition null_idx : Z := 2 ^ 32 - 1.

(** What the tables need of an object. *)
Record KObject := { obj_generation : Z; obj_refcount : Z }.

Record CapState := { tables : list CapabilityTable; objects : gmap Z KObject }.

Inductive CapError := CapNotFound | CapFull | CapRightsEscalation | CapNoRevokeRight.

(** ** Computations *)

Definition CM (E A : Type) : Type := CapState -> option (CapState * (E + A)).

Definition cap_ret {E A} (a : A) : CM E A := fun s => Some (s, inr a).
Definition cap_bind {E A B} (m : CM E A) (k : A -> CM E B) : CM E B := fun s =>
  match m s with
  | Some (s', inr a) => k a s'
  | Some (s', inl e) => Some (s', inl e)
  | None => None
  end.
Definition cap_fail {E A} (e : E) : CM E A := fun s => Some (s, inl e).
Definition cap_stuck {E A} : CM E A := fun _ => None.

(** [m catch |e| h e]. *)
Definition cap_catch {E F A} (m : CM E A) (h : E -> CM F A) : CM F A := fun s =>
  match m s with
  | Some (s', inr a) => Some (s', inr a)
  | Some (s', inl e) => h e s'
  | None => None
  end.

(** The outcome as a value, for a [defer]. *)
Definition cap_attempt {E F A} (m : CM E A) : CM F (E + A) := fun s =>
  match m s with Some (s', r) => Some (s', inr r) | None => None end.

Notation "x <-- m ; k" := (cap_bind m (fun x => k)) (at level 20, m at level 100, k at level 200, right associativity).
Notation "m >>- k" := (cap_bind m (fun _ => k)) (at level 20, k at level 200, right associativity).

Definition get_table {E} (t : nat) : CM E CapabilityTable := fun s => match tables s !! t with Some tb => Some (s, inr tb) | None => None end.
Definition put_table {E} (t : nat) (tb : CapabilityTable) : CM E unit := fun s =>
  Some ({| tables := <[t := tb]> (tables s); objects := objects s |}, inr tt).
Definition get_object {E} (p : Z) : CM E KObject := fun s => match objects s !! p with Some o => Some (s, inr o) | None => None end.
Definition put_object {E} (p : Z) (o : KObject) : CM E unit := fun s => Some ({| tables := tables s; objects := <[p := o]> (objects s) |}, inr tt).
Definition drop_object {E} (p : Z) : CM E unit := fun s => Some ({| tables := tables s; objects := delete p (objects s) |}, inr tt).

(** ** Objects *)

Definition objectGeneration {E} (ty : ObjectType) (p : Z) : CM E Z :=
  match ty with cap_null => cap_stuck | _ => o <-- get_object p; cap_ret (obj_generation o) end.

Definition incrementObjectGeneration {E} (ty : ObjectType) (p : Z) : CM E unit :=
  match ty with
  | cap_null => cap_stuck
  | _ => o <-- get_object p; put_object p {| obj_generation := u32 (obj_generation o + 1); obj_refcount := obj_refcount o |}
  end.

Definition refObject {E} (ty : ObjectType) (p : Z) : CM E unit :=
  match ty with
  | cap_null => cap_stuck
  | _ => o <-- get_object p; put_object p {| obj_generation := obj_generation o; obj_refcount := u64 (obj_refcount o + 1) |}
  end.

(** The last reference destroys the object. *)
Definition unrefObject {E} (ty : ObjectType) (p : Z) : CM E unit :=
  match ty with
  | cap_null => cap_stuck
  | _ =>
      o <-- get_object p;
      if obj_refcount o =? 1 then drop_object p
      else put_object p {| obj_generation := obj_generation o; obj_refcount := u64 (obj_refcount o - 1) |}
  end.

(** ** The table *)

Definition init_slot (i : nat) : Slot :=
  {| ptr_or_next := if Z.of_nat i + 1 <? cap_count then Z.of_nat i + 1 else null_idx; slot_type := cap_null; slot_rights := 0; slot_generation := 0 |}.
Definition table_init : CapabilityTable := {| slots := init_slot <$> seq 0 (Z.to_nat cap_count); free_head := 0 |}.

Definition insertLocked (t : nat) (ty : ObjectType) (p r : Z) : CM CapError Z :=
  tb <-- get_table t;
  let idx := free_head tb in
  if cap_count <=? idx then cap_fail CapFull
  else
    match slots tb !! Z.to_nat idx with
    | None => cap_stuck
    | Some slot =>
        if 2 ^ 32 <=? ptr_or_next slot then cap_stuck
        else
          g <-- objectGeneration ty p;
          put_table t {| slots := <[Z.to_nat idx := {| ptr_or_next := p; slot_type := ty; slot_rights := r; slot_generation := g |}]> (slots tb);
                         free_head := ptr_or_next slot |} >>-
          cap_ret idx
    end.

Definition getLocked {E} (t : nat) (idx : Z) : CM E (option Slot) :=
  tb <-- get_table t;
  if cap_count <=? idx then cap_ret None
  else
    match slots tb !! Z.to_nat idx with
    | None => cap_stuck
    | Some slot => cap_ret (if decide (slot_type slot = cap_null) then None else Some slot)
    end.

Record SlotInfo := { si_type : ObjectType; si_ptr : Z; si_rights : Z }.

Definition getAndRefLocked {E} (t : nat) (idx : Z) : CM E (option SlotInfo) :=
  o <-- getLocked t idx;
  match o with
  | None => cap_ret None
  | Some slot =>
      let p := ptr_or_next slot in
      g <-- objectGeneration (slot_type slot) p;
      if slot_generation slot =? g then
        refObject (slot_type slot) p >>- cap_ret (Some {| si_type := slot_type slot; si_ptr := p; si_rights := slot_rights slot |})
      else cap_ret None
  end.

Definition rightsSubset (sub sup : Z) : bool := Z.land sub sup =? sub.

Definition copyLocked (t : nat) (src_idx new_rights : Z) : CM CapError Z :=
  o <-- getAndRefLocked t src_idx;
  match o with
  | None => cap_fail CapNotFound
  | Some src =>
      if rightsSubset new_rights (si_rights src) then
        cap_catch (insertLocked t (si_type src) (si_ptr src) new_rights) (fun e => unrefObject (si_type src) (si_ptr src) >>- cap_fail e)
      else unrefObject (si_type src) (si_ptr src) >>- cap_fail CapRightsEscalation
  end.

(** The slot is put at the head of the free list; the source clears its rights in
    [removeLocked] and not in [deinitAll]. *)
Definition free_slot (i : Z) (rights : Z) (slot : Slot) (tb : CapabilityTable) : CapabilityTable :=
  {| slots := <[Z.to_nat i := {| ptr_or_next := free_head tb; slot_type := cap_null; slot_rights := rights; slot_generation := slot_generation slot |}]> (slots tb);
     free_head := i |}.

Definition removeLocked (t : nat) (idx : Z) : CM CapError unit :=
  tb <-- get_table t;
  if cap_count <=? idx then cap_fail CapNotFound
  else
    match slots tb !! Z.to_nat idx with
    | None => cap_stuck
    | Some slot =>
        if decide (slot_type slot = cap_null) then cap_fail CapNotFound
        else put_table t (free_slot idx 0 slot tb) >>- unrefObject (slot_type slot) (ptr_or_next slot)
    end.

Fixpoint deinit_from (t : nat) (i n : nat) : CM CapError unit :=
  match n with
  | O => cap_ret tt
  | S n' =>
      tb <-- get_table t;
      match slots tb !! i with
      | None => cap_stuck
      | Some slot =>
          (if decide (slot_type slot = cap_null) then cap_ret tt
           else put_table t (free_slot (Z.of_nat i) (slot_rights slot) slot tb) >>- unrefObject (slot_type slot) (ptr_or_next slot)) >>-
          deinit_from t (S i) n'
      end
  end.
Definition deinitAll (t : nat) : CM CapError unit := deinit_from t 0 (Z.to_nat cap_count).

Definition revokeLocked (t : nat) (idx : Z) : CM CapError unit :=
  o <-- getLocked t idx;
  match o with
  | None => cap_fail CapNotFound
  | Some slot =>
      if right_revoke (slot_rights slot) then incrementObjectGeneration (slot_type slot) (ptr_or_next slot)
      else cap_fail CapNoRevokeRight
  end.

(** [transferCaps] for one handle of the message, and for all of them. *)
Definition transfer_one (src dst : nat) (handle : Z) : CM CapError Z :=
  if handle =? 0 then cap_ret handle
  else
    o <-- getAndRefLocked src handle;
    match o with
    | None => cap_ret 0
    | Some info =>
        if right_grant (si_rights info) then
          cap_catch (insertLocked dst (si_type info) (si_ptr info) (si_rights info)) (fun _ => unrefObject (si_type info) (si_ptr info) >>- cap_ret 0)
        else unrefObject (si_type info) (si_ptr info) >>- cap_ret 0
    end.

Fixpoint transferCaps (src dst : nat) (caps : list Z) : CM CapError (list Z) :=
  match caps with
  | [] => cap_ret []
  | h :: caps' => h' <-- transfer_one src dst h; hs <-- transferCaps src dst caps'; cap_ret (h' :: hs)
  end.

(** ** The system calls *)

Definition cap_error (e : CapError) : Error :=
  match e with CapNotFound => BadHandle | CapFull => OutOfMemory | CapRightsEscalation | CapNoRevokeRight => PermissionDenied end.

Definition capCopy (t : nat) (handle rights : Z) : CM Error Z :=
  cap_catch (copyLocked t handle (rights mod 2 ^ 16)) (fun e => cap_fail (cap_error e)).

Definition capMove (t : nat) (handle : Z) : CM Error Z :=
  o <-- getLocked t handle;
  match o with
  | None => cap_fail BadHandle
  | Some slot =>
      new_idx <-- cap_catch (copyLocked t handle (slot_rights slot))
                    (fun e => match e with CapRightsEscalation => cap_stuck | _ => cap_fail (cap_error e) end);
      cap_catch (removeLocked t handle) (fun _ => cap_stuck) >>- cap_ret new_idx
  end.

Definition capDelete (t : nat) (handle : Z) : CM Error Z :=
  cap_catch (removeLocked t handle) (fun _ => cap_fail BadHandle) >>- cap_ret 0.

Definition capRevoke (t : nat) (handle : Z) : CM Error Z :=
  cap_catch (revokeLocked t handle) (fun e => cap_fail (cap_error e)) >>- cap_ret 0.

Definition ObjectType_of (raw : Z) : option ObjectType :=
  if raw =? 0 then Some cap_null else if raw =? 1 then Some cap_frame else if raw =? 2 then Some cap_notify
  else if raw =? 3 then Some cap_endpoint else if raw =? 4 then Some cap_reply else if raw =? 5 then Some cap_secure_vault
  else if raw =? 6 then Some cap_gpu_buffer else if raw =? 7 then Some cap_net_socket else None.

(** [create] of the object's type: the kernel heap gives an address, or none. *)
Definition create_object (answer : option Z) : CM Error Z :=
  match answer with
  | None => cap_fail OutOfMemory
  | Some p => put_object p {| obj_generation := 0; obj_refcount := 1 |} >>- cap_ret p
  end.

Definition create_and_insert (t : nat) (ty : ObjectType) (rights : Z) (answer : option Z) : CM Error Z :=
  p <-- create_object answer;
  cap_catch (insertLocked t ty p rights) (fun _ => unrefObject ty p >>- cap_fail OutOfMemory).

(** [entitled] is the process' entitlement for the type. *)
Definition capCreate (t : nat) (type_raw page_count : Z) (entitled : bool) (answer : option Z) : CM Error Z :=
  match ObjectType_of (type_raw mod 2 ^ 8) with
  | None | Some cap_null | Some cap_reply | Some cap_net_socket => cap_fail InvalidArgument
  | Some cap_notify => create_and_insert t cap_notify rights_all answer
  | Some cap_endpoint => create_and_insert t cap_endpoint rights_all answer
  | Some cap_frame => create_and_insert t cap_frame rights_all answer
  | Some cap_secure_vault => if entitled then create_and_insert t cap_secure_vault rights_all answer else cap_fail PermissionDenied
  | Some cap_gpu_buffer =>
      if entitled then if page_count =? 0 then cap_fail InvalidArgument else create_and_insert t cap_gpu_buffer rights_all answer
      else cap_fail PermissionDenied
  end.

(** [capInvoke] with the operation [recv_call] of an endpoint, when the sender waits for an
    answer: a reply object for it is put into the table of the receiver. *)
Definition recv_call_reply (t : nat) (answer : option Z) : CM Error Z := create_and_insert t cap_reply rights_write_only answer.

(** [capInvoke] with the operation [clone] of a frame: the look-up, with the table's
    lock; then, the lock having been released, the checks and the new slot.  What the
    operations of the other types do to their objects is in Ipc.v; they leave tables and counts as
    they are, and here they are answered as an operation number the type does not have. *)
Definition clone_lookup (t : nat) (handle : Z) : CM Error SlotInfo :=
  o <-- getAndRefLocked t handle;
  match o with None => cap_fail BadHandle | Some info => cap_ret info end.

Definition clone_slot (t : nat) (info : SlotInfo) : CM Error Z :=
  if decide (si_type info = cap_frame) then
    if right_grant (si_rights info) then
      refObject cap_frame (si_ptr info) >>-
      cap_catch (insertLocked t cap_frame (si_ptr info) (si_rights info)) (fun _ => unrefObject cap_frame (si_ptr info) >>- cap_fail OutOfMemory)
    else cap_fail PermissionDenied
  else cap_fail InvalidArgument.

(** The reference of the look-up is dropped on every path. *)
Definition clone_insert (t : nat) (info : SlotInfo) : CM Error Z :=
  r <-- cap_attempt (clone_slot t info);
  unrefObject (si_type info) (si_ptr info) >>-
  match r with inl e => cap_fail e | inr idx => cap_ret idx end.

Definition frame_clone (t : nat) (handle : Z) : CM Error Z := info <-- clone_lookup t handle; clone_insert t info.

(** A process calls, sends handles to another process, or exits. *)
Inductive CapOp :=
| OpCopy (t : nat) (handle rights : Z)
| OpMove (t : nat) (handle : Z)
| OpDelete (t : nat) (handle : Z)
| OpRevoke (t : nat) (handle : Z)
| OpCreate (t : nat) (type_raw page_count : Z) (entitled : bool) (answer : option Z)
| OpClone (t : nat) (handle : Z)
| OpReply (t : nat) (answer : option Z)
| OpTransfer (src dst : nat) (caps : list Z)
| OpExit (t : nat).

Definition outcome_state {E A} (r : option (CapState * (E + A))) : option CapState := fst <$> r.

Definition cap_exec (op : CapOp) (s : CapState) : option CapState :=
  match op with
  | OpCopy t h r => outcome_state (capCopy t h r s)
  | OpMove t h => outcome_state (capMove t h s)
  | OpDelete t h => outcome_state (capDelete t h s)
  | OpRevoke t h => outcome_state (capRevoke t h s)
  | OpCreate t ty n e a => outcome_state (capCreate t ty n e a s)
  | OpClone t h => outcome_state (frame_clone t h s)
  | OpReply t a => outcome_state (recv_call_reply t a s)
  | OpTransfer src dst caps => outcome_state (transferCaps src dst caps s)
  | OpExit t => outcome_state (deinitAll t s)
  end.

Definition cap_init (n : nat) : CapState := {| tables := replicate n table_init; objects := ∅ |}.
