(* ===== verification/CapabilitiesCorrect.v ===== *)
(** * The capability tables are correct

    The free slots of a table are a list without repetitions; the count of references
    of an object is the number of slots that point to it plus those a computation
    holds.  Every operation keeps this and has an outcome: no object is used after it
    was destroyed, destroyed while a slot points to it, or kept without a reference.
    On top of it: no operation gives a process a right to an object that no process
    had, and a revoked object cannot be reached again. *)

From S2P Require Import Prelude Machine Tasks Handlers Capabilities.

(** ** Running computations *)

Lemma bind_done {E A B} (m : CM E A) (k : A -> CM E B) s s' a : m s = Some (s', inr a) -> cap_bind m k s = k a s'.
Proof. unfold cap_bind. now intros ->. Qed.
Lemma bind_fail {E A B} (m : CM E A) (k : A -> CM E B) s s' e : m s = Some (s', inl e) -> cap_bind m k s = Some (s', inl e).
Proof. unfold cap_bind. now intros ->. Qed.
Lemma catch_done {E F A} (m : CM E A) (h : E -> CM F A) s s' a : m s = Some (s', inr a) -> cap_catch m h s = Some (s', inr a).
Proof. unfold cap_catch. now intros ->. Qed.
Lemma catch_fail {E F A} (m : CM E A) (h : E -> CM F A) s s' e : m s = Some (s', inl e) -> cap_catch m h s = h e s'.
Proof. unfold cap_catch. now intros ->. Qed.

(** ** Counting references *)

Definition used (x : Slot) : bool := negb (bool_decide (slot_type x = cap_null)).
Definition slot_ref (p : Z) (x : Slot) : Z := if used x && (ptr_or_next x =? p) then 1 else 0.
Definition table_refs (p : Z) (tb : CapabilityTable) : Z := total (slot_ref p) (slots tb).
Definition refs (p : Z) (s : CapState) : Z := total (table_refs p) (tables s).

Lemma slot_ref_range p x : 0 <= slot_ref p x <= 1.
Proof. unfold slot_ref. case_match; lia. Qed.

Lemma table_refs_nonneg p tb : 0 <= table_refs p tb.
Proof. apply total_nonneg. intros x. apply slot_ref_range. Qed.

Lemma refs_nonneg p s : 0 <= refs p s.
Proof. apply total_nonneg. intros tb. apply table_refs_nonneg. Qed.

Lemma used_ref p x : used x = true -> ptr_or_next x = p -> slot_ref p x = 1.
Proof. intros Hu <-. unfold slot_ref. now rewrite Hu, Z.eqb_refl. Qed.

(** A used slot is one of the references. *)
Lemma refs_slot s t tb i x : tables s !! t = Some tb -> slots tb !! i = Some x -> used x = true -> 1 <= refs (ptr_or_next x) s.
Proof.
  intros Ht Hi Hu. pose proof (total_elem (table_refs (ptr_or_next x)) _ _ _ (table_refs_nonneg _) Ht) as H1.
  pose proof (total_elem (slot_ref (ptr_or_next x)) _ _ _ (fun x' => proj1 (slot_ref_range _ x')) Hi) as H2. rewrite (used_ref _ _ Hu eq_refl) in H2.
  unfold refs, table_refs in *. lia.
Qed.

Lemma refs_put s t tb tb' p : tables s !! t = Some tb ->
  refs p {| tables := <[t := tb']> (tables s); objects := objects s |} = refs p s - table_refs p tb + table_refs p tb'.
Proof. intros Ht. unfold refs. cbn. now apply total_insert. Qed.

Lemma table_refs_set p tb i x x' h : slots tb !! i = Some x ->
  table_refs p {| slots := <[i := x']> (slots tb); free_head := h |} = table_refs p tb - slot_ref p x + slot_ref p x'.
Proof. intros Hi. unfold table_refs. cbn. now apply total_insert. Qed.

(** ** Well-formed tables *)

Fixpoint chain (l : list Slot) (head : Z) (fl : list nat) : Prop :=
  match fl with
  | [] => cap_count <= head < 2 ^ 32
  | i :: fl' => head = Z.of_nat i /\ exists x, l !! i = Some x /\ used x = false /\ chain l (ptr_or_next x) fl'
  end.

Definition table_ok (tb : CapabilityTable) : Prop :=
  length (slots tb) = 256%nat /\
  exists fl, NoDup fl /\ chain (slots tb) (free_head tb) fl /\ forall i x, slots tb !! i = Some x -> used x = false -> i ∈ fl.

Lemma chain_insert l head fl i x : i ∉ fl -> chain l head fl -> chain (<[i := x]> l) head fl.
Proof.
  revert head. induction fl as [|j fl IH]; intros head Hn Hc; [done|]. destruct Hc as (Hh & y & Hy & Hu & Hc).
  rewrite not_elem_of_cons in Hn. split; [done|]. exists y. rewrite list_lookup_insert_ne by tauto. split; [done|]. split; [done|]. apply IH; tauto.
Qed.

Lemma chain_used l head fl i x : chain l head fl -> l !! i = Some x -> used x = true -> i ∉ fl.
Proof.
  revert head. induction fl as [|j fl IH]; intros head Hc Hi Hu; [set_solver|]. destruct Hc as (_ & y & Hy & Hy' & Hc).
  rewrite not_elem_of_cons. split; [congruence|now apply (IH (ptr_or_next y))].
Qed.

Lemma chain_lt l head fl i : chain l head fl -> i ∈ fl -> (i < length l)%nat.
Proof.
  revert head. induction fl as [|j fl IH]; intros head Hc Hi; [set_solver|]. destruct Hc as (_ & y & Hy & _ & Hc).
  apply elem_of_cons in Hi as [->|Hi]; [now apply lookup_lt_Some in Hy|now apply (IH (ptr_or_next y))].
Qed.

(** The head of the list of a table that is not full, and what taking it leaves. *)
Lemma table_take tb x' : table_ok tb -> used x' = true -> free_head tb < cap_count -> exists i x,
  free_head tb = Z.of_nat i /\ slots tb !! i = Some x /\ used x = false /\ 0 <= ptr_or_next x < 2 ^ 32 /\
  table_ok {| slots := <[i := x']> (slots tb); free_head := ptr_or_next x |}.
Proof.
  intros (Hl & fl & Hnd & Hc & Hall) Hu Hh. destruct fl as [|i fl]; cbn [chain] in Hc; [lia|]. destruct Hc as (Hi & x & Hx & Hux & Hc).
  exists i, x. apply NoDup_cons in Hnd as [Hni Hnd]. split_and!; try done.
  - destruct fl as [|j fl]; cbn in Hc; [unfold cap_count in *; lia|]. destruct Hc as [-> _]. lia.
  - destruct fl as [|j fl]; cbn in Hc; [lia|]. destruct Hc as (-> & y & Hy & _). apply lookup_lt_Some in Hy. lia.
  - split; [cbn; now rewrite length_insert|]. exists fl. split_and!; [done|cbn; now apply chain_insert|]. cbn. intros j y Hj Huy.
    apply list_lookup_insert_Some in Hj as [(-> & -> & _)|(Hne & Hj)]; [congruence|]. specialize (Hall j y Hj Huy). apply elem_of_cons in Hall as [->|]; [done|done].
Qed.

(** A used slot is freed. *)
Lemma table_free tb i x r : table_ok tb -> slots tb !! i = Some x -> used x = true -> table_ok (free_slot (Z.of_nat i) r x tb).
Proof.
  intros (Hl & fl & Hnd & Hc & Hall) Hi Hu. pose proof (lookup_lt_Some _ _ _ Hi) as Hlt. pose proof (chain_used _ _ _ _ _ Hc Hi Hu) as Hni.
  unfold free_slot. rewrite Nat2Z.id. split; [cbn; now rewrite length_insert|]. exists (i :: fl). split_and!; cbn.
  - now apply NoDup_cons.
  - split; [done|]. eexists. rewrite list_lookup_insert_eq by done. split; [done|]. split; [done|]. cbn. now apply chain_insert.
  - intros j y Hj Huy. apply list_lookup_insert_Some in Hj as [(<- & _)|(Hne & Hj)]; [left|right; eauto].
Qed.

Lemma init_chain l n i : l = init_slot <$> seq 0 256 -> (i + n = 256)%nat -> (0 < n)%nat -> chain l (Z.of_nat i) (seq i n).
Proof.
  intros El. revert i. induction n as [|n IH]; intros i Hin Hn; [lia|]. cbn [seq chain]. split; [done|]. exists (init_slot i). split_and!.
  - rewrite El, list_lookup_fmap, lookup_seq_lt by lia. done.
  - done.
  - unfold init_slot. cbn [ptr_or_next]. unfold cap_count. destruct (Z.ltb_spec (Z.of_nat i + 1) 256).
    + replace (Z.of_nat i + 1) with (Z.of_nat (S i)) by lia. apply IH; lia.
    + destruct n; [|lia]. cbn. unfold cap_count, null_idx. lia.
Qed.

Lemma table_init_ok : table_ok table_init.
Proof.
  split; [done|]. exists (seq 0 256). split_and!; [apply NoDup_seq|apply (init_chain _ 256 0); [done|lia|lia]|].
  intros i x Hi _. apply lookup_lt_Some in Hi. unfold table_init in Hi. cbn [slots] in Hi. rewrite length_fmap, length_seq in Hi. apply elem_of_seq.
  change (Z.to_nat cap_count) with 256%nat in Hi. lia.
Qed.

Lemma table_init_refs p : table_refs p table_init = 0.
Proof.
  unfold table_refs, table_init. cbn [slots]. generalize (seq 0 (Z.to_nat cap_count)). intros l. induction l as [|i l IH]; [done|].
  change (slot_ref p (init_slot i) + total (slot_ref p) (init_slot <$> l) = 0). rewrite IH. done.
Qed.

(** ** The invariant *)

Definition all_slots (Phi : Slot -> Prop) (s : CapState) : Prop :=
  forall t tb i x, tables s !! t = Some tb -> slots tb !! i = Some x -> used x = true -> Phi x.

(** [ext p] references to [p] are held outside the tables. *)
Record cap_inv (ext : Z -> Z) (s : CapState) : Prop := {
  ci_few : Zlen (tables s) <= 2 ^ 32;
  ci_tables : Forall table_ok (tables s);
  ci_ext : forall p, 0 <= ext p <= 2 ^ 32;
  ci_objects : forall p o, objects s !! p = Some o -> obj_refcount o = refs p s + ext p /\ 1 <= obj_refcount o /\ 0 <= obj_generation o < 2 ^ 32;
  ci_gone : forall p, objects s !! p = None -> refs p s + ext p = 0
}.

Definition plus (ext : Z -> Z) (p n : Z) : Z -> Z := fun q => if q =? p then ext q + n else ext q.

Lemma total_bound {A} (f : A -> Z) (l : list A) c : (forall x, x ∈ l -> f x <= c) -> total f l <= c * Zlen l.
Proof.
  unfold Zlen. induction l as [|x l IH]; intros H; cbn [total foldr length]; [lia|]. assert (f x <= c) by (apply H; left).
  assert (total f l <= c * Z.of_nat (length l)) by (apply IH; intros y Hy; apply H; now right). unfold total in *. nia.
Qed.

Lemma refs_bound ext s p : cap_inv ext s -> refs p s <= 2 ^ 40.
Proof.
  intros Hi. assert (refs p s <= 256 * Zlen (tables s)) as H.
  { apply total_bound. intros tb Htb. pose proof (ci_tables _ _ Hi) as Hf. rewrite Forall_forall in Hf. destruct (Hf tb Htb) as [Hl _].
    pose proof (total_length (slot_ref p) (slots tb) (fun x => proj2 (slot_ref_range p x))) as H. unfold table_refs, Zlen in *. lia. }
  pose proof (ci_few _ _ Hi). lia.
Qed.

Lemma refcount_range ext s p o : cap_inv ext s -> objects s !! p = Some o -> 1 <= obj_refcount o <= 2 ^ 40 + 2 ^ 32.
Proof. intros Hi Ho. destruct (ci_objects _ _ Hi p o Ho) as (H1 & H2 & _). pose proof (refs_bound _ _ p Hi). pose proof (ci_ext _ _ Hi p). lia. Qed.

Lemma cap_inv_ext ext ext' s : (forall p, ext p = ext' p) -> cap_inv ext s -> cap_inv ext' s.
Proof.
  intros E [H1 H2 H3 H4 H5]. constructor; try done; intros p; [rewrite <- E; apply H3|intros o Ho; rewrite <- E; now apply H4|rewrite <- E; apply H5].
Qed.

Lemma plus_undo ext p n q : plus (plus ext p n) p (- n) q = ext q.
Proof. unfold plus. case_match; lia. Qed.

(** A change of the objects at one address. *)
Lemma put_inv ext s p o n : cap_inv ext s -> obj_refcount o = refs p s + ext p + n -> 1 <= obj_refcount o -> 0 <= obj_generation o < 2 ^ 32 ->
  0 <= ext p + n <= 2 ^ 32 -> cap_inv (plus ext p n) {| tables := tables s; objects := <[p := o]> (objects s) |}.
Proof.
  intros [H1 H2 H3 H4 H5] Ho Ho1 Ho2 Hn. constructor; cbn [tables objects]; try done; unfold plus; intros q.
  - destruct (Z.eqb_spec q p) as [->|]; [done|apply H3].
  - intros o' Hq. change (refs q {| tables := tables s; objects := <[p:=o]> (objects s) |}) with (refs q s). destruct (Z.eqb_spec q p) as [->|Hne].
    + rewrite lookup_insert_eq in Hq. injection Hq as <-. lia.
    + rewrite lookup_insert_ne in Hq by done. now apply H4.
  - change (refs q {| tables := tables s; objects := <[p:=o]> (objects s) |}) with (refs q s). destruct (Z.eqb_spec q p) as [->|Hne].
    + now rewrite lookup_insert_eq.
    + rewrite lookup_insert_ne by done. apply H5.
Qed.

Lemma drop_inv' ext s p o : cap_inv ext s -> objects s !! p = Some o -> obj_refcount o = 1 -> 1 <= ext p ->
  cap_inv (plus ext p (-1)) {| tables := tables s; objects := delete p (objects s) |}.
Proof.
  intros Hi Ho Ho1 Hn. pose proof (refs_nonneg p s) as Hr. destruct Hi as [H1 H2 H3 H4 H5]. constructor; cbn [tables objects]; try done; unfold plus; intros q.
  - specialize (H3 q). destruct (Z.eqb_spec q p) as [->|]; lia.
  - intros o' Hq. change (refs q {| tables := tables s; objects := delete p (objects s) |}) with (refs q s).
    apply lookup_delete_Some in Hq as [Hne Hq]. destruct (Z.eqb_spec q p) as [->|]; [done|]. now apply H4.
  - change (refs q {| tables := tables s; objects := delete p (objects s) |}) with (refs q s). intros Hq. destruct (Z.eqb_spec q p) as [->|Hne].
    + destruct (H4 p o Ho). lia.
    + rewrite lookup_delete_ne in Hq by done. now apply H5.
Qed.

(** A change of one table. *)
Lemma table_inv ext s t tb tb' p n : cap_inv ext s -> tables s !! t = Some tb -> table_ok tb' ->
  (forall q, table_refs q tb' = table_refs q tb + if q =? p then n else 0) -> 0 <= ext p - n <= 2 ^ 32 ->
  cap_inv (plus ext p (- n)) {| tables := <[t := tb']> (tables s); objects := objects s |}.
Proof.
  intros [H1 H2 H3 H4 H5] Ht Hok Hd Hn. constructor; cbn [tables objects].
  - unfold Zlen in *. now rewrite length_insert.
  - now apply Forall_insert.
  - intros q. specialize (H3 q). unfold plus. destruct (Z.eqb_spec q p) as [->|]; lia.
  - intros q o Hq. rewrite (refs_put s t tb tb' q Ht), Hd. destruct (H4 q o Hq) as (E1 & E2 & E3). unfold plus. destruct (Z.eqb_spec q p) as [->|]; lia.
  - intros q Hq. rewrite (refs_put s t tb tb' q Ht), Hd. specialize (H5 q Hq). unfold plus. destruct (Z.eqb_spec q p) as [->|]; lia.
Qed.

(** ** The operations

    Besides the invariant, a property [Phi] of the used slots and one [Gam] of the
    objects are kept, when [Gam] does not depend on the counts and [Phi] passes to slots with fewer
    rights made from a slot that is not revoked. *)

(** The used slots stay where they are. *)
Definition slots_kept (s s' : CapState) : Prop := forall t tb i x, tables s !! t = Some tb -> slots tb !! i = Some x -> used x = true ->
  exists tb', tables s' !! t = Some tb' /\ slots tb' !! i = Some x.

Lemma kept_tables s s' s2 : tables s = tables s' -> slots_kept s' s2 -> slots_kept s s2.
Proof. intros E H t tb i x. rewrite E. apply H. Qed.
Lemma kept_refl s s' : tables s' = tables s -> slots_kept s s'.
Proof. intros E t tb i x Ht Hi _. exists tb. now rewrite E. Qed.

(** The arguments of an operation: tables there are, handles that are not negative, and
    an address the heap gives that no object has. *)
Definition op_args (op : CapOp) (s : CapState) : Prop :=
  match op with
  | OpCopy t h _ | OpMove t h | OpDelete t h | OpRevoke t h | OpClone t h => (t < length (tables s))%nat /\ 0 <= h
  | OpCreate t _ _ _ answer | OpReply t answer => (t < length (tables s))%nat /\ forall p, answer = Some p -> objects s !! p = None
  | OpTransfer src dst caps => (src < length (tables s))%nat /\ (dst < length (tables s))%nat /\ Forall (fun h => 0 <= h) caps
  | OpExit t => (t < length (tables s))%nat
  end.

(** The object of a slot is revoked: its generation changes. *)
Definition revoked_objects (objs : gmap Z KObject) (p : Z) (o : KObject) : gmap Z KObject :=
  <[p := {| obj_generation := u32 (obj_generation o + 1); obj_refcount := obj_refcount o |}]> objs.

Definition created_objects (objs : gmap Z KObject) (p : Z) : gmap Z KObject := <[p := {| obj_generation := 0; obj_refcount := 1 |}]> objs.

Section Operations.
Context (Phi : Slot -> Prop) (Gam : gmap Z KObject -> Prop).
Context (Gam_put : forall objs p o o', Gam objs -> objs !! p = Some o -> obj_generation o' = obj_generation o -> Gam (<[p := o']> objs)).
Context (Gam_del : forall objs p, Gam objs -> Gam (delete p objs)).
Context (Phi_less : forall objs x o r, Gam objs -> Phi x -> objs !! ptr_or_next x = Some o -> obj_generation o = slot_generation x ->
  rightsSubset r (slot_rights x) = true ->
  Phi {| ptr_or_next := ptr_or_next x; slot_type := slot_type x; slot_rights := r; slot_generation := slot_generation x |}).

Record good (ext : Z -> Z) (s : CapState) : Prop := { gd_inv : cap_inv ext s; gd_slots : all_slots Phi s; gd_objects : Gam (objects s) }.

Lemma good_ext ext ext' s : (forall p, ext p = ext' p) -> good ext s -> good ext' s.
Proof. intros E [H1 H2 H3]. constructor; [now apply (cap_inv_ext ext)|done|done]. Qed.

Lemma ref_ret {E} ext s ty p o : good ext s -> ty <> cap_null -> objects s !! p = Some o -> ext p < 2 ^ 32 ->
  exists s', refObject (E := E) ty p s = Some (s', inr tt) /\ good (plus ext p 1) s' /\ tables s' = tables s /\
    exists o', objects s' !! p = Some o' /\ obj_generation o' = obj_generation o.
Proof.
  intros Hg Hty Ho He. destruct (ci_objects _ _ (gd_inv _ _ Hg) p o Ho) as (H1 & H2 & H3). pose proof (refcount_range _ _ _ _ (gd_inv _ _ Hg) Ho) as Hr.
  set (o' := {| obj_generation := obj_generation o; obj_refcount := u64 (obj_refcount o + 1) |}).
  assert (obj_refcount o' = obj_refcount o + 1) as Eo by (cbn; unfold u64; rewrite Z.mod_small; lia).
  exists {| tables := tables s; objects := <[p := o']> (objects s) |}. split_and!; [|constructor|done|].
  - unfold refObject, cap_bind, get_object. destruct ty; [done|now rewrite Ho..].
  - pose proof (ci_ext _ _ (gd_inv _ _ Hg) p). apply put_inv; [apply Hg|lia|lia|done|lia].
  - exact (gd_slots _ _ Hg).
  - apply (Gam_put _ _ o); [apply Hg|done|done].
  - exists o'. cbn [objects]. now rewrite lookup_insert_eq.
Qed.

Lemma unref_ret {E} ext s ty p : good ext s -> ty <> cap_null -> 1 <= ext p ->
  exists s', unrefObject (E := E) ty p s = Some (s', inr tt) /\ good (plus ext p (-1)) s' /\ tables s' = tables s.
Proof.
  intros Hg Hty He. destruct (objects s !! p) as [o|] eqn:Ho.
  2:{ pose proof (ci_gone _ _ (gd_inv _ _ Hg) p Ho). pose proof (refs_nonneg p s). lia. }
  destruct (ci_objects _ _ (gd_inv _ _ Hg) p o Ho) as (H1 & H2 & H3). pose proof (refcount_range _ _ _ _ (gd_inv _ _ Hg) Ho) as Hr.
  unfold unrefObject, cap_bind, get_object. destruct (Z.eqb_spec (obj_refcount o) 1) as [E1|E1].
  - exists {| tables := tables s; objects := delete p (objects s) |}. split_and!; [|constructor|done].
    + destruct ty; [done|now rewrite Ho, E1..].
    + now apply (drop_inv' _ _ _ o); [apply Hg|..].
    + exact (gd_slots _ _ Hg).
    + apply Gam_del, Hg.
  - set (o' := {| obj_generation := obj_generation o; obj_refcount := u64 (obj_refcount o - 1) |}).
    assert (obj_refcount o' = obj_refcount o - 1) as Eo by (cbn; unfold u64; rewrite Z.mod_small; lia).
    exists {| tables := tables s; objects := <[p := o']> (objects s) |}. split_and!; [|constructor|done].
    + apply Z.eqb_neq in E1. destruct ty; [done|now rewrite Ho, E1..].
    + pose proof (ci_ext _ _ (gd_inv _ _ Hg) p). apply put_inv; [apply Hg|lia|lia|done|lia].
    + exact (gd_slots _ _ Hg).
    + apply (Gam_put _ _ o); [apply Hg|done|done].
Qed.

Lemma all_slots_put s t tb tb' : all_slots Phi s -> tables s !! t = Some tb ->
  (forall i x, slots tb' !! i = Some x -> used x = true -> Phi x) -> all_slots Phi {| tables := <[t := tb']> (tables s); objects := objects s |}.
Proof.
  intros Hs Ht Hx u tb1 i x Hu. cbn [tables] in Hu. apply list_lookup_insert_Some in Hu as [(-> & -> & _)|(_ & Hu)]; [apply Hx|now apply (Hs u)].
Qed.

Lemma table_at ext s t : good ext s -> (t < length (tables s))%nat -> exists tb, tables s !! t = Some tb /\ table_ok tb.
Proof.
  intros Hg Ht. destruct (lookup_lt_is_Some_2 _ _ Ht) as [tb E]. exists tb. split; [done|]. pose proof (ci_tables _ _ (gd_inv _ _ Hg)) as Hf.
  rewrite Forall_lookup in Hf. now apply (Hf t).
Qed.

Lemma insert_runs s t ty p r tb o : tables s !! t = Some tb -> objects s !! p = Some o -> ty <> cap_null ->
  insertLocked t ty p r s =
    if cap_count <=? free_head tb then Some (s, inl CapFull)
    else
      match slots tb !! Z.to_nat (free_head tb) with
      | None => None
      | Some x =>
          if 2 ^ 32 <=? ptr_or_next x then None
          else
            Some ({| tables := <[t := {| slots := <[Z.to_nat (free_head tb) := {| ptr_or_next := p; slot_type := ty; slot_rights := r; slot_generation := obj_generation o |}]> (slots tb);
                                         free_head := ptr_or_next x |}]> (tables s);
                     objects := objects s |}, inr (free_head tb))
      end.
Proof.
  intros Ht Ho Hty. unfold insertLocked, objectGeneration, cap_bind, get_table, get_object, put_table, cap_ret, cap_fail, cap_stuck. rewrite Ht.
  destruct (cap_count <=? free_head tb); [done|]. destruct (slots tb !! Z.to_nat (free_head tb)) as [x|]; [|done].
  destruct (2 ^ 32 <=? ptr_or_next x); [done|]. destruct ty; [done|now rewrite Ho..].
Qed.

(** A slot is made from a reference the caller holds, or the table is full. *)
Lemma insert_ret ext s t ty p r : good ext s -> (t < length (tables s))%nat -> ty <> cap_null -> 1 <= ext p ->
  (forall o, objects s !! p = Some o -> Phi {| ptr_or_next := p; slot_type := ty; slot_rights := r; slot_generation := obj_generation o |}) ->
  insertLocked t ty p r s = Some (s, inl CapFull) \/
  exists s' idx, insertLocked t ty p r s = Some (s', inr idx) /\ good (plus ext p (-1)) s' /\ length (tables s') = length (tables s) /\ objects s' = objects s /\
    slots_kept s s' /\ 0 <= idx < cap_count /\ exists tb x, tables s' !! t = Some tb /\ slots tb !! Z.to_nat idx = Some x /\ used x = true /\ ptr_or_next x = p /\ slot_type x = ty /\ slot_rights x = r.
Proof.
  intros Hg Ht Hty He Hphi. destruct (table_at _ _ _ Hg Ht) as (tb & Etb & Hok). destruct (objects s !! p) as [o|] eqn:Ho.
  2:{ pose proof (ci_gone _ _ (gd_inv _ _ Hg) p Ho). pose proof (refs_nonneg p s). lia. }
  rewrite (insert_runs _ _ _ _ _ _ _ Etb Ho Hty). destruct (Z.leb_spec cap_count (free_head tb)) as [Hf|Hf]; [now left|]. right.
  set (x' := {| ptr_or_next := p; slot_type := ty; slot_rights := r; slot_generation := obj_generation o |}).
  assert (used x' = true) as Hu by (unfold used; cbn; rewrite bool_decide_eq_false_2 by done; done).
  destruct (table_take tb x' Hok Hu Hf) as (i & x & Ei & Hx & Hux & Hn & Hok'). rewrite Ei, Nat2Z.id, Hx. rewrite (proj2 (Z.leb_gt _ _)) by lia.
  exists {| tables := <[t := {| slots := <[i := x']> (slots tb); free_head := ptr_or_next x |}]> (tables s); objects := objects s |}, (Z.of_nat i).
  pose proof (lookup_lt_Some _ _ _ Hx) as Hlt. split_and!.
  - done.
  - constructor; [|apply (all_slots_put _ _ tb); [apply Hg|done|]|apply Hg].
    + apply (table_inv _ _ _ tb _ _ 1); [apply Hg|done|done| |pose proof (ci_ext _ _ (gd_inv _ _ Hg) p); lia].
      intros q. rewrite (table_refs_set _ _ _ x) by done. unfold slot_ref. rewrite Hux, Hu. cbn [andb ptr_or_next]. subst x'. cbn [ptr_or_next].
      rewrite Z.eqb_sym. destruct (q =? p); lia.
    + intros j y Hj Huy. cbn [slots] in Hj. apply list_lookup_insert_Some in Hj as [(_ & <- & _)|(_ & Hj)]; [now apply (Hphi o)|].
      now apply (gd_slots _ _ Hg t tb j).
  - cbn. now rewrite length_insert.
  - done.
  - intros u tb1 j y Hu1 Hj Huy. cbn [tables]. destruct (decide (u = t)) as [->|Hne].
    + rewrite Etb in Hu1. injection Hu1 as <-. rewrite list_lookup_insert_eq by done. eexists. split; [done|]. cbn [slots].
      rewrite list_lookup_insert_ne; [done|]. intros ->. congruence.
    + rewrite list_lookup_insert_ne by done. eauto.
  - lia.
  - lia.
  - eexists _, x'. cbn [tables slots]. rewrite list_lookup_insert_eq by done. split; [done|]. cbn [slots]. rewrite Nat2Z.id. now rewrite list_lookup_insert_eq.
Qed.

Lemma get_ret {E} ext s t idx : good ext s -> (t < length (tables s))%nat -> 0 <= idx ->
  exists o, getLocked (E := E) t idx s = Some (s, inr o) /\
    forall x, o = Some x -> idx < cap_count /\ used x = true /\ exists tb, tables s !! t = Some tb /\ slots tb !! Z.to_nat idx = Some x.
Proof.
  intros Hg Ht Hi. destruct (table_at _ _ _ Hg Ht) as (tb & Etb & [Hl _]). unfold getLocked, cap_bind, get_table, cap_ret. rewrite Etb.
  destruct (Z.leb_spec cap_count idx) as [Hc|Hc]; [now exists None|]. unfold cap_count in Hc.
  destruct (lookup_lt_is_Some_2 (slots tb) (Z.to_nat idx)) as [x Hx]; [lia|]. rewrite Hx. destruct (decide (slot_type x = cap_null)) as [E0|E0]; [now exists None|].
  exists (Some x). split; [done|]. intros y [= <-]. split; [done|]. split; [unfold used; now rewrite bool_decide_eq_false_2|]. eauto.
Qed.

Lemma generation_runs {E} s ty p o : ty <> cap_null -> objects s !! p = Some o -> objectGeneration (E := E) ty p s = Some (s, inr (obj_generation o)).
Proof. intros Hty Ho. unfold objectGeneration, cap_bind, get_object, cap_ret. destruct ty; [done|now rewrite Ho..]. Qed.

(** A slot that is found is not revoked, and a slot with fewer rights may be made from
    it. *)
Lemma getAndRef_ret {E} ext s t idx : good ext s -> (t < length (tables s))%nat -> 0 <= idx -> (forall p, ext p < 2 ^ 32) ->
  getAndRefLocked (E := E) t idx s = Some (s, inr None) \/
  exists s' x o, getAndRefLocked (E := E) t idx s = Some (s', inr (Some {| si_type := slot_type x; si_ptr := ptr_or_next x; si_rights := slot_rights x |})) /\
    good (plus ext (ptr_or_next x) 1) s' /\ tables s' = tables s /\ slot_type x <> cap_null /\ idx < cap_count /\
    (exists tb, tables s !! t = Some tb /\ slots tb !! Z.to_nat idx = Some x) /\
    objects s' !! ptr_or_next x = Some o /\ obj_generation o = slot_generation x /\
    forall r, rightsSubset r (slot_rights x) = true -> forall o', objects s' !! ptr_or_next x = Some o' ->
      Phi {| ptr_or_next := ptr_or_next x; slot_type := slot_type x; slot_rights := r; slot_generation := obj_generation o' |}.
Proof.
  intros Hg Ht Hi He. destruct (get_ret (E := E) _ _ _ _ Hg Ht Hi) as (ox & Eg & Hx). unfold getAndRefLocked. rewrite (bind_done _ _ _ _ _ Eg).
  destruct ox as [x|]; [|now left]. destruct (Hx x eq_refl) as (Hc & Hu & tb & Etb & Ex). clear Hx.
  assert (slot_type x <> cap_null) as Hty by (unfold used in Hu; intros E0; rewrite bool_decide_eq_true_2 in Hu by done; done).
  pose proof (refs_slot _ _ _ _ _ Etb Ex Hu) as Hr. destruct (objects s !! ptr_or_next x) as [o|] eqn:Ho.
  2:{ pose proof (ci_gone _ _ (gd_inv _ _ Hg) _ Ho). pose proof (ci_ext _ _ (gd_inv _ _ Hg) (ptr_or_next x)). lia. }
  rewrite (bind_done _ _ _ _ _ (generation_runs (E := E) _ _ _ _ Hty Ho)). destruct (Z.eqb_spec (slot_generation x) (obj_generation o)) as [Egen|]; [|now left]. right.
  destruct (ref_ret (E := E) _ _ _ _ _ Hg Hty Ho (He _)) as (s' & Er & Hg' & Ets & o' & Ho' & Eo'). exists s', x, o'. rewrite (bind_done _ _ _ _ _ Er).
  split_and!; try done; [eauto|congruence|]. intros r Hsub o2 Ho2. rewrite Ho' in Ho2. injection Ho2 as <-.
  replace (obj_generation o') with (slot_generation x) by congruence. apply (Phi_less (objects s) x o); [apply Hg|now apply (gd_slots _ _ Hg t tb (Z.to_nat idx))|done|done|done].
Qed.

Lemma subset_refl r : rightsSubset r r = true.
Proof. unfold rightsSubset. rewrite Z.land_diag. apply Z.eqb_refl. Qed.

Lemma plus_lt ext p : (forall q, ext q < 2 ^ 31) -> forall q, plus ext p 1 q < 2 ^ 32.
Proof. intros H q. specialize (H q). unfold plus. case_match; lia. Qed.

Lemma plus_back ext p q : plus (plus ext p 1) p (-1) q = ext q.
Proof. apply (plus_undo ext p 1). Qed.

Lemma plus_here ext p : plus ext p 1 p = ext p + 1.
Proof. unfold plus. now rewrite Z.eqb_refl. Qed.

(** A reference that was taken is given back. *)
Lemma undo_ref {E} ext s ty p : good (plus ext p 1) s -> ty <> cap_null -> 0 <= ext p ->
  exists s', unrefObject (E := E) ty p s = Some (s', inr tt) /\ good ext s' /\ tables s' = tables s.
Proof.
  intros Hg Hty He. destruct (unref_ret (E := E) _ _ ty p Hg Hty) as (s' & E1 & Hg' & Et); [rewrite plus_here; lia|].
  exists s'. split_and!; [done|now apply (good_ext _ _ _ (plus_back ext p))|done].
Qed.

(** [copyLocked] keeps the slots there are, fails, or makes one more. *)
Lemma copy_ret ext s t idx r : good ext s -> (t < length (tables s))%nat -> 0 <= idx -> (forall p, ext p < 2 ^ 31) ->
  exists s' res, copyLocked t idx r s = Some (s', res) /\ good ext s' /\ length (tables s') = length (tables s) /\ slots_kept s s' /\
    (res = inl CapRightsEscalation -> exists tb x, tables s !! t = Some tb /\ slots tb !! Z.to_nat idx = Some x /\ used x = true /\ rightsSubset r (slot_rights x) = false) /\
    (forall i, res = inr i -> 0 <= i < cap_count /\ idx < cap_count /\ exists tb x, tables s !! t = Some tb /\ slots tb !! Z.to_nat idx = Some x /\ used x = true).
Proof.
  intros Hg Ht Hi He. unfold copyLocked. pose proof (ci_ext _ _ (gd_inv _ _ Hg)) as Hext.
  destruct (getAndRef_ret (E := CapError) _ _ _ _ Hg Ht Hi ltac:(intros p; specialize (He p); lia)) as [E1|(s1 & x & o & E1 & Hg1 & Et1 & Hty & Hc & (tb & Etb & Ex) & _ & _ & Hless)].
  { rewrite (bind_done _ _ _ _ _ E1). exists s, (inl CapNotFound). split_and!; try done. now apply kept_refl. }
  assert (used x = true) as Hu by (unfold used; now rewrite bool_decide_eq_false_2).
  rewrite (bind_done _ _ _ _ _ E1). cbn [si_rights si_type si_ptr].
  destruct (undo_ref (E := CapError) _ _ (slot_type x) (ptr_or_next x) Hg1 Hty (proj1 (Hext _))) as (s2 & E2 & Hg2 & Et2). rewrite Et1 in Et2.
  destruct (rightsSubset r (slot_rights x)) eqn:Esub.
  - destruct (insert_ret _ _ t (slot_type x) (ptr_or_next x) r Hg1) as [E3|(s3 & i & E3 & Hg3 & El3 & _ & Hk3 & Hi3 & _)]; [congruence|done|rewrite plus_here; specialize (Hext (ptr_or_next x)); lia|now apply Hless|..].
    + rewrite (catch_fail _ _ _ _ _ E3), (bind_done _ _ _ _ _ E2). exists s2, (inl CapFull). split_and!; try done; [congruence|now apply kept_refl].
    + rewrite (catch_done _ _ _ _ _ E3). exists s3, (inr i). split_and!; try done; [now apply (good_ext _ _ _ (plus_back ext (ptr_or_next x)))|congruence|now apply (kept_tables _ s1)|].
      intros j [= <-]. split; [done|]. split; [done|]. eauto.
  - rewrite (bind_done _ _ _ _ _ E2). exists s2, (inl CapRightsEscalation). split_and!; try done; [congruence|now apply kept_refl|]. intros _. now exists tb, x.
Qed.

(** A used slot is freed and its reference dropped. *)
Lemma free_ret {E} ext s t tb i x r : good ext s -> tables s !! t = Some tb -> slots tb !! i = Some x -> slot_type x <> cap_null ->
  (forall p, ext p < 2 ^ 31) -> exists s',
  cap_bind (put_table (E := E) t (free_slot (Z.of_nat i) r x tb)) (fun _ => unrefObject (slot_type x) (ptr_or_next x)) s = Some (s', inr tt) /\
  good ext s' /\ length (tables s') = length (tables s) /\ tables s' = <[t := free_slot (Z.of_nat i) r x tb]> (tables s).
Proof.
  intros Hg Ht Hi Hty He. assert (used x = true) as Hu by (unfold used; now rewrite bool_decide_eq_false_2). set (tb' := free_slot (Z.of_nat i) r x tb).
  pose proof (ci_ext _ _ (gd_inv _ _ Hg)) as Hext. assert (table_ok tb) as Hok.
  { pose proof (ci_tables _ _ (gd_inv _ _ Hg)) as Hf. rewrite Forall_lookup in Hf. now apply (Hf t). }
  set (s1 := {| tables := <[t := tb']> (tables s); objects := objects s |}). assert (good (plus ext (ptr_or_next x) 1) s1) as Hg1.
  { constructor; [|apply (all_slots_put _ _ tb); [apply Hg|done|]|apply Hg].
    - apply (table_inv _ _ _ tb _ _ (-1)); [apply Hg|done|now apply table_free| |specialize (Hext (ptr_or_next x)); specialize (He (ptr_or_next x)); lia].
      intros q. unfold tb', free_slot. rewrite Nat2Z.id, (table_refs_set _ _ _ x) by done.
      match goal with |- _ + slot_ref q ?y = _ => change (slot_ref q y) with 0 end. unfold slot_ref. rewrite Hu, Z.eqb_sym. cbn [andb].
      destruct (q =? ptr_or_next x); lia.
    - intros j y Hj Huy. unfold tb', free_slot in Hj. cbn [slots] in Hj. rewrite Nat2Z.id in Hj.
      apply list_lookup_insert_Some in Hj as [(_ & <- & _)|(_ & Hj)]; [done|]. now apply (gd_slots _ _ Hg t tb j). }
  destruct (unref_ret (E := E) _ _ (slot_type x) (ptr_or_next x) Hg1 Hty) as (s2 & E2 & Hg2 & Et2); [rewrite plus_here; specialize (Hext (ptr_or_next x)); lia|].
  exists s2. split_and!; [|now apply (good_ext _ _ _ (plus_back ext (ptr_or_next x)))|rewrite Et2; cbn; apply length_insert|done].
  rewrite (bind_done _ _ _ s1 tt); done.
Qed.

Lemma slot_remove_ret ext s t idx : good ext s -> (t < length (tables s))%nat -> 0 <= idx -> (forall p, ext p < 2 ^ 31) ->
  exists s' res, removeLocked t idx s = Some (s', res) /\ good ext s' /\ length (tables s') = length (tables s) /\
    (forall e, res = inl e -> s' = s /\ (idx < cap_count -> forall tb x, tables s !! t = Some tb -> slots tb !! Z.to_nat idx = Some x -> used x = false)).
Proof.
  intros Hg Ht Hi He. destruct (table_at _ _ _ Hg Ht) as (tb & Etb & [Hl Hok]). unfold removeLocked.
  rewrite (bind_done _ _ s s tb) by (unfold get_table; now rewrite Etb).
  destruct (Z.leb_spec cap_count idx) as [Hc|Hc]; [exists s, (inl CapNotFound); split_and!; try done; intros e _; split; [done|intros; lia]|].
  unfold cap_count in Hc.
  destruct (lookup_lt_is_Some_2 (slots tb) (Z.to_nat idx)) as [x Hx]; [lia|]. rewrite Hx. destruct (decide (slot_type x = cap_null)) as [E0|E0].
  - exists s, (inl CapNotFound). split_and!; try done. intros e _. split; [done|]. intros _ tb1 y E1 Hy. rewrite Etb in E1. injection E1 as <-.
    rewrite Hx in Hy. injection Hy as <-. unfold used. now rewrite bool_decide_eq_true_2.
  - destruct (free_ret (E := CapError) _ _ _ _ _ _ 0 Hg Etb Hx E0 He) as (s' & E1 & Hg' & El & _). rewrite Z2Nat.id in E1 by lia.
    exists s', (inr tt). split_and!; done.
Qed.

Lemma deinit_ret ext n : forall s t i, good ext s -> (t < length (tables s))%nat -> (i + n = 256)%nat -> (forall p, ext p < 2 ^ 31) ->
  exists s', deinit_from t i n s = Some (s', inr tt) /\ good ext s' /\ length (tables s') = length (tables s) /\
    forall tb tb', tables s !! t = Some tb -> tables s' !! t = Some tb' ->
      (forall j x, (j < i)%nat -> slots tb !! j = Some x -> used x = false) -> forall j x, slots tb' !! j = Some x -> used x = false.
Proof.
  induction n as [|n IH]; intros s t i Hg Ht Hin He.
  - exists s. split_and!; try done. intros tb tb' E1 E2 Hall j x Hj. rewrite E1 in E2. injection E2 as <-. apply (Hall j); [|done].
    destruct (table_at _ _ _ Hg Ht) as (tb1 & E3 & [Hl _]). rewrite E1 in E3. injection E3 as <-. apply lookup_lt_Some in Hj. lia.
  - destruct (table_at _ _ _ Hg Ht) as (tb & Etb & [Hl Hok]). cbn [deinit_from]. rewrite (bind_done _ _ s s tb) by (unfold get_table; now rewrite Etb).
    destruct (lookup_lt_is_Some_2 (slots tb) i) as [x Hx]; [lia|]. rewrite Hx. destruct (decide (slot_type x = cap_null)) as [E0|E0].
    + rewrite (bind_done _ _ s s tt) by done. destruct (IH s t (S i) Hg Ht ltac:(lia) He) as (s' & E1 & Hg' & El & Hu). exists s'. split_and!; try done.
      intros tb0 tb' E2 E3 Hall. rewrite Etb in E2. injection E2 as <-. apply (Hu tb tb' Etb E3). intros j y Hj Hy.
      destruct (decide (j = i)) as [->|]; [|apply (Hall j); [lia|done]]. rewrite Hx in Hy. injection Hy as <-. unfold used. now rewrite bool_decide_eq_true_2.
    + destruct (free_ret (E := CapError) _ _ _ _ _ _ (slot_rights x) Hg Etb Hx E0 He) as (s1 & E1 & Hg1 & El1 & Et1). rewrite (bind_done _ _ _ _ _ E1).
      destruct (IH s1 t (S i) Hg1 ltac:(lia) ltac:(lia) He) as (s' & E2 & Hg' & El & Hu). exists s'. split_and!; [done|done|lia|].
      intros tb0 tb' E3 E4 Hall. rewrite Etb in E3. injection E3 as <-. apply (Hu (free_slot (Z.of_nat i) (slot_rights x) x tb) tb'); [|done|].
      * rewrite Et1. now apply list_lookup_insert_eq.
      * intros j y Hj Hy. unfold free_slot in Hy. cbn [slots] in Hy. rewrite Nat2Z.id in Hy. apply list_lookup_insert_Some in Hy as [(_ & <- & _)|(Hne & Hy)]; [done|].
        apply (Hall j); [lia|done].
Qed.

Lemma transfer_one_ret ext s src dst h : good ext s -> (src < length (tables s))%nat -> (dst < length (tables s))%nat -> 0 <= h -> (forall p, ext p < 2 ^ 31) ->
  exists s' h', transfer_one src dst h s = Some (s', inr h') /\ good ext s' /\ length (tables s') = length (tables s).
Proof.
  intros Hg Hs Hd Hh He. unfold transfer_one. destruct (h =? 0); [now exists s, h|]. pose proof (ci_ext _ _ (gd_inv _ _ Hg)) as Hext.
  destruct (getAndRef_ret (E := CapError) _ _ _ _ Hg Hs Hh ltac:(intros p; specialize (He p); lia)) as [E1|(s1 & x & o & E1 & Hg1 & Et1 & Hty & Hc & (tb & Etb & Ex) & _ & _ & Hless)].
  { rewrite (bind_done _ _ _ _ _ E1). now exists s, 0. }
  rewrite (bind_done _ _ _ _ _ E1). cbn [si_rights si_type si_ptr].
  destruct (undo_ref (E := CapError) _ _ (slot_type x) (ptr_or_next x) Hg1 Hty (proj1 (Hext _))) as (s2 & E2 & Hg2 & Et2). rewrite Et1 in Et2.
  destruct (right_grant (slot_rights x)).
  - destruct (insert_ret _ _ dst (slot_type x) (ptr_or_next x) (slot_rights x) Hg1) as [E3|(s3 & i & E3 & Hg3 & El3 & _)]; [congruence|done|rewrite plus_here; specialize (Hext (ptr_or_next x)); lia|apply Hless, subset_refl|..].
    + rewrite (catch_fail _ _ _ _ _ E3), (bind_done _ _ _ _ _ E2). exists s2, 0. split_and!; try done; congruence.
    + rewrite (catch_done _ _ _ _ _ E3). exists s3, i. split_and!; try done; [now apply (good_ext _ _ _ (plus_back ext (ptr_or_next x)))|congruence].
  - rewrite (bind_done _ _ _ _ _ E2). exists s2, 0. split_and!; try done; congruence.
Qed.

Lemma transfer_ret ext src dst caps : forall s, good ext s -> (src < length (tables s))%nat -> (dst < length (tables s))%nat -> Forall (fun h => 0 <= h) caps ->
  (forall p, ext p < 2 ^ 31) -> exists s' hs, transferCaps src dst caps s = Some (s', inr hs) /\ good ext s' /\ length (tables s') = length (tables s).
Proof.
  induction caps as [|h caps IH]; intros s Hg Hs Hd Hh He; [now exists s, []|]. apply Forall_cons in Hh as [Hh Hhs]. cbn [transferCaps].
  destruct (transfer_one_ret _ _ _ _ _ Hg Hs Hd Hh He) as (s1 & h1 & E1 & Hg1 & El1). rewrite (bind_done _ _ _ _ _ E1).
  destruct (IH s1 Hg1 ltac:(lia) ltac:(lia) Hhs He) as (s2 & hs & E2 & Hg2 & El2). rewrite (bind_done _ _ _ _ _ E2). exists s2, (h1 :: hs). split_and!; try done. lia.
Qed.

Lemma revoke_ret ext s t idx : good ext s -> (t < length (tables s))%nat -> 0 <= idx ->
  (forall p o, objects s !! p = Some o -> Gam (revoked_objects (objects s) p o)) ->
  exists s' res, revokeLocked t idx s = Some (s', res) /\ good ext s' /\ tables s' = tables s /\
    match res with
    | inl _ => s' = s
    | inr _ => exists tb x o, tables s !! t = Some tb /\ slots tb !! Z.to_nat idx = Some x /\ used x = true /\ right_revoke (slot_rights x) = true /\
        objects s !! ptr_or_next x = Some o /\ objects s' = revoked_objects (objects s) (ptr_or_next x) o
    end.
Proof.
  intros Hg Ht Hi Hgam. unfold revokeLocked. destruct (get_ret (E := CapError) _ _ _ _ Hg Ht Hi) as (ox & Eg & Hx). rewrite (bind_done _ _ _ _ _ Eg).
  destruct ox as [x|]; [|now exists s, (inl CapNotFound)]. destruct (Hx x eq_refl) as (_ & Hu & tb & Etb & Ex).
  destruct (right_revoke (slot_rights x)) eqn:Er; [|now exists s, (inl CapNoRevokeRight)].
  pose proof (refs_slot _ _ _ _ _ Etb Ex Hu) as Hr. destruct (objects s !! ptr_or_next x) as [o|] eqn:Ho.
  2:{ pose proof (ci_gone _ _ (gd_inv _ _ Hg) _ Ho). pose proof (ci_ext _ _ (gd_inv _ _ Hg) (ptr_or_next x)). lia. }
  assert (slot_type x <> cap_null) as Hty by (unfold used in Hu; intros E0; rewrite bool_decide_eq_true_2 in Hu by done; done).
  exists {| tables := tables s; objects := revoked_objects (objects s) (ptr_or_next x) o |}, (inr tt). split_and!; [|constructor|done|].
  - unfold incrementObjectGeneration, cap_bind, get_object, put_object. destruct (slot_type x); [done|now rewrite Ho..].
  - destruct (ci_objects _ _ (gd_inv _ _ Hg) _ _ Ho) as (H1 & H2 & H3). pose proof (ci_ext _ _ (gd_inv _ _ Hg) (ptr_or_next x)) as H4.
    apply (cap_inv_ext (plus ext (ptr_or_next x) 0)); [intros q; unfold plus; case_match; lia|]. apply put_inv; [apply Hg|cbn; lia|done|cbn; unfold u32; apply Z.mod_pos_bound; lia|lia].
  - exact (gd_slots _ _ Hg).
  - now apply Hgam.
  - exists tb, x, o. done.
Qed.

Lemma create_ret s t ty r answer : good (fun _ => 0) s -> (t < length (tables s))%nat -> ty <> cap_null ->
  (forall p, answer = Some p -> objects s !! p = None /\ Gam (created_objects (objects s) p) /\
     Phi {| ptr_or_next := p; slot_type := ty; slot_rights := r; slot_generation := 0 |}) ->
  exists s' res, create_and_insert t ty r answer s = Some (s', res) /\ good (fun _ => 0) s' /\ length (tables s') = length (tables s).
Proof.
  intros Hg Ht Hty Hp. unfold create_and_insert. destruct answer as [p|]; [|now exists s, (inl OutOfMemory)]. destruct (Hp p eq_refl) as (Hn & Hgam & Hphi).
  set (s1 := {| tables := tables s; objects := <[p := {| obj_generation := 0; obj_refcount := 1 |}]> (objects s) |}).
  assert (good (plus (fun _ => 0) p 1) s1) as Hg1.
  { pose proof (ci_gone _ _ (gd_inv _ _ Hg) p Hn) as H0. constructor; [apply put_inv; [apply Hg|cbn; lia..]|exact (gd_slots _ _ Hg)|done]. }
  rewrite (bind_done _ _ _ s1 p) by done.
  destruct (insert_ret _ _ t ty p r Hg1) as [E3|(s3 & i & E3 & Hg3 & El3 & _)]; [done|done|now rewrite plus_here|..].
  - intros o Ho. cbn in Ho. rewrite lookup_insert_eq in Ho. now injection Ho as <-.
  - rewrite (catch_fail _ _ _ _ _ E3). destruct (undo_ref (E := Error) _ _ ty p Hg1 Hty) as (s2 & E2 & Hg2 & Et2); [done|].
    rewrite (bind_done _ _ _ _ _ E2). exists s2, (inl OutOfMemory). split_and!; [done|done|now rewrite Et2].
  - rewrite (catch_done _ _ _ _ _ E3). exists s3, (inr i). split_and!; [done|now apply (good_ext _ _ _ (plus_back (fun _ => 0) p))|done].
Qed.

Lemma attempt_runs {E F A} (m : CM E A) s s' r : m s = Some (s', r) -> cap_attempt (F := F) m s = Some (s', inr r).
Proof. unfold cap_attempt. now intros ->. Qed.

(** The second half of [clone], for a slot that was looked up. *)
Lemma clone_insert_ret ext s t info : good (plus ext (si_ptr info) 1) s -> (t < length (tables s))%nat -> si_type info <> cap_null -> (forall p, 0 <= ext p < 2 ^ 31) ->
  (forall o, objects s !! si_ptr info = Some o ->
     Phi {| ptr_or_next := si_ptr info; slot_type := si_type info; slot_rights := si_rights info; slot_generation := obj_generation o |}) ->
  exists s' res, clone_insert t info s = Some (s', res) /\ good ext s' /\ length (tables s') = length (tables s).
Proof.
  intros Hg Ht Hty He Hphi. enough (exists s1 r, clone_slot t info s = Some (s1, r) /\ good (plus ext (si_ptr info) 1) s1 /\ length (tables s1) = length (tables s)) as (s1 & r & E1 & Hg1 & El).
  { unfold clone_insert. rewrite (bind_done _ _ _ _ _ (attempt_runs (F := Error) _ _ _ _ E1)).
    destruct (undo_ref (E := Error) _ _ (si_type info) _ Hg1 Hty (proj1 (He _))) as (s2 & E2 & Hg2 & Et2). rewrite (bind_done _ _ _ _ _ E2).
    destruct r as [e|i]; [exists s2, (inl e)|exists s2, (inr i)]; (split_and!; [done|done|congruence]). }
  unfold clone_slot. destruct (decide (si_type info = cap_frame)) as [Ef|]; [|now exists s, (inl InvalidArgument)].
  destruct (right_grant (si_rights info)); [|now exists s, (inl PermissionDenied)]. set (p := si_ptr info) in *.
  destruct (objects s !! p) as [o|] eqn:Ho.
  2:{ pose proof (ci_gone _ _ (gd_inv _ _ Hg) p Ho) as H. rewrite plus_here in H. pose proof (refs_nonneg p s). specialize (He p). lia. }
  destruct (ref_ret (E := Error) _ _ cap_frame p o Hg) as (s1 & E1 & Hg1 & Et1 & o' & Ho' & Eo'); [done|done|rewrite plus_here; specialize (He p); lia|].
  rewrite (bind_done _ _ _ _ _ E1).
  destruct (insert_ret _ _ t cap_frame p (si_rights info) Hg1) as [E3|(s3 & i & E3 & Hg3 & El3 & _)]; [congruence|done|rewrite !plus_here; specialize (He p); lia|..].
  - intros o2 Ho2. rewrite Ho' in Ho2. injection Ho2 as <-. rewrite Eo'. specialize (Hphi o eq_refl). now rewrite Ef in Hphi.
  - rewrite (catch_fail _ _ _ _ _ E3). destruct (undo_ref (E := Error) _ _ cap_frame p Hg1) as (s2 & E2 & Hg2 & Et2); [done|rewrite plus_here; specialize (He p); lia|].
    rewrite (bind_done _ _ _ _ _ E2). exists s2, (inl OutOfMemory). split_and!; [done|done|congruence].
  - rewrite (catch_done _ _ _ _ _ E3). exists s3, (inr i). split_and!; [done|now apply (good_ext _ _ _ (plus_back _ p))|congruence].
Qed.

Lemma clone_lookup_ret s t idx : good (fun _ => 0) s -> (t < length (tables s))%nat -> 0 <= idx ->
  clone_lookup t idx s = Some (s, inl BadHandle) \/
  exists s' info, clone_lookup t idx s = Some (s', inr info) /\ good (plus (fun _ => 0) (si_ptr info) 1) s' /\ tables s' = tables s /\ si_type info <> cap_null /\
    forall o, objects s' !! si_ptr info = Some o ->
      Phi {| ptr_or_next := si_ptr info; slot_type := si_type info; slot_rights := si_rights info; slot_generation := obj_generation o |}.
Proof.
  intros Hg Ht Hi. unfold clone_lookup.
  destruct (getAndRef_ret (E := Error) _ _ _ _ Hg Ht Hi ltac:(intros; lia)) as [E1|(s1 & x & o & E1 & Hg1 & Et1 & Hty & _ & _ & _ & _ & Hless)]; rewrite (bind_done _ _ _ _ _ E1); [now left|].
  right. eexists s1, _. split; [done|]. split_and!; try done. cbn. intros o' Ho'. apply Hless; [apply subset_refl|done].
Qed.

Lemma move_ret s t h : good (fun _ => 0) s -> (t < length (tables s))%nat -> 0 <= h ->
  exists s' res, capMove t h s = Some (s', res) /\ good (fun _ => 0) s' /\ length (tables s') = length (tables s).
Proof.
  intros Hg Ht Hh. unfold capMove. destruct (get_ret (E := Error) _ _ _ _ Hg Ht Hh) as (ox & Eg & Hx). rewrite (bind_done _ _ _ _ _ Eg).
  destruct ox as [x|]; [|now exists s, (inl BadHandle)]. destruct (Hx x eq_refl) as (Hc & Hu & tb & Etb & Ex).
  destruct (copy_ret _ _ _ h (slot_rights x) Hg Ht Hh ltac:(intros; lia)) as (s1 & res & E1 & Hg1 & El1 & Hk1 & Hesc & _).
  destruct res as [e|i].
  - assert (e <> CapRightsEscalation) as Hne.
    { intros ->. destruct (Hesc eq_refl) as (tb1 & x1 & Etb1 & Ex1 & _ & Hs). rewrite Etb in Etb1. injection Etb1 as <-. rewrite Ex in Ex1. injection Ex1 as <-.
      now rewrite subset_refl in Hs. }
    exists s1, (inl (cap_error e)). rewrite (bind_fail _ _ _ s1 (cap_error e)); [done|]. rewrite (catch_fail _ _ _ _ _ E1). now destruct e.
  - rewrite (bind_done _ _ _ s1 i) by (now rewrite (catch_done _ _ _ _ _ E1)).
    destruct (slot_remove_ret _ _ t h Hg1 ltac:(lia) Hh ltac:(intros; lia)) as (s2 & res & E2 & Hg2 & El2 & Hr). destruct res as [e|[]].
    + destruct (Hr e eq_refl) as [_ Hr']. destruct (Hk1 _ _ _ _ Etb Ex Hu) as (tb' & Etb' & Ex'). now rewrite (Hr' Hc tb' x Etb' Ex') in Hu.
    + rewrite (bind_done _ _ _ s2 tt) by (now rewrite (catch_done _ _ _ _ _ E2)). exists s2, (inr i). split_and!; [done|done|lia].
Qed.

(** What the property of the objects and of the slots has to allow. *)
Definition op_allowed (op : CapOp) (s : CapState) : Prop :=
  match op with
  | OpRevoke _ _ => forall p o, objects s !! p = Some o -> Gam (revoked_objects (objects s) p o)
  | OpCreate _ _ _ _ answer | OpReply _ answer => forall p ty r, answer = Some p -> Gam (created_objects (objects s) p) /\
      Phi {| ptr_or_next := p; slot_type := ty; slot_rights := r; slot_generation := 0 |}
  | _ => True
  end.

Lemma capCreate_ret s t ty n e answer : good (fun _ => 0) s -> op_args (OpCreate t ty n e answer) s -> op_allowed (OpCreate t ty n e answer) s ->
  exists s' res, capCreate t ty n e answer s = Some (s', res) /\ good (fun _ => 0) s' /\ length (tables s') = length (tables s).
Proof.
  intros Hg [Ht Hn] Hal. assert (forall ty', ty' <> cap_null -> exists s' res, create_and_insert t ty' rights_all answer s = Some (s', res) /\ good (fun _ => 0) s' /\ length (tables s') = length (tables s)) as Hc.
  { intros ty' Hty'. apply create_ret; try done. intros p Hp. split; [now apply Hn|]. now apply Hal. }
  unfold capCreate. destruct (ObjectType_of (ty mod 2 ^ 8)) as [[]|]; try (now exists s, (inl InvalidArgument)); try (now apply Hc);
    (destruct e; [|now exists s, (inl PermissionDenied)]); try (now apply Hc). destruct (n =? 0); [now exists s, (inl InvalidArgument)|now apply Hc].
Qed.

(** Every operation has an outcome and keeps the invariant. *)
Lemma exec_ret op s : good (fun _ => 0) s -> op_args op s -> op_allowed op s ->
  exists s', cap_exec op s = Some s' /\ good (fun _ => 0) s' /\ length (tables s') = length (tables s).
Proof.
  intros Hg Ha Hal. assert (forall p : Z, (fun _ : Z => 0) p < 2 ^ 31) as He by (intros; lia). unfold cap_exec, outcome_state. destruct op as [t h r|t h|t h|t h|t ty n e a|t h|t a|src dst caps|t].
  - destruct Ha as [Ht Hh]. destruct (copy_ret _ _ _ h (r mod 2 ^ 16) Hg Ht Hh He) as (s1 & res & E1 & Hg1 & El1 & _). exists s1. split_and!; try done. unfold capCopy.
    destruct res; [now rewrite (catch_fail _ _ _ _ _ E1)|now rewrite (catch_done _ _ _ _ _ E1)].
  - destruct Ha as [Ht Hh]. destruct (move_ret _ _ _ Hg Ht Hh) as (s1 & res & E1 & Hg1 & El1). exists s1. now rewrite E1.
  - destruct Ha as [Ht Hh]. destruct (slot_remove_ret _ _ _ h Hg Ht Hh He) as (s1 & res & E1 & Hg1 & El1 & _). exists s1. split_and!; try done. unfold capDelete, cap_bind.
    destruct res; [now rewrite (catch_fail _ _ _ _ _ E1)|now rewrite (catch_done _ _ _ _ _ E1)].
  - destruct Ha as [Ht Hh]. destruct (revoke_ret _ _ _ h Hg Ht Hh Hal) as (s1 & res & E1 & Hg1 & El1 & _). exists s1. split_and!; [|done|congruence]. unfold capRevoke, cap_bind.
    destruct res; [now rewrite (catch_fail _ _ _ _ _ E1)|now rewrite (catch_done _ _ _ _ _ E1)].
  - destruct (capCreate_ret _ _ _ _ _ _ Hg Ha Hal) as (s1 & res & E1 & Hg1 & El1). exists s1. now rewrite E1.
  - destruct Ha as [Ht Hh]. unfold frame_clone. destruct (clone_lookup_ret _ _ h Hg Ht Hh) as [E1|(s1 & info & E1 & Hg1 & Et1 & Hty & Hphi)].
    + rewrite (bind_fail _ _ _ _ _ E1). now exists s.
    + rewrite (bind_done _ _ _ _ _ E1). destruct (clone_insert_ret _ _ t _ Hg1 ltac:(congruence) Hty ltac:(intros; lia) Hphi) as (s2 & res & E2 & Hg2 & El2).
      exists s2. rewrite E2. split_and!; try done. congruence.
  - destruct Ha as [Ht Hn]. destruct (create_ret s t cap_reply rights_write_only a Hg Ht) as (s1 & res & E1 & Hg1 & El1); [done|intros p Hp; split; [now apply Hn|now apply Hal]|].
    exists s1. unfold recv_call_reply. now rewrite E1.
  - destruct Ha as (Hs & Hd & Hh). destruct (transfer_ret _ _ _ _ _ Hg Hs Hd Hh He) as (s1 & hs & E1 & Hg1 & El1). exists s1. now rewrite E1.
  - destruct (deinit_ret _ _ _ _ 0 Hg Ha eq_refl He) as (s1 & E1 & Hg1 & El1 & _). exists s1. unfold deinitAll. change (Z.to_nat cap_count) with 256%nat. now rewrite E1.
Qed.
End Operations.

(** ** Runs *)

Inductive cap_runs : list CapOp -> CapState -> CapState -> Prop :=
| runs_nil s : cap_runs [] s s
| runs_cons op ops s s1 s2 : op_args op s -> cap_exec op s = Some s1 -> cap_runs ops s1 s2 -> cap_runs (op :: ops) s s2.

Definition sound : CapState -> Prop := good (fun _ => True) (fun _ => True) (fun _ => 0).

Lemma sound_exec op s : sound s -> op_args op s -> exists s', cap_exec op s = Some s' /\ sound s' /\ length (tables s') = length (tables s).
Proof. intros Hg Ha. apply exec_ret; try done. now destruct op. Qed.

Lemma sound_runs ops s s' : cap_runs ops s s' -> sound s -> sound s'.
Proof.
  induction 1 as [|op ops s s1 s2 Ha E _ IH]; [done|]. intros Hg. apply IH. destruct (sound_exec op s Hg Ha) as (s1' & E' & Hg' & _). rewrite E in E'. now injection E' as <-.
Qed.

Lemma sound_init n : Z.of_nat n <= 2 ^ 32 -> sound (cap_init n).
Proof.
  intros Hn. assert (forall p, refs p (cap_init n) = 0) as Hr.
  { intros p. unfold refs. cbn [cap_init tables]. apply total_replicate, table_init_refs. }
  constructor; [|done|done]. constructor; cbn [cap_init tables objects].
  - unfold Zlen. now rewrite length_replicate.
  - apply Forall_replicate, table_init_ok.
  - lia.
  - intros p o Hp. now rewrite lookup_empty in Hp.
  - intros p _. now rewrite Hr.
Qed.

(** C13. The tables of [n] processes, whatever the processes do (copy, move, delete, revoke,
    create, clone a frame, receive a call, send handles in messages, exit): every operation has an
    outcome, so that no object is used after its last reference was dropped and nothing
    [unreachable] is reached; the count of every object is exactly the number of slots
    that point to it; every table's free slots are its free list; and when no slot
    is used no object is left. *)
Theorem capabilities_safe n ops s : Z.of_nat n <= 2 ^ 32 -> cap_runs ops (cap_init n) s ->
  (forall op, op_args op s -> exists s', cap_exec op s = Some s') /\
  (forall p o, objects s !! p = Some o -> obj_refcount o = refs p s /\ 1 <= obj_refcount o) /\
  (forall p, objects s !! p = None -> refs p s = 0) /\
  Forall table_ok (tables s) /\
  (all_slots (fun _ => False) s -> objects s = ∅).
Proof.
  intros Hn Hr. pose proof (sound_runs _ _ _ Hr (sound_init n Hn)) as Hg. pose proof (gd_inv _ _ _ _ Hg) as Hi. split_and!.
  - intros op Ha. destruct (sound_exec op s Hg Ha) as (s' & E & _). eauto.
  - intros p o Ho. destruct (ci_objects _ _ Hi p o Ho). lia.
  - intros p Ho. pose proof (ci_gone _ _ Hi p Ho). lia.
  - apply Hi.
  - intros Hnone. apply map_eq. intros p. rewrite lookup_empty. destruct (objects s !! p) as [o|] eqn:Ho; [|done]. exfalso.
    destruct (ci_objects _ _ Hi p o Ho) as (H1 & H2 & _). assert (0 < refs p s) as H3 by lia. apply total_pos in H3 as (t & tb & Ht & H3).
    apply total_pos in H3 as (i & x & Hx & H3). unfold slot_ref in H3. destruct (used x) eqn:Hu; [now apply (Hnone t tb i x)|done].
Qed.

Lemma subset_trans a b c : rightsSubset a b = true -> rightsSubset b c = true -> rightsSubset a c = true.
Proof. unfold rightsSubset. rewrite !Z.eqb_eq. intros H1 H2. rewrite <- H1 at 1. now rewrite <- Z.land_assoc, H2. Qed.

(** The operation does not make a new object at [p]. *)
Definition not_created (p : Z) (op : CapOp) : Prop := match op with OpCreate _ _ _ _ answer | OpReply _ answer => answer <> Some p | _ => True end.

(** Slots of [p] that come from those of [s0]. *)
Definition comes_from (s0 : CapState) (p : Z) (x : Slot) : Prop :=
  ptr_or_next x = p -> exists t tb i x0, tables s0 !! t = Some tb /\ slots tb !! i = Some x0 /\ used x0 = true /\
    ptr_or_next x0 = p /\ slot_type x0 = slot_type x /\ rightsSubset (slot_rights x) (slot_rights x0) = true.

Lemma comes_from_runs s0 p ops s s' : cap_runs ops s s' -> Forall (not_created p) ops -> good (comes_from s0 p) (fun _ => True) (fun _ => 0) s ->
  good (comes_from s0 p) (fun _ => True) (fun _ => 0) s'.
Proof.
  induction 1 as [|op ops s s1 s2 Ha E _ IH]; [done|]. intros Hnc Hg. apply Forall_cons in Hnc as [Hn Hnc]. apply IH; [done|].
  destruct (exec_ret (comes_from s0 p) (fun _ => True)) with (op := op) (s := s) as (s1' & E' & Hg' & _); try done.
  - intros objs x o r _ Hx _ _ Hsub Hp. cbn in *. destruct (Hx Hp) as (t & tb & i & x0 & H1 & H2 & H3 & H4 & H5 & H6).
    exists t, tb, i, x0. split_and!; try done. now apply (subset_trans _ (slot_rights x)).
  - destruct op; try done; intros q ty r Hq; (split; [done|]); intros Hqp; cbn in *; congruence.
  - rewrite E in E'. now injection E' as <-.
Qed.

(** C14. No right is ever gained: when a process has a capability to an object after some
    operations, a process had one before that pointed to the same object with the
    same type and at least the same rights, unless the object was made in between. *)
Theorem rights_never_grow n ops0 ops s0 s p t tb i x : Z.of_nat n <= 2 ^ 32 -> cap_runs ops0 (cap_init n) s0 -> cap_runs ops s0 s -> Forall (not_created p) ops ->
  tables s !! t = Some tb -> slots tb !! i = Some x -> used x = true -> ptr_or_next x = p ->
  exists t0 tb0 i0 x0, tables s0 !! t0 = Some tb0 /\ slots tb0 !! i0 = Some x0 /\ used x0 = true /\
    ptr_or_next x0 = p /\ slot_type x0 = slot_type x /\ rightsSubset (slot_rights x) (slot_rights x0) = true.
Proof.
  intros Hn Hr0 Hr Hnc Ht Hi Hu Hp. pose proof (sound_runs _ _ _ Hr0 (sound_init n Hn)) as Hg0.
  assert (good (comes_from s0 p) (fun _ => True) (fun _ => 0) s0) as Hg.
  { constructor; [apply Hg0| |done]. intros u tb0 j y Hu0 Hj Huy Hy. exists u, tb0, j, y. split_and!; try done. apply subset_refl. }
  pose proof (comes_from_runs _ _ _ _ _ Hr Hnc Hg) as Hg'. exact (gd_slots _ _ _ _ Hg' t tb i x Ht Hi Hu Hp).
Qed.

(** ** Revocation *)

(** Generations are at most [k], and a slot's is not above its object's. *)
Record ordered (k : Z) (s : CapState) : Prop := {
  or_sound : sound s;
  or_bound : forall p o, objects s !! p = Some o -> obj_generation o <= k;
  or_slots : forall t tb i x o, tables s !! t = Some tb -> slots tb !! i = Some x -> used x = true -> objects s !! ptr_or_next x = Some o -> slot_generation x <= obj_generation o
}.

Definition old_generation (s : CapState) (p : Z) : Z := match objects s !! p with Some o => obj_generation o | None => 0 end.

(** An operation that revokes nothing keeps the generations there are. *)
Lemma ordered_other k op s s' : 0 <= k -> ordered k s -> op_args op s -> cap_exec op s = Some s' -> (forall t h, op <> OpRevoke t h) -> ordered k s'.
Proof.
  intros Hk [Hg Hb Ho] Ha E Hnr.
  destruct (exec_ret (fun x => slot_generation x <= old_generation s (ptr_or_next x)) (fun objs => forall q o', objs !! q = Some o' -> obj_generation o' = old_generation s q))
    with (op := op) (s := s) as (s1 & E1 & Hg1 & _); try done.
  - intros objs p o o' H Hp Eg q o2 Hq. destruct (decide (q = p)) as [->|Hne]; [rewrite lookup_insert_eq in Hq; injection Hq as <-; rewrite Eg; now apply H|].
    rewrite lookup_insert_ne in Hq by done. now apply H.
  - intros objs p H q o' Hq. apply lookup_delete_Some in Hq as [_ Hq]. now apply H.
  - constructor; [apply Hg| |].
    + intros t tb i x Ht Hi Hu. unfold old_generation. destruct (objects s !! ptr_or_next x) as [o|] eqn:Eo; [now apply (Ho t tb i)|].
      pose proof (refs_slot _ _ _ _ _ Ht Hi Hu). pose proof (ci_gone _ _ (gd_inv _ _ _ _ Hg) _ Eo). cbn in *. lia.
    + intros q o Hq. unfold old_generation. now rewrite Hq.
  - assert (Hc : forall p, objects s !! p = None -> forall q o, created_objects (objects s) p !! q = Some o -> obj_generation o = old_generation s q).
    { intros p Hn q o Hq. unfold created_objects, old_generation in *. destruct (decide (q = p)) as [->|Hne]; [rewrite lookup_insert_eq in Hq; injection Hq as <-; now rewrite Hn|].
      rewrite lookup_insert_ne in Hq by done. now rewrite Hq. }
    destruct op; try done; [now destruct (Hnr t handle)|..]; destruct Ha as [_ Hn]; intros p ty r Hp; specialize (Hn p Hp);
      (split; [now apply Hc|cbn; unfold old_generation; rewrite Hn; lia]).
  - rewrite E in E1. injection E1 as <-. constructor; [constructor; [apply Hg1|done|done]| |].
    + intros p o Hp. rewrite (gd_objects _ _ _ _ Hg1 p o Hp). unfold old_generation. case_match; eauto.
    + intros t tb i x o Ht Hi Hu Hx. rewrite (gd_objects _ _ _ _ Hg1 _ _ Hx). now apply (gd_slots _ _ _ _ Hg1 t tb i).
Qed.

(** What a revocation does to the objects. *)
Lemma revoke_runs s t h : sound s -> (t < length (tables s))%nat -> 0 <= h -> exists s', cap_exec (OpRevoke t h) s = Some s' /\ sound s' /\ tables s' = tables s /\
  (objects s' = objects s \/ exists x o, objects s !! ptr_or_next x = Some o /\ objects s' = revoked_objects (objects s) (ptr_or_next x) o).
Proof.
  intros Hg Ht Hh. destruct (revoke_ret (fun _ => True) (fun _ => True) (fun _ => 0) s t h Hg Ht Hh) as (s1 & res & E1 & Hg1 & Et1 & Hres); [done|].
  exists s1. split_and!; try done.
  - unfold cap_exec, outcome_state, capRevoke, cap_bind. destruct res; [now rewrite (catch_fail _ _ _ _ _ E1)|now rewrite (catch_done _ _ _ _ _ E1)].
  - destruct res; [left; congruence|]. destruct Hres as (tb & x & o & _ & _ & _ & _ & Ho & Eo). right. eauto.
Qed.

Lemma ordered_step k op s s' : 0 <= k < 2 ^ 32 - 1 -> ordered k s -> op_args op s -> cap_exec op s = Some s' -> ordered (k + 1) s'.
Proof.
  intros Hk Hor Ha E. assert ((forall t h, op <> OpRevoke t h) \/ exists t h, op = OpRevoke t h) as [Hnr|(t & h & ->)] by (destruct op; eauto).
  - destruct (ordered_other k op s s' (proj1 Hk) Hor Ha E Hnr) as [H1 H2 H3]. constructor; [done| |done]. intros p o Hp. specialize (H2 p o Hp). lia.
  - destruct Hor as [Hg Hb Ho]. destruct Ha as [Ht Hh]. destruct (revoke_runs s t h Hg Ht Hh) as (s1 & E1 & Hg1 & Et & Hobj). rewrite E in E1. injection E1 as <-.
    destruct Hobj as [Eo|(x & o & Hx & Eo)]; (constructor; [done|rewrite Eo|rewrite Et, Eo]).
    + intros p o' Hp. specialize (Hb p o' Hp). lia.
    + intros u tb j y o' Hu Hj. now apply (Ho u tb j).
    + intros p o' Hp. unfold revoked_objects in Hp. apply lookup_insert_Some in Hp as [[_ <-]|[_ Hp]]; [|specialize (Hb p o' Hp); lia].
      cbn. specialize (Hb _ _ Hx). destruct (ci_objects _ _ (gd_inv _ _ _ _ Hg) _ _ Hx) as (_ & _ & H3). unfold u32. rewrite Z.mod_small; lia.
    + intros u tb j y o' Hu Hj Huy Hp. unfold revoked_objects in Hp. apply lookup_insert_Some in Hp as [[Ep <-]|[_ Hp]]; [|now apply (Ho u tb j)].
      cbn. specialize (Ho u tb j y o Hu Hj Huy ltac:(congruence)). specialize (Hb _ _ Hx). destruct (ci_objects _ _ (gd_inv _ _ _ _ Hg) _ _ Hx) as (_ & _ & H3).
      unfold u32. rewrite Z.mod_small; lia.
Qed.

Lemma ordered_runs ops s s' : cap_runs ops s s' -> forall k, 0 <= k -> k + Zlen ops < 2 ^ 32 -> ordered k s -> ordered (k + Zlen ops) s'.
Proof.
  induction 1 as [|op ops s s1 s2 Ha E _ IH]; intros k Hk Hl Hor; unfold Zlen in *; cbn [length] in *; [now replace (k + Z.of_nat 0) with k by lia|].
  replace (k + Z.of_nat (S (length ops))) with (k + 1 + Z.of_nat (length ops)) by lia. apply IH; [lia|lia|]. apply (ordered_step k op s); [lia|done|done|done].
Qed.

(** Every slot of [p] is older than generation [g], which the object has reached. *)
Definition older (p g : Z) (x : Slot) : Prop := ptr_or_next x = p -> slot_generation x < g.
Definition reached (p g : Z) (objs : gmap Z KObject) : Prop := forall o, objs !! p = Some o -> g <= obj_generation o.

Lemma reached_put p g objs q o o' : reached p g objs -> objs !! q = Some o -> obj_generation o <= obj_generation o' -> reached p g (<[q := o']> objs).
Proof.
  intros H Hq Hle o2 Ho2. apply lookup_insert_Some in Ho2 as [[-> <-]|[_ Ho2]]; [|now apply H]. specialize (H o Hq). lia.
Qed.

Lemma created_reached p g objs q ty r : reached p g objs -> q <> p ->
  reached p g (created_objects objs q) /\ older p g {| ptr_or_next := q; slot_type := ty; slot_rights := r; slot_generation := 0 |}.
Proof.
  intros H Hne. split; [|intros Hp; cbn in Hp; congruence]. intros o Ho. unfold created_objects in Ho. rewrite lookup_insert_ne in Ho by done. now apply H.
Qed.

Lemma dead_runs p g ops s s' : cap_runs ops s s' -> Forall (not_created p) ops -> forall k, 0 <= k -> k + Zlen ops < 2 ^ 32 -> ordered k s ->
  good (older p g) (reached p g) (fun _ => 0) s -> good (older p g) (reached p g) (fun _ => 0) s'.
Proof.
  induction 1 as [|op ops s s1 s2 Ha E _ IH]; [done|]. intros Hnc k Hk Hl Hor Hg. apply Forall_cons in Hnc as [Hn Hnc]. unfold Zlen in *. cbn [length] in *.
  apply (IH Hnc (k + 1)); [lia|lia|apply (ordered_step k op s); [lia|done|done|done]|].
  destruct (exec_ret (older p g) (reached p g)) with (op := op) (s := s) as (s1' & E' & Hg' & _); try done.
  - intros objs q o o' H Hq Eg. apply (reached_put p g objs q o); [done|done|lia].
  - intros objs q H o Ho. apply lookup_delete_Some in Ho as [_ Ho]. now apply H.
  - destruct op; try done.
    + intros q o Hq. apply (reached_put p g _ q o); [apply Hg|done|]. cbn. pose proof (or_bound _ _ Hor q o Hq).
      destruct (ci_objects _ _ (gd_inv _ _ _ _ Hg) _ _ Hq) as (_ & _ & H3). unfold u32. rewrite Z.mod_small; lia.
    + intros q ty r Hq. now apply (created_reached p g); [apply Hg|cbn in Hn; congruence].
    + intros q ty r Hq. now apply (created_reached p g); [apply Hg|cbn in Hn; congruence].
  - rewrite E in E'. now injection E' as <-.
Qed.

Lemma ordered_init n : Z.of_nat n <= 2 ^ 32 -> ordered 0 (cap_init n).
Proof.
  intros Hn. constructor; [now apply sound_init|..].
  - intros p o Hp. cbn in Hp. now rewrite lookup_empty in Hp.
  - intros t tb i x o _ _ _ Hx. cbn [cap_init objects] in Hx. now rewrite lookup_empty in Hx.
Qed.

(** Right after a revocation every slot of the object is older than its generation. *)
Lemma revoked_dead k s0 t h s1 tb x : 0 <= k < 2 ^ 32 - 1 -> ordered k s0 -> (t < length (tables s0))%nat -> 0 <= h -> tables s0 !! t = Some tb -> slots tb !! Z.to_nat h = Some x ->
  capRevoke t h s0 = Some (s1, inr 0) -> exists g, good (older (ptr_or_next x) g) (reached (ptr_or_next x) g) (fun _ => 0) s1.
Proof.
  intros Hk [Hg Hb Ho] Ht Hh Etb Ex E. destruct (revoke_ret (fun _ => True) (fun _ => True) (fun _ => 0) s0 t h Hg Ht Hh) as (s1' & res & E1 & Hg1 & Et1 & Hres); [done|].
  unfold capRevoke, cap_bind in E. destruct res as [e|u]; [rewrite (catch_fail _ _ _ _ _ E1) in E; discriminate|].
  rewrite (catch_done _ _ _ _ _ E1) in E. injection E as <-. destruct Hres as (tb1 & x1 & o & Etb1 & Ex1 & _ & _ & Hx & Eo).
  rewrite Etb in Etb1. injection Etb1 as <-. rewrite Ex in Ex1. injection Ex1 as <-. exists (obj_generation o + 1). constructor; [apply Hg1|..].
  - intros v tb2 j y Hv Hj Hy Hp. rewrite Et1 in Hv. specialize (Ho v tb2 j y o Hv Hj Hy ltac:(congruence)). lia.
  - intros o' Ho'. rewrite Eo in Ho'. unfold revoked_objects in Ho'. rewrite lookup_insert_eq in Ho'. injection Ho' as <-. cbn.
    specialize (Hb _ _ Hx). destruct (ci_objects _ _ (gd_inv _ _ _ _ Hg) _ _ Hx) as (_ & _ & H3). unfold u32. rewrite Z.mod_small; lia.
Qed.


(** ** Examples *)

(** Two processes; the first makes a notification and copies it. *)
Definition demo_ops : list CapOp := [OpCreate 0 2 0 false (Some 4096); OpCopy 0 0 3].
Definition demo_state (ops : list CapOp) : CapState := default (cap_init 2) (run_steps cap_exec ops (cap_init 2)).

Lemma demo_runs : cap_runs demo_ops (cap_init 2) (demo_state demo_ops).
Proof.
  unfold demo_ops. destruct (sound_exec (OpCreate 0 2 0 false (Some 4096)) (cap_init 2)) as (s1 & E1 & Hg1 & El1); [now apply sound_init|split; [cbn; lia|intros p [= <-]; apply lookup_empty]|].
  apply (runs_cons _ _ _ s1); [split; [cbn; lia|intros p [= <-]; apply lookup_empty]|done|].
  destruct (sound_exec (OpCopy 0 0 3) s1 Hg1) as (s2 & E2 & Hg2 & El2); [split; [rewrite El1; cbn; lia|lia]|].
  apply (runs_cons _ _ _ s2); [split; [rewrite El1; cbn; lia|lia]|done|]. unfold demo_state. cbn [run_steps]. rewrite E1. cbn [mbind option_bind run_steps]. rewrite E2. constructor.
Qed.

Lemma capabilities_safe_witness : exists s', cap_exec (OpDelete 0 1) (demo_state demo_ops) = Some s'.
Proof. apply (capabilities_safe 2 demo_ops (demo_state demo_ops) ltac:(lia) demo_runs). split; [vm_compute; lia|lia]. Defined.

Lemma rights_never_grow_witness : exists t0 tb0 i0 x0, tables (demo_state demo_ops) !! t0 = Some tb0 /\ slots tb0 !! i0 = Some x0 /\ used x0 = true /\
  ptr_or_next x0 = 4096 /\ slot_type x0 = cap_notify /\ rightsSubset 3 (slot_rights x0) = true.
Proof.
  apply (rights_never_grow 2 demo_ops [] (demo_state demo_ops) (demo_state demo_ops) 4096 0 (default table_init (tables (demo_state demo_ops) !! 0%nat)) 1
    {| ptr_or_next := 4096; slot_type := cap_notify; slot_rights := 3; slot_generation := 0 |}); try reflexivity; [lia|apply demo_runs|constructor|constructor].
Defined.

Definition demo_revoked : CapState :=
  let s := demo_state demo_ops in
  {| tables := tables s; objects := <[4096 := {| obj_generation := 1; obj_refcount := 2 |}]> (objects s) |}.

Lemma demo_revoke : capRevoke 0 0 (demo_state demo_ops) = Some (demo_revoked, inr 0).
Proof. vm_compute. reflexivity. Qed.


(** A frame in slot 0 of the first process. *)
Definition frame_state : CapState := demo_state [OpCreate 0 1 0 false (Some 4096)].

(** [clone] of a frame is not atomic with respect to a revocation: the look-up checks the
    generation, the table's lock is released, and the new slot takes the generation the
    object then has.  When the frame is revoked in between, the clone outlives the
    revocation: the slot it made is found, while the revoked one is not. *)
Theorem clone_outlives_revocation :
  (exists s info, (info <-- clone_lookup 0 0; capRevoke 0 0 >>- idx <-- clone_insert 0 info; getAndRefLocked 0 idx) frame_state = Some (s, inr (Some info)) /\ si_ptr info = 4096) /\
  (exists s, (info <-- clone_lookup 0 0; capRevoke 0 0 >>- idx <-- clone_insert 0 info; getAndRefLocked 0 0) frame_state = Some (s, inr None)) /\
  (exists s, (capRevoke 0 0 >>- clone_lookup 0 0) frame_state = Some (s, inl BadHandle)).
Proof. split_and!; [eexists _, _; split; [vm_compute; reflexivity|reflexivity]|eexists; vm_compute; reflexivity..]. Qed.

(** The second process has an endpoint in slot 1 and slot 0 free; the first has a
    notification in slot 1. *)
Definition handle_state : CapState :=
  demo_state [OpCreate 1 3 0 false (Some 8192); OpMove 1 0; OpCreate 0 2 0 false (Some 4096); OpMove 0 0].

(** A handle 0 in a message means no capability, and 0 is the index of a slot: a
    capability that is sent to a process whose slot 0 is the first free one is put there and
    the receiver is told 0, as when the transfer fails; and a capability in slot 0 is never
    sent. *)
Theorem transfer_gives_handle_zero :
  (exists s tb x, transferCaps 0 1 [1; 0; 0; 0] handle_state = Some (s, inr [0; 0; 0; 0]) /\
     tables s !! 1%nat = Some tb /\ slots tb !! 0%nat = Some x /\ slot_type x = cap_notify /\ ptr_or_next x = 4096) /\
  (exists s, transferCaps 0 1 [200; 0; 0; 0] handle_state = Some (s, inr [0; 0; 0; 0])) /\
  (exists s, transferCaps 0 1 [0; 0; 0; 0] frame_state = Some (s, inr [0; 0; 0; 0]) /\ refs 4096 s = 1).
Proof.
  split_and!; [eexists _, _, _; split_and!; [vm_compute; reflexivity|vm_compute; reflexivity|vm_compute; reflexivity|reflexivity|reflexivity]|eexists; vm_compute; reflexivity|].
  eexists. split; [vm_compute; reflexivity|vm_compute; reflexivity].
Qed.
