(* ===== verification/Ipc.v ===== *)
(** * Endpoints and notifications

    [src/src/innigkeit/capabilities/types/Endpoint.zig], [Reply.zig] and [Notify.zig].
    What an operation does with the endpoint's lock held is one step; a task that waits
    goes on in a later step, once it was woken.  The handles of a message are changed
    on the way ([transferCaps], see Capabilities.v), which is a parameter; the tag and
    the words are not.

    With one receiver no message is lost or received twice.  With two receivers it
    happens, as the messages for both go through one buffer; and a signal for one of two
    waiting tasks may wake the other. *)

From stdpp Require Import relations.
From S2P Require Import Prelude Tasks.

(** ** The code of the endpoint *)

Record Message := { msg_tag : Z; msg_words : list Z; msg_caps : list Z }.
Definition no_message : Message := {| msg_tag := 0; msg_words := [0; 0; 0; 0]; msg_caps := [0; 0; 0; 0] |}.

(** Which operation a receiver is in. *)
Inductive RecvKind := KRecv | KReplyRecv | KRecvCall.

Inductive IpcPc := IpcIdle | IpcSending | IpcCalling | IpcReceiving (k : RecvKind) | IpcWoken (k : RecvKind) | IpcReplied.

(** [ipc_message] is the field of the tasks; [replies] are the senders that a Reply
    capability holds. *)
Record Endpoint := {
  send_queue : list nat; recv_queue : list nat; call_queue : list nat;
  pending_msg : Message; pending_sender : option nat; ipc_message : list Message; replies : list nat; ep_pcs : list IpcPc }.

Inductive IpcEvent := EvSent (m : Message) | EvReceived (m : Message) | EvReplied (t : nat) (m : Message) | EvError (t : nat).

Section Endpoints.
(** [transferCaps]: the handles as the receiver has them. *)
Context (transfer : list Z -> nat -> nat -> list Z).

Definition transferred (m : Message) (from to : nat) : Message :=
  {| msg_tag := msg_tag m; msg_words := msg_words m; msg_caps := transfer (msg_caps m) from to |}.

Definition message_of (s : Endpoint) (t : nat) : Message := default no_message (ipc_message s !! t).

Definition ep_goto (t : nat) (pc : IpcPc) (s : Endpoint) : Endpoint :=
  {| send_queue := send_queue s; recv_queue := recv_queue s; call_queue := call_queue s; pending_msg := pending_msg s; pending_sender := pending_sender s;
     ipc_message := ipc_message s; replies := replies s; ep_pcs := <[t := pc]> (ep_pcs s) |}.
Definition set_ipc_message (t : nat) (m : Message) (s : Endpoint) : Endpoint :=
  {| send_queue := send_queue s; recv_queue := recv_queue s; call_queue := call_queue s; pending_msg := pending_msg s; pending_sender := pending_sender s;
     ipc_message := <[t := m]> (ipc_message s); replies := replies s; ep_pcs := ep_pcs s |}.
Definition set_queues (sq rq cq : list nat) (s : Endpoint) : Endpoint :=
  {| send_queue := sq; recv_queue := rq; call_queue := cq; pending_msg := pending_msg s; pending_sender := pending_sender s;
     ipc_message := ipc_message s; replies := replies s; ep_pcs := ep_pcs s |}.
Definition set_pending (m : Message) (o : option nat) (s : Endpoint) : Endpoint :=
  {| send_queue := send_queue s; recv_queue := recv_queue s; call_queue := call_queue s; pending_msg := m; pending_sender := o;
     ipc_message := ipc_message s; replies := replies s; ep_pcs := ep_pcs s |}.
Definition set_replies (l : list nat) (s : Endpoint) : Endpoint :=
  {| send_queue := send_queue s; recv_queue := recv_queue s; call_queue := call_queue s; pending_msg := pending_msg s; pending_sender := pending_sender s;
     ipc_message := ipc_message s; replies := l; ep_pcs := ep_pcs s |}.

(** [wakeFromBlocked] of a receiver. *)
Definition wake_receiver (r : nat) (s : Endpoint) : Endpoint :=
  match ep_pcs s !! r with Some (IpcReceiving k) => ep_goto r (IpcWoken k) s | _ => s end.

(** A reply for a sender that waits: its message is written and it is woken. *)
Definition wake_sender (c : nat) (m : Message) (s : Endpoint) : Endpoint := ep_goto c IpcReplied (set_ipc_message c m s).

(** [send] *)
Definition ep_send (t : nat) (m : Message) (s : Endpoint) : Endpoint * list IpcEvent :=
  let s := set_ipc_message t m s in
  match recv_queue s with
  | r :: q => (wake_receiver r (set_pending (transferred m t r) (pending_sender s) (set_queues (send_queue s) q (call_queue s) s)), [EvSent m])
  | [] => (ep_goto t IpcSending (set_queues (send_queue s ++ [t]) (recv_queue s) (call_queue s) s), [EvSent m])
  end.

(** [call] *)
Definition ep_call (t : nat) (m : Message) (s : Endpoint) : Endpoint * list IpcEvent :=
  let s := set_ipc_message t m s in
  match recv_queue s with
  | r :: q => (ep_goto t IpcCalling (wake_receiver r (set_pending (transferred m t r) (Some t) (set_queues (send_queue s) q (call_queue s) s))), [EvSent m])
  | [] => (ep_goto t IpcCalling (set_queues (send_queue s) (recv_queue s) (call_queue s ++ [t]) s), [EvSent m])
  end.

(** What [recv], [replyRecv] and [recvCall] do first: a caller, a sender, or wait. *)
Definition ep_receive (t : nat) (k : RecvKind) (s : Endpoint) : Endpoint * list IpcEvent :=
  match call_queue s with
  | c :: q =>
      let m := transferred (message_of s c) c t in
      let s := set_queues (send_queue s) (recv_queue s) q s in
      (match k with KRecvCall => set_replies (c :: replies s) s | _ => set_pending m (Some c) s end, [EvReceived m])
  | [] =>
      match send_queue s with
      | x :: q => (ep_goto x IpcIdle (set_queues q (recv_queue s) (call_queue s) s), [EvReceived (transferred (message_of s x) x t)])
      | [] => (ep_goto t (IpcReceiving k) (set_queues (send_queue s) (recv_queue s ++ [t]) (call_queue s) s), [])
      end
  end.

(** The rest of them after the wait. *)
Definition ep_woken (t : nat) (k : RecvKind) (s : Endpoint) : Endpoint * list IpcEvent :=
  let m := pending_msg s in
  (ep_goto t IpcIdle
    match k, pending_sender s with
    | KRecv, Some c => wake_sender c no_message (set_pending m None s)
    | KRecvCall, Some c => set_replies (c :: replies s) (set_pending m None s)
    | _, _ => s
    end, [EvReceived m]).

(** [reply], which [replyRecv] does first when there is a sender. *)
Definition ep_reply (t : nat) (m : Message) (s : Endpoint) : Endpoint * list IpcEvent :=
  match pending_sender s with
  | None => (s, [EvError t])
  | Some c => (wake_sender c (transferred m t c) (set_pending (pending_msg s) None s), [])
  end.

Definition ep_replyRecv (t : nat) (m : Message) (s : Endpoint) : Endpoint * list IpcEvent :=
  ep_receive t KReplyRecv (match pending_sender s with None => s | Some _ => (ep_reply t m s).1 end).

(** [Reply.send], and the last reference to a Reply dropped: the sender is swapped out
    once. *)
Definition reply_send (t : nat) (c : nat) (m : Message) (s : Endpoint) : Endpoint * list IpcEvent :=
  if decide (c ∈ replies s) then (wake_sender c (transferred m t c) (set_replies (filter (fun x => x <> c) (replies s)) s), []) else (s, [EvError t]).

Definition reply_drop (c : nat) (s : Endpoint) : Endpoint * list IpcEvent :=
  if decide (c ∈ replies s) then (wake_sender c no_message (set_replies (filter (fun x => x <> c) (replies s)) s), []) else (s, []).

Inductive IpcAct := ASend (m : Message) | ACall (m : Message) | AReceive (k : RecvKind) | AReply (m : Message) | AReplyRecv (m : Message) | AReplySend (c : nat) (m : Message) | AReplyDrop (c : nat) | AGo.

Definition ep_next (t : nat) (a : IpcAct) (s : Endpoint) : option (Endpoint * list IpcEvent) :=
  match a, ep_pcs s !! t with
  | ASend m, Some IpcIdle => Some (ep_send t m s)
  | ACall m, Some IpcIdle => Some (ep_call t m s)
  | AReceive k, Some IpcIdle => match k with KReplyRecv => None | _ => Some (ep_receive t k s) end
  | AReply m, Some IpcIdle => Some (ep_reply t m s)
  | AReplyRecv m, Some IpcIdle => Some (ep_replyRecv t m s)
  | AReplySend c m, Some IpcIdle => Some (reply_send t c m s)
  | AReplyDrop c, Some IpcIdle => Some (reply_drop c s)
  | AGo, Some (IpcWoken k) => Some (ep_woken t k s)
  | AGo, Some IpcReplied => Some (ep_goto t IpcIdle s, [EvReplied t (message_of s t)])
  | _, _ => None
  end.

(** A run, with what was sent and received. *)
Definition ep_log (l : nat * IpcAct) (p : Endpoint * list IpcEvent) : option (Endpoint * list IpcEvent) :=
  '(s, ev) ← ep_next l.1 l.2 p.1; Some (s, p.2 ++ ev).

Definition ep_init (n : nat) : Endpoint :=
  {| send_queue := []; recv_queue := []; call_queue := []; pending_msg := no_message; pending_sender := None; ipc_message := replicate n no_message;
     replies := []; ep_pcs := replicate n IpcIdle |}.

(** ** One receiver *)

(** Only task 0 receives. *)
Definition one_receiver (l : nat * IpcAct) : Prop :=
  match l.2 with AReceive _ | AReplyRecv _ => l.1 = 0%nat | _ => True end.

Definition waits (pc : IpcPc) : bool := match pc with IpcReceiving _ => true | _ => false end.
Definition woken (pc : IpcPc) : bool := match pc with IpcWoken _ => true | _ => false end.

(** A sender that a reply is due to: parked, and in no queue. *)
Definition parked (s : Endpoint) (c : nat) : Prop := ep_pcs s !! c = Some IpcCalling /\ c ∉ call_queue s.

Record ep_ok (s : Endpoint) : Prop := {
  eo_length : length (ipc_message s) = length (ep_pcs s);
  eo_recv : recv_queue s = if match ep_pcs s !! 0%nat with Some pc => waits pc | None => false end then [0%nat] else [];
  eo_others : forall t pc, ep_pcs s !! t = Some pc -> waits pc = true \/ woken pc = true -> t = 0%nat;
  eo_send : NoDup (send_queue s) /\ forall t, t ∈ send_queue s -> ep_pcs s !! t = Some IpcSending;
  eo_call : NoDup (call_queue s) /\ forall t, t ∈ call_queue s -> ep_pcs s !! t = Some IpcCalling;
  eo_pending : forall c, pending_sender s = Some c -> parked s c /\ c ∉ replies s;
  eo_replies : NoDup (replies s) /\ forall c, c ∈ replies s -> parked s c
}.

Definition payload (m : Message) : Z * list Z := (msg_tag m, msg_words m).
Definition queued (s : Endpoint) : list (Z * list Z) := (fun t => payload (message_of s t)) <$> (call_queue s ++ send_queue s).
Definition held (s : Endpoint) : list (Z * list Z) :=
  if match ep_pcs s !! 0%nat with Some pc => woken pc | None => false end then [payload (pending_msg s)] else [].

Definition sent (ev : list IpcEvent) : list (Z * list Z) := omap (fun e => match e with EvSent m => Some (payload m) | _ => None end) ev.
Definition received (ev : list IpcEvent) : list (Z * list Z) := omap (fun e => match e with EvReceived m => Some (payload m) | _ => None end) ev.

Ltac ep_fields :=
  cbn [ep_goto set_ipc_message set_queues set_pending set_replies wake_sender send_queue recv_queue call_queue pending_msg pending_sender ipc_message replies ep_pcs] in *.

Lemma pcs_goto (pcs : list IpcPc) t pc u qc : <[t := pc]> pcs !! u = Some qc -> u = t /\ qc = pc \/ u <> t /\ pcs !! u = Some qc.
Proof. rewrite list_lookup_insert_Some. intros [(-> & -> & _)|(H & H')]; [now left|right; split; [congruence|done]]. Qed.

Lemma parked_goto s t pc c : parked s c -> c <> t -> parked (ep_goto t pc s) c.
Proof. intros [H1 H2] Hn. split; [ep_fields; now rewrite list_lookup_insert_ne|done]. Qed.

(** A task that is in no queue, nor parked, nor waits to receive, moves to such a place. *)
Lemma ok_goto s t pc pc' : ep_ok s -> ep_pcs s !! t = Some pc -> match pc with IpcSending => t ∉ send_queue s | IpcCalling => (t ∉ call_queue s) /\ (t ∉ replies s) /\ pending_sender s <> Some t | _ => True end ->
  waits pc = false -> waits pc' = false -> (woken pc' = true -> t = 0%nat) -> ep_ok (ep_goto t pc' s).
Proof.
  intros [H1 H2 H3 [H4 H4'] [H5 H5'] H6 [H7 H7']] Hpc Hq Hw Hw' Hk. pose proof (lookup_lt_Some _ _ _ Hpc) as Hlt. constructor; ep_fields.
  - now rewrite length_insert.
  - rewrite H2. destruct (decide (t = 0%nat)) as [->|Hn]; [rewrite list_lookup_insert_eq, Hpc by done; now rewrite Hw, Hw'|now rewrite list_lookup_insert_ne].
  - intros u qc Hu Hc. apply pcs_goto in Hu as [[-> ->]|[_ Hu]]; [|now apply (H3 u qc)]. destruct Hc; [congruence|auto].
  - split; [done|]. intros u Hu. destruct (decide (u = t)) as [->|Hn]; [|rewrite list_lookup_insert_ne by done; auto]. specialize (H4' t Hu). rewrite Hpc in H4'. injection H4' as ->. done.
  - split; [done|]. intros u Hu. destruct (decide (u = t)) as [->|Hn]; [|rewrite list_lookup_insert_ne by done; auto]. specialize (H5' t Hu). rewrite Hpc in H5'. injection H5' as ->. tauto.
  - intros c Hc. destruct (H6 c Hc) as [Hp Hr]. split; [|done]. destruct (decide (c = t)) as [->|Hn]; [|now apply parked_goto].
    destruct Hp as [Hp _]. rewrite Hpc in Hp. injection Hp as ->. tauto.
  - split; [done|]. intros c Hc. destruct (decide (c = t)) as [->|Hn]; [|apply parked_goto; auto]. destruct (H7' t Hc) as [Hp _]. rewrite Hpc in Hp. injection Hp as ->. tauto.
Qed.

Lemma ok_message s t m : ep_ok s -> ep_ok (set_ipc_message t m s).
Proof. intros [H1 H2 H3 H4 H5 H6 H7]. constructor; ep_fields; try done. now rewrite length_insert. Qed.

(** A reply is delivered. *)
Lemma ok_wake_sender s c m : ep_ok s -> ep_pcs s !! c = Some IpcCalling -> c ∉ call_queue s -> c ∉ replies s -> pending_sender s <> Some c -> ep_ok (wake_sender c m s).
Proof. intros Ho Hp Hq Hr Hn. unfold wake_sender. apply (ok_goto _ _ IpcCalling); [now apply ok_message|done|done|done|done|done]. Qed.

Lemma ok_push_send s t : ep_ok s -> ep_pcs s !! t = Some IpcSending -> t ∉ send_queue s -> ep_ok (set_queues (send_queue s ++ [t]) (recv_queue s) (call_queue s) s).
Proof.
  intros [H1 H2 H3 [H4 H4'] H5 H6 H7] Hp Hq. constructor; ep_fields; try done. split.
  - apply NoDup_app. split_and!; [done|set_solver|apply NoDup_singleton].
  - intros u Hu. apply elem_of_app in Hu as [Hu|Hu]; [auto|]. apply list_elem_of_singleton in Hu as ->. done.
Qed.

Lemma ok_push_call s t : ep_ok s -> ep_pcs s !! t = Some IpcCalling -> t ∉ call_queue s -> t ∉ replies s -> pending_sender s <> Some t ->
  ep_ok (set_queues (send_queue s) (recv_queue s) (call_queue s ++ [t]) s).
Proof.
  intros [H1 H2 H3 H4 [H5 H5'] H6 [H7 H7']] Hp Hq Hr Hn. assert (forall c, parked s c -> c <> t -> parked (set_queues (send_queue s) (recv_queue s) (call_queue s ++ [t]) s) c) as Hk.
  { intros c [Hc1 Hc2] Hne. split; ep_fields; [done|set_solver]. }
  constructor; ep_fields; try done.
  - split; [apply NoDup_app; split_and!; [done|set_solver|apply NoDup_singleton]|]. intros u Hu. apply elem_of_app in Hu as [Hu|Hu]; [auto|]. apply list_elem_of_singleton in Hu as ->. done.
  - intros c Hc. destruct (H6 c Hc). split; [apply Hk; congruence|done].
  - split; [done|]. intros c Hc. apply Hk; [auto|congruence].
Qed.

Lemma ok_pop_send s x q : ep_ok s -> send_queue s = x :: q -> ep_ok (set_queues q (recv_queue s) (call_queue s) s) /\ ep_pcs s !! x = Some IpcSending /\ x ∉ q.
Proof.
  intros [H1 H2 H3 [H4 H4'] H5 H6 H7] Eq. rewrite Eq in *. apply NoDup_cons in H4 as [H4 H4n]. split_and!; [constructor; ep_fields; try done|apply H4'; left|done].
  split; [done|]. intros u Hu. apply H4'. now right.
Qed.

Lemma ok_pop_call s c q : ep_ok s -> call_queue s = c :: q -> ep_ok (set_queues (send_queue s) (recv_queue s) q s) /\
  ep_pcs s !! c = Some IpcCalling /\ (c ∉ q) /\ (c ∉ replies s) /\ pending_sender s <> Some c.
Proof.
  intros [H1 H2 H3 H4 [H5 H5'] H6 [H7 H7']] Eq. rewrite Eq in *. apply NoDup_cons in H5 as [H5 H5n].
  assert (forall c', parked s c' -> parked (set_queues (send_queue s) (recv_queue s) q s) c') as Hk.
  { intros c' [Hc1 Hc2]. rewrite Eq in Hc2. split; ep_fields; [done|set_solver]. }
  split_and!; [constructor; ep_fields; try done|apply H5'; left|done|..].
  - split; [done|]. intros u Hu. apply H5'. now right.
  - intros c' Hc. destruct (H6 c' Hc). auto.
  - split; [done|]. auto.
  - intros Hc. destruct (H7' c Hc) as [_ Hn]. rewrite Eq in Hn. set_solver.
  - intros Hc. destruct (H6 c Hc) as [[_ Hn] _]. rewrite Eq in Hn. set_solver.
Qed.

Lemma ok_set_pending s m o : ep_ok s -> (forall c, o = Some c -> parked s c /\ c ∉ replies s) -> ep_ok (set_pending m o s).
Proof. intros [H1 H2 H3 H4 H5 H6 H7] Ho. constructor; ep_fields; done. Qed.

Lemma ok_add_reply s c : ep_ok s -> parked s c -> c ∉ replies s -> pending_sender s <> Some c -> ep_ok (set_replies (c :: replies s) s).
Proof.
  intros [H1 H2 H3 H4 H5 H6 [H7 H7']] Hc Hr Hn. constructor; ep_fields; try done.
  - intros c' Hc'. destruct (H6 c' Hc') as [Hp Hr']. split; [done|]. apply not_elem_of_cons. split; [congruence|done].
  - split; [now apply NoDup_cons|]. intros c' Hc'. apply elem_of_cons in Hc' as [->|Hc']; [done|now apply H7'].
Qed.

Lemma ok_drop_reply s c : ep_ok s -> ep_ok (set_replies (filter (fun x => x <> c) (replies s)) s).
Proof.
  intros [H1 H2 H3 H4 H5 H6 [H7 H7']]. constructor; ep_fields; try done.
  - intros c' Hc'. destruct (H6 c' Hc') as [Hp Hr']. split; [done|]. rewrite list_elem_of_filter. tauto.
  - split; [now apply NoDup_filter|]. intros c' Hc'. apply list_elem_of_filter in Hc' as [_ Hc']. now apply H7'.
Qed.

(** The receiver waits, and is woken. *)
Lemma ok_wait s k : ep_ok s -> ep_pcs s !! 0%nat = Some IpcIdle -> ep_ok (ep_goto 0 (IpcReceiving k) (set_queues (send_queue s) (recv_queue s ++ [0%nat]) (call_queue s) s)).
Proof.
  intros [H1 H2 H3 [H4 H4'] [H5 H5'] H6 [H7 H7']] Hpc. pose proof (lookup_lt_Some _ _ _ Hpc) as Hlt. rewrite Hpc in H2. constructor; ep_fields.
  - now rewrite length_insert.
  - rewrite H2, list_lookup_insert_eq by done. done.
  - intros u qc Hu Hc. apply pcs_goto in Hu as [[-> ->]|[_ Hu]]; [done|now apply (H3 u qc)].
  - split; [done|]. intros u Hu. specialize (H4' u Hu). rewrite list_lookup_insert_ne; [done|]. intros <-. congruence.
  - split; [done|]. intros u Hu. specialize (H5' u Hu). rewrite list_lookup_insert_ne; [done|]. intros <-. congruence.
  - intros c Hc. destruct (H6 c Hc) as [[Hp Hq] Hr]. split; [|done]. split; ep_fields; [|done]. rewrite list_lookup_insert_ne; [done|]. intros <-. congruence.
  - split; [done|]. intros c Hc. destruct (H7' c Hc) as [Hp Hq]. split; ep_fields; [|done]. rewrite list_lookup_insert_ne; [done|]. intros <-. congruence.
Qed.

Lemma ok_woken s r q m o : ep_ok s -> recv_queue s = r :: q -> (forall c, o = Some c -> c <> 0%nat /\ pending_sender s = Some c) ->
  exists k, r = 0%nat /\ q = [] /\ ep_pcs s !! 0%nat = Some (IpcReceiving k) /\
    wake_receiver r (set_pending m o (set_queues (send_queue s) q (call_queue s) s)) = ep_goto 0 (IpcWoken k) (set_pending m o (set_queues (send_queue s) [] (call_queue s) s)) /\
    ep_ok (ep_goto 0 (IpcWoken k) (set_pending m o (set_queues (send_queue s) [] (call_queue s) s))).
Proof.
  intros [H1 H2 H3 [H4 H4'] [H5 H5'] H6 [H7 H7']] Eq Ho. rewrite H2 in Eq. destruct (ep_pcs s !! 0%nat) as [[| | |k|k|]|] eqn:Hpc; try done. injection Eq as <- <-.
  pose proof (lookup_lt_Some _ _ _ Hpc) as Hlt. exists k. split_and!; try done; [unfold wake_receiver; ep_fields; now rewrite Hpc|]. constructor; ep_fields.
  - now rewrite length_insert.
  - rewrite list_lookup_insert_eq by done. done.
  - intros u qc Hu Hc. apply pcs_goto in Hu as [[-> ->]|[_ Hu]]; [done|now apply (H3 u qc)].
  - split; [done|]. intros u Hu. specialize (H4' u Hu). rewrite list_lookup_insert_ne; [done|]. intros <-. congruence.
  - split; [done|]. intros u Hu. specialize (H5' u Hu). rewrite list_lookup_insert_ne; [done|]. intros <-. congruence.
  - intros c Hc. destruct (Ho c Hc) as [Hn Hp]. destruct (H6 c Hp) as [[Hp1 Hp2] Hr]. split; [|done]. split; ep_fields; [|done]. now rewrite list_lookup_insert_ne.
  - split; [done|]. intros c Hc. destruct (H7' c Hc) as [Hp Hq]. split; ep_fields; [|done]. rewrite list_lookup_insert_ne; [done|]. intros <-. congruence.
Qed.

(** What was sent is received, or in a queue, or in the buffer. *)
Definition balanced (s s' : Endpoint) (ev : list IpcEvent) : Prop := sent ev ++ queued s ++ held s ≡ₚ received ev ++ queued s' ++ held s'.

Lemma held_goto s t pc pc' : ep_pcs s !! t = Some pc -> woken pc = false -> woken pc' = false -> held (ep_goto t pc' s) = held s.
Proof.
  intros Hpc Hw Hw'. unfold held. ep_fields. destruct (decide (t = 0%nat)) as [->|Hn]; [|now rewrite list_lookup_insert_ne].
  rewrite list_lookup_insert_eq by now apply lookup_lt_Some in Hpc. now rewrite Hpc, Hw, Hw'.
Qed.

Lemma held_idle s pc : ep_pcs s !! 0%nat = Some pc -> woken pc = false -> held s = [].
Proof. intros Hpc Hw. unfold held. now rewrite Hpc, Hw. Qed.

Lemma queued_message s t m : t ∉ call_queue s -> t ∉ send_queue s -> queued (set_ipc_message t m s) = queued s.
Proof.
  intros H1 H2. unfold queued. ep_fields. apply list_fmap_ext. intros i u Hu. unfold message_of. ep_fields. rewrite list_lookup_insert_ne; [done|].
  intros <-. apply list_elem_of_lookup_2, elem_of_app in Hu. tauto.
Qed.

Lemma message_here s t m : (t < length (ipc_message s))%nat -> message_of (set_ipc_message t m s) t = m.
Proof. intros H. unfold message_of. ep_fields. now rewrite list_lookup_insert_eq. Qed.

(** An idle task is in no queue. *)
Lemma idle_free s t pc : ep_ok s -> ep_pcs s !! t = Some pc -> pc <> IpcSending -> pc <> IpcCalling ->
  (t ∉ send_queue s) /\ (t ∉ call_queue s) /\ (t ∉ replies s) /\ pending_sender s <> Some t.
Proof.
  intros [_ _ _ [_ H4] [_ H5] H6 [_ H7]] Hpc Hn1 Hn2. split_and!.
  - intros H. specialize (H4 t H). congruence.
  - intros H. specialize (H5 t H). congruence.
  - intros H. destruct (H7 t H) as [Hp _]. congruence.
  - intros H. destruct (H6 t H) as [[Hp _] _]. congruence.
Qed.

(** The sender's message is in the buffer of the receiver that waited. *)
Lemma pending_balanced s s1 m m' k : ep_ok s -> ep_pcs s !! 0%nat = Some (IpcReceiving k) -> queued s1 = queued s -> ep_pcs s1 !! 0%nat = Some (IpcWoken k) ->
  pending_msg s1 = m' -> payload m' = payload m -> balanced s s1 [EvSent m].
Proof.
  intros Ho Hpc Eq Hpc1 Em Ep. unfold balanced. rewrite Eq, (held_idle s _ Hpc eq_refl). unfold held. rewrite Hpc1. cbn [woken]. rewrite Em, Ep. cbn. rewrite app_nil_r. solve_Permutation.
Qed.

(** The sender is appended to a queue. *)
Lemma queue_balanced s s1 s2 t m : ep_ok s -> queued s1 = queued s -> message_of s1 t = m ->
  queued s2 ≡ₚ queued s1 ++ [payload (message_of s1 t)] -> held s2 = held s -> balanced s s2 [EvSent m].
Proof. intros Ho E1 E2 E3 E4. unfold balanced. rewrite E3, E4, E1, E2. cbn. solve_Permutation. Qed.

Lemma send_ret s t m : ep_ok s -> ep_pcs s !! t = Some IpcIdle -> ep_ok (ep_send t m s).1 /\ balanced s (ep_send t m s).1 (ep_send t m s).2.
Proof.
  intros Ho Hpc. destruct (idle_free _ _ _ Ho Hpc) as (F1 & F2 & F3 & F4); [done..|]. pose proof (lookup_lt_Some _ _ _ Hpc) as Hlt. pose proof (eo_length _ Ho) as Hlen.
  pose proof (ok_message s t m Ho) as Ho1. unfold ep_send. set (s1 := set_ipc_message t m s) in *. change (recv_queue s1) with (recv_queue s). destruct (recv_queue s) as [|r q] eqn:Eq; cbn [fst snd].
  - split.
    + assert (ep_ok (ep_goto t IpcSending s1)) as Ho2 by (now apply (ok_goto _ _ IpcIdle)).
      pose proof (ok_push_send _ t Ho2) as H. unfold s1 in *. ep_fields. rewrite list_lookup_insert_eq, Eq in H by done. now apply H.
    + apply (queue_balanced s s1 _ t); [done|now apply queued_message|unfold s1; now rewrite message_here by lia|..].
      * unfold queued. cbn. rewrite app_assoc, fmap_app. done.
      * exact (held_goto s t IpcIdle IpcSending Hpc eq_refl eq_refl).
  - destruct (ok_woken s1 r q (transferred m t r) (pending_sender s1) Ho1 Eq) as (k & -> & -> & Hpc0 & Ew & Ho2).
    { intros c Hc. split; [|done]. intros ->. destruct (eo_pending _ Ho1 0%nat Hc) as [[Hp _] _]. destruct (eo_recv _ Ho1). change (recv_queue s1) with (recv_queue s) in *.
      pose proof (eo_recv _ Ho) as Hr. rewrite Eq in Hr. change (ep_pcs s1) with (ep_pcs s) in Hp. now rewrite Hp in Hr. }
    change (send_queue s) with (send_queue s1). rewrite Ew. split; [done|].
    apply (pending_balanced s _ m (transferred m t 0) k); [done|exact Hpc0| | |done|done].
    + change (queued s1 = queued s). now apply queued_message.
    + ep_fields. rewrite list_lookup_insert_eq; [done|]. now apply lookup_lt_Some in Hpc0.
Qed.

Lemma call_ret s t m : ep_ok s -> ep_pcs s !! t = Some IpcIdle -> ep_ok (ep_call t m s).1 /\ balanced s (ep_call t m s).1 (ep_call t m s).2.
Proof.
  intros Ho Hpc. destruct (idle_free _ _ _ Ho Hpc) as (F1 & F2 & F3 & F4); [done..|]. pose proof (lookup_lt_Some _ _ _ Hpc) as Hlt. pose proof (eo_length _ Ho) as Hlen.
  pose proof (ok_message s t m Ho) as Ho1. unfold ep_call. set (s1 := set_ipc_message t m s) in *. change (recv_queue s1) with (recv_queue s).
  assert (ep_ok (ep_goto t IpcCalling s1)) as Ho2 by (now apply (ok_goto _ _ IpcIdle)).
  assert (ep_pcs (ep_goto t IpcCalling s1) !! t = Some IpcCalling) as Hpc2 by (unfold s1; ep_fields; now rewrite list_lookup_insert_eq).
  destruct (recv_queue s) as [|r q] eqn:Eq; cbn [fst snd].
  - split.
    + pose proof (ok_push_call _ t Ho2 Hpc2 F2 F3 F4) as H. unfold s1 in *. ep_fields. now rewrite Eq in H.
    + apply (queue_balanced s s1 _ t); [done|now apply queued_message|unfold s1; now rewrite message_here by lia|..].
      * unfold queued. cbn. rewrite !fmap_app. cbn. solve_Permutation.
      * exact (held_goto s t IpcIdle IpcCalling Hpc eq_refl eq_refl).
  - set (s2 := set_pending (pending_msg s1) (Some t) (ep_goto t IpcCalling s1)).
    assert (ep_ok s2) as Ho3 by (apply ok_set_pending; [done|]; intros c [= <-]; split; [split; [done|exact F2]|exact F3]).
    assert (recv_queue s2 = r :: q) as Eq2 by done. assert (t <> 0%nat) as Ht0.
    { intros ->. pose proof (eo_recv _ Ho) as Hr. now rewrite Eq, Hpc in Hr. }
    destruct (ok_woken s2 r q (transferred m t r) (Some t) Ho3 Eq2) as (k & -> & -> & Hpc0 & _ & Ho4); [intros c [= <-]; done|].
    assert (ep_pcs s !! 0%nat = Some (IpcReceiving k)) as Hpc0' by (unfold s2, s1 in Hpc0; ep_fields; now rewrite list_lookup_insert_ne in Hpc0).
    replace (ep_goto t IpcCalling (wake_receiver 0 (set_pending (transferred m t 0) (Some t) (set_queues (send_queue s1) [] (call_queue s1) s1))))
      with (ep_goto 0 (IpcWoken k) (set_pending (transferred m t 0) (Some t) (set_queues (send_queue s2) [] (call_queue s2) s2))).
    + split; [done|]. apply (pending_balanced s _ m (transferred m t 0) k); [done|done| | |done|done].
      * change (queued s1 = queued s). now apply queued_message.
      * unfold s2. ep_fields. rewrite list_lookup_insert_eq; [done|]. now apply lookup_lt_Some in Hpc0.
    + unfold wake_receiver. unfold s2, s1. ep_fields. rewrite Hpc0'. unfold ep_goto, set_pending, set_queues, set_ipc_message. cbn. f_equal. now apply list_insert_insert_ne.
Qed.

Lemma receive_ret s k : ep_ok s -> ep_pcs s !! 0%nat = Some IpcIdle -> ep_ok (ep_receive 0 k s).1 /\ balanced s (ep_receive 0 k s).1 (ep_receive 0 k s).2.
Proof.
  intros Ho Hpc. unfold ep_receive, balanced. destruct (call_queue s) as [|c q] eqn:Ec; [destruct (send_queue s) as [|x q] eqn:Es|]; cbn [fst snd].
  - split; [pose proof (ok_wait s k Ho Hpc) as H; now rewrite Ec, Es in H|].
    rewrite (held_idle s _ Hpc eq_refl). unfold held, queued. ep_fields. rewrite list_lookup_insert_eq by now apply lookup_lt_Some in Hpc. rewrite Ec, Es. done.
  - destruct (ok_pop_send _ _ _ Ho Es) as (Ho1 & Hx & Hn). split.
    + rewrite Ec in Ho1. now apply (ok_goto _ _ IpcSending).
    + rewrite <- (held_goto s x IpcSending IpcIdle Hx eq_refl eq_refl). unfold queued. ep_fields. rewrite Ec, Es. done.
  - destruct (ok_pop_call _ _ _ Ho Ec) as (Ho1 & Hc & Hn & Hr & Hp). split.
    + destruct k; [apply ok_set_pending; [done|]; intros c' [= <-]; done..|]. now apply ok_add_reply.
    + assert (held s = []) as Eh by (now apply (held_idle s IpcIdle)). rewrite Eh. unfold queued, held. rewrite Ec. destruct k; ep_fields; rewrite Hpc; done.
Qed.

(** Replying changes neither the queues nor the buffer. *)
Lemma wake_balanced s c m o : ep_ok s -> parked s c -> queued (wake_sender c m (set_pending (pending_msg s) o s)) = queued s /\ held (wake_sender c m (set_pending (pending_msg s) o s)) = held s.
Proof.
  intros Ho [Hp Hq]. split.
  - change (queued (set_ipc_message c m s) = queued s). apply queued_message; [done|]. intros Hs. destruct (eo_send _ Ho) as [_ H4]. specialize (H4 c Hs). congruence.
  - exact (held_goto s c IpcCalling IpcReplied Hp eq_refl eq_refl).
Qed.

Lemma reply_ret s t m : ep_ok s -> ep_ok (ep_reply t m s).1 /\ balanced s (ep_reply t m s).1 (ep_reply t m s).2.
Proof.
  intros Ho. unfold ep_reply, balanced. destruct (pending_sender s) as [c|] eqn:Ep; [|done]. cbn [fst snd]. destruct (eo_pending _ Ho c Ep) as [Hp Hr].
  destruct (wake_balanced s c (transferred m t c) None Ho Hp) as [-> ->]. split; [|done]. destruct Hp as [Hp1 Hp2]. apply ok_wake_sender; try done. now apply ok_set_pending.
Qed.

Lemma replyRecv_ret s m : ep_ok s -> ep_pcs s !! 0%nat = Some IpcIdle -> ep_ok (ep_replyRecv 0 m s).1 /\ balanced s (ep_replyRecv 0 m s).1 (ep_replyRecv 0 m s).2.
Proof.
  intros Ho Hpc. unfold ep_replyRecv. destruct (pending_sender s) as [c|] eqn:Ep; [|now apply receive_ret]. destruct (reply_ret s 0 m Ho) as [Ho1 Hb]. unfold balanced in *.
  assert (ep_pcs (ep_reply 0 m s).1 !! 0%nat = Some IpcIdle) as Hpc1.
  { unfold ep_reply. rewrite Ep. cbn. destruct (eo_pending _ Ho c Ep) as [[Hp _] _]. rewrite list_lookup_insert_ne; [done|]. intros ->. congruence. }
  destruct (receive_ret _ KReplyRecv Ho1 Hpc1) as [Ho2 Hb2]. split; [done|]. unfold balanced in Hb2. rewrite <- Hb2. apply Permutation_app_head.
  unfold ep_reply in Hb. rewrite Ep in Hb. unfold ep_reply. rewrite Ep. exact Hb.
Qed.

(** A sender that a Reply capability holds is woken. *)
Lemma wake_reply s c m : ep_ok s -> c ∈ replies s ->
  ep_ok (wake_sender c m (set_replies (filter (fun x => x <> c) (replies s)) s)) /\
  balanced s (wake_sender c m (set_replies (filter (fun x => x <> c) (replies s)) s)) [].
Proof.
  intros Ho Hc. destruct (eo_replies _ Ho) as [_ Hr]. pose proof (Hr c Hc) as Hp. destruct (wake_balanced s c m (pending_sender s) Ho Hp) as [E1 E2]. split.
  - destruct Hp as [Hp1 Hp2]. apply ok_wake_sender; try done; [now apply ok_drop_reply|ep_fields; rewrite list_elem_of_filter; tauto|].
    intros E. destruct (eo_pending _ Ho c E) as [_ Hn]. done.
  - unfold balanced. change (queued s ++ held s ≡ₚ queued (wake_sender c m (set_pending (pending_msg s) (pending_sender s) s)) ++ held (wake_sender c m (set_pending (pending_msg s) (pending_sender s) s))).
    now rewrite E1, E2.
Qed.

Lemma reply_send_ret s t c m : ep_ok s -> ep_ok (reply_send t c m s).1 /\ balanced s (reply_send t c m s).1 (reply_send t c m s).2.
Proof. intros Ho. unfold reply_send. destruct (decide (c ∈ replies s)) as [Hc|]; [|unfold balanced; done]. now apply wake_reply. Qed.

Lemma reply_drop_ret s c : ep_ok s -> ep_ok (reply_drop c s).1 /\ balanced s (reply_drop c s).1 (reply_drop c s).2.
Proof. intros Ho. unfold reply_drop. destruct (decide (c ∈ replies s)) as [Hc|]; [|unfold balanced; done]. now apply wake_reply. Qed.

(** The receiver takes the buffer. *)
Lemma take_buffer s s1 k : ep_ok s -> ep_pcs s !! 0%nat = Some (IpcWoken k) -> ep_ok s1 -> ep_pcs s1 !! 0%nat = Some (IpcWoken k) -> queued s1 = queued s ->
  ep_ok (ep_goto 0 IpcIdle s1) /\ balanced s (ep_goto 0 IpcIdle s1) [EvReceived (pending_msg s)].
Proof.
  intros Ho Hpc Ho1 Hpc1 Eq. split; [now apply (ok_goto _ _ (IpcWoken k))|]. unfold balanced. change (queued (ep_goto 0 IpcIdle s1)) with (queued s1). rewrite Eq.
  unfold held at 1. rewrite Hpc. rewrite (held_idle (ep_goto 0 IpcIdle s1) IpcIdle); [cbn; solve_Permutation| |done].
  ep_fields. rewrite list_lookup_insert_eq; [done|]. now apply lookup_lt_Some in Hpc1.
Qed.

Lemma woken_ret s k : ep_ok s -> ep_pcs s !! 0%nat = Some (IpcWoken k) -> ep_ok (ep_woken 0 k s).1 /\ balanced s (ep_woken 0 k s).1 (ep_woken 0 k s).2.
Proof.
  intros Ho Hpc. unfold ep_woken. cbn [fst snd]. pose proof (take_buffer s s k Ho Hpc Ho Hpc eq_refl) as Hs.
  destruct (pending_sender s) as [c|] eqn:Ep; [|now destruct k].
  destruct (eo_pending _ Ho c Ep) as [Hp Hr]. assert (ep_ok (set_pending (pending_msg s) None s)) as Ho1 by now apply ok_set_pending.
  destruct k; [|done|].
  - destruct (wake_balanced s c no_message None Ho Hp) as [E1 _]. destruct Hp as [Hp1 Hp2]. apply (take_buffer s _ KRecv); [done|done|now apply ok_wake_sender| |done].
    ep_fields. rewrite list_lookup_insert_ne; [done|]. intros ->. congruence.
  - apply (take_buffer s _ KRecvCall); [done|done|now apply (ok_add_reply (set_pending (pending_msg s) None s))|done|done].
Qed.

Lemma ep_next_ret l s s' ev : one_receiver l -> ep_ok s -> ep_next l.1 l.2 s = Some (s', ev) -> ep_ok s' /\ balanced s s' ev.
Proof.
  destruct l as [t a]. unfold one_receiver, ep_next. cbn [fst snd]. intros H1 Ho H. destruct (ep_pcs s !! t) as [pc|] eqn:Hpc; [|now destruct a].
  assert (forall x, Some x = Some (s', ev) -> ep_ok x.1 /\ balanced s x.1 x.2 -> ep_ok s' /\ balanced s s' ev) as Hx by (intros x [= ->]; done).
  destruct a, pc; try done; try (apply (Hx _ H)); try subst t.
  - now apply send_ret.
  - now apply call_ret.
  - destruct k; [|done|]; apply (Hx _ H); now apply receive_ret.
  - now apply reply_ret.
  - now apply replyRecv_ret.
  - now apply reply_send_ret.
  - now apply reply_drop_ret.
  - assert (t = 0%nat) as -> by (apply (eo_others _ Ho t _ Hpc); now right). now apply woken_ret.
  - split; [now apply (ok_goto _ _ IpcReplied)|]. unfold balanced. cbn [fst snd]. now rewrite (held_goto s t IpcReplied IpcIdle Hpc eq_refl eq_refl).
Qed.

Lemma ep_log_next l s ev p : ep_log l (s, ev) = Some p -> exists s1 ev1, ep_next l.1 l.2 s = Some (s1, ev1) /\ p = (s1, ev ++ ev1).
Proof. unfold ep_log. cbn [fst snd]. destruct (ep_next l.1 l.2 s) as [[s1 ev1]|]; [|done]. intros [= <-]. eauto. Qed.

Lemma ep_run_ret ls : forall s ev s' ev', Forall one_receiver ls -> ep_ok s -> run_steps ep_log ls (s, ev) = Some (s', ev') -> sent ev ≡ₚ received ev ++ queued s ++ held s ->
  ep_ok s' /\ sent ev' ≡ₚ received ev' ++ queued s' ++ held s'.
Proof.
  induction ls as [|l ls IH]; intros s ev s' ev' H1 Ho H Hb; cbn in H; [now injection H as <- <-|]. apply Forall_cons in H1 as [Hl H1].
  destruct (ep_log l (s, ev)) as [p|] eqn:El; [|done]. destruct (ep_log_next _ _ _ _ El) as (s1 & ev1 & E & ->). cbn in H. destruct (ep_next_ret l s s1 ev1 Hl Ho E) as [Ho1 Hb1].
  apply (IH s1 (ev ++ ev1) s' ev' H1 Ho1 H). unfold sent, received, balanced in *. rewrite !omap_app, Hb. unfold sent, received in Hb1. rewrite <- !app_assoc, <- Hb1. solve_Permutation.
Qed.

Lemma ep_init_ok n : ep_ok (ep_init n).
Proof.
  constructor; cbn [ep_init send_queue recv_queue call_queue pending_msg pending_sender ipc_message replies ep_pcs]; try done.
  - now rewrite !length_replicate.
  - now destruct n.
  - intros t pc Ht. apply lookup_replicate in Ht as [-> _]. now intros [|].
  - split; [apply NoDup_nil_2|]. intros t Ht. set_solver.
  - split; [apply NoDup_nil_2|]. intros t Ht. set_solver.
  - split; [apply NoDup_nil_2|]. intros t Ht. set_solver.
Qed.

(** Nobody waits to receive while somebody waits to send. *)
Definition rendezvous (s : Endpoint) : Prop := recv_queue s = [] \/ send_queue s = [] /\ call_queue s = [].

Lemma wake_receiver_queues r s : recv_queue (wake_receiver r s) = recv_queue s /\ send_queue (wake_receiver r s) = send_queue s /\ call_queue (wake_receiver r s) = call_queue s.
Proof. unfold wake_receiver. destruct (ep_pcs s !! r) as [[]|]; done. Qed.

Lemma receive_rendezvous t k s : rendezvous s -> rendezvous (ep_receive t k s).1.
Proof. unfold rendezvous, ep_receive. intros [H|[H1 H2]]; destruct (call_queue s) as [|c q]; [destruct (send_queue s)| |destruct (send_queue s)|]; destruct k; cbn; auto; try done; right; done. Qed.

Lemma rendezvous_next l s s' ev : rendezvous s -> ep_next l.1 l.2 s = Some (s', ev) -> rendezvous s'.
Proof.
  destruct l as [t a]. unfold ep_next. cbn [fst snd]. intros Hr H. destruct (ep_pcs s !! t) as [pc|]; [|now destruct a].
  assert (forall x, Some x = Some (s', ev) -> rendezvous x.1 -> rendezvous s') as Hx by (intros x [= ->]; done).
  destruct a, pc; try done; try (apply (Hx _ H)).
  - unfold ep_send. cbn [recv_queue set_ipc_message]. destruct (recv_queue s) as [|r q] eqn:Eq; [now left|]. right. destruct Hr as [|Hr]; [congruence|].
    cbn [fst]. destruct (wake_receiver_queues r (set_pending (transferred m t r) (pending_sender (set_ipc_message t m s)) (set_queues (send_queue (set_ipc_message t m s)) q (call_queue (set_ipc_message t m s)) (set_ipc_message t m s)))) as (_ & -> & ->). done.
  - unfold ep_call. cbn [recv_queue set_ipc_message]. destruct (recv_queue s) as [|r q] eqn:Eq; [now left|]. right. destruct Hr as [|Hr]; [congruence|].
    cbn [fst]. unfold ep_goto. cbn [send_queue call_queue]. destruct (wake_receiver_queues r (set_pending (transferred m t r) (Some t) (set_queues (send_queue (set_ipc_message t m s)) q (call_queue (set_ipc_message t m s)) (set_ipc_message t m s)))) as (_ & -> & ->). done.
  - destruct k; [|done|]; apply (Hx _ H); now apply receive_rendezvous.
  - unfold ep_reply. now destruct (pending_sender s).
  - unfold ep_replyRecv. apply receive_rendezvous. unfold ep_reply. now destruct (pending_sender s).
  - unfold reply_send. now case_decide.
  - unfold reply_drop. now case_decide.
  - unfold ep_woken. cbn [fst]. now destruct k, (pending_sender s).
  - done.
Qed.

Lemma rendezvous_run ls : forall s ev s' ev', rendezvous s -> run_steps ep_log ls (s, ev) = Some (s', ev') -> rendezvous s'.
Proof.
  induction ls as [|l ls IH]; intros s ev s' ev' Hr H; cbn in H; [now injection H as <- _|].
  destruct (ep_log l (s, ev)) as [p|] eqn:El; [|done]. destruct (ep_log_next _ _ _ _ El) as (s1 & ev1 & E & ->). cbn in H. apply (IH s1 (ev ++ ev1) s' ev'); [now apply (rendezvous_next l s s1 ev1)|done].
Qed.

(** C23. An endpoint with one receiver (any number of senders and callers, any
    interleaving, replies and Reply capabilities included): the messages sent are
    exactly those received, those of the tasks in the two queues and the one in the buffer,
    tag and words unchanged, so that none is lost and none received twice; and the
    receiver never waits while a sender does. *)
Theorem endpoint_delivers n ls s ev : Forall one_receiver ls -> run_steps ep_log ls (ep_init n, []) = Some (s, ev) ->
  sent ev ≡ₚ received ev ++ queued s ++ held s /\
  (recv_queue s = [] \/ send_queue s = [] /\ call_queue s = []) /\
  (ep_pcs s !! 0%nat = Some (IpcReceiving KRecv) -> sent ev ≡ₚ received ev).
Proof.
  intros H1 H. destruct (ep_run_ret ls _ _ _ _ H1 (ep_init_ok n) H) as [Ho Hb].
  { cbn. unfold held. cbn. now destruct n. }
  assert (rendezvous (ep_init n)) as Hr0 by now left. pose proof (rendezvous_run ls _ _ _ _ Hr0 H) as Hr. split_and!; [done|done|].
  intros Hpc. pose proof (eo_recv _ Ho) as Eq. rewrite Hpc in Eq. cbn in Eq. destruct Hr as [Hr|[H2 H3]]; [congruence|].
  unfold queued, held in Hb. rewrite H2, H3, Hpc in Hb. cbn in Hb. now rewrite app_nil_r in Hb.
Qed.

(** ** A caller that is forgotten *)

(** A caller that is in no queue and that no reply is due to. *)
Record forgotten (c : nat) (s : Endpoint) : Prop := {
  fg_pc : ep_pcs s !! c = Some IpcCalling;
  fg_call : c ∉ call_queue s;
  fg_send : c ∉ send_queue s;
  fg_recv : c ∉ recv_queue s;
  fg_pending : pending_sender s <> Some c;
  fg_replies : c ∉ replies s
}.

Lemma forgotten_receive c t k s : forgotten c s -> t <> c -> forgotten c (ep_receive t k s).1.
Proof.
  intros [H1 H2 H3 H4 H5 H6] Hn. unfold ep_receive. destruct (call_queue s) as [|d q] eqn:Ec; [destruct (send_queue s) as [|x q] eqn:Es|]; cbn [fst].
  - constructor; ep_fields; try done; [now rewrite list_lookup_insert_ne|set_solver].
  - rewrite not_elem_of_cons in H3. constructor; ep_fields; try tauto. rewrite list_lookup_insert_ne by (destruct H3; congruence). done.
  - rewrite not_elem_of_cons in H2. assert (Some d <> Some c) by (intros [= ->]; tauto). destruct k; constructor; ep_fields; try tauto; set_solver.
Qed.

Lemma forgotten_wake c d m s : forgotten c s -> d <> c -> forgotten c (wake_sender d m s).
Proof. intros [H1 H2 H3 H4 H5 H6] Hn. constructor; ep_fields; try done. now rewrite list_lookup_insert_ne. Qed.

Lemma forgotten_wake_receiver c r s : forgotten c s -> forgotten c (wake_receiver r s).
Proof.
  intros Hf. unfold wake_receiver. destruct (ep_pcs s !! r) as [pc|] eqn:E; [|done]. destruct pc; try done. destruct Hf as [H1 H2 H3 H4 H5 H6].
  constructor; ep_fields; try done. rewrite list_lookup_insert_ne; [done|]. intros ->. congruence.
Qed.

Lemma forgotten_set_pending c m o s : forgotten c s -> o <> Some c -> forgotten c (set_pending m o s).
Proof. intros [H1 H2 H3 H4 H5 H6] Hn. now constructor. Qed.

Lemma forgotten_goto c t pc s : forgotten c s -> t <> c -> forgotten c (ep_goto t pc s).
Proof. intros [H1 H2 H3 H4 H5 H6] Hn. constructor; ep_fields; try done. now rewrite list_lookup_insert_ne. Qed.

Lemma forgotten_queues c sq rq cq s : forgotten c s -> c ∉ sq -> c ∉ rq -> c ∉ cq -> forgotten c (set_queues sq rq cq s).
Proof. intros [H1 H2 H3 H4 H5 H6] ? ? ?. now constructor. Qed.

Lemma forgotten_message c t m s : forgotten c s -> forgotten c (set_ipc_message t m s).
Proof. intros [H1 H2 H3 H4 H5 H6]. now constructor. Qed.

Lemma forgotten_set_replies c l s : forgotten c s -> c ∉ l -> forgotten c (set_replies l s).
Proof. intros [H1 H2 H3 H4 H5 H6] ?. now constructor. Qed.

Lemma forgotten_reply c t m s : forgotten c s -> forgotten c (ep_reply t m s).1.
Proof.
  intros Hf. unfold ep_reply. destruct (pending_sender s) as [d|] eqn:E; [|done]. cbn [fst]. apply forgotten_wake; [now apply forgotten_set_pending|].
  intros ->. now destruct (fg_pending _ _ Hf).
Qed.

Lemma forgotten_next c l s s' ev : forgotten c s -> ep_next l.1 l.2 s = Some (s', ev) -> forgotten c s'.
Proof.
  destruct l as [t a]. unfold ep_next. cbn [fst snd]. intros Hf H. destruct (ep_pcs s !! t) as [pc|] eqn:Hpc; [|now destruct a].
  assert (forall x, Some x = Some (s', ev) -> forgotten c x.1 -> forgotten c s') as Hx by (intros x [= ->]; done).
  assert (pc <> IpcCalling -> t <> c) as Ht by (intros Hn ->; pose proof (fg_pc _ _ Hf); congruence).
  pose proof (fg_send _ _ Hf). pose proof (fg_call _ _ Hf). pose proof (fg_recv _ _ Hf) as Hrecv. pose proof (fg_replies _ _ Hf).
  destruct a, pc; try done; try (specialize (Ht ltac:(done))); try (apply (Hx _ H)).
  - pose proof (forgotten_message c t m s Hf) as Hm. unfold ep_send. cbn [recv_queue set_ipc_message]. destruct (recv_queue s) as [|r q] eqn:Eq; cbn [fst].
    + apply forgotten_goto; [|done]. apply forgotten_queues; [done|ep_fields; set_solver..].
    + apply forgotten_wake_receiver, forgotten_set_pending; [|apply Hf]. apply forgotten_queues; [done|ep_fields; set_solver..].
  - pose proof (forgotten_message c t m s Hf) as Hm. unfold ep_call. cbn [recv_queue set_ipc_message]. destruct (recv_queue s) as [|r q] eqn:Eq; cbn [fst].
    + apply forgotten_goto; [|done]. apply forgotten_queues; [done|ep_fields; set_solver..].
    + apply forgotten_goto; [|done]. apply forgotten_wake_receiver, forgotten_set_pending; [|congruence]. apply forgotten_queues; [done|ep_fields; set_solver..].
  - destruct k; [|done|]; apply (Hx _ H); now apply forgotten_receive.
  - now apply forgotten_reply.
  - unfold ep_replyRecv. apply forgotten_receive; [|done]. destruct (pending_sender s); [now apply forgotten_reply|done].
  - unfold reply_send. case_decide; [|done]. cbn [fst]. apply forgotten_wake; [|intros ->; done]. apply forgotten_set_replies; [done|]. rewrite list_elem_of_filter. tauto.
  - unfold reply_drop. case_decide; [|done]. cbn [fst]. apply forgotten_wake; [|intros ->; done]. apply forgotten_set_replies; [done|]. rewrite list_elem_of_filter. tauto.
  - unfold ep_woken. cbn [fst]. apply forgotten_goto; [|done]. destruct (pending_sender s) as [d|] eqn:E; [|now destruct k].
    assert (d <> c) by (intros ->; now destruct (fg_pending _ _ Hf)). destruct k; [|done|].
    + apply forgotten_wake; [|done]. now apply forgotten_set_pending.
    + apply forgotten_set_replies; [now apply forgotten_set_pending|]. apply not_elem_of_cons. done.
  - now apply forgotten_goto.
Qed.

Lemma forgotten_run c ls : forall s ev s' ev', forgotten c s -> run_steps ep_log ls (s, ev) = Some (s', ev') -> forgotten c s'.
Proof.
  induction ls as [|l ls IH]; intros s ev s' ev' Hr H; cbn in H; [now injection H as <- _|].
  destruct (ep_log l (s, ev)) as [p|] eqn:El; [|done]. destruct (ep_log_next _ _ _ _ El) as (s1 & ev1 & E & ->). cbn in H. apply (IH s1 (ev ++ ev1) s' ev'); [now apply (forgotten_next c l s s1 ev1)|done].
Qed.
End Endpoints.

(** ** Runs of the endpoint *)

Definition same_caps (caps : list Z) (from to : nat) : list Z := caps.
Definition plain (tag : Z) : Message := {| msg_tag := tag; msg_words := [0; 0; 0; 0]; msg_caps := [0; 0; 0; 0] |}.

(** A receiver waits, a task calls it, another sends. *)
Definition ipc_demo : list (nat * IpcAct) :=
  [(0%nat, AReceive KRecvCall); (1%nat, ACall (plain 7)); (0%nat, AGo); (2%nat, ASend (plain 8)); (0%nat, AReplySend 1 (plain 9)); (1%nat, AGo); (0%nat, AReceive KRecv)].

Lemma endpoint_delivers_witness : exists s ev, run_steps (ep_log same_caps) ipc_demo (ep_init 3, []) = Some (s, ev) /\
  sent ev = [payload (plain 7); payload (plain 8)] /\ sent ev ≡ₚ received ev ++ queued s ++ held s.
Proof.
  eexists _, _. split; [vm_compute; reflexivity|]. split; [reflexivity|].
  apply (endpoint_delivers same_caps 3 ipc_demo); [repeat constructor|vm_compute; reflexivity].
Defined.

(** Two receivers of an endpoint may get the same message and lose another: the messages
    for the receivers that wait go through the one [pending_msg], which a second sender
    overwrites before the first receiver, already woken, has taken its message. *)
Theorem endpoint_mixes_receivers : exists s ev,
  run_steps (ep_log same_caps)
    [(0%nat, AReceive KRecv); (1%nat, AReceive KRecv); (2%nat, ASend (plain 7)); (2%nat, ASend (plain 8)); (0%nat, AGo); (1%nat, AGo)] (ep_init 3, []) = Some (s, ev) /\
  ep_pcs s = [IpcIdle; IpcIdle; IpcIdle] /\
  sent ev = [payload (plain 7); payload (plain 8)] /\ received ev = [payload (plain 8); payload (plain 8)].
Proof. eexists _, _. split; [vm_compute; reflexivity|]. split_and!; reflexivity. Qed.

(** Two calls, both received before a reply. *)
Definition two_calls : list (nat * IpcAct) :=
  [(1%nat, ACall (plain 7)); (2%nat, ACall (plain 8)); (0%nat, AReceive KRecv); (0%nat, AReceive KRecv)].

(** A caller may be forgotten: when a second call is received before the first was
    replied to, [pending_sender] is overwritten, and the first caller stays blocked
    whatever the tasks do afterwards, replies included. *)
Theorem endpoint_forgets_caller : exists s ev, run_steps (ep_log same_caps) two_calls (ep_init 3, []) = Some (s, ev) /\
  forall ls s' ev', run_steps (ep_log same_caps) ls (s, ev) = Some (s', ev') -> ep_pcs s' !! 1%nat = Some IpcCalling.
Proof.
  eexists _, _. split; [vm_compute; reflexivity|]. intros ls s' ev' H. apply (fg_pc 1). refine (forgotten_run same_caps 1 ls _ _ s' ev' _ H).
  constructor; cbn; try done; set_solver.
Qed.

(** ** Notifications *)

(** A task is outside, blocked in [wait] with its mask, or woken. *)
Inductive NotifyPc := NfIdle | NfBlocked (mask : Z) | NfWoken (mask : Z).

Record Notify := { nf_pending : Z; nf_queue : list nat; nf_pcs : list NotifyPc }.

(** [wakeOne] *)
Definition notify_wakeOne (s : Notify) : Notify :=
  match nf_queue s with
  | [] => s
  | w :: q =>
      match nf_pcs s !! w with
      | Some (NfBlocked m) => {| nf_pending := nf_pending s; nf_queue := q; nf_pcs := <[w := NfWoken m]> (nf_pcs s) |}
      | _ => s
      end
  end.

Definition notify_signal (bits : Z) (s : Notify) : Notify :=
  notify_wakeOne {| nf_pending := Z.lor (nf_pending s) bits; nf_queue := nf_queue s; nf_pcs := nf_pcs s |}.

(** The bits of the mask are taken: the end of [wait], and [poll]. *)
Definition notify_poll (mask : Z) (s : Notify) : Z * Notify :=
  (Z.land (nf_pending s) mask, {| nf_pending := Z.ldiff (nf_pending s) mask; nf_queue := nf_queue s; nf_pcs := nf_pcs s |}).

(** The test of the loop of [wait], with the lock held: the task takes the bits or is
    appended to the queue. *)
Definition notify_wait (t : nat) (mask : Z) (s : Notify) : option Z * Notify :=
  if Z.land (nf_pending s) mask =? 0 then
    (None, {| nf_pending := nf_pending s; nf_queue := nf_queue s ++ [t]; nf_pcs := <[t := NfBlocked mask]> (nf_pcs s) |})
  else
    let '(r, s') := notify_poll mask s in
    (Some r, {| nf_pending := nf_pending s'; nf_queue := nf_queue s'; nf_pcs := <[t := NfIdle]> (nf_pcs s') |}).

Inductive NotifyAct := NSignal (bits : Z) | NPoll (mask : Z) | NWait (mask : Z) | NGo.

Definition notify_next (l : nat * NotifyAct) (s : Notify) : option Notify :=
  let t := l.1 in
  match l.2, nf_pcs s !! t with
  | NSignal bits, Some NfIdle => Some (notify_signal bits s)
  | NPoll mask, Some NfIdle => Some (notify_poll mask s).2
  | NWait mask, Some NfIdle => Some (notify_wait t mask s).2
  | NGo, Some (NfWoken mask) => Some (notify_wait t mask s).2
  | _, _ => None
  end.

Definition notify_init (n : nat) : Notify := {| nf_pending := 0; nf_queue := []; nf_pcs := replicate n NfIdle |}.

(** All tasks that wait use the same mask. *)
Definition same_mask (mask : Z) (l : nat * NotifyAct) : Prop := match l.2 with NWait m => m = mask | _ => True end.

Record notify_ok (mask : Z) (s : Notify) : Prop := {
  no_masks : forall t pc, nf_pcs s !! t = Some pc -> match pc with NfBlocked m | NfWoken m => m = mask | NfIdle => True end;
  no_queue : NoDup (nf_queue s);
  no_queued : forall t, t ∈ nf_queue s <-> nf_pcs s !! t = Some (NfBlocked mask);
  no_lost : Z.land (nf_pending s) mask <> 0 -> nf_queue s <> [] -> exists t, nf_pcs s !! t = Some (NfWoken mask)
}.

Lemma nf_goto (pcs : list NotifyPc) t pc u qc : <[t := pc]> pcs !! u = Some qc -> u = t /\ qc = pc \/ u <> t /\ pcs !! u = Some qc.
Proof. rewrite list_lookup_insert_Some. intros [(-> & -> & _)|(H & H')]; [now left|right; split; [congruence|done]]. Qed.

Lemma ldiff_none p m mask : Z.land p mask = 0 -> Z.land (Z.ldiff p m) mask = 0.
Proof.
  intros H. apply Z.bits_inj'. intros n Hn. rewrite Z.bits_0, Z.land_spec, Z.ldiff_spec. assert (Z.testbit (Z.land p mask) n = false) as Hb by (rewrite H; apply Z.bits_0).
  rewrite Z.land_spec in Hb. destruct (Z.testbit p n), (Z.testbit mask n), (Z.testbit m n); done.
Qed.

Lemma ldiff_taken p mask : Z.land (Z.ldiff p mask) mask = 0.
Proof. apply Z.bits_inj'. intros n Hn. rewrite Z.bits_0, Z.land_spec, Z.ldiff_spec. now destruct (Z.testbit p n), (Z.testbit mask n). Qed.

Lemma signal_ok mask bits s : notify_ok mask s -> notify_ok mask (notify_signal bits s).
Proof.
  intros [H1 H2 H3 H4]. unfold notify_signal, notify_wakeOne. cbn [nf_queue nf_pcs nf_pending]. destruct (nf_queue s) as [|w q] eqn:Eq.
  { constructor; cbn [nf_queue nf_pcs nf_pending]; try done. }
  assert (nf_pcs s !! w = Some (NfBlocked mask)) as Hw by (apply H3; left). rewrite Hw. apply NoDup_cons in H2 as [H2 H2']. pose proof (lookup_lt_Some _ _ _ Hw) as Hlt.
  constructor; cbn [nf_queue nf_pcs nf_pending]; [|done| |].
  - intros t pc Ht. apply nf_goto in Ht as [[-> ->]|[_ Ht]]; [done|now apply (H1 t)].
  - intros t. split.
    + intros Ht. rewrite list_lookup_insert_ne; [|congruence]. apply H3. now right.
    + intros Ht. apply nf_goto in Ht as [[-> Ht]|[Hn Ht]]; [done|]. apply H3, elem_of_cons in Ht as [|]; done.
  - intros _ _. exists w. now apply list_lookup_insert_eq.
Qed.

Lemma poll_ok mask m s : notify_ok mask s -> notify_ok mask (notify_poll m s).2.
Proof.
  intros [H1 H2 H3 H4]. constructor; cbn [notify_poll snd nf_queue nf_pcs nf_pending]; try done. intros Hp Hq. apply H4; [|done]. intros E. apply Hp. now apply ldiff_none.
Qed.

Lemma wait_ok mask t pc s : notify_ok mask s -> nf_pcs s !! t = Some pc -> pc <> NfBlocked mask -> notify_ok mask (notify_wait t mask s).2.
Proof.
  intros [H1 H2 H3 H4] Hpc Hn. pose proof (lookup_lt_Some _ _ _ Hpc) as Hlt. assert (t ∉ nf_queue s) as Hq by (intros Hq; apply H3 in Hq; congruence).
  unfold notify_wait. destruct (Z.eqb_spec (Z.land (nf_pending s) mask) 0) as [E|E]; cbn [notify_poll snd]; constructor; cbn [nf_queue nf_pcs nf_pending]; try done.
  - intros u qc Hu. apply nf_goto in Hu as [[-> ->]|[_ Hu]]; [done|now apply (H1 u)].
  - apply NoDup_app. split_and!; [done|set_solver|apply NoDup_singleton].
  - intros u. rewrite elem_of_app, list_elem_of_singleton, H3. destruct (decide (u = t)) as [->|Hne].
    + rewrite list_lookup_insert_eq by done. split; [done|]. now right.
    + rewrite list_lookup_insert_ne by done. split; [intros [|]; done|now left].
  - intros u qc Hu. apply nf_goto in Hu as [[-> ->]|[_ Hu]]; [done|now apply (H1 u)].
  - intros u. rewrite H3. destruct (decide (u = t)) as [->|Hne]; [rewrite list_lookup_insert_eq, Hpc by done; split; congruence|now rewrite list_lookup_insert_ne].
  - intros Hp _. destruct Hp. apply ldiff_taken.
Qed.

Lemma notify_next_ok mask l s s' : same_mask mask l -> notify_ok mask s -> notify_next l s = Some s' -> notify_ok mask s'.
Proof.
  destruct l as [t a]. unfold same_mask, notify_next. cbn [fst snd]. intros Hm Ho H. destruct (nf_pcs s !! t) as [pc|] eqn:Hpc; [|now destruct a].
  destruct a, pc; try done; injection H as <-.
  - now apply signal_ok.
  - now apply poll_ok.
  - rewrite Hm. now apply (wait_ok _ _ NfIdle).
  - pose proof (no_masks _ _ Ho t _ Hpc) as E. cbn in E. rewrite E in *. now apply (wait_ok _ _ (NfWoken mask)).
Qed.

Lemma notify_run_ok mask ls : forall s s', Forall (same_mask mask) ls -> notify_ok mask s -> run_steps notify_next ls s = Some s' -> notify_ok mask s'.
Proof.
  induction ls as [|l ls IH]; intros s s' Hm Ho H; cbn in H; [now injection H as <-|]. apply Forall_cons in Hm as [Hl Hm].
  destruct (notify_next l s) as [s1|] eqn:E; [|done]. apply (IH s1); [done|now apply (notify_next_ok mask l s)|done].
Qed.

Lemma notify_init_ok mask n : notify_ok mask (notify_init n).
Proof.
  constructor; cbn [notify_init nf_queue nf_pcs nf_pending]; try done.
  - intros t pc Ht. now apply lookup_replicate in Ht as [-> _].
  - apply NoDup_nil_2.
  - intros t. split; [set_solver|]. intros Ht. now apply lookup_replicate in Ht as [? _].
Qed.

(** C24. When all tasks wait on a notification with the same mask no signal is lost: while
    a task is blocked and bits of its mask are pending, a task has been woken, and its
    next step takes those bits. *)
Theorem notify_wakes_waiter mask n ls s : Forall (same_mask mask) ls -> run_steps notify_next ls (notify_init n) = Some s ->
  forall t, nf_pcs s !! t = Some (NfBlocked mask) -> Z.land (nf_pending s) mask <> 0 ->
  exists u, nf_pcs s !! u = Some (NfWoken mask) /\ (notify_wait u mask s).1 = Some (Z.land (nf_pending s) mask).
Proof.
  intros Hm H t Ht Hp. pose proof (notify_run_ok mask ls _ _ Hm (notify_init_ok mask n) H) as Ho.
  destruct (no_lost _ _ Ho Hp) as [u Hu]; [intros E; apply (no_queued _ _ Ho) in Ht; rewrite E in Ht; set_solver|].
  exists u. split; [done|]. unfold notify_wait. apply Z.eqb_neq in Hp. now rewrite Hp.
Qed.

Lemma notify_wakes_waiter_witness : exists u, [NfWoken 1; NfBlocked 1; NfIdle] !! u = Some (NfWoken 1) /\
  (notify_wait u 1 {| nf_pending := 1; nf_queue := [1%nat]; nf_pcs := [NfWoken 1; NfBlocked 1; NfIdle] |}).1 = Some 1.
Proof.
  apply (notify_wakes_waiter 1 3 [(0%nat, NWait 1); (1%nat, NWait 1); (2%nat, NSignal 1)] {| nf_pending := 1; nf_queue := [1%nat]; nf_pcs := [NfWoken 1; NfBlocked 1; NfIdle] |}) with (t := 1%nat);
    [repeat constructor|vm_compute; reflexivity|reflexivity|vm_compute; discriminate].
Defined.

(** With two masks a signal may be lost: [signal] wakes the first task of the queue
    whatever its mask; that task blocks again, and the one whose bits are pending
    stays blocked although its condition holds. *)
Theorem notify_wakes_wrong_waiter : exists s,
  run_steps notify_next [(0%nat, NWait 1); (1%nat, NWait 2); (2%nat, NSignal 2); (0%nat, NGo)] (notify_init 3) = Some s /\
  nf_pcs s = [NfBlocked 1; NfBlocked 2; NfIdle] /\ Z.land (nf_pending s) 2 <> 0 /\
  forall a, notify_next (0%nat, a) s = None /\ notify_next (1%nat, a) s = None.
Proof. eexists. split; [vm_compute; reflexivity|]. split_and!; [reflexivity|vm_compute; discriminate|intros []; done]. Qed.
