(* ===== verification/Headers.v ===== *)
(** * The headers and the start of the game

    The parts of [apps/doom/include] and of the start-up that are code: the format
    macros of [inttypes.h], the error numbers of [errno.h], the macros of
    [sys/stat.h], [assert], the constants of [stdio.h], and [main] of [main.zig] with
    the stubs of [doom_stub.c].  They are checked against the components they have
    to agree with: the formatter, the kernel's error codes, [fseek] and
    [__assert_fail]. *)

From S2P Require Import Prelude Machine Memory CString Process TestKernel Format FormatCorrect HeapAlloc Stdio Files Handlers.

(** ** inttypes.h *)

Inductive pri_letter := Pri_d | Pri_i | Pri_u | Pri_x | Pri_X.
Inductive pri_width := Pri8 | Pri16 | Pri32 | Pri64.

Definition PRI (l : pri_letter) (w : pri_width) : list Z :=
  match w, l with
  | Pri64, Pri_d => bytes_of "lld" | Pri64, Pri_i => bytes_of "lli" | Pri64, Pri_u => bytes_of "llu"
  | Pri64, Pri_x => bytes_of "llx" | Pri64, Pri_X => bytes_of "llX"
  | _, Pri_d => bytes_of "d" | _, Pri_i => bytes_of "i" | _, Pri_u => bytes_of "u"
  | _, Pri_x => bytes_of "x" | _, Pri_X => bytes_of "X"
  end.

(** The type a macro is for: [int8_t] ... [uint64_t]. *)
Definition pri_bits (w : pri_width) : Z := match w with Pri8 => 8 | Pri16 => 16 | Pri32 => 32 | Pri64 => 64 end.
Definition pri_signed (l : pri_letter) : bool := match l with Pri_d | Pri_i => true | _ => false end.
Definition pri_range (l : pri_letter) (w : pri_width) (v : Z) : Prop :=
  if pri_signed l then - 2 ^ (pri_bits w - 1) <= v < 2 ^ (pri_bits w - 1) else 0 <= v < 2 ^ pri_bits w.

(** The number in the base of the macro, with its sign. *)
Definition pri_text (l : pri_letter) (v : Z) : list Z :=
  number_text (match l with Pri_x | Pri_X => 16 | _ => 10 end) (match l with Pri_X => true | _ => false end) (v <? 0) 0 None false false (Z.abs v).

Definition pri_item (l : pri_letter) (w : pri_width) : item :=
  Dir (Directive [] (Digits []) None (match w with Pri64 => Mod_ll | _ => No_mod end)
    (match l with Pri_d => Conv_d | Pri_i => Conv_i | Pri_u => Conv_u | Pri_x => Conv_x | Pri_X => Conv_X end)).

Lemma pri_shown l w : show_format [pri_item l w] = 37 :: PRI l w.
Proof. now destruct l, w. Qed.

Lemma s32_in v : - 2 ^ 31 <= v < 2 ^ 31 -> s32 v = v.
Proof. intros H. unfold s32. rewrite Z.mod_small; lia. Qed.
Lemma s64_in v : - 2 ^ 63 <= v < 2 ^ 63 -> s64 v = v.
Proof. intros H. unfold s64. rewrite Z.mod_small; lia. Qed.

Lemma pri_evaluates l w v : pri_range l w v -> v <> - 2 ^ 63 -> eval_format ∅ [pri_item l w] [v] = Some (pri_text l v).
Proof.
  intros Hr Hm. assert (pri_signed l = true -> (if wide (match w with Pri64 => Mod_ll | _ => No_mod end) then s64 v else s32 v) = v) as Hs.
  { unfold pri_range in Hr. intros El. rewrite El in Hr. destruct w; cbn in *; first [apply s32_in; lia | apply s64_in; lia]. }
  assert (pri_signed l = false -> (if wide (match w with Pri64 => Mod_ll | _ => No_mod end) then u64 v else u32 v) = v /\ 0 <= v) as Hu.
  { unfold pri_range in Hr. intros El. rewrite El in Hr. destruct w; cbn in *; (split; [|lia]); first [unfold u32; rewrite Z.mod_small; lia | unfold u64; rewrite Z.mod_small; lia]. }
  assert (forall o, (out ← eval_format ∅ [] []; Some (o ++ out)) = Some o) as Hnil by (intros o; cbn; now rewrite app_nil_r).
  unfold pri_item, pri_text. cbn [eval_format]. unfold eval_directive. cbn [d_width d_prec d_mod d_conv d_flags eval_width eval_prec mbind option_bind dec_value fold_left existsb orb].
  destruct l; cbn [eval_conv pop mbind option_bind] in *; unfold checked_number; cbn [default];
    try (rewrite (Hs eq_refl); change LONG_MIN with (- 2 ^ 63); rewrite (proj2 (Z.eqb_neq v (- 2 ^ 63)) Hm); cbn; now rewrite app_nil_r);
    destruct (Hu eq_refl) as [-> Hge]; rewrite (proj2 (Z.ltb_ge v 0) Hge), Z.abs_eq by done; cbn; now rewrite app_nil_r.
Qed.

(** Every format macro of [inttypes.h] prints its type: with the format ["%"]
    followed by the macro, [vsnprintf] writes the number in the base of the macro,
    for every value of the type but the least [int64_t], which the formatter cannot
    negate. *)
Theorem pri_macros_print l w v m s n fmt : pri_range l w v -> v <> - 2 ^ 63 -> mem_ok m -> cstr m fmt (37 :: PRI l w) ->
  Zlen (pri_text l v) < n < 2 ^ 64 -> Zlen (pri_text l v) <= INT_MAX -> mapped_range m s n -> fmt + Zlen (PRI l w) + 2 <= s \/ s + n <= fmt ->
  vsnprintf s n fmt [v] m = Ret (Zlen (pri_text l v)) (poke_list m s (pri_text l v ++ [0])).
Proof.
  intros Hr Hv Hm Hc Hn Hmax Hmap Hd. pose proof (Zlen_nonneg (pri_text l v)) as Hz. rewrite <- pri_shown in Hc.
  assert (Zlen (show_format [pri_item l w]) = Zlen (PRI l w) + 1) as El by (rewrite pri_shown, Zlen_cons; lia).
  assert (Z.min n (Zlen (pri_text l v) + 1) = Zlen (pri_text l v) + 1) as Emin by lia.
  rewrite (vsnprintf_ret m s n fmt [pri_item l w] [v] ∅ (pri_text l v)); try done.
  - rewrite take_ge; [done|]. unfold Zlen in Hn. lia.
  - lia.
  - now destruct l, w.
  - now apply pri_evaluates.
  - rewrite Emin. intros a Ha. apply Hmap. lia.
  - rewrite Emin, El. lia.
Qed.

Definition pri_page : mem := page_with [(4100, 37 :: PRI Pri_X Pri64 ++ [0])].

Lemma pri_macros_print_witness : vsnprintf 4300 32 4100 [2 ^ 64 - 1] pri_page = Ret 16 (poke_list pri_page 4300 (replicate 16 70 ++ [0])).
Proof.
  apply (pri_macros_print Pri_X Pri64 (2 ^ 64 - 1) pri_page 4300 32 4100); [split; vm_compute; congruence|vm_compute; discriminate|by_eval|by_eval| |vm_compute; discriminate| |].
  - split; vm_compute; reflexivity.
  - apply mapped_rangeb_ok. vm_compute. reflexivity.
  - left. vm_compute. discriminate.
Defined.

(** ** errno.h *)

Inductive errno_code :=
| EPERM | ENOENT | ESRCH | EINTR | EIO | ENXIO | EBADF | ECHILD | EAGAIN | ENOMEM | EACCES | EFAULT | EBUSY | EEXIST | ENODEV
| ENOTDIR | EISDIR | EINVAL | ENFILE | EMFILE | ENOSPC | EROFS | EPIPE | ERANGE | ENOSYS.

Definition errno_number (e : errno_code) : Z :=
  match e with
  | EPERM => 1 | ENOENT => 2 | ESRCH => 3 | EINTR => 4 | EIO => 5 | ENXIO => 6 | EBADF => 9 | ECHILD => 10 | EAGAIN => 11
  | ENOMEM => 12 | EACCES => 13 | EFAULT => 14 | EBUSY => 16 | EEXIST => 17 | ENODEV => 19 | ENOTDIR => 20 | EISDIR => 21
  | EINVAL => 22 | ENFILE => 23 | EMFILE => 24 | ENOSPC => 28 | EROFS => 30 | EPIPE => 32 | ERANGE => 34 | ENOSYS => 38
  end.

(** The number a C program would have for an error of the kernel. *)
Definition errno_of (e : Error) : option errno_code :=
  match e with
  | PermissionDenied => Some EPERM | BadHandle => Some EBADF | BadAddress => Some EFAULT | WouldBlock => Some EAGAIN
  | OutOfMemory => Some ENOMEM | NotFound => Some ENOENT | AlreadyExists => Some EEXIST | InvalidArgument => Some EINVAL
  | NoDevice => Some ENODEV | NoSpace => Some ENOSPC | IoError => Some EIO | Unsupported => Some ENOSYS | Unknown => None
  end.

(** The codes the kernel returns are the negated error numbers of [errno.h], and the
    numbers of the header are pairwise different: a wrapper's negative result [r] stands
    for the error whose number is [- r]. *)
Theorem kernel_codes_are_errno :
  (forall e, code e = Z.opp <$> (errno_number <$> errno_of e)) /\
  (forall e c, errno_of e = Some c -> fromCode (- errno_number c) = e) /\
  (forall c c', errno_number c = errno_number c' -> c = c').
Proof. split_and!; [now intros []|intros [] c; try done; intros [= <-]; done|intros [] []; done]. Qed.

(** ** sys/stat.h *)

Definition S_IFMT : Z := 61440.
Definition S_IFREG : Z := 32768.
Definition S_IFDIR : Z := 16384.
Definition S_IFCHR : Z := 8192.
Definition S_IFBLK : Z := 24576.
Definition S_IFIFO : Z := 4096.
Definition S_IFLNK : Z := 40960.

Definition S_ISDIR (m : Z) : bool := Z.land m S_IFMT =? S_IFDIR.
Definition S_ISREG (m : Z) : bool := Z.land m S_IFMT =? S_IFREG.
Definition S_ISCHR (m : Z) : bool := Z.land m S_IFMT =? S_IFCHR.
Definition S_ISBLK (m : Z) : bool := Z.land m S_IFMT =? S_IFBLK.

(** The permission bits. *)
Definition S_IRWXU : Z := 448.
Definition S_IRUSR : Z := 256.
Definition S_IWUSR : Z := 128.
Definition S_IXUSR : Z := 64.
Definition S_IRWXG : Z := 56.
Definition S_IRGRP : Z := 32.
Definition S_IWGRP : Z := 16.
Definition S_IXGRP : Z := 8.
Definition S_IRWXO : Z := 7.
Definition S_IROTH : Z := 4.
Definition S_IWOTH : Z := 2.
Definition S_IXOTH : Z := 1.

Lemma stat_type ty perm : ty ∈ [S_IFREG; S_IFDIR; S_IFCHR; S_IFBLK; S_IFIFO; S_IFLNK] -> Z.land perm S_IFMT = 0 -> Z.land (Z.lor ty perm) S_IFMT = ty.
Proof.
  intros Ht Hp. rewrite Z.land_lor_distr_l, Hp, Z.lor_0_r. repeat (apply elem_of_cons in Ht as [->|Ht]; [done|]). set_solver.
Qed.

(** The type tests tell the types apart, whatever the permissions. *)
Lemma stat_tests ty perm : ty ∈ [S_IFREG; S_IFDIR; S_IFCHR; S_IFBLK; S_IFIFO; S_IFLNK] -> Z.land perm S_IFMT = 0 ->
  let m := Z.lor ty perm in
  (S_ISREG m = true <-> ty = S_IFREG) /\ (S_ISDIR m = true <-> ty = S_IFDIR) /\ (S_ISCHR m = true <-> ty = S_IFCHR) /\ (S_ISBLK m = true <-> ty = S_IFBLK).
Proof. intros Ht Hp m. unfold S_ISREG, S_ISDIR, S_ISCHR, S_ISBLK, m. rewrite (stat_type ty perm Ht Hp), !Z.eqb_eq. done. Qed.

(** The permission bits are single bits in a row, each group is its three bits, and they are apart from the type. *)
Lemma stat_permissions :
  [S_IXOTH; S_IWOTH; S_IROTH; S_IXGRP; S_IWGRP; S_IRGRP; S_IXUSR; S_IWUSR; S_IRUSR] = Z.shiftl 1 <$> seqZ 0 9 /\
  S_IRWXU = Z.lor S_IRUSR (Z.lor S_IWUSR S_IXUSR) /\ S_IRWXG = Z.lor S_IRGRP (Z.lor S_IWGRP S_IXGRP) /\
  S_IRWXO = Z.lor S_IROTH (Z.lor S_IWOTH S_IXOTH) /\ Z.land (Z.lor (Z.lor S_IRWXU S_IRWXG) S_IRWXO) S_IFMT = 0.
Proof. done. Qed.

(** ** assert.h and stdio.h *)

Section macros.
Context {K : Kernel} {L : Layout}.

(** [assert(expr)] without [NDEBUG]; the strings are those of the expression, the file
    and the function. *)
Definition assert (expr : bool) (text file line fn : Z) : ST proc unit :=
  if expr then mret tt else __assert_fail text file line fn.

Definition EOF : Z := -1.
Definition SEEK_SET : Z := 0.
Definition SEEK_CUR : Z := 1.
Definition SEEK_END : Z := 2.

(** A [whence] that is none of the constants of [stdio.h] is refused; [SEEK_END] finds
    the size of the file. *)
Lemma fseek_constants (s : proc) i d a : file_at s i d a -> Zlen (a_data a) <= LONG_MAX ->
  (forall offset whence, LONG_MIN <= offset <= LONG_MAX -> whence ∉ [SEEK_SET; SEEK_CUR; SEEK_END] -> fseek (Some i) offset whence s = Ret EOF s) /\
  exists s', fseek (Some i) 0 SEEK_END s = Ret 0 s' /\ ftell (Some i) s' = Ret (Zlen (a_data a)) s'.
Proof.
  intros Hf Hl. pose proof (Zlen_nonneg (a_data a)) as Hz. split.
  - intros offset whence Ho Hw. rewrite !not_elem_of_cons in Hw. destruct Hw as (H0 & H1 & H2 & _). unfold SEEK_SET, SEEK_CUR, SEEK_END in *.
    assert (seek_target a offset whence = None) as E by (unfold seek_target; now rewrite !(proj2 (Z.eqb_neq _ _))).
    pose proof (fseek_ftell_ret s i d a offset whence Hf Ho) as H. rewrite E in H. now destruct H.
  - pose proof (fseek_ftell_ret s i d a 0 SEEK_END Hf) as H. cbn [seek_target SEEK_END] in H. unfold LONG_MIN, LONG_MAX in *.
    change (seek_target a 0 SEEK_END) with (Some (Zlen (a_data a) + 0)) in H. cbn [from_option] in H. rewrite Z.add_0_r in H.
    rewrite (proj2 (Z.leb_le _ _) Hz) in H. destruct H as [(E1 & _ & E2 & _) _]; [lia|lia|]. eauto.
Qed.
End macros.

(** ** main.zig and doom_stub.c *)

Section main.
Context {S : Type} (Create : list (list Z) -> ST S unit) (Tick : ST S unit).

Definition main_args : list (list Z) := [bytes_of "doom"; bytes_of "-iwad"; bytes_of "/doom1.wad"].

(** [while (true) doomgeneric_Tick()], [n] times at most. *)
Fixpoint tick_loop (n : nat) : ST S unit :=
  match n with O => no_fuel | Datatypes.S n' => Tick;; tick_loop n' end.

Definition main (n : nat) : ST S unit := Create main_args;; tick_loop n.

Fixpoint ticked (k : nat) (s s' : S) : Prop :=
  match k with O => s = s' | Datatypes.S k' => exists s1, Tick s = Ret tt s1 /\ ticked k' s1 s' end.

Lemma tick_loop_runs k : forall n s s', (k < n)%nat -> ticked k s s' -> tick_loop n s = tick_loop (n - k) s'.
Proof.
  induction k as [|k IH]; intros n s s' Hn H; [cbn in H; subst; now replace (n - 0)%nat with n by lia|]. destruct H as (s1 & E & H). destruct n as [|n]; [lia|].
  cbn [tick_loop]. erewrite bind_ret by exact E. rewrite (IH n s1 s') by (done || lia). done.
Qed.

Lemma tick_loop_never n : forall s a s', tick_loop n s <> Ret a s'.
Proof. induction n as [|n IH]; intros s a s' H; [done|]. cbn [tick_loop] in H. unfold mbind, ST_bind in H. destruct (Tick s); try done. now apply IH in H. Qed.

(** The program runs until the game exits: it never returns, and when the game exits in
    a tick the process ends with its code, having done the ticks before. *)
Lemma main_runs s s0 s1 s2 k n c : Create main_args s = Ret tt s0 -> ticked k s0 s1 -> Tick s1 = Exited c s2 -> (k < n)%nat ->
  main n s = Exited c s2 /\ forall n' a s', main n' s <> Ret a s'.
Proof.
  intros E0 Ht Ex Hn. unfold main. split; [|intros n' a s' H; erewrite bind_ret in H by exact E0; now apply tick_loop_never in H].
  erewrite bind_ret by exact E0. rewrite (tick_loop_runs k n s0 s1 Hn Ht). destruct (n - k)%nat as [|j] eqn:Ej; [lia|]. cbn [tick_loop]. unfold mbind, ST_bind. now rewrite Ex.
Qed.
End main.

(** The stubs of the other processors. *)
Definition stub_Create {S} (argv : list (list Z)) : ST S unit := mret tt.
Definition stub_Tick {S} : ST S unit := mret tt.

Lemma stub_runs_forever {S} (s : S) n : main stub_Create stub_Tick n s = NoFuel.
Proof. unfold main, stub_Create. change (tick_loop stub_Tick n s = NoFuel). induction n as [|n IH]; [done|exact IH]. Qed.
