(* ===== verification/CMemory.v ===== *)
(** * The memory of the C code is the memory of the kernel

    The C runtime is modelled over a flat memory of mapped ranges and bytes
    (Memory.v); the kernel gives a process the memory of its page tables, anonymous maps and
    physical pages (MemorySystem.v).  Here the two are put together: the loads,
    stores and [mmap]s of a C program, made on a machine started from its memory
    map, are answered as the flat memory answers them. *)

From stdpp Require Import gmap.
From S2P Require Import Prelude Machine Memory Process AddressSpace AddressSpaceCorrect AddressSpaceProtect PageTable PageTableCorrect Paging PageFault PageFaultCorrect.
From S2P Require Import Mapping VirtualMemory FaultHandled Reclaim ProcessMemory FlatMemory Buddy BuddyCorrect PhysicalMemory MemorySystem.

(** ** Accesses of a C program *)

Inductive CAccess := CLoad (p : Z) | CStore (p v : Z) | CMmap (n : Z).

(** What the access asks of the kernel: [innigkeit_mmap] asks for memory to read and
    write, rounded up to pages. *)
Definition c_op (a : CAccess) : Op :=
  match a with
  | CLoad p => OpLoad p
  | CStore p v => OpStore p (u8 v)
  | CMmap n => OpMap None (page_round n) rw None
  end.

(** The answers of the kernel are those of the flat memory: a load returns its byte, a
    store is made, a new range was not mapped and is filled with zeros.  The kernel may refuse
    an [mmap], and may end the thread for want of memory; an access the flat memory
    faults at, which C leaves undefined, ends the comparison. *)
Inductive c_agrees : list CAccess -> list Answer -> mem -> Prop :=
  | agrees_nil m : c_agrees [] [] m
  | agrees_load p b accs answers m : load8 p m = Ret b m -> c_agrees accs answers m -> c_agrees (CLoad p :: accs) (Loaded b :: answers) m
  | agrees_store p v accs answers m m1 : store8 p v m = Ret tt m1 -> c_agrees accs answers m1 -> c_agrees (CStore p v :: accs) (Stored :: answers) m
  | agrees_mmap n r accs answers m :
      (forall x, address r <= x < address r + page_round n -> is_mapped m x = false /\ peek (map_region m (address r) (page_round n)) x = Some 0) ->
      c_agrees accs answers (map_region m (address r) (page_round n)) -> c_agrees (CMmap n :: accs) (Mapped r :: answers) m
  | agrees_refused n accs answers m : c_agrees accs answers m -> c_agrees (CMmap n :: accs) (Refused :: answers) m
  | agrees_killed a accs answers m : match a with CMmap _ => False | _ => True end -> c_agrees (a :: accs) (Killed OutOfMemory :: answers) m
  | agrees_undefined a accs answers m :
      match a with CLoad p => load8 p m = Fault | CStore p v => store8 p v m = Fault | CMmap _ => False end -> c_agrees (a :: accs) answers m.

(** ** The relation *)

Record same_bytes (m : mem) (f : Flat) : Prop := {
  sb_mapped : forall x, is_mapped m x = true -> exists t, flat_mapping f x = Some t /\ allowed_by (protection_of t) read = true /\ allowed_by (protection_of t) write = true;
  sb_bytes : forall x, is_mapped m x = true -> flat_byte f x = default 0 (bytes m !! x);
  sb_written : forall x b, bytes m !! x = Some b -> is_mapped m x = true
}.

Lemma same_bytes_same m f g : flat_same f g -> same_bytes m f -> same_bytes m g.
Proof. intros [E1 E2] [H1 H2 H3]. constructor; [|intros x Hx; rewrite E2; auto|done]. intros x Hx. rewrite E1. auto. Qed.

Lemma in_region_iff x a n : in_region x (a, n) = true <-> contains (VRange a n) x.
Proof. unfold in_region, contains, after. cbn [fst snd address size]. rewrite andb_true_iff, Z.leb_le, Z.ltb_lt. done. Qed.

Lemma map_region_mapped m a n x : is_mapped (map_region m a n) x = true <-> contains (VRange a n) x \/ is_mapped m x = true.
Proof. unfold is_mapped, map_region. cbn [regions existsb]. rewrite orb_true_iff, in_region_iff. done. Qed.

Lemma load_agrees f f1 m p a : same_bytes m f -> flat_step (OpLoad p) a f f1 ->
  load8 p m = Fault \/ a = Killed OutOfMemory \/ exists b, a = Loaded b /\ load8 p m = Ret b m /\ same_bytes m f1.
Proof.
  intros Hs Hf. destruct (is_mapped m p) eqn:Hp; [right|left; now apply load8_fault]. destruct (sb_mapped _ _ Hs p Hp) as (t & Ht & Hr & Hw). inversion Hf; subst; try done.
  - right. eexists. split; [done|]. split; [|now apply (same_bytes_same m f)]. apply load8_ret. unfold peek. now rewrite Hp, (sb_bytes _ _ Hs p Hp).
  - destruct H as [-> ->]. destruct e; [done|congruence| |now left]. destruct H0 as (t' & Ht' & Hn). rewrite Ht in Ht'. injection Ht' as <-. congruence.
Qed.

Lemma store_agrees f f1 m p v a : same_bytes m f -> flat_step (OpStore p (u8 v)) a f f1 ->
  store8 p v m = Fault \/ a = Killed OutOfMemory \/ exists m1, a = Stored /\ store8 p v m = Ret tt m1 /\ same_bytes m1 f1.
Proof.
  intros Hs Hf. unfold store8. destruct (is_mapped m p) eqn:Hp; [right|now left]. destruct (sb_mapped _ _ Hs p Hp) as (t & Ht & Hr & Hw). inversion Hf; subst; try done.
  - right. exists (poke m p v). split; [done|]. split; [done|]. destruct Hs as [S1 S2 S3]. constructor; unfold poke; cbn [bytes].
    + intros x Hx. rewrite H3. now apply S1.
    + intros x Hx. rewrite H7. destruct (Z.eqb_spec x p) as [->|Hn]; [now rewrite lookup_insert_eq|]. rewrite lookup_insert_ne by congruence. now apply S2.
    + intros x b Hb. change (is_mapped m x = true). apply lookup_insert_Some in Hb as [[<- _]|[_ Hb]]; [done|]. now apply (S3 x b).
  - destruct H as [-> ->]. destruct e; [done|congruence| |now left]. destruct H0 as (t' & Ht' & Hn). rewrite Ht in Ht'. injection Ht' as <-. congruence.
Qed.

Lemma mmap_agrees f f1 m n a : same_bytes m f -> flat_step (OpMap None (page_round n) rw None) a f f1 ->
  a = Refused /\ same_bytes m f1 \/
  exists r, a = Mapped r /\ same_bytes (map_region m (address r) (page_round n)) f1 /\
    forall x, address r <= x < address r + page_round n -> is_mapped m x = false /\ peek (map_region m (address r) (page_round n)) x = Some 0.
Proof.
  intros Hs Hf. inversion Hf; subst; try done; [right|left; split; [done|now apply (same_bytes_same m f)]]. exists r. split; [done|].
  match goal with A : forall x, contains _ x -> _, B : forall x, flat_mapping f1 x = _, C : forall x, flat_byte f1 x = _ |- _ =>
    rename A into Hnew, B into Hmap1, C into Hbyte1 end.
  assert (forall x, contains (VRange (address r) (page_round n)) x -> is_mapped m x = false /\ bytes m !! x = None) as Hfree.
  { intros x Hx. destruct (Hnew x Hx) as [Hn _]. assert (is_mapped m x = false) as Hm.
    { destruct (is_mapped m x) eqn:E; [|done]. destruct (sb_mapped _ _ Hs x E) as (t & Ht & _). congruence. }
    split; [done|]. destruct (bytes m !! x) as [b|] eqn:Eb; [|done]. apply (sb_written _ _ Hs) in Eb. congruence. }
  split; [constructor|].
  - intros x Hx. rewrite Hmap1. destruct (decide _) as [Hc|Hc]; [eexists; done|]. apply map_region_mapped in Hx as [Hx|Hx]; [done|]. now apply (sb_mapped _ _ Hs).
  - intros x Hx. change (bytes (map_region m (address r) (page_round n))) with (bytes m). destruct (decide (contains (VRange (address r) (page_round n)) x)) as [Hc|Hc].
    + destruct (Hfree x Hc) as [_ ->]. now apply Hnew.
    + rewrite Hbyte1. apply map_region_mapped in Hx as [Hx|Hx]; [done|]. now apply (sb_bytes _ _ Hs).
  - intros x b Hb. apply map_region_mapped. right. now apply (sb_written _ _ Hs x b).
  - intros x Hx. assert (contains (VRange (address r) (page_round n)) x) as Hc by (apply in_region_iff; unfold in_region; cbn; lia).
    destruct (Hfree x Hc) as [Hm Hb]. split; [done|]. unfold peek. change (bytes (map_region m (address r) (page_round n))) with (bytes m).
    rewrite Hb, (proj2 (map_region_mapped m _ _ x)) by now left. done.
Qed.

Lemma c_run_agrees debug accs : forall answers f f' m, same_bytes m f -> flat_run debug (c_op <$> accs) answers f f' ->
  Forall (fun a => match a with CMmap n => page_round n < 2 ^ 63 | _ => True end) accs -> c_agrees accs answers m.
Proof.
  induction accs as [|a accs IH]; intros answers f f' m Hs Hf Hn; cbn [fmap list_fmap] in Hf; inversion Hf as [|? ? ? ? ? f1 ? Hstep Hrun|? ? ? ? Hpanic]; subst; [constructor| |];
    apply Forall_cons in Hn as [Hna Hn].
  2:{ destruct a; cbn in *; try done. exfalso. lia. }
  destruct a as [p|p v|n]; cbn [c_op] in *.
  - destruct (load_agrees _ _ _ _ _ Hs Hstep) as [E|[->|(b & -> & E & Hs1)]]; [now apply agrees_undefined|now apply agrees_killed|]. apply agrees_load; [done|]. now apply (IH _ f1 f').
  - destruct (store_agrees _ _ _ _ _ _ Hs Hstep) as [E|[->|(m1 & -> & E & Hs1)]]; [now apply agrees_undefined|now apply agrees_killed|]. apply (agrees_store _ _ _ _ _ m1); [done|]. now apply (IH _ f1 f').
  - destruct (mmap_agrees _ _ _ _ _ Hs Hstep) as [[-> Hs1]|(r & -> & Hs1 & Hx)]; [apply agrees_refused; now apply (IH _ f1 f')|]. apply agrees_mmap; [done|]. now apply (IH _ f1 f').
Qed.

(** The accesses with what the kernel's caches have for them. *)
Definition c_ops (accs : list (bool * Resources * CAccess)) : list (bool * Resources * Op) := (fun '(alloc, av, a) => (alloc, av, c_op a)) <$> accs.

Definition c_access_ok (st : bool * Resources * CAccess) : Prop :=
  let '(_, av, a) := st in
  match a with CMmap n => 0 <= n | CLoad p | CStore p _ => 0 <= p < 2 ^ 47 /\ chunk_available av = true end.

Definition c_mapped (accs : list (bool * Resources * CAccess)) : Z := foldr (fun st n => match st.2 with CMmap k => page_round k | _ => 0 end + n) 0 accs.

Lemma page_round_nonneg n : 0 <= n -> 0 <= page_round n.
Proof. intros H. unfold page_round. assert (0 <= (n + 4095) / 4096) by (apply Z.div_pos; lia). lia. Qed.

Lemma c_ops_ok accs : Forall c_access_ok accs -> Forall (op_ok (address user_memory_range)) (c_ops accs) /\ total_mapped (c_ops accs).*2 = c_mapped accs /\
  0 <= c_mapped accs /\ forall k, c_mapped accs < k -> Forall (fun a => match a with CMmap n => page_round n < k | _ => True end) accs.*2.
Proof.
  induction 1 as [|[[alloc av] a] accs Ha _ (I1 & I2 & I3 & I4)]; [split_and!; try done; constructor|]. cbn [c_ops fmap list_fmap] in *. split_and!.
  - constructor; [|done]. destruct a; cbn in *; try done. split; [now apply page_round_nonneg|done].
  - cbn [total_mapped foldr c_mapped snd]. unfold total_mapped in I2. unfold c_mapped in I2. rewrite <- I2. now destruct a.
  - cbn [c_mapped foldr snd]. fold (c_mapped accs). destruct a; cbn in *; try done. pose proof (page_round_nonneg n Ha). lia.
  - intros k Hk. cbn [c_mapped foldr snd] in Hk. fold (c_mapped accs) in Hk. constructor; [|apply I4].
    + destruct a; cbn in *; try done. lia.
    + destruct a; cbn in *; try lia. pose proof (page_round_nonneg n Ha). lia.
Qed.

Definition no_memory : mem := Mem [] ∅.


Definition c_demo : list (bool * Resources * CAccess) :=
  (fun a => (true, enough, a)) <$> [CMmap 5000; CStore 4100 298; CLoad 4100; CLoad 4101].

Example c_demo_answers : (demo_run (c_ops c_demo)).1 = [Mapped (VRange 4096 8192); Stored; Loaded 42; Loaded 0].
Proof. vm_compute. reflexivity. Qed.

